(* ===== verification/_CoqProject ===== *)
-Q . S2P
Prelude.v
EventMonad.v
ByteOrder.v
Varint.v
Cursor.v
Frame.v
Control.v
Hash.v
UdpWire.v
FrameReassembler.v
StreamInbound.v
CrcSerial.v
ReorderBuffer.v
DedupWindow.v
ReliableArq.v
ArqLink.v
Fragmentation.v
DatagramReassembler.v
Security.v
Handshake.v
SendQueue.v
Negotiator.v
Egress.v
EgressRun.v
Qos.v
History.v
Registry.v
Forwarder.v
Subscription.v
ForwarderSafety.v
Procedure.v
Session.v
SessionSafety.v
SessionLink.v
UdpChannel.v
UdpLink.v
Atomics.v
ShmRing.v
ShmInvariant.v
ShmSafety.v
ShmTheorems.v
PeerTables.v
Liveliness.v
Liveness.v
Reconnect.v
Observation.v
Engine.v
EngineSafety.v
EngineWorld.v
AntiReplay.v
AuthChannel.v
AuthSafety.v
RecordRing.v
RecordStream.v
Recorder.v
PreBuffer.v
Announcement.v
MulticastDiscovery.v
UdpTransport.v
UdpServer.v
Upgrade.v
InprocBus.v
InprocExecutor.v
LoanPool.v
ShmBroker.v
ShmRegistry.v
ShmLifetime.v
