(* ===== verification/Prelude.v ===== *)
(** * Plexus: a verification development of the plexus middleware core

    Plexus is a publish/subscribe and remote-procedure middleware in C++.  A node
    publishes frames on topics; the core engine fans a frame out to the channels of
    the peers that subscribed, each channel carries bytes over a stream (TCP, Unix
    socket, serial line) or over datagrams (UDP, with an own ARQ), and a frame that
    arrives is reassembled, decoded and dispatched.  Sessions open with a handshake
    that authenticates the peer.  This library models the parts of the program that
    carry this logic as executable Rocq definitions and proves what makes them correct.

    ** Conventions

    A [std::byte] buffer is a [list byte]; an unsigned integer of [w] bits is a [Z] and
    every operation that can leave its range is reduced with [wrap w].  An access
    outside a buffer is [None] (or the [undefined] case of an outcome), so a theorem
    that an operation returns [Some _] is a theorem of memory safety.  Callbacks,
    timers, sockets and executors are inputs and outputs: a call of a callback is an
    element of a list of events, in the order of the calls, and the firing of a timer
    or the completion of a write is an operation of the component.  Clocks, entropy
    and the keyed MAC are arguments.  Template parameters of the source are type
    classes ([Host], [ByteChannel], [ChannelContract]) or section variables.

    ** The files and the code they model

    Wire formats, [lib/plexus-wire/include/plexus/wire/]:
    - [ByteOrder]: [byte_order.h], on little- and big-endian hosts;
    - [Varint]: [varint.h];
    - [Cursor]: [length_prefixed.h], [writer.h], [reader.h];
    - [Frame]: [frame.h], [frame_codec.h], [data_frame.h], [detail/data_frame_codec.h],
      [rpc_frame.h], [rpc_status.h];
    - [Control]: [handshake.h], [subscribe.h], [heartbeat.h], [fetch_latched.h] and their
      codecs;
    - [Hash]: [crc32c.h], [topic_hash.h];
    - [UdpWire]: [udp_envelope.h], [udp_ack.h], [detail/udp_envelope_codec.h] and
      [udp_handshake_frame.h] of [plexus-datagram].

    Byte streams:
    - [FrameReassembler]: [frame_reassembler.h], against the relation [stream_reads];
    - [StreamInbound]: [plexus-stream/.../stream_inbound.h], the no-progress timer;
    - [CrcSerial]: [plexus-stream/.../crc_serial.h], against the relation [resync_reads];
    - [SendQueue]: the stream and datagram send queues and the parking queue.

    Datagrams, [lib/plexus-datagram/include/plexus/datagram/detail/] and [plexus-asio]:
    - [ReorderBuffer]: [udp_reorder_buffer.h];
    - [DedupWindow]: [udp_dedup_window.h], [udp_rto_estimator.h];
    - [ReliableArq]: [udp_reliable_arq.h];
    - [ArqLink]: two ARQs over a network that loses, duplicates, delays and reorders;
    - [Fragmentation]: [lib/plexus-core/.../io/fragmentation.h];
    - [DatagramReassembler]: [reassembler.h], [reassembler_flat_map.h];
    - [UdpChannel]: [udp_channel.h] and [detail/udp_channel_io.h] of [backends/plexus-asio];
    - [UdpLink]: two UDP channels over the network of [ArqLink].

    Sessions and the engine, [lib/plexus-core/include/plexus/io/]:
    - [Security]: [security/], admission policies and the source-address cookie;
    - [Handshake]: [handshake_fsm.h], [handshake_protocol.h], [epoch_source.h],
      [host_fingerprint.h], [detail/handshake_gate.h];
    - [Egress]: [detail/priority_band_queue.h], [detail/egress_scheduler.h] and the sending
      half of the asio stream channel and of the type-erased channel;
    - [EgressRun]: runs of publications and write completions against a reference;
    - [EventMonad]: the state, error and event monad the engine's files are written in, with
      the rules of its weakest precondition;
    - [Negotiator]: [attach_negotiator.h], [detail/attach_resolve.h], [security_seam.h],
      [host_identity.h];
    - [Qos]: the QoS records, [qos_rxo.h], [subscribe_qos_wire.h];
    - [History]: [detail/history_ring.h], [detail/keyed_refcount.h];
    - [Registry]: [subscriber_registry.h], [detail/subscriber_dispatch.h],
      [subscription_endpoint.h];
    - [Forwarder], [Subscription], [ForwarderSafety]: [message_forwarder.h] and
      [detail/forwarder_fanout.h]: definitions and publication, subscription and replay,
      the invariant that every operation keeps for the engine;
    - [Procedure]: [procedure_forwarder.h], [detail/procedure_fanout.h];
    - [Session], [SessionSafety], [SessionLink]: [peer_session.h], [frame_router.h] and
      [detail/peer_session_*.h]: definitions, any input from the peer, two sessions on one
      connection;
    - [PeerTables]: the [std::map] and [detail/fixed_flat_map.h] tables behind one class;
    - [Liveliness]: [known_peers.h], [peer_liveliness.h], [detail/liveliness_fuse.h] and their
      storages;
    - [Liveness]: [liveliness_monitor.h], [detail/liveliness_scan.h], [liveness_storage.h];
    - [Reconnect]: [reconnect.h], the redial driver;
    - [Observation]: [capture_policy.h], [detail/routing_dispatch.h], the observers;
    - [Engine], [EngineSafety], [EngineWorld]: [routing_engine.h], [peer_session_registry.h],
      [detail/peer_session_build.h], [detail/routing_sink_install.h]: definitions, what a turn
      does to the channels, the turns of the executor in any order.

    Choosing and setting up a transport:
    - [UdpTransport]: [udp_handshake_arq.h] and [inbound_demux.h] of [plexus-datagram],
      [io/pending_dial_registry.h], [udp_transport.h] and [detail/udp_transport_setup.h] of
      [backends/plexus-asio]: dialing and accepting over a heap of channels;
    - [UdpServer]: [udp_server.h], [detail/udp_server_dispatch.h], the shared socket;
    - [Upgrade]: [io/transport_selector.h], [io/multiplexing_transport.h],
      [io/detail/mux_dispatch.h], [io/upgrade_coordinator.h], [io/detail/upgrade_rings.h];
    - [InprocBus], [InprocExecutor]: [backends/plexus-inproc], the in-process bus, its channels
      and transport, its executor and timers;
    - [LoanPool]: [detail/loan_pool_slab.h] and [detail/loan_pool.h] of [lib/plexus-api].

    Authenticated channels, [backends/plexus-crypto/]:
    - [AntiReplay]: [anti_replay_window.h];
    - [AuthChannel]: [aead_cipher], [key_schedule], [aead_epoch.h] and the datagram and the
      stream decorator;
    - [AuthSafety]: two ends of either, over a hostile network.

    Discovery, [lib/plexus-discovery/] and [lib/plexus-core/include/plexus/discovery/]:
    - [Announcement]: [wire/announcement.h], [contact_card.h], [universe.h] and the codecs between
      a card and an announcement;
    - [MulticastDiscovery]: [multicast_discovery.h], [static_discovery.h],
      [detail/discovery_flood_cap.h], [detail/announce_jitter.h].

    Recording, [lib/plexus-core/include/plexus/io/recording/]:
    - [RecordRing]: [byte_ring.h], against a queue of records;
    - [RecordStream]: [record_stream_writer.h], [record_stream_reader.h], [record_decode.h] and
      the format they share;
    - [Recorder]: [flat_recorder.h], [dropout_record.h];
    - [PreBuffer]: [pre_buffer_controller.h], [record_rate_gate.h], [recording_sink.h].

    Shared memory, [lib/plexus-shm/include/plexus/shm/]:
    - [Atomics]: threads as trees of atomic steps, their interleavings;
    - [ShmRing]: [broadcast_ring.h], [ring_layout.h], [ring_geometry.h], [slot_publisher.h],
      [slot_subscriber.h], [taken_message.h], [shm_slot_owner.h], [shm_channel.h];
    - [ShmInvariant], [ShmSafety], [ShmTheorems]: the invariant of the ring, that every step of
      every thread keeps it, and what it gives;
    - [ShmBroker]: [region_naming.h], [region_broker_concept.h] and, of [backends/plexus-native],
      [posix_shm_region_broker.cpp], [region_handle.cpp], [shm_error.h];
    - [ShmRegistry]: [shm_topic_registry.h], [detail/shm_topic_open.h], [shm_mux_member.h],
      [detail/shm_mux_acquire.h], [shm_byte_channel.h], [shm_selection.h],
      [shm_acquire_result.h], [shm_preference_hook.h];
    - [ShmLifetime]: the channels, consumers and probes of a process and the rings they refer to.

    ** How the parts interact

    The codecs of [Frame], [Control] and [UdpWire] are written with the cursors of
    [Cursor] over [ByteOrder] and [Varint].  [FrameReassembler] decodes headers with
    [Frame]; [StreamInbound] and [CrcSerial] drive it.  [ReliableArq] holds a reorder
    buffer and an estimator.  [UdpChannel] holds a dedup window, an ARQ, a fragment
    reassembler and a parking queue, cuts messages with [Fragmentation] and frames
    datagrams with [UdpWire]; [UdpLink] refines the invariant of [ArqLink] to it.
    [Egress] drains its bands into any channel that meets [ChannelContract]; the stream
    channel, which is built on [SendQueue], is proved to meet it.
    A [Session] drives a handshake machine of [Handshake] with the facts its [Negotiator]
    assembles, and lends the channels of the node to the message and procedure forwarders
    of the node, which it shares with the other sessions ([lend_messages], [lend_procedures]).
    [Forwarder] holds a [Registry], the retained frames of [History] and the scheduler of
    [Egress]; it asks of a channel what the class [PeerContract] states.  The [Engine] owns a
    slot per peer with the record that outlives its sessions, a redial driver of [Reconnect], the
    session and its channel; what a session, a forwarder or a driver calls out it handles with
    the tables of [Liveliness], [Liveness] and [Observation].  It destroys the channel of a slot
    when it builds the next session there: the classes [Condemned] and [Bystanders] name the
    channels that are about to go and those of the other sessions, so that the theorems on the
    forwarders and sessions hold for every such division of the channels.
    The transport of [UdpTransport] sends the handshakes of [UdpWire] through the socket of
    [UdpServer], which queues on [SendQueue]; what the channel it builds does with its datagrams is
    [UdpChannel].  [Upgrade] chooses among transports by the schemes and tiers of [Qos].
    [AuthChannel] decorates a channel and filters with [AntiReplay].  [MulticastDiscovery] puts the
    announcements of [Announcement] on the wire.  [Recorder] and [PreBuffer] encode with
    [RecordStream] into the ring of [RecordRing]; what the sink holds is read back with the same
    file's reader.  [InprocExecutor] steps the bus of [InprocBus].  [ShmRegistry] opens the regions of
    [ShmBroker] and the rings of [ShmRing] for them; its preference hook chooses among the candidates
    of [Upgrade].

    ** What the theorems show

    - Codecs: decoding what was encoded gives it back, also before trailing bytes; the
      decoders read inside their input on every input; combined framing equals the
      two-pass framing; inner datagram frames of different families never alias.
    - Streams: the reassembler and the serial decorator deliver exactly the frames their
      reference relation reads from the byte string, for every chunking; memory stays
      within its caps; the no-progress timer covers exactly the frames in progress and a
      dribbling peer cannot extend it.
    - Datagrams: in-order exactly-once delivery across wrap-around of sequence numbers
      over a lossy network, for segments ([ArqLink]) and for whole fragmented messages
      through both channels ([UdpLink]); fragments reassemble in any order; memory charged
      to partial messages is exact and capped.
    - Sessions: a handshake completes at most once between teardowns and only for an
      admitted peer; retries are bounded; simultaneous connects agree; the key-store policy
      admits exactly the holders of the right key.
    - Egress: through any run, a plaintext stream channel takes and writes exactly the frames
      a reference of four bands and a window of bytes hands over, with the same drops; the
      cases in which the code's gate misjudges a channel are proved too.
    - Publication: a publication reaches exactly the subscribers its reach allows, once, in
      the band of its priority; a late joiner is sent the last retained publications; a
      subscription is answered with exactly the verdict of the QoS check.
    - Remote calls: each accepted call resolves exactly once, by its answer, its deadline or
      the end of its session; a call answered by the peer's provider carries the provider's
      bytes back.
    - Peer sessions: whatever bytes the peer sends, through drops and restarts, the session
      returns, and the lifecycle edges it reports are a legal history that ends where the
      session is; frames of another
      epoch change nothing; what one side subscribes the other side serves.
    - The node: from a fresh engine, in any order of requests, frames, dials, errors, expiries and
      ticks, every turn returns, an endpoint is dialed once at a time and no reference to a
      destroyed channel is left, under the provisos the theorem lists, each with the theorem
      that shows what happens without it;
      a subscriber of the arbiter knows the verdict of every peer; a lapse is reported once; the
      driver retries within its bounds and then surrenders.
    - UDP transport: through any mix of dials, datagrams, expiries and closes no channel is used
      after it is gone, unless the expiry of a dial was queued when the dial went; a dial
      establishes one channel at each end with the same parameters, and one that is not answered
      gives up after the ladder.
    - Authenticated channels: exactly the sealed messages the replay window accepts are handed up,
      none twice; stream frames arrive across rekeys; a key seals at most the threshold.
    - Discovery: an advertised card is resolved byte for byte, or not, on every branch of the
      receiver; a source cannot exceed its rate or
      displace others; an advertising node goes on announcing.
    - Recording: the ring is a bounded queue of records; the recorder is a reference
      that accounts for every event in the sink, in the ring or among the shed ones, and what the
      sink holds reads back exactly; a cut stream loses only its last
      record; a frozen window drains exactly.
    - In process: the bus is first-in first-out; the loan pool frees its slab exactly when nothing
      refers to it; the upgrade coordinator is a table of pairs of a peer and a topic.
    - The shared-memory ring, for any number of processes and any interleaving: a message is
      delivered as it was sent or not at all; a consumer that is there from the start misses
      nothing of a reliable ring; every geometry the code computes is one the ring accepts.
      Around it, a topic has a ring exactly while a reference is held, no channel outlives its
      ring, and an acquire that fails leaves nothing behind; opening a second channel without a probe is the exception the code
      has, and it is proved too.

    ** Fuel

    A loop that is not structural takes fuel computed from its input, and each such loop
    has a lemma that the fuel is enough (the operation is total or returns [Some _]):
    [k_max_varint_bytes] for the varint writer, the number of buffered bytes for the two
    stream loops (every turn consumes a byte), the window for the reorder drain, the length
    of the parking queue and of the bands for the drains.  The waiting loops of the shared-memory
    ring need not end; their fuel is a parameter, the safety theorems hold for every fuel, and a
    thread that runs out of it says so ([Unfinished]).

    ** Not modelled, and why

    Sockets, resolvers, serial ports, TLS and DTLS contexts, FreeRTOS and Zephyr glue and
    mapped memory are I/O: they appear only as events and inputs.  The typed wrappers of
    the public API, the host tools, the examples and the tests add no protocol logic.
    The notifiers of the shared-memory ring and its Windows broker, and the
    node of the public API that composes engine, transport and discovery, are not modelled; the
    engine's model installs no upgrade coordinator.  OpenSSL is the class [Evp]; the iteration order
    of hash tables, the random draws, the parse of an address and the product of doubles are
    parameters.  The ring is modelled with sequentially consistent atomics instead of the memory
    orders of C++, up to 2^62 positions; its drain callback and its notifier are events, a drain
    posted by a disarmed notifier being none; a system call is a table of names and an argument
    that says whether it fails.  In a turn
    of the engine both clocks are read once.  The callbacks of the in-process backend are taken to be
    set, and what they do while a packet is delivered is an argument. *)

From stdpp Require Export prelude list gmap.
From coqutil Require Export Byte Word.LittleEndianList.
From Stdlib Require Export ZArith Lia.

#[export] Set Warnings "-clear-no-such-hyp".

Declare Scope plexus_scope.
Delimit Scope plexus_scope with plexus.
Open Scope Z_scope.
Open Scope plexus_scope.

(** ** Bytes and machine integers

    A [std::byte] buffer is a [list] of Rocq bytes; an unsigned machine
    integer of [w] bits is a [Z] and every operation that may leave the
    range writes its reduction modulo [2 ^ w] out with [wrap]. *)

Abbreviation byte := Init.Byte.byte.
Abbreviation bytes := (list Init.Byte.byte).

Notation "⟦ b ⟧" := (byte.unsigned b) (at level 0, format "⟦ b ⟧") : plexus_scope.

Definition wrap (w x : Z) : Z := x mod 2 ^ w.

(** Left shift in a [w]-bit unsigned type. *)
Definition shl (w v k : Z) : Z := wrap w (Z.shiftl v k).

(** [in_width w x]: [x] is a value of the [w]-bit unsigned type. *)
Definition in_width (w x : Z) : Prop := 0 <= x < 2 ^ w.

#[global] Instance in_width_dec w x : Decision (in_width w x).
Proof. unfold in_width. apply _. Defined.

Definition size_max : Z := 2 ^ 64 - 1.

(** The length of a container as a [std::size_t] value. *)
Definition zlen {A} (l : list A) : Z := Z.of_nat (length l).

(** ** Memory accesses through a pointer into a buffer

    [store] is a [memcpy] into [buf] at offset [at_], [load] a [memcpy] out of
    it.  An access that is not wholly inside the buffer is undefined behaviour
    in the source; it is [None] here, so that a theorem that an encoder returns
    [Some _] is also a theorem that it never writes out of bounds. *)

Definition store (buf : bytes) (at_ : nat) (src : bytes) : option bytes :=
  if decide (at_ + length src <= length buf)%nat
  then Some (list_inserts at_ src buf) else None.

Definition load (buf : bytes) (at_ n : nat) : option bytes :=
  if decide (at_ + n <= length buf)%nat
  then Some (take n (drop at_ buf)) else None.

(** [std::vector::resize]: keeps a prefix and value-initialises the rest. *)
Definition vresize {A} (zero : A) (n : nat) (l : list A) : list A :=
  take n l ++ replicate (n - length l) zero.

(** ** Tactics *)

(** Case analysis on every [decide], [if] and [match] in the goal. *)
Ltac split_cases :=
  repeat first [ case_decide | case_match ]; simplify_eq/=.

(** Close a goal about list lengths. *)
Ltac len :=
  repeat first
    [ rewrite length_app | rewrite length_cons | rewrite length_nil
    | rewrite length_drop | rewrite length_take | rewrite length_rev
    | rewrite length_replicate | rewrite length_le_split
    | rewrite length_inserts | rewrite length_insert ];
  simpl; try lia.

Ltac dlia := Z.to_euclidean_division_equations; lia.

(** [lia] with division and remainder by constants, and literal powers of two. *)
Ltac div_lia :=
  unfold in_width, wrap in *; cbn -[Z.div Z.modulo Z.mul Z.add Z.sub Z.opp] in *;
  Z.to_euclidean_division_equations; lia.

Create HintDb plexus.

(** ** Shared lemmas *)

Lemma zlen_nonneg {A} (l : list A) : 0 <= zlen l.
Proof. unfold zlen. lia. Qed.

Lemma zlen_app {A} (l k : list A) : zlen (l ++ k) = zlen l + zlen k.
Proof. unfold zlen. rewrite length_app. lia. Qed.

Lemma zlen_to_nat {A} (l : list A) : Z.to_nat (zlen l) = length l.
Proof. unfold zlen. lia. Qed.

Lemma wrap_range w x : 0 <= w -> in_width w (wrap w x).
Proof. intros. apply Z.mod_pos_bound, Z.pow_pos_nonneg; lia. Qed.

Lemma wrap_small w x : in_width w x -> wrap w x = x.
Proof. apply Z.mod_small. Qed.

Lemma wrap_wrap w x : 0 <= w -> wrap w (wrap w x) = wrap w x.
Proof. intros. apply wrap_small, wrap_range. done. Qed.

Lemma length_vresize {A} (z : A) n l : length (vresize z n l) = n.
Proof. unfold vresize. len. Qed.

Lemma nth_error_lookup {A} (l : list A) i : nth_error l i = l !! i.
Proof. revert i. induction l; intros [|i]; simpl; auto. Qed.

Lemma store_app pre rest src :
  (length src <= length rest)%nat ->
  store (pre ++ rest) (length pre) src = Some (pre ++ src ++ drop (length src) rest).
Proof.
  intros Hl. unfold store. rewrite decide_True by len. f_equal.
  rewrite <- (Nat.add_0_r (length pre)), list_inserts_app_r. f_equal.
  rewrite <- (take_drop (length src) rest) at 1.
  apply list_inserts_0_r. len.
Qed.

Lemma store_0 buf src :
  (length src <= length buf)%nat -> store buf 0 src = Some (src ++ drop (length src) buf).
Proof. apply (store_app []). Qed.

Lemma load_app pre mid post n :
  n = length mid -> load (pre ++ mid ++ post) (length pre) n = Some mid.
Proof.
  intros ->. unfold load. rewrite decide_True by len.
  by rewrite drop_app_length, take_app_length.
Qed.

Lemma load_Some buf at_ n src :
  load buf at_ n = Some src -> length src = n /\ src = take n (drop at_ buf).
Proof. unfold load. case_decide; intros; simplify_eq. split; [len | done]. Qed.

Lemma testbit_above w v i : in_width w v -> 0 <= w <= i -> Z.testbit v i = false.
Proof.
  intros [? ?] ?. destruct (decide (v = 0)) as [->|]; [apply Z.bits_0|].
  apply Z.bits_above_log2; [lia|].
  assert (Z.log2 v < w) by (apply Z.log2_lt_pow2; lia). lia.
Qed.

Lemma in_width_testbit w x :
  0 <= w -> 0 <= x -> (forall i, w <= i -> Z.testbit x i = false) -> in_width w x.
Proof.
  intros Hw Hx H. split; [done|].
  destruct (decide (x = 0)) as [->|]; [apply Z.pow_pos_nonneg; lia|].
  apply Z.log2_lt_pow2; [lia|]. destruct (decide (Z.log2 x < w)); [done|].
  assert (Z.testbit x (Z.log2 x) = false) by (apply H; lia).
  rewrite Z.bit_log2 in *; [done | lia].
Qed.

Lemma in_width_lor w x y : 0 <= w -> in_width w x -> in_width w y -> in_width w (Z.lor x y).
Proof.
  intros Hw Hx Hy. apply in_width_testbit; [done | |].
  - apply Z.lor_nonneg. destruct Hx, Hy. lia.
  - intros i Hi. rewrite Z.lor_spec, (testbit_above w x), (testbit_above w y); done || lia.
Qed.

Lemma in_width_land_l w x y : 0 <= w -> in_width w x -> in_width w (Z.land x y).
Proof.
  intros Hw Hx. apply in_width_testbit; [done | |].
  - apply Z.land_nonneg. destruct Hx. lia.
  - intros i Hi. rewrite Z.land_spec, (testbit_above w x); done || lia.
Qed.

Lemma in_width_shiftr w x k : 0 <= w -> 0 <= k -> in_width w x -> in_width w (Z.shiftr x k).
Proof.
  intros Hw Hk Hx. apply in_width_testbit; [done | |].
  - apply Z.shiftr_nonneg. destruct Hx. lia.
  - intros i Hi. rewrite Z.shiftr_spec, (testbit_above w x); done || lia.
Qed.

(** Bound a bit expression by its width. *)
Ltac in_width_bits :=
  repeat match goal with
  | |- in_width ?w (Z.lor _ _) => apply in_width_lor; [lia| |]
  | |- in_width ?w (Z.land _ _) => apply in_width_land_l; [lia|]
  | |- in_width ?w (shl ?w _ _) => apply wrap_range; lia
  | |- in_width ?w (wrap ?w _) => apply wrap_range; lia
  | |- in_width ?w (Z.shiftr _ _) => apply in_width_shiftr; [lia..|done]
  end.

(** Two integers with the same low eight bits are the same byte. *)
Lemma byte_of_Z_ext x y :
  (forall i, 0 <= i < 8 -> Z.testbit x i = Z.testbit y i) -> byte.of_Z x = byte.of_Z y.
Proof.
  intros H. apply byte.unsigned_inj. rewrite !byte.unsigned_of_Z. unfold byte.wrap.
  rewrite <- !Z.land_ones by lia. apply Z.bits_inj'. intros i Hi. rewrite !Z.land_spec.
  destruct (decide (i < 8)); [by rewrite H by lia|].
  rewrite !Z.ones_spec_high by lia. by rewrite !andb_false_r.
Qed.

Lemma byte_of_Z_wrap x : byte.of_Z (wrap 8 x) = byte.of_Z x.
Proof.
  apply byte.unsigned_inj. rewrite !byte.unsigned_of_Z. unfold byte.wrap, wrap.
  by rewrite Zmod_mod.
Qed.

Lemma unsigned_of_Z_small x : in_width 8 x -> byte.unsigned (byte.of_Z x) = x.
Proof. intros. rewrite byte.unsigned_of_Z. by apply Z.mod_small. Qed.

Lemma unsigned_in_width b : in_width 8 (byte.unsigned b).
Proof. apply byte.unsigned_range. Qed.

#[export] Hint Resolve unsigned_in_width zlen_nonneg : plexus.

Lemma le_split_wrap n v : le_split n (wrap (8 * Z.of_nat n) v) = le_split n v.
Proof. rewrite (le_split_mod v n). unfold wrap. do 3 f_equal. lia. Qed.

#[global] Instance byte_eq_dec : EqDecision byte.
Proof. intros x y. unfold Decision. destruct (Byte.byte_eq_dec x y); auto. Defined.
