(* ===== verification/EventMonad.v ===== *)
(** * Computations with state and events

    The operations of the channels, forwarders and sessions change an object and call
    out: to sockets, timers, executors and user callbacks.  [prog S E A] is such a
    computation on the state [S] with the calls as events [E], in the order in which
    they are made; [None] is an access out of bounds below it. *)

From S2P Require Import Prelude.

Definition prog (S E A : Type) : Type := S -> option (A * list E * S).

#[global] Instance prog_ret S E : MRet (prog S E) := fun A x s => Some (x, [], s).
#[global] Instance prog_bind S E : MBind (prog S E) := fun A B k m s =>
  match m s with
  | None => None
  | Some (x, evs, s) =>
      match k x s with
      | None => None
      | Some (y, evs', s) => Some (y, evs ++ evs', s)
      end
  end.

Definition gets {S E A} (f : S -> A) : prog S E A := fun s => Some (f s, [], s).
Definition modify {S E} (f : S -> S) : prog S E unit := fun s => Some (tt, [], f s).
Definition emit {S E} (ev : E) : prog S E unit := fun s => Some (tt, [ev], s).
Definition lift {S E A} (x : option A) : prog S E A := fun s => y ← x; Some (y, [], s).

(** A call per element, in order. *)
Fixpoint each {S E A} (f : A -> prog S E unit) (l : list A) : prog S E unit :=
  match l with
  | [] => mret tt
  | x :: l => f x ;; each f l
  end.

Section Laws.
Context {S E : Type}.

Lemma bind_run {A B} (m : prog S E A) (k : A -> prog S E B) s x evs s1 :
  m s = Some (x, evs, s1) ->
  (m ≫= k) s = match k x s1 with Some (y, evs', s2) => Some (y, evs ++ evs', s2) | None => None end.
Proof. intros H. unfold mbind, prog_bind. by rewrite H. Qed.

Lemma bind_run_Some {A B} (m : prog S E A) (k : A -> prog S E B) s x evs s1 y evs' s2 :
  m s = Some (x, evs, s1) -> k x s1 = Some (y, evs', s2) -> (m ≫= k) s = Some (y, evs ++ evs', s2).
Proof. intros H1 H2. rewrite (bind_run _ _ _ _ _ _ H1). by rewrite H2. Qed.

Lemma bind_gets {A B} (f : S -> A) (k : A -> prog S E B) s : (gets f ≫= k) s = k (f s) s.
Proof. unfold mbind, prog_bind, gets. by destruct (k (f s) s) as [ [ [? ?] ?]|]. Qed.

Lemma bind_modify {B} f (k : unit -> prog S E B) s : (modify f ≫= k) s = k tt (f s).
Proof. unfold mbind, prog_bind, modify. by destruct (k tt (f s)) as [ [ [? ?] ?]|]. Qed.

Lemma bind_lift {A B} (x : A) (k : A -> prog S E B) s : (lift (Some x) ≫= k) s = k x s.
Proof. unfold mbind, prog_bind, lift. cbn. by destruct (k x s) as [ [ [? ?] ?]|]. Qed.

Lemma bind_ret {A B} (x : A) (k : A -> prog S E B) s : (mret x ≫= k) s = k x s.
Proof. unfold mbind, prog_bind, mret, prog_ret. by destruct (k x s) as [ [ [? ?] ?]|]. Qed.

Lemma bind_emit {B} ev (k : unit -> prog S E B) s :
  (emit ev ≫= k) s = match k tt s with Some (y, evs, s) => Some (y, ev :: evs, s) | None => None end.
Proof. done. Qed.

Lemma each_app {A} (f : A -> prog S E unit) l l' s evs s1 :
  each f l s = Some (tt, evs, s1) ->
  each f (l ++ l') s = match each f l' s1 with Some (y, evs', s2) => Some (y, evs ++ evs', s2) | None => None end.
Proof.
  revert s evs. induction l as [|x l IH]; intros s evs H; cbn [each app] in *.
  - unfold mret, prog_ret in H. simplify_eq. by destruct (each f l' s1) as [ [ [? ?] ?]|].
  - unfold mbind, prog_bind in *. destruct (f x s) as [ [ [y e1] s2]|]; [|done].
    destruct (each f l s2) as [ [ [z e2] s3]|] eqn:E2; [|done]. simplify_eq. rewrite (IH _ _ E2).
    destruct (each f l' s1) as [ [ [? ?] ?]|]; [|done]. by rewrite app_assoc.
Qed.

End Laws.

(** A computation on a part of the state, with its events embedded. *)
Definition zoom {S T E F A} (get : S -> T) (put : T -> S -> S) (inj : F -> E) (m : prog T F A) : prog S E A :=
  fun s => match m (get s) with
           | None => None
           | Some (x, evs, t) => Some (x, map inj evs, put t s)
           end.

(** ** Weakest preconditions *)

(** [m] returns from [s], and its result, its events and the new state meet [Q]. *)
Definition wp {S E A} (m : prog S E A) (Q : A -> list E -> S -> Prop) (s : S) : Prop :=
  exists x evs s', m s = Some (x, evs, s') /\ Q x evs s'.

Section Rules.
Context {S E : Type}.

Lemma wp_mono {A} (m : prog S E A) (Q Q' : A -> list E -> S -> Prop) s :
  wp m Q s -> (forall x evs s', Q x evs s' -> Q' x evs s') -> wp m Q' s.
Proof. intros (x & evs & s' & H & HQ) Himp. exists x, evs, s'. auto. Qed.

Lemma wp_bind {A B} (m : prog S E A) (k : A -> prog S E B) Q s :
  wp m (fun x e1 s1 => wp (k x) (fun y e2 s2 => Q y (e1 ++ e2) s2) s1) s -> wp (m ≫= k) Q s.
Proof.
  intros (x & e1 & s1 & Hm & y & e2 & s2 & Hk & HQ). exists y, (e1 ++ e2), s2. split; [by eapply bind_run_Some|done].
Qed.

Lemma wp_ret {A} (x : A) (Q : A -> list E -> S -> Prop) s : Q x [] s -> wp (mret x) Q s.
Proof. intros H. by exists x, [], s. Qed.

Lemma wp_emit ev (Q : unit -> list E -> S -> Prop) s : Q tt [ev] s -> wp (emit ev) Q s.
Proof. intros H. by exists tt, [ev], s. Qed.

Lemma wp_modify f (Q : unit -> list E -> S -> Prop) s : Q tt [] (f s) -> wp (modify f) Q s.
Proof. intros H. by exists tt, [], (f s). Qed.

Lemma wp_gets {A} (f : S -> A) (Q : A -> list E -> S -> Prop) s : Q (f s) [] s -> wp (gets f) Q s.
Proof. intros H. by exists (f s), [], s. Qed.

Lemma wp_lift {A} (x : A) (Q : A -> list E -> S -> Prop) s : Q x [] s -> wp (lift (Some x)) Q s.
Proof. intros H. by exists x, [], s. Qed.

Lemma wp_bind_gets {A B} (f : S -> A) (k : A -> prog S E B) Q s : wp (k (f s)) Q s -> wp (gets f ≫= k) Q s.
Proof. intros (y & e & s' & H & HQ). exists y, e, s'. by rewrite bind_gets. Qed.

Lemma wp_bind_modify {B} f (k : unit -> prog S E B) Q s : wp (k tt) Q (f s) -> wp (modify f ≫= k) Q s.
Proof. intros (y & e & s' & H & HQ). exists y, e, s'. by rewrite bind_modify. Qed.

Lemma wp_bind_lift {A B} (x : A) (k : A -> prog S E B) Q s : wp (k x) Q s -> wp (lift (Some x) ≫= k) Q s.
Proof. intros (y & e & s' & H & HQ). exists y, e, s'. by rewrite bind_lift. Qed.

Lemma wp_bind_ret {A B} (x : A) (k : A -> prog S E B) Q s : wp (k x) Q s -> wp (mret x ≫= k) Q s.
Proof. intros (y & e & s' & H & HQ). exists y, e, s'. by rewrite bind_ret. Qed.

Lemma wp_bind_emit {B} ev (k : unit -> prog S E B) Q s :
  wp (k tt) (fun y evs s' => Q y (ev :: evs) s') s -> wp (emit ev ≫= k) Q s.
Proof. intros (y & e & s' & H & HQ). exists y, (ev :: e), s'. by rewrite bind_emit, H. Qed.

End Rules.

Lemma wp_zoom {S T E F A} (get : S -> T) (put : T -> S -> S) (inj : F -> E) (m : prog T F A) Q s :
  wp m (fun x evs t => Q x (map inj evs) (put t s)) (get s) -> wp (zoom get put inj m) Q s.
Proof. intros (x & evs & t & H & HQ). exists x, (map inj evs), (put t s). unfold zoom. by rewrite H. Qed.
