(* ===== verification/ByteOrder.v ===== *)
(** * Fixed-width integers in network byte order

    Models [lib/plexus-wire/include/plexus/wire/byte_order.h].  The source
    writes an integer by swapping its bytes on a little-endian host and copying
    its object representation; the host's byte order is the class [Host] here,
    so that the wire layout is proved to be big-endian on either host. *)

From S2P Require Import Prelude.

Inductive endian : Type := little | big.

Class Host : Type := native : endian.

(** ** [detail::byteswap] at its three widths *)

Definition byteswap16 (value : Z) : Z :=
  wrap 16 (Z.lor (Z.shiftr value 8) (Z.shiftl value 8)).

Definition byteswap32 (value : Z) : Z :=
  Z.lor (Z.shiftr value 24)
  (Z.lor (Z.land (Z.shiftr value 8) 0x0000FF00)
  (Z.lor (Z.land (shl 32 value 8) 0x00FF0000)
         (shl 32 value 24))).

Definition byteswap64 (value : Z) : Z :=
  Z.lor (Z.shiftr value 56)
  (Z.lor (Z.land (Z.shiftr value 40) 0x000000000000FF00)
  (Z.lor (Z.land (Z.shiftr value 24) 0x0000000000FF0000)
  (Z.lor (Z.land (Z.shiftr value 8) 0x00000000FF000000)
  (Z.lor (Z.land (shl 64 value 8) 0x000000FF00000000)
  (Z.lor (Z.land (shl 64 value 24) 0x0000FF0000000000)
  (Z.lor (Z.land (shl 64 value 40) 0x00FF000000000000)
         (shl 64 value 56))))))).

(** The object representation of an [n]-byte unsigned integer. *)
Definition repr (h : endian) (n : nat) (val : Z) : bytes :=
  match h with little => le_split n val | big => rev (le_split n val) end.

(** The value an [n]-byte object representation denotes. *)
Definition unrepr (h : endian) (bs : bytes) : Z :=
  match h with little => le_combine bs | big => le_combine (rev bs) end.

(** ** The readers and writers

    The parameters have their C types, so an argument is converted to the
    width on entry. *)

Section Access.
Context {host : Host}.

Definition write_u8 (buf : bytes) (dst : nat) (val : Z) : option bytes :=
  store buf dst [byte.of_Z (wrap 8 val)].

Definition read_u8 (buf : bytes) (src : nat) : option Z :=
  b ← buf !! src; Some ⟦b⟧.

Definition write_u16 (buf : bytes) (dst : nat) (val : Z) : option bytes :=
  let val := wrap 16 val in
  let val := match native with little => byteswap16 val | big => val end in
  store buf dst (repr native 2 val).

Definition read_u16 (buf : bytes) (src : nat) : option Z :=
  bs ← load buf src 2;
  let val := unrepr native bs in
  Some (match native with little => byteswap16 val | big => val end).

Definition write_u32 (buf : bytes) (dst : nat) (val : Z) : option bytes :=
  let val := wrap 32 val in
  let val := match native with little => byteswap32 val | big => val end in
  store buf dst (repr native 4 val).

Definition read_u32 (buf : bytes) (src : nat) : option Z :=
  bs ← load buf src 4;
  let val := unrepr native bs in
  Some (match native with little => byteswap32 val | big => val end).

Definition write_u64 (buf : bytes) (dst : nat) (val : Z) : option bytes :=
  let val := wrap 64 val in
  let val := match native with little => byteswap64 val | big => val end in
  store buf dst (repr native 8 val).

Definition read_u64 (buf : bytes) (src : nat) : option Z :=
  bs ← load buf src 8;
  let val := unrepr native bs in
  Some (match native with little => byteswap64 val | big => val end).

End Access.

(** ** The specification: big-endian encodings *)

Definition be_bytes (n : nat) (v : Z) : bytes := rev (le_split n v).
Definition be_value (bs : bytes) : Z := le_combine (rev bs).

Arguments be_bytes : simpl never.
Arguments be_value : simpl never.

Lemma length_be_bytes n v : length (be_bytes n v) = n.
Proof. unfold be_bytes. len. Qed.

Lemma be_value_be_bytes n v :
  in_width (8 * Z.of_nat n) v -> be_value (be_bytes n v) = v.
Proof.
  intros H. unfold be_value, be_bytes. rewrite rev_involutive, le_combine_split.
  rewrite Z.mul_comm. by apply Z.mod_small.
Qed.

Lemma be_bytes_be_value n bs : length bs = n -> be_bytes n (be_value bs) = bs.
Proof.
  intros <-. unfold be_value, be_bytes.
  rewrite <- (length_rev bs), split_le_combine. apply rev_involutive.
Qed.

Lemma be_value_range bs : in_width (8 * zlen bs) (be_value bs).
Proof.
  unfold be_value, in_width, zlen. rewrite <- (length_rev bs). apply le_combine_bound.
Qed.

Lemma be_bytes_wrap n v : be_bytes n (wrap (8 * Z.of_nat n) v) = be_bytes n v.
Proof. unfold be_bytes. by rewrite le_split_wrap. Qed.

(** ** Byte swapping reverses the object representation *)

Ltac compute_testbit :=
  repeat match goal with
  | |- context [Z.testbit (Zpos ?p) ?q] =>
      lazymatch q with
      | Z0 => idtac | Zpos _ => idtac
      end;
      let b := eval vm_compute in (Z.testbit (Zpos p) q) in
      change (Z.testbit (Zpos p) q) with b
  end.

Ltac byte_bits w v :=
  apply byte_of_Z_ext; intros i Hi;
  assert (i = 0 \/ i = 1 \/ i = 2 \/ i = 3 \/ i = 4 \/ i = 5 \/ i = 6 \/ i = 7) as HH by lia;
  repeat (destruct HH as [ -> | HH ]; [|]); try subst i;
  repeat first
    [ rewrite Z.lor_spec | rewrite Z.land_spec
    | rewrite Z.shiftr_spec by lia | rewrite Z.shiftl_spec by lia
    | rewrite <- Z.land_ones by lia | rewrite Z.testbit_ones by lia ];
  cbn -[Z.testbit];
  rewrite ?(testbit_above w v) by (try done; lia);
  rewrite ?(Z.testbit_neg_r v) by lia;
  compute_testbit;
  rewrite ?andb_true_r, ?andb_false_r, ?orb_false_l, ?orb_false_r; reflexivity.

Ltac swap_solve w v :=
  cbn [app]; rewrite ?Z.shiftr_shiftr by lia; unfold shl, wrap;
  repeat (apply (f_equal2 cons); [byte_bits w v|]); reflexivity.

Lemma le_split_byteswap16 v :
  in_width 16 v -> le_split 2 (byteswap16 v) = rev (le_split 2 v).
Proof. intros Hv. unfold le_split, rev, byteswap16. swap_solve 16 v. Qed.

Lemma le_split_byteswap32 v :
  in_width 32 v -> le_split 4 (byteswap32 v) = rev (le_split 4 v).
Proof. intros Hv. unfold le_split, rev, byteswap32. swap_solve 32 v. Qed.

Lemma le_split_byteswap64 v :
  in_width 64 v -> le_split 8 (byteswap64 v) = rev (le_split 8 v).
Proof. intros Hv. unfold le_split, rev, byteswap64. swap_solve 64 v. Qed.

Lemma unrepr_swap (swap : Z -> Z) n bs :
  (forall v, in_width (8 * Z.of_nat n) v -> le_split n (swap v) = rev (le_split n v)) ->
  (forall v, in_width (8 * Z.of_nat n) v -> in_width (8 * Z.of_nat n) (swap v)) ->
  length bs = n -> swap (le_combine bs) = be_value bs.
Proof.
  intros Hs Hw <-. unfold be_value.
  assert (in_width (8 * Z.of_nat (length bs)) (le_combine bs)) as Hb by apply le_combine_bound.
  rewrite <- (split_le_combine bs) at 2. rewrite <- Hs by done.
  rewrite le_combine_split, Z.mul_comm. symmetry. apply wrap_small. by apply Hw.
Qed.

Lemma byteswap16_width v : in_width 16 v -> in_width 16 (byteswap16 v).
Proof. intros. unfold byteswap16. in_width_bits. Qed.

Lemma byteswap32_width v : in_width 32 v -> in_width 32 (byteswap32 v).
Proof. intros. unfold byteswap32. in_width_bits. Qed.

Lemma byteswap64_width v : in_width 64 v -> in_width 64 (byteswap64 v).
Proof. intros. unfold byteswap64. in_width_bits. Qed.

Lemma repr_big_swap (swap : Z -> Z) (h : endian) n v :
  (forall v, in_width (8 * Z.of_nat n) v -> le_split n (swap v) = rev (le_split n v)) ->
  repr h n (match h with
            | little => swap (wrap (8 * Z.of_nat n) v)
            | big => wrap (8 * Z.of_nat n) v end) = be_bytes n v.
Proof.
  intros Hs. rewrite <- (be_bytes_wrap n v). destruct h; simpl; [|done].
  rewrite Hs; [done|]. apply wrap_range. lia.
Qed.

Lemma load_be_value (swap : Z -> Z) (h : endian) n buf src :
  (forall v, in_width (8 * Z.of_nat n) v -> le_split n (swap v) = rev (le_split n v)) ->
  (forall v, in_width (8 * Z.of_nat n) v -> in_width (8 * Z.of_nat n) (swap v)) ->
  (bs ← load buf src n;
   let val := unrepr h bs in
   Some (match h with little => swap val | big => val end)) = be_value <$> load buf src n.
Proof.
  intros Hs Hw. destruct (load buf src n) as [bs|] eqn:E; simpl; [|done].
  f_equal. destruct h; simpl; [|done].
  eapply unrepr_swap; [done..|]. by apply load_Some in E as [? _].
Qed.

Section AccessSpec.
Context {host : Host}.

Lemma write_u8_be buf dst v : write_u8 buf dst v = store buf dst (be_bytes 1 v).
Proof. unfold write_u8. rewrite byte_of_Z_wrap. done. Qed.

Lemma write_u16_be buf dst v : write_u16 buf dst v = store buf dst (be_bytes 2 v).
Proof.
  unfold write_u16.
  by rewrite (repr_big_swap byteswap16 native 2 v le_split_byteswap16).
Qed.

Lemma write_u32_be buf dst v : write_u32 buf dst v = store buf dst (be_bytes 4 v).
Proof.
  unfold write_u32.
  by rewrite (repr_big_swap byteswap32 native 4 v le_split_byteswap32).
Qed.

Lemma write_u64_be buf dst v : write_u64 buf dst v = store buf dst (be_bytes 8 v).
Proof.
  unfold write_u64.
  by rewrite (repr_big_swap byteswap64 native 8 v le_split_byteswap64).
Qed.

Lemma read_u8_be buf src : read_u8 buf src = be_value <$> load buf src 1.
Proof.
  unfold read_u8, load. case_decide as Hd.
  - destruct (lookup_lt_is_Some_2 buf src) as [b Hb]; [lia|].
    rewrite Hb, (drop_S _ b src) by done. simpl. unfold be_value. simpl.
    by rewrite le_combine_1.
  - rewrite lookup_ge_None_2 by lia. done.
Qed.

Lemma read_u16_be buf src : read_u16 buf src = be_value <$> load buf src 2.
Proof. apply load_be_value; [apply le_split_byteswap16 | apply byteswap16_width]. Qed.

Lemma read_u32_be buf src : read_u32 buf src = be_value <$> load buf src 4.
Proof. apply load_be_value; [apply le_split_byteswap32 | apply byteswap32_width]. Qed.

Lemma read_u64_be buf src : read_u64 buf src = be_value <$> load buf src 8.
Proof. apply load_be_value; [apply le_split_byteswap64 | apply byteswap64_width]. Qed.

End AccessSpec.

(** ** Theorems *)

Lemma be_bytes_lookup n v i :
  (i < n)%nat -> be_bytes n v !! i = Some (byte.of_Z (Z.shiftr v (8 * Z.of_nat (n - 1 - i)))).
Proof.
  intros Hi. unfold be_bytes.
  replace (rev (le_split n v) !! i) with (reverse (le_split n v) !! i) by (by unfold reverse; rewrite <- rev_alt).
  rewrite reverse_lookup by (rewrite length_le_split; lia). rewrite length_le_split.
  pose proof (nth_error_le_split (n - S i) n v ltac:(lia)) as H.
  rewrite nth_error_lookup in H. rewrite H. do 4 f_equal. lia.
Qed.

(** [network_access n write read]: [write] puts the [n] bytes of its argument at
    the pointer most significant first, changes nothing else, and [read] returns
    the value written. *)
Definition network_access (n : nat) (write : bytes -> nat -> Z -> option bytes)
    (read : bytes -> nat -> option Z) : Prop :=
  forall buf p v, (p + n <= length buf)%nat ->
  exists buf', write buf p v = Some buf' /\ length buf' = length buf /\
    (forall i, (i < n)%nat ->
       buf' !! (p + i)%nat = Some (byte.of_Z (Z.shiftr v (8 * Z.of_nat (n - 1 - i))))) /\
    (forall j, (j < p \/ p + n <= j)%nat -> buf' !! j = buf !! j) /\
    read buf' p = Some (wrap (8 * Z.of_nat n) v).

Lemma be_network_access n write read :
  (forall buf p v, write buf p v = store buf p (be_bytes n v)) ->
  (forall buf p, read buf p = be_value <$> load buf p n) ->
  network_access n write read.
Proof.
  intros Hw Hr buf p v Hp. exists (list_inserts p (be_bytes n v) buf).
  rewrite Hw, Hr. unfold store. rewrite decide_True by (rewrite length_be_bytes; done).
  split_and!; [done|apply length_inserts| | |].
  - intros i Hi. rewrite list_lookup_inserts by (rewrite ?length_be_bytes; lia).
    replace (p + i - p)%nat with i by lia. by apply be_bytes_lookup.
  - intros j [?|?]; [by apply list_lookup_inserts_lt|].
    apply list_lookup_inserts_ge. by rewrite length_be_bytes.
  - unfold load. rewrite decide_True by (rewrite length_inserts; done). simpl. f_equal.
    rewrite <- (be_value_be_bytes n (wrap _ v)) by (apply wrap_range; lia).
    rewrite be_bytes_wrap. f_equal. apply list_eq. intros i.
    destruct (decide (i < n)%nat) as [Hi|Hi].
    + rewrite lookup_take_lt, lookup_drop, list_lookup_inserts
        by (rewrite ?length_be_bytes; lia). f_equal. lia.
    + rewrite lookup_take_ge by lia. symmetry. apply lookup_ge_None. rewrite length_be_bytes. lia.
Qed.

(** On a little- or a big-endian host alike, the 16-, 32- and 64-bit
    accessors store integers most significant byte first, touch only their own
    bytes, and read back the value reduced to the field's width. *)
Theorem accessors_use_network_order (host : Host) :
  network_access 2 write_u16 read_u16 /\ network_access 4 write_u32 read_u32 /\
  network_access 8 write_u64 read_u64.
Proof.
  split_and!; apply be_network_access;
    auto using write_u16_be, write_u32_be, write_u64_be, read_u16_be, read_u32_be, read_u64_be.
Qed.
