(* ===== verification/Varint.v ===== *)
(** * The LEB128 counter codec

    Models [lib/plexus-wire/include/plexus/wire/varint.h].  The encoder's
    [do ... while] loop shifts seven bits out per turn, so ten turns are enough
    for any 64-bit value ([write_varint_total]); the fuel is therefore
    [k_max_varint_bytes].  The decoder's loop is bounded by the same constant in
    the source. *)

From S2P Require Import Prelude.

Definition k_max_varint_bytes : nat := 10.

(** [detail::varint_step]: whether the loop stops, the new [value], and the
    [overflow] flag. *)
Definition varint_step (b : Z) (i : nat) (value : Z) : bool * Z * bool :=
  let payload := Z.land b 0x7F in
  if (i =? k_max_varint_bytes - 1)%nat && (payload >? 0x01) then (true, value, true)
  else (Z.land b 0x80 =? 0, Z.lor value (shl 64 payload (7 * Z.of_nat i)), false).

(** The decoder loop at iteration [i], with [n] iterations left; the second
    component is the caller's [consumed] afterwards. *)
Fixpoint read_varint_loop (n i : nat) (data : bytes) (consumed offset : nat) (value : Z)
  : option Z * nat :=
  match n with
  | O => (None, consumed)
  | S n =>
      match data !! offset with
      | None => (None, consumed)
      | Some b =>
          let '(stop, value, overflow) := varint_step ⟦b⟧ i value in
          if (stop : bool) then
            if (overflow : bool) then (None, consumed) else (Some value, S offset)
          else read_varint_loop n (S i) data consumed (S offset) value
      end
  end.

Definition read_varint (data : bytes) (consumed : nat) : option Z * nat :=
  if decide (length data < consumed)%nat then (None, consumed)
  else read_varint_loop k_max_varint_bytes 0 data consumed consumed 0.

(** [varint_size]: the number of turns the encoder takes. *)
Fixpoint varint_size_loop (fuel : nat) (value : Z) (n : nat) : option nat :=
  match fuel with
  | O => None
  | S fuel =>
      let value := Z.shiftr value 7 in
      if value =? 0 then Some n else varint_size_loop fuel value (S n)
  end.

Definition varint_size (value : Z) : option nat :=
  varint_size_loop k_max_varint_bytes (wrap 64 value) 1.

(** [write_varint]: appends to [out]. *)
Fixpoint write_varint_loop (fuel : nat) (out : bytes) (value : Z) : option bytes :=
  match fuel with
  | O => None
  | S fuel =>
      let b := Z.land value 0x7F in
      let value := Z.shiftr value 7 in
      let b := if value =? 0 then b else Z.lor b 0x80 in
      let out := out ++ [byte.of_Z b] in
      if value =? 0 then Some out else write_varint_loop fuel out value
  end.

Definition write_varint (out : bytes) (value : Z) : option bytes :=
  write_varint_loop k_max_varint_bytes out (wrap 64 value).

(** ** Specification: the LEB128 value and its canonical encoding *)

Fixpoint leb_value (bs : bytes) : Z :=
  match bs with
  | [] => 0
  | b :: bs => Z.land ⟦b⟧ 0x7F + 128 * leb_value bs
  end.

Fixpoint leb_wf (bs : bytes) : Prop :=
  match bs with
  | [] => False
  | [b] => Z.land ⟦b⟧ 0x80 = 0
  | b :: bs => Z.land ⟦b⟧ 0x80 <> 0 /\ leb_wf bs
  end.

Fixpoint leb_bytes (fuel : nat) (v : Z) : bytes :=
  match fuel with
  | O => []
  | S fuel =>
      if Z.shiftr v 7 =? 0 then [byte.of_Z (Z.land v 0x7F)]
      else byte.of_Z (Z.lor (Z.land v 0x7F) 0x80) :: leb_bytes fuel (Z.shiftr v 7)
  end.

(** The encoding of a 64-bit counter. *)
Definition varint (v : Z) : bytes := leb_bytes k_max_varint_bytes (wrap 64 v).

Arguments varint : simpl never.

Lemma land_7f v : Z.land v 0x7F = v mod 128.
Proof. exact (Z.land_ones v 7 ltac:(lia)). Qed.

Lemma land_80 v : in_width 8 v -> Z.land v 0x80 = 0 <-> v < 128.
Proof.
  intros Hv. split; intros H.
  - destruct (decide (v < 128)); [done|].
    assert (Z.testbit (Z.land v 0x80) 7 = true) as Ht; [|by rewrite H, Z.bits_0 in Ht].
    rewrite Z.land_spec. apply andb_true_iff. split; [|done]. apply Z.testbit_true; [lia|].
    change (2 ^ 7) with 128. assert (v / 128 = 1) as -> by div_lia. done.
  - apply Z.bits_inj'. intros i Hi. rewrite Z.land_spec, Z.bits_0.
    destruct (decide (i = 7)) as [->|].
    + rewrite (testbit_above 7 v); [done| |lia]. destruct Hv. split; [lia|]. done.
    + change 128 with (2 ^ 7). rewrite Z.pow2_bits_false by lia. by rewrite andb_false_r.
Qed.

Lemma lor_7f_80 v : Z.lor (Z.land v 0x7F) 0x80 = Z.land v 0x7F + 128.
Proof.
  rewrite <- Z.lxor_lor, <- Z.add_nocarry_lxor; [done|..];
    apply Z.bits_inj'; intros i Hi; rewrite !Z.land_spec, Z.bits_0;
    (destruct (decide (i = 7)) as [->|];
     [rewrite (andb_comm (Z.testbit v 7)); done
     |change 128 with (2 ^ 7); rewrite Z.pow2_bits_false by lia; by rewrite andb_false_r]).
Qed.

Lemma lor_shiftl_add a b k :
  0 <= k -> in_width k a -> Z.lor a (Z.shiftl b k) = a + b * 2 ^ k.
Proof.
  intros Hk Ha. rewrite <- Z.shiftl_mul_pow2 by done.
  rewrite <- Z.lxor_lor, <- Z.add_nocarry_lxor; [done|..];
    apply Z.bits_inj'; intros i Hi; rewrite Z.land_spec, Z.bits_0, Z.shiftl_spec by done;
    (destruct (decide (i < k));
     [rewrite (Z.testbit_neg_r b) by lia; by rewrite andb_false_r
     |rewrite (testbit_above k a) by (done || lia); done]).
Qed.

Lemma leb_value_range bs : 0 <= leb_value bs < 2 ^ (7 * zlen bs).
Proof.
  induction bs as [|b bs IH]; [done|]. simpl leb_value. rewrite land_7f.
  pose proof (Z.mod_pos_bound ⟦b⟧ 128 ltac:(lia)).
  replace (7 * zlen (b :: bs)) with (7 + 7 * zlen bs) by (unfold zlen; simpl; lia).
  rewrite Z.pow_add_r by (pose proof (zlen_nonneg bs); lia). change (2 ^ 7) with 128. lia.
Qed.

Lemma leb_bytes_value fuel v :
  0 <= v < 2 ^ (7 * Z.of_nat fuel) -> leb_value (leb_bytes fuel v) = v.
Proof.
  revert v. induction fuel as [|f IH]; intros v Hv; [change (2 ^ _) with 1 in Hv; simpl; lia|].
  cbn [leb_bytes]. pose proof (Z.mod_pos_bound v 128 ltac:(lia)).
  assert (in_width 8 (Z.land v 127)) by (rewrite land_7f; unfold in_width; lia).
  assert (in_width 8 (Z.land v 127 + 128)) by (rewrite land_7f; unfold in_width; lia).
  rewrite Z.shiftr_div_pow2 by lia. change (2 ^ 7) with 128.
  destruct (v / 128 =? 0) eqn:E; cbn [leb_value].
  - apply Z.eqb_eq in E. rewrite unsigned_of_Z_small, !land_7f by done.
    rewrite Zmod_mod. dlia.
  - rewrite lor_7f_80, unsigned_of_Z_small, IH, !land_7f by (done ||
      (replace (7 * Z.of_nat (S f)) with (7 + 7 * Z.of_nat f) in Hv by lia;
       rewrite Z.pow_add_r in Hv by lia; change (2 ^ 7) with 128 in Hv; dlia)).
    replace (v mod 128 + 128) with (v mod 128 + 1 * 128) by lia.
    rewrite Z_mod_plus_full, Zmod_mod. dlia.
Qed.

Lemma leb_bytes_wf fuel v :
  0 <= v < 2 ^ (7 * Z.of_nat fuel) -> (0 < fuel)%nat -> leb_wf (leb_bytes fuel v).
Proof.
  revert v. induction fuel as [|f IH]; intros v Hv Hf; [lia|].
  cbn [leb_bytes]. pose proof (Z.mod_pos_bound v 128 ltac:(lia)).
  assert (in_width 8 (Z.land v 127)) by (rewrite land_7f; unfold in_width; lia).
  assert (in_width 8 (Z.land v 127 + 128)) by (rewrite land_7f; unfold in_width; lia).
  rewrite Z.shiftr_div_pow2 by lia. change (2 ^ 7) with 128.
  destruct (v / 128 =? 0) eqn:E.
  - cbn. rewrite unsigned_of_Z_small by done. apply land_80; [done|]. rewrite land_7f. lia.
  - apply Z.eqb_neq in E.
    replace (7 * Z.of_nat (S f)) with (7 + 7 * Z.of_nat f) in Hv by lia.
    rewrite Z.pow_add_r in Hv by lia. change (2 ^ 7) with 128 in Hv.
    assert (leb_wf (leb_bytes f (v / 128))) as Hw.
    { destruct f; [change (2 ^ _) with 1 in Hv; dlia|]. apply IH; dlia. }
    destruct (leb_bytes f (v / 128)) as [|c cs]; [done|].
    split; [|done]. rewrite lor_7f_80, unsigned_of_Z_small by done.
    rewrite land_80 by done. rewrite land_7f. lia.
Qed.

Lemma write_varint_loop_spec fuel out v :
  0 <= v < 2 ^ (7 * Z.of_nat fuel) -> (0 < fuel)%nat ->
  write_varint_loop fuel out v = Some (out ++ leb_bytes fuel v).
Proof.
  revert out v. induction fuel as [|f IH]; intros out v Hv Hf; [lia|].
  cbn [write_varint_loop leb_bytes]. destruct (Z.shiftr v 7 =? 0) eqn:E; [done|].
  rewrite Z.shiftr_div_pow2 in E |- * by lia. change (2 ^ 7) with 128 in *.
  replace (7 * Z.of_nat (S f)) with (7 + 7 * Z.of_nat f) in Hv by lia.
  rewrite Z.pow_add_r in Hv by lia. change (2 ^ 7) with 128 in Hv.
  rewrite IH; [by rewrite <- app_assoc| |destruct f; [change (2 ^ _) with 1 in Hv|]]; dlia.
Qed.

Lemma varint_size_loop_spec fuel v n :
  0 <= v < 2 ^ (7 * Z.of_nat fuel) -> (0 < fuel)%nat ->
  varint_size_loop fuel v n = Some (length (leb_bytes fuel v) + n - 1)%nat.
Proof.
  revert n v. induction fuel as [|f IH]; intros n v Hv Hf; [lia|].
  cbn [varint_size_loop leb_bytes]. destruct (Z.shiftr v 7 =? 0) eqn:E; [simpl; f_equal; lia|].
  rewrite Z.shiftr_div_pow2 in E |- * by lia. change (2 ^ 7) with 128 in *.
  replace (7 * Z.of_nat (S f)) with (7 + 7 * Z.of_nat f) in Hv by lia.
  rewrite Z.pow_add_r in Hv by lia. change (2 ^ 7) with 128 in Hv.
  rewrite IH; [simpl; f_equal; lia| |destruct f; [change (2 ^ _) with 1 in Hv|]]; dlia.
Qed.

Lemma length_leb_bytes fuel v : (length (leb_bytes fuel v) <= fuel)%nat.
Proof.
  revert v. induction fuel as [|f IH]; intros v; [done|].
  cbn [leb_bytes]. case_match; simpl; [lia|]. specialize (IH (Z.shiftr v 7)). lia.
Qed.

Lemma wrap64_fuel v : 0 <= wrap 64 v < 2 ^ (7 * Z.of_nat k_max_varint_bytes).
Proof.
  pose proof (wrap_range 64 v ltac:(lia)) as [? ?].
  change (2 ^ (7 * Z.of_nat k_max_varint_bytes)) with (2 ^ 64 * 64). lia.
Qed.

Lemma length_varint v : (1 <= length (varint v) <= 10)%nat.
Proof.
  split; [|apply length_leb_bytes].
  pose proof (leb_bytes_wf 10 (wrap 64 v) (wrap64_fuel v) ltac:(lia)) as H.
  unfold varint, k_max_varint_bytes. destruct (leb_bytes 10 (wrap 64 v)); [done|simpl; lia].
Qed.

Lemma write_varint_spec out v : write_varint out v = Some (out ++ varint v).
Proof. apply write_varint_loop_spec; [apply wrap64_fuel | unfold k_max_varint_bytes; lia]. Qed.

Lemma varint_size_spec v : varint_size v = Some (length (varint v)).
Proof.
  unfold varint_size. rewrite varint_size_loop_spec;
    [unfold varint; f_equal; lia | apply wrap64_fuel | unfold k_max_varint_bytes; lia].
Qed.

(** ** The decoder *)

Lemma varint_step_spec b i value :
  (i < 10)%nat -> in_width (7 * Z.of_nat i) value ->
  varint_step ⟦b⟧ i value =
    if (i =? 9)%nat && (Z.land ⟦b⟧ 0x7F >? 1) then (true, value, true)
    else (Z.land ⟦b⟧ 0x80 =? 0, value + Z.land ⟦b⟧ 0x7F * 2 ^ (7 * Z.of_nat i), false).
Proof.
  intros Hi Hv. unfold varint_step, k_max_varint_bytes. simpl Nat.sub.
  destruct ((i =? 9)%nat && _) eqn:E; [done|]. f_equal. f_equal.
  rewrite land_7f in *. unfold shl. rewrite wrap_small.
  { apply lor_shiftl_add; [lia|done]. }
  rewrite Z.shiftl_mul_pow2 by lia. pose proof (Z.mod_pos_bound ⟦b⟧ 128 ltac:(lia)).
  split; [pose proof (Z.pow_pos_nonneg 2 (7 * Z.of_nat i)); nia|].
  destruct (Nat.eqb_spec i 9) as [->|].
  - simpl in E. change (2 ^ (7 * Z.of_nat 9)) with (2 ^ 63). change (2 ^ 64) with (2 * 2 ^ 63).
    rewrite Z.gtb_ltb in E. apply Z.ltb_ge in E. lia.
  - assert (2 ^ (7 * Z.of_nat i) <= 2 ^ 57) by (apply Z.pow_le_mono_r; lia).
    change (2 ^ 64) with (128 * 2 ^ 57). nia.
Qed.

Lemma pow7_S i : 2 ^ (7 * Z.of_nat (S i)) = 128 * 2 ^ (7 * Z.of_nat i).
Proof.
  replace (7 * Z.of_nat (S i)) with (7 + 7 * Z.of_nat i) by lia.
  by rewrite Z.pow_add_r by lia.
Qed.

Lemma step_in_width i value b :
  in_width (7 * Z.of_nat i) value ->
  in_width (7 * Z.of_nat (S i)) (value + Z.land ⟦b⟧ 0x7F * 2 ^ (7 * Z.of_nat i)).
Proof.
  intros [? ?]. unfold in_width. rewrite pow7_S, land_7f.
  pose proof (Z.mod_pos_bound ⟦b⟧ 128 ltac:(lia)). nia.
Qed.

(** Reading a well-formed group of at most ten bytes whose value fits. *)
Lemma read_varint_loop_wf bs : forall i pre post consumed value,
  leb_wf bs -> (i + length bs <= 10)%nat -> in_width (7 * Z.of_nat i) value ->
  value + leb_value bs * 2 ^ (7 * Z.of_nat i) < 2 ^ 64 ->
  read_varint_loop (10 - i) i (pre ++ bs ++ post) consumed (length pre) value
  = (Some (value + leb_value bs * 2 ^ (7 * Z.of_nat i)), (length pre + length bs)%nat).
Proof.
  induction bs as [|b bs IH]; intros i pre post consumed value Hwf Hlen Hv Hlt; [done|].
  simpl in Hlen. replace (10 - i)%nat with (S (10 - S i)) by lia. cbn [read_varint_loop].
  assert ((pre ++ (b :: bs) ++ post) !! length pre = Some b) as -> by by apply list_lookup_middle.
  rewrite varint_step_spec by (done || lia). cbn [leb_value] in *. destruct Hv as [Hv0 Hv1].
  pose proof (leb_value_range bs) as [Hb _].
  assert (0 < 2 ^ (7 * Z.of_nat i)) by (apply Z.pow_pos_nonneg; lia).
  pose proof (Z.mod_pos_bound ⟦b⟧ 128 ltac:(lia)). rewrite land_7f in *.
  replace ((i =? 9)%nat && (⟦b⟧ mod 128 >? 1)) with false.
  2: { symmetry. apply andb_false_iff. destruct (Nat.eqb_spec i 9) as [->|]; [right|by left].
       rewrite Z.gtb_ltb. apply Z.ltb_ge. change (2 ^ (7 * Z.of_nat 9)) with (2 ^ 63) in *.
       change (2 ^ 64) with (2 * 2 ^ 63) in *. nia. }
  destruct bs as [|c bs].
  - cbn in Hwf. rewrite (proj2 (Z.eqb_eq _ _) Hwf). cbn [leb_value length].
    f_equal; [f_equal; lia | lia].
  - destruct Hwf as [Hb7 Hwf]. apply Z.eqb_neq in Hb7. rewrite Hb7.
    replace (pre ++ (b :: c :: bs) ++ post) with ((pre ++ [b]) ++ (c :: bs) ++ post)
      by (by rewrite <- app_assoc).
    replace (S (length pre)) with (length (pre ++ [b])) by len.
    rewrite IH; [|done|lia|rewrite <- land_7f; by apply step_in_width|].
    + rewrite pow7_S. f_equal; [f_equal; lia|len].
    + rewrite pow7_S. lia.
Qed.

(** What an accepted group is. *)
Lemma read_varint_loop_sound n : forall i data consumed offset value v c,
  (n + i = 10)%nat -> in_width (7 * Z.of_nat i) value ->
  read_varint_loop n i data consumed offset value = (Some v, c) ->
  exists bs, leb_wf bs /\ take (length bs) (drop offset data) = bs /\
    c = (offset + length bs)%nat /\ (length bs <= n)%nat /\ (c <= length data)%nat /\
    v = value + leb_value bs * 2 ^ (7 * Z.of_nat i) /\ in_width 64 v.
Proof.
  induction n as [|n IH]; intros i data consumed offset value v c Hn Hv H; [done|].
  cbn [read_varint_loop] in H. destruct (data !! offset) as [b|] eqn:Eb; [|done].
  pose proof (lookup_lt_Some _ _ _ Eb) as Hlt.
  rewrite varint_step_spec in H by (done || lia).
  destruct ((i =? 9)%nat && _) eqn:Eo; [done|].
  pose proof (step_in_width i value b Hv) as Hv'. rewrite (drop_S _ _ _ Eb).
  destruct (Z.land ⟦b⟧ 128 =? 0) eqn:E7.
  - simplify_eq. apply Z.eqb_eq in E7. exists [b]. cbn [leb_value length].
    split_and!; [done|done|lia|lia|lia|lia|].
    destruct Hv as [Hv0 Hv1], Hv' as [H0 H1]. split; [lia|].
    assert (0 < 2 ^ (7 * Z.of_nat i)) by (apply Z.pow_pos_nonneg; lia).
    destruct (Nat.eqb_spec i 9) as [->|].
    + rewrite andb_true_l, Z.gtb_ltb in Eo. apply Z.ltb_ge in Eo.
      change (2 ^ (7 * Z.of_nat 9)) with (2 ^ 63) in *. change (2 ^ 64) with (2 * 2 ^ 63). nia.
    + eapply Z.lt_le_trans; [apply H1|]. apply Z.pow_le_mono_r; lia.
  - apply IH in H as (bs & Hwf & Htk & -> & Hl & Hc & -> & Hw); [|lia|done].
    apply Z.eqb_neq in E7. exists (b :: bs). destruct bs as [|x bs]; [done|].
    split_and!; [done| |simpl; lia|simpl in *; lia|simpl in *; lia| |done].
    + cbn [length take]. f_equal. done.
    + cbn [leb_value] in *. rewrite pow7_S. lia.
Qed.

Lemma read_varint_loop_fail n : forall i data consumed offset value c,
  read_varint_loop n i data consumed offset value = (None, c) -> c = consumed.
Proof.
  induction n as [|n IH]; intros i data consumed offset value c H; cbn in H; [congruence|].
  destruct (data !! offset); [|congruence].
  destruct (varint_step _ _ _) as [[stop value'] overflow].
  destruct stop, overflow; try congruence; eauto.
Qed.

Lemma read_varint_at pre v post :
  in_width 64 v ->
  read_varint (pre ++ varint v ++ post) (length pre)
  = (Some v, (length pre + length (varint v))%nat).
Proof.
  intros Hv. unfold read_varint. rewrite decide_False by len.
  pose proof (wrap64_fuel v) as Hw. unfold varint. rewrite wrap_small in * by done.
  assert (leb_value (leb_bytes k_max_varint_bytes v) = v) as Hval by by apply leb_bytes_value.
  rewrite (read_varint_loop_wf _ 0).
  - rewrite Hval. f_equal. f_equal. simpl. lia.
  - by apply leb_bytes_wf; [|unfold k_max_varint_bytes; lia].
  - apply length_leb_bytes.
  - split; [done|]. by vm_compute.
  - rewrite Hval. simpl. destruct Hv. lia.
Qed.

(** ** Theorems *)

(** The encoder appends one to ten bytes, as many as [varint_size] says, and
    the decoder started at their offset returns the value and stops right behind
    them, whatever surrounds them. *)
Theorem varint_roundtrip (out rest : bytes) (v : Z) :
  in_width 64 v ->
  exists bs, write_varint out v = Some (out ++ bs) /\ varint_size v = Some (length bs) /\
    (1 <= length bs <= k_max_varint_bytes)%nat /\
    read_varint ((out ++ bs) ++ rest) (length out) = (Some v, (length out + length bs)%nat).
Proof.
  intros Hv. exists (varint v). split_and!.
  - apply write_varint_spec.
  - apply varint_size_spec.
  - apply length_varint.
  - apply length_varint.
  - rewrite <- app_assoc. by apply read_varint_at.
Qed.

Lemma varint_roundtrip_witness :
  exists bs, write_varint [Byte.x01] 300 = Some ([Byte.x01] ++ bs) /\
    varint_size 300 = Some (length bs) /\ (1 <= length bs <= k_max_varint_bytes)%nat /\
    read_varint (([Byte.x01] ++ bs) ++ [Byte.x02]) 1 = (Some 300, (1 + length bs)%nat).
Proof. apply (varint_roundtrip [Byte.x01] [Byte.x02] 300). split; [lia|reflexivity]. Defined.

(** Whatever the input, a decoded counter is the LEB128 value of the at most
    ten bytes consumed, fits 64 bits and ends inside the buffer; a refusal leaves
    the caller's offset where it was. *)
Theorem varint_decode_sound (data : bytes) (consumed : nat) :
  match read_varint data consumed with
  | (Some v, c) =>
      (consumed < c <= length data)%nat /\ (c - consumed <= k_max_varint_bytes)%nat /\
      in_width 64 v /\ v = leb_value (take (c - consumed) (drop consumed data)) /\
      leb_wf (take (c - consumed) (drop consumed data))
  | (None, c) => c = consumed
  end.
Proof.
  unfold read_varint. case_decide; [done|].
  destruct (read_varint_loop _ _ _ _ _ _) as [ [v|] c] eqn:E;
    [|by apply read_varint_loop_fail in E].
  apply read_varint_loop_sound in E as (bs & Hwf & Htk & -> & Hl & Hc & -> & Hw);
    [|done|split; [done|by vm_compute]].
  replace (consumed + length bs - consumed)%nat with (length bs) by lia. rewrite Htk.
  assert (0 < length bs)%nat by (destruct bs; [done|simpl; lia]).
  split_and!; [lia|lia|done|done|lia|done].
Qed.
