(* ===== verification/Cursor.v ===== *)
(** * The field cursors

    Models [length_prefixed.h], [writer.h] and [reader.h] of
    [lib/plexus-wire/include/plexus/wire/].  The writer fills a caller-sized
    region and has no bounds check of its own: an operation that would leave the
    region is [None].  The reader checks every access and latches [ok] false on
    the first underrun. *)

From S2P Require Import Prelude ByteOrder Varint.

(** ** [read_length_prefixed] *)

Section Definitions.
Context {host : Host}.

(** [detail::read_length_value] at [sizeof(UIntT) = width]. *)
Definition read_length_value (width : nat) (buf : bytes) (at_ : nat) : option Z :=
  match width with
  | 1%nat => read_u8 buf at_
  | 2%nat => read_u16 buf at_
  | 4%nat => read_u32 buf at_
  | 8%nat => read_u64 buf at_
  | _ => None
  end.

Definition read_length_prefixed (width : nat) (data : bytes) (consumed : nat)
    (element_size : Z) : option bytes * nat :=
  if decide (length data < consumed)%nat then (None, consumed) else
  let remaining_after_consumed := (length data - consumed)%nat in
  if decide (remaining_after_consumed < width)%nat then (None, consumed) else
  match read_length_value width data consumed with
  | None => (None, consumed)
  | Some length_sz =>
      if negb (element_size =? 0) && (length_sz >? size_max / element_size)
      then (None, consumed) else
      let payload_bytes := wrap 64 (length_sz * element_size) in
      let after_prefix := (remaining_after_consumed - width)%nat in
      if payload_bytes >? Z.of_nat after_prefix then (None, consumed) else
      let payload_offset := (consumed + width)%nat in
      (Some (take (Z.to_nat payload_bytes) (drop payload_offset data)),
       (payload_offset + Z.to_nat payload_bytes)%nat)
  end.

(** ** [class writer] *)

Record writer : Type := Writer { m_region : bytes; w_offset : nat }.

Definition writer_of (region : bytes) : writer := Writer region 0.

Definition advance (w : writer) (n : nat) (region : bytes) : writer :=
  Writer region (w_offset w + n).

Definition writer_u8 (w : writer) (v : Z) : option writer :=
  region ← write_u8 (m_region w) (w_offset w) v; Some (advance w 1 region).

Definition writer_u16 (w : writer) (v : Z) : option writer :=
  region ← write_u16 (m_region w) (w_offset w) v; Some (advance w 2 region).

Definition writer_u32 (w : writer) (v : Z) : option writer :=
  region ← write_u32 (m_region w) (w_offset w) v; Some (advance w 4 region).

Definition writer_u64 (w : writer) (v : Z) : option writer :=
  region ← write_u64 (m_region w) (w_offset w) v; Some (advance w 8 region).

Definition writer_bytes (w : writer) (blob : bytes) : option writer :=
  region ← (match blob with
            | [] => Some (m_region w)
            | _ => store (m_region w) (w_offset w) blob
            end);
  Some (advance w (length blob) region).

Fixpoint writer_varint_loop (fuel : nat) (w : writer) (value : Z) : option writer :=
  match fuel with
  | O => None
  | S fuel =>
      let b := Z.land value 0x7F in
      let value := Z.shiftr value 7 in
      let b := if value =? 0 then b else Z.lor b 0x80 in
      region ← store (m_region w) (w_offset w) [byte.of_Z b];
      let w := advance w 1 region in
      if value =? 0 then Some w else writer_varint_loop fuel w value
  end.

Definition writer_varint (w : writer) (value : Z) : option writer :=
  writer_varint_loop k_max_varint_bytes w (wrap 64 value).

(** ** [class reader] *)

Record reader : Type := Reader { m_data : bytes; r_offset : nat; m_ok : bool }.

Definition reader_of (data : bytes) : reader := Reader data 0 true.

Definition reader_ok (r : reader) : bool := m_ok r.
Definition reader_consumed (r : reader) : nat := r_offset r.
Definition reader_remaining (r : reader) : nat := length (m_data r) - r_offset r.

Definition reader_take (r : reader) (width : nat) : bool * reader :=
  if negb (m_ok r) || (reader_remaining r <? width)%nat
  then (false, Reader (m_data r) (r_offset r) false)
  else (true, Reader (m_data r) (r_offset r + width) (m_ok r)).

(** A fixed-width field: the zero sentinel when [take] refuses. *)
Definition reader_field (width : nat) (read : bytes -> nat -> option Z) (r : reader) : Z * reader :=
  let '(taken, r) := reader_take r width in
  if taken then (default 0 (read (m_data r) (r_offset r - width)%nat), r) else (0, r).

Definition reader_u8 (r : reader) : Z * reader := reader_field 1 read_u8 r.
Definition reader_u16 (r : reader) : Z * reader := reader_field 2 read_u16 r.
Definition reader_u32 (r : reader) : Z * reader := reader_field 4 read_u32 r.
Definition reader_u64 (r : reader) : Z * reader := reader_field 8 read_u64 r.

Definition reader_bytes (r : reader) (n : nat) : bytes * reader :=
  let '(taken, r) := reader_take r n in
  if taken then (take n (drop (r_offset r - n) (m_data r)), r) else ([], r).

(** [copy_to]: the destination afterwards. *)
Definition reader_copy_to (r : reader) (dst : bytes) (n : nat) : bytes * reader :=
  let '(view, r) := reader_bytes r n in
  if m_ok r && negb (n =? 0)%nat then (default dst (store dst 0 view), r) else (dst, r).

Definition reader_varint (r : reader) : option Z * reader :=
  if negb (m_ok r) then (None, r) else
  let '(value, offset) := read_varint (m_data r) (r_offset r) in
  match value with
  | None => (None, Reader (m_data r) offset false)
  | Some v => (Some v, Reader (m_data r) offset (m_ok r))
  end.

Definition reader_length_prefixed (width : nat) (r : reader) (element_size : Z) : bytes * reader :=
  if negb (m_ok r) then ([], r) else
  let '(payload, offset) := read_length_prefixed width (m_data r) (r_offset r) element_size in
  match payload with
  | None => ([], Reader (m_data r) offset false)
  | Some p => (p, Reader (m_data r) offset (m_ok r))
  end.

Definition reader_rest (r : reader) : bytes := drop (r_offset r) (m_data r).

End Definitions.

(** ** Writing: a region split at the cursor *)

(** The writer after [pre] has been written, with [rest] still to fill. *)
Definition wr (pre rest : bytes) : writer := Writer (pre ++ rest) (length pre).

Lemma writer_of_wr region : writer_of region = wr [] region.
Proof. done. Qed.

Section WriterLemmas.
Context {host : Host}.

Lemma store_wr pre rest src :
  (length src <= length rest)%nat ->
  (region ← store (m_region (wr pre rest)) (w_offset (wr pre rest)) src;
   Some (advance (wr pre rest) (length src) region)) = Some (wr (pre ++ src) (drop (length src) rest)).
Proof.
  intros Hl. simpl. rewrite store_app by done. simpl. unfold wr, advance. simpl.
  by rewrite <- app_assoc, length_app.
Qed.

Lemma writer_u8_wr pre rest v :
  (1 <= length rest)%nat ->
  writer_u8 (wr pre rest) v = Some (wr (pre ++ be_bytes 1 v) (drop 1 rest)).
Proof. intros. unfold writer_u8. rewrite write_u8_be. by apply (store_wr _ _ (be_bytes 1 v)). Qed.

Lemma writer_u16_wr pre rest v :
  (2 <= length rest)%nat ->
  writer_u16 (wr pre rest) v = Some (wr (pre ++ be_bytes 2 v) (drop 2 rest)).
Proof. intros. unfold writer_u16. rewrite write_u16_be. by apply (store_wr _ _ (be_bytes 2 v)). Qed.

Lemma writer_u32_wr pre rest v :
  (4 <= length rest)%nat ->
  writer_u32 (wr pre rest) v = Some (wr (pre ++ be_bytes 4 v) (drop 4 rest)).
Proof. intros. unfold writer_u32. rewrite write_u32_be. by apply (store_wr _ _ (be_bytes 4 v)). Qed.

Lemma writer_u64_wr pre rest v :
  (8 <= length rest)%nat ->
  writer_u64 (wr pre rest) v = Some (wr (pre ++ be_bytes 8 v) (drop 8 rest)).
Proof. intros. unfold writer_u64. rewrite write_u64_be. by apply (store_wr _ _ (be_bytes 8 v)). Qed.

Lemma writer_bytes_wr pre rest blob :
  (length blob <= length rest)%nat ->
  writer_bytes (wr pre rest) blob = Some (wr (pre ++ blob) (drop (length blob) rest)).
Proof.
  intros Hl. unfold writer_bytes. rewrite <- store_wr by done. f_equal.
  destruct blob; [|done]. simpl. rewrite (store_app pre rest []) by (simpl; lia).
  by rewrite drop_0.
Qed.

Lemma writer_varint_loop_wr fuel pre rest v :
  0 <= v < 2 ^ (7 * Z.of_nat fuel) -> (0 < fuel)%nat ->
  (length (leb_bytes fuel v) <= length rest)%nat ->
  writer_varint_loop fuel (wr pre rest) v
  = Some (wr (pre ++ leb_bytes fuel v) (drop (length (leb_bytes fuel v)) rest)).
Proof.
  revert pre rest v. induction fuel as [|f IH]; intros pre rest v Hv Hf Hl; [lia|].
  cbn [writer_varint_loop leb_bytes] in *.
  change (advance (wr pre rest) 1) with
    (advance (wr pre rest) (length [byte.of_Z (if Z.shiftr v 7 =? 0 then Z.land v 127
                                             else Z.lor (Z.land v 127) 128)])).
  destruct (Z.shiftr v 7 =? 0) eqn:E; cbn [length] in Hl.
  - rewrite <- store_wr by done. by destruct (store _ _ _).
  - simpl m_region. simpl w_offset. rewrite store_app by (simpl; lia).
    cbn [mbind option_bind].
    replace (advance _ _ _) with
      (wr (pre ++ [byte.of_Z (Z.lor (Z.land v 127) 128)]) (drop 1 rest)).
    2: { unfold wr, advance. simpl. by rewrite length_app, <- app_assoc. }
    rewrite Z.shiftr_div_pow2 in E, Hl |- * by lia. change (2 ^ 7) with 128 in *.
    replace (7 * Z.of_nat (S f)) with (7 + 7 * Z.of_nat f) in Hv by lia.
    rewrite Z.pow_add_r in Hv by lia. change (2 ^ 7) with 128 in Hv.
    rewrite IH; [|dlia|destruct f; [change (2 ^ _) with 1 in Hv; dlia|lia]|len].
    rewrite <- app_assoc, drop_drop. done.
Qed.

Lemma writer_varint_wr pre rest v :
  (length (varint v) <= length rest)%nat ->
  writer_varint (wr pre rest) v = Some (wr (pre ++ varint v) (drop (length (varint v)) rest)).
Proof.
  intros. apply writer_varint_loop_wr; [apply wrap64_fuel | unfold k_max_varint_bytes; lia | done].
Qed.

End WriterLemmas.

(** The region after a run that filled it exactly. *)
Lemma wr_full pre rest : length rest = 0%nat -> m_region (wr pre rest) = pre.
Proof. intros ->%nil_length_inv. simpl. apply app_nil_r. Qed.

(** ** Reading: a span split at the cursor *)

(** A good reader that has consumed [pre] and still has [post] ahead. *)
Definition rd (pre post : bytes) : reader := Reader (pre ++ post) (length pre) true.

Lemma reader_of_rd data : reader_of data = rd [] data.
Proof. done. Qed.

Lemma reader_rest_rd pre post : reader_rest (rd pre post) = post.
Proof. apply drop_app_length. Qed.

Lemma rd_app pre mid post :
  Reader (pre ++ mid ++ post) (length pre + length mid) true = rd (pre ++ mid) post.
Proof. unfold rd. by rewrite <- app_assoc, length_app. Qed.

Lemma reader_take_rd pre mid post n :
  n = length mid -> reader_take (rd pre (mid ++ post)) n = (true, rd (pre ++ mid) post).
Proof.
  intros ->. unfold reader_take, reader_remaining. simpl.
  replace (_ <? _)%nat with false by (symmetry; apply Nat.ltb_ge; len).
  by rewrite rd_app.
Qed.

Lemma reader_take_short pre post n :
  (length post < n)%nat ->
  reader_take (rd pre post) n = (false, Reader (pre ++ post) (length pre) false).
Proof.
  intros. unfold reader_take, reader_remaining. simpl.
  replace (_ <? _)%nat with true by (symmetry; apply Nat.ltb_lt; len). done.
Qed.

Section ReaderLemmas.
Context {host : Host}.

Lemma reader_field_split width read pre mid post :
  (forall buf src, read buf src = be_value <$> load buf src width) ->
  width = length mid ->
  reader_field width read (rd pre (mid ++ post)) = (be_value mid, rd (pre ++ mid) post).
Proof.
  intros Hr ->. unfold reader_field. rewrite reader_take_rd by done. simpl.
  rewrite Hr, length_app, Nat.add_sub, <- app_assoc, load_app by done. done.
Qed.

Lemma reader_field_rd width read pre v post :
  (forall buf src, read buf src = be_value <$> load buf src width) ->
  in_width (8 * Z.of_nat width) v ->
  reader_field width read (rd pre (be_bytes width v ++ post)) = (v, rd (pre ++ be_bytes width v) post).
Proof.
  intros Hr Hv. rewrite reader_field_split by (done || by rewrite length_be_bytes).
  by rewrite be_value_be_bytes.
Qed.

Lemma reader_u8_rd pre v post : in_width 8 v ->
  reader_u8 (rd pre (be_bytes 1 v ++ post)) = (v, rd (pre ++ be_bytes 1 v) post).
Proof. apply (reader_field_rd 1), read_u8_be. Qed.

Lemma reader_u16_rd pre v post : in_width 16 v ->
  reader_u16 (rd pre (be_bytes 2 v ++ post)) = (v, rd (pre ++ be_bytes 2 v) post).
Proof. apply (reader_field_rd 2), read_u16_be. Qed.

Lemma reader_u32_rd pre v post : in_width 32 v ->
  reader_u32 (rd pre (be_bytes 4 v ++ post)) = (v, rd (pre ++ be_bytes 4 v) post).
Proof. apply (reader_field_rd 4), read_u32_be. Qed.

Lemma reader_u64_rd pre v post : in_width 64 v ->
  reader_u64 (rd pre (be_bytes 8 v ++ post)) = (v, rd (pre ++ be_bytes 8 v) post).
Proof. apply (reader_field_rd 8), read_u64_be. Qed.

Lemma reader_bytes_rd pre mid post n :
  n = length mid -> reader_bytes (rd pre (mid ++ post)) n = (mid, rd (pre ++ mid) post).
Proof.
  intros ->. unfold reader_bytes. rewrite reader_take_rd by done. simpl.
  by rewrite length_app, Nat.add_sub, <- app_assoc, drop_app_length, take_app_length.
Qed.

Lemma reader_copy_to_rd pre mid post dst n :
  n = length mid -> length dst = n ->
  reader_copy_to (rd pre (mid ++ post)) dst n = (mid, rd (pre ++ mid) post).
Proof.
  intros Hn Hd. unfold reader_copy_to. rewrite reader_bytes_rd by done. simpl.
  destruct (Nat.eqb_spec n 0) as [->|]; simpl.
  - symmetry in Hn. apply nil_length_inv in Hd, Hn. by subst.
  - rewrite store_0 by lia. simpl. by rewrite drop_ge, app_nil_r by lia.
Qed.

Lemma reader_varint_rd pre v post : in_width 64 v ->
  reader_varint (rd pre (varint v ++ post)) = (Some v, rd (pre ++ varint v) post).
Proof.
  intros Hv. unfold reader_varint. simpl. rewrite read_varint_at by done. by rewrite rd_app.
Qed.

(** A one-byte read of any byte, and the underruns. *)
Lemma reader_u8_cons pre b post : reader_u8 (rd pre (b :: post)) = (⟦b⟧, rd (pre ++ [b]) post).
Proof.
  etransitivity; [apply (reader_field_split 1 read_u8 pre [b] post); [apply read_u8_be | done]|].
  unfold be_value. simpl. by rewrite le_combine_1.
Qed.

Lemma reader_field_short width read pre post :
  (length post < width)%nat ->
  reader_field width read (rd pre post) = (0, Reader (pre ++ post) (length pre) false).
Proof. intros. unfold reader_field. by rewrite reader_take_short. Qed.

(** ** Length prefixes *)

Lemma read_length_value_be width buf at_ :
  width ∈ [1; 2; 4; 8]%nat -> read_length_value width buf at_ = be_value <$> load buf at_ width.
Proof.
  intros H. repeat (apply elem_of_cons in H as [-> | H]); [..|by apply elem_of_nil in H]; simpl.
  - apply read_u8_be. - apply read_u16_be. - apply read_u32_be. - apply read_u64_be.
Qed.

(** A prefix that announces exactly [payload] (elements of [element_size]
    bytes) is read back, whatever follows. *)
Lemma read_length_prefixed_at width pre payload post n es :
  width ∈ [1; 2; 4; 8]%nat -> in_width (8 * Z.of_nat width) n -> 0 < es -> n * es = zlen payload ->
  zlen payload <= size_max ->
  read_length_prefixed width (pre ++ be_bytes width n ++ payload ++ post) (length pre) es
  = (Some payload, (length pre + width + length payload)%nat).
Proof.
  intros Hw Hn Hes Hp Hmax. unfold read_length_prefixed.
  rewrite decide_False by len.
  rewrite decide_False by (len; rewrite length_be_bytes; lia).
  rewrite read_length_value_be by done.
  rewrite load_app by (by rewrite length_be_bytes). cbn [fmap option_fmap option_map].
  rewrite be_value_be_bytes by done.
  assert (n <= size_max / es) by (apply Z.div_le_lower_bound; lia).
  replace (n >? size_max / es) with false by (rewrite Z.gtb_ltb; symmetry; apply Z.ltb_ge; lia).
  rewrite andb_false_r. rewrite Hp.
  rewrite wrap_small by (pose proof (zlen_nonneg payload); unfold in_width, size_max in *; lia).
  rewrite zlen_to_nat.
  replace (_ >? _) with false.
  2: { rewrite Z.gtb_ltb. symmetry. apply Z.ltb_ge. unfold zlen. len. rewrite length_be_bytes. lia. }
  f_equal. f_equal. rewrite app_assoc.
  replace (length pre + width)%nat with (length (pre ++ be_bytes width n)) by (len; by rewrite length_be_bytes).
  by rewrite drop_app_length, take_app_length.
Qed.

(** An accepted payload lies inside [data] and has the announced size; a
    refusal leaves [consumed] where it was. *)
Lemma read_length_prefixed_sound width data consumed es r c :
  width ∈ [1; 2; 4; 8]%nat -> 0 <= es -> zlen data <= size_max ->
  read_length_prefixed width data consumed es = (r, c) ->
  match r with
  | None => c = consumed
  | Some p =>
      (consumed + width <= c <= length data)%nat /\
      p = take (c - (consumed + width)) (drop (consumed + width) data) /\
      zlen p = be_value (take width (drop consumed data)) * es
  end.
Proof.
  intros Hw Hes Hmax H. unfold read_length_prefixed in H.
  case_decide; [by simplify_eq|]. case_decide; [by simplify_eq|].
  rewrite read_length_value_be in H by done.
  unfold load in H. rewrite decide_True in H by lia. cbn [fmap option_fmap option_map] in H.
  set (n := be_value _) in *. assert (0 <= n) by apply be_value_range.
  destruct (negb (es =? 0) && _) eqn:E1; [by simplify_eq|].
  destruct (wrap 64 _ >? _) eqn:E2; [by simplify_eq|]. simplify_eq.
  assert (wrap 64 (n * es) = n * es) as Hww.
  { apply wrap_small. split; [lia|]. apply andb_false_iff in E1 as [E1|E1].
    - destruct (Z.eqb_spec es 0) as [->|]; [lia|done].
    - rewrite Z.gtb_ltb in E1. apply Z.ltb_ge in E1.
      destruct (decide (es = 0)) as [->|]; [lia|].
      assert (n * es <= size_max); [|unfold size_max in *; lia].
      transitivity (size_max / es * es); [nia|]. rewrite Z.mul_comm. apply Z.mul_div_le. lia. }
  rewrite Hww in *. rewrite Z.gtb_ltb in E2. apply Z.ltb_ge in E2. split_and!; [lia|lia| |].
  - f_equal. lia.
  - unfold zlen. rewrite length_take, length_drop. lia.
Qed.

Lemma reader_length_prefixed_rd width pre payload post n :
  width ∈ [1; 2; 4; 8]%nat -> in_width (8 * Z.of_nat width) n -> n = zlen payload ->
  reader_length_prefixed width (rd pre (be_bytes width n ++ payload ++ post)) 1
  = (payload, rd (pre ++ be_bytes width n ++ payload) post).
Proof.
  intros Hw Hn Hp. unfold reader_length_prefixed. simpl.
  assert (zlen payload <= size_max).
  { subst n. destruct Hn as [_ Hn]. unfold size_max. assert (width <= 8)%nat.
    { repeat (apply elem_of_cons in Hw as [-> | Hw]); [lia..|by apply elem_of_nil in Hw]. }
    assert (2 ^ (8 * Z.of_nat width) <= 2 ^ 64) by (apply Z.pow_le_mono_r; lia). lia. }
  rewrite read_length_prefixed_at by (done || lia).
  unfold rd. f_equal. f_equal; [by rewrite <- !app_assoc|].
  rewrite !length_app, length_be_bytes. lia.
Qed.

End ReaderLemmas.

(** ** Running a codec body

    [writer_run] pushes a chain of writer operations through a region split at
    the cursor, discharging each bounds obligation; [reader_run] does the same for
    a reader positioned before an encoding of the field it reads. *)

Ltac codec_len :=
  repeat first
    [ rewrite length_app | rewrite length_cons | rewrite length_nil
    | rewrite length_drop | rewrite length_take | rewrite length_rev
    | rewrite length_replicate | rewrite length_vresize | rewrite length_be_bytes ];
  first [lia | simpl; lia].

Ltac writer_run :=
  repeat first
    [ rewrite writer_u8_wr by codec_len | rewrite writer_u16_wr by codec_len
    | rewrite writer_u32_wr by codec_len | rewrite writer_u64_wr by codec_len
    | rewrite writer_varint_wr by codec_len | rewrite writer_bytes_wr by codec_len
    | progress cbn [mbind option_bind] ].

Ltac reader_run :=
  repeat first
    [ rewrite reader_u8_rd by (done || eauto with plexus)
    | rewrite reader_u16_rd by (done || eauto with plexus)
    | rewrite reader_u32_rd by (done || eauto with plexus)
    | rewrite reader_u64_rd by (done || eauto with plexus)
    | rewrite reader_varint_rd by (done || eauto with plexus) ].

(** Split the first [n] elements off a list that is long enough. *)
Lemma split_front {A} (n : nat) (l : list A) :
  (n <= length l)%nat -> exists a b, l = a ++ b /\ length a = n.
Proof. intros. exists (take n l), (drop n l). rewrite take_drop. split; [done|len]. Qed.

Lemma be_bytes_1 b : be_bytes 1 ⟦b⟧ = [b].
Proof. unfold be_bytes. simpl. by rewrite byte.of_Z_unsigned. Qed.

(** ** Raw accesses at a pointer

    The codecs that write and read through a pointer without a cursor. *)

Section RawLemmas.
Context {host : Host}.

Lemma store_at pre rest p src :
  p = length pre -> (length src <= length rest)%nat ->
  store (pre ++ rest) p src = Some ((pre ++ src) ++ drop (length src) rest).
Proof. intros -> ?. by rewrite store_app, app_assoc. Qed.

Lemma write_u8_at pre rest p v : p = length pre -> (1 <= length rest)%nat ->
  write_u8 (pre ++ rest) p v = Some ((pre ++ be_bytes 1 v) ++ drop 1 rest).
Proof. intros. rewrite write_u8_be. by apply (store_at _ _ _ (be_bytes 1 v)). Qed.

Lemma write_u16_at pre rest p v : p = length pre -> (2 <= length rest)%nat ->
  write_u16 (pre ++ rest) p v = Some ((pre ++ be_bytes 2 v) ++ drop 2 rest).
Proof. intros. rewrite write_u16_be. by apply (store_at _ _ _ (be_bytes 2 v)). Qed.

Lemma write_u32_at pre rest p v : p = length pre -> (4 <= length rest)%nat ->
  write_u32 (pre ++ rest) p v = Some ((pre ++ be_bytes 4 v) ++ drop 4 rest).
Proof. intros. rewrite write_u32_be. by apply (store_at _ _ _ (be_bytes 4 v)). Qed.

Lemma write_u64_at pre rest p v : p = length pre -> (8 <= length rest)%nat ->
  write_u64 (pre ++ rest) p v = Some ((pre ++ be_bytes 8 v) ++ drop 8 rest).
Proof. intros. rewrite write_u64_be. by apply (store_at _ _ _ (be_bytes 8 v)). Qed.

Lemma load_skip a l p n : (length a <= p)%nat -> load (a ++ l) p n = load l (p - length a) n.
Proof.
  intros. unfold load. rewrite length_app, drop_app_ge by done.
  destruct (decide (p + n <= length a + length l)%nat);
    [rewrite decide_True by lia | rewrite decide_False by lia]; done.
Qed.

Lemma load_0 l post n : n = length l -> load (l ++ post) 0 n = Some l.
Proof. apply (load_app []). Qed.

Lemma load_Some_2 l p n : (p + n <= length l)%nat -> load l p n = Some (take n (drop p l)).
Proof. intros. unfold load. by rewrite decide_True. Qed.

End RawLemmas.

Ltac raw_write :=
  repeat first
    [ rewrite write_u8_at by codec_len | rewrite write_u16_at by codec_len
    | rewrite write_u32_at by codec_len | rewrite write_u64_at by codec_len
    | progress cbn [mbind option_bind] ].

(** Read a field of a concatenation of encodings. *)
Ltac raw_skip :=
  repeat (rewrite load_skip by codec_len; rewrite ?length_be_bytes; simpl Nat.sub).

Ltac raw_read :=
  rewrite ?read_u8_be, ?read_u16_be, ?read_u32_be, ?read_u64_be;
  repeat (first [ rewrite load_0 by (by rewrite length_be_bytes)
                | rewrite load_skip by codec_len; rewrite ?length_be_bytes; simpl Nat.sub ];
          cbn [fmap option_fmap option_map]);
  rewrite ?be_value_be_bytes by (done || eauto with plexus).

(** Every read below the checked length is defined. *)
Ltac raw_total :=
  rewrite ?read_u8_be, ?read_u16_be, ?read_u32_be, ?read_u64_be;
  repeat (rewrite load_Some_2 by (simpl in *; lia); cbn [fmap option_fmap option_map]).

(** ** Theorems *)

(** One call on a reader, and the reader after it with the value it returned
    (an integer field as a one-element list, a view as its bytes). *)
Inductive reader_call : Type :=
| CallU8 | CallU16 | CallU32 | CallU64
| CallBytes (n : nat)
| CallVarint
| CallLengthPrefixed (width : nat) (element_size : Z).

Definition call_reader {host : Host} (r : reader) (c : reader_call) : (list Z * bytes) * reader :=
  match c with
  | CallU8 => let '(v, r) := reader_u8 r in (([v], []), r)
  | CallU16 => let '(v, r) := reader_u16 r in (([v], []), r)
  | CallU32 => let '(v, r) := reader_u32 r in (([v], []), r)
  | CallU64 => let '(v, r) := reader_u64 r in (([v], []), r)
  | CallBytes n => let '(b, r) := reader_bytes r n in (([], b), r)
  | CallVarint => let '(v, r) := reader_varint r in ((option_list v, []), r)
  | CallLengthPrefixed w es => let '(b, r) := reader_length_prefixed w r es in (([], b), r)
  end.

Definition call_readers {host : Host} (r : reader) (cs : list reader_call) : reader :=
  foldl (fun r c => (call_reader r c).2) r cs.

Definition call_ok (c : reader_call) : Prop :=
  match c with CallLengthPrefixed w es => w ∈ [1; 2; 4; 8]%nat /\ 0 <= es | _ => True end.

(** A reader over [data]: its offset is inside the span. *)
Definition reader_over (data : bytes) (r : reader) : Prop :=
  m_data r = data /\ (r_offset r <= length data)%nat.

Lemma reader_take_over data r n :
  reader_over data r ->
  reader_over data (reader_take r n).2 /\ (m_ok r = false -> reader_take r n = (false, r)) /\
  (m_ok (reader_take r n).2 = true -> m_ok r = true).
Proof.
  intros [<- Hoff]. unfold reader_take, reader_remaining. destruct r as [d o []]; simpl in *.
  - destruct (Nat.ltb_spec (length d - o) n); unfold reader_over; simpl; split_and!; done || lia.
  - done.
Qed.

Section ReaderTheorems.
Context {host : Host}.

Lemma reader_field_over data width read r :
  reader_over data r ->
  reader_over data (reader_field width read r).2 /\
  (m_ok r = false -> reader_field width read r = (0, r)).
Proof.
  intros H. destruct (reader_take_over data r width H) as (H1 & H2 & _).
  unfold reader_field. split; [|intros Hf; by rewrite H2].
  destruct (reader_take r width) as [ [] r']; done.
Qed.

Lemma call_reader_over data r c :
  zlen data <= size_max -> call_ok c -> reader_over data r ->
  reader_over data (call_reader r c).2 /\
  (m_ok r = false -> (call_reader r c).2 = r /\ (call_reader r c).1.2 = [] /\
                     Forall (Z.eq 0) (call_reader r c).1.1).
Proof.
  intros Hmax Hc Hr.
  assert (Hfield : forall w rd,
    reader_over data (let '(v, r) := reader_field w rd r in (([v], [] : bytes), r)).2 /\
    (m_ok r = false ->
     let o := (let '(v, r) := reader_field w rd r in (([v], [] : bytes), r)) in
     o.2 = r /\ o.1.2 = [] /\ Forall (Z.eq 0) o.1.1)).
  { intros w rd. destruct (reader_field_over data w rd r Hr) as [H1 H2].
    destruct (reader_field w rd r) as [v r'] eqn:E. split; [done|]. intros Hf.
    specialize (H2 Hf). simplify_eq. simpl. repeat constructor. }
  destruct c as [| | | |n| |w es]; simpl; try apply Hfield.
  - unfold reader_bytes. destruct (reader_take_over data r n Hr) as (H1 & H2 & _).
    destruct (reader_take r n) as [ [] r'] eqn:E; simpl in *; (split; [done|]);
      intros Hf; specialize (H2 Hf); simplify_eq; repeat constructor.
  - unfold reader_varint. destruct (m_ok r) eqn:Ho; simpl; [split; [|done]|split; [done|repeat constructor]].
    destruct Hr as [<- Hoff].
    pose proof (read_varint_loop_fail 10 0 (m_data r) (r_offset r) (r_offset r) 0) as Hfail.
    pose proof (read_varint_loop_sound 10 0 (m_data r) (r_offset r) (r_offset r) 0) as Hsound.
    unfold read_varint. rewrite decide_False by lia.
    destruct (read_varint_loop _ _ _ _ _ _) as [ [v|] c]; simpl.
    + destruct (Hsound v c) as (bs & _ & _ & _ & _ & ? & _); [done|split; [done|by vm_compute]|done|].
      split; simpl; [done|lia].
    + rewrite (Hfail c) by done. split; simpl; [done|lia].
  - unfold reader_length_prefixed. destruct (m_ok r) eqn:Ho; simpl;
      [split; [|done]|split; [done|repeat constructor]].
    destruct Hr as [<- Hoff], Hc as [Hw Hes].
    destruct (read_length_prefixed w (m_data r) (r_offset r) es) as [p c] eqn:E.
    apply read_length_prefixed_sound in E; [|done..].
    destruct p as [p|]; simpl; [destruct E as [? _]|subst c]; split; simpl; done || lia.
Qed.

(** Over any span, after any sequence of reader calls the cursor is still
    inside the span; and once a call has failed, every later call returns the
    zero or empty sentinel and leaves the reader unchanged, so testing [ok] once
    at the end of a field list is enough. *)
Theorem reader_bounded_and_latched (data : bytes) (before after : list reader_call) (c : reader_call) :
  zlen data <= size_max -> Forall call_ok before -> Forall call_ok after -> call_ok c ->
  let r := call_readers (reader_of data) before in
  reader_over data r /\
  (reader_ok r = false ->
     call_readers r after = r /\ (call_reader r c).2 = r /\ (call_reader r c).1.2 = [] /\
     Forall (Z.eq 0) (call_reader r c).1.1).
Proof.
  intros Hmax Hb Ha Hc. simpl.
  assert (Hover : forall cs r, Forall call_ok cs -> reader_over data r ->
            reader_over data (call_readers r cs)).
  { induction cs as [|c' cs IH]; intros r Hcs Hr; [done|].
    apply Forall_cons in Hcs as [? ?]. simpl. apply IH; [done|]. by apply call_reader_over. }
  assert (reader_over data (call_readers (reader_of data) before)) as Hr
    by (apply Hover; [done|split; simpl; [done|lia]]).
  split; [done|]. intros Hf. unfold reader_ok in Hf.
  split; [|by apply (call_reader_over data)].
  set (r := call_readers _ before) in *. clearbody r.
  induction after as [|c' cs IH]; [done|]. apply Forall_cons in Ha as [? ?]. simpl.
  destruct (call_reader_over data r c') as [_ Hs]; [done..|]. destruct (Hs Hf) as [-> _]. by apply IH.
Qed.

(** A payload accepted by [read_length_prefixed] lies inside the buffer right
    behind its prefix and is exactly the announced number of elements, with no
    wrap-around of the product; a refusal leaves the offset unchanged; and a
    correct announcement is never refused. *)
Theorem length_prefix_gate (width : nat) (data pre payload post : bytes) (consumed : nat) (n es : Z) :
  width ∈ [1; 2; 4; 8]%nat -> 0 < es -> zlen data <= size_max ->
  match read_length_prefixed width data consumed es with
  | (None, c) => c = consumed
  | (Some p, c) =>
      (consumed + width <= c <= length data)%nat /\
      p = take (c - (consumed + width)) (drop (consumed + width) data) /\
      zlen p = be_value (take width (drop consumed data)) * es
  end /\
  (in_width (8 * Z.of_nat width) n -> n * es = zlen payload -> zlen payload <= size_max ->
   read_length_prefixed width (pre ++ be_bytes width n ++ payload ++ post) (length pre) es
   = (Some payload, (length pre + width + length payload)%nat)).
Proof.
  intros Hw Hes Hmax. split; [|intros; by apply read_length_prefixed_at].
  destruct (read_length_prefixed width data consumed es) as [p c] eqn:E.
  apply read_length_prefixed_sound in E; [|done|lia|done]. by destruct p.
Qed.

End ReaderTheorems.

Lemma reader_bounded_and_latched_witness :
  let data := [Byte.x01; Byte.x02] in
  let r := call_readers (host := little) (reader_of data) [CallU8; CallU32] in
  reader_ok r = false /\ call_readers (host := little) r [CallU8] = r.
Proof.
  simpl. split; [reflexivity|].
  pose proof (reader_bounded_and_latched (host := little) [Byte.x01; Byte.x02]
    [CallU8; CallU32] [CallU8] CallU16) as H.
  apply H; [by vm_compute|repeat constructor|repeat constructor|done|reflexivity].
Defined.

Lemma length_prefix_gate_witness :
  read_length_prefixed (host := little) 2 [Byte.x00; Byte.x01; Byte.xaa; Byte.xbb] 0 2
  = (Some [Byte.xaa; Byte.xbb], 4%nat).
Proof.
  apply (length_prefix_gate (host := little) 2 [] [] [Byte.xaa; Byte.xbb] [] 0 1 2);
    [set_solver|lia|by vm_compute|split; [lia|reflexivity]|reflexivity|by vm_compute].
Defined.
