(* ===== verification/Frame.v ===== *)
(** * The frame header and the data, bidirectional and RPC frames

    Models [frame.h], [frame_codec.h], [data_frame.h], [detail/data_frame_codec.h],
    [rpc_status.h] and [rpc_frame.h] of [lib/plexus-wire/include/plexus/wire/].

    The source's enumerations have a fixed underlying [uint8_t] and the decoders
    build them with [static_cast] from an untrusted byte, so a decoded value may
    be no enumerator: an enumeration is its underlying byte here, with one
    constant per enumerator. *)

From S2P Require Import Prelude ByteOrder Varint Cursor.

(** ** Constants and types *)

Definition header_size : nat := 28.
Definition k_max_reassembler_payload_bytes : Z := 16 * 1024 * 1024.
Definition magic_byte_0 : byte := byte.of_Z 0x56.
Definition magic_byte_1 : byte := byte.of_Z 0x50.

(** [enum class msg_type : uint8_t] *)
Definition msg_type : Type := Z.
Definition msg_unidirectional : msg_type := 0x01.
Definition msg_bidirectional : msg_type := 0x02.
Definition msg_handshake_req : msg_type := 0x03.
Definition msg_handshake_resp : msg_type := 0x04.
Definition msg_subscribe : msg_type := 0x05.
Definition msg_unsubscribe : msg_type := 0x06.
Definition msg_fetch_latched : msg_type := 0x07.
Definition msg_fetch_metadata : msg_type := 0x08.
Definition msg_rpc_request : msg_type := 0x09.
Definition msg_rpc_response : msg_type := 0x0A.
Definition msg_subscribe_response : msg_type := 0x0B.
Definition msg_heartbeat : msg_type := 0x0C.

(** [enum class endpoint_source_type : uint8_t] *)
Definition endpoint_source_type : Type := Z.
Definition src_publisher : endpoint_source_type := 0x01.
Definition src_signal : endpoint_source_type := 0x03.
Definition src_attribute : endpoint_source_type := 0x05.
Definition src_caller : endpoint_source_type := 0x06.
Definition src_procedure : endpoint_source_type := 0x07.
Definition src_plexus : endpoint_source_type := 0x08.

Definition k_flag_source_identity : Z := 0x01.

Record frame_header : Type := FrameHeader {
  fh_type : msg_type;
  fh_flags : Z;
  fh_session_id : Z;
  fh_timestamp_ns : Z;
  fh_payload_len : Z;
}.

#[global] Instance frame_header_eq_dec : EqDecision frame_header.
Proof. solve_decision. Defined.

(** The value-initialised header [frame_header{}]. *)
Definition frame_header_zero : frame_header := FrameHeader 0 0 0 0 0.

Definition frame_header_ok (h : frame_header) : Prop :=
  in_width 8 (fh_type h) /\ in_width 8 (fh_flags h) /\ in_width 64 (fh_session_id h) /\
  in_width 64 (fh_timestamp_ns h) /\ in_width 64 (fh_payload_len h).

(** The caller's header with its length field overwritten ([adjusted]). *)
Definition with_payload_len (h : frame_header) (n : Z) : frame_header :=
  FrameHeader (fh_type h) (fh_flags h) (fh_session_id h) (fh_timestamp_ns h) n.

Definition zero_bytes (n : nat) : bytes := replicate n (byte.of_Z 0).

(** [std::vector<std::byte>::resize]. *)
Definition resize (n : nat) (out : bytes) : bytes := vresize (byte.of_Z 0) n out.

Definition unidirectional_header_size : nat := 17.
Definition bidirectional_header_size : nat := 41.

Record unidirectional_header : Type := UnidirectionalHeader {
  uh_source : endpoint_source_type;
  uh_sequence : Z;
  uh_topic_hash : Z;
}.

Record bidirectional_header : Type := BidirectionalHeader {
  bh_source : endpoint_source_type;
  bh_sequence : Z;
  bh_topic_hash : Z;
  bh_type_hash_1 : Z;
  bh_type_hash_2 : Z;
  bh_correlation_id : Z;
}.

Record unidirectional_decode_result : Type := UnidirectionalDecodeResult {
  ud_header : unidirectional_header;
  ud_endpoint_counter : option Z;
  ud_data : bytes;
}.

Record bidirectional_decode_result : Type := BidirectionalDecodeResult {
  bd_header : bidirectional_header;
  bd_data : bytes;
}.

(** [enum class rpc_status : std::uint8_t] *)
Definition rpc_status : Type := Z.
Definition rpc_success : rpc_status := 0.
Definition rpc_error : rpc_status := 1.
Definition rpc_timeout : rpc_status := 2.
Definition rpc_cancelled : rpc_status := 3.
Definition rpc_no_handler : rpc_status := 4.
Definition rpc_deserialize_failed : rpc_status := 5.
Definition rpc_topic_not_found : rpc_status := 8.
Definition rpc_peer_disconnected : rpc_status := 18.
Definition rpc_response_orphan : rpc_status := 20.

Record rpc_response_decode_result : Type := RpcResponseDecodeResult {
  rr_header : bidirectional_header;
  rr_status : rpc_status;
  rr_return_data : bytes;
}.

(** ** The codecs *)

Section Definitions.
Context {host : Host}.

Definition encode_header (hdr : frame_header) : option bytes :=
  let buf := zero_bytes header_size in
  let w := writer_of buf in
  w ← writer_u8 w ⟦magic_byte_0⟧;
  w ← writer_u8 w ⟦magic_byte_1⟧;
  w ← writer_u8 w (fh_type hdr);
  w ← writer_u8 w (fh_flags hdr);
  w ← writer_u64 w (fh_session_id hdr);
  w ← writer_u64 w (fh_timestamp_ns hdr);
  w ← writer_u64 w (fh_payload_len hdr);
  Some (m_region w).

Definition decode_header (data : bytes) : option frame_header :=
  if decide (length data < header_size)%nat then None else
  if decide (data !! 0%nat <> Some magic_byte_0 \/ data !! 1%nat <> Some magic_byte_1)
  then None else
  let r := reader_of data in
  let '(_, r) := reader_u8 r in
  let '(_, r) := reader_u8 r in
  let '(type, r) := reader_u8 r in
  let '(flags, r) := reader_u8 r in
  let '(session_id, r) := reader_u64 r in
  let '(timestamp_ns, r) := reader_u64 r in
  let '(payload_len, r) := reader_u64 r in
  Some (FrameHeader type flags session_id timestamp_ns payload_len).

Definition encode_frame (hdr : frame_header) (payload : bytes) : option bytes :=
  let adjusted := with_payload_len hdr (zlen payload) in
  header_bytes ← encode_header adjusted;
  Some (([] ++ header_bytes) ++ payload).

Definition encode_frame_into (out : bytes) (hdr : frame_header) (payload : bytes) : option bytes :=
  let adjusted := with_payload_len hdr (zlen payload) in
  header_bytes ← encode_header adjusted;
  let out := resize (header_size + length payload) out in
  out ← store out 0 header_bytes;
  match payload with
  | [] => Some out
  | _ => store out header_size payload
  end.

Definition encode_unidirectional_into (out : bytes) (hdr : unidirectional_header) (data : bytes)
    (endpoint_counter : option Z) : option bytes :=
  let w := writer_of (resize unidirectional_header_size out) in
  w ← writer_u8 w (uh_source hdr);
  w ← writer_u64 w (uh_sequence hdr);
  w ← writer_u64 w (uh_topic_hash hdr);
  let out := m_region w in
  out ← (match endpoint_counter with
         | Some c => write_varint out c
         | None => Some out
         end);
  Some (out ++ data).

Definition encode_unidirectional (hdr : unidirectional_header) (data : bytes)
    (endpoint_counter : option Z) : option bytes :=
  encode_unidirectional_into [] hdr data endpoint_counter.

Definition encode_unidirectional_frame_into (out : bytes) (fhdr : frame_header)
    (uhdr : unidirectional_header) (payload : bytes) (endpoint_counter : option Z) : option bytes :=
  counter_len ← (match endpoint_counter with
                 | Some c => varint_size c
                 | None => Some 0%nat
                 end);
  let payload_len := (unidirectional_header_size + counter_len + length payload)%nat in
  let adjusted := with_payload_len fhdr (Z.of_nat payload_len) in
  header_bytes ← encode_header adjusted;
  let w := writer_of (resize (header_size + payload_len) out) in
  w ← writer_bytes w header_bytes;
  w ← writer_u8 w (uh_source uhdr);
  w ← writer_u64 w (uh_sequence uhdr);
  w ← writer_u64 w (uh_topic_hash uhdr);
  w ← (match endpoint_counter with
       | Some c => writer_varint w c
       | None => Some w
       end);
  w ← writer_bytes w payload;
  Some (m_region w).

Definition decode_unidirectional (payload : bytes) (has_source_identity : bool)
  : option unidirectional_decode_result :=
  if decide (length payload < unidirectional_header_size)%nat then None else
  let r := reader_of payload in
  let '(source, r) := reader_u8 r in
  let '(sequence, r) := reader_u64 r in
  let '(topic_hash, r) := reader_u64 r in
  let hdr := UnidirectionalHeader source sequence topic_hash in
  if negb has_source_identity
  then Some (UnidirectionalDecodeResult hdr None (reader_rest r)) else
  let '(counter, r) := reader_varint r in
  match counter with
  | None => None
  | Some c => Some (UnidirectionalDecodeResult hdr (Some c) (reader_rest r))
  end.

Definition encode_bidirectional_into (out : bytes) (hdr : bidirectional_header) (data : bytes)
  : option bytes :=
  let w := writer_of (resize (bidirectional_header_size + length data) out) in
  w ← writer_u8 w (bh_source hdr);
  w ← writer_u64 w (bh_sequence hdr);
  w ← writer_u64 w (bh_topic_hash hdr);
  w ← writer_u64 w (bh_type_hash_1 hdr);
  w ← writer_u64 w (bh_type_hash_2 hdr);
  w ← writer_u64 w (bh_correlation_id hdr);
  w ← writer_bytes w data;
  Some (m_region w).

Definition encode_bidirectional (hdr : bidirectional_header) (data : bytes) : option bytes :=
  encode_bidirectional_into [] hdr data.

Definition decode_bidirectional (payload : bytes) : option bidirectional_decode_result :=
  if decide (length payload < bidirectional_header_size)%nat then None else
  let r := reader_of payload in
  let '(source, r) := reader_u8 r in
  let '(sequence, r) := reader_u64 r in
  let '(topic_hash, r) := reader_u64 r in
  let '(type_hash_1, r) := reader_u64 r in
  let '(type_hash_2, r) := reader_u64 r in
  let '(correlation_id, r) := reader_u64 r in
  Some (BidirectionalDecodeResult
    (BidirectionalHeader source sequence topic_hash type_hash_1 type_hash_2 correlation_id)
    (reader_rest r)).

Definition is_defined_rpc_status (b : Z) : bool :=
  existsb (Z.eqb b)
    [rpc_success; rpc_error; rpc_timeout; rpc_cancelled; rpc_no_handler;
     rpc_deserialize_failed; rpc_topic_not_found; rpc_peer_disconnected; rpc_response_orphan].

Definition encode_rpc_request (hdr : bidirectional_header) (param_data : bytes) : option bytes :=
  encode_bidirectional hdr param_data.

Definition decode_rpc_request (payload : bytes) : option bidirectional_decode_result :=
  match decode_bidirectional payload with
  | None => None
  | Some decoded => Some (BidirectionalDecodeResult (bd_header decoded) (bd_data decoded))
  end.

Definition encode_rpc_response (hdr : bidirectional_header) (status : rpc_status)
    (return_data : bytes) : option bytes :=
  let combined := zero_bytes (1 + length return_data) in
  combined ← store combined 0 [byte.of_Z (wrap 8 status)];
  combined ← (match return_data with
              | [] => Some combined
              | _ => store combined 1 return_data
              end);
  encode_bidirectional hdr combined.

Definition decode_rpc_response (payload : bytes) : option rpc_response_decode_result :=
  match decode_bidirectional payload with
  | None => None
  | Some decoded =>
      match bd_data decoded with
      | [] => None
      | b :: return_data =>
          let status_byte := ⟦b⟧ in
          if negb (is_defined_rpc_status status_byte) then None
          else Some (RpcResponseDecodeResult (bd_header decoded) status_byte return_data)
      end
  end.

Definition encode_rpc_request_into (out : bytes) (hdr : bidirectional_header) (param_data : bytes)
  : option bytes := encode_bidirectional_into out hdr param_data.

Definition encode_rpc_response_into (out : bytes) (hdr : bidirectional_header)
    (status : rpc_status) (return_data : bytes) : option bytes :=
  let w := writer_of (resize (bidirectional_header_size + 1 + length return_data) out) in
  w ← writer_u8 w (bh_source hdr);
  w ← writer_u64 w (bh_sequence hdr);
  w ← writer_u64 w (bh_topic_hash hdr);
  w ← writer_u64 w (bh_type_hash_1 hdr);
  w ← writer_u64 w (bh_type_hash_2 hdr);
  w ← writer_u64 w (bh_correlation_id hdr);
  w ← writer_u8 w status;
  w ← writer_bytes w return_data;
  Some (m_region w).

End Definitions.

(** ** The layouts *)

Definition header_layout (h : frame_header) : bytes :=
  be_bytes 1 ⟦magic_byte_0⟧ ++ be_bytes 1 ⟦magic_byte_1⟧ ++ be_bytes 1 (fh_type h) ++
  be_bytes 1 (fh_flags h) ++ be_bytes 8 (fh_session_id h) ++
  be_bytes 8 (fh_timestamp_ns h) ++ be_bytes 8 (fh_payload_len h).

Definition unidirectional_layout (h : unidirectional_header) (counter : option Z) (data : bytes)
  : bytes :=
  be_bytes 1 (uh_source h) ++ be_bytes 8 (uh_sequence h) ++ be_bytes 8 (uh_topic_hash h) ++
  (match counter with Some c => varint c | None => [] end) ++ data.

Definition bidirectional_layout (h : bidirectional_header) (data : bytes) : bytes :=
  be_bytes 1 (bh_source h) ++ be_bytes 8 (bh_sequence h) ++ be_bytes 8 (bh_topic_hash h) ++
  be_bytes 8 (bh_type_hash_1 h) ++ be_bytes 8 (bh_type_hash_2 h) ++
  be_bytes 8 (bh_correlation_id h) ++ data.

Arguments header_layout : simpl never.
Arguments unidirectional_layout : simpl never.
Arguments bidirectional_layout : simpl never.

Definition unidirectional_header_ok (h : unidirectional_header) : Prop :=
  in_width 8 (uh_source h) /\ in_width 64 (uh_sequence h) /\ in_width 64 (uh_topic_hash h).

Definition bidirectional_header_ok (h : bidirectional_header) : Prop :=
  in_width 8 (bh_source h) /\ in_width 64 (bh_sequence h) /\ in_width 64 (bh_topic_hash h) /\
  in_width 64 (bh_type_hash_1 h) /\ in_width 64 (bh_type_hash_2 h) /\
  in_width 64 (bh_correlation_id h).

Lemma length_header_layout h : length (header_layout h) = header_size.
Proof. unfold header_layout, header_size. codec_len. Qed.

Section Lemmas.
Context {host : Host}.

Lemma encode_header_layout h : encode_header h = Some (header_layout h).
Proof.
  unfold encode_header, zero_bytes, header_size. rewrite writer_of_wr. writer_run.
  rewrite wr_full by codec_len. unfold header_layout. by rewrite <- !app_assoc.
Qed.

Lemma decode_header_layout h rest :
  frame_header_ok h -> decode_header (header_layout h ++ rest) = Some h.
Proof.
  intros (? & ? & ? & ? & ?). unfold decode_header.
  rewrite decide_False by (rewrite length_app, length_header_layout; lia).
  rewrite decide_False.
  2: { unfold header_layout. rewrite !be_bytes_1. intros [ []|[] ]; done. }
  rewrite reader_of_rd. unfold header_layout. rewrite <- !app_assoc. reader_run.
  by destruct h.
Qed.

(** The decoder accepts exactly the encodings: what it accepts is the layout of
    its result. *)
Lemma decode_header_inv data h :
  decode_header data = Some h -> frame_header_ok h /\ exists rest, data = header_layout h ++ rest.
Proof.
  intros H. unfold decode_header in H. case_decide as Hl; [done|]. case_decide as Hm; [done|].
  unfold header_size in Hl.
  destruct data as [|b0 [|b1 data]]; [simpl in *; lia..|].
  assert (b0 = magic_byte_0 /\ b1 = magic_byte_1) as [-> ->].
  { simpl in Hm. split; apply dec_stable; intros ?; apply Hm; [left|right]; congruence. }
  destruct (split_front 1 data) as (f1 & d1 & -> & L1); [simpl in *; lia|].
  destruct (split_front 1 d1) as (f2 & d2 & -> & L2); [simpl in Hl; rewrite !length_app in Hl; lia|].
  destruct (split_front 8 d2) as (f3 & d3 & -> & L3); [simpl in Hl; rewrite !length_app in Hl; lia|].
  destruct (split_front 8 d3) as (f4 & d4 & -> & L4); [simpl in Hl; rewrite !length_app in Hl; lia|].
  destruct (split_front 8 d4) as (f5 & d5 & -> & L5); [simpl in Hl; rewrite !length_app in Hl; lia|].
  rewrite reader_of_rd, !reader_u8_cons in H. unfold reader_u8, reader_u64 in H.
  rewrite !(reader_field_split 1) in H by (done || apply read_u8_be).
  rewrite !(reader_field_split 8) in H by (done || apply read_u64_be).
  simplify_eq. split.
  - unfold frame_header_ok. simpl.
    pose proof (be_value_range f1); pose proof (be_value_range f2); pose proof (be_value_range f3);
    pose proof (be_value_range f4); pose proof (be_value_range f5).
    unfold zlen in *. rewrite L1, L2, L3, L4, L5 in *. done.
  - exists d5. unfold header_layout. simpl fh_type. simpl fh_flags.
    simpl fh_session_id. simpl fh_timestamp_ns. simpl fh_payload_len.
    rewrite !be_bytes_be_value, !be_bytes_1 by done. by rewrite <- !app_assoc.
Qed.

Lemma encode_frame_layout h payload :
  encode_frame h payload = Some (header_layout (with_payload_len h (zlen payload)) ++ payload).
Proof. unfold encode_frame. by rewrite encode_header_layout. Qed.

Lemma store_resize_all out n src :
  length src = n -> store (resize n out) 0 src = Some src.
Proof.
  intros <-. unfold resize. rewrite store_0 by (rewrite length_vresize; lia).
  rewrite drop_ge by (rewrite length_vresize; lia). by rewrite app_nil_r.
Qed.

Lemma encode_frame_into_layout out h payload :
  encode_frame_into out h payload
  = Some (header_layout (with_payload_len h (zlen payload)) ++ payload).
Proof.
  unfold encode_frame_into. rewrite encode_header_layout. cbn [mbind option_bind].
  set (hl := header_layout _). assert (length hl = header_size) as Hh by apply length_header_layout.
  assert (length (resize (header_size + length payload) out) = header_size + length payload)%nat
    as Hb by apply length_vresize.
  revert Hb. generalize (resize (header_size + length payload) out). intros buf Hb.
  rewrite store_0 by lia. cbn [mbind option_bind].
  rewrite <- Hh in *. clearbody hl.
  destruct payload as [|b payload].
  { rewrite drop_ge by (cbn [length] in Hb; lia). done. }
  rewrite store_app by (rewrite length_drop; lia).
  rewrite drop_ge; [by rewrite app_nil_r|]. rewrite length_drop. lia.
Qed.

Lemma encode_unidirectional_into_layout out h data counter :
  encode_unidirectional_into out h data counter = Some (unidirectional_layout h counter data).
Proof.
  unfold encode_unidirectional_into, resize, unidirectional_header_size. rewrite writer_of_wr.
  writer_run. rewrite wr_full by codec_len. unfold unidirectional_layout. simpl app at 1.
  destruct counter as [c|]; [rewrite write_varint_spec|]; cbn [mbind option_bind];
    by rewrite <- !app_assoc.
Qed.

Lemma length_unidirectional_layout h counter data :
  length (unidirectional_layout h counter data)
  = (17 + (match counter with Some c => length (varint c) | None => 0 end) + length data)%nat.
Proof. unfold unidirectional_layout. destruct counter; codec_len. Qed.

(** The one-pass framing equals framing the separately encoded payload. *)
Lemma encode_unidirectional_frame_into_layout out fh uh payload counter :
  encode_unidirectional_frame_into out fh uh payload counter
  = Some (header_layout (with_payload_len fh (zlen (unidirectional_layout uh counter payload)))
          ++ unidirectional_layout uh counter payload).
Proof.
  unfold encode_unidirectional_frame_into, unidirectional_header_size.
  set (n := match counter with Some c => length (varint c) | None => 0%nat end).
  replace (match counter with Some c => varint_size c | None => Some 0%nat end) with (Some n)
    by (destruct counter; [by rewrite varint_size_spec|done]).
  cbn [mbind option_bind]. rewrite encode_header_layout. cbn [mbind option_bind].
  replace (zlen (unidirectional_layout uh counter payload)) with (Z.of_nat (17 + n + length payload))
    by (unfold zlen; rewrite length_unidirectional_layout; done).
  set (hl := header_layout _). assert (length hl = header_size) as Hh by apply length_header_layout.
  rewrite writer_of_wr. unfold resize.
  rewrite writer_bytes_wr by (rewrite length_vresize; lia). cbn [mbind option_bind].
  assert (Hr : length (drop (length hl) (vresize (byte.of_Z 0) (header_size + (17 + n + length payload)) out))
               = (17 + n + length payload)%nat) by (rewrite length_drop, length_vresize; lia).
  set (rest := drop (length hl) _) in *. clearbody rest.
  unfold unidirectional_layout. destruct counter as [c|]; subst n; writer_run;
    (rewrite wr_full by codec_len); by rewrite <- !app_assoc.
Qed.

Lemma decode_unidirectional_layout h counter data :
  unidirectional_header_ok h -> (match counter with Some c => in_width 64 c | None => True end) ->
  decode_unidirectional (unidirectional_layout h counter data) (bool_decide (is_Some counter))
  = Some (UnidirectionalDecodeResult h counter data).
Proof.
  intros (? & ? & ?) Hc. unfold decode_unidirectional, unidirectional_header_size.
  rewrite decide_False by (rewrite length_unidirectional_layout; lia).
  rewrite reader_of_rd. unfold unidirectional_layout. reader_run.
  destruct counter as [c|]; simpl.
  - reader_run. rewrite reader_rest_rd. by destruct h.
  - rewrite reader_rest_rd. by destruct h.
Qed.

Lemma encode_bidirectional_into_layout out h data :
  encode_bidirectional_into out h data = Some (bidirectional_layout h data).
Proof.
  unfold encode_bidirectional_into, resize, bidirectional_header_size. rewrite writer_of_wr.
  writer_run. rewrite wr_full by codec_len. unfold bidirectional_layout.
  by rewrite <- !app_assoc.
Qed.

Lemma decode_bidirectional_layout h data :
  bidirectional_header_ok h ->
  decode_bidirectional (bidirectional_layout h data) = Some (BidirectionalDecodeResult h data).
Proof.
  intros (? & ? & ? & ? & ? & ?). unfold decode_bidirectional, bidirectional_header_size.
  rewrite decide_False by (unfold bidirectional_layout; codec_len).
  rewrite reader_of_rd. unfold bidirectional_layout. reader_run. rewrite reader_rest_rd.
  by destruct h.
Qed.

Lemma encode_rpc_response_layout h status data :
  encode_rpc_response h status data = Some (bidirectional_layout h (be_bytes 1 status ++ data)).
Proof.
  unfold encode_rpc_response, zero_bytes. rewrite byte_of_Z_wrap.
  change [byte.of_Z status] with (be_bytes 1 status).
  rewrite store_0 by codec_len. cbn [mbind option_bind].
  replace (match data with
           | [] => Some (be_bytes 1 status ++ _)
           | _ => store _ 1 data end) with (Some (be_bytes 1 status ++ data)).
  { cbn [mbind option_bind]. apply encode_bidirectional_into_layout. }
  destruct data as [|b data]; [done|].
  change 1%nat with (length (be_bytes 1 status)) at 3.
  rewrite store_app by codec_len. rewrite (drop_ge (drop _ _)) by codec_len. by rewrite app_nil_r.
Qed.

Lemma encode_rpc_response_into_layout out h status data :
  encode_rpc_response_into out h status data
  = Some (bidirectional_layout h (be_bytes 1 status ++ data)).
Proof.
  unfold encode_rpc_response_into, resize, bidirectional_header_size. rewrite writer_of_wr.
  writer_run. rewrite wr_full by codec_len. unfold bidirectional_layout.
  by rewrite <- !app_assoc.
Qed.

End Lemmas.

(** ** Theorems *)

Section Theorems.
Context {host : Host}.

(** [decode_header] accepts exactly the buffers that start with the encoding
    of a well-formed header, and returns that header: encoding and decoding are
    inverse in both directions, and the encoder fills its 28-byte buffer exactly. *)
Theorem header_codec_exact (data : bytes) (h : frame_header) :
  decode_header data = Some h <->
  frame_header_ok h /\
  exists bs rest, encode_header h = Some bs /\ length bs = header_size /\ data = bs ++ rest.
Proof.
  split.
  - intros H. apply decode_header_inv in H as (Hok & rest & ->). split; [done|].
    exists (header_layout h), rest. by rewrite encode_header_layout, length_header_layout.
  - intros (Hok & bs & rest & He & _ & ->). rewrite encode_header_layout in He. simplify_eq.
    by apply decode_header_layout.
Qed.

(** The one-pass framing of a publish, which sizes one buffer and writes the
    frame header, the publish header, the optional counter and the payload into
    it, produces byte for byte what framing the separately encoded payload does,
    whatever the reused buffer held. *)
Theorem one_pass_framing_equivalent (out out' : bytes) (fh : frame_header)
    (uh : unidirectional_header) (payload : bytes) (counter : option Z) :
  encode_unidirectional_frame_into out fh uh payload counter
  = (inner ← encode_unidirectional_into out' uh payload counter; encode_frame fh inner).
Proof.
  rewrite encode_unidirectional_frame_into_layout, encode_unidirectional_into_layout.
  cbn [mbind option_bind]. by rewrite encode_frame_layout.
Qed.

(** A published frame written in one pass is decoded back to the header, the
    source counter and the payload that were published. *)
Theorem publish_frame_roundtrip (out : bytes) (fh : frame_header) (uh : unidirectional_header)
    (payload : bytes) (counter : option Z) :
  frame_header_ok fh -> unidirectional_header_ok uh ->
  (match counter with Some c => in_width 64 c | None => True end) ->
  zlen payload < 2 ^ 63 ->
  exists frame inner,
    encode_unidirectional_frame_into out fh uh payload counter = Some frame /\
    decode_header frame = Some (with_payload_len fh (zlen inner)) /\
    drop header_size frame = inner /\
    decode_unidirectional inner (bool_decide (is_Some counter))
    = Some (UnidirectionalDecodeResult uh counter payload).
Proof.
  intros (? & ? & ? & ? & ?) Hu Hc Hp.
  exists (header_layout (with_payload_len fh (zlen (unidirectional_layout uh counter payload)))
          ++ unidirectional_layout uh counter payload), (unidirectional_layout uh counter payload).
  split_and!.
  - apply encode_unidirectional_frame_into_layout.
  - apply decode_header_layout. unfold frame_header_ok. simpl. split_and!; try done.
    unfold in_width, zlen in *. rewrite length_unidirectional_layout.
    destruct counter as [c|]; [pose proof (length_varint c)|]; lia.
  - rewrite <- (length_header_layout (with_payload_len fh (zlen (unidirectional_layout uh counter payload)))).
    apply drop_app_length.
  - by apply decode_unidirectional_layout.
Qed.

(** RPC requests and responses survive a round trip, the buffer-reusing
    response encoder agrees with the allocating one, and a response with a status
    byte outside the nine defined codes is refused. *)
Theorem rpc_roundtrip (out : bytes) (h : bidirectional_header) (status : rpc_status) (data : bytes) :
  bidirectional_header_ok h -> in_width 8 status ->
  decode_rpc_request <$> encode_rpc_request_into out h data
    = Some (Some (BidirectionalDecodeResult h data)) /\
  encode_rpc_response_into out h status data = encode_rpc_response h status data /\
  decode_rpc_response <$> encode_rpc_response h status data
    = Some (if is_defined_rpc_status status
            then Some (RpcResponseDecodeResult h status data) else None).
Proof.
  intros Hok Hs. unfold encode_rpc_request_into, decode_rpc_request, decode_rpc_response.
  rewrite encode_bidirectional_into_layout, encode_rpc_response_layout, encode_rpc_response_into_layout.
  cbn [fmap option_fmap option_map]. rewrite !decode_bidirectional_layout by done.
  split_and!; [done|done|]. cbn [bd_data bd_header].
  change (be_bytes 1 status ++ data) with (byte.of_Z status :: data). cbv beta iota zeta.
  rewrite unsigned_of_Z_small by done. by destruct (is_defined_rpc_status status).
Qed.

End Theorems.

Lemma publish_frame_roundtrip_witness :
  exists frame inner,
    encode_unidirectional_frame_into (host := little) [] (FrameHeader msg_unidirectional 1 7 9 0)
      (UnidirectionalHeader src_publisher 3 5) [Byte.xaa] (Some 200) = Some frame /\
    decode_header (host := little) frame
      = Some (with_payload_len (FrameHeader msg_unidirectional 1 7 9 0) (zlen inner)) /\
    drop header_size frame = inner /\
    decode_unidirectional (host := little) inner true
    = Some (UnidirectionalDecodeResult (UnidirectionalHeader src_publisher 3 5) (Some 200) [Byte.xaa]).
Proof.
  apply (publish_frame_roundtrip (host := little) [] (FrameHeader msg_unidirectional 1 7 9 0)
    (UnidirectionalHeader src_publisher 3 5) [Byte.xaa] (Some 200));
    [repeat split; by vm_compute|repeat split; by vm_compute|split; by vm_compute|by vm_compute].
Defined.

Lemma rpc_roundtrip_witness :
  decode_rpc_response (host := big)
    <$> encode_rpc_response (host := big) (BidirectionalHeader src_caller 1 2 0 0 3) rpc_no_handler []
  = Some (Some (RpcResponseDecodeResult (BidirectionalHeader src_caller 1 2 0 0 3) rpc_no_handler [])).
Proof.
  apply (rpc_roundtrip (host := big) [] (BidirectionalHeader src_caller 1 2 0 0 3) rpc_no_handler []);
    [repeat split; by vm_compute|split; by vm_compute].
Defined.
