(* ===== verification/Control.v ===== *)
(** * The control-plane messages

    Models [handshake.h], [detail/handshake_codec.h], [subscribe.h],
    [detail/subscribe_codec.h], [heartbeat.h] and [fetch_latched.h] of
    [lib/plexus-wire/include/plexus/wire/].

    The subscribe, heartbeat and fetch codecs dereference raw pointers after a
    length check.  Their decoders return a [parsed] value whose [undefined] case
    is an access outside the payload, so that "the result is not [undefined]" is
    memory safety on untrusted input and is separate from rejecting it. *)

From S2P Require Import Prelude ByteOrder Varint Cursor Frame.

Inductive parsed (A : Type) : Type :=
| undefined
| rejected
| accepted (a : A).
Arguments undefined {A}.
Arguments rejected {A}.
Arguments accepted {A} a.

Notation "x ⇐ e ; k" := (match e with Some x => k | None => undefined end)
  (at level 20, e at level 100, k at level 200, right associativity) : plexus_scope.

(** ** Handshake *)

Definition k_protocol_version : Z := 7.

(** [enum class handshake_status : std::uint8_t] *)
Definition handshake_status : Type := Z.
Definition hs_accepted : handshake_status := 0x01.
Definition hs_version_incompatible : handshake_status := 0x02.
Definition hs_identity_conflict : handshake_status := 0x03.
Definition hs_rejected_unknown : handshake_status := 0x04.
Definition hs_unauthorized : handshake_status := 0x05.

Definition k_handshake_key_id_len : nat := 8.
Definition k_handshake_proof_len : nat := 32.

Record handshake_request : Type := HandshakeRequest {
  hs_id : bytes;
  hs_version_major : Z;
  hs_version_minor : Z;
  hs_compatible_version_major : Z;
  hs_compatible_version_minor : Z;
  hs_protocol_version : Z;
  hs_fingerprint : Z;
  hs_key_id : bytes;
  hs_own_nonce : bytes;
  hs_cipher_offer : Z;
  hs_chosen_cipher : Z;
  hs_proof : bytes;
}.

(** The response repeats the request's fields and appends the status; the source
    shares the codec of the common prefix through a template over the message. *)
Record handshake_response : Type := HandshakeResponse {
  hs_prefix : handshake_request;
  hs_status : handshake_status;
}.

Definition handshake_request_size : nat := 87.
Definition handshake_response_size : nat := 88.

Definition handshake_request_zero : handshake_request :=
  HandshakeRequest (zero_bytes 16) 0 0 0 0 0 0 (zero_bytes k_handshake_key_id_len)
    (zero_bytes 16) 0 0 (zero_bytes k_handshake_proof_len).

(** The array members have their declared sizes and the integers their widths. *)
Definition handshake_request_ok (m : handshake_request) : Prop :=
  length (hs_id m) = 16%nat /\ in_width 8 (hs_version_major m) /\
  in_width 8 (hs_version_minor m) /\ in_width 8 (hs_compatible_version_major m) /\
  in_width 8 (hs_compatible_version_minor m) /\ in_width 8 (hs_protocol_version m) /\
  in_width 64 (hs_fingerprint m) /\ length (hs_key_id m) = k_handshake_key_id_len /\
  length (hs_own_nonce m) = 16%nat /\ in_width 8 (hs_cipher_offer m) /\
  in_width 8 (hs_chosen_cipher m) /\ length (hs_proof m) = k_handshake_proof_len.

Section Handshake.
Context {host : Host}.

Definition is_defined_handshake_status (b : Z) : bool :=
  existsb (Z.eqb b)
    [hs_accepted; hs_version_incompatible; hs_identity_conflict; hs_rejected_unknown; hs_unauthorized].

Definition write_handshake_prefix (w : writer) (m : handshake_request) : option writer :=
  w ← writer_bytes w (hs_id m);
  w ← writer_u8 w (hs_version_major m);
  w ← writer_u8 w (hs_version_minor m);
  w ← writer_u8 w (hs_compatible_version_major m);
  w ← writer_u8 w (hs_compatible_version_minor m);
  w ← writer_u8 w (hs_protocol_version m);
  w ← writer_u64 w (hs_fingerprint m);
  w ← writer_bytes w (hs_key_id m);
  w ← writer_bytes w (hs_own_nonce m);
  w ← writer_u8 w (hs_cipher_offer m);
  w ← writer_u8 w (hs_chosen_cipher m);
  writer_bytes w (hs_proof m).

Definition read_handshake_prefix (r : reader) (m : handshake_request) : handshake_request * reader :=
  let '(id, r) := reader_copy_to r (hs_id m) (length (hs_id m)) in
  let '(version_major, r) := reader_u8 r in
  let '(version_minor, r) := reader_u8 r in
  let '(compatible_version_major, r) := reader_u8 r in
  let '(compatible_version_minor, r) := reader_u8 r in
  let '(protocol_version, r) := reader_u8 r in
  let '(fingerprint, r) := reader_u64 r in
  let '(key_id, r) := reader_copy_to r (hs_key_id m) (length (hs_key_id m)) in
  let '(own_nonce, r) := reader_copy_to r (hs_own_nonce m) (length (hs_own_nonce m)) in
  let '(cipher_offer, r) := reader_u8 r in
  let '(chosen_cipher, r) := reader_u8 r in
  let '(proof, r) := reader_copy_to r (hs_proof m) (length (hs_proof m)) in
  (HandshakeRequest id version_major version_minor compatible_version_major
     compatible_version_minor protocol_version fingerprint key_id own_nonce
     cipher_offer chosen_cipher proof, r).

Definition encode_handshake_request_into (out : bytes) (req : handshake_request) : option bytes :=
  w ← write_handshake_prefix (writer_of (resize handshake_request_size out)) req;
  Some (m_region w).

Definition encode_handshake_response_into (out : bytes) (resp : handshake_response) : option bytes :=
  w ← write_handshake_prefix (writer_of (resize handshake_response_size out)) (hs_prefix resp);
  w ← writer_u8 w (hs_status resp);
  Some (m_region w).

Definition encode_handshake_request (req : handshake_request) : option bytes :=
  encode_handshake_request_into [] req.

Definition encode_handshake_response (resp : handshake_response) : option bytes :=
  encode_handshake_response_into [] resp.

Definition decode_handshake_request (payload : bytes) : option handshake_request :=
  if decide (length payload < handshake_request_size)%nat then None else
  let '(req, _) := read_handshake_prefix (reader_of payload) handshake_request_zero in
  Some req.

Definition decode_handshake_response (payload : bytes) : option handshake_response :=
  if decide (length payload < handshake_response_size)%nat then None else
  let '(resp, r) := read_handshake_prefix (reader_of payload) handshake_request_zero in
  let '(status_byte, _) := reader_u8 r in
  if negb (is_defined_handshake_status status_byte) then None
  else Some (HandshakeResponse resp status_byte).

End Handshake.

(** ** Subscribe *)

Definition subscribe_status : Type := Z.
Definition sub_subscribed : subscribe_status := 0x01.
Definition sub_created : subscribe_status := 0x02.
Definition sub_type_mismatch : subscribe_status := 0x03.
Definition sub_already_subscribed : subscribe_status := 0x04.
Definition sub_incompatible_qos : subscribe_status := 0x05.
Definition sub_source_identity_incompatible : subscribe_status := 0x06.
Definition sub_subscribed_degraded : subscribe_status := 0x07.
Definition sub_type_undeclared : subscribe_status := 0x08.

Definition unsubscribe_status : Type := Z.
Definition unsub_unsubscribed : unsubscribe_status := 0x01.
Definition unsub_destroyed : unsubscribe_status := 0x02.
Definition unsub_not_subscribed : unsubscribe_status := 0x03.

Record subscribe_qos_region : Type := SubscribeQosRegion {
  q_durability : Z;
  q_delivery_mode : Z;
  q_replay_depth : Z;
  q_requested_flags : Z;
  q_requested_deadline_ns : Z;
  q_requested_lease_ns : Z;
  q_requested_priority : Z;
  q_requested_max_message_bytes : Z;
}.

Definition subscribe_qos_region_zero : subscribe_qos_region := SubscribeQosRegion 0 0 0 0 0 0 0 0.

(** [fqn] and [type_name] are [std::string]s: their bytes. *)
Record subscribe_request : Type := SubscribeRequest {
  sr_fqn : bytes;
  sr_type_name : bytes;
  sr_topic_hash : Z;
  sr_type_hash : Z;
  sr_source : endpoint_source_type;
  sr_has_qos : bool;
  sr_qos : subscribe_qos_region;
}.

Record subscribe_response : Type := SubscribeResponse {
  sp_topic_hash : Z;
  sp_status : subscribe_status;
  sp_has_degraded : bool;
  sp_degraded_flags : Z;
}.

Record unsubscribe_request : Type := UnsubscribeRequest { ur_topic_hash : Z }.

Record unsubscribe_response : Type := UnsubscribeResponse {
  us_topic_hash : Z;
  us_status : unsubscribe_status;
}.

Definition subscribe_response_size : nat := 9.
Definition subscribe_request_fixed_prefix : nat := 17.
Definition subscribe_request_min_size : nat := 21.
Definition unsubscribe_request_size : nat := 8.
Definition unsubscribe_response_size : nat := 9.
Definition k_max_fqn : nat := 1024.
Definition k_max_type_name : nat := 512.

Definition k_qos_durability_off : nat := 0.
Definition k_qos_delivery_off : nat := 1.
Definition k_qos_replay_depth_off : nat := 2.
Definition k_qos_flags_off : nat := 6.
Definition k_qos_deadline_ns_off : nat := 7.
Definition k_qos_lease_ns_off : nat := 15.
Definition k_qos_priority_off : nat := 23.
Definition k_qos_max_message_off : nat := 24.
Definition k_qos_reserved_off : nat := 28.
Definition k_qos_reserved_size : nat := 2.
Definition k_qos_region_size : nat := k_qos_reserved_off + k_qos_reserved_size.
Definition k_max_qos_region : nat := 64.

Definition k_qos_flag_requires_source_identity : Z := 0x01.
Definition k_qos_flag_requested_reliable : Z := 0x02.
Definition k_qos_flag_rxo_strict : Z := 0x04.
Definition k_qos_flag_typed_strict : Z := 0x08.

Section Subscribe.
Context {host : Host}.

Definition write_qos_region (buf : bytes) (p : nat) (qos : subscribe_qos_region) : option bytes :=
  buf ← write_u8 buf (p + k_qos_durability_off) (q_durability qos);
  buf ← write_u8 buf (p + k_qos_delivery_off) (q_delivery_mode qos);
  buf ← write_u32 buf (p + k_qos_replay_depth_off) (q_replay_depth qos);
  buf ← write_u8 buf (p + k_qos_flags_off) (q_requested_flags qos);
  buf ← write_u64 buf (p + k_qos_deadline_ns_off) (q_requested_deadline_ns qos);
  buf ← write_u64 buf (p + k_qos_lease_ns_off) (q_requested_lease_ns qos);
  buf ← write_u8 buf (p + k_qos_priority_off) (q_requested_priority qos);
  buf ← write_u32 buf (p + k_qos_max_message_off) (q_requested_max_message_bytes qos);
  buf ← write_u8 buf (p + k_qos_reserved_off) 0;
  write_u8 buf (p + k_qos_reserved_off + 1) 0.

(** A string copied with [memcpy] when it is not empty. *)
Definition copy_string (buf : bytes) (p : nat) (s : bytes) : option bytes :=
  match s with [] => Some buf | _ => store buf p s end.

Definition write_subscribe_head (buf : bytes) (p : nat) (req : subscribe_request)
  : option (bytes * nat) :=
  buf ← write_u64 buf p (sr_topic_hash req);
  let p := (p + 8)%nat in
  buf ← write_u64 buf p (sr_type_hash req);
  let p := (p + 8)%nat in
  buf ← write_u8 buf p (sr_source req);
  let p := (p + 1)%nat in
  buf ← write_u16 buf p (zlen (sr_fqn req));
  let p := (p + 2)%nat in
  buf ← copy_string buf p (sr_fqn req);
  let p := (p + length (sr_fqn req))%nat in
  buf ← write_u16 buf p (zlen (sr_type_name req));
  let p := (p + 2)%nat in
  buf ← copy_string buf p (sr_type_name req);
  let p := (p + length (sr_type_name req))%nat in
  Some (buf, p).

Definition encode_subscribe_request (req : subscribe_request) : option bytes :=
  let total := (subscribe_request_fixed_prefix + 2 + length (sr_fqn req) + 2
                + length (sr_type_name req))%nat in
  let total := if sr_has_qos req then (total + (2 + k_qos_region_size))%nat else total in
  let buf := zero_bytes total in
  '(buf, p) ← write_subscribe_head buf 0 req;
  if sr_has_qos req then
    buf ← write_u16 buf p (Z.of_nat k_qos_region_size);
    write_qos_region buf (p + 2) (sr_qos req)
  else Some buf.

(** [detail::read_subscribe_qos]: the decoded region on success. *)
Definition read_subscribe_qos (payload : bytes) (consumed : nat) : parsed subscribe_qos_region :=
  match read_length_prefixed 2 payload consumed 1 with
  | (None, _) => rejected
  | (Some q, _) =>
      if decide (length q <> k_qos_region_size \/ (k_max_qos_region < length q)%nat) then rejected else
      durability ⇐ read_u8 q k_qos_durability_off;
      delivery_mode ⇐ read_u8 q k_qos_delivery_off;
      replay_depth ⇐ read_u32 q k_qos_replay_depth_off;
      requested_flags ⇐ read_u8 q k_qos_flags_off;
      requested_deadline_ns ⇐ read_u64 q k_qos_deadline_ns_off;
      requested_lease_ns ⇐ read_u64 q k_qos_lease_ns_off;
      requested_priority ⇐ read_u8 q k_qos_priority_off;
      requested_max_message_bytes ⇐ read_u32 q k_qos_max_message_off;
      accepted (SubscribeQosRegion durability delivery_mode replay_depth requested_flags
        requested_deadline_ns requested_lease_ns requested_priority requested_max_message_bytes)
  end.

Definition decode_subscribe_request (payload : bytes) : parsed subscribe_request :=
  if decide (length payload < subscribe_request_min_size)%nat then rejected else
  topic_hash ⇐ read_u64 payload 0;
  type_hash ⇐ read_u64 payload 8;
  source ⇐ read_u8 payload 16;
  let consumed := subscribe_request_fixed_prefix in
  match read_length_prefixed 2 payload consumed 1 with
  | (None, _) => rejected
  | (Some fqn, consumed) =>
      if decide (k_max_fqn < length fqn)%nat then rejected else
      match read_length_prefixed 2 payload consumed 1 with
      | (None, _) => rejected
      | (Some type_name, consumed) =>
          if decide (k_max_type_name < length type_name)%nat then rejected else
          if decide (consumed < length payload)%nat then
            match read_subscribe_qos payload consumed with
            | undefined => undefined
            | rejected => rejected
            | accepted qos =>
                accepted (SubscribeRequest fqn type_name topic_hash type_hash source true qos)
            end
          else accepted (SubscribeRequest fqn type_name topic_hash type_hash source false
                           subscribe_qos_region_zero)
      end
  end.

Definition encode_subscribe_response (resp : subscribe_response) : option bytes :=
  let buf := zero_bytes (if sp_has_degraded resp then subscribe_response_size + 1
                         else subscribe_response_size) in
  buf ← write_u64 buf 0 (sp_topic_hash resp);
  buf ← write_u8 buf 8 (sp_status resp);
  if sp_has_degraded resp then write_u8 buf 9 (sp_degraded_flags resp) else Some buf.

Definition decode_subscribe_response (payload : bytes) : parsed subscribe_response :=
  if decide (length payload < subscribe_response_size)%nat then rejected else
  topic_hash ⇐ read_u64 payload 0;
  status ⇐ read_u8 payload 8;
  if decide (subscribe_response_size < length payload)%nat then
    degraded_flags ⇐ read_u8 payload 9;
    accepted (SubscribeResponse topic_hash status true degraded_flags)
  else accepted (SubscribeResponse topic_hash status false 0).

Definition encode_unsubscribe_request (req : unsubscribe_request) : option bytes :=
  write_u64 (zero_bytes unsubscribe_request_size) 0 (ur_topic_hash req).

Definition decode_unsubscribe_request (payload : bytes) : parsed unsubscribe_request :=
  if decide (length payload < unsubscribe_request_size)%nat then rejected else
  topic_hash ⇐ read_u64 payload 0;
  accepted (UnsubscribeRequest topic_hash).

Definition encode_unsubscribe_response (resp : unsubscribe_response) : option bytes :=
  buf ← write_u64 (zero_bytes unsubscribe_response_size) 0 (us_topic_hash resp);
  write_u8 buf 8 (us_status resp).

Definition decode_unsubscribe_response (payload : bytes) : parsed unsubscribe_response :=
  if decide (length payload < unsubscribe_response_size)%nat then rejected else
  topic_hash ⇐ read_u64 payload 0;
  status ⇐ read_u8 payload 8;
  accepted (UnsubscribeResponse topic_hash status).

End Subscribe.

(** ** Heartbeat and latched fetch *)

Record heartbeat : Type := Heartbeat { hb_version : Z; hb_reserved : Z }.

Definition heartbeat_default : heartbeat := Heartbeat 1 0.
Definition heartbeat_payload_size : nat := 2.

Record fetch_latched_request : Type := FetchLatchedRequest {
  fl_topic_hash : Z;
  fl_max_samples : Z;
}.

Definition fetch_latched_request_size : nat := 12.

Section Small.
Context {host : Host}.

Definition encode_heartbeat_into (out : bytes) (hb : heartbeat) : option bytes :=
  let out := resize heartbeat_payload_size out in
  out ← write_u8 out 0 (hb_version hb);
  write_u8 out 1 (hb_reserved hb).

Definition encode_heartbeat (hb : heartbeat) : option bytes := encode_heartbeat_into [] hb.

Definition decode_heartbeat (payload : bytes) : parsed heartbeat :=
  if decide (length payload < heartbeat_payload_size)%nat then rejected else
  version ⇐ read_u8 payload 0;
  reserved ⇐ read_u8 payload 1;
  accepted (Heartbeat version reserved).

Definition encode_fetch_latched_request (req : fetch_latched_request) : option bytes :=
  let buf := zero_bytes fetch_latched_request_size in
  buf ← write_u64 buf 0 (fl_topic_hash req);
  write_u32 buf 8 (fl_max_samples req).

Definition decode_fetch_latched_request (payload : bytes) : parsed fetch_latched_request :=
  if decide (length payload < fetch_latched_request_size)%nat then rejected else
  topic_hash ⇐ read_u64 payload 0;
  max_samples ⇐ read_u32 payload 8;
  accepted (FetchLatchedRequest topic_hash max_samples).

End Small.

(** ** Layouts and lemmas *)

Definition handshake_layout (m : handshake_request) : bytes :=
  hs_id m ++ be_bytes 1 (hs_version_major m) ++ be_bytes 1 (hs_version_minor m) ++
  be_bytes 1 (hs_compatible_version_major m) ++ be_bytes 1 (hs_compatible_version_minor m) ++
  be_bytes 1 (hs_protocol_version m) ++ be_bytes 8 (hs_fingerprint m) ++ hs_key_id m ++
  hs_own_nonce m ++ be_bytes 1 (hs_cipher_offer m) ++ be_bytes 1 (hs_chosen_cipher m) ++ hs_proof m.

Definition qos_layout (q : subscribe_qos_region) : bytes :=
  be_bytes 1 (q_durability q) ++ be_bytes 1 (q_delivery_mode q) ++ be_bytes 4 (q_replay_depth q) ++
  be_bytes 1 (q_requested_flags q) ++ be_bytes 8 (q_requested_deadline_ns q) ++
  be_bytes 8 (q_requested_lease_ns q) ++ be_bytes 1 (q_requested_priority q) ++
  be_bytes 4 (q_requested_max_message_bytes q) ++ be_bytes 1 0 ++ be_bytes 1 0.

Definition subscribe_head_layout (r : subscribe_request) : bytes :=
  be_bytes 8 (sr_topic_hash r) ++ be_bytes 8 (sr_type_hash r) ++ be_bytes 1 (sr_source r) ++
  be_bytes 2 (zlen (sr_fqn r)) ++ sr_fqn r ++ be_bytes 2 (zlen (sr_type_name r)) ++ sr_type_name r.

Definition subscribe_layout (r : subscribe_request) : bytes :=
  subscribe_head_layout r ++
  (if sr_has_qos r then be_bytes 2 (Z.of_nat k_qos_region_size) ++ qos_layout (sr_qos r) else []).

Definition qos_region_ok (q : subscribe_qos_region) : Prop :=
  in_width 8 (q_durability q) /\ in_width 8 (q_delivery_mode q) /\ in_width 32 (q_replay_depth q) /\
  in_width 8 (q_requested_flags q) /\ in_width 64 (q_requested_deadline_ns q) /\
  in_width 64 (q_requested_lease_ns q) /\ in_width 8 (q_requested_priority q) /\
  in_width 32 (q_requested_max_message_bytes q).

(** A request the encoder represents: field widths, the decoder's string lids,
    and a defaulted region when none is sent. *)
Definition subscribe_request_ok (r : subscribe_request) : Prop :=
  (length (sr_fqn r) <= k_max_fqn)%nat /\ (length (sr_type_name r) <= k_max_type_name)%nat /\
  in_width 64 (sr_topic_hash r) /\ in_width 64 (sr_type_hash r) /\ in_width 8 (sr_source r) /\
  (if sr_has_qos r then qos_region_ok (sr_qos r) else sr_qos r = subscribe_qos_region_zero).

Arguments handshake_layout : simpl never.
Arguments qos_layout : simpl never.
Arguments subscribe_head_layout : simpl never.
Arguments subscribe_layout : simpl never.

Lemma length_qos_layout q : length (qos_layout q) = k_qos_region_size.
Proof. unfold qos_layout. change k_qos_region_size with 30%nat. codec_len. Qed.

Section HandshakeLemmas.
Context {host : Host}.

Lemma length_handshake_layout m :
  handshake_request_ok m -> length (handshake_layout m) = handshake_request_size.
Proof.
  unfold handshake_request_ok, k_handshake_key_id_len, k_handshake_proof_len.
  intros (? & ? & ? & ? & ? & ? & ? & ? & ? & ? & ? & ?).
  unfold handshake_layout, handshake_request_size. codec_len.
Qed.

Lemma write_handshake_prefix_wr rest m :
  handshake_request_ok m -> (handshake_request_size <= length rest)%nat ->
  write_handshake_prefix (wr [] rest) m
  = Some (wr (handshake_layout m) (drop handshake_request_size rest)).
Proof.
  unfold handshake_request_ok, k_handshake_key_id_len, k_handshake_proof_len, handshake_request_size.
  intros (? & ? & ? & ? & ? & ? & ? & ? & ? & ? & ? & ?) Hl.
  unfold write_handshake_prefix. writer_run. f_equal. f_equal.
  - unfold handshake_layout. by rewrite <- !app_assoc.
  - rewrite !drop_drop. f_equal. lia.
Qed.

Lemma read_handshake_prefix_rd pre m post :
  handshake_request_ok m ->
  read_handshake_prefix (rd pre (handshake_layout m ++ post)) handshake_request_zero
  = (m, rd (pre ++ handshake_layout m) post).
Proof.
  unfold handshake_request_ok, k_handshake_key_id_len, k_handshake_proof_len.
  intros (? & ? & ? & ? & ? & ? & ? & ? & ? & ? & ? & ?).
  unfold read_handshake_prefix, handshake_layout.
  rewrite <- !app_assoc. unfold handshake_request_zero, zero_bytes,
    k_handshake_key_id_len, k_handshake_proof_len. cbn [hs_id hs_key_id hs_own_nonce hs_proof].
  rewrite !length_replicate.
  rewrite reader_copy_to_rd by (rewrite ?length_replicate; done). reader_run.
  rewrite reader_copy_to_rd by (rewrite ?length_replicate; done).
  rewrite reader_copy_to_rd by (rewrite ?length_replicate; done). reader_run.
  rewrite reader_copy_to_rd by (rewrite ?length_replicate; done).
  rewrite <- !app_assoc. by destruct m.
Qed.

Lemma encode_handshake_request_layout out m :
  handshake_request_ok m -> encode_handshake_request_into out m = Some (handshake_layout m).
Proof.
  intros Hok. unfold encode_handshake_request_into, resize.
  rewrite writer_of_wr, write_handshake_prefix_wr by (done || by rewrite length_vresize).
  cbn [mbind option_bind]. rewrite wr_full; [done|]. rewrite length_drop, length_vresize. lia.
Qed.

Lemma encode_handshake_response_layout out m s :
  handshake_request_ok m ->
  encode_handshake_response_into out (HandshakeResponse m s) = Some (handshake_layout m ++ be_bytes 1 s).
Proof.
  intros Hok. unfold encode_handshake_response_into, resize. cbn [hs_prefix hs_status].
  rewrite writer_of_wr, write_handshake_prefix_wr
    by (done || (rewrite length_vresize; unfold handshake_request_size, handshake_response_size; lia)).
  cbn [mbind option_bind]. unfold handshake_request_size, handshake_response_size.
  writer_run. by rewrite wr_full by codec_len.
Qed.

Lemma decode_handshake_request_layout m post :
  handshake_request_ok m -> decode_handshake_request (handshake_layout m ++ post) = Some m.
Proof.
  intros Hok. unfold decode_handshake_request.
  rewrite decide_False by (rewrite length_app, length_handshake_layout by done; lia).
  by rewrite reader_of_rd, read_handshake_prefix_rd.
Qed.

Lemma decode_handshake_response_layout m s post :
  handshake_request_ok m -> is_defined_handshake_status s = true -> in_width 8 s ->
  decode_handshake_response (handshake_layout m ++ be_bytes 1 s ++ post)
  = Some (HandshakeResponse m s).
Proof.
  intros Hok Hs Hw. unfold decode_handshake_response.
  rewrite decide_False.
  2: { rewrite !length_app, length_handshake_layout, length_be_bytes by done.
       unfold handshake_request_size, handshake_response_size. lia. }
  rewrite reader_of_rd, read_handshake_prefix_rd by done. reader_run. by rewrite Hs.
Qed.

End HandshakeLemmas.

Section SubscribeLemmas.
Context {host : Host}.

Lemma write_qos_region_at pre rest p q :
  p = length pre -> length rest = k_qos_region_size ->
  write_qos_region (pre ++ rest) p q = Some (pre ++ qos_layout q).
Proof.
  change k_qos_region_size with 30%nat. intros -> Hl.
  unfold write_qos_region, k_qos_durability_off, k_qos_delivery_off, k_qos_replay_depth_off,
    k_qos_flags_off, k_qos_deadline_ns_off, k_qos_lease_ns_off, k_qos_priority_off,
    k_qos_max_message_off, k_qos_reserved_off. raw_write.
  rewrite (drop_ge (drop _ _)) by codec_len. unfold qos_layout.
  rewrite app_nil_r. by rewrite <- !app_assoc.
Qed.

Lemma copy_string_at pre rest p s :
  p = length pre -> (length s <= length rest)%nat ->
  copy_string (pre ++ rest) p s = Some ((pre ++ s) ++ drop (length s) rest).
Proof.
  intros -> Hl. destruct s as [|b s]; [|by apply (store_at pre rest _ (b :: s))].
  simpl. by rewrite drop_0, app_nil_r.
Qed.

Lemma write_subscribe_head_at rest r :
  (length (subscribe_head_layout r) <= length rest)%nat ->
  write_subscribe_head rest 0 r
  = Some (subscribe_head_layout r ++ drop (length (subscribe_head_layout r)) rest,
          length (subscribe_head_layout r)).
Proof.
  intros Hl. assert (length (subscribe_head_layout r)
    = 21 + length (sr_fqn r) + length (sr_type_name r))%nat as Hh
    by (unfold subscribe_head_layout; codec_len).
  rewrite Hh in *. unfold write_subscribe_head. change rest with ([] ++ rest) at 1. raw_write.
  rewrite copy_string_at by codec_len. raw_write.
  rewrite copy_string_at by codec_len. cbn [mbind option_bind].
  apply (f_equal Some), (f_equal2 pair); [|lia]. unfold subscribe_head_layout. rewrite <- !app_assoc.
  rewrite !drop_drop, app_nil_l. do 7 (apply (f_equal2 app); [reflexivity|]).
  apply (f_equal (fun n => drop n rest)). lia.
Qed.

Lemma encode_subscribe_request_layout r : encode_subscribe_request r = Some (subscribe_layout r).
Proof.
  unfold encode_subscribe_request, zero_bytes, subscribe_request_fixed_prefix.
  assert (length (subscribe_head_layout r)
    = 21 + length (sr_fqn r) + length (sr_type_name r))%nat as Hh
    by (unfold subscribe_head_layout; codec_len).
  rewrite write_subscribe_head_at by (rewrite length_replicate; destruct (sr_has_qos r); lia).
  cbn [mbind option_bind]. unfold subscribe_layout. destruct (sr_has_qos r).
  - change k_qos_region_size with 30%nat. raw_write.
    rewrite write_qos_region_at by (change k_qos_region_size with 30%nat; codec_len).
    by rewrite <- app_assoc.
  - by rewrite drop_ge by codec_len.
Qed.

Lemma read_subscribe_qos_at pre q :
  qos_region_ok q ->
  read_subscribe_qos (pre ++ be_bytes 2 (Z.of_nat k_qos_region_size) ++ qos_layout q) (length pre)
  = accepted q.
Proof.
  intros (? & ? & ? & ? & ? & ? & ? & ?). unfold read_subscribe_qos.
  rewrite <- (app_nil_r (qos_layout q)).
  rewrite read_length_prefixed_at;
    [|set_solver|done|done|unfold zlen; rewrite length_qos_layout; done
     |unfold zlen; rewrite length_qos_layout; done].
  rewrite decide_False by (rewrite length_qos_layout; change k_qos_region_size with 30%nat;
    unfold k_max_qos_region; lia).
  unfold qos_layout, k_qos_durability_off, k_qos_delivery_off, k_qos_replay_depth_off,
    k_qos_flags_off, k_qos_deadline_ns_off, k_qos_lease_ns_off, k_qos_priority_off,
    k_qos_max_message_off. raw_read. by destruct q.
Qed.

Lemma length_subscribe_layout r : (21 <= length (subscribe_layout r))%nat.
Proof. unfold subscribe_layout, subscribe_head_layout. codec_len. Qed.

Lemma decode_subscribe_request_layout r :
  subscribe_request_ok r -> decode_subscribe_request (subscribe_layout r) = accepted r.
Proof.
  unfold subscribe_request_ok, k_max_fqn, k_max_type_name. intros (Hf & Ht & ? & ? & ? & Hq).
  unfold decode_subscribe_request, subscribe_request_min_size.
  pose proof (length_subscribe_layout r). rewrite decide_False by lia.
  unfold subscribe_layout, subscribe_head_layout.
  set (tail := if sr_has_qos r then _ else _) in *. rewrite <- !app_assoc. raw_read.
  unfold subscribe_request_fixed_prefix.
  rewrite !(app_assoc (be_bytes 8 (sr_topic_hash r))), (app_assoc (_ ++ _) (be_bytes 1 _)).
  set (h := (be_bytes 8 (sr_topic_hash r) ++ _) ++ be_bytes 1 (sr_source r)).
  assert (length h = 17)%nat as Hh by (unfold h; codec_len).
  replace 17%nat with (length h).
  rewrite read_length_prefixed_at;
    [|set_solver|unfold in_width, zlen; lia|done|lia|unfold zlen, size_max; lia].
  rewrite decide_False by (unfold k_max_fqn; lia).
  replace (length h + 2 + length (sr_fqn r))%nat
    with (length ((h ++ be_bytes 2 (zlen (sr_fqn r))) ++ sr_fqn r)) by codec_len.
  rewrite !(app_assoc h), (app_assoc (h ++ _)).
  rewrite read_length_prefixed_at;
    [|set_solver|unfold in_width, zlen; lia|done|lia|unfold zlen, size_max; lia].
  rewrite decide_False by (unfold k_max_type_name; lia).
  set (p := (h ++ _) ++ sr_fqn r). rewrite !(app_assoc p), (app_assoc (p ++ _)).
  replace (length p + 2 + length (sr_type_name r))%nat
    with (length ((p ++ be_bytes 2 (zlen (sr_type_name r))) ++ sr_type_name r)) by codec_len.
  destruct (sr_has_qos r) eqn:E; subst tail.
  - rewrite decide_True by codec_len.
    rewrite read_subscribe_qos_at by done. destruct r; simpl in *; by subst.
  - rewrite app_nil_r. rewrite decide_False by lia. destruct r; simpl in *; by subst.
Qed.

Lemma read_subscribe_qos_defined payload consumed : read_subscribe_qos payload consumed <> undefined.
Proof.
  unfold read_subscribe_qos. destruct (read_length_prefixed _ _ _ _) as [ [q|] ?]; [|done].
  case_decide as Hd; [done|].
  assert (length q = 30%nat) as Hq by (apply dec_stable; intros ?; apply Hd; by left).
  unfold k_qos_durability_off, k_qos_delivery_off, k_qos_replay_depth_off,
    k_qos_flags_off, k_qos_deadline_ns_off, k_qos_lease_ns_off, k_qos_priority_off,
    k_qos_max_message_off. raw_total. done.
Qed.

Lemma decode_subscribe_request_defined payload : decode_subscribe_request payload <> undefined.
Proof.
  unfold decode_subscribe_request, subscribe_request_min_size. case_decide; [done|]. raw_total.
  destruct (read_length_prefixed _ _ _ _) as [ [fqn|] c1]; [|done]. case_decide; [done|].
  destruct (read_length_prefixed _ _ _ _) as [ [ty|] c2]; [|done]. case_decide; [done|].
  case_decide; [|done]. pose proof (read_subscribe_qos_defined payload c2) as H'.
  by destruct (read_subscribe_qos payload c2).
Qed.

(** The decoder's allocation lids hold of whatever it accepts. *)
Lemma decode_subscribe_request_lids payload r :
  decode_subscribe_request payload = accepted r ->
  (length (sr_fqn r) <= k_max_fqn)%nat /\ (length (sr_type_name r) <= k_max_type_name)%nat.
Proof.
  unfold decode_subscribe_request. intros H. case_decide; [done|].
  destruct (read_u64 payload 0); [|done]. destruct (read_u64 payload 8); [|done].
  destruct (read_u8 payload 16); [|done].
  destruct (read_length_prefixed _ _ _ _) as [ [fqn|] c1]; [|done]. case_decide; [done|].
  destruct (read_length_prefixed _ _ _ _) as [ [ty|] c2]; [|done]. case_decide; [done|].
  case_decide; [destruct (read_subscribe_qos payload c2)|]; simplify_eq; simpl; lia.
Qed.

End SubscribeLemmas.

Section SmallLemmas.
Context {host : Host}.

Lemma encode_subscribe_response_layout r :
  encode_subscribe_response r
  = Some (be_bytes 8 (sp_topic_hash r) ++ be_bytes 1 (sp_status r) ++
          (if sp_has_degraded r then be_bytes 1 (sp_degraded_flags r) else [])).
Proof.
  unfold encode_subscribe_response, zero_bytes, subscribe_response_size.
  destruct (sp_has_degraded r); rewrite <- (app_nil_l (replicate _ _)); raw_write;
    rewrite (drop_ge (drop _ _)) by codec_len; by rewrite !app_nil_r, <- ?app_assoc.
Qed.

Lemma encode_unsubscribe_request_layout r :
  encode_unsubscribe_request r = Some (be_bytes 8 (ur_topic_hash r)).
Proof.
  unfold encode_unsubscribe_request, zero_bytes, unsubscribe_request_size.
  rewrite <- (app_nil_l (replicate _ _)). raw_write. by rewrite drop_ge, app_nil_r by codec_len.
Qed.

Lemma encode_unsubscribe_response_layout r :
  encode_unsubscribe_response r = Some (be_bytes 8 (us_topic_hash r) ++ be_bytes 1 (us_status r)).
Proof.
  unfold encode_unsubscribe_response, zero_bytes, unsubscribe_response_size.
  rewrite <- (app_nil_l (replicate _ _)). raw_write.
  by rewrite (drop_ge (drop _ _)), app_nil_r by codec_len.
Qed.

Lemma encode_heartbeat_into_layout out hb :
  encode_heartbeat_into out hb = Some (be_bytes 1 (hb_version hb) ++ be_bytes 1 (hb_reserved hb)).
Proof.
  unfold encode_heartbeat_into, resize, heartbeat_payload_size.
  rewrite <- (app_nil_l (vresize _ _ _)). raw_write.
  by rewrite (drop_ge (drop _ _)), app_nil_r by codec_len.
Qed.

Lemma encode_fetch_latched_request_layout r :
  encode_fetch_latched_request r
  = Some (be_bytes 8 (fl_topic_hash r) ++ be_bytes 4 (fl_max_samples r)).
Proof.
  unfold encode_fetch_latched_request, zero_bytes, fetch_latched_request_size.
  rewrite <- (app_nil_l (replicate _ _)). raw_write.
  by rewrite (drop_ge (drop _ _)), app_nil_r by codec_len.
Qed.

End SmallLemmas.

(** ** Theorems *)

Section Theorems.
Context {host : Host}.

(** An encoded handshake message is decoded back, whatever bytes follow it
    and whatever the reused output buffer held; the encoders stay inside the
    87- and 88-byte regions they size. *)
Theorem handshake_roundtrip (out rest : bytes) (m : handshake_request) (s : handshake_status) :
  handshake_request_ok m -> is_defined_handshake_status s = true ->
  (exists bs, encode_handshake_request_into out m = Some bs /\
     length bs = handshake_request_size /\ decode_handshake_request (bs ++ rest) = Some m) /\
  (exists bs, encode_handshake_response_into out (HandshakeResponse m s) = Some bs /\
     length bs = handshake_response_size /\
     decode_handshake_response (bs ++ rest) = Some (HandshakeResponse m s)).
Proof.
  intros Hok Hs.
  assert (in_width 8 s) as Hw.
  { unfold is_defined_handshake_status in Hs. apply existsb_exists in Hs as (x & Hx & ->%Z.eqb_eq).
    simpl in Hx. destruct_or!; subst; done. }
  split; eexists; split_and!.
  - by apply encode_handshake_request_layout.
  - by apply length_handshake_layout.
  - by apply decode_handshake_request_layout.
  - by apply encode_handshake_response_layout.
  - rewrite length_app, length_handshake_layout, length_be_bytes by done. done.
  - rewrite <- app_assoc. by apply decode_handshake_response_layout.
Qed.

(** A response is only ever decoded with one of the five defined status
    codes, and a payload shorter than the fixed size is refused. *)
Theorem handshake_response_fail_closed (payload : bytes) :
  match decode_handshake_response payload with
  | Some r => is_defined_handshake_status (hs_status r) = true /\
              (handshake_response_size <= length payload)%nat
  | None => (length payload < handshake_response_size)%nat \/
            exists m r, read_handshake_prefix (reader_of payload) handshake_request_zero = (m, r) /\
                        is_defined_handshake_status (reader_u8 r).1 = false
  end.
Proof.
  unfold decode_handshake_response. case_decide; [by left|].
  destruct (read_handshake_prefix _ _) as [m r] eqn:E.
  destruct (reader_u8 r) as [s r'] eqn:Es.
  destruct (is_defined_handshake_status s) eqn:Ed; simpl; [split; [done|lia]|].
  right. exists m, r. by rewrite Es.
Qed.

(** An encoded subscribe request, with or without its QoS region, is
    decoded back exactly. *)
Theorem subscribe_roundtrip (r : subscribe_request) :
  subscribe_request_ok r ->
  exists bs, encode_subscribe_request r = Some bs /\ decode_subscribe_request bs = accepted r.
Proof.
  intros Hok. exists (subscribe_layout r). split; [apply encode_subscribe_request_layout|].
  by apply decode_subscribe_request_layout.
Qed.

(** No raw-pointer decoder of the control plane reads outside the payload it
    was given, for any payload, and an accepted subscribe request obeys the string
    lids. *)
Lemma control_decoders_memory_safe (payload : bytes) :
  decode_subscribe_request payload <> undefined /\
  decode_subscribe_response payload <> undefined /\
  decode_unsubscribe_request payload <> undefined /\
  decode_unsubscribe_response payload <> undefined /\
  decode_heartbeat payload <> undefined /\
  decode_fetch_latched_request payload <> undefined /\
  (forall r, decode_subscribe_request payload = accepted r ->
     (length (sr_fqn r) <= k_max_fqn)%nat /\ (length (sr_type_name r) <= k_max_type_name)%nat).
Proof.
  split; [apply decode_subscribe_request_defined|].
  unfold decode_subscribe_response, decode_unsubscribe_request, decode_unsubscribe_response,
    decode_heartbeat, decode_fetch_latched_request, subscribe_response_size,
    unsubscribe_request_size, unsubscribe_response_size, heartbeat_payload_size,
    fetch_latched_request_size.
  split_and!; [repeat (case_decide; [try done|]); raw_total; repeat case_decide; raw_total; done..|].
  intros r. apply decode_subscribe_request_lids.
Qed.

(** The responses and the fixed-size messages survive a round trip. *)
Theorem small_messages_roundtrip (rs : subscribe_response) (uq : unsubscribe_request)
    (us : unsubscribe_response) (hb : heartbeat) (fl : fetch_latched_request) :
  in_width 64 (sp_topic_hash rs) -> in_width 8 (sp_status rs) -> in_width 8 (sp_degraded_flags rs) ->
  (sp_has_degraded rs = false -> sp_degraded_flags rs = 0) ->
  in_width 64 (ur_topic_hash uq) ->
  in_width 64 (us_topic_hash us) -> in_width 8 (us_status us) ->
  in_width 8 (hb_version hb) -> in_width 8 (hb_reserved hb) ->
  in_width 64 (fl_topic_hash fl) -> in_width 32 (fl_max_samples fl) ->
  decode_subscribe_response <$> encode_subscribe_response rs = Some (accepted rs) /\
  decode_unsubscribe_request <$> encode_unsubscribe_request uq = Some (accepted uq) /\
  decode_unsubscribe_response <$> encode_unsubscribe_response us = Some (accepted us) /\
  decode_heartbeat <$> encode_heartbeat hb = Some (accepted hb) /\
  decode_fetch_latched_request <$> encode_fetch_latched_request fl = Some (accepted fl).
Proof.
  intros. unfold encode_heartbeat.
  rewrite encode_subscribe_response_layout, encode_unsubscribe_request_layout,
    encode_unsubscribe_response_layout, encode_heartbeat_into_layout,
    encode_fetch_latched_request_layout. cbn [fmap option_fmap option_map].
  unfold decode_subscribe_response, decode_unsubscribe_request, decode_unsubscribe_response,
    decode_heartbeat, decode_fetch_latched_request, subscribe_response_size,
    unsubscribe_request_size, unsubscribe_response_size, heartbeat_payload_size,
    fetch_latched_request_size.
  rewrite <- (app_nil_r (be_bytes 8 (ur_topic_hash uq))), <- (app_nil_r (be_bytes 1 (us_status us))),
    <- (app_nil_r (be_bytes 1 (hb_reserved hb))), <- (app_nil_r (be_bytes 4 (fl_max_samples fl))).
  split_and!; (rewrite decide_False by codec_len).
  - destruct rs as [h s [] d]; cbn [sp_topic_hash sp_status sp_has_degraded sp_degraded_flags] in *.
    + rewrite <- (app_nil_r (be_bytes 1 d)). raw_read. rewrite decide_True by codec_len. by raw_read.
    + raw_read. rewrite decide_False by codec_len. by rewrite H2.
  - raw_read. by destruct uq.
  - raw_read. by destruct us.
  - raw_read. by destruct hb.
  - raw_read. by destruct fl.
Qed.

End Theorems.

Definition sample_handshake : handshake_request :=
  HandshakeRequest (replicate 16 Byte.x11) 1 2 1 0 7 99 (replicate 8 Byte.x22)
    (replicate 16 Byte.x33) 1 1 (replicate 32 Byte.x44).

Lemma handshake_roundtrip_witness :
  (exists bs, encode_handshake_request_into (host := little) [] sample_handshake = Some bs /\
     length bs = handshake_request_size /\
     decode_handshake_request (host := little) (bs ++ [Byte.x00]) = Some sample_handshake) /\
  (exists bs, encode_handshake_response_into (host := little) []
       (HandshakeResponse sample_handshake hs_unauthorized) = Some bs /\
     length bs = handshake_response_size /\
     decode_handshake_response (host := little) (bs ++ [Byte.x00])
     = Some (HandshakeResponse sample_handshake hs_unauthorized)).
Proof.
  apply (handshake_roundtrip (host := little) [] [Byte.x00] sample_handshake hs_unauthorized);
    [repeat split; by vm_compute|reflexivity].
Defined.

Definition sample_subscribe : subscribe_request :=
  SubscribeRequest [Byte.x61; Byte.x2f; Byte.x62] [Byte.x54] 10 20 src_plexus true
    (SubscribeQosRegion 1 0 4 3 1000 2000 0 65536).

Lemma subscribe_roundtrip_witness :
  exists bs, encode_subscribe_request (host := big) sample_subscribe = Some bs /\
    decode_subscribe_request (host := big) bs = accepted sample_subscribe.
Proof.
  apply (subscribe_roundtrip (host := big) sample_subscribe).
  repeat split; try (by vm_compute); unfold k_max_fqn, k_max_type_name; simpl; lia.
Defined.

Lemma small_messages_roundtrip_witness :
  decode_heartbeat <$> encode_heartbeat heartbeat_default
  = Some (accepted heartbeat_default).
Proof.
  apply (small_messages_roundtrip (host := little) (SubscribeResponse 5 sub_subscribed_degraded true 3)
    (UnsubscribeRequest 5) (UnsubscribeResponse 5 unsub_destroyed) heartbeat_default
    (FetchLatchedRequest 5 16)); first [done | split; by vm_compute].
Defined.
