(* ===== verification/Hash.v ===== *)
(** * The CRC-32C checksum and the topic hash

    Models [crc32c.h] and [topic_hash.h] of [lib/plexus-wire/include/plexus/wire/].
    The table-driven checksum is proved equal to the bit-at-a-time CRC it
    tabulates, to chain over chunks, and to detect every single-byte error. *)

From S2P Require Import Prelude.

(** ** [crc32c.h] *)

Definition k_crc32c_poly_reflected : Z := 0x82F63B78.

(** One bit of the table builder's inner loop. *)
Definition crc_bit (c : Z) : Z :=
  if negb (Z.land c 1 =? 0) then Z.lxor k_crc32c_poly_reflected (Z.shiftr c 1) else Z.shiftr c 1.

Definition build_crc32c_table : list Z :=
  map (fun n => Nat.iter 8 crc_bit (Z.of_nat n)) (seq 0 256).

Definition k_crc32c_table : list Z := Eval vm_compute in build_crc32c_table.

(** [~x] on [uint32_t]. *)
Definition not32 (x : Z) : Z := wrap 32 (Z.lnot x).

Definition crc_byte (crc : Z) (b : byte) : Z :=
  let index := wrap 8 (Z.lxor crc ⟦b⟧) in
  Z.lxor (nth (Z.to_nat index) k_crc32c_table 0) (Z.shiftr crc 8).

Definition crc32c (data : bytes) (seed : Z) : Z :=
  not32 (foldl crc_byte (not32 seed) data).

(** ** [topic_hash.h] *)

Definition fnv_step (h : Z) (c : byte) : Z :=
  let h := Z.lxor h ⟦c⟧ in wrap 64 (h * 1099511628211).

Definition fqn_topic_hash (fqn : bytes) : Z := foldl fnv_step 1469598103934665603 fqn.

(** The standard 64-bit FNV-1a, for comparison. *)
Definition fnv1a_64 (fqn : bytes) : Z := foldl fnv_step 0xcbf29ce484222325 fqn.

(** ** Reference: the CRC computed one bit at a time *)

Definition crc_byte_bitwise (crc : Z) (b : byte) : Z := Nat.iter 8 crc_bit (Z.lxor crc ⟦b⟧).

Definition crc32c_bitwise (data : bytes) (seed : Z) : Z :=
  not32 (foldl crc_byte_bitwise (not32 seed) data).

Lemma k_crc32c_table_eq : k_crc32c_table = build_crc32c_table.
Proof. by vm_compute. Qed.

Lemma odd_land_1 c : negb (Z.land c 1 =? 0) = Z.odd c.
Proof.
  change 1 with (Z.ones 1). rewrite Z.land_ones by lia. change (2 ^ 1) with 2.
  rewrite Zmod_odd. by destruct (Z.odd c).
Qed.

Lemma crc_bit_lxor a b : crc_bit (Z.lxor a b) = Z.lxor (crc_bit a) (crc_bit b).
Proof.
  unfold crc_bit. rewrite !odd_land_1, Z.shiftr_lxor.
  rewrite <- !Z.bit0_odd, Z.lxor_spec.
  apply Z.bits_inj'. intros i Hi.
  destruct (Z.testbit a 0), (Z.testbit b 0); simpl; rewrite !Z.lxor_spec;
    destruct (Z.testbit k_crc32c_poly_reflected i), (Z.testbit (Z.shiftr a 1) i),
      (Z.testbit (Z.shiftr b 1) i); done.
Qed.

Lemma crc_bits_lxor n a b :
  Nat.iter n crc_bit (Z.lxor a b) = Z.lxor (Nat.iter n crc_bit a) (Nat.iter n crc_bit b).
Proof. induction n as [|n IH]; [done|]. simpl. by rewrite IH, crc_bit_lxor. Qed.

Lemma crc_bits_high n a : 0 <= a -> Nat.iter n crc_bit (a * 2 ^ Z.of_nat n) = a.
Proof.
  revert a. induction n as [|n IH]; intros a Ha; [simpl; lia|].
  rewrite Nat.iter_succ. replace (a * 2 ^ Z.of_nat (S n)) with ((2 * a) * 2 ^ Z.of_nat n)
    by (rewrite Nat2Z.inj_succ, Z.pow_succ_r by lia; lia).
  rewrite IH by lia. unfold crc_bit. rewrite odd_land_1, Z.odd_mul. simpl.
  rewrite Z.shiftr_div_pow2 by lia. change (2 ^ 1) with 2. rewrite Z.mul_comm. by apply Z.div_mul.
Qed.

Lemma lxor_low_high x :
  0 <= x -> x = Z.lxor (wrap 8 x) (Z.shiftr x 8 * 2 ^ 8).
Proof.
  intros Hx. rewrite Z.shiftr_div_pow2 by lia. change (2 ^ 8) with 256.
  rewrite <- Z.add_nocarry_lxor.
  - unfold wrap. change (2 ^ 8) with 256. rewrite Z.mul_comm, Z.add_comm. by apply Z_div_mod_eq_full.
  - apply Z.bits_inj'. intros i Hi. rewrite Z.land_spec, Z.bits_0. change 256 with (2 ^ 8).
    rewrite <- Z.shiftl_mul_pow2 by lia. destruct (decide (i < 8)).
    + rewrite Z.shiftl_spec_low by lia. by rewrite andb_false_r.
    + rewrite (testbit_above 8) by (lia || by apply wrap_range). done.
Qed.

Lemma table_lookup i : 0 <= i < 256 -> nth (Z.to_nat i) k_crc32c_table 0 = Nat.iter 8 crc_bit i.
Proof.
  intros Hi. rewrite k_crc32c_table_eq. unfold build_crc32c_table.
  rewrite (nth_indep _ 0 (Nat.iter 8 crc_bit (Z.of_nat 0)))
    by (rewrite length_map, length_seq; lia).
  rewrite (map_nth (fun n => Nat.iter 8 crc_bit (Z.of_nat n))), seq_nth by lia.
  f_equal. lia.
Qed.

Lemma lxor_nonneg a b : 0 <= a -> 0 <= b -> 0 <= Z.lxor a b.
Proof. intros. apply Z.lxor_nonneg. lia. Qed.

Lemma in_width_lxor w a b : 0 <= w -> in_width w a -> in_width w b -> in_width w (Z.lxor a b).
Proof.
  intros Hw Ha Hb. apply in_width_testbit; [done| |].
  - destruct Ha, Hb. by apply lxor_nonneg.
  - intros i Hi. rewrite Z.lxor_spec, (testbit_above w a), (testbit_above w b); done || lia.
Qed.

Lemma shiftr_lxor_byte crc b : Z.shiftr (Z.lxor crc ⟦b⟧) 8 = Z.shiftr crc 8.
Proof.
  rewrite Z.shiftr_lxor, (Z.shiftr_div_pow2 ⟦b⟧) by lia.
  rewrite (Z.div_small ⟦b⟧); [apply Z.lxor_0_r|]. apply byte.unsigned_range.
Qed.

(** Looking the low byte up and shifting is eight bit steps. *)
Lemma crc_byte_eq crc b : 0 <= crc -> crc_byte crc b = crc_byte_bitwise crc b.
Proof.
  intros Hc. unfold crc_byte, crc_byte_bitwise.
  assert (0 <= Z.lxor crc ⟦b⟧) as Hx by (apply lxor_nonneg; [done|apply byte.unsigned_range]).
  rewrite (lxor_low_high (Z.lxor crc ⟦b⟧)) at 2 by done.
  rewrite crc_bits_lxor, (crc_bits_high 8) by (by apply Z.shiftr_nonneg).
  rewrite table_lookup by (apply (wrap_range 8); lia). by rewrite shiftr_lxor_byte.
Qed.

Lemma table_in_width i : in_width 32 (nth i k_crc32c_table 0).
Proof.
  destruct (decide (i < length k_crc32c_table)%nat) as [Hi|Hi].
  - assert (forallb (fun z => (0 <=? z) && (z <? 2 ^ 32)) k_crc32c_table = true) as H by by vm_compute.
    rewrite forallb_forall in H. specialize (H _ (nth_In _ 0 Hi)).
    apply andb_true_iff in H as [?%Z.leb_le ?%Z.ltb_lt]. by split.
  - rewrite nth_overflow by lia. split; done.
Qed.

Lemma crc_byte_width crc b : in_width 32 crc -> in_width 32 (crc_byte crc b).
Proof.
  intros Hc. apply in_width_lxor; [lia|apply table_in_width|].
  apply in_width_shiftr; [lia..|done].
Qed.

Lemma crc_fold_width data crc : in_width 32 crc -> in_width 32 (foldl crc_byte crc data).
Proof. revert crc. induction data; intros; simpl; auto using crc_byte_width. Qed.

Lemma not32_width x : in_width 32 (not32 x).
Proof. apply wrap_range. lia. Qed.

Lemma not32_involutive x : in_width 32 x -> not32 (not32 x) = x.
Proof.
  intros [? ?]. unfold not32, wrap, Z.lnot. change (2 ^ 32) with 4294967296 in *.
  Z.to_euclidean_division_equations. lia.
Qed.

(** ** Error detection *)

(** The top byte of a table entry identifies its index. *)
Definition table_index_of_top (t : Z) : option nat :=
  fst <$> list_find (fun z => Z.shiftr z 24 = t) k_crc32c_table.

Lemma table_top_injective i j :
  (i < 256)%nat -> (j < 256)%nat ->
  Z.shiftr (nth i k_crc32c_table 0) 24 = Z.shiftr (nth j k_crc32c_table 0) 24 -> i = j.
Proof.
  intros Hi Hj He.
  assert (forallb (fun k => bool_decide
            (table_index_of_top (Z.shiftr (nth k k_crc32c_table 0) 24) = Some k)) (seq 0 256) = true)
    as H by by vm_compute.
  rewrite forallb_forall in H.
  assert (forall k, (k < 256)%nat ->
    table_index_of_top (Z.shiftr (nth k k_crc32c_table 0) 24) = Some k) as Hk.
  { intros k Hk. eapply bool_decide_eq_true_1, H, in_seq. lia. }
  pose proof (Hk i Hi) as H1. pose proof (Hk j Hj) as H2. rewrite He in H1. congruence.
Qed.

Lemma crc_index_range crc b : (Z.to_nat (wrap 8 (Z.lxor crc ⟦b⟧)) < 256)%nat.
Proof. pose proof (wrap_range 8 (Z.lxor crc ⟦b⟧) ltac:(lia)) as [? H]. change (2 ^ 8) with 256 in H. lia. Qed.

Lemma crc_byte_top crc b :
  in_width 32 crc ->
  Z.shiftr (crc_byte crc b) 24 = Z.shiftr (nth (Z.to_nat (wrap 8 (Z.lxor crc ⟦b⟧))) k_crc32c_table 0) 24.
Proof.
  intros [? ?]. unfold crc_byte. rewrite Z.shiftr_lxor, Z.shiftr_shiftr by lia.
  rewrite (Z.shiftr_div_pow2 crc) by lia.
  rewrite (Z.div_small crc); [apply Z.lxor_0_r|done].
Qed.

Lemma lxor_cancel_r a b c : Z.lxor a c = Z.lxor b c -> a = b.
Proof.
  intros H. rewrite <- (Z.lxor_0_r a), <- (Z.lxor_0_r b), <- (Z.lxor_nilpotent c).
  by rewrite <- !Z.lxor_assoc, H.
Qed.

Lemma lxor_cancel_l a b c : Z.lxor c a = Z.lxor c b -> a = b.
Proof. rewrite !(Z.lxor_comm c). apply lxor_cancel_r. Qed.

Lemma crc_byte_index crc1 crc2 b1 b2 :
  in_width 32 crc1 -> in_width 32 crc2 -> crc_byte crc1 b1 = crc_byte crc2 b2 ->
  Z.lxor crc1 ⟦b1⟧ = Z.lxor crc2 ⟦b2⟧.
Proof.
  intros H1 H2 He.
  assert (Z.to_nat (wrap 8 (Z.lxor crc1 ⟦b1⟧)) = Z.to_nat (wrap 8 (Z.lxor crc2 ⟦b2⟧))) as Hi.
  { apply table_top_injective; [apply crc_index_range..|]. rewrite <- !crc_byte_top by done. by rewrite He. }
  unfold crc_byte in He. rewrite Hi in He. apply lxor_cancel_l in He.
  pose proof (wrap_range 8 (Z.lxor crc1 ⟦b1⟧) ltac:(lia)) as [? _].
  pose proof (wrap_range 8 (Z.lxor crc2 ⟦b2⟧) ltac:(lia)) as [? _].
  rewrite (lxor_low_high (Z.lxor crc1 ⟦b1⟧)), (lxor_low_high (Z.lxor crc2 ⟦b2⟧))
    by (apply lxor_nonneg; [by apply H1 || by apply H2|apply byte.unsigned_range]).
  rewrite !shiftr_lxor_byte, He. f_equal. lia.
Qed.

(** A byte step is injective in the running value and in the byte. *)
Lemma crc_byte_inj_crc crc1 crc2 b :
  in_width 32 crc1 -> in_width 32 crc2 -> crc_byte crc1 b = crc_byte crc2 b -> crc1 = crc2.
Proof. intros. eapply lxor_cancel_r. by apply crc_byte_index. Qed.

Lemma crc_byte_inj_byte crc b1 b2 :
  in_width 32 crc -> crc_byte crc b1 = crc_byte crc b2 -> b1 = b2.
Proof. intros. apply byte.unsigned_inj. eapply lxor_cancel_l. by apply crc_byte_index. Qed.

Lemma crc_fold_inj data crc1 crc2 :
  in_width 32 crc1 -> in_width 32 crc2 ->
  foldl crc_byte crc1 data = foldl crc_byte crc2 data -> crc1 = crc2.
Proof.
  revert crc1 crc2. induction data as [|b data IH]; intros crc1 crc2 H1 H2 He; [done|].
  simpl in He. apply IH in He; [|by apply crc_byte_width..]. by eapply crc_byte_inj_crc.
Qed.

Lemma not32_inj x y : in_width 32 x -> in_width 32 y -> not32 x = not32 y -> x = y.
Proof. intros Hx Hy H. rewrite <- (not32_involutive x), <- (not32_involutive y) by done. by rewrite H. Qed.

Lemma crc32c_width data seed : in_width 32 (crc32c data seed).
Proof. apply not32_width. Qed.

Lemma crc32c_app b1 b2 seed : crc32c (b1 ++ b2) seed = crc32c b2 (crc32c b1 seed).
Proof.
  unfold crc32c. rewrite foldl_app. f_equal. f_equal. symmetry. apply not32_involutive.
  apply crc_fold_width, not32_width.
Qed.

Lemma crc32c_byte_change pre post b b' seed :
  b <> b' -> crc32c (pre ++ b :: post) seed <> crc32c (pre ++ b' :: post) seed.
Proof.
  intros Hne He. unfold crc32c in He. apply not32_inj in He; [|apply crc_fold_width, not32_width..].
  rewrite !foldl_app in He. simpl in He.
  pose proof (crc_fold_width pre _ (not32_width seed)) as Hw.
  apply crc_fold_inj in He; [|by apply crc_byte_width..].
  by apply crc_byte_inj_byte in He.
Qed.

(** ** Theorems *)

(** The table-driven checksum is the bit-at-a-time CRC of the reflected
    Castagnoli polynomial, for every input and seed. *)
Theorem crc32c_table_equivalent (data : bytes) (seed : Z) :
  crc32c data seed = crc32c_bitwise data seed.
Proof.
  unfold crc32c, crc32c_bitwise. f_equal. pose proof (not32_width seed) as Hw.
  revert Hw. generalize (not32 seed) as crc.
  induction data as [|b data IH]; intros crc Hw; [done|]. simpl.
  rewrite <- crc_byte_eq by apply Hw. apply IH. by apply crc_byte_width.
Qed.

(** The documented chaining law (the checksum of a concatenation is the
    checksum of the second part seeded with that of the first), and corrupting
    exactly one byte of a message always changes its checksum. *)
Theorem crc32c_chains_and_detects (b1 b2 pre post : bytes) (b b' : byte) (seed : Z) :
  crc32c (b1 ++ b2) seed = crc32c b2 (crc32c b1 seed) /\
  (b <> b' -> crc32c (pre ++ b :: post) seed <> crc32c (pre ++ b' :: post) seed).
Proof. split; [apply crc32c_app|apply crc32c_byte_change]. Qed.

Lemma crc32c_chains_and_detects_witness :
  crc32c [Byte.x01; Byte.x02] 0 <> crc32c [Byte.x01; Byte.x03] 0.
Proof.
  apply (crc32c_chains_and_detects [] [] [Byte.x01] [] Byte.x02 Byte.x03 0). discriminate.
Defined.

(** The RFC 3720 check value: CRC-32C of the ASCII digits 1 to 9. *)
Example crc32c_check :
  crc32c [Byte.x31; Byte.x32; Byte.x33; Byte.x34; Byte.x35; Byte.x36; Byte.x37; Byte.x38; Byte.x39] 0
  = 0xE3069283.
Proof. by vm_compute. Qed.

(** The topic hash is a 64-bit value, its recurrence is that of FNV-1a, but
    its offset basis is not the FNV-1a basis: the hash of the empty name, and of a
    one-letter name, differ from 64-bit FNV-1a. *)
Theorem topic_hash_is_not_fnv1a :
  (forall fqn, in_width 64 (fqn_topic_hash fqn)) /\
  (forall fqn c, fqn_topic_hash (fqn ++ [c]) = fnv_step (fqn_topic_hash fqn) c) /\
  fqn_topic_hash [] <> fnv1a_64 [] /\
  fqn_topic_hash [Byte.x61] <> fnv1a_64 [Byte.x61] /\ fnv1a_64 [Byte.x61] = 0xaf63dc4c8601ec8c.
Proof.
  split_and!; [|intros; unfold fqn_topic_hash; by rewrite foldl_app|by vm_compute..].
  intros fqn. unfold fqn_topic_hash. destruct fqn as [|c fqn] using rev_ind; [split; by vm_compute|].
  rewrite foldl_app. apply wrap_range. lia.
Qed.
