(* ===== verification/UdpWire.v ===== *)
(** * The datagram envelope, the ARQ control frames and the UDP handshake frame

    Models [udp_envelope.h], [detail/udp_envelope_codec.h] and [udp_ack.h] of
    [lib/plexus-wire/include/plexus/wire/], and
    [lib/plexus-datagram/include/plexus/datagram/detail/udp_handshake_frame.h]. *)

From S2P Require Import Prelude ByteOrder Varint Cursor Frame.

(** ** The envelope *)

Definition udp_envelope_overhead : nat := 3.
Definition udp_fragment_subheader : nat := 10.
Definition udp_fragment_header_overhead : nat := udp_envelope_overhead + udp_fragment_subheader.

(** [enum class udp_envelope_kind : std::uint8_t], decoded by [static_cast] from
    two bits. *)
Definition udp_envelope_kind : Type := Z.
Definition kind_best_effort : udp_envelope_kind := 0.
Definition kind_reliable_arq : udp_envelope_kind := 1.

Definition udp_kind_shift : Z := 6.
Definition udp_kind_mask : Z := 0xC0.
Definition udp_fragmented_bit : Z := 0x01.

Definition pack_ver_flags (kind : udp_envelope_kind) (fragmented : bool) : Z :=
  let bits := wrap 8 (Z.shiftl kind udp_kind_shift) in
  if fragmented then Z.lor bits udp_fragmented_bit else bits.

Record udp_decode_result : Type := UdpDecodeResult {
  ue_kind : udp_envelope_kind;
  ue_seq : Z;
  ue_frame : bytes;
  ue_fragmented : bool;
}.

Record udp_fragment_header : Type := UdpFragmentHeader {
  uf_msg_id : Z;
  uf_frag_idx : Z;
  uf_frag_cnt : Z;
  uf_payload : bytes;
}.

Section Envelope.
Context {host : Host}.

Definition wrap_udp (kind : udp_envelope_kind) (seq : Z) (frame : bytes) : option bytes :=
  let buf := zero_bytes (udp_envelope_overhead + length frame) in
  w ← writer_u8 (writer_of buf) (pack_ver_flags kind false);
  w ← writer_u16 w seq;
  w ← writer_bytes w frame;
  Some (m_region w).

Definition wrap_udp_into (out : bytes) (kind : udp_envelope_kind) (seq : Z) (frame : bytes)
  : option bytes :=
  let out := resize (udp_envelope_overhead + length frame) out in
  w ← writer_u8 (writer_of out) (pack_ver_flags kind false);
  w ← writer_u16 w seq;
  w ← writer_bytes w frame;
  Some (m_region w).

Definition unwrap_udp (datagram : bytes) : option udp_decode_result :=
  if decide (length datagram < udp_envelope_overhead)%nat then None else
  let r := reader_of datagram in
  let '(ver_flags, r) := reader_u8 r in
  let '(seq, r) := reader_u16 r in
  Some (UdpDecodeResult (Z.shiftr (Z.land ver_flags udp_kind_mask) udp_kind_shift) seq
          (reader_rest r) (negb (Z.land ver_flags udp_fragmented_bit =? 0))).

Definition wrap_udp_into_fragmented (out : bytes) (kind : udp_envelope_kind) (seq : Z)
    (frame : bytes) : option bytes :=
  let out := resize (udp_envelope_overhead + length frame) out in
  w ← writer_u8 (writer_of out) (pack_ver_flags kind true);
  w ← writer_u16 w seq;
  w ← writer_bytes w frame;
  Some (m_region w).

Definition wrap_udp_fragment_into (out : bytes) (kind : udp_envelope_kind) (seq msg_id frag_idx frag_cnt : Z)
    (frag_bytes : bytes) : option bytes :=
  let out := resize (udp_fragment_header_overhead + length frag_bytes) out in
  w ← writer_u8 (writer_of out) (pack_ver_flags kind true);
  w ← writer_u16 w seq;
  w ← writer_u16 w msg_id;
  w ← writer_u32 w frag_idx;
  w ← writer_u32 w frag_cnt;
  w ← writer_bytes w frag_bytes;
  Some (m_region w).

Definition encode_udp_fragment_payload_into (out : bytes) (msg_id frag_idx frag_cnt : Z)
    (slice : bytes) : option bytes :=
  let out := resize (udp_fragment_subheader + length slice) out in
  w ← writer_u16 (writer_of out) msg_id;
  w ← writer_u32 w frag_idx;
  w ← writer_u32 w frag_cnt;
  w ← writer_bytes w slice;
  Some (m_region w).

Definition decode_udp_fragment_header (frame : bytes) : option udp_fragment_header :=
  if decide (length frame < udp_fragment_subheader)%nat then None else
  let r := reader_of frame in
  let '(msg_id, r) := reader_u16 r in
  let '(frag_idx, r) := reader_u32 r in
  let '(frag_cnt, r) := reader_u32 r in
  Some (UdpFragmentHeader msg_id frag_idx frag_cnt (reader_rest r)).

End Envelope.

(** ** ARQ control frames *)

(** [enum class udp_arq_kind : std::uint8_t] *)
Inductive udp_arq_kind : Type := arq_segment | arq_ack.

Definition arq_kind_code (k : udp_arq_kind) : Z := match k with arq_segment => 2 | arq_ack => 3 end.

Definition ack_bitmap_bytes : nat := 32.
Definition ack_bitmap_bits : nat := ack_bitmap_bytes * 8.

(** [struct udp_ack]: the selective bitmap is its 32 bytes. *)
Record udp_ack : Type := UdpAck { ack_cumulative : Z; ack_selective : bytes }.

Definition udp_ack_zero : udp_ack := UdpAck 0 (zero_bytes ack_bitmap_bytes).

Definition hole_received (a : udp_ack) (i : nat) : bool :=
  if decide (i < ack_bitmap_bits)%nat then
    let cell := nth (i / 8) (ack_selective a) (byte.of_Z 0) in
    negb (Z.land ⟦cell⟧ (Z.shiftl 1 (Z.of_nat (i mod 8))) =? 0)
  else false.

Definition mark_hole (a : udp_ack) (i : nat) : udp_ack :=
  if decide (i < ack_bitmap_bits)%nat then
    let cell := nth (i / 8) (ack_selective a) (byte.of_Z 0) in
    UdpAck (ack_cumulative a)
      (<[(i / 8)%nat := byte.of_Z (Z.lor ⟦cell⟧ (wrap 8 (Z.shiftl 1 (Z.of_nat (i mod 8)))))]>
        (ack_selective a))
  else a.

Definition udp_ack_frame_size : nat := 1 + 2 + ack_bitmap_bytes.

Section Arq.
Context {host : Host}.

Definition encode_udp_ack_into (out : bytes) (a : udp_ack) : option bytes :=
  w ← writer_u8 (writer_of (resize udp_ack_frame_size out)) (arq_kind_code arq_ack);
  w ← writer_u16 w (ack_cumulative a);
  w ← writer_bytes w (ack_selective a);
  Some (m_region w).

Definition decode_udp_ack (frame : bytes) : option udp_ack :=
  if decide (length frame <> udp_ack_frame_size) then None else
  let r := reader_of frame in
  let '(marker, r) := reader_u8 r in
  if negb (marker =? arq_kind_code arq_ack) then None else
  let '(cumulative, r) := reader_u16 r in
  let '(selective, r) := reader_copy_to r (zero_bytes ack_bitmap_bytes) ack_bitmap_bytes in
  Some (UdpAck cumulative selective).

Definition encode_udp_segment_into (out payload : bytes) : option bytes :=
  w ← writer_u8 (writer_of (resize (1 + length payload) out)) (arq_kind_code arq_segment);
  w ← writer_bytes w payload;
  Some (m_region w).

Definition decode_udp_segment (frame : bytes) : option bytes :=
  let '(marker, r) := reader_u8 (reader_of frame) in
  if negb (marker =? arq_kind_code arq_segment) then None else Some (reader_rest r).

Definition peek_udp_arq_kind (frame : bytes) : option udp_arq_kind :=
  let '(marker, r) := reader_u8 (reader_of frame) in
  if negb (reader_ok r) then None else
  if marker =? arq_kind_code arq_segment then Some arq_segment else
  if marker =? arq_kind_code arq_ack then Some arq_ack else None.

End Arq.

(** ** The UDP handshake control frame *)

Inductive udp_hs_type : Type := hs_type_request | hs_type_response.
Definition udp_hs_code (t : udp_hs_type) : Z := match t with hs_type_request => 0 | hs_type_response => 1 end.

Inductive udp_channel_mode : Type := mode_best_effort | mode_reliable_datagram.
Definition udp_mode_code (m : udp_channel_mode) : Z :=
  match m with mode_best_effort => 0 | mode_reliable_datagram => 1 end.

Record udp_handshake : Type := UdpHandshake {
  uh_type : udp_hs_type;
  uh_mode : udp_channel_mode;
  uh_initial_seq : Z;
}.

Section HandshakeFrame.
Context {host : Host}.

Definition encode_handshake_into (out : bytes) (type : udp_hs_type) (mode : udp_channel_mode)
    (initial_seq : Z) : option bytes :=
  let initial_seq := wrap 16 initial_seq in
  let inner := [byte.of_Z (udp_hs_code type); byte.of_Z (udp_mode_code mode);
                byte.of_Z (Z.land initial_seq 0xFF);
                byte.of_Z (Z.land (Z.shiftr initial_seq 8) 0xFF)] in
  wrap_udp_into out kind_reliable_arq 0 inner.

Definition decode_handshake (datagram : bytes) : option udp_handshake :=
  match unwrap_udp datagram with
  | None => None
  | Some dec =>
      let frame := ue_frame dec in
      if decide (ue_kind dec <> kind_reliable_arq \/ length frame = 0%nat \/ length frame = 3%nat
                 \/ (4 < length frame)%nat) then None else
      let v := ⟦nth 0 frame (byte.of_Z 0)⟧ in
      if negb (v =? udp_hs_code hs_type_request) && negb (v =? udp_hs_code hs_type_response)
      then None else
      let type := if v =? 0 then hs_type_request else hs_type_response in
      let m := if decide (2 <= length frame)%nat then ⟦nth 1 frame (byte.of_Z 0)⟧ else 0 in
      if m >? udp_mode_code mode_reliable_datagram then None else
      let mode := if m =? 0 then mode_best_effort else mode_reliable_datagram in
      let isn := if decide (length frame = 4%nat)
                 then Z.lor ⟦nth 2 frame (byte.of_Z 0)⟧ (Z.shiftl ⟦nth 3 frame (byte.of_Z 0)⟧ 8) else 0 in
      Some (UdpHandshake type mode (wrap 16 isn))
  end.

End HandshakeFrame.

(** ** Lemmas *)


(** The two-bit kind and the flag are recovered from the packed byte. *)
Lemma pack_ver_flags_unpack kind fragmented :
  in_width 2 kind ->
  in_width 8 (pack_ver_flags kind fragmented) /\
  Z.shiftr (Z.land (pack_ver_flags kind fragmented) udp_kind_mask) udp_kind_shift = kind /\
  negb (Z.land (pack_ver_flags kind fragmented) udp_fragmented_bit =? 0) = fragmented.
Proof.
  intros [? ?]. change (2 ^ 2) with 4 in *.
  assert (kind = 0 \/ kind = 1 \/ kind = 2 \/ kind = 3) as Hk by lia.
  destruct Hk as [->|[->|[->| ->] ] ], fragmented; (split; [split; by vm_compute|split; reflexivity]).
Qed.

Section EnvelopeLemmas.
Context {host : Host}.

Lemma wrap_udp_into_layout out kind seq frame :
  wrap_udp_into out kind seq frame
  = Some (be_bytes 1 (pack_ver_flags kind false) ++ be_bytes 2 seq ++ frame).
Proof.
  unfold wrap_udp_into, resize, udp_envelope_overhead. rewrite writer_of_wr. writer_run.
  rewrite wr_full by codec_len. by rewrite <- !app_assoc.
Qed.

Lemma wrap_udp_into_fragmented_layout out kind seq frame :
  wrap_udp_into_fragmented out kind seq frame
  = Some (be_bytes 1 (pack_ver_flags kind true) ++ be_bytes 2 seq ++ frame).
Proof.
  unfold wrap_udp_into_fragmented, resize, udp_envelope_overhead. rewrite writer_of_wr. writer_run.
  rewrite wr_full by codec_len. by rewrite <- !app_assoc.
Qed.

Lemma wrap_udp_layout kind seq frame :
  wrap_udp kind seq frame
  = Some (be_bytes 1 (pack_ver_flags kind false) ++ be_bytes 2 seq ++ frame).
Proof.
  unfold wrap_udp, zero_bytes, udp_envelope_overhead. rewrite writer_of_wr. writer_run.
  rewrite wr_full by codec_len. by rewrite <- !app_assoc.
Qed.

Definition fragment_layout (msg_id frag_idx frag_cnt : Z) (slice : bytes) : bytes :=
  be_bytes 2 msg_id ++ be_bytes 4 frag_idx ++ be_bytes 4 frag_cnt ++ slice.

Lemma wrap_udp_fragment_into_layout out kind seq msg_id idx cnt slice :
  wrap_udp_fragment_into out kind seq msg_id idx cnt slice
  = Some (be_bytes 1 (pack_ver_flags kind true) ++ be_bytes 2 seq ++ fragment_layout msg_id idx cnt slice).
Proof.
  unfold wrap_udp_fragment_into, resize. change udp_fragment_header_overhead with 13%nat.
  rewrite writer_of_wr. writer_run.
  rewrite wr_full by codec_len. unfold fragment_layout. by rewrite <- !app_assoc.
Qed.

Lemma encode_udp_fragment_payload_into_layout out msg_id idx cnt slice :
  encode_udp_fragment_payload_into out msg_id idx cnt slice
  = Some (fragment_layout msg_id idx cnt slice).
Proof.
  unfold encode_udp_fragment_payload_into, resize, udp_fragment_subheader.
  rewrite writer_of_wr. writer_run.
  rewrite wr_full by codec_len. unfold fragment_layout. by rewrite <- !app_assoc.
Qed.

Lemma unwrap_udp_layout kind fragmented seq frame :
  in_width 2 kind -> in_width 16 seq ->
  unwrap_udp (be_bytes 1 (pack_ver_flags kind fragmented) ++ be_bytes 2 seq ++ frame)
  = Some (UdpDecodeResult kind seq frame fragmented).
Proof.
  intros Hk Hs. destruct (pack_ver_flags_unpack kind fragmented Hk) as (Hw & H1 & H2).
  unfold unwrap_udp, udp_envelope_overhead. rewrite decide_False by codec_len.
  rewrite reader_of_rd. reader_run. by rewrite reader_rest_rd, H1, H2.
Qed.

Lemma decode_udp_fragment_header_layout msg_id idx cnt slice :
  in_width 16 msg_id -> in_width 32 idx -> in_width 32 cnt ->
  decode_udp_fragment_header (fragment_layout msg_id idx cnt slice)
  = Some (UdpFragmentHeader msg_id idx cnt slice).
Proof.
  intros. unfold decode_udp_fragment_header, udp_fragment_subheader, fragment_layout.
  rewrite decide_False by codec_len. rewrite reader_of_rd. reader_run. by rewrite reader_rest_rd.
Qed.

Lemma encode_udp_ack_into_layout out a :
  length (ack_selective a) = ack_bitmap_bytes ->
  encode_udp_ack_into out a
  = Some (be_bytes 1 (arq_kind_code arq_ack) ++ be_bytes 2 (ack_cumulative a) ++ ack_selective a).
Proof.
  intros Hl. unfold encode_udp_ack_into, resize. change udp_ack_frame_size with 35%nat.
  unfold ack_bitmap_bytes in Hl. rewrite writer_of_wr. writer_run.
  rewrite wr_full by codec_len. by rewrite <- !app_assoc.
Qed.

Lemma decode_udp_ack_layout a :
  length (ack_selective a) = ack_bitmap_bytes -> in_width 16 (ack_cumulative a) ->
  decode_udp_ack (be_bytes 1 (arq_kind_code arq_ack) ++ be_bytes 2 (ack_cumulative a) ++ ack_selective a)
  = Some a.
Proof.
  intros Hl Hc. unfold decode_udp_ack. change udp_ack_frame_size with 35%nat.
  unfold ack_bitmap_bytes in *. rewrite decide_False by (intros Hn; apply Hn; codec_len).
  rewrite reader_of_rd. reader_run. rewrite Z.eqb_refl. cbn [negb]. reader_run.
  rewrite <- (app_nil_r (ack_selective a)).
  rewrite reader_copy_to_rd by (unfold zero_bytes; rewrite ?length_replicate; done). by destruct a.
Qed.

Lemma encode_udp_segment_into_layout out payload :
  encode_udp_segment_into out payload = Some (be_bytes 1 (arq_kind_code arq_segment) ++ payload).
Proof.
  unfold encode_udp_segment_into, resize. rewrite writer_of_wr. writer_run.
  rewrite wr_full by codec_len. done.
Qed.

End EnvelopeLemmas.

(** ** The selective-ack bitmap as a set of holes *)

Definition udp_ack_ok (a : udp_ack) : Prop :=
  length (ack_selective a) = ack_bitmap_bytes /\ in_width 16 (ack_cumulative a).

Lemma testbit_land_pow2 x k : 0 <= k -> negb (Z.land x (Z.shiftl 1 k) =? 0) = Z.testbit x k.
Proof.
  intros Hk. rewrite Z.shiftl_1_l. destruct (Z.testbit x k) eqn:E.
  - apply negb_true_iff, Z.eqb_neq. intros H.
    assert (Z.testbit (Z.land x (2 ^ k)) k = false) as Ht by (by rewrite H, Z.bits_0).
    rewrite Z.land_spec, E, Z.pow2_bits_true in Ht by done. done.
  - apply negb_false_iff, Z.eqb_eq, Z.bits_inj'. intros i Hi. rewrite Z.land_spec, Z.bits_0.
    destruct (decide (i = k)) as [->|]; [by rewrite E|].
    rewrite Z.pow2_bits_false by lia. by rewrite andb_false_r.
Qed.

Lemma hole_received_testbit a i :
  (i < ack_bitmap_bits)%nat ->
  hole_received a i
  = Z.testbit ⟦nth (i / 8) (ack_selective a) (byte.of_Z 0)⟧ (Z.of_nat (i mod 8)).
Proof. intros. unfold hole_received. rewrite decide_True by done. apply testbit_land_pow2. lia. Qed.

Lemma mark_hole_ok a i : udp_ack_ok a -> udp_ack_ok (mark_hole a i).
Proof.
  intros [? ?]. unfold mark_hole. case_decide; [|done]. split; simpl; [by rewrite length_insert|done].
Qed.

Lemma nth_insert (l : bytes) i j x d :
  (i < length l)%nat -> nth j (<[i:=x]> l) d = if decide (j = i) then x else nth j l d.
Proof.
  intros Hi. rewrite !nth_lookup. case_decide as Hd.
  - subst. by rewrite list_lookup_insert_eq.
  - by rewrite list_lookup_insert_ne.
Qed.

Lemma hole_received_mark a i j :
  udp_ack_ok a -> (i < ack_bitmap_bits)%nat ->
  hole_received (mark_hole a i) j = bool_decide (j = i) || hole_received a j.
Proof.
  intros [Hl _] Hi. destruct (decide (j < ack_bitmap_bits)%nat) as [Hj|Hj].
  2: { unfold hole_received. rewrite !decide_False by done.
       rewrite bool_decide_eq_false_2 by lia. done. }
  rewrite !hole_received_testbit by done. unfold mark_hole. rewrite decide_True by done. cbn [ack_selective].
  change ack_bitmap_bits with 256%nat in *. change ack_bitmap_bytes with 32%nat in Hl.
  rewrite nth_insert by (rewrite Hl; apply Nat.Div0.div_lt_upper_bound; lia).
  pose proof (Nat.div_mod_eq i 8). pose proof (Nat.div_mod_eq j 8).
  pose proof (Nat.mod_upper_bound i 8 ltac:(lia)). pose proof (Nat.mod_upper_bound j 8 ltac:(lia)).
  assert (in_width 8 (Z.shiftl 1 (Z.of_nat (i mod 8)))) as Hw.
  { rewrite Z.shiftl_1_l. split; [apply Z.pow_nonneg; lia|]. apply Z.pow_lt_mono_r; lia. }
  case_decide as Hd.
  - rewrite wrap_small by done.
    rewrite unsigned_of_Z_small by (apply in_width_lor; [lia|apply byte.unsigned_range|done]).
    rewrite Z.lor_spec, Z.shiftl_1_l, Z.pow2_bits_eqb by lia. rewrite orb_comm, Hd. f_equal.
    destruct (Z.eqb_spec (Z.of_nat (i mod 8)) (Z.of_nat (j mod 8)));
      [rewrite bool_decide_eq_true_2 by lia | rewrite bool_decide_eq_false_2 by lia]; done.
  - rewrite bool_decide_eq_false_2 by lia. done.
Qed.

Lemma hole_received_zero i : hole_received udp_ack_zero i = false.
Proof.
  unfold hole_received. case_decide; [|done]. unfold udp_ack_zero, zero_bytes, ack_selective.
  rewrite nth_lookup. destruct (decide (i / 8 < ack_bitmap_bytes)%nat).
  - by rewrite lookup_replicate_2.
  - rewrite lookup_ge_None_2 by (rewrite length_replicate; lia). done.
Qed.

(** ** Theorems *)

Section Theorems.
Context {host : Host}.

(** Every envelope the wrappers build is unwrapped to the kind, sequence
    number, inner frame and fragmented flag it was built from, and the fragment
    sub-header it may carry is recovered. *)
Theorem udp_envelope_roundtrip (out : bytes) (kind seq msg_id idx cnt : Z) (frame : bytes) :
  in_width 2 kind -> in_width 16 seq -> in_width 16 msg_id -> in_width 32 idx -> in_width 32 cnt ->
  (d ← wrap_udp_into out kind seq frame; unwrap_udp d)
    = Some (UdpDecodeResult kind seq frame false) /\
  wrap_udp kind seq frame = wrap_udp_into out kind seq frame /\
  (d ← wrap_udp_into_fragmented out kind seq frame; unwrap_udp d)
    = Some (UdpDecodeResult kind seq frame true) /\
  (exists inner,
     (d ← wrap_udp_fragment_into out kind seq msg_id idx cnt frame; unwrap_udp d)
       = Some (UdpDecodeResult kind seq inner true) /\
     encode_udp_fragment_payload_into out msg_id idx cnt frame = Some inner /\
     decode_udp_fragment_header inner = Some (UdpFragmentHeader msg_id idx cnt frame)).
Proof.
  intros. rewrite wrap_udp_into_layout, wrap_udp_layout, wrap_udp_into_fragmented_layout,
    wrap_udp_fragment_into_layout, encode_udp_fragment_payload_into_layout.
  cbn [mbind option_bind]. rewrite !unwrap_udp_layout by done. split_and!; [done..|].
  eexists. split_and!; [done|done|]. by apply decode_udp_fragment_header_layout.
Qed.

(** The ack frame survives a round trip, and its bitmap behaves as a set of
    hole offsets below 256: marking adds exactly the offset marked. *)
Theorem udp_ack_roundtrip_and_bitmap (out : bytes) (a : udp_ack) (i j : nat) :
  udp_ack_ok a ->
  (f ← encode_udp_ack_into out a; decode_udp_ack f) = Some a /\
  hole_received (mark_hole a i) j
    = (bool_decide (j = i) && bool_decide (i < ack_bitmap_bits)%nat) || hole_received a j.
Proof.
  intros Hok. split.
  - destruct Hok. rewrite encode_udp_ack_into_layout by done. by apply decode_udp_ack_layout.
  - destruct (decide (i < ack_bitmap_bits)%nat).
    + rewrite hole_received_mark, (bool_decide_eq_true_2 (i < _)%nat), andb_true_r by done. done.
    + unfold mark_hole. rewrite decide_False by done.
      rewrite (bool_decide_eq_false_2 (i < _)%nat), andb_false_r by done. done.
Qed.

Lemma encode_handshake_into_layout out t m isn :
  in_width 16 isn ->
  encode_handshake_into out t m isn
  = Some (be_bytes 1 (pack_ver_flags kind_reliable_arq false) ++ be_bytes 2 0 ++
          [byte.of_Z (udp_hs_code t); byte.of_Z (udp_mode_code m); byte.of_Z (isn mod 256);
           byte.of_Z (isn / 256)]).
Proof.
  intros Hi. unfold encode_handshake_into. rewrite wrap_udp_into_layout. rewrite wrap_small by done.
  change 255 with (Z.ones 8). rewrite !Z.land_ones by lia. rewrite Z.shiftr_div_pow2 by lia.
  change (2 ^ 8) with 256. rewrite (Z.mod_small (isn / 256)); [done|].
  destruct Hi as [? Hi]. change (2 ^ 16) with 65536 in Hi. dlia.
Qed.

(** A handshake datagram reads back. *)
Lemma udp_handshake_reads_back out t m isn : in_width 16 isn ->
  (d ← encode_handshake_into out t m isn; decode_handshake d) = Some (UdpHandshake t m isn).
Proof.
  intros Hi. rewrite encode_handshake_into_layout by done. cbn [mbind option_bind].
  unfold decode_handshake. rewrite unwrap_udp_layout by done. cbn [mbind option_bind ue_frame ue_kind].
  rewrite decide_False by (simpl; intros Hd; destruct_or!; done || lia). simpl nth.
  change (length _) with 4%nat. rewrite (decide_True (P := (2 <= 4)%nat)) by lia.
  rewrite (decide_True (P := (4 = 4)%nat)) by done.
  destruct Hi as [Hi0 Hi]. change (2 ^ 16) with 65536 in Hi.
  rewrite (unsigned_of_Z_small (isn mod 256)), (unsigned_of_Z_small (isn / 256))
    by (unfold in_width; change (2 ^ 8) with 256; dlia).
  rewrite (lor_shiftl_add (isn mod 256) (isn / 256) 8)
    by (unfold in_width; change (2 ^ 8) with 256; dlia).
  change (2 ^ 8) with 256.
  replace (isn mod 256 + isn / 256 * 256) with isn by dlia.
  rewrite wrap_small by (split; done).
  by destruct t, m.
Qed.

(** A handshake datagram round-trips, and the three inner-frame families
    never alias: no data segment and no ack, at any sequence number, is taken for
    a handshake, and no handshake's inner frame is classified as segment or ack. *)
Theorem udp_inner_frames_disjoint (out : bytes) (t : udp_hs_type) (m : udp_channel_mode)
    (isn seq : Z) (payload : bytes) (a : udp_ack) :
  in_width 16 isn -> in_width 16 seq -> udp_ack_ok a ->
  (d ← encode_handshake_into out t m isn; decode_handshake d) = Some (UdpHandshake t m isn) /\
  (d ← encode_handshake_into out t m isn; r ← unwrap_udp d; peek_udp_arq_kind (ue_frame r)) = None /\
  (s ← encode_udp_segment_into out payload; d ← wrap_udp_into out kind_reliable_arq seq s;
   decode_handshake d) = None /\
  (s ← encode_udp_ack_into out a; d ← wrap_udp_into out kind_reliable_arq seq s;
   decode_handshake d) = None /\
  (s ← encode_udp_segment_into out payload; peek_udp_arq_kind s) = Some arq_segment /\
  (s ← encode_udp_segment_into out payload; decode_udp_segment s) = Some payload /\
  (s ← encode_udp_ack_into out a; peek_udp_arq_kind s) = Some arq_ack.
Proof.
  intros Hi Hs [Hl Hc]. rewrite encode_handshake_into_layout by done.
  rewrite encode_udp_segment_into_layout, encode_udp_ack_into_layout by done.
  cbn [mbind option_bind]. rewrite !wrap_udp_into_layout. cbn [mbind option_bind].
  unfold decode_handshake. rewrite !unwrap_udp_layout by done. cbn [mbind option_bind ue_frame ue_kind].
  split_and!.
  - pose proof (udp_handshake_reads_back out t m isn Hi) as Hr. rewrite encode_handshake_into_layout in Hr by done. cbn [mbind option_bind] in Hr.
    unfold decode_handshake in Hr. by rewrite unwrap_udp_layout in Hr by done.
  - unfold peek_udp_arq_kind. rewrite reader_of_rd, reader_u8_cons. simpl. by destruct t.
  - case_decide; [done|]. by vm_compute.
  - case_decide; [done|]. by vm_compute.
  - unfold peek_udp_arq_kind. rewrite reader_of_rd, reader_u8_rd by done. done.
  - unfold decode_udp_segment. rewrite reader_of_rd, reader_u8_rd by done.
    simpl. by rewrite reader_rest_rd.
  - unfold peek_udp_arq_kind. rewrite reader_of_rd, reader_u8_rd by done. done.
Qed.

End Theorems.

Definition sample_ack : udp_ack := UdpAck 65535 (replicate 32 Byte.x05).

Lemma sample_ack_ok : udp_ack_ok sample_ack.
Proof. split; [done|split; by vm_compute]. Qed.

Lemma udp_envelope_roundtrip_witness :
  (d ← wrap_udp_into (host := little) [] kind_reliable_arq 65535 [Byte.x02]; unwrap_udp (host := little) d)
  = Some (UdpDecodeResult kind_reliable_arq 65535 [Byte.x02] false).
Proof.
  apply (udp_envelope_roundtrip (host := little) [] kind_reliable_arq 65535 1 2 3 [Byte.x02]);
    split; by vm_compute.
Defined.

Lemma udp_ack_roundtrip_and_bitmap_witness :
  hole_received (mark_hole sample_ack 1) 1 = true /\ hole_received sample_ack 1 = false.
Proof.
  split; [|by vm_compute].
  rewrite (proj2 (udp_ack_roundtrip_and_bitmap (host := little) [] sample_ack 1 1 sample_ack_ok)).
  by vm_compute.
Defined.

Lemma udp_inner_frames_disjoint_witness :
  (d ← encode_handshake_into (host := big) [] hs_type_request mode_reliable_datagram 513;
   decode_handshake (host := big) d)
  = Some (UdpHandshake hs_type_request mode_reliable_datagram 513).
Proof.
  apply (udp_inner_frames_disjoint (host := big) [] hs_type_request mode_reliable_datagram 513 7
    [Byte.x01] sample_ack); [split; by vm_compute..|apply sample_ack_ok].
Defined.
