(* ===== verification/FrameReassembler.v ===== *)
(** * The byte-stream frame reassembler

    Models [frame_reassembler.h] and [close_cause.h] of
    [lib/plexus-wire/include/plexus/wire/].  The contract of the component is the
    relation [stream_reads]: what a byte stream means as a sequence of frames,
    with no buffer, no state and no chunks.  The refinement theorem says that the
    reassembler, fed the stream in any chunks, delivers exactly that. *)

From S2P Require Import Prelude ByteOrder Varint Cursor Frame.

(** ** Data *)

(** [shared_bytes] is a shared handle on an immutable vector: its bytes. *)
Record complete_frame : Type := CompleteFrame {
  cf_header : frame_header;
  cf_payload : bytes;
}.

#[global] Instance complete_frame_eq_dec : EqDecision complete_frame.
Proof. solve_decision. Defined.

Inductive feed_error : Type :=
| feed_none | feed_invalid_magic | feed_payload_too_large | feed_buffer_overflow
| feed_no_progress.

#[global] Instance feed_error_eq_dec : EqDecision feed_error.
Proof. solve_decision. Defined.

Inductive close_cause : Type :=
| cause_invalid_magic | cause_payload_too_large | cause_buffer_overflow
| cause_no_progress_timeout | cause_crc_mismatch.

Definition to_close_cause (error : feed_error) : close_cause :=
  match error with
  | feed_payload_too_large => cause_payload_too_large
  | feed_buffer_overflow => cause_buffer_overflow
  | _ => cause_invalid_magic
  end.

Record feed_result : Type := FeedResult {
  fr_frames : list complete_frame;
  fr_error : feed_error;
}.

Inductive reassembler_state : Type := reading_header | reading_payload.

#[global] Instance reassembler_state_eq_dec : EqDecision reassembler_state.
Proof. solve_decision. Defined.

Record frame_reassembler : Type := FrameReassembler {
  m_state : reassembler_state;
  m_max_payload_size : Z;
  m_buffered_bytes_cap : Z;
  m_consumed : nat;
  m_pending_header : frame_header;
  m_buffer : bytes;
}.

Definition frame_reassembler_new (max_payload_size buffered_bytes_cap : Z) : frame_reassembler :=
  FrameReassembler reading_header max_payload_size buffered_bytes_cap 0 frame_header_zero [].

(** The constructor's default arguments. *)
Definition frame_reassembler_default : frame_reassembler :=
  frame_reassembler_new k_max_reassembler_payload_bytes
    (k_max_reassembler_payload_bytes + Z.of_nat header_size).

(** ** Operations *)

(** [m_buffer.subspan(m_consumed)] *)
Definition remaining (r : frame_reassembler) : bytes := drop (m_consumed r) (m_buffer r).

Definition live_bytes (r : frame_reassembler) : Z :=
  zlen (m_buffer r) - Z.of_nat (m_consumed r).

Definition buffered_bytes (r : frame_reassembler) : Z := live_bytes r.

Definition reset (r : frame_reassembler) : frame_reassembler :=
  FrameReassembler reading_header (m_max_payload_size r) (m_buffered_bytes_cap r) 0
    frame_header_zero [].

Definition frame_in_progress (r : frame_reassembler) : bool :=
  bool_decide (m_state r = reading_payload) || negb (live_bytes r =? 0).

Definition pending_payload_len (r : frame_reassembler) : option Z :=
  if decide (m_state r = reading_payload) then Some (fh_payload_len (m_pending_header r))
  else None.

Definition compact (r : frame_reassembler) : frame_reassembler :=
  if negb (m_consumed r =? 0)%nat && (Z.of_nat (m_consumed r) >=? live_bytes r)
  then FrameReassembler (m_state r) (m_max_payload_size r) (m_buffered_bytes_cap r) 0
         (m_pending_header r) (drop (m_consumed r) (m_buffer r))
  else r.

Definition append_bytes (r : frame_reassembler) (data : bytes) : frame_reassembler :=
  FrameReassembler (m_state r) (m_max_payload_size r) (m_buffered_bytes_cap r) (m_consumed r)
    (m_pending_header r) (m_buffer r ++ data).

(** [m_consumed += n] with the state and the pending header after it. *)
Definition consume (r : frame_reassembler) (n : nat) (s : reassembler_state) (h : frame_header)
  : frame_reassembler :=
  FrameReassembler s (m_max_payload_size r) (m_buffered_bytes_cap r) (m_consumed r + n) h
    (m_buffer r).

(** How one of the two [if] blocks of the loop ends: it falls through, breaks out
    of the loop, or returns an error. *)
Inductive phase : Type :=
| Next (r : frame_reassembler) (frames : list complete_frame)
| Break
| Error (e : feed_error).

Section Definitions.
Context {host : Host}.

Definition header_phase (r : frame_reassembler) : phase :=
  if decide (m_state r = reading_header) then
    if decide (length (remaining r) < header_size)%nat then Break else
    match decode_header (remaining r) with
    | None => Error feed_invalid_magic
    | Some hdr => Next (consume r header_size reading_payload hdr) []
    end
  else Next r [].

(** The header-on copy of the frame that is delivered. *)
Definition framed_copy (hdr : frame_header) (payload_span : bytes) : option bytes :=
  let framed := zero_bytes (header_size + Z.to_nat (fh_payload_len hdr)) in
  header_bytes ← encode_header hdr;
  w ← writer_bytes (writer_of framed) header_bytes;
  match payload_span with
  | [] => Some (Cursor.m_region w)
  | _ => store (Cursor.m_region w) header_size payload_span
  end.

Definition payload_phase (r : frame_reassembler) : option phase :=
  if decide (m_state r = reading_payload) then
    let len := fh_payload_len (m_pending_header r) in
    if len >? m_max_payload_size r then Some (Error feed_payload_too_large) else
    if zlen (remaining r) <? len then Some Break else
    let payload_span := take (Z.to_nat len) (remaining r) in
    framed ← framed_copy (m_pending_header r) payload_span;
    Some (Next (consume r (Z.to_nat len) reading_header (m_pending_header r))
            [CompleteFrame (m_pending_header r) framed])
  else Some (Next r []).

(** The [for(;;)] of [feed]; [None] is a store outside the frame's vector or an
    exhausted bound on the iterations. *)
Fixpoint feed_loop (fuel : nat) (r : frame_reassembler) (frames : list complete_frame)
  : option (feed_result * frame_reassembler) :=
  match fuel with
  | O => None
  | S fuel =>
      match header_phase r with
      | Break => Some (FeedResult frames feed_none, r)
      | Error e => Some (FeedResult frames e, reset r)
      | Next r _ =>
          p ← payload_phase r;
          match p with
          | Break => Some (FeedResult frames feed_none, r)
          | Error e => Some (FeedResult frames e, reset r)
          | Next r new => feed_loop fuel r (frames ++ new)
          end
      end
  end.

Definition feed (r : frame_reassembler) (data : bytes) : option (feed_result * frame_reassembler) :=
  let r := append_bytes (compact r) data in
  if live_bytes r >? m_buffered_bytes_cap r
  then Some (FeedResult [] feed_buffer_overflow, reset r)
  else feed_loop (length (m_buffer r) + 2) r [].

(** A connection: the chunks are fed in order until one reports an error, which
    closes it. *)
Fixpoint feed_all (r : frame_reassembler) (chunks : list bytes)
  : option (feed_result * frame_reassembler) :=
  match chunks with
  | [] => Some (FeedResult [] feed_none, r)
  | c :: chunks =>
      '(res, r) ← feed r c;
      if decide (fr_error res = feed_none) then
        '(res', r) ← feed_all r chunks;
        Some (FeedResult (fr_frames res ++ fr_frames res') (fr_error res'), r)
      else Some (res, r)
  end.

End Definitions.

(** ** The contract: what a byte stream means

    [stream_reads max s frames e rest]: read from its start, [s] holds [frames]
    and then either ends in an incomplete frame [rest] ([e = feed_none]) or in
    bytes that cannot be a frame. *)
Inductive stream_reads (max : Z) : bytes -> list complete_frame -> feed_error -> bytes -> Prop :=
| reads_partial_header s :
    (length s < header_size)%nat -> stream_reads max s [] feed_none s
| reads_bad_magic s :
    (header_size <= length s)%nat -> take 2 s <> [magic_byte_0; magic_byte_1] ->
    stream_reads max s [] feed_invalid_magic []
| reads_too_large h rest :
    frame_header_ok h -> max < fh_payload_len h ->
    stream_reads max (header_layout h ++ rest) [] feed_payload_too_large []
| reads_partial_payload h rest :
    frame_header_ok h -> fh_payload_len h <= max -> zlen rest < fh_payload_len h ->
    stream_reads max (header_layout h ++ rest) [] feed_none (header_layout h ++ rest)
| reads_frame h payload s frames e rest :
    frame_header_ok h -> fh_payload_len h <= max -> zlen payload = fh_payload_len h ->
    stream_reads max s frames e rest ->
    stream_reads max (header_layout h ++ payload ++ s)
      (CompleteFrame h (header_layout h ++ payload) :: frames) e rest.

Lemma header_layout_magic h rest : take 2 (header_layout h ++ rest) = [magic_byte_0; magic_byte_1].
Proof. unfold header_layout. by rewrite !be_bytes_1. Qed.

#[local] Opaque header_layout.

Lemma header_layout_inj h1 h2 r1 r2 :
  frame_header_ok h1 -> frame_header_ok h2 ->
  header_layout h1 ++ r1 = header_layout h2 ++ r2 -> h1 = h2 /\ r1 = r2.
Proof.
  intros H1 H2 E.
  pose proof (decode_header_layout (host := little) h1 r1 H1) as D1.
  rewrite E, decode_header_layout in D1 by done. by simplify_eq.
Qed.

Lemma decode_header_None {host : Host} s :
  (header_size <= length s)%nat -> decode_header s = None ->
  take 2 s <> [magic_byte_0; magic_byte_1].
Proof.
  intros Hl H E. unfold decode_header in H. rewrite decide_False in H by lia.
  destruct s as [|b0 [|b1 s]]; try done. injection E as -> ->.
  rewrite decide_False in H by (intros [ []|[] ]; done).
  by repeat case_match.
Qed.

(** The stream determines its frames. *)
Lemma stream_reads_det max s fs1 fs2 e1 e2 r1 r2 :
  stream_reads max s fs1 e1 r1 -> stream_reads max s fs2 e2 r2 ->
  fs1 = fs2 /\ e1 = e2 /\ r1 = r2.
Proof.
  intros H1. revert fs2 e2 r2.
  induction H1 as [s Hl|s Hl Hm|h rest Hok Hmax|h rest Hok Hmax Hp
                  |h payload s fs e rest Hok Hmax Hp Hs IH]; intros fs2 e2 r2 H2.
  all: match type of H2 with stream_reads _ ?s0 _ _ _ => remember s0 as s1 eqn:Es end.
  all: destruct H2 as [s' Hl'|s' Hl' Hm'|h' rest' Hok' Hmax'|h' rest' Hok' Hmax' Hp'
                      |h' payload' s'' fs' e' rest'' Hok' Hmax' Hp' Hs']; try subst s'.
  all: repeat match goal with
    | H : header_layout _ ++ _ = header_layout _ ++ _ |- _ =>
        apply header_layout_inj in H as [? ?]; [subst|done..]
    | H : context[take 2 (header_layout _ ++ _)] |- _ => rewrite header_layout_magic in H
    | H : context[length (header_layout _ ++ _)] |- _ =>
        rewrite length_app, length_header_layout in H
    end.
  all: try done; try lia; try (rewrite zlen_app in *; pose proof (zlen_nonneg s); lia).
  all: try (rewrite zlen_app in *; pose proof (zlen_nonneg s''); lia).
  match goal with H : _ ++ _ = _ ++ _ |- _ => apply app_inj_1 in H as [? ?]; [subst|unfold zlen in *; lia] end.
  destruct (IH _ _ _ Hs') as (? & ? & ?). by subst.
Qed.

(** An incomplete stream can be continued. *)
Lemma stream_reads_app max s fs rest d fs' e rest' :
  stream_reads max s fs feed_none rest -> stream_reads max (rest ++ d) fs' e rest' ->
  stream_reads max (s ++ d) (fs ++ fs') e rest'.
Proof.
  intros H. remember feed_none as e0 eqn:E0. induction H; simplify_eq; try done; intros H'.
  rewrite <- !app_assoc. simpl. constructor; auto.
Qed.

(** A stream that has gone wrong stays wrong. *)
Lemma stream_reads_error_app max s fs e rest d :
  stream_reads max s fs e rest -> e <> feed_none -> stream_reads max (s ++ d) fs e rest.
Proof.
  intros H He. induction H; try done; rewrite <- ?app_assoc; try (by constructor; auto).
  apply reads_bad_magic; [len|]. unfold header_size in *.
  by rewrite take_app_le by lia.
Qed.

(** What is left incomplete is less than one maximal frame. *)
Lemma stream_reads_rest_bound max s fs rest :
  0 <= max -> stream_reads max s fs feed_none rest -> zlen rest < Z.of_nat header_size + max + 1.
Proof.
  intros Hmax H. remember feed_none as e eqn:E. induction H; simplify_eq; auto.
  - unfold zlen. lia.
  - rewrite zlen_app. unfold zlen at 1. rewrite length_header_layout. lia.
Qed.

Lemma stream_reads_stuck max s fs e rest :
  stream_reads max s fs e rest -> fs = [] -> e = feed_none -> rest = s.
Proof. by destruct 1. Qed.

Lemma stream_reads_error_rest max s fs e rest :
  stream_reads max s fs e rest -> e <> feed_none -> rest = [].
Proof. induction 1; done || auto. Qed.

(** A stream of complete frames is read back. *)
Definition whole_frame (max : Z) (f : frame_header * bytes) : Prop :=
  frame_header_ok (with_payload_len f.1 (zlen f.2)) /\ zlen f.2 <= max.

Definition framed (f : frame_header * bytes) : bytes :=
  header_layout (with_payload_len f.1 (zlen f.2)) ++ f.2.

Definition as_complete (f : frame_header * bytes) : complete_frame :=
  CompleteFrame (with_payload_len f.1 (zlen f.2)) (framed f).

Lemma stream_reads_frames max fs :
  Forall (whole_frame max) fs ->
  stream_reads max (concat (map framed fs)) (map as_complete fs) feed_none [].
Proof.
  induction 1 as [|f fs [Hok Hmax] _ IH]; [by constructor; vm_compute; lia|].
  cbn [map concat].
  assert (framed f ++ concat (map framed fs)
          = header_layout (with_payload_len f.1 (zlen f.2)) ++ f.2 ++ concat (map framed fs)) as ->.
  { unfold framed at 1. by rewrite app_assoc. }
  by constructor.
Qed.

(** ** The reassembler's invariant and abstraction *)

(** The bytes received and not yet delivered: what the buffer holds, behind the
    header that has already been taken off it. *)
Definition pending (r : frame_reassembler) : bytes :=
  match m_state r with
  | reading_header => remaining r
  | reading_payload => header_layout (m_pending_header r) ++ remaining r
  end.

Definition reassembler_inv (r : frame_reassembler) : Prop :=
  (m_consumed r <= length (m_buffer r))%nat /\
  (m_state r = reading_payload ->
     frame_header_ok (m_pending_header r) /\ fh_payload_len (m_pending_header r) <= m_max_payload_size r).

(** The configuration is never written. *)
Definition same_limits (r r' : frame_reassembler) : Prop :=
  m_max_payload_size r' = m_max_payload_size r /\ m_buffered_bytes_cap r' = m_buffered_bytes_cap r.

#[global] Instance same_limits_preorder : PreOrder same_limits.
Proof. split; [done|]. unfold same_limits. intros ??? [-> ->] [-> ->]. done. Qed.

Lemma live_bytes_remaining r :
  (m_consumed r <= length (m_buffer r))%nat -> live_bytes r = zlen (remaining r).
Proof. intros. unfold live_bytes, remaining, zlen. rewrite length_drop. lia. Qed.

Lemma pending_reset r : pending (reset r) = [].
Proof. done. Qed.

Lemma compact_spec r :
  reassembler_inv r ->
  reassembler_inv (compact r) /\ pending (compact r) = pending r /\ same_limits r (compact r) /\
  (m_consumed (compact r) = 0%nat \/ Z.of_nat (m_consumed (compact r)) < live_bytes (compact r)).
Proof.
  intros [Hc Hp]. unfold compact. destruct (Nat.eqb_spec (m_consumed r) 0); simpl.
  - split_and!; try done. by left.
  - rewrite Z.geb_leb. destruct (Z.leb_spec (live_bytes r) (Z.of_nat (m_consumed r))).
    + split_and!; try done; [|by left]. split; simpl; [lia|done].
    + split_and!; try done. right. lia.
Qed.

Lemma append_bytes_spec r d :
  reassembler_inv r ->
  reassembler_inv (append_bytes r d) /\ pending (append_bytes r d) = pending r ++ d /\
  same_limits r (append_bytes r d).
Proof.
  intros [Hc Hp]. split_and!; [|unfold pending, remaining|done].
  - split; simpl; [len|done].
  - cbn [append_bytes m_state m_consumed m_buffer m_pending_header].
    rewrite drop_app_le by done. case_match; [done|]. by rewrite app_assoc.
Qed.

(** ** One iteration and the loop *)

Section Lemmas.
Context {host : Host}.

Lemma framed_copy_layout hdr payload :
  zlen payload = fh_payload_len hdr -> framed_copy hdr payload = Some (header_layout hdr ++ payload).
Proof.
  intros Hl. unfold framed_copy. rewrite encode_header_layout. cbn [mbind option_bind].
  rewrite <- Hl, zlen_to_nat. rewrite writer_of_wr, writer_bytes_wr.
  2: { rewrite length_header_layout. unfold zero_bytes. codec_len. }
  cbn [mbind option_bind]. unfold wr. cbn [Cursor.m_region app].
  assert (length (drop (length (header_layout hdr)) (zero_bytes (header_size + length payload)))
          = length payload) as Hd.
  { rewrite length_header_layout. unfold zero_bytes. codec_len. }
  revert Hd. generalize (drop (length (header_layout hdr)) (zero_bytes (header_size + length payload))).
  intros z Hz. destruct payload as [|b payload].
  { destruct z; [done|done]. }
  rewrite <- (length_header_layout hdr). rewrite store_app by lia.
  by rewrite drop_ge, app_nil_r by lia.
Qed.

Lemma header_phase_spec r :
  reassembler_inv r ->
  match header_phase r with
  | Break => stream_reads (m_max_payload_size r) (pending r) [] feed_none (pending r)
  | Error e => stream_reads (m_max_payload_size r) (pending r) [] e [] /\ e <> feed_none
  | Next r' _ =>
      m_state r' = reading_payload /\ (m_consumed r' <= length (m_buffer r'))%nat /\
      frame_header_ok (m_pending_header r') /\ pending r' = pending r /\ same_limits r r' /\
      m_buffer r' = m_buffer r /\ (m_consumed r <= m_consumed r')%nat /\
      (m_state r = reading_header -> (m_consumed r < m_consumed r')%nat)
  end.
Proof.
  intros [Hc Hp]. unfold header_phase. case_decide as Hs.
  2: { destruct (m_state r) eqn:E; [done|]. destruct Hp; [done|]. split_and!; done. }
  unfold pending. rewrite Hs. case_decide as Hl; [by constructor|].
  destruct (decode_header (remaining r)) as [h|] eqn:Hd.
  - apply decode_header_inv in Hd as [Hok [rest Hrest]]. simpl.
    assert (rest = drop (m_consumed r + header_size) (m_buffer r)) as ->.
    { rewrite <- drop_drop. fold (remaining r). rewrite Hrest.
      by rewrite <- (length_header_layout h), drop_app_length. }
    assert (length (remaining r) = length (m_buffer r) - m_consumed r)%nat
      by apply length_drop.
    unfold header_size in *. split_and!; try done; simpl; lia.
  - split; [|done]. apply reads_bad_magic; [lia|]. apply (decode_header_None); [lia|done].
Qed.

Lemma payload_phase_spec r :
  m_state r = reading_payload -> (m_consumed r <= length (m_buffer r))%nat ->
  frame_header_ok (m_pending_header r) ->
  match payload_phase r with
  | None => False
  | Some Break =>
      stream_reads (m_max_payload_size r) (pending r) [] feed_none (pending r) /\ reassembler_inv r
  | Some (Error e) => stream_reads (m_max_payload_size r) (pending r) [] e [] /\ e <> feed_none
  | Some (Next r' new) =>
      m_state r' = reading_header /\ reassembler_inv r' /\ same_limits r r' /\
      m_buffer r' = m_buffer r /\ (m_consumed r <= m_consumed r')%nat /\
      (forall fs e rest, stream_reads (m_max_payload_size r) (pending r') fs e rest ->
                    stream_reads (m_max_payload_size r) (pending r) (new ++ fs) e rest)
  end.
Proof.
  intros Hs Hc Hok. unfold payload_phase. rewrite decide_True by done.
  set (h := m_pending_header r) in *. assert (pending r = header_layout h ++ remaining r) as Hpend.
  { unfold pending. by rewrite Hs. }
  assert (0 <= fh_payload_len h) by apply Hok.
  rewrite Z.gtb_ltb. destruct (Z.ltb_spec (m_max_payload_size r) (fh_payload_len h)).
  { split; [|done]. rewrite Hpend. by constructor. }
  destruct (Z.ltb_spec (zlen (remaining r)) (fh_payload_len h)).
  { rewrite Hpend. split; [by constructor|]. split; done. }
  assert (zlen (take (Z.to_nat (fh_payload_len h)) (remaining r)) = fh_payload_len h) as Hz.
  { unfold zlen in *. rewrite length_take. lia. }
  rewrite framed_copy_layout by done. cbn [mbind option_bind].
  assert (length (remaining r) = length (m_buffer r) - m_consumed r)%nat by apply length_drop.
  unfold zlen in *. split_and!; try done; simpl; [|lia|].
  - split; simpl; [lia|done].
  - intros fs e rest Hr. rewrite Hpend.
    rewrite <- (take_drop (Z.to_nat (fh_payload_len h)) (remaining r)) at 1.
    constructor; try done. unfold pending in Hr. simpl in Hr. unfold remaining in *. simpl in Hr.
    by rewrite drop_drop.
Qed.

Lemma feed_loop_spec fuel r frames :
  reassembler_inv r ->
  (length (m_buffer r) - m_consumed r + (if decide (m_state r = reading_header) then 0 else 1)
   < fuel)%nat ->
  exists fs e rest r',
    feed_loop fuel r frames = Some (FeedResult (frames ++ fs) e, r') /\
    stream_reads (m_max_payload_size r) (pending r) fs e rest /\
    pending r' = rest /\ reassembler_inv r' /\ same_limits r r' /\
    (length (m_buffer r') <= length (m_buffer r))%nat /\
    (length (m_buffer r') - m_consumed r' <= length (m_buffer r) - m_consumed r)%nat.
Proof.
  revert r frames. induction fuel as [|fuel IH]; intros r frames Hinv Hf; [lia|]. simpl.
  pose proof (header_phase_spec r Hinv) as Hh. destruct (header_phase r) as [r1 ?| |e].
  - destruct Hh as (Hs1 & Hc1 & Hok1 & Hp1 & Hl1 & Hb1 & Hle1 & Hlt1).
    pose proof (payload_phase_spec r1 Hs1 Hc1 Hok1) as Hp.
    assert (m_max_payload_size r1 = m_max_payload_size r) as Hm1 by apply Hl1.
    rewrite Hm1, Hp1 in Hp.
    destruct (payload_phase r1) as [ [r2 new| |e]|]; cbn [mbind option_bind]; [| | |done].
    + destruct Hp as (Hs2 & Hinv2 & Hl2 & Hb2 & Hle2 & Hk).
      destruct (IH r2 (frames ++ new)) as (fs & e & rest & r' & -> & Hr & Hpend & Hi & Hlim & Hbl & Hll);
        [done| |].
      { rewrite decide_True by done. rewrite Hb2, Hb1.
        destruct (m_state r) eqn:E; [specialize (Hlt1 eq_refl)|]; simpl in *;
          destruct Hinv2 as [? _]; rewrite Hb2, Hb1 in *; lia. }
      assert (m_max_payload_size r2 = m_max_payload_size r) as Hm2 by (rewrite <- Hm1; apply Hl2).
      rewrite Hm2 in Hr. exists (new ++ fs), e, rest, r'. rewrite app_assoc. split_and!; try done.
      * by apply Hk.
      * by do 2 (etransitivity; [done|]).
      * by rewrite Hb2, Hb1 in Hbl.
      * rewrite Hb2, Hb1 in Hll. lia.
    + destruct Hp as [Hr Hi]. exists [], feed_none, (pending r), r1. rewrite app_nil_r, Hb1.
      split_and!; done || lia.
    + destruct Hp as [Hr He]. exists [], e, [], (reset r1). rewrite app_nil_r. split_and!; done || (simpl; lia).
  - exists [], feed_none, (pending r), r. rewrite app_nil_r. split_and!; done || lia.
  - destruct Hh as [Hr He]. exists [], e, [], (reset r). rewrite app_nil_r. split_and!; done || (simpl; lia).
Qed.

(** What one [feed] does: an overflow drops everything held, and otherwise the
    frames are those of the bytes held followed by the new ones. *)
Lemma feed_spec r d :
  reassembler_inv r ->
  exists res r',
    feed r d = Some (res, r') /\ reassembler_inv r' /\ same_limits r r' /\
    (0 <= m_buffered_bytes_cap r ->
       live_bytes r' <= m_buffered_bytes_cap r /\ zlen (m_buffer r') <= 2 * m_buffered_bytes_cap r) /\
    ((m_buffered_bytes_cap r < live_bytes r + zlen d /\
      res = FeedResult [] feed_buffer_overflow /\ r' = reset r) \/
     (live_bytes r + zlen d <= m_buffered_bytes_cap r /\
      stream_reads (m_max_payload_size r) (pending r ++ d) (fr_frames res) (fr_error res) (pending r'))).
Proof.
  intros Hi. destruct (compact_spec r Hi) as (Hi1 & Hp1 & Hl1 & Hc1).
  destruct (append_bytes_spec (compact r) d Hi1) as (Hi2 & Hp2 & Hl2).
  assert (live_bytes (compact r) = live_bytes r) as Hlive.
  { unfold compact. case_match; [|done]. unfold live_bytes, zlen. simpl.
    rewrite length_drop. destruct Hi. lia. }
  unfold feed. set (r2 := append_bytes (compact r) d) in *.
  assert (live_bytes r2 = live_bytes r + zlen d) as Hlive2.
  { rewrite <- Hlive. unfold live_bytes, r2. simpl. rewrite zlen_app. lia. }
  assert (same_limits r r2) as Hl by (by etransitivity).
  assert (m_buffered_bytes_cap r2 = m_buffered_bytes_cap r) as Hcap by apply Hl.
  assert (m_max_payload_size r2 = m_max_payload_size r) as Hmax by apply Hl.
  rewrite Z.gtb_ltb, Hcap, Hlive2.
  destruct (Z.ltb_spec (m_buffered_bytes_cap r) (live_bytes r + zlen d)).
  - eexists _, _. split; [done|]. split_and!; try done.
    + intros. unfold live_bytes, zlen. simpl. lia.
    + left. split_and!; try done. unfold reset. by rewrite Hcap, Hmax.
  - destruct (feed_loop_spec (length (m_buffer r2) + 2) r2 []) as
      (fs & e & rest & r' & -> & Hr & Hpend & Hinv' & Hlim & Hbl & Hll); [done| |].
    { destruct Hi2. case_decide; lia. }
    eexists _, _. split; [done|]. split_and!; [done|by etransitivity| |right].
    + intros. unfold live_bytes in *. destruct Hi2, Hinv'.
      assert (m_consumed r2 = m_consumed (compact r)) as Hcons by done.
      assert (zlen (m_buffer r2) = zlen (m_buffer (compact r)) + zlen d) by apply zlen_app.
      pose proof (zlen_nonneg d). unfold zlen in *. lia.
    + split; [done|]. simpl. by rewrite Hpend, <- Hmax, <- Hp1, <- Hp2.
Qed.

Lemma live_bytes_pending r : reassembler_inv r -> live_bytes r <= zlen (pending r).
Proof.
  intros [Hc _]. rewrite live_bytes_remaining by done. unfold pending.
  case_match; [done|]. rewrite zlen_app. pose proof (zlen_nonneg (header_layout (m_pending_header r))). lia.
Qed.

Lemma feed_all_spec r chunks s fs :
  0 <= m_max_payload_size r -> reassembler_inv r ->
  Forall (fun c => zlen c + Z.of_nat header_size + m_max_payload_size r <= m_buffered_bytes_cap r) chunks ->
  stream_reads (m_max_payload_size r) s fs feed_none (pending r) ->
  exists res r',
    feed_all r chunks = Some (res, r') /\ reassembler_inv r' /\
    stream_reads (m_max_payload_size r) (s ++ concat chunks) (fs ++ fr_frames res) (fr_error res) (pending r').
Proof.
  intros H0. revert r s fs H0. induction chunks as [|c chunks IH]; intros r s fs H0 Hi Hc Hs; cbn [feed_all concat].
  { eexists _, _. split; [done|]. cbn [fr_frames fr_error]. by rewrite !app_nil_r. }
  apply Forall_cons in Hc as [Hc Hcs].
  destruct (feed_spec r c Hi) as (res & r1 & -> & Hi1 & [Hm Hcap] & _ & [ [Ho _]|[_ Hr] ]).
  { pose proof (stream_reads_rest_bound _ _ _ _ H0 Hs). pose proof (live_bytes_pending r Hi). lia. }
  cbn [mbind option_bind].
  pose proof (stream_reads_app _ _ _ _ _ _ _ _ Hs Hr) as Hr'.
  case_decide as He.
  - rewrite He in Hr'. rewrite <- Hm in Hr'. rewrite <- Hm in H0.
    edestruct (IH r1) as (res' & r2 & -> & Hi2 & Hr2); [done|done| |exact Hr'|].
    { by rewrite Hm, Hcap. }
    eexists _, _. split; [done|]. split; [done|]. cbn [fr_frames fr_error].
    rewrite Hm, <- !app_assoc in Hr2. done.
  - eexists _, _. split; [done|]. split; [done|]. rewrite app_assoc.
    by apply stream_reads_error_app.
Qed.

Lemma reassembler_inv_new max cap : reassembler_inv (frame_reassembler_new max cap).
Proof. done. Qed.

Lemma feed_all_new max cap chunks :
  0 <= max -> Forall (fun c => zlen c + Z.of_nat header_size + max <= cap) chunks ->
  exists res r',
    feed_all (frame_reassembler_new max cap) chunks = Some (res, r') /\
    reassembler_inv r' /\
    stream_reads max (concat chunks) (fr_frames res) (fr_error res) (pending r').
Proof.
  intros H0 Hc.
  destruct (feed_all_spec (frame_reassembler_new max cap) chunks [] []) as (res & r' & ? & ? & ?);
    [done..| |by eexists _, _].
  constructor. by apply Nat.lt_0_succ.
Qed.

(** ** Theorems *)

(** C1: fed a byte stream in any chunks (each leaving room for one maximal frame
    under the cap), the reassembler delivers exactly the frames the stream holds,
    in order, reports the error of the stream when it has one, and keeps exactly
    the incomplete rest. *)
Theorem reassembler_refines_stream (max cap : Z) (chunks : list bytes) :
  0 <= max -> Forall (fun c => zlen c + Z.of_nat header_size + max <= cap) chunks ->
  exists frames e r',
    feed_all (frame_reassembler_new max cap) chunks = Some (FeedResult frames e, r') /\
    stream_reads max (concat chunks) frames e (pending r').
Proof.
  intros H0 Hc. destruct (feed_all_new max cap chunks H0 Hc) as ([fs e] & r' & ? & _ & ?).
  by eexists fs, e, r'.
Qed.

(** How a stream is cut into chunks does not matter: two chunkings of the same
    bytes deliver the same frames and the same error; and a stream of encoded frames
    delivers those frames, header-on and in order, and leaves no frame in progress. *)
Theorem reassembly_chunking_invariant (max cap : Z) (fs : list (frame_header * bytes))
    (encoded chunks chunks' : list bytes) :
  0 <= max ->
  Forall (fun c => zlen c + Z.of_nat header_size + max <= cap) chunks ->
  Forall (fun c => zlen c + Z.of_nat header_size + max <= cap) chunks' ->
  concat chunks' = concat chunks ->
  fst <$> feed_all (frame_reassembler_new max cap) chunks'
    = fst <$> feed_all (frame_reassembler_new max cap) chunks /\
  (Forall (whole_frame max) fs ->
   Forall2 (fun f enc => encode_frame f.1 f.2 = Some enc) fs encoded ->
   concat chunks = concat encoded ->
   exists r', feed_all (frame_reassembler_new max cap) chunks
              = Some (FeedResult (map as_complete fs) feed_none, r') /\
              frame_in_progress r' = false).
Proof.
  intros H0 Hc Hc' Heq.
  destruct (feed_all_new max cap chunks H0 Hc) as ([fs1 e1] & r1 & -> & Hi1 & Hr1).
  destruct (feed_all_new max cap chunks' H0 Hc') as ([fs2 e2] & r2 & -> & Hi2 & Hr2).
  simpl in Hr1, Hr2. split.
  { rewrite Heq in Hr2. destruct (stream_reads_det _ _ _ _ _ _ _ _ Hr1 Hr2) as (-> & -> & _). done. }
  intros Hw Henc Hcat.
  assert (encoded = map framed fs) as ->.
  { clear -Henc. induction Henc as [|f enc ? ? Hf _ IH]; [done|]. cbn [map]. rewrite IH. f_equal.
    rewrite encode_frame_layout in Hf. by simplify_eq. }
  rewrite Hcat in Hr1. pose proof (stream_reads_frames max fs Hw) as Hfs.
  destruct (stream_reads_det _ _ _ _ _ _ _ _ Hr1 Hfs) as (-> & -> & Hp). exists r1. split; [done|].
  unfold frame_in_progress, pending in *. destruct (m_state r1) eqn:E.
  - rewrite live_bytes_remaining by apply Hi1. by rewrite Hp.
  - apply (f_equal length) in Hp. by rewrite length_app, length_header_layout in Hp.
Qed.

(** Every state a reassembler can be in, whatever was fed to it. *)
Inductive reassembler_reachable (max cap : Z) : frame_reassembler -> Prop :=
| reachable_new : reassembler_reachable max cap (frame_reassembler_new max cap)
| reachable_feed r d res r' :
    reassembler_reachable max cap r -> feed r d = Some (res, r') ->
    reassembler_reachable max cap r'
| reachable_reset r : reassembler_reachable max cap r -> reassembler_reachable max cap (reset r).

(** For any input whatever, errors included, the reassembler never holds more
    than the configured cap of undelivered bytes nor a buffer of more than twice the
    cap, never waits for a payload above the configured maximum, and every feed
    terminates without leaving its buffers. *)
Theorem reassembler_memory_bounded (max cap : Z) (r : frame_reassembler) (data : bytes) :
  0 <= cap -> reassembler_reachable max cap r ->
  buffered_bytes r <= cap /\ zlen (m_buffer r) <= 2 * cap /\
  (forall n, pending_payload_len r = Some n -> n <= max) /\
  is_Some (feed r data).
Proof.
  intros H0 H.
  assert (reassembler_inv r /\ m_max_payload_size r = max /\ m_buffered_bytes_cap r = cap /\
          live_bytes r <= cap /\ zlen (m_buffer r) <= 2 * cap) as (Hi & Hm & Hc & Hl & Hb).
  { induction H as [|r d res r' H IH Hf|r H IH].
    - split_and!; try done. unfold zlen. simpl. lia.
    - destruct IH as (Hi & Hm & Hc & Hl & Hb).
      destruct (feed_spec r d Hi) as (res1 & r1 & Hf1 & Hi1 & [Hm1 Hc1] & Hb1 & _).
      rewrite Hf in Hf1. simplify_eq. destruct (Hb1 H0). split_and!; done.
    - destruct IH as (Hi & Hm & Hc & Hl & Hb). split_and!; try done. unfold zlen. simpl. lia. }
  split_and!; [done|done| |].
  - intros n Hn. unfold pending_payload_len in Hn. case_decide; simplify_eq. by apply Hi.
  - destruct (feed_spec r data Hi) as (res & r1 & -> & _). done.
Qed.

End Lemmas.

(** A stream of two frames: a payload of the maximal size 4, then an empty one. *)
Definition two_frames : bytes :=
  framed (FrameHeader 1 0 0 0 4, zero_bytes 4) ++ framed (FrameHeader 1 0 0 0 0, []).

(** With the default relation between the two limits (the cap is exactly one
    maximal frame), which frames arrive depends on the chunking: the same legal
    stream is accepted in two chunks and refused as an overflow in one. *)
Theorem default_cap_is_chunking_dependent :
  let r := frame_reassembler_new 4 (4 + Z.of_nat header_size) in
  let outcome chunks := (fun o => (length (fr_frames o.1), fr_error o.1)) <$>
                        feed_all (host := little) r chunks in
  outcome [take 32 two_frames; drop 32 two_frames] = Some (2%nat, feed_none) /\
  outcome [two_frames] = Some (0%nat, feed_buffer_overflow).
Proof. split; vm_compute; reflexivity. Qed.

Lemma reassembler_refines_stream_witness :
  exists frames e r',
    feed_all (host := little) (frame_reassembler_new 4 100) [take 5 two_frames; drop 5 two_frames]
      = Some (FeedResult frames e, r') /\
    stream_reads 4 (concat [take 5 two_frames; drop 5 two_frames]) frames e (pending r').
Proof.
  apply (reassembler_refines_stream (host := little) 4 100); [lia|].
  repeat constructor; vm_compute; congruence.
Defined.

Lemma reassembly_chunking_invariant_witness :
  fst <$> feed_all (host := little) (frame_reassembler_new 4 100) [two_frames]
  = fst <$> feed_all (host := little) (frame_reassembler_new 4 100) [take 5 two_frames; drop 5 two_frames].
Proof.
  apply (reassembly_chunking_invariant (host := little) 4 100 [] []);
    [lia|repeat constructor; vm_compute; congruence..|vm_compute; reflexivity].
Defined.

Lemma reassembler_memory_bounded_witness :
  buffered_bytes (frame_reassembler_new 4 100) <= 100.
Proof.
  apply (reassembler_memory_bounded (host := little) 4 100 (frame_reassembler_new 4 100) []);
    [lia|constructor].
Defined.
