(* ===== verification/StreamInbound.v ===== *)
(** * The no-progress guard over the reassembler

    Models [lib/plexus-stream/include/plexus/stream/stream_inbound.h].  The timer
    type is a template parameter: what [stream_inbound] asks of it is an output
    ([TimerArm], [TimerCancel]) and its completion is the input [on_expiry], which
    the environment may deliver for any wait that was ever armed. *)

From S2P Require Import Prelude ByteOrder Varint Cursor Frame FrameReassembler.

(** ** Data *)

(** Durations are nanosecond counts. *)
Record stream_inbound_config : Type := StreamInboundConfig {
  no_progress_floor : Z;
  min_throughput_bytes_per_sec : Z;
  max_payload_size : Z;
  buffered_bytes_cap : Z;
}.

Definition stream_inbound_config_default : stream_inbound_config :=
  StreamInboundConfig (30 * 1000000000) (64 * 1024) k_max_reassembler_payload_bytes
    (k_max_reassembler_payload_bytes + Z.of_nat header_size).

Definition with_message_limits (cfg : stream_inbound_config)
    (max_payload_size reassembly_budget : Z) : stream_inbound_config :=
  StreamInboundConfig (no_progress_floor cfg) (min_throughput_bytes_per_sec cfg) max_payload_size
    (Z.max reassembly_budget (wrap 64 (max_payload_size + Z.of_nat header_size))).

(** The calls made on the callbacks and on the timer. *)
Inductive inbound_event : Type :=
| OnFrame (f : complete_frame)
| OnProtocolClose (cause : close_cause)
| TimerArm (gen : Z) (expires_after_ms : Z)
| TimerCancel.

Record stream_inbound : Type := StreamInbound {
  m_reassembler : frame_reassembler;
  m_cfg : stream_inbound_config;
  m_timer_generation : Z;
  m_armed_deadline : Z;
  m_on_frame : bool;             (** a callback has been set *)
  m_on_protocol_close : bool;
}.

Definition stream_inbound_new (cfg : stream_inbound_config) : stream_inbound :=
  StreamInbound (frame_reassembler_new (max_payload_size cfg) (buffered_bytes_cap cfg))
    cfg 0 0 false false.

Definition on_frame (s : stream_inbound) : stream_inbound :=
  StreamInbound (m_reassembler s) (m_cfg s) (m_timer_generation s) (m_armed_deadline s) true
    (m_on_protocol_close s).

Definition on_protocol_close (s : stream_inbound) : stream_inbound :=
  StreamInbound (m_reassembler s) (m_cfg s) (m_timer_generation s) (m_armed_deadline s)
    (m_on_frame s) true.

(** ** Operations *)

(** The conversion [static_cast<std::int64_t>] of a 64-bit unsigned value. *)
Definition to_int64 (x : Z) : Z :=
  let y := wrap 64 x in if y >=? 2 ^ 63 then y - 2 ^ 64 else y.

Definition in_int64 (x : Z) : Prop := - 2 ^ 63 <= x < 2 ^ 63.

#[global] Instance in_int64_dec x : Decision (in_int64 x).
Proof. unfold in_int64. apply _. Defined.

(** [None]: the signed product overflows. *)
Definition payload_deadline (cfg : stream_inbound_config) (n : Z) : option Z :=
  if min_throughput_bytes_per_sec cfg =? 0 then Some 0 else
  let product := to_int64 n * 1000000000 in
  if decide (in_int64 product)
  then Some (Z.quot product (to_int64 (min_throughput_bytes_per_sec cfg)))
  else None.

Definition deadline_for_current_frame (s : stream_inbound) : option Z :=
  match pending_payload_len (m_reassembler s) with
  | None => Some (no_progress_floor (m_cfg s))
  | Some plen => Z.max (no_progress_floor (m_cfg s)) <$> payload_deadline (m_cfg s) plen
  end.

Definition set_timer (s : stream_inbound) (gen deadline : Z) : stream_inbound :=
  StreamInbound (m_reassembler s) (m_cfg s) gen deadline (m_on_frame s) (m_on_protocol_close s).

Definition set_reassembler (s : stream_inbound) (r : frame_reassembler) : stream_inbound :=
  StreamInbound r (m_cfg s) (m_timer_generation s) (m_armed_deadline s) (m_on_frame s)
    (m_on_protocol_close s).

Definition arm (s : stream_inbound) (d : Z) : list inbound_event * stream_inbound :=
  let gen := wrap 64 (m_timer_generation s + 1) in
  ([TimerArm gen (Z.quot d 1000000)], set_timer s gen d).

Definition cancel_timer (s : stream_inbound) : list inbound_event * stream_inbound :=
  ([TimerCancel], set_timer s (wrap 64 (m_timer_generation s + 1)) (m_armed_deadline s)).

Definition reframe_timer (s : stream_inbound) (was_in_progress completed : bool)
  : option (list inbound_event * stream_inbound) :=
  if negb (frame_in_progress (m_reassembler s)) then
    let '(evs, s) := cancel_timer s in
    Some (evs, set_timer s (m_timer_generation s) 0)
  else
    want ← deadline_for_current_frame s;
    if negb was_in_progress || completed || negb (want =? m_armed_deadline s)
    then Some (arm s want) else Some ([], s).

Section Definitions.
Context {host : Host}.

Definition feed (s : stream_inbound) (data : bytes) : option (list inbound_event * stream_inbound) :=
  let was_in_progress := frame_in_progress (m_reassembler s) in
  '(result, r) ← FrameReassembler.feed (m_reassembler s) data;
  let s := set_reassembler s r in
  let delivered := if m_on_frame s then map OnFrame (fr_frames result) else [] in
  if decide (fr_error result <> feed_none) then
    let '(evs, s) := cancel_timer s in
    let closed := if m_on_protocol_close s
                  then [OnProtocolClose (to_close_cause (fr_error result))] else [] in
    Some (delivered ++ evs ++ closed, s)
  else
    '(evs, s) ← reframe_timer s was_in_progress
                  (negb (bool_decide (fr_frames result = [])));
    Some (delivered ++ evs, s).

Definition shutdown (s : stream_inbound) : list inbound_event * stream_inbound := cancel_timer s.

(** The completion handler [arm] gives to [async_wait]; [ec] is true for a
    cancelled wait. *)
Definition on_expiry (s : stream_inbound) (gen : Z) (ec : bool) : list inbound_event :=
  if ec then [] else
  if negb (gen =? m_timer_generation s) || negb (frame_in_progress (m_reassembler s)) then [] else
  if m_on_protocol_close s then [OnProtocolClose cause_no_progress_timeout] else [].

(** Successive feeds, with all their events. *)
Fixpoint feeds (s : stream_inbound) (chunks : list bytes)
  : option (list inbound_event * stream_inbound) :=
  match chunks with
  | [] => Some ([], s)
  | c :: chunks =>
      '(evs, s) ← feed s c;
      '(evs', s) ← feeds s chunks;
      Some (evs ++ evs', s)
  end.

End Definitions.

(** ** The running timer

    The wait in force after a sequence of timer calls: re-arming replaces it and
    cancelling ends it. *)
Definition timer_after (live : option (Z * Z)) (evs : list inbound_event) : option (Z * Z) :=
  foldl (fun live ev =>
           match ev with
           | TimerArm gen ms => Some (gen, ms)
           | TimerCancel => None
           | _ => live
           end) live evs.

Definition is_arm (ev : inbound_event) : bool :=
  match ev with TimerArm _ _ => true | _ => false end.

Definition arms (evs : list inbound_event) : nat := length (List.filter is_arm evs).

(** Limits under which the deadline arithmetic stays inside [int64]. *)
Definition config_ok (cfg : stream_inbound_config) : Prop :=
  0 <= no_progress_floor cfg /\ 0 <= min_throughput_bytes_per_sec cfg < 2 ^ 63 /\
  0 <= max_payload_size cfg <= 9223372036.

Lemma to_int64_small x : 0 <= x < 2 ^ 63 -> to_int64 x = x.
Proof.
  intros H. unfold to_int64. rewrite wrap_small by (unfold in_width; lia).
  rewrite Z.geb_leb. destruct (Z.leb_spec (2 ^ 63) x); lia.
Qed.

Lemma payload_deadline_defined cfg n :
  config_ok cfg -> 0 <= n <= max_payload_size cfg ->
  payload_deadline cfg n
  = Some (if min_throughput_bytes_per_sec cfg =? 0 then 0
          else n * 1000000000 / min_throughput_bytes_per_sec cfg).
Proof.
  intros (Hf & Ht & Hm) Hn. unfold payload_deadline. destruct (Z.eqb_spec (min_throughput_bytes_per_sec cfg) 0).
  { done. }
  rewrite !to_int64_small by lia. rewrite decide_True by (unfold in_int64; lia).
  f_equal. apply Z.quot_div_nonneg; lia.
Qed.

(** ** The invariant *)

(** The state of the guard between feeds: the reassembler is in a reachable state
    with the configured limits, and the timer runs exactly while a frame is in
    progress, under the current generation, with that frame's deadline. *)
Record guard_inv (s : stream_inbound) (live : option (Z * Z)) : Prop := GuardInv {
  gi_inv : reassembler_inv (m_reassembler s);
  gi_max : m_max_payload_size (m_reassembler s) = max_payload_size (m_cfg s);
  gi_idle : frame_in_progress (m_reassembler s) = false -> live = None;
  gi_busy : frame_in_progress (m_reassembler s) = true ->
    live = Some (m_timer_generation s, Z.quot (m_armed_deadline s) 1000000) /\
    deadline_for_current_frame s = Some (m_armed_deadline s);
}.

Lemma deadline_defined s :
  config_ok (m_cfg s) -> reassembler_inv (m_reassembler s) ->
  m_max_payload_size (m_reassembler s) = max_payload_size (m_cfg s) ->
  is_Some (deadline_for_current_frame s).
Proof.
  intros Hc [_ Hp] Hm. unfold deadline_for_current_frame, pending_payload_len.
  case_decide as Hs; [|done]. destruct (Hp Hs) as [Hok Hle].
  rewrite payload_deadline_defined; [done|done|]. rewrite <- Hm. split; [apply Hok|done].
Qed.

Lemma timer_after_app live a b : timer_after live (a ++ b) = timer_after (timer_after live a) b.
Proof. unfold timer_after. by rewrite foldl_app. Qed.

Lemma timer_after_frames live fs : timer_after live (map OnFrame fs) = live.
Proof. induction fs as [|f fs IH] in live |- *; [done|]. apply IH. Qed.

Lemma arms_app a b : arms (a ++ b) = (arms a + arms b)%nat.
Proof. unfold arms. by rewrite List.filter_app, length_app. Qed.

Lemma arms_frames fs : arms (map OnFrame fs) = 0%nat.
Proof. induction fs; done. Qed.

#[local] Opaque header_layout.

Section Lemmas.
Context {host : Host}.

(** The header of a frame in progress stays until the frame is delivered. *)
Lemma feed_loop_break fuel r frames res r' :
  feed_loop fuel r frames = Some (res, r') -> fr_error res = feed_none ->
  m_state r' = reading_header -> (length (remaining r') < header_size)%nat.
Proof.
  revert r frames. induction fuel as [|fuel IH]; intros r frames H He Hs; [done|].
  cbn [feed_loop] in H. destruct (header_phase r) as [r1 ?| |e] eqn:Hh.
  - destruct (payload_phase r1) as [ [r2 new| |e]|] eqn:Hp; cbn [mbind option_bind] in H; simplify_eq.
    + by eapply IH.
    + unfold payload_phase in Hp. rewrite Hs, decide_False in Hp by done. done.
    + simpl in *. unfold header_size. lia.
  - simplify_eq. unfold header_phase in Hh. rewrite Hs in Hh. rewrite decide_True in Hh by done.
    case_decide; [done|]. by case_match.
  - simplify_eq. simpl. unfold header_size. lia.
Qed.

Lemma feed_break r d res r' :
  FrameReassembler.feed r d = Some (res, r') -> fr_error res = feed_none ->
  m_state r' = reading_header -> (length (remaining r') < header_size)%nat.
Proof.
  unfold FrameReassembler.feed. case_match; intros; simplify_eq/=. by eapply feed_loop_break.
Qed.

Lemma feed_keeps_header r d r' res :
  reassembler_inv r -> m_state r = reading_payload ->
  FrameReassembler.feed r d = Some (res, r') -> fr_error res = feed_none -> fr_frames res = [] ->
  m_state r' = reading_payload /\ m_pending_header r' = m_pending_header r.
Proof.
  intros Hi Hs Hf He Hfs.
  destruct (feed_spec r d Hi) as (res1 & r1 & Hf1 & Hi1 & _ & _ & Hc). rewrite Hf in Hf1.
  simplify_eq. destruct Hc as [ (_ & -> & _)|[_ Hr] ]; [done|]. rewrite He, Hfs in Hr.
  apply stream_reads_stuck in Hr; [|done..]. unfold pending in Hr.
  rewrite Hs, <- app_assoc in Hr.
  destruct Hi as [_ Hp]. destruct (Hp Hs) as [Hok _]. clear Hp.
  pose proof (feed_break _ _ _ _ Hf He) as Hbr. destruct (m_state r1) eqn:E1.
  - specialize (Hbr eq_refl). apply (f_equal length) in Hr.
    rewrite length_app, length_header_layout in Hr. lia.
  - split; [done|]. destruct Hi1 as [_ Hp1]. destruct (Hp1 E1) as [Hok1 _].
    by apply header_layout_inj in Hr as [? _].
Qed.

Lemma reframe_timer_spec s was completed live :
  config_ok (m_cfg s) -> reassembler_inv (m_reassembler s) ->
  m_max_payload_size (m_reassembler s) = max_payload_size (m_cfg s) ->
  (was = true -> live = Some (m_timer_generation s, Z.quot (m_armed_deadline s) 1000000)) ->
  exists evs s', reframe_timer s was completed = Some (evs, s') /\
    guard_inv s' (timer_after live evs) /\ m_cfg s' = m_cfg s /\
    m_reassembler s' = m_reassembler s /\ m_on_frame s' = m_on_frame s /\
    m_on_protocol_close s' = m_on_protocol_close s /\ (arms evs <= 1)%nat /\
    (was = true -> completed = false -> deadline_for_current_frame s = Some (m_armed_deadline s) ->
     arms evs = 0%nat).
Proof.
  intros Hc Hi Hm Hw. destruct (deadline_defined s Hc Hi Hm) as [want Hwant].
  unfold reframe_timer. destruct (frame_in_progress (m_reassembler s)) eqn:Hp; simpl.
  - rewrite Hwant. simpl. destruct (_ || _) eqn:E.
    + eexists _, _. split; [done|]. split_and!; try done; simpl.
      * split; simpl; try done. congruence.
      * intros -> -> ?. simplify_eq. by rewrite Z.eqb_refl in E.
    + apply orb_false_iff in E as [E E3]. apply orb_false_iff in E as [E1 E2].
      apply negb_false_iff in E1, E3. apply Z.eqb_eq in E3. subst want.
      eexists _, _. split; [done|]. split_and!; try done; simpl.
      * split; try done; [congruence|]. intros _. split; [by apply Hw|done].
      * unfold arms. simpl. lia.
  - eexists _, _. split; [done|]. split_and!; try done; simpl.
    + split; simpl; try done. congruence.
    + unfold arms. simpl. lia.
Qed.

Lemma feed_guard s live d :
  config_ok (m_cfg s) -> guard_inv s live ->
  exists evs s', feed s d = Some (evs, s') /\ guard_inv s' (timer_after live evs) /\
    m_cfg s' = m_cfg s /\ (arms evs <= 1)%nat.
Proof.
  intros Hc [Hi Hm Hidle Hbusy]. unfold feed.
  destruct (feed_spec (m_reassembler s) d Hi) as (res & r & Hf & Hir & [Hmr _] & _ & Hcase).
  rewrite Hf. cbn [mbind option_bind]. set (s1 := set_reassembler s r).
  set (delivered := if m_on_frame s1 then _ else _).
  assert (arms delivered = 0%nat) as Ha by (unfold delivered; case_match; [apply arms_frames|done]).
  assert (forall l, timer_after l delivered = l) as Ht.
  { intros l. unfold delivered. case_match; [apply timer_after_frames|done]. }
  case_decide as He.
  - eexists _, _. split; [done|]. rewrite !timer_after_app, Ht, !arms_app, Ha. split_and!; try done.
    + assert (pending r = [] /\ m_state r = reading_header) as [Hp Hst].
      { destruct Hcase as [ (_ & -> & ->)|[_ Hr] ]; [done|].
        apply stream_reads_error_rest in Hr as Hp; [|done]. split; [done|]. unfold pending in Hp.
        destruct (m_state r); [done|]. apply (f_equal length) in Hp.
        by rewrite length_app, length_header_layout in Hp. }
      assert (frame_in_progress r = false) as Hno.
      { unfold frame_in_progress. rewrite Hst, live_bytes_remaining by apply Hir.
        unfold pending in Hp. rewrite Hst in Hp. by rewrite Hp. }
      split; simpl; try done; [congruence| |congruence].
      intros _. by destruct (m_on_protocol_close s).
    + unfold arms. simpl. destruct (m_on_protocol_close s); simpl; lia.
  - destruct (reframe_timer_spec s1 (frame_in_progress (m_reassembler s))
      (negb (bool_decide (fr_frames res = []))) live) as (evs & s' & -> & Hg & Hcfg & _ & _ & _ & Hle & _);
      [done|done|simpl; congruence|intros Hw; by apply Hbusy|].
    cbn [mbind option_bind]. eexists _, _. split; [done|]. rewrite timer_after_app, Ht, arms_app, Ha.
    split_and!; done.
Qed.

Lemma feeds_guard s live chunks :
  config_ok (m_cfg s) -> guard_inv s live ->
  exists evs s', feeds s chunks = Some (evs, s') /\ guard_inv s' (timer_after live evs) /\
    m_cfg s' = m_cfg s.
Proof.
  revert s live. induction chunks as [|c chunks IH]; intros s live Hc Hg; cbn [feeds].
  { eexists _, _. split_and!; done. }
  destruct (feed_guard s live c Hc Hg) as (evs & s1 & -> & Hg1 & Hc1 & _). cbn [mbind option_bind].
  rewrite <- Hc1 in Hc. destruct (IH s1 _ Hc Hg1) as (evs' & s2 & -> & Hg2 & Hc2).
  cbn [mbind option_bind]. eexists _, _. split; [done|]. rewrite timer_after_app, <- Hc1. done.
Qed.

(** A guard with both callbacks set, before any input. *)
Definition fresh_guard (cfg : stream_inbound_config) : stream_inbound :=
  on_protocol_close (on_frame (stream_inbound_new cfg)).

Lemma fresh_guard_inv cfg : guard_inv (fresh_guard cfg) None.
Proof. by split. Qed.

(** ** Slow senders *)

Definition timer_only (ev : inbound_event) : Prop :=
  match ev with OnFrame _ | OnProtocolClose _ => False | _ => True end.

(** How many more times the timer may be armed before something is delivered. *)
Definition arms_left (s : stream_inbound) : nat :=
  if frame_in_progress (m_reassembler s) then
    match m_state (m_reassembler s) with reading_header => 1 | reading_payload => 0 end
  else 2.

Lemma feed_stalled s live d evs s' :
  config_ok (m_cfg s) -> guard_inv s live -> m_on_frame s = true -> m_on_protocol_close s = true ->
  feed s d = Some (evs, s') -> Forall timer_only evs ->
  (arms evs + arms_left s' <= arms_left s)%nat /\ m_on_frame s' = true /\ m_on_protocol_close s' = true.
Proof.
  intros Hc [Hi Hm Hidle Hbusy] Hof Hoc Hfeed Hev. unfold feed in Hfeed.
  destruct (feed_spec (m_reassembler s) d Hi) as (res & r & Hf & Hir & [Hmr _] & _ & Hcase).
  rewrite Hf in Hfeed. cbn [mbind option_bind] in Hfeed. cbn [set_reassembler m_on_frame] in Hfeed.
  rewrite Hof in Hfeed. case_decide as He.
  { unfold cancel_timer in Hfeed. injection Hfeed as <- _. simpl in Hev.
    rewrite Hoc, Forall_app, !Forall_cons in Hev. by destruct Hev as (_ & _ & ? & _). }
  destruct (reframe_timer_spec (set_reassembler s r) (frame_in_progress (m_reassembler s))
      (negb (bool_decide (fr_frames res = []))) live) as
      (evs1 & s1 & Hre & Hg & _ & Hr1 & Hof1 & Hoc1 & Hle & H0);
      [done|done|simpl; congruence|intros Hw; by apply Hbusy|].
  unfold set_reassembler in Hre, Hfeed. rewrite Hre in Hfeed. cbn [mbind option_bind] in Hfeed. simplify_eq.
  apply Forall_app in Hev as [Hfr Hev]. destruct (fr_frames res) as [|f fs] eqn:Hfs.
  2: { by apply Forall_cons in Hfr as [? _]. }
  simpl in Hof1, Hoc1. split_and!; [|congruence..].
  destruct Hcase as [ (_ & -> & _)|[_ Hr] ]; [done|]. rewrite He in Hr.
  apply stream_reads_stuck in Hr; [|done..].
  cbn [map app]. unfold arms_left. rewrite Hr1. cbn [m_reassembler set_reassembler].
  destruct (frame_in_progress (m_reassembler s)) eqn:Hp.
  - assert (frame_in_progress r = true) as ->.
    { revert Hp. unfold frame_in_progress. rewrite !live_bytes_remaining by (apply Hi || apply Hir).
      destruct (m_state r) eqn:E, (m_state (m_reassembler s)) eqn:E'; try done.
      - unfold pending in Hr. rewrite E, E' in Hr. rewrite Hr, zlen_app. simpl.
        destruct (Z.eqb_spec (zlen (remaining (m_reassembler s))) 0); [done|]. simpl. intros _.
        pose proof (zlen_nonneg d). pose proof (zlen_nonneg (remaining (m_reassembler s))).
        destruct (Z.eqb_spec (zlen (remaining (m_reassembler s)) + zlen d) 0); [lia|done].
      - destruct (feed_keeps_header _ _ _ _ Hi E' Hf He Hfs). congruence. }
    destruct Hbusy as [_ Hdl]; [done|]. specialize (H0 eq_refl eq_refl).
    destruct (m_state (m_reassembler s)) eqn:E'.
    + destruct (m_state r) eqn:E; [|lia]. rewrite H0; [lia|].
      change (m_armed_deadline (set_reassembler s r)) with (m_armed_deadline s).
      rewrite <- Hdl. unfold deadline_for_current_frame, pending_payload_len. simpl.
      by rewrite E, E'.
    + destruct (feed_keeps_header _ _ _ _ Hi E' Hf He Hfs) as [E Hh]. rewrite E, H0; [lia|].
      change (m_armed_deadline (set_reassembler s r)) with (m_armed_deadline s).
      rewrite <- Hdl. unfold deadline_for_current_frame, pending_payload_len. simpl.
      by rewrite E, E', Hh.
  - clear H0. destruct Hg as [_ _ Hidle' _]. rewrite Hr1 in Hidle'. cbn [m_reassembler set_reassembler] in Hidle'.
    destruct (frame_in_progress r) eqn:Hpr; [case_match; lia|].
    unfold reframe_timer in Hre. simpl in Hre. rewrite Hpr in Hre. simpl in Hre. simplify_eq.
    unfold arms. simpl. lia.
Qed.

Lemma feeds_stalled s live chunks evs s' :
  config_ok (m_cfg s) -> guard_inv s live -> m_on_frame s = true -> m_on_protocol_close s = true ->
  feeds s chunks = Some (evs, s') -> Forall timer_only evs -> (arms evs + arms_left s' <= arms_left s)%nat.
Proof.
  revert s live evs. induction chunks as [|c chunks IH]; intros s live evs Hc Hg Hf Hcl H Hev;
    cbn [feeds] in H.
  { simplify_eq. unfold arms. simpl. lia. }
  destruct (feed_guard s live c Hc Hg) as (evs1 & s1 & H1 & Hg1 & Hc1 & _). rewrite H1 in H.
  cbn [mbind option_bind] in H. destruct (feeds s1 chunks) as [ [evs2 s2]|] eqn:H2; [|done].
  cbn [mbind option_bind] in H. simplify_eq. apply Forall_app in Hev as [Hev1 Hev2].
  destruct (feed_stalled s live c evs1 s1) as (Hle & Hf1 & Hcl1); [done..|].
  rewrite <- Hc1 in Hc. specialize (IH s1 _ evs2 Hc Hg1 Hf1 Hcl1 H2 Hev2). rewrite arms_app. lia.
Qed.

(** ** Generations *)

Definition timer_op (ev : inbound_event) : bool :=
  match ev with TimerArm _ _ | TimerCancel => true | _ => false end.

Definition timer_ops (evs : list inbound_event) : Z := zlen (List.filter timer_op evs).

Lemma timer_ops_app a b : timer_ops (a ++ b) = timer_ops a + timer_ops b.
Proof. unfold timer_ops. by rewrite List.filter_app, zlen_app. Qed.

Lemma timer_ops_frames fs : timer_ops (map OnFrame fs) = 0.
Proof. induction fs; done. Qed.

Lemma feed_generation s d evs s' :
  feed s d = Some (evs, s') -> in_width 64 (m_timer_generation s) ->
  m_timer_generation s' = wrap 64 (m_timer_generation s + timer_ops evs) /\
  m_on_protocol_close s' = m_on_protocol_close s /\ m_on_frame s' = m_on_frame s.
Proof.
  intros H Hg. unfold feed in H. destruct (FrameReassembler.feed _ _) as [ [res r]|]; [|done].
  cbn [mbind option_bind] in H.
  set (delivered := if m_on_frame (set_reassembler s r) then _ else _) in H.
  assert (timer_ops delivered = 0) as Hd by (unfold delivered; destruct (m_on_frame _); [apply timer_ops_frames|done]).
  clearbody delivered. unfold cancel_timer in H. case_decide; simplify_eq.
  - rewrite !timer_ops_app, Hd. simpl. destruct (m_on_protocol_close s); done.
  - unfold reframe_timer in H. destruct (negb (frame_in_progress _)); simplify_eq/=.
    + by rewrite timer_ops_app, Hd.
    + destruct (deadline_for_current_frame _) as [want|]; simplify_eq/=.
      destruct (_ || _); simplify_eq/=; rewrite timer_ops_app, Hd; [done|].
      rewrite Z.add_0_r. by rewrite wrap_small.
Qed.

Lemma feeds_generation s chunks evs s' :
  feeds s chunks = Some (evs, s') -> in_width 64 (m_timer_generation s) ->
  m_timer_generation s' = wrap 64 (m_timer_generation s + timer_ops evs) /\
  m_on_protocol_close s' = m_on_protocol_close s /\ m_on_frame s' = m_on_frame s.
Proof.
  revert s evs. induction chunks as [|c chunks IH]; intros s evs H Hw; cbn [feeds] in H.
  { simplify_eq. change (timer_ops []) with 0. rewrite Z.add_0_r. by rewrite wrap_small. }
  destruct (feed s c) as [ [evs1 s1]|] eqn:H1; [|done]. cbn [mbind option_bind] in H.
  destruct (feeds s1 chunks) as [ [evs2 s2]|] eqn:H2; [|done]. cbn [mbind option_bind] in H. simplify_eq.
  apply feed_generation in H1 as (Hg & Hc & Hf); [|done].
  apply IH in H2 as (Hg2 & Hc2 & Hf2); [|rewrite Hg; by apply wrap_range].
  rewrite timer_ops_app, Hg2, Hg. split; [|split; congruence]. unfold wrap. rewrite Zplus_mod_idemp_l.
  f_equal. lia.
Qed.

(** ** Theorems *)

(** For every input, no deadline computation overflows, and after the input the
    timer is running exactly when a frame is in progress, under the current
    generation and with the deadline of that frame: the larger of the floor and the
    declared payload length over the minimal throughput. *)
Theorem no_progress_timer_covers_frames (cfg : stream_inbound_config) (chunks : list bytes) :
  config_ok cfg ->
  exists evs s',
    feeds (fresh_guard cfg) chunks = Some (evs, s') /\
    (frame_in_progress (m_reassembler s') = false -> timer_after None evs = None) /\
    (frame_in_progress (m_reassembler s') = true ->
       exists d, timer_after None evs = Some (m_timer_generation s', Z.quot d 1000000) /\
         d = match pending_payload_len (m_reassembler s') with
             | None => no_progress_floor cfg
             | Some n => Z.max (no_progress_floor cfg)
                           (if min_throughput_bytes_per_sec cfg =? 0 then 0
                            else n * 1000000000 / min_throughput_bytes_per_sec cfg)
             end).
Proof.
  intros Hc. destruct (feeds_guard (fresh_guard cfg) None chunks Hc (fresh_guard_inv cfg))
    as (evs & s' & -> & [Hi Hm Hidle Hbusy] & Hcfg). eexists _, _. split; [done|]. split; [done|].
  intros Hp. destruct (Hbusy Hp) as [-> Hd]. eexists. split; [done|].
  unfold deadline_for_current_frame, pending_payload_len in *. rewrite Hcfg in *.
  change (m_cfg (fresh_guard cfg)) with cfg in *.
  case_decide as Hs; [|by simplify_eq]. destruct Hi as [_ Hi]. destruct (Hi Hs) as [Hok Hle].
  rewrite payload_deadline_defined in Hd by (done || (rewrite <- Hm; split; [apply Hok|done])).
  by injection Hd.
Qed.

(** C26: a sender that dribbles bytes cannot keep a frame open: over any number of
    feeds that deliver no frame and raise no close, the deadline is armed at most
    twice (when the frame starts and when its length becomes known). *)
Theorem dribble_cannot_extend_deadline (cfg : stream_inbound_config)
    (before dribble : list bytes) (evs evs' : list inbound_event) (s s' : stream_inbound) :
  config_ok cfg ->
  feeds (fresh_guard cfg) before = Some (evs, s) ->
  feeds s dribble = Some (evs', s') -> Forall timer_only evs' ->
  (arms evs' <= 2)%nat /\
  (frame_in_progress (m_reassembler s) = true -> (arms evs' <= 1)%nat) /\
  (m_state (m_reassembler s) = reading_payload -> arms evs' = 0%nat).
Proof.
  intros Hc Hb Hd Hev.
  destruct (feeds_guard (fresh_guard cfg) None before Hc (fresh_guard_inv cfg))
    as (evs1 & s1 & Hb1 & Hg & Hcfg). rewrite Hb in Hb1. simplify_eq.
  assert (m_on_frame s1 = true /\ m_on_protocol_close s1 = true) as [Hf Hcl].
  { apply feeds_generation in Hb as (_ & ? & ?); [|by split]. done. }
  assert (config_ok (m_cfg s1)) as Hc1 by (by rewrite Hcfg).
  pose proof (feeds_stalled s1 _ dribble evs' s' Hc1 Hg Hf Hcl Hd Hev) as Hle.
  unfold arms_left in Hle. split_and!.
  - repeat case_match; lia.
  - intros Hp. rewrite Hp in Hle. repeat case_match; lia.
  - intros Hp. unfold frame_in_progress in Hle. rewrite Hp in Hle. simpl in Hle.
    repeat case_match; lia.
Qed.

(** An expiry closes the connection only for the wait in force while a frame
    is in progress: once a later feed has re-armed or cancelled the timer, or after a
    shutdown, the completion of the earlier wait does nothing. *)
Theorem stale_expiry_is_ignored (s s' : stream_inbound) (chunks : list bytes)
    (evs : list inbound_event) :
  in_width 64 (m_timer_generation s) -> m_on_protocol_close s = true ->
  feeds s chunks = Some (evs, s') -> timer_ops evs < 2 ^ 64 - 1 ->
  on_expiry s' (m_timer_generation s) false
  = (if decide (timer_ops evs = 0 /\ frame_in_progress (m_reassembler s') = true)
     then [OnProtocolClose cause_no_progress_timeout] else []) /\
  on_expiry (shutdown s').2 (m_timer_generation s) false = [].
Proof.
  intros Hw Hc Hf Hn. destruct (feeds_generation _ _ _ _ Hf Hw) as (Hg & Hc' & _).
  assert (0 <= timer_ops evs) by apply zlen_nonneg.
  unfold on_expiry, shutdown. simpl. rewrite Hc', Hc.
  assert (forall k, 0 <= k < 2 ^ 64 ->
    (m_timer_generation s =? wrap 64 (m_timer_generation s + k)) = (k =? 0)) as Hkey.
  { intros k Hk. unfold wrap, in_width in *. destruct (Z.eqb_spec k 0) as [->|].
    - rewrite Z.add_0_r, Z.mod_small by done. apply Z.eqb_refl.
    - apply Z.eqb_neq. intros E.
      destruct (decide (m_timer_generation s + k < 2 ^ 64)).
      + rewrite Z.mod_small in E by lia. lia.
      + rewrite (Z.mod_eq _ (2 ^ 64)) in E by lia.
        assert ((m_timer_generation s + k) / 2 ^ 64 = 1) as E' by
          (symmetry; apply (Z.div_unique_pos _ _ _ (m_timer_generation s + k - 2 ^ 64)); lia).
        rewrite E' in E. lia. }
  split.
  - rewrite Hg, Hkey by lia. destruct (Z.eqb_spec (timer_ops evs) 0); simpl.
    + destruct (frame_in_progress _); simpl;
        [rewrite decide_True by done | rewrite decide_False by (by intros [_ ?])]; done.
    + rewrite decide_False by tauto. done.
  - rewrite Hg. assert (wrap 64 (wrap 64 (m_timer_generation s + timer_ops evs) + 1)
                        = wrap 64 (m_timer_generation s + (timer_ops evs + 1))) as ->.
    { unfold wrap. rewrite Zplus_mod_idemp_l. f_equal. lia. }
    rewrite Hkey by lia. destruct (Z.eqb_spec (timer_ops evs + 1) 0); [lia|]. done.
Qed.

End Lemmas.

(** A configuration with a floor of one second and 1000 bytes per second, and the
    first 30 bytes of a frame of 4000 bytes. *)
Definition small_config : stream_inbound_config := StreamInboundConfig 1000000000 1000 5000 10000.

Definition slow_frame : bytes := header_layout (FrameHeader 1 0 0 0 4000) ++ zero_bytes 2.

Lemma small_config_ok : config_ok small_config.
Proof. unfold config_ok. simpl. lia. Qed.

Lemma no_progress_timer_covers_frames_witness :
  exists evs s',
    feeds (host := little) (fresh_guard small_config) [take 10 slow_frame; drop 10 slow_frame]
      = Some (evs, s') /\ timer_after None evs = Some (2, 4000).
Proof.
  destruct (no_progress_timer_covers_frames (host := little) small_config
    [take 10 slow_frame; drop 10 slow_frame] small_config_ok) as (evs & s' & H & _ & Hb).
  vm_compute in H. injection H as <- <-. eexists _, _. split; [vm_compute; reflexivity|].
  destruct Hb as (d & -> & ->); [vm_compute; reflexivity|]. vm_compute. reflexivity.
Defined.

Lemma dribble_cannot_extend_deadline_witness :
  exists evs s evs' s',
    feeds (host := little) (fresh_guard small_config) [take 10 slow_frame] = Some (evs, s) /\
    feeds (host := little) s [drop 10 slow_frame; zero_bytes 1; zero_bytes 1] = Some (evs', s') /\
    arms evs' = 1%nat /\ (arms evs' <= 2)%nat.
Proof.
  eexists _, _, _, _. split; [vm_compute; reflexivity|]. split; [vm_compute; reflexivity|].
  split; [reflexivity|].
  eapply (dribble_cannot_extend_deadline (host := little) small_config [take 10 slow_frame]
    [drop 10 slow_frame; zero_bytes 1; zero_bytes 1]); [exact small_config_ok|vm_compute; reflexivity
    |vm_compute; reflexivity|repeat constructor].
Defined.

Lemma stale_expiry_is_ignored_witness :
  exists evs s',
    feeds (host := little) (fresh_guard small_config) [take 10 slow_frame; drop 10 slow_frame] = Some (evs, s') /\
    on_expiry s' 0 false = [] .
Proof.
  eexists _, _. split; [vm_compute; reflexivity|].
  eapply (proj1 (stale_expiry_is_ignored (host := little) (fresh_guard small_config) _
    [take 10 slow_frame; drop 10 slow_frame] _ ltac:(split; reflexivity || lia) eq_refl
    ltac:(vm_compute; reflexivity) ltac:(vm_compute; reflexivity))).
Defined.
