(* ===== verification/CrcSerial.v ===== *)
(** * The self-resyncing CRC framing of a serial link

    Models [lib/plexus-stream/include/plexus/stream/crc_serial.h].  The contract is
    the relation [resync_reads] on the received byte string; the decorator refines
    it for every chunking. *)

From S2P Require Import Prelude ByteOrder Varint Cursor Frame FrameReassembler Hash.

(** ** Data and operations *)

Definition crc_trailer_size : nat := 4.

Definition crc_trailer (header payload : bytes) : bytes :=
  let crc := crc32c payload (crc32c header 0) in
  [byte.of_Z (Z.land crc 0xFF); byte.of_Z (Z.land (Z.shiftr crc 8) 0xFF);
   byte.of_Z (Z.land (Z.shiftr crc 16) 0xFF); byte.of_Z (Z.land (Z.shiftr crc 24) 0xFF)].

(** [None]: an index outside the span. *)
Definition read_trailer_le (t : bytes) : option Z :=
  t0 ← t !! 0%nat; t1 ← t !! 1%nat; t2 ← t !! 2%nat; t3 ← t !! 3%nat;
  Some (Z.lor (Z.lor (Z.lor ⟦t0⟧ (shl 32 ⟦t1⟧ 8)) (shl 32 ⟦t2⟧ 16)) (shl 32 ⟦t3⟧ 24)).

Inductive serial_event : Type :=
| OnMatch (frame : bytes)
| OnDrop (cause : close_cause).

(** Both callbacks are taken to be set. *)
Record crc_serial_inbound : Type := CrcSerialInbound {
  m_max_payload : Z;
  m_pos : nat;
  m_buf : bytes;
}.

Definition crc_serial_inbound_new (max_payload : Z) : crc_serial_inbound :=
  CrcSerialInbound max_payload 0 [].

Definition at_pos (s : crc_serial_inbound) (pos : nat) : crc_serial_inbound :=
  CrcSerialInbound (m_max_payload s) pos (m_buf s).

Inductive step : Type := step_consumed | step_dropped | step_need_more.

Definition resync (s : crc_serial_inbound) : step * list serial_event * crc_serial_inbound :=
  (step_dropped, [OnDrop cause_crc_mismatch], at_pos s (m_pos s + 1)).

Definition magic_at (buf : bytes) (i : nat) : bool :=
  bool_decide (buf !! i = Some magic_byte_0) && bool_decide (buf !! (i + 1)%nat = Some magic_byte_1).

(** The [while] of [align_to_magic]: the position it leaves and whether it
    returned from inside the loop. *)
Fixpoint align_loop (fuel : nat) (buf : bytes) (pos : nat) : option (bool * nat) :=
  match fuel with
  | O => None
  | S fuel =>
      if decide (pos + 1 < length buf)%nat then
        if magic_at buf pos then Some (true, pos) else align_loop fuel buf (pos + 1)
      else Some (false, pos)
  end.

Definition align_to_magic (s : crc_serial_inbound) : option (bool * crc_serial_inbound) :=
  '(found, pos) ← align_loop (S (length (m_buf s))) (m_buf s) (m_pos s);
  if found : bool then Some (true, at_pos s pos) else
  if decide (pos < length (m_buf s))%nat then
    if decide (m_buf s !! pos <> Some magic_byte_0) then Some (false, at_pos s (pos + 1))
    else Some (false, at_pos s pos)
  else Some (false, at_pos s pos).

Section Definitions.
Context {host : Host}.

(** [at] is the buffer from [m_pos] on. *)
Definition verify (s : crc_serial_inbound) (at_ : bytes) (payload_len frame_len : nat)
  : option (step * list serial_event * crc_serial_inbound) :=
  let header := take header_size at_ in
  let payload := take payload_len (drop header_size at_) in
  let trailer := take crc_trailer_size (drop frame_len at_) in
  t ← read_trailer_le trailer;
  if negb (t =? crc32c payload (crc32c header 0)) then Some (resync s) else
  Some (step_consumed, [OnMatch (take frame_len at_)],
        at_pos s (m_pos s + (frame_len + crc_trailer_size))).

Definition try_one_frame (s : crc_serial_inbound)
  : option (step * list serial_event * crc_serial_inbound) :=
  let at_ := drop (m_pos s) (m_buf s) in
  if decide (length at_ < header_size)%nat then Some (step_need_more, [], s) else
  match decode_header at_ with
  | None => Some (resync s)
  | Some hdr =>
      if fh_payload_len hdr >? m_max_payload s then Some (resync s) else
      let frame_len := wrap 64 (Z.of_nat header_size + fh_payload_len hdr) in
      if zlen at_ <? wrap 64 (frame_len + Z.of_nat crc_trailer_size)
      then Some (step_need_more, [], s)
      else verify s at_ (Z.to_nat (fh_payload_len hdr)) (Z.to_nat frame_len)
  end.

Fixpoint drain (fuel : nat) (s : crc_serial_inbound) : option (list serial_event * crc_serial_inbound) :=
  match fuel with
  | O => None
  | S fuel =>
      '(found, s) ← align_to_magic s;
      if negb found then Some ([], s) else
      '(st, evs, s) ← try_one_frame s;
      match st with
      | step_need_more => Some (evs, s)
      | _ => '(evs', s) ← drain fuel s; Some (evs ++ evs', s)
      end
  end.

Definition compact (s : crc_serial_inbound) : crc_serial_inbound :=
  if (m_pos s =? 0)%nat then s
  else CrcSerialInbound (m_max_payload s) 0 (drop (m_pos s) (m_buf s)).

Definition feed (s : crc_serial_inbound) (data : bytes)
  : option (list serial_event * crc_serial_inbound) :=
  let s := CrcSerialInbound (m_max_payload s) (m_pos s) (m_buf s ++ data) in
  '(evs, s) ← drain (S (length (m_buf s))) s;
  Some (evs, compact s).

Fixpoint feeds (s : crc_serial_inbound) (chunks : list bytes)
  : option (list serial_event * crc_serial_inbound) :=
  match chunks with
  | [] => Some ([], s)
  | c :: chunks =>
      '(evs, s) ← feed s c;
      '(evs', s) ← feeds s chunks;
      Some (evs ++ evs', s)
  end.

End Definitions.

(** ** The trailer *)

Lemma shl32_byte b k : 0 <= k <= 24 -> shl 32 ⟦b⟧ k = Z.shiftl ⟦b⟧ k.
Proof.
  intros Hk. apply wrap_small. rewrite Z.shiftl_mul_pow2 by lia. pose proof (byte.unsigned_range b).
  assert (2 ^ k <= 2 ^ 24) by (apply Z.pow_le_mono_r; lia). assert (0 < 2 ^ k) by (apply Z.pow_pos_nonneg; lia).
  split; [lia|]. change (2 ^ 32) with (2 ^ 8 * 2 ^ 24). nia.
Qed.

Lemma read_trailer_le_value a b c d :
  read_trailer_le [a; b; c; d]
  = Some (⟦a⟧ + 2 ^ 8 * ⟦b⟧ + 2 ^ 16 * ⟦c⟧ + 2 ^ 24 * ⟦d⟧).
Proof.
  unfold read_trailer_le. simpl. rewrite !shl32_byte by lia.
  pose proof (byte.unsigned_range a). pose proof (byte.unsigned_range b).
  pose proof (byte.unsigned_range c). pose proof (byte.unsigned_range d).
  rewrite (lor_shiftl_add _ _ 8) by (unfold in_width; lia).
  rewrite (lor_shiftl_add _ _ 16) by (unfold in_width; lia).
  rewrite (lor_shiftl_add _ _ 24) by (unfold in_width; lia). f_equal. lia.
Qed.

Lemma land_ff_shiftr x k : 0 <= k -> Z.land (Z.shiftr x k) 0xFF = x / 2 ^ k mod 256.
Proof. intros. change 0xFF with (Z.ones 8). by rewrite Z.land_ones, Z.shiftr_div_pow2 by lia. Qed.

Lemma length_crc_trailer h p : length (crc_trailer h p) = crc_trailer_size.
Proof. done. Qed.

(** The trailer of a frame reads back as its checksum, and nothing else does. *)
Lemma read_trailer_le_iff h p t :
  length t = crc_trailer_size ->
  (read_trailer_le t = Some (crc32c p (crc32c h 0)) <-> t = crc_trailer h p).
Proof.
  intros Hl. destruct t as [|a [|b [|c [|d [|]]]]]; try done. rewrite read_trailer_le_value.
  unfold crc_trailer. pose proof (crc32c_width p (crc32c h 0)) as Hw.
  set (v := crc32c p (crc32c h 0)) in *. clearbody v.
  rewrite <- (Z.shiftr_0_r v) at 2. rewrite !land_ff_shiftr by lia.
  pose proof (byte.unsigned_range a). pose proof (byte.unsigned_range b).
  pose proof (byte.unsigned_range c). pose proof (byte.unsigned_range d).
  unfold in_width in Hw. split.
  - intros E. injection E as <-.
    f_equal; [|f_equal; [|f_equal; [|f_equal] ] ]; apply byte.unsigned_inj; rewrite unsigned_of_Z_small.
    all: try (unfold in_width; change (2 ^ 8) with 256; apply Z.mod_pos_bound; lia).
    all: change (2 ^ 0) with 1; change (2 ^ 8) with 256; change (2 ^ 16) with 65536; change (2 ^ 24) with 16777216; dlia.
  - intros E. injection E as -> -> -> ->. f_equal. rewrite !unsigned_of_Z_small.
    all: try (unfold in_width; change (2 ^ 8) with 256; apply Z.mod_pos_bound; lia).
    change (2 ^ 0) with 1; change (2 ^ 8) with 256; change (2 ^ 16) with 65536; change (2 ^ 24) with 16777216.
    change (2 ^ 32) with 4294967296 in *. dlia.
Qed.

(** ** The contract: what the received bytes mean

    A reference scanner on the byte string, without positions or buffers: [scan1]
    says what the bytes at the front call for, and [resync_reads max s evs rest]
    that scanning [s] raises [evs] and keeps [rest] for the bytes to come. *)
Inductive scan : Type :=
| Wait (rest : bytes)
| Advance (evs : list serial_event) (n : nat).

(** At an anchor. *)
Definition scan_frame {host : Host} (max : Z) (s : bytes) : scan :=
  match decode_header s with
  | None => Wait s
  | Some h =>
      let len := Z.to_nat (fh_payload_len h) in
      if decide (max < fh_payload_len h) then Advance [OnDrop cause_crc_mismatch] 1 else
      if decide (length s < header_size + len + crc_trailer_size)%nat then Wait s else
      if decide (take crc_trailer_size (drop (header_size + len) s)
                 = crc_trailer (take header_size s) (take len (drop header_size s)))
      then Advance [OnMatch (take (header_size + len) s)] (header_size + len + crc_trailer_size)
      else Advance [OnDrop cause_crc_mismatch] 1
  end.

Definition scan1 {host : Host} (max : Z) (s : bytes) : scan :=
  match s with
  | [] => Wait []
  | [b] => if decide (b = magic_byte_0) then Wait [b] else Wait []
  | b :: c :: _ =>
      if decide (b = magic_byte_0 /\ c = magic_byte_1) then scan_frame max s else Advance [] 1
  end.

Lemma scan1_anchor {host : Host} max s t :
  s = magic_byte_0 :: magic_byte_1 :: t -> scan1 max s = scan_frame max s.
Proof. intros ->. unfold scan1. by rewrite decide_True. Qed.

Inductive resync_reads {host : Host} (max : Z) : bytes -> list serial_event -> bytes -> Prop :=
| rr_wait s rest : scan1 max s = Wait rest -> resync_reads max s [] rest
| rr_advance s evs n evs' rest :
    scan1 max s = Advance evs n -> resync_reads max (drop n s) evs' rest ->
    resync_reads max s (evs ++ evs') rest.

Section Contract.
Context {host : Host}.

Lemma resync_reads_det max s e1 r1 e2 r2 :
  resync_reads max s e1 r1 -> resync_reads max s e2 r2 -> e1 = e2 /\ r1 = r2.
Proof.
  intros H1. revert e2 r2. induction H1 as [s rest H|s evs n evs' rest H Hr IH]; intros e2 r2 H2;
    destruct H2 as [? ? H'|? ? ? ? ? H' Hr']; rewrite H in H'; simplify_eq; [done|].
  by destruct (IH _ _ Hr') as [-> ->].
Qed.

Lemma decode_header_app s h d : decode_header s = Some h -> decode_header (s ++ d) = Some h.
Proof.
  intros H. apply decode_header_inv in H as [Hok [rest ->] ]. rewrite <- app_assoc.
  by apply decode_header_layout.
Qed.

Lemma decode_header_length s h : decode_header s = Some h -> (header_size <= length s)%nat.
Proof. unfold decode_header. case_decide; [done|]. lia. Qed.

(** What the scanner decides on a prefix does not change with the bytes behind it. *)
Lemma scan1_advance max s evs n d :
  scan1 max s = Advance evs n -> scan1 max (s ++ d) = Advance evs n /\ (0 < n <= length s)%nat.
Proof.
  destruct s as [|b [|c t] ]; unfold scan1; [done|by case_decide|].
  cbn [app]. change (b :: c :: t ++ d) with ((b :: c :: t) ++ d). set (s := b :: c :: t).
  assert (1 <= length s)%nat by (unfold s; simpl; lia).
  case_decide; [|intros; simplify_eq; split; [done|lia] ]. unfold scan_frame.
  destruct (decode_header s) as [h|] eqn:Hd; [|done]. rewrite (decode_header_app _ _ d Hd).
  set (len := Z.to_nat (fh_payload_len h)). apply decode_header_length in Hd as Hl. clearbody s.
  case_decide; [intros; simplify_eq; split; [done|lia] |].
  case_decide as Hs; [done|].
  rewrite (decide_False (P := (length (s ++ d) < header_size + len + crc_trailer_size)%nat))
    by (rewrite length_app; lia).
  assert (forall m k, (m + k <= length s)%nat -> take k (drop m (s ++ d)) = take k (drop m s)) as Hpre.
  { intros m k Hmk. rewrite drop_app_le by lia. apply take_app_le. rewrite length_drop. lia. }
  rewrite !Hpre by lia. rewrite !take_app_le by lia.
  unfold crc_trailer_size in *.
  case_decide; intros; simplify_eq; split; done || (unfold header_size in *; lia).
Qed.

Lemma scan1_wait max s rest :
  scan1 max s = Wait rest ->
  rest = s \/ (rest = [] /\ exists b, s = [b] /\ b <> magic_byte_0).
Proof.
  destruct s as [|b [|c t] ]; unfold scan1.
  - intros. simplify_eq. by left.
  - case_decide; intros; simplify_eq; [by left|right]. split; [done|]. by exists b.
  - case_decide; [|done]. unfold scan_frame. case_match; [|intros; simplify_eq; by left].
    repeat case_decide; intros; simplify_eq. by left.
Qed.

(** The scan of a stream is the scan of its parts. *)
Lemma resync_reads_app max s evs rest d evs' rest' :
  resync_reads max s evs rest -> resync_reads max (rest ++ d) evs' rest' ->
  resync_reads max (s ++ d) (evs ++ evs') rest'.
Proof.
  induction 1 as [s rest H|s evs n evs1 rest H Hr IH]; intros H'.
  - apply scan1_wait in H as [->|[-> (b & -> & Hb)] ]; [done|]. cbn [app] in *.
    destruct d as [|c d].
    + inversion H' as [? ? E|? ? ? ? ? E]; subst; simpl in E; simplify_eq. apply rr_wait.
      unfold scan1. by rewrite decide_False.
    + apply (rr_advance _ _ [] 1 evs'); [|done]. unfold scan1. by rewrite decide_False by (by intros [-> _]).
  - rewrite <- app_assoc. destruct (scan1_advance _ _ _ _ d H) as [Hs Hn].
    eapply rr_advance; [done|]. rewrite drop_app_le by lia. by apply IH.
Qed.

(** What is kept is shorter than one maximal frame with its trailer. *)
Lemma resync_reads_rest max s evs rest :
  0 <= max -> resync_reads max s evs rest ->
  zlen rest < Z.of_nat header_size + max + Z.of_nat crc_trailer_size.
Proof.
  intros Hmax. induction 1 as [s rest H|s evs n evs1 rest H Hr IH]; [|done].
  unfold zlen. destruct s as [|b [|c t] ]; unfold scan1 in H.
  - simplify_eq. unfold header_size. simpl. lia.
  - case_decide; simplify_eq; unfold header_size; simpl; lia.
  - case_decide as Hm; [|done]. destruct Hm as [-> ->]. unfold scan_frame in H.
    destruct (decode_header _) as [h|] eqn:Hd.
    + case_decide; [done|]. case_decide as Hl; [|by case_decide]. simplify_eq. lia.
    + simplify_eq. unfold crc_trailer_size.
      destruct (decide (length (magic_byte_0 :: magic_byte_1 :: t) < header_size)%nat) as [?|Hge]; [lia|].
      exfalso. by apply (decode_header_None (magic_byte_0 :: magic_byte_1 :: t)); [lia| |].
Qed.

#[local] Opaque header_layout crc_trailer.

Lemma header_layout_cons h : exists t, header_layout h = magic_byte_0 :: magic_byte_1 :: t.
Proof.
  pose proof (header_layout_magic h []) as H. rewrite app_nil_r in H.
  destruct (header_layout h) as [|b0 [|b1 t] ]; try done. injection H as -> ->. by eexists.
Qed.

(** A frame of admissible size with any four trailing bytes. *)
Lemma scan1_frame max h p tr t :
  frame_header_ok h -> fh_payload_len h <= max -> zlen p = fh_payload_len h ->
  length tr = crc_trailer_size ->
  scan1 max (header_layout h ++ p ++ tr ++ t)
  = (if decide (tr = crc_trailer (header_layout h) p)
     then Advance [OnMatch (header_layout h ++ p)] (header_size + length p + crc_trailer_size)
     else Advance [OnDrop cause_crc_mismatch] 1).
Proof.
  intros Hok Hmax Hp Htr.
  assert (Hd : decode_header (header_layout h ++ p ++ tr ++ t) = Some h)
    by (by apply decode_header_layout).
  set (s := header_layout h ++ p ++ tr ++ t) in *.
  assert (exists t', s = magic_byte_0 :: magic_byte_1 :: t') as [t' Hs].
  { destruct (header_layout_cons h) as [t' Ht]. unfold s. rewrite Ht. by eexists. }
  rewrite (scan1_anchor _ _ _ Hs). unfold scan_frame. rewrite Hd.
  rewrite <- Hp, zlen_to_nat. rewrite decide_False by lia.
  pose proof (length_header_layout h) as Hh.
  rewrite decide_False by (unfold s; rewrite !length_app; lia).
  assert (drop header_size s = p ++ tr ++ t) as E1 by (unfold s; by rewrite <- Hh, drop_app_length).
  assert (take header_size s = header_layout h) as E2 by (unfold s; by rewrite <- Hh, take_app_length).
  assert (drop (header_size + length p) s = tr ++ t) as E3
    by (by rewrite <- drop_drop, E1, drop_app_length).
  assert (take (header_size + length p) s = header_layout h ++ p) as E4.
  { unfold s. rewrite app_assoc, <- Hh, <- length_app. apply take_app_length. }
  rewrite E1, E2, E3, E4, <- Htr, !take_app_length. done.
Qed.

(** Bytes without an anchor are discarded in silence. *)
Lemma resync_reads_garbage max g s evs rest :
  Forall (fun b => b <> magic_byte_0) g -> resync_reads max s evs rest ->
  resync_reads max (g ++ s) evs rest.
Proof.
  induction 1 as [|b g Hb Hg IH]; [done|]. intros Hs. specialize (IH Hs). cbn [app].
  destruct (g ++ s) as [|c t] eqn:E.
  - inversion IH as [? ? E'|? ? ? ? ? E']; subst; simpl in E'; simplify_eq.
    apply rr_wait. unfold scan1. by rewrite decide_False.
  - apply (rr_advance _ _ [] 1 evs); [|done]. unfold scan1. by rewrite decide_False by (by intros [-> _]).
Qed.

End Contract.

(** ** The decorator refines the scanner *)

Section Refinement.
Context {host : Host}.

(** The bytes at and behind the position. *)
Definition ahead (s : crc_serial_inbound) : bytes := drop (m_pos s) (m_buf s).

Definition payload_limit_ok (max : Z) : Prop := 0 <= max < 2 ^ 64 - 32.

Lemma drop_2 (buf : bytes) pos b c :
  buf !! pos = Some b -> buf !! (pos + 1)%nat = Some c ->
  drop pos buf = b :: c :: drop (pos + 2) buf.
Proof.
  intros Hb Hc. rewrite (drop_S _ b pos) by done. rewrite (drop_S _ c (S pos)) by (by rewrite <- Nat.add_1_r).
  do 3 f_equal. lia.
Qed.

Lemma lookup_2 (buf : bytes) pos :
  (pos + 1 < length buf)%nat -> exists b c, buf !! pos = Some b /\ buf !! (pos + 1)%nat = Some c.
Proof.
  intros H. destruct (lookup_lt_is_Some_2 buf pos) as [b Hb]; [lia|].
  destruct (lookup_lt_is_Some_2 buf (pos + 1)) as [c Hc]; [lia|]. by exists b, c.
Qed.

Lemma magic_at_drop buf pos b c :
  buf !! pos = Some b -> buf !! (pos + 1)%nat = Some c ->
  magic_at buf pos = bool_decide (b = magic_byte_0 /\ c = magic_byte_1).
Proof.
  intros Hb Hc. unfold magic_at. rewrite Hb, Hc. rewrite bool_decide_and.
  f_equal; apply bool_decide_ext; naive_solver.
Qed.

Lemma align_loop_spec max fuel buf pos :
  (length buf - pos < fuel)%nat -> (pos <= length buf)%nat ->
  exists found p, align_loop fuel buf pos = Some (found, p) /\ (pos <= p <= length buf)%nat /\
    (forall evs rest, resync_reads max (drop p buf) evs rest -> resync_reads max (drop pos buf) evs rest) /\
    (if found : bool then magic_at buf p = true /\ (p + 1 < length buf)%nat else (length buf <= p + 1)%nat).
Proof.
  revert pos. induction fuel as [|fuel IH]; intros pos Hf Hp; [lia|]. cbn [align_loop].
  case_decide as Hlt.
  - destruct (lookup_2 buf pos Hlt) as (b & c & Hb & Hc).
    destruct (magic_at buf pos) eqn:Hm.
    + exists true, pos. split_and!; done || lia.
    + destruct (IH (pos + 1)%nat) as (found & p & -> & Hrange & Hk & Hfound); [lia..|].
      exists found, p. split_and!; try done || lia. intros evs rest H.
      apply (rr_advance _ _ [] 1 evs); [|rewrite drop_drop; by apply Hk].
      rewrite (drop_2 _ _ _ _ Hb Hc). unfold scan1.
      rewrite (magic_at_drop _ _ _ _ Hb Hc) in Hm. apply bool_decide_eq_false in Hm.
      by rewrite decide_False.
  - exists false, pos. split_and!; done || lia.
Qed.

Lemma align_to_magic_spec s :
  (m_pos s <= length (m_buf s))%nat ->
  exists found pos, align_to_magic s = Some (found, at_pos s pos) /\
    (m_pos s <= pos <= length (m_buf s))%nat /\
    (if found : bool then
       magic_at (m_buf s) pos = true /\ (pos + 1 < length (m_buf s))%nat /\
       (forall evs rest, resync_reads (m_max_payload s) (drop pos (m_buf s)) evs rest ->
                    resync_reads (m_max_payload s) (ahead s) evs rest)
     else resync_reads (m_max_payload s) (ahead s) [] (drop pos (m_buf s))).
Proof.
  intros Hp. unfold align_to_magic, ahead.
  destruct (align_loop_spec (m_max_payload s) (S (length (m_buf s))) (m_buf s) (m_pos s))
    as (found & p & -> & Hr & Hk & Hf); [lia..|]. cbn [mbind option_bind].
  destruct found; [exists true, p; split_and!; tauto || lia|].
  case_decide as Hlt.
  - destruct (lookup_lt_is_Some_2 (m_buf s) p) as [b Hb]; [done|].
    assert (drop p (m_buf s) = [b]) as Hd.
    { rewrite (drop_S _ b p) by done. f_equal. apply drop_ge. lia. }
    case_decide as Hm.
    + exists false, (p + 1)%nat. split_and!; try done || lia. apply Hk, rr_wait.
      rewrite Hd, (drop_ge _ (p + 1)) by lia. unfold scan1. rewrite decide_False; [done|]. congruence.
    + exists false, p. split_and!; try done || lia. apply Hk, rr_wait.
      rewrite Hd. unfold scan1. rewrite decide_True; [done|].
      congruence.
  - exists false, p. split_and!; try done || lia. apply Hk, rr_wait. by rewrite drop_ge by lia.
Qed.

(** At an anchor, [try_one_frame] does what the scanner calls for. *)
Lemma try_one_frame_spec s :
  payload_limit_ok (m_max_payload s) -> magic_at (m_buf s) (m_pos s) = true ->
  (m_pos s + 1 < length (m_buf s))%nat ->
  match scan1 (m_max_payload s) (ahead s) with
  | Wait rest => try_one_frame s = Some (step_need_more, [], s) /\ rest = ahead s
  | Advance evs n =>
      exists st, try_one_frame s = Some (st, evs, at_pos s (m_pos s + n)) /\ st <> step_need_more
  end.
Proof.
  intros Hmax Hm Hlt. unfold try_one_frame. fold (ahead s).
  destruct (lookup_2 _ _ Hlt) as (b & c & Hb & Hc).
  rewrite (magic_at_drop _ _ _ _ Hb Hc) in Hm. apply bool_decide_eq_true in Hm as [-> ->].
  assert (ahead s = magic_byte_0 :: magic_byte_1 :: drop (m_pos s + 2) (m_buf s)) as Ha
    by (by apply drop_2).
  rewrite (scan1_anchor _ _ _ Ha). unfold scan_frame.
  destruct (decode_header (ahead s)) as [h|] eqn:Hd.
  2: { case_decide as Hl; [done|]. exfalso.
       apply (decode_header_None (ahead s)); [lia|done|]. by rewrite Ha. }
  apply decode_header_length in Hd as Hl.
  rewrite (decide_False (P := (length (ahead s) < header_size)%nat)) by lia.
  destruct (decode_header_inv _ _ Hd) as [Hok _].
  assert (0 <= fh_payload_len h < 2 ^ 64) as Hlen by apply Hok.
  rewrite Z.gtb_ltb. destruct (Z.ltb_spec (m_max_payload s) (fh_payload_len h)).
  { rewrite decide_True by done. by eexists. }
  rewrite decide_False by lia. unfold payload_limit_ok in Hmax.
  rewrite (wrap_small 64 (Z.of_nat header_size + _)) by (unfold in_width, header_size; lia).
  rewrite wrap_small by (unfold in_width, header_size, crc_trailer_size; lia).
  assert (Z.to_nat (Z.of_nat header_size + fh_payload_len h)
          = header_size + Z.to_nat (fh_payload_len h))%nat as -> by lia.
  set (len := Z.to_nat (fh_payload_len h)).
  destruct (Z.ltb_spec (zlen (ahead s)) (Z.of_nat header_size + fh_payload_len h + Z.of_nat crc_trailer_size)).
  { rewrite decide_True by (unfold zlen in *; lia). done. }
  rewrite decide_False by (unfold zlen in *; lia). unfold verify.
  set (tr := take crc_trailer_size (drop (header_size + len) (ahead s))).
  assert (length tr = crc_trailer_size) as Htr.
  { unfold tr. rewrite length_take, length_drop. unfold zlen in *. lia. }
  pose proof (read_trailer_le_iff (take header_size (ahead s)) (take len (drop header_size (ahead s))) tr Htr) as Hiff.
  assert (is_Some (read_trailer_le tr)) as [v Hv].
  { by destruct tr as [|a [|b [|c [|d [|] ] ] ] ]. }
  rewrite Hv. cbn [mbind option_bind]. rewrite Hv in Hiff.
  destruct (Z.eqb_spec v (crc32c (take len (drop header_size (ahead s))) (crc32c (take header_size (ahead s)) 0))) as [->|Hne].
  - rewrite decide_True by (by apply Hiff). by eexists.
  - rewrite decide_False by (intros E; apply Hiff in E; congruence). by eexists.
Qed.

Lemma drain_spec fuel s :
  payload_limit_ok (m_max_payload s) -> (m_pos s <= length (m_buf s))%nat ->
  (length (ahead s) < fuel)%nat ->
  exists evs pos, drain fuel s = Some (evs, at_pos s pos) /\ (pos <= length (m_buf s))%nat /\
    resync_reads (m_max_payload s) (ahead s) evs (drop pos (m_buf s)).
Proof.
  revert s. induction fuel as [|fuel IH]; intros s Hmax Hp Hf; [lia|]. cbn [drain].
  destruct (align_to_magic_spec s Hp) as (found & pos & -> & Hrange & Hcase). cbn [mbind option_bind].
  destruct found; cbn [negb].
  2: { exists [], pos. split_and!; [done|lia|done]. }
  destruct Hcase as (Hm & Hlt & Hk). set (s1 := at_pos s pos) in *.
  pose proof (try_one_frame_spec s1 Hmax Hm Hlt) as Ht. change (m_max_payload s1) with (m_max_payload s) in Ht.
  change (ahead s1) with (drop pos (m_buf s)) in Ht.
  destruct (scan1 (m_max_payload s) (drop pos (m_buf s))) as [rest|evs n] eqn:Hs.
  - destruct Ht as [-> ->]. cbn [mbind option_bind]. exists [], pos. split_and!; [done|lia|].
    by apply Hk, rr_wait.
  - destruct Ht as (st & -> & Hst). cbn [mbind option_bind].
    destruct (scan1_advance _ _ _ _ [] Hs) as [_ Hn]. rewrite length_drop in Hn.
    destruct (IH (at_pos s1 (m_pos s1 + n))) as (evs' & pos' & Hd & Hp' & Hr).
    + done.
    + simpl. lia.
    + unfold ahead in *. simpl. rewrite length_drop in *. lia.
    + rewrite Hd. cbn [mbind option_bind]. exists (evs ++ evs'), pos'. split_and!; [by destruct st|done|].
      apply Hk. eapply rr_advance; [done|]. unfold ahead in Hr. simpl in Hr. by rewrite drop_drop.
Qed.

(** Between feeds the buffer starts at the position. *)
Definition serial_ready (max : Z) (s : crc_serial_inbound) : Prop :=
  m_max_payload s = max /\ m_pos s = 0%nat.

Lemma feed_serial max s d :
  payload_limit_ok max -> serial_ready max s ->
  exists evs s', feed s d = Some (evs, s') /\ serial_ready max s' /\
    resync_reads max (m_buf s ++ d) evs (m_buf s').
Proof.
  intros Hmax [Hm Hp]. unfold feed. cbn [m_buf].
  destruct (drain_spec (S (length (m_buf s ++ d))) (CrcSerialInbound (m_max_payload s) (m_pos s) (m_buf s ++ d)))
    as (evs & pos & -> & Hpos & Hr).
  - simpl. by rewrite Hm.
  - simpl. rewrite length_app. lia.
  - unfold ahead. simpl. rewrite length_drop. lia.
  - cbn [mbind option_bind]. eexists _, _. split; [done|]. unfold ahead in Hr. simpl in Hr.
    rewrite Hm, Hp, drop_0 in Hr. unfold compact, serial_ready. simpl.
    destruct (Nat.eqb_spec pos 0) as [->|]; simpl; done.
Qed.

Lemma feeds_serial max s chunks :
  payload_limit_ok max -> serial_ready max s ->
  exists evs s', feeds s chunks = Some (evs, s') /\ serial_ready max s' /\
    (resync_reads max (m_buf s) [] (m_buf s) ->
     resync_reads max (m_buf s ++ concat chunks) evs (m_buf s')).
Proof.
  intros Hmax. revert s. induction chunks as [|c chunks IH]; intros s Hs; cbn [feeds concat].
  { eexists _, _. split_and!; [done|done|]. by rewrite app_nil_r. }
  destruct (feed_serial max s c Hmax Hs) as (evs & s1 & -> & Hs1 & Hr1). cbn [mbind option_bind].
  destruct (IH s1 Hs1) as (evs' & s2 & -> & Hs2 & Hr2). cbn [mbind option_bind].
  eexists _, _. split_and!; [done|done|]. intros _. rewrite app_assoc.
  eapply resync_reads_app; [done|]. apply Hr2.
  clear -Hr1. induction Hr1 as [s0 rest H|]; [|done]. apply rr_wait.
  destruct (scan1_wait _ _ _ H) as [->|[-> _] ]; done.
Qed.

Lemma feeds_serial_new max chunks :
  payload_limit_ok max ->
  exists evs s', feeds (crc_serial_inbound_new max) chunks = Some (evs, s') /\
    resync_reads max (concat chunks) evs (m_buf s').
Proof.
  intros Hmax. destruct (feeds_serial max (crc_serial_inbound_new max) chunks Hmax)
    as (evs & s' & ? & _ & Hr); [done|]. exists evs, s'. split; [done|]. apply Hr. by apply rr_wait.
Qed.

(** ** Theorems *)

(** C19: for any received bytes in any chunks, the decorator terminates, raises
    exactly the events of the reference scanner on the whole byte string, and keeps
    less than one maximal frame with its trailer. *)
Theorem crc_serial_refines_scanner (max : Z) (chunks : list bytes) :
  payload_limit_ok max ->
  exists evs s',
    feeds (crc_serial_inbound_new max) chunks = Some (evs, s') /\
    resync_reads max (concat chunks) evs (m_buf s') /\
    (forall evs2 rest2, resync_reads max (concat chunks) evs2 rest2 -> evs2 = evs /\ rest2 = m_buf s') /\
    zlen (m_buf s') < Z.of_nat header_size + max + Z.of_nat crc_trailer_size.
Proof.
  intros Hmax. destruct (feeds_serial_new max chunks Hmax) as (evs & s' & ? & Hr).
  exists evs, s'. split_and!; [done|done| |].
  - intros evs2 rest2 H2. by apply (resync_reads_det max (concat chunks)).
  - eapply resync_reads_rest; [|done]. apply Hmax.
Qed.

(** What a sender puts on the line: frames with their trailers, each behind noise
    that holds no first anchor byte. *)
Definition on_line (x : bytes * (frame_header * bytes)) : bytes :=
  let h := with_payload_len x.2.1 (zlen x.2.2) in
  x.1 ++ header_layout h ++ x.2.2 ++ crc_trailer (header_layout h) x.2.2.

Definition quiet (g : bytes) : Prop := Forall (fun b => b <> magic_byte_0) g.

#[local] Opaque header_layout crc_trailer.

Lemma resync_reads_on_line max xs s evs rest :
  Forall (fun x => quiet x.1 /\ whole_frame max x.2) xs ->
  resync_reads max s evs rest ->
  resync_reads max (concat (map on_line xs) ++ s) (map (fun x => OnMatch (framed x.2)) xs ++ evs) rest.
Proof.
  intros Hxs Hs. induction Hxs as [|[g [h p] ] xs [Hg [Hok Hmax] ] _ IH]; [done|].
  cbn [map concat app]. unfold on_line at 1. cbn [fst snd] in *. rewrite <- !app_assoc.
  apply resync_reads_garbage; [done|].
  apply (rr_advance _ _ [_] (header_size + length p + crc_trailer_size)).
  - rewrite scan1_frame by done. by rewrite decide_True.
  - rewrite <- !drop_drop. rewrite <- (length_header_layout (with_payload_len h (zlen p))) at 1.
    rewrite !drop_app_length. rewrite <- (length_crc_trailer (header_layout (with_payload_len h (zlen p))) p).
    by rewrite drop_app_length.
Qed.

(** Valid frames separated by noise without an anchor byte are all delivered, in
    order and with no drop, whatever the chunking; and a frame whose payload has
    exactly one byte corrupted is never delivered: it raises the non-fatal drop after
    the frames before it. *)
Theorem serial_link_delivers_and_detects (max : Z) (xs : list (bytes * (frame_header * bytes)))
    (h : frame_header) (pre post : bytes) (b b' : byte) (tail_ : bytes) (chunks chunks' : list bytes) :
  payload_limit_ok max -> Forall (fun x => quiet x.1 /\ whole_frame max x.2) xs ->
  whole_frame max (h, pre ++ b :: post) -> b <> b' ->
  concat chunks = concat (map on_line xs) ->
  (let h := with_payload_len h (zlen (pre ++ b :: post)) in
   concat chunks' = concat (map on_line xs) ++ header_layout h ++ (pre ++ b' :: post) ++
                    crc_trailer (header_layout h) (pre ++ b :: post) ++ tail_) ->
  (exists s', feeds (crc_serial_inbound_new max) chunks
              = Some (map (fun x => OnMatch (framed x.2)) xs, s')) /\
  (exists evs s', feeds (crc_serial_inbound_new max) chunks'
              = Some (map (fun x => OnMatch (framed x.2)) xs ++ OnDrop cause_crc_mismatch :: evs, s')).
Proof.
  intros Hmax Hxs [Hok Hle] Hne Hc Hc'. cbn [fst snd] in *. split.
  - destruct (feeds_serial_new max chunks Hmax) as (evs & s' & -> & Hr). rewrite Hc in Hr.
    pose proof (resync_reads_on_line max xs [] [] [] Hxs ltac:(by apply rr_wait)) as Hr'.
    rewrite !app_nil_r in Hr'. destruct (resync_reads_det _ _ _ _ _ _ Hr Hr') as [-> _]. by eexists.
  - set (h1 := with_payload_len h (zlen (pre ++ b :: post))) in *. cbv zeta in Hc'.
    destruct (feeds_serial_new max chunks' Hmax) as (evs & s' & -> & Hr). rewrite Hc' in Hr.
    set (bad := header_layout h1 ++ _) in *.
    assert (scan1 max bad = Advance [OnDrop cause_crc_mismatch] 1) as Hbad.
    { unfold bad. rewrite scan1_frame; [|done|done| |done].
      2: { unfold h1, zlen. cbn [fh_payload_len with_payload_len]. rewrite !length_app. done. }
      rewrite decide_False; [done|]. intros E.
      apply read_trailer_le_iff in E; [|done].
      pose proof (proj2 (read_trailer_le_iff (header_layout h1) (pre ++ b :: post)
        (crc_trailer (header_layout h1) (pre ++ b :: post)) (length_crc_trailer _ _)) eq_refl) as E'.
      rewrite E' in E. injection E as E. by apply crc32c_byte_change in E. }
    destruct (drain_spec (S (length bad)) (CrcSerialInbound max 1 bad)) as (evs1 & pos & _ & _ & Hr1).
    + done.
    + simpl. unfold bad. rewrite length_app, length_header_layout. unfold header_size. lia.
    + unfold ahead. cbn [m_pos m_buf]. rewrite length_drop. lia.
    + pose proof (resync_reads_on_line max xs bad (OnDrop cause_crc_mismatch :: evs1) _ Hxs
        (rr_advance max bad [_] 1 evs1 _ Hbad Hr1)) as Hr'.
      destruct (resync_reads_det _ _ _ _ _ _ Hr Hr') as [-> _]. by eexists _, _.
Qed.

End Refinement.

Definition serial_header : frame_header := FrameHeader 1 0 0 0 0.

Lemma crc_serial_refines_scanner_witness :
  exists evs s',
    feeds (host := little) (crc_serial_inbound_new 16) [ [Byte.x00; Byte.x56]; [Byte.x50] ] = Some (evs, s') /\
    m_buf s' = [Byte.x56; Byte.x50].
Proof.
  destruct (crc_serial_refines_scanner (host := little) 16 [ [Byte.x00; Byte.x56]; [Byte.x50] ])
    as (evs & s' & H & _); [by vm_compute|].
  exists evs, s'. split; [exact H|]. vm_compute in H. by injection H as <- <-.
Defined.

Definition serial_sent : bytes * (frame_header * bytes) :=
  ([Byte.x00], (serial_header, [Byte.x01; Byte.x02])).

Lemma serial_link_delivers_and_detects_witness :
  exists s', feeds (host := little) (crc_serial_inbound_new 16) [on_line serial_sent]
             = Some ([OnMatch (framed serial_sent.2)], s').
Proof.
  apply (serial_link_delivers_and_detects (host := little) 16 [serial_sent]
    serial_header [] [] Byte.x01 Byte.x02 [] [on_line serial_sent]
    [on_line serial_sent ++
     header_layout (with_payload_len serial_header 1) ++ [Byte.x02] ++
     crc_trailer (header_layout (with_payload_len serial_header 1)) [Byte.x01] ]).
  - by vm_compute.
  - repeat constructor; by vm_compute.
  - split; [split_and!|]; by vm_compute.
  - discriminate.
  - reflexivity.
  - vm_compute. reflexivity.
Defined.
