(* ===== verification/ReorderBuffer.v ===== *)
(** * The receiver's reorder buffer

    Models [lib/plexus-datagram/include/plexus/datagram/detail/udp_reorder_buffer.h].

    A datagram carries the 16-bit residue of its sequence number.  The theorems
    number the datagrams with integers: number [n] travels as [wire_seq n], and a
    datagram is [near] the buffer when its number is within half the sequence space
    of the expected one, the condition under which serial-number arithmetic can
    tell old from new. *)

From S2P Require Import Prelude.

(** ** Data *)

Definition half_space : Z := 32768.
Definition default_window : nat := 512.

Inductive feed_outcome : Type := delivered | buffered | duplicate | out_of_window.

#[global] Instance feed_outcome_eq_dec : EqDecision feed_outcome.
Proof. solve_decision. Defined.

Record slot : Type := Slot { s_bytes : bytes; s_present : bool; s_fragmented : bool }.

Definition slot_empty : slot := Slot [] false false.

Record udp_reorder_buffer : Type := ReorderBuffer {
  m_window : nat;
  m_slots : list slot;
  m_base : nat;
  m_expected : Z;
}.

(** One call of the sink: sequence number, fragment bit, bytes. *)
Definition delivery : Type := Z * bool * bytes.

Definition udp_reorder_buffer_new (window : nat) (initial_seq : Z) : udp_reorder_buffer :=
  let w := if (window =? 0)%nat then default_window else window in
  ReorderBuffer w (replicate w slot_empty) 0 initial_seq.

(** ** Operations *)

(** The [while] of [drain_contiguous]; [None] is an index outside the slots or an
    exhausted bound. *)
Fixpoint drain_contiguous (fuel : nat) (r : udp_reorder_buffer)
  : option (list delivery * udp_reorder_buffer) :=
  match fuel with
  | O => None
  | S fuel =>
      s ← m_slots r !! m_base r;
      if s_present s then
        let slots := <[m_base r := Slot (s_bytes s) false (s_fragmented s)]> (m_slots r) in
        let r' := ReorderBuffer (m_window r) slots ((m_base r + 1) mod m_window r)%nat
                    (wrap 16 (m_expected r + 1)) in
        '(ds, r') ← drain_contiguous fuel r';
        Some ((m_expected r, s_fragmented s, s_bytes s) :: ds, r')
      else Some ([], r)
  end.

Definition feed (r : udp_reorder_buffer) (seq : Z) (fragmented : bool) (data : bytes)
  : option (feed_outcome * list delivery * udp_reorder_buffer) :=
  let adv := wrap 16 (seq - m_expected r) in
  if adv >=? half_space then Some (duplicate, [], r) else
  if adv >=? Z.of_nat (m_window r) then Some (out_of_window, [], r) else
  let i := ((m_base r + Z.to_nat adv) mod m_window r)%nat in
  s ← m_slots r !! i;
  let was_gap := negb (adv =? 0) in
  if s_present s then Some (if was_gap then buffered else duplicate, [], r) else
  let r := ReorderBuffer (m_window r) (<[i := Slot data true fragmented]> (m_slots r)) (m_base r)
             (m_expected r) in
  if negb (adv =? 0) then Some (buffered, [], r) else
  '(ds, r) ← drain_contiguous (S (m_window r)) r;
  Some (delivered, ds, r).

Definition cumulative (r : udp_reorder_buffer) : Z := wrap 16 (m_expected r - 1).

Definition expected (r : udp_reorder_buffer) : Z := m_expected r.

Definition buffered_at (r : udp_reorder_buffer) (hole : nat) : bool :=
  if decide (m_window r <= hole)%nat then false else
  match m_slots r !! ((m_base r + hole) mod m_window r)%nat with
  | Some s => s_present s
  | None => false
  end.

(** ** Numbering *)

Definition wire_seq (n : Z) : Z := wrap 16 n.

Definition near (e n : Z) : Prop := e - half_space <= n < e + half_space.

Lemma wire_seq_distance e n :
  near e n -> wrap 16 (wire_seq n - wire_seq e) = (if decide (e <= n) then n - e else 65536 + n - e).
Proof.
  unfold near, half_space, wire_seq, wrap. intros H. change (2 ^ 16) with 65536.
  rewrite <- Zminus_mod. case_decide; [rewrite Z.mod_small by lia; done|].
  rewrite <- (Z.mod_add _ 1) by lia. rewrite Z.mod_small by lia. lia.
Qed.

Lemma wire_seq_step e : wrap 16 (wire_seq e + 1) = wire_seq (e + 1).
Proof. unfold wire_seq, wrap. by rewrite Zplus_mod_idemp_l. Qed.

Lemma mod_succ_index b k w :
  (0 < w)%nat -> (((b + 1) mod w + k) mod w = (b + S k) mod w)%nat.
Proof. intros. rewrite Nat.Div0.add_mod_idemp_l. f_equal. lia. Qed.

Lemma ring_index_inj b i j w :
  (b < w)%nat -> (i < w)%nat -> (j < w)%nat -> ((b + i) mod w = (b + j) mod w)%nat -> i = j.
Proof.
  intros Hb Hi Hj H.
  assert (forall k, (k < w)%nat -> ((b + k) mod w = if decide (b + k < w) then b + k else b + k - w)%nat) as E.
  { intros k Hk. case_decide; [by apply Nat.mod_small|].
    replace (b + k)%nat with (b + k - w + 1 * w)%nat at 1 by lia.
    rewrite Nat.Div0.mod_add. apply Nat.mod_small. lia. }
  rewrite !E in H by done. repeat case_decide; lia.
Qed.

(** ** The invariant

    [holds src r e fed]: the buffer expects number [e], and of the numbers at or
    above [e] it holds exactly those in [fed], with the content [src] gives them. *)
Record holds (src : Z -> bool * bytes) (r : udp_reorder_buffer) (e : Z) (fed : gset Z) : Prop := Holds {
  h_window : (0 < m_window r)%nat /\ Z.of_nat (m_window r) <= half_space;
  h_slots : length (m_slots r) = m_window r;
  h_base : (m_base r < m_window r)%nat;
  h_expected : m_expected r = wire_seq e;
  h_content : forall k, (k < m_window r)%nat ->
    exists s, m_slots r !! ((m_base r + k) mod m_window r)%nat = Some s /\
      (s_present s = true <-> e + Z.of_nat k ∈ fed) /\
      (s_present s = true -> (s_fragmented s, s_bytes s) = src (e + Z.of_nat k));
  h_bound : forall n, n ∈ fed -> n < e + Z.of_nat (m_window r);
}.

(** The deliveries of the numbers from [e] up to [e + k]. *)
Definition deliveries (src : Z -> bool * bytes) (e : Z) (k : nat) : list delivery :=
  map (fun n => (wire_seq n, (src n).1, (src n).2)) (seqZ e (Z.of_nat k)).

Lemma deliveries_S src e k :
  deliveries src e (S k) = (wire_seq e, (src e).1, (src e).2) :: deliveries src (e + 1) k.
Proof.
  unfold deliveries. rewrite (seqZ_cons e (Z.of_nat (S k))) by lia. simpl. do 3 f_equal; lia.
Qed.

Lemma drain_step src r e fed s :
  holds src r e fed -> m_slots r !! m_base r = Some s -> s_present s = true ->
  holds src (ReorderBuffer (m_window r) (<[m_base r := Slot (s_bytes s) false (s_fragmented s)]> (m_slots r))
               ((m_base r + 1) mod m_window r) (wrap 16 (m_expected r + 1))) (e + 1) fed.
Proof.
  intros [ [Hw Hh] Hl Hb He Hc Hbd] Hs Hp. split; simpl; try done.
  - by rewrite length_insert.
  - apply Nat.mod_upper_bound. lia.
  - by rewrite He, wire_seq_step.
  - intros k Hk. rewrite mod_succ_index by done. destruct (decide (S k < m_window r)%nat) as [Hlt|Hge].
    + destruct (Hc (S k) Hlt) as (s' & Hs' & Hpres & Hcont). exists s'. rewrite list_lookup_insert_ne.
      2: { intros E. rewrite <- (Nat.add_0_r (m_base r)) in E at 1.
           rewrite <- (Nat.mod_small (m_base r + 0) (m_window r)) in E by lia.
           apply ring_index_inj in E; lia. }
      replace (e + 1 + Z.of_nat k) with (e + Z.of_nat (S k)) by lia. done.
    + assert (S k = m_window r) as Ek by lia. rewrite Ek.
      assert ((m_base r + m_window r) mod m_window r = m_base r)%nat as ->.
      { replace (m_base r + m_window r)%nat with (m_base r + 1 * m_window r)%nat by lia.
        rewrite Nat.Div0.mod_add. by apply Nat.mod_small. }
      eexists. rewrite list_lookup_insert_eq by lia. split_and!; [done| |done]. simpl. split; [done|].
      intros Hin. apply Hbd in Hin. lia.
  - intros n Hn. apply Hbd in Hn. lia.
Qed.

Lemma drain_contiguous_spec src fuel r e fed j :
  holds src r e fed -> (e + Z.of_nat j ∉ fed) -> (j < fuel)%nat ->
  exists k r', drain_contiguous fuel r = Some (deliveries src e k, r') /\ (k <= j)%nat /\
    holds src r' (e + Z.of_nat k) fed /\ (e + Z.of_nat k ∉ fed) /\
    (forall n, e <= n < e + Z.of_nat k -> n ∈ fed) /\ m_window r' = m_window r.
Proof.
  revert r e j. induction fuel as [|fuel IH]; intros r e j Hr Hj Hf; [lia|]. cbn [drain_contiguous].
  pose proof Hr as [ [Hw Hh] Hl Hb He Hc Hbd]. destruct (Hc 0%nat Hw) as (s & Hs & Hpres & Hcont).
  rewrite Nat.add_0_r, Nat.mod_small in Hs by done. rewrite Z.add_0_r in Hpres, Hcont. rewrite Hs.
  cbn [mbind option_bind]. destruct (s_present s) eqn:Hp.
  - assert (e ∈ fed) as Hin by (by apply Hpres).
    destruct j as [|j]; [by rewrite Z.add_0_r in Hj|].
    pose proof (drain_step src r e fed s Hr Hs Hp) as Hr'.
    destruct (IH _ _ j Hr') as (k & r' & -> & Hk & Hh' & Hnot & Hall & Hwin);
      [by replace (e + 1 + Z.of_nat j) with (e + Z.of_nat (S j)) by lia|lia|].
    cbn [mbind option_bind]. exists (S k), r'. rewrite deliveries_S, He, <- Hcont by done.
    replace (e + Z.of_nat (S k)) with (e + 1 + Z.of_nat k) by lia. split_and!; try done; [lia|].
    intros n Hn. destruct (decide (n = e)) as [->|]; [done|]. apply Hall. lia.
  - exists 0%nat, r. rewrite Z.add_0_r. split_and!; try done; [lia| |lia].
    intros Hin. apply Hpres in Hin. congruence.
Qed.

Lemma deliver_nothing src e : deliveries src e 0 = [].
Proof. done. Qed.

(** One [feed] of a near number, at the level of numbers. *)
Lemma reorder_feed_spec src r e fed n :
  holds src r e fed -> e ∉ fed -> near e n ->
  exists o k r', feed r (wire_seq n) (src n).1 (src n).2 = Some (o, deliveries src e k, r') /\
    let fed' := if decide (e <= n < e + Z.of_nat (m_window r)) then {[n]} ∪ fed else fed in
    let e' := e + Z.of_nat k in
    holds src r' e' fed' /\ (e' ∉ fed') /\ (forall m, e <= m < e' -> m ∈ fed') /\ m_window r' = m_window r /\
    o = (if decide (n < e) then duplicate else if decide (e + Z.of_nat (m_window r) <= n) then out_of_window
         else if decide (n = e) then delivered else buffered).
Proof.
  intros Hr Hnot Hn. pose proof Hr as [ [Hw Hh] Hl Hb He Hc Hbd]. unfold feed. rewrite He, wire_seq_distance by done.
  unfold near, half_space in *. case_decide as Hle.
  2: { rewrite Z.geb_leb. destruct (Z.leb_spec 32768 (65536 + n - e)); [|lia].
       exists duplicate, 0%nat, r. rewrite deliver_nothing, Z.add_0_r. split; [done|]. simpl.
       rewrite decide_False by lia. split_and!; try done; [lia|]. by rewrite decide_True by lia. }
  rewrite !Z.geb_leb. destruct (Z.leb_spec 32768 (n - e)); [lia|].
  destruct (Z.leb_spec (Z.of_nat (m_window r)) (n - e)).
  { exists out_of_window, 0%nat, r. rewrite deliver_nothing, Z.add_0_r. split; [done|]. simpl.
    rewrite decide_False by lia. split_and!; try done; [lia|]. rewrite decide_False by lia. by rewrite decide_True by lia. }
  set (a := Z.to_nat (n - e)). destruct (Hc a ltac:(lia)) as (s & Hs & Hpres & Hcont). rewrite Hs.
  cbn [mbind option_bind]. replace (e + Z.of_nat a) with n in * by lia. simpl.
  rewrite (decide_True (P := e <= n < e + Z.of_nat (m_window r))) by lia.
  rewrite (decide_False (P := n < e)), (decide_False (P := e + Z.of_nat (m_window r) <= n)) by lia.
  destruct (s_present s) eqn:Hp.
  { assert (n ∈ fed) by (by apply Hpres). assert (n <> e) by (by intros ->).
    exists buffered, 0%nat, r. rewrite deliver_nothing, Z.add_0_r.
    destruct (Z.eqb_spec (n - e) 0); [lia|]. split; [done|].
    replace ({[n]} ∪ fed) with fed by set_solver. rewrite decide_False by done. split_and!; done || lia. }
  set (i := ((m_base r + a) mod m_window r)%nat) in *.
  assert (i < m_window r)%nat by (apply Nat.mod_upper_bound; lia).
  assert (holds src (ReorderBuffer (m_window r) (<[i := Slot (src n).2 true (src n).1]> (m_slots r)) (m_base r)
                       (wire_seq e)) e ({[n]} ∪ fed)) as Hr1.
  { split; simpl; try done.
    - by rewrite length_insert.
    - intros k Hk. destruct (decide (k = a)) as [->|Hka].
      + fold i. rewrite list_lookup_insert_eq by lia. eexists. split; [done|]. simpl.
        replace (e + Z.of_nat a) with n by lia. split; [set_solver|]. intros _. by destruct (src n).
      + rewrite list_lookup_insert_ne.
        2: { unfold i. intros E. apply ring_index_inj in E; lia. }
        destruct (Hc k Hk) as (s' & ? & Hp' & ?). exists s'. split_and!; [done| |done]. rewrite Hp'.
        assert (e + Z.of_nat k <> n) by lia. set_solver.
    - intros m Hm. apply elem_of_union in Hm as [Hm|Hm]; [apply elem_of_singleton in Hm; lia|by apply Hbd]. }
  destruct (Z.eqb_spec (n - e) 0) as [Hz|Hz]; simpl.
  - assert (n = e) as -> by lia. rewrite decide_True by done.
    destruct (drain_contiguous_spec src (S (m_window r)) _ e ({[e]} ∪ fed) (m_window r) Hr1)
      as (k & r' & Hd & Hk & Hh' & Hnot' & Hall & Hwin).
    { intros Hin. apply (h_bound _ _ _ _ Hr1) in Hin. simpl in Hin. lia. }
    { lia. }
    simpl in Hd. rewrite Hd. cbn [mbind option_bind]. exists delivered, k, r'. split_and!; try done.
  - exists buffered, 0%nat. eexists. rewrite deliver_nothing, Z.add_0_r. split; [done|].
    rewrite decide_False by lia. split_and!; try done; [|lia].
    assert (n <> e) by lia. set_solver.
Qed.

Lemma length_deliveries src e k : zlen (deliveries src e k) = Z.of_nat k.
Proof. unfold deliveries, zlen. rewrite length_map, length_seqZ. lia. Qed.

Lemma deliveries_app src e j k :
  deliveries src e j ++ deliveries src (e + Z.of_nat j) k = deliveries src e (j + k).
Proof.
  unfold deliveries. rewrite <- map_app, Nat2Z.inj_add. by rewrite <- seqZ_app by lia.
Qed.

Lemma buffered_at_spec src r e fed k :
  holds src r e fed -> buffered_at r k = bool_decide (e + Z.of_nat k ∈ fed).
Proof.
  intros [ [Hw Hh] Hl Hb He Hc Hbd]. unfold buffered_at. case_decide as Hk.
  - symmetry. apply bool_decide_eq_false. intros Hin. apply Hbd in Hin. lia.
  - destruct (Hc k) as (s & -> & Hp & _); [lia|]. destruct (s_present s).
    + symmetry. by apply bool_decide_eq_true, Hp.
    + symmetry. apply bool_decide_eq_false. intros Hin. by apply Hp in Hin.
Qed.

Lemma cumulative_spec src r e fed : holds src r e fed -> cumulative r = wire_seq (e - 1).
Proof.
  intros [_ _ _ He _ _]. unfold cumulative. rewrite He. unfold wire_seq, wrap.
  by rewrite Zminus_mod_idemp_l.
Qed.

Lemma holds_new src window e :
  Z.of_nat window <= half_space -> holds src (udp_reorder_buffer_new window (wire_seq e)) e ∅.
Proof.
  intros Hw. unfold udp_reorder_buffer_new. set (w := if (window =? 0)%nat then _ else _).
  assert ((0 < w)%nat /\ Z.of_nat w <= half_space) as [H0 Hh].
  { unfold w. destruct (Nat.eqb_spec window 0); [unfold default_window, half_space|]; lia. }
  split; simpl; try done.
  - by rewrite length_replicate.
  - intros k Hk. exists slot_empty. split.
    + rewrite Nat.mod_small by done. by apply lookup_replicate_2.
    + simpl. split; [|done]. split; [done|]. intros. by apply not_elem_of_empty in H.
Qed.

(** ** Runs of the receiver

    [receives src window e0 r e fed ds]: a buffer created to expect [e0] has been fed
    near numbers in any order, with any repetitions; it now expects [e], has accepted
    the numbers [fed] and has made the deliveries [ds]. *)
Inductive receives (src : Z -> bool * bytes) (window : nat) (e0 : Z)
  : udp_reorder_buffer -> Z -> gset Z -> list delivery -> Prop :=
| receives_new : receives src window e0 (udp_reorder_buffer_new window (wire_seq e0)) e0 ∅ []
| receives_feed r e fed ds n o ds' r' :
    receives src window e0 r e fed ds -> near e n ->
    feed r (wire_seq n) (src n).1 (src n).2 = Some (o, ds', r') ->
    receives src window e0 r' (e + zlen ds')
      (if decide (e <= n < e + Z.of_nat (m_window r)) then {[n]} ∪ fed else fed) (ds ++ ds').

Lemma receives_inv src window e0 r e fed ds :
  Z.of_nat window <= half_space -> receives src window e0 r e fed ds ->
  holds src r e fed /\ e0 <= e /\ (e ∉ fed) /\ (forall n, e0 <= n < e -> n ∈ fed) /\
  ds = deliveries src e0 (Z.to_nat (e - e0)).
Proof.
  intros Hw. induction 1 as [|r e fed ds n o ds' r' H IH Hn Hf].
  - split_and!; [by apply holds_new|lia|set_solver|lia|]. by rewrite Z.sub_diag.
  - destruct IH as (Hh & He & Hnot & Hall & ->).
    destruct (reorder_feed_spec src r e fed n Hh Hnot Hn) as (o1 & k & r1 & Hf1 & Hh1 & Hnot1 & Hall1 & _).
    rewrite Hf in Hf1. simplify_eq. rewrite length_deliveries. split_and!; try done; [lia| |].
    + intros m Hm. destruct (decide (m < e)); [|apply Hall1; lia].
      assert (m ∈ fed) by (apply Hall; lia). case_decide; set_solver.
    + replace e with (e0 + Z.of_nat (Z.to_nat (e - e0))) at 2 by lia. rewrite deliveries_app. f_equal. lia.
Qed.

(** Whatever the order, loss and duplication in which near datagrams reach the
    buffer, and across any number of wrap-arounds of the 16-bit sequence, the sink
    receives the datagrams from the initial number on in publish order, each exactly
    once, up to the first number not yet received; the held datagrams and the
    cumulative edge reported to the sender are exact; and every feed returns. *)
Theorem reorder_delivers_in_order (src : Z -> bool * bytes) (window : nat) (e0 : Z)
    (r : udp_reorder_buffer) (e : Z) (fed : gset Z) (ds : list delivery) :
  Z.of_nat window <= half_space -> receives src window e0 r e fed ds ->
  ds = deliveries src e0 (Z.to_nat (e - e0)) /\ e0 <= e /\
  (e ∉ fed) /\ (forall n, e0 <= n < e -> n ∈ fed) /\
  cumulative r = wire_seq (e - 1) /\
  (forall k, buffered_at r k = bool_decide (e + Z.of_nat k ∈ fed)) /\
  (forall n, near e n -> is_Some (feed r (wire_seq n) (src n).1 (src n).2)).
Proof.
  intros Hw H. destruct (receives_inv _ _ _ _ _ _ _ Hw H) as (Hh & He & Hnot & Hall & Hds).
  split_and!; try done.
  - by eapply cumulative_spec.
  - intros k. by eapply buffered_at_spec.
  - intros n Hn. destruct (reorder_feed_spec src r e fed n Hh Hnot Hn) as (o & k & r' & -> & _). by eexists.
Qed.

(** The third datagram ahead of the second, across the wrap-around. *)
Lemma reorder_delivers_in_order_witness :
  let src := fun n : Z => (false, [byte.of_Z n]) in
  exists r e fed ds,
    receives src 4 65535 r e fed ds /\ ds = deliveries src 65535 3 /\ cumulative r = 1.
Proof.
  set (src := fun n : Z => (false, [byte.of_Z n])).
  assert (receives src 4 65535 (ReorderBuffer 4
    [Slot [byte.of_Z 65535] false false; Slot [byte.of_Z 65536] false false;
     Slot [byte.of_Z 65537] false false; slot_empty] 3 2) 65538 {[65536; 65537; 65535]}
    [(65535, false, [byte.of_Z 65535]); (0, false, [byte.of_Z 65536]); (1, false, [byte.of_Z 65537])]) as H.
  { assert (near 65535 65535 /\ near 65535 65537 /\ near 65536 65536) as (H1 & H2 & H3)
      by (unfold near, half_space; lia).
    pose proof (receives_new src 4 65535) as R0.
    eapply (receives_feed _ _ _ _ _ _ _ 65535) in R0; [|done|vm_compute; reflexivity].
    eapply (receives_feed _ _ _ _ _ _ _ 65537) in R0; [|vm_compute; by split|vm_compute; reflexivity].
    eapply (receives_feed _ _ _ _ _ _ _ 65536) in R0; [|vm_compute; by split|vm_compute; reflexivity].
    exact R0. }
  eexists _, _, _, _. split; [exact H|].
  destruct (reorder_delivers_in_order src 4 65535 _ _ _ _ ltac:(by vm_compute) H) as (-> & _ & _ & _ & Hc & _).
  split; [reflexivity|]. rewrite Hc. reflexivity.
Defined.
