(* ===== verification/DedupWindow.v ===== *)
(** * The best-effort duplicate window and the retransmit-timeout estimator

    Models [lib/plexus-wire/include/plexus/wire/udp_dedup_window.h] and
    [lib/plexus-datagram/include/plexus/datagram/detail/udp_rto_estimator.h].
    Datagrams are numbered with integers as in [ReorderBuffer]. *)

From S2P Require Import Prelude ReorderBuffer.

Module Dedup.

(** ** [class udp_dedup_window] *)

Definition depth_max : Z := 32.

Inductive outcome : Type := fresh | duplicate | too_old.

#[global] Instance outcome_eq_dec : EqDecision outcome.
Proof. solve_decision. Defined.

Record udp_dedup_window : Type := DedupWindow {
  m_depth : Z;
  m_high_water : Z;
  m_bitmap : Z;
}.

Definition udp_dedup_window_new (depth : Z) : udp_dedup_window :=
  DedupWindow (Z.max 1 (Z.min depth depth_max)) 0 0.

Definition reset (w : udp_dedup_window) : udp_dedup_window := DedupWindow (m_depth w) 0 0.

Definition advance_to (w : udp_dedup_window) (seq adv : Z) : outcome * udp_dedup_window :=
  let bitmap := if adv >=? 64 then 0 else shl 64 (m_bitmap w) adv in
  (fresh, DedupWindow (m_depth w) seq (Z.lor bitmap 1)).

Definition admit_seq (w : udp_dedup_window) (seq : Z) : outcome * udp_dedup_window :=
  let adv := wrap 16 (seq - m_high_water w) in
  if negb (adv =? 0) && (adv <? half_space) then advance_to w seq adv else
  let delta := wrap 16 (m_high_water w - seq) in
  if delta >=? m_depth w then (too_old, w) else
  let mask := shl 64 1 delta in
  if negb (Z.land (m_bitmap w) mask =? 0) then (duplicate, w) else
  (fresh, DedupWindow (m_depth w) (m_high_water w) (Z.lor (m_bitmap w) mask)).

(** ** The invariant: the bitmap is the set of numbers seen below the high water *)

Record tracks (w : udp_dedup_window) (h : Z) (seen : gset Z) : Prop := Tracks {
  t_depth : 1 <= m_depth w <= depth_max;
  t_high : m_high_water w = wire_seq h;
  t_nonneg : 0 <= m_bitmap w;
  t_bits : forall d, 0 <= d < 64 -> Z.testbit (m_bitmap w) d = bool_decide (h - d ∈ seen);
  t_below : forall n, n ∈ seen -> n <= h;
}.

Lemma tracks_new depth : tracks (udp_dedup_window_new depth) 0 ∅.
Proof.
  split; simpl; try done.
  - unfold depth_max. lia.
  - intros d Hd. by rewrite Z.bits_0.
Qed.

Lemma mask_bit b d : 0 <= d < 64 -> negb (Z.land b (shl 64 1 d) =? 0) = Z.testbit b d.
Proof.
  intros Hd. assert (shl 64 1 d = 2 ^ d) as ->.
  { unfold shl. rewrite Z.shiftl_1_l. apply wrap_small. split; [apply Z.pow_nonneg; lia|].
    apply Z.pow_lt_mono_r; lia. }
  destruct (Z.testbit b d) eqn:E.
  - destruct (Z.eqb_spec (Z.land b (2 ^ d)) 0) as [H|]; [|done].
    apply (f_equal (fun z => Z.testbit z d)) in H. rewrite Z.land_spec, E, Z.pow2_bits_true, Z.bits_0 in H by lia. done.
  - destruct (Z.eqb_spec (Z.land b (2 ^ d)) 0) as [|H]; [done|]. exfalso. apply H.
    apply Z.bits_inj'. intros i Hi. rewrite Z.land_spec, Z.bits_0, Z.pow2_bits_eqb by lia.
    destruct (Z.eqb_spec d i) as [->|]; [by rewrite E|apply andb_false_r].
Qed.

Lemma shl_testbit b k i : 0 <= b -> 0 <= k < 64 -> 0 <= i < 64 ->
  Z.testbit (shl 64 b k) i = if decide (i < k) then false else Z.testbit b (i - k).
Proof.
  intros Hb Hk Hi. unfold shl, wrap. rewrite Z.mod_pow2_bits_low by lia.
  rewrite Z.shiftl_spec by lia. case_decide; [|done]. apply Z.testbit_neg_r. lia.
Qed.

Lemma wire_distance_back e n :
  near e n -> n <= e -> wrap 16 (wire_seq e - wire_seq n) = e - n.
Proof.
  unfold near, half_space, wire_seq, wrap. intros. change (2 ^ 16) with 65536.
  rewrite <- Zminus_mod. apply Z.mod_small. lia.
Qed.

(** One [admit] of a near number. *)
Lemma admit_spec w h seen n :
  tracks w h seen -> near h n ->
  let '(o, w') := admit_seq w (wire_seq n) in
  o = (if decide (m_depth w <= h - n) then too_old else if decide (n ∈ seen) then duplicate else fresh) /\
  tracks w' (if decide (h < n) then n else h) (if decide (o = fresh) then {[n]} ∪ seen else seen) /\
  m_depth w' = m_depth w.
Proof.
  intros [Hd Hh Hb Hbits Hbelow] Hn. unfold admit_seq. rewrite Hh, wire_seq_distance by done.
  unfold depth_max in *. destruct (decide (h < n)) as [Hlt|Hge].
  - rewrite (decide_True (P := h <= n)) by lia. unfold near, half_space in Hn.
    destruct (Z.eqb_spec (n - h) 0); [lia|]. destruct (Z.ltb_spec (n - h) half_space); [|unfold half_space in *; lia].
    cbn [negb andb advance_to fst snd]. rewrite decide_False by lia.
    assert (n ∉ seen) as Hnot by (intros Hin; apply Hbelow in Hin; lia).
    rewrite (decide_False (P := n ∈ seen)) by done. rewrite decide_True by done.
    split_and!; [done| |done]. split; simpl.
    + done.
    + done.
    + apply Z.lor_nonneg. split; [|lia]. rewrite Z.geb_leb. case_match; [lia|]. apply wrap_range. lia.
    + intros d Hd'. rewrite Z.lor_spec. rewrite Z.geb_leb.
      assert (Z.testbit 1 d = bool_decide (d = 0)) as ->.
      { change 1 with (2 ^ 0). rewrite Z.pow2_bits_eqb by lia.
        destruct (Z.eqb_spec 0 d); symmetry; [apply bool_decide_eq_true|apply bool_decide_eq_false]; lia. }
      assert (Z.testbit (if 64 <=? n - h then 0 else shl 64 (m_bitmap w) (n - h)) d
              = if decide (d < n - h) then false else bool_decide (n - d ∈ seen)) as ->.
      { destruct (Z.leb_spec 64 (n - h)).
        - rewrite Z.bits_0. by rewrite decide_True by lia.
        - rewrite shl_testbit by lia. case_decide; [done|]. rewrite Hbits by lia.
          by replace (h - (d - (n - h))) with (n - d) by lia. }
      case_decide.
      * rewrite orb_false_l. apply bool_decide_ext. split; [intros ->; set_solver by lia|].
        intros Hin. apply elem_of_union in Hin as [Hin|Hin]; [apply elem_of_singleton in Hin; lia|].
        apply Hbelow in Hin. lia.
      * assert (bool_decide (d = 0) = false) as -> by (apply bool_decide_eq_false; lia).
        rewrite orb_false_r. apply bool_decide_ext. assert (n - d <> n) by lia. set_solver.
    + intros m Hm. apply elem_of_union in Hm as [Hm|Hm]; [apply elem_of_singleton in Hm; lia|].
      apply Hbelow in Hm. lia.
  - assert (negb ((if decide (h <= n) then n - h else 65536 + n - h) =? 0) &&
            ((if decide (h <= n) then n - h else 65536 + n - h) <? half_space) = false) as ->.
    { unfold near, half_space in *. case_decide.
      - assert (n = h) as -> by lia. by rewrite Z.sub_diag.
      - apply andb_false_iff. right. apply Z.ltb_ge. lia. }
    rewrite wire_distance_back by (done || lia). rewrite Z.geb_leb.
    destruct (Z.leb_spec (m_depth w) (h - n)).
    { rewrite decide_True by lia. rewrite decide_False by done. split_and!; done. }
    rewrite decide_False by lia. rewrite mask_bit by lia. rewrite Hbits by lia.
    replace (h - (h - n)) with n by lia. destruct (decide (n ∈ seen)) as [Hin|Hnot].
    + rewrite bool_decide_eq_true_2 by done. rewrite decide_False by done. split_and!; done.
    + rewrite bool_decide_eq_false_2 by done. rewrite decide_True by done.
      split_and!; [done| |done]. split; simpl; try done.
      * apply Z.lor_nonneg. split; [done|]. apply wrap_range. lia.
      * intros d Hd'. rewrite Z.lor_spec, Hbits, shl_testbit by lia.
        assert ((if decide (d < h - n) then false else Z.testbit 1 (d - (h - n))) = bool_decide (h - d = n)) as ->.
        { case_decide; [symmetry; apply bool_decide_eq_false; lia|].
          change 1 with (2 ^ 0). rewrite Z.pow2_bits_eqb by lia.
          destruct (Z.eqb_spec 0 (d - (h - n))); symmetry; [apply bool_decide_eq_true|apply bool_decide_eq_false]; lia. }
        rewrite <- bool_decide_or. apply bool_decide_ext. set_solver.
      * intros m Hm. apply elem_of_union in Hm as [Hm|Hm]; [apply elem_of_singleton in Hm; lia|].
        by apply Hbelow.
Qed.

(** ** Runs

    [admitted depth w h accepted]: a fresh window has been offered near numbers in
    any order; [accepted] lists those it let through, the latest first. *)
Inductive admitted (depth : Z) : udp_dedup_window -> Z -> list Z -> Prop :=
| admitted_new : admitted depth (udp_dedup_window_new depth) 0 []
| admitted_next w h acc n o w' :
    admitted depth w h acc -> near h n -> admit_seq w (wire_seq n) = (o, w') ->
    admitted depth w' (Z.max h n) (if decide (o = fresh) then n :: acc else acc).

Lemma admitted_tracks depth w h acc :
  admitted depth w h acc ->
  tracks w h (list_to_set acc) /\ NoDup acc /\ m_depth w = Z.max 1 (Z.min depth depth_max).
Proof.
  induction 1 as [|w h acc n o w' H (Ht & Hnd & Hdep) Hn Ha].
  { split_and!; [apply tracks_new|constructor|done]. }
  pose proof (admit_spec w h _ n Ht Hn) as Hs. rewrite Ha in Hs. destruct Hs as (Ho & Ht' & Hd').
  replace (Z.max h n) with (if decide (h < n) then n else h) by (case_decide; lia).
  revert Ht'. destruct (decide (o = fresh)) as [Hf|Hf]; intros Ht'; (split_and!; [done| |congruence]); [|done].
  constructor; [|done]. rewrite Hf in Ho. destruct (decide (m_depth w <= h - n)); [done|].
  destruct (decide (n ∈ list_to_set acc)) as [|Hin]; [done|]. by rewrite elem_of_list_to_set in Hin.
Qed.

(** Over any arrival order of near datagrams, and across wrap-arounds of the
    16-bit sequence, the window lets no number through twice; a number behind the
    high water by less than the depth is let through exactly when it was not let
    through before; and one further behind is always refused as too old. *)
Theorem dedup_window_exact (depth : Z) (w : udp_dedup_window) (h : Z) (acc : list Z) (n : Z) :
  admitted depth w h acc -> near h n ->
  NoDup acc /\
  (admit_seq w (wire_seq n)).1
  = (if decide (Z.max 1 (Z.min depth depth_max) <= h - n) then too_old
     else if decide (n ∈ acc) then duplicate else fresh).
Proof.
  intros H Hn. destruct (admitted_tracks _ _ _ _ H) as (Ht & Hnd & <-). split; [done|].
  pose proof (admit_spec w h _ n Ht Hn) as Hs. destruct (admit_seq w (wire_seq n)) as [o w'].
  destruct Hs as [-> _]. simpl. case_decide; [done|].
  destruct (decide (n ∈ acc)) as [Hin|Hin]; [rewrite decide_True|rewrite decide_False]; try done;
    by rewrite elem_of_list_to_set.
Qed.

Lemma dedup_window_exact_witness :
  exists w, admitted 8 w 3 [2; 3] /\ (admit_seq w (wire_seq 2)).1 = duplicate /\
            (admit_seq w (wire_seq (-6))).1 = too_old.
Proof.
  assert (admitted 8 (DedupWindow 8 3 3) 3 [2; 3]) as H.
  { pose proof (admitted_new 8) as H.
    eapply (admitted_next _ _ _ _ 3) in H; [|vm_compute; by split|vm_compute; reflexivity].
    eapply (admitted_next _ _ _ _ 2) in H; [|vm_compute; by split|vm_compute; reflexivity].
    exact H. }
  eexists. split; [exact H|]. split.
  - destruct (dedup_window_exact 8 _ 3 [2; 3] 2 H ltac:(vm_compute; by split)) as [_ ->]. reflexivity.
  - destruct (dedup_window_exact 8 _ 3 [2; 3] (-6) H ltac:(vm_compute; by split)) as [_ ->]. reflexivity.
Defined.

End Dedup.

Module Rto.

(** ** [class udp_rto_estimator]

    Durations are millisecond counts; their division truncates. *)
Record udp_rto_estimator : Type := RtoEstimator {
  m_min : Z;
  m_max : Z;
  m_rto : Z;
  m_srtt : Z;
  m_rttvar : Z;
  m_seeded : bool;
}.

Definition udp_rto_estimator_new (initial min_rto max_rto : Z) : udp_rto_estimator :=
  RtoEstimator min_rto max_rto initial 0 0 false.

(** [std::clamp]. *)
Definition clamp (v lo hi : Z) : Z := if v <? lo then lo else if hi <? v then hi else v.

Definition sample (e : udp_rto_estimator) (rtt : Z) : udp_rto_estimator :=
  let '(srtt, rttvar) :=
    if negb (m_seeded e) then (rtt, Z.quot rtt 2) else
    let err := if m_srtt e >? rtt then m_srtt e - rtt else rtt - m_srtt e in
    (Z.quot (m_srtt e * 7 + rtt) 8, Z.quot (m_rttvar e * 3 + err) 4) in
  RtoEstimator (m_min e) (m_max e) (clamp (srtt + rttvar * 4) (m_min e) (m_max e)) srtt rttvar true.

Definition rto (e : udp_rto_estimator) : Z := m_rto e.

Fixpoint backoff_loop (retransmits : nat) (m_max r : Z) : Z :=
  match retransmits with
  | O => r
  | S k => backoff_loop k m_max (Z.min (r * 2) m_max)
  end.

Definition backed_off (e : udp_rto_estimator) (retransmits : nat) : Z :=
  backoff_loop retransmits (m_max e) (m_rto e).

Lemma backoff_closed k mx r : 0 <= r <= mx -> backoff_loop k mx r = Z.min (r * 2 ^ Z.of_nat k) mx.
Proof.
  revert r. induction k as [|k IH]; intros r Hr; cbn [backoff_loop].
  { change (2 ^ Z.of_nat 0) with 1. lia. }
  rewrite IH by lia. rewrite Nat2Z.inj_succ, Z.pow_succ_r by lia.
  assert (1 <= 2 ^ Z.of_nat k) by (apply (Z.pow_le_mono_r 2 0); lia). nia.
Qed.

(** The estimate stays inside the range of the samples. *)
Definition est_ok (lo hi : Z) (e : udp_rto_estimator) : Prop :=
  0 <= m_min e <= m_max e /\ 0 <= m_rto e <= m_max e /\
  (m_seeded e = true -> m_min e <= m_rto e /\ lo <= m_srtt e <= hi /\ 0 <= m_rttvar e <= hi).

Lemma sample_ok lo hi e rtt :
  0 <= lo <= rtt -> rtt <= hi -> est_ok lo hi e ->
  est_ok lo hi (sample e rtt) /\ m_min (sample e rtt) = m_min e /\ m_max (sample e rtt) = m_max e.
Proof.
  intros Hlo Hhi (Hm & Hr & Hs). unfold sample, est_ok.
  assert (forall v, m_min e <= clamp v (m_min e) (m_max e) <= m_max e) as Hc.
  { intros v. unfold clamp. destruct (Z.ltb_spec v (m_min e)); [lia|]. destruct (Z.ltb_spec (m_max e) v); lia. }
  destruct (m_seeded e); simpl.
  - destruct Hs as (_ & Hsr & Hv); [done|]. pose proof (Hc (Z.quot (m_srtt e * 7 + rtt) 8 +
      Z.quot (m_rttvar e * 3 + (if m_srtt e >? rtt then m_srtt e - rtt else rtt - m_srtt e)) 4 * 4)).
    assert (0 <= (if m_srtt e >? rtt then m_srtt e - rtt else rtt - m_srtt e) <= hi).
    { rewrite Z.gtb_ltb. destruct (Z.ltb_spec rtt (m_srtt e)); lia. }
    rewrite !Z.quot_div_nonneg in * by lia. split_and!; try done; try lia; intros _; split_and!; try lia; dlia.
  - pose proof (Hc (rtt + Z.quot rtt 2 * 4)). rewrite !Z.quot_div_nonneg in * by lia.
    split_and!; try done; try lia; intros _; split_and!; try lia; dlia.
Qed.

(** After any samples drawn from a range, the smoothed round trip stays in that
    range and the timeout between the configured bounds; and the timeout of a segment
    retransmitted [k] times is the base timeout doubled [k] times, never above the
    maximum nor below the base. *)
Theorem rto_bounded_backoff (initial min_rto max_rto lo hi : Z) (samples : list Z) (k : nat) :
  0 <= min_rto <= max_rto -> 0 <= initial <= max_rto -> 0 <= lo ->
  Forall (fun r => lo <= r <= hi) samples ->
  let e := foldl sample (udp_rto_estimator_new initial min_rto max_rto) samples in
  (samples <> [] -> min_rto <= rto e /\ lo <= m_srtt e <= hi) /\
  backed_off e k = Z.min (rto e * 2 ^ Z.of_nat k) max_rto /\
  rto e <= backed_off e k <= max_rto.
Proof.
  intros Hm Hi Hlo Hs. simpl.
  assert (forall e, est_ok lo hi e -> m_min e = min_rto -> m_max e = max_rto ->
    let e' := foldl sample e samples in
    est_ok lo hi e' /\ m_min e' = min_rto /\ m_max e' = max_rto /\ (samples <> [] -> m_seeded e' = true)) as Hrun.
  { induction Hs as [|r samples Hr Hs IH]; intros e He Hmin Hmax; [done|]. simpl.
    destruct (sample_ok lo hi e r) as (He' & E1 & E2); [lia..|done|].
    destruct (IH (sample e r) He') as (H1 & H2 & H3 & H4); [congruence..|]. split_and!; try done.
    intros _. destruct samples as [|r' samples]; [|by apply H4]. simpl. unfold sample.
    by destruct (m_seeded e). }
  destruct (Hrun (udp_rto_estimator_new initial min_rto max_rto)) as ((Hm' & Hr' & Hs') & E1 & E2 & Hseed);
    [split_and!; simpl; done || lia|done|done|].
  set (e := foldl sample _ samples) in *. unfold backed_off, rto. rewrite <- E2 in *. rewrite <- E1 in *.
  rewrite backoff_closed by lia. split_and!.
  - intros Hne. destruct (Hs' (Hseed Hne)) as (? & ? & ?). lia.
  - done.
  - assert (1 <= 2 ^ Z.of_nat k) by (apply (Z.pow_le_mono_r 2 0); lia). nia.
  - lia.
Qed.

Lemma rto_bounded_backoff_witness :
  let e := foldl sample (udp_rto_estimator_new 200 50 2000) [80; 120; 100] in
  backed_off e 6 = 2000 /\ 50 <= rto e.
Proof.
  destruct (rto_bounded_backoff 200 50 2000 80 120 [80; 120; 100] 6) as (H1 & H2 & _);
    [lia|lia|lia|repeat constructor; lia|].
  split; [rewrite H2; vm_compute; reflexivity|apply H1; done].
Defined.

End Rto.
