(* ===== verification/ReliableArq.v ===== *)
(** * The selective-repeat ARQ

    Models [lib/plexus-datagram/include/plexus/datagram/detail/udp_reliable_arq.h]
    over the reorder buffer, the timeout estimator and the ack record.  The calls
    made on the callbacks and the timers are outputs; the clock is an input in
    nanoseconds.  All callbacks are taken to be set. *)

From S2P Require Import Prelude ByteOrder Varint Cursor Frame UdpWire ReorderBuffer DedupWindow.

(** ** Data *)

Record udp_arq_config : Type := UdpArqConfig {
  cfg_window : nat;
  cfg_initial_rto : Z;
  cfg_min_rto : Z;
  cfg_max_rto : Z;
  cfg_max_retransmit : Z;
}.

Definition udp_arq_config_default : udp_arq_config := UdpArqConfig 512 200 50 2000 6.

Inductive submit_result : Type := admitted | window_full.

Inductive arq_event : Type :=
| Transmit (seq : Z) (data : bytes) (fragmented : bool)
| ArmTimer (seq : Z) (ms : Z)
| CancelTimer (slot : nat)
| SendAck (ack : udp_ack)
| Deliver (d : delivery)
| OnExhausted
| OnWindowAdvance.

Record arq_slot : Type := ArqSlot {
  a_bytes : bytes;
  a_sent_at : Z;
  a_retransmits : Z;
  a_outstanding : bool;
  a_retransmitted : bool;
  a_fragmented : bool;
}.

Definition arq_slot_empty : arq_slot := ArqSlot [] 0 0 false false false.

Record udp_reliable_arq : Type := UdpReliableArq {
  m_cfg : udp_arq_config;
  m_window : nat;
  m_slots : list arq_slot;
  m_recv : udp_reorder_buffer;
  m_next : Z;
  m_base : Z;
  m_rto : Rto.udp_rto_estimator;
  m_dead : bool;
}.

Definition udp_reliable_arq_new (cfg : udp_arq_config) (initial_seq : Z) : udp_reliable_arq :=
  let window := if (cfg_window cfg =? 0)%nat then 512%nat
                else Z.to_nat (Z.min (Z.of_nat (cfg_window cfg)) 32768) in
  UdpReliableArq cfg window (replicate window arq_slot_empty)
    (udp_reorder_buffer_new window initial_seq) initial_seq initial_seq
    (Rto.udp_rto_estimator_new (cfg_initial_rto cfg) (cfg_min_rto cfg) (cfg_max_rto cfg)) false.

(** ** State updates *)

Definition set_slots (a : udp_reliable_arq) (slots : list arq_slot) : udp_reliable_arq :=
  UdpReliableArq (m_cfg a) (m_window a) slots (m_recv a) (m_next a) (m_base a) (m_rto a) (m_dead a).

Definition set_recv (a : udp_reliable_arq) (recv : udp_reorder_buffer) : udp_reliable_arq :=
  UdpReliableArq (m_cfg a) (m_window a) (m_slots a) recv (m_next a) (m_base a) (m_rto a) (m_dead a).

Definition set_next (a : udp_reliable_arq) (next : Z) : udp_reliable_arq :=
  UdpReliableArq (m_cfg a) (m_window a) (m_slots a) (m_recv a) next (m_base a) (m_rto a) (m_dead a).

Definition set_base (a : udp_reliable_arq) (base : Z) : udp_reliable_arq :=
  UdpReliableArq (m_cfg a) (m_window a) (m_slots a) (m_recv a) (m_next a) base (m_rto a) (m_dead a).

Definition set_rto (a : udp_reliable_arq) (rto : Rto.udp_rto_estimator) : udp_reliable_arq :=
  UdpReliableArq (m_cfg a) (m_window a) (m_slots a) (m_recv a) (m_next a) (m_base a) rto (m_dead a).

Definition set_dead (a : udp_reliable_arq) : udp_reliable_arq :=
  UdpReliableArq (m_cfg a) (m_window a) (m_slots a) (m_recv a) (m_next a) (m_base a) (m_rto a) true.

(** [seq % m_window], the slot of a sequence number. *)
Definition slot_of (a : udp_reliable_arq) (seq : Z) : nat := Z.to_nat (seq mod Z.of_nat (m_window a)).

(** ** The sender *)

Definition in_flight (a : udp_reliable_arq) : Z := wrap 16 (m_next a - m_base a).

Definition window_has_room (a : udp_reliable_arq) : bool := in_flight a <? Z.of_nat (m_window a).

Definition transmit (seq : Z) (s : arq_slot) : list arq_event :=
  [Transmit seq (a_bytes s) (a_fragmented s)].

Definition arm (a : udp_reliable_arq) (seq : Z) : option (list arq_event) :=
  s ← m_slots a !! slot_of a seq;
  Some [ArmTimer seq (Rto.backed_off (m_rto a) (Z.to_nat (a_retransmits s)))].

(** [None] is an index outside the slots. *)
Definition submit (a : udp_reliable_arq) (now : Z) (payload : bytes) (fragmented : bool)
  : option (submit_result * list arq_event * udp_reliable_arq) :=
  if in_flight a >=? Z.of_nat (m_window a) then Some (window_full, [], a) else
  let seq := m_next a in
  let a := set_next a (wrap 16 (seq + 1)) in
  _ ← m_slots a !! slot_of a seq;
  let s := ArqSlot payload now 0 true false fragmented in
  let a := set_slots a (<[slot_of a seq := s]> (m_slots a)) in
  armed ← arm a seq;
  Some (admitted, transmit seq s ++ armed, a).

Definition exhausted (a : udp_reliable_arq) : list arq_event * udp_reliable_arq :=
  if m_dead a then ([], a) else ([OnExhausted], set_dead a).

Definition on_rto (a : udp_reliable_arq) (seq : Z) : option (list arq_event * udp_reliable_arq) :=
  s ← m_slots a !! slot_of a seq;
  if negb (a_outstanding s) then Some ([], a) else
  if a_retransmits s >=? cfg_max_retransmit (m_cfg a) then Some (exhausted a) else
  let s := ArqSlot (a_bytes s) (a_sent_at s) (wrap 8 (a_retransmits s + 1)) (a_outstanding s) true
             (a_fragmented s) in
  let a := set_slots a (<[slot_of a seq := s]> (m_slots a)) in
  armed ← arm a seq;
  Some (transmit seq s ++ armed, a).

(** The completion handler [arm] gives to [async_wait]. *)
Definition on_timer (a : udp_reliable_arq) (seq : Z) (ec : bool)
  : option (list arq_event * udp_reliable_arq) :=
  if ec || m_dead a then Some ([], a) else on_rto a seq.

Definition free_segment (a : udp_reliable_arq) (now seq : Z) (sample_rtt : bool)
  : option (list arq_event * udp_reliable_arq) :=
  s ← m_slots a !! slot_of a seq;
  if negb (a_outstanding s) then Some ([], a) else
  let a := if sample_rtt && negb (a_retransmitted s)
           then set_rto a (Rto.sample (m_rto a) (Z.quot (now - a_sent_at s) 1000000)) else a in
  let s := ArqSlot (a_bytes s) (a_sent_at s) (a_retransmits s) false (a_retransmitted s) (a_fragmented s) in
  Some ([CancelTimer (slot_of a seq)], set_slots a (<[slot_of a seq := s]> (m_slots a))).

(** The [while] of [slide_to]; [None] also for an exhausted bound. *)
Fixpoint slide_loop (fuel : nat) (a : udp_reliable_arq) (now new_base : Z)
  : option (list arq_event * udp_reliable_arq) :=
  match fuel with
  | O => None
  | S fuel =>
      let dist := wrap 16 (new_base - m_base a) in
      if negb (dist =? 0) && (dist <? half_space) && negb (m_base a =? m_next a) then
        '(evs, a) ← free_segment a now (m_base a) true;
        '(evs', a) ← slide_loop fuel (set_base a (wrap 16 (m_base a + 1))) now new_base;
        Some (evs ++ evs', a)
      else Some ([], a)
  end.

Definition slide_to (a : udp_reliable_arq) (now new_base : Z)
  : option (list arq_event * udp_reliable_arq) :=
  let before := m_base a in
  '(evs, a) ← slide_loop (S (Z.to_nat (wrap 16 (new_base - m_base a)))) a now new_base;
  Some (evs ++ (if negb (m_base a =? before) then [OnWindowAdvance] else []), a).

Definition ack_hole (a : udp_reliable_arq) (now seq : Z)
  : option (list arq_event * udp_reliable_arq) :=
  let rel := wrap 16 (seq - m_base a) in
  if (rel >=? half_space) || (rel >=? Z.of_nat (m_window a)) then Some ([], a)
  else free_segment a now seq true.

(** The [for] over the bitmap of [on_ack]. *)
Fixpoint ack_holes (a : udp_reliable_arq) (now : Z) (ack : udp_ack) (holes : list nat)
  : option (list arq_event * udp_reliable_arq) :=
  match holes with
  | [] => Some ([], a)
  | i :: holes =>
      if negb (hole_received ack i) then ack_holes a now ack holes else
      '(evs, a) ← ack_hole a now (wrap 16 (ack_cumulative ack + 2 + Z.of_nat i));
      '(evs', a) ← ack_holes a now ack holes;
      Some (evs ++ evs', a)
  end.

Definition on_ack (a : udp_reliable_arq) (now : Z) (ack : udp_ack)
  : option (list arq_event * udp_reliable_arq) :=
  '(evs, a) ← slide_to a now (wrap 16 (ack_cumulative ack + 1));
  '(evs', a) ← ack_holes a now ack (seq 0 ack_bitmap_bits);
  Some (evs ++ evs', a).

Definition cancel (a : udp_reliable_arq) : list arq_event * udp_reliable_arq :=
  (map CancelTimer (seq 0 (length (m_slots a))), set_dead a).

(** ** The receiver *)

Definition send_ack (a : udp_reliable_arq) : list arq_event :=
  let ack := UdpAck (cumulative (m_recv a)) (ack_selective udp_ack_zero) in
  [SendAck (foldl (fun ack i => if buffered_at (m_recv a) (i + 1) then mark_hole ack i else ack)
              ack (seq 0 ack_bitmap_bits))].

Definition on_segment (a : udp_reliable_arq) (seq : Z) (fragmented : bool) (payload : bytes)
  : option (list arq_event * udp_reliable_arq) :=
  '(_, ds, recv) ← ReorderBuffer.feed (m_recv a) seq fragmented payload;
  let a := set_recv a recv in
  Some (map Deliver ds ++ send_ack a, a).

(** ** The sender's invariant

    [sends src a b x fed]: of the numbers submitted, those from [b] up to [x] are in
    flight; each has its own slot with its content, and only a number the receiver
    has accepted ([fed]) is no longer outstanding. *)

Definition arq_window_ok (w : nat) : Prop :=
  (0 < w)%nat /\ (Z.of_nat w | 65536) /\ Z.of_nat w < half_space.

Record sends (src : Z -> bool * bytes) (a : udp_reliable_arq) (b x : Z) (fed : gset Z) : Prop := Sends {
  sn_window : arq_window_ok (m_window a);
  sn_slots : length (m_slots a) = m_window a;
  sn_base : m_base a = wire_seq b;
  sn_next : m_next a = wire_seq x;
  sn_range : b <= x <= b + Z.of_nat (m_window a);
  sn_content : forall n, b <= n < x ->
    exists s, m_slots a !! Z.to_nat (n mod Z.of_nat (m_window a)) = Some s /\
      (a_fragmented s, a_bytes s) = src n /\ (a_outstanding s = false -> n ∈ fed);
}.

Lemma slot_of_wire a n :
  arq_window_ok (m_window a) -> slot_of a (wire_seq n) = Z.to_nat (n mod Z.of_nat (m_window a)).
Proof.
  intros (H0 & Hd & _). unfold slot_of, wire_seq, wrap. change (2 ^ 16) with 65536.
  by rewrite Z.mod_mod_divide.
Qed.

Lemma window_index_lt w n : (0 < w)%nat -> (Z.to_nat (n mod Z.of_nat w) < w)%nat.
Proof. intros. pose proof (Z.mod_pos_bound n (Z.of_nat w)). lia. Qed.

Lemma window_index_inj w b n m :
  (0 < w)%nat -> b <= n < b + Z.of_nat w -> b <= m < b + Z.of_nat w ->
  Z.to_nat (n mod Z.of_nat w) = Z.to_nat (m mod Z.of_nat w) -> n = m.
Proof.
  intros Hw Hn Hm E. pose proof (Z.mod_pos_bound n (Z.of_nat w)). pose proof (Z.mod_pos_bound m (Z.of_nat w)).
  assert (n mod Z.of_nat w = m mod Z.of_nat w) as E' by lia.
  pose proof (Z.div_mod n (Z.of_nat w) ltac:(lia)) as En. pose proof (Z.div_mod m (Z.of_nat w) ltac:(lia)) as Em.
  rewrite E' in En. set (q := n / Z.of_nat w) in *. set (q' := m / Z.of_nat w) in *.
  assert (q = q') by nia. nia.
Qed.

(** The segments put on the wire by a list of events. *)
Definition sent (evs : list arq_event) : list (Z * bool * bytes) :=
  omap (fun ev => match ev with Transmit seq data frag => Some (seq, frag, data) | _ => None end) evs.

Lemma sent_app a b : sent (a ++ b) = sent a ++ sent b.
Proof. apply omap_app. Qed.

(** What the ARQ keeps across the sender's operations. *)
Definition same_receiver (a a' : udp_reliable_arq) : Prop :=
  m_recv a' = m_recv a /\ m_window a' = m_window a.

#[global] Instance same_receiver_preorder : PreOrder same_receiver.
Proof. split; [done|]. unfold same_receiver. intros ??? [-> ->] [-> ->]. done. Qed.

Lemma submit_spec src a b x fed now :
  sends src a b x fed ->
  if decide (x = b + Z.of_nat (m_window a))
  then submit a now (src x).2 (src x).1 = Some (window_full, [], a)
  else exists evs a', submit a now (src x).2 (src x).1 = Some (admitted, evs, a') /\
    sends src a' b (x + 1) fed /\ same_receiver a a' /\ sent evs = [(wire_seq x, (src x).1, (src x).2)].
Proof.
  intros [Hw Hl Hb Hx Hr Hc]. pose proof Hw as (H0 & Hdiv & Hhalf). unfold half_space in Hhalf.
  unfold submit, in_flight. rewrite Hb, Hx, wire_seq_distance by (unfold near, half_space; lia).
  rewrite (decide_True (P := b <= x)) by lia. rewrite Z.geb_leb. case_decide as Hfull.
  { destruct (Z.leb_spec (Z.of_nat (m_window a)) (x - b)); [done|lia]. }
  destruct (Z.leb_spec (Z.of_nat (m_window a)) (x - b)); [lia|].
  assert (slot_of (set_next a (wrap 16 (wire_seq x + 1))) (wire_seq x) = Z.to_nat (x mod Z.of_nat (m_window a))) as Hs
    by (by apply (slot_of_wire a)).
  pose proof (window_index_lt (m_window a) x H0) as Hi.
  rewrite Hs. cbn [m_slots set_next]. destruct (lookup_lt_is_Some_2 (m_slots a) (Z.to_nat (x mod Z.of_nat (m_window a)))) as [s0 ->]; [lia|].
  cbn [mbind option_bind]. unfold arm.
  assert (forall sl, slot_of (set_slots (set_next a (wrap 16 (wire_seq x + 1))) sl) (wire_seq x)
                     = Z.to_nat (x mod Z.of_nat (m_window a))) as -> by (intros; by apply (slot_of_wire a)).
  cbn [m_slots set_slots]. rewrite list_lookup_insert_eq by lia. cbn [mbind option_bind].
  eexists _, _. split; [done|]. split_and!; [|done|done]. split; simpl; try done.
  - by rewrite length_insert.
  - by rewrite wire_seq_step.
  - lia.
  - intros n Hn. destruct (decide (n = x)) as [->|].
    + rewrite list_lookup_insert_eq by lia. eexists. split; [done|]. simpl. split; [by destruct (src x)|done].
    + rewrite list_lookup_insert_ne; [apply Hc; lia|].
      intros E. apply (window_index_inj (m_window a) b) in E; lia.
Qed.

(** Rewriting a slot with one that carries the same datagram. *)
Lemma sends_update src a b x fed i s s' :
  sends src a b x fed -> m_slots a !! i = Some s ->
  a_fragmented s' = a_fragmented s -> a_bytes s' = a_bytes s ->
  (a_outstanding s' = false -> a_outstanding s = false \/
     forall n, b <= n < x -> Z.to_nat (n mod Z.of_nat (m_window a)) = i -> n ∈ fed) ->
  sends src (set_slots a (<[i := s']> (m_slots a))) b x fed.
Proof.
  intros [Hw Hl Hb Hx Hr Hc] Hs Hf Hby Ho. split; simpl; try done; [by rewrite length_insert|].
  intros n Hn. destruct (Hc n Hn) as (s1 & Hs1 & Hsrc & Hout).
  destruct (decide (Z.to_nat (n mod Z.of_nat (m_window a)) = i)) as [E|E].
  - rewrite E in *. assert (s1 = s) as -> by congruence.
    assert (i < length (m_slots a))%nat by (by apply lookup_lt_is_Some_1).
    rewrite list_lookup_insert_eq by done. exists s'. split; [done|]. split; [congruence|].
    intros Hf'. destruct (Ho Hf') as [Ho'|Ho']; [by apply Hout|by apply Ho'].
  - rewrite list_lookup_insert_ne by done. by exists s1.
Qed.

Lemma on_timer_spec src a b x fed n ec :
  sends src a b x fed ->
  exists evs a', on_timer a (wire_seq n) ec = Some (evs, a') /\
    sends src a' b x fed /\ same_receiver a a' /\
    (forall seg, seg ∈ sent evs -> seg.1.1 = wire_seq n /\ (b <= n < x -> (seg.1.2, seg.2) = src n)).
Proof.
  intros Hs. pose proof Hs as [Hw Hl Hb Hx Hr Hc]. pose proof Hw as (H0 & _ & _).
  unfold on_timer. destruct (ec || m_dead a).
  { eexists _, _. split_and!; try done. set_solver. }
  unfold on_rto. rewrite slot_of_wire by done. set (i := Z.to_nat (n mod Z.of_nat (m_window a))).
  pose proof (window_index_lt (m_window a) n H0) as Hi. fold i in Hi.
  destruct (lookup_lt_is_Some_2 (m_slots a) i) as [s Hsi]; [lia|]. rewrite Hsi. cbn [mbind option_bind].
  destruct (a_outstanding s) eqn:Ho; cbn [negb].
  2: { eexists _, _. split_and!; try done. set_solver. }
  destruct (_ >=? _).
  { unfold exhausted. destruct (m_dead a); (eexists _, _; split; [done|]); split_and!; try done; set_solver. }
  unfold arm. set (s' := ArqSlot _ _ _ _ _ _).
  assert (slot_of (set_slots a (<[i:=s']> (m_slots a))) (wire_seq n) = i) as -> by (by apply (slot_of_wire a)).
  cbn [m_slots set_slots]. rewrite list_lookup_insert_eq by lia. cbn [mbind option_bind].
  eexists _, _. split; [done|]. split_and!; try done.
  - apply (sends_update _ _ _ _ _ _ s); done.
  - intros seg Hseg. cbn in Hseg. apply elem_of_cons in Hseg as [->|Hseg]; [|by apply elem_of_nil in Hseg].
    split; [done|]. intros Hn. destruct (Hc n Hn) as (s1 & Hs1 & Hsrc & _). fold i in Hs1.
    simpl. congruence.
Qed.

Lemma free_segment_spec src a b x fed now n :
  sends src a b x fed -> b <= n < x -> n ∈ fed ->
  exists evs a', free_segment a now (wire_seq n) true = Some (evs, a') /\
    sends src a' b x fed /\ same_receiver a a' /\ sent evs = [].
Proof.
  intros Hs Hn Hin. pose proof Hs as [Hw Hl Hb Hx Hr Hc]. pose proof Hw as (H0 & _ & _).
  unfold free_segment. rewrite slot_of_wire by done. set (i := Z.to_nat (n mod Z.of_nat (m_window a))).
  destruct (Hc n Hn) as (s & Hsi & Hsrc & _). fold i in Hsi. rewrite Hsi. cbn [mbind option_bind].
  destruct (a_outstanding s); cbn [negb]; [|by eexists _, _].
  eexists _, _. split; [done|].
  set (a1 := if _ && _ then _ else a).
  assert (m_slots a1 = m_slots a /\ same_receiver a a1 /\ sends src a1 b x fed) as (E1 & Hrec & Hs1).
  { unfold a1. destruct (_ && _); [|done]. split_and!; try done. }
  assert (slot_of a1 (wire_seq n) = i) as ->.
  { rewrite slot_of_wire by (apply Hs1). destruct Hrec as [_ ->]. done. }
  split_and!; [|done|done].
  rewrite <- E1 in Hsi. apply (sends_update _ _ _ _ _ _ s); try done.
  intros _. right. intros m Hm E. destruct Hrec as [_ Hwin]. rewrite Hwin in E.
  assert (m = n) as ->; [|done]. apply (window_index_inj (m_window a) b); [done|lia|lia|done].
Qed.

Lemma slide_loop_spec src fuel a b x fed now t :
  sends src a b x fed -> b <= t <= x -> (forall n, b <= n < t -> n ∈ fed) ->
  (Z.to_nat (t - b) < fuel)%nat ->
  exists evs a', slide_loop fuel a now (wire_seq t) = Some (evs, a') /\
    sends src a' t x fed /\ same_receiver a a' /\ sent evs = [].
Proof.
  revert a b. induction fuel as [|fuel IH]; intros a b Hs Ht Hin Hf; [lia|]. cbn [slide_loop].
  pose proof Hs as [Hw Hl Hb Hx Hr Hc]. pose proof Hw as (H0 & _ & Hhalf).
  assert (near b t) as Hnear by (unfold near; lia).
  rewrite Hb, wire_seq_distance, decide_True by (done || lia).
  destruct (Z.eqb_spec (t - b) 0) as [|Hne].
  { assert (t = b) as -> by lia. cbn [negb andb]. by eexists _, _. }
  destruct (Z.ltb_spec (t - b) half_space); [|lia]. cbn [negb andb].
  assert ((wire_seq b =? m_next a) = false) as ->.
  { rewrite Hx. apply Z.eqb_neq. unfold wire_seq, wrap, half_space in *. change (2 ^ 16) with 65536.
    intros E. pose proof (Z.div_mod b 65536 ltac:(lia)). pose proof (Z.div_mod x 65536 ltac:(lia)). lia. }
  cbn [negb]. destruct (free_segment_spec src a b x fed now b) as (evs & a1 & -> & Hs1 & Hrec & Hsent);
    [done|lia|apply Hin; lia|]. cbn [mbind option_bind].
  assert (sends src (set_base a1 (wrap 16 (m_base a1 + 1))) (b + 1) x fed) as Hs2.
  { destruct Hs1 as [Hw1 Hl1 Hb1 Hx1 Hr1 Hc1]. split; simpl; try done; try lia.
    - by rewrite Hb1, wire_seq_step.
    - intros n Hn. apply Hc1. lia. }
  destruct (IH _ _ Hs2) as (evs' & a' & -> & Hs' & Hrec' & Hsent'); [lia|intros; apply Hin; lia|lia|].
  cbn [mbind option_bind]. eexists _, _. split; [done|]. split; [done|].
  split; [|by rewrite sent_app, Hsent, Hsent']. etransitivity; [exact Hrec|exact Hrec'].
Qed.

Lemma slide_to_spec src a b x fed now t :
  sends src a b x fed -> b - half_space <= t <= x -> (forall n, b <= n < t -> n ∈ fed) ->
  exists evs a', slide_to a now (wire_seq t) = Some (evs, a') /\
    sends src a' (Z.max b t) x fed /\ same_receiver a a' /\ sent evs = [].
Proof.
  intros Hs Ht Hin. pose proof Hs as [Hw Hl Hb Hx Hr Hc]. pose proof Hw as (H0 & _ & Hhalf).
  unfold slide_to. rewrite Hb. assert (near b t) as Hnear by (unfold near; lia).
  rewrite wire_seq_distance by done. case_decide as Hle.
  - destruct (slide_loop_spec src (S (Z.to_nat (t - b))) a b x fed now t) as (evs & a' & -> & Hs' & Hrec & Hsent);
      [done|lia|done|lia|]. cbn [mbind option_bind]. eexists _, _. split; [done|].
    rewrite Z.max_r by lia. split_and!; try done. rewrite sent_app, Hsent. by destruct (negb _).
  - cbn [slide_loop]. rewrite Hb, wire_seq_distance, decide_False by (done || lia).
    unfold half_space in *. destruct (Z.ltb_spec (65536 + t - b) 32768); [lia|].
    rewrite andb_false_r. cbn [andb mbind option_bind]. rewrite Hb, Z.eqb_refl. eexists _, _. split; [done|].
    rewrite Z.max_l by lia. done.
Qed.

(** An ack describes the receiver when it expected [t]. *)
Definition ack_tells (ack : udp_ack) (t : Z) (fed : gset Z) : Prop :=
  ack_cumulative ack = wire_seq (t - 1) /\
  forall i, hole_received ack i = true -> t + 1 + Z.of_nat i ∈ fed.

Lemma ack_holes_spec src holes a b x fed now ack t :
  sends src a b x fed -> b - half_space <= t -> (forall n, n ∈ fed -> n < x) -> ack_tells ack t fed ->
  exists evs a', ack_holes a now ack holes = Some (evs, a') /\
    sends src a' b x fed /\ same_receiver a a' /\ sent evs = [].
Proof.
  intros Hs Ht Hbelow Hack. revert a Hs. induction holes as [|i holes IH]; intros a Hs; cbn [ack_holes].
  { by eexists _, _. }
  destruct (hole_received ack i) eqn:Hi; cbn [negb]; [|by apply IH].
  pose proof Hs as [Hw Hl Hb Hx Hr Hc]. pose proof Hw as (H0 & _ & Hhalf).
  destruct Hack as [Hcum Hhole]. pose proof (Hhole i Hi) as Hin. set (m := t + 1 + Z.of_nat i) in *.
  assert (wrap 16 (ack_cumulative ack + 2 + Z.of_nat i) = wire_seq m) as ->.
  { rewrite Hcum. unfold wire_seq, wrap, m. rewrite <- Z.add_assoc, Zplus_mod_idemp_l. f_equal. lia. }
  assert (near b m) as Hnear by (apply Hbelow in Hin; unfold near in *; lia).
  unfold ack_hole at 1. rewrite Hb, wire_seq_distance by done. rewrite !Z.geb_leb. unfold half_space in *.
  assert (exists evs a1, (if (32768 <=? (if decide (b <= m) then m - b else 65536 + m - b))
      || (Z.of_nat (m_window a) <=? (if decide (b <= m) then m - b else 65536 + m - b))
      then Some ([], a) else free_segment a now (wire_seq m) true) = Some (evs, a1) /\
      sends src a1 b x fed /\ same_receiver a a1 /\ sent evs = []) as (evs & a1 & -> & Hs1 & Hrec & Hsent).
  { case_decide.
    - apply Hbelow in Hin as Hlt. destruct (Z.leb_spec 32768 (m - b)); [lia|].
      destruct (Z.leb_spec (Z.of_nat (m_window a)) (m - b)); [lia|]. cbn [orb].
      apply free_segment_spec; [done|lia|done].
    - destruct (Z.leb_spec 32768 (65536 + m - b)); [|lia]. cbn [orb]. by eexists _, _. }
  cbn [mbind option_bind]. destruct (IH a1 Hs1) as (evs' & a' & -> & Hs' & Hrec' & Hsent').
  cbn [mbind option_bind]. eexists _, _. split; [done|]. split; [done|].
  split; [by etransitivity|]. by rewrite sent_app, Hsent, Hsent'.
Qed.

Lemma on_ack_spec src a b x fed now ack t :
  sends src a b x fed -> b - half_space <= t <= x -> (forall n, b <= n < t -> n ∈ fed) ->
  (forall n, n ∈ fed -> n < x) -> ack_tells ack t fed ->
  exists evs a', on_ack a now ack = Some (evs, a') /\
    sends src a' (Z.max b t) x fed /\ same_receiver a a' /\ sent evs = [].
Proof.
  intros Hs Ht Hin Hbelow Hack. unfold on_ack.
  assert (wrap 16 (ack_cumulative ack + 1) = wire_seq t) as ->.
  { destruct Hack as [-> _]. rewrite wire_seq_step. f_equal. lia. }
  destruct (slide_to_spec src a b x fed now t) as (evs & a1 & -> & Hs1 & Hrec & Hsent); [done..|].
  cbn [mbind option_bind].
  destruct (ack_holes_spec src (seq 0 ack_bitmap_bits) a1 (Z.max b t) x fed now ack t)
    as (evs' & a' & -> & Hs' & Hrec' & Hsent'); [done|unfold half_space in *; lia|done|done|].
  cbn [mbind option_bind]. eexists _, _. split; [done|]. split; [done|].
  split; [by etransitivity|]. by rewrite sent_app, Hsent, Hsent'.
Qed.

(** ** The receiver's acknowledgement *)

Lemma mark_holes_spec (p : nat -> bool) l ack :
  udp_ack_ok ack -> Forall (fun i => i < ack_bitmap_bits)%nat l ->
  let ack' := foldl (fun ack i => if p i then mark_hole ack i else ack) ack l in
  udp_ack_ok ack' /\ ack_cumulative ack' = ack_cumulative ack /\
  forall j, hole_received ack' j = hole_received ack j || (bool_decide (j ∈ l) && p j).
Proof.
  intros Hok Hl. revert ack Hok. induction Hl as [|i l Hi Hl IH]; intros ack Hok; simpl.
  { split_and!; try done. intros j. by rewrite orb_false_r. }
  destruct (IH (if p i then mark_hole ack i else ack)) as (H1 & H2 & H3).
  { destruct (p i); [by apply mark_hole_ok|done]. }
  split_and!; [done| |].
  - rewrite H2. destruct (p i); [|done]. unfold mark_hole. by case_decide.
  - intros j. rewrite H3. destruct (decide (j = i)) as [->|Hne].
    + rewrite (bool_decide_eq_true_2 (i ∈ i :: l)) by set_solver. destruct (p i).
      * rewrite hole_received_mark by done. rewrite bool_decide_eq_true_2 by done. by rewrite !orb_true_r.
      * by rewrite !andb_false_r.
    + assert (bool_decide (j ∈ i :: l) = bool_decide (j ∈ l)) as -> by (apply bool_decide_ext; set_solver).
      destruct (p i); [|done]. rewrite hole_received_mark by done. by rewrite bool_decide_eq_false_2.
Qed.

Definition acks (evs : list arq_event) : list udp_ack :=
  omap (fun ev => match ev with SendAck a => Some a | _ => None end) evs.

Definition handed_over (evs : list arq_event) : list delivery :=
  omap (fun ev => match ev with Deliver d => Some d | _ => None end) evs.

Lemma handed_over_deliver ds a : handed_over (map Deliver ds ++ [SendAck a]) = ds.
Proof.
  induction ds as [|d ds IH]; [done|]. cbn [map app].
  change (handed_over (Deliver d :: ?l)) with (d :: handed_over l). by rewrite IH.
Qed.

Lemma acks_deliver ds a : acks (map Deliver ds ++ [SendAck a]) = [a].
Proof. induction ds as [|d ds IH]; [done|]. apply IH. Qed.

Lemma send_ack_spec src a e fed :
  holds src (m_recv a) e fed ->
  exists ack, send_ack a = [SendAck ack] /\ ack_tells ack e fed.
Proof.
  intros Hh. unfold send_ack. eexists. split; [done|].
  destruct (mark_holes_spec (fun i => buffered_at (m_recv a) (i + 1)) (seq 0 ack_bitmap_bits)
    (UdpAck (cumulative (m_recv a)) (ack_selective udp_ack_zero))) as (_ & Hc & Hholes).
  { split; [done|]. simpl. apply wrap_range. lia. }
  { apply Forall_forall. intros i Hi. apply elem_of_seq in Hi. lia. }
  split.
  - rewrite Hc. simpl. by eapply cumulative_spec.
  - intros i Hi. rewrite Hholes in Hi. apply orb_true_iff in Hi as [Hi|Hi].
    { change (hole_received udp_ack_zero i = true) in Hi. by rewrite hole_received_zero in Hi. }
    apply andb_true_iff in Hi as [_ Hi]. rewrite (buffered_at_spec _ _ _ _ _ Hh) in Hi.
    apply bool_decide_eq_true in Hi. by replace (e + 1 + Z.of_nat i) with (e + Z.of_nat (i + 1)) by lia.
Qed.

Lemma on_segment_spec src a e fed n :
  holds src (m_recv a) e fed -> (e ∉ fed) -> near e n ->
  exists evs a' k, on_segment a (wire_seq n) (src n).1 (src n).2 = Some (evs, a') /\
    let fed' := if decide (e <= n < e + Z.of_nat (ReorderBuffer.m_window (m_recv a))) then {[n]} ∪ fed else fed in
    let e' := e + Z.of_nat k in
    handed_over evs = deliveries src e k /\ holds src (m_recv a') e' fed' /\ (e' ∉ fed') /\
    (forall m, e <= m < e' -> m ∈ fed') /\ (n = e -> (0 < k)%nat) /\
    ReorderBuffer.m_window (m_recv a') = ReorderBuffer.m_window (m_recv a) /\
    exists ack, acks evs = [ack] /\ ack_tells ack e' fed'.
Proof.
  intros Hh Hnot Hn. unfold on_segment.
  destruct (reorder_feed_spec src (m_recv a) e fed n Hh Hnot Hn) as (o & k & r' & -> & Hh' & Hnot' & Hall & Hw & Ho).
  cbn [mbind option_bind]. destruct (send_ack_spec src (set_recv a r') _ _ Hh') as (ack & -> & Hack).
  eexists _, _, k. split; [done|]. cbn [m_recv set_recv].
  split_and!; [|done|done|done| |done|].
  - apply handed_over_deliver.
  - intros ->. destruct k; [|lia]. exfalso. apply Hnot'. rewrite Z.add_0_r.
    pose proof (h_window _ _ _ _ Hh). rewrite decide_True by lia. set_solver.
  - exists ack. split; [apply acks_deliver|done].
Qed.
