(* ===== verification/ArqLink.v ===== *)
(** * Two ARQ endpoints over an unreliable network

    The composition of two [udp_reliable_arq] objects
    ([lib/plexus-datagram/include/plexus/datagram/detail/udp_reliable_arq.h]) over a
    network that loses, duplicates, delays and reorders: everything ever put on the
    wire stays available for any number of deliveries in any order.  What is assumed
    of the network is a maximal segment lifetime: nothing is delivered once the
    stream has moved half the sequence space past it.

    [src n] is the [n]-th datagram the application submits; numbers start at the
    common initial sequence number [s0]. *)

From S2P Require Import Prelude ByteOrder Varint Cursor Frame UdpWire ReorderBuffer DedupWindow ReliableArq.

(** A segment or an ack in the network, with the number it belongs to: for a segment
    its own, for an ack the number its sender expected. *)
Record net_segment : Type := NetSegment {
  ns_number : Z; ns_seq : Z; ns_fragmented : bool; ns_data : bytes }.

Record net_ack : Type := NetAck { na_edge : Z; na_ack : udp_ack }.

Record link : Type := Link {
  l_sender : udp_reliable_arq;
  l_receiver : udp_reliable_arq;
  l_segments : list net_segment;
  l_acks : list net_ack;
  l_submitted : nat;
  l_delivered : list delivery;
}.

Definition link_new (cfg : udp_arq_config) (s0 : Z) : link :=
  Link (udp_reliable_arq_new cfg (wire_seq s0)) (udp_reliable_arq_new cfg (wire_seq s0)) [] [] 0 [].

(** The next number to submit and the number the receiver expects. *)
Definition next_number (s0 : Z) (l : link) : Z := s0 + Z.of_nat (l_submitted l).
Definition expected_number (s0 : Z) (l : link) : Z := s0 + zlen (l_delivered l).

Definition label (n : Z) (evs : list arq_event) : list net_segment :=
  map (fun seg => NetSegment n seg.1.1 seg.1.2 seg.2) (sent evs).

Inductive link_step (src : Z -> bool * bytes) (s0 : Z) : link -> link -> Prop :=
| step_submit l now res evs a :
    let x := next_number s0 l in
    submit (l_sender l) now (src x).2 (src x).1 = Some (res, evs, a) ->
    link_step src s0 l
      (Link a (l_receiver l) (label x evs ++ l_segments l) (l_acks l)
         (match res with admitted => S (l_submitted l) | window_full => l_submitted l end)
         (l_delivered l))
| step_timer l n ec evs a :
    (** the wait of any segment ever sent, in force or stale *)
    s0 <= n < next_number s0 l ->
    on_timer (l_sender l) (wire_seq n) ec = Some (evs, a) ->
    link_step src s0 l
      (Link a (l_receiver l) (label n evs ++ l_segments l) (l_acks l) (l_submitted l) (l_delivered l))
| step_segment l seg evs r :
    seg ∈ l_segments l -> expected_number s0 l - half_space <= ns_number seg ->
    on_segment (l_receiver l) (ns_seq seg) (ns_fragmented seg) (ns_data seg) = Some (evs, r) ->
    link_step src s0 l
      (Link (l_sender l) r (l_segments l)
         (map (NetAck (expected_number s0 l + zlen (handed_over evs))) (acks evs) ++ l_acks l)
         (l_submitted l) (l_delivered l ++ handed_over evs))
| step_ack l na now evs a :
    na ∈ l_acks l -> expected_number s0 l - half_space <= na_edge na ->
    on_ack (l_sender l) now (na_ack na) = Some (evs, a) ->
    link_step src s0 l
      (Link a (l_receiver l) (label 0 evs ++ l_segments l) (l_acks l) (l_submitted l) (l_delivered l))
| step_cancel l :
    link_step src s0 l
      (Link (cancel (l_sender l)).2 (l_receiver l) (l_segments l) (l_acks l) (l_submitted l)
         (l_delivered l)).

Inductive link_reachable (src : Z -> bool * bytes) (cfg : udp_arq_config) (s0 : Z) : link -> Prop :=
| link_start : link_reachable src cfg s0 (link_new cfg s0)
| link_next l l' : link_reachable src cfg s0 l -> link_step src s0 l l' -> link_reachable src cfg s0 l'.

(** ** The invariant *)

Record link_inv (src : Z -> bool * bytes) (s0 : Z) (l : link) (b : Z) (fed : gset Z) : Prop := LinkInv {
  li_sends : sends src (l_sender l) b (next_number s0 l) fed;
  li_holds : holds src (m_recv (l_receiver l)) (expected_number s0 l) fed;
  li_order : s0 <= b <= expected_number s0 l /\ expected_number s0 l <= next_number s0 l;
  li_gap : expected_number s0 l ∉ fed;
  li_prefix : forall n, s0 <= n < expected_number s0 l -> n ∈ fed;
  li_below : forall n, n ∈ fed -> n < next_number s0 l;
  li_window : ReorderBuffer.m_window (m_recv (l_receiver l)) = m_window (l_sender l);
  li_delivered : l_delivered l = deliveries src s0 (length (l_delivered l));
  li_segments : forall seg, seg ∈ l_segments l ->
    ns_seq seg = wire_seq (ns_number seg) /\ s0 <= ns_number seg < next_number s0 l /\
    ((ns_fragmented seg, ns_data seg) = src (ns_number seg) \/ ns_number seg < b);
  li_acks : forall na, na ∈ l_acks l ->
    s0 <= na_edge na <= expected_number s0 l /\ ack_tells (na_ack na) (na_edge na) fed;
}.

Lemma elem_of_label n evs seg :
  seg ∈ label n evs -> exists s, s ∈ sent evs /\ seg = NetSegment n s.1.1 s.1.2 s.2.
Proof.
  unfold label. intros H. apply list_elem_of_In, in_map_iff in H as (s & <- & H). exists s.
  split; [by apply list_elem_of_In|done].
Qed.

Lemma link_inv_start src cfg s0 :
  arq_window_ok (cfg_window cfg) -> link_inv src s0 (link_new cfg s0) s0 ∅.
Proof.
  intros (H0 & Hdiv & Hhalf). unfold half_space in Hhalf.
  assert ((if (cfg_window cfg =? 0)%nat then 512%nat else Z.to_nat (Z.min (Z.of_nat (cfg_window cfg)) 32768))
          = cfg_window cfg) as Hw.
  { destruct (Nat.eqb_spec (cfg_window cfg) 0); lia. }
  split; unfold expected_number, next_number; simpl; rewrite ?Hw; try done; try (by intros; set_solver).
  - split; simpl; rewrite ?Hw; try done.
    + by rewrite length_replicate.
    + by rewrite Z.add_0_r.
    + lia.
    + intros n Hn. lia.
  - rewrite Z.add_0_r. apply holds_new. unfold half_space. lia.
  - unfold zlen. simpl. lia.
  - unfold zlen. simpl. lia.
  - destruct (Nat.eqb_spec (cfg_window cfg) 0); [lia|done].
Qed.

(** ** Preservation *)

Lemma inv_submit src s0 l b fed now res evs a :
  link_inv src s0 l b fed ->
  submit (l_sender l) now (src (next_number s0 l)).2 (src (next_number s0 l)).1 = Some (res, evs, a) ->
  link_inv src s0
    (Link a (l_receiver l) (label (next_number s0 l) evs ++ l_segments l) (l_acks l)
       (match res with admitted => S (l_submitted l) | window_full => l_submitted l end)
       (l_delivered l)) b fed.
Proof.
  intros [Hs Hh Ho Hg Hp Hb Hw Hd Hsegs Hacks] H.
  pose proof (submit_spec src _ b _ fed now Hs) as Hspec. case_decide as Hfull.
  { rewrite H in Hspec. simplify_eq. split; simpl; try done. }
  destruct Hspec as (evs1 & a1 & H1 & Hs1 & [Hrec Hwin] & Hsent). rewrite H in H1. simplify_eq.
  set (l' := Link _ _ _ _ _ _).
  assert (next_number s0 l' = next_number s0 l + 1) as Hnext by (unfold next_number; simpl; lia).
  assert (expected_number s0 l' = expected_number s0 l) as Hexp by done.
  split; rewrite ?Hnext, ?Hexp; try done; try lia.
  - intros n Hn. apply Hb in Hn. lia.
  - simpl. congruence.
  - intros seg Hseg. apply elem_of_app in Hseg as [Hseg|Hseg].
    + apply elem_of_label in Hseg as (s & Hin & ->). rewrite Hsent in Hin.
      apply elem_of_cons in Hin as [->|Hin]; [|by apply elem_of_nil in Hin].
      cbn [ns_number ns_seq ns_fragmented ns_data fst snd].
      split_and!; [done|lia|lia|left; by destruct (src _)].
    + destruct (Hsegs seg Hseg) as (? & ? & ?). split_and!; done || lia.
Qed.

Lemma inv_timer src s0 l b fed n ec evs a :
  link_inv src s0 l b fed -> s0 <= n < next_number s0 l ->
  on_timer (l_sender l) (wire_seq n) ec = Some (evs, a) ->
  link_inv src s0
    (Link a (l_receiver l) (label n evs ++ l_segments l) (l_acks l) (l_submitted l) (l_delivered l)) b fed.
Proof.
  intros [Hs Hh Ho Hg Hp Hb Hw Hd Hsegs Hacks] Hn H.
  destruct (on_timer_spec src _ b _ fed n ec Hs) as (evs1 & a1 & H1 & Hs1 & [Hrec Hwin] & Hsent).
  rewrite H in H1. simplify_eq. split; simpl; try done; [congruence|].
  intros seg Hseg. apply elem_of_app in Hseg as [Hseg|Hseg]; [|by apply Hsegs].
  apply elem_of_label in Hseg as (s & Hin & ->). destruct (Hsent s Hin) as [Hq Hc]. simpl.
  split_and!; [done|apply Hn|apply Hn|]. destruct (decide (b <= n)); [left; apply Hc|right; lia].
  unfold next_number in *. simpl in *. lia.
Qed.

Lemma ack_tells_mono ack t fed fed' : ack_tells ack t fed -> fed ⊆ fed' -> ack_tells ack t fed'.
Proof. intros [Hc Hh] Hsub. split; [done|]. intros i Hi. by apply Hsub, Hh. Qed.

(** A segment in the network acts on the receiver as the datagram of its number: a
    mislabelled one (retransmitted by a stale timer) is below the base and therefore
    stale, and its bytes are not looked at. *)
Lemma segment_as_sent src s0 l b fed seg :
  link_inv src s0 l b fed -> seg ∈ l_segments l ->
  expected_number s0 l - half_space <= ns_number seg ->
  near (expected_number s0 l) (ns_number seg) /\
  on_segment (l_receiver l) (ns_seq seg) (ns_fragmented seg) (ns_data seg)
  = on_segment (l_receiver l) (wire_seq (ns_number seg)) (src (ns_number seg)).1 (src (ns_number seg)).2.
Proof.
  intros [Hs Hh Ho Hg Hp Hb Hw Hd Hsegs Hacks] Hin Hnear.
  destruct (Hsegs seg Hin) as (Hq & Hrange & Hc). pose proof Hs as [Hwok _ _ _ Hr Hcont].
  pose proof Hwok as (H0 & _ & Hhalf).
  assert (near (expected_number s0 l) (ns_number seg)) as Hne by (unfold near in *; lia).
  split; [done|]. rewrite Hq. destruct Hc as [<-|Hlt]; [done|].
  unfold on_segment, ReorderBuffer.feed. rewrite (h_expected _ _ _ _ Hh), wire_seq_distance by done.
  rewrite decide_False by lia. unfold near, half_space in *. rewrite Z.geb_leb.
  destruct (Z.leb_spec 32768 (65536 + ns_number seg - expected_number s0 l)); [done|lia].
Qed.

Lemma inv_segment src s0 l b fed seg evs r :
  link_inv src s0 l b fed -> seg ∈ l_segments l ->
  expected_number s0 l - half_space <= ns_number seg ->
  on_segment (l_receiver l) (ns_seq seg) (ns_fragmented seg) (ns_data seg) = Some (evs, r) ->
  exists fed', link_inv src s0
    (Link (l_sender l) r (l_segments l)
       (map (NetAck (expected_number s0 l + zlen (handed_over evs))) (acks evs) ++ l_acks l)
       (l_submitted l) (l_delivered l ++ handed_over evs)) b fed'.
Proof.
  intros [Hs Hh Ho Hg Hp Hb Hw Hd Hsegs Hacks] Hin Hnear H.
  destruct (Hsegs seg Hin) as (Hq & Hrange & Hc). pose proof Hs as [Hwok _ _ _ Hr Hcont].
  pose proof Hwok as (H0 & _ & Hhalf).
  set (e := expected_number s0 l) in *. set (x := next_number s0 l) in *. set (n := ns_number seg) in *.
  assert (near e n) as Hne by (unfold near in *; lia).
  assert (on_segment (l_receiver l) (wire_seq n) (src n).1 (src n).2 = Some (evs, r)) as Hseg.
  { rewrite <- H. symmetry. eapply (segment_as_sent src s0 l b fed); done. }
  destruct (on_segment_spec src (l_receiver l) e fed n Hh Hg Hne)
    as (evs1 & a1 & k & H1 & Hho & Hh1 & Hg1 & Hall & _ & Hwin & ack & Hack & Htell).
  rewrite Hseg in H1. simplify_eq. rewrite Hho, Hack, length_deliveries.
  set (fed' := if decide _ then _ else _) in *. exists fed'.
  assert (fed ⊆ fed') as Hsub by (unfold fed'; case_decide; set_solver).
  assert (forall m, m ∈ fed' -> m < x) as Hb'.
  { unfold fed'. intros m Hm. case_decide; [|by apply Hb]. apply elem_of_union in Hm as [Hm|Hm]; [|by apply Hb].
    apply elem_of_singleton in Hm. lia. }
  assert (forall l', l_delivered l' = l_delivered l ++ deliveries src e k ->
            expected_number s0 l' = e + Z.of_nat k) as He.
  { unfold e, expected_number. intros l' ->. rewrite zlen_app, length_deliveries. lia. }
  assert (e + Z.of_nat k <= x) as Hle.
  { destruct k; [lia|]. assert (e + Z.of_nat k ∈ fed') as Hk by (apply Hall; lia). apply Hb' in Hk. lia. }
  split; simpl; rewrite ?He by done; try done.
  - destruct Hs as [? ? ? ? ? Hc']. split; try done. intros m Hm.
    destruct (Hc' m Hm) as (s & ? & ? & Hout). exists s. split_and!; [done|done|]. intros. by apply Hsub, Hout.
  - unfold x, next_number in *. simpl. lia.
  - intros m Hm. destruct (decide (m < e)); [apply Hsub, Hp; lia|apply Hall; lia].
  - congruence.
  - rewrite length_app. rewrite <- deliveries_app. rewrite <- Hd at 1. f_equal.
    assert (length (deliveries src e k) = k) as -> by (pose proof (length_deliveries src e k); unfold zlen in *; lia).
    done.
  - intros na Hna. apply elem_of_cons in Hna as [->|Hna]; simpl.
    + split; [lia|done].
    + destruct (Hacks na Hna). split; [lia|]. by eapply ack_tells_mono.
Qed.

(** The two halves of an ack: the slide of the base, and the holes of the bitmap, which
    may be read after more datagrams have been submitted. *)
Lemma inv_slide src s0 l b fed na now evs a :
  link_inv src s0 l b fed -> na ∈ l_acks l -> expected_number s0 l - half_space <= na_edge na ->
  slide_to (l_sender l) now (wrap 16 (ack_cumulative (na_ack na) + 1)) = Some (evs, a) ->
  sent evs = [] /\ same_receiver (l_sender l) a /\
  link_inv src s0
    (Link a (l_receiver l) (l_segments l) (l_acks l) (l_submitted l) (l_delivered l))
    (Z.max b (na_edge na)) fed.
Proof.
  intros [Hs Hh Ho Hg Hp Hb Hw Hd Hsegs Hacks] Hin Hnear H. destruct (Hacks na Hin) as [Hedge [Hcum _] ].
  rewrite Hcum, wire_seq_step, Z.sub_add in H.
  destruct (slide_to_spec src (l_sender l) b (next_number s0 l) fed now (na_edge na))
    as (evs1 & a1 & H1 & Hs1 & [Hrec Hwin] & Hsent); [done|lia|intros; apply Hp; lia|].
  rewrite H in H1. simplify_eq. split; [done|]. split; [done|].
  split; simpl; try done; [unfold expected_number, next_number in *; simpl; lia|congruence|].
  intros seg Hseg. destruct (Hsegs seg Hseg) as (? & ? & Hc).
  split; [done|]. split; [done|]. destruct Hc; [by left|right; lia].
Qed.

Lemma inv_holes src s0 l b fed na now holes evs a :
  link_inv src s0 l b fed -> na ∈ l_acks l -> expected_number s0 l - half_space <= na_edge na ->
  ack_holes (l_sender l) now (na_ack na) holes = Some (evs, a) ->
  sent evs = [] /\ same_receiver (l_sender l) a /\
  link_inv src s0 (Link a (l_receiver l) (l_segments l) (l_acks l) (l_submitted l) (l_delivered l)) b fed.
Proof.
  intros [Hs Hh Ho Hg Hp Hb Hw Hd Hsegs Hacks] Hin Hnear H. destruct (Hacks na Hin) as [Hedge Htell].
  destruct (ack_holes_spec src holes (l_sender l) b (next_number s0 l) fed now (na_ack na) (na_edge na))
    as (evs1 & a1 & H1 & Hs1 & [Hrec Hwin] & Hsent); [done|lia|done|done|].
  rewrite H in H1. simplify_eq. split; [done|]. split; [done|]. split; simpl; try done; congruence.
Qed.

Lemma inv_ack src s0 l b fed na now evs a :
  link_inv src s0 l b fed -> na ∈ l_acks l -> expected_number s0 l - half_space <= na_edge na ->
  on_ack (l_sender l) now (na_ack na) = Some (evs, a) ->
  link_inv src s0
    (Link a (l_receiver l) (label 0 evs ++ l_segments l) (l_acks l) (l_submitted l) (l_delivered l))
    (Z.max b (na_edge na)) fed.
Proof.
  intros Hinv Hin Hnear H. unfold on_ack in H. apply bind_Some in H as ([evs1 a1] & H1 & H).
  apply bind_Some in H as ([evs2 a2] & H2 & H). simplify_eq.
  destruct (inv_slide _ _ _ _ _ _ _ _ _ Hinv Hin Hnear H1) as (Hs1 & _ & Hinv1).
  destruct (inv_holes _ _ _ _ _ na _ _ _ _ Hinv1 Hin Hnear H2) as (Hs2 & _ & Hinv2).
  unfold label. rewrite sent_app, Hs1, Hs2. exact Hinv2.
Qed.

(** Losing segments keeps the invariant. *)
Lemma inv_lose src s0 l b fed segs :
  link_inv src s0 l b fed -> (forall seg, seg ∈ segs -> seg ∈ l_segments l) ->
  link_inv src s0 (Link (l_sender l) (l_receiver l) segs (l_acks l) (l_submitted l) (l_delivered l)) b fed.
Proof. intros [] Hsub. split; simpl; try done. auto. Qed.

Lemma link_reachable_inv src cfg s0 l :
  arq_window_ok (cfg_window cfg) -> link_reachable src cfg s0 l -> exists b fed, link_inv src s0 l b fed.
Proof.
  intros Hw. induction 1 as [|l l' H (b & fed & IH) Hstep]; [by eexists _, _; apply link_inv_start|].
  destruct Hstep as [l now res evs a x Hsub|l n ec evs a Hn Hrto|l seg evs r Hin Hnear Hseg
                    |l na now evs a Hin Hnear Hack|l].
  - eexists _, _. by eapply inv_submit.
  - eexists _, _. by eapply inv_timer.
  - destruct (inv_segment _ _ _ _ _ _ _ _ IH Hin Hnear Hseg) as [fed' ?]. by eexists _, _.
  - eexists _, _. by eapply inv_ack.
  - eexists b, fed. destruct IH as [Hs Hh Ho Hg Hp Hb Hwin Hd Hsegs Hacks].
    destruct Hs. split; simpl; try done.
Qed.

(** ** Theorems *)

(** C3: Over a network that loses, duplicates, delays and reorders at will (within half the
    sequence space), with spurious and stale timer expiries included, the receiver hands over
    exactly the submitted datagrams, in submission order, each once, and never one that was not
    submitted.  Both ends use the same window, which must be positive, divide the sequence
    space of 65536 and be below half of it, as the default window does; the code accepts any
    window, and delivers wrong bytes with one that does not divide the space
    ([arq_window_must_divide_sequence_space]) and stalls with one of half the space. *)
Theorem arq_delivers_in_order_exactly_once (src : Z -> bool * bytes) (cfg : udp_arq_config) (s0 : Z)
    (l : link) :
  arq_window_ok (cfg_window cfg) -> link_reachable src cfg s0 l ->
  (length (l_delivered l) <= l_submitted l)%nat /\
  l_delivered l = deliveries src s0 (length (l_delivered l)).
Proof.
  intros Hw H. destruct (link_reachable_inv src cfg s0 l Hw H) as (b & fed & [_ _ Ho _ _ _ _ Hd _ _]).
  split; [|done]. unfold expected_number, next_number, zlen in Ho. lia.
Qed.

(** Nothing is given up: while some submitted datagram is undelivered, the next
    one the receiver waits for is still outstanding in its own slot of the sender,
    with its content; its arrival makes the receiver deliver; every expiry, ack and
    segment the network can bring is processed to the end; and a submission is refused
    exactly when a full window is in flight. *)
Theorem arq_never_forgets (src : Z -> bool * bytes) (cfg : udp_arq_config) (s0 : Z) (l : link) (now : Z) :
  arq_window_ok (cfg_window cfg) -> link_reachable src cfg s0 l ->
  let e := expected_number s0 l in
  ((length (l_delivered l) < l_submitted l)%nat ->
     (exists s, m_slots (l_sender l) !! slot_of (l_sender l) (wire_seq e) = Some s /\
        a_outstanding s = true /\ (a_fragmented s, a_bytes s) = src e) /\
     (exists evs r, on_segment (l_receiver l) (wire_seq e) (src e).1 (src e).2 = Some (evs, r) /\
        exists k, handed_over evs = deliveries src e (S k))) /\
  (forall n ec, is_Some (on_timer (l_sender l) (wire_seq n) ec)) /\
  (forall na, na ∈ l_acks l -> e - half_space <= na_edge na -> is_Some (on_ack (l_sender l) now (na_ack na))) /\
  (forall seg, seg ∈ l_segments l -> e - half_space <= ns_number seg ->
     is_Some (on_segment (l_receiver l) (ns_seq seg) (ns_fragmented seg) (ns_data seg))) /\
  (exists res evs a, submit (l_sender l) now (src (next_number s0 l)).2 (src (next_number s0 l)).1
                     = Some (res, evs, a) /\
     (res = window_full <-> window_has_room (l_sender l) = false)).
Proof.
  intros Hw H. destruct (link_reachable_inv src cfg s0 l Hw H) as (b & fed & Hinv).
  pose proof Hinv as [Hs Hh Ho Hg Hp Hb Hwin Hd Hsegs Hacks]. simpl. split_and!.
  - intros Hlt. assert (expected_number s0 l < next_number s0 l) as Hlt'
      by (unfold expected_number, next_number, zlen; lia).
    split.
    + pose proof Hs as [Hwok _ _ _ _ Hc]. rewrite slot_of_wire by done.
      destruct (Hc (expected_number s0 l)) as (s & Hsl & Hsrc & Hout); [lia|].
      exists s. split_and!; try done. destruct (a_outstanding s) eqn:E; [done|]. exfalso. by apply Hg, Hout.
    + destruct (on_segment_spec src (l_receiver l) _ fed (expected_number s0 l) Hh Hg) as
        (evs & a & k & -> & Hho & _ & _ & _ & Hk & _); [unfold near, half_space; lia|].
      eexists _, _. split; [done|]. destruct k as [|k]; [specialize (Hk eq_refl); lia|]. by exists k.
  - intros n ec. destruct (on_timer_spec src _ b _ fed n ec Hs) as (evs & a & -> & _). by eexists.
  - intros na Hin Hnear. destruct (Hacks na Hin) as [Hedge Htell].
    destruct (on_ack_spec src (l_sender l) b (next_number s0 l) fed now (na_ack na) (na_edge na))
      as (evs & a & -> & _); [done|lia|intros; apply Hp; lia|done|done|by eexists].
  - intros seg Hin Hnear. destruct (segment_as_sent src s0 l b fed seg Hinv Hin Hnear) as [Hn ->].
    destruct (on_segment_spec src (l_receiver l) _ fed (ns_number seg) Hh Hg Hn) as (evs & a & k & -> & _). by eexists.
  - pose proof Hs as [ (Hw0 & _ & Hwhalf) _ Hbase Hnext Hr _].
    assert (in_flight (l_sender l) = next_number s0 l - b) as Hfl.
    { unfold in_flight. rewrite Hbase, Hnext, wire_seq_distance by (unfold near; lia). by rewrite decide_True by lia. }
    pose proof (submit_spec src _ b _ fed now Hs) as Hspec. unfold window_has_room. rewrite Hfl.
    case_decide as Hfull.
    + eexists _, _, _. split; [done|]. split; [|done]. intros _. apply Z.ltb_ge. lia.
    + destruct Hspec as (evs & a & -> & _). eexists _, _, _. split; [done|]. split; [done|].
      intros E. apply Z.ltb_ge in E. lia.
Qed.

(** The sequence space must be a multiple of the window: with a window of 3 the
    numbers 65535 and 65536, both in flight, share a slot, the second submission
    overwrites the first, and the retransmission of the first number carries the
    second datagram. *)
Theorem arq_window_must_divide_sequence_space :
  let a := udp_reliable_arq_new (UdpArqConfig 3 200 50 2000 6) 65535 in
  exists a1 a2 a3,
    submit a 0 [Byte.x01] false = Some (admitted, [Transmit 65535 [Byte.x01] false; ArmTimer 65535 200], a1) /\
    submit a1 0 [Byte.x02] false = Some (admitted, [Transmit 0 [Byte.x02] false; ArmTimer 0 200], a2) /\
    on_timer a2 65535 false = Some ([Transmit 65535 [Byte.x02] false; ArmTimer 65535 400], a3).
Proof. do 3 eexists. split; [|split]; reflexivity. Qed.

(** A window of 32768, the documented bound, wedges: when all of a full window
    has been received, the cumulative ack is at serial distance 32768 and is taken
    for an old one, whatever the state of the slots. *)
Theorem arq_full_half_space_window_wedges (a : udp_reliable_arq) (now : Z) :
  let full := set_next (set_base a 0) 32768 in
  in_flight full = 32768 /\ slide_to full now 32768 = Some ([], full).
Proof. split; reflexivity. Qed.

Definition four_window : udp_arq_config := UdpArqConfig 4 200 50 2000 6.
Definition number_src (n : Z) : bool * bytes := (false, [byte.of_Z n]).

Lemma four_window_ok : arq_window_ok (cfg_window four_window).
Proof. split; [simpl; lia|]. split; [by exists 16384|by vm_compute]. Qed.

(** The second submission arrives first, then the first. *)
Lemma two_out_of_order :
  exists l, link_reachable number_src four_window 65535 l /\ length (l_delivered l) = 2%nat.
Proof.
  eexists. split.
  - eapply link_next; [eapply link_next; [eapply link_next; [eapply link_next; [apply link_start|]|]|]|].
    + eapply (step_submit _ _ _ 0); vm_compute; reflexivity.
    + eapply (step_submit _ _ _ 0); vm_compute; reflexivity.
    + eapply (step_segment _ _ _ (NetSegment 65536 0 false [Byte.x00])); [vm_compute; constructor|vm_compute; congruence|vm_compute; reflexivity].
    + eapply (step_segment _ _ _ (NetSegment 65535 65535 false [Byte.xff])); [vm_compute; do 2 constructor|vm_compute; congruence|vm_compute; reflexivity].
  - reflexivity.
Qed.

Lemma arq_delivers_in_order_exactly_once_witness :
  exists l, link_reachable number_src four_window 65535 l /\
            l_delivered l = deliveries number_src 65535 2.
Proof.
  destruct two_out_of_order as (l & H & Hl). exists l. split; [exact H|].
  destruct (arq_delivers_in_order_exactly_once number_src four_window 65535 l four_window_ok H) as [_ Hd].
  rewrite Hl in Hd. exact Hd.
Defined.

Lemma one_submitted :
  exists l, link_reachable number_src four_window 65535 l /\ l_submitted l = 1%nat /\ l_delivered l = [].
Proof.
  eexists. split.
  - eapply link_next; [apply link_start|]. eapply (step_submit _ _ _ 0). vm_compute; reflexivity.
  - split; reflexivity.
Qed.

Lemma arq_never_forgets_witness :
  exists l, link_reachable number_src four_window 65535 l /\
    exists s, m_slots (l_sender l) !! slot_of (l_sender l) 65535 = Some s /\ a_outstanding s = true.
Proof.
  destruct one_submitted as (l & H & Hs & Hd). exists l. split; [exact H|].
  destruct (arq_never_forgets number_src four_window 65535 l 0 four_window_ok H) as [Hn _].
  unfold expected_number in Hn. rewrite Hs, Hd in Hn.
  destruct Hn as [ (s & Hsl & Ho & _) _]; [simpl; lia|]. exists s. split; [exact Hsl|exact Ho].
Defined.
