(* ===== verification/Fragmentation.v ===== *)
(** * Splitting a message into datagram fragments

    Models [lib/plexus-core/include/plexus/io/fragmentation.h]. *)

From S2P Require Import Prelude ByteOrder Varint Cursor Frame UdpWire.

(** ** Limits *)

Definition max_message_size : Z := 4 * 1024 * 1024.
Definition min_fragment_payload : Z := 128.
Definition global_default_max_message_bytes : Z := 8 * 1024 * 1024.
Definition reassembly_memory_budget : Z := 16 * 1024 * 1024.
Definition k_unlimited_message_bytes : Z := size_max.

(** [effective_max]; the topic's override is its [max_message_bytes]. *)
Definition effective_max (max_message_bytes global_default : Z) : Z :=
  if negb (max_message_bytes =? 0) then max_message_bytes else global_default.

Definition max_fragment_count : Z := (max_message_size + min_fragment_payload - 1) / min_fragment_payload.

Definition k_aead_fragment_overhead : Z := 8 + 1 + 16.

Definition effective_fragment_budget (transport_budget : Z) (aead_decorated : bool) : Z :=
  let overhead := Z.of_nat udp_fragment_header_overhead +
                  (if aead_decorated then k_aead_fragment_overhead else 0) in
  if transport_budget <=? overhead + min_fragment_payload then min_fragment_payload
  else transport_budget - overhead.

(** ** [split] *)

(** One call of the sink. *)
Record fragment : Type := Fragment { f_idx : Z; f_cnt : Z; f_slice : bytes }.

Definition fragment_at (payload : bytes) (budget frag_cnt i : Z) : fragment :=
  let offset := wrap 64 (i * budget) in
  let len := Z.min budget (wrap 64 (zlen payload - offset)) in
  Fragment (wrap 32 i) frag_cnt (take (Z.to_nat len) (drop (Z.to_nat offset) payload)).

Definition fragment_count (payload : bytes) (budget : Z) : Z :=
  let total := zlen payload in
  if total =? 0 then 1 else wrap 64 (total + budget - 1) / budget.

Definition split (payload : bytes) (transport_budget : Z) (aead_decorated : bool)
  : list fragment * Z :=
  let budget := effective_fragment_budget transport_budget aead_decorated in
  let count := fragment_count payload budget in
  let frag_cnt := wrap 32 count in
  (map (fun i => fragment_at payload budget frag_cnt (Z.of_nat i)) (seq 0 (Z.to_nat count)), frag_cnt).

(** ** Lemmas *)

Lemma effective_fragment_budget_bounds transport_budget aead :
  0 <= transport_budget ->
  min_fragment_payload <= effective_fragment_budget transport_budget aead /\
  effective_fragment_budget transport_budget aead <= Z.max min_fragment_payload transport_budget.
Proof.
  intros Ht. unfold effective_fragment_budget. set (o := Z.of_nat udp_fragment_header_overhead + _).
  assert (0 <= o) by (unfold o; destruct aead; vm_compute; congruence).
  destruct (Z.leb_spec transport_budget (o + min_fragment_payload)); unfold min_fragment_payload in *; lia.
Qed.

(** Sizes for which neither the byte count nor the fragment count wraps. *)
Definition splittable (payload : bytes) (budget : Z) : Prop :=
  0 < budget /\ zlen payload + budget < 2 ^ 64 /\ fragment_count payload budget < 2 ^ 32.

Lemma fragment_count_spec payload budget :
  splittable payload budget ->
  1 <= fragment_count payload budget /\
  (fragment_count payload budget - 1) * budget <= zlen payload <= fragment_count payload budget * budget.
Proof.
  intros (Hb & Ht & _). unfold fragment_count. pose proof (zlen_nonneg payload).
  destruct (Z.eqb_spec (zlen payload) 0) as [E|]; [rewrite E; lia|].
  rewrite wrap_small by (unfold in_width; lia).
  pose proof (Z.div_mod (zlen payload + budget - 1) budget ltac:(lia)) as E.
  pose proof (Z.mod_pos_bound (zlen payload + budget - 1) budget ltac:(lia)).
  set (q := (zlen payload + budget - 1) / budget) in *. assert (0 < q) by nia. lia.
Qed.

Lemma last_fragment_start payload budget i :
  splittable payload budget -> 0 <= i < fragment_count payload budget ->
  i * budget <= zlen payload /\ (zlen payload <> 0 -> i * budget < zlen payload).
Proof.
  intros Hs Hi. destruct (fragment_count_spec payload budget Hs) as [H1 H2].
  destruct Hs as (Hb & Ht & _). split; [nia|]. intros Hne. unfold fragment_count in *.
  pose proof (zlen_nonneg payload). destruct (Z.eqb_spec (zlen payload) 0) as [E|]; [done|].
  rewrite wrap_small in * by (unfold in_width; lia).
  pose proof (Z.div_mod (zlen payload + budget - 1) budget ltac:(lia)) as E.
  pose proof (Z.mod_pos_bound (zlen payload + budget - 1) budget ltac:(lia)).
  set (q := (zlen payload + budget - 1) / budget) in *. assert (i * budget <= (q - 1) * budget) by nia. lia.
Qed.

(** The fragments cut the payload at the multiples of the budget. *)
Lemma fragment_at_slice payload budget cnt i :
  splittable payload budget -> 0 <= i < fragment_count payload budget ->
  fragment_at payload budget cnt i
  = Fragment i cnt (take (Z.to_nat budget) (drop (Z.to_nat (i * budget)) payload)).
Proof.
  intros Hs Hi. destruct (last_fragment_start payload budget i Hs Hi) as [Hle _].
  destruct Hs as (Hb & Ht & Hc). pose proof (zlen_nonneg payload). unfold fragment_at.
  assert (0 <= i * budget) by nia.
  rewrite (wrap_small 64 (i * budget)) by (unfold in_width; lia).
  rewrite (wrap_small 32) by (unfold in_width; lia). rewrite wrap_small by (unfold in_width; lia).
  f_equal. rewrite Z2Nat.inj_min. unfold zlen.
  destruct (Nat.le_ge_cases (Z.to_nat budget) (Z.to_nat (Z.of_nat (length payload) - i * budget))) as [H1|H1].
  - by rewrite Nat.min_l.
  - rewrite Nat.min_r by done. rewrite !take_ge; try done; rewrite length_drop; lia.
Qed.

(** Slices at consecutive multiples concatenate to the payload. *)
Lemma concat_slices (payload : bytes) (b k : nat) :
  (0 < b)%nat ->
  concat (map (fun i => take b (drop (i * b) payload)) (seq 0 k)) = take (k * b) payload.
Proof.
  intros Hb. induction k as [|k IH]; [done|].
  rewrite seq_S, map_app, concat_app, IH. simpl. rewrite app_nil_r.
  rewrite <- (take_drop (k * b) payload) at 3.
  rewrite (take_app (take (k * b) payload)). rewrite take_take. f_equal.
  - f_equal. lia.
  - rewrite length_take. destruct (Nat.le_ge_cases (k * b) (length payload)).
    + rewrite Nat.min_l by done. f_equal. lia.
    + rewrite !(drop_ge payload) by done. by rewrite !take_nil.
Qed.

(** The slice carried by fragment [i]. *)
Definition slice (payload : bytes) (budget : Z) (i : nat) : bytes :=
  take (Z.to_nat budget) (drop (i * Z.to_nat budget) payload).

Lemma split_slices payload transport_budget aead :
  let budget := effective_fragment_budget transport_budget aead in
  let count := fragment_count payload budget in
  splittable payload budget ->
  split payload transport_budget aead
  = (map (fun i => Fragment (Z.of_nat i) count (slice payload budget i)) (seq 0 (Z.to_nat count)), count).
Proof.
  simpl. set (budget := effective_fragment_budget transport_budget aead). intros Hs.
  unfold split. fold budget. pose proof (fragment_count_spec payload budget Hs) as [H1 _].
  rewrite (wrap_small 32 (fragment_count payload budget)) by (destruct Hs as (? & ? & ?); unfold in_width; lia).
  f_equal. apply map_ext_in. intros i Hi. apply in_seq in Hi.
  rewrite fragment_at_slice by (done || lia). f_equal. unfold slice. do 2 f_equal.
  destruct Hs as (Hb & _). rewrite Z2Nat.inj_mul by lia. by rewrite Nat2Z.id.
Qed.

Lemma concat_all_slices payload budget :
  splittable payload budget ->
  concat (map (slice payload budget) (seq 0 (Z.to_nat (fragment_count payload budget)))) = payload.
Proof.
  intros Hs. destruct (fragment_count_spec payload budget Hs) as [H1 H2]. destruct Hs as (Hb & _).
  unfold slice. rewrite concat_slices by lia. apply take_ge. unfold zlen in H2. nia.
Qed.

(** The splitter emits the fragments 0, 1, ... in order, all announcing the same
    count, which is the number emitted; each slice is at most the budget and is not
    empty unless the message is; together they are the message; and the budget never
    falls below the floor that keeps the splitter moving. *)
Theorem split_partitions_message (payload : bytes) (transport_budget : Z) (aead : bool) :
  let budget := effective_fragment_budget transport_budget aead in
  0 <= transport_budget -> splittable payload budget ->
  let '(frags, cnt) := split payload transport_budget aead in
  map f_idx frags = map Z.of_nat (seq 0 (Z.to_nat cnt)) /\ 1 <= cnt /\ zlen frags = cnt /\
  Forall (fun f => f_cnt f = cnt /\ zlen (f_slice f) <= budget /\ (payload <> [] -> f_slice f <> [])) frags /\
  concat (map f_slice frags) = payload /\ min_fragment_payload <= budget.
Proof.
  intros budget Ht Hs. unfold budget in *. rewrite split_slices by done. fold budget in Hs |- *.
  pose proof (fragment_count_spec payload budget Hs) as [H1 H2]. split_and!.
  - rewrite map_map. done.
  - done.
  - unfold zlen. rewrite length_map, length_seq. lia.
  - apply Forall_forall. intros f Hf. apply list_elem_of_In, in_map_iff in Hf as (i & <- & Hi).
    apply in_seq in Hi. simpl. split; [done|]. destruct (last_fragment_start payload budget (Z.of_nat i) Hs) as [Ha Hb]; [lia|].
    pose proof Hs as (Hpos & _). unfold slice, zlen in *. rewrite length_take, length_drop. split; [lia|].
    intros Hne Hnil. apply (f_equal length) in Hnil. rewrite length_take, length_drop in Hnil.
    destruct payload as [|b0 payload]; [done|]. simpl in *. nia.
  - rewrite map_map. by apply concat_all_slices.
  - by apply effective_fragment_budget_bounds.
Qed.

Lemma split_partitions_message_witness :
  let '(frags, cnt) := split (zero_bytes 300) 1 false in
  cnt = 3 /\ concat (map f_slice frags) = zero_bytes 300.
Proof.
  pose proof (split_partitions_message (zero_bytes 300) 1 false ltac:(lia) ltac:(split_and!; by vm_compute)) as H.
  destruct (split (zero_bytes 300) 1 false) as [frags cnt] eqn:E. destruct H as (_ & _ & _ & _ & H & _).
  split; [|exact H]. vm_compute in E. by injection E as _ <-.
Defined.
