(* ===== verification/DatagramReassembler.v ===== *)
(** * The fragment reassembler

    Models [reassembler_flat_map.h] and [reassembler.h] of
    [lib/plexus-datagram/include/plexus/datagram/detail/].  [sizeof_vector] is
    [sizeof(std::vector<std::byte>)], a property of the platform.  The calls on the
    sinks and timers are outputs; all sinks are taken to be set. *)

From S2P Require Import Prelude ByteOrder Varint Cursor Frame UdpWire Fragmentation.

(** ** [class reassembler_flat_map] *)

Module FlatMap.

Record t (V : Type) : Type := FlatMap { m_max_entries : Z; m_entries : list (Z * V) }.
Arguments FlatMap {V}.
Arguments m_max_entries {V}.
Arguments m_entries {V}.

Definition empty {V} (max_entries : Z) : t V := FlatMap max_entries [].

Definition size {V} (m : t V) : Z := zlen (m_entries m).

(** [std::lower_bound]: the index of the first entry whose key is not below. *)
Fixpoint lower_bound {V} (l : list (Z * V)) (key : Z) : nat :=
  match l with
  | [] => 0
  | (k, _) :: l => if k <? key then S (lower_bound l key) else 0
  end.

(** An iterator is an index; [end()] is [None]. *)
Definition find {V} (m : t V) (key : Z) : option nat :=
  let i := lower_bound (m_entries m) key in
  match m_entries m !! i with
  | Some (k, _) => if k =? key then Some i else None
  | None => None
  end.

Definition emplace {V} (m : t V) (key : Z) (value : V) : option nat * t V :=
  if size m >=? m_max_entries m then (None, m) else
  let i := lower_bound (m_entries m) key in
  (Some i, FlatMap (m_max_entries m) (take i (m_entries m) ++ (key, value) :: drop i (m_entries m))).

Definition erase {V} (m : t V) (it : nat) : t V :=
  FlatMap (m_max_entries m) (take it (m_entries m) ++ drop (S it) (m_entries m)).

(** Writing through an iterator. *)
Definition update {V} (m : t V) (it : nat) (value : V) : t V :=
  match m_entries m !! it with
  | Some (k, _) => FlatMap (m_max_entries m) (<[it := (k, value)]> (m_entries m))
  | None => m
  end.

Definition cap_implied_max_partials (total_memory_cap min_entry_cost : Z) : Z :=
  total_memory_cap / min_entry_cost + 1.

(** The keys are strictly increasing. *)
Fixpoint sorted_above {V} (lo : Z) (l : list (Z * V)) : Prop :=
  match l with
  | [] => True
  | (k, _) :: l => lo < k /\ sorted_above k l
  end.

Definition wf {V} (m : t V) : Prop := exists lo, sorted_above lo (m_entries m).

(** What the table maps a key to. *)
Fixpoint assoc {V} (l : list (Z * V)) (key : Z) : option V :=
  match l with
  | [] => None
  | (k, v) :: l => if k =? key then Some v else assoc l key
  end.

Definition get {V} (m : t V) (key : Z) : option V := assoc (m_entries m) key.

Section Lemmas.
Context {V : Type}.
Implicit Types (l : list (Z * V)) (m : t V).

Lemma sorted_above_weaken lo lo' l : lo' <= lo -> sorted_above lo l -> sorted_above lo' l.
Proof. destruct l as [|[k v] l]; [done|]. simpl. intros ? [? ?]. split; [lia|done]. Qed.

Lemma assoc_below lo l key : sorted_above lo l -> key <= lo -> assoc l key = None.
Proof.
  revert lo. induction l as [|[k v] l IH]; [done|]. simpl. intros lo [Hk Hl] Hle.
  destruct (Z.eqb_spec k key); [lia|]. apply (IH k); [done|lia].
Qed.

(** Looking a key up through the sorted order finds what the table holds. *)
Lemma find_spec lo l key :
  sorted_above lo l ->
  match l !! lower_bound l key with
  | Some (k, v) => if k =? key then assoc l key = Some v else assoc l key = None
  | None => assoc l key = None
  end.
Proof.
  revert lo. induction l as [|[k v] l IH]; intros lo Hs; [done|]. destruct Hs as [Hk Hl].
  cbn [lower_bound assoc]. destruct (Z.ltb_spec k key).
  - cbn [lookup list_lookup]. rewrite (proj2 (Z.eqb_neq k key)) by lia. by eapply IH.
  - cbn [lookup list_lookup]. destruct (Z.eqb_spec k key); [done|]. apply (assoc_below k); [done|lia].
Qed.

Lemma find_Some m key it :
  wf m -> find m key = Some it -> exists v, m_entries m !! it = Some (key, v) /\ get m key = Some v.
Proof.
  intros [lo Hs] H. unfold find in H. pose proof (find_spec lo (m_entries m) key Hs) as Hf.
  destruct (m_entries m !! lower_bound (m_entries m) key) as [ [k v]|] eqn:E; [|done].
  destruct (Z.eqb_spec k key) as [->|]; [|done]. simplify_eq. by exists v.
Qed.

Lemma find_None m key : wf m -> find m key = None -> get m key = None.
Proof.
  intros [lo Hs] H. unfold find in H. pose proof (find_spec lo (m_entries m) key Hs) as Hf.
  destruct (m_entries m !! lower_bound (m_entries m) key) as [ [k v]|] eqn:E; [|done].
  by destruct (k =? key).
Qed.

Lemma insert_sorted lo l key v :
  sorted_above lo l -> assoc l key = None -> lo < key ->
  sorted_above lo (take (lower_bound l key) l ++ (key, v) :: drop (lower_bound l key) l).
Proof.
  revert lo. induction l as [|[k w] l IH]; intros lo Hs Ha Hlo; [done|]. destruct Hs as [Hk Hl].
  cbn [lower_bound assoc] in *. destruct (Z.eqb_spec k key) as [|Hne]; [done|].
  destruct (Z.ltb_spec k key).
  - cbn [take drop app sorted_above]. split; [done|]. by apply IH.
  - cbn [take drop app sorted_above]. split_and!; [done|lia|done].
Qed.

Lemma assoc_insert l key v k' :
  assoc l key = None ->
  assoc (take (lower_bound l key) l ++ (key, v) :: drop (lower_bound l key) l) k'
  = (if decide (k' = key) then Some v else assoc l k').
Proof.
  induction l as [|[k w] l IH]; intros Ha.
  - simpl. destruct (Z.eqb_spec key k'), (decide (k' = key)); congruence.
  - cbn [lower_bound assoc] in *. destruct (Z.eqb_spec k key) as [|Hne]; [done|].
    destruct (k <? key); cbn [take drop app assoc].
    + rewrite IH by done. destruct (Z.eqb_spec k k') as [->|], (decide (k' = key)); try done; congruence.
    + destruct (Z.eqb_spec key k'), (decide (k' = key)); congruence.
Qed.

Lemma sorted_lookup lo l i key v : sorted_above lo l -> l !! i = Some (key, v) -> lo < key.
Proof.
  revert lo i. induction l as [|[k w] l IH]; intros lo [|i] Hs Hi; try done; destruct Hs as [Hk Hl]; cbn in Hi.
  - by simplify_eq.
  - specialize (IH k i Hl Hi). lia.
Qed.

Lemma erase_sorted lo l i : sorted_above lo l -> sorted_above lo (take i l ++ drop (S i) l).
Proof.
  revert lo l. induction i as [|i IH]; intros lo [|[k v] l] Hs; try done.
  - destruct Hs as [Hk Hl]. cbn. by apply (sorted_above_weaken k); [lia|].
  - destruct Hs as [Hk Hl]. cbn. split; [done|]. by apply IH.
Qed.

Lemma assoc_erase lo l i key v k' :
  sorted_above lo l -> l !! i = Some (key, v) ->
  assoc (take i l ++ drop (S i) l) k' = (if decide (k' = key) then None else assoc l k').
Proof.
  revert lo i. induction l as [|[k w] l IH]; intros lo [|i] Hs Hi; try done; destruct Hs as [Hk Hl].
  - simpl in Hi. simplify_eq. cbn. case_decide as E.
    + subst. apply (assoc_below key); [done|lia].
    + by rewrite (proj2 (Z.eqb_neq key k')) by congruence.
  - cbn in Hi |- *. rewrite (IH k i Hl Hi). destruct (Z.eqb_spec k k') as [->|]; [|done].
    case_decide as E; [|done]. subst. pose proof (sorted_lookup _ _ _ _ _ Hl Hi). lia.
Qed.

End Lemmas.
End FlatMap.

(** ** [class reassembler] *)

Record entry : Type := Entry {
  e_slots : list bytes;
  e_present : list bool;
  e_received : Z;
  e_size : Z;
  e_overhead : Z;
}.

Record config : Type := Config {
  cfg_max_message_size : Z;
  cfg_total_memory_cap : Z;
  cfg_per_message_timeout : Z;
}.

Definition config_default : config :=
  Config global_default_max_message_bytes reassembly_memory_budget 5000.

Inductive outcome : Type := admitted | completed | dropped_malformed | dropped_cap.

(** The causes this component raises. *)
Inductive drop_cause : Type := cause_malformed | cause_reassembly_cap | cause_reassembly_evicted.

Inductive event : Type :=
| OnDeliver (msg : bytes)
| OnDrop (cause : drop_cause)
| ArmTimeout (msg_id : Z) (ms : Z)
| CancelTimer (msg_id : Z).

Record reassembler : Type := Reassembler {
  m_cfg : config;
  m_table : FlatMap.t entry;
  m_held : Z;
  m_dead : bool;
}.

Section Definitions.
Context (sizeof_vector : Z).

Definition structural_cost (frag_cnt : Z) : Z :=
  wrap 64 (wrap 64 (frag_cnt * sizeof_vector) + (frag_cnt + 7) / 8).

Definition reassembler_new (cfg : config) : reassembler :=
  Reassembler cfg
    (FlatMap.empty (FlatMap.cap_implied_max_partials (cfg_total_memory_cap cfg) (structural_cost 1)))
    0 false.

Definition in_flight (r : reassembler) : Z := FlatMap.size (m_table r).
Definition held_bytes (r : reassembler) : Z := m_held r.

Definition evict (r : reassembler) (msg_id : Z) : list event * reassembler :=
  match FlatMap.find (m_table r) msg_id with
  | None => ([], r)
  | Some it =>
      match FlatMap.m_entries (m_table r) !! it with
      | None => ([], r)
      | Some (_, e) =>
          ([CancelTimer msg_id],
           Reassembler (m_cfg r) (FlatMap.erase (m_table r) it)
             (wrap 64 (m_held r - (e_size e + e_overhead e))) (m_dead r))
      end
  end.

Definition open_entry (r : reassembler) (msg_id frag_cnt payload : Z)
  : option nat * list event * reassembler :=
  if wrap 64 (m_held r + structural_cost frag_cnt + payload) >? cfg_total_memory_cap (m_cfg r)
  then (None, [], r) else
  let n := Z.to_nat frag_cnt in
  let e := Entry (replicate n []) (replicate n false) 0 0 (structural_cost frag_cnt) in
  let '(it, table) := FlatMap.emplace (m_table r) msg_id e in
  match it with
  | None => (None, [], r)
  | Some it =>
      (Some it, [ArmTimeout msg_id (cfg_per_message_timeout (m_cfg r))],
       Reassembler (m_cfg r) table (wrap 64 (m_held r + e_overhead e)) (m_dead r))
  end.

Definition assemble_and_evict (r : reassembler) (msg_id : Z) (e : entry) : list event * reassembler :=
  let msg := concat (e_slots e) in
  let '(evs, r) := evict r msg_id in
  (OnDeliver msg :: evs, r).

(** [None]: the iterator or an index is out of range. *)
Definition store_fragment (r : reassembler) (it : nat) (msg_id frag_idx : Z) (data : bytes)
  : option (outcome * list event * reassembler) :=
  '(_, e) ← FlatMap.m_entries (m_table r) !! it;
  if frag_idx >=? zlen (e_slots e) then Some (dropped_malformed, [], r) else
  let i := Z.to_nat frag_idx in
  present ← e_present e !! i;
  if (present : bool) then Some (admitted, [], r) else
  if (wrap 64 (e_size e + zlen data) >? cfg_max_message_size (m_cfg r))
     || (wrap 64 (m_held r + zlen data) >? cfg_total_memory_cap (m_cfg r))
  then Some (dropped_malformed, [], r) else
  let e := Entry (<[i := data]> (e_slots e)) (<[i := true]> (e_present e)) (e_received e + 1)
             (e_size e + zlen data) (e_overhead e) in
  let r := Reassembler (m_cfg r) (FlatMap.update (m_table r) it e) (wrap 64 (m_held r + zlen data))
             (m_dead r) in
  if e_received e <? zlen (e_slots e) then Some (admitted, [], r) else
  let '(evs, r) := assemble_and_evict r msg_id e in
  Some (completed, evs, r).

Definition admit_fragment (r : reassembler) (msg_id frag_idx frag_cnt : Z) (data : bytes)
  : option (outcome * list event * reassembler) :=
  let '(it, evs, r) :=
    match FlatMap.find (m_table r) msg_id with
    | Some it => (Some it, [], r)
    | None => open_entry r msg_id frag_cnt (zlen data)
    end in
  match it with
  | None => Some (dropped_cap, evs, r)
  | Some it =>
      '(o, evs', r) ← store_fragment r it msg_id frag_idx data;
      Some (o, evs ++ evs', r)
  end.

Definition feed (r : reassembler) (msg_id frag_idx frag_cnt : Z) (data : bytes)
  : option (outcome * list event * reassembler) :=
  '(o, evs, r) ←
    (if (frag_cnt =? 0) || (frag_idx >=? frag_cnt) || (frag_cnt >? max_fragment_count)
     then Some (dropped_malformed, [], r) else admit_fragment r msg_id frag_idx frag_cnt data);
  match o with
  | dropped_malformed => Some (o, evs ++ [OnDrop cause_malformed], r)
  | dropped_cap => Some (o, evs ++ [OnDrop cause_reassembly_cap], r)
  | _ => Some (o, evs, r)
  end.

(** The completion handler [arm_timeout] gives to [async_wait]. *)
Definition on_timeout (r : reassembler) (msg_id : Z) (ec : bool) : list event * reassembler :=
  if ec || m_dead r then ([], r) else
  let '(evs, r) := evict r msg_id in
  (evs ++ [OnDrop cause_reassembly_evicted], r).

Definition cancel (r : reassembler) : list event * reassembler :=
  (map (fun kv => CancelTimer kv.1) (FlatMap.m_entries (m_table r)),
   Reassembler (m_cfg r) (m_table r) (m_held r) true).

End Definitions.

(** ** Accounting *)

(** What an entry is charged. *)
Definition charge (kv : Z * entry) : Z := e_size kv.2 + e_overhead kv.2.

Fixpoint total (l : list (Z * entry)) : Z :=
  match l with
  | [] => 0
  | kv :: l => charge kv + total l
  end.

Lemma total_app l k : total (l ++ k) = total l + total k.
Proof. induction l as [|kv l IH]; simpl; [done|]. rewrite IH. lia. Qed.

Lemma total_insert l i kv : total (take i l ++ kv :: drop i l) = total l + charge kv.
Proof.
  rewrite total_app. simpl. rewrite <- (take_drop i l) at 3. rewrite total_app. lia.
Qed.

Lemma total_erase l i kv :
  l !! i = Some kv -> total (take i l ++ drop (S i) l) = total l - charge kv.
Proof.
  intros H. rewrite <- (take_drop_middle l i kv H) at 3. rewrite !total_app. simpl. lia.
Qed.

Lemma total_update l i kv kv' :
  l !! i = Some kv -> total (<[i := kv']> l) = total l - charge kv + charge kv'.
Proof.
  intros H. assert (i < length l)%nat by (by apply lookup_lt_is_Some_1).
  rewrite insert_take_drop by done. rewrite total_app. simpl.
  rewrite <- (take_drop_middle l i kv H) at 3. rewrite total_app. simpl. lia.
Qed.

Section Accounting.
Context (sizeof_vector : Z).

(** Sizes for which the [std::size_t] sums do not wrap. *)
Definition limits_ok (cfg : config) : Prop :=
  0 < sizeof_vector < 2 ^ 16 /\ 0 <= cfg_total_memory_cap cfg < 2 ^ 62 /\ 0 <= cfg_max_message_size cfg.

Record entry_ok (cfg : config) (e : entry) : Prop := EntryOk {
  eo_present : length (e_present e) = length (e_slots e);
  eo_absent : forall i, e_present e !! i = Some false -> e_slots e !! i = Some [];
  eo_size : e_size e = zlen (concat (e_slots e)) /\ e_size e <= cfg_max_message_size cfg;
  eo_overhead : e_overhead e = structural_cost sizeof_vector (zlen (e_slots e)) /\ 0 <= e_overhead e;
}.

Record reassembler_inv (r : reassembler) : Prop := ReassemblerInv {
  ri_limits : limits_ok (m_cfg r);
  ri_wf : FlatMap.wf (m_table r);
  ri_entries : Forall (fun kv => entry_ok (m_cfg r) kv.2) (FlatMap.m_entries (m_table r));
  ri_held : m_held r = total (FlatMap.m_entries (m_table r));
  ri_cap : m_held r <= cfg_total_memory_cap (m_cfg r);
  ri_count : FlatMap.size (m_table r) <= Z.max 0 (FlatMap.m_max_entries (m_table r));
}.

Lemma structural_cost_small n :
  0 < sizeof_vector < 2 ^ 16 -> 0 <= n <= max_fragment_count ->
  structural_cost sizeof_vector n = n * sizeof_vector + (n + 7) / 8 /\
  0 <= structural_cost sizeof_vector n < 2 ^ 40.
Proof.
  intros Hs Hn. change max_fragment_count with 32768 in Hn. unfold structural_cost.
  assert (0 <= n * sizeof_vector < 2 ^ 32) by nia.
  rewrite (wrap_small 64 (n * sizeof_vector)) by (unfold in_width; lia).
  assert (0 <= (n + 7) / 8 <= 5000) by dlia.
  rewrite wrap_small by (unfold in_width; lia). lia.
Qed.

Lemma entry_charge cfg kv : entry_ok cfg kv.2 -> 0 <= charge kv.
Proof. intros [_ _ [H _] [_ ?] ]. unfold charge. rewrite H. pose proof (zlen_nonneg (concat (e_slots kv.2))). lia. Qed.

Lemma total_nonneg cfg l : Forall (fun kv => entry_ok cfg kv.2) l -> 0 <= total l.
Proof.
  induction 1 as [|kv l H _ IH]; [done|]. simpl. pose proof (entry_charge cfg kv H). lia.
Qed.

Lemma total_lookup cfg l i kv :
  Forall (fun kv => entry_ok cfg kv.2) l -> l !! i = Some kv -> 0 <= charge kv <= total l.
Proof.
  intros Hl Hi. rewrite <- (take_drop_middle l i kv Hi). rewrite total_app. simpl.
  pose proof (total_nonneg cfg (take i l) ltac:(by apply Forall_take)).
  pose proof (total_nonneg cfg (drop (S i) l) ltac:(by apply Forall_drop)).
  pose proof (entry_charge cfg kv (Forall_lookup_1 _ _ _ _ Hl Hi)). lia.
Qed.

Lemma wrap64_small x : 0 <= x < 2 ^ 64 -> wrap 64 x = x.
Proof. apply wrap_small. Qed.

Lemma evict_inv r id : reassembler_inv r -> reassembler_inv (evict r id).2 /\ m_cfg (evict r id).2 = m_cfg r.
Proof.
  intros Hinv. pose proof Hinv as [Hlim [lo Hwf] Hent Hheld Hcap Hcount]. unfold evict.
  destruct (FlatMap.find (m_table r) id) as [it|]; [|done].
  destruct (FlatMap.m_entries (m_table r) !! it) as [ [k e]|] eqn:Hit; [|done].
  destruct (total_lookup _ _ _ _ Hent Hit) as [H0 H1]. unfold charge in *. simpl in *.
  destruct Hlim as (Hsz & Hc & Hm).
  assert (wrap 64 (m_held r - (e_size e + e_overhead e)) = m_held r - (e_size e + e_overhead e)) as Hwr
    by (apply wrap64_small; lia).
  split; [|done]. split; simpl; rewrite ?Hwr.
  - done.
  - exists lo. by apply FlatMap.erase_sorted.
  - apply Forall_app. split; [by apply Forall_take|by apply Forall_drop].
  - rewrite (total_erase _ _ _ Hit). unfold charge. simpl. lia.
  - lia.
  - unfold FlatMap.size, zlen in *. simpl. rewrite length_app, length_take, length_drop. lia.
Qed.

Lemma open_entry_inv r id cnt payload :
  reassembler_inv r -> 1 <= cnt <= max_fragment_count -> 0 <= payload < 2 ^ 62 ->
  FlatMap.get (m_table r) id = None ->
  let '(it, evs, r') := open_entry sizeof_vector r id cnt payload in
  reassembler_inv r' /\ m_cfg r' = m_cfg r.
Proof.
  intros Hinv Hcnt Hpay Hnone. pose proof Hinv as [Hlim [lo Hwf] Hent Hheld Hcap Hcount]. unfold open_entry.
  destruct Hlim as (Hsz & Hc & Hm). pose proof (total_nonneg _ _ Hent).
  destruct (structural_cost_small cnt Hsz ltac:(lia)) as [_ Hcost].
  rewrite wrap64_small by lia. rewrite Z.gtb_ltb.
  destruct (Z.ltb_spec (cfg_total_memory_cap (m_cfg r)) (m_held r + structural_cost sizeof_vector cnt + payload));
    [done|].
  unfold FlatMap.emplace. destruct (_ >=? _) eqn:Hfull; [done|].
  rewrite Z.geb_leb in Hfull. apply Z.leb_gt in Hfull. split; [|done].
  assert (entry_ok (m_cfg r) (Entry (replicate (Z.to_nat cnt) []) (replicate (Z.to_nat cnt) false) 0 0
            (structural_cost sizeof_vector cnt))) as He.
  { assert (concat (replicate (Z.to_nat cnt) []) = ([] : bytes)) as Ec by (induction (Z.to_nat cnt); done).
    split; simpl.
    - by rewrite !length_replicate.
    - intros i Hi. apply lookup_replicate in Hi as [_ Hi]. by apply lookup_replicate_2.
    - rewrite Ec. done.
    - unfold zlen. rewrite length_replicate, Z2Nat.id by lia. split; [done|lia]. }
  split; simpl; rewrite ?wrap64_small by lia.
  - done.
  - exists (Z.min lo (id - 1)). apply FlatMap.insert_sorted; [|done|lia].
    by apply (FlatMap.sorted_above_weaken lo); [lia|].
  - apply Forall_app. split; [by apply Forall_take|]. constructor; [done|by apply Forall_drop].
  - rewrite total_insert. unfold charge. simpl. lia.
  - lia.
  - unfold FlatMap.size, zlen in *. simpl. rewrite length_app, length_take. simpl. rewrite length_drop. lia.
Qed.

Lemma zlen_concat_insert (xs : list bytes) i y :
  (i < length xs)%nat -> zlen (concat (<[i := y]> xs)) <= zlen (concat xs) + zlen y /\
  (xs !! i = Some [] -> zlen (concat (<[i := y]> xs)) = zlen (concat xs) + zlen y).
Proof.
  intros Hi. destruct (lookup_lt_is_Some_2 xs i Hi) as [x Hx].
  assert (concat xs = concat (take i xs) ++ x ++ concat (drop (S i) xs)) as Ec.
  { rewrite <- (take_drop_middle xs i x Hx) at 1. by rewrite concat_app. }
  rewrite insert_take_drop by done. rewrite concat_app, Ec. simpl. rewrite !zlen_app.
  pose proof (zlen_nonneg x). split; [lia|].
  intros E. rewrite Hx in E. simplify_eq. change (zlen []) with 0. lia.
Qed.

Lemma wf_update (t : FlatMap.t entry) it e : FlatMap.wf t -> FlatMap.wf (FlatMap.update t it e).
Proof.
  intros [lo H]. unfold FlatMap.update. destruct (FlatMap.m_entries t !! it) as [ [k v]|] eqn:E; [|by exists lo].
  exists lo. simpl. revert lo it H E. induction (FlatMap.m_entries t) as [|[k' v'] l IH]; intros lo [|it] H E;
    try done; simpl in *; destruct H as [H1 H2].
  - by simplify_eq.
  - split; [done|]. by apply IH.
Qed.

Lemma store_fragment_inv r it id idx data :
  reassembler_inv r -> is_Some (FlatMap.m_entries (m_table r) !! it) -> 0 <= idx -> zlen data < 2 ^ 62 ->
  exists o evs r', store_fragment r it id idx data = Some (o, evs, r') /\
    reassembler_inv r' /\ m_cfg r' = m_cfg r.
Proof.
  intros Hinv [ [k e] Hit] Hidx Hdata. pose proof Hinv as [Hlim Hwf Hent Hheld Hcap Hcount].
  unfold store_fragment. rewrite Hit. cbn [mbind option_bind].
  pose proof (Forall_lookup_1 _ _ _ _ Hent Hit) as [Hp Ha [Hs Hm] [Ho Ho'] ]. cbn [snd] in *.
  rewrite Z.geb_leb. destruct (Z.leb_spec (zlen (e_slots e)) idx); [by eexists _, _, _|].
  assert (Z.to_nat idx < length (e_slots e))%nat as Hi by (unfold zlen in *; lia).
  destruct (lookup_lt_is_Some_2 (e_present e) (Z.to_nat idx)) as [p Hpr]; [lia|]. rewrite Hpr. cbn [mbind option_bind].
  destruct p; [by eexists _, _, _|].
  destruct (total_lookup _ _ _ _ Hent Hit) as [Hc0 Hc1]. unfold charge in *. cbn [snd] in *.
  destruct Hlim as (Hsz & Hc & Hmx). pose proof (zlen_nonneg data). pose proof (zlen_nonneg (concat (e_slots e))).
  rewrite !wrap64_small by lia. rewrite !Z.gtb_ltb.
  destruct (Z.ltb_spec (cfg_max_message_size (m_cfg r)) (e_size e + zlen data)); [by eexists _, _, _|].
  destruct (Z.ltb_spec (cfg_total_memory_cap (m_cfg r)) (m_held r + zlen data)); [by eexists _, _, _|].
  cbn [orb]. set (e' := Entry _ _ _ _ _). set (r' := Reassembler _ _ _ _).
  assert (reassembler_inv r') as Hinv'.
  { split; simpl.
    - done.
    - by apply wf_update.
    - unfold FlatMap.update. rewrite Hit. simpl. apply Forall_insert; [done|]. simpl.
      destruct (zlen_concat_insert (e_slots e) (Z.to_nat idx) data Hi) as [_ Hcat]. split; simpl.
      + by rewrite !length_insert.
      + intros j Hj. destruct (decide (j = Z.to_nat idx)) as [->|].
        * rewrite list_lookup_insert_eq in Hj by lia. done.
        * rewrite list_lookup_insert_ne in Hj by done. rewrite list_lookup_insert_ne by done. by apply Ha.
      + rewrite Hcat by (by apply Ha). lia.
      + unfold zlen in *. rewrite length_insert. done.
    - unfold FlatMap.update. rewrite Hit. simpl. rewrite (total_update _ _ _ _ Hit). unfold charge. simpl. lia.
    - lia.
    - unfold FlatMap.update. rewrite Hit. unfold FlatMap.size, zlen in *. simpl. by rewrite length_insert. }
  destruct (e_received e' <? zlen (e_slots e')); [by eexists _, _, _|].
  unfold assemble_and_evict. destruct (evict_inv r' id Hinv') as [Hev Hcf].
  destruct (evict r' id) as [evs r2] eqn:E. eexists _, _, _. split; [done|]. done.
Qed.

Lemma lower_bound_insert (l : list (Z * entry)) key v :
  FlatMap.assoc l key = None ->
  FlatMap.lower_bound (take (FlatMap.lower_bound l key) l ++ (key, v) :: drop (FlatMap.lower_bound l key) l) key
  = FlatMap.lower_bound l key.
Proof.
  induction l as [|[k w] l IH]; intros Ha; simpl.
  - by rewrite Z.ltb_irrefl.
  - cbn [FlatMap.assoc] in Ha. destruct (Z.eqb_spec k key); [done|].
    destruct (k <? key) eqn:E; simpl; [rewrite E; by rewrite IH|by rewrite Z.ltb_irrefl].
Qed.

Lemma lower_bound_le (l : list (Z * entry)) key : (FlatMap.lower_bound l key <= length l)%nat.
Proof. induction l as [|[k w] l IH]; simpl; [done|]. case_match; lia. Qed.

Lemma admit_fragment_inv r id idx cnt data :
  reassembler_inv r -> 0 <= idx -> 1 <= cnt <= max_fragment_count -> zlen data < 2 ^ 62 ->
  exists o evs r', admit_fragment sizeof_vector r id idx cnt data = Some (o, evs, r') /\
    reassembler_inv r' /\ m_cfg r' = m_cfg r.
Proof.
  intros Hinv Hidx Hcnt Hdata. unfold admit_fragment. pose proof (ri_wf _ Hinv) as Hwf.
  destruct (FlatMap.find (m_table r) id) as [it|] eqn:Hf.
  - destruct (FlatMap.find_Some _ _ _ Hwf Hf) as (v & Hv & _).
    destruct (store_fragment_inv r it id idx data) as (o & evs & r' & -> & H1 & H2); [done|by rewrite Hv|done..|].
    cbn [mbind option_bind]. by eexists _, _, _.
  - apply FlatMap.find_None in Hf; [|done].
    pose proof (open_entry_inv r id cnt (zlen data) Hinv Hcnt ltac:(pose proof (zlen_nonneg data); lia) Hf) as Ho.
    destruct (open_entry sizeof_vector r id cnt (zlen data)) as [ [it evs] r1] eqn:E.
    destruct Ho as [Hinv1 Hcf1]. destruct it as [it|]; [|by eexists _, _, _].
    assert (is_Some (FlatMap.m_entries (m_table r1) !! it)) as Hit.
    { unfold open_entry in E. case_match; [by simplify_eq|]. unfold FlatMap.emplace in E.
      destruct (FlatMap.size (m_table r) >=? _); simplify_eq. simpl. eexists. apply list_lookup_middle.
      rewrite length_take. pose proof (lower_bound_le (FlatMap.m_entries (m_table r)) id). lia. }
    destruct (store_fragment_inv r1 it id idx data) as (o & evs' & r' & -> & H1 & H2); [done..|].
    cbn [mbind option_bind]. eexists _, _, _. split; [done|]. split; [done|congruence].
Qed.

Lemma feed_inv r id idx cnt data :
  reassembler_inv r -> 0 <= idx -> 0 <= cnt -> zlen data < 2 ^ 62 ->
  exists o evs r', feed sizeof_vector r id idx cnt data = Some (o, evs, r') /\
    reassembler_inv r' /\ m_cfg r' = m_cfg r.
Proof.
  intros Hinv Hidx Hcnt Hdata. unfold feed.
  destruct (_ || _) eqn:Hbad; [by eexists _, _, _|].
  apply orb_false_iff in Hbad as [Hbad H3]. apply orb_false_iff in Hbad as [H1 H2].
  apply Z.eqb_neq in H1. rewrite Z.gtb_ltb in H3. apply Z.ltb_ge in H3.
  destruct (admit_fragment_inv r id idx cnt data) as (o & evs & r' & -> & Hi & Hc); [done|lia|lia|done|].
  cbn [mbind option_bind]. destruct o; by eexists _, _, _.
Qed.

(** Every state the reassembler can be in, whatever the network and the timers do. *)
Inductive reachable (cfg : config) : reassembler -> Prop :=
| reachable_new : reachable cfg (reassembler_new sizeof_vector cfg)
| reachable_feed r id idx cnt data o evs r' :
    reachable cfg r -> 0 <= idx -> 0 <= cnt -> zlen data < 2 ^ 62 ->
    feed sizeof_vector r id idx cnt data = Some (o, evs, r') -> reachable cfg r'
| reachable_timeout r id ec : reachable cfg r -> reachable cfg (on_timeout r id ec).2
| reachable_cancel r : reachable cfg r -> reachable cfg (cancel r).2.

Lemma reachable_inv cfg r : limits_ok cfg -> reachable cfg r -> reassembler_inv r /\ m_cfg r = cfg.
Proof.
  intros Hlim. induction 1 as [|r id idx cnt data o evs r' H (IH & Hc) Hi Hcn Hd Hf|r id ec H (IH & Hc)|r H (IH & Hc)].
  - split; [|done]. split; simpl; try done.
    + by exists 0.
    + apply Hlim.
    + unfold FlatMap.size, zlen. simpl. lia.
  - destruct (feed_inv r id idx cnt data IH Hi Hcn Hd) as (? & ? & ? & Hf' & ? & ?). rewrite Hf in Hf'.
    simplify_eq. done.
  - unfold on_timeout. destruct (ec || m_dead r); [done|]. destruct (evict_inv r id IH) as [? ?].
    destruct (evict r id). simpl in *. split; [done|congruence].
  - split; [|done]. by destruct IH.
Qed.

(** C25: for any sequence of fragments, however malformed, timeouts and cancellation,
    the bytes and slot tables held are exactly accounted for, never exceed the
    configured total, no message grows past its ceiling, and every feed returns. *)
Theorem reassembler_memory_capped (cfg : config) (r : reassembler) (id idx cnt : Z) (data : bytes) :
  limits_ok cfg -> reachable cfg r ->
  held_bytes r = total (FlatMap.m_entries (m_table r)) /\
  held_bytes r <= cfg_total_memory_cap cfg /\
  Forall (fun kv => zlen (concat (e_slots kv.2)) <= cfg_max_message_size cfg /\
                    e_overhead kv.2 = structural_cost sizeof_vector (zlen (e_slots kv.2)))
         (FlatMap.m_entries (m_table r)) /\
  (0 <= idx -> 0 <= cnt -> zlen data < 2 ^ 62 -> is_Some (feed sizeof_vector r id idx cnt data)).
Proof.
  intros Hlim H. destruct (reachable_inv cfg r Hlim H) as [Hinv <-]. pose proof Hinv as [_ _ Hent Hheld Hcap _].
  split_and!; [done|done| |].
  - eapply Forall_impl; [done|]. intros kv [_ _ [Hs Hm] [Ho _] ]. rewrite <- Hs. done.
  - intros. destruct (feed_inv r id idx cnt data) as (? & ? & ? & -> & _); [done..|]. by eexists.
Qed.

(** ** Reassembling one message

    The entry of a message of [cnt] slices [sl 0, sl 1, ...] of which those in [got]
    have arrived. *)

Definition arrived (sl : nat -> bytes) (got : gset nat) (i : nat) : bytes :=
  if decide (i ∈ got) then sl i else [].

Definition partial (sl : nat -> bytes) (cnt : nat) (got : gset nat) : entry :=
  let slots := map (arrived sl got) (seq 0 cnt) in
  Entry slots (map (fun i => bool_decide (i ∈ got)) (seq 0 cnt)) (Z.of_nat (size got))
    (zlen (concat slots)) (structural_cost sizeof_vector (Z.of_nat cnt)).

(** The reassembler [r] with that entry added under [id]. *)
Definition opened (r : reassembler) (id : Z) (e : entry) : reassembler :=
  let l := FlatMap.m_entries (m_table r) in
  let i := FlatMap.lower_bound l id in
  Reassembler (m_cfg r)
    (FlatMap.FlatMap (FlatMap.m_max_entries (m_table r)) (take i l ++ (id, e) :: drop i l))
    (m_held r + charge (id, e)) (m_dead r).

Lemma lookup_map_seq {A} (f : nat -> A) cnt i : (i < cnt)%nat -> map f (seq 0 cnt) !! i = Some (f i).
Proof. intros. change (map f (seq 0 cnt)) with (f <$> seq 0 cnt). by rewrite list_lookup_fmap, lookup_seq_lt. Qed.

Lemma insert_map_seq {A} (f g : nat -> A) cnt i :
  (i < cnt)%nat -> (forall j, j <> i -> g j = f j) ->
  <[i := g i]> (map f (seq 0 cnt)) = map g (seq 0 cnt).
Proof.
  intros Hi Hfg. apply list_eq. intros j. destruct (decide (j < cnt)%nat) as [Hj|Hj].
  - rewrite (lookup_map_seq g) by done. destruct (decide (j = i)) as [->|].
    + apply list_lookup_insert_eq. by rewrite length_map, length_seq.
    + rewrite list_lookup_insert_ne by done. rewrite lookup_map_seq by done. by rewrite Hfg.
  - rewrite !lookup_ge_None_2; rewrite ?length_insert, ?length_map, ?length_seq; done || lia.
Qed.

Lemma arrived_insert sl got i cnt :
  (i < cnt)%nat -> i ∉ got ->
  <[i := sl i]> (map (arrived sl got) (seq 0 cnt)) = map (arrived sl ({[i]} ∪ got)) (seq 0 cnt).
Proof.
  intros Hi Hn. rewrite <- (insert_map_seq (arrived sl got) (arrived sl ({[i]} ∪ got)) cnt i Hi).
  - f_equal. unfold arrived. by rewrite decide_True by set_solver.
  - intros j Hj. unfold arrived. destruct (decide (j ∈ got)).
    + by rewrite decide_True by set_solver.
    + by rewrite decide_False by set_solver.
Qed.

Lemma zlen_concat_mono (f g : nat -> bytes) (l : list nat) :
  (forall i, zlen (f i) <= zlen (g i)) -> zlen (concat (map f l)) <= zlen (concat (map g l)).
Proof.
  intros H. induction l as [|i l IH]; [done|]. simpl. rewrite !zlen_app. specialize (H i). lia.
Qed.

Lemma arrived_bound sl got cnt :
  zlen (concat (map (arrived sl got) (seq 0 cnt))) <= zlen (concat (map sl (seq 0 cnt))).
Proof.
  apply zlen_concat_mono. intros i. unfold arrived. case_decide; [done|]. apply zlen_nonneg.
Qed.

Lemma zlen_arrived_insert sl got i cnt :
  (i < cnt)%nat -> i ∉ got ->
  zlen (concat (map (arrived sl ({[i]} ∪ got)) (seq 0 cnt)))
  = zlen (concat (map (arrived sl got) (seq 0 cnt))) + zlen (sl i).
Proof.
  intros Hi Hn. rewrite <- arrived_insert by done. apply zlen_concat_insert.
  - by rewrite length_map, length_seq.
  - rewrite lookup_map_seq by done. unfold arrived. by rewrite decide_False.
Qed.

(** All the conditions under which the message fits. *)
Record fits (r : reassembler) (id : Z) (sl : nat -> bytes) (cnt : nat) : Prop := Fits {
  ft_inv : reassembler_inv r;
  ft_absent : FlatMap.get (m_table r) id = None;
  ft_count : 1 <= Z.of_nat cnt <= max_fragment_count;
  ft_room : FlatMap.size (m_table r) < FlatMap.m_max_entries (m_table r);
  ft_size : zlen (concat (map sl (seq 0 cnt))) <= cfg_max_message_size (m_cfg r);
  ft_cap : m_held r + structural_cost sizeof_vector (Z.of_nat cnt) + zlen (concat (map sl (seq 0 cnt)))
           <= cfg_total_memory_cap (m_cfg r);
}.

Lemma find_opened r id e :
  FlatMap.wf (m_table r) -> FlatMap.get (m_table r) id = None ->
  let i := FlatMap.lower_bound (FlatMap.m_entries (m_table r)) id in
  FlatMap.find (m_table (opened r id e)) id = Some i /\
  FlatMap.m_entries (m_table (opened r id e)) !! i = Some (id, e).
Proof.
  intros _ Hn. simpl.
  set (l := FlatMap.m_entries (m_table r)). set (i := FlatMap.lower_bound l id).
  assert ((take i l ++ (id, e) :: drop i l) !! i = Some (id, e)) as Hl.
  { apply list_lookup_middle. rewrite length_take. pose proof (lower_bound_le l id). unfold i. lia. }
  split; [|done]. unfold FlatMap.find. simpl. fold l i.
  unfold i at 1. rewrite lower_bound_insert by done. fold i. rewrite Hl, Z.eqb_refl.
  f_equal. unfold i. by rewrite lower_bound_insert.
Qed.

Lemma erase_middle {A} (l1 l2 : list A) x i :
  length l1 = i -> take i (l1 ++ x :: l2) ++ drop (S i) (l1 ++ x :: l2) = l1 ++ l2.
Proof.
  intros <-. rewrite take_app_length, drop_app_ge by lia.
  by replace (S (length l1) - length l1)%nat with 1%nat by lia.
Qed.

Lemma erase_opened r id e :
  let l := FlatMap.m_entries (m_table r) in
  let i := FlatMap.lower_bound l id in
  FlatMap.erase (m_table (opened r id e)) i = m_table r.
Proof.
  simpl. set (l := FlatMap.m_entries (m_table r)). set (i := FlatMap.lower_bound l id).
  assert (length (take i l) = i) as Hi.
  { rewrite length_take. pose proof (lower_bound_le l id). unfold i. lia. }
  unfold FlatMap.erase, opened. cbn [m_table FlatMap.m_entries FlatMap.m_max_entries]. fold l. fold i.
  rewrite erase_middle by done. rewrite take_drop. unfold l. by destruct (m_table r).
Qed.

Lemma update_opened r id e e' :
  let i := FlatMap.lower_bound (FlatMap.m_entries (m_table r)) id in
  FlatMap.wf (m_table r) -> FlatMap.get (m_table r) id = None ->
  FlatMap.update (m_table (opened r id e)) i e' = m_table (opened r id e').
Proof.
  intros i Hwf Hn. destruct (find_opened r id e Hwf Hn) as [_ Hl]. fold i in Hl.
  unfold FlatMap.update. rewrite Hl. unfold opened. cbn [m_table FlatMap.m_entries FlatMap.m_max_entries].
  fold i. f_equal. assert (length (take i (FlatMap.m_entries (m_table r))) = i) as Hi.
  { rewrite length_take. pose proof (lower_bound_le (FlatMap.m_entries (m_table r)) id). unfold i. lia. }
  rewrite <- Hi at 1. rewrite <- (Nat.add_0_r (length (take i _))). by rewrite insert_app_r.
Qed.

Definition in_range (cnt : nat) (got : gset nat) : Prop := forall i, i ∈ got -> (i < cnt)%nat.

Lemma charge_partial r id sl cnt got :
  fits r id sl cnt ->
  0 <= charge (id, partial sl cnt got) /\
  m_held r + charge (id, partial sl cnt got) <= cfg_total_memory_cap (m_cfg r) /\ 0 <= m_held r.
Proof.
  intros [Hinv _ Hc _ _ Hcap]. pose proof (arrived_bound sl got cnt). destruct Hinv as [ (Hsz & Hm & _) _ Hent Hheld _ _].
  pose proof (total_nonneg _ _ Hent). destruct (structural_cost_small (Z.of_nat cnt) Hsz ltac:(lia)) as [_ Hcost].
  unfold charge, partial. cbn [snd e_size e_overhead].
  pose proof (zlen_nonneg (concat (map (arrived sl got) (seq 0 cnt)))). lia.
Qed.

(** A fragment that has not arrived yet. *)
Lemma store_new r id sl cnt got i :
  fits r id sl cnt -> in_range cnt got -> (i < cnt)%nat -> i ∉ got ->
  let it := FlatMap.lower_bound (FlatMap.m_entries (m_table r)) id in
  store_fragment (opened r id (partial sl cnt got)) it id (Z.of_nat i) (sl i)
  = Some (if decide (size got + 1 < cnt)%nat
          then (admitted, [], opened r id (partial sl cnt ({[i]} ∪ got)))
          else (completed, [OnDeliver (concat (map (arrived sl ({[i]} ∪ got)) (seq 0 cnt))); CancelTimer id], r)).
Proof.
  intros Hfits Hr Hi Hn it. pose proof Hfits as [Hinv Habs Hc Hroom Hsize Hcap].
  pose proof (ri_wf _ Hinv) as Hwf. destruct (find_opened r id (partial sl cnt got) Hwf Habs) as [_ Hl]. fold it in Hl.
  pose proof (ri_limits _ Hinv) as (_ & Hcapr & _).
  destruct (charge_partial r id sl cnt got Hfits) as (Hch & Hchc & Hh0).
  destruct (charge_partial r id sl cnt ({[i]} ∪ got) Hfits) as (Hch' & Hchc' & _).
  pose proof (zlen_arrived_insert sl got i cnt Hi Hn) as Hz.
  pose proof (arrived_bound sl ({[i]} ∪ got) cnt) as Hb. pose proof (zlen_nonneg (sl i)).
  unfold store_fragment. rewrite Hl. cbn [mbind option_bind].
  assert (zlen (e_slots (partial sl cnt got)) = Z.of_nat cnt) as Hlen.
  { unfold zlen, partial. cbn [e_slots]. by rewrite length_map, length_seq. }
  rewrite Hlen, Z.geb_leb. destruct (Z.leb_spec (Z.of_nat cnt) (Z.of_nat i)); [lia|]. rewrite Nat2Z.id.
  assert (e_present (partial sl cnt got) !! i = Some false) as ->.
  { unfold partial. cbn [e_present]. rewrite lookup_map_seq by done. f_equal. by apply bool_decide_eq_false. }
  cbn [mbind option_bind]. cbn [m_cfg m_held opened].
  assert (e_size (partial sl cnt got) = zlen (concat (map (arrived sl got) (seq 0 cnt)))) as Hes by done.
  assert (charge (id, partial sl cnt ({[i]} ∪ got)) = charge (id, partial sl cnt got) + zlen (sl i)) as Hchg.
  { unfold charge, partial. cbn [snd e_size e_overhead]. lia. }
  assert (0 <= zlen (concat (map (arrived sl got) (seq 0 cnt))) <= charge (id, partial sl cnt got)).
  { split; [apply zlen_nonneg|]. unfold charge, partial. cbn [snd e_size e_overhead].
    destruct Hinv as [ (Hsz & _) _ _ _ _ _]. destruct (structural_cost_small (Z.of_nat cnt) Hsz ltac:(lia)). lia. }
  rewrite !wrap64_small by lia. rewrite !Z.gtb_ltb.
  destruct (Z.ltb_spec (cfg_max_message_size (m_cfg r)) (e_size (partial sl cnt got) + zlen (sl i))); [lia|].
  destruct (Z.ltb_spec (cfg_total_memory_cap (m_cfg r)) (m_held r + charge (id, partial sl cnt got) + zlen (sl i))); [lia|].
  cbn [orb].
  assert (Entry (<[i:=sl i]> (e_slots (partial sl cnt got))) (<[i:=true]> (e_present (partial sl cnt got)))
            (e_received (partial sl cnt got) + 1) (e_size (partial sl cnt got) + zlen (sl i))
            (e_overhead (partial sl cnt got)) = partial sl cnt ({[i]} ∪ got)) as ->.
  { unfold partial. cbn [e_slots e_present e_received e_size e_overhead]. f_equal.
    - by apply arrived_insert.
    - rewrite <- (insert_map_seq (fun j => bool_decide (j ∈ got)) (fun j => bool_decide (j ∈ {[i]} ∪ got)) cnt i Hi).
      + f_equal. symmetry. apply bool_decide_eq_true. set_solver.
      + intros j Hj. apply bool_decide_ext. set_solver.
    - rewrite size_union, size_singleton by set_solver. lia.
    - lia. }
  assert (Reassembler (m_cfg r) (FlatMap.update (m_table (opened r id (partial sl cnt got))) it (partial sl cnt ({[i]} ∪ got)))
            (m_held r + charge (id, partial sl cnt got) + zlen (sl i)) (m_dead r)
          = opened r id (partial sl cnt ({[i]} ∪ got))) as Hop.
  { unfold it. rewrite update_opened by done. unfold opened at 1 2. cbn [m_table]. f_equal. lia. }
  change (m_dead (opened r id (partial sl cnt got))) with (m_dead r). rewrite Hop.
  assert (e_received (partial sl cnt ({[i]} ∪ got)) = Z.of_nat (size got + 1)) as ->.
  { unfold partial. cbn [e_received]. rewrite size_union, size_singleton by set_solver. lia. }
  assert (zlen (e_slots (partial sl cnt ({[i]} ∪ got))) = Z.of_nat cnt) as ->.
  { unfold zlen, partial. cbn [e_slots]. by rewrite length_map, length_seq. }
  case_decide as Hdone.
  - destruct (Z.ltb_spec (Z.of_nat (size got + 1)) (Z.of_nat cnt)); [done|lia].
  - destruct (Z.ltb_spec (Z.of_nat (size got + 1)) (Z.of_nat cnt)); [lia|].
    unfold assemble_and_evict, evict.
    destruct (find_opened r id (partial sl cnt ({[i]} ∪ got)) Hwf Habs) as [Hf Hl']. fold it in Hf, Hl'.
    rewrite Hf, Hl'. unfold it. rewrite erase_opened. cbn [m_cfg m_held m_dead opened].
    change (e_size (partial sl cnt ({[i]} ∪ got)) + e_overhead (partial sl cnt ({[i]} ∪ got)))
      with (charge (id, partial sl cnt ({[i]} ∪ got))).
    rewrite wrap64_small by lia. do 3 f_equal. destruct r. cbn in *. f_equal. lia.
Qed.

Lemma map_const_replicate {A} (f : nat -> A) (x : A) cnt :
  (forall i, f i = x) -> map f (seq 0 cnt) = replicate cnt x.
Proof.
  intros H. generalize 0%nat as k. induction cnt as [|cnt IH]; intros k; [done|]. simpl. by rewrite H, IH.
Qed.

Lemma partial_empty sl cnt :
  Entry (replicate cnt []) (replicate cnt false) 0 0 (structural_cost sizeof_vector (Z.of_nat cnt))
  = partial sl cnt ∅.
Proof.
  unfold partial. rewrite (map_const_replicate (arrived sl ∅) []).
  2: { intros i. unfold arrived. by rewrite decide_False by set_solver. }
  rewrite (map_const_replicate _ false); [|intros i; apply bool_decide_eq_false; set_solver].
  rewrite size_empty. f_equal. assert (concat (replicate cnt []) = ([] : bytes)) as -> by (induction cnt; done). done.
Qed.

Lemma open_entry_fits r id sl cnt payload :
  fits r id sl cnt -> 0 <= payload <= zlen (concat (map sl (seq 0 cnt))) ->
  open_entry sizeof_vector r id (Z.of_nat cnt) payload
  = (Some (FlatMap.lower_bound (FlatMap.m_entries (m_table r)) id),
     [ArmTimeout id (cfg_per_message_timeout (m_cfg r))], opened r id (partial sl cnt ∅)).
Proof.
  intros Hfits Hpay. pose proof Hfits as [Hinv Habs Hc Hroom Hsize Hcap].
  destruct (charge_partial r id sl cnt ∅ Hfits) as (Hch & Hchc & Hh0).
  pose proof (ri_limits _ Hinv) as (Hsz & Hcapr & _).
  destruct (structural_cost_small (Z.of_nat cnt) Hsz ltac:(lia)) as [_ Hcost].
  unfold open_entry. rewrite wrap64_small by lia. rewrite Z.gtb_ltb.
  destruct (Z.ltb_spec (cfg_total_memory_cap (m_cfg r)) (m_held r + structural_cost sizeof_vector (Z.of_nat cnt) + payload)); [lia|].
  rewrite Nat2Z.id, (partial_empty sl). unfold FlatMap.emplace. rewrite Z.geb_leb.
  destruct (Z.leb_spec (FlatMap.m_max_entries (m_table r)) (FlatMap.size (m_table r))); [lia|].
  assert (e_overhead (partial sl cnt ∅) = charge (id, partial sl cnt ∅)) as Hoc.
  { rewrite <- partial_empty. done. }
  rewrite Hoc, wrap64_small by lia. done.
Qed.

(** The effect of one more fragment of the message on the reassembler. *)
Definition after (r : reassembler) (id : Z) (sl : nat -> bytes) (cnt : nat) (got : gset nat) : reassembler :=
  if decide (got = ∅) then r else opened r id (partial sl cnt got).

Definition delivered (evs : list event) : list bytes :=
  omap (fun ev => match ev with OnDeliver m => Some m | _ => None end) evs.

Lemma feed_after r id sl cnt got i :
  fits r id sl cnt -> in_range cnt got -> (i < cnt)%nat -> (size got < cnt)%nat ->
  exists o evs r', feed sizeof_vector (after r id sl cnt got) id (Z.of_nat i) (Z.of_nat cnt) (sl i) = Some (o, evs, r') /\
  if decide (i ∈ got) then o = admitted /\ delivered evs = [] /\ r' = after r id sl cnt got
  else if decide (size got + 1 < cnt)%nat
  then o = admitted /\ delivered evs = [] /\ r' = after r id sl cnt ({[i]} ∪ got)
  else o = completed /\ delivered evs = [concat (map (arrived sl ({[i]} ∪ got)) (seq 0 cnt))] /\ r' = r.
Proof.
  intros Hfits Hr Hi Hsz. pose proof Hfits as [Hinv Habs Hc Hroom Hsize Hcap]. pose proof (ri_wf _ Hinv) as Hwf.
  unfold feed. rewrite Z.geb_leb, Z.gtb_ltb.
  destruct (Z.eqb_spec (Z.of_nat cnt) 0); [lia|]. destruct (Z.leb_spec (Z.of_nat cnt) (Z.of_nat i)); [lia|].
  destruct (Z.ltb_spec max_fragment_count (Z.of_nat cnt)); [lia|]. cbn [orb]. unfold admit_fragment.
  set (it := FlatMap.lower_bound (FlatMap.m_entries (m_table r)) id).
  assert (forall g, after r id sl cnt ({[i]} ∪ g) = opened r id (partial sl cnt ({[i]} ∪ g))) as Haft.
  { intros g. unfold after. rewrite decide_False by set_solver. done. }
  rewrite Haft. destruct (decide (got = ∅)) as [->|Hne].
  - assert (after r id sl cnt ∅ = r) as -> by (unfold after; by rewrite decide_True).
    assert (FlatMap.find (m_table r) id = None) as ->.
    { destruct (FlatMap.find (m_table r) id) as [j|] eqn:E; [|done].
      destruct (FlatMap.find_Some _ _ _ Hwf E) as (v & _ & Hv). congruence. }
    assert (zlen (sl i) <= zlen (concat (map sl (seq 0 cnt)))) as Hle.
    { pose proof (zlen_arrived_insert sl ∅ i cnt Hi ltac:(set_solver)). pose proof (arrived_bound sl ({[i]} ∪ ∅) cnt).
      pose proof (zlen_nonneg (concat (map (arrived sl ∅) (seq 0 cnt)))). lia. }
    rewrite (open_entry_fits r id sl cnt) by (done || (pose proof (zlen_nonneg (sl i)); lia)).
    rewrite (store_new r id sl cnt ∅ i Hfits Hr Hi ltac:(set_solver)). cbn [mbind option_bind].
    destruct (decide (i ∈ ∅)) as [Hin|_]; [by apply not_elem_of_empty in Hin|].
    destruct (decide (size ∅ + 1 < cnt)%nat); cbn [mbind option_bind];
      (eexists _, _, _; split; [done|]); done.
  - assert (after r id sl cnt got = opened r id (partial sl cnt got)) as ->
      by (unfold after; by rewrite decide_False).
    destruct (find_opened r id (partial sl cnt got) Hwf Habs) as [Hf Hl]. rewrite Hf. fold it in Hl |- *.
    destruct (decide (i ∈ got)) as [Hin|Hin].
    + unfold store_fragment. rewrite Hl. cbn [mbind option_bind].
      assert (zlen (e_slots (partial sl cnt got)) = Z.of_nat cnt) as ->.
      { unfold zlen, partial. cbn [e_slots]. by rewrite length_map, length_seq. }
      rewrite Z.geb_leb. destruct (Z.leb_spec (Z.of_nat cnt) (Z.of_nat i)); [lia|]. rewrite Nat2Z.id.
      assert (e_present (partial sl cnt got) !! i = Some true) as ->.
      { unfold partial. cbn [e_present]. rewrite lookup_map_seq by done. f_equal. by apply bool_decide_eq_true. }
      cbn [mbind option_bind]. by eexists _, _, _.
    + unfold it. rewrite (store_new r id sl cnt got i Hfits Hr Hi Hin). cbn [mbind option_bind].
      destruct (decide (size got + 1 < cnt)%nat); cbn [mbind option_bind]; (eexists _, _, _; split; [done|]); done.
Qed.

(** Fragments of one message fed in a given order. *)
Fixpoint feed_fragments (r : reassembler) (id : Z) (fs : list fragment)
  : option (list outcome * list event * reassembler) :=
  match fs with
  | [] => Some ([], [], r)
  | f :: fs =>
      '(o, evs, r) ← feed sizeof_vector r id (f_idx f) (f_cnt f) (f_slice f);
      '(os, evs', r) ← feed_fragments r id fs;
      Some (o :: os, evs ++ evs', r)
  end.

Lemma size_in_range_without cnt got k :
  in_range cnt got -> (k < cnt)%nat -> k ∉ got -> (size got + 1 <= cnt)%nat.
Proof.
  intros Hr Hk Hn. assert (got ⊆ set_seq 0 cnt ∖ {[k]}) as Hsub.
  { intros j Hj. apply elem_of_difference. split; [apply elem_of_set_seq; specialize (Hr j Hj); lia|set_solver]. }
  apply subseteq_size in Hsub. rewrite size_difference, size_singleton, size_set_seq in Hsub.
  - lia.
  - intros j Hj. apply elem_of_singleton in Hj as ->. apply elem_of_set_seq. lia.
Qed.

Lemma feed_fragments_after r id sl cnt order got k :
  fits r id sl cnt -> in_range cnt got -> (k < cnt)%nat -> k ∉ got -> k ∉ order ->
  Forall (fun i => i < cnt)%nat order ->
  exists os evs,
    feed_fragments (after r id sl cnt got) id
      (map (fun i => Fragment (Z.of_nat i) (Z.of_nat cnt) (sl i)) order)
    = Some (os, evs, after r id sl cnt (list_to_set order ∪ got)) /\
    Forall (eq admitted) os /\ delivered evs = [].
Proof.
  intros Hfits Hr Hk Hkg Hko Hord. revert got Hr Hkg. induction Hord as [|i order Hi Hord IH]; intros got Hr Hkg; cbn [map feed_fragments list_to_set].
  { eexists _, _. replace (∅ ∪ got) with got by set_solver. done. }
  apply not_elem_of_cons in Hko as [Hki Hko].
  pose proof (size_in_range_without cnt got k Hr Hk Hkg) as Hsz.
  destruct (feed_after r id sl cnt got i Hfits Hr Hi) as (o & evs & r1 & Hf & Hcase); [lia|].
  cbn [f_idx f_cnt f_slice]. rewrite Hf. cbn [mbind option_bind].
  assert (in_range cnt ({[i]} ∪ got)) as Hr' by (intros j Hj; apply elem_of_union in Hj as [Hj|Hj]; [set_solver|by apply Hr]).
  destruct (IH Hko ({[i]} ∪ got) Hr' ltac:(set_solver)) as (os & evs' & Hfs & Hall & Hdel).
  assert (o = admitted /\ delivered evs = [] /\ r1 = after r id sl cnt ({[i]} ∪ got)) as (-> & Hd & ->).
  { destruct (decide (i ∈ got)) as [Hin|Hin].
    - destruct Hcase as (-> & -> & ->). by replace ({[i]} ∪ got) with got by set_solver.
    - pose proof (size_in_range_without cnt _ k Hr' Hk ltac:(set_solver)) as Hsz'.
      rewrite size_union, size_singleton in Hsz' by set_solver. by rewrite decide_True in Hcase by lia. }
  rewrite Hfs. cbn [mbind option_bind]. eexists _, _. split; [|split].
  - assert ((list_to_set order : gset nat) ∪ ({[i]} ∪ got) = {[i]} ∪ list_to_set order ∪ got) as ->
      by set_solver. done.
  - by constructor.
  - unfold delivered in *. rewrite omap_app, Hd, Hdel. done.
Qed.

(** All slices but [k] in some order, then [k]: nothing is delivered before the last
    one, which delivers the slices in their order and leaves the reassembler as it
    was before the message. *)
Lemma slices_reassemble r id sl cnt order k :
  fits r id sl cnt -> Forall (fun i => i < cnt)%nat order -> (k < cnt)%nat -> k ∉ order ->
  (forall i, (i < cnt)%nat -> i <> k -> i ∈ order) ->
  exists os evs r1 evs',
    feed_fragments r id (map (fun i => Fragment (Z.of_nat i) (Z.of_nat cnt) (sl i)) order) = Some (os, evs, r1) /\
    Forall (eq admitted) os /\ delivered evs = [] /\
    feed sizeof_vector r1 id (Z.of_nat k) (Z.of_nat cnt) (sl k) = Some (completed, evs', r) /\
    delivered evs' = [concat (map sl (seq 0 cnt))].
Proof.
  intros Hfits Hord Hk Hko Hall.
  assert (in_range cnt ∅) as Hr0 by (intros j Hj; by apply not_elem_of_empty in Hj).
  destruct (feed_fragments_after r id sl cnt order ∅ k) as (os & evs & Hf & Ho & Hd);
    [done|done|done|set_solver|done|done|].
  unfold after in Hf at 1. rewrite decide_True in Hf by done.
  set (got := list_to_set order ∪ ∅ : gset nat) in *.
  assert (in_range cnt got) as Hr.
  { intros j Hj. unfold got in Hj. apply elem_of_union in Hj as [Hj|Hj]; [|by apply not_elem_of_empty in Hj].
    apply elem_of_list_to_set in Hj. by eapply Forall_forall in Hord. }
  assert (k ∉ got) as Hkg by (unfold got; set_solver).
  pose proof (size_in_range_without cnt got k Hr Hk Hkg) as Hsz.
  destruct (feed_after r id sl cnt got k Hfits Hr Hk) as (o & evs' & r' & Hf' & Hcase); [lia|].
  rewrite decide_False in Hcase by done.
  assert (forall j, (j < cnt)%nat -> j ∈ {[k]} ∪ got) as Hfull.
  { intros j Hj. destruct (decide (j = k)) as [->|]; [set_solver|]. unfold got.
    apply elem_of_union_r, elem_of_union_l, elem_of_list_to_set. by apply Hall. }
  assert (cnt <= size ({[k]} ∪ got))%nat as Hge.
  { rewrite <- (size_set_seq (C := gset nat) 0 cnt). apply subseteq_size. intros j Hj.
    apply elem_of_set_seq in Hj. apply Hfull. lia. }
  rewrite size_union, size_singleton in Hge by set_solver. rewrite decide_False in Hcase by lia.
  destruct Hcase as (-> & Hd' & ->). exists os, evs, (after r id sl cnt got), evs'.
  split_and!; try done. rewrite Hd'. do 2 f_equal. apply map_ext_in. intros j Hj. apply in_seq in Hj. unfold arrived.
  rewrite decide_True; [done|]. apply Hfull. lia.
Qed.

(** C13: A message that the splitter cuts and the reassembler has room for is delivered
    exactly once, as it was, whatever the order in which its fragments arrive and however often
    they are repeated before the last missing one: until then nothing is delivered, the last one
    delivers the message and leaves the reassembler as it was before the message.  Room
    ([fits]) means: no entry under the message's id, a free entry in the table, at most
    [max_fragment_count] fragments, a message within the configured ceiling, and a memory cap
    that holds its bytes and bookkeeping beside what is held.  The splitter also cuts messages
    that have more fragments than that, which the receiver drops whole
    ([fragment_ceiling_below_message_ceiling]). *)
Theorem fragments_reassemble_in_any_order (r : reassembler) (id : Z) (payload : bytes)
    (transport_budget : Z) (aead : bool) (order : list nat) (k : nat) :
  let budget := effective_fragment_budget transport_budget aead in
  let count := Z.to_nat (fragment_count payload budget) in
  splittable payload budget -> fits r id (slice payload budget) count ->
  Forall (fun i => i < count)%nat order -> (k < count)%nat -> k ∉ order ->
  (forall i, (i < count)%nat -> i <> k -> i ∈ order) ->
  let frags := (split payload transport_budget aead).1 in
  exists os evs r1 f evs',
    feed_fragments r id (omap (fun i => frags !! i) order) = Some (os, evs, r1) /\
    Forall (eq admitted) os /\ delivered evs = [] /\
    frags !! k = Some f /\
    feed sizeof_vector r1 id (f_idx f) (f_cnt f) (f_slice f) = Some (completed, evs', r) /\
    delivered evs' = [payload].
Proof.
  intros budget count Hs Hfits Hord Hk Hko Hall. unfold budget in *. rewrite split_slices by done.
  fold budget in Hs, Hfits |- *. cbn [fst].
  pose proof (fragment_count_spec payload budget Hs) as [H1 _].
  assert (fragment_count payload budget = Z.of_nat count) as Hcnt by (unfold count; fold budget; lia).
  rewrite Hcnt, Nat2Z.id. set (frag := fun i => Fragment (Z.of_nat i) (Z.of_nat count) (slice payload budget i)).
  assert (forall i, (i < count)%nat -> map frag (seq 0 count) !! i = Some (frag i)) as Hlk
    by (intros; by rewrite lookup_map_seq).
  assert (omap (fun i => map frag (seq 0 count) !! i) order = map frag order) as ->.
  { clear -Hord Hlk. induction Hord as [|i order Hi Hord IH]; [done|]. cbn [map]. rewrite <- IH.
    change (omap ?f (i :: order)) with (match f i with Some y => y :: omap f order | None => omap f order end).
    cbv beta. by rewrite Hlk. }
  destruct (slices_reassemble r id (slice payload budget) count order k Hfits Hord Hk Hko Hall)
    as (os & evs & r1 & evs' & Hf & Ho & Hd & Hf' & Hd').
  exists os, evs, r1, (frag k), evs'. split_and!; try done; [by apply Hlk|]. rewrite Hd'. f_equal.
  unfold count. by apply concat_all_slices.
Qed.

End Accounting.

(** The fragment-count ceiling is derived from 4 MiB although messages of up to
    8 MiB are admitted by default: a 4 MiB + 1 byte message on a path with the minimal
    fragment budget is cut into 32769 fragments, every one of which the receiver drops
    as malformed. *)
Theorem fragment_ceiling_below_message_ceiling (sizeof_vector : Z) (r : reassembler) (id idx : Z) (data : bytes) :
  let message := 4 * 1024 * 1024 + 1 in
  let count := (message + min_fragment_payload - 1) / min_fragment_payload in
  message < global_default_max_message_bytes /\
  effective_fragment_budget 141 false = min_fragment_payload /\
  max_fragment_count < count /\
  feed sizeof_vector r id idx count data = Some (dropped_malformed, [OnDrop cause_malformed], r).
Proof.
  split; [by vm_compute|]. split; [by vm_compute|]. split; [by vm_compute|].
  unfold feed. change ((4 * 1024 * 1024 + 1 + min_fragment_payload - 1) / min_fragment_payload) with 32769.
  rewrite (proj2 (Z.gtb_lt 32769 max_fragment_count)) by (by vm_compute). by rewrite orb_true_r.
Qed.

Definition small_cfg : config := Config 1000 100000 5000.

Lemma small_cfg_ok : limits_ok 24 small_cfg.
Proof. split_and!; by vm_compute. Qed.

Lemma reassembler_memory_capped_witness :
  held_bytes (reassembler_new 24 small_cfg) <= 100000 /\
  is_Some (feed 24 (reassembler_new 24 small_cfg) 7 0 3 [Byte.x01]).
Proof.
  destruct (reassembler_memory_capped 24 small_cfg (reassembler_new 24 small_cfg) 7 0 3 [Byte.x01])
    as (_ & H1 & _ & H2); [exact small_cfg_ok|constructor|].
  split; [exact H1|apply H2; [lia|lia|by vm_compute] ].
Defined.

(** Three fragments of 300 bytes: the last first, the first twice, then the middle. *)
Lemma fragments_reassemble_in_any_order_witness :
  exists evs' r1, feed 24 r1 7 1 3 (take 128 (drop 128 (zero_bytes 300)))
             = Some (completed, evs', reassembler_new 24 small_cfg) /\
             delivered evs' = [zero_bytes 300].
Proof.
  destruct (fragments_reassemble_in_any_order 24 (reassembler_new 24 small_cfg) 7 (zero_bytes 300) 1 false
    [2; 0; 0]%nat 1) as (os & evs & r1 & f & evs' & _ & _ & _ & Hf & Hfeed & Hd).
  - split_and!; by vm_compute.
  - split; try by vm_compute.
    apply (reachable_inv 24 small_cfg _ small_cfg_ok). constructor.
  - repeat constructor; vm_compute; lia.
  - vm_compute. lia.
  - set_solver.
  - intros i Hi Hne. assert (Z.to_nat (fragment_count (zero_bytes 300) (effective_fragment_budget 1 false)) = 3%nat) as E
      by (by vm_compute). rewrite E in Hi. assert (i = 0 \/ i = 2)%nat as [->| ->] by lia; set_solver.
  - exists evs', r1. split; [|exact Hd]. vm_compute in Hf. injection Hf as <-. exact Hfeed.
Defined.
