(* ===== verification/Security.v ===== *)
(** * Attach admission and the source-address cookie

    Models [ct_equal.h], [attach_facts.h], [attach_policy.h], [verify_policy.h],
    [cert_facts.h] ([to_node_id]) and [cookie_secret.h] of
    [lib/plexus-core/include/plexus/io/security/].  The keyed MAC and the random
    source are injected functions of the source and parameters here: [hmac key msg]
    is [None] when the injected MAC reports failure, and random fills are inputs. *)

From S2P Require Import Prelude.

(** ** [ct_equal] *)

Fixpoint ct_diff (diff : Z) (a b : bytes) : Z :=
  match a, b with
  | x :: a, y :: b => ct_diff (Z.lor diff (Z.lxor ⟦x⟧ ⟦y⟧)) a b
  | _, _ => diff
  end.

Definition ct_equal (a b : bytes) : bool :=
  if negb (length a =? length b)%nat then false else ct_diff 0 a b =? 0.

(** ** [attach_facts.h] *)

Definition k_key_id_len : nat := 8.

Inductive attach_role : Type := initiator | responder.

#[global] Instance attach_role_eq_dec : EqDecision attach_role.
Proof. solve_decision. Defined.

Record attach_facts : Type := AttachFacts {
  af_key_id : bytes;
  af_initiator_id : bytes;
  af_responder_id : bytes;
  af_peer_nonce : bytes;
  af_own_nonce : bytes;
  af_transcript_digest : bytes;
  af_role : attach_role;
  af_proof : bytes;
}.

(** The widths of the source's [std::array] members. *)
Definition attach_facts_ok (f : attach_facts) : Prop :=
  length (af_key_id f) = k_key_id_len /\ length (af_initiator_id f) = 16%nat /\
  length (af_responder_id f) = 16%nat /\ length (af_peer_nonce f) = 16%nat /\
  length (af_own_nonce f) = 16%nat /\ length (af_transcript_digest f) = 32%nat.

Definition role_byte (r : attach_role) : byte :=
  match r with initiator => byte.of_Z 0 | responder => byte.of_Z 1 end.

Definition proof_label : bytes :=
  map byte.of_Z [112; 108; 101; 120; 117; 115; 45; 97; 116; 116; 97; 99; 104].

Definition attach_proof_input (f : attach_facts) : bytes :=
  (((((proof_label ++ [role_byte (af_role f)]) ++ af_initiator_id f) ++ af_responder_id f) ++
     af_peer_nonce f) ++ af_own_nonce f) ++ af_transcript_digest f.

(** ** [attach_policy.h] *)

Record keyed_psk : Type := KeyedPsk { key_id : bytes; material : bytes }.

Definition k_min_psk_len : nat := 16.

(** The constructor of [psk_keystore_policy]: [None] is the fail-closed abort. *)
Definition psk_keystore_policy (keys : list keyed_psk) : option (list keyed_psk) :=
  if forallb (fun k => negb (length (material k) <? k_min_psk_len)%nat) keys then Some keys else None.

Fixpoint lookup_key (keys : list keyed_psk) (id : bytes) : option keyed_psk :=
  match keys with
  | [] => None
  | k :: keys => if decide (key_id k = id) then Some k else lookup_key keys id
  end.

Definition accept_any (f : attach_facts) : bool := true.

(** [spki_pin_policy::decide] over the digest of the facts. *)
Definition spki_pin_decide (pinned : list bytes) (spki_sha256 : bytes) : bool :=
  existsb (fun pin => bool_decide (pin = spki_sha256)) pinned.

Definition to_node_id (spki_sha256 : bytes) : bytes := take 16 spki_sha256.

Section Mac.
Context (hmac : bytes -> bytes -> option bytes).

Definition psk_decide (keys : list keyed_psk) (f : attach_facts) : bool :=
  match lookup_key keys (af_key_id f) with
  | None => false
  | Some key =>
      match hmac (material key) (attach_proof_input f) with
      | None => false
      | Some expected => ct_equal expected (af_proof f)
      end
  end.

(** [attach_prover::prove]. *)
Definition prove (key : keyed_psk) (f : attach_facts) : option bytes :=
  hmac (material key) (attach_proof_input f).

(** ** [cookie_secret.h] *)

Definition k_cookie_len : nat := 32.
Definition k_default_rotation : Z := 60 * 1000000000.

Record cookie_secret : Type := CookieSecret {
  m_key : bytes;
  m_cur : bytes;
  m_prev : bytes;
  m_last_rotate : Z;
}.

(** The three random fills of the constructor; [None] is the fail-closed abort. *)
Definition cookie_secret_new (key cur prev : option bytes) (now : Z) : option cookie_secret :=
  key ← key; cur ← cur; prev ← prev; Some (CookieSecret key cur prev now).

Definition maybe_rotate (c : cookie_secret) (now : Z) (next : option bytes) : cookie_secret :=
  if now - m_last_rotate c <? k_default_rotation then c else
  match next with
  | None => c
  | Some next => CookieSecret (m_key c) next (m_cur c) now
  end.

Definition mac (c : cookie_secret) (peer_addr nonce : bytes) : option bytes :=
  hmac (m_key c) (peer_addr ++ nonce).

Definition mint (c : cookie_secret) (peer_addr : bytes) : option bytes := mac c peer_addr (m_cur c).

Definition validate (c : cookie_secret) (peer_addr cookie : bytes) : bool :=
  if negb (length cookie =? k_cookie_len)%nat then false else
  if (match mac c peer_addr (m_cur c) with Some e => ct_equal e cookie | None => false end) then true else
  if (match mac c peer_addr (m_prev c) with Some e => ct_equal e cookie | None => false end) then true
  else false.

End Mac.

(** ** Lemmas *)

Lemma ct_diff_zero diff a b :
  0 <= diff -> length a = length b -> (ct_diff diff a b = 0 <-> diff = 0 /\ a = b).
Proof.
  revert diff b. induction a as [|x a IH]; intros diff [|y b] Hd Hl; simplify_eq/=; [tauto|].
  rewrite IH by (done || (apply Z.lor_nonneg; split; [done|]; apply Z.lxor_nonneg;
                          pose proof (byte.unsigned_range x); pose proof (byte.unsigned_range y); lia)).
  rewrite Z.lor_eq_0_iff, Z.lxor_eq_0_iff. split.
  - intros [ [-> E] ->]. apply byte.unsigned_inj in E as ->. done.
  - intros [-> E]. by simplify_eq.
Qed.

Lemma ct_equal_iff a b : ct_equal a b = true <-> a = b.
Proof.
  unfold ct_equal. destruct (Nat.eqb_spec (length a) (length b)) as [Hl|Hl]; simpl.
  - rewrite Z.eqb_eq, ct_diff_zero by done. tauto.
  - split; [done|]. by intros ->.
Qed.

Lemma attach_proof_input_inj f g :
  attach_facts_ok f -> attach_facts_ok g -> attach_proof_input f = attach_proof_input g ->
  af_role f = af_role g /\ af_initiator_id f = af_initiator_id g /\ af_responder_id f = af_responder_id g /\
  af_peer_nonce f = af_peer_nonce g /\ af_own_nonce f = af_own_nonce g /\
  af_transcript_digest f = af_transcript_digest g.
Proof.
  intros (_ & F1 & F2 & F3 & F4 & F5) (_ & G1 & G2 & G3 & G4 & G5) E. unfold attach_proof_input in E.
  apply app_inj_2 in E as [E ->]; [|congruence]. apply app_inj_2 in E as [E ->]; [|congruence].
  apply app_inj_2 in E as [E ->]; [|congruence]. apply app_inj_2 in E as [E ->]; [|congruence].
  apply app_inj_2 in E as [E ->]; [|congruence]. apply app_inj_2 in E as [_ E]; [|done].
  split; [|done]. by destruct (af_role f), (af_role g).
Qed.

Lemma lookup_key_Some keys id k : lookup_key keys id = Some k -> k ∈ keys /\ key_id k = id.
Proof.
  induction keys as [|k' keys IH]; [done|]. simpl. case_decide; intros Hk; simplify_eq.
  - split; [constructor|done].
  - destruct (IH Hk). split; [by constructor|done].
Qed.

(** The keystore policy admits a peer exactly when the key named by its facts is
    known and the proof is the MAC of the canonical input under that key; an empty
    keystore and a failing MAC admit nobody; a proof stamped by a prover holding the
    key is admitted; and the MAC covers the role, both identities, both nonces and the
    transcript: facts that differ in any of them have different inputs, so a proof for
    one direction is not the proof for the other. *)
Theorem attach_policy_exact (hmac : bytes -> bytes -> option bytes) (keys : list keyed_psk)
    (f g : attach_facts) (k : keyed_psk) :
  (psk_decide hmac keys f = true <->
     exists key, lookup_key keys (af_key_id f) = Some key /\
       hmac (material key) (attach_proof_input f) = Some (af_proof f)) /\
  psk_decide hmac [] f = false /\
  (lookup_key keys (af_key_id f) = Some k -> prove hmac k f = Some (af_proof f) ->
     psk_decide hmac keys f = true) /\
  (attach_facts_ok f -> attach_facts_ok g -> attach_proof_input f = attach_proof_input g ->
     af_role f = af_role g /\ af_initiator_id f = af_initiator_id g /\
     af_responder_id f = af_responder_id g /\ af_peer_nonce f = af_peer_nonce g /\
     af_own_nonce f = af_own_nonce g /\ af_transcript_digest f = af_transcript_digest g).
Proof.
  assert (psk_decide hmac keys f = true <->
     exists key, lookup_key keys (af_key_id f) = Some key /\
       hmac (material key) (attach_proof_input f) = Some (af_proof f)) as Hiff.
  { unfold psk_decide. destruct (lookup_key keys (af_key_id f)) as [key|]; [|naive_solver].
    destruct (hmac (material key) (attach_proof_input f)) as [m|] eqn:E.
    - rewrite ct_equal_iff. naive_solver.
    - naive_solver. }
  split_and!; [done|done| |apply attach_proof_input_inj].
  intros Hl Hp. apply Hiff. by exists k.
Qed.

(** A run of rotation attempts. *)
Definition rotations (c : cookie_secret) (attempts : list (Z * option bytes)) : cookie_secret :=
  foldl (fun c a => maybe_rotate c a.1 a.2) c attempts.

Lemma maybe_rotate_cases c now next :
  maybe_rotate c now next = c \/
  (m_last_rotate c + k_default_rotation <= now /\
   exists n, next = Some n /\ maybe_rotate c now next = CookieSecret (m_key c) n (m_cur c) now).
Proof.
  unfold maybe_rotate. destruct (Z.ltb_spec (now - m_last_rotate c) k_default_rotation); [by left|].
  destruct next as [n|]; [right|by left]. split; [lia|]. by exists n.
Qed.

Lemma validate_iff hmac c addr cookie :
  validate hmac c addr cookie = true <->
  length cookie = k_cookie_len /\
  (mac hmac c addr (m_cur c) = Some cookie \/ mac hmac c addr (m_prev c) = Some cookie).
Proof.
  unfold validate. destruct (Nat.eqb_spec (length cookie) k_cookie_len) as [Hl|Hl]; simpl; [|naive_solver].
  assert (forall o, (match o with Some e => ct_equal e cookie | None => false end) = true <-> o = Some cookie) as H.
  { intros [e|]; [|naive_solver]. rewrite ct_equal_iff. naive_solver. }
  destruct (match mac hmac c addr (m_cur c) with Some e => _ | None => _ end) eqn:E1; [apply H in E1; tauto|].
  destruct (match mac hmac c addr (m_prev c) with Some e => _ | None => _ end) eqn:E2; [apply H in E2; tauto|].
  rewrite <- (H (mac hmac c addr (m_cur c))), <- (H (mac hmac c addr (m_prev c))), E1, E2.
  naive_solver.
Qed.

Lemma rotations_window c attempts t :
  Forall (fun a => t <= a.1) attempts -> m_last_rotate c <= t ->
  (forall a, a ∈ attempts -> a.1 < t + k_default_rotation) ->
  let c' := rotations c attempts in
  m_key c' = m_key c /\ (m_cur c' = m_cur c /\ m_last_rotate c' = m_last_rotate c \/
                         m_prev c' = m_cur c /\ t <= m_last_rotate c').
Proof.
  intros Hf Ht Hb. simpl. unfold rotations.
  assert (forall c1, m_key c1 = m_key c ->
    (m_cur c1 = m_cur c /\ m_last_rotate c1 = m_last_rotate c \/ m_prev c1 = m_cur c /\ t <= m_last_rotate c1) ->
    let c' := foldl (fun c a => maybe_rotate c a.1 a.2) c1 attempts in
    m_key c' = m_key c /\ (m_cur c' = m_cur c /\ m_last_rotate c' = m_last_rotate c \/
                           m_prev c' = m_cur c /\ t <= m_last_rotate c')) as Hrun.
  { induction Hf as [|[now next] attempts Hnow Hf IH]; intros c1 Hk Hc; [done|]. simpl in *.
    apply IH.
    - intros a Ha. apply Hb. by constructor.
    - by destruct (maybe_rotate_cases c1 now next) as [->|(_ & n & _ & ->)].
    - destruct (maybe_rotate_cases c1 now next) as [->|(Hlate & n & _ & ->)]; [done|]. simpl.
      right. destruct Hc as [ [-> Hl]|[_ Hl] ]; [done|].
      specialize (Hb (now, next) ltac:(constructor)). simpl in Hb. lia. }
  apply Hrun; [done|by left].
Qed.

(** A cookie minted for an address validates for that address for a full rotation
    period from its minting, across any rotation attempts in that time, failed random
    fills included; and whatever validates is the MAC of that address under the current
    or the previous nonce. *)
Theorem cookie_valid_for_one_period (hmac : bytes -> bytes -> option bytes) (c : cookie_secret)
    (addr cookie : bytes) (t : Z) (attempts : list (Z * option bytes)) :
  m_last_rotate c <= t -> mint hmac c addr = Some cookie -> length cookie = k_cookie_len ->
  Forall (fun a => t <= a.1 < t + k_default_rotation) attempts ->
  let c' := rotations c attempts in
  validate hmac c' addr cookie = true /\
  (forall addr' cookie', validate hmac c' addr' cookie' = true ->
     hmac (m_key c) (addr' ++ m_cur c') = Some cookie' \/ hmac (m_key c) (addr' ++ m_prev c') = Some cookie').
Proof.
  intros Ht Hm Hl Ha. simpl.
  destruct (rotations_window c attempts t) as [Hk Hc];
    [eapply Forall_impl; [done|]; intros ? [? ?]; done|done|intros a Hin; by eapply Forall_forall in Ha as [_ ?]|].
  split.
  - apply validate_iff. split; [done|]. unfold mint, mac in *. rewrite Hk.
    destruct Hc as [ [-> _]|[-> _] ]; [by left|by right].
  - intros addr' cookie' Hv. apply validate_iff in Hv as [_ Hv]. unfold mac in Hv. by rewrite Hk in Hv.
Qed.

(** A stand-in MAC: 32 bytes derived from the key and the message. *)
Definition toy_mac (key msg : bytes) : option bytes :=
  Some (take 32 (key ++ msg ++ replicate 32 (byte.of_Z 0))).

Definition toy_facts : attach_facts :=
  let z n := replicate n (byte.of_Z 7) in
  let f p := AttachFacts (z 8%nat) (z 16%nat) (z 16%nat) (z 16%nat) (z 16%nat) (z 32%nat) initiator p in
  f (default [] (toy_mac (z 16%nat) (attach_proof_input (f [])))).

Lemma attach_policy_exact_witness :
  psk_decide toy_mac [KeyedPsk (replicate 8 (byte.of_Z 7)) (replicate 16 (byte.of_Z 7))] toy_facts = true.
Proof.
  destruct (attach_policy_exact toy_mac [KeyedPsk (replicate 8 (byte.of_Z 7)) (replicate 16 (byte.of_Z 7))]
    toy_facts toy_facts (KeyedPsk (replicate 8 (byte.of_Z 7)) (replicate 16 (byte.of_Z 7)))) as (_ & _ & H & _).
  apply H; vm_compute; reflexivity.
Defined.

Lemma cookie_valid_for_one_period_witness :
  let c := CookieSecret (replicate 16 (byte.of_Z 1)) (replicate 16 (byte.of_Z 2)) (replicate 16 (byte.of_Z 3)) 0 in
  validate toy_mac (rotations c [(70000000000, Some (replicate 16 (byte.of_Z 4)))]) [Byte.x0a]
    (default [] (mint toy_mac c [Byte.x0a])) = true.
Proof.
  apply (cookie_valid_for_one_period toy_mac
    (CookieSecret (replicate 16 (byte.of_Z 1)) (replicate 16 (byte.of_Z 2)) (replicate 16 (byte.of_Z 3)) 0)
    [Byte.x0a] _ 50000000000); [simpl; lia|reflexivity|reflexivity|repeat constructor; vm_compute; congruence].
Defined.
