(* ===== verification/Handshake.v ===== *)
(** * The handshake state machine and the blocks around it

    Models [handshake_protocol.h], [handshake_fsm.h], [host_fingerprint.h],
    [epoch_source.h] and [detail/handshake_gate.h] of
    [lib/plexus-core/include/plexus/io/]. *)

From S2P Require Import Prelude ByteOrder Varint Cursor Frame Control Security.

(** ** Node identities

    A [node_id] is 16 bytes, ordered lexicographically as unsigned bytes. *)
Definition node_id : Type := bytes.

Fixpoint node_gt (a b : node_id) : bool :=
  match a, b with
  | x :: a, y :: b => if ⟦y⟧ <? ⟦x⟧ then true else if ⟦x⟧ <? ⟦y⟧ then false else node_gt a b
  | _ :: _, [] => true
  | [], _ => false
  end.

(** ** [host_fingerprint.h]: a fingerprint is its 64-bit value. *)
Definition is_null (f : Z) : bool := f =? 0.
Definition is_same_host (peer local : Z) : bool := negb (is_null peer) && (peer =? local).

(** ** [handshake_protocol.h] *)

Inductive peer_fsm_state : Type := not_connected | dialing | handshaking | handshake_resolved.

Inductive fsm_action : Type :=
| act_none | act_send_request | act_send_response | act_complete | act_retry | act_abort.

Inductive handshake_outcome : Type :=
| out_none | out_accept_outbound | out_accept_inbound | out_reject_version | out_reject_identity
| out_reject_unauthorized.

Inductive dedup_decision : Type := dedup_none | keep_outbound | keep_inbound.

#[global] Instance peer_fsm_state_eq_dec : EqDecision peer_fsm_state.
Proof. solve_decision. Defined.
#[global] Instance fsm_action_eq_dec : EqDecision fsm_action.
Proof. solve_decision. Defined.
#[global] Instance handshake_outcome_eq_dec : EqDecision handshake_outcome.
Proof. solve_decision. Defined.
#[global] Instance dedup_decision_eq_dec : EqDecision dedup_decision.
Proof. solve_decision. Defined.

Record fsm_step_result : Type := StepResult {
  sr_action : fsm_action;
  sr_outcome : handshake_outcome;
  sr_dedup : dedup_decision;
}.

Definition no_step : fsm_step_result := StepResult act_none out_none dedup_none.

(** The attach policy is a pointer to an abstract class: [None] is [nullptr]. *)
Record handshake_fsm_config : Type := FsmConfig {
  self_id : node_id;
  version_major : Z;
  version_minor : Z;
  compatible_version_major : Z;
  compatible_version_minor : Z;
  local_fingerprint : Z;
  attach_policy : option (attach_facts -> bool);
  handshake_retry : Z;
}.

(** ** [class handshake_fsm] *)

Module Fsm.

Record t : Type := Fsm {
  m_peer_id : node_id;
  m_inbound_pending : bool;
  m_state : peer_fsm_state;
  m_complete_emitted : bool;
  m_cfg : handshake_fsm_config;
  m_peer_fingerprint : Z;
  m_last_seen_their_protocol_version : Z;
  m_handshake_retry_remaining : Z;
}.

Definition new (cfg : handshake_fsm_config) : t :=
  Fsm (zero_bytes 16) false not_connected false cfg 0 0 (handshake_retry cfg).

Definition set_state (m : t) (s : peer_fsm_state) : t :=
  Fsm (m_peer_id m) (m_inbound_pending m) s (m_complete_emitted m) (m_cfg m) (m_peer_fingerprint m)
    (m_last_seen_their_protocol_version m) (m_handshake_retry_remaining m).

Definition set_pending (m : t) (b : bool) : t :=
  Fsm (m_peer_id m) b (m_state m) (m_complete_emitted m) (m_cfg m) (m_peer_fingerprint m)
    (m_last_seen_their_protocol_version m) (m_handshake_retry_remaining m).

Definition set_emitted (m : t) (b : bool) : t :=
  Fsm (m_peer_id m) (m_inbound_pending m) (m_state m) b (m_cfg m) (m_peer_fingerprint m)
    (m_last_seen_their_protocol_version m) (m_handshake_retry_remaining m).

Definition set_peer (m : t) (id : node_id) (fingerprint : Z) : t :=
  Fsm id (m_inbound_pending m) (m_state m) (m_complete_emitted m) (m_cfg m) fingerprint
    (m_last_seen_their_protocol_version m) (m_handshake_retry_remaining m).

Definition set_last_version (m : t) (v : Z) : t :=
  Fsm (m_peer_id m) (m_inbound_pending m) (m_state m) (m_complete_emitted m) (m_cfg m)
    (m_peer_fingerprint m) v (m_handshake_retry_remaining m).

Definition set_retry (m : t) (n : Z) : t :=
  Fsm (m_peer_id m) (m_inbound_pending m) (m_state m) (m_complete_emitted m) (m_cfg m)
    (m_peer_fingerprint m) (m_last_seen_their_protocol_version m) n.

Definition on_dial_started (m : t) : fsm_step_result * t :=
  match m_state m with
  | not_connected | dialing => (no_step, set_state m dialing)
  | _ => (no_step, m)
  end.

Definition on_outbound_connected (m : t) : fsm_step_result * t :=
  match m_state m with
  | handshaking | handshake_resolved => (no_step, m)
  | _ => (StepResult act_send_request out_none dedup_none, set_state m handshaking)
  end.

Definition abort_result (m : t) (reason : handshake_outcome) : fsm_step_result * t :=
  (StepResult act_abort reason dedup_none, set_state m not_connected).

Definition reject_version_result (m : t) := abort_result m out_reject_version.
Definition identity_conflict_result (m : t) := abort_result m out_reject_identity.
Definition reject_unauthorized_result (m : t) := abort_result m out_reject_unauthorized.

Definition validate (m : t) (peer_protocol_version : Z) (peer_id : node_id) (peer_fingerprint : Z)
    (facts : attach_facts) : option fsm_step_result * t :=
  let m := set_peer m peer_id peer_fingerprint in
  if negb (peer_protocol_version =? k_protocol_version) then
    let '(r, m) := reject_version_result m in (Some r, m)
  else if decide (peer_id = self_id (m_cfg m)) then
    let '(r, m) := identity_conflict_result m in (Some r, m)
  else if (match attach_policy (m_cfg m) with Some p => negb (p facts) | None => false end) then
    let '(r, m) := reject_unauthorized_result m in (Some r, m)
  else (None, m).

Definition is_version_compatible (m : t) (peer_major peer_minor : Z) : bool :=
  (peer_major >? compatible_version_major (m_cfg m)) ||
  ((peer_major =? compatible_version_major (m_cfg m)) &&
   (peer_minor >=? compatible_version_minor (m_cfg m))).

Definition racing_outbound (m : t) : bool :=
  match m_state m with handshaking | handshake_resolved => true | _ => false end.

Definition arbitrate_dedup (m : t) : dedup_decision :=
  if node_gt (self_id (m_cfg m)) (m_peer_id m) then keep_outbound else keep_inbound.

Definition complete_inbound (m : t) (dedup : dedup_decision) : fsm_step_result * t :=
  (StepResult act_complete out_accept_inbound dedup, set_emitted (set_state m handshake_resolved) true).

Definition accept_inbound_no_complete : fsm_step_result :=
  StepResult act_send_response out_accept_inbound dedup_none.

Definition resolve_inbound (m : t) (inbound_is_bootstrap : bool) : fsm_step_result * t :=
  let m := set_pending m true in
  if racing_outbound m then
    if m_complete_emitted m then (accept_inbound_no_complete, m)
    else complete_inbound m (arbitrate_dedup m)
  else if inbound_is_bootstrap then complete_inbound m dedup_none
  else (StepResult act_send_response out_accept_inbound dedup_none, set_state m handshake_resolved).

Definition resolve_outbound (m : t) : fsm_step_result * t :=
  match m_state m with
  | handshaking | handshake_resolved =>
      if m_complete_emitted m then (no_step, m) else
      let dedup := if m_inbound_pending m then arbitrate_dedup m else dedup_none in
      (StepResult act_complete out_accept_outbound dedup, set_emitted (set_state m handshake_resolved) true)
  | _ => (no_step, m)
  end.

Definition on_request (m : t) (req : handshake_request) (inbound_is_bootstrap : bool)
    (facts : attach_facts) : fsm_step_result * t :=
  let m := set_last_version m (hs_protocol_version req) in
  let '(gate, m) := validate m (hs_protocol_version req) (hs_id req) (hs_fingerprint req) facts in
  match gate with
  | Some g => (g, m)
  | None =>
      if negb (is_version_compatible m (hs_version_major req) (hs_version_minor req))
      then reject_version_result m
      else resolve_inbound m inbound_is_bootstrap
  end.

Definition on_response (m : t) (resp : handshake_response) (facts : attach_facts) : fsm_step_result * t :=
  let p := hs_prefix resp in
  let m := set_last_version m (hs_protocol_version p) in
  let '(gate, m) := validate m (hs_protocol_version p) (hs_id p) (hs_fingerprint p) facts in
  match gate with
  | Some g => (g, m)
  | None =>
      if hs_status resp =? hs_identity_conflict then identity_conflict_result m else
      if negb (hs_status resp =? hs_accepted) then reject_version_result m else
      if negb (is_version_compatible m (hs_version_major p) (hs_version_minor p))
      then reject_version_result m
      else resolve_outbound m
  end.

Definition on_timeout (m : t) : fsm_step_result * t :=
  match m_state m with
  | handshaking =>
      if m_handshake_retry_remaining m >? 0
      then (StepResult act_send_request out_none dedup_none,
            set_retry m (m_handshake_retry_remaining m - 1))
      else (StepResult act_abort out_none dedup_none, set_state m not_connected)
  | dialing => (StepResult act_retry out_none dedup_none, m)
  | _ => (no_step, m)
  end.

Definition on_external_complete (m : t) : fsm_step_result * t :=
  if m_complete_emitted m then (no_step, m) else
  (StepResult act_complete out_accept_outbound dedup_none, set_emitted (set_state m handshake_resolved) true).

Definition on_torn_down (m : t) : fsm_step_result * t :=
  (no_step, set_retry (set_emitted (set_pending (set_state m not_connected) false) false)
              (handshake_retry (m_cfg m))).

(** ** Events and runs *)

Inductive input : Type :=
| DialStarted | OutboundConnected
| Request (req : handshake_request) (bootstrap : bool) (facts : attach_facts)
| Response (resp : handshake_response) (facts : attach_facts)
| Timeout | ExternalComplete | TornDown.

Definition step (m : t) (i : input) : fsm_step_result * t :=
  match i with
  | DialStarted => on_dial_started m
  | OutboundConnected => on_outbound_connected m
  | Request req b facts => on_request m req b facts
  | Response resp facts => on_response m resp facts
  | Timeout => on_timeout m
  | ExternalComplete => on_external_complete m
  | TornDown => on_torn_down m
  end.

(** The bridge around the machine tears the session down when it is told to abort
    ([peer_session_complete.h], [on_abort]; [peer_session.h], [tear_down]), and tears
    it down on its own at any time: an input and, after an abort, the teardown. *)
Definition bridged (m : t) (i : input) : fsm_step_result * t :=
  let '(r, m) := step m i in
  if decide (sr_action r = act_abort) then (r, (on_torn_down m).2) else (r, m).

Fixpoint run (m : t) (is_ : list input) : list (input * fsm_step_result) * t :=
  match is_ with
  | [] => ([], m)
  | i :: is_ => let '(r, m) := bridged m i in let '(rs, m) := run m is_ in ((i, r) :: rs, m)
  end.

(** ** Invariants *)

(** Once the session has been completed the machine is resolved, until a teardown;
    and the retry budget is never exceeded. *)
Definition fsm_inv (cfg : handshake_fsm_config) (m : t) : Prop :=
  m_cfg m = cfg /\ (m_complete_emitted m = true -> m_state m = handshake_resolved) /\
  0 <= m_handshake_retry_remaining m <= handshake_retry cfg.

Definition is_complete (r : fsm_step_result) : bool :=
  match sr_action r with act_complete => true | _ => false end.

(** What makes a peer's message admissible. *)
Definition admissible (cfg : handshake_fsm_config) (p : handshake_request) (facts : attach_facts) : Prop :=
  hs_protocol_version p = k_protocol_version /\ hs_id p <> self_id cfg /\
  (forall policy, attach_policy cfg = Some policy -> policy facts = true) /\
  (compatible_version_major cfg < hs_version_major p \/
   hs_version_major p = compatible_version_major cfg /\ compatible_version_minor cfg <= hs_version_minor p).

Definition input_admissible (cfg : handshake_fsm_config) (i : input) : Prop :=
  match i with
  | Request req _ facts => admissible cfg req facts
  | Response resp facts => admissible cfg (hs_prefix resp) facts /\ hs_status resp = hs_accepted
  | ExternalComplete => True
  | _ => False
  end.

Lemma validate_spec m pv id fp facts :
  let '(g, m') := validate m pv id fp facts in
  match g with
  | Some r => sr_action r = act_abort /\ m' = set_state (set_peer m id fp) not_connected
  | None => m' = set_peer m id fp /\ pv = k_protocol_version /\ id <> self_id (m_cfg m) /\
            (forall policy, attach_policy (m_cfg m) = Some policy -> policy facts = true)
  end.
Proof.
  unfold validate. destruct (Z.eqb_spec pv k_protocol_version) as [->|]; simpl; [|done].
  case_decide; [done|]. destruct (attach_policy (m_cfg m)) as [p|]; simpl.
  - destruct (p facts) eqn:E; simpl; [|done]. split_and!; try done. intros. by simplify_eq.
  - done.
Qed.

Lemma is_version_compatible_spec m mj mn :
  is_version_compatible m mj mn = true <->
  compatible_version_major (m_cfg m) < mj \/
  mj = compatible_version_major (m_cfg m) /\ compatible_version_minor (m_cfg m) <= mn.
Proof.
  unfold is_version_compatible. rewrite orb_true_iff, andb_true_iff, Z.gtb_lt, Z.eqb_eq, Z.geb_leb, Z.leb_le. lia.
Qed.

(** A step that is not an abort: the configuration and the retries stay, the machine
    is resolved once it has completed, and it completes only if it had not. *)
Definition proper_step (m : t) (res : fsm_step_result * t) : Prop :=
  sr_action res.1 <> act_abort /\ m_cfg res.2 = m_cfg m /\
  m_handshake_retry_remaining res.2 = m_handshake_retry_remaining m /\
  (m_complete_emitted res.2 = true -> m_state res.2 = handshake_resolved) /\
  (is_complete res.1 = true -> m_complete_emitted m = false /\ m_complete_emitted res.2 = true) /\
  (is_complete res.1 = false -> m_complete_emitted res.2 = m_complete_emitted m).

Lemma resolve_inbound_spec m b :
  (m_complete_emitted m = true -> m_state m = handshake_resolved) -> proper_step m (resolve_inbound m b).
Proof.
  intros Hem. unfold resolve_inbound, racing_outbound, proper_step. simpl.
  destruct (m_state m) eqn:Es, (m_complete_emitted m) eqn:Ee, b; try (specialize (Hem eq_refl); done);
    simpl; rewrite ?Es, ?Ee; split_and!; done.
Qed.

Lemma resolve_outbound_spec m :
  (m_complete_emitted m = true -> m_state m = handshake_resolved) -> proper_step m (resolve_outbound m).
Proof.
  intros Hem. unfold resolve_outbound, proper_step.
  destruct (m_state m) eqn:Es, (m_complete_emitted m) eqn:Ee; try (specialize (Hem eq_refl); done);
    simpl; rewrite ?Es, ?Ee; split_and!; done.
Qed.

Lemma on_timeout_proper m :
  (m_complete_emitted m = true -> m_state m = handshake_resolved) ->
  sr_action (on_timeout m).1 = act_abort \/
  (sr_action (on_timeout m).1 <> act_abort /\ m_cfg (on_timeout m).2 = m_cfg m /\
   m_complete_emitted (on_timeout m).2 = m_complete_emitted m /\ is_complete (on_timeout m).1 = false /\
   m_state (on_timeout m).2 = m_state m /\
   (m_handshake_retry_remaining (on_timeout m).2 = m_handshake_retry_remaining m \/
    0 < m_handshake_retry_remaining m /\
    m_handshake_retry_remaining (on_timeout m).2 = m_handshake_retry_remaining m - 1)).
Proof.
  intros Hem. unfold on_timeout. destruct (m_state m) eqn:Es; simpl; try (right; split_and!; auto; done).
  rewrite Z.gtb_ltb. destruct (Z.ltb_spec 0 (m_handshake_retry_remaining m)); simpl; [right|by left].
  split_and!; auto; done.
Qed.

(** A step that ends in a teardown. *)
Ltac torn_down Hdown :=
  unfold reject_version_result, identity_conflict_result, abort_result; rewrite ?decide_True by done;
  cbn [fst snd sr_action]; split_and!; [apply Hdown; done|done|by auto|done].

(** One bridged step: what it keeps and when it completes. *)
Lemma bridged_spec cfg m i :
  0 <= handshake_retry cfg -> fsm_inv cfg m ->
  fsm_inv cfg (bridged m i).2 /\
  (is_complete (bridged m i).1 = true ->
     m_complete_emitted m = false /\ m_complete_emitted (bridged m i).2 = true /\ input_admissible cfg i) /\
  (is_complete (bridged m i).1 = false ->
     i = TornDown \/ sr_action (bridged m i).1 = act_abort \/
     m_complete_emitted (bridged m i).2 = m_complete_emitted m) /\
  (i = TornDown \/ sr_action (bridged m i).1 = act_abort -> m_complete_emitted (bridged m i).2 = false).
Proof.
  intros Hr0 (Hcfg & Hem & Hr). unfold bridged, step, is_complete.
  assert (forall m', m_cfg m' = cfg -> fsm_inv cfg (on_torn_down m').2) as Hdown.
  { intros m' E. unfold on_torn_down, fsm_inv. simpl. rewrite E. split_and!; done || lia. }
  destruct i as [| |req b facts|resp facts| | |].
  - unfold on_dial_started. destruct (m_state m) eqn:Es; rewrite decide_False by done; cbn [fst snd sr_action no_step];
      unfold fsm_inv; simpl; rewrite ?Es; split_and!; try done; try apply Hr; try (by intros [?|?]); try (by auto);
      intros E; specialize (Hem E); congruence.
  - unfold on_outbound_connected. destruct (m_state m) eqn:Es; rewrite decide_False by done; cbn [fst snd sr_action no_step];
      unfold fsm_inv; simpl; rewrite ?Es; split_and!; try done; try apply Hr; try (by intros [?|?]); try (by auto);
      intros E; specialize (Hem E); congruence.
  - unfold on_request. set (m0 := set_last_version m _).
    pose proof (validate_spec m0 (hs_protocol_version req) (hs_id req) (hs_fingerprint req) facts) as Hv.
    destruct (validate m0 _ _ _ _) as [ [g|] m1]; [destruct Hv as [Hg ->]|destruct Hv as (-> & H1 & H2 & H3)].
    { rewrite decide_True by done. cbn [fst snd]. rewrite Hg. split_and!; [by apply Hdown|done|by auto|done]. }
    destruct (is_version_compatible _ _ _) eqn:Hc; [apply is_version_compatible_spec in Hc|].
    2: { torn_down Hdown. }
    cbn [negb]. pose proof (resolve_inbound_spec (set_peer m0 (hs_id req) (hs_fingerprint req)) b Hem) as Hp.
    destruct (resolve_inbound _ b) as [r m']. destruct Hp as (Ha & Hc' & Hrr & Hst & Hyes & Hno).
    cbn [fst snd] in *. rewrite decide_False by done. cbn [fst snd]. unfold fsm_inv. simpl in *.
    rewrite Hc', Hrr. split_and!; [done|done|apply Hr|apply Hr| | |].
    + intros E. destruct (Hyes E). split; [done|]. split; [done|]. unfold admissible. rewrite <- Hcfg. done.
    + intros E. right. right. by apply Hno.
    + intros [?|?]; done.
  - unfold on_response. set (m0 := set_last_version m _).
    pose proof (validate_spec m0 (hs_protocol_version (hs_prefix resp)) (hs_id (hs_prefix resp))
      (hs_fingerprint (hs_prefix resp)) facts) as Hv.
    destruct (validate m0 _ _ _ _) as [ [g|] m1]; [destruct Hv as [Hg ->]|destruct Hv as (-> & H1 & H2 & H3)].
    { rewrite decide_True by done. cbn [fst snd]. rewrite Hg. split_and!; [by apply Hdown|done|by auto|done]. }
    destruct (Z.eqb_spec (hs_status resp) hs_identity_conflict).
    { torn_down Hdown. }
    destruct (Z.eqb_spec (hs_status resp) hs_accepted); cbn [negb].
    2: { torn_down Hdown. }
    destruct (is_version_compatible _ _ _) eqn:Hc; [apply is_version_compatible_spec in Hc|].
    2: { torn_down Hdown. }
    cbn [negb]. pose proof (resolve_outbound_spec (set_peer m0 (hs_id (hs_prefix resp)) (hs_fingerprint (hs_prefix resp))) Hem) as Hp.
    destruct (resolve_outbound _) as [r m']. destruct Hp as (Ha & Hc' & Hrr & Hst & Hyes & Hno).
    cbn [fst snd] in *. rewrite decide_False by done. cbn [fst snd]. unfold fsm_inv. simpl in *.
    rewrite Hc', Hrr. split_and!; [done|done|apply Hr|apply Hr| | |].
    + intros E. destruct (Hyes E). split; [done|]. split; [done|]. unfold admissible. rewrite <- Hcfg. done.
    + intros E. right. right. by apply Hno.
    + intros [?|?]; done.
  - destruct (on_timeout_proper m Hem) as [Ha|(Ha & Hc' & He & Hno & Hst & Hrr)].
    + destruct (on_timeout m) as [r m'] eqn:E. cbn [fst snd] in *. rewrite decide_True by done. cbn [fst snd].
      rewrite Ha. split_and!; [apply Hdown|done|by auto|done].
      unfold on_timeout in E. by repeat case_match; simplify_eq/=.
    + destruct (on_timeout m) as [r m']. cbn [fst snd] in *. rewrite decide_False by done. cbn [fst snd].
      unfold fsm_inv, is_complete in *. rewrite Hc', He, Hst. split_and!; [done|done|lia|lia| | |].
      * intros E. rewrite E in Hno. done.
      * by auto.
      * intros [?|?]; done.
  - unfold on_external_complete. destruct (m_complete_emitted m) eqn:Ee; rewrite decide_False by done;
      cbn [fst snd sr_action no_step]; unfold fsm_inv; simpl; split_and!; try done; try apply Hr; try (by intros [?|?]); by auto.
  - rewrite ?decide_False by done. cbn [fst snd]. split_and!; [by apply Hdown|done|by auto|done].
Qed.

(** ** Theorems *)

(** The completions since the last teardown: a teardown input or an abort starts the
    count again. *)
Definition ends_cycle (i : input) (r : fsm_step_result) : bool :=
  match i, sr_action r with TornDown, _ | _, act_abort => true | _, _ => false end.

Lemma ends_cycle_iff i r : ends_cycle i r = true <-> i = TornDown \/ sr_action r = act_abort.
Proof. unfold ends_cycle. destruct i, (sr_action r); naive_solver. Qed.

Fixpoint completions (n : nat) (trace : list (input * fsm_step_result)) : list nat :=
  match trace with
  | [] => [n]
  | (i, r) :: trace =>
      let n := if is_complete r then S n else n in
      if ends_cycle i r then n :: completions 0 trace
      else completions n trace
  end.

Lemma run_completions cfg m is_ n :
  0 <= handshake_retry cfg -> fsm_inv cfg m ->
  (n <= 1)%nat -> (n = 1%nat -> m_complete_emitted m = true) ->
  Forall (fun k => k <= 1)%nat (completions n (run m is_).1) /\ fsm_inv cfg (run m is_).2.
Proof.
  intros Hr0. revert m n. induction is_ as [|i is_ IH]; intros m n Hinv Hn Hem; cbn [run].
  { simpl. split; [by constructor|done]. }
  destruct (bridged_spec cfg m i Hr0 Hinv) as (Hinv' & Hyes & Hno & Hdown).
  destruct (bridged m i) as [r m1]. cbn [fst snd] in *. destruct (run m1 is_) as [rs m2] eqn:Erun.
  cbn [fst snd completions]. set (n' := if is_complete r then S n else n).
  assert (n' <= 1 /\ (n' = 1 -> m_complete_emitted m1 = true \/ i = TornDown \/ sr_action r = act_abort))%nat as [Hn' Hem'].
  { unfold n'. destruct (is_complete r) eqn:E.
    - destruct (Hyes eq_refl) as (Hf & Ht & _). destruct n; [split; [lia|by left]|].
      assert (n = 0)%nat as -> by lia. specialize (Hem eq_refl). congruence.
    - split; [done|]. intros ->. specialize (Hem eq_refl).
      destruct (m_complete_emitted m1) eqn:E1; [by left|]. right.
      destruct (Hno eq_refl) as [?|[?|?] ]; [by left|by right|congruence]. }
  destruct (ends_cycle i r) eqn:Hd.
  - destruct (IH m1 0%nat Hinv') as [Hall Hfin]; [lia|done|]. rewrite Erun in *. split; [by constructor|done].
  - destruct (IH m1 n' Hinv' Hn') as [Hall Hfin]; [|by rewrite Erun in *].
    intros E. destruct (Hem' E) as [?|Hend]; [done|]. apply ends_cycle_iff in Hend. congruence.
Qed.

(** C14: between two teardowns the machine tells the session to complete at most once,
    whatever the peer, the timers and the transport do; and every completion is
    preceded by an admissible message (right protocol version, another identity, the
    attach policy's consent and a compatible version) or by a transport that has
    authenticated the peer itself. *)
Theorem handshake_completes_once_and_admits (cfg : handshake_fsm_config) (is_ : list input) :
  0 <= handshake_retry cfg ->
  let '(trace, m) := run (new cfg) is_ in
  Forall (fun k => k <= 1)%nat (completions 0 trace) /\
  Forall (fun ir => is_complete ir.2 = true -> input_admissible cfg ir.1) trace.
Proof.
  intros Hr0. assert (fsm_inv cfg (new cfg)) as Hinv by (unfold fsm_inv; simpl; split_and!; done || lia).
  pose proof (run_completions cfg (new cfg) is_ 0 Hr0 Hinv ltac:(lia) ltac:(done)) as [Hall _].
  assert (Forall (fun ir => is_complete ir.2 = true -> input_admissible cfg ir.1) (run (new cfg) is_).1) as Hadm.
  { clear Hall. revert Hinv. generalize (new cfg). induction is_ as [|i is_ IH]; intros m Hinv; cbn [run]; [constructor|].
    destruct (bridged_spec cfg m i Hr0 Hinv) as (Hinv' & Hyes & _). destruct (bridged m i) as [r m1].
    cbn [fst snd] in *. specialize (IH m1 Hinv'). destruct (run m1 is_) as [rs m2]. cbn [fst] in *.
    constructor; [|done]. cbn [fst snd]. intros E. by destruct (Hyes E) as (_ & _ & ?). }
  destruct (run (new cfg) is_) as [trace m]. done.
Qed.

(** ** Simultaneous connect *)

Lemma node_gt_antisym a b : length a = length b -> a <> b -> node_gt b a = negb (node_gt a b).
Proof.
  revert b. induction a as [|x a IH]; intros [|y b] Hl Hne; simplify_eq/=.
  destruct (Z.ltb_spec ⟦x⟧ ⟦y⟧), (Z.ltb_spec ⟦y⟧ ⟦x⟧); try (lia || done).
  assert (x = y) as -> by (apply byte.unsigned_inj; lia). apply IH; [done|congruence].
Qed.

(** An admissible message passes the gate and reaches the resolution. *)
Lemma validate_admissible m p facts :
  admissible (m_cfg m) p facts ->
  validate m (hs_protocol_version p) (hs_id p) (hs_fingerprint p) facts
  = (None, set_peer m (hs_id p) (hs_fingerprint p)).
Proof.
  intros (Hv & Hid & Hp & _). unfold validate. simpl. rewrite Hv. simpl.
  rewrite decide_False by done. destruct (attach_policy (m_cfg m)); [|done]. by rewrite Hp.
Qed.

Lemma on_request_admissible m p boot facts :
  admissible (m_cfg m) p facts ->
  on_request m p boot facts
  = resolve_inbound (set_peer (set_last_version m (hs_protocol_version p)) (hs_id p) (hs_fingerprint p)) boot.
Proof.
  intros Ha. unfold on_request. rewrite validate_admissible by done.
  rewrite (proj2 (is_version_compatible_spec _ _ _)); [done|]. by destruct Ha as (_ & _ & _ & ?).
Qed.

Lemma on_response_admissible m p facts :
  admissible (m_cfg m) p facts ->
  on_response m (HandshakeResponse p hs_accepted) facts
  = resolve_outbound (set_peer (set_last_version m (hs_protocol_version p)) (hs_id p) (hs_fingerprint p)).
Proof.
  intros Ha. unfold on_response. cbn [hs_prefix hs_status]. rewrite validate_admissible by done. simpl.
  rewrite (proj2 (is_version_compatible_spec _ _ _)); [done|]. by destruct Ha as (_ & _ & _ & ?).
Qed.

(** A machine that dials while its peer dials it, fed the peer's two messages. *)
Definition crossing (cfg : handshake_fsm_config) (messages : list input) : list fsm_step_result :=
  map snd (run (new cfg) (DialStarted :: OutboundConnected :: messages)).1.

Definition survivor (self peer : node_id) : dedup_decision :=
  if node_gt self peer then keep_outbound else keep_inbound.

Definition dialled : list fsm_step_result := [no_step; StepResult act_send_request out_none dedup_none].

Lemma run_cons m i is_ r m' :
  step m i = (r, m') -> sr_action r <> act_abort ->
  map snd (run m (i :: is_)).1 = r :: map snd (run m' is_).1.
Proof.
  intros Hs Hr. cbn [run]. unfold bridged. rewrite Hs, decide_False by done. by destruct (run m' is_).
Qed.

Lemma crossing_request_first cfg q boot facts facts' :
  admissible cfg q facts -> admissible cfg q facts' ->
  crossing cfg [Request q boot facts; Response (HandshakeResponse q hs_accepted) facts']
  = dialled ++ [StepResult act_complete out_accept_inbound (survivor (self_id cfg) (hs_id q)); no_step].
Proof.
  intros Ha Ha'. unfold crossing. do 2 (erewrite run_cons; [|reflexivity|done]).
  erewrite run_cons; [|cbn [step]; by rewrite on_request_admissible|done].
  erewrite run_cons; [|cbn [step]; by rewrite on_response_admissible|done]. done.
Qed.

Lemma crossing_response_first cfg q boot facts facts' :
  admissible cfg q facts -> admissible cfg q facts' ->
  crossing cfg [Response (HandshakeResponse q hs_accepted) facts'; Request q boot facts]
  = dialled ++ [StepResult act_complete out_accept_outbound dedup_none; accept_inbound_no_complete].
Proof.
  intros Ha Ha'. unfold crossing. do 2 (erewrite run_cons; [|reflexivity|done]).
  erewrite run_cons; [|cbn [step]; by rewrite on_response_admissible|done].
  erewrite run_cons; [|cbn [step]; by rewrite on_request_admissible|done]. done.
Qed.

(** C39: two nodes dial each other at the same time. A node that sees the peer's request
    before the peer's response completes on it and decides which connection survives,
    and when both do, their decisions name the same connection: one keeps the one it
    dialled exactly when the other keeps the one it accepted. A node that sees the
    response first completes on its own connection, undecided, and answers the request
    without completing a second time. *)
Theorem simultaneous_connect_agrees (ca cb : handshake_fsm_config) (qa qb : handshake_request)
    (boot_a boot_b : bool) (fa fa' fb fb' : attach_facts) :
  length (self_id ca) = length (self_id cb) -> hs_id qa = self_id ca -> hs_id qb = self_id cb ->
  admissible ca qb fa -> admissible ca qb fa' -> admissible cb qa fb -> admissible cb qa fb' ->
  exists da db,
    crossing ca [Request qb boot_a fa; Response (HandshakeResponse qb hs_accepted) fa']
      = dialled ++ [StepResult act_complete out_accept_inbound da; no_step] /\
    crossing cb [Request qa boot_b fb; Response (HandshakeResponse qa hs_accepted) fb']
      = dialled ++ [StepResult act_complete out_accept_inbound db; no_step] /\
    (da = keep_outbound /\ db = keep_inbound \/ da = keep_inbound /\ db = keep_outbound) /\
    crossing ca [Response (HandshakeResponse qb hs_accepted) fa'; Request qb boot_a fa]
      = dialled ++ [StepResult act_complete out_accept_outbound dedup_none; accept_inbound_no_complete].
Proof.
  intros Hl Ha Hb H1 H2 H3 H4. assert (self_id ca <> self_id cb) as Hne by (rewrite <- Hb; by destruct H1 as (_ & ? & _)).
  eexists _, _. split; [by apply crossing_request_first|]. split; [by apply crossing_request_first|].
  split; [|by apply crossing_response_first]. rewrite Ha, Hb. unfold survivor.
  rewrite (node_gt_antisym _ _ Hl Hne). destruct (node_gt _ _); [by left|by right].
Qed.

(** ** Retries *)

Fixpoint timeouts (n : nat) (m : t) : list fsm_action * t :=
  match n with
  | O => ([], m)
  | S n => let '(r, m) := on_timeout m in let '(acts, m) := timeouts n m in (sr_action r :: acts, m)
  end.

(** An unanswered handshake is retried exactly the configured number of times and
    then aborted. *)
Theorem handshake_retries_then_aborts (m : t) (n : nat) :
  m_state m = handshaking -> m_handshake_retry_remaining m = Z.of_nat n ->
  (timeouts (S n) m).1 = replicate n act_send_request ++ [act_abort] /\
  m_state (timeouts (S n) m).2 = not_connected.
Proof.
  revert m. induction n as [|n IH]; intros m Hs Hr; cbn [timeouts].
  { unfold on_timeout. by rewrite Hs, Hr. }
  assert (on_timeout m = (StepResult act_send_request out_none dedup_none, set_retry m (Z.of_nat (S n) - 1))) as ->.
  { unfold on_timeout. rewrite Hs, Hr, Z.gtb_ltb. by destruct (Z.ltb_spec 0 (Z.of_nat (S n))); [|lia]. }
  destruct (IH (set_retry m (Z.of_nat (S n) - 1))) as [H1 H2]; [done|simpl; lia|]. cbn [timeouts] in H1, H2.
  destruct (on_timeout (set_retry m (Z.of_nat (S n) - 1))) as [r m1].
  destruct (timeouts n m1) as [acts m2]. cbn [fst snd sr_action] in *. split; [|done]. cbn [replicate app]. by rewrite H1.
Qed.

Definition node (b : Z) : node_id := replicate 16 (byte.of_Z b).
Definition plain_config (id : Z) : handshake_fsm_config := FsmConfig (node id) 1 0 1 0 0 None 2.

Definition hello (id : Z) : handshake_request :=
  HandshakeRequest (node id) 1 0 1 0 k_protocol_version 5 (zero_bytes 8) (zero_bytes 16) 0 0 (zero_bytes 32).

Lemma handshake_completes_once_and_admits_witness :
  let facts := AttachFacts [] [] [] [] [] [] initiator [] in
  let trace := (run (new (plain_config 1))
    [OutboundConnected; Request (hello 2) false facts; Response (HandshakeResponse (hello 2) hs_accepted) facts]).1 in
  map (fun ir => sr_action ir.2) trace = [act_send_request; act_complete; act_none] /\
  Forall (fun k => k <= 1)%nat (completions 0 trace).
Proof.
  simpl. split; [vm_compute; reflexivity|].
  pose proof (handshake_completes_once_and_admits (plain_config 1)
    [OutboundConnected; Request (hello 2) false (AttachFacts [] [] [] [] [] [] initiator []);
     Response (HandshakeResponse (hello 2) hs_accepted) (AttachFacts [] [] [] [] [] [] initiator [])]
    ltac:(simpl; lia)) as H.
  destruct (run _ _) as [trace m] eqn:E. destruct H as [H _]. vm_compute in E. injection E as <- _. exact H.
Defined.

Lemma simultaneous_connect_agrees_witness :
  let facts := AttachFacts [] [] [] [] [] [] initiator [] in
  exists da db,
    crossing (plain_config 1) [Request (hello 2) false facts; Response (HandshakeResponse (hello 2) hs_accepted) facts]
      = dialled ++ [StepResult act_complete out_accept_inbound da; no_step] /\
    crossing (plain_config 2) [Request (hello 1) true facts; Response (HandshakeResponse (hello 1) hs_accepted) facts]
      = dialled ++ [StepResult act_complete out_accept_inbound db; no_step] /\
    (da = keep_outbound /\ db = keep_inbound \/ da = keep_inbound /\ db = keep_outbound).
Proof.
  intros facts.
  destruct (simultaneous_connect_agrees (plain_config 1) (plain_config 2) (hello 1) (hello 2) false true
              facts facts facts facts) as (da & db & H1 & H2 & H3 & _);
    try (repeat split; (done || (intros; discriminate) || (vm_compute; discriminate) ||
         (right; split; vm_compute; (reflexivity || discriminate)))).
  exists da, db. done.
Defined.

Lemma handshake_retries_then_aborts_witness :
  (timeouts 3 (set_state (new (plain_config 1)) handshaking)).1
  = [act_send_request; act_send_request; act_abort].
Proof.
  apply (handshake_retries_then_aborts (set_state (new (plain_config 1)) handshaking) 2); reflexivity.
Defined.

End Fsm.

(** ** [class epoch_source] *)

Module Epoch.

Definition next (counter : Z) : Z * Z :=
  let counter := wrap 64 (counter + 1) in
  let counter := if counter =? 0 then 1 else counter in
  (counter, counter).

(** Zero is never drawn, and an epoch differs from the one before it. *)
Lemma next_nonzero counter :
  in_width 64 counter ->
  in_width 64 (next counter).1 /\ (next counter).1 <> 0 /\ (next counter).1 <> counter.
Proof.
  intros [H0 H1]. unfold next, in_width, wrap in *. simpl fst.
  destruct (decide (counter = 2 ^ 64 - 1)) as [->|]; [by vm_compute|].
  rewrite Z.mod_small by lia. destruct (Z.eqb_spec (counter + 1) 0); lia.
Qed.

End Epoch.

(** ** [class handshake_gate] *)

Module Gate.

Record t : Type := Gate { m_buffer : list bytes; m_ready : bool }.

Definition new : t := Gate [] false.

(** Each operation with the calls of the drain it makes. *)
Definition submit (g : t) (data : bytes) : list bytes * t :=
  if negb (m_ready g) then ([], Gate (m_buffer g ++ [data]) (m_ready g)) else ([data], g).

Definition mark_ready (g : t) : list bytes * t := (m_buffer g, Gate [] true).

Definition is_ready (g : t) : bool := m_ready g.
Definition buffered (g : t) : nat := length (m_buffer g).
Definition reset (g : t) : t := Gate [] (m_ready g).

Inductive op : Type := Submit (data : bytes) | MarkReady.

Definition apply_op (g : t) (o : op) : list bytes * t :=
  match o with Submit d => submit g d | MarkReady => mark_ready g end.

Fixpoint run (g : t) (ops : list op) : list bytes * t :=
  match ops with
  | [] => ([], g)
  | o :: ops => let '(out, g) := apply_op g o in let '(out', g) := run g ops in (out ++ out', g)
  end.

Definition submitted (ops : list op) : list bytes :=
  omap (fun o => match o with Submit d => Some d | MarkReady => None end) ops.

Lemma run_fifo g ops :
  (m_ready g = true -> m_buffer g = []) ->
  let '(out, g') := run g ops in
  (m_ready g' = true -> m_buffer g' = []) /\
  out ++ m_buffer g' = m_buffer g ++ submitted ops /\
  (m_ready g' = m_ready g || existsb (fun o => match o with MarkReady => true | _ => false end) ops) /\
  (m_ready g' = false -> out = []).
Proof.
  revert g. induction ops as [|o ops IH]; intros g Hg; cbn [run].
  { simpl. rewrite app_nil_r, orb_false_r. done. }
  destruct o as [d|]; unfold apply_op, submit, mark_ready.
  - destruct (m_ready g) eqn:Er; cbn [negb].
    + specialize (IH g). rewrite Er in IH. specialize (IH Hg). destruct (run g ops) as [out g'].
      destruct IH as (H1 & H2 & H3 & H4). simpl in *. rewrite H3, Hg in * by done. simpl in *.
      split_and!; try done. change (submitted (Submit d :: ops)) with (d :: submitted ops). congruence.
    + specialize (IH (Gate (m_buffer g ++ [d]) false)). simpl in IH. specialize (IH ltac:(done)).
      destruct (run (Gate (m_buffer g ++ [d]) false) ops) as [out g']. destruct IH as (H1 & H2 & H3 & H4).
      simpl in *. change (submitted (Submit d :: ops)) with (d :: submitted ops).
      rewrite <- app_assoc in H2. split_and!; done.
  - specialize (IH (Gate [] true)). simpl in IH. specialize (IH ltac:(done)).
    destruct (run (Gate [] true) ops) as [out g']. destruct IH as (H1 & H2 & H3 & H4). simpl in *.
    change (submitted (MarkReady :: ops)) with (submitted ops). rewrite <- app_assoc, H2.
    split; [done|]. split; [done|]. split; [by rewrite H3, orb_true_r|]. by rewrite H3.
Qed.

(** The gate emits nothing before the readiness edge and, once ready, has emitted
    exactly what was submitted, in submission order. *)
Theorem gate_is_fifo (ops : list op) :
  let '(out, g) := run new ops in
  (MarkReady ∉ ops -> out = [] /\ m_buffer g = submitted ops) /\
  (MarkReady ∈ ops -> out = submitted ops /\ is_ready g = true).
Proof.
  pose proof (run_fifo new ops ltac:(done)) as H. destruct (run new ops) as [out g].
  destruct H as (H1 & H2 & H3 & H4). simpl in *.
  assert (existsb (fun o => match o with MarkReady => true | _ => false end) ops = true <-> MarkReady ∈ ops) as Hex.
  { rewrite existsb_exists. split.
    - intros (o & Hin & Ho). destruct o; [done|]. by apply list_elem_of_In.
    - intros Hin. exists MarkReady. split; [by apply list_elem_of_In|done]. }
  destruct (existsb _ ops) eqn:E; rewrite H3 in *.
  - split; [intros Hn; by destruct Hn; apply Hex|]. intros _. rewrite H1, app_nil_r in H2 by done. done.
  - split; [|intros Hin; by apply Hex in Hin]. intros _. rewrite (H4 eq_refl) in *. done.
Qed.

Lemma gate_is_fifo_witness :
  let '(out, g) := run new [Submit [Byte.x01]; Submit [Byte.x02]; MarkReady; Submit [Byte.x03] ] in
  out = [ [Byte.x01]; [Byte.x02]; [Byte.x03] ] /\ is_ready g = true.
Proof.
  apply (gate_is_fifo [Submit [Byte.x01]; Submit [Byte.x02]; MarkReady; Submit [Byte.x03] ]).
  apply elem_of_cons. right. apply elem_of_cons. right. constructor.
Defined.

End Gate.
