(* ===== verification/SendQueue.v ===== *)
(** * The outbound queues of the stream and datagram transports

    [stream::detail::send_queue]
    ([lib/plexus-stream/include/plexus/stream/detail/send_queue.h], module [StreamQueue]),
    [datagram::detail::send_queue]
    ([lib/plexus-datagram/include/plexus/datagram/detail/send_queue.h], module [DatagramQueue])
    and [datagram::detail::udp_backpressure_queue]
    ([lib/plexus-datagram/include/plexus/datagram/detail/udp_backpressure_queue.h], module [ParkQueue]).

    The queues own their frames; a frame is its bytes.  The sink of a queue starts an
    asynchronous write: a call of the sink is an event, its completion a later operation
    [complete].  Byte counters are [std::size_t] and wrap at 64 bits. *)

From S2P Require Import Prelude.

(** The bytes held by a queue of frames. *)
Definition queue_bytes (q : list bytes) : Z := zlen (concat q).

Lemma queue_bytes_app q q' : queue_bytes (q ++ q') = queue_bytes q + queue_bytes q'.
Proof. unfold queue_bytes. by rewrite concat_app, zlen_app. Qed.

Lemma queue_bytes_cons f q : queue_bytes (f :: q) = zlen f + queue_bytes q.
Proof. unfold queue_bytes. cbn [concat]. by rewrite zlen_app. Qed.

Lemma queue_bytes_nonneg q : 0 <= queue_bytes q.
Proof. apply zlen_nonneg. Qed.

Lemma queue_bytes_nil : queue_bytes [] = 0.
Proof. done. Qed.

(** ** [stream::detail::send_queue] *)

Module StreamQueue.

Definition unbounded : Z := size_max.
Definition default_gather_limit : nat := 64.

(** One call of the sink with a buffer sequence. *)
Inductive event : Type := Write (buffers : list bytes).

Record send_queue : Type := SendQueue {
  m_byte_cap : Z;
  m_gather_limit : nat;
  m_queue : list bytes;
  m_views : list bytes;
  m_in_flight : nat;
  m_bytes : Z;
  m_open : bool;
  m_sending : bool;
}.

Definition send_queue_new (byte_cap : Z) (gather_limit : nat) : send_queue :=
  SendQueue byte_cap gather_limit [] [] 0 0 true false.

Definition full (q : send_queue) : bool := m_bytes q >=? m_byte_cap q.
Definition size (q : send_queue) : nat := length (m_queue q).
Definition queued_bytes (q : send_queue) : Z := m_bytes q.
Definition capacity (q : send_queue) : Z := m_byte_cap q.
Definition sending (q : send_queue) : bool := m_sending q.

Definition admits (q : send_queue) (size : Z) : bool :=
  (m_bytes q =? 0) || ((m_bytes q <? m_byte_cap q) && (size <=? m_byte_cap q - m_bytes q)).

Definition stash (q : send_queue) (frame : bytes) : send_queue :=
  SendQueue (m_byte_cap q) (m_gather_limit q) (m_queue q ++ [frame]) (m_views q) (m_in_flight q)
    (wrap 64 (m_bytes q + zlen frame)) (m_open q) (m_sending q).

Definition drive (q : send_queue) : list event * send_queue :=
  match m_queue q with
  | [] => ([], SendQueue (m_byte_cap q) (m_gather_limit q) (m_queue q) (m_views q) (m_in_flight q)
                 (m_bytes q) (m_open q) false)
  | _ =>
      let n := Nat.min (m_gather_limit q) (length (m_queue q)) in
      let views := take n (m_queue q) in
      ([Write views], SendQueue (m_byte_cap q) (m_gather_limit q) (m_queue q) views n
                        (m_bytes q) (m_open q) true)
  end.

(** [if(!m_sending) drive();] *)
Definition resume (q : send_queue) : list event * send_queue :=
  if negb (m_sending q) then drive q else ([], q).

Definition admit_node (q : send_queue) (frame : bytes) : bool * list event * send_queue :=
  let q := stash q frame in
  let '(evs, q) := resume q in
  (true, evs, q).

(** Both overloads: the copying one and the one that holds the caller's owner. *)
Definition enqueue (q : send_queue) (frame : bytes) : bool * list event * send_queue :=
  if negb (admits q (zlen frame)) then (false, [], q) else admit_node q frame.

Definition enqueue_both (q : send_queue) (payload trailer : bytes) : bool * list event * send_queue :=
  if negb (admits q (wrap 64 (zlen payload + zlen trailer))) then (false, [], q) else
  let q := stash (stash q payload) trailer in
  let '(evs, q) := resume q in
  (true, evs, q).

(** The pops of the completion handler; [front] of an empty deque is [None]. *)
Fixpoint pop_fronts (n : nat) (q : send_queue) : option send_queue :=
  match n with
  | O => Some q
  | S n =>
      match m_queue q with
      | [] => None
      | f :: rest =>
          pop_fronts n (SendQueue (m_byte_cap q) (m_gather_limit q) rest (m_views q) (m_in_flight q)
                          (wrap 64 (m_bytes q - zlen f)) (m_open q) (m_sending q))
      end
  end.

(** The completion handler given to the sink. *)
Definition complete (q : send_queue) (ok : bool) : option (list event * send_queue) :=
  if negb (m_open q) then Some ([], q) else
  q ← pop_fronts (m_in_flight q) q; Some (drive q).

Definition close (q : send_queue) : send_queue :=
  SendQueue (m_byte_cap q) (m_gather_limit q) [] [] 0 0 false false.

Definition close_and_drain (q : send_queue) : nat * send_queue :=
  let residual := length (m_queue q) in (residual, close q).

(** *** The queue with its environment

    [s_writes] are the writes started and not yet completed, [s_accepted] the frames
    admitted and [s_written] those handed to the socket, in order.  [unit_max] bounds the
    frames and frame pairs (the per-message ceiling upstream).  The channel does not send
    on a queue it has closed. *)
Record session : Type := Session {
  s_queue : send_queue;
  s_writes : list (list bytes);
  s_accepted : list bytes;
  s_written : list bytes;
}.

Definition buffers (evs : list event) : list (list bytes) := map (fun '(Write b) => b) evs.

Inductive step (unit_max : Z) : session -> session -> Prop :=
| step_enqueue s f ok evs q :
    m_open (s_queue s) = true -> zlen f <= unit_max ->
    enqueue (s_queue s) f = (ok, evs, q) ->
    step unit_max s (Session q (s_writes s ++ buffers evs) (s_accepted s ++ if ok then [f] else [])
                  (s_written s ++ concat (buffers evs)))
| step_enqueue_both s p t ok evs q :
    m_open (s_queue s) = true -> zlen p + zlen t <= unit_max ->
    enqueue_both (s_queue s) p t = (ok, evs, q) ->
    step unit_max s (Session q (s_writes s ++ buffers evs) (s_accepted s ++ if ok then [p; t] else [])
                  (s_written s ++ concat (buffers evs)))
| step_complete s ok w ws evs q :
    s_writes s = w :: ws -> complete (s_queue s) ok = Some (evs, q) ->
    step unit_max s (Session q (ws ++ buffers evs) (s_accepted s) (s_written s ++ concat (buffers evs)))
| step_close s :
    step unit_max s (Session (close (s_queue s)) (s_writes s) (s_accepted s) (s_written s)).

Inductive reachable (cap : Z) (gather : nat) (unit_max : Z) : session -> Prop :=
| reach_new : reachable cap gather unit_max (Session (send_queue_new cap gather) [] [] [])
| reach_step s s' :
    reachable cap gather unit_max s -> step unit_max s s' -> reachable cap gather unit_max s'.

(** While the queue is open: the counter is exact, the in-flight frames are the resident
    front of the queue, a write is outstanding exactly while frames are queued, and what
    was accepted is what was written followed by what waits. *)
Record queue_inv (cap : Z) (gather : nat) (s : session) : Prop := QueueInv {
  qi_cap : m_byte_cap (s_queue s) = cap;
  qi_gather : m_gather_limit (s_queue s) = gather;
  qi_bytes : m_bytes (s_queue s) = queue_bytes (m_queue (s_queue s));
  qi_width : in_width 64 (m_bytes (s_queue s));
  qi_writes : s_writes s = if m_sending (s_queue s)
                           then [take (m_in_flight (s_queue s)) (m_queue (s_queue s))] else [];
  qi_views : m_sending (s_queue s) = true ->
             m_views (s_queue s) = take (m_in_flight (s_queue s)) (m_queue (s_queue s)) /\
             (0 < m_in_flight (s_queue s) <= length (m_queue (s_queue s)))%nat;
  qi_idle : m_sending (s_queue s) = false -> m_queue (s_queue s) = [];
  qi_order : s_accepted s = s_written s ++
             drop (if m_sending (s_queue s) then m_in_flight (s_queue s) else 0) (m_queue (s_queue s));
}.

Lemma admits_room q n :
  admits q n = true -> 0 <= n ->
  m_bytes q = 0 \/ m_bytes q + n <= m_byte_cap q.
Proof.
  unfold admits. rewrite orb_true_iff, andb_true_iff, Z.eqb_eq, Z.ltb_lt, Z.leb_le. lia.
Qed.

(** The queue with frames appended and its counter set. *)
Definition extend (q : send_queue) (fs : list bytes) (b : Z) : send_queue :=
  SendQueue (m_byte_cap q) (m_gather_limit q) (m_queue q ++ fs) (m_views q) (m_in_flight q) b
    (m_open q) (m_sending q).

(** Appending frames and driving an idle queue. *)
Lemma submit_inv cap gather s fs b :
  (0 < gather)%nat -> fs <> [] -> queue_inv cap gather s ->
  b = m_bytes (s_queue s) + queue_bytes fs -> in_width 64 b ->
  let '(evs, q) := resume (extend (s_queue s) fs b) in
  queue_inv cap gather (Session q (s_writes s ++ buffers evs) (s_accepted s ++ fs)
                          (s_written s ++ concat (buffers evs))) /\
  m_bytes q = b /\ m_open q = m_open (s_queue s).
Proof.
  intros Hg Hfs [Hcap Hgl Hb Hwd Hws Hv Hi Ho] Hbb Hw. unfold resume, extend. cbn [m_sending].
  destruct (m_sending (s_queue s)) eqn:Es; cbn [negb].
  - destruct (Hv eq_refl) as [Hviews Hfl]. split; [|done].
    split; cbn [s_queue m_byte_cap m_gather_limit m_bytes m_queue m_sending m_in_flight m_views s_writes
                s_accepted s_written buffers map concat]; rewrite ?Es, ?app_nil_r; try done.
    + by rewrite Hbb, Hb, queue_bytes_app.
    + rewrite Hws. by rewrite take_app_le by lia.
    + intros _. rewrite take_app_le, length_app by lia. split; [done|lia].
    + rewrite Ho, drop_app_le by lia. by rewrite app_assoc.
  - rewrite (Hi eq_refl) in *. cbn [app]. unfold drive. cbn [m_queue m_gather_limit]. rewrite Hgl.
    destruct fs as [|f fs]; [done|]. set (n := Nat.min gather (length (f :: fs))). split; [|done].
    split; cbn [s_queue m_byte_cap m_gather_limit m_bytes m_queue m_sending m_in_flight m_views s_writes
                s_accepted s_written buffers map concat]; try done.
    + rewrite Hbb, Hb. done.
    + by rewrite Hws.
    + intros _. split; [done|]. cbn [length] in n. unfold n. cbn [length]. lia.
    + rewrite Ho. cbn [drop]. by rewrite !app_nil_r, <- app_assoc, take_drop.
Qed.

Lemma pop_fronts_spec n q :
  (n <= length (m_queue q))%nat -> m_bytes q = queue_bytes (m_queue q) -> in_width 64 (m_bytes q) ->
  pop_fronts n q = Some (SendQueue (m_byte_cap q) (m_gather_limit q) (drop n (m_queue q)) (m_views q)
                           (m_in_flight q) (queue_bytes (drop n (m_queue q))) (m_open q) (m_sending q)).
Proof.
  revert q. induction n as [|n IH]; intros q Hn Hb Hw; cbn [pop_fronts drop].
  { destruct q. simpl in *. by rewrite Hb. }
  destruct (m_queue q) as [|f rest] eqn:Eq; [simpl in Hn; lia|].
  rewrite queue_bytes_cons in Hb. pose proof (queue_bytes_nonneg rest). pose proof (zlen_nonneg f).
  assert (wrap 64 (m_bytes q - zlen f) = queue_bytes rest) as ->.
  { rewrite Hb. replace (zlen f + _ - zlen f) with (queue_bytes rest) by lia.
    apply wrap_small. unfold in_width in *. lia. }
  rewrite IH; simpl in *; try done; [lia|]. unfold in_width in *. lia.
Qed.

Lemma complete_inv cap gather s w ws ok :
  (0 < gather)%nat -> queue_inv cap gather s -> m_open (s_queue s) = true -> s_writes s = w :: ws ->
  exists evs q, complete (s_queue s) ok = Some (evs, q) /\ m_open q = true /\
    m_queue q = drop (m_in_flight (s_queue s)) (m_queue (s_queue s)) /\
    queue_inv cap gather (Session q (ws ++ buffers evs) (s_accepted s) (s_written s ++ concat (buffers evs))).
Proof.
  intros Hg [Hcap Hgl Hb Hwd Hws Hv Hi Ho] Hopen Ew.
  destruct (m_sending (s_queue s)) eqn:Es; [|by rewrite Hws in Ew]. rewrite Hws in Ew. simplify_eq.
  destruct (Hv eq_refl) as [Hviews Hfl]. unfold complete. rewrite Hopen. cbn [negb].
  rewrite pop_fronts_spec by (done || lia). cbn [mbind option_bind].
  set (rest := drop _ (m_queue (s_queue s))) in *.
  assert (in_width 64 (queue_bytes rest)) as Hwr.
  { rewrite Hb, <- (take_drop (m_in_flight (s_queue s)) (m_queue (s_queue s))), queue_bytes_app in Hwd.
    fold rest in Hwd. pose proof (queue_bytes_nonneg rest).
    pose proof (queue_bytes_nonneg (take (m_in_flight (s_queue s)) (m_queue (s_queue s)))).
    unfold in_width in *. lia. }
  unfold drive. cbn [m_queue]. destruct rest as [|f fs] eqn:Er.
  - eexists _, _. split; [done|]. split; [done|]. split; [done|].
    split; cbn [s_queue m_byte_cap m_gather_limit m_bytes m_queue m_sending m_in_flight m_views s_writes
                s_accepted s_written buffers map concat app]; try done.
    by rewrite Ho, !app_nil_r.
  - set (n := Nat.min _ (length (f :: fs))).
    eexists _, _. split; [done|]. split; [done|]. split; [done|].
    split; cbn [s_queue m_byte_cap m_gather_limit m_bytes m_queue m_sending m_in_flight m_views s_writes
                s_accepted s_written buffers map concat app]; try done.
    + intros _. split; [done|]. unfold n. cbn [m_gather_limit length]. lia.
    + by rewrite Ho, app_nil_r, <- app_assoc, take_drop.
Qed.
(** What holds in every reachable state. *)
Definition session_inv (cap : Z) (gather : nat) (unit_max : Z) (s : session) : Prop :=
  if m_open (s_queue s)
  then queue_inv cap gather s /\ m_bytes (s_queue s) <= Z.max cap unit_max
  else s_queue s = close (send_queue_new cap gather) /\ s_written s `prefix_of` s_accepted s.

Lemma queue_inv_prefix cap gather s : queue_inv cap gather s -> s_written s `prefix_of` s_accepted s.
Proof. intros [_ _ _ _ _ _ _ ->]. by eexists. Qed.

(** An admission of [fs]: its size fits, so the counter does not wrap. *)
Lemma admission_inv cap gather unit_max s fs :
  (0 < gather)%nat -> fs <> [] -> in_width 64 cap -> in_width 64 unit_max -> queue_bytes fs <= unit_max ->
  queue_inv cap gather s -> m_bytes (s_queue s) <= Z.max cap unit_max ->
  admits (s_queue s) (queue_bytes fs) = true ->
  let b := m_bytes (s_queue s) + queue_bytes fs in
  wrap 64 b = b /\
  let '(evs, q) := resume (extend (s_queue s) fs b) in
  queue_inv cap gather (Session q (s_writes s ++ buffers evs) (s_accepted s ++ fs)
                          (s_written s ++ concat (buffers evs))) /\
  m_bytes q <= Z.max cap unit_max /\ m_open q = m_open (s_queue s).
Proof.
  intros Hg Hne Hc Hm Hfs Hi Hb Ha b.
  assert (0 <= b <= Z.max cap unit_max) as Hbb.
  { pose proof (queue_bytes_nonneg fs). destruct (admits_room _ _ Ha) as [E|E]; [done|unfold b; lia|].
    rewrite (qi_cap _ _ _ Hi) in E. destruct (qi_width _ _ _ Hi). unfold b. lia. }
  assert (in_width 64 b) as Hw by (unfold in_width in *; lia). split; [by apply wrap_small|].
  pose proof (submit_inv cap gather s fs b Hg Hne Hi eq_refl Hw) as H.
  destruct (resume _) as [evs q']. destruct H as (H1 & H2 & H3). rewrite H2. split; [done|]. split; [lia|done].
Qed.

Lemma enqueue_inv cap gather unit_max s f ok evs q :
  (0 < gather)%nat -> in_width 64 cap -> in_width 64 unit_max -> zlen f <= unit_max ->
  m_open (s_queue s) = true -> session_inv cap gather unit_max s -> enqueue (s_queue s) f = (ok, evs, q) ->
  session_inv cap gather unit_max
    (Session q (s_writes s ++ buffers evs) (s_accepted s ++ if ok then [f] else [])
       (s_written s ++ concat (buffers evs))).
Proof.
  intros Hg Hc Hm Hf Hopen Hinv He. unfold session_inv in Hinv. rewrite Hopen in Hinv. destruct Hinv as [Hi Hb].
  unfold enqueue in He. destruct (admits _ _) eqn:Ea; cbn [negb] in He.
  - assert (queue_bytes [f] = zlen f) as Ef by (rewrite queue_bytes_cons, queue_bytes_nil; lia).
    rewrite <- Ef in Ea, Hf. destruct (admission_inv cap gather unit_max s [f]) as [Hwr Hres]; try done.
    unfold admit_node, stash in He. rewrite <- Ef, Hwr in He. unfold extend in Hres.
    destruct (resume _) as [evs' q']. simplify_eq.
    destruct Hres as (H1 & H2 & H3). unfold session_inv. cbn [s_queue]. by rewrite H3, Hopen.
  - simplify_eq. cbn [buffers map concat]. rewrite !app_nil_r. unfold session_inv. cbn [s_queue]. rewrite Hopen.
    destruct s; split; [exact Hi|exact Hb].
Qed.

Lemma enqueue_both_inv cap gather unit_max s p t ok evs q :
  (0 < gather)%nat -> in_width 64 cap -> in_width 64 unit_max -> zlen p + zlen t <= unit_max ->
  m_open (s_queue s) = true -> session_inv cap gather unit_max s -> enqueue_both (s_queue s) p t = (ok, evs, q) ->
  session_inv cap gather unit_max
    (Session q (s_writes s ++ buffers evs) (s_accepted s ++ if ok then [p; t] else [])
       (s_written s ++ concat (buffers evs))).
Proof.
  intros Hg Hc Hm Hf Hopen Hinv He. unfold session_inv in Hinv. rewrite Hopen in Hinv. destruct Hinv as [Hi Hb].
  unfold enqueue_both in He. pose proof (zlen_nonneg p). pose proof (zlen_nonneg t).
  assert (queue_bytes [p; t] = zlen p + zlen t) as Ef by (rewrite !queue_bytes_cons, queue_bytes_nil; lia).
  rewrite (wrap_small 64) in He by (unfold in_width in *; lia).
  destruct (admits _ _) eqn:Ea; cbn [negb] in He.
  - rewrite <- Ef in Ea, Hf. destruct (admission_inv cap gather unit_max s [p; t]) as [Hwr Hres]; try done.
    unfold stash in He. cbn [m_byte_cap m_gather_limit m_queue m_views m_in_flight m_bytes m_open m_sending] in He.
    assert (wrap 64 (wrap 64 (m_bytes (s_queue s) + zlen p) + zlen t) = m_bytes (s_queue s) + queue_bytes [p; t]) as Eb.
    { rewrite <- Hwr, Ef. unfold wrap. rewrite Zplus_mod_idemp_l. f_equal. lia. }
    rewrite Eb, <- app_assoc in He. cbn [app] in He. unfold extend in Hres.
    destruct (resume _) as [evs' q']. simplify_eq.
    destruct Hres as (H1 & H2 & H3). unfold session_inv. cbn [s_queue]. by rewrite H3, Hopen.
  - simplify_eq. cbn [buffers map concat]. rewrite !app_nil_r. unfold session_inv. cbn [s_queue]. rewrite Hopen.
    destruct s; split; [exact Hi|exact Hb].
Qed.

Lemma session_reachable_inv cap gather unit_max s :
  (0 < gather)%nat -> in_width 64 cap -> in_width 64 unit_max ->
  reachable cap gather unit_max s -> session_inv cap gather unit_max s.
Proof.
  intros Hg Hc Hm. induction 1 as [|s s' _ IH Hstep].
  { unfold session_inv. simpl. split; [|destruct Hc, Hm; lia]. split; simpl; try done. }
  inversion Hstep; subst.
  - by eapply enqueue_inv.
  - by eapply enqueue_both_inv.
  - unfold session_inv in IH. destruct (m_open (s_queue s)) eqn:Ho.
    + destruct IH as [Hi Hb]. destruct (complete_inv cap gather s w ws ok Hg Hi Ho) as (evs' & q' & Hc' & Ho' & Hq & Hi'); [done|].
      simplify_eq. unfold session_inv. cbn [s_queue]. rewrite Ho'. split; [done|].
      pose proof (qi_bytes _ _ _ Hi') as Eb. cbn [s_queue] in Eb. rewrite Eb, Hq. rewrite (qi_bytes _ _ _ Hi) in Hb.
      rewrite <- (take_drop (m_in_flight (s_queue s)) (m_queue (s_queue s))), queue_bytes_app in Hb.
      pose proof (queue_bytes_nonneg (take (m_in_flight (s_queue s)) (m_queue (s_queue s)))). lia.
    + destruct IH as [Eq Hp].
      assert (complete (s_queue s) ok = Some ([], s_queue s)) by (unfold complete; by rewrite Ho). simplify_eq.
      unfold session_inv. cbn [s_queue s_written s_accepted buffers map concat]. rewrite Ho. by rewrite (app_nil_r (s_written s)).
  - unfold session_inv in *. cbn. destruct (m_open (s_queue s)).
    + destruct IH as [Hi _]. split; [|by eapply queue_inv_prefix]. unfold close.
      by rewrite (qi_cap _ _ _ Hi), (qi_gather _ _ _ Hi).
    + destruct IH as [-> Hp]. done.
Qed.

(** Whatever frames and frame pairs are sent, in whatever interleaving with the
    completions and a close, the socket is given exactly the accepted frames, in order,
    each once (a refused frame or pair leaves nothing behind, and a pair is never split);
    at most one write is outstanding, its buffers are the resident front of the queue, so
    none is released early; while the queue is open and not empty a write is outstanding,
    and its completion, which always returns, takes at least one frame off the queue; the
    byte counter is exact and stays below the cap or the largest message; and once closed,
    a late completion does nothing. *)
Theorem stream_queue_delivers_in_order (cap : Z) (gather : nat) (unit_max : Z) (s : session) (ok : bool) :
  (0 < gather)%nat -> in_width 64 cap -> in_width 64 unit_max -> reachable cap gather unit_max s ->
  let q := s_queue s in
  s_written s `prefix_of` s_accepted s /\
  (m_open q = true ->
     queued_bytes q = queue_bytes (m_queue q) /\ queued_bytes q <= Z.max cap unit_max /\
     ((m_queue q = [] /\ s_writes s = [] /\ s_accepted s = s_written s) \/
      exists w waiting evs q',
        w <> [] /\ s_writes s = [w] /\ m_queue q = w ++ waiting /\ s_accepted s = s_written s ++ waiting /\
        complete q ok = Some (evs, q') /\ m_queue q' = waiting)) /\
  (m_open q = false -> m_queue q = [] /\ complete q ok = Some ([], q)).
Proof.
  intros Hg Hc Hm Hr q. pose proof (session_reachable_inv _ _ _ _ Hg Hc Hm Hr) as Hinv.
  unfold session_inv in Hinv. fold q in Hinv. split; [|split].
  - destruct (m_open q); destruct Hinv as [H ?]; [by eapply queue_inv_prefix|done].
  - intros Ho. rewrite Ho in Hinv. destruct Hinv as [Hi Hb]. pose proof Hi as [_ _ Eb _ Hws Hv Hidle Hord].
    fold q in Eb, Hws, Hv, Hidle, Hord. split; [done|]. split; [done|]. destruct (m_sending q).
    + right. destruct (Hv eq_refl) as [_ Hfl].
      destruct (complete_inv cap gather s _ [] ok Hg Hi Ho Hws) as (evs & q' & Hcq & _ & Hq' & _). fold q in Hcq, Hq'.
      exists (take (m_in_flight q) (m_queue q)), (drop (m_in_flight q) (m_queue q)), evs, q'.
      split_and!; try done; [|by rewrite take_drop].
      intros E. apply (f_equal length) in E. rewrite length_take in E. simpl in E. lia.
    + left. specialize (Hidle eq_refl). rewrite Hidle in Hord. by rewrite app_nil_r in Hord.
  - intros Ho. rewrite Ho in Hinv. destruct Hinv as [-> _]. done.
Qed.

Definition frame_a : bytes := [Byte.x01; Byte.x02].
Definition frame_b : bytes := [Byte.x03].

(** Two frames and a pair; the first is being written, the others wait. *)
Lemma three_sends :
  exists s, reachable 8 2 8 s /\ m_open (s_queue s) = true /\
            s_accepted s = [frame_a; frame_b; frame_a; frame_b] /\ s_written s = [frame_a].
Proof.
  eexists. split.
  - eapply reach_step; [eapply reach_step; [eapply reach_step; [apply reach_new|]|]|].
    + eapply (step_enqueue _ _ frame_a); [reflexivity|vm_compute; congruence|reflexivity].
    + eapply (step_enqueue _ _ frame_b); [reflexivity|vm_compute; congruence|reflexivity].
    + eapply (step_enqueue_both _ _ frame_a frame_b); [reflexivity|vm_compute; congruence|reflexivity].
  - split_and!; reflexivity.
Qed.

Lemma stream_queue_delivers_in_order_witness :
  exists s, reachable 8 2 8 s /\ s_written s `prefix_of` s_accepted s /\ queued_bytes (s_queue s) <= 8.
Proof.
  destruct three_sends as (s & Hr & Ho & _). exists s. split; [exact Hr|].
  destruct (stream_queue_delivers_in_order 8 2 8 s true) as (H1 & H2 & _);
    [lia|split; vm_compute; congruence..|exact Hr|].
  split; [exact H1|]. destruct (H2 Ho) as (_ & H3 & _). exact H3.
Defined.

End StreamQueue.

(** ** [datagram::detail::send_queue] *)

Module DatagramQueue.

Section Queue.
Context {Endpoint : Type}.

Definition unbounded : Z := size_max.
Definition k_max_free_buffers : nat := 64.

Inductive event : Type := SendTo (data : bytes) (dest : Endpoint).

Record node : Type := Node { n_bytes : bytes; n_dest : Endpoint }.

Record send_queue : Type := SendQueue {
  m_byte_cap : Z;
  m_queue : list node;
  m_free_buffers : list bytes;
  m_bytes : Z;
  m_open : bool;
  m_sending : bool;
}.

Definition send_queue_new (byte_cap : Z) : send_queue := SendQueue byte_cap [] [] 0 true false.

Definition full (q : send_queue) : bool := m_bytes q >=? m_byte_cap q.
Definition size (q : send_queue) : nat := length (m_queue q).
Definition queued_bytes (q : send_queue) : Z := m_bytes q.
Definition sending (q : send_queue) : bool := m_sending q.

Definition close (q : send_queue) : send_queue := SendQueue (m_byte_cap q) [] [] 0 false false.

Definition admits (q : send_queue) (size : Z) : bool :=
  (m_bytes q <? m_byte_cap q) && (size <=? m_byte_cap q - m_bytes q).

(** The buffer taken from the free list is overwritten by [assign]. *)
Definition take_buffer (free : list bytes) (data : bytes) : bytes * list bytes :=
  match last free with
  | Some _ => (data, removelast free)
  | None => (data, free)
  end.

Definition recycle_buffer (free : list bytes) (buf : bytes) : list bytes :=
  if (length free <? k_max_free_buffers)%nat then free ++ [buf] else free.

Definition drive (q : send_queue) : list event * send_queue :=
  match m_queue q with
  | [] => ([], SendQueue (m_byte_cap q) (m_queue q) (m_free_buffers q) (m_bytes q) (m_open q) false)
  | front :: _ =>
      ([SendTo (n_bytes front) (n_dest front)],
       SendQueue (m_byte_cap q) (m_queue q) (m_free_buffers q) (m_bytes q) (m_open q) true)
  end.

Definition enqueue (q : send_queue) (data : bytes) (dest : Endpoint) : bool * list event * send_queue :=
  if negb (admits q (zlen data)) then (false, [], q) else
  let '(buf, free) := take_buffer (m_free_buffers q) data in
  let q := SendQueue (m_byte_cap q) (m_queue q ++ [Node buf dest]) free
             (wrap 64 (m_bytes q + zlen data)) (m_open q) (m_sending q) in
  let '(evs, q) := if negb (m_sending q) then drive q else ([], q) in
  (true, evs, q).

(** The completion handler given to the sink. *)
Definition complete (q : send_queue) (ok : bool) : option (list event * send_queue) :=
  if negb (m_open q) then Some ([], q) else
  match m_queue q with
  | [] => None
  | front :: rest =>
      Some (drive (SendQueue (m_byte_cap q) rest (recycle_buffer (m_free_buffers q) (n_bytes front))
                     (wrap 64 (m_bytes q - zlen (n_bytes front))) (m_open q) (m_sending q)))
  end.

(** *** The queue with its environment *)

Record session : Type := Session {
  s_queue : send_queue;
  s_sends : list node;
  s_accepted : list node;
  s_sent : list node;
}.

Definition nodes (evs : list event) : list node := map (fun '(SendTo d e) => Node d e) evs.

Inductive step : session -> session -> Prop :=
| step_enqueue s d e ok evs q :
    m_open (s_queue s) = true ->
    enqueue (s_queue s) d e = (ok, evs, q) ->
    step s (Session q (s_sends s ++ nodes evs) (s_accepted s ++ if ok then [Node d e] else [])
              (s_sent s ++ nodes evs))
| step_complete s ok w ws evs q :
    s_sends s = w :: ws -> complete (s_queue s) ok = Some (evs, q) ->
    step s (Session q (ws ++ nodes evs) (s_accepted s) (s_sent s ++ nodes evs))
| step_close s : step s (Session (close (s_queue s)) (s_sends s) (s_accepted s) (s_sent s)).

Inductive reachable (cap : Z) : session -> Prop :=
| reach_new : reachable cap (Session (send_queue_new cap) [] [] [])
| reach_step s s' : reachable cap s -> step s s' -> reachable cap s'.

Definition nodes_bytes (q : list node) : Z := queue_bytes (map n_bytes q).

Record queue_inv (cap : Z) (s : session) : Prop := QueueInv {
  qi_cap : m_byte_cap (s_queue s) = cap;
  qi_bytes : m_bytes (s_queue s) = nodes_bytes (m_queue (s_queue s));
  qi_bound : m_bytes (s_queue s) <= cap;
  qi_free : (length (m_free_buffers (s_queue s)) <= k_max_free_buffers)%nat;
  qi_sends : s_sends s = take 1 (m_queue (s_queue s));
  qi_sending : m_sending (s_queue s) = true <-> m_queue (s_queue s) <> [];
  qi_order : s_accepted s = s_sent s ++ drop 1 (m_queue (s_queue s));
}.

Definition session_inv (cap : Z) (s : session) : Prop :=
  if m_open (s_queue s) then queue_inv cap s
  else s_queue s = close (send_queue_new cap) /\ s_sent s `prefix_of` s_accepted s.

Lemma nodes_bytes_app a b : nodes_bytes (a ++ b) = nodes_bytes a + nodes_bytes b.
Proof. unfold nodes_bytes. by rewrite map_app, queue_bytes_app. Qed.

Lemma nodes_bytes_cons n q : nodes_bytes (n :: q) = zlen (n_bytes n) + nodes_bytes q.
Proof. unfold nodes_bytes. cbn [map]. by rewrite queue_bytes_cons. Qed.

Lemma take_buffer_spec free data :
  exists free', take_buffer free data = (data, free') /\ (length free' <= length free)%nat.
Proof.
  unfold take_buffer. destruct (last free) eqn:E; [|by exists free]. eexists. split; [done|].
  rewrite removelast_firstn_len, length_firstn. lia.
Qed.

Lemma datagram_enqueue_inv cap s d e ok evs q :
  in_width 64 cap -> m_open (s_queue s) = true -> queue_inv cap s -> enqueue (s_queue s) d e = (ok, evs, q) ->
  m_open q = true /\
  queue_inv cap (Session q (s_sends s ++ nodes evs) (s_accepted s ++ if ok then [Node d e] else [])
                   (s_sent s ++ nodes evs)).
Proof.
  intros Hc Ho [Hcap Hb Hbd Hf Hw Hs Hord] He. unfold enqueue in He.
  destruct (admits _ _) eqn:Ea; cbn [negb] in He.
  2: { simplify_eq. split; [done|]. cbn [nodes map]. rewrite !app_nil_r. by split. }
  destruct (take_buffer_spec (m_free_buffers (s_queue s)) d) as (free & Et & Hfree). rewrite Et in He.
  unfold admits in Ea. apply andb_true_iff in Ea as [E1 E2]. apply Z.ltb_lt in E1. apply Z.leb_le in E2.
  rewrite Hcap in E1, E2. pose proof (zlen_nonneg d). pose proof (queue_bytes_nonneg (map n_bytes (m_queue (s_queue s)))).
  fold (nodes_bytes (m_queue (s_queue s))) in *.
  rewrite (wrap_small 64) in He by (unfold in_width in *; lia). cbn [m_sending] in He.
  assert (m_bytes (s_queue s) + zlen d = nodes_bytes (m_queue (s_queue s) ++ [Node d e])) as Eb.
  { rewrite nodes_bytes_app, nodes_bytes_cons, Hb. unfold nodes_bytes at 3. cbn [map n_bytes]. rewrite queue_bytes_nil. lia. }
  destruct (m_sending (s_queue s)) eqn:Es; cbn [negb] in He.
  - simplify_eq. split; [done|]. destruct (m_queue (s_queue s)) as [|n qs]; [by destruct Hs as [Hs _]; specialize (Hs eq_refl)|].
    split; cbn; rewrite ?Es, ?app_nil_r; try done; [lia..|]. cbn in Hord. by rewrite Hord, <- app_assoc.
  - destruct (m_queue (s_queue s)) as [|n qs]; [|destruct Hs as [_ Hs]; by specialize (Hs ltac:(done))].
    unfold drive in He. cbn in He. simplify_eq. split; [done|].
    split; cbn; try done; [lia..|by rewrite Hw|]. cbn in Hord. by rewrite Hord, !app_nil_r.
Qed.

Lemma datagram_complete_inv cap s w ws ok :
  in_width 64 cap -> queue_inv cap s -> m_open (s_queue s) = true -> s_sends s = w :: ws ->
  exists evs q rest, complete (s_queue s) ok = Some (evs, q) /\ m_open q = true /\
    m_queue (s_queue s) = w :: rest /\ m_queue q = rest /\
    queue_inv cap (Session q (ws ++ nodes evs) (s_accepted s) (s_sent s ++ nodes evs)).
Proof.
  intros Hc [Hcap Hb Hbd Hf Hw Hs Hord] Ho Ew. unfold complete. rewrite Ho. cbn [negb].
  destruct (m_queue (s_queue s)) as [|n qs] eqn:Eq; [by rewrite Hw in Ew|]. rewrite Hw in Ew. cbn in Ew. simplify_eq.
  rewrite nodes_bytes_cons in Hb. pose proof (zlen_nonneg (n_bytes w)). pose proof (queue_bytes_nonneg (map n_bytes qs)).
  fold (nodes_bytes qs) in *.
  assert (wrap 64 (m_bytes (s_queue s) - zlen (n_bytes w)) = nodes_bytes qs) as ->.
  { rewrite Hb. replace (_ + _ - _) with (nodes_bytes qs) by lia. apply wrap_small. unfold in_width in *. lia. }
  assert (length (recycle_buffer (m_free_buffers (s_queue s)) (n_bytes w)) <= k_max_free_buffers)%nat as Hfr.
  { unfold recycle_buffer. destruct (Nat.ltb_spec (length (m_free_buffers (s_queue s))) k_max_free_buffers); [|done].
    rewrite length_app. simpl. lia. }
  unfold drive. cbn [m_queue]. destruct qs as [|n' qs].
  - eexists _, _, []. split; [done|]. split; [done|]. split; [done|]. split; [done|].
    split; cbn; try done; [lia|]. cbn in Hord. by rewrite app_nil_r.
  - eexists _, _, (n' :: qs). split; [done|]. split; [done|]. split; [done|]. split; [done|].
    split; cbn; try done; [lia|by destruct n'|]. cbn in Hord. rewrite Hord, <- app_assoc. by destruct n'.
Qed.

Lemma datagram_reachable_inv cap s : in_width 64 cap -> reachable cap s -> session_inv cap s.
Proof.
  intros Hc. induction 1 as [|s s' _ IH Hstep].
  { unfold session_inv. simpl. destruct Hc. split; simpl; try done; lia. }
  inversion Hstep; subst; unfold session_inv in *.
  - rewrite H in IH. destruct (datagram_enqueue_inv cap s d e ok evs q Hc H IH H0) as [Ho Hi]. cbn [s_queue]. by rewrite Ho.
  - destruct (m_open (s_queue s)) eqn:Ho.
    + destruct (datagram_complete_inv cap s w ws ok Hc IH Ho H) as (evs' & q' & rest & Hcq & Ho' & _ & _ & Hi).
      simplify_eq. cbn [s_queue]. by rewrite Ho'.
    + destruct IH as [Eq Hp].
      assert (complete (s_queue s) ok = Some ([], s_queue s)) by (unfold complete; by rewrite Ho). simplify_eq.
      cbn [s_queue s_sent s_accepted nodes map]. rewrite Ho. by rewrite (app_nil_r (s_sent s)).
  - cbn. destruct (m_open (s_queue s)).
    + split; [unfold close; by rewrite (qi_cap _ _ IH)|]. rewrite (qi_order _ _ IH). by eexists.
    + by destruct IH as [-> Hp].
Qed.

(** The datagram queue sends the accepted datagrams one at a time, in order, each to
    its own destination and each once; the datagram being sent is the resident front of
    the queue, so its bytes are not reused before its completion; the queued bytes never
    exceed the cap and the counter is exact; the pool of spare buffers stays within its
    bound; and once closed, a late completion does nothing. *)
Theorem datagram_queue_sends_in_order (cap : Z) (s : session) (ok : bool) :
  in_width 64 cap -> reachable cap s ->
  let q := s_queue s in
  s_sent s `prefix_of` s_accepted s /\
  (m_open q = true ->
     queued_bytes q = nodes_bytes (m_queue q) /\ queued_bytes q <= cap /\
     (length (m_free_buffers q) <= k_max_free_buffers)%nat /\
     ((m_queue q = [] /\ s_sends s = [] /\ s_accepted s = s_sent s) \/
      exists w waiting evs q',
        s_sends s = [w] /\ m_queue q = w :: waiting /\ s_accepted s = s_sent s ++ waiting /\
        complete q ok = Some (evs, q') /\ m_queue q' = waiting)) /\
  (m_open q = false -> m_queue q = [] /\ complete q ok = Some ([], q)).
Proof.
  intros Hc Hr q. pose proof (datagram_reachable_inv _ _ Hc Hr) as Hinv. unfold session_inv in Hinv. fold q in Hinv.
  split; [|split].
  - destruct (m_open q); [rewrite (qi_order _ _ Hinv); by eexists|by destruct Hinv].
  - intros Ho. rewrite Ho in Hinv. pose proof Hinv as [_ Eb Hb Hf Hs _ Hord]. fold q in Eb, Hb, Hf, Hs, Hord.
    split_and!; try done. destruct (m_queue q) as [|w waiting] eqn:Eq.
    + left. split_and!; try done. by rewrite app_nil_r in Hord.
    + right. destruct (datagram_complete_inv cap s w [] ok Hc Hinv Ho Hs) as (evs & q' & rest & Hcq & _ & E1 & E2 & _).
      fold q in Hcq, E1. rewrite Eq in E1. simplify_eq. eexists _, _, evs, q'. split_and!; try done.
  - intros Ho. rewrite Ho in Hinv. by destruct Hinv as [-> _].
Qed.

End Queue.

Lemma two_datagrams :
  exists s : session (Endpoint := Z), reachable 4 s /\ m_open (s_queue s) = true /\
    s_accepted s = [Node [Byte.x01; Byte.x02] 7; Node [Byte.x03] 9].
Proof.
  eexists. split.
  - eapply reach_step; [eapply reach_step; [eapply reach_step; [apply reach_new|]|]|].
    + eapply (step_enqueue _ [Byte.x01; Byte.x02] 7); reflexivity.
    + eapply (step_enqueue _ [Byte.x03] 9); reflexivity.
    + eapply (step_enqueue _ [Byte.x04; Byte.x05] 9); reflexivity.
  - split; reflexivity.
Qed.

Lemma datagram_queue_sends_in_order_witness :
  exists s : session (Endpoint := Z), reachable 4 s /\ s_sent s `prefix_of` s_accepted s /\
    queued_bytes (s_queue s) <= 4.
Proof.
  destruct two_datagrams as (s & Hr & Ho & _). exists s. split; [exact Hr|].
  destruct (datagram_queue_sends_in_order 4 s true) as (H1 & H2 & _); [split; vm_compute; congruence|exact Hr|].
  split; [exact H1|]. apply (H2 Ho).
Defined.

End DatagramQueue.

(** ** [udp_backpressure_queue] *)

Module ParkQueue.

Record entry : Type := Entry { e_bytes : bytes; e_fragmented : bool }.

Record udp_backpressure_queue : Type := UdpBackpressureQueue {
  m_byte_cap : Z;
  m_bytes : Z;
  m_queue : list entry;
}.

Definition udp_backpressure_queue_new (byte_cap : Z) : udp_backpressure_queue :=
  UdpBackpressureQueue (if byte_cap =? 0 then 1 else byte_cap) 0 [].

Definition admits (q : udp_backpressure_queue) (size : Z) : bool :=
  (m_bytes q <? m_byte_cap q) && (size <=? m_byte_cap q - m_bytes q).

Definition park (q : udp_backpressure_queue) (frame : bytes) (fragmented : bool)
  : bool * udp_backpressure_queue :=
  if negb (admits q (zlen frame)) then (false, q) else
  (true, UdpBackpressureQueue (m_byte_cap q) (wrap 64 (m_bytes q + zlen frame))
           (m_queue q ++ [Entry frame fragmented])).

Definition empty (q : udp_backpressure_queue) : bool := match m_queue q with [] => true | _ => false end.
Definition size (q : udp_backpressure_queue) : nat := length (m_queue q).
Definition queued_bytes (q : udp_backpressure_queue) : Z := m_bytes q.
Definition capacity (q : udp_backpressure_queue) : Z := m_byte_cap q.

(** [front], [front_fragmented] and [pop_front] of an empty queue are undefined. *)
Definition front (q : udp_backpressure_queue) : option bytes := e_bytes <$> head (m_queue q).
Definition front_fragmented (q : udp_backpressure_queue) : option bool := e_fragmented <$> head (m_queue q).

Definition pop_front (q : udp_backpressure_queue) : option udp_backpressure_queue :=
  match m_queue q with
  | [] => None
  | e :: rest =>
      Some (UdpBackpressureQueue (m_byte_cap q) (wrap 64 (m_bytes q - zlen (e_bytes e))) rest)
  end.

(** The counter is exact and within the cap. *)
Definition park_inv (q : udp_backpressure_queue) : Prop :=
  in_width 64 (m_byte_cap q) /\ m_bytes q = queue_bytes (map e_bytes (m_queue q)) /\ m_bytes q <= m_byte_cap q.

Lemma park_new cap : in_width 64 cap -> park_inv (udp_backpressure_queue_new cap).
Proof.
  intros [? ?]. unfold park_inv, udp_backpressure_queue_new. simpl. destruct (Z.eqb_spec cap 0); simpl;
    rewrite queue_bytes_nil; unfold in_width; split_and!; try lia; done.
Qed.

(** A frame is parked exactly when some budget is left and it fits the rest of it. *)
Lemma park_admit q f frag :
  park_inv q ->
  if decide (m_bytes q < m_byte_cap q /\ m_bytes q + zlen f <= m_byte_cap q)
  then exists q', park q f frag = (true, q') /\ park_inv q' /\ m_byte_cap q' = m_byte_cap q /\
                  m_queue q' = m_queue q ++ [Entry f frag]
  else park q f frag = (false, q).
Proof.
  intros (Hw & Hb & Hle). unfold park, admits.
  destruct (Z.ltb_spec (m_bytes q) (m_byte_cap q)), (Z.leb_spec (zlen f) (m_byte_cap q - m_bytes q));
    case_decide; try lia; try done. simpl.
  pose proof (zlen_nonneg f). pose proof (queue_bytes_nonneg (map e_bytes (m_queue q))).
  eexists. split; [done|]. unfold park_inv. cbn [m_byte_cap m_bytes m_queue].
  rewrite wrap_small by (unfold in_width in *; lia). split_and!; try done; [|lia].
  rewrite map_app, queue_bytes_app, Hb. cbn [map e_bytes]. rewrite queue_bytes_cons, queue_bytes_nil. lia.
Qed.

Lemma park_pop q e rest :
  park_inv q -> m_queue q = e :: rest ->
  exists q', pop_front q = Some q' /\ park_inv q' /\ m_queue q' = rest /\ m_byte_cap q' = m_byte_cap q.
Proof.
  intros (Hw & Hb & Hle) Eq. unfold pop_front. rewrite Eq. eexists. split; [done|].
  rewrite Eq in Hb. cbn [map] in Hb. rewrite queue_bytes_cons in Hb.
  pose proof (zlen_nonneg (e_bytes e)). pose proof (queue_bytes_nonneg (map e_bytes rest)).
  unfold park_inv. cbn [m_byte_cap m_bytes m_queue].
  rewrite wrap_small by (unfold in_width in *; lia). split_and!; try done; lia.
Qed.

End ParkQueue.
