(* ===== verification/Negotiator.v ===== *)
(** * The attach negotiation: facts, transcript and proof of a handshake

    Models [attach_negotiator.h], [detail/attach_resolve.h], [security_seam.h] and
    [host_identity.h] of [lib/plexus-core/include/plexus/io/].

    The digest of the security seam, the MAC of the prover and the entropy source are
    arguments; [None] is a digest or a MAC that fails, which leaves its output zeroed. *)

From S2P Require Import Prelude ByteOrder Varint Cursor Frame Control Security Handshake.

(** ** [security_seam.h] *)

Record security_negotiation : Type := SecurityNegotiation {
  sn_key_id : bytes;
  sn_initiator_nonce : bytes;
  sn_responder_nonce : bytes;
  sn_transcript_digest : bytes;
  sn_role : attach_role;
  sn_chosen_cipher : Z;
}.

(** [transcript] is [None] for the empty functor. *)
Record security_seam : Type := SecuritySeam { transcript : option (bytes -> option bytes) }.

Definition engaged (seam : security_seam) : bool := match transcript seam with Some _ => true | None => false end.

(** ** [host_identity.h] *)

Definition authenticated_peer_id (facts : attach_facts) : node_id :=
  match af_role facts with initiator => af_responder_id facts | responder => af_initiator_id facts end.

(** ** [attach_prover] *)

Record attach_prover : Type := AttachProver { ap_key : keyed_psk; ap_hmac : bytes -> bytes -> option bytes }.

(** ** [attach_resolve.h] *)

Record pending_attach : Type := PendingAttach {
  pa_facts : attach_facts;
  pa_negotiation : security_negotiation;
  pa_engaged : bool;
}.

Definition facts_default : attach_facts :=
  AttachFacts (zero_bytes 8) (zero_bytes 16) (zero_bytes 16) (zero_bytes 16) (zero_bytes 16) (zero_bytes 32) initiator [].
Definition negotiation_default : security_negotiation :=
  SecurityNegotiation (zero_bytes 8) (zero_bytes 16) (zero_bytes 16) (zero_bytes 32) initiator 0.
Definition pending_attach_default : pending_attach := PendingAttach facts_default negotiation_default false.

(** The bytes [compute_transcript] folds. *)
Definition transcript_bytes (initiator_nonce responder_nonce : bytes) (frame : handshake_request) : bytes :=
  [byte.of_Z (hs_cipher_offer frame); byte.of_Z (hs_chosen_cipher frame); byte.of_Z k_protocol_version] ++
  initiator_nonce ++ responder_nonce.

Definition compute_transcript (seam : security_seam) (initiator_nonce responder_nonce : bytes) (frame : handshake_request)
  : option bytes :=
  match transcript seam with
  | Some digest => digest (transcript_bytes initiator_nonce responder_nonce frame)
  | None => None
  end.

Definition assemble_pending (own_nonce : bytes) (seam : option security_seam) (eng : bool) (frame : handshake_request)
    (local_role : attach_role) (peer_id self_id : node_id) : option pending_attach :=
  let initiates := match local_role with initiator => true | responder => false end in
  let initiator_nonce := if initiates then own_nonce else hs_own_nonce frame in
  let responder_nonce := if initiates then hs_own_nonce frame else own_nonce in
  digest ← (if eng then s ← seam; Some (default (zero_bytes 32) (compute_transcript s initiator_nonce responder_nonce frame))
            else Some (zero_bytes 32));
  Some (PendingAttach
    (AttachFacts (hs_key_id frame) (if initiates then self_id else peer_id) (if initiates then peer_id else self_id)
       (hs_own_nonce frame) own_nonce digest local_role [])
    (SecurityNegotiation (hs_key_id frame) initiator_nonce responder_nonce digest local_role (hs_chosen_cipher frame))
    eng).

(** The dialer's view of the facts: its role, and the nonces the other way round. *)
Definition dialer_view (f : attach_facts) : attach_facts :=
  AttachFacts (af_key_id f) (af_initiator_id f) (af_responder_id f) (af_own_nonce f) (af_peer_nonce f)
    (af_transcript_digest f) initiator (af_proof f).

Definition resolve_response_proof (prover : option attach_prover) (facts : attach_facts) : bytes :=
  match prover with
  | None => zero_bytes k_handshake_proof_len
  | Some p => default (zero_bytes k_handshake_proof_len) (prove (ap_hmac p) (ap_key p) (dialer_view facts))
  end.

(** ** [class attach_negotiator] *)

Inductive security_kind : Type :=
| unauthorized_attach | downgrade_refused | posture_mismatch | stream_tamper_teardown | rekey.

#[global] Instance security_kind_eq_dec : EqDecision security_kind.
Proof. solve_decision. Defined.

Definition chacha20_poly1305 : Z := 0x01.

Record attach_negotiator : Type := AttachNegotiator {
  an_install_security : bool;
  an_seam : option security_seam;
  an_pending : pending_attach;
  an_identity : option node_id;
  an_own_nonce : bytes;
  an_key_id : bytes;
  an_peer_proof : bytes;
  an_prover : option attach_prover;
}.

Definition attach_negotiator_new (install : bool) (seam : option security_seam) (prover : option attach_prover) : attach_negotiator :=
  AttachNegotiator install seam pending_attach_default None (zero_bytes 16) (zero_bytes k_handshake_key_id_len)
    (zero_bytes k_handshake_proof_len) prover.

Definition an_set_pending (n : attach_negotiator) (p : pending_attach) : attach_negotiator :=
  AttachNegotiator (an_install_security n) (an_seam n) p (an_identity n) (an_own_nonce n) (an_key_id n) (an_peer_proof n) (an_prover n).
Definition an_set_identity (n : attach_negotiator) (i : option node_id) : attach_negotiator :=
  AttachNegotiator (an_install_security n) (an_seam n) (an_pending n) i (an_own_nonce n) (an_key_id n) (an_peer_proof n) (an_prover n).

(** [entropy] is what the random source wrote; [None] where there is none or it failed. *)
Definition prime (n : attach_negotiator) (entropy : option bytes) : attach_negotiator :=
  AttachNegotiator (an_install_security n) (an_seam n) (an_pending n) (an_identity n)
    (default (an_own_nonce n) entropy)
    (match an_prover n with Some p => key_id (ap_key p) | None => an_key_id n end)
    (an_peer_proof n) (an_prover n).

Definition seam_engaged (n : attach_negotiator) : bool := match an_seam n with Some s => engaged s | None => false end.

Definition cipher_offer (n : attach_negotiator) : Z := if seam_engaged n then chacha20_poly1305 else 0.

Definition facts (n : attach_negotiator) : attach_facts := pa_facts (an_pending n).

Definition classify_unauthorized (n : attach_negotiator) : security_kind :=
  if pa_engaged (an_pending n) then downgrade_refused else unauthorized_attach.

Definition assemble (n : attach_negotiator) (frame : handshake_request) (local_role : attach_role) (peer_id self_id : node_id)
    (policy_engaged : bool) : option attach_negotiator :=
  out ← assemble_pending (an_own_nonce n) (an_seam n) (policy_engaged && seam_engaged n) frame local_role peer_id self_id;
  Some (an_set_pending n out).

Definition latch_peer_proof (n : attach_negotiator) (frame : handshake_request) : attach_negotiator :=
  let p := an_pending n in
  let f := pa_facts p in
  AttachNegotiator (an_install_security n) (an_seam n)
    (PendingAttach (AttachFacts (af_key_id f) (af_initiator_id f) (af_responder_id f) (af_peer_nonce f) (af_own_nonce f)
                      (af_transcript_digest f) (af_role f) (hs_proof frame)) (pa_negotiation p) (pa_engaged p))
    (an_identity n) (an_own_nonce n) (an_key_id n) (hs_proof frame) (an_prover n).

Definition posture_mismatched (n : attach_negotiator) (frame : handshake_request) : bool :=
  negb (Bool.eqb (seam_engaged n) (negb (hs_cipher_offer frame =? 0))).

Definition response_proof (n : attach_negotiator) : bytes := resolve_response_proof (an_prover n) (facts n).

(** The result, the negotiation handed to the install hook and the new state. *)
Definition install_on_accept (n : attach_negotiator) (channel_is_self_securing : bool)
  : bool * option security_negotiation * attach_negotiator :=
  if negb (pa_engaged (an_pending n)) then (true, None, n) else
  let n := an_set_identity n (Some (authenticated_peer_id (facts n))) in
  if channel_is_self_securing then (true, None, n) else
  if negb (an_install_security n) then (false, None, n) else
  (true, Some (pa_negotiation (an_pending n)), n).

Definition clear_identity (n : attach_negotiator) : attach_negotiator := an_set_identity n None.

Definition an_engaged (n : attach_negotiator) : bool := pa_engaged (an_pending n).

(** ** The proof of the responder, checked by the dialer *)

Section Attach.
Context (hmac : bytes -> bytes -> option bytes) (digest : bytes -> option bytes) (keys : list keyed_psk) (key : keyed_psk).
Context (dialer answerer : attach_negotiator) (dialer_id answerer_id : node_id).
Context (dialer_seam : an_seam dialer = Some (SecuritySeam (Some digest))).
Context (answerer_seam : an_seam answerer = Some (SecuritySeam (Some digest))).
Context (answerer_prover : an_prover answerer = Some (AttachProver key hmac)).

(** [req] is the request as the answerer received it. *)
Definition answerer_facts (req : handshake_request) (d : bytes) : attach_facts :=
  AttachFacts (hs_key_id req) (hs_id req) answerer_id (hs_own_nonce req) (an_own_nonce answerer) d responder [].

Lemma answerer_assembles req :
  exists n, assemble answerer req responder (hs_id req) answerer_id true = Some n /\ an_prover n = an_prover answerer /\
    facts n = answerer_facts req
      (default (zero_bytes 32) (digest (transcript_bytes (hs_own_nonce req) (an_own_nonce answerer) req))).
Proof.
  unfold assemble, assemble_pending, seam_engaged. rewrite answerer_seam. cbn. eexists. split; [reflexivity|]. done.
Qed.

(** [resp] is the response as the dialer received it. *)
Lemma dialer_assembles resp :
  exists n, assemble dialer resp initiator (hs_id resp) dialer_id true = Some n /\
    facts (latch_peer_proof n resp)
    = AttachFacts (hs_key_id resp) dialer_id (hs_id resp) (hs_own_nonce resp) (an_own_nonce dialer)
        (default (zero_bytes 32) (digest (transcript_bytes (an_own_nonce dialer) (hs_own_nonce resp) resp))) initiator (hs_proof resp) /\
    pa_engaged (an_pending (latch_peer_proof n resp)) = true /\
    sn_chosen_cipher (pa_negotiation (an_pending (latch_peer_proof n resp))) = hs_chosen_cipher resp.
Proof.
  unfold assemble, assemble_pending, seam_engaged. rewrite dialer_seam. cbn. eexists. split; [reflexivity|]. done.
Qed.

Lemma byte_of_Z_inj a b : in_width 8 a -> in_width 8 b -> byte.of_Z a = byte.of_Z b -> a = b.
Proof. intros Ha Hb E. rewrite <- (unsigned_of_Z_small a), <- (unsigned_of_Z_small b) by done. by rewrite E. Qed.

Definition sixteen (l : list bytes) : Prop := Forall (fun x => length x = 16%nat) l.

Lemma transcript_inj i i' r r' (f f' : handshake_request) :
  sixteen [i; i'; r; r'] -> in_width 8 (hs_cipher_offer f) -> in_width 8 (hs_cipher_offer f') ->
  in_width 8 (hs_chosen_cipher f) -> in_width 8 (hs_chosen_cipher f') ->
  transcript_bytes i r f = transcript_bytes i' r' f' ->
  hs_cipher_offer f = hs_cipher_offer f' /\ hs_chosen_cipher f = hs_chosen_cipher f' /\ i = i' /\ r = r'.
Proof.
  intros Hs H1 H2 H3 H4 E. unfold transcript_bytes in E. cbn [app] in E. injection E as E1 E2 E3.
  unfold sixteen in Hs. rewrite !Forall_cons in Hs. destruct Hs as (L1 & L2 & _ & _ & _).
  apply app_inj_1 in E3 as [-> ->]; [|congruence]. by split_and!; try apply byte_of_Z_inj.
Qed.

(** The facts the answerer proves and those the dialer checks agree exactly when both saw the
    same identities, nonces and cipher fields. *)
Lemma views_agree (req resp : handshake_request) d d' :
  sixteen [hs_id req; dialer_id; hs_id resp; answerer_id; hs_own_nonce req; hs_own_nonce resp;
           an_own_nonce dialer; an_own_nonce answerer] ->
  length d = 32%nat -> length d' = 32%nat ->
  let ours := AttachFacts (hs_key_id resp) dialer_id (hs_id resp) (hs_own_nonce resp) (an_own_nonce dialer) d' initiator (hs_proof resp) in
  attach_proof_input (dialer_view (answerer_facts req d)) = attach_proof_input ours <->
  hs_id req = dialer_id /\ hs_id resp = answerer_id /\ hs_own_nonce resp = an_own_nonce answerer /\
  hs_own_nonce req = an_own_nonce dialer /\ d = d'.
Proof.
  intros Hw Ld Ld' ours. unfold sixteen in Hw. rewrite !Forall_cons in Hw.
  destruct Hw as (L1 & L2 & L3 & L4 & L5 & L6 & L7 & L8 & _). split.
  - unfold attach_proof_input, dialer_view, answerer_facts, ours. cbn [af_role af_initiator_id af_responder_id af_peer_nonce af_own_nonce af_transcript_digest].
    intros E. apply app_inj_2 in E as [E ->]; [|congruence]. apply app_inj_2 in E as [E ->]; [|congruence].
    apply app_inj_2 in E as [E ->]; [|congruence]. apply app_inj_2 in E as [E ->]; [|congruence].
    apply app_inj_2 in E as [_ ->]; [|congruence]. done.
  - intros (E1 & E2 & E3 & E4 & E5). unfold attach_proof_input, dialer_view, answerer_facts, ours. cbn. by rewrite E1, E2, E3, E4, E5.
Qed.

(** C28: when a dialer with a key store accepts a responder.  The responder answers the request
    [req] it received, with a proof under its key; the dialer receives [resp] carrying that
    proof, the responder's key identifier among its keys.  Where digest and MAC do not collide
    on the inputs of this run, the dialer's policy admits the peer exactly when what reached
    the responder was the dialer's own identity and nonce, what reached the dialer was the
    responder's, and both received the same cipher fields. *)
Theorem dialer_accepts_exactly_the_honest_exchange (req resp : handshake_request) (answered received : attach_negotiator)
    (dr dd mr md : bytes) :
  sixteen [hs_id req; dialer_id; hs_id resp; answerer_id; hs_own_nonce req; hs_own_nonce resp;
           an_own_nonce dialer; an_own_nonce answerer] ->
  in_width 8 (hs_cipher_offer req) -> in_width 8 (hs_cipher_offer resp) ->
  in_width 8 (hs_chosen_cipher req) -> in_width 8 (hs_chosen_cipher resp) ->
  assemble answerer req responder (hs_id req) answerer_id true = Some answered ->
  assemble dialer resp initiator (hs_id resp) dialer_id true = Some received ->
  hs_proof resp = response_proof answered -> lookup_key keys (hs_key_id resp) = Some key ->
  digest (transcript_bytes (hs_own_nonce req) (an_own_nonce answerer) req) = Some dr ->
  digest (transcript_bytes (an_own_nonce dialer) (hs_own_nonce resp) resp) = Some dd ->
  length dr = 32%nat -> length dd = 32%nat ->
  (dr = dd -> transcript_bytes (hs_own_nonce req) (an_own_nonce answerer) req
              = transcript_bytes (an_own_nonce dialer) (hs_own_nonce resp) resp) ->
  hmac (material key) (attach_proof_input (dialer_view (facts answered))) = Some mr ->
  hmac (material key) (attach_proof_input (facts (latch_peer_proof received resp))) = Some md ->
  (mr = md -> attach_proof_input (dialer_view (facts answered)) = attach_proof_input (facts (latch_peer_proof received resp))) ->
  psk_decide hmac keys (facts (latch_peer_proof received resp)) = true <->
  hs_id req = dialer_id /\ hs_own_nonce req = an_own_nonce dialer /\
  hs_id resp = answerer_id /\ hs_own_nonce resp = an_own_nonce answerer /\
  hs_cipher_offer req = hs_cipher_offer resp /\ hs_chosen_cipher req = hs_chosen_cipher resp.
Proof.
  intros Hw Ho1 Ho2 Hc1 Hc2 Ha Hr Hproof Hkey Hdr Hdd Ldr Ldd Hcoll Hmr Hmd Hmac.
  destruct (answerer_assembles req) as (n & Ha' & Hp & Hfa). rewrite Ha in Ha'. injection Ha' as <-.
  destruct (dialer_assembles resp) as (n' & Hr' & Hfd & _). rewrite Hr in Hr'. injection Hr' as <-.
  rewrite Hdr in Hfa. rewrite Hdd in Hfd. cbn [from_option id] in Hfa, Hfd.
  assert (psk_decide hmac keys (facts (latch_peer_proof received resp)) = true <-> mr = md) as ->.
  { assert (af_key_id (facts (latch_peer_proof received resp)) = hs_key_id resp) as Ek by (by rewrite Hfd).
    assert (af_proof (facts (latch_peer_proof received resp)) = hs_proof resp) as Ep by (by rewrite Hfd).
    unfold psk_decide. rewrite Ek, Hkey, Hmd, Ep, ct_equal_iff, Hproof.
    unfold response_proof, resolve_response_proof. rewrite Hp, answerer_prover. cbn [ap_hmac ap_key]. unfold prove. rewrite Hmr.
    cbn. split; congruence. }
  pose proof (views_agree req resp dr dd Hw Ldr Ldd) as Hv. cbv zeta in Hv. rewrite <- Hfa, <- Hfd in Hv.
  unfold sixteen in Hw. rewrite !Forall_cons in Hw. destruct Hw as (L1 & L2 & L3 & L4 & L5 & L6 & L7 & L8 & _).
  split.
  - intros E. destruct (proj1 Hv (Hmac E)) as (E1 & E2 & E3 & E4 & E5).
    pose proof (Hcoll E5) as Ht. apply transcript_inj in Ht as (E6 & E7 & _); [|by repeat constructor|done..]. by split_and!.
  - intros (E1 & E2 & E3 & E4 & E5 & E6). enough (dr = dd) as E.
    { assert (attach_proof_input (dialer_view (facts answered)) = attach_proof_input (facts (latch_peer_proof received resp))) as Hin
        by (apply Hv; by split_and!). congruence. }
    apply (inj Some). rewrite <- Hdr, <- Hdd. unfold transcript_bytes. by rewrite E2, E4, E5, E6.
Qed.

(** A cipher offer rewritten in both directions is not noticed.  Each side folds the cipher
    fields of the frame it received into the transcript, and neither its own offer.  So when
    somebody in the middle replaces the offer and the choice of the request and of the response
    by any others, the proof still verifies, the posture check passes, and the dialer installs
    the choice of the attacker, although the comments say that a forced offer is refused. *)
Theorem rewritten_cipher_offer_is_accepted (req resp : handshake_request) (answered received : attach_negotiator) (o c : Z) (m : bytes) :
  hs_id req = dialer_id -> hs_own_nonce req = an_own_nonce dialer ->
  hs_id resp = answerer_id -> hs_own_nonce resp = an_own_nonce answerer ->
  hs_cipher_offer req = o -> hs_cipher_offer resp = o -> hs_chosen_cipher req = c -> hs_chosen_cipher resp = c -> o <> 0 ->
  assemble answerer req responder (hs_id req) answerer_id true = Some answered ->
  assemble dialer resp initiator (hs_id resp) dialer_id true = Some received ->
  hs_proof resp = response_proof answered -> lookup_key keys (hs_key_id resp) = Some key ->
  hmac (material key) (attach_proof_input (dialer_view (facts answered))) = Some m ->
  an_install_security received = true ->
  psk_decide hmac keys (facts (latch_peer_proof received resp)) = true /\
  posture_mismatched answerer req = false /\ posture_mismatched dialer resp = false /\
  exists neg n, install_on_accept (latch_peer_proof received resp) false = (true, Some neg, n) /\ sn_chosen_cipher neg = c.
Proof.
  intros I1 N1 I2 N2 O1 O2 C1 C2 Ho Ha Hr Hproof Hkey Hm Hinst.
  destruct (answerer_assembles req) as (n & Ha' & Hp & Hfa). rewrite Ha in Ha'. injection Ha' as <-.
  destruct (dialer_assembles resp) as (n' & Hr' & Hfd & He & Hc). rewrite Hr in Hr'. injection Hr' as <-.
  assert (attach_proof_input (facts (latch_peer_proof received resp)) = attach_proof_input (dialer_view (facts answered))) as Hin.
  { rewrite Hfa, Hfd. unfold attach_proof_input, dialer_view, answerer_facts, transcript_bytes. cbn. by rewrite I1, I2, N1, N2, O1, O2, C1, C2. }
  split; [|split; [|split] ].
  - assert (af_key_id (facts (latch_peer_proof received resp)) = hs_key_id resp) as Ek by (by rewrite Hfd).
    assert (af_proof (facts (latch_peer_proof received resp)) = hs_proof resp) as Ep by (by rewrite Hfd).
    unfold psk_decide. rewrite Ek, Hkey, Hin, Hm, Ep, ct_equal_iff, Hproof. unfold response_proof, resolve_response_proof.
    rewrite Hp, answerer_prover. cbn [ap_hmac ap_key]. unfold prove. by rewrite Hm.
  - unfold posture_mismatched, seam_engaged. rewrite answerer_seam, O1. by destruct (Z.eqb_spec o 0).
  - unfold posture_mismatched, seam_engaged. rewrite dialer_seam, O2. by destruct (Z.eqb_spec o 0).
  - unfold install_on_accept. rewrite He. cbn [negb an_set_identity an_install_security]. 
    change (an_install_security (latch_peer_proof received resp)) with (an_install_security received). rewrite Hinst. cbn [negb].
    eexists _, _. split; [reflexivity|]. by rewrite <- C2.
Qed.

(** What a responder latches as the authenticated identity of its peer is whatever identity
    the request claims.  A request carries no proof, so a secured responder admits it by a
    policy that admits everybody; the identity it then reports as authenticated is the one in
    the frame, for every frame, although it is documented never to be a claim of the wire. *)
Theorem responder_latches_the_claimed_identity (req : handshake_request) (answered : attach_negotiator) (self_securing : bool) :
  assemble answerer req responder (hs_id req) answerer_id true = Some answered ->
  accept_any (facts (latch_peer_proof answered req)) = true /\
  an_identity (install_on_accept (latch_peer_proof answered req) self_securing).2 = Some (hs_id req).
Proof.
  intros Ha. split; [done|]. revert Ha. unfold assemble, assemble_pending, seam_engaged. rewrite answerer_seam. cbn. intros [= <-].
  unfold install_on_accept. cbn. destruct self_securing; [done|]. by destruct (an_install_security answerer).
Qed.

End Attach.

(** ** Examples *)

Definition sample_seam : security_seam := SecuritySeam (Some (fun m => Some (take 32 (drop 3 m)))).
Definition sample_mac (key msg : bytes) : option bytes := Some (msg ++ key).
Definition sample_key : keyed_psk := KeyedPsk (replicate 8 (byte.of_Z 7)) (replicate 16 (byte.of_Z 7)).
Definition sample_dialer : attach_negotiator :=
  prime (attach_negotiator_new true (Some sample_seam) None) (Some (replicate 16 (byte.of_Z 1))).
Definition sample_answerer : attach_negotiator :=
  prime (attach_negotiator_new true (Some sample_seam) (Some (AttachProver sample_key sample_mac))) (Some (replicate 16 (byte.of_Z 2))).

(** A request and a response with the cipher fields [o] and [c]. *)
Definition sample_request (o c : Z) : handshake_request :=
  HandshakeRequest (Fsm.node 1) 1 0 1 0 k_protocol_version 0 (zero_bytes 8) (an_own_nonce sample_dialer) o c (zero_bytes 32).
Definition sample_response (o c : Z) (proof : bytes) : handshake_request :=
  HandshakeRequest (Fsm.node 2) 1 0 1 0 k_protocol_version 0 (key_id sample_key) (an_own_nonce sample_answerer) o c proof.

Lemma dialer_accepts_exactly_the_honest_exchange_witness :
  exists answered received resp,
    assemble sample_answerer (sample_request 1 1) responder (Fsm.node 1) (Fsm.node 2) true = Some answered /\
    resp = sample_response 1 1 (response_proof answered) /\
    assemble sample_dialer resp initiator (Fsm.node 2) (Fsm.node 1) true = Some received /\
    psk_decide sample_mac [sample_key] (facts (latch_peer_proof received resp)) = true.
Proof.
  destruct (assemble sample_answerer (sample_request 1 1) responder (Fsm.node 1) (Fsm.node 2) true) as [answered|] eqn:Ea;
    [|vm_compute in Ea; discriminate Ea].
  set (resp := sample_response 1 1 (response_proof answered)).
  destruct (assemble sample_dialer resp initiator (Fsm.node 2) (Fsm.node 1) true) as [received|] eqn:Er;
    [|vm_compute in Er; discriminate Er].
  exists answered, received, resp. split; [reflexivity|]. split; [reflexivity|]. split; [exact Er|].
  pose proof Ea as Ea'. pose proof Er as Er'. vm_compute in Ea'. injection Ea' as <-. vm_compute in Er'. injection Er' as <-.
  eapply (dialer_accepts_exactly_the_honest_exchange sample_mac (fun m => Some (take 32 (drop 3 m))) [sample_key] sample_key
           sample_dialer sample_answerer (Fsm.node 1) (Fsm.node 2) eq_refl eq_refl eq_refl (sample_request 1 1) resp);
    [repeat constructor|split; vm_compute; congruence|split; vm_compute; congruence|split; vm_compute; congruence
    |split; vm_compute; congruence|exact Ea|exact Er|reflexivity|reflexivity|vm_compute; reflexivity|vm_compute; reflexivity
    |reflexivity|reflexivity|intros _; vm_compute; reflexivity|vm_compute; reflexivity|vm_compute; reflexivity
    |intros _; vm_compute; reflexivity|split_and!; reflexivity].
Defined.

Lemma rewritten_cipher_offer_is_accepted_witness :
  exists received resp neg n,
    hs_cipher_offer resp = 2 /\ cipher_offer sample_dialer = 1 /\
    install_on_accept (latch_peer_proof received resp) false = (true, Some neg, n) /\ sn_chosen_cipher neg = 3.
Proof.
  destruct (assemble sample_answerer (sample_request 2 3) responder (Fsm.node 1) (Fsm.node 2) true) as [answered|] eqn:Ea;
    [|vm_compute in Ea; discriminate Ea].
  set (resp := sample_response 2 3 (response_proof answered)).
  destruct (assemble sample_dialer resp initiator (Fsm.node 2) (Fsm.node 1) true) as [received|] eqn:Er;
    [|vm_compute in Er; discriminate Er].
  pose proof Ea as Ea'. pose proof Er as Er'. vm_compute in Ea'. injection Ea' as <-. vm_compute in Er'. injection Er' as <-.
  edestruct (rewritten_cipher_offer_is_accepted sample_mac (fun m => Some (take 32 (drop 3 m))) [sample_key] sample_key
           sample_dialer sample_answerer (Fsm.node 1) (Fsm.node 2) eq_refl eq_refl eq_refl (sample_request 2 3) resp)
    as (_ & _ & _ & neg & n & H & Hc);
    [reflexivity|reflexivity|reflexivity|reflexivity|reflexivity|reflexivity|reflexivity|reflexivity|discriminate|exact Ea|exact Er
    |reflexivity|reflexivity|vm_compute; reflexivity|reflexivity|].
  eexists _, resp, neg, n. split; [reflexivity|]. split; [reflexivity|]. split; [exact H|exact Hc].
Defined.

Lemma responder_latches_the_claimed_identity_witness :
  exists answered, an_identity (install_on_accept (latch_peer_proof answered (sample_request 1 1)) false).2 = Some (Fsm.node 1).
Proof.
  destruct (assemble sample_answerer (sample_request 1 1) responder (Fsm.node 1) (Fsm.node 2) true) as [answered|] eqn:Ea;
    [|vm_compute in Ea; discriminate Ea].
  exists answered.
  apply (responder_latches_the_claimed_identity (fun m => Some (take 32 (drop 3 m))) sample_answerer (Fsm.node 2) eq_refl
           (sample_request 1 1) answered false Ea).
Defined.
