(* ===== verification/Egress.v ===== *)
(** * Priority bands and the egress scheduler

    [priority_band_queue] ([lib/plexus-core/include/plexus/io/detail/priority_band_queue.h]),
    [egress_scheduler] ([lib/plexus-core/include/plexus/io/detail/egress_scheduler.h]) and
    the channels it feeds: [stream_channel] with its plaintext and serial bootstraps
    ([backends/plexus-asio/include/plexus/asio/stream_channel.h], [detail/stream_channel_io.h],
    [detail/plaintext_bootstrap.h], [detail/serial_bootstrap.h]).

    The scheduler is a template over the channel: it uses the verbs of the class
    [ByteChannel], and its theorems are proved from [ChannelContract], what a channel
    promises to a scheduler that respects its gate. *)

From S2P Require Import Prelude ByteOrder Varint Cursor Frame Hash FrameReassembler CrcSerial Fragmentation SendQueue.

(** ** Priorities, congestion modes and drop causes *)

(** An enumeration over [std::uint8_t]: its value. *)
Definition priority : Type := Z.
Definition prio_background : priority := 0.
Definition prio_normal : priority := 1.
Definition prio_high : priority := 2.
Definition prio_realtime : priority := 3.

Inductive congestion : Type := block | drop_oldest | drop_newest.

#[global] Instance congestion_eq_dec : EqDecision congestion.
Proof. solve_decision. Defined.

Inductive drop_cause : Type :=
| dc_none | dc_drop_oldest | dc_drop_newest | dc_blocked | dc_replay | dc_too_old | dc_tamper
| dc_reassembly_evicted | dc_reassembly_cap | dc_malformed | dc_demux_refused | dc_arq_shed
| dc_unroutable | dc_closed_unsent.

#[global] Instance drop_cause_eq_dec : EqDecision drop_cause.
Proof. solve_decision. Defined.

Definition k_egress_bands : nat := 4.
Definition k_band_depth : nat := 256.

Definition band_of (p : priority) : nat :=
  let inverted := wrap 64 (Z.of_nat k_egress_bands - 1 - p) in
  Z.to_nat (Z.min inverted (Z.of_nat k_egress_bands - 1)).

(** Two indices of a ring less than its depth apart are different slots. *)
Lemma ring_index_ne d h i n : (i < n < d)%nat -> ((h + n) mod d <> (h + i) mod d)%nat.
Proof.
  intros H E. pose proof (Nat.div_mod (h + n) d ltac:(lia)) as En.
  pose proof (Nat.div_mod (h + i) d ltac:(lia)) as Ei. rewrite E in En.
  set (q := ((h + n) / d)%nat) in *. set (q' := ((h + i) / d)%nat) in *.
  assert (d * q = d * q' + (n - i))%nat as Ed by lia.
  assert (q <= q' \/ q' < q)%nat as [Hq|Hq] by lia; [assert (d * q <= d * q')%nat by (by apply Nat.mul_le_mono_l); lia|].
  assert (d * S q' <= d * q)%nat by (apply Nat.mul_le_mono_l; lia). lia.
Qed.

(** ** One band: a ring of [k_band_depth] slots, grown on the first push *)

Module Band.

Record t : Type := Band {
  m_slots : list bytes;
  m_head : nat;
  m_count : Z;
  m_dropped_oldest : Z;
  m_dropped_newest : Z;
  m_blocked : Z;
}.

Definition new : t := Band [] 0 0 0 0 0.

Definition is_empty (b : t) : bool := m_count b =? 0.

(** [m_slots[m_head]]; [None] out of range. *)
Definition front (b : t) : option bytes := m_slots b !! m_head b.

Definition pop (b : t) : option t :=
  if decide (m_head b < length (m_slots b))%nat
  then Some (Band (<[m_head b := []]> (m_slots b)) ((m_head b + 1) mod k_band_depth)
               (wrap 64 (m_count b - 1)) (m_dropped_oldest b) (m_dropped_newest b) (m_blocked b))
  else None.

Definition evict_oldest_or_refuse_cause (b : t) (c : congestion) : option (drop_cause * t) :=
  match c with
  | block => Some (dc_blocked, Band (m_slots b) (m_head b) (m_count b) (m_dropped_oldest b)
                                 (m_dropped_newest b) (wrap 64 (m_blocked b + 1)))
  | drop_newest => Some (dc_drop_newest, Band (m_slots b) (m_head b) (m_count b) (m_dropped_oldest b)
                                           (wrap 64 (m_dropped_newest b + 1)) (m_blocked b))
  | drop_oldest =>
      b ← pop b;
      Some (dc_drop_oldest, Band (m_slots b) (m_head b) (m_count b) (wrap 64 (m_dropped_oldest b + 1))
                              (m_dropped_newest b) (m_blocked b))
  end.

Definition push_with_verdict (b : t) (c : congestion) (frame : bytes) : option (drop_cause * t) :=
  '(cause, b) ← (if m_count b =? Z.of_nat k_band_depth then evict_oldest_or_refuse_cause b c
                 else Some (dc_none, b));
  if decide (cause = dc_drop_newest \/ cause = dc_blocked) then Some (cause, b) else
  let slots := if (length (m_slots b) =? k_band_depth)%nat then m_slots b
               else vresize [] k_band_depth (m_slots b) in
  let tail := ((m_head b + Z.to_nat (m_count b)) mod k_band_depth)%nat in
  if decide (tail < length slots)%nat
  then Some (cause, Band (<[tail := frame]> slots) (m_head b) (wrap 64 (m_count b + 1))
                      (m_dropped_oldest b) (m_dropped_newest b) (m_blocked b))
  else None.

Definition push (b : t) (c : congestion) (frame : bytes) : option (bool * t) :=
  '(cause, b) ← push_with_verdict b c frame;
  Some (negb (bool_decide (cause = dc_drop_newest)) && negb (bool_decide (cause = dc_blocked)), b).

(** *** The band as a list: oldest first *)

Definition slot_at (slots : list bytes) (head i : nat) : bytes :=
  default [] (slots !! ((head + i) mod k_band_depth)%nat).

Definition contents (b : t) : list bytes :=
  map (slot_at (m_slots b) (m_head b)) (seq 0 (Z.to_nat (m_count b))).

Record ok (b : t) : Prop := Ok {
  ok_count : 0 <= m_count b <= Z.of_nat k_band_depth;
  ok_head : (m_head b < k_band_depth)%nat;
  ok_slots : length (m_slots b) = k_band_depth \/ (m_slots b = [] /\ m_head b = 0%nat /\ m_count b = 0);
}.

(** What a push does to the list. *)
Definition push_spec (l : list bytes) (c : congestion) (f : bytes) : drop_cause * list bytes :=
  if (length l <? k_band_depth)%nat then (dc_none, l ++ [f]) else
  match c with
  | block => (dc_blocked, l)
  | drop_newest => (dc_drop_newest, l)
  | drop_oldest => (dc_drop_oldest, tail l ++ [f])
  end.

Lemma new_ok : ok new.
Proof. split; simpl; [lia|unfold k_band_depth; lia|by right]. Qed.

Lemma length_contents b : length (contents b) = Z.to_nat (m_count b).
Proof. unfold contents. by rewrite length_map, length_seq. Qed.

Lemma contents_empty b : ok b -> is_empty b = true <-> contents b = [].
Proof.
  intros [Hc _ _]. unfold is_empty. rewrite Z.eqb_eq, <- (length_zero_iff_nil (contents b)), length_contents. lia.
Qed.

Lemma slot_at_insert slots head n i f :
  length slots = k_band_depth -> (i < n)%nat -> (n < k_band_depth)%nat ->
  slot_at (<[((head + n) mod k_band_depth)%nat := f]> slots) head i = slot_at slots head i.
Proof.
  intros Hl Hi Hn. unfold slot_at. rewrite list_lookup_insert_ne; [done|]. by apply ring_index_ne.
Qed.

Lemma slot_at_insert_eq slots head n f :
  length slots = k_band_depth -> slot_at (<[((head + n) mod k_band_depth)%nat := f]> slots) head n = f.
Proof.
  intros Hl. unfold slot_at. rewrite list_lookup_insert_eq; [done|]. rewrite Hl. by apply Nat.mod_upper_bound.
Qed.

(** Storing behind the last frame of a ring with room. *)
Lemma contents_store slots head n dropped dropped' blocked f :
  length slots = k_band_depth -> (head < k_band_depth)%nat -> (n < k_band_depth)%nat ->
  let b := Band (<[((head + n) mod k_band_depth)%nat := f]> slots) head (wrap 64 (Z.of_nat n + 1))
             dropped dropped' blocked in
  ok b /\ contents b = map (slot_at slots head) (seq 0 n) ++ [f].
Proof.
  intros Hl Hh Hn b. assert (wrap 64 (Z.of_nat n + 1) = Z.of_nat (S n)) as E.
  { rewrite wrap_small; [lia|]. unfold in_width, k_band_depth in *. lia. }
  split.
  - split; cbn [m_count m_head m_slots b]; [rewrite E; lia|done|left]. by rewrite length_insert.
  - unfold contents. cbn [m_count m_head m_slots b]. rewrite E, Nat2Z.id, seq_S, map_app. f_equal.
    + apply map_ext_in. intros i Hi. apply in_seq in Hi. apply slot_at_insert; done || lia.
    + cbn [map]. by rewrite slot_at_insert_eq.
Qed.

Lemma slot_at_S slots head i :
  slot_at slots head (S i) = slot_at slots ((head + 1) mod k_band_depth) i.
Proof. unfold slot_at. f_equal. rewrite Nat.Div0.add_mod_idemp_l. do 2 f_equal. lia. Qed.

(** Popping a non-empty ring removes its oldest frame. *)
Lemma pop_spec b f rest :
  ok b -> contents b = f :: rest ->
  front b = Some f /\
  exists b', pop b = Some b' /\ ok b' /\ contents b' = rest /\ length (m_slots b') = k_band_depth /\
             m_count b' = m_count b - 1.
Proof.
  intros [Hc Hh Hs] Hcont. assert (Z.to_nat (m_count b) = S (length rest)) as Hn.
  { rewrite <- length_contents, Hcont. done. }
  destruct Hs as [Hl|(_ & _ & E)]; [|rewrite E in Hn; simpl in Hn; lia].
  unfold contents in Hcont. rewrite Hn in Hcont. cbn [seq map] in Hcont. injection Hcont as Hf Hrest.
  assert (front b = Some f) as Hfront.
  { unfold front. unfold slot_at in Hf. rewrite Nat.add_0_r, Nat.mod_small in Hf by done.
    destruct (lookup_lt_is_Some_2 (m_slots b) (m_head b)) as [x Hx]; [lia|]. rewrite Hx in *. by simplify_eq/=. }
  split; [done|]. unfold pop. rewrite decide_True by lia.
  assert (wrap 64 (m_count b - 1) = Z.of_nat (length rest)) as Ew.
  { rewrite wrap_small; [lia|]. unfold in_width, k_band_depth in *. lia. }
  eexists. split; [done|]. cbn [m_slots m_count]. rewrite Ew, length_insert. split_and!; try done; [| |lia].
  - split; cbn [m_count m_head m_slots]; [unfold k_band_depth in *; lia|by apply Nat.mod_upper_bound|].
    left. by rewrite length_insert.
  - unfold contents. cbn [m_count m_head m_slots]. rewrite Nat2Z.id.
    transitivity (map (slot_at (m_slots b) (m_head b)) (seq 1 (length rest))); [|done]. rewrite <- seq_shift, map_map.
    apply map_ext_in. intros i Hi. apply in_seq in Hi. rewrite slot_at_S. symmetry.
    rewrite <- !slot_at_S. unfold slot_at. rewrite list_lookup_insert_ne; [done|].
    intros E. apply (ring_index_ne k_band_depth (m_head b) 0 (S i)); [unfold k_band_depth in *; lia|].
    rewrite Nat.add_0_r, (Nat.mod_small (m_head b)) by done. done.
Qed.

(** A push into a band with room. *)
Lemma push_room b f cause :
  ok b -> m_count b < Z.of_nat k_band_depth -> cause <> dc_drop_newest -> cause <> dc_blocked ->
  exists b',
    (if decide (cause = dc_drop_newest \/ cause = dc_blocked) then Some (cause, b) else
     let slots := if (length (m_slots b) =? k_band_depth)%nat then m_slots b
                  else vresize [] k_band_depth (m_slots b) in
     let tail := ((m_head b + Z.to_nat (m_count b)) mod k_band_depth)%nat in
     if decide (tail < length slots)%nat
     then Some (cause, Band (<[tail := f]> slots) (m_head b) (wrap 64 (m_count b + 1))
                         (m_dropped_oldest b) (m_dropped_newest b) (m_blocked b))
     else None) = Some (cause, b') /\
    ok b' /\ contents b' = contents b ++ [f].
Proof.
  intros [Hc Hh Hs] Hlt Hn1 Hn2. rewrite decide_False by (intros [?|?]; done). cbv zeta.
  set (slots := if (length (m_slots b) =? k_band_depth)%nat then m_slots b else vresize [] k_band_depth (m_slots b)).
  assert (length slots = k_band_depth) as Hl.
  { unfold slots. destruct (Nat.eqb_spec (length (m_slots b)) k_band_depth); [done|]. by rewrite length_vresize. }
  rewrite decide_True by (rewrite Hl; by apply Nat.mod_upper_bound). eexists. split; [done|].
  destruct (contents_store slots (m_head b) (Z.to_nat (m_count b)) (m_dropped_oldest b) (m_dropped_newest b)
              (m_blocked b) f) as [Hok Hcont]; [done|done|lia|].
  rewrite Z2Nat.id in Hok, Hcont by lia. split; [done|]. rewrite Hcont. f_equal.
  destruct Hs as [Hs|(Hs & Hh0 & Hc0)].
  - unfold slots. rewrite Hs, Nat.eqb_refl. done.
  - unfold contents. by rewrite Hc0.
Qed.

Lemma push_with_verdict_spec b c f :
  ok b ->
  exists b', push_with_verdict b c f = Some ((push_spec (contents b) c f).1, b') /\
    ok b' /\ contents b' = (push_spec (contents b) c f).2.
Proof.
  intros Hok. pose proof Hok as [Hc Hh Hs]. unfold push_with_verdict, push_spec.
  rewrite length_contents. destruct (Z.eqb_spec (m_count b) (Z.of_nat k_band_depth)) as [Ef|Ef].
  - destruct (Nat.ltb_spec (Z.to_nat (m_count b)) k_band_depth); [lia|]. destruct c; cbn [evict_oldest_or_refuse_cause].
    + eexists. split; [done|]. split; [by split|done].
    + destruct (contents b) as [|f0 rest] eqn:Econt.
      { apply (f_equal length) in Econt. rewrite length_contents in Econt. unfold k_band_depth in *. simpl in Econt. lia. }
      destruct (pop_spec b f0 rest Hok Econt) as (_ & b1 & Hp & Hok1 & Hc1 & Hl1 & Hn1).
      rewrite Hp. cbn [mbind option_bind]. rewrite <- Hc1. cbn [tail fst snd].
      set (b2 := Band (m_slots b1) (m_head b1) (m_count b1) (wrap 64 (m_dropped_oldest b1 + 1)) (m_dropped_newest b1) (m_blocked b1)).
      destruct (push_room b2 f dc_drop_oldest) as (b' & Hpush & Hok' & Hcont');
        [by destruct Hok1; split|unfold b2; cbn [m_count]; lia|done|done|].
      exists b'. split; [exact Hpush|]. split; [done|]. exact Hcont'.
    + eexists. split; [done|]. split; [by split|done].
  - destruct (Nat.ltb_spec (Z.to_nat (m_count b)) k_band_depth); [|lia]. cbn [mbind option_bind fst snd].
    apply push_room; done || lia.
Qed.

End Band.

(** ** [class priority_band_queue] *)

Module BandQueue.

Abbreviation t := (list Band.t).

Definition new : t := replicate k_egress_bands Band.new.

Definition has_work (q : t) : bool := existsb (fun b => negb (Band.is_empty b)) q.

(** [m_bands[band]] out of range is undefined. *)
Definition enqueue_with_verdict (q : t) (band : nat) (c : congestion) (frame : bytes) : option (drop_cause * t) :=
  b ← q !! band;
  '(cause, b) ← Band.push_with_verdict b c frame;
  Some (cause, <[band := b]> q).

Definition enqueue (q : t) (band : nat) (c : congestion) (frame : bytes) : option (bool * t) :=
  b ← q !! band;
  '(admitted, b) ← Band.push b c frame;
  Some (admitted, <[band := b]> q).

(** The front of the first band that is not empty; [None] for the null pointer. *)
Fixpoint front_highest (q : t) : option bytes :=
  match q with
  | [] => None
  | b :: q => if negb (Band.is_empty b) then Band.front b else front_highest q
  end.

Fixpoint pop_highest (q : t) : option t :=
  match q with
  | [] => Some []
  | b :: q =>
      if negb (Band.is_empty b) then b ← Band.pop b; Some (b :: q)
      else q ← pop_highest q; Some (b :: q)
  end.

Definition dropped_oldest_count (q : t) (band : nat) : option Z := Band.m_dropped_oldest <$> q !! band.
Definition dropped_newest_count (q : t) (band : nat) : option Z := Band.m_dropped_newest <$> q !! band.
Definition blocked_count (q : t) (band : nat) : option Z := Band.m_blocked <$> q !! band.

(** *** The bands as lists, highest priority first *)

Definition backlog (q : t) : list (list bytes) := map Band.contents q.

Definition ok (q : t) : Prop := length q = k_egress_bands /\ Forall Band.ok q.

Lemma queue_new_ok : ok new.
Proof. split; [done|]. apply Forall_replicate, Band.new_ok. Qed.

Lemma has_work_spec q : Forall Band.ok q -> has_work q = true <-> concat (backlog q) <> [].
Proof.
  unfold has_work, backlog. induction 1 as [|b q Hb _ IH]; simpl; [done|].
  pose proof (Band.contents_empty b Hb) as He. destruct (Band.is_empty b); simpl.
  - rewrite (proj1 He eq_refl). done.
  - split; [|done]. intros _ E. apply app_eq_nil in E as [E _]. by apply He in E.
Qed.

(** The front of the queue is the first frame in priority order, and popping removes it. *)
Lemma front_pop_highest q f rest :
  Forall Band.ok q -> concat (backlog q) = f :: rest ->
  front_highest q = Some f /\
  exists q', pop_highest q = Some q' /\ Forall Band.ok q' /\ length q' = length q /\ concat (backlog q') = rest.
Proof.
  unfold backlog. induction 1 as [|b q Hb Hq IH]; simpl; [done|]. intros E.
  pose proof (Band.contents_empty b Hb) as He. destruct (Band.is_empty b) eqn:Eb; simpl.
  - rewrite (proj1 He eq_refl) in E. destruct (IH E) as (Hf & q' & -> & Hok & Hl & Hr).
    split; [done|]. eexists. split; [done|]. split; [by constructor|]. simpl. rewrite (proj1 He eq_refl). auto.
  - destruct (Band.contents b) as [|x xs] eqn:Ec; [by specialize (proj2 He eq_refl)|]. simpl in E. simplify_eq.
    destruct (Band.pop_spec b f xs Hb Ec) as (Hf & b' & -> & Hok & Hc & _). split; [done|]. eexists. split; [done|].
    split; [by constructor|]. simpl. by rewrite Hc.
Qed.

Lemma enqueue_with_verdict_spec q band c f :
  ok q -> (band < k_egress_bands)%nat ->
  exists l q', backlog q !! band = Some l /\
    enqueue_with_verdict q band c f = Some ((Band.push_spec l c f).1, q') /\
    ok q' /\ backlog q' = <[band := (Band.push_spec l c f).2]> (backlog q).
Proof.
  intros [Hl Hok] Hb. destruct (lookup_lt_is_Some_2 q band) as [b Eb]; [lia|].
  destruct (Band.push_with_verdict_spec b c f) as (b' & Hp & Hok' & Hc); [by eapply Forall_lookup_1|].
  exists (Band.contents b). unfold enqueue_with_verdict. rewrite Eb. cbn [mbind option_bind]. rewrite Hp.
  cbn [mbind option_bind]. eexists. split.
  { unfold backlog. change (map Band.contents) with (fmap (M := list) Band.contents). by rewrite list_lookup_fmap, Eb. }
  split; [done|].
  split; [split; [by rewrite length_insert|by apply Forall_insert]|].
  unfold backlog. rewrite <- Hc. change (map Band.contents) with (fmap (M := list) Band.contents). by rewrite list_fmap_insert.
Qed.

End BandQueue.

(** ** [class egress_scheduler] *)

(** The fallback of the low-water gate. *)
Definition k_low_water : Z := max_message_size.

(** The verbs of a channel the scheduler uses.  [write_queue_capacity] is [None] for a
    channel type that does not offer it; [can_poll] says whether the type offers
    [backpressured]. *)
Class ByteChannel (C : Type) : Type := {
  can_poll : bool;
  scheduler_key : C -> Z;
  backpressured : C -> Z;
  write_queue_capacity : C -> option Z;
  send : C -> bytes -> option C;
}.

(** The state of the scheduler: [m_queues]. *)
Abbreviation egress_scheduler := (gmap Z BandQueue.t).

Section Scheduler.
Context {C : Type} `{!ByteChannel C}.

Definition low_water_of (ch : C) : Z := default k_low_water (write_queue_capacity ch).

Definition admits (ch : C) (size : Z) : bool :=
  if can_poll (C := C) then (backpressured ch =? 0) || (wrap 64 (backpressured ch + size) <=? low_water_of ch)
  else true.

(** The [while] of [drain]; [None] also for an exhausted bound. *)
Fixpoint drain_loop (fuel : nat) (q : BandQueue.t) (ch : C) : option (BandQueue.t * C) :=
  match fuel with
  | O => None
  | S fuel =>
      if negb (BandQueue.has_work q) then Some (q, ch) else
      node ← BandQueue.front_highest q;
      if negb (admits ch (zlen node)) then Some (q, ch) else
      ch ← send ch node;
      q ← BandQueue.pop_highest q;
      drain_loop fuel q ch
  end.

(** [m_queues[key]], which default-constructs a missing entry. *)
Definition queue_of (s : egress_scheduler) (key : Z) : BandQueue.t := default BandQueue.new (s !! key).

Definition drain (s : egress_scheduler) (ch : C) : option (egress_scheduler * C) :=
  let key := scheduler_key ch in
  let q := queue_of s key in
  '(q, ch) ← drain_loop (S (length (concat (BandQueue.backlog q)))) q ch;
  Some (<[key := q]> s, ch).

Definition enqueue (s : egress_scheduler) (ch : C) (band : nat) (c : congestion) (frame : bytes)
  : option (drop_cause * egress_scheduler * C) :=
  if negb (can_poll (C := C)) then ch ← send ch frame; Some (dc_none, s, ch)
  else
    let key := scheduler_key ch in
    '(cause, q) ← BandQueue.enqueue_with_verdict (queue_of s key) band c frame;
    '(s, ch) ← drain (<[key := q]> s) ch;
    Some (cause, s, ch).

Definition remove (s : egress_scheduler) (ch : C) : egress_scheduler := delete (scheduler_key ch) s.

Definition dropped_oldest_of (s : egress_scheduler) (ch : C) (band : nat) : option Z :=
  match s !! scheduler_key ch with None => Some 0 | Some q => BandQueue.dropped_oldest_count q band end.
Definition dropped_newest_of (s : egress_scheduler) (ch : C) (band : nat) : option Z :=
  match s !! scheduler_key ch with None => Some 0 | Some q => BandQueue.dropped_newest_count q band end.
Definition blocked_of (s : egress_scheduler) (ch : C) (band : nat) : option Z :=
  match s !! scheduler_key ch with None => Some 0 | Some q => BandQueue.blocked_count q band end.

End Scheduler.

(** ** What a channel promises the scheduler *)

(** A frame as the forwarder hands it over: a header and at most [2 ^ 62] bytes. *)
Definition frame_ok (f : bytes) : Prop := (header_size <= length f)%nat /\ zlen f <= 2 ^ 62.

(** A ready channel takes every frame the gate lets through, behind what it has taken
    before, and stays ready under the same key. *)
Class ChannelContract (C : Type) `{!ByteChannel C} : Type := {
  ready : C -> Prop;
  taken : C -> list bytes;
  contract_polls : can_poll (C := C) = true;
  send_takes c f : ready c -> frame_ok f -> admits c (zlen f) = true ->
    exists c', send c f = Some c' /\ ready c' /\ taken c' = taken c ++ [f] /\
               scheduler_key c' = scheduler_key c;
}.

Section Contract.
Context {C : Type} `{!ByteChannel C} `{!ChannelContract C}.

Lemma drain_loop_spec fuel q (c : C) :
  Forall Band.ok q -> Forall frame_ok (concat (BandQueue.backlog q)) -> ready c ->
  (length (concat (BandQueue.backlog q)) < fuel)%nat ->
  exists handed q' c', drain_loop fuel q c = Some (q', c') /\
    Forall Band.ok q' /\ length q' = length q /\ ready c' /\
    concat (BandQueue.backlog q) = handed ++ concat (BandQueue.backlog q') /\
    taken c' = taken c ++ handed /\ scheduler_key c' = scheduler_key c /\
    (forall f rest, concat (BandQueue.backlog q') = f :: rest -> admits c' (zlen f) = false).
Proof.
  revert q c. induction fuel as [|fuel IH]; intros q c Hok Hf Hr Hlen; [lia|]. cbn [drain_loop].
  pose proof (BandQueue.has_work_spec q Hok) as Hw. destruct (concat (BandQueue.backlog q)) as [|f rest] eqn:Eb.
  - destruct (BandQueue.has_work q); [by specialize (proj1 Hw eq_refl)|]. cbn [negb].
    exists [], q, c. rewrite Eb, !app_nil_r. by split_and!.
  - rewrite (proj2 Hw ltac:(done)). cbn [negb].
    destruct (BandQueue.front_pop_highest q f rest Hok Eb) as (-> & q1 & Hp & Hok1 & Hl1 & Hb1).
    cbn [mbind option_bind]. apply Forall_cons in Hf as [Hf Hrest]. destruct (admits c (zlen f)) eqn:Ea; cbn [negb].
    + destruct (send_takes c f Hr Hf Ea) as (c1 & -> & Hr1 & Ht1 & Hk1). cbn [mbind option_bind]. rewrite Hp.
      cbn [mbind option_bind]. destruct (IH q1 c1) as (handed & q' & c' & -> & H1 & H2 & H3 & H4 & H5 & H6 & H7);
        [done|by rewrite Hb1|done|rewrite Hb1; simpl in Hlen; lia|].
      exists (f :: handed), q', c'. rewrite <- Hb1, H4, H5, Ht1, <- app_assoc. split_and!; try done; congruence.
    + exists [], q, c. rewrite Eb, app_nil_r. split_and!; try done. intros. by simplify_eq.
Qed.

(** The bands of a destination. *)
Definition bands_of (s : egress_scheduler) (key : Z) : list (list bytes) := BandQueue.backlog (queue_of s key).

Definition scheduler_ok (s : egress_scheduler) : Prop :=
  forall key, BandQueue.ok (queue_of s key) /\ Forall frame_ok (concat (bands_of s key)).

Lemma concat_insert_Forall {A} (P : A -> Prop) (ls : list (list A)) i l l' :
  Forall P (concat ls) -> ls !! i = Some l -> (Forall P l -> Forall P l') -> Forall P (concat (<[i := l']> ls)).
Proof.
  intros H Hl Hl'. rewrite !Forall_concat in *. apply Forall_insert; [done|]. apply Hl'. by eapply Forall_lookup_1 in H.
Qed.

Lemma push_spec_Forall l c f : Forall frame_ok l -> frame_ok f -> Forall frame_ok (Band.push_spec l c f).2.
Proof.
  intros Hl Hf. unfold Band.push_spec. destruct (_ <? _)%nat; [|destruct c]; simpl; try done.
  - apply Forall_app. auto.
  - apply Forall_app. split; [|auto]. destruct Hl; [constructor|done].
Qed.

(** An enqueue and the drain it runs, for a destination that keeps the contract. *)
Lemma enqueue_spec (s : egress_scheduler) (c : C) (band : nat) (cg : congestion)
    (frame : bytes) :
  scheduler_ok s -> ready c -> (band < k_egress_bands)%nat -> frame_ok frame ->
  let key := scheduler_key c in
  exists l handed s' c',
    bands_of s key !! band = Some l /\
    enqueue s c band cg frame = Some ((Band.push_spec l cg frame).1, s', c') /\
    concat (<[band := (Band.push_spec l cg frame).2]> (bands_of s key)) = handed ++ concat (bands_of s' key) /\
    taken c' = taken c ++ handed /\
    (forall f rest, concat (bands_of s' key) = f :: rest -> admits c' (zlen f) = false) /\
    scheduler_ok s' /\ ready c' /\ scheduler_key c' = key /\ (forall k, k <> key -> s' !! k = s !! k).
Proof.
  intros Hs Hr Hb Hf key. unfold enqueue. rewrite contract_polls. cbn [negb]. fold key.
  destruct (Hs key) as [Hok Hfr].
  destruct (BandQueue.enqueue_with_verdict_spec (queue_of s key) band cg frame Hok Hb) as (l & q1 & Hl & -> & [Hlen1 Hok1] & Hbl).
  cbn [mbind option_bind]. unfold drain. fold key.
  assert (queue_of (<[key := q1]> s) key = q1) as -> by (unfold queue_of; by rewrite lookup_insert, decide_True).
  assert (Forall frame_ok (concat (BandQueue.backlog q1))) as Hfr1.
  { rewrite Hbl. eapply concat_insert_Forall; [done|done|]. intros. by apply push_spec_Forall. }
  destruct (drain_loop_spec (S (length (concat (BandQueue.backlog q1)))) q1 c Hok1 Hfr1 Hr)
    as (handed & q' & c' & Hd & Hok' & Hlen' & Hr' & Hb' & Ht' & Hk' & Hmax); [lia|].
  exists l, handed, (<[key := q']> (<[key := q1]> s)), c'.
  assert (forall k, queue_of (<[key := q']> (<[key := q1]> s)) k = if decide (k = key) then q' else queue_of s k) as Hq.
  { intros k. unfold queue_of. case_decide as E.
    - subst. by rewrite lookup_insert, decide_True by done.
    - by rewrite !lookup_insert_ne by done. }
  unfold bands_of. rewrite Hq, decide_True by done. split_and!; try done.
  - by rewrite Hd.
  - unfold bands_of in Hl. fold (bands_of s key) in *. by rewrite <- Hb', Hbl.
  - intros k. unfold bands_of. rewrite Hq. case_decide; [|apply Hs]. split; [split; [lia|done]|].
    rewrite Hb' in Hfr1. by apply Forall_app in Hfr1 as [_ ?].
  - intros k Hk. by rewrite !lookup_insert_ne by done.
Qed.

End Contract.

(** ** [class stream_channel]: the egress half *)

Inductive bootstrap : Type := plaintext_bootstrap | serial_bootstrap.

(** [c_egress] is the channel's send queue with the history of what it was given
    ([StreamQueue.session]); [c_would_block] counts the calls of the error callback. *)
Record stream_channel : Type := StreamChannel {
  c_bootstrap : bootstrap;
  c_congestion : congestion;
  c_scheduler_key : Z;
  c_dropped : Z;
  c_would_block : Z;
  c_egress : StreamQueue.session;
  c_open : bool;
}.

Definition with_egress (c : stream_channel) (e : StreamQueue.session) : stream_channel :=
  StreamChannel (c_bootstrap c) (c_congestion c) (c_scheduler_key c) (c_dropped c) (c_would_block c) e (c_open c).

Definition stream_on_write_queue_full (c : stream_channel) : stream_channel :=
  match c_congestion c with
  | drop_newest => StreamChannel (c_bootstrap c) (c_congestion c) (c_scheduler_key c)
                     (wrap 64 (c_dropped c + 1)) (c_would_block c) (c_egress c) (c_open c)
  | _ => StreamChannel (c_bootstrap c) (c_congestion c) (c_scheduler_key c) (c_dropped c)
           (c_would_block c + 1) (c_egress c) (c_open c)
  end.

(** The queue's answer to an admission of [fs]. *)
Definition after_admission (c : stream_channel) (fs : list bytes)
    (r : bool * list StreamQueue.event * StreamQueue.send_queue) : stream_channel :=
  let '(ok, evs, q) := r in
  let e := c_egress c in
  let c := with_egress c
    (StreamQueue.Session q (StreamQueue.s_writes e ++ StreamQueue.buffers evs)
       (StreamQueue.s_accepted e ++ if ok then fs else [])
       (StreamQueue.s_written e ++ concat (StreamQueue.buffers evs))) in
  if ok : bool then c else stream_on_write_queue_full c.

Definition enqueue_egress (c : stream_channel) (f : bytes) : stream_channel :=
  after_admission c [f] (StreamQueue.enqueue (StreamQueue.s_queue (c_egress c)) f).

Definition enqueue_egress_pair (c : stream_channel) (first second : bytes) : stream_channel :=
  after_admission c [first; second] (StreamQueue.enqueue_both (StreamQueue.s_queue (c_egress c)) first second).

(** The header of a shorter frame would be read out of bounds. *)
Definition make_trailer (framed : bytes) : option bytes :=
  if decide (header_size <= length framed)%nat
  then Some (crc_trailer (take header_size framed) (drop header_size framed)) else None.

Definition submit (c : stream_channel) (data : bytes) : option stream_channel :=
  match c_bootstrap c with
  | plaintext_bootstrap => Some (enqueue_egress c data)
  | serial_bootstrap => trailer ← make_trailer data; Some (enqueue_egress_pair c data trailer)
  end.

Definition stream_send (c : stream_channel) (data : bytes) : option stream_channel :=
  if negb (c_open c) then Some c else submit c data.

#[global] Instance stream_byte_channel : ByteChannel stream_channel := {
  can_poll := true;
  scheduler_key := c_scheduler_key;
  backpressured c := StreamQueue.queued_bytes (StreamQueue.s_queue (c_egress c));
  write_queue_capacity c := Some (StreamQueue.capacity (StreamQueue.s_queue (c_egress c)));
  send := stream_send;
}.

(** An open plaintext channel with a cap and a gather limit. *)
Definition plaintext_ready (c : stream_channel) : Prop :=
  c_open c = true /\ c_bootstrap c = plaintext_bootstrap /\
  StreamQueue.m_open (StreamQueue.s_queue (c_egress c)) = true /\
  exists cap gather, (0 < gather)%nat /\ 0 < cap <= 2 ^ 62 /\
    StreamQueue.session_inv cap gather (2 ^ 62) (c_egress c).

(** The gate and the queue agree on every frame that is not empty. *)
Lemma gate_admits (c : stream_channel) f :
  plaintext_ready c -> frame_ok f -> admits c (zlen f) = true ->
  StreamQueue.admits (StreamQueue.s_queue (c_egress c)) (zlen f) = true.
Proof.
  intros (_ & _ & Ho & cap & gather & _ & Hcap & Hinv) [Hl Hf] Ha. unfold StreamQueue.session_inv in Hinv. rewrite Ho in Hinv.
  destruct Hinv as [Hi Hb]. pose proof (StreamQueue.qi_width _ _ _ Hi) as [Hb0 _].
  unfold admits in Ha. cbn in Ha. unfold StreamQueue.queued_bytes, low_water_of in Ha. cbn in Ha.
  unfold StreamQueue.capacity in Ha. rewrite (StreamQueue.qi_cap _ _ _ Hi) in Ha.
  unfold StreamQueue.admits. rewrite (StreamQueue.qi_cap _ _ _ Hi).
  assert (0 < zlen f) by (unfold zlen, header_size in *; lia).
  rewrite wrap_small in Ha by (unfold in_width; lia).
  apply orb_true_iff in Ha as [Ha|Ha]; [by rewrite Ha|]. apply Z.leb_le in Ha.
  apply orb_true_iff. right. apply andb_true_iff. rewrite Z.ltb_lt, Z.leb_le. lia.
Qed.

#[global] Instance stream_channel_contract : ChannelContract stream_channel.
Proof.
  refine {| ready := plaintext_ready; taken c := StreamQueue.s_accepted (c_egress c); contract_polls := eq_refl |}.
  intros c f Hr Hf Ha. pose proof (gate_admits c f Hr Hf Ha) as Hq.
  destruct Hr as (Hopen & Hboot & Ho & cap & gather & Hg & Hcap & Hinv). destruct Hf as [_ Hf].
  cbn. unfold stream_send, submit. rewrite Hopen, Hboot. cbn [negb]. eexists. split; [done|].
  unfold enqueue_egress. destruct (StreamQueue.enqueue _ f) as [ [ok evs] q] eqn:He.
  assert (ok = true /\ StreamQueue.m_open q = true) as [-> Hoq].
  { unfold StreamQueue.enqueue in He. rewrite Hq in He. cbn [negb] in He. unfold StreamQueue.admit_node, StreamQueue.resume in He.
    destruct (negb _); [|by simplify_eq]. unfold StreamQueue.drive in He.
    destruct (StreamQueue.m_queue _); simplify_eq; done. }
  cbn. split; [|done]. split; [done|]. split; [done|]. split; [done|]. exists cap, gather. split; [done|]. split; [done|].
  eapply (StreamQueue.enqueue_inv cap gather (2 ^ 62) (c_egress c) f true evs q); try done; unfold in_width; lia.
Defined.

(** ** [polymorphic_byte_channel]: a channel behind its type-erased interface

    The erasure forwards [send], [backpressured] and [scheduler_key] and has no
    [write_queue_capacity]. *)
Record polymorphic_byte_channel : Type := PolymorphicByteChannel { p_impl : stream_channel }.

#[global] Instance polymorphic_channel : ByteChannel polymorphic_byte_channel := {
  can_poll := true;
  scheduler_key c := c_scheduler_key (p_impl c);
  backpressured c := StreamQueue.queued_bytes (StreamQueue.s_queue (c_egress (p_impl c)));
  write_queue_capacity c := None;
  send c f := PolymorphicByteChannel <$> stream_send (p_impl c) f;
}.

Definition open_channel (b : bootstrap) (cap : Z) : stream_channel :=
  StreamChannel b drop_newest 1 0 0
    (StreamQueue.Session (StreamQueue.send_queue_new cap StreamQueue.default_gather_limit) [] [] []) true.

Definition small_frame (tag : byte) : bytes := replicate 30 tag.

(** The contract does not hold for the other two channels, and frames are lost
    between the bands and the channel without a band drop being counted.  On a serial
    channel the gate compares the frame with the cap and the queue the frame and its
    4-byte trailer: of two 30-byte frames on a 64-byte queue, the second passes the gate
    and is refused.  Behind the type-erased channel the gate does not know the cap at all
    and lets through what a 40-byte queue refuses. *)
Theorem gate_misjudges_serial_and_erased_channels :
  (exists s c s' c',
     enqueue ∅ (open_channel serial_bootstrap 64) 0 block (small_frame Byte.x01) = Some (dc_none, s, c) /\
     enqueue s c 0 block (small_frame Byte.x02) = Some (dc_none, s', c') /\
     concat (bands_of s' 1) = [] /\
     (exists trailer, StreamQueue.s_accepted (c_egress c') = [small_frame Byte.x01; trailer]) /\
     c_dropped c' = 1) /\
  (exists s c s' c',
     enqueue ∅ (PolymorphicByteChannel (open_channel plaintext_bootstrap 40)) 0 block (small_frame Byte.x01)
       = Some (dc_none, s, c) /\
     enqueue s c 0 block (small_frame Byte.x02) = Some (dc_none, s', c') /\
     concat (bands_of s' 1) = [] /\ StreamQueue.s_accepted (c_egress (p_impl c')) = [small_frame Byte.x01] /\
     c_dropped (p_impl c') = 1).
Proof.
  split.
  - do 4 eexists. split; [vm_compute; reflexivity|]. split; [vm_compute; reflexivity|].
    split; [vm_compute; reflexivity|]. split; [|vm_compute; reflexivity].
    eexists. vm_compute. reflexivity.
  - do 4 eexists. split; [vm_compute; reflexivity|]. split; [vm_compute; reflexivity|].
    split; vm_compute; [reflexivity|]. split; reflexivity.
Qed.

Lemma plaintext_open_ready cap : 0 < cap <= 2 ^ 62 -> plaintext_ready (open_channel plaintext_bootstrap cap).
Proof.
  intros Hc. split; [done|]. split; [done|]. split; [done|]. exists cap, StreamQueue.default_gather_limit.
  split; [unfold StreamQueue.default_gather_limit; lia|]. split; [done|].
  apply StreamQueue.session_reachable_inv; [unfold StreamQueue.default_gather_limit; lia|unfold in_width; lia..|].
  apply StreamQueue.reach_new.
Qed.

Lemma scheduler_ok_empty : scheduler_ok ∅.
Proof.
  intros key. unfold queue_of, bands_of, queue_of. rewrite lookup_empty. cbn [default].
  split; [apply BandQueue.queue_new_ok|].
  change (concat (BandQueue.backlog BandQueue.new)) with (@nil bytes). constructor.
Qed.
