(* ===== verification/EgressRun.v ===== *)
(** * The egress path of a stream channel

    [detail/egress_scheduler.h] over the bands of [Egress], one open plaintext channel of
    [stream_channel.h] and its send queue, run as the forwarder and the socket run them:
    publications in any bands and congestion modes, interleaved with completions of the
    writes.  The run is that of a reference with four lists of waiting frames and a window of
    bytes. *)

From stdpp Require Import gmap.
From S2P Require Import Prelude Frame SendQueue Egress.

(** ** The reference

    [er_window] are the frames the channel has taken and not finished writing, the first
    [er_flight] of them in the write that is under way; [er_taken] is all it ever took and
    [er_written] all it ever gave the socket. *)
Record egress_ref : Type := EgressRef {
  er_bands : list (list bytes);
  er_window : list bytes;
  er_flight : nat;
  er_taken : list bytes;
  er_written : list bytes;
}.

Definition ref_new : egress_ref := EgressRef (replicate k_egress_bands []) [] 0 [] [].

(** The oldest frame of the highest band that has one. *)
Fixpoint take_front (bands : list (list bytes)) : option (bytes * list (list bytes)) :=
  match bands with
  | [] => None
  | [] :: bands => '(f, bands) ← take_front bands; Some (f, [] :: bands)
  | (f :: band) :: bands => Some (f, band :: bands)
  end.

Definition has_room (cap : Z) (window : list bytes) (f : bytes) : bool :=
  match window with [] => true | _ => queue_bytes window + zlen f <=? cap end.

(** The channel takes [f]; an idle channel writes it at once. *)
Definition ref_hand (f : bytes) (bands : list (list bytes)) (r : egress_ref) : egress_ref :=
  match er_window r with
  | [] => EgressRef bands [f] 1 (er_taken r ++ [f]) (er_written r ++ [f])
  | w => EgressRef bands (w ++ [f]) (er_flight r) (er_taken r ++ [f]) (er_written r)
  end.

(** [n] is at least the number of waiting frames. *)
Fixpoint ref_drain (n : nat) (cap : Z) (r : egress_ref) : egress_ref :=
  match n, take_front (er_bands r) with
  | S n, Some (f, bands) => if has_room cap (er_window r) f then ref_drain n cap (ref_hand f bands r) else r
  | _, _ => r
  end.

Definition ref_publish (cap : Z) (band : nat) (cg : congestion) (f : bytes) (r : egress_ref) : drop_cause * egress_ref :=
  let '(cause, l) := Band.push_spec (default [] (er_bands r !! band)) cg f in
  let bands := <[band := l]> (er_bands r) in
  (cause, ref_drain (length (concat bands)) cap (EgressRef bands (er_window r) (er_flight r) (er_taken r) (er_written r))).

(** A write completes: its frames leave the window and the next write gathers what waits. *)
Definition ref_complete (r : egress_ref) : egress_ref :=
  let w := drop (er_flight r) (er_window r) in
  let n := Nat.min StreamQueue.default_gather_limit (length w) in
  match er_window r with
  | [] => r
  | _ => EgressRef (er_bands r) w n (er_taken r) (er_written r ++ take n w)
  end.

(** ** The code's run *)

Inductive egress_op : Type := Publish (band : nat) (cg : congestion) (f : bytes) | WriteDone (ok : bool).

(** The completion handler of the write that is under way, if one is. *)
Definition write_done (ok : bool) (c : stream_channel) : option stream_channel :=
  let e := c_egress c in
  match StreamQueue.s_writes e with
  | [] => Some c
  | _ :: ws =>
      '(evs, q) ← StreamQueue.complete (StreamQueue.s_queue e) ok;
      Some (with_egress c (StreamQueue.Session q (ws ++ StreamQueue.buffers evs) (StreamQueue.s_accepted e)
                             (StreamQueue.s_written e ++ concat (StreamQueue.buffers evs))))
  end.

Definition egress_step (o : egress_op) (s : egress_scheduler) (c : stream_channel)
    : option (list drop_cause * egress_scheduler * stream_channel) :=
  match o with
  | Publish band cg f => '(cause, s, c) ← enqueue s c band cg f; Some ([cause], s, c)
  | WriteDone ok => c ← write_done ok c; Some ([], s, c)
  end.

Fixpoint egress_run (ops : list egress_op) (s : egress_scheduler) (c : stream_channel)
    : option (list drop_cause * egress_scheduler * stream_channel) :=
  match ops with
  | [] => Some ([], s, c)
  | o :: ops => '(v, s, c) ← egress_step o s c; '(vs, s, c) ← egress_run ops s c; Some (v ++ vs, s, c)
  end.

Definition ref_step (cap : Z) (o : egress_op) (r : egress_ref) : list drop_cause * egress_ref :=
  match o with
  | Publish band cg f => let '(cause, r) := ref_publish cap band cg f r in ([cause], r)
  | WriteDone _ => ([], ref_complete r)
  end.

Fixpoint ref_run (cap : Z) (ops : list egress_op) (r : egress_ref) : list drop_cause * egress_ref :=
  match ops with
  | [] => ([], r)
  | o :: ops => let '(v, r) := ref_step cap o r in let '(vs, r) := ref_run cap ops r in (v ++ vs, r)
  end.

Definition op_ok (o : egress_op) : Prop :=
  match o with Publish band _ f => (band < k_egress_bands)%nat /\ frame_ok f | WriteDone _ => True end.

(** ** The channel keeps to the reference *)

Record window_of (cap : Z) (c : stream_channel) (r : egress_ref) : Prop := WindowOf {
  wo_open : c_open c = true;
  wo_plain : c_bootstrap c = plaintext_bootstrap;
  wo_key : c_scheduler_key c = 1;
  wo_queue_open : StreamQueue.m_open (StreamQueue.s_queue (c_egress c)) = true;
  wo_inv : StreamQueue.queue_inv cap StreamQueue.default_gather_limit (c_egress c);
  wo_bytes : StreamQueue.m_bytes (StreamQueue.s_queue (c_egress c)) <= Z.max cap (2 ^ 62);
  wo_window : StreamQueue.m_queue (StreamQueue.s_queue (c_egress c)) = er_window r;
  wo_frames : Forall frame_ok (er_window r);
  wo_flight : er_window r <> [] -> StreamQueue.m_in_flight (StreamQueue.s_queue (c_egress c)) = er_flight r;
  wo_taken : StreamQueue.s_accepted (c_egress c) = er_taken r;
  wo_written : StreamQueue.s_written (c_egress c) = er_written r;
  wo_lossless : c_dropped c = 0 /\ c_would_block c = 0;
}.

Lemma frame_ok_pos f : frame_ok f -> 0 < zlen f.
Proof. intros [Hl _]. unfold zlen, header_size in *. lia. Qed.

Lemma window_bytes_zero w : Forall frame_ok w -> queue_bytes w = 0 -> w = [].
Proof.
  destruct 1 as [|f w Hf _]; [done|]. rewrite queue_bytes_cons. pose proof (frame_ok_pos f Hf). pose proof (queue_bytes_nonneg w). lia.
Qed.

(** The scheduler's gate and the reference's window agree. *)
Lemma gate_is_room cap c r f : 0 < cap <= 2 ^ 62 -> window_of cap c r -> frame_ok f ->
  admits c (zlen f) = has_room cap (er_window r) f.
Proof.
  intros Hcap [_ _ _ _ Hi Hb Hw Hfr _ _ _ _] Hf. unfold admits, low_water_of. cbn. unfold StreamQueue.queued_bytes, StreamQueue.capacity.
  rewrite (StreamQueue.qi_cap _ _ _ Hi). pose proof (StreamQueue.qi_bytes _ _ _ Hi) as Hq. rewrite Hw in Hq.
  pose proof (queue_bytes_nonneg (er_window r)). pose proof (frame_ok_pos f Hf). destruct Hf as [_ Hf].
  rewrite wrap_small by (unfold in_width; lia). rewrite Hq. unfold has_room. destruct (er_window r) as [|f0 w] eqn:Ew; [done|].
  destruct (Z.eqb_spec (queue_bytes (f0 :: w)) 0) as [E|_]; [|done]. by apply window_bytes_zero in E.
Qed.

Lemma sending_iff cap c r : window_of cap c r ->
  StreamQueue.m_sending (StreamQueue.s_queue (c_egress c)) = match er_window r with [] => false | _ => true end.
Proof.
  intros [_ _ _ _ Hi _ Hw _ _ _ _ _]. destruct (StreamQueue.m_sending _) eqn:Es.
  - destruct (StreamQueue.qi_views _ _ _ Hi Es) as [_ Hfl]. rewrite Hw in Hfl. destruct (er_window r); [cbn in Hfl; lia|done].
  - rewrite <- Hw, (StreamQueue.qi_idle _ _ _ Hi Es). done.
Qed.

(** A frame that has room is taken, and written at once by an idle channel. *)
Lemma send_hands cap c r f bands : 0 < cap <= 2 ^ 62 -> window_of cap c r -> frame_ok f -> has_room cap (er_window r) f = true ->
  exists c', stream_send c f = Some c' /\ window_of cap c' (ref_hand f bands r).
Proof.
  intros Hcap Hc Hf Hroom. pose proof (sending_iff cap c r Hc) as Hsend. destruct Hc as [Ho Hp Hk Hqo Hi Hb Hw Hfr Hfl Ht Hwr Hls].
  unfold stream_send, submit. rewrite Ho, Hp. cbn [negb]. eexists. split; [done|]. unfold enqueue_egress.
  pose proof (StreamQueue.qi_bytes _ _ _ Hi) as Hq. rewrite Hw in Hq. pose proof (frame_ok_pos f Hf) as Hpos. pose proof Hf as [_ Hmax].
  pose proof (queue_bytes_nonneg (er_window r)).
  assert (StreamQueue.admits (StreamQueue.s_queue (c_egress c)) (zlen f) = true) as Ha.
  { unfold StreamQueue.admits. rewrite Hq, (StreamQueue.qi_cap _ _ _ Hi). unfold has_room in Hroom. destruct (er_window r); [done|].
    apply Z.leb_le in Hroom. apply orb_true_iff. right. apply andb_true_iff. rewrite Z.ltb_lt, Z.leb_le. lia. }
  destruct (StreamQueue.enqueue _ f) as [ [ok evs] q] eqn:He.
  assert (StreamQueue.session_inv cap StreamQueue.default_gather_limit (2 ^ 62)
    (StreamQueue.Session q (StreamQueue.s_writes (c_egress c) ++ StreamQueue.buffers evs) (StreamQueue.s_accepted (c_egress c) ++ if ok then [f] else [])
       (StreamQueue.s_written (c_egress c) ++ concat (StreamQueue.buffers evs)))) as Hinv.
  { eapply StreamQueue.enqueue_inv; try done; [unfold StreamQueue.default_gather_limit; lia|unfold in_width; lia..|]. unfold StreamQueue.session_inv. by rewrite Hqo. }
  unfold StreamQueue.enqueue in He. rewrite Ha in He. cbn [negb] in He. unfold StreamQueue.admit_node, StreamQueue.resume, StreamQueue.stash in He.
  cbn [StreamQueue.m_sending] in He. rewrite Hsend, Hw in He. unfold StreamQueue.session_inv in Hinv. cbn [StreamQueue.s_queue] in Hinv. unfold ref_hand.
  destruct (er_window r) as [|f0 w] eqn:Ew; cbn [negb] in He; unfold StreamQueue.drive in He;
    cbn [StreamQueue.m_queue StreamQueue.m_gather_limit] in He; rewrite ?(StreamQueue.qi_gather _ _ _ Hi) in He; rewrite Hqo in He; cbn in He; simplify_eq; cbn in Hinv;
    rewrite ?app_nil_r in Hinv; destruct Hinv as [Hinv Hbytes]; split; cbn; rewrite ?app_nil_r; try done; try (by rewrite ?Ht, ?Hwr, ?app_nil_r).
  - by constructor.
  - apply (Forall_app_2 _ (f0 :: w) [f]); [done|by constructor].
  - intros _. by apply Hfl.
Qed.

(** ** The bands keep to the reference *)

Lemma take_front_concat bands : concat bands = match take_front bands with Some (f, bands') => f :: concat bands' | None => [] end.
Proof.
  induction bands as [| [|f band] bands IH]; [done| |done]. cbn [take_front concat app]. rewrite IH.
  by destruct (take_front bands) as [ [f bands']|].
Qed.

Lemma has_work_front q : Forall Band.ok q -> BandQueue.has_work q = match take_front (BandQueue.backlog q) with Some _ => true | None => false end.
Proof.
  intros Hok. pose proof (BandQueue.has_work_spec q Hok) as Hw. rewrite take_front_concat in Hw.
  destruct (take_front (BandQueue.backlog q)) as [ [f bands']|]; [by apply Hw|]. destruct (BandQueue.has_work q); [|done]. by destruct (proj1 Hw eq_refl).
Qed.

Lemma front_pop_bands q f bands : Forall Band.ok q -> take_front (BandQueue.backlog q) = Some (f, bands) ->
  BandQueue.front_highest q = Some f /\
  exists q', BandQueue.pop_highest q = Some q' /\ Forall Band.ok q' /\ length q' = length q /\ BandQueue.backlog q' = bands.
Proof.
  intros Hok. revert bands. induction Hok as [|b q Hb Hq IH]; intros bands; [done|].
  cbn [BandQueue.backlog map take_front BandQueue.front_highest BandQueue.pop_highest]. pose proof (Band.contents_empty b Hb) as He.
  destruct (Band.contents b) as [|f' band] eqn:Eb.
  - rewrite (proj2 He eq_refl). cbn [negb]. fold (BandQueue.backlog q). destruct (take_front (BandQueue.backlog q)) as [ [f1 bands1]|]; [|done]. cbn [mbind option_bind].
    intros [= -> <-]. destruct (IH bands1 eq_refl) as (Hf & q' & -> & Hok' & Hl & Hbl). split; [done|]. eexists. split; [done|].
    split; [by constructor|]. split; [cbn; lia|]. cbn. rewrite Eb. f_equal. exact Hbl.
  - intros [= -> <-]. assert (Band.is_empty b = false) as -> by (destruct (Band.is_empty b); [by specialize (proj1 He eq_refl)|done]). cbn [negb].
    destruct (Band.pop_spec b f band Hb Eb) as (Hf & b' & -> & Hok' & Hc & _). split; [done|]. eexists. split; [done|].
    split; [by constructor|]. split; [done|]. cbn. by rewrite Hc.
Qed.

Lemma er_bands_hand f bands r : er_bands (ref_hand f bands r) = bands.
Proof. unfold ref_hand. by destruct (er_window r). Qed.

Lemma drain_fills_the_window cap fuel : 0 < cap <= 2 ^ 62 -> forall n q c r,
  window_of cap c r -> Forall Band.ok q -> BandQueue.backlog q = er_bands r -> Forall frame_ok (concat (er_bands r)) ->
  (length (concat (er_bands r)) <= n)%nat -> (length (concat (er_bands r)) < fuel)%nat ->
  exists q' c', drain_loop fuel q c = Some (q', c') /\ window_of cap c' (ref_drain n cap r) /\
    Forall Band.ok q' /\ length q' = length q /\ BandQueue.backlog q' = er_bands (ref_drain n cap r) /\
    Forall frame_ok (concat (er_bands (ref_drain n cap r))).
Proof.
  intros Hcap. induction fuel as [|fuel IH]; intros n q c r Hc Hok Hbl Hfr Hn Hlt; [lia|].
  cbn [drain_loop]. rewrite has_work_front, Hbl by done. pose proof (take_front_concat (er_bands r)) as Hcat.
  destruct (take_front (er_bands r)) as [ [f bands]|] eqn:Etf; cbn [negb].
  2:{ exists q, c. destruct n; cbn [ref_drain]; rewrite ?Etf; by split_and!. }
  destruct (front_pop_bands q f bands Hok) as (-> & q1 & Hpop & Hok1 & Hl1 & Hbl1); [by rewrite Hbl|].
  rewrite Hcat in Hfr, Hn, Hlt. cbn [length] in Hn, Hlt. apply Forall_cons in Hfr as [Hf Hfr].
  destruct n as [|n]; [lia|]. cbn [mbind option_bind ref_drain]. rewrite Etf. rewrite (gate_is_room cap c r f Hcap Hc Hf).
  destruct (has_room cap (er_window r) f) eqn:Er; cbn [negb].
  - destruct (send_hands cap c r f bands Hcap Hc Hf Er) as (c1 & Hs & Hc1). cbn. rewrite Hs. cbn [mbind option_bind]. rewrite Hpop.
    cbn [mbind option_bind]. destruct (IH n q1 c1 (ref_hand f bands r)) as (q' & c' & H1 & H2 & H3 & H4 & H5 & H6); rewrite ?er_bands_hand; try done; try lia.
    exists q', c'. split_and!; try done. congruence.
  - exists q, c. split_and!; try done. rewrite Hcat. by constructor.
Qed.

(** ** Each operation *)

Record egress_at (cap : Z) (s : egress_scheduler) (c : stream_channel) (r : egress_ref) : Prop := EgressAt {
  ea_channel : window_of cap c r;
  ea_queue : BandQueue.ok (queue_of s 1);
  ea_bands : bands_of s 1 = er_bands r;
  ea_frames : Forall frame_ok (concat (er_bands r));
}.

Lemma publish_refines cap s c r band cg f : 0 < cap <= 2 ^ 62 -> egress_at cap s c r -> (band < k_egress_bands)%nat -> frame_ok f ->
  exists s' c', enqueue s c band cg f = Some ((ref_publish cap band cg f r).1, s', c') /\ egress_at cap s' c' (ref_publish cap band cg f r).2.
Proof.
  intros Hcap [Hc Hq Hb Hfr] Hband Hf. unfold enqueue. cbn [can_poll stream_byte_channel negb scheduler_key]. rewrite (wo_key _ _ _ Hc).
  destruct (BandQueue.enqueue_with_verdict_spec (queue_of s 1) band cg f Hq Hband) as (l & q1 & Hl & -> & [Hlen1 Hok1] & Hbl).
  unfold bands_of in Hb. rewrite Hb in Hl, Hbl. unfold ref_publish. rewrite Hl. cbn [default from_option id mbind option_bind].
  destruct (Band.push_spec l cg f) as [cause l'] eqn:Ep. cbn [fst snd] in *. set (bands := <[band := l']> (er_bands r)) in *.
  assert (Forall frame_ok (concat bands)) as Hfr1.
  { eapply concat_insert_Forall; [exact Hfr|exact Hl|]. intros H. pose proof (push_spec_Forall l cg f H Hf) as Hp. by rewrite Ep in Hp. }
  unfold drain. cbn [scheduler_key stream_byte_channel]. rewrite (wo_key _ _ _ Hc).
  assert (queue_of (<[1 := q1]> s) 1 = q1) as -> by (unfold queue_of; by rewrite lookup_insert_eq).
  destruct (drain_fills_the_window cap (S (length (concat (BandQueue.backlog q1)))) Hcap (length (concat bands)) q1 c
    (EgressRef bands (er_window r) (er_flight r) (er_taken r) (er_written r))) as (q' & c' & -> & Hc' & Hok' & Hl' & Hbl' & Hfr'); cbn [er_bands]; try done.
  { by destruct Hc. }
  { rewrite Hbl. lia. }
  cbn [mbind option_bind]. eexists _, c'. split; [done|]. split; try done.
  - unfold queue_of. rewrite lookup_insert_eq. split; [cbn; lia|done].
  - unfold bands_of, queue_of. by rewrite lookup_insert_eq.
Qed.

Lemma complete_refines cap s c r ok : 0 < cap <= 2 ^ 62 -> egress_at cap s c r ->
  exists c', write_done ok c = Some c' /\ egress_at cap s c' (ref_complete r).
Proof.
  intros Hcap [Hc Hq Hb Hfr]. pose proof (sending_iff cap c r Hc) as Hsend. destruct Hc as [Ho Hp Hk Hqo Hi Hby Hw Hwf Hfl Ht Hwr Hls].
  unfold write_done. pose proof (StreamQueue.qi_writes _ _ _ Hi) as Hws. rewrite Hsend in Hws.
  destruct (er_window r) as [|f0 w] eqn:Ew.
  { rewrite Hws. exists c. split; [done|]. unfold ref_complete. rewrite Ew. split; try done. split; try done; by rewrite Ew. }
  rewrite Hws. specialize (Hfl ltac:(done)). pose proof (StreamQueue.qi_views _ _ _ Hi Hsend) as [_ Hin].
  destruct (StreamQueue.complete_inv cap StreamQueue.default_gather_limit (c_egress c) _ [] ok ltac:(unfold StreamQueue.default_gather_limit; lia) Hi Hqo Hws)
    as (evs & q & Hcp & Hqo' & Hq' & Hi').
  rewrite Hcp. cbn [mbind option_bind]. eexists. split; [done|]. unfold StreamQueue.complete in Hcp. rewrite Hqo in Hcp. cbn [negb] in Hcp.
  pose proof (StreamQueue.qi_bytes _ _ _ Hi) as Hqb.
  rewrite StreamQueue.pop_fronts_spec in Hcp by (first [apply Hin | apply Hi | done]). cbn [mbind option_bind] in Hcp.
  unfold StreamQueue.drive in Hcp. cbn [StreamQueue.m_queue StreamQueue.m_gather_limit] in Hcp. rewrite Hw, (StreamQueue.qi_gather _ _ _ Hi), Hfl in *.
  unfold ref_complete. rewrite Ew.
  assert (queue_bytes (drop (er_flight r) (f0 :: w)) <= queue_bytes (f0 :: w)) as Hle.
  { rewrite <- (take_drop (er_flight r) (f0 :: w)) at 2. rewrite queue_bytes_app. pose proof (queue_bytes_nonneg (take (er_flight r) (f0 :: w))). lia. }
  assert (StreamQueue.m_bytes q <= Z.max cap (2 ^ 62)) as Hbq.
  { pose proof (StreamQueue.qi_bytes _ _ _ Hi') as Hb'. cbn [StreamQueue.s_queue] in Hb'. rewrite Hq' in Hb'. rewrite Hqb in Hby. lia. }
  split; try done. destruct (drop (er_flight r) (f0 :: w)) as [|f1 w1] eqn:Ed; simplify_eq; split; cbn; try done;
    try (by rewrite ?Ht, ?Hwr, ?app_nil_r).
  rewrite <- Ed. by apply Forall_drop.
Qed.

Lemma egress_step_refines cap s c r o : 0 < cap <= 2 ^ 62 -> egress_at cap s c r -> op_ok o ->
  exists s' c', egress_step o s c = Some ((ref_step cap o r).1, s', c') /\ egress_at cap s' c' (ref_step cap o r).2.
Proof.
  intros Hcap Ha Ho. destruct o as [band cg f|ok]; cbn [egress_step ref_step].
  - destruct Ho as [Hb Hf]. destruct (publish_refines cap s c r band cg f Hcap Ha Hb Hf) as (s' & c' & -> & Ha').
    cbn [mbind option_bind]. destruct (ref_publish cap band cg f r). by exists s', c'.
  - destruct (complete_refines cap s c r ok Hcap Ha) as (c' & -> & Ha'). by exists s, c'.
Qed.

Lemma egress_run_refines cap ops : 0 < cap <= 2 ^ 62 -> forall s c r, egress_at cap s c r -> Forall op_ok ops ->
  exists s' c', egress_run ops s c = Some ((ref_run cap ops r).1, s', c') /\ egress_at cap s' c' (ref_run cap ops r).2.
Proof.
  intros Hcap. induction ops as [|o ops IH]; intros s c r Ha Hops; [by exists s, c|].
  inversion Hops as [|? ? Ho Hops']; subst. cbn [egress_run ref_run]. destruct (egress_step_refines cap s c r o Hcap Ha Ho) as (s1 & c1 & -> & Ha1).
  cbn [mbind option_bind]. destruct (ref_step cap o r) as [v r1]. cbn [fst snd] in *. destruct (IH s1 c1 r1 Ha1 Hops') as (s' & c' & -> & Ha').
  cbn [mbind option_bind]. destruct (ref_run cap ops r1) as [vs r']. by exists s', c'.
Qed.

(** C35: The egress path of an open plaintext stream channel is the reference: for every
    sequence of publications, in any bands and congestion modes, and write completions, the
    code returns and reports the reference's drop causes, its bands hold what the reference's
    hold, the channel has taken exactly the frames the reference hands over, in that order,
    and the socket has been given exactly the reference's writes, a prefix of them.  In the
    reference a frame enters its band under its congestion mode (appended while there is
    room; refused under [block] and [drop_newest]; in place of the oldest under
    [drop_oldest]) and the oldest frame of the highest non-empty band is handed over while
    the channel is idle or the bytes it holds and the frame's fit the cap; so a taken frame is
    never lost, repeated or overtaken by a lower band.  Assumed: a
    plaintext channel that stays open, with a cap of at most 2^62 bytes and the default gather
    limit, bands below four and frames with a header and at most 2^62 bytes; serial and
    type-erased channels do lose frames at the gate
    ([gate_misjudges_serial_and_erased_channels]). *)
Theorem egress_refines_priority_window cap ops : 0 < cap <= 2 ^ 62 -> Forall op_ok ops ->
  let '(causes, r) := ref_run cap ops ref_new in
  exists s c, egress_run ops ∅ (open_channel plaintext_bootstrap cap) = Some (causes, s, c) /\
    bands_of s 1 = er_bands r /\
    StreamQueue.s_accepted (c_egress c) = er_taken r /\ StreamQueue.s_written (c_egress c) = er_written r /\
    er_written r `prefix_of` er_taken r /\ c_dropped c = 0 /\ c_would_block c = 0.
Proof.
  intros Hcap Hops.
  assert (egress_at cap ∅ (open_channel plaintext_bootstrap cap) ref_new) as Ha.
  { destruct (scheduler_ok_empty 1) as [Hq _]. split; [|done|done|constructor]. split; try done. cbn. lia. }
  destruct (egress_run_refines cap ops Hcap _ _ _ Ha Hops) as (s & c & Hrun & Ha'). destruct (ref_run cap ops ref_new) as [causes r]. cbn [fst snd] in *.
  exists s, c. destruct Ha' as [Hc Hq Hb Hfr]. split; [done|]. split; [done|]. split; [apply Hc|]. split; [apply Hc|].
  rewrite <- (wo_taken _ _ _ Hc), <- (wo_written _ _ _ Hc). split; [by eapply StreamQueue.queue_inv_prefix, Hc|].
  apply Hc.
Qed.

(** A low band fills the 64-byte window, a high one overtakes what waits of it. *)
Definition overtaking : list egress_op :=
  [Publish 3 block (small_frame Byte.x01); Publish 3 block (small_frame Byte.x02); Publish 3 block (small_frame Byte.x03);
   Publish 0 block (small_frame Byte.x04); WriteDone true; Publish 3 block (small_frame Byte.x05)].

Lemma egress_refines_priority_window_witness :
  exists s c, egress_run overtaking ∅ (open_channel plaintext_bootstrap 64) = Some (replicate 5 dc_none, s, c) /\
    StreamQueue.s_accepted (c_egress c) = map small_frame [Byte.x01; Byte.x02; Byte.x04] /\
    bands_of s 1 = [ []; []; []; map small_frame [Byte.x03; Byte.x05] ].
Proof.
  pose proof (egress_refines_priority_window 64 overtaking ltac:(lia)) as H.
  replace (ref_run 64 overtaking ref_new) with
    (replicate 5 dc_none, EgressRef [ []; []; []; map small_frame [Byte.x03; Byte.x05] ] (map small_frame [Byte.x02; Byte.x04]) 1
       (map small_frame [Byte.x01; Byte.x02; Byte.x04]) (map small_frame [Byte.x01; Byte.x02])) in H by (by vm_compute).
  destruct H as (s & c & H1 & H2 & H3 & _).
  - repeat constructor; vm_compute; (lia || congruence).
  - exists s, c. split; [exact H1|]. split; [exact H3|exact H2].
Defined.
