(* ===== verification/Qos.v ===== *)
(** * Quality of service: what a subscriber requests and a publisher offers

    Models [subscriber_qos.h], [qos_rxo.h], [subscribe_qos_wire.h], [locality.h],
    [reliability.h], [reliability_requirement.h] and [dispatch_hint.h] of
    [lib/plexus-core/include/plexus/io/], and [topic_qos.h] beside them. *)

From S2P Require Import Prelude ByteOrder Varint Cursor Frame Control Fragmentation Egress.

(** ** Enumerations

    The values of [durability] and [delivery] are cast from untrusted bytes, so each is
    its underlying byte; [locality] and [dispatch_hint] are sets of bits. *)

Definition durability : Type := Z.
Definition dur_none : durability := 0.
Definition dur_latest : durability := 1.
Definition dur_all : durability := 2.

Definition delivery : Type := Z.
Definition delivery_push : delivery := 0.
Definition delivery_pull : delivery := 1.

Inductive rxo_mode : Type := rxo_permissive | rxo_strict.
Inductive attach_posture : Type := posture_lenient | posture_strict.
Inductive reliability : Type := best_effort | reliable.
Inductive reliability_requirement : Type := require_any | require_reliable.

#[global] Instance rxo_mode_eq_dec : EqDecision rxo_mode.
Proof. solve_decision. Defined.
#[global] Instance attach_posture_eq_dec : EqDecision attach_posture.
Proof. solve_decision. Defined.
#[global] Instance reliability_eq_dec : EqDecision reliability.
Proof. solve_decision. Defined.

Definition dispatch_hint : Type := Z.
Definition hint_none : dispatch_hint := 0.
Definition hint_frequent : dispatch_hint := 1.
Definition hint_large : dispatch_hint := 2.
Definition hint_priority : dispatch_hint := 4.

Definition hint_or (a b : dispatch_hint) : dispatch_hint := Z.lor a b.
Definition hint_and (a b : dispatch_hint) : dispatch_hint := Z.land a b.
Definition hint_any_set (h : dispatch_hint) : bool := negb (h =? 0).

Definition locality : Type := Z.
Definition loc_process : locality := 1.
Definition loc_local : locality := 2.
Definition loc_remote : locality := 4.
Definition loc_any : locality := 7.

Definition loc_or (a b : locality) : locality := Z.lor a b.
Definition loc_and (a b : locality) : locality := Z.land a b.

(** The complement within the three bits. *)
Definition loc_not (a : locality) : locality := Z.land (wrap 8 (Z.lnot a)) loc_any.

Definition any_set (mask tier : locality) : bool := negb (loc_and mask tier =? 0).

(** The schemes the code compares with, as byte strings. *)
Definition scheme_inproc : bytes := map byte.of_Z [105; 110; 112; 114; 111; 99].
Definition scheme_unix : bytes := map byte.of_Z [117; 110; 105; 120].
Definition scheme_udpr : bytes := map byte.of_Z [117; 100; 112; 114].
Definition scheme_tcp : bytes := map byte.of_Z [116; 99; 112].
Definition scheme_tls : bytes := map byte.of_Z [116; 108; 115].

Definition tier_of (scheme : bytes) : locality :=
  if decide (scheme = scheme_inproc) then loc_process
  else if decide (scheme = scheme_unix) then loc_local
  else loc_remote.

Definition scheme_is_reliable (scheme : bytes) : bool :=
  bool_decide (scheme = scheme_udpr) || bool_decide (scheme = scheme_tcp) || bool_decide (scheme = scheme_tls)
  || bool_decide (scheme = scheme_unix) || bool_decide (scheme = scheme_inproc).

(** ** The two sides *)

Record subscriber_qos : Type := SubscriberQos {
  durability_mode : durability;
  delivery_mode : delivery;
  replay_depth : Z;
  requires_source_identity : bool;
  requested_reliability_reliable : bool;
  requested_deadline_ns : Z;
  requested_lease_ns : Z;
  requested_priority : Z;
  requested_max_message_bytes : Z;
  rxo : rxo_mode;
  posture : attach_posture;
  wants_message_info : bool;
  sub_dispatch : dispatch_hint;
}.

Definition subscriber_qos_default : subscriber_qos :=
  SubscriberQos dur_none delivery_push 0 false false 0 0 0 0 rxo_permissive posture_lenient true hint_none.

#[global] Instance subscriber_qos_eq_dec : EqDecision subscriber_qos.
Proof. solve_decision. Defined.

Record topic_qos : Type := TopicQos {
  latch : bool;
  depth : Z;
  reach : locality;
  tq_reliability : reliability;
  tq_congestion : congestion;
  tq_priority : priority;
  tq_dispatch : dispatch_hint;
  max_message_bytes : Z;
  offered_deadline_ns : Z;
  offered_lease_ns : Z;
}.

Definition topic_qos_default : topic_qos :=
  TopicQos false 1 loc_any best_effort block prio_normal hint_none 0 0 0.

(** The value ranges of the fields. *)
Definition subscriber_qos_ok (q : subscriber_qos) : Prop :=
  in_width 8 (durability_mode q) /\ in_width 8 (delivery_mode q) /\ in_width 32 (replay_depth q) /\
  in_width 64 (requested_deadline_ns q) /\ in_width 64 (requested_lease_ns q) /\
  in_width 8 (requested_priority q) /\ in_width 32 (requested_max_message_bytes q).

(** ** Request versus offer *)

Definition reliability_compatible (offered : reliability) (requested_reliable : bool) : bool :=
  negb requested_reliable || bool_decide (offered = reliable).

Definition durability_compatible (offered_latch : bool) (requested : durability) : bool :=
  (requested =? dur_none) || offered_latch.

Definition deadline_compatible (offered_period requested_period : Z) : bool :=
  (offered_period =? 0) || (requested_period =? 0) || (offered_period <=? requested_period).

Definition lease_compatible (offered_lease requested_lease : Z) : bool :=
  (offered_lease =? 0) || (requested_lease =? 0) || (offered_lease <=? requested_lease).

Definition source_identity_compatible (offered_emit requires_sid : bool) : bool :=
  negb requires_sid || offered_emit.

Definition max_message_bytes_compatible (offered_effective_max requested_max : Z) : bool :=
  (requested_max =? 0) || (offered_effective_max <=? requested_max).

Definition k_rxo_field_reliability : Z := 0x01.
Definition k_rxo_field_durability : Z := 0x02.
Definition k_rxo_field_deadline : Z := 0x04.
Definition k_rxo_field_lease : Z := 0x08.
Definition k_rxo_field_max_message_bytes : Z := 0x10.

Inductive rxo_verdict : Type := compatible | degraded | incompatible_qos | source_identity_incompatible.

#[global] Instance rxo_verdict_eq_dec : EqDecision rxo_verdict.
Proof. solve_decision. Defined.

Record rxo_result : Type := RxoResult { verdict : rxo_verdict; degraded_fields : Z }.

Definition rxo_check (offered : topic_qos) (offers_source_identity : bool) (global_default : Z)
    (requested : subscriber_qos) : rxo_result :=
  if negb (source_identity_compatible offers_source_identity (requires_source_identity requested))
  then RxoResult source_identity_incompatible 0 else
  let bits := 0 in
  let bits := if negb (reliability_compatible (tq_reliability offered) (requested_reliability_reliable requested))
              then Z.lor bits k_rxo_field_reliability else bits in
  let bits := if negb (durability_compatible (latch offered) (durability_mode requested))
              then Z.lor bits k_rxo_field_durability else bits in
  let bits := if negb (deadline_compatible (offered_deadline_ns offered) (requested_deadline_ns requested))
              then Z.lor bits k_rxo_field_deadline else bits in
  let bits := if negb (lease_compatible (offered_lease_ns offered) (requested_lease_ns requested))
              then Z.lor bits k_rxo_field_lease else bits in
  let bits := if negb (max_message_bytes_compatible (effective_max (max_message_bytes offered) global_default)
                         (requested_max_message_bytes requested))
              then Z.lor bits k_rxo_field_max_message_bytes else bits in
  if bits =? 0 then RxoResult compatible 0
  else match rxo requested with
       | rxo_strict => RxoResult incompatible_qos bits
       | rxo_permissive => RxoResult degraded bits
       end.

(** ** The wire region *)

Definition to_wire_region (q : subscriber_qos) : subscribe_qos_region :=
  let flags := 0 in
  let flags := if requires_source_identity q then Z.lor flags k_qos_flag_requires_source_identity else flags in
  let flags := if requested_reliability_reliable q then Z.lor flags k_qos_flag_requested_reliable else flags in
  let flags := if decide (rxo q = rxo_strict) then Z.lor flags k_qos_flag_rxo_strict else flags in
  let flags := if decide (posture q = posture_strict) then Z.lor flags k_qos_flag_typed_strict else flags in
  SubscribeQosRegion (durability_mode q) (delivery_mode q) (replay_depth q) flags
    (requested_deadline_ns q) (requested_lease_ns q) (requested_priority q) (requested_max_message_bytes q).

Definition from_wire_region (r : subscribe_qos_region) : subscriber_qos :=
  let flag f := negb (Z.land (q_requested_flags r) f =? 0) in
  SubscriberQos (q_durability r) (q_delivery_mode r) (q_replay_depth r)
    (flag k_qos_flag_requires_source_identity) (flag k_qos_flag_requested_reliable)
    (q_requested_deadline_ns r) (q_requested_lease_ns r) (q_requested_priority r)
    (q_requested_max_message_bytes r)
    (if flag k_qos_flag_rxo_strict then rxo_strict else rxo_permissive)
    (if flag k_qos_flag_typed_strict then posture_strict else posture_lenient)
    true hint_none.

(** ** Lemmas *)

(** The fields of a request that travel: the two local ones are back at their default. *)
Definition wire_part (q : subscriber_qos) : subscriber_qos :=
  SubscriberQos (durability_mode q) (delivery_mode q) (replay_depth q) (requires_source_identity q)
    (requested_reliability_reliable q) (requested_deadline_ns q) (requested_lease_ns q)
    (requested_priority q) (requested_max_message_bytes q) (rxo q) (posture q) true hint_none.

Lemma from_to_wire_region q : from_wire_region (to_wire_region q) = wire_part q.
Proof.
  destruct q as [? ? ? sid rel ? ? ? ? mode post ? ?]. unfold from_wire_region, to_wire_region, wire_part. cbn.
  by destruct sid, rel, mode, post.
Qed.

Lemma to_wire_region_ok q : subscriber_qos_ok q -> qos_region_ok (to_wire_region q).
Proof.
  intros (H1 & H2 & H3 & H4 & H5 & H6 & H7). unfold qos_region_ok. cbn. split_and!; try done.
  destruct (requires_source_identity q), (requested_reliability_reliable q), (rxo q), (posture q); by vm_compute.
Qed.

(** The check reads only what travels. *)
Lemma rxo_check_wire_part offered sid gd q : rxo_check offered sid gd (wire_part q) = rxo_check offered sid gd q.
Proof. done. Qed.

(** The five soft fields with their bit numbers. *)
Definition soft_field (offered : topic_qos) (gd : Z) (q : subscriber_qos) (i : Z) : bool :=
  if i =? 0 then reliability_compatible (tq_reliability offered) (requested_reliability_reliable q)
  else if i =? 1 then durability_compatible (latch offered) (durability_mode q)
  else if i =? 2 then deadline_compatible (offered_deadline_ns offered) (requested_deadline_ns q)
  else if i =? 3 then lease_compatible (offered_lease_ns offered) (requested_lease_ns q)
  else if i =? 4 then max_message_bytes_compatible (effective_max (max_message_bytes offered) gd)
                        (requested_max_message_bytes q)
  else true.

(** Case analysis on the five relations, as opaque booleans. *)
Lemma rxo_check_fields offered sid gd q :
  source_identity_compatible sid (requires_source_identity q) = true ->
  let res := rxo_check offered sid gd q in
  (forall i, 0 <= i -> Z.testbit (degraded_fields res) i = negb (soft_field offered gd q i)) /\
  in_width 5 (degraded_fields res) /\
  verdict res = if degraded_fields res =? 0 then compatible
                else match rxo q with rxo_strict => incompatible_qos | rxo_permissive => degraded end.
Proof.
  intros Hs res. unfold res, rxo_check. rewrite Hs. cbn [negb]. unfold soft_field.
  set (b0 := reliability_compatible _ _). set (b1 := durability_compatible _ _).
  set (b2 := deadline_compatible _ _). set (b3 := lease_compatible _ _).
  set (b4 := max_message_bytes_compatible _ _).
  assert (forall i, 0 <= i -> i <> 0 -> i <> 1 -> i <> 2 -> i <> 3 -> i <> 4 -> 5 <= i) as Hi by lia.
  destruct b0, b1, b2, b3, b4, (rxo q); cbn -[Z.testbit];
    (split; [|by split; [|done]]); intros i Hi0;
    (destruct (Z.eqb_spec i 0) as [->|]; [reflexivity|]); (destruct (Z.eqb_spec i 1) as [->|]; [reflexivity|]);
    (destruct (Z.eqb_spec i 2) as [->|]; [reflexivity|]); (destruct (Z.eqb_spec i 3) as [->|]; [reflexivity|]);
    (destruct (Z.eqb_spec i 4) as [->|]; [reflexivity|]); cbn [negb];
    (apply (testbit_above 5); [by vm_compute|specialize (Hi i); lia]).
Qed.

(** An offer is at least as strong as another: reliable and latched where the other is,
    with periods no longer and messages no larger.  A period of 0 is not offered and
    compatible with every request, so it counts as the strongest. *)
Definition period_at_least (o o' : Z) : Prop := o' = 0 \/ (o <> 0 /\ o' <= o).

Definition offer_at_least (gd : Z) (o o' : topic_qos) : Prop :=
  (tq_reliability o = reliable -> tq_reliability o' = reliable) /\
  (latch o = true -> latch o' = true) /\
  period_at_least (offered_deadline_ns o) (offered_deadline_ns o') /\
  period_at_least (offered_lease_ns o) (offered_lease_ns o') /\
  effective_max (max_message_bytes o') gd <= effective_max (max_message_bytes o) gd.

Lemma period_compatible_mono o o' r :
  period_at_least o o' -> deadline_compatible o r = true -> deadline_compatible o' r = true.
Proof. unfold deadline_compatible, period_at_least. rewrite !orb_true_iff, !Z.eqb_eq, !Z.leb_le. lia. Qed.

Lemma soft_field_mono gd o o' q i :
  offer_at_least gd o o' -> soft_field o gd q i = true -> soft_field o' gd q i = true.
Proof.
  intros (Hr & Hl & Hd & He & Hm). unfold soft_field. repeat case_match; try done.
  - unfold reliability_compatible. rewrite !orb_true_iff, !bool_decide_eq_true. naive_solver.
  - unfold durability_compatible. rewrite !orb_true_iff. naive_solver.
  - by apply period_compatible_mono.
  - by apply (period_compatible_mono (offered_lease_ns o)).
  - unfold max_message_bytes_compatible. rewrite !orb_true_iff, !Z.eqb_eq, !Z.leb_le. lia.
Qed.

(** The request-versus-offer check is exact.  A request for source identity that is
    not offered is refused in either mode and nothing else decides that verdict;
    otherwise bit [i] of the reported fields is set exactly when relation [i] fails, the
    verdict is [compatible] exactly when none fails, and with some failing it is a refusal
    in the strict mode and an admission that names the fields in the permissive one.  A
    stronger offer never adds a failing field. *)
Theorem rxo_verdict_exact (offered : topic_qos) (sid : bool) (gd : Z) (q : subscriber_qos) :
  let res := rxo_check offered sid gd q in
  (verdict res = source_identity_incompatible <-> requires_source_identity q = true /\ sid = false) /\
  (verdict res = compatible <->
     (requires_source_identity q = true -> sid = true) /\ forall i, 0 <= i < 5 -> soft_field offered gd q i = true) /\
  (verdict res <> source_identity_incompatible -> verdict res <> compatible ->
     verdict res = match rxo q with rxo_strict => incompatible_qos | rxo_permissive => degraded end) /\
  (verdict res <> source_identity_incompatible ->
     forall i, 0 <= i -> Z.testbit (degraded_fields res) i = negb (soft_field offered gd q i)) /\
  (forall offered', offer_at_least gd offered offered' ->
     forall i, 0 <= i -> Z.testbit (degraded_fields (rxo_check offered' sid gd q)) i = true ->
       Z.testbit (degraded_fields res) i = true).
Proof.
  intros res. destruct (source_identity_compatible sid (requires_source_identity q)) eqn:Es.
  - destruct (rxo_check_fields offered sid gd q Es) as (Hb & Hw & Hv). fold res in Hb, Hw, Hv.
    assert (requires_source_identity q = true -> sid = true) as Hsid
      by (unfold source_identity_compatible in Es; destruct (requires_source_identity q); simpl in Es; naive_solver).
    assert (degraded_fields res = 0 <-> forall i, 0 <= i < 5 -> soft_field offered gd q i = true) as Hz.
    { split.
      - intros E i Hi. specialize (Hb i ltac:(lia)). rewrite E, Z.bits_0 in Hb. by destruct (soft_field _ _ _ _).
      - intros H. apply Z.bits_inj'. intros i Hi. rewrite Z.bits_0. destruct (decide (i < 5)).
        + rewrite Hb, H by lia. done.
        + apply (testbit_above 5); [done|lia]. }
    split_and!.
    + rewrite Hv. destruct (_ =? _), (rxo q); split; intros H; try done; destruct H as [H ->]; by specialize (Hsid H).
    + rewrite <- Hz, Hv. destruct (Z.eqb_spec (degraded_fields res) 0), (rxo q); naive_solver.
    + rewrite Hv. by destruct (_ =? _), (rxo q).
    + intros _. exact Hb.
    + intros offered' Hof i Hi Ht. destruct (rxo_check_fields offered' sid gd q Es) as (Hb' & _ & _).
      rewrite Hb' in Ht by done. rewrite Hb by done. destruct (soft_field offered gd q i) eqn:E; [|done].
      by rewrite (soft_field_mono gd offered offered' q i Hof E) in Ht.
  - assert (forall o, rxo_check o sid gd q = RxoResult source_identity_incompatible 0) as E
      by (intros o; unfold rxo_check; by rewrite Es).
    assert (requires_source_identity q = true /\ sid = false) as [Hr ->]
      by (unfold source_identity_compatible in Es; by destruct (requires_source_identity q), sid).
    unfold res. rewrite E, Hr. cbn. split_and!; try done; [naive_solver|]. intros o' _ i _. by rewrite E.
Qed.
