(* ===== verification/History.v ===== *)
(** * The retained frames of a topic and the reference counts of subscriptions

    Models [history_ring.h] (module [Ring]) and [keyed_refcount.h] (module [Refcount]) of
    [lib/plexus-core/include/plexus/io/detail/]. *)

From S2P Require Import Prelude Egress.

(** Byte strings are the keys of the maps. *)
#[global] Instance byte_countable : Countable Init.Byte.byte.
Proof.
  refine (inj_countable' byte.unsigned byte.of_Z _). intros b. apply byte.of_Z_unsigned.
Defined.

(** ** [class history_ring] *)

Module Ring.

(** [m_head] and [m_count] are [std::size_t]. *)
Record history_ring : Type := HistoryRing {
  m_slots : list bytes;
  m_head : Z;
  m_count : Z;
}.

Definition history_ring_new : history_ring := HistoryRing [] 0 0.

Definition resize_to (r : history_ring) (capacity : Z) : history_ring :=
  let n := if capacity =? 0 then 1 else capacity in
  if negb (zlen (m_slots r) =? n)
  then HistoryRing (vresize [] (Z.to_nat n) (m_slots r)) (m_head r) (m_count r) else r.

(** [m_slots[i]]; [None] out of range. *)
Definition slot (r : history_ring) (i : Z) : option bytes := m_slots r !! Z.to_nat i.

Definition push (r : history_ring) (frame : bytes) : option history_ring :=
  _ ← slot r (m_head r);
  let n := zlen (m_slots r) in
  Some (HistoryRing (<[Z.to_nat (m_head r) := frame]> (m_slots r))
          (wrap 64 (m_head r + 1) mod n) (Z.min (wrap 64 (m_count r + 1)) n)).

Definition empty (r : history_ring) : bool := m_count r =? 0.
Definition count (r : history_ring) : Z := m_count r.
Definition capacity (r : history_ring) : Z := zlen (m_slots r).

(** The index of a ring without slots is a division by zero; so is the slot. *)
Definition newest (r : history_ring) : option bytes :=
  slot r (wrap 64 (m_head r + zlen (m_slots r) - 1) mod zlen (m_slots r)).

Definition oldest_to_newest (r : history_ring) (i : Z) : option bytes :=
  slot r (wrap 64 (m_head r + zlen (m_slots r) - m_count r + i) mod zlen (m_slots r)).

(** *** The ring as a list, oldest first *)

(** A ring that has had the depth [n] since its first frame, holding [fs]. *)
Record holds (n : nat) (r : history_ring) (fs : list bytes) : Prop := Holds {
  h_depth : (0 < n)%nat /\ Z.of_nat n <= 2 ^ 62;
  h_slots : length (m_slots r) = n;
  h_head : 0 <= m_head r < Z.of_nat n;
  h_count : m_count r = zlen fs /\ zlen fs <= Z.of_nat n;
  h_frames : forall i f, fs !! i = Some f ->
    m_slots r !! ((Z.to_nat (m_head r) + (n - length fs) + i) mod n)%nat = Some f;
}.

Lemma ring_holds_new n : (0 < n)%nat -> Z.of_nat n <= 2 ^ 62 ->
  holds n (resize_to history_ring_new (Z.of_nat n)) [].
Proof.
  intros H0 Hn. unfold resize_to. cbn [m_slots history_ring_new].
  destruct (Z.eqb_spec (Z.of_nat n) 0); [lia|]. change (zlen []) with 0.
  destruct (Z.eqb_spec 0 (Z.of_nat n)); [lia|]. cbn [negb]. split; cbn.
  - lia.
  - rewrite length_vresize. lia.
  - lia.
  - change (zlen []) with 0. lia.
  - intros i f. by rewrite lookup_nil.
Qed.

Lemma resize_holds n r fs : holds n r fs -> resize_to r (Z.of_nat n) = r.
Proof.
  intros H. unfold resize_to. rewrite <- (h_slots _ _ _ H). change (Z.of_nat (length (m_slots r))) with (zlen (m_slots r)).
  destruct (h_depth _ _ _ H) as [H0 _]. rewrite <- (h_slots _ _ _ H) in H0. unfold zlen.
  destruct (Z.eqb_spec (Z.of_nat (length (m_slots r))) 0); [lia|]. by rewrite Z.eqb_refl.
Qed.

(** A push keeps the last [n] frames. *)
Lemma push_holds n r fs f :
  holds n r fs -> exists r', push r f = Some r' /\ holds n r' (drop (length fs + 1 - n) (fs ++ [f])).
Proof.
  intros [[H0 Hn] Hs Hh [Hc Hl] Hf]. unfold push, slot.
  destruct (lookup_lt_is_Some_2 (m_slots r) (Z.to_nat (m_head r))) as [x Hx]; [lia|]. rewrite Hx.
  cbn [mbind option_bind]. eexists. split; [done|]. unfold zlen in *. rewrite Hs, Hc.
  rewrite (wrap_small 64 (m_head r + 1)), (wrap_small 64 (_ + 1)) by (unfold in_width; lia).
  set (l := drop (length fs + 1 - n) (fs ++ [f])).
  assert (length l = Nat.min (length fs + 1) n) as Hlen by (unfold l; rewrite length_drop, length_app; simpl; lia).
  assert (Z.to_nat ((m_head r + 1) mod Z.of_nat n) = ((Z.to_nat (m_head r) + 1) mod n)%nat) as Hmod.
  { rewrite Z2Nat.inj_mod by lia. rewrite Z2Nat.inj_add by lia. by rewrite Nat2Z.id. }
  split; cbn [m_slots m_head m_count].
  - done.
  - by rewrite length_insert.
  - apply Z.mod_pos_bound. lia.
  - unfold zlen. rewrite Hlen. lia.
  - intros i g Hg. rewrite Hmod, Hlen.
    rewrite <- Nat.add_assoc, Nat.Div0.add_mod_idemp_l.
    unfold l in Hg. rewrite lookup_drop in Hg.
    set (h := Z.to_nat (m_head r)) in *. set (k := (length fs + 1 - n + i)%nat) in *.
    assert (h + 1 + (n - Nat.min (length fs + 1) n + i) = h + (n - length fs) + k)%nat as Ei by (unfold k; lia).
    rewrite Ei. apply lookup_app_Some in Hg as [Hg|[Hk Hg]].
    + rewrite list_lookup_insert_ne; [by apply Hf|]. intros E. apply lookup_lt_Some in Hg.
      apply (ring_index_ne n h 0 (n - length fs + k)); [unfold k in *; lia|].
      rewrite Nat.add_assoc, <- E, Nat.add_0_r, Nat.mod_small by lia. done.
    + assert (k - length fs = 0)%nat as E0 by (apply lookup_lt_Some in Hg; simpl in Hg; lia).
      rewrite E0 in Hg. injection Hg as <-.
      assert (h + (n - length fs) + k = h + 1 * n)%nat as -> by (unfold k in *; lia).
      rewrite Nat.Div0.mod_add, Nat.mod_small by lia. apply list_lookup_insert_eq. lia.
Qed.

Lemma oldest_to_newest_holds n r fs (i : nat) :
  holds n r fs -> (i < length fs)%nat -> oldest_to_newest r (Z.of_nat i) = fs !! i.
Proof.
  intros [[H0 Hn] Hs Hh [Hc Hl] Hf] Hi. destruct (lookup_lt_is_Some_2 fs i Hi) as [f Ef].
  unfold oldest_to_newest, slot, zlen in *. rewrite Hs, Hc, Ef, <- (Hf i f Ef). f_equal.
  rewrite wrap_small by (unfold in_width; lia). rewrite Z2Nat.inj_mod by lia. rewrite Nat2Z.id. f_equal. lia.
Qed.

Lemma newest_holds n r fs : holds n r fs -> fs <> [] -> newest r = last fs.
Proof.
  intros H Hne. rewrite last_lookup, <- (oldest_to_newest_holds n r fs); [|done|].
  2:{ assert (length fs <> 0%nat) by (by rewrite length_zero_iff_nil). lia. }
  destruct H as [[H0 Hn] Hs Hh [Hc Hl] _]. unfold newest, oldest_to_newest, zlen in *. rewrite Hs, Hc.
  do 3 f_equal. assert (length fs <> 0%nat) by (by rewrite length_zero_iff_nil). lia.
Qed.

(** The frames a ring of depth [n] holds after [fs] have been pushed. *)
Definition last_frames (n : nat) (fs : list bytes) : list bytes := drop (length fs - n) fs.

Lemma last_frames_snoc n fs f : (0 < n)%nat ->
  last_frames n (fs ++ [f]) = drop (length (last_frames n fs) + 1 - n) (last_frames n fs ++ [f]).
Proof.
  intros Hn. unfold last_frames. rewrite length_app, length_drop. simpl.
  destruct (Nat.le_gt_cases (length fs + 1) n) as [Hle|Hgt].
  - replace (length fs - n)%nat with 0%nat by lia. rewrite !drop_0. f_equal. lia.
  - rewrite <- drop_app_le by lia. rewrite drop_drop. f_equal. lia.
Qed.

Definition push_all (r : history_ring) (n : Z) (fs : list bytes) : option history_ring :=
  foldl (fun r f => r ← r; push (resize_to r n) f) (Some r) fs.

Lemma push_all_holds n fs :
  (0 < n)%nat -> Z.of_nat n <= 2 ^ 62 -> fs <> [] ->
  exists r, push_all history_ring_new (Z.of_nat n) fs = Some r /\ holds n r (last_frames n fs).
Proof.
  intros H0 Hn. induction fs as [|f fs IH] using rev_ind; [done|intros _]. unfold push_all. rewrite foldl_app. cbn [foldl].
  destruct (decide (fs = [])) as [->|Hne].
  - cbn [foldl mbind option_bind app]. destruct (push_holds n (resize_to history_ring_new (Z.of_nat n)) [] f) as (r & -> & Hr);
      [by apply ring_holds_new|]. exists r. split; [done|]. unfold last_frames. simpl in *.
    by replace (1 - n)%nat with 0%nat in * by lia.
  - destruct (IH Hne) as (r & Hr & Hh). unfold push_all in Hr. rewrite Hr. cbn [mbind option_bind].
    rewrite (resize_holds n r _ Hh). destruct (push_holds n r _ f Hh) as (r' & -> & Hr'). exists r'. split; [done|].
    by rewrite last_frames_snoc.
Qed.

(** A ring that is brought to one depth before every frame keeps exactly the last
    [depth] frames: it never indexes out of its slots, its count is the number held,
    the newest frame is the last one pushed and the [i]-th oldest is the [i]-th of them. *)
Theorem ring_keeps_last_frames (n : nat) (fs : list bytes) :
  (0 < n)%nat -> Z.of_nat n <= 2 ^ 62 -> fs <> [] ->
  exists r, push_all history_ring_new (Z.of_nat n) fs = Some r /\
    empty r = false /\ count r = zlen (last_frames n fs) /\ newest r = last fs /\
    forall i, (i < length (last_frames n fs))%nat -> oldest_to_newest r (Z.of_nat i) = last_frames n fs !! i.
Proof.
  intros H0 Hn Hne. destruct (push_all_holds n fs H0 Hn Hne) as (r & Hr & Hh).
  assert (length fs <> 0%nat) as Hl by (by rewrite length_zero_iff_nil).
  assert (last_frames n fs <> []) as Hne'.
  { rewrite <- length_zero_iff_nil. unfold last_frames. rewrite length_drop. lia. }
  exists r. split; [done|]. destruct (h_count _ _ _ Hh) as [Hc _]. split_and!.
  - unfold empty. rewrite Hc. apply Z.eqb_neq. rewrite <- length_zero_iff_nil in Hne'. unfold zlen. lia.
  - done.
  - rewrite (newest_holds n r _ Hh Hne'). unfold last_frames.
    rewrite !last_lookup, lookup_drop, length_drop. f_equal. lia.
  - intros i Hi. by apply (oldest_to_newest_holds n).
Qed.

Lemma ring_keeps_last_frames_witness :
  exists r, push_all history_ring_new 2 [[Byte.x01]; [Byte.x02]; [Byte.x03]] = Some r /\
    newest r = Some [Byte.x03] /\ oldest_to_newest r 0 = Some [Byte.x02].
Proof.
  destruct (ring_keeps_last_frames 2 [[Byte.x01]; [Byte.x02]; [Byte.x03]]) as (r & Hr & _ & _ & Hn & Ho);
    [lia|lia|done|].
  exists r. split; [exact Hr|]. split; [exact Hn|]. apply (Ho 0%nat). vm_compute. lia.
Defined.

(** The depth of a ring that holds frames must not change.  Shrinking leaves the head
    past the slots, so that the next push writes out of bounds; growing a full ring makes
    the replayed window begin with slots that were never written. *)
Theorem resize_of_used_ring_breaks_it :
  (exists r, push_all history_ring_new 4 [[Byte.x01]; [Byte.x02]; [Byte.x03]] = Some r /\
     push (resize_to r 2) [Byte.x04] = None) /\
  (exists r r', push_all history_ring_new 2 [[Byte.x01]; [Byte.x02]] = Some r /\
     push (resize_to r 4) [Byte.x03] = Some r' /\ count r' = 3 /\
     oldest_to_newest r' 0 = Some [] /\ oldest_to_newest r' 1 = Some []).
Proof.
  split.
  - eexists. split; [vm_compute; reflexivity|]. vm_compute. reflexivity.
  - do 2 eexists. split; [vm_compute; reflexivity|]. split; [vm_compute; reflexivity|]. split_and!; reflexivity.
Qed.

End Ring.

(** ** [class keyed_refcount] *)

Module Refcount.

Abbreviation keyed_refcount := (gmap bytes (gmap bytes Z)).

Definition k_no_entry : Z := 2 ^ 32 - 1.

(** The inner map of a key; the subscript creates a missing one. *)
Definition inner_of (r : keyed_refcount) (k1 : bytes) : gmap bytes Z := default ∅ (r !! k1).

Definition bump (r : keyed_refcount) (k1 k2 : bytes) : Z * keyed_refcount :=
  let inner := inner_of r k1 in
  let n := wrap 32 (default 0 (inner !! k2) + 1) in
  (n, <[k1 := <[k2 := n]> inner]> r).

Definition drop_ref (r : keyed_refcount) (k1 k2 : bytes) : Z * keyed_refcount :=
  match r !! k1 with
  | None => (k_no_entry, r)
  | Some inner =>
      match inner !! k2 with
      | None => (k_no_entry, r)
      | Some n =>
          let remaining := wrap 32 (n - 1) in
          if remaining =? 0 then
            let inner := delete k2 inner in
            (remaining, if decide (inner = ∅) then delete k1 r else <[k1 := inner]> r)
          else (remaining, <[k1 := <[k2 := remaining]> inner]> r)
      end
  end.

Definition holds (r : keyed_refcount) (k1 k2 : bytes) : bool :=
  match r !! k1 with
  | None => false
  | Some inner => match inner !! k2 with None => false | Some n => n >? 0 end
  end.

Definition forget (r : keyed_refcount) (k1 : bytes) : keyed_refcount := delete k1 r.

(** *** The counts *)

Definition count_of (r : keyed_refcount) (k1 k2 : bytes) : Z := default 0 (inner_of r k1 !! k2).

(** Only positive 32-bit counts and no empty inner map are stored. *)
Definition ok (r : keyed_refcount) : Prop :=
  forall k1 inner, r !! k1 = Some inner ->
    inner <> ∅ /\ forall k2 n, inner !! k2 = Some n -> 0 < n < 2 ^ 32.

Lemma ok_empty : ok ∅.
Proof. intros k1 inner. by rewrite lookup_empty. Qed.

Lemma count_range r k1 k2 : ok r -> 0 <= count_of r k1 k2 < 2 ^ 32.
Proof.
  intros Hok. unfold count_of, inner_of. destruct (r !! k1) as [inner|] eqn:E; cbn [from_option id]; [|rewrite lookup_empty; cbn [from_option id]; lia].
  destruct (inner !! k2) as [n|] eqn:En; cbn [from_option id]; [|lia]. destruct (Hok _ _ E) as [_ H]. specialize (H _ _ En). lia.
Qed.

Lemma inner_of_insert r k1 inner k :
  inner_of (<[k1 := inner]> r) k = if decide (k = k1) then inner else inner_of r k.
Proof.
  unfold inner_of. case_decide as E; [subst; by rewrite lookup_insert_eq|by rewrite lookup_insert_ne].
Qed.

Lemma inner_of_delete r k1 k : inner_of (delete k1 r) k = if decide (k = k1) then ∅ else inner_of r k.
Proof.
  unfold inner_of. case_decide as E; [subst; by rewrite lookup_delete_eq|by rewrite lookup_delete_ne].
Qed.

(** The table of counts with one entry set. *)
Definition set_count (c : bytes -> bytes -> Z) (k1 k2 : bytes) (n : Z) : bytes -> bytes -> Z :=
  fun a b => if decide (a = k1 /\ b = k2) then n else c a b.

Lemma count_insert r k1 k2 n a b :
  count_of (<[k1 := <[k2 := n]> (inner_of r k1)]> r) a b = set_count (count_of r) k1 k2 n a b.
Proof.
  unfold count_of, set_count. rewrite inner_of_insert.
  destruct (decide (a = k1)) as [->|]; [|by rewrite decide_False by tauto].
  destruct (decide (b = k2)) as [->|].
  - by rewrite lookup_insert_eq, decide_True.
  - rewrite lookup_insert_ne by done. by rewrite decide_False by tauto.
Qed.

Lemma ok_insert r k1 k2 n : ok r -> 0 < n < 2 ^ 32 -> ok (<[k1 := <[k2 := n]> (inner_of r k1)]> r).
Proof.
  intros Hok Hn a inner. destruct (decide (a = k1)) as [->|]; [|rewrite lookup_insert_ne by done; apply Hok].
  rewrite lookup_insert_eq. intros [= <-]. split; [apply insert_non_empty|]. intros b m.
  destruct (decide (b = k2)) as [->|]; [rewrite lookup_insert_eq; naive_solver|]. rewrite lookup_insert_ne by done.
  unfold inner_of. destruct (r !! k1) as [i|] eqn:E; cbn [from_option id]; [|by rewrite lookup_empty].
  destruct (Hok _ _ E) as [_ H]. apply H.
Qed.

Lemma bump_spec r k1 k2 :
  ok r -> count_of r k1 k2 < 2 ^ 32 - 1 ->
  exists r', bump r k1 k2 = (count_of r k1 k2 + 1, r') /\ ok r' /\
    forall a b, count_of r' a b = set_count (count_of r) k1 k2 (count_of r k1 k2 + 1) a b.
Proof.
  intros Hok Hlt. pose proof (count_range r k1 k2 Hok) as Hr. unfold bump. fold (count_of r k1 k2).
  rewrite wrap_small by (unfold in_width; lia). eexists. split; [done|]. split.
  - apply ok_insert; [done|lia].
  - intros. apply count_insert.
Qed.

Lemma count_zero r k1 k2 : ok r ->
  count_of r k1 k2 = 0 <-> r !! k1 = None \/ exists inner, r !! k1 = Some inner /\ inner !! k2 = None.
Proof.
  intros Hok. unfold count_of, inner_of. destruct (r !! k1) as [inner|] eqn:E; cbn [from_option id].
  - destruct (Hok _ _ E) as [_ H]. destruct (inner !! k2) as [n|] eqn:En; cbn [from_option id]; [specialize (H _ _ En)|]; naive_solver lia.
  - rewrite lookup_empty. cbn [from_option id]. naive_solver.
Qed.

Lemma drop_spec r k1 k2 :
  ok r ->
  let n := count_of r k1 k2 in
  exists r', drop_ref r k1 k2 = (if n =? 0 then k_no_entry else n - 1, r') /\ ok r' /\
    forall a b, count_of r' a b = if n =? 0 then count_of r a b else set_count (count_of r) k1 k2 (n - 1) a b.
Proof.
  intros Hok n. unfold drop_ref. pose proof (count_zero r k1 k2 Hok) as Hz. fold n in Hz.
  destruct (Z.eqb_spec n 0) as [E0|Hn0].
  { apply Hz in E0 as [->|(inner & -> & ->)]; eauto. }
  destruct (r !! k1) as [inner|] eqn:E1; [|naive_solver]. destruct (inner !! k2) as [m|] eqn:E2; [|naive_solver].
  assert (m = n) as -> by (unfold n, count_of, inner_of; rewrite E1; cbn [from_option id]; by rewrite E2).
  destruct (Hok _ _ E1) as [_ Hm]. pose proof (Hm _ _ E2) as Hrange.
  assert (inner_of r k1 = inner) as Ein by (unfold inner_of; by rewrite E1).
  rewrite wrap_small by (unfold in_width; lia). destruct (Z.eqb_spec (n - 1) 0) as [E0|].
  2:{ eexists. split; [done|]. rewrite <- Ein. split; [apply ok_insert; [done|lia]|]. intros. apply count_insert. }
  eexists. split; [done|].
  assert (forall a b, default 0 ((if decide (a = k1) then delete k2 inner else inner_of r a) !! b)
            = set_count (count_of r) k1 k2 (n - 1) a b) as Hc.
  { intros a b. unfold set_count. destruct (decide (a = k1)) as [->|]; [|by rewrite decide_False by tauto].
    destruct (decide (b = k2)) as [->|]; [rewrite decide_True, lookup_delete_eq by done; cbn; lia|].
    rewrite decide_False by tauto. rewrite lookup_delete_ne by done. unfold count_of. by rewrite Ein. }
  case_decide as He.
  - split.
    + intros a i. destruct (decide (a = k1)) as [->|]; [by rewrite lookup_delete_eq|rewrite lookup_delete_ne by done; apply Hok].
    + intros a b. unfold count_of at 1. rewrite inner_of_delete, <- Hc. by rewrite He.
  - split.
    + intros a i. destruct (decide (a = k1)) as [->|]; [|rewrite lookup_insert_ne by done; apply Hok].
      rewrite lookup_insert_eq. intros [= <-]. split; [done|]. intros b m. rewrite lookup_delete_Some. naive_solver.
    + intros a b. unfold count_of at 1. by rewrite inner_of_insert, <- Hc.
Qed.

Lemma forget_spec r k1 :
  ok r -> ok (forget r k1) /\ forall a b, count_of (forget r k1) a b = if decide (a = k1) then 0 else count_of r a b.
Proof.
  intros Hok. split.
  - intros a i. unfold forget. rewrite lookup_delete_Some. intros [_ H]; exact (Hok a i H).
  - intros a b. unfold count_of, forget. rewrite inner_of_delete. case_decide; [by rewrite lookup_empty|done].
Qed.

Lemma holds_spec r k1 k2 : ok r -> holds r k1 k2 = (count_of r k1 k2 >? 0).
Proof.
  intros Hok. unfold holds, count_of, inner_of. destruct (r !! k1) as [inner|]; cbn [from_option id]; [|by rewrite lookup_empty].
  by destruct (inner !! k2).
Qed.

(** *** Sequences of operations against a table of counters *)

Inductive op : Type := OBump (k1 k2 : bytes) | ODrop (k1 k2 : bytes) | OForget (k1 : bytes).

Definition step (r : keyed_refcount) (o : op) : Z * keyed_refcount :=
  match o with
  | OBump k1 k2 => bump r k1 k2
  | ODrop k1 k2 => drop_ref r k1 k2
  | OForget k1 => (0, forget r k1)
  end.

Fixpoint run (r : keyed_refcount) (ops : list op) : list Z * keyed_refcount :=
  match ops with
  | [] => ([], r)
  | o :: ops => let '(x, r) := step r o in let '(xs, r) := run r ops in (x :: xs, r)
  end.

(** The reference: unbounded counters, one per pair. *)
Definition count_step (c : bytes -> bytes -> Z) (o : op) : Z * (bytes -> bytes -> Z) :=
  match o with
  | OBump k1 k2 => (c k1 k2 + 1, set_count c k1 k2 (c k1 k2 + 1))
  | ODrop k1 k2 => if c k1 k2 =? 0 then (k_no_entry, c) else (c k1 k2 - 1, set_count c k1 k2 (c k1 k2 - 1))
  | OForget k1 => (0, fun a b => if decide (a = k1) then 0 else c a b)
  end.

Fixpoint count_run (c : bytes -> bytes -> Z) (ops : list op) : list Z * (bytes -> bytes -> Z) :=
  match ops with
  | [] => ([], c)
  | o :: ops => let '(x, c) := count_step c o in let '(xs, c) := count_run c ops in (x :: xs, c)
  end.

Lemma step_counts r c o k :
  ok r -> (forall a b, count_of r a b = c a b) -> (forall a b, c a b <= k) -> 0 <= k < 2 ^ 32 - 1 ->
  (step r o).1 = (count_step c o).1 /\ ok (step r o).2 /\
  (forall a b, count_of (step r o).2 a b = (count_step c o).2 a b) /\ (forall a b, (count_step c o).2 a b <= k + 1).
Proof.
  intros Hok Hc Hk Hlt. destruct o as [k1 k2|k1 k2|k1]; cbn [step count_step].
  - pose proof (Hk k1 k2). destruct (bump_spec r k1 k2 Hok) as (r' & -> & Hok' & Hc'); [rewrite Hc; lia|].
    cbn [fst snd]. rewrite <- Hc. split_and!; try done.
    + intros a b. rewrite Hc'. unfold set_count. destruct (decide _); [done|apply Hc].
    + intros a b. unfold set_count. rewrite Hc. case_decide; [lia|]. pose proof (Hk a b). lia.
  - destruct (drop_spec r k1 k2 Hok) as (r' & -> & Hok' & Hc'). cbn [fst snd]. rewrite <- Hc.
    pose proof (count_range r k1 k2 Hok). destruct (count_of r k1 k2 =? 0); cbn [fst snd]; split_and!; try done.
    + intros a b. by rewrite Hc', Hc.
    + intros a b. pose proof (Hk a b). lia.
    + intros a b. rewrite Hc'. unfold set_count. destruct (decide _); [done|apply Hc].
    + intros a b. unfold set_count. pose proof (Hk a b). pose proof (Hk k1 k2). rewrite Hc. case_decide; lia.
  - destruct (forget_spec r k1 Hok) as [Hok' Hc']. cbn [fst snd]. split_and!; try done.
    + intros a b. rewrite Hc'. destruct (decide _); [done|apply Hc].
    + intros a b. pose proof (Hk a b). case_decide; lia.
Qed.

Lemma run_counts ops r c k :
  ok r -> (forall a b, count_of r a b = c a b) -> (forall a b, c a b <= k) -> 0 <= k -> k + zlen ops < 2 ^ 32 ->
  (run r ops).1 = (count_run c ops).1 /\ ok (run r ops).2 /\
  (forall a b, count_of (run r ops).2 a b = (count_run c ops).2 a b).
Proof.
  revert r c k. induction ops as [|o ops IH]; intros r c k Hok Hc Hk Hk0 Hlt; [done|]. cbn [run count_run].
  assert (zlen (o :: ops) = 1 + zlen ops) as El by (unfold zlen; simpl; lia). rewrite El in Hlt. pose proof (zlen_nonneg ops).
  destruct (step_counts r c o k Hok Hc Hk ltac:(lia)) as (H1 & H2 & H3 & H4).
  destruct (step r o) as [x r1], (count_step c o) as [x' c1]. cbn [fst snd] in *. subst x'.
  destruct (IH r1 c1 (k + 1) H2 H3 H4 ltac:(lia) ltac:(lia)) as (H5 & H6 & H7).
  destruct (run r1 ops), (count_run c1 ops). cbn [fst snd] in *. by subst.
Qed.

(** The nested reference-count table behaves as one unbounded counter per pair of
    keys: over any sequence of fewer than [2 ^ 32] operations every result is the
    counter's (the count after a bump, the remaining count after a drop, the missing-entry
    sentinel for a pair that is not held), and at the end a pair is held exactly when its
    counter is positive.  So a bump answers 1 exactly on the first hold and a drop answers 0
    exactly on the last release, whatever happens to other pairs in between. *)
Theorem refcount_counts_per_pair (ops : list op) :
  zlen ops < 2 ^ 32 ->
  (run ∅ ops).1 = (count_run (fun _ _ => 0) ops).1 /\
  forall a b, holds (run ∅ ops).2 a b = ((count_run (fun _ _ => 0) ops).2 a b >? 0).
Proof.
  intros Hlt. destruct (run_counts ops ∅ (fun _ _ => 0) 0 ok_empty) as (H1 & H2 & H3);
    [intros; unfold count_of, inner_of; by rewrite lookup_empty|done|lia|lia|].
  split; [done|]. intros a b. by rewrite holds_spec, H3.
Qed.

Definition sample_ops : list op :=
  [OBump [Byte.x01] []; OBump [Byte.x01] []; ODrop [Byte.x01] []; OBump [Byte.x02] []; ODrop [Byte.x01] [];
   ODrop [Byte.x01] [] ].

Lemma refcount_counts_per_pair_witness : (run ∅ sample_ops).1 = [1; 2; 1; 1; 0; k_no_entry].
Proof.
  assert (zlen sample_ops < 2 ^ 32) as H by (vm_compute; reflexivity).
  rewrite (proj1 (refcount_counts_per_pair sample_ops H)). vm_compute. reflexivity.
Defined.

End Refcount.
