(* ===== verification/Registry.v ===== *)
(** * The subscriber registry and the subscription endpoint

    Models [subscriber_registry.h], [subscription_endpoint.h] and
    [detail/subscriber_dispatch.h] of [lib/plexus-core/include/plexus/io/].

    A channel is referred to by its identity, the address the source compares; what it
    is made of is in the store of the forwarder that owns the registry.  The pointer
    [m_last_fqn] into a topic entry is the key of that entry, so that what it points to
    changes with the entry and dangles when the entry is gone. *)

From S2P Require Import Prelude ByteOrder Varint Cursor Frame Control Fragmentation Egress Qos History.

(** ** Data *)

Record subscriber : Type := Subscriber {
  s_tier : locality;
  s_node_name : bytes;
  s_sub_qos : subscriber_qos;
  s_type_id : option Z;
  s_channel : Z;
}.

Record band_drop_counters : Type := BandDropCounters {
  d_blocked : Z;
  d_dropped_oldest : Z;
  d_dropped_newest : Z;
}.

Record topic_entry : Type := TopicEntry {
  e_qos : topic_qos;
  e_fqn : bytes;
  e_emit_source_identity : bool;
  e_any_subscriber_wants_info : bool;
  e_producer_type_id : option Z;
  e_producer_type_name : bytes;
  e_producer_schema_hint : Z;
  e_endpoint_counter : option Z;
  e_subscribers : list subscriber;
  e_drops : list band_drop_counters;
}.

Definition topic_entry_default : topic_entry :=
  TopicEntry topic_qos_default [] false true None [] 0 None [] (replicate k_egress_bands (BandDropCounters 0 0 0)).

Definition set_fqn (e : topic_entry) (fqn : bytes) : topic_entry :=
  TopicEntry (e_qos e) fqn (e_emit_source_identity e) (e_any_subscriber_wants_info e) (e_producer_type_id e)
    (e_producer_type_name e) (e_producer_schema_hint e) (e_endpoint_counter e) (e_subscribers e) (e_drops e).

Definition set_subscribers (e : topic_entry) (wants : bool) (subs : list subscriber) : topic_entry :=
  TopicEntry (e_qos e) (e_fqn e) (e_emit_source_identity e) wants (e_producer_type_id e)
    (e_producer_type_name e) (e_producer_schema_hint e) (e_endpoint_counter e) subs (e_drops e).

Definition set_drops (e : topic_entry) (drops : list band_drop_counters) : topic_entry :=
  TopicEntry (e_qos e) (e_fqn e) (e_emit_source_identity e) (e_any_subscriber_wants_info e) (e_producer_type_id e)
    (e_producer_type_name e) (e_producer_schema_hint e) (e_endpoint_counter e) (e_subscribers e) drops.

(** ** [subscriber_dispatch.h] *)

Definition wants_info_of (subs : list subscriber) : bool :=
  match subs with [] => true | _ => existsb (fun s => wants_message_info (s_sub_qos s)) subs end.

Definition recompute_wants_info (e : topic_entry) : topic_entry :=
  set_subscribers e (wants_info_of (e_subscribers e)) (e_subscribers e).

Definition bump_band_drop (c : band_drop_counters) (cause : drop_cause) : band_drop_counters :=
  match cause with
  | dc_drop_oldest => BandDropCounters (d_blocked c) (wrap 64 (d_dropped_oldest c + 1)) (d_dropped_newest c)
  | dc_drop_newest => BandDropCounters (d_blocked c) (d_dropped_oldest c) (wrap 64 (d_dropped_newest c + 1))
  | dc_blocked => BandDropCounters (wrap 64 (d_blocked c + 1)) (d_dropped_oldest c) (d_dropped_newest c)
  | _ => c
  end.

Definition read_band_drop (c : band_drop_counters) (cause : drop_cause) : Z :=
  match cause with
  | dc_drop_oldest => d_dropped_oldest c
  | dc_drop_newest => d_dropped_newest c
  | dc_blocked => d_blocked c
  | _ => 0
  end.

Abbreviation topics := (gmap Z topic_entry).

(** [topics[topic_hash]], which creates a missing entry. *)
Definition entry_of (ts : topics) (h : Z) : topic_entry := default topic_entry_default (ts !! h).

(** The first name given to an entry stays. *)
Definition name_entry (e : topic_entry) (fqn : bytes) : topic_entry :=
  match e_fqn e with [] => set_fqn e fqn | _ => e end.

(** [scheme] is that of the channel's remote endpoint. *)
Definition add_topic_subscriber (ts : topics) (h : Z) (fqn : bytes) (channel : Z) (scheme node_name : bytes)
    (qos : subscriber_qos) (type_id : option Z) : topics :=
  let e := name_entry (entry_of ts h) fqn in
  if existsb (fun s => s_channel s =? channel) (e_subscribers e) then <[h := e]> ts else
  let sub := Subscriber (tier_of scheme) node_name qos type_id channel in
  <[h := recompute_wants_info (set_subscribers e (e_any_subscriber_wants_info e) (e_subscribers e ++ [sub]))]> ts.

Definition erase_channel (e : topic_entry) (channel : Z) : topic_entry :=
  recompute_wants_info (set_subscribers e (e_any_subscriber_wants_info e)
    (List.filter (fun s => negb (s_channel s =? channel)) (e_subscribers e))).

Definition remove_topic_subscriber (ts : topics) (h channel : Z) : topics :=
  match ts !! h with
  | None => ts
  | Some e => <[h := erase_channel e channel]> ts
  end.

Definition remove_peer_subscribers (ts : topics) (channel : Z) : topics := (fun e => erase_channel e channel) <$> ts.

(** ** [class subscriber_registry] *)

Record subscriber_registry : Type := SubscriberRegistry {
  m_topics : topics;
  m_last_fqn_hash : Z;
  m_last_fqn : option Z;
  m_refcount : Refcount.keyed_refcount;
  m_next_endpoint_counter : Z;
}.

Definition subscriber_registry_new : subscriber_registry := SubscriberRegistry ∅ 0 None ∅ 1.

Definition set_topics (r : subscriber_registry) (ts : topics) : subscriber_registry :=
  SubscriberRegistry ts (m_last_fqn_hash r) (m_last_fqn r) (m_refcount r) (m_next_endpoint_counter r).

Definition set_refcount (r : subscriber_registry) (c : Refcount.keyed_refcount) : subscriber_registry :=
  SubscriberRegistry (m_topics r) (m_last_fqn_hash r) (m_last_fqn r) c (m_next_endpoint_counter r).

Definition bump_refcount (r : subscriber_registry) (node_name fqn : bytes) : Z * subscriber_registry :=
  let '(n, c) := Refcount.bump (m_refcount r) node_name fqn in (n, set_refcount r c).

Definition drop_refcount (r : subscriber_registry) (node_name fqn : bytes) : Z * subscriber_registry :=
  let '(n, c) := Refcount.drop_ref (m_refcount r) node_name fqn in (n, set_refcount r c).

Definition add_subscriber (r : subscriber_registry) (h : Z) (fqn : bytes) (channel : Z) (scheme node_name : bytes)
    (qos : subscriber_qos) (type_id : option Z) : subscriber_registry :=
  set_topics r (add_topic_subscriber (m_topics r) h fqn channel scheme node_name qos type_id).

Definition qos_for_subscriber (r : subscriber_registry) (h channel : Z) : subscriber_qos :=
  match m_topics r !! h with
  | None => subscriber_qos_default
  | Some e =>
      match List.find (fun s => s_channel s =? channel) (e_subscribers e) with
      | Some s => s_sub_qos s
      | None => subscriber_qos_default
      end
  end.

Definition declare (r : subscriber_registry) (h : Z) (fqn : bytes) (qos : topic_qos) (producer_type_id : option Z)
    (emit_source_identity : bool) (producer_type_name : bytes) (schema_hint : Z) : subscriber_registry :=
  let e := name_entry (entry_of (m_topics r) h) fqn in
  let mint := emit_source_identity && match e_endpoint_counter e with None => true | Some _ => false end in
  let counter := if mint then Some (m_next_endpoint_counter r) else e_endpoint_counter e in
  let next := if mint then wrap 64 (m_next_endpoint_counter r + 1) else m_next_endpoint_counter r in
  SubscriberRegistry
    (<[h := TopicEntry qos (e_fqn e) emit_source_identity (e_any_subscriber_wants_info e) producer_type_id
              producer_type_name schema_hint counter (e_subscribers e) (e_drops e)]> (m_topics r))
    (m_last_fqn_hash r) (m_last_fqn r) (m_refcount r) next.

Definition qos_for (r : subscriber_registry) (h : Z) : topic_qos :=
  match m_topics r !! h with None => topic_qos_default | Some e => e_qos e end.

Definition producer_type_id (r : subscriber_registry) (h : Z) : option Z :=
  match m_topics r !! h with None => None | Some e => e_producer_type_id e end.

Definition offers_source_identity (r : subscriber_registry) (h : Z) : bool :=
  match m_topics r !! h with None => false | Some e => e_emit_source_identity e end.

Definition remove_subscriber (r : subscriber_registry) (h channel : Z) : subscriber_registry :=
  set_topics r (remove_topic_subscriber (m_topics r) h channel).

Definition remove_peer (r : subscriber_registry) (node_name : bytes) (channel : Z) : subscriber_registry :=
  set_refcount (set_topics r (remove_peer_subscribers (m_topics r) channel))
    (Refcount.forget (m_refcount r) node_name).

Definition entry_for (r : subscriber_registry) (h : Z) : option topic_entry := m_topics r !! h.

Definition any_subscriber_wants_info (r : subscriber_registry) (h : Z) : bool :=
  match m_topics r !! h with None => true | Some e => e_any_subscriber_wants_info e end.

Definition record_drop (r : subscriber_registry) (h : Z) (band : nat) (cause : drop_cause) : subscriber_registry :=
  if decide (cause = dc_none) then r else
  if decide (k_egress_bands <= band)%nat then r else
  match m_topics r !! h with
  | None => r
  | Some e => set_topics r (<[h := set_drops e (alter (fun c => bump_band_drop c cause) band (e_drops e))]> (m_topics r))
  end.

Definition dropped (r : subscriber_registry) (h : Z) (band : nat) (cause : drop_cause) : Z :=
  match m_topics r !! h with
  | None => 0
  | Some e => match e_drops e !! band with None => 0 | Some c => read_band_drop c cause end
  end.

(** [None] for a dangling memo. *)
Definition fqn_for (r : subscriber_registry) (h : Z) : option (bytes * subscriber_registry) :=
  match m_last_fqn r with
  | Some key =>
      if h =? m_last_fqn_hash r then e ← m_topics r !! key; Some (e_fqn e, r)
      else match m_topics r !! h with
           | None => Some ([], r)
           | Some e => Some (e_fqn e, SubscriberRegistry (m_topics r) h (Some h) (m_refcount r) (m_next_endpoint_counter r))
           end
  | None =>
      match m_topics r !! h with
      | None => Some ([], r)
      | Some e => Some (e_fqn e, SubscriberRegistry (m_topics r) h (Some h) (m_refcount r) (m_next_endpoint_counter r))
      end
  end.

(** ** The invariant *)

Record entry_ok (next : Z) (e : topic_entry) : Prop := EntryOk {
  eo_distinct : NoDup (map s_channel (e_subscribers e));
  eo_wants : e_any_subscriber_wants_info e = wants_info_of (e_subscribers e);
  eo_drops : length (e_drops e) = k_egress_bands;
  eo_emits : e_emit_source_identity e = true -> is_Some (e_endpoint_counter e);
  eo_minted : forall c, e_endpoint_counter e = Some c -> 0 < c < next;
}.

Record registry_ok (r : subscriber_registry) : Prop := RegistryOk {
  ro_entries : map_Forall (fun _ => entry_ok (m_next_endpoint_counter r)) (m_topics r);
  ro_next : 0 < m_next_endpoint_counter r;
  ro_unique : forall h h' e e' c, m_topics r !! h = Some e -> m_topics r !! h' = Some e' ->
    e_endpoint_counter e = Some c -> e_endpoint_counter e' = Some c -> h = h';
  ro_memo : forall key, m_last_fqn r = Some key -> key = m_last_fqn_hash r /\ is_Some (m_topics r !! key);
}.

Lemma registry_ok_new : registry_ok subscriber_registry_new.
Proof. split; [apply map_Forall_empty|done|intros h h' e e' c H; cbn in H; by rewrite lookup_empty in H|done]. Qed.

Lemma entry_ok_default next : entry_ok next topic_entry_default.
Proof. split; [constructor|done|done|done|done]. Qed.

Lemma entry_of_ok r h : registry_ok r -> entry_ok (m_next_endpoint_counter r) (entry_of (m_topics r) h).
Proof.
  intros H. unfold entry_of. destruct (m_topics r !! h) as [e|] eqn:E; [by apply (ro_entries r H h)|apply entry_ok_default].
Qed.

Lemma name_entry_fields e fqn :
  e_subscribers (name_entry e fqn) = e_subscribers e /\ e_endpoint_counter (name_entry e fqn) = e_endpoint_counter e /\
  e_any_subscriber_wants_info (name_entry e fqn) = e_any_subscriber_wants_info e /\
  e_drops (name_entry e fqn) = e_drops e /\ e_emit_source_identity (name_entry e fqn) = e_emit_source_identity e.
Proof. unfold name_entry. by destruct (e_fqn e). Qed.

Lemma name_entry_ok next e fqn : entry_ok next e -> entry_ok next (name_entry e fqn).
Proof.
  destruct (name_entry_fields e fqn) as (H1 & H2 & H3 & H4 & H5). intros [? ? ? ? ?].
  split; rewrite ?H1, ?H2, ?H3, ?H4, ?H5; done.
Qed.

(** An entry is replaced by one with the same counter. *)
Lemma registry_ok_replace r h e :
  registry_ok r -> entry_ok (m_next_endpoint_counter r) e ->
  e_endpoint_counter e = e_endpoint_counter (entry_of (m_topics r) h) ->
  registry_ok (set_topics r (<[h := e]> (m_topics r))).
Proof.
  intros Hr He Hc. split; cbn.
  - apply map_Forall_insert_2; [done|apply Hr].
  - apply Hr.
  - assert (forall a x c, <[h := e]> (m_topics r) !! a = Some x -> e_endpoint_counter x = Some c ->
              exists y, m_topics r !! a = Some y /\ e_endpoint_counter y = Some c) as Hold.
    { intros a x c Hx Hxc. destruct (decide (a = h)) as [->|].
      - rewrite lookup_insert_eq in Hx. simplify_eq. rewrite Hc in Hxc. unfold entry_of in Hxc.
        destruct (m_topics r !! h) as [y|]; [by exists y|done].
      - rewrite lookup_insert_ne in Hx by done. eauto. }
    intros a a' x x' c Hx Hx' Hxc Hxc'. destruct (Hold a x c Hx Hxc) as (y & Hy & Hyc).
    destruct (Hold a' x' c Hx' Hxc') as (y' & Hy' & Hyc'). by eapply (ro_unique r Hr).
  - intros key Hk. destruct (ro_memo r Hr key Hk) as [? ?]. split; [done|].
    destruct (decide (key = h)) as [->|]; [by rewrite lookup_insert_eq|by rewrite lookup_insert_ne].
Qed.

Lemma existsb_channel subs channel :
  existsb (fun s => s_channel s =? channel) subs = true <-> channel ∈ map s_channel subs.
Proof.
  rewrite existsb_exists, list_elem_of_In, in_map_iff. split; intros (s & H1 & H2); exists s; split; try done; lia.
Qed.

Lemma add_subscriber_ok r h fqn channel scheme node_name qos type_id :
  registry_ok r -> registry_ok (add_subscriber r h fqn channel scheme node_name qos type_id).
Proof.
  intros Hr. unfold add_subscriber, add_topic_subscriber. set (e := name_entry _ fqn).
  destruct (name_entry_fields (entry_of (m_topics r) h) fqn) as (_ & Hc & _). fold e in Hc.
  assert (entry_ok (m_next_endpoint_counter r) e) as He by (apply name_entry_ok, entry_of_ok, Hr).
  destruct (existsb _ _) eqn:Ex; [by apply registry_ok_replace|]. apply registry_ok_replace; [done| |done].
  destruct He as [Hd Hw Hl Hem Hm]. split; cbn; try done. rewrite map_app. apply NoDup_app. split; [done|].
  split; [|apply NoDup_singleton]. intros x Hx ->%list_elem_of_singleton. apply existsb_channel in Hx. cbn in Hx. congruence.
Qed.

Lemma erase_channel_subscribers e channel :
  e_subscribers (erase_channel e channel) = List.filter (fun s => negb (s_channel s =? channel)) (e_subscribers e).
Proof. done. Qed.

Lemma NoDup_map_filter (subs : list subscriber) p : NoDup (map s_channel subs) -> NoDup (map s_channel (List.filter p subs)).
Proof.
  intros H. induction subs as [|s subs IH]; [done|]. cbn in *. apply NoDup_cons in H as [Hn H]. destruct (p s); [|auto].
  cbn. apply NoDup_cons. split; [|auto]. intros Hin. apply Hn. apply list_elem_of_In in Hin. apply list_elem_of_In.
  apply in_map_iff in Hin as (x & Ex & Hin). apply filter_In in Hin as [Hin _]. rewrite <- Ex. by apply in_map.
Qed.

Lemma erase_channel_ok next e channel : entry_ok next e -> entry_ok next (erase_channel e channel).
Proof. intros [Hd Hw Hl Hem Hm]. split; cbn; try done. by apply NoDup_map_filter. Qed.

Lemma remove_subscriber_ok r h channel : registry_ok r -> registry_ok (remove_subscriber r h channel).
Proof.
  intros Hr. unfold remove_subscriber, remove_topic_subscriber. destruct (m_topics r !! h) as [e|] eqn:E; [|by destruct r].
  apply registry_ok_replace; [done|apply erase_channel_ok, (ro_entries r Hr h e E)|]. unfold entry_of. by rewrite E.
Qed.

Lemma remove_peer_ok r node_name channel : registry_ok r -> registry_ok (remove_peer r node_name channel).
Proof.
  intros Hr. unfold remove_peer, remove_peer_subscribers. split; cbn.
  - intros h e. rewrite lookup_fmap_Some. intros (e0 & <- & He0). apply erase_channel_ok, (ro_entries r Hr h e0 He0).
  - apply Hr.
  - intros h h' e e' c. rewrite !lookup_fmap_Some. intros (x & <- & Hx) (x' & <- & Hx') Hc Hc'. by eapply (ro_unique r Hr).
  - intros key Hk. destruct (ro_memo r Hr key Hk) as [-> [e He]]. rewrite lookup_fmap, He. eauto.
Qed.

Lemma record_drop_ok r h band cause : registry_ok r -> registry_ok (record_drop r h band cause).
Proof.
  intros Hr. unfold record_drop. repeat case_decide; try done. destruct (m_topics r !! h) as [e|] eqn:E; [|done].
  destruct (ro_entries r Hr h e E) as [Hd Hw Hl Hem Hm].
  apply registry_ok_replace; [done| |unfold entry_of; by rewrite E]. split; cbn; try done. by rewrite length_alter.
Qed.

Lemma declare_ok r h fqn qos tid emit name hint :
  registry_ok r -> m_next_endpoint_counter r < 2 ^ 64 - 1 -> registry_ok (declare r h fqn qos tid emit name hint).
Proof.
  intros Hr Hn. pose proof (ro_next r Hr) as Hpos. set (e := name_entry (entry_of (m_topics r) h) fqn).
  destruct (name_entry_fields (entry_of (m_topics r) h) fqn) as (_ & Hc & _). fold e in Hc.
  assert (entry_ok (m_next_endpoint_counter r) e) as [Hd Hw Hl Hem Hm] by (apply name_entry_ok, entry_of_ok, Hr).
  unfold declare. fold e. destruct emit; cbn [andb]; [destruct (e_endpoint_counter e) as [c0|] eqn:Ec|].
  - apply (registry_ok_replace r h); [done| |by cbn; rewrite <- Hc]. split; cbn; try done.
  - rewrite wrap_small by (unfold in_width; lia). split; cbn.
    + apply map_Forall_insert_2.
      * split; cbn; try done. intros c [= <-]. lia.
      * eapply map_Forall_impl; [apply (ro_entries r Hr)|]. intros k x [? ? ? ? Hx]. split; try done.
        intros c Hxc. specialize (Hx c Hxc). lia.
    + lia.
    + assert (forall a x, a <> h -> m_topics r !! a = Some x -> e_endpoint_counter x <> Some (m_next_endpoint_counter r)) as Hfresh.
      { intros a x _ Hx Hxc. destruct (ro_entries r Hr a x Hx) as [_ _ _ _ Hx']. specialize (Hx' _ Hxc). lia. }
      intros a a' x x' c. destruct (decide (a = h)) as [->|], (decide (a' = h)) as [->|]; try done;
        rewrite ?lookup_insert_eq, ?lookup_insert_ne by done.
      * intros [= <-] Hx' [= <-] Hc'. by eapply Hfresh in Hx'.
      * intros Hx [= <-] Hc' [= <-]. by eapply Hfresh in Hx.
      * by eapply (ro_unique r Hr).
    + intros key Hk. destruct (ro_memo r Hr key Hk) as [? ?]. split; [done|].
      destruct (decide (key = h)) as [->|]; [by rewrite lookup_insert_eq|by rewrite lookup_insert_ne].
  - apply (registry_ok_replace r h); [done| |done]. split; cbn; try done.
Qed.

(** The memoised resolution is the plain one. *)
Lemma fqn_for_spec r h :
  registry_ok r ->
  exists r', fqn_for r h = Some (match m_topics r !! h with Some e => e_fqn e | None => [] end, r') /\
    registry_ok r' /\ m_topics r' = m_topics r /\ m_refcount r' = m_refcount r /\
    m_next_endpoint_counter r' = m_next_endpoint_counter r.
Proof.
  intros Hr. pose proof Hr as [H1 H2 H3 H4].
  assert (forall e, m_topics r !! h = Some e -> registry_ok (SubscriberRegistry (m_topics r) h (Some h) (m_refcount r)
            (m_next_endpoint_counter r))) as Hset.
  { intros e He. split; cbn; try done. intros key [= <-]. by rewrite He. }
  unfold fqn_for. destruct (m_last_fqn r) as [key|] eqn:Em.
  - destruct (H4 key eq_refl) as [-> [e He]]. destruct (Z.eqb_spec h (m_last_fqn_hash r)) as [->|].
    + rewrite He. cbn [mbind option_bind]. by exists r.
    + destruct (m_topics r !! h) as [e'|] eqn:E; [|by exists r]. eexists. split; [done|]. by split; [eapply Hset|].
  - destruct (m_topics r !! h) as [e'|] eqn:E; [|by exists r]. eexists. split; [done|]. by split; [eapply Hset|].
Qed.

(** ** Reachable registries *)

Inductive registry_step (r : subscriber_registry) : subscriber_registry -> Prop :=
| step_bump node_name fqn : registry_step r (bump_refcount r node_name fqn).2
| step_drop node_name fqn : registry_step r (drop_refcount r node_name fqn).2
| step_add h fqn channel scheme node_name qos type_id :
    registry_step r (add_subscriber r h fqn channel scheme node_name qos type_id)
| step_declare h fqn qos tid emit name hint :
    m_next_endpoint_counter r < 2 ^ 64 - 1 -> registry_step r (declare r h fqn qos tid emit name hint)
| step_remove h channel : registry_step r (remove_subscriber r h channel)
| step_remove_peer node_name channel : registry_step r (remove_peer r node_name channel)
| step_record_drop h band cause : registry_step r (record_drop r h band cause)
| step_resolve h fqn r' : fqn_for r h = Some (fqn, r') -> registry_step r r'.

Lemma set_refcount_ok r c : registry_ok r -> registry_ok (set_refcount r c).
Proof. by intros [? ? ? ?]. Qed.

Lemma registry_step_ok r r' : registry_ok r -> registry_step r r' -> registry_ok r'.
Proof.
  intros Hr. destruct 1 as [n f|n f| | | | | |h fqn r' Hf].
  - unfold bump_refcount. destruct (Refcount.bump _ _ _). by apply set_refcount_ok.
  - unfold drop_refcount. destruct (Refcount.drop_ref _ _ _). by apply set_refcount_ok.
  - by apply add_subscriber_ok.
  - by apply declare_ok.
  - by apply remove_subscriber_ok.
  - by apply remove_peer_ok.
  - by apply record_drop_ok.
  - destruct (fqn_for_spec r h Hr) as (r'' & Hf' & Hok & _). congruence.
Qed.

(** What is said of a topic once stays: its name and its endpoint counter. *)
Definition entry_extends (e e' : topic_entry) : Prop :=
  (e_fqn e <> [] -> e_fqn e' = e_fqn e) /\ (is_Some (e_endpoint_counter e) -> e_endpoint_counter e' = e_endpoint_counter e).

Definition topics_extend (ts ts' : topics) : Prop :=
  forall h e, ts !! h = Some e -> exists e', ts' !! h = Some e' /\ entry_extends e e'.

#[global] Instance topics_extend_preorder : PreOrder topics_extend.
Proof.
  split.
  - intros ts h e He. exists e. by split.
  - intros a b c H1 H2 h e He. destruct (H1 h e He) as (e1 & He1 & Hn1 & Hc1).
    destruct (H2 h e1 He1) as (e2 & He2 & Hn2 & Hc2). exists e2. split; [done|]. split.
    + intros Hne. rewrite Hn2; [by apply Hn1|by rewrite Hn1].
    + intros Hs. rewrite Hc2; [by apply Hc1|by rewrite Hc1].
Qed.

Lemma topics_extend_insert ts h e :
  (forall e0, ts !! h = Some e0 -> entry_extends e0 e) -> topics_extend ts (<[h := e]> ts).
Proof.
  intros H a x Hx. destruct (decide (a = h)) as [->|].
  - exists e. rewrite lookup_insert_eq. auto.
  - exists x. rewrite lookup_insert_ne by done. by repeat split.
Qed.

Lemma name_entry_extends ts h fqn e0 : ts !! h = Some e0 -> entry_extends e0 (name_entry (entry_of ts h) fqn).
Proof.
  intros E. unfold entry_of. rewrite E. cbn [from_option id]. split.
  - unfold name_entry. by destruct (e_fqn e0) eqn:En.
  - intros _. apply name_entry_fields.
Qed.

Lemma registry_step_extends r r' : registry_step r r' -> topics_extend (m_topics r) (m_topics r').
Proof.
  destruct 1 as [n f|n f|h fqn channel scheme node_name qos type_id|h fqn qos tid emit name hint _|h channel| |h band cause|h fqn r' Hf].
  - unfold bump_refcount. by destruct (Refcount.bump _ _ _).
  - unfold drop_refcount. by destruct (Refcount.drop_ref _ _ _).
  - unfold add_subscriber, add_topic_subscriber. cbn. destruct (existsb _ _); apply topics_extend_insert; intros e0 E;
      by apply (name_entry_extends _ _ fqn) in E.
  - unfold declare. cbn. apply topics_extend_insert. intros e0 E. destruct (name_entry_extends _ _ fqn _ E) as [Hn Hc].
    split; cbn; [done|]. intros Hs. specialize (Hc Hs). destruct Hs as [c Es]. rewrite Hc, Es. by rewrite andb_false_r.
  - unfold remove_subscriber, remove_topic_subscriber. cbn. destruct (m_topics r !! h) as [e|] eqn:E; [|done].
    apply topics_extend_insert. intros e0 E0. simplify_eq. by split.
  - unfold remove_peer, remove_peer_subscribers. cbn. intros h e He. exists (erase_channel e channel).
    rewrite lookup_fmap, He. by repeat split.
  - unfold record_drop. repeat case_decide; try done. destruct (m_topics r !! h) as [e|] eqn:E; [|done]. cbn.
    apply topics_extend_insert. intros e0 E0. simplify_eq. by split.
  - assert (m_topics r' = m_topics r) as ->; [|done]. unfold fqn_for in Hf.
    destruct (m_last_fqn r) as [key|]; [destruct (_ =? _); [destruct (m_topics r !! key); simplify_eq/=; done|]|];
      destruct (m_topics r !! h); simplify_eq/=; done.
Qed.

(** C38: in every reachable registry the fan-out list of a topic names no channel twice,
    the latched stamp-demand flag is exactly whether some subscriber wants message info
    (or there is none), a topic that emits source identity has a counter, and no two
    topics share one; the memoised name lookup never follows a dangling pointer and
    answers what the plain lookup would; and from there on, whatever is attached, detached
    or declared again, a topic keeps its first name and its endpoint counter. *)
Theorem registry_invariant (r : subscriber_registry) :
  rtc registry_step subscriber_registry_new r ->
  (forall h e, m_topics r !! h = Some e ->
     NoDup (map s_channel (e_subscribers e)) /\
     e_any_subscriber_wants_info e = wants_info_of (e_subscribers e) /\
     (e_emit_source_identity e = true -> is_Some (e_endpoint_counter e))) /\
  (forall h h' e e' c, m_topics r !! h = Some e -> m_topics r !! h' = Some e' ->
     e_endpoint_counter e = Some c -> e_endpoint_counter e' = Some c -> h = h') /\
  (forall h, exists r', fqn_for r h = Some (match m_topics r !! h with Some e => e_fqn e | None => [] end, r')) /\
  (forall r', rtc registry_step r r' -> topics_extend (m_topics r) (m_topics r')).
Proof.
  intros Hr. assert (registry_ok r) as Hok.
  { pose proof registry_ok_new as H0. revert H0. induction Hr as [|x y z Hs _ IH]; [done|]. intros Hx. eapply IH, registry_step_ok; eauto. }
  split_and!.
  - intros h e He. destruct (ro_entries r Hok h e He). auto.
  - apply (ro_unique r Hok).
  - intros h. destruct (fqn_for_spec r h Hok) as (r' & Hf & _). eauto.
  - intros r'. induction 1 as [|x y z Hs _ IH]; [done|]. etrans; [by apply registry_step_extends|]. apply IH.
    + by eapply rtc_r.
    + by eapply registry_step_ok.
Qed.

Definition sample_registry : subscriber_registry :=
  declare (add_subscriber subscriber_registry_new 7 [Byte.x61] 1 scheme_tcp [Byte.x62] subscriber_qos_default None)
    7 [Byte.x61] topic_qos_default None true [] 0.

Lemma registry_invariant_witness :
  exists e, m_topics sample_registry !! 7 = Some e /\ is_Some (e_endpoint_counter e).
Proof.
  destruct (registry_invariant sample_registry) as (H & _).
  - eapply rtc_l; [apply step_add|]. eapply rtc_l; [apply step_declare; vm_compute; reflexivity|]. apply rtc_refl.
  - destruct (m_topics sample_registry !! 7) as [e|] eqn:Ee; [|vm_compute in Ee; discriminate Ee].
    exists e. split; [reflexivity|]. apply (H 7 e Ee). vm_compute in Ee. injection Ee as <-. reflexivity.
Defined.

(** ** [class subscription_endpoint] *)

Record subscription_endpoint : Type := SubscriptionEndpoint {
  ep_registry : subscriber_registry;
  ep_control_scratch : bytes;
  ep_next_sequence : Z;
}.

Definition subscription_endpoint_new : subscription_endpoint := SubscriptionEndpoint subscriber_registry_new [] 0.

Definition set_registry (e : subscription_endpoint) (r : subscriber_registry) : subscription_endpoint :=
  SubscriptionEndpoint r (ep_control_scratch e) (ep_next_sequence e).

Definition next_sequence (e : subscription_endpoint) : Z * subscription_endpoint :=
  (ep_next_sequence e, SubscriptionEndpoint (ep_registry e) (ep_control_scratch e) (wrap 64 (ep_next_sequence e + 1))).

Definition attach_gate (e : subscription_endpoint) (node_name fqn : bytes) : bool * subscription_endpoint :=
  let '(n, r) := bump_refcount (ep_registry e) node_name fqn in (n =? 1, set_registry e r).

Definition detach_gate (e : subscription_endpoint) (node_name fqn : bytes) : bool * subscription_endpoint :=
  let '(n, r) := drop_refcount (ep_registry e) node_name fqn in (n =? 0, set_registry e r).

Definition ep_remove_peer (e : subscription_endpoint) (node_name : bytes) (channel : Z) : subscription_endpoint :=
  set_registry e (remove_peer (ep_registry e) node_name channel).

(** The frame of [send_control], which the scratch buffer holds afterwards. *)
Definition control_frame {host : Host} (e : subscription_endpoint) (now : Z) (type : msg_type) (inner : bytes)
  : option (bytes * subscription_endpoint) :=
  frame ← encode_frame_into (ep_control_scratch e) (FrameHeader type 0 0 now (zlen inner)) inner;
  Some (frame, SubscriptionEndpoint (ep_registry e) frame (ep_next_sequence e)).
