(* ===== verification/Forwarder.v ===== *)
(** * The message forwarder

    Models [message_forwarder.h] and [detail/forwarder_fanout.h] of
    [lib/plexus-core/include/plexus/io/], with [object_carrier.h], [message_info.h],
    [demand_transition.h] and the part of [observation_events.h] they use.

    An operation is a computation on the forwarder; what it tells its callbacks and its
    logger is the list of events, and all callbacks are taken to be set.  The channels
    its references point to are the store [f_channels], the loan slots of native objects
    the store [f_slots].  The two callbacks that answer, the companion route and the
    capture policy, are functions; so is the clock, whose reading is an argument.  The
    user's [OnMessage] and [EncodeFn] are an event and the bytes it returns. *)

From S2P Require Import Prelude EventMonad ByteOrder Varint Cursor Frame Control Hash Fragmentation SendQueue Egress Qos History Registry.

(** ** Data *)

Record object_carrier : Type := ObjectCarrier {
  oc_topic_hash : Z;
  oc_type_tag : Z;
  oc_native_key : Z;
  oc_sequence : Z;
  oc_source_timestamp : Z;
  oc_slot : option Z;
}.

(** [publisher_gid] is a node id and an endpoint counter. *)
Record message_info : Type := MessageInfo {
  mi_source_identity : option (bytes * Z);
  mi_publication_sequence : Z;
  mi_source_timestamp : Z;
  mi_reception_timestamp : Z;
  mi_from_intra_process : bool;
}.

Definition message_info_default : message_info := MessageInfo None 0 0 0 false.

Inductive qos_edge : Type := edge_accepted | edge_degraded | edge_refused | edge_unsubscribed.
Inductive demand_transition : Type := demand_up | demand_down.
Inductive demand_role : Type := role_publisher | role_subscriber.

Inductive forwarder_event : Type :=
| Published (hash : Z) (fqn view : bytes)
| Delivered (hash : Z) (fqn : bytes) (info : message_info) (view : bytes)
| QosChange (edge : qos_edge) (hash : Z) (requested : subscriber_qos) (v : rxo_verdict) (type_id : option Z)
| DemandTransition (node_name fqn : bytes) (dir : demand_transition) (role : demand_role)
| Shed (cause : drop_cause) (tier : locality) (band : nat) (hash : Z)
| StampReceived (source_node_id : bytes) (hash : Z)
| OnMessage (fqn data : bytes) (info : option message_info)
| Encoded
| SlotReleased (slot : Z)
| WarnDecodeFailed
| WarnTopicUnknown.

Record remembered_demand : Type := RememberedDemand {
  rd_fqn : bytes;
  rd_qos : subscriber_qos;
  rd_type_id : option Z;
}.

Definition k_history_depth_cap : Z := 1024.
Definition k_fetch_cap : Z := 1024.

Record peer : Type := Peer { p_channel : Z; p_node_name : bytes }.

(** The verbs of a channel the forwarder uses beside those of the scheduler;
    [send_object] only where [can_send_object]. *)
Class PeerChannel (C : Type) : Type := {
  #[global] peer_byte_channel :: ByteChannel C;
  remote_scheme : C -> bytes;
  can_send_object : bool;
  send_object : C -> object_carrier -> gmap Z Z -> option (C * gmap Z Z);
}.

Record message_forwarder (C : Type) : Type := MessageForwarder {
  f_global_default : Z;
  f_endpoint : subscription_endpoint;
  f_egress : egress_scheduler;
  f_retained : gmap Z Ring.history_ring;
  f_remote_topics : gmap bytes (list remembered_demand);
  f_channels : gmap Z C;
  f_slots : gmap Z Z;
}.
Arguments MessageForwarder {C}.
Arguments f_global_default {C}.
Arguments f_endpoint {C}.
Arguments f_egress {C}.
Arguments f_retained {C}.
Arguments f_remote_topics {C}.
Arguments f_channels {C}.
Arguments f_slots {C}.

Definition message_forwarder_new {C} (global_default : Z) (channels : gmap Z C) : message_forwarder C :=
  MessageForwarder global_default subscription_endpoint_new ∅ ∅ ∅ channels ∅.

Section Setters.
Context {C : Type}.
Implicit Types f : message_forwarder C.

Definition set_endpoint f e : message_forwarder C :=
  MessageForwarder (f_global_default f) e (f_egress f) (f_retained f) (f_remote_topics f) (f_channels f) (f_slots f).
Definition set_egress f q : message_forwarder C :=
  MessageForwarder (f_global_default f) (f_endpoint f) q (f_retained f) (f_remote_topics f) (f_channels f) (f_slots f).
Definition set_retained f m : message_forwarder C :=
  MessageForwarder (f_global_default f) (f_endpoint f) (f_egress f) m (f_remote_topics f) (f_channels f) (f_slots f).
Definition set_remote_topics f m : message_forwarder C :=
  MessageForwarder (f_global_default f) (f_endpoint f) (f_egress f) (f_retained f) m (f_channels f) (f_slots f).
Definition set_channel f (ch : Z) (c : C) : message_forwarder C :=
  MessageForwarder (f_global_default f) (f_endpoint f) (f_egress f) (f_retained f) (f_remote_topics f)
    (<[ch := c]> (f_channels f)) (f_slots f).
Definition set_slots f m : message_forwarder C :=
  MessageForwarder (f_global_default f) (f_endpoint f) (f_egress f) (f_retained f) (f_remote_topics f)
    (f_channels f) m.
Definition registry_of f : subscriber_registry := ep_registry (f_endpoint f).

End Setters.

Section Forwarder.
Context {host : Host} {C : Type} `{!PeerChannel C}.
Context (companion_route : bytes -> bytes -> Z -> option Z) (capture_wants_payload : Z -> bool).

Abbreviation fwd := (prog (message_forwarder C) forwarder_event).

(** ** Helpers *)

Definition on_endpoint {A} (op : subscription_endpoint -> A * subscription_endpoint) : fwd A :=
  e ← gets f_endpoint;
  let '(x, e) := op e in
  modify (fun f => set_endpoint f e) ;; mret x.

Definition on_registry (op : subscriber_registry -> subscriber_registry) : fwd unit :=
  modify (fun f => set_endpoint f (set_registry (f_endpoint f) (op (registry_of f)))).

(** The channel a reference points to; [None] for a dangling reference. *)
Definition channel_at (ch : Z) : fwd C := o ← gets (fun f => f_channels f !! ch); lift o.

Definition channel_send (ch : Z) (data : bytes) : fwd unit :=
  c ← channel_at ch;
  c ← lift (send c data);
  modify (fun f => set_channel f ch c).

Definition send_control (now ch : Z) (type : msg_type) (inner : bytes) : fwd unit :=
  e ← gets f_endpoint;
  '(frame, e) ← lift (control_frame e now type inner);
  modify (fun f => set_endpoint f e) ;;
  channel_send ch frame.

Definition add_fanout_entry (p : peer) (hash : Z) (fqn : bytes) (qos : subscriber_qos) (type_id : option Z) : fwd unit :=
  c ← channel_at (p_channel p);
  on_registry (fun r => add_subscriber r hash fqn (p_channel p) (remote_scheme c) (p_node_name p) qos type_id).

Definition subscribe_request_of (fqn : bytes) (hash : Z) (type_id : option Z) (sub_qos : subscriber_qos) : subscribe_request :=
  if decide (sub_qos = subscriber_qos_default)
  then SubscribeRequest fqn [] hash (default 0 type_id) src_publisher false subscribe_qos_region_zero
  else SubscribeRequest fqn [] hash (default 0 type_id) src_publisher true (to_wire_region sub_qos).

Definition send_subscribe (now ch : Z) (fqn : bytes) (hash : Z) (type_id : option Z) (sub_qos : subscriber_qos) : fwd unit :=
  body ← lift (encode_subscribe_request (subscribe_request_of fqn hash type_id sub_qos));
  send_control now ch msg_subscribe body.

Definition record_remote_topic (node_name fqn : bytes) (qos : subscriber_qos) (type_id : option Z) : fwd unit :=
  modify (fun f =>
    let topics := default [] (f_remote_topics f !! node_name) in
    let topics := if existsb (fun d => bool_decide (rd_fqn d = fqn)) topics then topics
                  else topics ++ [RememberedDemand fqn qos type_id] in
    set_remote_topics f (<[node_name := topics]> (f_remote_topics f))).

Definition forget_remote_topic (node_name fqn : bytes) : fwd unit :=
  modify (fun f =>
    match f_remote_topics f !! node_name with
    | None => f
    | Some topics =>
        match List.filter (fun d => negb (bool_decide (rd_fqn d = fqn))) topics with
        | [] => set_remote_topics f (delete node_name (f_remote_topics f))
        | topics => set_remote_topics f (<[node_name := topics]> (f_remote_topics f))
        end
    end).

(** ** The history of a latched topic *)

(** The bound of [std::clamp]. *)
Definition history_depth (depth : Z) : Z := Z.max 1 (Z.min depth k_history_depth_cap).

Definition retain_if_latched (hash : Z) (qos : topic_qos) (framed : bytes) : fwd unit :=
  if negb (latch qos) then mret tt else
  ring ← gets (fun f => default Ring.history_ring_new (f_retained f !! hash));
  ring ← lift (Ring.push (Ring.resize_to ring (history_depth (depth qos))) framed);
  modify (fun f => set_retained f (<[hash := ring]> (f_retained f))).

Definition replay_window (p : peer) (ring : Ring.history_ring) (limit : Z) : fwd unit :=
  let count := Ring.count ring in
  each (fun k => frame ← lift (Ring.oldest_to_newest ring (count - limit + Z.of_nat k));
                 channel_send (p_channel p) frame)
    (seq 0 (Z.to_nat limit)).

Definition replay_if_latched (p : peer) (hash : Z) : fwd unit :=
  r ← gets registry_of;
  if negb (latch (qos_for r hash)) then mret tt else
  o ← gets (fun f => f_retained f !! hash);
  match o with
  | None => mret tt
  | Some ring =>
      if Ring.empty ring then mret tt else
      let sub := qos_for_subscriber r hash (p_channel p) in
      if durability_mode sub =? dur_none then mret tt
      else if durability_mode sub =? dur_latest then
        frame ← lift (Ring.newest ring); channel_send (p_channel p) frame
      else if durability_mode sub =? dur_all then
        let count := Ring.count ring in
        let limit := if negb (replay_depth sub =? 0) then Z.min count (replay_depth sub) else count in
        replay_window p ring limit
      else mret tt
  end.

Definition fetch_latched (p : peer) (hash max_samples : Z) : fwd unit :=
  o ← gets (fun f => f_retained f !! hash);
  match o with
  | None => mret tt
  | Some ring =>
      if Ring.empty ring then mret tt else
      replay_window p ring (Z.min max_samples (Z.min (Ring.count ring) k_fetch_cap))
  end.

(** ** Subscribing *)

Definition attach (now : Z) (p : peer) (fqn : bytes) (qos : subscriber_qos) (type_id : option Z) : fwd bool :=
  first ← on_endpoint (fun e => attach_gate e (p_node_name p) fqn);
  if negb first then mret false else
  let hash := fqn_topic_hash fqn in
  add_fanout_entry p hash fqn qos type_id ;;
  record_remote_topic (p_node_name p) fqn qos type_id ;;
  send_subscribe now (p_channel p) fqn hash type_id qos ;;
  emit (QosChange edge_accepted hash qos compatible type_id) ;;
  emit (DemandTransition (p_node_name p) fqn demand_up role_subscriber) ;;
  mret true.

Definition type_id_mismatch (r : subscriber_registry) (hash : Z) (subscriber_type_id : option Z) : bool :=
  match producer_type_id r hash, subscriber_type_id with
  | Some a, Some b => negb (a =? b)
  | _, _ => false
  end.

Definition status_of (v : rxo_verdict) : subscribe_status :=
  if decide (v = source_identity_incompatible) then sub_source_identity_incompatible else sub_incompatible_qos.

Definition send_subscribe_response (now ch : Z) (resp : subscribe_response) : fwd unit :=
  body ← lift (encode_subscribe_response resp);
  send_control now ch msg_subscribe_response body.

(** [attach_for_fanout] from the reference count on: [res] is the verdict that admits. *)
Definition fanout_hold (now : Z) (p : peer) (fqn : bytes) (subscriber_type_id : option Z) (sub_qos : subscriber_qos)
    (res : rxo_result) : fwd bool :=
  let hash := fqn_topic_hash fqn in
  first ← on_endpoint (fun e => attach_gate e (p_node_name p) fqn);
  if negb first then mret false else
  add_fanout_entry p hash fqn sub_qos subscriber_type_id ;;
  emit (QosChange (if decide (verdict res = degraded) then edge_degraded else edge_accepted) hash sub_qos
          (verdict res) subscriber_type_id) ;;
  send_subscribe_response now (p_channel p)
    (if decide (verdict res = degraded)
     then SubscribeResponse hash sub_subscribed_degraded true (degraded_fields res)
     else SubscribeResponse hash sub_subscribed false 0) ;;
  replay_if_latched p hash ;;
  emit (DemandTransition (p_node_name p) fqn demand_up role_publisher) ;;
  mret true.

(** [attach_for_fanout] from the check against the offer on. *)
Definition fanout_offer (now : Z) (p : peer) (fqn : bytes) (subscriber_type_id : option Z) (sub_qos : subscriber_qos)
  : fwd bool :=
  let hash := fqn_topic_hash fqn in
  r ← gets registry_of;
  gd ← gets f_global_default;
  let res := rxo_check (qos_for r hash) (offers_source_identity r hash) gd sub_qos in
  if decide (verdict res = incompatible_qos \/ verdict res = source_identity_incompatible) then
    send_subscribe_response now (p_channel p) (SubscribeResponse hash (status_of (verdict res)) false 0) ;;
    emit (QosChange edge_refused hash sub_qos (verdict res) subscriber_type_id) ;;
    mret false
  else fanout_hold now p fqn subscriber_type_id sub_qos res.

Definition attach_for_fanout (now : Z) (p : peer) (fqn : bytes) (subscriber_type_id : option Z)
    (sub_qos : subscriber_qos) : fwd bool :=
  let hash := fqn_topic_hash fqn in
  r ← gets registry_of;
  if type_id_mismatch r hash subscriber_type_id then
    send_subscribe_response now (p_channel p) (SubscribeResponse hash sub_type_mismatch false 0) ;; mret false
  else if decide (posture sub_qos = posture_strict /\ subscriber_type_id <> None /\ producer_type_id r hash = None) then
    send_subscribe_response now (p_channel p) (SubscribeResponse hash sub_type_undeclared false 0) ;; mret false
  else fanout_offer now p fqn subscriber_type_id sub_qos.

Definition attach_local (fqn : bytes) (channel : Z) (self_name : bytes) (qos : subscriber_qos) (type_id : option Z) : fwd unit :=
  let hash := fqn_topic_hash fqn in
  add_fanout_entry (Peer channel self_name) hash fqn qos type_id ;;
  replay_if_latched (Peer channel self_name) hash.

(** [m_egress.remove(channel)]. *)
Definition egress_remove (ch : Z) : fwd unit :=
  c ← channel_at ch;
  modify (fun f => set_egress f (remove (f_egress f) c)).

Definition detach_local (fqn : bytes) (channel : Z) : fwd unit :=
  on_registry (fun r => remove_subscriber r (fqn_topic_hash fqn) channel) ;;
  egress_remove channel.

Definition remember_demand (node_name fqn : bytes) (qos : subscriber_qos) (type_id : option Z) : fwd unit :=
  record_remote_topic node_name fqn qos type_id.

Definition forget_remembered_demand (node_name fqn : bytes) : fwd unit := forget_remote_topic node_name fqn.

Definition detach (now : Z) (p : peer) (fqn : bytes) : fwd bool :=
  last ← on_endpoint (fun e => detach_gate e (p_node_name p) fqn);
  if negb last then mret false else
  let hash := fqn_topic_hash fqn in
  on_registry (fun r => remove_subscriber r hash (p_channel p)) ;;
  egress_remove (p_channel p) ;;
  forget_remote_topic (p_node_name p) fqn ;;
  body ← lift (encode_unsubscribe_request (UnsubscribeRequest hash));
  send_control now (p_channel p) msg_unsubscribe body ;;
  emit (QosChange edge_unsubscribed hash subscriber_qos_default compatible None) ;;
  emit (DemandTransition (p_node_name p) fqn demand_down role_subscriber) ;;
  mret true.

Definition detach_all (p : peer) : fwd unit :=
  modify (fun f => set_endpoint f (ep_remove_peer (f_endpoint f) (p_node_name p) (p_channel p))) ;;
  egress_remove (p_channel p).

Definition remembered_topics (f : message_forwarder C) (node_name : bytes) : list remembered_demand :=
  default [] (f_remote_topics f !! node_name).

(** ** Declaring *)

Definition declare_topic (fqn : bytes) (qos : topic_qos) (producer_type_id : option Z) (emit_source_identity : bool)
    (producer_type_name : bytes) (schema_hint : Z) : fwd unit :=
  on_registry (fun r => declare r (fqn_topic_hash fqn) fqn qos producer_type_id emit_source_identity
                          producer_type_name schema_hint).

Definition latch_topic (fqn : bytes) : fwd unit :=
  declare_topic fqn (TopicQos true 1 loc_any best_effort block prio_normal hint_none 0 0 0) None false [] 0.

(** ** Publishing *)

Definition bare_of (framed : bytes) (counter : option Z) : option bytes :=
  counter_len ← (match counter with Some c => varint_size c | None => Some 0%nat end);
  let prefix := (header_size + unidirectional_header_size + counter_len)%nat in
  if decide (prefix <= length framed)%nat then Some (drop prefix framed) else None.

Definition publication_header (counter : option Z) (session_id timestamp : Z) : frame_header :=
  FrameHeader msg_unidirectional (match counter with Some _ => k_flag_source_identity | None => 0 end)
    session_id timestamp 0.

(** The frame and the information of [pub_info]. *)
Definition frame_publish (now hash : Z) (payload : bytes) (counter : option Z) (session_id : Z)
  : fwd (bytes * message_info) :=
  sequence ← on_endpoint next_sequence;
  framed ← lift (encode_unidirectional_frame_into [] (publication_header counter session_id now)
                   (UnidirectionalHeader src_publisher sequence hash) payload counter);
  mret (framed, MessageInfo None sequence now 0 false).

Definition frame_object (carrier : object_carrier) (hash : Z) (counter : option Z) (session_id : Z) (body : bytes)
  : option bytes :=
  encode_unidirectional_frame_into [] (publication_header counter session_id (oc_source_timestamp carrier))
    (UnidirectionalHeader src_publisher (oc_sequence carrier) hash) body counter.

Definition shed (hash : Z) (band : nat) (cause : drop_cause) (tier : locality) : fwd unit :=
  on_registry (fun r => record_drop r hash band cause) ;;
  emit (Shed cause tier band hash).

(** [m_egress.enqueue(route, band, congestion, framed)]. *)
Definition egress_enqueue (route : Z) (band : nat) (cg : congestion) (framed : bytes) : fwd drop_cause :=
  c ← channel_at route;
  q ← gets f_egress;
  '(cause, q, c) ← lift (enqueue q c band cg framed);
  modify (fun f => set_channel (set_egress f q) route c) ;;
  mret cause.

Definition fan_one (hash : Z) (fqn : bytes) (qos : topic_qos) (framed bare : bytes) (info : message_info)
    (sub : subscriber) : fwd unit :=
  if negb (any_set (reach qos) (s_tier sub)) then mret tt else
  let band := band_of (tq_priority qos) in
  let route := default (s_channel sub) (companion_route (s_node_name sub) fqn (zlen framed)) in
  cause ← egress_enqueue route band (tq_congestion qos) framed;
  (if decide (cause = dc_none) then mret tt else shed hash band cause (s_tier sub)) ;;
  emit (Delivered hash fqn info bare).

Definition fan_published (subs : list subscriber) (hash : Z) (fqn : bytes) (qos : topic_qos) (framed bare : bytes)
    (info : message_info) : fwd unit :=
  each (fan_one hash fqn qos framed bare info) subs.

(** The counter that travels with a publication. *)
Definition counter_of (topic : topic_entry) : option Z :=
  if e_emit_source_identity topic then e_endpoint_counter topic else None.

Definition publish (now : Z) (fqn payload : bytes) (session_id : Z) : fwd unit :=
  let hash := fqn_topic_hash fqn in
  o ← gets (fun f => entry_for (registry_of f) hash);
  match o with
  | None => mret tt
  | Some topic =>
      let subs := e_subscribers topic in
      let qos := e_qos topic in
      if bool_decide (subs = []) && negb (latch qos) then mret tt else
      let counter := counter_of topic in
      '(framed, info) ← frame_publish now hash payload counter session_id;
      bare ← lift (bare_of framed counter);
      emit (Published hash fqn bare) ;;
      fan_published subs hash fqn qos framed bare info ;;
      retain_if_latched hash qos framed
  end.

(** ** Native objects *)

(** [release(carrier)]; the count is a [std::uint32_t]. *)
Definition release (carrier : object_carrier) : fwd unit :=
  match oc_slot carrier with
  | None => mret tt
  | Some slot =>
      o ← gets (fun f => f_slots f !! slot);
      refs ← lift o;
      let refs := wrap 32 (refs - 1) in
      modify (fun f => set_slots f (<[slot := refs]> (f_slots f))) ;;
      if refs =? 0 then emit (SlotReleased slot) else mret tt
  end.

Definition eligible_for_object (sub : subscriber) (carrier : object_carrier) : bool :=
  can_send_object (C := C) && (s_tier sub =? loc_process) &&
  match s_type_id sub with Some t => t =? oc_type_tag carrier | None => false end.

(** [framed] is [None] until [encode_once] ran; [frame] is what it computes. *)
Definition encode_once (frame : option bytes) (framed : option bytes) : fwd bytes :=
  match framed with
  | Some framed => mret framed
  | None => emit Encoded ;; lift frame
  end.

Definition fan_object_one (hash : Z) (fqn : bytes) (qos : topic_qos) (carrier : object_carrier) (bare : bytes)
    (info : message_info) (frame framed : option bytes) (sub : subscriber) : fwd (option bytes) :=
  if negb (any_set (reach qos) (s_tier sub)) then mret framed else
  if eligible_for_object sub carrier then
    c ← channel_at (s_channel sub);
    slots ← gets f_slots;
    '(c, slots) ← lift (send_object c carrier slots);
    modify (fun f => set_slots (set_channel f (s_channel sub) c) slots) ;;
    emit (Delivered hash fqn info bare) ;;
    mret framed
  else
    let band := band_of (tq_priority qos) in
    bytes_ ← encode_once frame framed;
    cause ← egress_enqueue (s_channel sub) band (tq_congestion qos) bytes_;
    (if decide (cause = dc_none) then mret tt else shed hash band cause (s_tier sub)) ;;
    emit (Delivered hash fqn info bare) ;;
    mret (Some bytes_).

Fixpoint fan_object (hash : Z) (fqn : bytes) (qos : topic_qos) (carrier : object_carrier) (bare : bytes)
    (info : message_info) (frame framed : option bytes) (subs : list subscriber) : fwd (option bytes) :=
  match subs with
  | [] => mret framed
  | sub :: subs =>
      framed ← fan_object_one hash fqn qos carrier bare info frame framed sub;
      fan_object hash fqn qos carrier bare info frame framed subs
  end.

(** The payload view is empty unless the capture policy asks for the bytes. *)
Definition publish_object (now : Z) (fqn : bytes) (carrier : object_carrier) (body : bytes) (session_id : Z) : fwd unit :=
  let hash := fqn_topic_hash fqn in
  o ← gets (fun f => entry_for (registry_of f) hash);
  let subs := match o with Some topic => e_subscribers topic | None => [] end in
  let qos := match o with Some topic => e_qos topic | None => topic_qos_default end in
  sequence ← on_endpoint next_sequence;
  let stamp := (oc_source_timestamp carrier =? 0)
               && match o with Some topic => e_any_subscriber_wants_info topic | None => true end in
  let timestamp := if stamp then now else oc_source_timestamp carrier in
  let carrier := ObjectCarrier hash (oc_type_tag carrier) (oc_native_key carrier) sequence timestamp (oc_slot carrier) in
  let counter := match o with Some topic => counter_of topic | None => None end in
  let frame := frame_object carrier hash counter session_id body in
  let info := MessageInfo None sequence timestamp 0 false in
  framed ← (if capture_wants_payload hash then b ← encode_once frame None; mret (Some b) else mret None);
  bare ← (match framed with Some b => lift (bare_of b counter) | None => mret [] end);
  emit (Published hash fqn bare) ;;
  framed ← fan_object hash fqn qos carrier bare info frame framed subs;
  (if latch qos then b ← encode_once frame framed; retain_if_latched hash qos b else mret tt) ;;
  release carrier.

(** ** Delivering *)

Definition deliver (source_node_id inner : bytes) (info : option message_info) (has_source_identity : bool) : fwd unit :=
  match decode_unidirectional inner has_source_identity with
  | None => emit WarnDecodeFailed
  | Some decoded =>
      let hash := uh_topic_hash (ud_header decoded) in
      r ← gets registry_of;
      '(fqn, r) ← lift (fqn_for r hash);
      on_registry (fun _ => r) ;;
      match fqn with
      | [] => emit WarnTopicUnknown
      | _ =>
          let info := match info with
            | None => None
            | Some i =>
                Some (MessageInfo
                  (match ud_endpoint_counter decoded with
                   | Some c => Some (source_node_id, c)
                   | None => mi_source_identity i
                   end)
                  (uh_sequence (ud_header decoded)) (mi_source_timestamp i) (mi_reception_timestamp i)
                  (mi_from_intra_process i))
            end in
          emit (StampReceived source_node_id hash) ;;
          emit (OnMessage fqn (ud_data decoded) info)
      end
  end.

Definition dropped_of (f : message_forwarder C) (fqn : bytes) (band : nat) (cause : drop_cause) : Z :=
  dropped (registry_of f) (fqn_topic_hash fqn) band cause.

End Forwarder.

(** ** Frames of publications *)

Section Frames.
Context {host : Host}.

(** The bytes of a publication. *)
Definition publication (now sequence hash : Z) (counter : option Z) (session_id : Z) (payload : bytes) : bytes :=
  let body := unidirectional_layout (UnidirectionalHeader src_publisher sequence hash) counter payload in
  header_layout (with_payload_len (publication_header counter session_id now) (zlen body)) ++ body.

Lemma encode_publication now sequence hash counter session_id payload :
  encode_unidirectional_frame_into [] (publication_header counter session_id now)
    (UnidirectionalHeader src_publisher sequence hash) payload counter
  = Some (publication now sequence hash counter session_id payload).
Proof. apply encode_unidirectional_frame_into_layout. Qed.

Lemma bare_of_publication now sequence hash counter session_id payload :
  bare_of (publication now sequence hash counter session_id payload) counter = Some payload.
Proof.
  assert (exists n, (match counter with Some c => varint_size c | None => Some 0%nat end) = Some n /\
            n = length (match counter with Some c => varint c | None => [] end)) as (n & Hn & Ln).
  { destruct counter as [c|]; [|by exists 0%nat]. eexists. split; [apply varint_size_spec|done]. }
  unfold bare_of. rewrite Hn. cbn [mbind option_bind]. unfold publication. set (h := header_layout _).
  assert (length h = header_size) as Lh by apply length_header_layout.
  rewrite decide_True.
  2:{ rewrite length_app, Lh. unfold unidirectional_layout. rewrite !length_app, !length_be_bytes.
      unfold unidirectional_header_size. lia. }
  f_equal. rewrite <- Lh, <- !Nat.add_assoc, <- drop_drop, drop_app_length.
  unfold unidirectional_layout. rewrite !app_assoc.
  apply drop_app_length'. rewrite !length_app, !length_be_bytes. simpl. lia.
Qed.

End Frames.

(** ** Fan-out *)

(** What a forwarder relies on beside the scheduler's contract: sending does not change
    the scheme of a channel, and a ready channel stays ready under a frame that the gate
    was not asked about, which it takes or refuses. *)
Class PeerContract (C : Type) `{!PeerChannel C} : Type := {
  #[global] peer_channel_contract :: ChannelContract C;
  send_scheme (c c' : C) f : send c f = Some c' -> remote_scheme c' = remote_scheme c;
  send_keeps (c : C) f : ready c -> frame_ok f ->
    exists c', send c f = Some c' /\ ready c' /\ scheduler_key c' = scheduler_key c /\
      (taken c' = taken c ++ [f] \/ taken c' = taken c);
}.

(** The same channels, each with its key. *)
Definition evolves `{!PeerChannel C} (m m' : gmap Z C) : Prop :=
  (forall ch, is_Some (m !! ch) <-> is_Some (m' !! ch)) /\
  (forall ch c c', m !! ch = Some c -> m' !! ch = Some c' -> scheduler_key c' = scheduler_key c).

Lemma evolves_refl `{!PeerChannel C} (m : gmap Z C) : evolves m m.
Proof. split; [done|]. intros. by simplify_eq. Qed.

Lemma evolves_insert `{!PeerChannel C} (m : gmap Z C) ch c c' :
  m !! ch = Some c -> scheduler_key c' = scheduler_key c -> evolves m (<[ch := c']> m).
Proof.
  intros Hc Hk. split.
  - intros a. destruct (decide (a = ch)) as [->|]; [rewrite lookup_insert_eq, Hc; by split|by rewrite lookup_insert_ne].
  - intros a x y Hx. destruct (decide (a = ch)) as [->|]; [rewrite lookup_insert_eq|rewrite lookup_insert_ne by done]; intros; by simplify_eq.
Qed.

Lemma send_key `{!PeerChannel C} `{!PeerContract C} (c c' : C) f :
  ready c -> frame_ok f -> send c f = Some c' -> scheduler_key c' = scheduler_key c.
Proof. intros Hr Hf Hs. destruct (send_keeps c f Hr Hf) as (x & Hx & _ & Hk & _). by rewrite Hs in Hx; simplify_eq. Qed.

Section Fanout.
Context {host : Host} {C : Type} `{!PeerChannel C} `{!PeerContract C}.
Context (companion_route : bytes -> bytes -> Z -> option Z).
Implicit Types f : message_forwarder C.

(** The channel a subscriber's frames take. *)
Definition route_of (fqn : bytes) (size : Z) (sub : subscriber) : Z :=
  default (s_channel sub) (companion_route (s_node_name sub) fqn size).

Definition in_reach (qos : topic_qos) (sub : subscriber) : bool := any_set (reach qos) (s_tier sub).

(** The scheduler's state is sound, no two channels share a key, and the channels in
    [chs] are there and ready. *)
Record egress_ok f (chs : list Z) : Prop := EgressOk {
  eg_scheduler : scheduler_ok (f_egress f);
  eg_keys : forall a b c d, f_channels f !! a = Some c -> f_channels f !! b = Some d ->
    scheduler_key c = scheduler_key d -> a = b;
  eg_ready : forall ch, ch ∈ chs -> exists c, f_channels f !! ch = Some c /\ ready c;
}.

(** The frame was put into the band of the channel under the congestion mode and the
    channel has taken the head of the backlog, in priority order, as far as its gate let it. *)
Definition handed_over (band : nat) (cg : congestion) (frame : bytes) f f' (ch : Z) : Prop :=
  exists c c' l handed,
    f_channels f !! ch = Some c /\ f_channels f' !! ch = Some c' /\
    bands_of (f_egress f) (scheduler_key c) !! band = Some l /\
    concat (<[band := (Band.push_spec l cg frame).2]> (bands_of (f_egress f) (scheduler_key c)))
      = handed ++ concat (bands_of (f_egress f') (scheduler_key c)) /\
    taken c' = taken c ++ handed /\
    (forall g rest, concat (bands_of (f_egress f') (scheduler_key c)) = g :: rest -> admits c' (zlen g) = false) /\
    scheduler_key c' = scheduler_key c.

Definition untouched f f' (ch : Z) : Prop :=
  f_channels f' !! ch = f_channels f !! ch /\
  forall c, f_channels f !! ch = Some c -> bands_of (f_egress f') (scheduler_key c) = bands_of (f_egress f) (scheduler_key c).

(** What a fan-out leaves alone. *)
Definition same_records f f' : Prop :=
  f_global_default f' = f_global_default f /\ f_retained f' = f_retained f /\
  f_remote_topics f' = f_remote_topics f /\ f_slots f' = f_slots f /\
  ep_next_sequence (f_endpoint f') = ep_next_sequence (f_endpoint f).

Lemma same_records_refl f : same_records f f.
Proof. done. Qed.

Lemma same_records_trans f f' f'' : same_records f f' -> same_records f' f'' -> same_records f f''.
Proof. unfold same_records. intros (-> & -> & -> & -> & ->) (? & ? & ? & ? & ?). by split_and!. Qed.

Lemma bands_of_other s s' k : s' !! k = s !! k -> bands_of s' k = bands_of s k.
Proof. unfold bands_of, queue_of. by intros ->. Qed.

Lemma egress_enqueue_spec f chs ch band cg frame :
  egress_ok f chs -> ch ∈ chs -> (band < k_egress_bands)%nat -> frame_ok frame ->
  exists cause f', egress_enqueue ch band cg frame f = Some (cause, [], f') /\
    handed_over band cg frame f f' ch /\ (forall a, a <> ch -> untouched f f' a) /\
    egress_ok f' chs /\ same_records f f' /\ registry_of f' = registry_of f.
Proof.
  intros [Hs Hk Hr] Hch Hb Hf. destruct (Hr ch Hch) as (c & Hc & Hready).
  destruct (enqueue_spec (f_egress f) c band cg frame Hs Hready Hb Hf)
    as (l & handed & s' & c' & Hl & He & Hcat & Ht & Hgate & Hs' & Hready' & Hkey & Hother).
  eexists _, (set_channel (set_egress f s') ch c'). split_and!.
  - unfold egress_enqueue, channel_at. rewrite bind_run with (x := c) (evs := []) (s1 := f).
    2:{ rewrite bind_gets. unfold lift. by rewrite Hc. }
    cbn beta. rewrite bind_gets, He, bind_lift, bind_modify. done.
  - exists c, c', l, handed. cbn. rewrite lookup_insert_eq. by split_and!.
  - intros a Ha. split; cbn; [by rewrite lookup_insert_ne|]. intros d Hd. apply bands_of_other, Hother.
    intros E. apply Ha. by eapply Hk.
  - split; cbn.
    + done.
    + assert (forall a x, <[ch := c']> (f_channels f) !! a = Some x ->
                exists y, f_channels f !! a = Some y /\ scheduler_key x = scheduler_key y) as Hold.
      { intros a x. destruct (decide (a = ch)) as [->|].
        - rewrite lookup_insert_eq. intros [= <-]. by exists c.
        - rewrite lookup_insert_ne by done. eauto. }
      intros a b x y Hx Hy E. destruct (Hold a x Hx) as (x0 & Hx0 & Ex). destruct (Hold b y Hy) as (y0 & Hy0 & Ey).
      apply (Hk a b x0 y0 Hx0 Hy0). congruence.
    + intros a Ha. destruct (decide (a = ch)) as [->|]; [rewrite lookup_insert_eq; eauto|].
      rewrite lookup_insert_ne by done. by apply Hr.
  - done.
  - done.
Qed.

(** The reports of a delivery. *)
Definition delivered_events (evs : list forwarder_event) : list forwarder_event :=
  List.filter (fun ev => match ev with Delivered _ _ _ _ => true | _ => false end) evs.

Lemma delivered_app a b : delivered_events (a ++ b) = delivered_events a ++ delivered_events b.
Proof. apply List.filter_app. Qed.

Lemma fan_one_spec f chs hash fqn qos frame bare info sub :
  egress_ok f chs -> registry_ok (registry_of f) -> frame_ok frame ->
  (band_of (tq_priority qos) < k_egress_bands)%nat ->
  (in_reach qos sub = true -> route_of fqn (zlen frame) sub ∈ chs) ->
  exists evs f', fan_one companion_route hash fqn qos frame bare info sub f = Some (tt, evs, f') /\
    egress_ok f' chs /\ registry_ok (registry_of f') /\ same_records f f' /\
    (forall a, in_reach qos sub = false \/ a <> route_of fqn (zlen frame) sub -> untouched f f' a) /\
    (in_reach qos sub = true ->
       handed_over (band_of (tq_priority qos)) (tq_congestion qos) frame f f' (route_of fqn (zlen frame) sub)) /\
    delivered_events evs = if in_reach qos sub then [Delivered hash fqn info bare] else [].
Proof.
  intros Hok Hreg Hf Hb Hin. unfold fan_one. fold (in_reach qos sub). destruct (in_reach qos sub) eqn:Er; cbn [negb].
  2:{ eexists _, f. split; [done|]. split_and!; try done; intros a _; by split. }
  fold (route_of fqn (zlen frame) sub). set (route := route_of fqn (zlen frame) sub) in *.
  destruct (egress_enqueue_spec f chs route _ (tq_congestion qos) frame Hok (Hin eq_refl) Hb Hf)
    as (cause & f1 & He & Hh & Hu & Hok1 & Hs1 & Hr1).
  rewrite (bind_run _ _ _ _ _ _ He). destruct (decide (cause = dc_none)).
  - rewrite bind_ret. cbn. eexists _, f1. split; [done|]. rewrite Hr1. split_and!; try done.
    intros a [?|Ha]; [done|by apply Hu].
  - unfold shed, on_registry. eexists _, _. split; [reflexivity|]. split_and!; try done.
    + destruct Hok1. by split.
    + cbn. apply record_drop_ok. by rewrite Hr1.
    + intros a [?|Ha]; [done|]. by apply Hu.
Qed.

Lemma handed_over_later band cg frame f f1 f2 ch :
  handed_over band cg frame f f1 ch -> untouched f1 f2 ch -> handed_over band cg frame f f2 ch.
Proof.
  intros (c & c' & l & handed & Hc & Hc' & Hl & Hcat & Ht & Hg & Hk) [Hu1 Hu2]. exists c, c', l, handed.
  specialize (Hu2 c' Hc'). rewrite Hk in Hu2. rewrite Hu1, Hu2. by split_and!.
Qed.

Lemma handed_over_earlier band cg frame f f1 f2 ch :
  untouched f f1 ch -> handed_over band cg frame f1 f2 ch -> handed_over band cg frame f f2 ch.
Proof.
  intros [Hu1 Hu2] (c & c' & l & handed & Hc & Hc' & Hl & Hcat & Ht & Hg & Hk). rewrite Hu1 in Hc.
  specialize (Hu2 c Hc). rewrite Hu2 in *. exists c, c', l, handed. by split_and!.
Qed.

Lemma untouched_trans f f1 f2 ch : untouched f f1 ch -> untouched f1 f2 ch -> untouched f f2 ch.
Proof.
  intros [H1 H2] [H3 H4]. split; [by rewrite H3|]. intros c Hc. rewrite H4 by (by rewrite H1). by apply H2.
Qed.

Lemma fan_published_spec f chs subs hash fqn qos frame bare info :
  egress_ok f chs -> registry_ok (registry_of f) -> frame_ok frame ->
  (band_of (tq_priority qos) < k_egress_bands)%nat ->
  let reached := map (route_of fqn (zlen frame)) (List.filter (in_reach qos) subs) in
  reached ⊆ chs -> NoDup reached ->
  exists evs f', fan_published companion_route subs hash fqn qos frame bare info f = Some (tt, evs, f') /\
    egress_ok f' chs /\ registry_ok (registry_of f') /\ same_records f f' /\
    (forall ch, ch ∈ reached -> handed_over (band_of (tq_priority qos)) (tq_congestion qos) frame f f' ch) /\
    (forall ch, ch ∉ reached -> untouched f f' ch) /\
    delivered_events evs = replicate (length reached) (Delivered hash fqn info bare).
Proof.
  intros Hok Hreg Hf Hb. revert f Hok Hreg.
  induction subs as [|sub subs IH]; intros f Hok Hreg reached Hsub Hnd; unfold fan_published in *; cbn [each].
  { eexists _, f. split; [done|]. split_and!; try done. intros ch Hch. by apply elem_of_nil in Hch. }
  unfold reached in *. cbn [List.filter] in *.
  destruct (fan_one_spec f chs hash fqn qos frame bare info sub Hok Hreg Hf Hb) as (e1 & f1 & H1 & Hok1 & Hreg1 & Hs1 & Hu1 & Hh1 & Hd1).
  { intros E. rewrite E in Hsub. apply Hsub. cbn. apply list_elem_of_here. }
  rewrite (bind_run _ _ _ _ _ _ H1). destruct (in_reach qos sub); cbn [map] in *.
  - apply NoDup_cons in Hnd as [Hnin Hnd].
    destruct (IH f1 Hok1 Hreg1 ltac:(set_solver) Hnd) as (e2 & f2 & H2 & Hok2 & Hreg2 & Hs2 & Hh2 & Hu2 & Hd2).
    rewrite H2. eexists _, f2. split; [done|]. split_and!; try done.
    + by eapply same_records_trans.
    + intros ch [->|Hch]%elem_of_cons.
      * eapply handed_over_later; [by apply Hh1|by apply Hu2].
      * eapply handed_over_earlier; [|by apply Hh2]. apply Hu1. right. by intros ->.
    + intros ch [Hne Hch]%not_elem_of_cons. eapply untouched_trans; [apply Hu1; by right|by apply Hu2].
    + rewrite delivered_app, Hd1, Hd2. done.
  - destruct (IH f1 Hok1 Hreg1 Hsub Hnd) as (e2 & f2 & H2 & Hok2 & Hreg2 & Hs2 & Hh2 & Hu2 & Hd2).
    rewrite H2. eexists _, f2. split; [done|]. split_and!; try done.
    + by eapply same_records_trans.
    + intros ch Hch. eapply handed_over_earlier; [|by apply Hh2]. apply Hu1. by left.
    + intros ch Hch. eapply untouched_trans; [apply Hu1; by left|by apply Hu2].
    + rewrite delivered_app, Hd1, Hd2. done.
Qed.

(** ** Publishing *)

Lemma band_of_lt p : (band_of p < k_egress_bands)%nat.
Proof. unfold band_of, k_egress_bands. lia. Qed.

(** The retained frames of a topic, of depth [n]. *)
Definition history (n : nat) f (hash : Z) (fs : list bytes) : Prop :=
  match f_retained f !! hash with
  | None => fs = []
  | Some ring => fs <> [] /\ Ring.holds n ring fs
  end.

Lemma history_depth_range d : 1 <= history_depth d <= k_history_depth_cap.
Proof. unfold history_depth, k_history_depth_cap. lia. Qed.

Lemma retain_spec f hash qos frame fs :
  let n := Z.to_nat (history_depth (depth qos)) in
  (latch qos = true -> history n f hash fs) ->
  exists m, retain_if_latched hash qos frame f = Some (tt, [], set_retained f m) /\
    (latch qos = false -> m = f_retained f) /\
    (latch qos = true -> history n (set_retained f m) hash (drop (length fs + 1 - n) (fs ++ [frame]))) /\
    (forall h, h <> hash -> m !! h = f_retained f !! h).
Proof.
  intros n Hh. unfold retain_if_latched. destruct (latch qos); cbn [negb].
  2:{ exists (f_retained f). split; [by destruct f|done]. }
  specialize (Hh eq_refl). pose proof (history_depth_range (depth qos)) as Hd. unfold k_history_depth_cap in Hd.
  assert (exists r, Ring.push (Ring.resize_to (default Ring.history_ring_new (f_retained f !! hash)) (history_depth (depth qos))) frame
            = Some r /\ Ring.holds n r (drop (length fs + 1 - n) (fs ++ [frame]))) as (r & Hp & Hr).
  { replace (history_depth (depth qos)) with (Z.of_nat n) by lia. unfold history in Hh.
    destruct (f_retained f !! hash) as [ring|]; cbn [from_option id].
    - rewrite (Ring.resize_holds n ring fs) by apply Hh. apply Ring.push_holds, Hh.
    - subst fs. apply Ring.push_holds, Ring.ring_holds_new; lia. }
  exists (<[hash := r]> (f_retained f)). rewrite bind_gets, Hp, bind_lift. split; [done|]. split_and!; [done| |].
  - intros _. unfold history. cbn. rewrite lookup_insert_eq. split; [|done].
    intros E. apply (f_equal length) in E. rewrite length_drop, length_app in E. simpl in E. lia.
  - intros h Hne. by rewrite lookup_insert_ne.
Qed.

Lemma publication_frame_ok now sequence hash counter session_id payload :
  zlen payload <= 2 ^ 61 -> frame_ok (publication now sequence hash counter session_id payload).
Proof.
  intros Hp. unfold frame_ok, publication, zlen in *. rewrite length_app, length_header_layout, length_unidirectional_layout.
  assert (match counter with Some c => length (varint c) | None => 0 end <= 10)%nat.
  { destruct counter as [c|]; [pose proof (length_varint c)|simpl]; lia. }
  unfold header_size, unidirectional_header_size. lia.
Qed.

Lemma frame_publish_run f now hash payload counter session_id :
  frame_publish now hash payload counter session_id f
  = Some ((publication now (ep_next_sequence (f_endpoint f)) hash counter session_id payload,
           MessageInfo None (ep_next_sequence (f_endpoint f)) now 0 false), [],
          set_endpoint f (next_sequence (f_endpoint f)).2).
Proof.
  unfold frame_publish, on_endpoint. rewrite (bind_run _ _ f (ep_next_sequence (f_endpoint f)) [] (set_endpoint f (next_sequence (f_endpoint f)).2)).
  - by rewrite encode_publication, bind_lift.
  - rewrite bind_gets. cbn. rewrite bind_modify. done.
Qed.

(** What a publication on [topic] looks like and where it goes. *)
Definition publication_of f (now : Z) (fqn payload : bytes) (session_id : Z) (topic : topic_entry) : bytes :=
  publication now (ep_next_sequence (f_endpoint f)) (fqn_topic_hash fqn) (counter_of topic) session_id payload.

Definition reached_by f (now : Z) (fqn payload : bytes) (session_id : Z) (topic : topic_entry) : list Z :=
  map (route_of fqn (zlen (publication_of f now fqn payload session_id topic)))
    (List.filter (in_reach (e_qos topic)) (e_subscribers topic)).

(** The stamp a publication carries is in its widths. *)
Definition publishable f (now : Z) (payload : bytes) (session_id : Z) : Prop :=
  in_width 64 now /\ in_width 64 session_id /\ in_width 64 (ep_next_sequence (f_endpoint f)) /\ zlen payload <= 2 ^ 61.

Lemma publish_run f chs now fqn payload session_id topic fs :
  let hash := fqn_topic_hash fqn in
  let frame := publication_of f now fqn payload session_id topic in
  let reached := reached_by f now fqn payload session_id topic in
  let n := Z.to_nat (history_depth (depth (e_qos topic))) in
  let info := MessageInfo None (ep_next_sequence (f_endpoint f)) now 0 false in
  entry_for (registry_of f) hash = Some topic ->
  (e_subscribers topic <> [] \/ latch (e_qos topic) = true) ->
  egress_ok f chs -> registry_ok (registry_of f) -> zlen payload <= 2 ^ 61 ->
  reached ⊆ chs -> NoDup reached ->
  (latch (e_qos topic) = true -> history n f hash fs) ->
  exists evs f', publish companion_route now fqn payload session_id f = Some (tt, evs, f') /\
    (forall ch, ch ∈ reached -> handed_over (band_of (tq_priority (e_qos topic))) (tq_congestion (e_qos topic)) frame f f' ch) /\
    (forall ch, ch ∉ reached -> untouched f f' ch) /\
    (exists evs', evs = Published hash fqn payload :: evs' /\
       delivered_events evs' = replicate (length reached) (Delivered hash fqn info payload)) /\
    (latch (e_qos topic) = true -> history n f' hash (drop (length fs + 1 - n) (fs ++ [frame]))) /\
    (forall h, h <> hash \/ latch (e_qos topic) = false -> f_retained f' !! h = f_retained f !! h) /\
    ep_next_sequence (f_endpoint f') = wrap 64 (ep_next_sequence (f_endpoint f) + 1) /\
    egress_ok f' chs /\ registry_ok (registry_of f').
Proof.
  intros hash frame reached n info He Hsome Hok Hreg Hp Hsub Hnd Hh. unfold publish. rewrite bind_gets. fold hash. rewrite He.
  assert (bool_decide (e_subscribers topic = []) && negb (latch (e_qos topic)) = false) as ->.
  { destruct Hsome as [Hne| ->]; [by rewrite bool_decide_eq_false_2|apply andb_false_r]. }
  rewrite (bind_run _ _ _ _ _ _ (frame_publish_run f now hash payload (counter_of topic) session_id)). cbn beta iota.
  change (publication _ _ _ _ _ _) with frame. change (MessageInfo _ _ _ _ _) with info.
  set (f1 := set_endpoint f _). 
  assert (bare_of frame (counter_of topic) = Some payload) as -> by apply bare_of_publication. rewrite bind_lift, bind_emit.
  destruct (fan_published_spec f1 chs (e_subscribers topic) hash fqn (e_qos topic) frame payload info)
    as (evs & f2 & Hf & Hok2 & Hreg2 & Hs2 & Hh2 & Hu2 & Hd2).
  { destruct Hok. by split. }
  { done. }
  { by apply publication_frame_ok. }
  { apply band_of_lt. }
  { done. }
  { done. }
  rewrite (bind_run _ _ _ _ _ _ Hf). destruct Hs2 as (_ & Hret & _ & _ & Hseq).
  destruct (retain_spec f2 hash (e_qos topic) frame fs) as (m & Hm & Hm1 & Hm2 & Hm3).
  { intros El. specialize (Hh El). unfold history in *. by rewrite Hret. }
  rewrite Hm. rewrite app_nil_r. eexists _, (set_retained f2 m). split; [done|]. split_and!.
  - intros ch Hch. exact (Hh2 ch Hch).
  - intros ch Hch. exact (Hu2 ch Hch).
  - eauto.
  - done.
  - intros h [Hne|El]; cbn; [by rewrite Hm3, Hret|by rewrite Hm1, Hret].
  - exact Hseq.
  - destruct Hok2. by split.
  - done.
Qed.

End Fanout.

(** ** The stream channel as the channel of a peer *)

(** A stream channel with the scheme of its remote endpoint; it carries no objects. *)
Record peer_stream : Type := PeerStream { ps_scheme : bytes; ps_channel : stream_channel }.

#[global] Instance peer_stream_byte_channel : ByteChannel peer_stream := {
  can_poll := true;
  scheduler_key c := scheduler_key (ps_channel c);
  backpressured c := backpressured (ps_channel c);
  write_queue_capacity c := write_queue_capacity (ps_channel c);
  send c f := PeerStream (ps_scheme c) <$> stream_send (ps_channel c) f;
}.

#[global] Instance peer_stream_channel : PeerChannel peer_stream := {
  peer_byte_channel := peer_stream_byte_channel;
  remote_scheme := ps_scheme;
  can_send_object := false;
  send_object _ _ _ := None;
}.

(** An open plaintext channel survives every frame, taken or refused. *)
Lemma plaintext_send_keeps (c : stream_channel) f :
  plaintext_ready c -> frame_ok f ->
  exists c', stream_send c f = Some c' /\ plaintext_ready c' /\ c_scheduler_key c' = c_scheduler_key c /\
    (taken c' = taken c ++ [f] \/ taken c' = taken c).
Proof.
  intros (Hopen & Hboot & Ho & cap & gather & Hg & Hcap & Hinv) [_ Hf].
  unfold stream_send, submit. rewrite Hopen, Hboot. cbn [negb]. eexists. split; [done|].
  unfold enqueue_egress. destruct (StreamQueue.enqueue _ f) as [ [ok evs] q] eqn:He.
  assert (StreamQueue.m_open q = true) as Hoq.
  { unfold StreamQueue.enqueue in He. destruct (StreamQueue.admits _ _); cbn [negb] in He; [|by simplify_eq].
    unfold StreamQueue.admit_node, StreamQueue.resume in He.
    destruct (negb _); [|by simplify_eq]. unfold StreamQueue.drive in He.
    destruct (StreamQueue.m_queue _); simplify_eq; done. }
  pose proof (StreamQueue.enqueue_inv cap gather (2 ^ 62) (c_egress c) f ok evs q Hg ltac:(unfold in_width; lia)
                ltac:(unfold in_width; lia) Hf Ho Hinv He) as Hinv'.
  assert (forall c', c_egress c' = StreamQueue.Session q (StreamQueue.s_writes (c_egress c) ++ StreamQueue.buffers evs)
                      (StreamQueue.s_accepted (c_egress c) ++ if ok then [f] else [])
                      (StreamQueue.s_written (c_egress c) ++ concat (StreamQueue.buffers evs)) ->
            c_open c' = true -> c_bootstrap c' = plaintext_bootstrap -> plaintext_ready c') as Hready.
  { intros c' Ec' Ho' Hb'. unfold plaintext_ready. rewrite Ec'. split; [done|]. split; [done|]. split; [done|].
    exists cap, gather. split; [done|]. split; [done|]. exact Hinv'. }
  unfold after_admission. destruct ok.
  - split; [by apply Hready|]. split; [done|]. by left.
  - unfold stream_on_write_queue_full.
    destruct (c_congestion _) eqn:Eg; cbn; (split; [by apply Hready|]; split; [done|]; right; by rewrite app_nil_r).
Qed.

#[global] Instance peer_stream_contract : PeerContract peer_stream.
Proof.
  unshelve refine {| peer_channel_contract := {| ready c := plaintext_ready (ps_channel c);
                      taken c := taken (ps_channel c); contract_polls := eq_refl |} |}.
  - intros c f Hr Hf Ha. destruct (@send_takes _ _ stream_channel_contract (ps_channel c) f Hr Hf Ha) as (c' & Hs & Hr' & Ht & Hk).
    exists (PeerStream (ps_scheme c) c'). cbn in *. by rewrite Hs.
  - intros c c' f Hs. cbn in Hs. apply fmap_Some in Hs as (x & _ & ->). done.
  - intros c f Hr Hf. destruct (plaintext_send_keeps (ps_channel c) f Hr Hf) as (c' & Hs & Hr' & Hk & Ht).
    exists (PeerStream (ps_scheme c) c'). cbn in *. by rewrite Hs.
Defined.

(** ** What subscribers receive *)

Section Theorems.
Context {host : Host} {C : Type} `{!PeerChannel C} `{!PeerContract C}.
Context (companion_route : bytes -> bytes -> Z -> option Z).
Implicit Types f : message_forwarder C.

Definition carries (frame : bytes) (sequence hash : Z) (counter : option Z) (session_id now : Z) (payload : bytes) : Prop :=
  exists len, decode_header frame = Some (with_payload_len (publication_header counter session_id now) len) /\
    decode_unidirectional (drop header_size frame) (bool_decide (is_Some counter))
    = Some (UnidirectionalDecodeResult (UnidirectionalHeader src_publisher sequence hash) counter payload).

Lemma publication_carries now sequence hash counter session_id payload :
  in_width 64 now -> in_width 64 sequence -> in_width 64 hash -> in_width 64 session_id ->
  (match counter with Some c => in_width 64 c | None => True end) -> zlen payload <= 2 ^ 61 ->
  carries (publication now sequence hash counter session_id payload) sequence hash counter session_id now payload.
Proof.
  intros Hn Hs Hh Hi Hc Hp. unfold carries, publication. set (body := unidirectional_layout _ _ _).
  exists (zlen body). split.
  - apply decode_header_layout. unfold frame_header_ok, with_payload_len, publication_header. cbn. split_and!; try done.
    + destruct counter; by vm_compute.
    + unfold body, in_width, zlen in *. rewrite length_unidirectional_layout.
      destruct counter as [c|]; [pose proof (length_varint c)|]; lia.
  - rewrite <- (length_header_layout (with_payload_len (publication_header counter session_id now) (zlen body))), drop_app_length.
    by apply decode_unidirectional_layout.
Qed.

Lemma topic_hash_width fqn : in_width 64 (fqn_topic_hash fqn).
Proof.
  unfold fqn_topic_hash. assert (in_width 64 1469598103934665603) as H by (by vm_compute). revert H.
  generalize 1469598103934665603. induction fqn as [|b fqn IH]; intros h Hh; [done|]. cbn. apply IH.
  unfold fnv_step. apply wrap_range. lia.
Qed.

Lemma counter_width f hash topic :
  registry_ok (registry_of f) -> m_next_endpoint_counter (registry_of f) <= 2 ^ 64 ->
  entry_for (registry_of f) hash = Some topic ->
  match counter_of topic with Some c => in_width 64 c | None => True end.
Proof.
  intros Hr Hn He. unfold counter_of. destruct (e_emit_source_identity topic); [|done].
  destruct (e_endpoint_counter topic) as [c|] eqn:Ec; [|done].
  pose proof (eo_minted _ _ (ro_entries _ Hr _ _ He) c Ec). unfold in_width. lia.
Qed.

(** C12: Publishing on a topic that has subscribers or is latched hands one frame to the
    route of every subscriber whose tier the topic reaches and to no other channel.  The
    frame decodes back to the payload under the topic's hash, the next sequence number, and
    the topic's endpoint counter when it emits source identity.  Each route gets it exactly
    once, through the band of the topic's priority under its congestion mode, and takes its
    backlog in priority order as far as its gate allows; every other channel and its bands are
    unchanged.  The observers see one publication and one delivery per subscriber reached; a
    latched topic retains the frame as the newest of its last [depth] (at most 1024) frames;
    and the operation returns.  Assumed: the routes of the reached subscribers are distinct,
    exist and are ready channels of the contract (they take what passes the gate), and no two
    channels share a scheduler key ([egress_ok]; the engine's invariant of [EngineWorld] keeps the
    subscribers' channels alive); the registry is well formed; the retained frames fit the
    topic's present depth (they may not after a new declaration,
    [redeclared_depth_overruns_history]); clock, session and sequence number are 64-bit and
    the payload is at most 2^61 bytes. *)
Theorem publish_reaches_exactly_the_subscribers f chs now fqn payload session_id topic fs :
  let hash := fqn_topic_hash fqn in
  let qos := e_qos topic in
  let sequence := ep_next_sequence (f_endpoint f) in
  let reached := reached_by companion_route f now fqn payload session_id topic in
  let n := Z.to_nat (history_depth (depth qos)) in
  entry_for (registry_of f) hash = Some topic ->
  (e_subscribers topic <> [] \/ latch qos = true) ->
  egress_ok f chs -> registry_ok (registry_of f) -> m_next_endpoint_counter (registry_of f) <= 2 ^ 64 ->
  publishable f now payload session_id -> reached ⊆ chs -> NoDup reached ->
  (latch qos = true -> history n f hash fs) ->
  exists frame evs f', publish companion_route now fqn payload session_id f = Some (tt, evs, f') /\
    carries frame sequence hash (counter_of topic) session_id now payload /\
    (forall ch, ch ∈ reached -> handed_over (band_of (tq_priority qos)) (tq_congestion qos) frame f f' ch) /\
    (forall ch, ch ∉ reached -> untouched f f' ch) /\
    (exists evs', evs = Published hash fqn payload :: evs' /\
       delivered_events evs'
       = replicate (length reached) (Delivered hash fqn (MessageInfo None sequence now 0 false) payload)) /\
    (latch qos = true -> history n f' hash (drop (length fs + 1 - n) (fs ++ [frame]))) /\
    ep_next_sequence (f_endpoint f') = wrap 64 (sequence + 1).
Proof.
  intros hash qos sequence reached n He Hsome Hok Hreg Hnext (Hnow & Hsid & Hseq & Hp) Hsub Hnd Hh.
  destruct (publish_run companion_route f chs now fqn payload session_id topic fs He Hsome Hok Hreg Hp Hsub Hnd Hh)
    as (evs & f' & H1 & H2 & H3 & H4 & H5 & _ & H6 & _ & _).
  exists (publication_of f now fqn payload session_id topic), evs, f'. split; [done|]. split; [|by split_and!].
  apply publication_carries; try done; [apply topic_hash_width|by eapply counter_width].
Qed.

End Theorems.

(** A forwarder with one stream channel, on which a peer has subscribed to a latched topic. *)
Definition sample_topic : bytes := [Byte.x61; Byte.x62].
Definition sample_channels : gmap Z peer_stream :=
  {[ 1 := PeerStream scheme_tcp (open_channel plaintext_bootstrap 4096) ]}.
Definition sample_qos : topic_qos := TopicQos true 2 loc_any best_effort block prio_high hint_none 0 0 0.
Definition sample_forwarder : message_forwarder peer_stream :=
  let f := message_forwarder_new global_default_max_message_bytes sample_channels in
  let f := set_endpoint f (set_registry (f_endpoint f)
    (declare (registry_of f) (fqn_topic_hash sample_topic) sample_topic sample_qos None true [] 0)) in
  set_endpoint f (set_registry (f_endpoint f)
    (add_subscriber (registry_of f) (fqn_topic_hash sample_topic) sample_topic 1 scheme_tcp [Byte.x70]
       subscriber_qos_default None)).

Lemma sample_egress_ok : egress_ok sample_forwarder [1].
Proof.
  split.
  - exact scheduler_ok_empty.
  - intros a b c d Ha Hb _. change (f_channels sample_forwarder) with sample_channels in *. unfold sample_channels in *.
    apply lookup_singleton_Some in Ha as [<- _]. by apply lookup_singleton_Some in Hb as [<- _].
  - intros ch ->%list_elem_of_singleton. eexists. split; [reflexivity|]. apply plaintext_open_ready. lia.
Qed.

Lemma sample_registry_ok : registry_ok (registry_of sample_forwarder).
Proof. apply add_subscriber_ok, declare_ok; [apply registry_ok_new|by vm_compute]. Qed.

Lemma publish_reaches_exactly_the_subscribers_witness :
  exists evs f', publish (host := little) (fun _ _ _ => None) 5 sample_topic [Byte.x07] 0 sample_forwarder = Some (tt, evs, f') /\
    ep_next_sequence (f_endpoint f') = 1.
Proof.
  destruct (entry_for (registry_of sample_forwarder) (fqn_topic_hash sample_topic)) as [topic|] eqn:Et;
    [|vm_compute in Et; discriminate Et].
  assert (e_qos topic = sample_qos /\ map s_channel (e_subscribers topic) = [1] /\
          map s_tier (e_subscribers topic) = [loc_remote]) as (Eq & Es & Ei).
  { vm_compute in Et. injection Et as <-. by split_and!. }
  destruct (e_subscribers topic) as [|sub [|]] eqn:Esub; try discriminate Es. injection Es as Es. injection Ei as Ei.
  destruct (publish_reaches_exactly_the_subscribers (host := little) (fun _ _ _ => None) sample_forwarder [1] 5 sample_topic
              [Byte.x07] 0 topic []) as (frame & evs & f' & Hp & _ & _ & _ & _ & _ & Hs).
  - exact Et.
  - left. by rewrite Esub.
  - exact sample_egress_ok.
  - exact sample_registry_ok.
  - vm_compute. discriminate.
  - repeat split; vm_compute; congruence.
  - unfold reached_by. rewrite Esub, Eq. cbn [List.filter]. unfold in_reach. rewrite Ei. change (any_set (reach sample_qos) loc_remote) with true. cbn [map].
    unfold route_of. cbn [from_option id]. by rewrite Es.
  - unfold reached_by. rewrite Esub, Eq. cbn [List.filter]. unfold in_reach. rewrite Ei. cbn. apply NoDup_singleton.
  - intros _. unfold history. reflexivity.
  - exists evs, f'. split; [exact Hp|]. rewrite Hs. vm_compute. reflexivity.
Defined.
