(* ===== verification/Subscription.v ===== *)
(** * The outcome of a subscription

    Theorems about [attach_for_fanout], [replay_if_latched], [attach] and [detach] of the
    forwarder: which subscriptions are admitted, what the subscriber is told, and what a
    late joiner of a latched topic receives. *)

From S2P Require Import Prelude EventMonad ByteOrder Varint Cursor Frame Control Hash Fragmentation SendQueue Egress Qos History Registry Forwarder.

Section Subscription.
Context {host : Host} {C : Type} `{!PeerChannel C} `{!PeerContract C}.
Implicit Types f : message_forwarder C.

(** ** Sending *)

(** Frames handed to a channel one after the other. *)
Fixpoint send_all (c : C) (frames : list bytes) : option C :=
  match frames with
  | [] => Some c
  | frame :: frames => c ← send c frame; send_all c frames
  end.

Lemma send_all_app c a b : send_all c (a ++ b) = c' ← send_all c a; send_all c' b.
Proof.
  revert c. induction a as [|x a IH]; intros c; [done|]. cbn. destruct (send c x); [|done]. cbn. apply IH.
Qed.

Lemma send_all_total c frames :
  ready c -> Forall frame_ok frames ->
  exists c', send_all c frames = Some c' /\ ready c' /\ scheduler_key c' = scheduler_key c /\
    remote_scheme c' = remote_scheme c.
Proof.
  intros Hr Hf. revert c Hr. induction Hf as [|x frames Hx _ IH]; intros c Hr; [by exists c|]. cbn.
  destruct (send_keeps c x Hr Hx) as (c1 & Hs & Hr1 & Hk1 & _). rewrite Hs. cbn.
  destruct (IH c1 Hr1) as (c' & -> & Hr' & Hk' & Hsch). exists c'. split_and!; try done; [congruence|].
  rewrite Hsch. by eapply send_scheme.
Qed.

Lemma channel_send_run f ch c c' data :
  f_channels f !! ch = Some c -> send c data = Some c' -> channel_send ch data f = Some (tt, [], set_channel f ch c').
Proof.
  intros Hc Hs. unfold channel_send, channel_at.
  rewrite (bind_run _ _ f c [] f) by (rewrite bind_gets; unfold lift; by rewrite Hc). by rewrite Hs, bind_lift.
Qed.

Lemma set_channel_set_channel f ch c c' : set_channel (set_channel f ch c) ch c' = set_channel f ch c'.
Proof. unfold set_channel. cbn. by rewrite insert_insert_eq. Qed.

Lemma set_channel_id f ch c : f_channels f !! ch = Some c -> set_channel f ch c = f.
Proof. intros Hc. unfold set_channel. rewrite insert_id by done. by destruct f. Qed.

Definition control_bytes (now : Z) (type : msg_type) (inner : bytes) : bytes :=
  header_layout (FrameHeader type 0 0 now (zlen inner)) ++ inner.

(** The forwarder after a control frame was built in the scratch buffer. *)
Definition after_control f (frame : bytes) : message_forwarder C :=
  set_endpoint f (SubscriptionEndpoint (registry_of f) frame (ep_next_sequence (f_endpoint f))).

Lemma send_control_run f now ch type inner c c' :
  f_channels f !! ch = Some c -> send c (control_bytes now type inner) = Some c' ->
  send_control now ch type inner f
  = Some (tt, [], set_channel (after_control f (control_bytes now type inner)) ch c').
Proof.
  intros Hc Hs. unfold send_control, control_frame. rewrite bind_gets, encode_frame_into_layout. cbn [mbind option_bind].
  rewrite bind_lift, bind_modify. by apply (channel_send_run _ ch c c').
Qed.

Lemma control_bytes_ok now type inner : zlen inner <= 2 ^ 61 -> frame_ok (control_bytes now type inner).
Proof.
  intros H. unfold frame_ok, control_bytes, zlen in *. rewrite length_app, length_header_layout. unfold header_size. lia.
Qed.

(** ** Replay *)

(** What a subscriber of a durability is sent of the retained frames. *)
Definition replayed (q : subscriber_qos) (fs : list bytes) : list bytes :=
  if durability_mode q =? dur_latest then match last fs with Some g => [g] | None => [] end
  else if durability_mode q =? dur_all then
    if replay_depth q =? 0 then fs else drop (length fs - Z.to_nat (replay_depth q)) fs
  else [].

Lemma replayed_Forall (P : bytes -> Prop) q fs : Forall P fs -> Forall P (replayed q fs).
Proof.
  intros H. unfold replayed. destruct (durability_mode q =? dur_latest).
  - destruct (last fs) as [g|] eqn:Eg; [|constructor]. apply last_Some in Eg as [l ->].
    by apply Forall_app in H as [_ H].
  - destruct (durability_mode q =? dur_all); [|constructor]. destruct (replay_depth q =? 0); [done|by apply Forall_drop].
Qed.

Lemma replay_window_run f p n ring fs (limit : nat) c c' :
  f_channels f !! p_channel p = Some c -> Ring.holds n ring fs -> (limit <= length fs)%nat ->
  send_all c (drop (length fs - limit) fs) = Some c' ->
  replay_window p ring (Z.of_nat limit) f = Some (tt, [], set_channel f (p_channel p) c').
Proof.
  intros Hc Hh Hl Hs. destruct (Ring.h_count _ _ _ Hh) as [Hcount _].
  unfold replay_window, Ring.count. rewrite Nat2Z.id, Hcount. unfold zlen.
  set (base := (length fs - limit)%nat) in *.
  assert (forall k fs', fs' = drop (base + k) fs -> forall f c, f_channels f !! p_channel p = Some c ->
            send_all c fs' = Some c' ->
            each (fun k => frame ← lift (Ring.oldest_to_newest ring (Z.of_nat (length fs) - Z.of_nat limit + Z.of_nat k));
                           channel_send (p_channel p) frame) (seq k (length fs')) f
            = Some (tt, [], set_channel f (p_channel p) c')) as H.
  { intros k fs' E. revert k E. induction fs' as [|g fs' IH]; intros k E g0 d Hd Hsd.
    - cbn in *. simplify_eq. by rewrite set_channel_id.
    - cbn [length seq each]. cbn in Hsd. destruct (send d g) as [d1|] eqn:Eg; [|done]. cbn in Hsd.
      assert (fs !! (base + k)%nat = Some g) as Hg by (rewrite <- (Nat.add_0_r (base + k)), <- lookup_drop, <- E; done).
      assert (Ring.oldest_to_newest ring (Z.of_nat (length fs) - Z.of_nat limit + Z.of_nat k) = Some g) as ->.
      { replace (Z.of_nat (length fs) - Z.of_nat limit + Z.of_nat k) with (Z.of_nat (base + k)) by (unfold base; lia).
        rewrite (Ring.oldest_to_newest_holds n ring fs); [done|done|]. by apply lookup_lt_Some in Hg. }
      rewrite (bind_run _ _ g0 tt [] (set_channel g0 (p_channel p) d1)).
      2:{ rewrite bind_lift. by apply (channel_send_run _ _ d). }
      rewrite (IH (S k)) with (c := d1); try done.
      + cbn. by rewrite set_channel_set_channel.
      + replace (base + S k)%nat with (S (base + k)) by lia. by rewrite (drop_S fs g (base + k) Hg) in E; simplify_eq.
      + cbn. by rewrite lookup_insert_eq. }
  assert (limit = length (drop base fs)) as El by (rewrite length_drop; unfold base; lia).
  replace (seq 0 limit) with (seq 0 (length (drop base fs))) by (by rewrite <- El). apply (H 0%nat (drop base fs)) with (c := c); [by rewrite Nat.add_0_r|done|done].
Qed.

Lemma replay_if_latched_run f p hash n fs c c' :
  let q := qos_for_subscriber (registry_of f) hash (p_channel p) in
  f_channels f !! p_channel p = Some c -> latch (qos_for (registry_of f) hash) = true -> history n f hash fs ->
  0 <= replay_depth q -> send_all c (replayed q fs) = Some c' ->
  replay_if_latched p hash f = Some (tt, [], set_channel f (p_channel p) c').
Proof.
  intros q Hc Hl Hh Hd Hs. unfold replay_if_latched. rewrite bind_gets, Hl. cbn [negb]. rewrite bind_gets.
  unfold history in Hh. fold q. unfold replayed in Hs. destruct (f_retained f !! hash) as [ring|].
  2:{ subst fs. assert (c' = c) as ->; [|by rewrite set_channel_id].
      rewrite drop_nil in Hs. by repeat case_match; simplify_eq/=. }
  destruct Hh as [Hne Hh]. destruct (Ring.h_count _ _ _ Hh) as [Hcount _]. unfold Ring.empty.
  destruct (Z.eqb_spec (Ring.m_count ring) 0) as [E0|_].
  { rewrite Hcount in E0. unfold zlen in E0. destruct fs; simpl in E0; [done|lia]. }
  destruct (Z.eqb_spec (durability_mode q) dur_none) as [En|Hn].
  { rewrite En in Hs. cbn in Hs. simplify_eq. by rewrite set_channel_id. }
  destruct (durability_mode q =? dur_latest).
  { destruct (last fs) as [g|] eqn:Eg; [|by apply last_None in Eg]. cbn in Hs.
    destruct (send c g) as [d|] eqn:Ed; [|done]. cbn in Hs. simplify_eq.
    rewrite (Ring.newest_holds n ring fs Hh Hne), Eg, bind_lift. by apply (channel_send_run _ _ c). }
  destruct (durability_mode q =? dur_all).
  2:{ simplify_eq/=. by rewrite set_channel_id. }
  cbv zeta. unfold Ring.count. rewrite Hcount. unfold zlen. destruct (replay_depth q =? 0); cbn [negb].
  - apply (replay_window_run f p n ring fs (length fs) c c'); [done|done|lia|]. by rewrite Nat.sub_diag, drop_0.
  - replace (Z.min (Z.of_nat (length fs)) (replay_depth q)) with (Z.of_nat (Nat.min (length fs) (Z.to_nat (replay_depth q)))) by lia.
    apply (replay_window_run f p n ring fs _ c c'); [done|done|lia|].
    by replace (length fs - Nat.min (length fs) (Z.to_nat (replay_depth q)))%nat with (length fs - Z.to_nat (replay_depth q))%nat by lia.
Qed.

(** ** Outcomes *)

Inductive outcome : Type :=
| Refused (status : subscribe_status)
| AlreadyHeld
| Accepted (resp : subscribe_response).

(** How many holds this peer has on the topic. *)
Definition holds_of f (p : peer) (fqn : bytes) : Z := Refcount.count_of (m_refcount (registry_of f)) (p_node_name p) fqn.

Definition admission_response (hash : Z) (res : rxo_result) : subscribe_response :=
  match verdict res with
  | degraded => SubscribeResponse hash sub_subscribed_degraded true (degraded_fields res)
  | _ => SubscribeResponse hash sub_subscribed false 0
  end.

Definition check_of f (fqn : bytes) (q : subscriber_qos) : rxo_result :=
  let hash := fqn_topic_hash fqn in
  rxo_check (qos_for (registry_of f) hash) (offers_source_identity (registry_of f) hash) (f_global_default f) q.

(** The request against the offer, then the first hold. *)
Definition outcome_by_qos f (p : peer) (fqn : bytes) (q : subscriber_qos) : outcome :=
  match verdict (check_of f fqn q) with
  | source_identity_incompatible => Refused sub_source_identity_incompatible
  | incompatible_qos => Refused sub_incompatible_qos
  | _ => if holds_of f p fqn =? 0 then Accepted (admission_response (fqn_topic_hash fqn) (check_of f fqn q)) else AlreadyHeld
  end.

(** The type rules come first. *)
Definition outcome_of f (p : peer) (fqn : bytes) (type_id : option Z) (q : subscriber_qos) : outcome :=
  match producer_type_id (registry_of f) (fqn_topic_hash fqn), type_id with
  | Some a, Some b => if a =? b then outcome_by_qos f p fqn q else Refused sub_type_mismatch
  | None, Some _ =>
      match posture q with posture_strict => Refused sub_type_undeclared | posture_lenient => outcome_by_qos f p fqn q end
  | _, None => outcome_by_qos f p fqn q
  end.

(** The frame that answers a subscribe. *)
Definition response_frame (now : Z) (r : subscribe_response) : bytes :=
  control_bytes now msg_subscribe_response
    (be_bytes 8 (sp_topic_hash r) ++ be_bytes 1 (sp_status r) ++
     (if sp_has_degraded r then be_bytes 1 (sp_degraded_flags r) else [])).

Lemma send_response_run f now ch resp c c' :
  f_channels f !! ch = Some c -> send c (response_frame now resp) = Some c' ->
  send_subscribe_response now ch resp f = Some (tt, [], set_channel (after_control f (response_frame now resp)) ch c').
Proof.
  intros Hc Hs. unfold send_subscribe_response. rewrite encode_subscribe_response_layout, bind_lift.
  by apply (send_control_run _ _ _ _ _ c).
Qed.

Lemma response_frame_ok now r : frame_ok (response_frame now r).
Proof.
  unfold response_frame. apply control_bytes_ok. unfold zlen. rewrite !length_app, !length_be_bytes.
  destruct (sp_has_degraded r); rewrite ?length_be_bytes; cbn [length]; lia.
Qed.

Lemma attach_gate_run f p fqn :
  Refcount.ok (m_refcount (registry_of f)) -> holds_of f p fqn < 2 ^ 32 - 1 ->
  exists c, on_endpoint (fun e => attach_gate e (p_node_name p) fqn) f
            = Some (holds_of f p fqn =? 0, [], set_endpoint f (set_registry (f_endpoint f) (set_refcount (registry_of f) c))) /\
    Refcount.ok c /\
    forall a b, Refcount.count_of c a b
      = Refcount.set_count (Refcount.count_of (m_refcount (registry_of f))) (p_node_name p) fqn (holds_of f p fqn + 1) a b.
Proof.
  intros Hok Hlt. destruct (Refcount.bump_spec _ (p_node_name p) fqn Hok Hlt) as (c & Hb & Hok' & Hc).
  exists c. split; [|done]. unfold on_endpoint. rewrite bind_gets. unfold attach_gate, bump_refcount.
  fold (registry_of f). rewrite Hb. fold (holds_of f p fqn).
  replace (holds_of f p fqn + 1 =? 1) with (holds_of f p fqn =? 0) by (destruct (Z.eqb_spec (holds_of f p fqn) 0); lia).
  by rewrite bind_modify.
Qed.

(** The topic after a subscriber was added. *)
Lemma add_subscriber_qos r h fqn channel scheme node_name q type_id :
  qos_for (add_subscriber r h fqn channel scheme node_name q type_id) h = qos_for r h.
Proof.
  unfold qos_for, add_subscriber, add_topic_subscriber. cbn. set (e := name_entry _ fqn).
  assert (e_qos e = match m_topics r !! h with Some e => e_qos e | None => topic_qos_default end) as He.
  { unfold e, name_entry, entry_of. destruct (m_topics r !! h) as [e0|]; cbn [from_option id]; [|done].
    by destruct (e_fqn e0). }
  destruct (existsb _ _); by rewrite lookup_insert_eq.
Qed.

(** The channel has no fan-out entry on the topic yet. *)
Definition new_to_topic (r : subscriber_registry) (h channel : Z) : Prop :=
  channel ∉ map s_channel (e_subscribers (entry_of (m_topics r) h)).

Lemma find_snoc subs sub :
  s_channel sub ∉ map s_channel subs ->
  List.find (fun s => s_channel s =? s_channel sub) (subs ++ [sub]) = Some sub.
Proof.
  induction subs as [|s subs IH]; cbn; [by rewrite Z.eqb_refl|]. intros Hn. apply not_elem_of_cons in Hn as [Hne Hn].
  destruct (Z.eqb_spec (s_channel s) (s_channel sub)); [congruence|]. by apply IH.
Qed.

Lemma add_subscriber_lookup r h fqn channel scheme node_name q type_id :
  new_to_topic r h channel ->
  qos_for_subscriber (add_subscriber r h fqn channel scheme node_name q type_id) h channel = q.
Proof.
  intros Hn. unfold qos_for_subscriber, add_subscriber, add_topic_subscriber. cbn.
  destruct (name_entry_fields (entry_of (m_topics r) h) fqn) as (Hs & _). rewrite Hs.
  destruct (existsb _ _) eqn:Ex; [by apply existsb_channel in Ex|]. rewrite lookup_insert_eq. cbn.
  by rewrite (find_snoc _ (Subscriber (tier_of scheme) node_name q type_id channel)).
Qed.

Lemma add_fanout_run f p hash fqn q type_id c :
  f_channels f !! p_channel p = Some c ->
  add_fanout_entry p hash fqn q type_id f
  = Some (tt, [], set_endpoint f (set_registry (f_endpoint f)
      (add_subscriber (registry_of f) hash fqn (p_channel p) (remote_scheme c) (p_node_name p) q type_id))).
Proof.
  intros Hc. unfold add_fanout_entry, channel_at.
  by rewrite (bind_run _ _ f c [] f) by (rewrite bind_gets; unfold lift; by rewrite Hc).
Qed.

(** ** The theorem *)

(** A subscribe of [q] that arrives on a ready channel [c], on which a first hold has no
    entry on the topic yet, and whose retained frames are [fs]. *)
Record arrives f (p : peer) (fqn : bytes) (q : subscriber_qos) (c : C) (fs : list bytes) : Prop := Arrives {
  ar_channel : f_channels f !! p_channel p = Some c;
  ar_ready : ready c;
  ar_counts : Refcount.ok (m_refcount (registry_of f));
  ar_room : holds_of f p fqn < 2 ^ 32 - 1;
  ar_new : holds_of f p fqn = 0 -> new_to_topic (registry_of f) (fqn_topic_hash fqn) (p_channel p);
  ar_depth : 0 <= replay_depth q;
  ar_history : latch (qos_for (registry_of f) (fqn_topic_hash fqn)) = true ->
    exists n, history n f (fqn_topic_hash fqn) fs;
  ar_frames : Forall frame_ok fs;
}.

(** What the peer is told. *)
Definition told f (now : Z) (fqn : bytes) (q : subscriber_qos) (fs : list bytes) (o : outcome) : list bytes :=
  match o with
  | Refused status => [response_frame now (SubscribeResponse (fqn_topic_hash fqn) status false 0)]
  | AlreadyHeld => []
  | Accepted resp =>
      response_frame now resp ::
      (if latch (qos_for (registry_of f) (fqn_topic_hash fqn)) then replayed q fs else [])
  end.

(** What the observers are told. *)
Definition reported f (p : peer) (fqn : bytes) (type_id : option Z) (q : subscriber_qos) (o : outcome)
  : list forwarder_event :=
  let hash := fqn_topic_hash fqn in
  let v := verdict (check_of f fqn q) in
  match o with
  | Refused status =>
      if (status =? sub_type_mismatch) || (status =? sub_type_undeclared) then []
      else [QosChange edge_refused hash q v type_id]
  | AlreadyHeld => []
  | Accepted resp =>
      [QosChange (if sp_has_degraded resp then edge_degraded else edge_accepted) hash q v type_id;
       DemandTransition (p_node_name p) fqn demand_up role_publisher]
  end.

(** The effect on everything but the channel. *)
Definition recorded f f' (p : peer) (fqn : bytes) (type_id : option Z) (q : subscriber_qos) (c : C) (o : outcome) : Prop :=
  f_egress f' = f_egress f /\ f_retained f' = f_retained f /\ f_remote_topics f' = f_remote_topics f /\
  m_topics (registry_of f')
  = match o with
    | Accepted _ => add_topic_subscriber (m_topics (registry_of f)) (fqn_topic_hash fqn) fqn (p_channel p)
                      (remote_scheme c) (p_node_name p) q type_id
    | _ => m_topics (registry_of f)
    end /\
  forall a b, Refcount.count_of (m_refcount (registry_of f')) a b
    = match o with
      | Refused _ => Refcount.count_of (m_refcount (registry_of f)) a b
      | _ => Refcount.set_count (Refcount.count_of (m_refcount (registry_of f))) (p_node_name p) fqn (holds_of f p fqn + 1) a b
      end.

Lemma refused_run f now p fqn type_id q c fs status :
  arrives f p fqn q c fs ->
  exists f' c', send_subscribe_response now (p_channel p) (SubscribeResponse (fqn_topic_hash fqn) status false 0) f
      = Some (tt, [], f') /\
    f_channels f' = <[p_channel p := c']> (f_channels f) /\
    send_all c (told f now fqn q fs (Refused status)) = Some c' /\
    recorded f f' p fqn type_id q c (Refused status).
Proof.
  intros Ha. set (resp := SubscribeResponse _ status false 0).
  destruct (send_keeps c (response_frame now resp) (ar_ready _ _ _ _ _ _ Ha) (response_frame_ok now resp)) as (c' & Hs & _).
  eexists _, c'. split; [by apply (send_response_run _ _ _ _ c); [apply Ha|]|]. cbn [told send_all]. fold resp. rewrite Hs.
  by split_and!.
Qed.

(** The forwarder after an operation with outcome [o]. *)
Definition settled f f' (now : Z) (p : peer) (fqn : bytes) (type_id : option Z) (q : subscriber_qos) (c : C)
    (fs : list bytes) (o : outcome) : Prop :=
  exists c', f_channels f' = <[p_channel p := c']> (f_channels f) /\
    send_all c (told f now fqn q fs o) = Some c' /\ recorded f f' p fqn type_id q c o.

Lemma admission_run f now p fqn type_id q c fs resp edge v :
  let hash := fqn_topic_hash fqn in
  arrives f p fqn q c fs -> new_to_topic (registry_of f) hash (p_channel p) ->
  exists f' c', (add_fanout_entry p hash fqn q type_id ;; emit (QosChange edge hash q v type_id) ;;
                 send_subscribe_response now (p_channel p) resp ;; replay_if_latched p hash ;;
                 emit (DemandTransition (p_node_name p) fqn demand_up role_publisher) ;; mret true) f
      = Some (true, [QosChange edge hash q v type_id; DemandTransition (p_node_name p) fqn demand_up role_publisher], f') /\
    f_channels f' = <[p_channel p := c']> (f_channels f) /\
    send_all c (told f now fqn q fs (Accepted resp)) = Some c' /\
    f_egress f' = f_egress f /\ f_retained f' = f_retained f /\ f_remote_topics f' = f_remote_topics f /\
    m_topics (registry_of f') = add_topic_subscriber (m_topics (registry_of f)) hash fqn (p_channel p)
                                  (remote_scheme c) (p_node_name p) q type_id /\
    m_refcount (registry_of f') = m_refcount (registry_of f).
Proof.
  intros hash [Hc Hready _ _ _ Hd Hh Hfs] Hnew.
  rewrite (bind_run _ _ _ _ _ _ (add_fanout_run f p hash fqn q type_id c Hc)). set (f1 := set_endpoint f _).
  rewrite bind_emit.
  destruct (send_keeps c (response_frame now resp) Hready (response_frame_ok now resp)) as (c1 & Hs1 & Hr1 & Hk1 & _).
  rewrite (bind_run _ _ _ _ _ _ (send_response_run f1 now (p_channel p) resp c c1 Hc Hs1)).
  set (f2 := set_channel _ _ c1).
  assert (f_channels f2 !! p_channel p = Some c1) as Hc2 by (cbn; by rewrite lookup_insert_eq).
  assert (qos_for (registry_of f2) hash = qos_for (registry_of f) hash) as Hq by apply add_subscriber_qos.
  assert (qos_for_subscriber (registry_of f2) hash (p_channel p) = q) as Hsub by (by apply add_subscriber_lookup).
  assert (exists c2, send_all c1 (if latch (qos_for (registry_of f) hash) then replayed q fs else []) = Some c2 /\
            replay_if_latched p hash f2 = Some (tt, [], set_channel f2 (p_channel p) c2)) as (c2 & Hs2 & Hrep).
  { destruct (latch (qos_for (registry_of f) hash)) eqn:El.
    - destruct (Hh El) as (n & Hn).
      destruct (send_all_total c1 (replayed q fs) Hr1 (replayed_Forall _ q fs Hfs)) as (c2 & Hs2 & _). exists c2. split; [done|].
      apply (replay_if_latched_run f2 p hash n fs c1 c2); [done|by rewrite Hq|done|by rewrite Hsub|by rewrite Hsub].
    - exists c1. split; [done|]. unfold replay_if_latched. rewrite bind_gets, Hq, El. cbn [negb].
      by rewrite set_channel_id. }
  rewrite (bind_run _ _ _ _ _ _ Hrep). eexists _, c2. split; [reflexivity|]. cbn [told send_all]. fold hash. rewrite Hs1.
  cbn [mbind option_bind]. split_and!; try done. cbn. by rewrite insert_insert_eq.
Qed.

(** The first hold is admitted, a further one counted. *)
Lemma fanout_hold_run f now p fqn type_id q c fs :
  let res := check_of f fqn q in
  let o := if holds_of f p fqn =? 0 then Accepted (admission_response (fqn_topic_hash fqn) res) else AlreadyHeld in
  arrives f p fqn q c fs ->
  exists f', fanout_hold now p fqn type_id q res f
      = Some (match o with Accepted _ => true | _ => false end, reported f p fqn type_id q o, f') /\
    settled f f' now p fqn type_id q c fs o.
Proof.
  intros res o Ha. pose proof Ha as [Hc Hready Hok Hlt Hnew Hd Hh Hfs]. unfold fanout_hold.
  destruct (attach_gate_run f p fqn Hok Hlt) as (cnt & Hg & Hok' & Hcnt). rewrite (bind_run _ _ _ _ _ _ Hg).
  set (f1 := set_endpoint f _). unfold o, reported. fold res.
  destruct (Z.eqb_spec (holds_of f p fqn) 0) as [E0|_]; cbn [negb].
  2:{ exists f1. split; [done|]. exists c. rewrite insert_id by done. split; [done|]. split; [done|]. by split_and!. }
  assert (arrives f1 p fqn q c fs) as Ha1.
  { assert (holds_of f1 p fqn = 1) as E1.
    { unfold holds_of. change (m_refcount (registry_of f1)) with cnt. rewrite Hcnt. unfold Refcount.set_count. by rewrite decide_True, E0. }
    split; try done; rewrite E1; lia. }
  set (resp := if decide _ then _ else _). set (edge := if decide _ then _ else _).
  assert (resp = admission_response (fqn_topic_hash fqn) res) as <- by (unfold resp, admission_response; by destruct (verdict res)).
  assert ((if sp_has_degraded resp then edge_degraded else edge_accepted) = edge) as ->
    by (unfold resp, edge; by destruct (verdict res)).
  destruct (admission_run f1 now p fqn type_id q c fs resp edge (verdict res) Ha1 (Hnew E0))
    as (f' & c' & -> & Hch & Hs & H1 & H2 & H3 & H4 & H5).
  exists f'. split; [done|]. exists c'. split; [done|]. split; [done|]. split_and!; try done.
  intros a b. rewrite H5. apply Hcnt.
Qed.

Lemma refusal_run f now p fqn type_id q c fs status :
  arrives f p fqn q c fs ->
  exists f', send_subscribe_response now (p_channel p) (SubscribeResponse (fqn_topic_hash fqn) status false 0) f
      = Some (tt, [], f') /\ settled f f' now p fqn type_id q c fs (Refused status).
Proof.
  intros Ha. destruct (refused_run f now p fqn type_id q c fs status Ha) as (f' & c' & H1 & H2).
  exists f'. split; [done|]. by exists c'.
Qed.

Lemma fanout_offer_run f now p fqn type_id q c fs :
  let o := outcome_by_qos f p fqn q in
  arrives f p fqn q c fs ->
  exists f', fanout_offer now p fqn type_id q f
      = Some (match o with Accepted _ => true | _ => false end, reported f p fqn type_id q o, f') /\
    settled f f' now p fqn type_id q c fs o.
Proof.
  intros o Ha. unfold fanout_offer. rewrite !bind_gets. cbv zeta. fold (check_of f fqn q). unfold o, outcome_by_qos.
  pose proof (fanout_hold_run f now p fqn type_id q c fs Ha) as Hhold. cbv zeta in Hhold.
  destruct (verdict (check_of f fqn q)) eqn:Ev.
  - by rewrite decide_False by naive_solver.
  - by rewrite decide_False by naive_solver.
  - rewrite decide_True by naive_solver. destruct (refusal_run f now p fqn type_id q c fs sub_incompatible_qos Ha) as (f' & Hr & Hs).
    exists f'. rewrite (bind_run _ _ _ _ _ _ Hr), bind_emit. unfold reported. by rewrite Ev.
  - rewrite decide_True by naive_solver.
    destruct (refusal_run f now p fqn type_id q c fs sub_source_identity_incompatible Ha) as (f' & Hr & Hs).
    exists f'. unfold status_of. rewrite decide_True by done.
    rewrite (bind_run _ _ _ _ _ _ Hr), bind_emit. unfold reported. by rewrite Ev.
Qed.

Lemma subscribe_settles f now p fqn type_id q c fs :
  arrives f p fqn q c fs ->
  let o := outcome_of f p fqn type_id q in
  exists f' c', attach_for_fanout now p fqn type_id q f
      = Some (match o with Accepted _ => true | _ => false end, reported f p fqn type_id q o, f') /\
    f_channels f' = <[p_channel p := c']> (f_channels f) /\
    send_all c (told f now fqn q fs o) = Some c' /\ recorded f f' p fqn type_id q c o.
Proof.
  intros Ha o. unfold attach_for_fanout. rewrite bind_gets. unfold o, outcome_of, type_id_mismatch.
  destruct (fanout_offer_run f now p fqn type_id q c fs Ha) as (f1 & Hrun & c1 & Hoffer).
  destruct (producer_type_id _ _) as [a|] eqn:Ep, type_id as [b|] eqn:Et.
  - destruct (a =? b); cbn [negb].
    + rewrite decide_False by naive_solver. rewrite Hrun. eauto.
    + destruct (refusal_run f now p fqn (Some b) q c fs sub_type_mismatch Ha) as (f' & Hr & c' & Hs).
      exists f', c'. by rewrite (bind_run _ _ _ _ _ _ Hr).
  - rewrite decide_False by naive_solver. rewrite Hrun. eauto.
  - destruct (posture q) eqn:Epo.
    + rewrite decide_False by naive_solver. rewrite Hrun. eauto.
    + rewrite decide_True by naive_solver.
      destruct (refusal_run f now p fqn (Some b) q c fs sub_type_undeclared Ha) as (f' & Hr & c' & Hs).
      exists f', c'. by rewrite (bind_run _ _ _ _ _ _ Hr).
  - rewrite decide_False by naive_solver. rewrite Hrun. eauto.
Qed.

(** C27: What becomes of a subscribe that arrives.  It is refused exactly when both ends
    declare a type and the types differ, or the subscriber declares one, insists and the
    publisher has none, or the request-versus-offer check refuses, in this order; otherwise
    the first hold of the peer on the topic is admitted and a further one is only counted.
    The peer is told exactly one status (none for a further hold), followed on an admission
    to a latched topic by the retained frames its durability asks for: none, the newest,
    or the last [replay_depth] (all, for 0), oldest first.  A refusal registers nothing;
    an admission adds exactly the one fan-out entry; bands, history and remembered demands
    are not touched; and the operation always returns.  Assumed ([arrives]): the channel
    exists and is ready by its contract (it takes a frame it is given), a peer's first hold
    of a topic finds no entry of its channel there, well-formed reference counts with fewer than
    2^32 - 1 holds, a replay depth that is not negative, a retained history that is
    consistent with the topic's depth ([redeclared_depth_overruns_history] is the other case),
    and frames of the sizes a channel takes. *)
Theorem subscription_outcome_exact f now p fqn type_id q c fs :
  arrives f p fqn q c fs ->
  let o := outcome_of f p fqn type_id q in
  exists f' c', attach_for_fanout now p fqn type_id q f
      = Some (match o with Accepted _ => true | _ => false end, reported f p fqn type_id q o, f') /\
    f_channels f' = <[p_channel p := c']> (f_channels f) /\
    send_all c (told f now fqn q fs o) = Some c' /\ recorded f f' p fqn type_id q c o.
Proof. intros Ha o. by apply subscribe_settles. Qed.

(** ** Late joiners *)

(** The publications of [ps], each a clock reading and a payload, from [sequence] on. *)
Fixpoint publications (sequence hash : Z) (counter : option Z) (session_id : Z) (ps : list (Z * bytes)) : list bytes :=
  match ps with
  | [] => []
  | (now, payload) :: ps =>
      publication now sequence hash counter session_id payload :: publications (sequence + 1) hash counter session_id ps
  end.

Context (companion_route : bytes -> bytes -> Z -> option Z).

Definition publish_all (fqn : bytes) (session_id : Z) (ps : list (Z * bytes)) :=
  each (fun '(now, payload) => publish companion_route (C := C) now fqn payload session_id) ps.

(** A publication nobody is subscribed to is retained. *)
Lemma publish_unheard f now fqn payload session_id topic fs :
  let hash := fqn_topic_hash fqn in
  let n := Z.to_nat (history_depth (depth (e_qos topic))) in
  let frame := publication now (ep_next_sequence (f_endpoint f)) hash (counter_of topic) session_id payload in
  entry_for (registry_of f) hash = Some topic -> e_subscribers topic = [] -> latch (e_qos topic) = true ->
  history n f hash fs ->
  exists m, publish companion_route now fqn payload session_id f
      = Some (tt, [Published hash fqn payload], set_retained (set_endpoint f (next_sequence (f_endpoint f)).2) m) /\
    history n (set_retained f m) hash (drop (length fs + 1 - n) (fs ++ [frame])).
Proof.
  intros hash n frame He Hs Hl Hh. unfold publish. rewrite bind_gets. fold hash. rewrite He, Hs, Hl, andb_false_r.
  rewrite (bind_run _ _ _ _ _ _ (frame_publish_run f now hash payload (counter_of topic) session_id)).
  cbn beta iota. fold frame.
  assert (bare_of frame (counter_of topic) = Some payload) as -> by apply bare_of_publication. rewrite bind_lift, bind_emit.
  set (f1 := set_endpoint f _). unfold fan_published. cbn [each]. rewrite bind_ret.
  destruct (retain_spec f1 hash (e_qos topic) frame fs) as (m & -> & _ & Hm & _); [done|]. exists m. split; [done|].
  exact (Hm Hl).
Qed.

Lemma publish_all_unheard ps f fqn session_id topic pushed :
  let hash := fqn_topic_hash fqn in
  let n := Z.to_nat (history_depth (depth (e_qos topic))) in
  let s0 := ep_next_sequence (f_endpoint f) in
  entry_for (registry_of f) hash = Some topic -> e_subscribers topic = [] -> latch (e_qos topic) = true ->
  history n f hash (Ring.last_frames n pushed) -> 0 <= s0 -> s0 + zlen ps < 2 ^ 64 ->
  exists evs f', publish_all fqn session_id ps f = Some (tt, evs, f') /\
    registry_of f' = registry_of f /\ f_channels f' = f_channels f /\ f_global_default f' = f_global_default f /\
    history n f' hash (Ring.last_frames n (pushed ++ publications s0 hash (counter_of topic) session_id ps)).
Proof.
  revert f pushed. induction ps as [|[now payload] ps IH]; intros f pushed hash n s0 He Hs Hl Hh H0 Hw; unfold publish_all; cbn [each].
  { eexists _, f. rewrite app_nil_r. by split_and!. }
  assert (0 < n)%nat as Hn by (pose proof (history_depth_range (depth (e_qos topic))); lia).
  destruct (publish_unheard f now fqn payload session_id topic _ He Hs Hl Hh) as (m & Hp & Hh').
  rewrite (bind_run _ _ _ _ _ _ Hp). set (f1 := set_retained _ m).
  assert (zlen ((now, payload) :: ps) = 1 + zlen ps) as El by (unfold zlen; cbn [length]; lia). rewrite El in Hw.
  pose proof (zlen_nonneg ps) as Hz.
  assert (ep_next_sequence (f_endpoint f1) = s0 + 1) as Es1 by (cbn; apply wrap_small; unfold in_width, s0 in *; lia).
  destruct (IH f1 (pushed ++ [publication now s0 hash (counter_of topic) session_id payload])) as (evs & f' & Hr & H1 & H2 & H3 & H4);
    try done.
  - rewrite Ring.last_frames_snoc by done. exact Hh'.
  - rewrite Es1. lia.
  - rewrite Es1. lia.
  - unfold publish_all in Hr. rewrite Hr. eexists _, f'. split; [done|]. split_and!; try done.
    rewrite Es1, <- app_assoc in H4. exact H4.
Qed.

Lemma publications_ok s0 hash counter session_id ps :
  Forall (fun p => zlen p.2 <= 2 ^ 61) ps -> Forall frame_ok (publications s0 hash counter session_id ps).
Proof.
  intros H. revert s0. induction H as [|[now payload] ps Hp _ IH]; intros s0; constructor; [by apply publication_frame_ok|apply IH].
Qed.

(** C40: A late joiner of a latched topic.  On a topic declared latched with depth [d],
    after any publications with no subscriber, a peer whose subscribe is admitted is told
    its status and then exactly the newest of the last [min d 1024] publications its
    durability asks for, in publication order and each as it was published; every publication
    and the subscribe return.  Assumed: nothing is retained for the topic before these
    publications, payloads of at most 2^61 bytes, sequence numbers that do not reach 2^64, and
    of the joining peer what [arrives] says: its channel exists and is ready by its contract (it
    takes a frame it is given), it has no entry on the topic yet, and its holds, the reference
    counts and its replay depth are in range. *)
Theorem late_joiner_gets_the_last_publications f now p fqn type_id q c topic session_id ps :
  let hash := fqn_topic_hash fqn in
  let n := Z.to_nat (history_depth (depth (e_qos topic))) in
  let s0 := ep_next_sequence (f_endpoint f) in
  let pubs := publications s0 hash (counter_of topic) session_id ps in
  entry_for (registry_of f) hash = Some topic -> e_subscribers topic = [] -> latch (e_qos topic) = true ->
  f_retained f !! hash = None -> 0 <= s0 -> s0 + zlen ps < 2 ^ 64 ->
  Forall (fun p => zlen p.2 <= 2 ^ 61) ps ->
  arrives f p fqn q c [] ->
  forall resp, outcome_of f p fqn type_id q = Accepted resp ->
  exists evs f1 evs' f2 c',
    publish_all fqn session_id ps f = Some (tt, evs, f1) /\
    attach_for_fanout now p fqn type_id q f1 = Some (true, evs', f2) /\
    f_channels f2 = <[p_channel p := c']> (f_channels f) /\
    send_all c (response_frame now resp :: replayed q (Ring.last_frames n pubs)) = Some c'.
Proof.
  intros hash n s0 pubs He Hs Hl Hr H0 Hw Hps Ha resp Ho.
  destruct (publish_all_unheard ps f fqn session_id topic [] He Hs Hl) as (evs & f1 & Hp & Hreg & Hch & Hgd & Hh); [|done|done|].
  { unfold history. fold hash. rewrite Hr. done. }
  cbn [app] in Hh. fold hash s0 in Hh. fold pubs in Hh.
  assert (arrives f1 p fqn q c (Ring.last_frames n pubs)) as Ha1.
  { destruct Ha as [H1 H2 H3 H4 H5 H6 _ _]. unfold holds_of in *. split; rewrite ?Hch; unfold holds_of; rewrite ?Hreg; try done.
    - intros _. exists n. exact Hh.
    - apply Forall_drop. by apply publications_ok. }
  assert (outcome_of f1 p fqn type_id q = Accepted resp) as Ho1.
  { rewrite <- Ho. unfold outcome_of, outcome_by_qos, check_of, holds_of. by rewrite Hreg, Hgd. }
  assert (exists f2 c', attach_for_fanout now p fqn type_id q f1 = Some (true, reported f1 p fqn type_id q (Accepted resp), f2) /\
            f_channels f2 = <[p_channel p := c']> (f_channels f1) /\
            send_all c (told f1 now fqn q (Ring.last_frames n pubs) (Accepted resp)) = Some c') as (f2 & c' & H1 & H2 & H3).
  { destruct (subscribe_settles f1 now p fqn type_id q c _ Ha1) as (f2 & c' & H1 & H2 & H3 & _). rewrite Ho1 in *. eauto. }
  exists evs, f1, (reported f1 p fqn type_id q (Accepted resp)), f2, c'. rewrite Hch in H2. split_and!; try done.
  cbn [told] in H3. unfold qos_for in H3. fold hash in H3. rewrite Hreg in H3. unfold entry_for in He. fold hash in He.
  rewrite He, Hl in H3. exact H3.
Qed.

End Subscription.

(** ** Examples *)

(** A topic declared latched with depth 2, and a peer on a stream channel. *)
Definition latched_forwarder : message_forwarder peer_stream :=
  let f := message_forwarder_new global_default_max_message_bytes sample_channels in
  set_endpoint f (set_registry (f_endpoint f)
    (declare (registry_of f) (fqn_topic_hash sample_topic) sample_topic sample_qos None false [] 0)).

Definition sample_peer : peer := Peer 1 [Byte.x70].
Definition replay_all : subscriber_qos :=
  SubscriberQos dur_all delivery_push 0 false true 0 0 0 0 rxo_permissive posture_lenient true hint_none.

Lemma sample_arrives : arrives latched_forwarder sample_peer sample_topic replay_all
    (PeerStream scheme_tcp (open_channel plaintext_bootstrap 4096)) [].
Proof.
  split.
  - reflexivity.
  - apply plaintext_open_ready. lia.
  - apply Refcount.ok_empty.
  - vm_compute. reflexivity.
  - intros _. unfold new_to_topic. replace (map _ _) with (@nil Z) by (vm_compute; reflexivity). apply not_elem_of_nil.
  - vm_compute. discriminate.
  - intros _. exists 2%nat. unfold history. reflexivity.
  - constructor.
Qed.

Lemma subscription_outcome_exact_witness :
  exists evs f', attach_for_fanout (host := little) 9 sample_peer sample_topic None replay_all latched_forwarder
    = Some (true, evs, f').
Proof.
  destruct (subscription_outcome_exact (host := little) latched_forwarder 9 sample_peer sample_topic None replay_all _ []
              sample_arrives) as (f' & c' & H & _).
  rewrite H. do 2 eexists. f_equal.
Defined.

Lemma late_joiner_gets_the_last_publications_witness :
  exists evs f1 evs' f2,
    publish_all (host := little) (fun _ _ _ => None) sample_topic 0 [(5, [Byte.x01]); (6, [Byte.x02]); (7, [Byte.x03])]
      latched_forwarder = Some (tt, evs, f1) /\
    attach_for_fanout (host := little) 9 sample_peer sample_topic None replay_all f1 = Some (true, evs', f2).
Proof.
  destruct (entry_for (registry_of latched_forwarder) (fqn_topic_hash sample_topic)) as [topic|] eqn:Et;
    [|vm_compute in Et; discriminate Et].
  destruct (outcome_of latched_forwarder sample_peer sample_topic None replay_all) as [s| |resp] eqn:Eo;
    try (vm_compute in Eo; discriminate Eo).
  assert (e_qos topic = sample_qos /\ e_subscribers topic = []) as [Eq Es] by (vm_compute in Et; injection Et as <-; by split).
  destruct (late_joiner_gets_the_last_publications (host := little) (fun _ _ _ => None) latched_forwarder 9 sample_peer
              sample_topic None replay_all _ topic 0 [(5, [Byte.x01]); (6, [Byte.x02]); (7, [Byte.x03])] Et Es
              ltac:(by rewrite Eq) eq_refl ltac:(vm_compute; discriminate) ltac:(by vm_compute)
              ltac:(repeat constructor; by vm_compute) sample_arrives resp Eo) as (evs & f1 & evs' & f2 & c' & H1 & H2 & _).
  exists evs, f1, evs', f2. split; [exact H1|exact H2].
Defined.

(** ** Limits of the code *)

Definition no_companion : bytes -> bytes -> Z -> option Z := fun _ _ _ => None.
Definition latched_depth (d : Z) : topic_qos := TopicQos true d loc_any best_effort block prio_normal hint_none 0 0 0.

(** Declaring a latched topic again with a smaller depth makes the next publication
    write outside the ring of retained frames: declared with depth 4, three publications,
    declared with depth 2, and the fourth publication indexes slot 3 of 2. *)
Theorem redeclared_depth_overruns_history (host : Host) :
  exists evs f,
    (declare_topic sample_topic (latched_depth 4) None false [] 0 ;;
     publish_all no_companion sample_topic 0 [(5, [Byte.x01]); (6, [Byte.x02]); (7, [Byte.x03])] ;;
     declare_topic sample_topic (latched_depth 2) None false [] 0)
      (message_forwarder_new global_default_max_message_bytes sample_channels) = Some (tt, evs, f) /\
    publish no_companion 8 sample_topic [Byte.x04] 0 f = None.
Proof. destruct host; eexists _, _; (split; [vm_compute; reflexivity|vm_compute; reflexivity]). Qed.

Definition other_topic : bytes := [Byte.x63].
Definition small_channels : gmap Z peer_stream :=
  {[ 1 := PeerStream scheme_tcp (open_channel plaintext_bootstrap 64) ]}.

(** A peer subscribes to two topics and one is published on. *)
Definition two_topics {host : Host} : prog (message_forwarder peer_stream) forwarder_event unit :=
  attach_for_fanout 1 sample_peer sample_topic None subscriber_qos_default ;;
  attach_for_fanout 2 sample_peer other_topic None subscriber_qos_default ;;
  publish no_companion 3 sample_topic [Byte.x01] 0.

(** Leaving one topic throws away what is queued for the peer on every other topic.
    The bands are kept per channel and [detach] removes them: a peer subscribed to two
    topics has one publication waiting behind a busy channel; when the other topic is
    detached, the publication is in no band any more and the channel never took it, while
    the peer is still subscribed and no drop is counted. *)
Theorem detach_discards_other_topics (host : Host) :
  exists evs f evs' f',
    two_topics (message_forwarder_new global_default_max_message_bytes small_channels) = Some (tt, evs, f) /\
    detach 4 sample_peer other_topic f = Some (true, evs', f') /\
    map zlen (concat (bands_of (f_egress f) 1)) = [46] /\ concat (bands_of (f_egress f') 1) = [] /\
    (taken <$> f_channels f' !! 1) = (taken <$> f_channels f !! 1) /\
    map s_channel <$> (e_subscribers <$> entry_for (registry_of f') (fqn_topic_hash sample_topic)) = Some [1] /\
    map (dropped_of f' sample_topic (band_of prio_normal)) [dc_blocked; dc_drop_oldest; dc_drop_newest] = [0; 0; 0].
Proof.
  set (run := two_topics _).
  assert (match run with
          | Some (_, _, f) =>
              match detach 4 sample_peer other_topic f with
              | Some (true, _, f') =>
                  bool_decide (map zlen (concat (bands_of (f_egress f) 1)) = [46]) &&
                  bool_decide (concat (bands_of (f_egress f') 1) = []) &&
                  bool_decide ((taken <$> f_channels f' !! 1) = (taken <$> f_channels f !! 1)) &&
                  bool_decide (map s_channel <$> (e_subscribers <$> entry_for (registry_of f') (fqn_topic_hash sample_topic)) = Some [1]) &&
                  bool_decide (map (dropped_of f' sample_topic (band_of prio_normal)) [dc_blocked; dc_drop_oldest; dc_drop_newest] = [0; 0; 0])
              | _ => false
              end
          | None => false
          end = true) as H by (destruct host; vm_compute; reflexivity).
  destruct run as [ [ [ [] evs] f]|]; [|done]. destruct (detach _ _ _ f) as [ [ [ [] evs'] f']|] eqn:Ed; try done.
  rewrite !andb_true_iff, !bool_decide_eq_true in H. destruct H as ((((H1 & H2) & H3) & H4) & H5).
  exists evs, f, evs', f'. by split_and!.
Qed.
