(* ===== verification/ForwarderSafety.v ===== *)
(** * The operations of the message forwarder are safe

    An invariant of [message_forwarder.h], for each operation but [publish_object] a lemma that
    it returns and keeps the invariant when its caller's channel is live and the sizes are sane,
    whatever the peers sent before: the bands are sound, every fan-out entry refers to a channel
    that exists, and the retained frames of a topic fit the depth it was declared with.  The
    sessions and the engine are proved on these lemmas ([SessionSafety], [EngineSafety],
    [EngineWorld]), where channels also go.

    A channel that is about to be destroyed is condemned: it still exists, and nothing may refer
    to it.  The set of condemned channels is a parameter, empty where channels stay. *)

From S2P Require Import Prelude EventMonad ByteOrder Varint Cursor Frame Control Hash Fragmentation SendQueue Egress Qos History Registry Forwarder Subscription.

Class Condemned : Type := condemned : Z -> Prop.

Definition live {cd : Condemned} {C : Type} (f : message_forwarder C) (ch : Z) : Prop := is_Some (f_channels f !! ch) /\ ~ condemned ch.

Section Safety.
Context {cd : Condemned}.
Context {host : Host} {C : Type} `{!PeerChannel C} `{!PeerContract C}.
Context (companion_route : bytes -> bytes -> Z -> option Z).
Implicit Types f : message_forwarder C.
Abbreviation fwd := (prog (message_forwarder C) forwarder_event).

(** ** The invariant *)

(** The depth a topic was last declared with. *)
Definition declared_depth (r : subscriber_registry) (h : Z) : nat := Z.to_nat (history_depth (depth (qos_for r h))).

Record forwarder_ok f : Prop := ForwarderOk {
  fo_scheduler : scheduler_ok (f_egress f);
  fo_keys : forall a b c d, f_channels f !! a = Some c -> f_channels f !! b = Some d ->
    scheduler_key c = scheduler_key d -> a = b;
  fo_ready : forall ch c, f_channels f !! ch = Some c -> ready c;
  fo_registry : registry_ok (registry_of f);
  fo_subscribers : forall h e s, m_topics (registry_of f) !! h = Some e -> s ∈ e_subscribers e -> live f (s_channel s);
  fo_rings : forall h ring, f_retained f !! h = Some ring ->
    exists fs, fs <> [] /\ Ring.holds (declared_depth (registry_of f) h) ring fs /\ Forall frame_ok fs;
  fo_demands : forall node d, d ∈ remembered_topics f node -> zlen (rd_fqn d) <= 2 ^ 60;
}.

(** A step that keeps the invariant, the channels (the condemned ones too) and the declarations. *)
Definition keeps f f' : Prop :=
  forwarder_ok f' /\ (forall (cd' : Condemned) ch, live (cd := cd') f ch -> live (cd := cd') f' ch) /\
  (forall h, qos_for (registry_of f') h = qos_for (registry_of f) h).

#[local] Instance keeps_transitive : Transitive keeps.
Proof. intros f1 f2 f3 (_ & H1 & H2) (? & H3 & H4). split_and!; [done|auto|]. intros h. by rewrite H4. Qed.

Lemma keeps_refl f : forwarder_ok f -> keeps f f.
Proof. by split. Qed.

(** [m] returns from [f] and keeps the invariant. *)
Definition safe {A} (m : fwd A) f : Prop := wp m (fun _ _ f' => keeps f f') f.

Lemma safe_bind {A B} (m : fwd A) (k : A -> fwd B) f :
  safe m f -> (forall x f', keeps f f' -> safe (k x) f') -> safe (m ≫= k) f.
Proof.
  intros Hm Hk. apply wp_bind. eapply wp_mono; [exact Hm|]. intros x e1 f1 H1. eapply wp_mono; [exact (Hk x f1 H1)|].
  intros y e2 f2 H2. exact (keeps_transitive _ _ _ H1 H2).
Qed.

Lemma safe_ret {A} (x : A) f : forwarder_ok f -> safe (mret x) f.
Proof. intros H. by apply wp_ret, keeps_refl. Qed.

Lemma safe_emit ev f : forwarder_ok f -> safe (emit ev) f.
Proof. intros H. by apply wp_emit, keeps_refl. Qed.

Lemma safe_gets {A B} (g : message_forwarder C -> A) (k : A -> fwd B) f : safe (k (g f)) f -> safe (gets g ≫= k) f.
Proof. apply wp_bind_gets. Qed.

Lemma safe_lift {A B} (x : A) (k : A -> fwd B) f : safe (k x) f -> safe (lift (Some x) ≫= k) f.
Proof. apply wp_bind_lift. Qed.

Lemma safe_modify g f : keeps f (g f) -> safe (modify g) f.
Proof. intros H. by apply wp_modify. Qed.

(** ** The registry *)

(** A registry that keeps the declared depths and adds only entries of live channels. *)
Lemma ok_registry f e :
  forwarder_ok f -> registry_ok (ep_registry e) ->
  (forall h, is_Some (f_retained f !! h) -> declared_depth (ep_registry e) h = declared_depth (registry_of f) h) ->
  (forall h t s, m_topics (ep_registry e) !! h = Some t -> s ∈ e_subscribers t ->
     live f (s_channel s) \/ exists t', m_topics (registry_of f) !! h = Some t' /\ s ∈ e_subscribers t') ->
  forwarder_ok (set_endpoint f e).
Proof.
  intros [H1 H2 H3 H4 H5 H6 H7] Hr Hd Hs. split; try done.
  - intros h t s Ht Hin. destruct (Hs h t s Ht Hin) as [|(t' & Ht' & Hin')]; [done|by eapply H5].
  - intros h ring Hring. unfold registry_of. cbn [set_endpoint f_endpoint]. rewrite Hd by (by eexists). by apply H6.
Qed.

Lemma declared_depth_qos r r' h : qos_for r' h = qos_for r h -> declared_depth r' h = declared_depth r h.
Proof. unfold declared_depth. by intros ->. Qed.

Lemma keeps_registry f e :
  forwarder_ok f -> registry_ok (ep_registry e) ->
  (forall h, qos_for (ep_registry e) h = qos_for (registry_of f) h) ->
  (forall h t s, m_topics (ep_registry e) !! h = Some t -> s ∈ e_subscribers t ->
     live f (s_channel s) \/ exists t', m_topics (registry_of f) !! h = Some t' /\ s ∈ e_subscribers t') ->
  keeps f (set_endpoint f e).
Proof. intros Hf Hr Hq Hs. split_and!; [|done|done]. apply ok_registry; [done|done| |done]. intros h _. by apply declared_depth_qos. Qed.

Lemma keeps_same_topics f e :
  forwarder_ok f -> registry_ok (ep_registry e) -> m_topics (ep_registry e) = m_topics (registry_of f) ->
  keeps f (set_endpoint f e).
Proof.
  intros Hf Hr Ht. apply keeps_registry; [done|done| |].
  - intros h. unfold qos_for. by rewrite Ht.
  - intros h t s. rewrite Ht. eauto.
Qed.

Lemma name_entry_qos e fqn : e_qos (name_entry e fqn) = e_qos e.
Proof. unfold name_entry. by destruct (e_fqn e). Qed.

Lemma add_subscriber_qos_all r h fqn channel scheme node_name q type_id h' :
  qos_for (add_subscriber r h fqn channel scheme node_name q type_id) h' = qos_for r h'.
Proof.
  destruct (decide (h' = h)) as [->|Hne]; [apply add_subscriber_qos|].
  unfold qos_for, add_subscriber, add_topic_subscriber. cbn. destruct (existsb _ _); by rewrite lookup_insert_ne.
Qed.

Lemma entry_of_subscribers ts h s : s ∈ e_subscribers (entry_of ts h) -> exists t, ts !! h = Some t /\ s ∈ e_subscribers t.
Proof.
  unfold entry_of. destruct (ts !! h) as [t|]; cbn; [eauto|]. by intros ?%elem_of_nil.
Qed.

Lemma add_subscriber_subs r h fqn channel scheme node_name q type_id h' t s :
  m_topics (add_subscriber r h fqn channel scheme node_name q type_id) !! h' = Some t -> s ∈ e_subscribers t ->
  s_channel s = channel \/ exists t', m_topics r !! h' = Some t' /\ s ∈ e_subscribers t'.
Proof.
  unfold add_subscriber, add_topic_subscriber. cbn. destruct (name_entry_fields (entry_of (m_topics r) h) fqn) as (Hs & _).
  destruct (decide (h' = h)) as [->|Hne]; [|destruct (existsb _ _); rewrite lookup_insert_ne by done; eauto].
  destruct (existsb _ _); rewrite lookup_insert_eq; intros [= <-].
  - rewrite Hs. intros Hin. right. by apply entry_of_subscribers.
  - cbn. rewrite Hs. intros [Hin| ->%list_elem_of_singleton]%elem_of_app; [right; by apply entry_of_subscribers|by left].
Qed.

Lemma erase_channel_sub e channel s : s ∈ e_subscribers (erase_channel e channel) -> s ∈ e_subscribers e.
Proof. rewrite erase_channel_subscribers, !list_elem_of_In. intros H. by apply filter_In in H as [H _]. Qed.

Lemma remove_subscriber_facts r h channel h' :
  qos_for (remove_subscriber r h channel) h' = qos_for r h' /\
  forall t s, m_topics (remove_subscriber r h channel) !! h' = Some t -> s ∈ e_subscribers t ->
    exists t', m_topics r !! h' = Some t' /\ s ∈ e_subscribers t'.
Proof.
  unfold qos_for, remove_subscriber, remove_topic_subscriber. cbn. destruct (m_topics r !! h) as [e|] eqn:E; [|by eauto].
  destruct (decide (h' = h)) as [->|Hne]; [|rewrite lookup_insert_ne by done; by eauto].
  rewrite lookup_insert_eq, E. split; [done|]. intros t s [= <-] Hin%erase_channel_sub. eauto.
Qed.

Lemma remove_peer_facts r node_name channel h :
  qos_for (remove_peer r node_name channel) h = qos_for r h /\
  forall t s, m_topics (remove_peer r node_name channel) !! h = Some t -> s ∈ e_subscribers t ->
    exists t', m_topics r !! h = Some t' /\ s ∈ e_subscribers t'.
Proof.
  unfold qos_for, remove_peer, remove_peer_subscribers. cbn. rewrite lookup_fmap. destruct (m_topics r !! h) as [e|]; cbn; [|done].
  split; [done|]. intros t s [= <-] Hin%erase_channel_sub. eauto.
Qed.

Lemma record_drop_facts r h band cause h' :
  qos_for (record_drop r h band cause) h' = qos_for r h' /\
  forall t s, m_topics (record_drop r h band cause) !! h' = Some t -> s ∈ e_subscribers t ->
    exists t', m_topics r !! h' = Some t' /\ s ∈ e_subscribers t'.
Proof.
  unfold record_drop, qos_for. do 2 (case_decide; [by eauto|]). destruct (m_topics r !! h) as [e|] eqn:E; [|by eauto]. cbn.
  destruct (decide (h' = h)) as [->|Hne]; [|rewrite lookup_insert_ne by done; by eauto].
  rewrite lookup_insert_eq, E. split; [done|]. intros t s [= <-] Hin. eauto.
Qed.

Lemma safe_on_registry op f :
  forwarder_ok f -> registry_ok (op (registry_of f)) ->
  (forall h, qos_for (op (registry_of f)) h = qos_for (registry_of f) h /\
     forall t s, m_topics (op (registry_of f)) !! h = Some t -> s ∈ e_subscribers t ->
       live f (s_channel s) \/ exists t', m_topics (registry_of f) !! h = Some t' /\ s ∈ e_subscribers t') ->
  safe (on_registry op) f.
Proof.
  intros Hf Hr H. apply safe_modify, keeps_registry; [done|done| |].
  - intros h. apply H.
  - intros h t s Ht Hin. by eapply H.
Qed.

Lemma safe_remove_subscriber h ch f : forwarder_ok f -> safe (on_registry (fun r => remove_subscriber r h ch)) f.
Proof.
  intros Hf. apply safe_on_registry; [done|apply remove_subscriber_ok, Hf|]. intros h'.
  destruct (remove_subscriber_facts (registry_of f) h ch h') as [H1 H2]. split; [done|]. eauto.
Qed.

Lemma safe_gate {A} (op : subscription_endpoint -> A * subscription_endpoint) f :
  forwarder_ok f -> registry_ok (ep_registry (op (f_endpoint f)).2) ->
  m_topics (ep_registry (op (f_endpoint f)).2) = m_topics (registry_of f) -> safe (on_endpoint op) f.
Proof.
  intros Hf Hr Ht. unfold on_endpoint. apply safe_gets. destruct (op (f_endpoint f)) as [x e].
  apply safe_bind; [apply safe_modify; by apply keeps_same_topics|]. intros _ f' (Hf' & _). by apply safe_ret.
Qed.

Lemma safe_attach_gate p fqn f : forwarder_ok f -> safe (on_endpoint (fun e => attach_gate e (p_node_name p) fqn)) f.
Proof.
  intros Hf. pose proof (registry_step_ok _ _ (fo_registry f Hf) (step_bump _ (p_node_name p) fqn)) as H.
  unfold bump_refcount in H. apply safe_gate; [done|..]; unfold attach_gate, bump_refcount; fold (registry_of f); by destruct (Refcount.bump _ _ _).
Qed.

Lemma safe_detach_gate p fqn f : forwarder_ok f -> safe (on_endpoint (fun e => detach_gate e (p_node_name p) fqn)) f.
Proof.
  intros Hf. pose proof (registry_step_ok _ _ (fo_registry f Hf) (step_drop _ (p_node_name p) fqn)) as H.
  unfold drop_refcount in H. apply safe_gate; [done|..]; unfold detach_gate, drop_refcount; fold (registry_of f); by destruct (Refcount.drop_ref _ _ _).
Qed.

(** ** Channels *)

Lemma channel_at_run f ch c : f_channels f !! ch = Some c -> channel_at ch f = Some (c, [], f).
Proof. intros Hc. unfold channel_at. rewrite bind_gets. unfold lift. by rewrite Hc. Qed.

Lemma keeps_channel f ch c c' :
  forwarder_ok f -> f_channels f !! ch = Some c -> ready c' -> scheduler_key c' = scheduler_key c -> keeps f (set_channel f ch c').
Proof.
  intros [H1 H2 H3 H4 H5 H6 H7] Hc Hr Hk.
  assert (forall (cd' : Condemned) a, live (cd := cd') f a -> live (cd := cd') (set_channel f ch c') a) as Hl.
  { intros cd' a [Ha Hc']. split; [|done]. cbn. destruct (decide (a = ch)) as [->|]; [by rewrite lookup_insert_eq|by rewrite lookup_insert_ne]. }
  assert (forall a x, <[ch := c']> (f_channels f) !! a = Some x ->
            ready x /\ exists y, f_channels f !! a = Some y /\ scheduler_key x = scheduler_key y) as Hold.
  { intros a x. destruct (decide (a = ch)) as [->|]; [rewrite lookup_insert_eq; intros [= <-]; eauto|].
    rewrite lookup_insert_ne by done. eauto. }
  split_and!; [|done|done]. split; cbn; try done.
  - intros a b x y Hx Hy E. destruct (Hold a x Hx) as (_ & x0 & Hx0 & Ex), (Hold b y Hy) as (_ & y0 & Hy0 & Ey).
    apply (H2 a b x0 y0 Hx0 Hy0). congruence.
  - intros a x Hx. by apply (Hold a).
  - intros h e s He Hs. apply Hl. by eapply H5.
Qed.

Lemma safe_channel_send ch data f : forwarder_ok f -> live f ch -> frame_ok data -> safe (channel_send ch data) f.
Proof.
  intros Hf [ [c Hc] _] Hd. destruct (send_keeps c data (fo_ready f Hf ch c Hc) Hd) as (c' & Hs & Hr & Hk & _).
  exists tt, [], (set_channel f ch c'). split; [by apply (channel_send_run f ch c)|by apply (keeps_channel f ch c)].
Qed.

Lemma safe_send_control now ch type inner f :
  forwarder_ok f -> live f ch -> zlen inner <= 2 ^ 61 -> safe (send_control now ch type inner) f.
Proof.
  intros Hf Hl Hi. unfold send_control, control_frame. apply safe_gets. rewrite encode_frame_into_layout. cbn [mbind option_bind].
  apply safe_lift, safe_bind; [apply safe_modify, keeps_same_topics; [done|apply Hf|done]|].
  intros _ f' (Hf' & Hl' & _). apply safe_channel_send; [done|auto|]. by apply control_bytes_ok.
Qed.

Lemma safe_add_entry p hash fqn q type_id f : forwarder_ok f -> live f (p_channel p) -> safe (add_fanout_entry p hash fqn q type_id) f.
Proof.
  intros Hf Hl. pose proof Hl as [ [c Hc] _]. unfold add_fanout_entry.
  destruct (safe_on_registry (fun r => add_subscriber r hash fqn (p_channel p) (remote_scheme c) (p_node_name p) q type_id) f Hf)
    as (x & e & f' & H & Hk).
  - apply add_subscriber_ok, Hf.
  - intros h. split; [apply add_subscriber_qos_all|]. intros t s Ht Hs.
    destruct (add_subscriber_subs _ _ _ _ _ _ _ _ _ _ _ Ht Hs) as [->|]; [by left|by right].
  - exists x, e, f'. split; [|done]. by rewrite (bind_run _ _ _ _ _ _ (channel_at_run f _ c Hc)), H.
Qed.

Lemma safe_egress_remove ch f : forwarder_ok f -> live f ch -> safe (egress_remove ch) f.
Proof.
  intros Hf [ [c Hc] _]. exists tt, [], (set_egress f (remove (f_egress f) c)). split.
  { unfold egress_remove. by rewrite (bind_run _ _ _ _ _ _ (channel_at_run f _ c Hc)). }
  destruct Hf as [H1 H2 H3 H4 H5 H6 H7]. split_and!; [|done|done]. split; try done. cbn. intros key. unfold bands_of, queue_of, remove.
  destruct (decide (key = scheduler_key c)) as [->|Hne].
  - rewrite lookup_delete_eq. pose proof (scheduler_ok_empty (scheduler_key c)) as H.
    unfold bands_of, queue_of in H. by rewrite lookup_empty in H.
  - rewrite lookup_delete_ne by done. apply H1.
Qed.

(** ** Remembered demands *)

Lemma keeps_remote_topics f m :
  forwarder_ok f -> (forall node d, d ∈ remembered_topics (set_remote_topics f m) node -> zlen (rd_fqn d) <= 2 ^ 60) ->
  keeps f (set_remote_topics f m).
Proof. intros [] Hd. split_and!; [|done|done]. by split. Qed.

Lemma remembered_insert f node topics n :
  remembered_topics (set_remote_topics f (<[node := topics]> (f_remote_topics f))) n
  = if decide (n = node) then topics else remembered_topics f n.
Proof. unfold remembered_topics. cbn. case_decide as E; [subst; by rewrite lookup_insert_eq|by rewrite lookup_insert_ne]. Qed.

Lemma safe_record node fqn q type_id f :
  forwarder_ok f -> zlen fqn <= 2 ^ 60 -> safe (record_remote_topic node fqn q type_id) f.
Proof.
  intros Hf Hn. apply safe_modify, keeps_remote_topics; [done|]. intros n d. rewrite remembered_insert.
  case_decide as E; [subst|apply (fo_demands f Hf)]. fold (remembered_topics f node).
  destruct (existsb _ _); [apply (fo_demands f Hf)|].
  intros [Hd| ->%list_elem_of_singleton]%elem_of_app; [by eapply (fo_demands f Hf)|done].
Qed.

Lemma safe_forget node fqn f : forwarder_ok f -> safe (forget_remote_topic node fqn) f.
Proof.
  intros Hf. apply safe_modify. destruct (f_remote_topics f !! node) as [topics|] eqn:Et; [|by apply keeps_refl].
  assert (forall d, d ∈ List.filter (fun d => negb (bool_decide (rd_fqn d = fqn))) topics -> zlen (rd_fqn d) <= 2 ^ 60) as Hd.
  { intros d Hd. apply list_elem_of_In, filter_In in Hd as [Hd _]. apply list_elem_of_In in Hd.
    apply (fo_demands f Hf node). unfold remembered_topics. by rewrite Et. }
  destruct (List.filter _ topics) as [|d0 ds] eqn:Ef.
  - apply keeps_remote_topics; [done|]. intros n d. unfold remembered_topics. cbn. destruct (decide (n = node)) as [->|Hne].
    + rewrite lookup_delete_eq. cbn. by intros ?%elem_of_nil.
    + rewrite lookup_delete_ne by done. apply (fo_demands f Hf).
  - apply keeps_remote_topics; [done|]. intros n d. rewrite remembered_insert. case_decide; [apply Hd|apply (fo_demands f Hf)].
Qed.

(** ** Replay *)

Lemma safe_replay_window p n ring fs limit f :
  forwarder_ok f -> live f (p_channel p) -> Ring.holds n ring fs -> Forall frame_ok fs -> limit <= zlen fs ->
  safe (replay_window p ring limit) f.
Proof.
  intros Hf [ [c Hc] Hcd] Hh Hfs Hl. destruct (Z.leb_spec limit 0) as [Hz|Hz].
  { unfold replay_window. replace (Z.to_nat limit) with 0%nat by lia. by apply safe_ret. }
  destruct (send_all_total c (drop (length fs - Z.to_nat limit) fs) (fo_ready f Hf _ c Hc) (Forall_drop _ _ _ Hfs))
    as (c' & Hs & Hr & Hk & _).
  exists tt, [], (set_channel f (p_channel p) c'). split; [|by apply (keeps_channel f _ c)].
  replace limit with (Z.of_nat (Z.to_nat limit)) by lia. apply (replay_window_run f p n ring fs _ c c'); try done. unfold zlen in *. lia.
Qed.

Lemma ring_count_holds n ring fs : Ring.holds n ring fs -> Ring.count ring = zlen fs.
Proof. intros H. apply H. Qed.

Lemma safe_replay p hash f : forwarder_ok f -> live f (p_channel p) -> safe (replay_if_latched p hash) f.
Proof.
  intros Hf Hl. unfold replay_if_latched. apply safe_gets. destruct (latch _); cbn [negb]; [|by apply safe_ret].
  apply safe_gets. destruct (f_retained f !! hash) as [ring|] eqn:Er; [|by apply safe_ret].
  destruct (fo_rings f Hf hash ring Er) as (fs & Hne & Hh & Hfs). destruct (Ring.empty ring); [by apply safe_ret|]. cbv zeta.
  destruct (_ =? dur_none); [by apply safe_ret|]. destruct (_ =? dur_latest).
  - destruct (last fs) as [g|] eqn:Eg; [|by apply last_None in Eg].
    rewrite (Ring.newest_holds _ ring fs Hh Hne), Eg. apply safe_lift, safe_channel_send; [done|done|].
    apply last_Some in Eg as [l ->]. apply Forall_app in Hfs as [_ Hg]. by apply (Forall_inv Hg).
  - destruct (_ =? dur_all); [|by apply safe_ret]. rewrite (ring_count_holds _ _ _ Hh).
    eapply safe_replay_window; try done. destruct (negb _); lia.
Qed.

Lemma safe_fetch p hash max_samples f : forwarder_ok f -> live f (p_channel p) -> safe (fetch_latched p hash max_samples) f.
Proof.
  intros Hf Hl. unfold fetch_latched. apply safe_gets. destruct (f_retained f !! hash) as [ring|] eqn:Er; [|by apply safe_ret].
  destruct (fo_rings f Hf hash ring Er) as (fs & Hne & Hh & Hfs). destruct (Ring.empty ring); [by apply safe_ret|].
  rewrite (ring_count_holds _ _ _ Hh). eapply safe_replay_window; try done. lia.
Qed.

(** ** Subscribing *)

Lemma length_subscribe_bound r :
  zlen (sr_fqn r) <= 2 ^ 60 -> sr_type_name r = [] -> zlen (subscribe_layout r) <= 2 ^ 61.
Proof.
  intros H Hn. unfold subscribe_layout, subscribe_head_layout. rewrite Hn. unfold zlen in *.
  rewrite !length_app, !length_be_bytes. destruct (sr_has_qos r); rewrite ?length_app, ?length_be_bytes, ?length_qos_layout;
    cbn [length]; try (change k_qos_region_size with 30%nat); lia.
Qed.

Lemma safe_send_subscribe now ch fqn hash type_id q f :
  forwarder_ok f -> live f ch -> zlen fqn <= 2 ^ 60 -> safe (send_subscribe now ch fqn hash type_id q) f.
Proof.
  intros Hf Hl Hn. unfold send_subscribe. rewrite encode_subscribe_request_layout. apply safe_lift, safe_send_control; [done..|].
  unfold subscribe_request_of. by case_decide; apply length_subscribe_bound.
Qed.

Lemma safe_response now ch resp f : forwarder_ok f -> live f ch -> safe (send_subscribe_response now ch resp) f.
Proof.
  intros Hf Hl. unfold send_subscribe_response. rewrite encode_subscribe_response_layout. apply safe_lift, safe_send_control; [done..|].
  unfold zlen. rewrite !length_app, !length_be_bytes. destruct (sp_has_degraded resp); rewrite ?length_be_bytes; cbn [length]; lia.
Qed.

(** One step of an operation, the rest from the state it leaves. *)
Ltac then_ f' Hf' Hl' := apply safe_bind; [|intros ? f' (Hf' & Hl' & _) ].

Lemma safe_attach now p fqn q type_id f :
  forwarder_ok f -> live f (p_channel p) -> zlen fqn <= 2 ^ 60 -> safe (attach now p fqn q type_id) f.
Proof.
  intros Hf Hl Hn. unfold attach. apply safe_bind; [by apply safe_attach_gate|]. intros [] f1 (Hf1 & Hl1 & _); cbn [negb]; [|by apply safe_ret].
  cbv zeta. then_ f2 Hf2 Hl2; [by apply safe_add_entry; auto|]. then_ f3 Hf3 Hl3; [by apply safe_record|].
  then_ f4 Hf4 Hl4; [apply safe_send_subscribe; auto|]. then_ f5 Hf5 Hl5; [by apply safe_emit|]. then_ f6 Hf6 Hl6; [by apply safe_emit|].
  by apply safe_ret.
Qed.

Lemma safe_fanout_hold now p fqn type_id q res f :
  forwarder_ok f -> live f (p_channel p) -> safe (fanout_hold now p fqn type_id q res) f.
Proof.
  intros Hf Hl. unfold fanout_hold. cbv zeta. apply safe_bind; [by apply safe_attach_gate|].
  intros [] f1 (Hf1 & Hl1 & _); cbn [negb]; [|by apply safe_ret]. then_ f2 Hf2 Hl2; [by apply safe_add_entry; auto|].
  then_ f3 Hf3 Hl3; [by apply safe_emit|]. then_ f4 Hf4 Hl4; [apply safe_response; auto|].
  then_ f5 Hf5 Hl5; [apply safe_replay; auto 8|]. then_ f6 Hf6 Hl6; [by apply safe_emit|]. by apply safe_ret.
Qed.

Lemma safe_attach_for_fanout now p fqn type_id q f :
  forwarder_ok f -> live f (p_channel p) -> safe (attach_for_fanout now p fqn type_id q) f.
Proof.
  intros Hf Hl. unfold attach_for_fanout, fanout_offer. cbv zeta. apply safe_gets.
  assert (forall resp, safe (send_subscribe_response now (p_channel p) resp ;; mret false) f) as Hresp.
  { intros resp. then_ f1 Hf1 Hl1; [by apply safe_response|by apply safe_ret]. }
  destruct (type_id_mismatch _ _ _); [apply Hresp|]. case_decide; [apply Hresp|]. do 2 apply safe_gets.
  case_decide; [|by apply safe_fanout_hold]. then_ f1 Hf1 Hl1; [by apply safe_response|].
  then_ f2 Hf2 Hl2; [by apply safe_emit|by apply safe_ret].
Qed.

Lemma safe_attach_local fqn ch self_name q type_id f :
  forwarder_ok f -> live f ch -> safe (attach_local fqn ch self_name q type_id) f.
Proof.
  intros Hf Hl. unfold attach_local. cbv zeta. then_ f1 Hf1 Hl1; [by apply safe_add_entry|]. apply safe_replay; [done|by apply Hl1].
Qed.

Lemma safe_detach_local fqn ch f : forwarder_ok f -> live f ch -> safe (detach_local fqn ch) f.
Proof.
  intros Hf Hl. unfold detach_local. then_ f1 Hf1 Hl1; [by apply safe_remove_subscriber|]. apply safe_egress_remove; auto.
Qed.

Lemma safe_detach now p fqn f : forwarder_ok f -> live f (p_channel p) -> safe (detach now p fqn) f.
Proof.
  intros Hf Hl. unfold detach. apply safe_bind; [by apply safe_detach_gate|]. intros [] f1 (Hf1 & Hl1 & _); cbn [negb]; [|by apply safe_ret].
  cbv zeta. then_ f2 Hf2 Hl2; [by apply safe_remove_subscriber|]. then_ f3 Hf3 Hl3; [apply safe_egress_remove; auto|].
  then_ f4 Hf4 Hl4; [by apply safe_forget|]. rewrite encode_unsubscribe_request_layout. apply safe_lift.
  then_ f5 Hf5 Hl5; [apply safe_send_control; [done|auto 8|unfold zlen; rewrite length_be_bytes; lia]|].
  then_ f6 Hf6 Hl6; [by apply safe_emit|]. then_ f7 Hf7 Hl7; [by apply safe_emit|]. by apply safe_ret.
Qed.

Lemma safe_detach_all p f : forwarder_ok f -> live f (p_channel p) -> safe (detach_all p) f.
Proof.
  intros Hf Hl. unfold detach_all. then_ f1 Hf1 Hl1; [|apply safe_egress_remove; auto].
  apply safe_modify, keeps_registry; [done|apply remove_peer_ok, Hf| |].
  - intros h. apply (remove_peer_facts (registry_of f) (p_node_name p) (p_channel p) h).
  - intros h t s Ht Hs. right. by eapply (remove_peer_facts (registry_of f) (p_node_name p) (p_channel p) h).
Qed.

(** ** Declaring *)

(** A topic may be declared again only with the depth its retained frames have. *)
Definition declarable f (fqn : bytes) (qos : topic_qos) : Prop :=
  m_next_endpoint_counter (registry_of f) < 2 ^ 64 - 1 /\
  (f_retained f !! fqn_topic_hash fqn = None \/
   Z.to_nat (history_depth (depth qos)) = declared_depth (registry_of f) (fqn_topic_hash fqn)).

Lemma declare_facts r h fqn qos tid em name hint h' :
  (h' <> h -> qos_for (declare r h fqn qos tid em name hint) h' = qos_for r h') /\
  qos_for (declare r h fqn qos tid em name hint) h = qos /\
  forall t s, m_topics (declare r h fqn qos tid em name hint) !! h' = Some t -> s ∈ e_subscribers t ->
    exists t', m_topics r !! h' = Some t' /\ s ∈ e_subscribers t'.
Proof.
  unfold qos_for, declare. cbn. destruct (name_entry_fields (entry_of (m_topics r) h) fqn) as (Hs & _). split_and!.
  - intros Hne. by rewrite lookup_insert_ne.
  - by rewrite lookup_insert_eq.
  - intros t s. destruct (decide (h' = h)) as [->|Hne]; [|rewrite lookup_insert_ne by done; eauto].
    rewrite lookup_insert_eq. intros [= <-]. cbn. rewrite Hs. apply entry_of_subscribers.
Qed.

Lemma declare_returns fqn qos tid em name hint f :
  forwarder_ok f -> declarable f fqn qos ->
  exists f', declare_topic fqn qos tid em name hint f = Some (tt, [], f') /\ forwarder_ok f' /\ (forall (cd' : Condemned) ch, live (cd := cd') f ch -> live (cd := cd') f' ch).
Proof.
  intros Hf [Hc Hd]. eexists. split; [reflexivity|]. split; [|done].
  apply ok_registry; [done|by apply declare_ok; [apply Hf|]| |].
  - intros h [ring Hring]. cbn [set_registry ep_registry].
    destruct (declare_facts (registry_of f) (fqn_topic_hash fqn) fqn qos tid em name hint h) as (H1 & H2 & _).
    destruct (decide (h = fqn_topic_hash fqn)) as [->|Hne]; [|by apply declared_depth_qos, H1].
    destruct Hd as [Hd|Hd]; [by rewrite Hd in Hring|]. unfold declared_depth. by rewrite H2, Hd.
  - intros h t s Ht Hs. right. by eapply (declare_facts (registry_of f) (fqn_topic_hash fqn) fqn qos tid em name hint h).
Qed.

(** ** Publishing *)

Lemma safe_enqueue route band cg frame f :
  forwarder_ok f -> live f route -> (band < k_egress_bands)%nat -> frame_ok frame -> safe (egress_enqueue route band cg frame) f.
Proof.
  intros Hf Hl Hb Hfr. pose proof Hf as [H1 H2 H3 H4 H5 H6 H7].
  assert (egress_ok f [route]) as He.
  { split; [done|done|]. intros ch ->%list_elem_of_singleton. destruct Hl as [ [c Hc] _]. eauto. }
  destruct (egress_enqueue_spec f [route] route band cg frame He (list_elem_of_here _ _) Hb Hfr)
    as (cause & f' & Hrun & _ & Hu & [Hs' Hk' Hr'] & (_ & Hret & Hrem & _ & _) & Hreg).
  assert (forall (cd' : Condemned) a, live (cd := cd') f a -> live (cd := cd') f' a) as Hlive.
  { intros cd' a [ [x Hx] Hcd]. split; [|done]. destruct (decide (a = route)) as [->|Hne].
    - destruct (Hr' route (list_elem_of_here _ _)) as (c & Hc & _). by exists c.
    - destruct (Hu a Hne) as [Ha _]. exists x. by rewrite Ha. }
  exists cause, [], f'. split; [done|]. split_and!; [|done|by rewrite Hreg]. split; try done.
  - intros a x Hx. destruct (decide (a = route)) as [->|Hne].
    + destruct (Hr' route (list_elem_of_here _ _)) as (c & Hc & Hready). by rewrite Hx in Hc; simplify_eq.
    + destruct (Hu a Hne) as [Ha _]. rewrite Ha in Hx. by eapply H3.
  - by rewrite Hreg.
  - intros h e s. rewrite Hreg. intros He' Hs. apply Hlive. by eapply H5.
  - intros h ring. rewrite Hret, Hreg. apply H6.
  - intros n d. unfold remembered_topics. rewrite Hrem. apply H7.
Qed.

Lemma safe_fan_one hash fqn qos frame bare info sub f :
  forwarder_ok f -> live f (route_of companion_route fqn (zlen frame) sub) -> frame_ok frame ->
  safe (fan_one companion_route hash fqn qos frame bare info sub) f.
Proof.
  intros Hf Hl Hfr. unfold fan_one. destruct (any_set _ _); cbn [negb]; [|by apply safe_ret]. cbv zeta.
  apply safe_bind; [apply safe_enqueue; [done|exact Hl|apply band_of_lt|done]|]. intros cause f1 (Hf1 & Hl1 & _).
  then_ f2 Hf2 Hl2; [|by apply safe_emit]. case_decide; [by apply safe_ret|]. unfold shed.
  then_ f2 Hf2 Hl2; [|by apply safe_emit]. apply safe_on_registry; [done|apply record_drop_ok, Hf1|]. intros h.
  destruct (record_drop_facts (registry_of f1) hash (band_of (tq_priority qos)) cause h) as [Hq Hs]. split; [done|]. eauto.
Qed.

Lemma safe_fan_published hash fqn qos frame bare info subs f :
  forwarder_ok f -> frame_ok frame -> (forall s, s ∈ subs -> live f (route_of companion_route fqn (zlen frame) s)) ->
  safe (fan_published companion_route subs hash fqn qos frame bare info) f.
Proof.
  intros Hf Hfr. unfold fan_published. revert f Hf. induction subs as [|sub subs IH]; intros f Hf Hs; [by apply safe_ret|]. cbn [each].
  then_ f1 Hf1 Hl1; [apply safe_fan_one; [done| |done]; apply Hs, list_elem_of_here|].
  apply IH; [done|]. intros s Hin. apply Hl1, Hs. by apply elem_of_cons; right.
Qed.

(** The frames of a topic are retained at the depth it is declared with. *)
Lemma safe_retain hash qos frame f :
  forwarder_ok f -> frame_ok frame -> qos_for (registry_of f) hash = qos -> safe (retain_if_latched hash qos frame) f.
Proof.
  intros Hf Hfr Hq. pose proof Hf as [H1 H2 H3 H4 H5 H6 H7].
  assert (exists fs, history (Z.to_nat (history_depth (depth qos))) f hash fs /\ Forall frame_ok fs) as (fs & Hh & Hfs).
  { unfold history. destruct (f_retained f !! hash) as [ring|] eqn:E; [|by exists []].
    destruct (H6 hash ring E) as (fs & Hne & Hh & Hfs). exists fs. unfold declared_depth in Hh. by rewrite Hq in Hh. }
  destruct (retain_spec f hash qos frame fs) as (m & Hrun & Hno & Hyes & Hother); [done|].
  exists tt, [], (set_retained f m). split; [done|]. split_and!; [|done|done]. split; try done. cbn. intros h ring Hr.
  destruct (decide (h = hash)) as [->|Hne]; [|rewrite Hother in Hr by done; by apply H6].
  destruct (latch qos) eqn:El; [|rewrite Hno in Hr by done; by apply H6]. specialize (Hyes eq_refl). unfold history in Hyes.
  cbn in Hyes. rewrite Hr in Hyes. destruct Hyes as [Hne Hh']. unfold declared_depth.
  change (registry_of (set_retained f m)) with (registry_of f). rewrite Hq.
  eexists. split; [exact Hne|]. split; [exact Hh'|]. apply Forall_drop, Forall_app. split; [done|]. by constructor.
Qed.

(** A companion channel, where there is one, exists. *)
Definition companions_live f (fqn : bytes) : Prop :=
  forall node size ch, companion_route node fqn size = Some ch -> live f ch.

Lemma safe_publish now fqn payload session_id f :
  forwarder_ok f -> companions_live f fqn -> zlen payload <= 2 ^ 61 -> safe (publish companion_route now fqn payload session_id) f.
Proof.
  intros Hf Hc Hp. unfold publish. cbv zeta. apply safe_gets. unfold entry_for.
  destruct (m_topics (registry_of f) !! fqn_topic_hash fqn) as [topic|] eqn:Et; [|by apply safe_ret].
  destruct (_ && _); [by apply safe_ret|].
  pose proof (frame_publish_run f now (fqn_topic_hash fqn) payload (counter_of topic) session_id) as Hrun.
  set (frame := publication _ _ _ _ _ _) in Hrun. set (f1 := set_endpoint f _) in Hrun.
  assert (keeps f f1) as Hk1 by (apply keeps_same_topics; [done|apply Hf|done]). pose proof Hk1 as (Hf1 & Hl1 & Hq1).
  assert (frame_ok frame) as Hfr by (by apply publication_frame_ok).
  match goal with |- safe (?m ≫= ?k) f => enough (safe (k (frame, MessageInfo None (ep_next_sequence (f_endpoint f)) now 0 false)) f1) as H end.
  { destruct H as (x & evs & f' & H & Hk). exists x, evs, f'. split; [|exact (keeps_transitive _ _ _ Hk1 Hk)].
    rewrite (bind_run _ _ _ _ _ _ Hrun). rewrite H. done. }
  cbn beta iota. assert (bare_of frame (counter_of topic) = Some payload) as -> by apply bare_of_publication. apply safe_lift.
  apply safe_bind; [by apply safe_emit|]. intros _ f2 (Hf2 & Hl2 & Hq2).
  apply safe_bind.
  - apply safe_fan_published; [done|done|]. intros s Hs. apply Hl2, Hl1. unfold route_of.
    destruct (companion_route _ _ _) as [ch|] eqn:Ech; cbn; [by eapply Hc|by eapply (fo_subscribers f Hf)].
  - intros _ f3 (Hf3 & _ & Hq3). apply safe_retain; [done|done|]. rewrite Hq3, Hq2, Hq1. unfold qos_for. by rewrite Et.
Qed.

Lemma safe_deliver source inner info flag f : forwarder_ok f -> safe (deliver source inner info flag) f.
Proof.
  intros Hf. unfold deliver. destruct (decode_unidirectional inner flag) as [d|]; [|by apply safe_emit]. cbv zeta.
  apply safe_gets. destruct (fqn_for_spec (registry_of f) (uh_topic_hash (ud_header d)) (fo_registry f Hf)) as (r' & -> & Hr & Ht & _).
  apply safe_lift. apply safe_bind; [apply safe_modify, keeps_same_topics; done|]. intros _ f1 (Hf1 & _).
  destruct (match m_topics (registry_of f) !! _ with Some e => e_fqn e | None => [] end); [by apply safe_emit|].
  apply safe_bind; [by apply safe_emit|]. intros _ f2 (Hf2 & _). by apply safe_emit.
Qed.

Lemma new_forwarder_ok global_default (channels : gmap Z C) :
  (forall ch c, channels !! ch = Some c -> ready c) ->
  (forall a b c d, channels !! a = Some c -> channels !! b = Some d -> scheduler_key c = scheduler_key d -> a = b) ->
  forwarder_ok (message_forwarder_new global_default channels).
Proof.
  intros Hr Hk. split; [exact scheduler_ok_empty|exact Hk|exact Hr|apply registry_ok_new| | |].
  - intros h e s He. cbn in He. by rewrite lookup_empty in He.
  - intros h ring Hring. cbn in Hring. by rewrite lookup_empty in Hring.
  - intros n d. unfold remembered_topics. cbn. rewrite lookup_empty. by intros ?%elem_of_nil.
Qed.

End Safety.

Definition nothing_condemned : Condemned := fun _ => False.
