(* ===== verification/Procedure.v ===== *)
(** * The procedure forwarder: remote calls and their correlation

    Models [procedure_forwarder.h] and [detail/procedure_fanout.h] of
    [lib/plexus-core/include/plexus/io/].

    A handler and a response callback are named by numbers: calling a handler is the
    event [Handle], calling a response callback the event [Resolved].  The reply a handler
    makes is the operation [reply], which reads the staged context of the last dispatch as
    the source's reused closure does; the expiry of a deadline is [on_deadline].  The
    iteration order of a hash map is that of its model. *)

From S2P Require Import Prelude EventMonad ByteOrder Varint Cursor Frame Control Hash Fragmentation SendQueue Egress Qos History Registry Forwarder.

(** ** Data *)

Record pending_rpc : Type := PendingRpc { pr_fqn : bytes; pr_on_response : Z }.

Definition k_default_max_outstanding : Z := 1024.

Inductive procedure_event : Type :=
| RpcCall (fqn : bytes) (corr_id : Z)
| RpcServe (fqn : bytes) (corr_id : Z)
| RpcReply (fqn : bytes) (corr_id : Z) (status : rpc_status)
| Handle (handler : Z) (param : bytes)
| Resolved (callback : Z) (status : rpc_status) (data : bytes)
| ArmDeadline (node_name : bytes) (corr_id ms : Z)
| CancelDeadline (node_name : bytes) (corr_id : Z)
| WarnRequestDecode | WarnResponseDecode | WarnOrphan.

(** The staged context of a dispatch: [m_active_channel], [m_active_req_hdr] and
    [m_active_session_id]; [None] for the null channel. *)
Record active_request : Type := ActiveRequest { ar_channel : Z; ar_header : bidirectional_header; ar_session_id : Z }.

Abbreviation outstanding := (gmap bytes (gmap Z pending_rpc)).

Record procedure_forwarder (C : Type) : Type := ProcedureForwarder {
  pf_endpoint : subscription_endpoint;
  pf_max_outstanding : Z;
  pf_active : option active_request;
  pf_next_correlation_id : Z;
  pf_default_deadline : Z;
  pf_providers : gmap bytes Z;
  pf_hash_to_fqn : gmap Z bytes;
  pf_outstanding : outstanding;
  pf_req_scratch : bytes;
  pf_resp_scratch : bytes;
  pf_frame_scratch : bytes;
  pf_channels : gmap Z C;
}.
Arguments ProcedureForwarder {C}.
Arguments pf_endpoint {C}.
Arguments pf_max_outstanding {C}.
Arguments pf_active {C}.
Arguments pf_next_correlation_id {C}.
Arguments pf_default_deadline {C}.
Arguments pf_providers {C}.
Arguments pf_hash_to_fqn {C}.
Arguments pf_outstanding {C}.
Arguments pf_req_scratch {C}.
Arguments pf_resp_scratch {C}.
Arguments pf_frame_scratch {C}.
Arguments pf_channels {C}.

Definition procedure_forwarder_new {C} (default_deadline max_outstanding : Z) (channels : gmap Z C) : procedure_forwarder C :=
  ProcedureForwarder subscription_endpoint_new max_outstanding None 1 default_deadline ∅ ∅ ∅ [] [] [] channels.

Section Setters.
Context {C : Type}.
Implicit Types f : procedure_forwarder C.

Definition pf_set_endpoint f e : procedure_forwarder C :=
  ProcedureForwarder e (pf_max_outstanding f) (pf_active f) (pf_next_correlation_id f) (pf_default_deadline f)
    (pf_providers f) (pf_hash_to_fqn f) (pf_outstanding f) (pf_req_scratch f) (pf_resp_scratch f) (pf_frame_scratch f) (pf_channels f).
Definition pf_set_active f a : procedure_forwarder C :=
  ProcedureForwarder (pf_endpoint f) (pf_max_outstanding f) (Some a) (pf_next_correlation_id f) (pf_default_deadline f)
    (pf_providers f) (pf_hash_to_fqn f) (pf_outstanding f) (pf_req_scratch f) (pf_resp_scratch f) (pf_frame_scratch f) (pf_channels f).
Definition pf_set_next f n : procedure_forwarder C :=
  ProcedureForwarder (pf_endpoint f) (pf_max_outstanding f) (pf_active f) n (pf_default_deadline f)
    (pf_providers f) (pf_hash_to_fqn f) (pf_outstanding f) (pf_req_scratch f) (pf_resp_scratch f) (pf_frame_scratch f) (pf_channels f).
Definition pf_set_providers f ps hs : procedure_forwarder C :=
  ProcedureForwarder (pf_endpoint f) (pf_max_outstanding f) (pf_active f) (pf_next_correlation_id f) (pf_default_deadline f)
    ps hs (pf_outstanding f) (pf_req_scratch f) (pf_resp_scratch f) (pf_frame_scratch f) (pf_channels f).
Definition pf_set_outstanding f m : procedure_forwarder C :=
  ProcedureForwarder (pf_endpoint f) (pf_max_outstanding f) (pf_active f) (pf_next_correlation_id f) (pf_default_deadline f)
    (pf_providers f) (pf_hash_to_fqn f) m (pf_req_scratch f) (pf_resp_scratch f) (pf_frame_scratch f) (pf_channels f).
Definition pf_set_scratch f req resp frame : procedure_forwarder C :=
  ProcedureForwarder (pf_endpoint f) (pf_max_outstanding f) (pf_active f) (pf_next_correlation_id f) (pf_default_deadline f)
    (pf_providers f) (pf_hash_to_fqn f) (pf_outstanding f) req resp frame (pf_channels f).
Definition pf_set_channel f (ch : Z) (c : C) : procedure_forwarder C :=
  ProcedureForwarder (pf_endpoint f) (pf_max_outstanding f) (pf_active f) (pf_next_correlation_id f) (pf_default_deadline f)
    (pf_providers f) (pf_hash_to_fqn f) (pf_outstanding f) (pf_req_scratch f) (pf_resp_scratch f) (pf_frame_scratch f)
    (<[ch := c]> (pf_channels f)).
Definition pf_registry f : subscriber_registry := ep_registry (pf_endpoint f).

End Setters.

Section Procedure.
Context {host : Host} {C : Type} `{!PeerChannel C}.

Abbreviation rpc := (prog (procedure_forwarder C) procedure_event).

(** ** Helpers *)

Definition pf_on_endpoint {A} (op : subscription_endpoint -> A * subscription_endpoint) : rpc A :=
  e ← gets pf_endpoint;
  let '(x, e) := op e in
  modify (fun f => pf_set_endpoint f e) ;; mret x.

Definition pf_channel_at (ch : Z) : rpc C := o ← gets (fun f => pf_channels f !! ch); lift o.

Definition pf_channel_send (ch : Z) (data : bytes) : rpc unit :=
  c ← pf_channel_at ch;
  c ← lift (send c data);
  modify (fun f => pf_set_channel f ch c).

Definition pf_send_control (now ch : Z) (type : msg_type) (inner : bytes) : rpc unit :=
  e ← gets pf_endpoint;
  '(frame, e) ← lift (control_frame e now type inner);
  modify (fun f => pf_set_endpoint f e) ;;
  pf_channel_send ch frame.

Definition send_data (now ch : Z) (type : msg_type) (inner : bytes) (session_id : Z) : rpc unit :=
  scratch ← gets pf_frame_scratch;
  frame ← lift (encode_frame_into scratch (FrameHeader type 0 session_id now (zlen inner)) inner);
  modify (fun f => pf_set_scratch f (pf_req_scratch f) (pf_resp_scratch f) frame) ;;
  pf_channel_send ch frame.

Definition reply_status (now ch : Z) (req_hdr : bidirectional_header) (status : rpc_status) (return_data : bytes)
    (session_id : Z) : rpc unit :=
  sequence ← pf_on_endpoint next_sequence;
  let resp_hdr := BidirectionalHeader src_procedure sequence (bh_topic_hash req_hdr) 0 0 (bh_correlation_id req_hdr) in
  scratch ← gets pf_resp_scratch;
  body ← lift (encode_rpc_response_into scratch resp_hdr status return_data);
  modify (fun f => pf_set_scratch f (pf_req_scratch f) body (pf_frame_scratch f)) ;;
  send_data now ch msg_rpc_response body session_id.

(** ** Serving *)

Definition serve (fqn : bytes) (handler : Z) : rpc unit :=
  modify (fun f => pf_set_providers f (<[fqn := handler]> (pf_providers f))
                     (<[fqn_topic_hash fqn := fqn]> (pf_hash_to_fqn f))).

Definition retire (fqn : bytes) : rpc unit :=
  modify (fun f => pf_set_providers f (delete fqn (pf_providers f)) (delete (fqn_topic_hash fqn) (pf_hash_to_fqn f))).

(** A provider missing behind its hash would be an end iterator: [None]. *)
Definition deliver_request (now : Z) (p : peer) (inner : bytes) (session_id : Z) : rpc unit :=
  match decode_rpc_request inner with
  | None => emit WarnRequestDecode
  | Some decoded =>
      let req_hdr := bd_header decoded in
      names ← gets pf_hash_to_fqn;
      match names !! bh_topic_hash req_hdr with
      | None =>
          r ← gets pf_registry;
          '(fqn, r) ← lift (fqn_for r (bh_topic_hash req_hdr));
          modify (fun f => pf_set_endpoint f (set_registry (pf_endpoint f) r)) ;;
          reply_status now (p_channel p) req_hdr
            (match fqn with [] => rpc_no_handler | _ => rpc_topic_not_found end) [] session_id
      | Some fqn =>
          modify (fun f => pf_set_active f (ActiveRequest (p_channel p) req_hdr session_id)) ;;
          emit (RpcServe fqn (bh_correlation_id req_hdr)) ;;
          providers ← gets pf_providers;
          handler ← lift (providers !! fqn);
          emit (Handle handler (bd_data decoded))
      end
  end.

(** The body of [m_reply]. *)
Definition reply (now : Z) (status : rpc_status) (return_data : bytes) : rpc unit :=
  o ← gets pf_active;
  a ← lift o;
  reply_status now (ar_channel a) (ar_header a) status return_data (ar_session_id a).

(** ** Calling *)

Definition nanoseconds_to_ms (ns : Z) : Z := Z.quot ns 1000000.

Definition arm_deadline (node_name : bytes) (corr_id deadline : Z) : rpc unit :=
  emit (ArmDeadline node_name corr_id (nanoseconds_to_ms deadline)).

Definition per_peer (m : outstanding) (node_name : bytes) : gmap Z pending_rpc := default ∅ (m !! node_name).

Definition call (now : Z) (p : peer) (fqn param : bytes) (on_response : Z) (deadline : option Z) (session_id : Z) : rpc unit :=
  modify (fun f => pf_set_outstanding f (<[p_node_name p := per_peer (pf_outstanding f) (p_node_name p)]> (pf_outstanding f))) ;;
  n ← gets (fun f => Z.of_nat (size (per_peer (pf_outstanding f) (p_node_name p))));
  max ← gets pf_max_outstanding;
  if n >=? max then emit (Resolved on_response rpc_error []) else
  corr_id ← gets pf_next_correlation_id;
  modify (fun f => pf_set_next f (wrap 64 (corr_id + 1))) ;;
  sequence ← pf_on_endpoint next_sequence;
  let hdr := BidirectionalHeader src_caller sequence (fqn_topic_hash fqn) 0 0 corr_id in
  scratch ← gets pf_req_scratch;
  body ← lift (encode_rpc_request_into scratch hdr param);
  modify (fun f => pf_set_scratch f body (pf_resp_scratch f) (pf_frame_scratch f)) ;;
  send_data now (p_channel p) msg_rpc_request body session_id ;;
  emit (RpcCall fqn corr_id) ;;
  modify (fun f =>
    let inner := per_peer (pf_outstanding f) (p_node_name p) in
    let inner := match inner !! corr_id with Some _ => inner | None => <[corr_id := PendingRpc fqn on_response]> inner end in
    pf_set_outstanding f (<[p_node_name p := inner]> (pf_outstanding f))) ;;
  d ← gets pf_default_deadline;
  arm_deadline (p_node_name p) corr_id (default d deadline).

Definition erase_entry (node_name : bytes) (corr_id : Z) : rpc unit :=
  modify (fun f => pf_set_outstanding f
    (<[node_name := delete corr_id (per_peer (pf_outstanding f) node_name)]> (pf_outstanding f))).

Definition deliver_response (p : peer) (inner : bytes) : rpc unit :=
  match decode_rpc_response inner with
  | None => emit WarnResponseDecode
  | Some decoded =>
      m ← gets pf_outstanding;
      match m !! p_node_name p with
      | None => emit WarnOrphan
      | Some entries =>
          let corr_id := bh_correlation_id (rr_header decoded) in
          match entries !! corr_id with
          | None => emit WarnOrphan
          | Some pending =>
              erase_entry (p_node_name p) corr_id ;;
              emit (CancelDeadline (p_node_name p) corr_id) ;;
              emit (RpcReply (pr_fqn pending) corr_id (rr_status decoded)) ;;
              emit (Resolved (pr_on_response pending) (rr_status decoded) (rr_return_data decoded))
          end
      end
  end.

Definition fire_timeout (node_name : bytes) (corr_id : Z) : rpc unit :=
  m ← gets pf_outstanding;
  match m !! node_name with
  | None => mret tt
  | Some entries =>
      match entries !! corr_id with
      | None => mret tt
      | Some pending =>
          erase_entry node_name corr_id ;;
          emit (Resolved (pr_on_response pending) rpc_timeout [])
      end
  end.

(** The completion handler of a deadline; [ec] for one that was cancelled. *)
Definition on_deadline (node_name : bytes) (corr_id : Z) (ec : bool) : rpc unit :=
  if ec then mret tt else fire_timeout node_name corr_id.

(** ** Attaching *)

Definition pf_send_subscribe (now ch : Z) (fqn : bytes) (hash : Z) : rpc unit :=
  body ← lift (encode_subscribe_request (SubscribeRequest fqn [] hash 0 src_caller false subscribe_qos_region_zero));
  pf_send_control now ch msg_subscribe body.

Definition pf_add_entry (p : peer) (hash : Z) (fqn : bytes) : rpc unit :=
  c ← pf_channel_at (p_channel p);
  modify (fun f => pf_set_endpoint f (set_registry (pf_endpoint f)
    (add_subscriber (pf_registry f) hash fqn (p_channel p) (remote_scheme c) (p_node_name p) subscriber_qos_default None))).

Definition pf_attach (now : Z) (p : peer) (fqn : bytes) : rpc bool :=
  first ← pf_on_endpoint (fun e => attach_gate e (p_node_name p) fqn);
  if negb first then mret false else
  let hash := fqn_topic_hash fqn in
  pf_add_entry p hash fqn ;;
  pf_send_subscribe now (p_channel p) fqn hash ;;
  mret true.

Definition pf_attach_for_fanout (now : Z) (p : peer) (fqn : bytes) : rpc bool :=
  first ← pf_on_endpoint (fun e => attach_gate e (p_node_name p) fqn);
  if negb first then mret false else
  let hash := fqn_topic_hash fqn in
  pf_add_entry p hash fqn ;;
  body ← lift (encode_subscribe_response (SubscribeResponse hash sub_subscribed false 0));
  pf_send_control now (p_channel p) msg_subscribe_response body ;;
  mret true.

Definition pf_detach (now : Z) (p : peer) (fqn : bytes) : rpc bool :=
  last ← pf_on_endpoint (fun e => detach_gate e (p_node_name p) fqn);
  if negb last then mret false else
  let hash := fqn_topic_hash fqn in
  modify (fun f => pf_set_endpoint f (set_registry (pf_endpoint f) (remove_subscriber (pf_registry f) hash (p_channel p)))) ;;
  body ← lift (encode_unsubscribe_request (UnsubscribeRequest hash));
  pf_send_control now (p_channel p) msg_unsubscribe body ;;
  mret true.

Definition pf_detach_all (p : peer) : rpc unit :=
  modify (fun f => pf_set_endpoint f (ep_remove_peer (pf_endpoint f) (p_node_name p) (p_channel p))) ;;
  m ← gets pf_outstanding;
  match m !! p_node_name p with
  | None => mret tt
  | Some detached =>
      modify (fun f => pf_set_outstanding f (delete (p_node_name p) (pf_outstanding f))) ;;
      each (fun '(corr_id, pending) =>
              emit (CancelDeadline (p_node_name p) corr_id) ;;
              emit (Resolved (pr_on_response pending) rpc_peer_disconnected []))
        (map_to_list detached)
  end.

End Procedure.

(** ** Sequences of operations *)

Section Calls.
Context {host : Host} {C : Type} `{!PeerChannel C} `{!PeerContract C}.
Implicit Types f : procedure_forwarder C.

(** The callbacks of the pending calls. *)
Definition callbacks (m : gmap Z pending_rpc) : list Z := map (fun e => pr_on_response e.2) (map_to_list m).
Definition waiting (m : outstanding) : list Z := flat_map (fun e => callbacks e.2) (map_to_list m).

(** The callbacks that were called. *)
Definition resolved (evs : list procedure_event) : list Z :=
  omap (fun ev => match ev with Resolved cb _ _ => Some cb | _ => None end) evs.

Lemma resolved_app a b : resolved (a ++ b) = resolved a ++ resolved b.
Proof. apply omap_app. Qed.

Lemma callbacks_insert m k e : m !! k = None -> callbacks (<[k := e]> m) ≡ₚ pr_on_response e :: callbacks m.
Proof. intros H. unfold callbacks. by rewrite map_to_list_insert. Qed.

Lemma callbacks_delete m k e : m !! k = Some e -> callbacks m ≡ₚ pr_on_response e :: callbacks (delete k m).
Proof. intros H. unfold callbacks. by rewrite <- (map_to_list_delete m k e H). Qed.

Lemma waiting_split m node : waiting m ≡ₚ callbacks (per_peer m node) ++ waiting (delete node m).
Proof.
  unfold per_peer. destruct (m !! node) as [inner|] eqn:E; cbn [from_option id].
  - unfold waiting. rewrite <- (map_to_list_delete m node inner E). done.
  - by rewrite delete_id.
Qed.

Lemma waiting_insert m node inner : waiting (<[node := inner]> m) ≡ₚ callbacks inner ++ waiting (delete node m).
Proof.
  rewrite (waiting_split _ node). unfold per_peer. rewrite lookup_insert_eq. cbn [from_option id].
  by rewrite delete_insert_eq.
Qed.

Lemma waiting_touch m node : waiting (<[node := per_peer m node]> m) ≡ₚ waiting m.
Proof. by rewrite waiting_insert, <- waiting_split. Qed.

Lemma waiting_erase m node corr e :
  per_peer m node !! corr = Some e ->
  waiting m ≡ₚ pr_on_response e :: waiting (<[node := delete corr (per_peer m node)]> m).
Proof. intros H. rewrite waiting_insert, (waiting_split m node), (callbacks_delete _ _ _ H). done. Qed.

Inductive rpc_op : Type :=
| OpCall (now : Z) (p : peer) (fqn param : bytes) (on_response : Z) (deadline : option Z) (session_id : Z)
| OpResponse (p : peer) (inner : bytes)
| OpDeadline (node_name : bytes) (corr_id : Z) (ec : bool)
| OpDetachAll (p : peer)
| OpRequest (now : Z) (p : peer) (inner : bytes) (session_id : Z)
| OpReply (now : Z) (status : rpc_status) (data : bytes)
| OpServe (fqn : bytes) (handler : Z)
| OpRetire (fqn : bytes)
| OpAttach (now : Z) (p : peer) (fqn : bytes)
| OpAttachForFanout (now : Z) (p : peer) (fqn : bytes)
| OpDetach (now : Z) (p : peer) (fqn : bytes).

Definition perform (o : rpc_op) : prog (procedure_forwarder C) procedure_event unit :=
  match o with
  | OpCall now p fqn param cb deadline session_id => call now p fqn param cb deadline session_id
  | OpResponse p inner => deliver_response p inner
  | OpDeadline node_name corr_id ec => on_deadline node_name corr_id ec
  | OpDetachAll p => pf_detach_all p
  | OpRequest now p inner session_id => deliver_request now p inner session_id
  | OpReply now status data => reply now status data
  | OpServe fqn handler => serve fqn handler
  | OpRetire fqn => retire fqn
  | OpAttach now p fqn => pf_attach now p fqn ;; mret tt
  | OpAttachForFanout now p fqn => pf_attach_for_fanout now p fqn ;; mret tt
  | OpDetach now p fqn => pf_detach now p fqn ;; mret tt
  end.

Definition issued (o : rpc_op) : list Z := match o with OpCall _ _ _ _ cb _ _ => [cb] | _ => [] end.

(** What the code assumes of its caller: the channel of a peer lives, payloads have a
    sane size, a reply is made for a request that was dispatched and while its channel lives,
    and fewer than [2 ^ 64] calls were made. *)
Definition op_ok f (o : rpc_op) : Prop :=
  match o with
  | OpCall _ p _ param _ _ _ =>
      is_Some (pf_channels f !! p_channel p) /\ zlen param <= 2 ^ 60 /\ pf_next_correlation_id f < 2 ^ 64 - 1
  | OpRequest _ p _ _ => is_Some (pf_channels f !! p_channel p)
  | OpReply _ _ data => (exists a, pf_active f = Some a /\ is_Some (pf_channels f !! ar_channel a)) /\ zlen data <= 2 ^ 60
  | OpAttach _ p fqn | OpAttachForFanout _ p fqn | OpDetach _ p fqn =>
      is_Some (pf_channels f !! p_channel p) /\ zlen fqn <= 2 ^ 60
  | _ => True
  end.

Record procedure_ok f : Prop := ProcedureOk {
  po_channels : forall ch c, pf_channels f !! ch = Some c -> ready c;
  po_registry : registry_ok (pf_registry f);
  po_next : 0 < pf_next_correlation_id f;
  po_fresh : forall node corr, is_Some (per_peer (pf_outstanding f) node !! corr) -> corr < pf_next_correlation_id f;
  po_providers : forall h fqn, pf_hash_to_fqn f !! h = Some fqn -> h = fqn_topic_hash fqn /\ is_Some (pf_providers f !! fqn);
}.

(** The deadlines an operation armed and cancelled. *)
Definition armed (evs : list procedure_event) (node : bytes) (corr : Z) : Prop := exists ms, ArmDeadline node corr ms ∈ evs.
Definition cancelled (evs : list procedure_event) (node : bytes) (corr : Z) : Prop := CancelDeadline node corr ∈ evs.

(** An operation's effect: callbacks are accounted for, and exactly the pending calls
    keep a running deadline. *)
Record effect f (o : rpc_op) (evs : list procedure_event) f' : Prop := Effect {
  ef_ok : procedure_ok f';
  ef_callbacks : issued o ++ waiting (pf_outstanding f) ≡ₚ resolved evs ++ waiting (pf_outstanding f');
  ef_next : pf_next_correlation_id f <= pf_next_correlation_id f';
  ef_pending : forall node corr, is_Some (per_peer (pf_outstanding f') node !! corr) ->
    ~ cancelled evs node corr /\
    (is_Some (per_peer (pf_outstanding f) node !! corr) \/
     (armed evs node corr /\ pf_next_correlation_id f <= corr));
  ef_cancelled : forall node corr, cancelled evs node corr -> is_Some (per_peer (pf_outstanding f) node !! corr);
}.

Lemma per_peer_insert m node inner k :
  per_peer (<[node := inner]> m) k = if decide (k = node) then inner else per_peer m k.
Proof. unfold per_peer. case_decide as E; [subst; by rewrite lookup_insert_eq|by rewrite lookup_insert_ne]. Qed.

Lemma per_peer_delete m node k : per_peer (delete node m) k = if decide (k = node) then ∅ else per_peer m k.
Proof. unfold per_peer. case_decide as E; [subst; by rewrite lookup_delete_eq|by rewrite lookup_delete_ne]. Qed.

(** An operation that changes neither the table nor the counter. *)
Lemma effect_quiet f o evs f' :
  procedure_ok f' -> issued o = [] -> resolved evs = [] -> pf_outstanding f' = pf_outstanding f ->
  pf_next_correlation_id f' = pf_next_correlation_id f -> (forall node corr, ~ cancelled evs node corr) ->
  effect f o evs f'.
Proof.
  intros Hok Hi Hr Ho Hn Hc. split; [done|by rewrite Hi, Hr, Ho|lia| |].
  - intros node corr H. rewrite Ho in H. split; [apply Hc|by left].
  - intros node corr H. by apply Hc in H.
Qed.

Ltac not_listed H :=
  repeat (apply elem_of_cons in H as [H|H]; [discriminate H|]); by apply elem_of_nil in H.
Ltac not_cancelled := intros; lazymatch goal with |- ~ _ => idtac | H : cancelled _ _ _ |- _ => revert H end; intros Hx; unfold cancelled in Hx; not_listed Hx.

Lemma pf_channel_send_run f ch data c :
  pf_channels f !! ch = Some c -> ready c -> frame_ok data ->
  exists c', send c data = Some c' /\ ready c' /\ pf_channel_send ch data f = Some (tt, [], pf_set_channel f ch c').
Proof.
  intros Hc Hr Hf. destruct (send_keeps c data Hr Hf) as (c' & Hs & Hr' & _). exists c'. split; [done|]. split; [done|].
  unfold pf_channel_send, pf_channel_at.
  rewrite (bind_run _ _ f c [] f) by (rewrite bind_gets; unfold lift; by rewrite Hc). by rewrite Hs, bind_lift.
Qed.

(** The frame [send_data] puts on a channel. *)
Definition data_frame (now : Z) (type : msg_type) (session_id : Z) (inner : bytes) : bytes :=
  header_layout (FrameHeader type 0 session_id now (zlen inner)) ++ inner.

Lemma data_frame_ok now type session_id inner : zlen inner <= 2 ^ 61 -> frame_ok (data_frame now type session_id inner).
Proof. intros H. unfold frame_ok, data_frame, zlen in *. rewrite length_app, length_header_layout. unfold header_size. lia. Qed.

Lemma send_data_run f now ch type inner session_id c :
  pf_channels f !! ch = Some c -> ready c -> zlen inner <= 2 ^ 61 ->
  exists c', send c (data_frame now type session_id inner) = Some c' /\ ready c' /\
    send_data now ch type inner session_id f
    = Some (tt, [], pf_set_channel (pf_set_scratch f (pf_req_scratch f) (pf_resp_scratch f) (data_frame now type session_id inner)) ch c').
Proof.
  intros Hc Hr Hl.
  destruct (pf_channel_send_run (pf_set_scratch f (pf_req_scratch f) (pf_resp_scratch f) (data_frame now type session_id inner))
              ch (data_frame now type session_id inner) c Hc Hr) as (c' & Hs & Hr' & Hrun).
  { by apply data_frame_ok. }
  exists c'. split; [done|]. split; [done|].
  unfold send_data. rewrite bind_gets, encode_frame_into_layout, bind_lift, bind_modify. exact Hrun.
Qed.

(** A change outside the call table that keeps the channels ready. *)
Lemma procedure_ok_transfer f f' :
  procedure_ok f -> (forall ch c, pf_channels f' !! ch = Some c -> ready c) ->
  registry_ok (pf_registry f') -> pf_next_correlation_id f' = pf_next_correlation_id f -> pf_outstanding f' = pf_outstanding f ->
  pf_providers f' = pf_providers f -> pf_hash_to_fqn f' = pf_hash_to_fqn f -> procedure_ok f'.
Proof. intros [H1 H2 H3 H4 H5] Hr Hreg Hn Ho Hp Hh. split; rewrite ?Hn, ?Ho, ?Hp, ?Hh; done. Qed.

Lemma insert_ready (m : gmap Z C) ch c :
  (forall a x, m !! a = Some x -> ready x) -> ready c ->
  (forall a x, <[ch := c]> m !! a = Some x -> ready x) /\ (forall a, is_Some (m !! a) -> is_Some (<[ch := c]> m !! a)).
Proof.
  intros H Hc. split.
  - intros a x. destruct (decide (a = ch)) as [->|]; [rewrite lookup_insert_eq; naive_solver|rewrite lookup_insert_ne by done; apply H].
  - intros a Ha. destruct (decide (a = ch)) as [->|]; [by rewrite lookup_insert_eq|by rewrite lookup_insert_ne].
Qed.

(** The body of a response. *)
Definition response_body (sequence : Z) (req_hdr : bidirectional_header) (status : rpc_status) (data : bytes) : bytes :=
  bidirectional_layout (BidirectionalHeader src_procedure sequence (bh_topic_hash req_hdr) 0 0 (bh_correlation_id req_hdr))
    (be_bytes 1 status ++ data).

Lemma length_bidirectional_layout h data : length (bidirectional_layout h data) = (41 + length data)%nat.
Proof. unfold bidirectional_layout. codec_len. Qed.

Lemma reply_status_run f now ch req_hdr status data session_id c :
  procedure_ok f -> pf_channels f !! ch = Some c -> zlen data <= 2 ^ 60 ->
  exists c' f', send c (data_frame now msg_rpc_response session_id
                          (response_body (ep_next_sequence (pf_endpoint f)) req_hdr status data)) = Some c' /\
    reply_status now ch req_hdr status data session_id f = Some (tt, [], f') /\
    pf_channels f' = <[ch := c']> (pf_channels f) /\ procedure_ok f' /\
    pf_outstanding f' = pf_outstanding f /\ pf_next_correlation_id f' = pf_next_correlation_id f.
Proof.
  intros Hok Hc Hl. unfold reply_status.
  rewrite (bind_run _ _ f (ep_next_sequence (pf_endpoint f)) [] (pf_set_endpoint f (next_sequence (pf_endpoint f)).2)).
  2:{ unfold pf_on_endpoint. rewrite bind_gets. cbn. by rewrite bind_modify. }
  set (f1 := pf_set_endpoint f _). cbv zeta. rewrite bind_gets, encode_rpc_response_into_layout, bind_lift, bind_modify.
  fold (response_body (ep_next_sequence (pf_endpoint f)) req_hdr status data).
  set (body := response_body _ _ _ _). set (f2 := pf_set_scratch f1 _ _ _).
  destruct (send_data_run f2 now ch msg_rpc_response body session_id c Hc) as (c' & Hs & Hr' & Hrun).
  { by eapply (po_channels f Hok). }
  { unfold body, response_body, zlen in *. rewrite length_bidirectional_layout, length_app, length_be_bytes. lia. }
  exists c'. eexists. split; [done|]. split; [by rewrite Hrun|]. destruct (insert_ready (pf_channels f) ch c' (po_channels f Hok) Hr') as [Hi1 Hi2].
  split; [done|]. split; [|done].
  eapply (procedure_ok_transfer f); try done. apply Hok.
Qed.

Lemma reply_effect f now status data :
  procedure_ok f -> op_ok f (OpReply now status data) ->
  exists evs f', perform (OpReply now status data) f = Some (tt, evs, f') /\ effect f (OpReply now status data) evs f'.
Proof.
  intros Hok [(a & Ha & c & Hc) Hl].
  destruct (reply_status_run f now (ar_channel a) (ar_header a) status data (ar_session_id a) c Hok Hc Hl)
    as (c' & f' & _ & Hrun & _ & Hok' & Ho & Hn).
  exists [], f'. split; [|by apply effect_quiet; try not_cancelled]. cbn [perform]. unfold reply. by rewrite bind_gets, Ha, bind_lift.
Qed.

Lemma request_run f now p inner session_id :
  procedure_ok f -> op_ok f (OpRequest now p inner session_id) ->
  exists evs f', perform (OpRequest now p inner session_id) f = Some (tt, evs, f') /\
    effect f (OpRequest now p inner session_id) evs f' /\ evolves (pf_channels f) (pf_channels f').
Proof.
  intros Hok [c Hc]. cbn [perform]. unfold deliver_request. destruct (decode_rpc_request inner) as [d|].
  2:{ eexists _, f. split; [done|]. split; [|apply evolves_refl]. by apply effect_quiet; try not_cancelled. }
  cbv zeta. rewrite bind_gets. destruct (pf_hash_to_fqn f !! bh_topic_hash (bd_header d)) as [fqn|] eqn:Eh.
  - destruct (po_providers f Hok _ _ Eh) as [_ [handler Hp]].
    rewrite bind_modify, bind_emit, bind_gets. cbn [pf_set_active pf_providers]. rewrite Hp, bind_lift.
    eexists _, _. split; [done|]. split; [|apply evolves_refl]. apply effect_quiet; try done; [|not_cancelled].
    apply (procedure_ok_transfer f); try done; apply Hok.
  - rewrite bind_gets. destruct (fqn_for_spec (pf_registry f) (bh_topic_hash (bd_header d)) (po_registry f Hok))
      as (r' & -> & Hr' & _). rewrite bind_lift, bind_modify. set (f1 := pf_set_endpoint f _).
    assert (procedure_ok f1) as Hok1 by (apply (procedure_ok_transfer f); try done; apply Hok).
    destruct (reply_status_run f1 now (p_channel p) (bd_header d)
                (match (match m_topics (pf_registry f) !! bh_topic_hash (bd_header d) with Some e => e_fqn e | None => [] end) with
                 | [] => rpc_no_handler | _ => rpc_topic_not_found end) [] session_id c Hok1 Hc) as (c' & f' & Hs & -> & Hch & Hok' & Ho & Hn);
      [vm_compute; discriminate|].
    exists [], f'. split; [done|]. split; [by apply effect_quiet; try not_cancelled|]. rewrite Hch. eapply evolves_insert; [exact Hc|].
    eapply send_key; [by eapply (po_channels f Hok)| |exact Hs]. apply data_frame_ok.
    unfold response_body, zlen. rewrite length_bidirectional_layout, length_app, length_be_bytes. cbn [length]. lia.
Qed.

Lemma request_effect f now p inner session_id :
  procedure_ok f -> op_ok f (OpRequest now p inner session_id) ->
  exists evs f', perform (OpRequest now p inner session_id) f = Some (tt, evs, f') /\
    effect f (OpRequest now p inner session_id) evs f'.
Proof. intros Hok Ho. destruct (request_run f now p inner session_id Hok Ho) as (evs & f' & Hrun & He & _). eauto. Qed.

Lemma provider_effect f o :
  procedure_ok f -> (exists fqn h, o = OpServe fqn h) \/ (exists fqn, o = OpRetire fqn) ->
  exists evs f', perform o f = Some (tt, evs, f') /\ effect f o evs f'.
Proof.
  intros Hok Ho. assert (forall ps hs, (forall h fqn, hs !! h = Some fqn -> h = fqn_topic_hash fqn /\ is_Some (ps !! fqn)) ->
    procedure_ok (pf_set_providers f ps hs)) as Hset by (intros ps hs H; destruct Hok; by split).
  destruct Ho as [(fqn & h & ->)|(fqn & ->)]; cbn [perform]; eexists _, _; (split; [reflexivity|]);
    apply effect_quiet; try done; try not_cancelled; apply Hset; intros k x.
  - destruct (decide (k = fqn_topic_hash fqn)) as [->|].
    + rewrite lookup_insert_eq. intros [= <-]. split; [done|]. by rewrite lookup_insert_eq.
    + rewrite lookup_insert_ne by done. intros Hk. destruct (po_providers f Hok _ _ Hk) as [-> Hs]. split; [done|].
      rewrite lookup_insert_ne by naive_solver. done.
  - rewrite lookup_delete_Some. intros [Hne Hk]. destruct (po_providers f Hok _ _ Hk) as [-> Hs]. split; [done|].
    rewrite lookup_delete_ne by naive_solver. done.
Qed.

(** Removing one pending call and calling its callback. *)
Lemma erase_effect f o node corr e evs :
  procedure_ok f -> issued o = [] -> per_peer (pf_outstanding f) node !! corr = Some e ->
  resolved evs = [pr_on_response e] -> (forall n k, cancelled evs n k -> n = node /\ k = corr) ->
  effect f o evs (pf_set_outstanding f (<[node := delete corr (per_peer (pf_outstanding f) node)]> (pf_outstanding f))).
Proof.
  intros Hok Hi He Hr Hc. set (m := <[node := _]> _).
  assert (forall n k, is_Some (per_peer m n !! k) -> is_Some (per_peer (pf_outstanding f) n !! k) /\ ~ (n = node /\ k = corr)) as Hm.
  { intros n k. unfold m. rewrite per_peer_insert. case_decide as E; [subst|naive_solver].
    intros [x Hx]. apply lookup_delete_Some in Hx as [Hne Hx]. split; [by exists x|naive_solver]. }
  split.
  - destruct Hok. split; try done. intros n k H. apply Hm in H as [H _]. by eapply po_fresh0.
  - rewrite Hi, Hr. cbn [app]. by apply waiting_erase.
  - cbn. lia.
  - intros n k H. apply Hm in H as [H Hne]. split; [|by left]. intros Hx. by apply Hc in Hx.
  - intros n k Hx. apply Hc in Hx as [-> ->]. by exists e.
Qed.

Lemma lookup_per_peer (m : outstanding) node entries : m !! node = Some entries -> per_peer m node = entries.
Proof. unfold per_peer. by intros ->. Qed.

Lemma response_effect f p inner :
  procedure_ok f ->
  exists evs f', perform (OpResponse p inner) f = Some (tt, evs, f') /\ effect f (OpResponse p inner) evs f'.
Proof.
  intros Hok. cbn [perform]. unfold deliver_response. destruct (decode_rpc_response inner) as [d|].
  2:{ eexists _, f. split; [done|]. by apply effect_quiet; try not_cancelled. }
  rewrite bind_gets. destruct (pf_outstanding f !! p_node_name p) as [entries|] eqn:Ep.
  2:{ eexists _, f. split; [done|]. by apply effect_quiet; try not_cancelled. }
  cbv zeta. destruct (entries !! bh_correlation_id (rr_header d)) as [e|] eqn:Ee.
  2:{ eexists _, f. split; [done|]. by apply effect_quiet; try not_cancelled. }
  unfold erase_entry. rewrite bind_modify, !bind_emit. eexists _, _. split; [reflexivity|].
  apply (erase_effect f _ (p_node_name p) (bh_correlation_id (rr_header d)) e); try done.
  - by rewrite (lookup_per_peer _ _ _ Ep).
  - intros n k Hx. unfold cancelled in Hx. apply elem_of_cons in Hx as [Hx|Hx]; [by injection Hx as -> ->|].
    not_listed Hx.
Qed.

Lemma deadline_effect f node corr ec :
  procedure_ok f ->
  exists evs f', perform (OpDeadline node corr ec) f = Some (tt, evs, f') /\ effect f (OpDeadline node corr ec) evs f'.
Proof.
  intros Hok. cbn [perform]. unfold on_deadline. destruct ec.
  { eexists _, f. split; [done|]. by apply effect_quiet; try not_cancelled. }
  unfold fire_timeout. rewrite bind_gets. destruct (pf_outstanding f !! node) as [entries|] eqn:Ep.
  2:{ eexists _, f. split; [done|]. by apply effect_quiet; try not_cancelled. }
  destruct (entries !! corr) as [e|] eqn:Ee.
  2:{ eexists _, f. split; [done|]. by apply effect_quiet; try not_cancelled. }
  unfold erase_entry. rewrite bind_modify. eexists _, _. split; [reflexivity|].
  apply (erase_effect f _ node corr e); try done.
  - by rewrite (lookup_per_peer _ _ _ Ep).
  - intros n k Hx. unfold cancelled in Hx. not_listed Hx.
Qed.

(** The events of a peer's death, one pending call after the other. *)
Definition disconnections (node : bytes) (l : list (Z * pending_rpc)) : list procedure_event :=
  flat_map (fun e => [CancelDeadline node e.1; Resolved (pr_on_response e.2) rpc_peer_disconnected []]) l.

Lemma disconnect_run node l f :
  each (fun '(corr_id, pending) =>
          emit (CancelDeadline node corr_id) ;; emit (Resolved (pr_on_response pending) rpc_peer_disconnected [])) l f
  = Some (tt, disconnections node l, f).
Proof.
  induction l as [|[k e] l IH]; [done|]. cbn [each disconnections flat_map].
  by rewrite (bind_run_Some _ _ f tt [CancelDeadline node k; Resolved (pr_on_response e) rpc_peer_disconnected []] f _ _ _ eq_refl IH).
Qed.

Lemma disconnections_resolved node l : resolved (disconnections node l) = map (fun e => pr_on_response e.2) l.
Proof. induction l as [|[k e] l IH]; [done|]. cbn. by f_equal. Qed.

Lemma disconnections_cancelled node l n k : cancelled (disconnections node l) n k -> n = node /\ k ∈ map fst l.
Proof.
  unfold cancelled. induction l as [|[c e] l IH]; cbn [disconnections flat_map app]; intros Hx; [by apply elem_of_nil in Hx|].
  apply elem_of_cons in Hx as [Hx|Hx]; [injection Hx as -> ->; split; [done|apply list_elem_of_here]|].
  apply elem_of_cons in Hx as [Hx|Hx]; [discriminate Hx|]. destruct (IH Hx) as [-> Hk]. split; [done|]. by apply elem_of_cons; right.
Qed.

Lemma detach_all_effect f p :
  procedure_ok f ->
  exists evs f', perform (OpDetachAll p) f = Some (tt, evs, f') /\ effect f (OpDetachAll p) evs f'.
Proof.
  intros Hok. cbn [perform]. unfold pf_detach_all. rewrite bind_modify, bind_gets. set (f1 := pf_set_endpoint f _).
  assert (procedure_ok f1) as Hok1.
  { apply (procedure_ok_transfer f); try done; [apply Hok|]. apply remove_peer_ok, Hok. }
  change (pf_outstanding f1) with (pf_outstanding f).
  destruct (pf_outstanding f !! p_node_name p) as [entries|] eqn:Ep.
  2:{ eexists _, f1. split; [done|]. by apply effect_quiet; try not_cancelled. }
  rewrite bind_modify, disconnect_run. eexists _, _. split; [done|]. pose proof (lookup_per_peer _ _ _ Ep) as El.
  set (m := delete _ _).
  assert (forall n k, is_Some (per_peer m n !! k) -> n <> p_node_name p /\ is_Some (per_peer (pf_outstanding f) n !! k)) as Hm.
  { intros n k. unfold m. rewrite per_peer_delete. case_decide; [rewrite lookup_empty; by intros []|done]. }
  split.
  - destruct Hok1. split; try done. intros n k H. apply Hm in H as [_ H]. by eapply po_fresh0.
  - cbn [issued app]. rewrite disconnections_resolved, (waiting_split _ (p_node_name p)), El. done.
  - cbn. lia.
  - intros n k H. apply Hm in H as [Hne H]. split; [|by left]. intros Hx. by apply disconnections_cancelled in Hx as [-> _].
  - intros n k Hx. apply disconnections_cancelled in Hx as [-> Hk]. rewrite El.
    apply list_elem_of_In, in_map_iff in Hk as ([k' e] & <- & Hin). apply list_elem_of_In, elem_of_map_to_list in Hin. by exists e.
Qed.

(** The body of a request. *)
Definition request_body (sequence corr_id : Z) (fqn param : bytes) : bytes :=
  bidirectional_layout (BidirectionalHeader src_caller sequence (fqn_topic_hash fqn) 0 0 corr_id) param.

(** A call within the capacity. *)
Lemma call_run f now p fqn param cb deadline session_id c :
  procedure_ok f -> pf_channels f !! p_channel p = Some c -> zlen param <= 2 ^ 60 ->
  pf_next_correlation_id f < 2 ^ 64 - 1 ->
  Z.of_nat (size (per_peer (pf_outstanding f) (p_node_name p))) < pf_max_outstanding f ->
  let corr := pf_next_correlation_id f in
  exists c' f', send c (data_frame now msg_rpc_request session_id (request_body (ep_next_sequence (pf_endpoint f)) corr fqn param)) = Some c' /\
    call now p fqn param cb deadline session_id f
    = Some (tt, [RpcCall fqn corr; ArmDeadline (p_node_name p) corr (nanoseconds_to_ms (default (pf_default_deadline f) deadline))], f') /\
    pf_channels f' = <[p_channel p := c']> (pf_channels f) /\ procedure_ok f' /\
    pf_next_correlation_id f' = corr + 1 /\
    (exists m, (forall k, per_peer m k = per_peer (pf_outstanding f) k) /\ waiting m ≡ₚ waiting (pf_outstanding f) /\
       pf_outstanding f' = <[p_node_name p := <[corr := PendingRpc fqn cb]> (per_peer (pf_outstanding f) (p_node_name p))]> m).
Proof.
  intros Hok Hc Hl Hn Hcap corr. unfold call. rewrite bind_modify, bind_gets. set (f0 := pf_set_outstanding f _).
  set (m := <[p_node_name p := per_peer (pf_outstanding f) (p_node_name p)]> (pf_outstanding f)).
  assert (forall k, per_peer m k = per_peer (pf_outstanding f) k) as Hm.
  { intros k. unfold m. rewrite per_peer_insert. by case_decide; subst. }
  change (pf_outstanding f0) with m. rewrite Hm, bind_gets. change (pf_max_outstanding f0) with (pf_max_outstanding f).
  destruct (Z.geb_spec (Z.of_nat (size (per_peer (pf_outstanding f) (p_node_name p)))) (pf_max_outstanding f)); [lia|].
  rewrite bind_gets. change (pf_next_correlation_id f0) with corr. rewrite bind_modify. set (f1 := pf_set_next f0 _).
  rewrite (bind_run _ _ f1 (ep_next_sequence (pf_endpoint f)) [] (pf_set_endpoint f1 (next_sequence (pf_endpoint f)).2)).
  2:{ unfold pf_on_endpoint. rewrite bind_gets. cbn. by rewrite bind_modify. }
  set (f2 := pf_set_endpoint f1 _). cbv zeta. rewrite bind_gets. unfold encode_rpc_request_into.
  rewrite encode_bidirectional_into_layout, bind_lift, bind_modify. fold (request_body (ep_next_sequence (pf_endpoint f)) corr fqn param).
  set (body := request_body _ _ _ _). set (f3 := pf_set_scratch f2 _ _ _).
  destruct (send_data_run f3 now (p_channel p) msg_rpc_request body session_id c Hc) as (c' & Hs & Hr' & Hrun).
  { by eapply (po_channels f Hok). }
  { unfold body, request_body, zlen in *. rewrite length_bidirectional_layout. lia. }
  rewrite (bind_run _ _ _ _ _ _ Hrun). set (f4 := pf_set_channel _ _ c'). rewrite bind_emit, bind_modify.
  change (pf_outstanding f4) with m. rewrite Hm.
  assert (per_peer (pf_outstanding f) (p_node_name p) !! corr = None) as Hfresh.
  { destruct (per_peer (pf_outstanding f) (p_node_name p) !! corr) as [e|] eqn:E; [|done].
    assert (corr < pf_next_correlation_id f) by (eapply (po_fresh f Hok); by rewrite E). unfold corr in *. lia. }
  rewrite Hfresh, bind_gets. exists c'. eexists. split; [done|]. split; [reflexivity|].
  destruct (insert_ready (pf_channels f) (p_channel p) c' (po_channels f Hok) Hr') as [Hi1 Hi2].
  pose proof (po_next f Hok) as Hpos.
  assert (wrap 64 (corr + 1) = corr + 1) as Hw by (apply wrap_small; unfold in_width, corr in *; lia).
  split; [done|]. split; [|split; [exact Hw|]].
  - destruct Hok. split; cbn; try done; [rewrite Hw; unfold corr in *; lia|].
    + intros n k. rewrite Hw, per_peer_insert. case_decide as E.
      * destruct (decide (k = corr)) as [->|]; [unfold corr in *; lia|]. rewrite lookup_insert_ne by done. intros H'.
        apply po_fresh0 in H'. unfold corr in *. lia.
      * rewrite Hm. intros H'. apply po_fresh0 in H'. unfold corr in *. lia.
  - exists m. split; [done|]. split; [apply waiting_touch|done].
Qed.

Lemma call_effect f now p fqn param cb deadline session_id :
  let o := OpCall now p fqn param cb deadline session_id in
  procedure_ok f -> op_ok f o -> exists evs f', perform o f = Some (tt, evs, f') /\ effect f o evs f'.
Proof.
  intros o Hok (Hc & Hl & Hn). destruct Hc as [c Hc]. cbn [perform o].
  destruct (Z.ltb_spec (Z.of_nat (size (per_peer (pf_outstanding f) (p_node_name p)))) (pf_max_outstanding f)) as [Hcap|Hcap].
  - destruct (call_run f now p fqn param cb deadline session_id c Hok Hc Hl Hn Hcap)
      as (c' & f' & _ & -> & _ & Hok' & Hnext & m & Hm & Hw & Ho).
    set (corr := pf_next_correlation_id f) in *. eexists _, f'. split; [done|].
    assert (per_peer (pf_outstanding f) (p_node_name p) !! corr = None) as Hfresh.
    { apply eq_None_not_Some. intros H. apply (po_fresh f Hok) in H. unfold corr in *. lia. }
    split; [done| |unfold corr in *; lia| |].
    + cbn [issued o resolved omap list_omap app]. rewrite Ho, waiting_insert, (callbacks_insert _ _ _ Hfresh), <- Hw.
      cbn [pr_on_response app]. by rewrite (waiting_split m (p_node_name p)), Hm.
    + intros node k. rewrite Ho, per_peer_insert. intros H. split; [not_cancelled|]. case_decide as E; [|left; by rewrite <- Hm].
      destruct (decide (k = corr)) as [->|Hk]; [right|left].
      * split; [|unfold corr; lia]. eexists. rewrite E. apply elem_of_cons. right. apply list_elem_of_here.
      * subst node. by rewrite lookup_insert_ne in H.
    + not_cancelled.
  - exists [Resolved cb rpc_error []].
    exists (pf_set_outstanding f (<[p_node_name p := per_peer (pf_outstanding f) (p_node_name p)]> (pf_outstanding f))).
    assert (forall k, per_peer (<[p_node_name p := per_peer (pf_outstanding f) (p_node_name p)]> (pf_outstanding f)) k
                      = per_peer (pf_outstanding f) k) as Hm.
    { intros k. rewrite per_peer_insert. by case_decide; subst. }
    split.
    + unfold call. rewrite bind_modify, !bind_gets. cbn [pf_set_outstanding pf_outstanding pf_max_outstanding]. rewrite Hm.
      by destruct (Z.geb_spec (Z.of_nat (size (per_peer (pf_outstanding f) (p_node_name p)))) (pf_max_outstanding f)); [|lia].
    + split; cbn [pf_set_outstanding pf_outstanding pf_next_correlation_id]; [|by rewrite waiting_touch|lia| |not_cancelled].
      * destruct Hok. split; try done. cbn. intros node k. rewrite Hm. apply po_fresh0.
      * intros node k. rewrite Hm. intros H. split; [not_cancelled|by left].
Qed.

(** ** Attaching leaves the calls alone *)

Definition kept f f' : Prop :=
  procedure_ok f' /\ (forall ch, is_Some (pf_channels f !! ch) -> is_Some (pf_channels f' !! ch)) /\
  pf_outstanding f' = pf_outstanding f /\ pf_next_correlation_id f' = pf_next_correlation_id f.

Definition quietly {A} (m : prog (procedure_forwarder C) procedure_event A) f : Prop :=
  wp m (fun _ evs f' => evs = [] /\ kept f f') f.

#[local] Instance kept_transitive : Transitive kept.
Proof. intros f1 f2 f3 (_ & H1 & H2 & H3) (? & H4 & H5 & H6). split_and!; [done|auto|congruence..]. Qed.

Lemma quietly_bind {A B} (m : prog (procedure_forwarder C) procedure_event A)
    (k : A -> prog (procedure_forwarder C) procedure_event B) f :
  quietly m f -> (forall x f', kept f f' -> quietly (k x) f') -> quietly (m ≫= k) f.
Proof.
  intros Hm Hk. apply wp_bind. eapply wp_mono; [exact Hm|]. intros x e1 f1 [-> H1]. eapply wp_mono; [exact (Hk x f1 H1)|].
  intros y e2 f2 [-> H2]. split; [done|by etransitivity].
Qed.

Lemma quietly_ret {A} (x : A) f : procedure_ok f -> quietly (mret x) f.
Proof. intros Hok. apply wp_ret. split; [done|]. by split_and!. Qed.

Lemma kept_endpoint f e : procedure_ok f -> registry_ok (ep_registry e) -> kept f (pf_set_endpoint f e).
Proof. intros Hok He. split_and!; try done. apply (procedure_ok_transfer f); try done; apply Hok. Qed.

Lemma quietly_gate {A} (op : subscription_endpoint -> A * subscription_endpoint) f :
  procedure_ok f -> registry_ok (ep_registry (op (pf_endpoint f)).2) -> quietly (pf_on_endpoint op) f.
Proof.
  intros Hok He. apply wp_bind_gets. destruct (op (pf_endpoint f)) as [x e]. apply wp_bind_modify, wp_ret.
  split; [done|by apply kept_endpoint].
Qed.

Lemma quietly_control f now ch type inner :
  procedure_ok f -> is_Some (pf_channels f !! ch) -> zlen inner <= 2 ^ 61 -> quietly (pf_send_control now ch type inner) f.
Proof.
  intros Hok [c Hc] Hl. unfold quietly, pf_send_control, control_frame. apply wp_bind_gets. rewrite encode_frame_into_layout.
  cbn [mbind option_bind]. apply wp_bind_lift, wp_bind_modify. set (f1 := pf_set_endpoint f _).
  assert (kept f f1) as (Hok1 & _) by (apply kept_endpoint; [done|apply Hok]).
  destruct (pf_channel_send_run f1 ch (header_layout (FrameHeader type 0 0 now (zlen inner)) ++ inner) c Hc) as (c' & _ & Hr & Hrun).
  { by eapply (po_channels f1 Hok1). }
  { unfold frame_ok, zlen in *. rewrite length_app, length_header_layout. unfold header_size. lia. }
  eexists _, _, _. split; [exact Hrun|]. destruct (insert_ready (pf_channels f) ch c' (po_channels f Hok) Hr) as [Hi1 Hi2].
  split; [done|]. split_and!; try done. apply (procedure_ok_transfer f1); try done. apply Hok1.
Qed.

Lemma quietly_add f p hash fqn :
  procedure_ok f -> is_Some (pf_channels f !! p_channel p) -> quietly (pf_add_entry p hash fqn) f.
Proof.
  intros Hok [c Hc]. eexists tt, _, _. split.
  - unfold pf_add_entry, pf_channel_at. rewrite (bind_run _ _ f c [] f) by (rewrite bind_gets; unfold lift; by rewrite Hc).
    reflexivity.
  - split; [done|]. apply kept_endpoint; [done|]. apply add_subscriber_ok, Hok.
Qed.

Lemma quietly_lift {A B} (x : A) (k : A -> prog (procedure_forwarder C) procedure_event B) f :
  quietly (k x) f -> quietly (lift (Some x) ≫= k) f.
Proof. apply wp_bind_lift. Qed.

Lemma quietly_modify {B} g (k : unit -> prog (procedure_forwarder C) procedure_event B) f :
  kept f (g f) -> quietly (k tt) (g f) -> quietly (modify g ≫= k) f.
Proof.
  intros Hg Hk. apply wp_bind_modify. eapply wp_mono; [exact Hk|]. intros x evs f' [-> H]. split; [done|by etransitivity].
Qed.

Lemma length_call_subscribe fqn hash :
  zlen fqn <= 2 ^ 60 -> zlen (subscribe_layout (SubscribeRequest fqn [] hash 0 src_caller false subscribe_qos_region_zero)) <= 2 ^ 61.
Proof.
  intros H. unfold subscribe_layout, subscribe_head_layout. cbn [sr_fqn sr_type_name sr_has_qos sr_topic_hash sr_type_hash sr_source].
  unfold zlen in *. rewrite !length_app, !length_be_bytes. cbn [length]. lia.
Qed.

(** A gate, then a control frame when the count crossed zero. *)
Ltac gate := apply quietly_bind; [|intros [] ? (? & ? & _); cbn [negb]; [cbv zeta|by apply quietly_ret] ].
Ltac then_true := apply quietly_bind; [|intros ? ? [? _]; by apply quietly_ret].

Lemma attach_effect f o :
  procedure_ok f -> op_ok f o ->
  (exists now p fqn, o = OpAttach now p fqn \/ o = OpAttachForFanout now p fqn \/ o = OpDetach now p fqn) ->
  exists evs f', perform o f = Some (tt, evs, f') /\ effect f o evs f'.
Proof.
  intros Hok Ho (now & p & fqn & H).
  assert (is_Some (pf_channels f !! p_channel p) /\ zlen fqn <= 2 ^ 60) as [Hc Hl] by (destruct H as [->|[->| ->] ]; exact Ho).
  assert (issued o = []) as Hi by (destruct H as [->|[->| ->] ]; done).
  assert (registry_ok (ep_registry (attach_gate (pf_endpoint f) (p_node_name p) fqn).2) /\
          registry_ok (ep_registry (detach_gate (pf_endpoint f) (p_node_name p) fqn).2)) as [Hga Hgd].
  { assert (registry_ok (ep_registry (pf_endpoint f))) as Hr by apply Hok.
    pose proof (registry_step_ok _ _ Hr (step_bump _ (p_node_name p) fqn)).
    pose proof (registry_step_ok _ _ Hr (step_drop _ (p_node_name p) fqn)).
    unfold attach_gate, detach_gate. by destruct (bump_refcount _ _ _), (drop_refcount _ _ _). }
  enough (quietly (perform o) f) as ([] & evs & f' & Hrun & -> & Hok' & _ & Hout & Hn).
  { eexists [], f'. split; [done|]. apply effect_quiet; try done. not_cancelled. }
  destruct H as [->|[->| ->] ]; cbn [perform]; then_true; unfold pf_attach, pf_attach_for_fanout, pf_detach; gate.
  - by apply quietly_gate.
  - apply quietly_bind; [apply quietly_add; auto|]. intros _ f2 (Hok2 & H2 & _). then_true.
    unfold pf_send_subscribe. rewrite encode_subscribe_request_layout. apply quietly_lift, quietly_control; auto using length_call_subscribe.
  - by apply quietly_gate.
  - apply quietly_bind; [apply quietly_add; auto|]. intros _ f2 (Hok2 & H2 & _).
    rewrite encode_subscribe_response_layout. apply quietly_lift. then_true. apply quietly_control; [auto..|]. by vm_compute.
  - by apply quietly_gate.
  - apply quietly_modify; [apply kept_endpoint; [done|]; apply remove_subscriber_ok, po_registry; done|].
    rewrite encode_unsubscribe_request_layout. apply quietly_lift. then_true.
    apply quietly_control; [|auto|unfold zlen; rewrite length_be_bytes; cbn; lia].
    apply kept_endpoint; [done|]. apply remove_subscriber_ok, po_registry; done.
Qed.

Lemma perform_effect f o :
  procedure_ok f -> op_ok f o -> exists evs f', perform o f = Some (tt, evs, f') /\ effect f o evs f'.
Proof.
  intros Hok Ho. destruct o;
    first [by apply call_effect | by apply response_effect | by apply deadline_effect | by apply detach_all_effect
          | by apply request_effect | by apply reply_effect | solve [apply provider_effect; [done|eauto] ] | solve [apply attach_effect; [done..|eauto 8] ] ].
Qed.

(** ** Histories *)

(** The channels belong to the sessions, which make and destroy them. *)
Definition with_channels f (chs : gmap Z C) : procedure_forwarder C :=
  ProcedureForwarder (pf_endpoint f) (pf_max_outstanding f) (pf_active f) (pf_next_correlation_id f) (pf_default_deadline f)
    (pf_providers f) (pf_hash_to_fqn f) (pf_outstanding f) (pf_req_scratch f) (pf_resp_scratch f) (pf_frame_scratch f) chs.

(** [trace f0 evs cbs f]: operations lead from [f0] to [f], produce the events [evs] and
    hand over the response callbacks [cbs]; between them channels come and go. *)
Inductive trace (f0 : procedure_forwarder C) : list procedure_event -> list Z -> procedure_forwarder C -> Prop :=
| trace_start : trace f0 [] [] f0
| trace_step evs cbs f o evs' f' :
    trace f0 evs cbs f -> op_ok f o -> perform o f = Some (tt, evs', f') -> trace f0 (evs ++ evs') (cbs ++ issued o) f'
| trace_channels evs cbs f chs :
    trace f0 evs cbs f -> (forall ch c, chs !! ch = Some c -> ready c) -> trace f0 evs cbs (with_channels f chs).

Record history_ok (evs : list procedure_event) (cbs : list Z) f : Prop := HistoryOk {
  ho_ok : procedure_ok f;
  ho_callbacks : cbs ≡ₚ resolved evs ++ waiting (pf_outstanding f);
  ho_pending : forall node corr, is_Some (per_peer (pf_outstanding f) node !! corr) ->
    armed evs node corr /\ ~ cancelled evs node corr;
  ho_cancelled : forall node corr, cancelled evs node corr -> corr < pf_next_correlation_id f;
}.

Lemma history_step evs cbs f o evs' f' :
  history_ok evs cbs f -> effect f o evs' f' -> history_ok (evs ++ evs') (cbs ++ issued o) f'.
Proof.
  intros [Hok Hcb Hp Hc] [Hok' Hcb' Hn Hp' Hc'].
  assert (forall node corr, cancelled (evs ++ evs') node corr <-> cancelled evs node corr \/ cancelled evs' node corr) as Happ
    by (intros; apply elem_of_app).
  split; [done| | |].
  - rewrite resolved_app, Hcb, <- !app_assoc. f_equiv. by rewrite (Permutation_app_comm (waiting _)).
  - intros node corr H. destruct (Hp' node corr H) as [Hnc Hold]. rewrite Happ. destruct Hold as [Hold|[ [ms Ha] Hge] ].
    + destruct (Hp node corr Hold) as [ [ms Ha] Hnc']. split; [exists ms; by apply elem_of_app; left|]. tauto.
    + split; [exists ms; by apply elem_of_app; right|]. intros [Hx|Hx]; [|done]. apply Hc in Hx. lia.
  - intros node corr [Hx|Hx]%Happ; [apply Hc in Hx; lia|]. apply Hc' in Hx. apply (po_fresh f Hok) in Hx. lia.
Qed.

Lemma trace_history f0 evs cbs f :
  procedure_ok f0 -> pf_outstanding f0 = ∅ -> trace f0 evs cbs f -> history_ok evs cbs f.
Proof.
  intros Hok He. induction 1 as [|evs cbs f o evs' f' _ IH Ho Hrun|evs cbs f chs _ IH Hchs].
  - split; [done|by rewrite He| |].
    + intros node corr. rewrite He. unfold per_peer. rewrite lookup_empty. cbn. rewrite lookup_empty. by intros [].
    + intros node corr Hx. by apply elem_of_nil in Hx.
  - destruct (perform_effect f o (ho_ok _ _ _ IH) Ho) as (evs1 & f1 & Hrun1 & Hef).
    rewrite Hrun1 in Hrun. injection Hrun as -> ->. by apply (history_step evs cbs f).
  - destruct IH as [ [] ? ? ?]. by split.
Qed.

Lemma pending_call (m : outstanding) node corr e :
  per_peer m node !! corr = Some e -> exists entries, m !! node = Some entries /\ entries !! corr = Some e.
Proof.
  unfold per_peer. destruct (m !! node) as [entries|] eqn:E; cbn; [by exists entries|by rewrite lookup_empty].
Qed.

(** C15: Every remote call is resolved exactly once.  After any sequence of calls, requests,
    replies, responses, expiries, attachments and peer deaths, with channels made and destroyed
    at any point between them, the response callbacks handed to [call] are, as a multiset, those
    already called together with those of the pending calls; a pending call has an armed
    deadline that nobody cancelled, whose expiry calls the callback with [timeout] and forgets
    the call; a cancelled expiry does nothing; and the next operation returns.  Of the callers
    it is assumed ([op_ok]) that a call, a request, an attachment and a detachment name a
    channel that exists at that time, that a reply is made after a request was dispatched and
    while the requester's channel still exists, that parameters, results and names are at most
    2^60 bytes, and that fewer than 2^64 - 1 calls were made; of channels, that each keeps its
    contract.  A reply whose requester's channel is gone is outside:
    [reply_to_a_gone_channel] and, in the engine, [late_reply_uses_a_destroyed_channel]
    show that the code uses it all the same. *)
Theorem calls_resolve_exactly_once (f0 f : procedure_forwarder C) (evs : list procedure_event) (cbs : list Z) :
  procedure_ok f0 -> pf_outstanding f0 = ∅ -> trace f0 evs cbs f ->
  cbs ≡ₚ resolved evs ++ waiting (pf_outstanding f) /\
  (forall node corr pending, per_peer (pf_outstanding f) node !! corr = Some pending ->
     armed evs node corr /\ ~ cancelled evs node corr /\
     exists f', on_deadline node corr false f = Some (tt, [Resolved (pr_on_response pending) rpc_timeout []], f') /\
       waiting (pf_outstanding f) ≡ₚ pr_on_response pending :: waiting (pf_outstanding f')) /\
  (forall node corr, on_deadline node corr true f = Some (tt, [], f)) /\
  (forall o, op_ok f o -> exists evs' f', perform o f = Some (tt, evs', f')).
Proof.
  intros Hok He Ht. destruct (trace_history _ _ _ _ Hok He Ht) as [Hok' Hcb Hp _]. split; [done|]. split; [|split; [done|] ].
  - intros node corr e H. destruct (Hp node corr) as [Ha Hc]; [by rewrite H|]. split; [done|]. split; [done|].
    destruct (pending_call _ _ _ _ H) as (entries & E1 & E2). unfold on_deadline, fire_timeout. rewrite bind_gets, E1, E2.
    unfold erase_entry. rewrite bind_modify. eexists. split; [reflexivity|]. by apply waiting_erase.
  - intros o Ho. destruct (perform_effect f o Hok' Ho) as (evs' & f' & H & _). eauto.
Qed.

(** A reply made when the requester's channel is gone uses it: nothing clears [m_active]. *)
Lemma reply_to_a_gone_channel (f : procedure_forwarder C) now status data a :
  pf_active f = Some a -> pf_channels f !! ar_channel a = None -> reply now status data f = None.
Proof.
  intros Ha Hg. unfold reply, reply_status, send_data, pf_on_endpoint, pf_channel_send, pf_channel_at, next_sequence.
  unfold mbind, prog_bind, gets, lift, modify, mret, prog_ret. cbn. rewrite Ha. cbn.
  destruct (encode_rpc_response_into _ _ _ _); cbn; [|done]. destruct (encode_frame_into _ _ _); cbn; [|done]. by rewrite Hg.
Qed.

(** ** A call and its reply *)

Lemma data_frame_decodes now type session_id inner :
  in_width 64 now -> in_width 8 type -> in_width 64 session_id -> zlen inner <= 2 ^ 61 ->
  decode_header (data_frame now type session_id inner) = Some (FrameHeader type 0 session_id now (zlen inner)) /\
  drop header_size (data_frame now type session_id inner) = inner.
Proof.
  intros Hn Ht Hs Hl. unfold data_frame. split.
  - apply decode_header_layout. unfold frame_header_ok. cbn [fh_type fh_flags fh_session_id fh_timestamp_ns fh_payload_len].
    split_and!; [done|split; by vm_compute|done..|unfold in_width, zlen in *; lia].
  - rewrite <- (length_header_layout (FrameHeader type 0 session_id now (zlen inner))). apply drop_app_length.
Qed.

Lemma decode_request_body sequence corr fqn param :
  in_width 64 sequence -> in_width 64 corr ->
  decode_rpc_request (request_body sequence corr fqn param)
  = Some (BidirectionalDecodeResult (BidirectionalHeader src_caller sequence (fqn_topic_hash fqn) 0 0 corr) param).
Proof.
  intros Hs Hc. unfold decode_rpc_request, request_body. apply decode_bidirectional_layout.
  unfold bidirectional_header_ok. cbn [bh_source bh_sequence bh_topic_hash bh_type_hash_1 bh_type_hash_2 bh_correlation_id].
  split_and!; [split; by vm_compute|done|apply topic_hash_width|split; by vm_compute..|done].
Qed.

Lemma decode_response_body sequence h status data :
  in_width 64 sequence -> in_width 64 (bh_topic_hash h) -> in_width 64 (bh_correlation_id h) ->
  in_width 8 status -> is_defined_rpc_status status = true ->
  decode_rpc_response (response_body sequence h status data)
  = Some (RpcResponseDecodeResult (BidirectionalHeader src_procedure sequence (bh_topic_hash h) 0 0 (bh_correlation_id h)) status data).
Proof.
  intros Hs Ht Hc Hw Hd. unfold decode_rpc_response, response_body. rewrite decode_bidirectional_layout.
  2:{ unfold bidirectional_header_ok. cbn [bh_source bh_sequence bh_topic_hash bh_type_hash_1 bh_type_hash_2 bh_correlation_id].
      split_and!; [split; by vm_compute|done..|split; by vm_compute|split; by vm_compute|done]. }
  cbn [mbind option_bind bd_data bd_header]. change (be_bytes 1 status ++ data) with (byte.of_Z status :: data). cbv beta iota zeta.
  rewrite unsigned_of_Z_small by done. by rewrite Hd.
Qed.

(** C36: A remote call works end to end.  A call within the caller's capacity sends one frame; the
    header of that frame and its payload decode, and the payload given to the callee's
    [deliver_request] calls the handler registered for the name, with the parameter bytes.  The
    reply the handler makes sends one frame on the channel the request came from, and its
    payload given to the caller's [deliver_response] cancels the deadline and calls the caller's
    callback with the status and the data of the reply, leaving the pending calls as before. *)
Theorem rpc_call_round_trip (f g : procedure_forwarder C) (p q : peer) (cf cg : C) (fqn param data : bytes)
    (cb handler now now' now'' session_id status : Z) (deadline : option Z) :
  procedure_ok f -> procedure_ok g ->
  pf_channels f !! p_channel p = Some cf -> pf_channels g !! p_channel q = Some cg ->
  pf_hash_to_fqn g !! fqn_topic_hash fqn = Some fqn -> pf_providers g !! fqn = Some handler ->
  Z.of_nat (size (per_peer (pf_outstanding f) (p_node_name p))) < pf_max_outstanding f ->
  pf_next_correlation_id f < 2 ^ 64 - 1 ->
  in_width 64 (ep_next_sequence (pf_endpoint f)) -> in_width 64 (ep_next_sequence (pf_endpoint g)) ->
  in_width 64 now -> in_width 64 now'' -> in_width 64 session_id ->
  zlen param <= 2 ^ 60 -> zlen data <= 2 ^ 60 -> in_width 8 status -> is_defined_rpc_status status = true ->
  let corr := pf_next_correlation_id f in
  exists evs f1 g1 g2 f2 cf' cg' request response,
    call now p fqn param cb deadline session_id f = Some (tt, evs, f1) /\ resolved evs = [] /\
    send cf (data_frame now msg_rpc_request session_id request) = Some cf' /\
    pf_channels f1 !! p_channel p = Some cf' /\
    decode_header (data_frame now msg_rpc_request session_id request)
      = Some (FrameHeader msg_rpc_request 0 session_id now (zlen request)) /\
    drop header_size (data_frame now msg_rpc_request session_id request) = request /\
    deliver_request now' q request session_id g = Some (tt, [RpcServe fqn corr; Handle handler param], g1) /\
    reply now'' status data g1 = Some (tt, [], g2) /\
    send cg (data_frame now'' msg_rpc_response session_id response) = Some cg' /\
    pf_channels g2 !! p_channel q = Some cg' /\
    decode_header (data_frame now'' msg_rpc_response session_id response)
      = Some (FrameHeader msg_rpc_response 0 session_id now'' (zlen response)) /\
    drop header_size (data_frame now'' msg_rpc_response session_id response) = response /\
    deliver_response p response f1
      = Some (tt, [CancelDeadline (p_node_name p) corr; RpcReply fqn corr status; Resolved cb status data], f2) /\
    waiting (pf_outstanding f2) ≡ₚ waiting (pf_outstanding f).
Proof.
  intros Hf Hg Hcf Hcg Hh Hp Hcap Hlast Hsf Hsg Hn Hn'' Hsid Hlp Hld Hst Hdef corr.
  pose proof (po_next f Hf) as Hpos. assert (in_width 64 corr) as Hcorr by (unfold in_width, corr; lia).
  destruct (call_run f now p fqn param cb deadline session_id cf Hf Hcf Hlp Hlast Hcap)
    as (cf' & f1 & Hs1 & Hcall & Hch1 & Hf1 & _ & m & Hm & Hw & Hout).
  set (request := request_body (ep_next_sequence (pf_endpoint f)) corr fqn param).
  change (request_body _ _ fqn param) with request in Hs1.
  pose proof (decode_request_body _ corr fqn param Hsf Hcorr) as Hdreq. change (request_body _ _ fqn param) with request in Hdreq.
  set (h := BidirectionalHeader src_caller _ _ 0 0 corr) in *.
  set (g1 := pf_set_active g (ActiveRequest (p_channel q) h session_id)).
  assert (procedure_ok g1) as Hg1.
  { apply (procedure_ok_transfer g); try done; apply Hg. }
  destruct (reply_status_run g1 now'' (p_channel q) h status data session_id cg Hg1 Hcg Hld)
    as (cg' & g2 & Hs2 & Hreply & Hch2 & _ & _ & _).
  change (ep_next_sequence (pf_endpoint g1)) with (ep_next_sequence (pf_endpoint g)) in Hs2.
  pose proof (decode_response_body _ h status data Hsg (topic_hash_width fqn) Hcorr Hst Hdef) as Hdresp.
  set (response := response_body _ _ _ _) in *.
  destruct (data_frame_decodes now msg_rpc_request session_id request Hn) as [Hd1 Hd2];
    [split; by vm_compute|done|unfold request, request_body, zlen in *; rewrite length_bidirectional_layout; lia|].
  destruct (data_frame_decodes now'' msg_rpc_response session_id response Hn'') as [Hd3 Hd4];
    [split; by vm_compute|done|unfold response, response_body, zlen in *; rewrite length_bidirectional_layout, length_app, length_be_bytes; lia|].
  assert (per_peer (pf_outstanding f1) (p_node_name p) !! corr = Some (PendingRpc fqn cb)) as Hpend.
  { rewrite Hout, per_peer_insert, decide_True by done. apply lookup_insert_eq. }
  eexists _, f1, g1, g2, _, cf', cg', request, response.
  split; [exact Hcall|]. split; [done|]. split; [done|]. split; [by rewrite Hch1, lookup_insert_eq|].
  split; [done|]. split; [done|]. split.
  { unfold deliver_request. rewrite Hdreq. cbv zeta. rewrite bind_gets. cbn [bd_header bh_topic_hash h]. rewrite Hh.
    rewrite bind_modify, bind_emit, bind_gets. cbn [pf_set_active pf_providers]. by rewrite Hp, bind_lift. }
  split.
  { unfold reply. rewrite bind_gets. change (pf_active g1) with (Some (ActiveRequest (p_channel q) h session_id)). by rewrite bind_lift. }
  split; [done|]. split; [by rewrite Hch2, lookup_insert_eq|].
  split; [done|]. split; [done|]. destruct (pending_call _ _ _ _ Hpend) as (entries & E1 & E2). split.
  { unfold deliver_response. rewrite Hdresp. cbv zeta. rewrite bind_gets, E1. cbn [rr_header bh_correlation_id h]. rewrite E2.
    unfold erase_entry. rewrite bind_modify, !bind_emit. reflexivity. }
  cbn [pf_set_outstanding pf_outstanding]. pose proof (waiting_erase _ _ _ _ Hpend) as He. cbn [pr_on_response] in He.
  apply (Permutation_cons_inv (a := cb)). rewrite <- He, Hout, waiting_insert, callbacks_insert.
  - cbn [pr_on_response app]. f_equiv. by rewrite <- Hm, <- waiting_split.
  - apply eq_None_not_Some. intros H. apply (po_fresh f Hf) in H. unfold corr in *. lia.
Qed.

End Calls.

(** ** Witnesses *)

Definition sample_server : peer := Peer 1 [Byte.x6e].
Definition sample_caller : procedure_forwarder peer_stream := procedure_forwarder_new 1000000000 4 sample_channels.
Definition sample_callee : procedure_forwarder peer_stream :=
  pf_set_providers sample_caller {[sample_topic := 3]} {[fqn_topic_hash sample_topic := sample_topic]}.

Lemma sample_channels_ready ch c : sample_channels !! ch = Some c -> ready c.
Proof. unfold sample_channels. intros H. apply lookup_singleton_Some in H as [_ <-]. apply plaintext_open_ready. lia. Qed.

Lemma sample_caller_ok : procedure_ok sample_caller.
Proof.
  split; [exact sample_channels_ready|apply registry_ok_new|done| |].
  - intros node corr. unfold per_peer. cbn. rewrite lookup_empty. cbn. rewrite lookup_empty. by intros [].
  - intros h fqn. cbn. by rewrite lookup_empty.
Qed.

Lemma sample_callee_ok : procedure_ok sample_callee.
Proof.
  destruct sample_caller_ok as [H1 H2 H3 H4 _]. split; [exact H1|exact H2|exact H3|exact H4|]. intros h fqn Hh.
  cbn in Hh. apply lookup_singleton_Some in Hh as [<- <-]. split; [done|]. exists 3. apply lookup_singleton_eq.
Qed.

Definition sample_call : rpc_op := OpCall 5 sample_server sample_topic [Byte.x07] 9 None 0.
Definition sample_expiry : rpc_op := OpDeadline [Byte.x6e] 1 false.

Lemma sample_call_allowed : op_ok sample_caller sample_call.
Proof. split; [by eexists|]. split; vm_compute; congruence. Qed.

(** The callbacks a call and its expiry call. *)
Definition called_after_expiry : list Z :=
  match perform (host := little) sample_call sample_caller with
  | Some (_, e1, f1) => match perform (host := little) sample_expiry f1 with Some (_, e2, _) => resolved (e1 ++ e2) | None => [] end
  | None => []
  end.

Lemma calls_resolve_exactly_once_witness :
  exists evs (f : procedure_forwarder peer_stream), [9] ≡ₚ resolved evs ++ waiting (pf_outstanding f) /\ resolved evs = [9].
Proof.
  assert (called_after_expiry = [9]) as Hr by (vm_compute; reflexivity).
  destruct (perform_effect (host := little) sample_caller sample_call sample_caller_ok sample_call_allowed) as (e1 & f1 & E1 & Hf1).
  destruct (perform_effect (host := little) f1 sample_expiry (ef_ok _ _ _ _ Hf1) I) as (e2 & f2 & E2 & _).
  unfold called_after_expiry in Hr. rewrite E1, E2 in Hr.
  destruct (calls_resolve_exactly_once (host := little) sample_caller f2 (e1 ++ e2) [9]) as (H & _).
  - exact sample_caller_ok.
  - reflexivity.
  - apply (trace_step sample_caller e1 [9] f1 sample_expiry); [|exact I|exact E2].
    apply (trace_step sample_caller [] [] sample_caller sample_call); [constructor|exact sample_call_allowed|exact E1].
  - exists (e1 ++ e2), f2. split; [exact H|exact Hr].
Defined.

Lemma rpc_call_round_trip_witness :
  exists request g1, deliver_request (host := little) 6 sample_server request 0 sample_callee
    = Some (tt, [RpcServe sample_topic 1; Handle 3 [Byte.x07] ], g1).
Proof.
  destruct (rpc_call_round_trip (host := little) sample_caller sample_callee sample_server sample_server
              (PeerStream scheme_tcp (open_channel plaintext_bootstrap 4096)) (PeerStream scheme_tcp (open_channel plaintext_bootstrap 4096))
              sample_topic [Byte.x07] [Byte.x08] 9 3 5 6 7 0 rpc_success None)
    as (evs & f1 & g1 & g2 & f2 & cf & cg & request & response & _ & _ & _ & _ & _ & _ & Hd & _);
    [exact sample_caller_ok|exact sample_callee_ok|reflexivity|reflexivity|vm_compute; reflexivity|vm_compute; reflexivity
    |vm_compute; reflexivity|vm_compute; reflexivity|split; vm_compute; congruence..|vm_compute; congruence|vm_compute; congruence
    |split; vm_compute; congruence|vm_compute; reflexivity|].
  exists request, g1. exact Hd.
Defined.
