(* ===== verification/Session.v ===== *)
(** * The peer session

    Models [frame_router.h], [peer_session.h] and [detail/peer_session_consumers.h],
    [detail/peer_session_deliver.h], [detail/peer_session_complete.h],
    [detail/peer_session_handshake.h] of [lib/plexus-core/include/plexus/io/].

    A session belongs to a peer and works on what the node shares between its sessions: the
    message forwarder, the procedure forwarder and the channels, which both forwarders and
    the session reach; the store of channels is the node's and is lent to a forwarder while
    one of its operations runs.  Lifecycle and security observers, timers, the close of the
    channel and the forwarders' callbacks are events.  The two scratch buffers of the source
    are overwritten whole by each encoder and carry nothing from one call to the next, so
    what they hold is passed as an argument.  [now] is the clock of an operation. *)

From S2P Require Import Prelude EventMonad ByteOrder Varint Cursor Frame Control Hash Fragmentation Security Handshake SendQueue Negotiator Egress Qos History Registry Forwarder Procedure.

(** ** Data *)

Inductive lifecycle_edge : Type := edge_connected | edge_disconnected | edge_reconnected | edge_dead | edge_ready | edge_rejected.
Inductive peer_kind : Type := kind_dialed | kind_accepted.
Inductive security_cause : Type := cause_none | tag_verify_failed | unknown_key_epoch | malformed_frame.
Inductive io_error : Type :=
| connection_refused | broken_pipe | connection_reset | timed_out | address_in_use | operation_aborted
| message_too_large | would_block | unknown_error.

#[global] Instance io_error_eq_dec : EqDecision io_error.
Proof. solve_decision. Defined.
#[global] Instance lifecycle_edge_eq_dec : EqDecision lifecycle_edge.
Proof. solve_decision. Defined.

(** Which of the receive callbacks takes a message. *)
Inductive receive_seam : Type := seam_with_info | seam_message | seam_route | seam_none.

Inductive session_event : Type :=
| Received (seam : receive_seam) (fqn data : bytes) (info : option message_info)
| Msg (ev : forwarder_event)
| Rpc (ev : procedure_event)
| Lifecycle (edge : lifecycle_edge) (kind : peer_kind) (reason : handshake_outcome)
| SecurityEvent (kind : security_kind) (cause : security_cause)
| StampSeen (peer_id : node_id)
| SubscribeRefused (topic_hash : Z) (status : subscribe_status)
| SubscribeDegraded (topic_hash flags : Z)
| InstallSecurity (negotiation : security_negotiation)
| ArmHandshakeTimer (ms : Z)
| CancelHandshakeTimer
| CloseChannel (ch : Z)
| TransportDrop
| ObjectRouted (fqn : bytes) (carrier : object_carrier)
| WarnFrameDecode | WarnUnknownType | WarnNoConsumer | WarnProtocolClose | WarnRetryNoDialer | WarnNoOutstanding
| WarnObjectUnknown.

(** [peer_context]: outlives the sessions of the peer. *)
Record peer_context : Type := PeerContext {
  cx_peer_id : node_id;
  cx_node_name : bytes;
  cx_epochs : Z;
  cx_has_ever_connected : bool;
  cx_same_host : bool;
}.

Record session : Type := Session {
  m_torn_down : bool;
  m_fsm : Fsm.t;
  m_channel : Z;
  m_from_intra_process : bool;
  m_session_id : Z;
  m_forwarders_installed : bool;
  m_is_inbound_bootstrap : bool;
  m_ctx : peer_context;
  m_fsm_cfg : handshake_fsm_config;
  m_ready_latched_this_cycle : bool;
  m_peer_session_id : Z;
  m_closed_for_protocol_error : bool;
  m_negotiator : attach_negotiator;
  m_outstanding_subscribes : Z;
  m_handshake_timeout : Z;
  m_with_info : bool;      (** [m_on_message_with_info_cb] is set *)
  m_on_message : bool;
  m_on_route : bool;
  m_on_object_route : bool;
}.

(** What the sessions of a node share. *)
Record node (C : Type) : Type := Node {
  n_messages : message_forwarder C;
  n_procedures : procedure_forwarder C;
  n_channels : gmap Z C;
}.
Arguments Node {C}.
Arguments n_messages {C}.
Arguments n_procedures {C}.
Arguments n_channels {C}.

Definition msg_peer (s : session) : peer := Peer (m_channel s) (cx_node_name (m_ctx s)).
Definition rpc_peer (s : session) : peer := Peer (m_channel s) (cx_node_name (m_ctx s)).

(** ** Field updates *)

Definition set_flags (s : session) (torn closed : bool) : session :=
  Session torn (m_fsm s) (m_channel s) (m_from_intra_process s) (m_session_id s) (m_forwarders_installed s)
    (m_is_inbound_bootstrap s) (m_ctx s) (m_fsm_cfg s) (m_ready_latched_this_cycle s) (m_peer_session_id s) closed
    (m_negotiator s) (m_outstanding_subscribes s) (m_handshake_timeout s) (m_with_info s) (m_on_message s) (m_on_route s)
    (m_on_object_route s).
Definition set_fsm (s : session) (m : Fsm.t) : session :=
  Session (m_torn_down s) m (m_channel s) (m_from_intra_process s) (m_session_id s) (m_forwarders_installed s)
    (m_is_inbound_bootstrap s) (m_ctx s) (m_fsm_cfg s) (m_ready_latched_this_cycle s) (m_peer_session_id s)
    (m_closed_for_protocol_error s) (m_negotiator s) (m_outstanding_subscribes s) (m_handshake_timeout s) (m_with_info s)
    (m_on_message s) (m_on_route s) (m_on_object_route s).
Definition set_negotiator (s : session) (n : attach_negotiator) : session :=
  Session (m_torn_down s) (m_fsm s) (m_channel s) (m_from_intra_process s) (m_session_id s) (m_forwarders_installed s)
    (m_is_inbound_bootstrap s) (m_ctx s) (m_fsm_cfg s) (m_ready_latched_this_cycle s) (m_peer_session_id s)
    (m_closed_for_protocol_error s) n (m_outstanding_subscribes s) (m_handshake_timeout s) (m_with_info s)
    (m_on_message s) (m_on_route s) (m_on_object_route s).
Definition set_ctx (s : session) (c : peer_context) : session :=
  Session (m_torn_down s) (m_fsm s) (m_channel s) (m_from_intra_process s) (m_session_id s) (m_forwarders_installed s)
    (m_is_inbound_bootstrap s) c (m_fsm_cfg s) (m_ready_latched_this_cycle s) (m_peer_session_id s)
    (m_closed_for_protocol_error s) (m_negotiator s) (m_outstanding_subscribes s) (m_handshake_timeout s) (m_with_info s)
    (m_on_message s) (m_on_route s) (m_on_object_route s).
Definition set_cycle (s : session) (session_id : Z) (installed : bool) (ready : bool) (peer_session_id outstanding : Z) : session :=
  Session (m_torn_down s) (m_fsm s) (m_channel s) (m_from_intra_process s) session_id installed
    (m_is_inbound_bootstrap s) (m_ctx s) (m_fsm_cfg s) ready peer_session_id
    (m_closed_for_protocol_error s) (m_negotiator s) outstanding (m_handshake_timeout s) (m_with_info s)
    (m_on_message s) (m_on_route s) (m_on_object_route s).

Definition set_session_id (s : session) (v : Z) : session :=
  set_cycle s v (m_forwarders_installed s) (m_ready_latched_this_cycle s) (m_peer_session_id s) (m_outstanding_subscribes s).
Definition set_installed (s : session) (v : bool) : session :=
  set_cycle s (m_session_id s) v (m_ready_latched_this_cycle s) (m_peer_session_id s) (m_outstanding_subscribes s).
Definition set_ready (s : session) (v : bool) : session :=
  set_cycle s (m_session_id s) (m_forwarders_installed s) v (m_peer_session_id s) (m_outstanding_subscribes s).
Definition set_peer_session_id (s : session) (v : Z) : session :=
  set_cycle s (m_session_id s) (m_forwarders_installed s) (m_ready_latched_this_cycle s) v (m_outstanding_subscribes s).
Definition set_outstanding (s : session) (v : Z) : session :=
  set_cycle s (m_session_id s) (m_forwarders_installed s) (m_ready_latched_this_cycle s) (m_peer_session_id s) v.

Definition session_new (cfg : handshake_fsm_config) (ctx : peer_context) (channel : Z) (intra_process inbound : bool)
    (timeout : Z) (negotiator : attach_negotiator) (with_info on_message on_route on_object : bool) : session :=
  Session false (Fsm.new cfg) channel intra_process 0 false inbound ctx cfg false 0 false negotiator 0 timeout
    with_info on_message on_route on_object.

(** ** Lending the channels *)

Section Lending.
Context {C : Type}.

Definition lend_messages (n : node C) : message_forwarder C :=
  let f := n_messages n in
  MessageForwarder (f_global_default f) (f_endpoint f) (f_egress f) (f_retained f) (f_remote_topics f) (n_channels n) (f_slots f).

Definition return_messages (f : message_forwarder C) (n : node C) : node C := Node f (n_procedures n) (f_channels f).

Definition lend_procedures (n : node C) : procedure_forwarder C :=
  let f := n_procedures n in
  ProcedureForwarder (pf_endpoint f) (pf_max_outstanding f) (pf_active f) (pf_next_correlation_id f) (pf_default_deadline f)
    (pf_providers f) (pf_hash_to_fqn f) (pf_outstanding f) (pf_req_scratch f) (pf_resp_scratch f) (pf_frame_scratch f) (n_channels n).

Definition return_procedures (f : procedure_forwarder C) (n : node C) : node C := Node (n_messages n) f (pf_channels f).

End Lending.

Section Session.
Context {host : Host} {C : Type} `{!PeerChannel C}.

Abbreviation state := (session * node C)%type.
Abbreviation sess := (prog state session_event).

Definition this : sess session := gets fst.
Definition update (f : session -> session) : sess unit := modify (fun st => (f st.1, st.2)).

Definition messages {A} (m : prog (message_forwarder C) forwarder_event A) : sess A :=
  zoom (fun st => lend_messages st.2) (fun f st => (st.1, return_messages f st.2)) Msg m.
Definition procedures {A} (m : prog (procedure_forwarder C) procedure_event A) : sess A :=
  zoom (fun st => lend_procedures st.2) (fun f st => (st.1, return_procedures f st.2)) Rpc m.

(** ** [peer_session_handshake.h] *)

Definition status_for (outcome : handshake_outcome) : handshake_status :=
  match outcome with
  | out_reject_version => hs_version_incompatible
  | out_reject_identity => hs_identity_conflict
  | out_reject_unauthorized => hs_unauthorized
  | _ => hs_accepted
  end.

Definition self_request (s : session) : handshake_request :=
  let offer := cipher_offer (m_negotiator s) in
  let cfg := m_fsm_cfg s in
  HandshakeRequest (self_id cfg) (version_major cfg) (version_minor cfg) (compatible_version_major cfg)
    (compatible_version_minor cfg) k_protocol_version (local_fingerprint cfg) (an_key_id (m_negotiator s))
    (an_own_nonce (m_negotiator s)) offer offer (zero_bytes k_handshake_proof_len).

Definition self_response (s : session) (outcome : handshake_outcome) : handshake_response :=
  let r := self_request s in
  HandshakeResponse
    (HandshakeRequest (hs_id r) (hs_version_major r) (hs_version_minor r) (hs_compatible_version_major r)
       (hs_compatible_version_minor r) (hs_protocol_version r) (hs_fingerprint r) (hs_key_id r) (hs_own_nonce r)
       (hs_cipher_offer r) (hs_chosen_cipher r) (response_proof (m_negotiator s)))
    (status_for outcome).

Definition session_send (data : bytes) : sess unit :=
  s ← this;
  o ← gets (fun st => n_channels st.2 !! m_channel s);
  c ← lift o;
  c ← lift (send c data);
  modify (fun st => (st.1, Node (n_messages st.2) (n_procedures st.2) (<[m_channel s := c]> (n_channels st.2)))).

Definition session_send_control (now : Z) (type : msg_type) (payload : bytes) : sess unit :=
  frame ← lift (encode_frame_into [] (FrameHeader type 0 0 now (zlen payload)) payload);
  session_send frame.

Definition send_handshake_request (now : Z) : sess unit :=
  s ← this;
  body ← lift (encode_handshake_request_into [] (self_request s));
  session_send_control now msg_handshake_req body.

Definition send_handshake_response (now : Z) (outcome : handshake_outcome) : sess unit :=
  s ← this;
  body ← lift (encode_handshake_response_into [] (self_response s outcome));
  session_send_control now msg_handshake_resp body.

(** ** Lifecycle *)

Definition session_kind (s : session) : peer_kind := if m_is_inbound_bootstrap s then kind_accepted else kind_dialed.

Definition fire_lifecycle (edge : lifecycle_edge) (reason : handshake_outcome) : sess unit :=
  s ← this; emit (Lifecycle edge (session_kind s) reason).

Definition fire_security (kind : security_kind) (cause : security_cause) : sess unit := emit (SecurityEvent kind cause).

Definition tear_down : sess unit :=
  s ← this;
  let was_complete := m_forwarders_installed s in
  update (fun s => set_flags s true (m_closed_for_protocol_error s)) ;;
  emit CancelHandshakeTimer ;;
  messages (detach_all (msg_peer s)) ;;
  procedures (pf_detach_all (rpc_peer s)) ;;
  update (fun s => set_cycle s (m_session_id s) false false 0 0) ;;
  update (fun s => set_fsm s (Fsm.on_torn_down (m_fsm s)).2) ;;
  emit (CloseChannel (m_channel s)) ;;
  if was_complete then fire_lifecycle edge_disconnected out_none else mret tt.

Definition close_for_protocol_error : sess unit :=
  s ← this;
  if m_torn_down s then mret tt else
  update (fun s => set_flags s (m_torn_down s) true) ;;
  emit WarnProtocolClose ;;
  tear_down.

Definition on_channel_protocol_close : sess unit :=
  s ← this;
  if m_torn_down s then mret tt else
  (if an_engaged (m_negotiator s) && m_forwarders_installed s
   then fire_security stream_tamper_teardown tag_verify_failed else mret tt) ;;
  close_for_protocol_error.

(** The handler given to [m_channel.on_error]. *)
Definition on_error (e : io_error) : sess unit :=
  if decide (e = would_block) then mret tt else
  s ← this;
  if negb (m_torn_down s) && negb (m_closed_for_protocol_error s) then emit TransportDrop else mret tt.

Definition maybe_fire_ready : sess unit :=
  s ← this;
  if (m_outstanding_subscribes s =? 0) && negb (m_ready_latched_this_cycle s) then
    update (fun s => set_ready s true) ;; fire_lifecycle edge_ready out_none
  else mret tt.

(** ** Subscribing *)

Definition subscribe (now : Z) (fqn : bytes) (qos : subscriber_qos) (type_id : option Z) : sess unit :=
  s ← this;
  first ← messages (attach now (msg_peer s) fqn qos type_id);
  if first : bool then update (fun s => set_outstanding s (wrap 16 (m_outstanding_subscribes s + 1))) else mret tt.

Definition unsubscribe (now : Z) (fqn : bytes) : sess unit :=
  s ← this; messages (detach now (msg_peer s) fqn) ;; mret tt.

Definition emit_heartbeat (now : Z) : sess unit :=
  body ← lift (encode_heartbeat_into [] heartbeat_default);
  session_send_control now msg_heartbeat body.

Definition resubscribe_all (now : Z) : sess unit :=
  s ← this;
  demands ← gets (fun st => remembered_topics (n_messages st.2) (cx_node_name (m_ctx s)));
  each (fun d => subscribe now (rd_fqn d) (rd_qos d) (rd_type_id d)) demands.

(** ** [peer_session_complete.h] *)

Definition fire_connect_edge : sess unit :=
  s ← this;
  let first := negb (cx_has_ever_connected (m_ctx s)) in
  update (fun s => let x := m_ctx s in
    set_ctx s (PeerContext (cx_peer_id x) (cx_node_name x) (cx_epochs x) true (cx_same_host x))) ;;
  fire_lifecycle (if first then edge_connected else edge_reconnected) out_none.

(** [scheme == "tls" || scheme == "dtls"]. *)
Definition scheme_is_self_securing (scheme : bytes) : bool :=
  bool_decide (scheme = scheme_tls) || bool_decide (scheme = map byte.of_Z [100; 116; 108; 115]).

Definition channel_is_self_securing : sess bool :=
  s ← this;
  o ← gets (fun st => n_channels st.2 !! m_channel s);
  c ← lift o;
  mret (scheme_is_self_securing (remote_scheme c)).

Definition refuse_posture : sess unit :=
  update (fun s => set_negotiator s (clear_identity (m_negotiator s))) ;;
  fire_lifecycle edge_rejected out_reject_unauthorized ;;
  fire_security posture_mismatch cause_none ;;
  close_for_protocol_error.

Definition on_abort (reason : handshake_outcome) : sess unit :=
  fire_lifecycle edge_rejected reason ;;
  s ← this;
  (if decide (reason = out_reject_unauthorized)
   then fire_security (classify_unauthorized (m_negotiator s)) cause_none else mret tt) ;;
  close_for_protocol_error.

Definition record_same_host : sess unit :=
  update (fun s => let x := m_ctx s in
    set_ctx s (PeerContext (cx_peer_id x) (cx_node_name x) (cx_epochs x) (cx_has_ever_connected x)
                 (is_same_host (Fsm.m_peer_fingerprint (m_fsm s)) (local_fingerprint (Fsm.m_cfg (m_fsm s)))))).

(** [s.m_session_id = s.m_ctx.epochs.next()]. *)
Definition mint_epoch : sess unit :=
  update (fun s =>
    let '(epoch, counter) := Epoch.next (cx_epochs (m_ctx s)) in
    let x := m_ctx s in
    set_session_id (set_ctx s (PeerContext (cx_peer_id x) (cx_node_name x) counter (cx_has_ever_connected x) (cx_same_host x))) epoch).

Definition on_complete (now : Z) : sess unit :=
  s ← this;
  if m_forwarders_installed s then mret tt else
  (if m_is_inbound_bootstrap s then send_handshake_response now out_accept_inbound else mret tt) ;;
  emit CancelHandshakeTimer ;;
  mint_epoch ;;
  record_same_host ;;
  secured ← channel_is_self_securing;
  s ← this;
  let '(installed, negotiation, neg) := install_on_accept (m_negotiator s) secured in
  update (fun s => set_negotiator s neg) ;;
  (match negotiation with Some neg => emit (InstallSecurity neg) | None => mret tt end) ;;
  if negb installed then refuse_posture else
  update (fun s => set_installed s true) ;;
  fire_connect_edge ;;
  resubscribe_all now ;;
  maybe_fire_ready.

Definition execute (now : Z) (step : fsm_step_result) : sess unit :=
  match sr_action step with
  | act_send_request => send_handshake_request now
  | act_send_response => send_handshake_response now (sr_outcome step)
  | act_complete => on_complete now
  | act_retry => emit WarnRetryNoDialer
  | act_abort => on_abort (sr_outcome step)
  | act_none => mret tt
  end.

(** An input of the handshake machine, and what it asks for. *)
Definition drive (now : Z) (input : Fsm.t -> fsm_step_result * Fsm.t) : sess fsm_step_result :=
  s ← this;
  let '(step, m) := input (m_fsm s) in
  update (fun s => set_fsm s m) ;;
  execute now step ;;
  mret step.

Definition is_refusal (status : subscribe_status) : bool :=
  (status =? sub_type_mismatch) || (status =? sub_incompatible_qos) || (status =? sub_source_identity_incompatible).

Definition surface_subscribe_outcome (resp : subscribe_response) : sess unit :=
  if is_refusal (sp_status resp) then emit (SubscribeRefused (sp_topic_hash resp) (sp_status resp))
  else if sp_status resp =? sub_subscribed_degraded then emit (SubscribeDegraded (sp_topic_hash resp) (sp_degraded_flags resp))
  else mret tt.

(** A decoded payload, nothing for one that is refused. *)
Definition decoded {A} (p : parsed A) (k : A -> sess unit) : sess unit :=
  match p with
  | undefined => lift None
  | rejected => mret tt
  | accepted x => k x
  end.

Definition on_subscribe_response_received (inner : bytes) : sess unit :=
  decoded (decode_subscribe_response inner) (fun resp =>
    s ← this;
    if m_outstanding_subscribes s =? 0 then emit WarnNoOutstanding else
    surface_subscribe_outcome resp ;;
    update (fun s => set_outstanding s (m_outstanding_subscribes s - 1)) ;;
    maybe_fire_ready).

(** ** [peer_session_deliver.h] *)

Definition assemble_message_info (s : session) (now : Z) (hdr : frame_header) : message_info :=
  MessageInfo None 0 (fh_timestamp_ns hdr) now (m_from_intra_process s).

Definition seam_of (s : session) : receive_seam :=
  if m_with_info s then seam_with_info else if m_on_message s then seam_message
  else if m_on_route s then seam_route else seam_none.

Definition via_seam (seam : receive_seam) (ev : forwarder_event) : session_event :=
  match ev with OnMessage fqn data info => Received seam fqn data info | _ => Msg ev end.

Definition deliver_session_data (now : Z) (hdr : frame_header) (inner : bytes) : sess unit :=
  s ← this;
  let has_source_identity := negb (Z.land (fh_flags hdr) k_flag_source_identity =? 0) in
  let info := match seam_of s with
              | seam_with_info | seam_route => Some (assemble_message_info s now hdr)
              | seam_message | seam_none => None
              end in
  zoom (fun st => lend_messages st.2) (fun f st => (st.1, return_messages f st.2)) (via_seam (seam_of s))
    (deliver (cx_peer_id (m_ctx s)) inner info has_source_identity).

Definition deliver_session_object (c : object_carrier) : sess unit :=
  s ← this;
  o ← gets (fun st => fqn_for (registry_of (n_messages st.2)) (oc_topic_hash c));
  '(fqn, r) ← lift o;
  messages (on_registry (fun _ => r)) ;;
  (match fqn with
   | [] => emit WarnObjectUnknown
   | _ => if m_on_object_route s then emit (ObjectRouted fqn c) else mret tt
   end) ;;
  messages (release c).

(** ** [peer_session_consumers.h] *)

Definition consume_handshake_req (now : Z) (inner : bytes) : sess unit :=
  match decode_handshake_request inner with
  | None => mret tt
  | Some req =>
      s ← this;
      n ← lift (assemble (m_negotiator s) req responder (hs_id req) (self_id (m_fsm_cfg s))
                  (match attach_policy (Fsm.m_cfg (m_fsm s)) with Some _ => true | None => false end));
      let n := latch_peer_proof n req in
      update (fun s => set_negotiator s n) ;;
      if posture_mismatched n req then refuse_posture
      else drive now (fun m => Fsm.on_request m req (m_is_inbound_bootstrap s) (facts n)) ;; mret tt
  end.

Definition consume_handshake_resp (now : Z) (inner : bytes) : sess unit :=
  match decode_handshake_response inner with
  | None => mret tt
  | Some resp =>
      s ← this;
      n ← lift (assemble (m_negotiator s) (hs_prefix resp) initiator (hs_id (hs_prefix resp)) (self_id (m_fsm_cfg s))
                  (match attach_policy (Fsm.m_cfg (m_fsm s)) with Some _ => true | None => false end));
      let n := latch_peer_proof n (hs_prefix resp) in
      update (fun s => set_negotiator s n) ;;
      if posture_mismatched n (hs_prefix resp) then refuse_posture
      else drive now (fun m => Fsm.on_response m resp (facts n)) ;; mret tt
  end.

Definition subscriber_type_of (req : subscribe_request) : option Z :=
  if negb (sr_type_hash req =? 0) then Some (sr_type_hash req) else None.

Definition subscriber_qos_of (req : subscribe_request) : subscriber_qos :=
  if sr_has_qos req then from_wire_region (sr_qos req) else subscriber_qos_default.

Definition consume_subscribe (now : Z) (inner : bytes) : sess unit :=
  decoded (decode_subscribe_request inner) (fun req =>
    s ← this;
    messages (attach_for_fanout now (msg_peer s) (sr_fqn req) (subscriber_type_of req) (subscriber_qos_of req)) ;; mret tt).

Definition consume_fetch_latched (inner : bytes) : sess unit :=
  decoded (decode_fetch_latched_request inner) (fun req =>
    s ← this; messages (fetch_latched (msg_peer s) (fl_topic_hash req) (fl_max_samples req))).

Definition consume_rpc_request (now : Z) (inner : bytes) : sess unit :=
  s ← this; procedures (deliver_request now (rpc_peer s) inner (m_session_id s)).

Definition consume_rpc_response (inner : bytes) : sess unit :=
  s ← this; procedures (deliver_response (rpc_peer s) inner).

Definition consume_heartbeat (inner : bytes) : sess unit :=
  decoded (decode_heartbeat inner) (fun _ => s ← this; emit (StampSeen (cx_peer_id (m_ctx s)))).

(** ** [class frame_router], with the consumers [register_session_consumers] installs: none for
    an unsubscribe *)

Definition dispatch (now : Z) (hdr : frame_header) (inner : bytes) : sess unit :=
  let type := fh_type hdr in
  if type =? msg_unidirectional then deliver_session_data now hdr inner
  else if type =? msg_subscribe then consume_subscribe now inner
  else if type =? msg_fetch_latched then consume_fetch_latched inner
  else if type =? msg_unsubscribe then emit WarnNoConsumer
  else if type =? msg_subscribe_response then on_subscribe_response_received inner
  else if type =? msg_rpc_request then consume_rpc_request now inner
  else if type =? msg_rpc_response then consume_rpc_response inner
  else if type =? msg_handshake_req then consume_handshake_req now inner
  else if type =? msg_handshake_resp then consume_handshake_resp now inner
  else if type =? msg_heartbeat then consume_heartbeat inner
  else emit WarnUnknownType.

Definition route (now : Z) (frame : bytes) : sess unit :=
  match decode_header frame with
  | None => emit WarnFrameDecode
  | Some hdr => dispatch now hdr (drop header_size frame)
  end.

(** ** [class peer_session] *)

Definition on_receive (now : Z) (frame : bytes) : sess unit :=
  s ← this;
  if m_torn_down s then mret tt else
  match decode_header frame with
  | None => close_for_protocol_error
  | Some hdr =>
      if negb (fh_session_id hdr =? 0) && negb (m_peer_session_id s =? 0) && negb (fh_session_id hdr =? m_peer_session_id s)
      then mret tt
      else
        (if negb (fh_session_id hdr =? 0) && (m_peer_session_id s =? 0)
         then update (fun s => set_peer_session_id s (fh_session_id hdr)) else mret tt) ;;
        route now frame
  end.

Definition arm_handshake_timer : sess unit :=
  s ← this; emit (ArmHandshakeTimer (nanoseconds_to_ms (m_handshake_timeout s))).

(** The completion of the handshake timer; [ec] for one that was cancelled. *)
Definition on_handshake_timer (now : Z) (ec : bool) : sess unit :=
  if ec then mret tt else
  step ← drive now Fsm.on_timeout;
  if decide (sr_action step = act_send_request) then arm_handshake_timer else mret tt.

Definition start (now : Z) (entropy : option bytes) : sess unit :=
  update (fun s => set_flags s false false) ;;
  update (fun s => set_negotiator s (prime (m_negotiator s) entropy)) ;;
  arm_handshake_timer ;;
  s ← this;
  if negb (m_is_inbound_bootstrap s) then
    drive now Fsm.on_dial_started ;;
    drive now Fsm.on_outbound_connected ;;
    mret tt
  else mret tt.

End Session.
