(* ===== verification/SessionSafety.v ===== *)
(** * Sessions never fault and report an orderly life

    For every sequence of operations of a peer session, whatever bytes the peer sends:
    every operation returns, and the lifecycle edges the observers see are those of a
    session that connects, becomes ready and disconnects in this order.  The channels of the
    other sessions of the node, the bystanders, stay as they are. *)

From S2P Require Import Prelude EventMonad ByteOrder Varint Cursor Frame Control Hash Fragmentation Security Handshake SendQueue Negotiator Egress Qos History Registry Forwarder Subscription ForwarderSafety Procedure Session.

Class Bystanders : Type := bystanding : Z -> Prop.

Section Safety.
Context {cd : Condemned} {bs : Bystanders}.
Context {host : Host} {C : Type} `{!PeerChannel C} `{!PeerContract C}.
Implicit Types (s : session) (n : node C).
Abbreviation state := (session * node C)%type.
Abbreviation sess := (prog state session_event).

(** ** The shared part *)

Record node_ok n (ch : Z) : Prop := NodeOk {
  no_messages : forwarder_ok (lend_messages n);
  no_procedures : procedure_ok (lend_procedures n);
  no_channel : live (lend_messages n) ch;
  no_bystanders : forall a, bystanding a -> is_Some (n_channels n !! a);
}.

Lemma lend_return_messages f n : lend_messages (return_messages f n) = f.
Proof. by destruct f. Qed.

Lemma lend_return_procedures f n : lend_procedures (return_procedures f n) = f.
Proof. by destruct f. Qed.

(** The procedures with other channels. *)
Lemma procedure_ok_channels n m :
  procedure_ok (lend_procedures n) -> (forall ch c, m !! ch = Some c -> ready c) ->
  forall f, procedure_ok (lend_procedures (Node f (n_procedures n) m)).
Proof. intros Hok Hr f. apply (procedure_ok_transfer (lend_procedures n)); try done. apply Hok. Qed.

(** The messages with other channels. *)
Lemma forwarder_ok_channels n m :
  forwarder_ok (lend_messages n) -> (forall ch c, m !! ch = Some c -> ready c) -> evolves (n_channels n) m ->
  forall f, forwarder_ok (lend_messages (Node (n_messages n) f m)).
Proof.
  intros [H1 H2 H3 H4 H5 H6 H7] Hr [Hd Hk] f. split; try done.
  - intros a b c d Ha Hb E. cbn in Ha, Hb.
    destruct (proj2 (Hd a) ltac:(by eexists)) as [c0 Hc0], (proj2 (Hd b) ltac:(by eexists)) as [d0 Hd0].
    apply (H2 a b c0 d0 Hc0 Hd0). rewrite <- (Hk a c0 c Hc0 Ha), <- (Hk b d0 d Hd0 Hb). done.
  - intros h e x He Hx. destruct (H5 h e x He Hx) as [Hx1 Hx2]. split; [by apply Hd|done].
Qed.

Definition edges (evs : list session_event) : list lifecycle_edge :=
  omap (fun ev => match ev with Lifecycle edge _ _ => Some edge | _ => None end) evs.

Lemma edges_app a b : edges (a ++ b) = edges a ++ edges b.
Proof. apply omap_app. Qed.

Lemma edges_map {A} (inj : A -> session_event) l : (forall x, edges [inj x] = []) -> edges (map inj l) = [].
Proof.
  intros H. induction l as [|x l IH]; [done|]. cbn [map]. change (inj x :: map inj l) with ([inj x] ++ map inj l).
  by rewrite edges_app, H, IH.
Qed.

(** An operation of a forwarder leaves the session alone and reports no edge. *)
Definition silent (st : state) (evs : list session_event) (st' : state) : Prop :=
  st'.1 = st.1 /\ node_ok st'.2 (m_channel st.1) /\ edges evs = [].

Lemma silent_messages {A} (m : prog (message_forwarder C) forwarder_event A) inj st :
  node_ok st.2 (m_channel st.1) -> (forall x, edges [inj x] = []) -> safe m (lend_messages st.2) ->
  wp (zoom (fun st => lend_messages st.2) (fun f st => (st.1, return_messages f st.2)) inj m)
    (fun _ evs st' => silent st evs st') st.
Proof.
  intros [Hm Hp Hc Hb] Hinj Hs. apply wp_zoom. eapply wp_mono; [exact Hs|]. intros x evs f (Hf & Hl & _).
  split_and!; [done| |by apply edges_map]. split; cbn [snd].
  - by rewrite lend_return_messages.
  - apply (procedure_ok_channels st.2 (f_channels f) Hp). apply Hf.
  - rewrite lend_return_messages. by apply Hl.
  - intros a Ha. apply (Hl (fun _ => False) a). split; [by apply Hb|by intros [] ].
Qed.

Lemma silent_procedures {A} (m : prog (procedure_forwarder C) procedure_event A) st :
  node_ok st.2 (m_channel st.1) ->
  wp m (fun _ _ f => procedure_ok f /\ evolves (n_channels st.2) (pf_channels f)) (lend_procedures st.2) ->
  wp (procedures m) (fun _ evs st' => silent st evs st') st.
Proof.
  intros [Hm Hp Hc Hb] Hs. apply wp_zoom. eapply wp_mono; [exact Hs|]. intros x evs f [Hf He].
  split_and!; [done| |by apply edges_map]. split; cbn [snd].
  - apply (forwarder_ok_channels st.2 (pf_channels f) Hm); [apply Hf|exact He].
  - by rewrite lend_return_procedures.
  - destruct Hc as [Hx1 Hx2]. split; [by apply He|done].
  - intros a Ha. by apply He, Hb.
Qed.

(** ** Frames of the session itself *)

Lemma silent_send data st :
  node_ok st.2 (m_channel st.1) -> frame_ok data -> wp (session_send data) (fun _ evs st' => silent st evs st') st.
Proof.
  intros Hn Hd. pose proof Hn as [Hm Hp [ [c Hc] Hcd] Hb]. cbn in Hc. unfold session_send, this. do 2 apply wp_bind_gets. cbn. rewrite Hc. apply wp_bind_lift.
  destruct (send_keeps c data (fo_ready _ Hm _ c Hc) Hd) as (c' & Hs & Hr & Hk & _). rewrite Hs. apply wp_bind_lift, wp_modify.
  destruct (insert_ready (n_channels st.2) (m_channel st.1) c' (fo_ready _ Hm) Hr) as [Hi1 Hi2].
  split_and!; [done| |done]. split; cbn [snd].
  - apply (forwarder_ok_channels st.2); [done|done|]. by eapply evolves_insert.
  - by apply (procedure_ok_channels st.2).
  - split; [apply Hi2; by exists c|done].
  - intros a Ha. by apply Hi2, Hb.
Qed.

Lemma silent_control now type payload st :
  node_ok st.2 (m_channel st.1) -> zlen payload <= 2 ^ 61 ->
  wp (session_send_control now type payload) (fun _ evs st' => silent st evs st') st.
Proof.
  intros Hn Hl. unfold session_send_control. rewrite encode_frame_into_layout. apply wp_bind_lift.
  apply silent_send; [done|]. by apply control_bytes_ok.
Qed.

(** ** The session's own part *)

(** The parts of the negotiator a session announces itself with. *)
Definition same_self (n n' : attach_negotiator) : Prop :=
  an_seam n' = an_seam n /\ an_key_id n' = an_key_id n /\ an_own_nonce n' = an_own_nonce n /\ an_prover n' = an_prover n.

Record shape_ok s : Prop := ShapeOk {
  sh_request : handshake_request_ok (self_request s);
  sh_proof : forall p k m x, an_prover (m_negotiator s) = Some p -> ap_hmac p k m = Some x -> length x = k_handshake_proof_len;
  sh_idle : m_forwarders_installed s = false -> m_outstanding_subscribes s = 0 /\ m_ready_latched_this_cycle s = false;
}.

(** A change that keeps what the session announces. *)
Lemma shape_transfer s s' :
  shape_ok s -> m_fsm_cfg s' = m_fsm_cfg s -> same_self (m_negotiator s) (m_negotiator s') ->
  (m_forwarders_installed s' = false -> m_outstanding_subscribes s' = 0 /\ m_ready_latched_this_cycle s' = false) -> shape_ok s'.
Proof.
  intros [H1 H2 H3] Hc (E1 & E2 & E3 & E4) Hi. split; [|rewrite E4; exact H2|done].
  unfold self_request, cipher_offer, seam_engaged. by rewrite Hc, E1, E2, E3.
Qed.

Lemma same_self_refl (n : attach_negotiator) : same_self n n.
Proof. done. Qed.

Lemma length_response_proof s : shape_ok s -> length (response_proof (m_negotiator s)) = k_handshake_proof_len.
Proof.
  intros H. unfold response_proof, resolve_response_proof. destruct (an_prover (m_negotiator s)) as [p|] eqn:Ep; [|done].
  unfold prove. destruct (ap_hmac p _ _) as [x|] eqn:Ex; [|done]. by eapply (sh_proof s H).
Qed.

Lemma self_response_ok s outcome : shape_ok s -> handshake_request_ok (hs_prefix (self_response s outcome)).
Proof.
  intros H. pose proof (length_response_proof s H) as Hl. destruct (sh_request s H) as (? & ? & ? & ? & ? & ? & ? & ? & ? & ? & ? & _).
  unfold self_response. cbn [hs_prefix]. by split_and!.
Qed.

Definition ok (st : state) : Prop := node_ok st.2 (m_channel st.1) /\ shape_ok st.1.

Lemma silent_request now st : ok st -> wp (send_handshake_request now) (fun _ evs st' => silent st evs st') st.
Proof.
  intros [Hn Hs]. unfold send_handshake_request, this. apply wp_bind_gets. pose proof (sh_request st.1 Hs) as Hr.
  rewrite encode_handshake_request_layout by done. apply wp_bind_lift, silent_control; [done|].
  unfold zlen. rewrite length_handshake_layout by done. by vm_compute.
Qed.

Lemma silent_reply now outcome st : ok st -> wp (send_handshake_response now outcome) (fun _ evs st' => silent st evs st') st.
Proof.
  intros [Hn Hs]. unfold send_handshake_response, this. apply wp_bind_gets. pose proof (self_response_ok st.1 outcome Hs) as Hr.
  unfold self_response in *. cbn [hs_prefix] in Hr. rewrite encode_handshake_response_layout by done.
  apply wp_bind_lift, silent_control; [done|]. unfold zlen. rewrite length_app, length_be_bytes, length_handshake_layout by done. by vm_compute.
Qed.

(** ** The life observers see *)

Inductive phase : Type := Idle | Up | Ready.

(** Whether the peer ever connected, and where its session is. *)
Definition life s : bool * phase :=
  (cx_has_ever_connected (m_ctx s),
   if m_forwarders_installed s then (if m_ready_latched_this_cycle s then Ready else Up) else Idle).

(** The edges an orderly session reports: [connected] the first time and [reconnected] later,
    [ready] at most once while it is up, [disconnected] for one that was up; a rejection at any
    time changes nothing. *)
Definition next_life (l : bool * phase) (edge : lifecycle_edge) : option (bool * phase) :=
  match edge, l with
  | edge_connected, (false, Idle) => Some (true, Up)
  | edge_reconnected, (true, Idle) => Some (true, Up)
  | edge_ready, (ever, Up) => Some (ever, Ready)
  | edge_disconnected, (ever, Up) | edge_disconnected, (ever, Ready) => Some (ever, Idle)
  | edge_rejected, l => Some l
  | _, _ => None
  end.

Fixpoint lives (l : bool * phase) (es : list lifecycle_edge) : option (bool * phase) :=
  match es with
  | [] => Some l
  | e :: es => l ← next_life l e; lives l es
  end.

Lemma lives_app l es es' : lives l (es ++ es') = l' ← lives l es; lives l' es'.
Proof. revert l. induction es as [|e es IH]; intros l; [done|]. cbn. destruct (next_life l e); [|done]. apply IH. Qed.

(** What a session is built with and keeps. *)
Definition bound s : Z * bool := (m_channel s, m_is_inbound_bootstrap s).

(** What every operation does. *)
Record good (st : state) (evs : list session_event) (st' : state) : Prop := Good {
  gd_ok : ok st';
  gd_bound : bound st'.1 = bound st.1;
  gd_life : lives (life st.1) (edges evs) = Some (life st'.1);
  gd_torn : m_torn_down st.1 = true -> m_torn_down st'.1 = true;
  gd_epoch : m_torn_down st'.1 = true \/ m_peer_session_id st.1 = 0 \/ m_peer_session_id st'.1 = m_peer_session_id st.1;
}.

Definition goes {A} (m : sess A) (st : state) : Prop := wp m (fun _ evs st' => good st evs st') st.

Lemma good_refl st : ok st -> good st [] st.
Proof. split; auto. Qed.

Lemma good_trans st e1 st1 e2 st2 : good st e1 st1 -> good st1 e2 st2 -> good st (e1 ++ e2) st2.
Proof.
  intros [H1 H2 H3 T1 E1] [H4 H5 H6 T2 E2]. split; [done|congruence| |auto|].
  - by rewrite edges_app, lives_app, H3.
  - destruct E1 as [|[|E1]]; [left; auto|auto|]. rewrite E1 in E2. tauto.
Qed.

Lemma silent_good st evs st' : shape_ok st.1 -> silent st evs st' -> good st evs st'.
Proof. intros Hs (E & Hn & He). destruct st' as [s' n']. cbn in *. subst s'. split; [by split|done| |done|by right; right]. by rewrite He. Qed.

Lemma goes_silent {A} (m : sess A) st : ok st -> wp m (fun _ evs st' => silent st evs st') st -> goes m st.
Proof. intros [_ Hs] Hm. eapply wp_mono; [exact Hm|]. intros x evs st' H. by apply silent_good. Qed.

Lemma goes_bind {A B} (m : sess A) (k : A -> sess B) st :
  goes m st -> (forall x st', ok st' -> goes (k x) st') -> goes (m ≫= k) st.
Proof.
  intros Hm Hk. apply wp_bind. eapply wp_mono; [exact Hm|]. intros x e1 st1 H1. eapply wp_mono; [exact (Hk x st1 (gd_ok _ _ _ H1))|].
  intros y e2 st2 H2. exact (good_trans _ _ _ _ _ H1 H2).
Qed.

Lemma goes_ret {A} (x : A) st : ok st -> goes (mret x) st.
Proof. intros H. by apply wp_ret, good_refl. Qed.

Lemma goes_emit ev st : ok st -> edges [ev] = [] -> goes (emit ev) st.
Proof. intros H He. apply wp_emit. split; [done|done| |done|by right; right]. by rewrite He. Qed.

(** ** Tearing down *)

Definition torn s : session :=
  set_fsm (set_cycle (set_flags s true (m_closed_for_protocol_error s)) (m_session_id s) false false 0 0) (Fsm.on_torn_down (m_fsm s)).2.

Lemma detach_all_channels (f : procedure_forwarder C) p evs f' : pf_detach_all p f = Some (tt, evs, f') -> pf_channels f' = pf_channels f.
Proof.
  unfold pf_detach_all. rewrite bind_modify, bind_gets. cbn [pf_set_endpoint pf_outstanding].
  destruct (pf_outstanding f !! p_node_name p); [|by intros [= <- <-] ]. rewrite bind_modify, disconnect_run. by intros [= <- <-].
Qed.

Lemma response_channels (f : procedure_forwarder C) p inner evs f' :
  deliver_response p inner f = Some (tt, evs, f') -> pf_channels f' = pf_channels f.
Proof.
  unfold deliver_response. destruct (decode_rpc_response inner) as [d|]; [|by intros [= <- <-] ]. rewrite bind_gets.
  destruct (pf_outstanding f !! p_node_name p) as [entries|]; [|by intros [= <- <-] ]. cbv zeta.
  destruct (entries !! _); [|by intros [= <- <-] ]. unfold erase_entry. rewrite bind_modify, !bind_emit. by intros [= <- <-].
Qed.

Lemma tear_down_run st :
  node_ok st.2 (m_channel st.1) ->
  wp tear_down (fun _ evs st' => node_ok st'.2 (m_channel st.1) /\ st'.1 = torn st.1 /\
    edges evs = if m_forwarders_installed st.1 then [edge_disconnected] else []) st.
Proof.
  intros Hn. unfold tear_down, this. apply wp_bind_gets. cbv zeta. unfold update. apply wp_bind_modify. apply wp_bind_emit.
  set (st1 := (set_flags st.1 true (m_closed_for_protocol_error st.1), st.2)).
  assert (node_ok st1.2 (m_channel st1.1)) as Hn1 by done.
  apply wp_bind. eapply wp_mono; [apply (silent_messages _ Msg st1 Hn1); [done|]; apply safe_detach_all; [apply Hn|by apply no_channel]|].
  intros _ e2 st2 (E2 & Hn2 & He2). apply wp_bind. eapply wp_mono.
  { apply silent_procedures; [by rewrite E2|].
    destruct (detach_all_effect (lend_procedures st2.2) (rpc_peer st.1) (no_procedures _ _ Hn2)) as (evs & f' & Hrun & Hef).
    cbn [perform] in Hrun. exists tt, evs, f'. split; [exact Hrun|]. split; [apply Hef|]. rewrite (detach_all_channels _ _ _ _ Hrun).
    apply evolves_refl. }
  intros _ e3 st3 (E3 & Hn3 & He3). do 2 apply wp_bind_modify. apply wp_bind_emit.
  assert (st3.1 = st1.1) as E by congruence. cbn [fst snd]. rewrite E.
  destruct (m_forwarders_installed st.1).
  - unfold fire_lifecycle, this. apply wp_bind_gets, wp_emit. cbn [fst snd]. split_and!; [by rewrite E2 in Hn3|done|].
    change (CancelHandshakeTimer :: ?l) with ([CancelHandshakeTimer] ++ l). rewrite !edges_app, He2, He3. done.
  - apply wp_ret. cbn [fst snd]. split_and!; [by rewrite E2 in Hn3|done|].
    change (CancelHandshakeTimer :: ?l) with ([CancelHandshakeTimer] ++ l). rewrite !edges_app, He2, He3. done.
Qed.

Lemma torn_good st evs st' :
  shape_ok st.1 -> node_ok st'.2 (m_channel st.1) -> st'.1 = torn st.1 ->
  edges evs = (if m_forwarders_installed st.1 then [edge_disconnected] else []) -> good st evs st'.
Proof.
  intros Hs Hn E He. split; [split|by rewrite E| |by rewrite E|left; by rewrite E].
  - by rewrite E.
  - rewrite E. by apply (shape_transfer st.1).
  - rewrite He, E. unfold life. cbn. destruct (m_forwarders_installed st.1); [|done]. by destruct (m_ready_latched_this_cycle st.1).
Qed.

Lemma goes_tear_down st : ok st -> goes tear_down st.
Proof. intros [Hn Hs]. eapply wp_mono; [by apply tear_down_run|]. intros x evs st' (H1 & H2 & H3). by apply torn_good. Qed.

(** A change of the session that observers do not see. *)
Definition unseen s s' : Prop :=
  bound s' = bound s /\ life s' = life s /\ m_peer_session_id s' = m_peer_session_id s /\ m_torn_down s' = m_torn_down s.

Lemma goes_update g (k : sess unit) st :
  ok st -> shape_ok (g st.1) -> unseen st.1 (g st.1) ->
  (ok (g st.1, st.2) -> goes k (g st.1, st.2)) -> goes (update g ;; k) st.
Proof.
  intros [Hn Hs] Hg (Hc & Hl & Hp & Ht) Hk. apply wp_bind_modify.
  assert (m_channel (g st.1) = m_channel st.1) as Hc' by (unfold bound in Hc; congruence).
  eapply wp_mono; [apply Hk; split; cbn [fst snd]; [by rewrite Hc'|done]|].
  intros x evs st' [H1 H2 H3 T E]. cbn [fst snd] in *. rewrite Hl in H3. rewrite Hp in E. rewrite Ht in T. split; [done|congruence|done..].
Qed.

Lemma goes_close st : ok st -> goes close_for_protocol_error st.
Proof.
  intros Hok. unfold close_for_protocol_error, this. apply wp_bind_gets. destruct (m_torn_down st.1); [by apply goes_ret|].
  apply goes_update; [done|by apply (shape_transfer st.1); [apply Hok|..|apply Hok]|done|]. intros Hok1.
  apply goes_bind; [by apply goes_emit|]. intros _ st2 Hok2. by apply goes_tear_down.
Qed.

Lemma goes_lifecycle_rejected reason st : ok st -> goes (fire_lifecycle edge_rejected reason) st.
Proof.
  intros Hok. unfold fire_lifecycle, this. apply wp_bind_gets, wp_emit. split; [done|done| |done|by right; right]. cbn. by destruct (life st.1) as [? []].
Qed.

Lemma same_self_shape st nn :
  ok st -> same_self (m_negotiator st.1) nn -> shape_ok (set_negotiator st.1 nn).
Proof. intros [_ Hs] Hn. apply (shape_transfer st.1); [done|done|done|apply Hs]. Qed.

Lemma goes_refuse st : ok st -> goes refuse_posture st.
Proof.
  intros Hok. unfold refuse_posture. apply goes_update; [done|by apply same_self_shape|done|]. intros Hok1.
  apply goes_bind; [by apply goes_lifecycle_rejected|]. intros _ st2 Hok2.
  apply goes_bind; [by apply goes_emit|]. intros _ st3 Hok3. by apply goes_close.
Qed.

Lemma goes_abort reason st : ok st -> goes (on_abort reason) st.
Proof.
  intros Hok. unfold on_abort. apply goes_bind; [by apply goes_lifecycle_rejected|]. intros _ st1 Hok1. apply wp_bind_gets.
  apply goes_bind; [|intros _ st2 Hok2; by apply goes_close]. case_decide; [by apply goes_emit|by apply goes_ret].
Qed.

(** ** Completing *)

(** An established session. *)
Definition installed (st : state) : Prop := ok st /\ m_forwarders_installed st.1 = true.

Lemma subscribe_run now fqn qos type_id st :
  installed st -> zlen fqn <= 2 ^ 60 ->
  wp (subscribe now fqn qos type_id) (fun _ evs st' => good st evs st' /\ m_forwarders_installed st'.1 = true) st.
Proof.
  intros [Hok Hi] Hl. pose proof Hok as [Hn Hs]. unfold subscribe, this. apply wp_bind_gets. apply wp_bind.
  eapply wp_mono; [apply (silent_messages _ Msg st Hn); [done|]; apply safe_attach; [apply Hn|by apply no_channel|done]|].
  intros first e1 st1 Hsil. pose proof (silent_good st e1 st1 Hs Hsil) as Hg. pose proof Hg as [Hok1 Hc1 Hl1 Ht1 Hp1]. destruct Hsil as (E1 & _ & He1).
  destruct first.
  - apply wp_modify. rewrite app_nil_r. assert (m_forwarders_installed st1.1 = true) as Hi1 by (by rewrite E1).
    split; [|done]. split; cbn [fst snd]; [|done| |exact Ht1|exact Hp1].
    + split; [apply Hok1|]. apply (shape_transfer st1.1); [apply Hok1|done|done|]. cbn. by rewrite Hi1.
    + rewrite Hl1. unfold life. cbn. by rewrite Hi1.
  - apply wp_ret. rewrite app_nil_r. split; [done|]. by rewrite E1.
Qed.

Lemma resubscribe_run now demands st :
  installed st -> (forall d, d ∈ demands -> zlen (rd_fqn d) <= 2 ^ 60) ->
  wp (each (fun d => subscribe now (rd_fqn d) (rd_qos d) (rd_type_id d)) demands)
    (fun _ evs st' => good st evs st' /\ m_forwarders_installed st'.1 = true) st.
Proof.
  revert st. induction demands as [|d ds IH]; intros st [Hok Hi] Hd; cbn [each]; [apply wp_ret; by split; [apply good_refl|]|].
  apply wp_bind. eapply wp_mono; [apply subscribe_run; [done|]; apply Hd, list_elem_of_here|].
  intros _ e1 st1 [H1 Hi1]. eapply wp_mono; [apply IH; [split; [apply H1|done]|]; intros; apply Hd; by apply elem_of_cons; right|].
  intros _ e2 st2 [H2 Hi2]. split; [by eapply good_trans|done].
Qed.

Lemma ready_run st : installed st -> goes maybe_fire_ready st.
Proof.
  intros [Hok Hi]. unfold maybe_fire_ready, this. apply wp_bind_gets. destruct (_ && _) eqn:E; [|by apply goes_ret].
  apply andb_true_iff in E as [_ Hr]. apply negb_true_iff in Hr. unfold update. apply wp_bind_modify.
  unfold fire_lifecycle, this. apply wp_bind_gets, wp_emit. split; cbn [fst snd]; [|done| |done|by right; right].
  - split; [apply Hok|]. apply (shape_transfer st.1); [apply Hok|done|done|]. cbn. by rewrite Hi.
  - unfold life. cbn. by rewrite Hi, Hr.
Qed.

Lemma install_same_self nn b : same_self nn (install_on_accept nn b).2.
Proof. unfold install_on_accept. destruct (pa_engaged _); [|done]. cbn. destruct b; [done|]. by destruct (an_install_security nn). Qed.

Lemma complete_tail now st :
  ok st -> m_forwarders_installed st.1 = false ->
  goes (update (fun s => set_installed s true) ;; fire_connect_edge ;; resubscribe_all now ;; maybe_fire_ready) st.
Proof.
  intros [Hn Hs] Hi. destruct (sh_idle _ Hs Hi) as [Ho Hr]. unfold fire_connect_edge, update, this, fire_lifecycle.
  apply wp_bind_modify. apply wp_bind. apply wp_bind_gets, wp_bind_modify, wp_bind_gets, wp_emit. cbn [fst snd].
  set (st1 := (set_ctx _ _, st.2)).
  assert (good st [Lifecycle (if negb (cx_has_ever_connected (m_ctx st.1)) then edge_connected else edge_reconnected)
                     (session_kind st1.1) out_none] st1) as H1.
  { split; cbn [fst snd]; [split; [exact Hn|by apply (shape_transfer st.1)]|done| |done|by right; right].
    unfold life. cbn. rewrite Hi, Hr. by destruct (cx_has_ever_connected (m_ctx st.1)). }
  change (cx_has_ever_connected (m_ctx (set_installed st.1 true))) with (cx_has_ever_connected (m_ctx st.1)).
  apply wp_bind. eapply wp_mono.
  { unfold resubscribe_all, this. do 2 apply wp_bind_gets. apply (resubscribe_run now _ st1); [split; [apply H1|done]|].
    intros d Hd. eapply (fo_demands _ (no_messages _ _ Hn)). exact Hd. }
  intros _ e2 st2 [H2 Hi2]. eapply wp_mono; [apply ready_run; split; [apply H2|done]|]. intros ? e3 st3 H3.
  exact (good_trans _ _ _ _ _ H1 (good_trans _ _ _ _ _ H2 H3)).
Qed.

Lemma goes_complete now st : ok st -> goes (on_complete now) st.
Proof.
  intros Hok. unfold on_complete, this. apply wp_bind_gets. destruct (m_forwarders_installed st.1) eqn:Hi; [by apply goes_ret|].
  assert (forall A (m : sess A) (k : A -> sess unit) st0, ok st0 -> m_forwarders_installed st0.1 = false ->
            wp m (fun _ evs st' => silent st0 evs st') st0 ->
            (forall x st', ok st' -> m_forwarders_installed st'.1 = false -> goes (k x) st') -> goes (m ≫= k) st0) as Hstep.
  { intros A m k st0 Hok0 Hi0 Hm Hk. apply wp_bind. eapply wp_mono; [exact Hm|]. intros x e1 st1 Hsil.
    pose proof (silent_good _ _ _ (proj2 Hok0) Hsil) as H1. destruct Hsil as (E & _).
    eapply wp_mono; [apply (Hk x st1); [apply H1|by rewrite E]|]. intros y e2 st2 H2. exact (good_trans _ _ _ _ _ H1 H2). }
  apply Hstep; [done|done| |].
  { destruct (m_is_inbound_bootstrap st.1); [by apply silent_reply|]. apply wp_ret. split_and!; [done|apply Hok|done]. }
  intros _ st1 Hok1 Hi1. apply Hstep; [done|done|apply wp_emit; split_and!; [done|apply Hok1|done]|]. clear st Hok Hi.
  intros _ st Hok Hi. pose proof (proj2 Hok) as Hs. unfold mint_epoch.
  apply goes_update; [done|..].
  { destruct (Epoch.next _). apply (shape_transfer st.1); [done..|]. apply Hs. }
  { by destruct (Epoch.next _). }
  intros Hok2. set (st2 := (_, st.2)) in *. assert (m_forwarders_installed st2.1 = false) as Hi2 by (unfold st2; by destruct (Epoch.next _)).
  clearbody st2. clear st1 Hok1 Hi1 st Hok Hi Hs. rename st2 into st, Hok2 into Hok, Hi2 into Hi. pose proof (proj2 Hok) as Hs.
  unfold record_same_host. apply goes_update; [done|by apply (shape_transfer st.1); [..|apply Hs]|done|].
  intros Hok2. set (st2 := (_, st.2)) in *. assert (m_forwarders_installed st2.1 = false) as Hi2 by done. clearbody st2.
  unfold channel_is_self_securing, this. apply Hstep; [done|done| |].
  { do 2 apply wp_bind_gets. destruct (no_channel _ _ (proj1 Hok2)) as [ [c Hc] _]. cbn in Hc. rewrite Hc. apply wp_bind_lift, wp_ret.
    split_and!; [done|apply Hok2|done]. }
  intros secured st3 Hok3 Hi3. apply wp_bind_gets. pose proof (install_same_self (m_negotiator st3.1) secured) as Hself.
  destruct (install_on_accept (m_negotiator st3.1) secured) as [ [accepted neg] nn]. cbn [snd] in Hself.
  apply goes_update; [done|by apply same_self_shape|done|]. intros Hok4. set (st4 := (_, st3.2)) in *.
  assert (m_forwarders_installed st4.1 = false) as Hi4 by done. clearbody st4. apply Hstep; [done|done| |].
  { destruct neg; [apply wp_emit|apply wp_ret]; (split_and!; [done|apply Hok4|done]). }
  intros _ st5 Hok5 Hi5. destruct accepted; cbn [negb]; [by apply complete_tail|by apply goes_refuse].
Qed.

(** ** The handshake *)

Lemma goes_execute now step st : ok st -> goes (execute now step) st.
Proof.
  intros Hok. unfold execute. destruct (sr_action step).
  - by apply goes_ret.
  - by apply goes_silent, silent_request.
  - by apply goes_silent, silent_reply.
  - by apply goes_complete.
  - by apply goes_emit.
  - by apply goes_abort.
Qed.

Lemma goes_drive now input st : ok st -> goes (drive now input) st.
Proof.
  intros Hok. unfold drive, this. apply wp_bind_gets. destruct (input (m_fsm st.1)) as [step m].
  unfold update. apply wp_bind_modify. set (st1 := (set_fsm st.1 m, st.2)).
  assert (ok st1) as Hok1 by (split; [apply Hok|]; apply (shape_transfer st.1); [apply Hok|done|done|apply Hok]).
  enough (goes (execute now step ;; mret step) st1) as H.
  { eapply wp_mono; [exact H|]. intros x evs st' [H1 H2 H3 T E]. by split. }
  apply goes_bind; [by apply goes_execute|]. intros _ st2 Hok2. by apply goes_ret.
Qed.

Lemma assemble_total nn frame role peer self engaged_ :
  exists out, assemble nn frame role peer self engaged_ = Some out /\ same_self nn out.
Proof.
  unfold assemble, assemble_pending, seam_engaged. destruct (an_seam nn) as [seam|] eqn:E; [|rewrite andb_false_r]; cbn.
  - destruct (engaged_ && engaged seam); cbn; eexists; (split; [reflexivity|]); unfold same_self; cbn; by rewrite E.
  - eexists. split; [reflexivity|]. unfold same_self. cbn. by rewrite E.
Qed.

Lemma same_self_latch nn out frame : same_self nn out -> same_self nn (latch_peer_proof out frame).
Proof. done. Qed.

Lemma goes_unit {A} (m : sess A) st : goes m st -> goes (m ;; mret tt) st.
Proof. intros Hm. apply goes_bind; [done|]. intros _ st' Hok. by apply goes_ret. Qed.

Lemma goes_handshake_req now inner st : ok st -> goes (consume_handshake_req now inner) st.
Proof.
  intros Hok. unfold consume_handshake_req, this. destruct (decode_handshake_request inner) as [req|]; [|by apply goes_ret].
  apply wp_bind_gets. destruct (assemble_total (m_negotiator st.1) req responder (hs_id req) (self_id (m_fsm_cfg st.1))
    (match attach_policy (Fsm.m_cfg (m_fsm st.1)) with Some _ => true | None => false end)) as (out & -> & Hself).
  apply wp_bind_lift. cbv zeta. apply goes_update; [done|by apply same_self_shape|done|]. intros Hok1.
  destruct (posture_mismatched _ _); [by apply goes_refuse|]. by apply goes_unit, goes_drive.
Qed.

Lemma goes_handshake_resp now inner st : ok st -> goes (consume_handshake_resp now inner) st.
Proof.
  intros Hok. unfold consume_handshake_resp, this. destruct (decode_handshake_response inner) as [resp|]; [|by apply goes_ret].
  apply wp_bind_gets. destruct (assemble_total (m_negotiator st.1) (hs_prefix resp) initiator (hs_id (hs_prefix resp)) (self_id (m_fsm_cfg st.1))
    (match attach_policy (Fsm.m_cfg (m_fsm st.1)) with Some _ => true | None => false end)) as (out & -> & Hself).
  apply wp_bind_lift. cbv zeta. apply goes_update; [done|by apply same_self_shape|done|]. intros Hok1.
  destruct (posture_mismatched _ _); [by apply goes_refuse|]. by apply goes_unit, goes_drive.
Qed.

(** ** Frames of the peer *)

Lemma goes_decoded {A} (p : parsed A) (k : A -> sess unit) st :
  ok st -> p <> undefined -> (forall x, p = accepted x -> goes (k x) st) -> goes (decoded p k) st.
Proof. intros Hok Hp Hk. destruct p; [done|by apply goes_ret|by apply Hk]. Qed.

Lemma goes_messages {A} (m : prog (message_forwarder C) forwarder_event A) inj st :
  ok st -> (forall x, edges [inj x] = []) -> safe m (lend_messages st.2) ->
  goes (zoom (fun st => lend_messages st.2) (fun f st => (st.1, return_messages f st.2)) inj m) st.
Proof. intros Hok Hi Hm. apply goes_silent; [done|]. by apply silent_messages; [apply Hok|..]. Qed.

Lemma goes_subscribe_response inner st : ok st -> goes (on_subscribe_response_received inner) st.
Proof.
  intros Hok. destruct (control_decoders_memory_safe inner) as (_ & Hd & _). apply goes_decoded; [done|done|]. intros resp _.
  unfold this. apply wp_bind_gets. destruct (Z.eqb_spec (m_outstanding_subscribes st.1) 0) as [|Hne]; [by apply goes_emit|].
  assert (m_forwarders_installed st.1 = true) as Hi.
  { destruct (m_forwarders_installed st.1) eqn:Ei; [done|]. by destruct (sh_idle _ (proj2 Hok) Ei). }
  apply wp_bind. enough (wp (surface_subscribe_outcome resp) (fun _ evs st' => silent st evs st') st) as H.
  { eapply wp_mono; [exact H|]. intros x e1 st1 Hsil. pose proof (silent_good _ _ _ (proj2 Hok) Hsil) as H1.
    destruct Hsil as (E & _). assert (m_forwarders_installed st1.1 = true) as Hi1 by (by rewrite E).
    assert (ok (set_outstanding st1.1 (m_outstanding_subscribes st1.1 - 1), st1.2)) as Hok2.
    { split; [apply H1|]. apply (shape_transfer st1.1); [apply H1|done|done|]. cbn. by rewrite Hi1. }
    unfold update. apply wp_bind_modify. eapply wp_mono; [apply ready_run; by split|]. intros y e2 st2 H2.
    apply (good_trans _ _ _ _ _ H1). destruct H2 as [H3 H4 H5 T5 E5]. by split. }
  unfold surface_subscribe_outcome. destruct (is_refusal _); [|destruct (_ =? _)]; [apply wp_emit|apply wp_emit|apply wp_ret];
    (split_and!; [done|apply Hok|done]).
Qed.

Lemma goes_deliver_data now hdr inner st : ok st -> goes (deliver_session_data now hdr inner) st.
Proof.
  intros Hok. unfold deliver_session_data, this. apply wp_bind_gets. apply goes_messages; [done| |].
  - intros []; done.
  - apply safe_deliver, Hok.
Qed.

Lemma goes_dispatch now hdr inner st : ok st -> goes (dispatch now hdr inner) st.
Proof.
  intros Hok. pose proof Hok as [Hn Hs]. destruct (control_decoders_memory_safe inner) as (Hd1 & _ & _ & _ & Hd2 & Hd3 & _).
  unfold dispatch. cbv zeta. repeat (destruct (_ =? _)).
  - by apply goes_deliver_data.
  - apply goes_decoded; [done|done|]. intros req _. apply wp_bind_gets. apply goes_unit, goes_messages; [done|done|].
    apply safe_attach_for_fanout; [apply Hn|by apply no_channel].
  - apply goes_decoded; [done|done|]. intros req _. apply wp_bind_gets. apply goes_messages; [done|done|]. apply safe_fetch; [apply Hn|by apply no_channel].
  - by apply goes_emit.
  - by apply goes_subscribe_response.
  - apply wp_bind_gets. apply goes_silent; [done|]. apply silent_procedures; [done|].
    destruct (request_run (lend_procedures st.2) now (rpc_peer st.1) inner (m_session_id st.1) (no_procedures _ _ Hn) (proj1 (no_channel _ _ Hn)))
      as (evs & f' & Hrun & He & Hev). exists tt, evs, f'. split; [exact Hrun|]. split; [apply He|exact Hev].
  - apply wp_bind_gets. apply goes_silent; [done|]. apply silent_procedures; [done|].
    destruct (response_effect (lend_procedures st.2) (rpc_peer st.1) inner (no_procedures _ _ Hn)) as (evs & f' & Hrun & He).
    exists tt, evs, f'. split; [exact Hrun|]. split; [apply He|]. rewrite (response_channels _ _ _ _ _ Hrun). apply evolves_refl.
  - by apply goes_handshake_req.
  - by apply goes_handshake_resp.
  - apply goes_decoded; [done|done|]. intros _ _. apply wp_bind_gets. by apply goes_emit.
  - by apply goes_emit.
Qed.

Lemma goes_receive now frame st : ok st -> goes (on_receive now frame) st.
Proof.
  intros Hok. unfold on_receive, this. apply wp_bind_gets. destruct (m_torn_down st.1); [by apply goes_ret|].
  destruct (decode_header frame) as [hdr|] eqn:Eh; [|by apply goes_close].
  destruct (_ && _ && _); [by apply goes_ret|]. apply goes_bind.
  - destruct (_ && _) eqn:Ez; [|by apply goes_ret]. apply andb_true_iff in Ez as [_ Ez]. apply wp_modify.
    split; [|done|done|done|right; left; lia]. split; [apply Hok|]. apply (shape_transfer st.1); [apply Hok|done|done|apply Hok].
  - intros _ st1 Hok1. unfold route. rewrite Eh. by apply goes_dispatch.
Qed.

(** ** Every operation *)

Lemma goes_timer now ec st : ok st -> goes (on_handshake_timer now ec) st.
Proof.
  intros Hok. unfold on_handshake_timer. destruct ec; [by apply goes_ret|]. apply goes_bind; [by apply goes_drive|].
  intros step st1 Hok1. case_decide; [|by apply goes_ret]. unfold arm_handshake_timer, this. apply wp_bind_gets. by apply goes_emit.
Qed.

Lemma goes_error e st : ok st -> goes (on_error e) st.
Proof.
  intros Hok. unfold on_error, this. case_decide; [by apply goes_ret|]. apply wp_bind_gets.
  destruct (_ && _); [by apply goes_emit|by apply goes_ret].
Qed.

Lemma goes_protocol_close st : ok st -> goes on_channel_protocol_close st.
Proof.
  intros Hok. unfold on_channel_protocol_close, this. apply wp_bind_gets. destruct (m_torn_down st.1); [by apply goes_ret|].
  apply goes_bind; [destruct (_ && _); [by apply goes_emit|by apply goes_ret]|]. intros _ st1 Hok1. by apply goes_close.
Qed.

(** The slot of an object is alive. *)
Definition slot_live (st : state) (c : object_carrier) : Prop :=
  match oc_slot c with Some slot => is_Some (f_slots (n_messages st.2) !! slot) | None => True end.

Lemma safe_release c (f : message_forwarder C) :
  forwarder_ok f -> (match oc_slot c with Some slot => is_Some (f_slots f !! slot) | None => True end) -> safe (release c) f.
Proof.
  intros Hf Hs. unfold release. destruct (oc_slot c) as [slot|]; [|by apply safe_ret]. destruct Hs as [refs Hrefs].
  apply safe_gets. rewrite Hrefs. apply safe_lift. cbv zeta. apply safe_bind.
  - apply safe_modify. destruct Hf. split_and!; [by split|done|done].
  - intros _ f1 (Hf1 & _). destruct (_ =? _); [by apply safe_emit|by apply safe_ret].
Qed.

Lemma goes_object c st : ok st -> slot_live st c -> goes (deliver_session_object c) st.
Proof.
  intros Hok Hslot. pose proof Hok as [Hn Hs]. unfold deliver_session_object, this. do 2 apply wp_bind_gets.
  destruct (fqn_for_spec (registry_of (n_messages st.2)) (oc_topic_hash c) (fo_registry _ (no_messages _ _ Hn))) as (r' & -> & Hr & Ht & _).
  apply wp_bind_lift. apply wp_bind, wp_zoom, wp_modify. cbn [map]. set (st1 := (st.1, _)).
  assert (good st [] st1) as H1.
  { apply silent_good; [done|]. split_and!; [done| |done].
    assert (keeps (lend_messages st.2) (set_endpoint (lend_messages st.2) (set_registry (f_endpoint (lend_messages st.2)) r'))) as (Hf & _).
    { apply keeps_same_topics; [apply Hn|done|done]. }
    split; cbn [snd]; [exact Hf|apply Hn|apply Hn|apply Hn]. }
  enough (goes ((match (match m_topics (registry_of (n_messages st.2)) !! oc_topic_hash c with Some e => e_fqn e | None => [] end) with
                 | [] => emit WarnObjectUnknown
                 | _ => if m_on_object_route st.1
                        then emit (ObjectRouted (match m_topics (registry_of (n_messages st.2)) !! oc_topic_hash c with Some e => e_fqn e | None => [] end) c)
                        else mret tt
                 end) ;; messages (release c)) st1) as H.
  { eapply wp_mono; [exact H|]. intros x evs st2 H2. exact (good_trans _ _ _ _ _ H1 H2). }
  assert (forall ev, edges [ev] = [] -> goes (emit ev ;; messages (release c)) st1) as Hemit.
  { intros ev He. apply wp_bind_emit. eapply wp_mono.
    - apply (goes_messages (release c) Msg st1); [apply H1|done|]. apply safe_release; [apply H1|exact Hslot].
    - intros x evs st2 [G1 G2 G3 G4 G5]. split; try done. change (ev :: evs) with ([ev] ++ evs). by rewrite edges_app, He. }
  assert (goes (mret tt ;; messages (release c)) st1) as Hret.
  { apply wp_bind_ret. apply (goes_messages (release c) Msg st1); [apply H1|done|]. apply safe_release; [apply H1|exact Hslot]. }
  destruct (match m_topics _ !! _ with Some e => e_fqn e | None => [] end) as [|b l]; [by apply Hemit|].
  destruct (m_on_object_route st.1); [by apply Hemit|exact Hret].
Qed.

Lemma goes_start now entropy st :
  ok st -> m_torn_down st.1 = false -> (forall e, entropy = Some e -> length e = 16%nat) ->
  (forall p, an_prover (m_negotiator st.1) = Some p -> length (key_id (ap_key p)) = k_handshake_key_id_len) ->
  goes (start now entropy) st.
Proof.
  intros Hok Ht He Hk. unfold start. pose proof Hok as [Hn Hs].
  apply goes_update; [done|by apply (shape_transfer st.1); [done..|apply Hs]|by split_and!|]. intros Hok1.
  apply goes_update; [done| |done|].
  { destruct (sh_request _ (proj2 Hok1)) as (A1 & A2 & A3 & A4 & A5 & A6 & A7 & A8 & A9 & A10 & A11 & A12).
    split; [|exact (sh_proof _ Hs)|exact (sh_idle _ Hs)]. unfold self_request in *. cbn in *.
    split_and!; try done; cbn.
    - destruct (an_prover (m_negotiator st.1)) as [p|] eqn:Ep; [by apply Hk|done].
    - destruct entropy as [e|]; [by apply He|done]. }
  intros Hok2. apply goes_bind; [unfold arm_handshake_timer, this; apply wp_bind_gets; by apply goes_emit|].
  intros _ st3 Hok3. unfold this. apply wp_bind_gets. destruct (m_is_inbound_bootstrap st3.1); cbn [negb]; [by apply goes_ret|].
  apply goes_bind; [by apply goes_drive|]. intros _ st4 Hok4. by apply goes_unit, goes_drive.
Qed.

Inductive session_op : Type :=
| SReceive (now : Z) (frame : bytes)
| STimer (now : Z) (ec : bool)
| SError (e : io_error)
| SProtocolClose
| SObject (c : object_carrier)
| SSubscribe (now : Z) (fqn : bytes) (qos : subscriber_qos) (type_id : option Z)
| SUnsubscribe (now : Z) (fqn : bytes)
| SHeartbeat (now : Z)
| STearDown
| SStart (now : Z) (entropy : option bytes).

Definition s_operate (o : session_op) : sess unit :=
  match o with
  | SReceive now frame => on_receive now frame
  | STimer now ec => on_handshake_timer now ec
  | SError e => on_error e
  | SProtocolClose => on_channel_protocol_close
  | SObject c => deliver_session_object c
  | SSubscribe now fqn qos type_id => subscribe now fqn qos type_id
  | SUnsubscribe now fqn => unsubscribe now fqn
  | SHeartbeat now => emit_heartbeat now
  | STearDown => tear_down
  | SStart now entropy => start now entropy
  end.

(** What the engine keeps to: it subscribes on an established session only, names have a sane size,
    an object comes with a slot that is alive, and it starts a session once, before it is torn down,
    with 16 random bytes.  Of the frames and errors nothing is assumed. *)
Definition s_driven (st : state) (o : session_op) : Prop :=
  match o with
  | SSubscribe _ fqn _ _ => m_forwarders_installed st.1 = true /\ zlen fqn <= 2 ^ 60
  | SObject c => slot_live st c
  | SStart _ entropy => m_torn_down st.1 = false /\ (forall e, entropy = Some e -> length e = 16%nat) /\
      (forall p, an_prover (m_negotiator st.1) = Some p -> length (key_id (ap_key p)) = k_handshake_key_id_len)
  | _ => True
  end.

Lemma goes_operate st o : ok st -> s_driven st o -> goes (s_operate o) st.
Proof.
  intros Hok Ho. pose proof Hok as [Hn Hs]. destruct o; cbn [s_operate s_driven] in *.
  - by apply goes_receive.
  - by apply goes_timer.
  - by apply goes_error.
  - by apply goes_protocol_close.
  - by apply goes_object.
  - eapply wp_mono; [apply subscribe_run; [split; tauto|tauto]|]. by intros x evs st' [H _].
  - unfold unsubscribe, this. apply wp_bind_gets. apply goes_unit, goes_messages; [done|done|]. apply safe_detach; [apply Hn|by apply no_channel].
  - unfold emit_heartbeat. rewrite encode_heartbeat_into_layout. apply wp_bind_lift. apply goes_silent; [done|].
    apply silent_control; [done|]. by vm_compute.
  - by apply goes_tear_down.
  - apply goes_start; tauto.
Qed.

(** What is asked of any user of a session: the same, but that a session may also be started again
    after it was torn down. *)
Definition s_allowed (st : state) (o : session_op) : Prop :=
  match o with
  | SStart _ entropy => (forall e, entropy = Some e -> length e = 16%nat) /\
      (forall p, an_prover (m_negotiator st.1) = Some p -> length (key_id (ap_key p)) = k_handshake_key_id_len)
  | _ => s_driven st o
  end.

(** What an operation does to the life of the session. *)
Definition lively (st : state) (evs : list session_event) (st' : state) : Prop :=
  ok st' /\ lives (life st.1) (edges evs) = Some (life st'.1).

Lemma operate_lively st o : ok st -> s_allowed st o -> wp (s_operate o) (fun _ evs st' => lively st evs st') st.
Proof.
  intros Hok Ho.
  assert (forall st1, ok st1 -> s_driven st1 o -> life st1.1 = life st.1 -> wp (s_operate o) (fun _ evs st' => lively st evs st') st1) as Hgo.
  { intros st1 Hok1 Hd Hl. eapply wp_mono; [by apply goes_operate|]. intros x evs st' Hg. split; [apply Hg|]. rewrite <- Hl. apply Hg. }
  destruct o; try (by apply Hgo). cbn [s_operate s_allowed] in *. set (st1 := (set_flags st.1 false false, st.2)).
  assert (start now entropy st = start now entropy st1) as Hst by (unfold start, update; rewrite !bind_modify; done).
  destruct (Hgo st1) as (x & evs & st' & Hrun & Hl); [|by split|done|exists x, evs, st'; by rewrite Hst].
  destruct Hok as [Hn Hs]. split; [done|]. apply (shape_transfer st.1); [done|done|done|apply Hs].
Qed.

(** Histories of a session: its own operations, whatever the other sessions of the node do to the
    shared forwarders and channels in between, and the reconnection of the engine, which replaces a
    session that was torn down by a new one, on a new channel, for the same peer. *)
Inductive session_trace (st0 : state) : list session_event -> state -> Prop :=
| strace_start : session_trace st0 [] st0
| strace_step evs st o evs' st' :
    session_trace st0 evs st -> s_allowed st o -> s_operate o st = Some (tt, evs', st') -> session_trace st0 (evs ++ evs') st'
| strace_other evs s n n' :
    session_trace st0 evs (s, n) -> node_ok n' (m_channel s) -> session_trace st0 evs (s, n')
| strace_rebuilt evs s n s' n' :
    session_trace st0 evs (s, n) -> m_forwarders_installed s = false ->
    m_ctx s' = m_ctx s -> m_forwarders_installed s' = false -> ok (s', n') -> session_trace st0 evs (s', n').

Lemma session_trace_good st0 evs st :
  ok st0 -> session_trace st0 evs st -> ok st /\ lives (life st0.1) (edges evs) = Some (life st.1).
Proof.
  intros H0. induction 1 as [|evs st o evs' st' _ [IH1 IH2] Ho Hrun|evs s n n' _ [IH1 IH2] Hn|evs s n s' n' _ [IH1 IH2] Hi Hc Hi' Hok]; [done| | |].
  - destruct (operate_lively st o IH1 Ho) as (x & e & st2 & Hrun2 & Hg). rewrite Hrun in Hrun2. injection Hrun2 as <- <- <-.
    split; [apply Hg|]. rewrite edges_app, lives_app, IH2. apply Hg.
  - split; [split; [done|apply IH1]|done].
  - split; [done|]. rewrite IH2. unfold life. cbn [fst]. by rewrite Hi, Hi', Hc.
Qed.

(** C7: a session survives whatever its peer sends and reports an orderly life.  After any
    history of received frames (any bytes), errors, timer expiries, subscriptions, teardowns and
    starts, also after a teardown, with the other sessions of the node at work in between and with
    any number of rebuilds of the session for its peer after a connection was lost: the lifecycle
    edges reported so far are [connected] the first time and [reconnected] later, [ready] at most
    once per connection, [disconnected] exactly for a connection that was up, and rejections, in a
    legal order that ends where the session is; and the next operation returns.  Assumed of the
    users: they subscribe only while the connection is up (as the engine does; an earlier
    subscription can be reported ready before connected), with names of at most 2^60 bytes, hand
    over objects whose slot is alive and start with 16 random bytes; and the channels are ones that
    take what is sent on them. *)
Theorem session_lives_orderly (st0 st : state) (evs : list session_event) :
  ok st0 -> life st0.1 = (false, Idle) -> session_trace st0 evs st ->
  lives (false, Idle) (edges evs) = Some (life st.1) /\
  (forall o, s_allowed st o -> exists evs' st', s_operate o st = Some (tt, evs', st') /\ session_trace st0 (evs ++ evs') st').
Proof.
  intros H0 Hl Ht. destruct (session_trace_good st0 evs st H0 Ht) as [Hok Hlife]. rewrite Hl in Hlife. split; [done|].
  intros o Ho. destruct (operate_lively st o Hok Ho) as ([] & evs' & st' & Hrun & _). exists evs', st'. split; [done|]. by econstructor.
Qed.

(** A session serves one epoch of its peer.  A frame whose session number is neither zero nor
    the latched one changes nothing and is reported to nobody; and from one operation to the
    next the latched number of a session stays what it is until the session is torn down. *)
Theorem stale_frames_are_ignored (st : state) :
  ok st -> m_peer_session_id st.1 <> 0 ->
  (forall now frame hdr, decode_header frame = Some hdr -> fh_session_id hdr <> 0 ->
     fh_session_id hdr <> m_peer_session_id st.1 -> on_receive now frame st = Some (tt, [], st)) /\
  (forall o, s_driven st o -> exists evs st', s_operate o st = Some (tt, evs, st') /\
     (m_torn_down st'.1 = true \/ m_peer_session_id st'.1 = m_peer_session_id st.1)).
Proof.
  intros Hok Hp. split.
  - intros now frame hdr Hh H1 H2. unfold on_receive, this. rewrite bind_gets. destruct (m_torn_down st.1); [done|]. rewrite Hh.
    destruct (Z.eqb_spec (fh_session_id hdr) 0), (Z.eqb_spec (m_peer_session_id st.1) 0),
      (Z.eqb_spec (fh_session_id hdr) (m_peer_session_id st.1)); done.
  - intros o Ho. destruct (goes_operate st o Hok Ho) as ([] & evs & st' & Hrun & Hg). exists evs, st'. split; [done|].
    destruct (gd_epoch _ _ _ Hg) as [|[|]]; auto.
Qed.

End Safety.

(** ** Witnesses *)

Definition nobody_else : Bystanders := fun _ => False.
#[local] Existing Instance nothing_condemned.
#[local] Existing Instance nobody_else.

Definition sample_node : node peer_stream :=
  Node (message_forwarder_new global_default_max_message_bytes sample_channels) sample_caller sample_channels.

(** The session of an accepted connection on channel 1, and a greeting of its peer. *)
Definition sample_session : session :=
  session_new (Fsm.plain_config 1) (PeerContext (Fsm.node 2) [Byte.x70] 0 false false) 1 false true 1000000000
    (attach_negotiator_new false None None) false true false false.

Definition greeting : bytes :=
  let body := handshake_layout (Fsm.hello 2) in control_bytes 3 msg_handshake_req body.

Lemma sample_node_ok : node_ok sample_node 1.
Proof.
  split.
  - apply new_forwarder_ok; [exact sample_channels_ready|]. intros a b c d Ha Hb _.
    change (sample_channels !! a = Some c) in Ha. change (sample_channels !! b = Some d) in Hb. unfold sample_channels in *.
    apply lookup_singleton_Some in Ha as [<- _]. by apply lookup_singleton_Some in Hb as [<- _].
  - destruct sample_caller_ok as [H1 H2 H3 H4 H5]. split; [exact H1|exact H2|exact H3|exact H4|exact H5].
  - split; [by eexists|by intros [] ].
  - by intros a [].
Qed.

Lemma sample_session_ok id : ok (set_peer_session_id sample_session id, sample_node).
Proof.
  split; [exact sample_node_ok|]. split; [|by intros p k m x Hp|done].
  unfold handshake_request_ok. cbn. split_and!; try done; split; by vm_compute.
Qed.

Lemma sample_state_ok : ok (sample_session, sample_node).
Proof. exact (sample_session_ok 0). Qed.

Definition edges_of (r : option (unit * list session_event * (session * node peer_stream))) : list lifecycle_edge :=
  match r with Some (_, evs, _) => edges evs | None => [] end.

(** The edges reported when the greeting arrives. *)
Lemma greeted : edges_of (s_operate (host := little) (SReceive 4 greeting) (sample_session, sample_node)) = [edge_connected; edge_ready].
Proof. vm_compute. reflexivity. Qed.

Lemma greeting_returns : exists evs st,
  s_operate (host := little) (SReceive 4 greeting) (sample_session, sample_node) = Some (tt, evs, st) /\
  edges evs = [edge_connected; edge_ready].
Proof.
  destruct (goes_operate (host := little) (sample_session, sample_node) (SReceive 4 greeting) sample_state_ok I)
    as ([] & evs & st & Hrun & _). exists evs, st. split; [exact Hrun|]. pose proof greeted as He. rewrite Hrun in He. exact He.
Qed.

(** The session of the next connection of the same peer. *)
Definition rebuilt_session : session :=
  session_new (Fsm.plain_config 1) (PeerContext (Fsm.node 2) [Byte.x70] 1 true false) 1 false true 1000000000
    (attach_negotiator_new false None None) false true false false.

Lemma rebuilt_state_ok : ok (rebuilt_session, sample_node).
Proof.
  split; [exact sample_node_ok|]. split; [|by intros p k m x Hp|done].
  unfold handshake_request_ok. cbn. split_and!; try done; split; by vm_compute.
Qed.

(** What is left of a session after two operations, and what it reported. *)
Definition left_after (o1 o2 : session_op) (st0 : session * node peer_stream) : option (peer_context * bool * list lifecycle_edge) :=
  '(_, e1, st1) ← s_operate (host := little) o1 st0;
  '(_, e2, st2) ← s_operate (host := little) o2 st1;
  Some (m_ctx st2.1, m_forwarders_installed st2.1, edges (e1 ++ e2)).

Lemma left_after_run o1 o2 st0 x e1 st1 e2 st2 : left_after o1 o2 st0 = Some x ->
  s_operate (host := little) o1 st0 = Some (tt, e1, st1) -> s_operate (host := little) o2 st1 = Some (tt, e2, st2) ->
  m_ctx st2.1 = x.1.1 /\ m_forwarders_installed st2.1 = x.1.2 /\ edges (e1 ++ e2) = x.2.
Proof. intros L R1 R2. unfold left_after in L. rewrite R1 in L. cbn [mbind option_bind] in L. rewrite R2 in L. by injection L as <-. Qed.

Lemma edges_of_run o st0 e st : s_operate (host := little) o st0 = Some (tt, e, st) -> edges_of (s_operate (host := little) o st0) = edges e.
Proof. by intros ->. Qed.

Lemma greeted_and_lost : left_after (SReceive 4 greeting) STearDown (sample_session, sample_node)
  = Some (PeerContext (Fsm.node 2) [Byte.x70] 1 true false, false, [edge_connected; edge_ready; edge_disconnected]).
Proof. vm_compute. reflexivity. Qed.

Lemma greeted_again : edges_of (s_operate (host := little) (SReceive 4 greeting) (rebuilt_session, sample_node)) = [edge_reconnected; edge_ready].
Proof. vm_compute. reflexivity. Qed.

(** A session that is lost after one operation, rebuilt and used again. *)
Lemma rebuilt_trace st0 o1 o2 st' o3 ctx l1 l2 :
  ok st0 -> s_driven st0 o1 -> (forall st : session * node peer_stream, s_driven st o2) ->
  left_after o1 o2 st0 = Some (ctx, false, l1) ->
  m_ctx st'.1 = ctx -> m_forwarders_installed st'.1 = false -> ok st' -> s_driven st' o3 ->
  (forall st : session * node peer_stream, s_driven st o1 -> s_allowed st o1) -> (forall st : session * node peer_stream, s_allowed st o2) ->
  s_allowed st' o3 -> edges_of (s_operate (host := little) o3 st') = l2 ->
  exists evs st, session_trace (host := little) st0 evs st /\ edges evs = l1 ++ l2.
Proof.
  intros Hok0 H1 H2 Hl Hc Hi Hok' H3 A1 A2 A3 He.
  destruct (goes_operate (host := little) st0 o1 Hok0 H1) as ([] & e1 & st1 & R1 & G1).
  destruct (goes_operate (host := little) st1 o2 (gd_ok _ _ _ G1) (H2 _)) as ([] & e2 & st2 & R2 & G2).
  destruct (goes_operate (host := little) st' o3 Hok' H3) as ([] & e3 & st3 & R3 & G3).
  destruct (left_after_run _ _ _ _ _ _ _ _ Hl R1 R2) as (Lc & Li & Le). cbn [fst snd] in *. rewrite (edges_of_run _ _ _ _ R3) in He.
  exists ((([] ++ e1) ++ e2) ++ e3), st3. split.
  - destruct st2 as [s2 n2], st' as [s' n']. eapply strace_step; [|exact A3|exact R3].
    apply (strace_rebuilt _ _ s2 n2); [|exact Li|cbn in Hc, Lc; congruence|exact Hi|exact Hok'].
    eapply strace_step; [|apply A2|exact R2]. eapply strace_step; [constructor|by apply A1|exact R1].
  - cbn [app]. by rewrite edges_app, Le, He.
Qed.

(** A peer connects, is lost and reconnects. *)
Lemma reconnecting_trace : exists evs st, session_trace (host := little) (sample_session, sample_node) evs st /\
  edges evs = [edge_connected; edge_ready; edge_disconnected] ++ [edge_reconnected; edge_ready].
Proof.
  apply (rebuilt_trace _ (SReceive 4 greeting) STearDown (rebuilt_session, sample_node) (SReceive 4 greeting) _ _ _
    sample_state_ok I (fun _ => I) greeted_and_lost); [reflexivity|reflexivity|exact rebuilt_state_ok|exact I|done|done|exact I|exact greeted_again].
Qed.

Lemma session_lives_orderly_witness :
  exists evs st, lives (false, Idle) (edges evs) = Some (life st.1) /\
    edges evs = [edge_connected; edge_ready; edge_disconnected] ++ [edge_reconnected; edge_ready] /\
    exists evs' st', s_operate (host := little) (SReceive 9 greeting) st = Some (tt, evs', st').
Proof.
  destruct reconnecting_trace as (evs & st & Ht & He). exists evs, st.
  destruct (session_lives_orderly (host := little) (sample_session, sample_node) st evs) as (Hl & Hnext).
  - exact sample_state_ok.
  - reflexivity.
  - exact Ht.
  - split; [exact Hl|]. split; [exact He|]. destruct (Hnext (SReceive 9 greeting) I) as (evs' & st' & H & _). exists evs', st'. exact H.
Defined.

Lemma stale_frames_are_ignored_witness :
  on_receive (host := little) 9 (control_bytes 3 msg_heartbeat [Byte.x01; Byte.x00]) (sample_session, sample_node)
    <> Some (tt, [], (sample_session, sample_node)) /\
  on_receive (host := little) 9 (data_frame 3 msg_heartbeat 8 [Byte.x01; Byte.x00]) (set_peer_session_id sample_session 7, sample_node)
    = Some (tt, [], (set_peer_session_id sample_session 7, sample_node)).
Proof.
  split.
  - intros H. apply (f_equal (option_map (fun x => length x.1.2))) in H. vm_compute in H. discriminate H.
  - destruct (stale_frames_are_ignored (host := little) (set_peer_session_id sample_session 7, sample_node)) as [H _];
      [exact (sample_session_ok 7)|discriminate|].
    apply (H 9 (data_frame 3 msg_heartbeat 8 [Byte.x01; Byte.x00]) (FrameHeader msg_heartbeat 0 8 3 2));
      [vm_compute; reflexivity|discriminate|discriminate].
Defined.
