(* ===== verification/SessionLink.v ===== *)
(** * Two sessions on one connection

    What a session sends, a session receives: a subscription of one side becomes the fan-out
    entry of the other, a publication of the other side is the message of the first.  And
    what a session does with frames nobody expects. *)

From S2P Require Import Prelude EventMonad ByteOrder Varint Cursor Frame Control Hash Fragmentation Security Handshake SendQueue Negotiator Egress Qos History Registry Forwarder Subscription ForwarderSafety Procedure Session SessionSafety.

Section Link.
Context {cd : Condemned} {bs : Bystanders}.
Context {host : Host} {C : Type} `{!PeerChannel C} `{!PeerContract C}.
Implicit Types (s : session) (n : node C).
Abbreviation state := (session * node C)%type.
Abbreviation sess := (prog state session_event).

(** ** Reception *)

Lemma control_decodes now type inner :
  in_width 64 now -> in_width 8 type -> zlen inner <= 2 ^ 61 ->
  decode_header (control_bytes now type inner) = Some (FrameHeader type 0 0 now (zlen inner)) /\
  drop header_size (control_bytes now type inner) = inner.
Proof. intros Hn Ht Hl. apply (data_frame_decodes now type 0 inner); [done|done|split; by vm_compute|done]. Qed.

(** A control frame is dispatched whatever the epoch. *)
Lemma receive_control now' now type inner (st : state) :
  in_width 64 now -> in_width 8 type -> zlen inner <= 2 ^ 61 -> m_torn_down st.1 = false ->
  on_receive now' (control_bytes now type inner) st = dispatch now' (FrameHeader type 0 0 now (zlen inner)) inner st.
Proof.
  intros Hn Ht Hl Hd. destruct (control_decodes now type inner Hn Ht Hl) as [Hh Hi].
  unfold on_receive, this. rewrite bind_gets, Hd, Hh. cbn [fh_session_id Z.eqb negb andb].
  rewrite bind_ret. unfold route. by rewrite Hh, Hi.
Qed.

(** ** A subscription *)

(** The frame of a subscription. *)
Definition subscribe_frame (now : Z) (fqn : bytes) (q : subscriber_qos) (type_id : option Z) : bytes :=
  control_bytes now msg_subscribe (subscribe_layout (subscribe_request_of fqn (fqn_topic_hash fqn) type_id q)).

Lemma attach_run (f : message_forwarder C) now p fqn q type_id c :
  forwarder_ok f -> Refcount.ok (m_refcount (registry_of f)) -> holds_of f p fqn = 0 ->
  f_channels f !! p_channel p = Some c -> zlen fqn <= 2 ^ 60 ->
  exists f' c', attach now p fqn q type_id f
      = Some (true, [QosChange edge_accepted (fqn_topic_hash fqn) q compatible type_id;
                     DemandTransition (p_node_name p) fqn demand_up role_subscriber], f') /\
    send c (subscribe_frame now fqn q type_id) = Some c' /\
    f_channels f' = <[p_channel p := c']> (f_channels f) /\
    m_topics (registry_of f') = add_topic_subscriber (m_topics (registry_of f)) (fqn_topic_hash fqn) fqn (p_channel p)
                                  (remote_scheme c) (p_node_name p) q type_id.
Proof.
  intros Hf Hcnt Hz Hc Hl. unfold attach.
  destruct (attach_gate_run f p fqn Hcnt) as (cnt & Hg & _ & _); [rewrite Hz; lia|]. rewrite Hz in Hg.
  rewrite (bind_run _ _ _ _ _ _ Hg). cbn [Z.eqb negb]. cbv zeta. set (f1 := set_endpoint f _).
  rewrite (bind_run _ _ _ _ _ _ (add_fanout_run f1 p (fqn_topic_hash fqn) fqn q type_id c Hc)). set (f2 := set_endpoint f1 _).
  unfold record_remote_topic. rewrite bind_modify. set (f3 := set_remote_topics f2 _).
  assert (frame_ok (subscribe_frame now fqn q type_id)) as Hfr.
  { apply control_bytes_ok. unfold subscribe_request_of. by case_decide; apply length_subscribe_bound. }
  destruct (send_keeps c _ (fo_ready f Hf _ c Hc) Hfr) as (c' & Hs & _).
  rewrite (bind_run _ _ f3 tt [] (set_channel (after_control f3 (subscribe_frame now fqn q type_id)) (p_channel p) c')).
  2:{ unfold send_subscribe. rewrite encode_subscribe_request_layout, bind_lift. by apply (send_control_run f3 now (p_channel p) _ _ c). }
  eexists _, c'. split; [reflexivity|]. by split_and!.
Qed.

Lemma subscribe_request_of_ok fqn type_id q :
  (length fqn <= k_max_fqn)%nat -> subscriber_qos_ok q -> (forall t, type_id = Some t -> in_width 64 t) ->
  subscribe_request_ok (subscribe_request_of fqn (fqn_topic_hash fqn) type_id q).
Proof.
  intros Hl Hq Ht. assert (in_width 64 (default 0 type_id)) as Hw.
  { destruct type_id as [t|]; cbn [from_option id]; [by apply Ht|split; by vm_compute]. }
  unfold subscribe_request_of. case_decide; unfold subscribe_request_ok;
    cbn [sr_fqn sr_type_name sr_topic_hash sr_type_hash sr_source sr_has_qos sr_qos];
    (split_and!; [done|unfold k_max_type_name; cbn [length]; lia|apply topic_hash_width|exact Hw|split; by vm_compute|]).
  - done.
  - by apply to_wire_region_ok.
Qed.

(** What arrives of a request: its type, unless it is the number that stands for none, and the
    fields of its QoS that travel. *)
Definition arriving_type (type_id : option Z) : option Z :=
  if default 0 type_id =? 0 then None else type_id.

Lemma arriving_request fqn type_id q :
  subscriber_type_of (subscribe_request_of fqn (fqn_topic_hash fqn) type_id q) = arriving_type type_id /\
  subscriber_qos_of (subscribe_request_of fqn (fqn_topic_hash fqn) type_id q) = wire_part q /\
  sr_fqn (subscribe_request_of fqn (fqn_topic_hash fqn) type_id q) = fqn.
Proof.
  unfold subscribe_request_of, subscriber_type_of, subscriber_qos_of, arriving_type.
  case_decide as E; cbn [sr_type_hash sr_has_qos sr_qos sr_fqn]; (split; [|split; [|done] ]).
  1,3: destruct type_id as [t|]; cbn [from_option id]; [by destruct (t =? 0)|done].
  - by rewrite E.
  - apply from_to_wire_region.
Qed.

(** A subscription travels.  When the application of one side subscribes on an established
    session for the first time, the session sends exactly one frame and waits for one more
    response; that frame, received by the session at the other end, is the operation
    [attach_for_fanout] there, for the same name, the same type and the fields of the QoS
    that travel. *)
Theorem subscription_travels (sta stb : state) (now now' : Z) (fqn : bytes) (q : subscriber_qos) (type_id : option Z) (ca : C) :
  ok sta -> m_forwarders_installed sta.1 = true ->
  Refcount.ok (m_refcount (registry_of (n_messages sta.2))) -> holds_of (lend_messages sta.2) (msg_peer sta.1) fqn = 0 ->
  n_channels sta.2 !! m_channel sta.1 = Some ca ->
  (length fqn <= k_max_fqn)%nat -> subscriber_qos_ok q -> (forall t, type_id = Some t -> in_width 64 t) -> in_width 64 now ->
  m_torn_down stb.1 = false ->
  exists evs sta' ca', subscribe now fqn q type_id sta = Some (tt, evs, sta') /\
    send ca (subscribe_frame now fqn q type_id) = Some ca' /\
    n_channels sta'.2 = <[m_channel sta.1 := ca']> (n_channels sta.2) /\
    m_outstanding_subscribes sta'.1 = wrap 16 (m_outstanding_subscribes sta.1 + 1) /\
    on_receive now' (subscribe_frame now fqn q type_id) stb
    = (messages (attach_for_fanout now' (msg_peer stb.1) fqn (arriving_type type_id) (wire_part q)) ;; mret tt) stb.
Proof.
  intros [Hn Hs] Hi Hcnt Hz Hc Hl Hq Ht Hnow Htorn.
  assert (zlen fqn <= 2 ^ 60) as Hlen by (unfold k_max_fqn, zlen in *; lia).
  destruct (attach_run (lend_messages sta.2) now (msg_peer sta.1) fqn q type_id ca (no_messages _ _ Hn) Hcnt Hz Hc Hlen)
    as (f' & ca' & Hrun & Hsend & Hch & _).
  eexists _, _, ca'. split; [|split; [exact Hsend|split; [|split] ] ].
  - unfold subscribe, this. rewrite bind_gets. unfold messages.
    rewrite (bind_run _ _ sta true (map Msg [QosChange edge_accepted (fqn_topic_hash fqn) q compatible type_id;
                       DemandTransition (p_node_name (msg_peer sta.1)) fqn demand_up role_subscriber]) (sta.1, return_messages f' sta.2)).
    2:{ unfold zoom. by rewrite Hrun. }
    reflexivity.
  - exact Hch.
  - done.
  - unfold subscribe_frame. rewrite receive_control; [|done|split; by vm_compute| |done].
    2:{ unfold subscribe_request_of. by case_decide; apply length_subscribe_bound. }
    unfold dispatch. cbv zeta. cbn [fh_type]. change (msg_subscribe =? msg_unidirectional) with false. change (msg_subscribe =? msg_subscribe) with true.
    cbv iota. unfold consume_subscribe. rewrite decode_subscribe_request_layout by (by apply subscribe_request_of_ok).
    cbn [decoded]. destruct (arriving_request fqn type_id q) as (-> & -> & ->). unfold this. by rewrite bind_gets.
Qed.

(** ** A publication *)

(** The account of a message that the handler that wants one gets. *)
Definition expected_info (s : session) (now' now sequence : Z) (counter : option Z) : option message_info :=
  match seam_of s with
  | seam_with_info | seam_route =>
      Some (MessageInfo (option_map (fun c => (cx_peer_id (m_ctx s), c)) counter) sequence now now' (m_from_intra_process s))
  | seam_message | seam_none => None
  end.

(** Delivery inside the forwarder: the registry names the topic. *)
Lemma deliver_known (f : message_forwarder C) source inner info hsi sequence fqn counter payload e :
  registry_ok (registry_of f) -> m_topics (registry_of f) !! fqn_topic_hash fqn = Some e -> e_fqn e = fqn -> fqn <> [] ->
  decode_unidirectional inner hsi
  = Some (UnidirectionalDecodeResult (UnidirectionalHeader src_publisher sequence (fqn_topic_hash fqn)) counter payload) ->
  exists f', deliver source inner info hsi f
    = Some (tt, [StampReceived source (fqn_topic_hash fqn);
                 OnMessage fqn payload (option_map (fun i =>
                   MessageInfo (match counter with Some c => Some (source, c) | None => mi_source_identity i end)
                     sequence (mi_source_timestamp i) (mi_reception_timestamp i) (mi_from_intra_process i)) info)], f') /\
    f_channels f' = f_channels f /\ m_topics (registry_of f') = m_topics (registry_of f).
Proof.
  intros Hr He Hfqn Hne Hdec. unfold deliver. rewrite Hdec. cbv zeta. cbn [ud_header uh_topic_hash uh_sequence ud_data ud_endpoint_counter].
  rewrite bind_gets. destruct (fqn_for_spec (registry_of f) (fqn_topic_hash fqn) Hr) as (r' & -> & _ & Ht & _).
  rewrite He, Hfqn, bind_lift. unfold on_registry. rewrite bind_modify. destruct fqn as [|b fqn]; [done|].
  eexists. split; [by destruct info|]. by split.
Qed.

(** C37: a publication reaches the application.  The frame a publisher's fan-out puts on the
    channel, received by a session that knows the topic and serves that epoch, is one message:
    the handler the session has gets the name, exactly the payload, and, if it wants one, an
    account with the publisher's sequence number, timestamp and, when the frame carries a
    counter, its identity.  Nothing is sent and no topic changes. *)
Theorem publication_reaches_the_application (st : state) (now' now sequence session_id : Z) (counter : option Z)
    (fqn payload : bytes) (e : topic_entry) :
  ok st -> m_torn_down st.1 = false ->
  m_topics (registry_of (n_messages st.2)) !! fqn_topic_hash fqn = Some e -> e_fqn e = fqn -> fqn <> [] ->
  session_id = 0 \/ m_peer_session_id st.1 = 0 \/ session_id = m_peer_session_id st.1 ->
  in_width 64 now -> in_width 64 sequence -> in_width 64 session_id ->
  (match counter with Some c => in_width 64 c | None => True end) -> zlen payload <= 2 ^ 61 ->
  exists st', on_receive now' (publication now sequence (fqn_topic_hash fqn) counter session_id payload) st
    = Some (tt, [Msg (StampReceived (cx_peer_id (m_ctx st.1)) (fqn_topic_hash fqn));
                 Received (seam_of st.1) fqn payload (expected_info st.1 now' now sequence counter)], st') /\
    n_channels st'.2 = n_channels st.2 /\
    m_topics (registry_of (n_messages st'.2)) = m_topics (registry_of (n_messages st.2)).
Proof.
  intros [Hn Hs] Htorn He Hfqn Hne Hep H1 H2 H3 H4 H5.
  destruct (publication_carries now sequence (fqn_topic_hash fqn) counter session_id payload H1 H2 (topic_hash_width _) H3 H4 H5)
    as (len & Hh & Hdec). set (frame := publication _ _ _ _ _ _) in *.
  pose (s1 := if negb (session_id =? 0) && (m_peer_session_id st.1 =? 0) then set_peer_session_id st.1 session_id else st.1).
  set (info := match seam_of st.1 with seam_with_info | seam_route => Some (MessageInfo None 0 now now' (m_from_intra_process st.1)) | _ => None end).
  destruct (deliver_known (lend_messages st.2) (cx_peer_id (m_ctx st.1)) (drop header_size frame) info _ sequence fqn counter payload e
              (fo_registry _ (no_messages _ _ Hn)) He Hfqn Hne Hdec) as (f' & Hrun & Hch & Ht).
  exists (s1, return_messages f' st.2). split; [|by split].
  unfold on_receive, this. rewrite bind_gets, Htorn, Hh. unfold with_payload_len. cbn [fh_session_id publication_header].
  replace (negb (session_id =? 0) && negb (m_peer_session_id st.1 =? 0) && negb (session_id =? m_peer_session_id st.1)) with false
    by (destruct (Z.eqb_spec session_id 0), (Z.eqb_spec (m_peer_session_id st.1) 0), (Z.eqb_spec session_id (m_peer_session_id st.1)); naive_solver).
  assert (route now' frame (s1, st.2) = Some (tt, [Msg (StampReceived (cx_peer_id (m_ctx st.1)) (fqn_topic_hash fqn));
            Received (seam_of st.1) fqn payload (expected_info st.1 now' now sequence counter)], (s1, return_messages f' st.2))) as Hroute.
  { unfold route. rewrite Hh. unfold dispatch, with_payload_len. cbn [fh_type publication_header]. cbv zeta.
    change (msg_unidirectional =? msg_unidirectional) with true. cbv iota.
    unfold deliver_session_data, this. rewrite bind_gets. cbn [fst snd].
    assert (seam_of s1 = seam_of st.1 /\ m_ctx s1 = m_ctx st.1 /\ m_from_intra_process s1 = m_from_intra_process st.1) as (-> & -> & Hi)
      by (unfold s1; by destruct (negb _ && _)).
    unfold assemble_message_info. rewrite Hi. cbn [fh_flags fh_timestamp_ns publication_header].
    replace (negb (Z.land _ _ =? 0)) with (bool_decide (is_Some counter)) by (destruct counter; reflexivity).
    fold info. unfold zoom. cbn [fst snd]. rewrite Hrun. unfold expected_info, info. destruct (seam_of st.1), counter; reflexivity. }
  unfold s1 in *. destruct (negb (session_id =? 0) && (m_peer_session_id st.1 =? 0)).
  - unfold update. rewrite bind_modify. exact Hroute.
  - rewrite bind_ret. destruct st. exact Hroute.
Qed.

(** ** What the session does not do *)

(** An unsubscribe is dropped.  No consumer is registered for it, so the frame that a peer's
    [unsubscribe] sends is only warned about: whatever it names, the fan-out stays as it was. *)
Theorem unsubscribe_is_dropped (st : state) (now' now : Z) (body : bytes) :
  m_torn_down st.1 = false -> in_width 64 now -> zlen body <= 2 ^ 61 ->
  on_receive now' (control_bytes now msg_unsubscribe body) st = Some (tt, [WarnNoConsumer], st).
Proof. intros Ht Hn Hl. rewrite receive_control; [|done|split; by vm_compute|done|done]. reflexivity. Qed.

(** A refusal for want of a declared type is not surfaced.  The response is counted, and no
    event tells the application that its subscription was refused. *)
Theorem undeclared_type_refusal_is_silent (st : state) (resp : subscribe_response) :
  sp_status resp = sub_type_undeclared -> surface_subscribe_outcome resp st = Some (tt, [], st).
Proof. intros E. unfold surface_subscribe_outcome, is_refusal. by rewrite E. Qed.

(** A message refused for its size is taken for a lost connection.  The error the channel
    reports while it stays open makes an established session report a drop of the transport. *)
Theorem oversize_send_drops_transport (st : state) :
  m_torn_down st.1 = false -> m_closed_for_protocol_error st.1 = false ->
  on_error message_too_large st = Some (tt, [TransportDrop], st).
Proof. intros H1 H2. unfold on_error. rewrite decide_False by done. unfold this. by rewrite bind_gets, H1, H2. Qed.

End Link.

#[local] Existing Instance nothing_condemned.
#[local] Existing Instance nobody_else.

(** ** Witnesses *)

Definition established : session := set_installed sample_session true.

Lemma established_ok : ok (established, sample_node).
Proof.
  split; [exact sample_node_ok|]. split; [|by intros p k m x Hp|done].
  unfold handshake_request_ok. cbn. split_and!; try done; split; by vm_compute.
Qed.

Lemma subscription_travels_witness :
  exists evs sta', subscribe (host := little) 3 [Byte.x61] subscriber_qos_default (Some 9) (established, sample_node) = Some (tt, evs, sta') /\
    m_outstanding_subscribes sta'.1 = 1 /\
    on_receive (host := little) 4 (subscribe_frame 3 [Byte.x61] subscriber_qos_default (Some 9)) (sample_session, sample_node)
    = (messages (attach_for_fanout (host := little) 4 (msg_peer sample_session) [Byte.x61] (Some 9) (wire_part subscriber_qos_default)) ;; mret tt)
        (sample_session, sample_node).
Proof.
  assert (exists c, n_channels sample_node !! 1 = Some c) as [c Hc] by (eexists; reflexivity).
  destruct (subscription_travels (host := little) (established, sample_node) (sample_session, sample_node) 3 4 [Byte.x61]
              subscriber_qos_default (Some 9) c) as (evs & sta' & ca' & Hrun & _ & _ & Ho & Hr).
  - exact established_ok.
  - reflexivity.
  - apply Refcount.ok_empty.
  - reflexivity.
  - exact Hc.
  - unfold k_max_fqn. cbn. lia.
  - by vm_compute.
  - intros t [= <-]. split; by vm_compute.
  - split; by vm_compute.
  - reflexivity.
  - exists evs, sta'. split; [exact Hrun|]. split; [exact Ho|exact Hr].
Defined.

(** A node that knows a topic. *)
Definition subscribed_node : node peer_stream := Node sample_forwarder sample_caller sample_channels.

Lemma subscribed_ok : ok (sample_session, subscribed_node).
Proof.
  destruct sample_state_ok as [[Hm Hp Hc Hb] Hs]. split; [|exact Hs]. split; [|exact Hp|exact Hc|exact Hb].
  destruct Hm as [H1 H2 H3 _ _ _ _]. split; [exact H1|exact H2|exact H3|exact sample_registry_ok| |done|by intros n d Hd; apply elem_of_nil in Hd].
  assert (map_Forall (fun _ e => Forall (fun s => s_channel s = 1) (e_subscribers e)) (m_topics (registry_of sample_forwarder))) as Hone
    by (apply (bool_decide_unpack _); vm_compute; exact I).
  intros h e s He Hin. specialize (Hone h e He). rewrite Forall_forall in Hone. rewrite (Hone s Hin). exact Hc.
Qed.

Lemma publication_reaches_the_application_witness :
  exists st', on_receive (host := little) 9 (publication 3 1 (fqn_topic_hash sample_topic) None 5 [Byte.x2a]) (sample_session, subscribed_node)
    = Some (tt, [Msg (StampReceived (Fsm.node 2) (fqn_topic_hash sample_topic)); Received seam_message sample_topic [Byte.x2a] None], st').
Proof.
  assert (exists e, m_topics (registry_of sample_forwarder) !! fqn_topic_hash sample_topic = Some e /\ e_fqn e = sample_topic)
    as (e & He & Hf) by (vm_compute; eexists; split; reflexivity).
  destruct (publication_reaches_the_application (host := little) (sample_session, subscribed_node) 9 3 1 5 None sample_topic [Byte.x2a] e)
    as (st' & Hrun & _).
  - exact subscribed_ok.
  - reflexivity.
  - exact He.
  - exact Hf.
  - discriminate.
  - right. left. reflexivity.
  - split; by vm_compute.
  - split; by vm_compute.
  - split; by vm_compute.
  - exact I.
  - by vm_compute.
  - exists st'. exact Hrun.
Defined.

Lemma unsubscribe_is_dropped_witness :
  on_receive (host := little) 9 (control_bytes 3 msg_unsubscribe [Byte.x01]) (sample_session, sample_node)
  = Some (tt, [WarnNoConsumer], (sample_session, sample_node)).
Proof. apply (unsubscribe_is_dropped (host := little)); [reflexivity|split; by vm_compute|by vm_compute]. Defined.

Definition subscribers_after (r : option (unit * list session_event * (session * node peer_stream))) : list (list Z) :=
  match r with
  | Some (_, _, st) => map (fun e => map s_channel (e_subscribers e.2)) (map_to_list (m_topics (registry_of (n_messages st.2))))
  | None => []
  end.

(** A session serves its peer before the handshake is complete.  A subscription that arrives
    first, from a peer nobody has admitted, is put in the fan-out and answered. *)
Theorem served_before_the_handshake :
  m_forwarders_installed sample_session = false /\ Fsm.m_complete_emitted (m_fsm sample_session) = false /\
  subscribers_after (on_receive (host := little) 9 (subscribe_frame 3 sample_topic subscriber_qos_default None) (sample_session, sample_node))
  = [[1] ].
Proof. by vm_compute. Qed.

(** A subscription made before the handshake is complete can be reported ready by its answer, before
    the peer is connected. *)
Theorem early_subscription_is_ready_before_connected :
  match s_operate (host := little) (SSubscribe 4 sample_topic subscriber_qos_default None) (sample_session, sample_node) with
  | Some (_, _, st) => edges_of (s_operate (host := little) (SReceive 5 (control_bytes 3 msg_subscribe_response (zero_bytes subscribe_response_size))) st)
  | None => []
  end = [edge_ready].
Proof. by vm_compute. Qed.

(** A request of a peer whose version is not compatible. *)
Definition outdated : bytes :=
  let r := Fsm.hello 2 in
  control_bytes 3 msg_handshake_req (handshake_layout
    (HandshakeRequest (hs_id r) 0 (hs_version_minor r) 0 (hs_compatible_version_minor r) (hs_protocol_version r) (hs_fingerprint r)
       (hs_key_id r) (hs_own_nonce r) (hs_cipher_offer r) (hs_chosen_cipher r) (hs_proof r))).

(** An aborted handshake is not always a session that was never up.  A second request that is
    not admissible aborts an established session, which then reports [rejected] and
    [disconnected]. *)
Theorem abort_of_an_established_session :
  edges_of ((on_receive (host := little) 4 greeting ;; on_receive (host := little) 5 outdated) (sample_session, sample_node))
  = [edge_connected; edge_ready; edge_rejected; edge_disconnected].
Proof. by vm_compute. Qed.
