(* ===== verification/UdpChannel.v ===== *)
(** * The UDP channel

    Models [backends/plexus-asio/include/plexus/asio/udp_channel.h] and the operations of
    [backends/plexus-asio/include/plexus/asio/detail/udp_channel_io.h]: the per-peer
    facade that composes the envelope codec, the dedup window, the ARQ, the splitter,
    the fragment reassembler and the parking queue.

    An operation is a computation [chan] with the channel as its state; [None] is an
    access out of bounds below it.  What the channel asks of the socket, the executor,
    its timers and its callbacks is the list of events.  All callbacks are taken to be
    set; the clock is an argument. *)

From S2P Require Import Prelude EventMonad ByteOrder Varint Cursor Frame UdpWire ReorderBuffer DedupWindow ReliableArq Fragmentation SendQueue Egress DatagramReassembler.

(** ** Data *)

Inductive io_error : Type :=
| err_connection_refused | err_broken_pipe | err_connection_reset | err_timed_out | err_address_in_use
| err_operation_aborted | err_message_too_large | err_would_block | err_unknown.

Inductive channel_event : Type :=
| SendTo (datagram : bytes)
| SendStandaloneTo (datagram : bytes)
| PostData (frame : bytes)
| PostClosed
| OnTeardown
| OnError (e : io_error)
| OnDropCause (cause : Egress.drop_cause)
| OnReliableSegment (seq : Z) (payload : bytes)
| ArmRetransmit (seq ms : Z)
| CancelRetransmit (slot : nat)
| ArmReassembly (msg_id ms : Z)
| CancelReassembly (msg_id : Z).

(** The constant members. *)
Record channel_params : Type := ChannelParams {
  p_max_payload : Z;
  p_max_message_bytes : Z;
  p_reassembly_budget : Z;
  p_reassembly_timeout : Z;
  p_arq_cfg : udp_arq_config;
  p_congestion : congestion;
  p_mode : udp_channel_mode;
  p_initial_seq : Z;
}.

Record udp_channel : Type := UdpChannel {
  c_params : channel_params;
  c_backpressure : ParkQueue.udp_backpressure_queue;
  c_dropped : Z;
  c_out_seq : Z;
  c_out_msg_id : Z;
  c_dedup : Dedup.udp_dedup_window;
  c_send_scratch : bytes;
  c_ack_scratch : bytes;
  c_arq_inner : bytes;
  c_frag_scratch : bytes;
  c_arq : option udp_reliable_arq;
  c_reassembler : option reassembler;
  c_open : bool;
}.

Definition default_max_payload : Z := 1200.
Definition default_backpressure_bytes : Z := 1 * max_message_size.

Definition udp_channel_new (p : channel_params) (backpressure_bytes : Z) : udp_channel :=
  UdpChannel p (ParkQueue.udp_backpressure_queue_new (Z.max backpressure_bytes (p_max_message_bytes p)))
    0 0 0 (Dedup.udp_dedup_window_new Dedup.depth_max) [] [] [] [] None None true.

(** ** Member updates *)

Definition set_backpressure (c : udp_channel) q : udp_channel :=
  UdpChannel (c_params c) q (c_dropped c) (c_out_seq c) (c_out_msg_id c) (c_dedup c) (c_send_scratch c)
    (c_ack_scratch c) (c_arq_inner c) (c_frag_scratch c) (c_arq c) (c_reassembler c) (c_open c).
Definition set_dropped (c : udp_channel) n : udp_channel :=
  UdpChannel (c_params c) (c_backpressure c) n (c_out_seq c) (c_out_msg_id c) (c_dedup c) (c_send_scratch c)
    (c_ack_scratch c) (c_arq_inner c) (c_frag_scratch c) (c_arq c) (c_reassembler c) (c_open c).
Definition set_out_seq (c : udp_channel) n : udp_channel :=
  UdpChannel (c_params c) (c_backpressure c) (c_dropped c) n (c_out_msg_id c) (c_dedup c) (c_send_scratch c)
    (c_ack_scratch c) (c_arq_inner c) (c_frag_scratch c) (c_arq c) (c_reassembler c) (c_open c).
Definition set_out_msg_id (c : udp_channel) n : udp_channel :=
  UdpChannel (c_params c) (c_backpressure c) (c_dropped c) (c_out_seq c) n (c_dedup c) (c_send_scratch c)
    (c_ack_scratch c) (c_arq_inner c) (c_frag_scratch c) (c_arq c) (c_reassembler c) (c_open c).
Definition set_dedup (c : udp_channel) w : udp_channel :=
  UdpChannel (c_params c) (c_backpressure c) (c_dropped c) (c_out_seq c) (c_out_msg_id c) w (c_send_scratch c)
    (c_ack_scratch c) (c_arq_inner c) (c_frag_scratch c) (c_arq c) (c_reassembler c) (c_open c).
Definition set_send_scratch (c : udp_channel) b : udp_channel :=
  UdpChannel (c_params c) (c_backpressure c) (c_dropped c) (c_out_seq c) (c_out_msg_id c) (c_dedup c) b
    (c_ack_scratch c) (c_arq_inner c) (c_frag_scratch c) (c_arq c) (c_reassembler c) (c_open c).
Definition set_ack_scratch (c : udp_channel) b : udp_channel :=
  UdpChannel (c_params c) (c_backpressure c) (c_dropped c) (c_out_seq c) (c_out_msg_id c) (c_dedup c)
    (c_send_scratch c) b (c_arq_inner c) (c_frag_scratch c) (c_arq c) (c_reassembler c) (c_open c).
Definition set_arq_inner (c : udp_channel) b : udp_channel :=
  UdpChannel (c_params c) (c_backpressure c) (c_dropped c) (c_out_seq c) (c_out_msg_id c) (c_dedup c)
    (c_send_scratch c) (c_ack_scratch c) b (c_frag_scratch c) (c_arq c) (c_reassembler c) (c_open c).
Definition set_frag_scratch (c : udp_channel) b : udp_channel :=
  UdpChannel (c_params c) (c_backpressure c) (c_dropped c) (c_out_seq c) (c_out_msg_id c) (c_dedup c)
    (c_send_scratch c) (c_ack_scratch c) (c_arq_inner c) b (c_arq c) (c_reassembler c) (c_open c).
Definition set_arq (c : udp_channel) a : udp_channel :=
  UdpChannel (c_params c) (c_backpressure c) (c_dropped c) (c_out_seq c) (c_out_msg_id c) (c_dedup c)
    (c_send_scratch c) (c_ack_scratch c) (c_arq_inner c) (c_frag_scratch c) a (c_reassembler c) (c_open c).
Definition set_reassembler (c : udp_channel) r : udp_channel :=
  UdpChannel (c_params c) (c_backpressure c) (c_dropped c) (c_out_seq c) (c_out_msg_id c) (c_dedup c)
    (c_send_scratch c) (c_ack_scratch c) (c_arq_inner c) (c_frag_scratch c) (c_arq c) r (c_open c).
Definition set_closed (c : udp_channel) : udp_channel :=
  UdpChannel (c_params c) (c_backpressure c) (c_dropped c) (c_out_seq c) (c_out_msg_id c) (c_dedup c)
    (c_send_scratch c) (c_ack_scratch c) (c_arq_inner c) (c_frag_scratch c) (c_arq c) (c_reassembler c) false.

(** ** The monad *)

Abbreviation chan := (prog udp_channel channel_event).

Section Channel.
Context {host : Host} (sizeof_vector : Z).

(** ** [udp_channel_io.h] *)

Definition reject_oversize : chan unit := emit (OnError err_message_too_large).

Definition exceeds_max_message (c : udp_channel) (size : Z) : bool := size >? p_max_message_bytes (c_params c).

(** [c.m_out_seq++] and [c.m_out_msg_id++]. *)
Definition next_out_seq : chan Z :=
  n ← gets c_out_seq; modify (fun c => set_out_seq c (wrap 16 (n + 1))) ;; mret n.
Definition next_out_msg_id : chan Z :=
  n ← gets c_out_msg_id; modify (fun c => set_out_msg_id c (wrap 16 (n + 1))) ;; mret n.

Definition send_best_effort_large (frame : bytes) : chan unit :=
  over ← gets (fun c => exceeds_max_message c (zlen frame));
  if (over : bool) then reject_oversize else
  msg_id ← next_out_msg_id;
  max_payload ← gets (fun c => p_max_payload (c_params c));
  each (fun f =>
    seq ← next_out_seq;
    out ← gets c_frag_scratch;
    out ← lift (wrap_udp_fragment_into out kind_best_effort seq msg_id (f_idx f) (f_cnt f) (f_slice f));
    modify (fun c => set_frag_scratch c out) ;;
    emit (SendTo out)) (split frame max_payload false).1.

Definition post_on_data (frame : bytes) : chan unit := emit (PostData frame).
Definition post_on_data_owned (owned : bytes) : chan unit := emit (PostData owned).

Definition ensure_reassembler : chan reassembler :=
  o ← gets c_reassembler;
  match o with
  | Some r => mret r
  | None =>
      p ← gets c_params;
      let r := reassembler_new sizeof_vector
                 (Config (p_max_message_bytes p) (p_reassembly_budget p) (p_reassembly_timeout p)) in
      modify (fun c => set_reassembler c (Some r)) ;; mret r
  end.

(** The callbacks and the timers of the reassembler. *)
Definition reassembler_callback (ev : DatagramReassembler.event) : chan unit :=
  match ev with
  | DatagramReassembler.OnDeliver msg => post_on_data_owned msg
  | DatagramReassembler.OnDrop cause_malformed => emit (OnDropCause dc_malformed)
  | DatagramReassembler.OnDrop cause_reassembly_cap => emit (OnDropCause dc_reassembly_cap)
  | DatagramReassembler.OnDrop cause_reassembly_evicted => emit (OnDropCause dc_reassembly_evicted)
  | DatagramReassembler.ArmTimeout msg_id ms => emit (ArmReassembly msg_id ms)
  | DatagramReassembler.CancelTimer msg_id => emit (CancelReassembly msg_id)
  end.

(** The body [feed_fragment] and [deliver_reliable_inorder] share. *)
Definition feed_fragment (frame : bytes) : chan unit :=
  r ← ensure_reassembler;
  match decode_udp_fragment_header frame with
  | None => mret tt
  | Some h =>
      '(_, evs, r) ← lift (DatagramReassembler.feed sizeof_vector r (uf_msg_id h) (uf_frag_idx h)
                             (uf_frag_cnt h) (uf_payload h));
      modify (fun c => set_reassembler c (Some r)) ;;
      each reassembler_callback evs
  end.

Definition deliver_reliable_inorder (fragmented : bool) (payload : bytes) : chan unit :=
  if negb fragmented then post_on_data payload else feed_fragment payload.

Definition on_window_full (payload : bytes) (fragmented : bool) : chan submit_result :=
  cg ← gets (fun c => p_congestion (c_params c));
  match cg with
  | drop_newest =>
      modify (fun c => set_dropped c (wrap 64 (c_dropped c + 1))) ;;
      emit (OnDropCause dc_arq_shed) ;;
      mret window_full
  | _ =>
      q ← gets c_backpressure;
      let '(ok, q) := ParkQueue.park q payload fragmented in
      modify (fun c => set_backpressure c q) ;;
      if (ok : bool) then mret ReliableArq.admitted
      else emit (OnError err_would_block) ;; mret window_full
  end.

(** The callbacks [ensure_arq] installs, all but the one for a window advance, and the
    timers of the ARQ.  None of them calls back into the ARQ. *)
Definition arq_callback (ev : arq_event) : chan unit :=
  match ev with
  | Transmit seq payload fragmented =>
      inner ← gets c_arq_inner;
      inner ← lift (encode_udp_segment_into inner payload);
      modify (fun c => set_arq_inner c inner) ;;
      out ← gets c_send_scratch;
      out ← lift ((if (fragmented : bool) then wrap_udp_into_fragmented else wrap_udp_into)
                    out kind_reliable_arq seq inner);
      modify (fun c => set_send_scratch c out) ;;
      emit (SendTo out)
  | SendAck ack =>
      inner ← gets c_arq_inner;
      inner ← lift (encode_udp_ack_into inner ack);
      modify (fun c => set_arq_inner c inner) ;;
      out ← gets c_ack_scratch;
      out ← lift (wrap_udp_into out kind_reliable_arq 0 inner);
      modify (fun c => set_ack_scratch c out) ;;
      emit (SendTo out)
  | Deliver (_, fragmented, payload) => deliver_reliable_inorder fragmented payload
  | OnExhausted => emit (OnError err_timed_out)
  | ArmTimer seq ms => emit (ArmRetransmit seq ms)
  | ReliableArq.CancelTimer slot => emit (CancelRetransmit slot)
  | OnWindowAdvance => mret tt
  end.

(** [c.m_arq->submit(...)]; [submit] never advances the window. *)
Definition arq_submit (now : Z) (payload : bytes) (fragmented : bool) : chan submit_result :=
  o ← gets c_arq;
  a ← lift o;
  '(res, evs, a) ← lift (ReliableArq.submit a now payload fragmented);
  modify (fun c => set_arq c (Some a)) ;;
  each arq_callback evs ;;
  mret res.

Definition ensure_arq : chan unit :=
  o ← gets c_arq;
  match o with
  | Some _ => mret tt
  | None =>
      p ← gets c_params;
      modify (fun c => set_arq c (Some (udp_reliable_arq_new (p_arq_cfg p) (p_initial_seq p))))
  end.

Definition submit_reliable_fragment (now msg_id : Z) (f : fragment) : chan submit_result :=
  out ← gets c_frag_scratch;
  out ← lift (encode_udp_fragment_payload_into out msg_id (f_idx f) (f_cnt f) (f_slice f));
  modify (fun c => set_frag_scratch c out) ;;
  r ← arq_submit now out true;
  match r with
  | ReliableArq.admitted => mret r
  | window_full => on_window_full out true
  end.

(** The sink of the splitter, which keeps the result of the last call. *)
Fixpoint submit_fragments (now msg_id : Z) (last : submit_result) (fs : list fragment) : chan submit_result :=
  match fs with
  | [] => mret last
  | f :: fs => r ← submit_reliable_fragment now msg_id f; submit_fragments now msg_id r fs
  end.

Definition send_reliable_large (now : Z) (payload : bytes) : chan submit_result :=
  over ← gets (fun c => exceeds_max_message c (zlen payload));
  if (over : bool) then reject_oversize ;; mret window_full else
  ensure_arq ;;
  msg_id ← next_out_msg_id;
  max_payload ← gets (fun c => p_max_payload (c_params c));
  submit_fragments now msg_id ReliableArq.admitted (split payload max_payload false).1.

(** The [while]; [None] also for an exhausted bound. *)
Fixpoint drain_loop (fuel : nat) (now : Z) : chan unit :=
  match fuel with
  | O => lift None
  | S fuel =>
      q ← gets c_backpressure;
      o ← gets c_arq;
      match o with
      | None => mret tt
      | Some a =>
          if ParkQueue.empty q || negb (window_has_room a) then mret tt else
          front ← lift (ParkQueue.front q);
          frag ← lift (ParkQueue.front_fragmented q);
          r ← arq_submit now front frag;
          match r with
          | window_full => mret tt
          | ReliableArq.admitted =>
              q ← gets c_backpressure;
              q ← lift (ParkQueue.pop_front q);
              modify (fun c => set_backpressure c q) ;;
              drain_loop fuel now
          end
      end
  end.

Definition drain_backpressure (now : Z) : chan unit :=
  n ← gets (fun c => ParkQueue.size (c_backpressure c));
  drain_loop (S n) now.

(** A callback of the ARQ; the one for a window advance submits to the ARQ again. *)
Definition arq_event_callback (now : Z) (ev : arq_event) : chan unit :=
  match ev with OnWindowAdvance => drain_backpressure now | _ => arq_callback ev end.

(** A call of an operation of the ARQ whose callbacks run when its state is settled. *)
Definition arq_call (now : Z) (op : udp_reliable_arq -> option (list arq_event * udp_reliable_arq)) : chan unit :=
  o ← gets c_arq;
  a ← lift o;
  '(evs, a) ← lift (op a);
  modify (fun c => set_arq c (Some a)) ;;
  each (arq_event_callback now) evs.

(** [c.m_arq->on_ack(ack)]: the window-advance callback is the last thing [slide_to]
    does, so the parked frames are submitted before the bitmap is read. *)
Definition arq_on_ack (now : Z) (ack : udp_ack) : chan unit :=
  arq_call now (fun a => slide_to a now (wrap 16 (ack_cumulative ack + 1))) ;;
  arq_call now (fun a => ack_holes a now ack (seq 0 ack_bitmap_bits)).

Definition deliver_reliable (now seq : Z) (fragmented : bool) (inner : bytes) : chan unit :=
  match peek_udp_arq_kind inner with
  | None => mret tt
  | Some arq_ack =>
      o ← gets c_arq;
      match decode_udp_ack inner, o with
      | Some ack, Some _ => arq_on_ack now ack
      | _, _ => mret tt
      end
  | Some arq_segment =>
      match decode_udp_segment inner with
      | None => mret tt
      | Some payload =>
          emit (OnReliableSegment seq payload) ;;
          ensure_arq ;;
          arq_call now (fun a => on_segment a seq fragmented payload)
      end
  end.

Definition deliver_inbound (now : Z) (datagram : bytes) : chan unit :=
  match unwrap_udp datagram with
  | None => mret tt
  | Some dec =>
      if ue_kind dec =? kind_best_effort then
        w ← gets c_dedup;
        let '(o, w) := Dedup.admit_seq w (ue_seq dec) in
        modify (fun c => set_dedup c w) ;;
        match o with
        | Dedup.fresh => if ue_fragmented dec then feed_fragment (ue_frame dec) else post_on_data (ue_frame dec)
        | _ => mret tt
        end
      else
        m ← gets (fun c => p_mode (c_params c));
        match m with
        | mode_reliable_datagram => deliver_reliable now (ue_seq dec) (ue_fragmented dec) (ue_frame dec)
        | mode_best_effort => mret tt
        end
  end.

(** ** [class udp_channel] *)

Definition send_reliable (now : Z) (payload : bytes) : chan submit_result :=
  open ← gets c_open;
  if negb open then mret window_full else
  max_payload ← gets (fun c => p_max_payload (c_params c));
  if zlen payload + Z.of_nat udp_envelope_overhead + 1 >? max_payload then send_reliable_large now payload else
  ensure_arq ;;
  r ← arq_submit now payload false;
  match r with
  | ReliableArq.admitted => mret r
  | window_full => on_window_full payload false
  end.

Definition send (now : Z) (frame : bytes) : chan unit :=
  m ← gets (fun c => p_mode (c_params c));
  match m with
  | mode_reliable_datagram => send_reliable now frame ;; mret tt
  | mode_best_effort =>
      open ← gets c_open;
      if negb open then mret tt else
      max_payload ← gets (fun c => p_max_payload (c_params c));
      if zlen frame + Z.of_nat udp_envelope_overhead >? max_payload then send_best_effort_large frame else
      seq ← next_out_seq;
      out ← gets c_send_scratch;
      out ← lift (wrap_udp_into out kind_best_effort seq frame);
      modify (fun c => set_send_scratch c out) ;;
      emit (SendStandaloneTo out)
  end.

Definition close : chan unit :=
  open ← gets c_open;
  if negb open then mret tt else modify set_closed ;; emit PostClosed.

(** The destructor. *)
Definition destroy : chan unit :=
  modify set_closed ;;
  r ← gets c_reassembler;
  match r with
  | None => mret tt
  | Some r =>
      let '(evs, r) := DatagramReassembler.cancel r in
      modify (fun c => set_reassembler c (Some r)) ;; each reassembler_callback evs
  end ;;
  a ← gets c_arq;
  match a with
  | None => mret tt
  | Some a =>
      let '(evs, a) := ReliableArq.cancel a in
      modify (fun c => set_arq c (Some a)) ;; each arq_callback evs
  end ;;
  emit OnTeardown.

(** The expiries of the retransmission timer of [seq] and of the reassembly of [msg_id]. *)
Definition on_retransmit_timer (now seq : Z) (ec : bool) : chan unit :=
  arq_call now (fun a => on_timer a seq ec).

Definition on_reassembly_timer (msg_id : Z) (ec : bool) : chan unit :=
  o ← gets c_reassembler;
  r ← lift o;
  let '(evs, r) := DatagramReassembler.on_timeout r msg_id ec in
  modify (fun c => set_reassembler c (Some r)) ;; each reassembler_callback evs.

Definition backpressured (c : udp_channel) : Z := ParkQueue.queued_bytes (c_backpressure c).
Definition write_queue_capacity (c : udp_channel) : Z := ParkQueue.capacity (c_backpressure c).
Definition dropped_count (c : udp_channel) : Z := c_dropped c.
Definition is_open (c : udp_channel) : bool := c_open c.

End Channel.

(** ** Running a computation *)

Section Lemmas.
Context {host : Host} (sizeof_vector : Z).

(** The channel without the contents of its scratch buffers, which no result depends on. *)
Definition norm (c : udp_channel) : udp_channel :=
  UdpChannel (c_params c) (c_backpressure c) (c_dropped c) (c_out_seq c) (c_out_msg_id c) (c_dedup c) [] [] [] []
    (c_arq c) (c_reassembler c) (c_open c).

(** The datagrams handed to the socket and the messages handed to the executor. *)
Definition datagrams (evs : list channel_event) : list bytes :=
  omap (fun ev => match ev with SendTo d | SendStandaloneTo d => Some d | _ => None end) evs.
Definition posted (evs : list channel_event) : list bytes :=
  omap (fun ev => match ev with PostData m => Some m | _ => None end) evs.

(** The events by which a send tells that it refused a frame. *)
Definition refusals (evs : list channel_event) : list channel_event :=
  List.filter (fun ev => match ev with
                    | OnError err_would_block | OnError err_message_too_large | OnDropCause dc_arq_shed => true
                    | _ => false end) evs.

Lemma datagrams_app a b : datagrams (a ++ b) = datagrams a ++ datagrams b.
Proof. apply omap_app. Qed.
Lemma posted_app a b : posted (a ++ b) = posted a ++ posted b.
Proof. apply omap_app. Qed.
Lemma refusals_app a b : refusals (a ++ b) = refusals a ++ refusals b.
Proof. apply List.filter_app. Qed.

(** ** The callbacks of the ARQ *)

Definition segment_datagram (seq : Z) (fragmented : bool) (payload : bytes) : bytes :=
  be_bytes 1 (pack_ver_flags kind_reliable_arq fragmented) ++ be_bytes 2 seq ++
  be_bytes 1 (arq_kind_code arq_segment) ++ payload.

Definition ack_datagram (a : udp_ack) : bytes :=
  be_bytes 1 (pack_ver_flags kind_reliable_arq false) ++ be_bytes 2 0 ++
  be_bytes 1 (arq_kind_code arq_ack) ++ be_bytes 2 (ack_cumulative a) ++ ack_selective a.

Lemma transmit_callback seq payload fragmented c :
  exists c', arq_callback sizeof_vector (Transmit seq payload fragmented) c
             = Some (tt, [SendTo (segment_datagram seq fragmented payload)], c') /\ norm c' = norm c.
Proof.
  cbn [arq_callback]. rewrite bind_gets, encode_udp_segment_into_layout, bind_lift, bind_modify, bind_gets.
  destruct fragmented; [rewrite wrap_udp_into_fragmented_layout|rewrite wrap_udp_into_layout];
    rewrite bind_lift, bind_modify; (eexists; split; [done|done]).
Qed.

Lemma send_ack_callback ack c :
  udp_ack_ok ack ->
  exists c', arq_callback sizeof_vector (SendAck ack) c = Some (tt, [SendTo (ack_datagram ack)], c') /\
             norm c' = norm c.
Proof.
  intros [Hl _]. cbn [arq_callback]. rewrite bind_gets, encode_udp_ack_into_layout, bind_lift, bind_modify, bind_gets by done.
  rewrite wrap_udp_into_layout, bind_lift, bind_modify. by eexists.
Qed.

(** The events of the sending half of the ARQ. *)
Definition sender_event (ev : arq_event) : Prop :=
  match ev with Transmit _ _ _ | ArmTimer _ _ | ReliableArq.CancelTimer _ | OnExhausted => True | _ => False end.

Lemma sender_events_run now evs c :
  Forall sender_event evs ->
  exists out c', each (arq_callback sizeof_vector) evs c = Some (tt, out, c') /\
    each (arq_event_callback sizeof_vector now) evs c = Some (tt, out, c') /\ norm c' = norm c /\
    datagrams out = map (fun s => segment_datagram s.1.1 s.1.2 s.2) (sent evs) /\
    posted out = [] /\ refusals out = [].
Proof.
  intros Hevs. revert c. induction Hevs as [|ev evs Hev Hevs IH]; intros c; cbn [each].
  { by exists [], c. }
  assert (exists o1 c1, arq_callback sizeof_vector ev c = Some (tt, o1, c1) /\
            arq_event_callback sizeof_vector now ev c = Some (tt, o1, c1) /\ norm c1 = norm c /\
            datagrams o1 = map (fun s => segment_datagram s.1.1 s.1.2 s.2) (sent [ev]) /\
            posted o1 = [] /\ refusals o1 = []) as (o1 & c1 & H1 & H1' & Hn1 & Hd1 & Hp1 & Hr1).
  { destruct ev as [seq payload frag| | | | | |]; try done.
    - destruct (transmit_callback seq payload frag c) as (c1 & H & Hn). eexists _, c1. by split_and!.
    - eexists _, _. by split_and!.
    - eexists _, _. by split_and!.
    - eexists _, _. by split_and!. }
  destruct (IH c1) as (o2 & c2 & H2 & H2' & Hn2 & Hd2 & Hp2 & Hr2).
  rewrite (bind_run_Some _ _ _ _ _ _ _ _ _ H1 H2), (bind_run_Some _ _ _ _ _ _ _ _ _ H1' H2').
  exists (o1 ++ o2), c2. split_and!; try done.
  - congruence.
  - change (ev :: evs) with ([ev] ++ evs). by rewrite datagrams_app, sent_app, map_app, Hd1, Hd2.
  - by rewrite posted_app, Hp1, Hp2.
  - by rewrite refusals_app, Hr1, Hr2.
Qed.

Lemma submit_events a now payload frag res evs a' :
  ReliableArq.submit a now payload frag = Some (res, evs, a') -> Forall sender_event evs.
Proof.
  unfold ReliableArq.submit. intros H. case_match; [by simplify_eq|].
  apply bind_Some in H as (? & _ & H). apply bind_Some in H as (armed & Ha & H). simplify_eq.
  unfold arm in Ha. apply bind_Some in Ha as (? & _ & Ha). simplify_eq. repeat constructor.
Qed.

Lemma on_timer_events a seq ec evs a' : on_timer a seq ec = Some (evs, a') -> Forall sender_event evs.
Proof.
  unfold on_timer, on_rto. intros H. case_match; [by simplify_eq|]. apply bind_Some in H as (s & _ & H).
  case_match; [by simplify_eq|]. case_match.
  - unfold exhausted in H. case_match; simplify_eq; repeat constructor.
  - apply bind_Some in H as (armed & Ha & H). simplify_eq.
    unfold arm in Ha. apply bind_Some in Ha as (? & _ & Ha). simplify_eq. repeat constructor.
Qed.

Definition cancels (evs : list arq_event) : Prop := Forall sender_event evs /\ sent evs = [].

Lemma cancels_app a b : cancels a -> cancels b -> cancels (a ++ b).
Proof. intros [? Ha] [? Hb]. split; [by apply Forall_app|]. by rewrite sent_app, Ha, Hb. Qed.

Lemma free_segment_events a now seq rtt evs a' :
  free_segment a now seq rtt = Some (evs, a') -> cancels evs.
Proof.
  unfold free_segment. intros H. apply bind_Some in H as (s & _ & H).
  case_match; simplify_eq; (split; [repeat constructor|done]).
Qed.

Lemma slide_loop_events fuel a now t evs a' : slide_loop fuel a now t = Some (evs, a') -> cancels evs.
Proof.
  revert a evs. induction fuel as [|fuel IH]; intros a evs H; [done|]. cbn [slide_loop] in H.
  case_match; [|simplify_eq; split; [constructor|done] ].
  apply bind_Some in H as ([evs1 a1] & H1 & H). apply bind_Some in H as ([evs2 a2] & H2 & H). simplify_eq.
  apply cancels_app; [by eapply free_segment_events|by eapply IH].
Qed.

Lemma slide_to_events a now t evs a' :
  slide_to a now t = Some (evs, a') ->
  exists evs0, cancels evs0 /\ evs = evs0 ++ if negb (m_base a' =? m_base a) then [OnWindowAdvance] else [].
Proof.
  unfold slide_to. intros H. apply bind_Some in H as ([evs1 a1] & H1 & H). simplify_eq.
  exists evs1. split; [by eapply slide_loop_events|done].
Qed.

Lemma ack_holes_events a now ack holes evs a' : ack_holes a now ack holes = Some (evs, a') -> cancels evs.
Proof.
  revert a evs. induction holes as [|i holes IH]; intros a evs H; cbn [ack_holes] in H.
  { simplify_eq. split; [constructor|done]. }
  case_match; [by eapply IH|].
  apply bind_Some in H as ([evs1 a1] & H1 & H). apply bind_Some in H as ([evs2 a2] & H2 & H). simplify_eq.
  apply cancels_app; [|by eapply IH]. unfold ack_hole in H1.
  case_match; [simplify_eq; split; [constructor|done]|by eapply free_segment_events].
Qed.

Lemma norm_set_arq c a : norm (set_arq c a) = set_arq (norm c) a.
Proof. done. Qed.

Lemma norm_arq c c' : norm c = norm c' -> c_arq c = c_arq c'.
Proof. intros H. by apply (f_equal c_arq) in H. Qed.

(** [arq_submit] and a call of another sending operation of the ARQ. *)
Lemma arq_submit_run now payload frag c a res evs a' :
  c_arq c = Some a -> ReliableArq.submit a now payload frag = Some (res, evs, a') ->
  exists out c', arq_submit sizeof_vector now payload frag c = Some (res, out, c') /\
    norm c' = set_arq (norm c) (Some a') /\
    datagrams out = map (fun s => segment_datagram s.1.1 s.1.2 s.2) (sent evs) /\ posted out = [] /\ refusals out = [].
Proof.
  intros Ha H. unfold arq_submit. rewrite bind_gets, Ha, bind_lift, H, bind_lift. cbn beta iota. rewrite bind_modify.
  destruct (sender_events_run now evs (set_arq c (Some a')) ltac:(by eapply submit_events))
    as (out & c' & Hr & _ & Hn & Hd & Hp & Href).
  rewrite (bind_run _ _ _ _ _ _ Hr). cbn. rewrite app_nil_r. by exists out, c'.
Qed.

Lemma arq_call_run now op c a evs a' :
  c_arq c = Some a -> op a = Some (evs, a') -> Forall sender_event evs ->
  exists out c', arq_call sizeof_vector now op c = Some (tt, out, c') /\
    norm c' = set_arq (norm c) (Some a') /\
    datagrams out = map (fun s => segment_datagram s.1.1 s.1.2 s.2) (sent evs) /\ posted out = [] /\ refusals out = [].
Proof.
  intros Ha H Hevs. unfold arq_call. rewrite bind_gets, Ha, bind_lift, H, bind_lift. cbn beta iota. rewrite bind_modify.
  destruct (sender_events_run now evs (set_arq c (Some a')) Hevs) as (out & c' & _ & Hr & Hn & Hd & Hp & Href).
  rewrite Hr. by exists out, c'.
Qed.

(** ** Delivery in order *)

Definition reassembly_config (p : channel_params) : config :=
  Config (p_max_message_bytes p) (p_reassembly_budget p) (p_reassembly_timeout p).

(** What one segment handed over by the ARQ delivers, from the reassembler alone. *)
Definition deliver_one (p : channel_params) (o : option reassembler) (seg : bool * bytes)
  : option (list bytes * option reassembler) :=
  if negb seg.1 then Some ([seg.2], o) else
  let r := default (reassembler_new sizeof_vector (reassembly_config p)) o in
  match decode_udp_fragment_header seg.2 with
  | None => Some ([], Some r)
  | Some h =>
      '(_, evs, r) ← DatagramReassembler.feed sizeof_vector r (uf_msg_id h) (uf_frag_idx h) (uf_frag_cnt h)
                       (uf_payload h);
      Some (DatagramReassembler.delivered evs, Some r)
  end.

Fixpoint deliver_all (p : channel_params) (o : option reassembler) (segs : list (bool * bytes))
  : option (list bytes * option reassembler) :=
  match segs with
  | [] => Some ([], o)
  | seg :: segs =>
      '(ms, o) ← deliver_one p o seg;
      '(ms', o) ← deliver_all p o segs;
      Some (ms ++ ms', o)
  end.

Lemma deliver_all_app p o l l' :
  deliver_all p o (l ++ l') =
  '(ms, o) ← deliver_all p o l; '(ms', o) ← deliver_all p o l'; Some (ms ++ ms', o).
Proof.
  revert o. induction l as [|seg l IH]; intros o; cbn [deliver_all app mbind option_bind].
  { by destruct (deliver_all p o l') as [ [? ?]|]. }
  destruct (deliver_one p o seg) as [ [ms o1]|]; [|done]. cbn [mbind option_bind]. rewrite IH.
  destruct (deliver_all p o1 l) as [ [ms1 o2]|]; [|done]. cbn [mbind option_bind].
  destruct (deliver_all p o2 l') as [ [ms2 o3]|]; [|done]. cbn. by rewrite app_assoc.
Qed.

Lemma reassembler_callbacks_run evs c :
  exists out, each reassembler_callback evs c = Some (tt, out, c) /\
    posted out = DatagramReassembler.delivered evs /\ datagrams out = [].
Proof.
  induction evs as [|ev evs (out & H & Hp & Hd)]; [by exists []|]. cbn [each].
  assert (exists e, reassembler_callback ev c = Some (tt, [e], c) /\
            posted [e] = DatagramReassembler.delivered [ev] /\ datagrams [e] = []) as (e & H1 & Hp1 & Hd1).
  { destruct ev as [msg|cause|id ms|id]; [by eexists| |by eexists|by eexists].
    destruct cause; by eexists. }
  rewrite (bind_run_Some _ _ _ _ _ _ _ _ _ H1 H). exists ([e] ++ out). split; [done|]. split.
  - rewrite posted_app, Hp1, Hp. change (ev :: evs) with ([ev] ++ evs). unfold DatagramReassembler.delivered.
    by rewrite omap_app.
  - by rewrite datagrams_app, Hd1, Hd.
Qed.

Lemma deliver_inorder_run frag payload c ms o :
  deliver_one (c_params c) (c_reassembler c) (frag, payload) = Some (ms, o) ->
  exists out c', deliver_reliable_inorder sizeof_vector frag payload c = Some (tt, out, c') /\
    posted out = ms /\ datagrams out = [] /\ norm c' = set_reassembler (norm c) o.
Proof.
  unfold deliver_one, deliver_reliable_inorder. cbn [fst snd]. destruct frag; cbn [negb]; intros H.
  2:{ simplify_eq. by eexists _, _. }
  unfold feed_fragment. set (r := default _ (c_reassembler c)) in H.
  assert (exists c1, ensure_reassembler sizeof_vector c = Some (r, [], c1) /\ set_reassembler (norm c1) None = set_reassembler (norm c) None /\
      c_reassembler c1 = Some r) as (c1 & Hr & Hn1 & Hr1).
  { unfold ensure_reassembler. rewrite bind_gets. unfold r. destruct (c_reassembler c) as [r0|] eqn:E.
    - exists c. split_and!; done.
    - rewrite bind_gets. cbn zeta. rewrite bind_modify. by eexists. }
  rewrite (bind_run _ _ _ _ _ _ Hr). cbn [app].
  assert (forall x, set_reassembler (norm c1) x = set_reassembler (norm c) x) as Hx.
  { intros x. apply (f_equal (fun c => set_reassembler c x)) in Hn1. done. }
  destruct (decode_udp_fragment_header payload) as [h|].
  - apply bind_Some in H as ([ [out evs] r'] & H & ?). simplify_eq. rewrite H, bind_lift. cbn beta iota.
    rewrite bind_modify. destruct (reassembler_callbacks_run evs (set_reassembler c1 (Some r'))) as (o2 & -> & Hp & Hd).
    eexists _, _. split; [done|]. split; [done|]. split; [done|]. by rewrite <- Hx.
  - simplify_eq. eexists _, _. split; [done|]. split; [done|]. split; [done|]. rewrite <- Hx. unfold norm. by rewrite Hr1.
Qed.

Lemma norm_params c c' : norm c = norm c' -> c_params c = c_params c'.
Proof. intros H. by apply (f_equal c_params) in H. Qed.

Lemma segment_callbacks_run now (ds : list delivery) ack c ms o :
  udp_ack_ok ack ->
  deliver_all (c_params c) (c_reassembler c) (map (fun d => (d.1.2, d.2)) ds) = Some (ms, o) ->
  exists out c', each (arq_event_callback sizeof_vector now) (map Deliver ds ++ [SendAck ack]) c = Some (tt, out, c') /\
    posted out = ms /\ datagrams out = [ack_datagram ack] /\ norm c' = set_reassembler (norm c) o.
Proof.
  intros Hack. revert c ms. induction ds as [| [ [seq frag] payload] ds IH]; intros c ms H.
  - cbn in H. simplify_eq. destruct (send_ack_callback ack c Hack) as (c' & H & Hn). cbn [map app each].
    rewrite (bind_run_Some _ _ _ _ _ _ tt [] c' H eq_refl). eexists _, c'. by split_and!.
  - cbn [map deliver_all fst snd] in H. apply bind_Some in H as ([ms1 o1] & H1 & H).
    apply bind_Some in H as ([ms2 o2] & H2 & H). simplify_eq.
    destruct (deliver_inorder_run frag payload c ms1 o1 H1) as (out1 & c1 & Hr1 & Hp1 & Hd1 & Hn1).
    destruct (IH c1 ms2) as (out2 & c2 & Hr2 & Hp2 & Hd2 & Hn2).
    { rewrite <- H2. apply (f_equal c_params) in Hn1 as Hpar. apply (f_equal c_reassembler) in Hn1 as Hrea.
      cbn in Hpar, Hrea. by rewrite Hpar, Hrea. }
    cbn [map app each]. exists (out1 ++ out2), c2.
    split; [by refine (bind_run_Some _ _ _ _ _ _ _ _ _ Hr1 Hr2)|]. split_and!.
    + by rewrite posted_app, Hp1, Hp2.
    + by rewrite datagrams_app, Hd1, Hd2.
    + by rewrite Hn2, Hn1.
Qed.

End Lemmas.

(** ** Where the composition falls short of its comments *)

Definition small_params (max_payload max_message : Z) (window : nat) : channel_params :=
  ChannelParams max_payload max_message 100000 5000 (UdpArqConfig window 200 50 2000 6) block
    mode_reliable_datagram 0.

(** A fragment sent reliably does not fit the per-datagram budget: the splitter
    leaves room for the envelope and the fragment sub-header but not for the ARQ marker,
    so with a budget of 200 bytes the full fragments leave in datagrams of 201. *)
Theorem reliable_fragments_exceed_budget (host : Host) :
  exists evs c, send 24 0 (replicate 400 Byte.x2a) (udp_channel_new (small_params 200 3000 4) 0) = Some (tt, evs, c) /\
    map zlen (datagrams evs) = [201; 201; 40] /\ refusals evs = [].
Proof. destruct host; eexists _, _; (split; [vm_compute; reflexivity|split; vm_compute; reflexivity]). Qed.

(** A message within the ceiling can be taken in part while the send reports it as
    admitted: the cap of the parking queue is floored at the message ceiling, but the
    parked fragments also carry their sub-headers.  With one datagram in flight and 30
    bytes parked, the second of three fragments of a 300-byte message is refused and the
    last, smaller one is taken, so the receiver can never complete the message. *)
Theorem reliable_message_taken_in_part (host : Host) :
  exists c1 c2 c3 evs1 evs2 evs3,
    send_reliable 24 0 [Byte.x01] (udp_channel_new (small_params 141 300 1) 0) = Some (ReliableArq.admitted, evs1, c1) /\
    send_reliable 24 0 (replicate 30 Byte.x02) c1 = Some (ReliableArq.admitted, evs2, c2) /\
    send_reliable 24 0 (replicate 300 Byte.x03) c2 = Some (ReliableArq.admitted, evs3, c3) /\
    refusals evs3 = [OnError err_would_block] /\
    map (fun e => zlen (ParkQueue.e_bytes e)) (ParkQueue.m_queue (c_backpressure c3)) = [30; 138; 54].
Proof.
  destruct host; eexists _, _, _, _, _, _; (split; [vm_compute; reflexivity|]); (split; [vm_compute; reflexivity|]);
    (split; [vm_compute; reflexivity|]); split; vm_compute; reflexivity.
Qed.
