(* ===== verification/UdpLink.v ===== *)
(** * Reliable messages between two UDP channels

    Two [udp_channel] objects in the reliable mode over an unreliable network: the
    sender cuts messages, submits or parks the segments and retransmits; the datagrams
    are lost, duplicated, delayed and reordered as bytes; the receiver's ARQ puts the
    segments in order and its reassembler the messages together.  The messages posted
    to the receiving application are a prefix of those the sender accepted, in order.

    Built on [ArqLink], whose invariant of two joined ARQs this refines to whole
    channels. *)

From S2P Require Import Prelude EventMonad ByteOrder Varint Cursor Frame UdpWire Fragmentation SendQueue Egress DatagramReassembler ReorderBuffer DedupWindow ReliableArq ArqLink UdpChannel.

Section Segments.
Context {host : Host} (sizeof_vector : Z).

(** ** The segments of a message *)

(** The test of [send_reliable]. *)
Definition is_large (p : channel_params) (m : bytes) : bool :=
  zlen m + Z.of_nat udp_envelope_overhead + 1 >? p_max_payload p.

Definition fragment_segment (id : Z) (f : fragment) : bool * bytes :=
  (true, fragment_layout id (f_idx f) (f_cnt f) (f_slice f)).

Definition segments_of (p : channel_params) (id : Z) (m : bytes) : list (bool * bytes) :=
  if is_large p m then map (fragment_segment id) (split m (p_max_payload p) false).1 else [(false, m)].

(** The segments of a list of messages, each with the id it was sent under. *)
Definition stream (p : channel_params) (ms : list (Z * bytes)) : list (bool * bytes) :=
  concat (map (fun '(id, m) => segments_of p id m) ms).

Lemma stream_snoc p ms id m : stream p (ms ++ [(id, m)]) = stream p ms ++ segments_of p id m.
Proof. unfold stream. rewrite map_app, concat_app. cbn. by rewrite app_nil_r. Qed.

(** ** What the receiver can put together *)

(** A message cut by a sender with parameters [pa] fits the reassembler of a receiver
    with parameters [pb]. *)
Definition deliverable (pa pb : channel_params) (m : bytes) : Prop :=
  is_large pa m = true ->
  let budget := effective_fragment_budget (p_max_payload pa) false in
  splittable m budget /\ fragment_count m budget <= max_fragment_count /\
  zlen m <= p_max_message_bytes pb /\
  structural_cost sizeof_vector (fragment_count m budget) + zlen m <= p_reassembly_budget pb.

Definition fresh_reassembler (pb : channel_params) : reassembler :=
  reassembler_new sizeof_vector (reassembly_config pb).

Definition idle (pb : channel_params) (o : option reassembler) : Prop :=
  o = None \/ o = Some (fresh_reassembler pb).

Lemma idle_default pb o : idle pb o -> default (fresh_reassembler pb) o = fresh_reassembler pb.
Proof. by intros [->| ->]. Qed.

Lemma fresh_fits pa pb id m :
  limits_ok sizeof_vector (reassembly_config pb) -> deliverable pa pb m -> is_large pa m = true ->
  let budget := effective_fragment_budget (p_max_payload pa) false in
  fits sizeof_vector (fresh_reassembler pb) id (slice m budget) (Z.to_nat (fragment_count m budget)).
Proof.
  intros Hlim Hd Hl budget. destruct (Hd Hl) as (Hs & Hc & Hm & Hcap). fold budget in Hs, Hc, Hcap.
  destruct (fragment_count_spec m budget Hs) as [H1 _].
  assert (Z.of_nat (Z.to_nat (fragment_count m budget)) = fragment_count m budget) as Hz by lia.
  destruct (reachable_inv sizeof_vector _ _ Hlim (reachable_new sizeof_vector _)) as [Hinv _].
  split; rewrite ?Hz, ?concat_all_slices by done; try done.
  pose proof Hlim as (Hsz & [Hcap0 _] & _).
  destruct (structural_cost_small sizeof_vector 1 Hsz) as [Hsc1 _]; [vm_compute; split; congruence|].
  unfold fresh_reassembler, reassembler_new. cbn [m_table FlatMap.empty FlatMap.m_max_entries].
  unfold FlatMap.cap_implied_max_partials, FlatMap.size. cbn [FlatMap.m_entries zlen length].
  rewrite Hsc1. change ((1 + 7) / 8) with 1.
  assert (0 <= cfg_total_memory_cap (reassembly_config pb) / (1 * sizeof_vector + 1)) by (apply Z.div_pos; lia).
  change (0 < cfg_total_memory_cap (reassembly_config pb) / (1 * sizeof_vector + 1) + 1). lia.
Qed.

(** Fragments fed to the reassembler through the channel. *)
Lemma deliver_fragments pb o r id fs os evs r' :
  in_width 16 id -> Forall (fun f => in_width 32 (f_idx f) /\ in_width 32 (f_cnt f)) fs ->
  default (fresh_reassembler pb) o = r -> feed_fragments sizeof_vector r id fs = Some (os, evs, r') ->
  deliver_all sizeof_vector pb o (map (fragment_segment id) fs)
  = Some (DatagramReassembler.delivered evs, match fs with [] => o | _ => Some r' end).
Proof.
  intros Hid Hfs. revert o r os evs. induction Hfs as [|f fs [Hi Hc] Hfs IH]; intros o r os evs Ho H.
  { cbn in H. by simplify_eq. }
  cbn [feed_fragments] in H. apply bind_Some in H as ([ [out1 evs1] r1] & H1 & H).
  apply bind_Some in H as ([ [os2 evs2] r2] & H2 & H). simplify_eq.
  cbn [map deliver_all]. unfold deliver_one. cbn [fragment_segment fst snd negb].
  fold (fresh_reassembler pb). rewrite decode_udp_fragment_header_layout by done. cbn [uf_msg_id uf_frag_idx uf_frag_cnt uf_payload].
  rewrite H1. cbn [mbind option_bind]. rewrite (IH (Some r1) r1 _ _ eq_refl H2). cbn [mbind option_bind].
  unfold DatagramReassembler.delivered. rewrite omap_app. f_equal. f_equal. by destruct fs; [cbn in H2; simplify_eq|].
Qed.

Lemma feed_fragments_app r id fs fs' os evs r1 :
  feed_fragments sizeof_vector r id fs = Some (os, evs, r1) ->
  feed_fragments sizeof_vector r id (fs ++ fs') =
  '(os', evs', r2) ← feed_fragments sizeof_vector r1 id fs'; Some (os ++ os', evs ++ evs', r2).
Proof.
  revert r os evs. induction fs as [|f fs IH]; intros r os evs H; cbn [feed_fragments app] in *.
  { simplify_eq. by destruct (feed_fragments sizeof_vector r1 id fs') as [ [ [? ?] ?]|]. }
  apply bind_Some in H as ([ [o1 e1] r2] & H1 & H). apply bind_Some in H as ([ [o2 e2] r3] & H2 & H). simplify_eq.
  rewrite H1. cbn [mbind option_bind]. rewrite (IH _ _ _ H2).
  destruct (feed_fragments sizeof_vector r1 id fs') as [ [ [? ?] ?]|]; [|done]. cbn. by rewrite app_assoc.
Qed.

(** A fragmented message fed in order, up to fragment [j]. *)
Lemma feed_in_order r id sl cnt j :
  fits sizeof_vector r id sl cnt -> (j <= cnt)%nat ->
  exists os evs r', feed_fragments sizeof_vector r id
      (map (fun i => Fragment (Z.of_nat i) (Z.of_nat cnt) (sl i)) (seq 0 j)) = Some (os, evs, r') /\
    (if decide (j = cnt)
     then DatagramReassembler.delivered evs = [concat (map sl (seq 0 cnt))] /\ r' = r
     else DatagramReassembler.delivered evs = []).
Proof.
  intros Hfits Hj. pose proof (ft_count _ _ _ _ _ Hfits) as [Hc _]. case_decide as E.
  - subst j. destruct cnt as [|k]; [simpl in *; lia|].
    destruct (slices_reassemble sizeof_vector r id sl (S k) (seq 0 k) k Hfits)
      as (os & evs & r1 & evs' & Hf & _ & Hd & Hf' & Hd'); [|lia| | |].
    { apply Forall_forall. intros i Hi. apply elem_of_seq in Hi. lia. }
    { rewrite elem_of_seq. lia. }
    { intros i Hi Hne. apply elem_of_seq. lia. }
    rewrite seq_S, map_app, (feed_fragments_app _ _ _ _ _ _ _ Hf). cbn [map feed_fragments f_idx f_cnt f_slice Nat.add].
    rewrite Hf'. cbn [mbind option_bind]. eexists _, _, _. split; [done|]. unfold DatagramReassembler.delivered in *.
    rewrite !omap_app, Hd, Hd'. rewrite <- seq_S. done.
  - destruct (feed_fragments_after sizeof_vector r id sl cnt (seq 0 j) ∅ (cnt - 1)) as (os & evs & Hf & _ & Hd);
      [done|intros i Hi; by apply not_elem_of_empty in Hi|lia|set_solver|rewrite elem_of_seq; lia| |].
    { apply Forall_forall. intros i Hi. apply elem_of_seq in Hi. lia. }
    unfold after in Hf at 1. rewrite decide_True in Hf by done. eexists _, _, _. split; [exact Hf|done].
Qed.

(** ** A prefix of the segments delivers a prefix of the messages *)

Lemma deliver_message pa pb id m o pre rest :
  limits_ok sizeof_vector (reassembly_config pb) -> deliverable pa pb m -> idle pb o -> in_width 16 id ->
  segments_of pa id m = pre ++ rest ->
  exists ms o', deliver_all sizeof_vector pb o pre = Some (ms, o') /\
    (if decide (rest = []) then ms = [m] /\ idle pb o' else ms = []).
Proof.
  intros Hlim Hd Ho Hid Hseg. unfold segments_of in Hseg. destruct (is_large pa m) eqn:Hl.
  2:{ destruct pre as [|s pre]; cbn [app] in Hseg.
      - eexists _, _. split; [done|]. rewrite decide_False; [done|]. by intros ->.
      - injection Hseg as <- Hnil. symmetry in Hnil. apply app_eq_nil in Hnil as [-> ->].
        eexists _, _. split; [done|]. by rewrite decide_True. }
  pose proof (fresh_fits pa pb id m Hlim Hd Hl) as Hfits. destruct (Hd Hl) as (Hs & Hmax & _).
  cbn zeta in *. set (budget := effective_fragment_budget (p_max_payload pa) false) in *.
  destruct (fragment_count_spec m budget Hs) as [H1 _]. pose proof Hs as (_ & _ & Hw32).
  rewrite split_slices in Hseg by done. fold budget in Hseg. cbn [fst] in Hseg.
  set (cnt := Z.to_nat (fragment_count m budget)) in *.
  assert (fragment_count m budget = Z.of_nat cnt) as Hcnt by (unfold cnt; lia). rewrite Hcnt in Hseg.
  set (frag := fun i => Fragment (Z.of_nat i) (Z.of_nat cnt) (slice m budget i)) in *.
  assert (length pre + length rest = cnt)%nat as Hlen.
  { apply (f_equal length) in Hseg. rewrite length_app, !length_map, length_seq in Hseg. lia. }
  assert (pre = map (fragment_segment id) (map frag (seq 0 (length pre)))) as Hpre.
  { apply (f_equal (take (length pre))) in Hseg. rewrite take_app_length in Hseg. rewrite <- Hseg at 1.
    change (@map) with (@fmap list list_fmap) . rewrite <- !fmap_take. do 2 f_equal.
    rewrite take_seq, Nat.min_l by lia. done. }
  destruct (feed_in_order _ id (slice m budget) cnt (length pre) Hfits ltac:(lia)) as (os & evs & r' & Hf & Hcase).
  fold frag in Hf. rewrite Hpre.
  rewrite (deliver_fragments pb o (fresh_reassembler pb) id (map frag (seq 0 (length pre))) os evs r' Hid) by
    (done || (by apply idle_default) ||
     (apply Forall_forall; intros f Hin; apply list_elem_of_In, in_map_iff in Hin as (i & <- & Hi); apply in_seq in Hi;
      cbn [frag f_idx f_cnt]; unfold in_width; lia)).
  eexists _, _. split; [done|]. destruct (decide (rest = [])) as [->|Hne].
  - rewrite decide_True in Hcase by (simpl in Hlen; lia). destruct Hcase as [-> ->].
    unfold cnt. rewrite concat_all_slices by done. split; [done|].
    destruct (map frag (seq 0 (length pre))); [done|by right].
  - rewrite decide_False in Hcase by (destruct rest; [done|simpl in Hlen; lia]). done.
Qed.

Lemma deliver_stream pa pb ms o pre rest :
  limits_ok sizeof_vector (reassembly_config pb) ->
  Forall (fun '(id, m) => in_width 16 id /\ deliverable pa pb m) ms -> idle pb o ->
  stream pa ms = pre ++ rest ->
  exists ms' o', deliver_all sizeof_vector pb o pre = Some (ms', o') /\ ms' `prefix_of` map snd ms /\
                 (rest = [] -> ms' = map snd ms /\ idle pb o').
Proof.
  intros Hlim Hms. revert o pre. induction Hms as [| [id m] ms [Hid Hm] Hms IH]; intros o pre Ho Hst.
  { symmetry in Hst. apply app_eq_nil in Hst as [-> ->]. by exists [], o. }
  change (stream pa ((id, m) :: ms)) with (segments_of pa id m ++ stream pa ms) in Hst. cbn [map snd].
  destruct (decide (length pre < length (segments_of pa id m))%nat) as [Hlt|Hge].
  - assert (segments_of pa id m = pre ++ drop (length pre) (segments_of pa id m)) as Hseg.
    { apply (f_equal (take (length pre))) in Hst. rewrite take_app_length, take_app_le in Hst by lia.
      rewrite <- Hst at 1. by rewrite take_drop. }
    destruct (deliver_message pa pb id m o _ _ Hlim Hm Ho Hid Hseg) as (ms' & o' & Hd & Hcase).
    rewrite decide_False in Hcase by (intros E; apply (f_equal length) in E; rewrite length_drop in E; simpl in E; lia).
    subst ms'. exists [], o'. split; [done|]. split; [apply prefix_nil|]. intros ->. exfalso.
    apply (f_equal length) in Hst. rewrite !length_app in Hst. simpl in Hst. lia.
  - assert (pre = segments_of pa id m ++ drop (length (segments_of pa id m)) pre) as Hpre.
    { apply (f_equal (take (length (segments_of pa id m)))) in Hst. rewrite take_app_length, take_app_le in Hst by lia.
      rewrite Hst at 1. by rewrite take_drop. }
    set (pre' := drop _ pre) in Hpre. rewrite Hpre in Hst |- *. rewrite <- app_assoc in Hst. apply app_inv_head in Hst.
    destruct (deliver_message pa pb id m o (segments_of pa id m) [] Hlim Hm Ho Hid ltac:(by rewrite app_nil_r))
      as (m' & o1 & Hd & Hcase). rewrite decide_True in Hcase by done. destruct Hcase as [-> Ho1].
    destruct (IH o1 pre' Ho1 Hst) as (ms' & o' & Hd' & Hp & Hend).
    rewrite deliver_all_app, Hd. cbn [mbind option_bind]. rewrite Hd'. cbn [mbind option_bind app].
    exists (m :: ms'), o'. split; [done|]. split; [by apply prefix_cons|]. intros E. by destruct (Hend E) as [-> ?].
Qed.

End Segments.

(** ** The two ARQs, for every reading of the accepted segments

    [linked l ...]: the invariant of the joined ARQs holds whatever the application
    submits after the accepted segments [l]. *)

Section Linked.
Context (s0 : Z).

Definition agrees (src : Z -> bool * bytes) (l : list (bool * bytes)) : Prop :=
  forall i x, l !! i = Some x -> src (s0 + Z.of_nat i) = x.

Definition linked (l : list (bool * bytes)) (a r : udp_reliable_arq) (segs : list net_segment)
    (acks : list net_ack) (submitted handed : nat) : Prop :=
  forall src, agrees src l ->
    exists b fed, link_inv src s0 (Link a r segs acks submitted (deliveries src s0 handed)) b fed.

Definition src_of (l : list (bool * bytes)) (n : Z) : bool * bytes := nth (Z.to_nat (n - s0)) l (false, []).

Lemma agrees_src_of l : agrees (src_of l) l.
Proof.
  intros i x Hi. unfold src_of. replace (Z.to_nat (s0 + Z.of_nat i - s0)) with i by lia.
  rewrite nth_lookup. by rewrite Hi.
Qed.

Lemma agrees_app_l src l l' : agrees src (l ++ l') -> agrees src l.
Proof. intros H i x Hi. apply H. by apply lookup_app_l_Some. Qed.

Lemma linked_more l l' a r segs acks n h : linked l a r segs acks n h -> linked (l ++ l') a r segs acks n h.
Proof. intros H src Hs. by eapply H, agrees_app_l. Qed.

Lemma linked_lose l a r segs segs' acks n h :
  linked l a r segs acks n h -> (forall seg, seg ∈ segs' -> seg ∈ segs) -> linked l a r segs' acks n h.
Proof.
  intros H Hsub src Hs. destruct (H src Hs) as (b & fed & Hinv). exists b, fed.
  exact (inv_lose src s0 _ b fed segs' Hinv Hsub).
Qed.

Lemma full_submit a now p f :
  window_has_room a = false -> submit a now p f = Some (window_full, [], a).
Proof.
  unfold window_has_room, submit. intros H. rewrite Z.geb_leb. apply Z.ltb_ge in H.
  by destruct (Z.leb_spec (Z.of_nat (m_window a)) (in_flight a)); [|lia].
Qed.

Lemma sends_room src a b x fed :
  sends src a b x fed -> window_has_room a = true <-> x < b + Z.of_nat (m_window a).
Proof.
  intros [ (Hw0 & _ & Hwhalf) _ Hbase Hnext Hr _]. unfold window_has_room, in_flight.
  rewrite Hbase, Hnext, wire_seq_distance by (unfold near; lia). rewrite decide_True by lia. rewrite Z.ltb_lt. lia.
Qed.

Lemma linked_submit l a r segs acks n h now f p :
  linked l a r segs acks n h -> l !! n = Some (f, p) -> window_has_room a = true ->
  let x := s0 + Z.of_nat n in
  exists evs a', submit a now p f = Some (admitted, evs, a') /\ sent evs = [(wire_seq x, f, p)] /\
    linked l a' r (NetSegment x (wire_seq x) f p :: segs) acks (S n) h.
Proof.
  intros Hl Hn Hroom x.
  assert (forall src, agrees src l -> exists evs a' b fed, submit a now p f = Some (admitted, evs, a') /\
    sent evs = [(wire_seq x, f, p)] /\
    link_inv src s0 (Link a' r (NetSegment x (wire_seq x) f p :: segs) acks (S n) (deliveries src s0 h)) b fed) as H.
  { intros src Hs. destruct (Hl src Hs) as (b & fed & Hinv). pose proof (li_sends _ _ _ _ _ Hinv) as Hsend.
    cbn [l_sender] in Hsend. change (next_number s0 _) with x in Hsend.
    pose proof (proj1 (sends_room _ _ _ _ _ Hsend) Hroom) as Hlt.
    pose proof (submit_spec src a b x fed now Hsend) as Hspec. rewrite decide_False in Hspec by lia.
    assert (src x = (f, p)) as Hsrc by (by apply Hs). rewrite Hsrc in Hspec. cbn [fst snd] in Hspec.
    destruct Hspec as (evs & a' & Hsub & _ & _ & Hsent). exists evs, a', b, fed. split; [done|]. split; [done|].
    pose proof (inv_submit src s0 _ b fed now admitted evs a' Hinv) as Hi. cbn [l_sender] in Hi.
    change (next_number s0 _) with x in Hi. rewrite Hsrc in Hi. cbn [fst snd] in Hi. specialize (Hi Hsub).
    unfold label in Hi. rewrite Hsent in Hi. exact Hi. }
  destruct (H _ (agrees_src_of l)) as (evs & a' & _ & _ & Hsub & Hsent & _). exists evs, a'.
  split; [done|]. split; [done|]. intros src Hs. destruct (H src Hs) as (evs' & a'' & b & fed & Hsub' & _ & Hinv).
  rewrite Hsub in Hsub'. simplify_eq. by exists b, fed.
Qed.

Lemma linked_timer l a r segs acks n h m ec :
  linked l a r segs acks n h -> s0 <= m < s0 + Z.of_nat n ->
  exists evs a', on_timer a (wire_seq m) ec = Some (evs, a') /\
    window_has_room a' = window_has_room a /\
    linked l a' r (label m evs ++ segs) acks n h.
Proof.
  intros Hl Hm.
  assert (forall src, agrees src l -> exists evs a' b fed, on_timer a (wire_seq m) ec = Some (evs, a') /\
    window_has_room a' = window_has_room a /\
    link_inv src s0 (Link a' r (label m evs ++ segs) acks n (deliveries src s0 h)) b fed) as H.
  { intros src Hs. destruct (Hl src Hs) as (b & fed & Hinv). pose proof (li_sends _ _ _ _ _ Hinv) as Hsend.
    cbn [l_sender] in Hsend.
    destruct (on_timer_spec src a b _ fed m ec Hsend) as (evs & a' & Hsub & Hs' & [_ Hwin] & _).
    exists evs, a', b, fed. split; [done|]. split.
    - pose proof (sends_room _ _ _ _ _ Hsend) as H1. pose proof (sends_room _ _ _ _ _ Hs') as H2. rewrite Hwin in H2.
      apply eq_true_iff_eq. by rewrite H1, H2.
    - by apply (inv_timer src s0 _ b fed m ec evs a' Hinv). }
  destruct (H _ (agrees_src_of l)) as (evs & a' & _ & _ & Hsub & Hroom & _). exists evs, a'.
  split; [done|]. split; [done|]. intros src Hs. destruct (H src Hs) as (evs' & a'' & b & fed & Hsub' & _ & Hinv).
  rewrite Hsub in Hsub'. simplify_eq. by exists b, fed.
Qed.

Lemma expected_linked src a r segs acks n h :
  expected_number s0 (Link a r segs acks n (deliveries src s0 h)) = s0 + Z.of_nat h.
Proof. unfold expected_number. cbn [l_delivered]. by rewrite length_deliveries. Qed.

Lemma linked_slide l a r segs acks n h na now :
  linked l a r segs acks n h -> na ∈ acks -> s0 + Z.of_nat h - half_space <= na_edge na ->
  exists evs a', slide_to a now (wrap 16 (ack_cumulative (na_ack na) + 1)) = Some (evs, a') /\
    (m_base a' = m_base a -> window_has_room a' = window_has_room a) /\
    linked l a' r segs acks n h.
Proof.
  intros Hl Hin Hnear.
  assert (forall src, agrees src l -> exists evs a' b fed,
    slide_to a now (wrap 16 (ack_cumulative (na_ack na) + 1)) = Some (evs, a') /\
    (m_base a' = m_base a -> window_has_room a' = window_has_room a) /\
    link_inv src s0 (Link a' r segs acks n (deliveries src s0 h)) b fed) as H.
  { intros src Hs. destruct (Hl src Hs) as (b & fed & Hinv). pose proof Hinv as [Hsend _ Ho _ Hp Hb _ _ _ Hacks].
    cbn [l_sender l_acks] in *. rewrite expected_linked in *. destruct (Hacks na Hin) as [Hedge Htell].
    destruct (on_ack_spec src a b _ fed now (na_ack na) (na_edge na) Hsend) as (evs0 & a0 & Hack & _);
      [lia|intros; apply Hp; lia|done|done|].
    unfold on_ack in Hack. apply bind_Some in Hack as ([evs a'] & Hsl & _). exists evs, a'.
    destruct (inv_slide src s0 _ b fed na now evs a' Hinv Hin) as (_ & [_ Hwin] & Hinv'); [by rewrite expected_linked|done|].
    exists (Z.max b (na_edge na)), fed. split; [done|]. split; [|done].
    intros Hbase. unfold window_has_room, in_flight. cbn [l_sender] in Hwin.
    pose proof (sn_next _ _ _ _ _ (li_sends _ _ _ _ _ Hinv')) as Hn'. cbn [l_sender] in Hn'.
    rewrite Hbase, Hwin, Hn', (sn_next _ _ _ _ _ Hsend). done. }
  destruct (H _ (agrees_src_of l)) as (evs & a' & _ & _ & Hsl & Hroom & _). exists evs, a'.
  split; [done|]. split; [done|]. intros src Hs. destruct (H src Hs) as (evs' & a'' & b & fed & Hsl' & _ & Hinv).
  rewrite Hsl in Hsl'. simplify_eq. by exists b, fed.
Qed.

Lemma linked_holes l a r segs acks n h na now holes :
  linked l a r segs acks n h -> na ∈ acks -> s0 + Z.of_nat h - half_space <= na_edge na ->
  exists evs a', ack_holes a now (na_ack na) holes = Some (evs, a') /\
    window_has_room a' = window_has_room a /\ linked l a' r segs acks n h.
Proof.
  intros Hl Hin Hnear.
  assert (forall src, agrees src l -> exists evs a' b fed,
    ack_holes a now (na_ack na) holes = Some (evs, a') /\ window_has_room a' = window_has_room a /\
    link_inv src s0 (Link a' r segs acks n (deliveries src s0 h)) b fed) as H.
  { intros src Hs. destruct (Hl src Hs) as (b & fed & Hinv). pose proof Hinv as [Hsend _ Ho _ Hp Hb _ _ _ Hacks].
    cbn [l_sender l_acks] in *. rewrite expected_linked in *. destruct (Hacks na Hin) as [Hedge Htell].
    destruct (ack_holes_spec src holes a b _ fed now (na_ack na) (na_edge na) Hsend) as (evs & a' & Hah & Hs' & [_ Hwin] & _);
      [lia|done|done|]. exists evs, a', b, fed. split; [done|].
    destruct (inv_holes src s0 _ b fed na now holes evs a' Hinv Hin) as (_ & _ & Hinv'); [by rewrite expected_linked|done|].
    split; [|done]. pose proof (sends_room _ _ _ _ _ Hsend) as H1. pose proof (sends_room _ _ _ _ _ Hs') as H2.
    rewrite Hwin in H2. apply eq_true_iff_eq. by rewrite H1, H2. }
  destruct (H _ (agrees_src_of l)) as (evs & a' & _ & _ & Hsl & Hroom & _). exists evs, a'.
  split; [done|]. split; [done|]. intros src Hs. destruct (H src Hs) as (evs' & a'' & b & fed & Hsl' & _ & Hinv).
  rewrite Hsl in Hsl'. simplify_eq. by exists b, fed.
Qed.

Lemma on_segment_shape a q f p evs a' :
  on_segment a q f p = Some (evs, a') ->
  exists ds ack, evs = map Deliver ds ++ [SendAck ack] /\ udp_ack_ok ack.
Proof.
  unfold on_segment. intros H. apply bind_Some in H as ([ [o ds] recv] & _ & H). simplify_eq.
  unfold send_ack. eexists ds, _. split; [done|].
  apply (mark_holes_spec (fun i => buffered_at (m_recv (set_recv a recv)) (i + 1)) (seq 0 ack_bitmap_bits)
    (UdpAck (cumulative (m_recv (set_recv a recv))) (ack_selective udp_ack_zero))).
  - split; [done|]. simpl. apply wrap_range. lia.
  - apply Forall_forall. intros i Hi. apply elem_of_seq in Hi. lia.
Qed.

Lemma deliveries_segments src l h k :
  agrees src l -> (h + k <= length l)%nat ->
  map (fun d => (d.1.2, d.2)) (deliveries src (s0 + Z.of_nat h) k) = take k (drop h l).
Proof.
  intros Hs Hk. apply list_eq. intros i. unfold deliveries. rewrite map_map.
  change (@map) with (@fmap list list_fmap). rewrite list_lookup_fmap.
  destruct (decide (i < k)%nat) as [Hi|Hi].
  - rewrite lookup_seqZ_lt by lia. cbn [fmap option_fmap option_map]. rewrite lookup_take_lt, lookup_drop by done.
    destruct (lookup_lt_is_Some_2 l (h + i)) as [x Hx]; [lia|]. rewrite Hx. cbn. f_equal.
    rewrite <- (Hs (h + i)%nat x Hx). replace (s0 + Z.of_nat h + Z.of_nat i) with (s0 + Z.of_nat (h + i)) by lia.
    by destruct (src _).
  - rewrite lookup_seqZ_ge by lia. rewrite lookup_take_ge by lia. done.
Qed.

Lemma linked_segment l a r segs acks n h seg :
  linked l a r segs acks n h -> (n <= length l)%nat -> seg ∈ segs -> s0 + Z.of_nat h - half_space <= ns_number seg ->
  exists ds ack r',
    on_segment r (ns_seq seg) (ns_fragmented seg) (ns_data seg) = Some (map Deliver ds ++ [SendAck ack], r') /\
    udp_ack_ok ack /\ map (fun d => (d.1.2, d.2)) ds = take (length ds) (drop h l) /\
    (h + length ds <= n)%nat /\
    wrap 16 (ReorderBuffer.m_expected (m_recv r') - ReorderBuffer.m_expected (m_recv r)) = zlen ds /\
    linked l a r' segs (NetAck (s0 + Z.of_nat (h + length ds)) ack :: acks) n (h + length ds).
Proof.
  intros Hl Hn Hin Hnear.
  assert (forall src, agrees src l -> exists evs r' b fed,
    on_segment r (ns_seq seg) (ns_fragmented seg) (ns_data seg) = Some (evs, r') /\
    let ds := handed_over evs in
    ds = deliveries src (s0 + Z.of_nat h) (length ds) /\ (h + length ds <= n)%nat /\
    wrap 16 (ReorderBuffer.m_expected (m_recv r') - ReorderBuffer.m_expected (m_recv r)) = zlen ds /\
    link_inv src s0 (Link a r' segs (map (NetAck (s0 + Z.of_nat (h + length ds))) (ReliableArq.acks evs) ++ acks) n
                       (deliveries src s0 (h + length ds))) b fed) as H.
  { intros src Hs. destruct (Hl src Hs) as (b & fed & Hinv). set (l0 := Link _ _ _ _ _ _) in Hinv.
    assert (expected_number s0 l0 = s0 + Z.of_nat h) as He by apply expected_linked.
    destruct (segment_as_sent src s0 l0 b fed seg Hinv Hin) as [Hne Heq]; [by rewrite He|]. cbn [l0 l_receiver] in Heq.
    destruct (on_segment_spec src r (s0 + Z.of_nat h) fed (ns_number seg)) as (evs & r' & k & Hseg & Hho & Hh' & _ & _ & _ & _ & _).
    { pose proof (li_holds _ _ _ _ _ Hinv) as Hh. by rewrite He in Hh. }
    { rewrite <- He. apply (li_gap _ _ _ _ _ Hinv). }
    { by rewrite <- He. }
    rewrite <- Heq in Hseg. destruct (inv_segment src s0 l0 b fed seg evs r' Hinv Hin) as (fed' & Hinv'); [by rewrite He|done|].
    assert (length (handed_over evs) = k) as Hk.
    { rewrite Hho. pose proof (length_deliveries src (s0 + Z.of_nat h) k). unfold zlen in *. lia. }
    exists evs, r', b, fed'. split; [done|]. cbn zeta. rewrite Hk.
    assert (deliveries src s0 h ++ handed_over evs = deliveries src s0 (h + k)) as Hdel
      by (rewrite Hho; apply deliveries_app).
    assert (s0 + Z.of_nat h + zlen (handed_over evs) = s0 + Z.of_nat (h + k)) as Hedge by (unfold zlen; lia).
    rewrite He in Hinv'. cbn [l0 l_sender l_segments l_acks l_submitted l_delivered] in Hinv'.
    rewrite Hdel, Hedge in Hinv'. pose proof Hinv' as [Hsend _ Ho _ _ _ _ _ _ _]. rewrite expected_linked in Ho.
    unfold next_number in Ho. cbn [l_submitted] in Ho. cbn [l_sender] in Hsend.
    pose proof (sn_range _ _ _ _ _ Hsend) as Hrange. pose proof (sn_window _ _ _ _ _ Hsend) as (_ & _ & Hhalf).
    pose proof (li_order _ _ _ _ _ Hinv) as [Hb _]. rewrite He in Hb. unfold next_number in Hrange. cbn [l_submitted] in Hrange.
    split; [done|]. split; [lia|]. split; [|done].
    rewrite (h_expected _ _ _ _ Hh'). pose proof (li_holds _ _ _ _ _ Hinv) as Hh. cbn [l0 l_receiver] in Hh.
    rewrite (h_expected _ _ _ _ Hh), He. rewrite wire_seq_distance by (unfold near, half_space in *; lia).
    rewrite decide_True by lia. unfold zlen. lia. }
  destruct (H _ (agrees_src_of l)) as (evs & r' & _ & _ & Hseg & Hds & Hle & Hexp & _).
  destruct (on_segment_shape _ _ _ _ _ _ Hseg) as (ds & ack & -> & Hack). rewrite handed_over_deliver in *.
  exists ds, ack, r'. split; [done|]. split; [done|]. split; [|split; [done|split; [done|] ] ].
  - rewrite Hds at 1. apply deliveries_segments; [apply agrees_src_of|lia].
  - intros src Hs. destruct (H src Hs) as (evs' & r'' & b & fed & Hseg' & _ & _ & _ & Hinv).
    rewrite Hseg in Hseg'. simplify_eq. rewrite handed_over_deliver, acks_deliver in Hinv. by exists b, fed.
Qed.

End Linked.

(** ** The sending channel *)

Definition arq_of (c : udp_channel) : udp_reliable_arq :=
  default (udp_reliable_arq_new (p_arq_cfg (c_params c)) (p_initial_seq (c_params c))) (c_arq c).

Definition parked (c : udp_channel) : list (bool * bytes) :=
  map (fun e => (ParkQueue.e_fragmented e, ParkQueue.e_bytes e)) (ParkQueue.m_queue (c_backpressure c)).

(** While something is parked, the window is full, so nothing overtakes it. *)
Definition saturated (c : udp_channel) : Prop := parked c <> [] -> window_has_room (arq_of c) = false.

(** The bytes on the wire of a segment and of an ack. *)
Definition wire_segment (s : net_segment) : Z * bytes :=
  (ns_number s, segment_datagram (ns_seq s) (ns_fragmented s) (ns_data s)).
Definition wire_ack (na : net_ack) : Z * bytes := (na_edge na, ack_datagram (na_ack na)).

(** Datagrams sent in a row, numbered from [x]. *)
Definition label_from (x : Z) (ds : list bytes) : list (Z * bytes) := imap (fun i d => (x + Z.of_nat i, d)) ds.

Lemma label_from_app x ds ds' : label_from x (ds ++ ds') = label_from x ds ++ label_from (x + zlen ds) ds'.
Proof.
  unfold label_from. rewrite imap_app. f_equal. apply imap_ext. intros i d _. cbn. f_equal. unfold zlen. lia.
Qed.

(** The members sending does not touch. *)
Definition keeps (c c' : udp_channel) : Prop :=
  c_params c' = c_params c /\ c_reassembler c' = c_reassembler c /\ c_open c' = c_open c /\
  c_out_msg_id c' = c_out_msg_id c.

#[global] Instance keeps_preorder : PreOrder keeps.
Proof. split; [done|]. unfold keeps. intros ??? (-> & -> & -> & ->) (-> & -> & -> & ->). done. Qed.

Section Flow.
Context {host : Host} (sizeof_vector : Z) (s0 : Z).

(** The sending channel [A] towards the receiver's ARQ [r]: [done] has been submitted,
    the rest of the accepted segments is parked. *)
Record flow (A : udp_channel) (r : udp_reliable_arq) (segs : list net_segment) (acks : list net_ack)
    (done : list (bool * bytes)) (handed : nat) : Prop := Flow {
  fl_link : linked s0 (done ++ parked A) (arq_of A) r segs acks (length done) handed;
  fl_park : ParkQueue.park_inv (c_backpressure A);
}.

Lemma flow_ext A A' r segs acks done h :
  c_arq A' = c_arq A -> c_params A' = c_params A -> c_backpressure A' = c_backpressure A ->
  flow A r segs acks done h -> flow A' r segs acks done h.
Proof. intros E1 E2 E3 [H1 H2]. split; unfold parked, arq_of in *; by rewrite ?E1, ?E2, ?E3. Qed.

Lemma saturated_ext A A' :
  c_arq A' = c_arq A -> c_params A' = c_params A -> c_backpressure A' = c_backpressure A ->
  saturated A -> saturated A'.
Proof. unfold saturated, parked, arq_of. intros -> -> ->. done. Qed.

Lemma ensure_arq_run c : ensure_arq c = Some (tt, [], set_arq c (Some (arq_of c))).
Proof.
  unfold ensure_arq. rewrite bind_gets. unfold arq_of. destruct (c_arq c) as [a|] eqn:E; cbn.
  - unfold mret, prog_ret. do 2 f_equal. destruct c. cbn in *. by subst.
  - by rewrite bind_gets.
Qed.

(** The outcome of handing segments to the sending channel. *)
Record sent_more (A A' : udp_channel) r segs acks done h (out : list channel_event) (new : list (bool * bytes))
    (segs' : list net_segment) (done' : list (bool * bytes)) : Prop := SentMore {
  sm_flow : flow A' r (segs' ++ segs) acks done' h;
  sm_arq : is_Some (c_arq A');
  sm_keeps : keeps A A';
  sm_taken : done' ++ parked A' = done ++ parked A ++ new;
  sm_length : length done' = (length done + length segs')%nat;
  sm_wire : label_from (s0 + zlen done) (datagrams out) = map wire_segment segs';
  sm_posted : posted out = [];
}.

Lemma norm_fields (c c' : udp_channel) a :
  norm c' = set_arq (norm c) a ->
  c_arq c' = a /\ c_backpressure c' = c_backpressure c /\ keeps c c'.
Proof.
  intros H. split_and!; [by apply (f_equal c_arq) in H|by apply (f_equal c_backpressure) in H|].
  split_and!; [by apply (f_equal c_params) in H|by apply (f_equal c_reassembler) in H
    |by apply (f_equal c_open) in H|by apply (f_equal c_out_msg_id) in H].
Qed.

(** A segment submitted while the window has room. *)
Lemma arq_submit_flow A r segs acks done todo h now f p :
  linked s0 (done ++ (f, p) :: todo) (arq_of A) r segs acks (length done) h ->
  is_Some (c_arq A) -> window_has_room (arq_of A) = true ->
  let x := s0 + zlen done in
  exists out A', arq_submit sizeof_vector now p f A = Some (admitted, out, A') /\
    is_Some (c_arq A') /\ c_backpressure A' = c_backpressure A /\ keeps A A' /\
    linked s0 (done ++ (f, p) :: todo) (arq_of A') r (NetSegment x (wire_seq x) f p :: segs) acks (S (length done)) h /\
    datagrams out = [segment_datagram (wire_seq x) f p] /\ posted out = [] /\ refusals out = [].
Proof.
  intros Hl [a Ha] Hroom x. assert (arq_of A = a) as Ea by (unfold arq_of; by rewrite Ha). rewrite Ea in *.
  destruct (linked_submit s0 _ a r segs acks (length done) h now f p Hl) as (evs & a' & Hsub & Hsent & Hl');
    [by apply list_lookup_middle|done|].
  destruct (arq_submit_run sizeof_vector now p f A a admitted evs a' Ha Hsub) as (out & A' & Hrun & Hn & Hd & Hp & Href).
  destruct (norm_fields _ _ _ Hn) as (Ha' & Hb & Hk). exists out, A'.
  split; [done|]. split; [by rewrite Ha'|]. split; [done|]. split; [done|].
  assert (arq_of A' = a') as -> by (unfold arq_of; by rewrite Ha'). split; [done|]. rewrite Hd, Hsent. done.
Qed.

Lemma flow_lose A r segs segs' acks done h :
  flow A r segs acks done h -> (forall seg, seg ∈ segs' -> seg ∈ segs) -> flow A r segs' acks done h.
Proof. intros [H1 H2] Hsub. split; [|done]. by eapply linked_lose. Qed.

Lemma sent_more_trans A A1 A2 r segs acks done h out1 new1 segs1 done1 out2 new2 segs2 done2 :
  sent_more A A1 r segs acks done h out1 new1 segs1 done1 ->
  sent_more A1 A2 r (segs1 ++ segs) acks done1 h out2 new2 segs2 done2 ->
  sent_more A A2 r segs acks done h (out1 ++ out2) (new1 ++ new2) (segs1 ++ segs2) done2.
Proof.
  intros [F1 Q1 K1 T1 L1 W1 P1] [F2 Q2 K2 T2 L2 W2 P2]. split; try done.
  - eapply flow_lose; [exact F2|]. intros seg. rewrite !elem_of_app. tauto.
  - by etransitivity.
  - by rewrite T2, app_assoc, T1, <- !app_assoc.
  - rewrite length_app. lia.
  - rewrite datagrams_app, label_from_app, map_app, W1. f_equal. rewrite <- W2. f_equal.
    apply (f_equal length) in W1. unfold label_from in W1. rewrite length_imap, length_map in W1. unfold zlen. lia.
  - by rewrite posted_app, P1, P2.
Qed.

(** Nothing taken: only members the flow does not depend on have changed. *)
Lemma nothing_taken A A' r segs acks done h out :
  flow A r segs acks done h -> is_Some (c_arq A) ->
  c_arq A' = c_arq A -> c_backpressure A' = c_backpressure A -> keeps A A' ->
  datagrams out = [] -> posted out = [] -> sent_more A A' r segs acks done h out [] [] done.
Proof.
  intros Hf Ha E1 E2 Hk Hd Hp. split; try done.
  - apply (flow_ext A); [done|apply Hk|done|done].
  - by rewrite E1.
  - unfold parked. by rewrite E2, app_nil_r.
  - by rewrite Hd.
Qed.

Lemma parked_set A q : parked (set_backpressure A q) = map (fun e => (ParkQueue.e_fragmented e, ParkQueue.e_bytes e)) (ParkQueue.m_queue q).
Proof. done. Qed.

(** [on_window_full] parks the segment or refuses it. *)
Lemma on_window_full_run A r segs acks done h f p :
  flow A r segs acks done h -> saturated A -> is_Some (c_arq A) -> window_has_room (arq_of A) = false ->
  exists res out A' new, on_window_full p f A = Some (res, out, A') /\ saturated A' /\
    sent_more A A' r segs acks done h out new [] done /\ (refusals out = [] -> new = [(f, p)]).
Proof.
  intros Hf Hs Ha Hfull. pose proof (ParkQueue.park_admit (c_backpressure A) p f (fl_park _ _ _ _ _ _ Hf)) as Hadm.
  assert (exists res out A' new, (q ← gets c_backpressure;
      let '(ok, q) := ParkQueue.park q p f in
      modify (fun c => set_backpressure c q) ;;
      if (ok : bool) then mret ReliableArq.admitted
      else emit (OnError err_would_block) ;; mret window_full) A = Some (res, out, A') /\ saturated A' /\
    sent_more A A' r segs acks done h out new [] done /\ (refusals out = [] -> new = [(f, p)])) as Hpark.
  { rewrite bind_gets. case_decide.
    - destruct Hadm as (q' & -> & Hpi & _ & Hq'). cbn beta iota. rewrite bind_modify. eexists _, [], _, [(f, p)].
      split; [done|]. split; [by intros _|]. split; [|done].
      assert (parked (set_backpressure A q') = parked A ++ [(f, p)]) as Hpk by (by rewrite parked_set, Hq', map_app).
      destruct Hf as [Hl _]. split; try done.
      + split; [|done]. rewrite Hpk, app_assoc. by apply linked_more.
      + by rewrite Hpk.
    - rewrite Hadm. cbn beta iota. rewrite bind_modify. eexists _, _, _, []. split; [done|].
      split; [by apply (saturated_ext A)|]. split; [by apply nothing_taken|done]. }
  unfold on_window_full. rewrite bind_gets. destruct (p_congestion (c_params A)); [exact Hpark|exact Hpark|].
  rewrite bind_modify. eexists _, _, _, []. split; [done|]. split; [by apply (saturated_ext A)|].
  split; [by apply nothing_taken|done].
Qed.

(** One segment: submitted, parked or refused. *)
Lemma push_run A r segs acks done h now f p :
  flow A r segs acks done h -> saturated A -> is_Some (c_arq A) ->
  exists res out A' new segs' done',
    (x ← arq_submit sizeof_vector now p f;
     match x with ReliableArq.admitted => mret x | window_full => on_window_full p f end) A = Some (res, out, A') /\
    saturated A' /\ sent_more A A' r segs acks done h out new segs' done' /\ (refusals out = [] -> new = [(f, p)]).
Proof.
  intros Hf Hsat Ha. destruct (window_has_room (arq_of A)) eqn:Hroom.
  - assert (parked A = []) as Hnil.
    { destruct (parked A) eqn:E; [done|]. by rewrite Hsat in Hroom by congruence. }
    destruct Hf as [Hl Hpk]. rewrite Hnil, app_nil_r in Hl. apply (linked_more _ _ [(f, p)]) in Hl.
    destruct (arq_submit_flow A r segs acks done [] h now f p Hl Ha Hroom)
      as (out & A' & Hrun & Ha' & Hb & Hk & Hl' & Hd & Hp & Href).
    rewrite (bind_run _ _ _ _ _ _ Hrun). cbn. rewrite app_nil_r.
    assert (parked A' = []) as Hnil' by (unfold parked in *; by rewrite Hb).
    eexists _, out, A', [(f, p)], [NetSegment _ _ f p], (done ++ [(f, p)]). split; [done|].
    split; [intros Hc; by rewrite Hnil' in Hc|]. split; [|done]. split; try done.
    + split; [|by rewrite Hb]. rewrite Hnil', app_nil_r, length_app, Nat.add_1_r. exact Hl'.
    + rewrite Hnil, Hnil', app_nil_r. done.
    + rewrite length_app. done.
    + rewrite Hd. unfold label_from, wire_segment. cbn. by rewrite Z.add_0_r.
  - destruct Ha as [a Ha]. assert (arq_of A = a) as Ea by (unfold arq_of; by rewrite Ha).
    destruct (arq_submit_run sizeof_vector now p f A a window_full [] a Ha) as (out & A1 & Hrun & Hn & Hd & Hp & Href).
    { apply full_submit. by rewrite <- Ea. }
    destruct (norm_fields _ _ _ Hn) as (Ha1 & Hb1 & Hk1).
    assert (sent_more A A1 r segs acks done h out [] [] done) as H1.
    { apply nothing_taken; try done. congruence. }
    destruct (on_window_full_run A1 r segs acks done h f p) as (res & out2 & A2 & new & Hr2 & Hs2 & H2 & Hn2);
      [apply H1|apply (saturated_ext A); [congruence|apply Hk1|done|done]|apply H1|unfold arq_of; rewrite Ha1; cbn; by rewrite <- Ea|].
    rewrite (bind_run_Some _ _ _ _ _ _ _ _ _ Hrun Hr2). eexists _, _, A2, new, [], done. split; [done|]. split; [done|].
    split; [by apply (sent_more_trans _ _ _ _ _ _ _ _ _ _ _ _ _ _ _ _ H1 H2)|].
    rewrite refusals_app, Href. exact Hn2.
Qed.

Lemma fragment_run A r segs acks done h now id f :
  flow A r segs acks done h -> saturated A -> is_Some (c_arq A) ->
  exists res out A' new segs' done', submit_reliable_fragment sizeof_vector now id f A = Some (res, out, A') /\
    saturated A' /\ sent_more A A' r segs acks done h out new segs' done' /\ (refusals out = [] -> new = [fragment_segment id f]).
Proof.
  intros Hf Hs Ha. unfold submit_reliable_fragment.
  rewrite bind_gets, encode_udp_fragment_payload_into_layout, bind_lift, bind_modify.
  set (A0 := set_frag_scratch A _).
  destruct (push_run A0 r segs acks done h now true (fragment_layout id (f_idx f) (f_cnt f) (f_slice f)))
    as (res & out & A' & new & segs' & done' & Hrun & Hsat & [F Q K T L W P] & Hnew); [by apply (flow_ext A)|by apply (saturated_ext A)|done|].
  eexists res, out, A', new, segs', done'. split; [exact Hrun|]. split; [done|]. split; [by split|done].
Qed.

Lemma fragments_run A r segs acks done h now id last fs :
  flow A r segs acks done h -> saturated A -> is_Some (c_arq A) ->
  exists res out A' new segs' done', submit_fragments sizeof_vector now id last fs A = Some (res, out, A') /\
    saturated A' /\ sent_more A A' r segs acks done h out new segs' done' /\
    (refusals out = [] -> new = map (fragment_segment id) fs).
Proof.
  revert A segs done last. induction fs as [|f fs IH]; intros A segs done last Hf Hs Ha; cbn [submit_fragments].
  { eexists _, [], A, [], [], done. split; [done|]. split; [done|]. split; [by apply nothing_taken|done]. }
  destruct (fragment_run A r segs acks done h now id f Hf Hs Ha) as (res & out & A1 & new & segs1 & done1 & Hr1 & Hs1 & H1 & Hn1).
  destruct (IH A1 (segs1 ++ segs) done1 res) as (res2 & out2 & A2 & new2 & segs2 & done2 & Hr2 & Hs2 & H2 & Hn2);
    [apply H1|done|apply H1|].
  rewrite (bind_run_Some _ _ _ _ _ _ _ _ _ Hr1 Hr2). eexists _, _, A2, _, _, done2. split; [done|]. split; [done|].
  split; [by apply (sent_more_trans _ _ _ _ _ _ _ _ _ _ _ _ _ _ _ _ H1 H2)|].
  rewrite refusals_app. intros E. apply app_eq_nil in E as [E1 E2]. by rewrite (Hn1 E1), (Hn2 E2).
Qed.

(** The channel with its ARQ built and a message id drawn. *)
Record prepared (A A0 : udp_channel) : Prop := Prepared {
  pr_params : c_params A0 = c_params A;
  pr_reassembler : c_reassembler A0 = c_reassembler A;
  pr_open : c_open A0 = c_open A;
  pr_park : c_backpressure A0 = c_backpressure A;
  pr_arq : c_arq A0 = Some (arq_of A);
  pr_id : in_width 16 (c_out_msg_id A) -> in_width 16 (c_out_msg_id A0);
}.

Lemma prepared_flow A A0 r segs acks done h :
  prepared A A0 -> flow A r segs acks done h -> saturated A ->
  flow A0 r segs acks done h /\ saturated A0 /\ is_Some (c_arq A0).
Proof.
  intros [E1 _ _ E2 E3 _] [Hl Hp] Hs. unfold saturated, parked, arq_of in *. rewrite E3. cbn.
  split; [|split; [|done] ].
  - split; unfold parked, arq_of; by rewrite ?E2, ?E3.
  - by rewrite E2.
Qed.

(** A send on an open reliable channel: the message's segments are taken in order, or
    the application is told that some were not. *)
Lemma send_run A r segs acks done h now m :
  p_mode (c_params A) = mode_reliable_datagram -> flow A r segs acks done h -> saturated A -> c_open A = true ->
  exists out A', send sizeof_vector now m A = Some (tt, out, A') /\
    ((A' = A /\ datagrams out = [] /\ refusals out <> []) \/
     exists A0 new segs' done', prepared A A0 /\ saturated A' /\
       sent_more A0 A' r segs acks done h out new segs' done' /\
       (refusals out = [] -> new = segments_of (c_params A) (c_out_msg_id A) m)).
Proof.
  intros Hm Hf Hs Ho. unfold send, send_reliable. rewrite bind_gets, Hm. unfold segments_of, is_large.
  assert (forall (k : chan submit_result) P,
    (exists res out A', k A = Some (res, out, A') /\ P out A') -> exists out A', (k ≫= fun _ => mret tt) A = Some (tt, out, A') /\ P out A') as Hk.
  { intros k P (res & out & A' & Hrun & HP). rewrite (bind_run _ _ _ _ _ _ Hrun). cbn. rewrite app_nil_r. eauto. }
  apply Hk. rewrite bind_gets, Ho. cbn [negb]. rewrite bind_gets.
  destruct (zlen m + Z.of_nat udp_envelope_overhead + 1 >? p_max_payload (c_params A)).
  - unfold send_reliable_large. rewrite bind_gets. destruct (exceeds_max_message A (zlen m)).
    { unfold reject_oversize. rewrite bind_emit. cbn. eexists _, _, _. split; [done|]. by left. }
    rewrite (bind_run _ _ _ _ _ _ (ensure_arq_run A)). unfold next_out_msg_id.
    set (A1 := set_arq A _). set (A0 := set_out_msg_id A1 (wrap 16 (c_out_msg_id A1 + 1))).
    assert (prepared A A0) as Hpr by (split; try done; intros _; by apply wrap_range).
    destruct (prepared_flow A A0 r segs acks done h Hpr Hf Hs) as (Hf0 & Hs0 & Ha0).
    destruct (fragments_run A0 r segs acks done h now (c_out_msg_id A) ReliableArq.admitted (split m (p_max_payload (c_params A)) false).1
      Hf0 Hs0 Ha0) as (res & out & A' & new & segs' & done' & Hrun & Hsat & Hsm & Hnew).
    eexists res, out, A'. split; [|right; eauto 10]. unfold mbind at 1, prog_bind at 1.
    rewrite bind_gets, bind_modify. cbn [mret prog_ret]. fold A0. rewrite bind_gets.
    change (p_max_payload (c_params A0)) with (p_max_payload (c_params A)). change (c_out_msg_id A1) with (c_out_msg_id A).
    unfold mret, prog_ret. rewrite Hrun. done.
  - rewrite (bind_run _ _ _ _ _ _ (ensure_arq_run A)). set (A0 := set_arq A _).
    assert (prepared A A0) as Hpr by (by split).
    destruct (prepared_flow A A0 r segs acks done h Hpr Hf Hs) as (Hf0 & Hs0 & Ha0).
    destruct (push_run A0 r segs acks done h now false m Hf0 Hs0 Ha0) as (res & out & A' & new & segs' & done' & Hrun & Hsat & Hsm & Hnew).
    rewrite Hrun. cbn. eexists res, out, A'. split; [done|]. right. eauto 10.
Qed.

(** ** Draining the parking queue *)

Lemma drain_loop_run fuel A r segs acks done h now :
  flow A r segs acks done h -> is_Some (c_arq A) -> (length (parked A) < fuel)%nat ->
  exists out A' segs' done', drain_loop sizeof_vector fuel now A = Some (tt, out, A') /\ saturated A' /\
    sent_more A A' r segs acks done h out [] segs' done'.
Proof.
  revert A segs done. induction fuel as [|fuel IH]; intros A segs done Hf [a Ha] Hlen; [lia|]. cbn [drain_loop].
  rewrite !bind_gets, Ha. assert (arq_of A = a) as Ea by (unfold arq_of; by rewrite Ha).
  destruct (parked A) as [|[f p] todo] eqn:Epk.
  { assert (ParkQueue.empty (c_backpressure A) = true) as ->.
    { unfold parked in Epk. apply map_eq_nil in Epk. unfold ParkQueue.empty. by rewrite Epk. }
    eexists [], A, [], done. split; [done|]. split; [by intros Hc; rewrite Epk in Hc|]. by apply nothing_taken. }
  unfold parked in Epk. destruct (ParkQueue.m_queue (c_backpressure A)) as [|e rest] eqn:Eq; [done|].
  cbn [map] in Epk. injection Epk as Ef Ep Etodo. assert (ParkQueue.empty (c_backpressure A) = false) as ->
    by (unfold ParkQueue.empty; by rewrite Eq). cbn [orb].
  assert (ParkQueue.front (c_backpressure A) = Some p) as -> by (unfold ParkQueue.front; rewrite Eq; cbn; by rewrite Ep).
  assert (ParkQueue.front_fragmented (c_backpressure A) = Some f) as ->
    by (unfold ParkQueue.front_fragmented; rewrite Eq; cbn; by rewrite Ef).
  destruct (window_has_room a) eqn:Hroom; cbn [negb].
  2:{ eexists [], A, [], done. split; [done|]. split; [intros _; by rewrite Ea|]. by apply nothing_taken. }
  rewrite !bind_lift. pose proof Hf as [Hl Hpk]. assert (parked A = (f, p) :: todo) as Epk
    by (unfold parked; rewrite Eq; cbn; congruence). rewrite Epk in Hl.
  destruct (arq_submit_flow A r segs acks done todo h now f p Hl) as (out & A1 & Hrun & Ha1 & Hb1 & Hk1 & Hl1 & Hd1 & Hp1 & _);
    [done|by rewrite Ea|].
  rewrite (bind_run _ _ _ _ _ _ Hrun), bind_gets, Hb1.
  destruct (ParkQueue.park_pop _ e rest Hpk Eq) as (q' & -> & Hpk' & Eq' & _). rewrite bind_lift, bind_modify.
  set (A2 := set_backpressure A1 q'). set (x := s0 + zlen done) in *.
  assert (parked A2 = todo) as Epk2 by (unfold A2; by rewrite parked_set, Eq').
  assert (sent_more A A2 r segs acks done h out [] [NetSegment x (wire_seq x) f p] (done ++ [(f, p)])) as H1.
  { split; try done.
    - split; [|done]. rewrite Epk2, <- app_assoc, length_app, Nat.add_1_r. exact Hl1.
    - rewrite Epk2, Epk, app_nil_r, <- app_assoc. done.
    - by rewrite length_app.
    - rewrite Hd1. unfold label_from, wire_segment. cbn. by rewrite Z.add_0_r. }
  destruct (IH A2 _ _ (sm_flow _ _ _ _ _ _ _ _ _ _ _ H1)) as (out2 & A' & segs2 & done2 & Hr2 & Hs2 & H2);
    [done|rewrite Epk2; simpl in Hlen; lia|].
  rewrite Hr2. eexists _, A', _, done2. split; [done|]. split; [done|].
  by apply (sent_more_trans _ _ _ _ _ _ _ _ _ _ _ _ _ _ _ _ H1 H2).
Qed.

(** ** Acks and timers *)

(** A step of the ARQ that sends what [segs'] says and leaves the parking queue alone. *)
Lemma arq_stepped A A1 a' r segs segs' acks done h out :
  linked s0 (done ++ parked A) a' r (segs' ++ segs) acks (length done) h ->
  ParkQueue.park_inv (c_backpressure A) -> norm A1 = set_arq (norm A) (Some a') ->
  flow A1 r (segs' ++ segs) acks done h /\ arq_of A1 = a' /\ parked A1 = parked A /\ is_Some (c_arq A1) /\ keeps A A1 /\
  (segs' = [] -> datagrams out = [] -> posted out = [] -> sent_more A A1 r segs acks done h out [] [] done).
Proof.
  intros Hl Hpk Hn. destruct (norm_fields _ _ _ Hn) as (Ha1 & Hb1 & Hk1).
  assert (arq_of A1 = a') as Ea by (unfold arq_of; by rewrite Ha1).
  assert (parked A1 = parked A) as Ep by (unfold parked; by rewrite Hb1).
  assert (flow A1 r (segs' ++ segs) acks done h) as Hf by (split; [by rewrite Ea, Ep|by rewrite Hb1]).
  do 3 (split; [done|]). split; [by rewrite Ha1|]. split; [done|]. intros -> Hd Hp. split; try done.
  - by rewrite Ep, app_nil_r.
  - by rewrite Hd.
Qed.

Lemma slide_run A r segs acks done h now na :
  flow A r segs acks done h -> saturated A -> is_Some (c_arq A) -> na ∈ acks ->
  s0 + Z.of_nat h - half_space <= na_edge na ->
  exists out A' segs' done',
    arq_call sizeof_vector now (fun a => slide_to a now (wrap 16 (ack_cumulative (na_ack na) + 1))) A = Some (tt, out, A') /\
    saturated A' /\ sent_more A A' r segs acks done h out [] segs' done'.
Proof.
  intros [Hl Hpk] Hsat [a Ha] Hin Hnear. assert (arq_of A = a) as Ea by (unfold arq_of; by rewrite Ha). rewrite Ea in Hl.
  destruct (linked_slide s0 _ a r segs acks _ h na now Hl Hin Hnear) as (evs & a' & Hsl & Hroom & Hl').
  destruct (slide_to_events _ _ _ _ _ Hsl) as (evs0 & [Hse Hsent] & Hevs).
  unfold arq_call. rewrite bind_gets, Ha, bind_lift, Hsl, bind_lift. cbn beta iota. rewrite bind_modify, Hevs.
  destruct (sender_events_run sizeof_vector now evs0 (set_arq A (Some a')) Hse) as (out & A1 & _ & Hrun & Hn & Hd & Hp & _).
  rewrite Hsent in Hd. destruct (arq_stepped A A1 a' r segs [] acks done h out Hl' Hpk Hn) as (Hf1 & Ea1 & Ep1 & Ha1 & _ & H1).
  specialize (H1 eq_refl Hd Hp). rewrite (each_app _ _ _ _ _ _ Hrun).
  destruct (m_base a' =? m_base a) eqn:Eb; cbn [negb].
  - cbn. rewrite app_nil_r. exists out, A1, [], done. split; [done|]. split; [|done].
    intros Hne. rewrite Ea1, Hroom by (by apply Z.eqb_eq). rewrite Ep1 in Hne. rewrite <- Ea. by apply Hsat.
  - destruct (drain_loop_run (S (length (parked A1))) A1 r segs acks done h now Hf1 Ha1) as (out2 & A2 & segs2 & done2 & Hr2 & Hs2 & H2); [lia|].
    cbn [each arq_event_callback]. unfold drain_backpressure.
    assert (ParkQueue.size (c_backpressure A1) = length (parked A1)) as Esz by (unfold parked, ParkQueue.size; by rewrite length_map).
    unfold mbind at 1, prog_bind at 1. rewrite bind_gets, Esz, Hr2. cbn. rewrite app_nil_r.
    exists (out ++ out2), A2, segs2, done2. split; [done|]. split; [done|].
    by apply (sent_more_trans _ _ _ _ _ _ _ _ _ _ _ _ _ _ _ _ H1 H2).
Qed.

Lemma holes_run A r segs acks done h now na holes :
  flow A r segs acks done h -> saturated A -> is_Some (c_arq A) -> na ∈ acks ->
  s0 + Z.of_nat h - half_space <= na_edge na ->
  exists out A', arq_call sizeof_vector now (fun a => ack_holes a now (na_ack na) holes) A = Some (tt, out, A') /\
    saturated A' /\ sent_more A A' r segs acks done h out [] [] done.
Proof.
  intros [Hl Hpk] Hsat [a Ha] Hin Hnear. assert (arq_of A = a) as Ea by (unfold arq_of; by rewrite Ha). rewrite Ea in Hl.
  destruct (linked_holes s0 _ a r segs acks _ h na now holes Hl Hin Hnear) as (evs & a' & Hah & Hroom & Hl').
  destruct (ack_holes_events _ _ _ _ _ _ Hah) as [Hse Hsent].
  destruct (arq_call_run sizeof_vector now (fun a => ack_holes a now (na_ack na) holes) A a evs a' Ha Hah Hse)
    as (out & A1 & Hrun & Hn & Hd & Hp & _). rewrite Hsent in Hd.
  destruct (arq_stepped A A1 a' r segs [] acks done h out Hl' Hpk Hn) as (_ & Ea1 & Ep1 & _ & _ & H1).
  exists out, A1. split; [done|]. split; [|by apply H1]. intros Hne. rewrite Ea1, Hroom, <- Ea. apply Hsat. by rewrite <- Ep1.
Qed.

Lemma ack_run A r segs acks done h now na :
  flow A r segs acks done h -> saturated A -> is_Some (c_arq A) -> na ∈ acks ->
  s0 + Z.of_nat h - half_space <= na_edge na ->
  exists out A' segs' done', arq_on_ack sizeof_vector now (na_ack na) A = Some (tt, out, A') /\
    saturated A' /\ sent_more A A' r segs acks done h out [] segs' done'.
Proof.
  intros Hf Hs Ha Hin Hnear. unfold arq_on_ack.
  destruct (slide_run A r segs acks done h now na Hf Hs Ha Hin Hnear) as (out1 & A1 & segs1 & done1 & Hr1 & Hs1 & H1).
  destruct (holes_run A1 r (segs1 ++ segs) acks done1 h now na (seq 0 ack_bitmap_bits)) as (out2 & A2 & Hr2 & Hs2 & H2);
    [apply H1|done|apply H1|done|done|].
  rewrite (bind_run_Some _ _ _ _ _ _ _ _ _ Hr1 Hr2). exists (out1 ++ out2), A2, (segs1 ++ []), done1.
  split; [done|]. split; [done|]. by apply (sent_more_trans _ _ _ _ _ _ _ _ _ _ _ _ _ _ _ _ H1 H2).
Qed.

Lemma timer_run A r segs acks done h now m ec :
  flow A r segs acks done h -> saturated A -> is_Some (c_arq A) -> s0 <= m < s0 + zlen done ->
  exists out A' segs', on_retransmit_timer sizeof_vector now (wire_seq m) ec A = Some (tt, out, A') /\
    saturated A' /\ flow A' r (segs' ++ segs) acks done h /\ parked A' = parked A /\ is_Some (c_arq A') /\ keeps A A' /\
    map (fun d => (m, d)) (datagrams out) = map wire_segment segs'.
Proof.
  intros [Hl Hpk] Hsat [a Ha] Hm. assert (arq_of A = a) as Ea by (unfold arq_of; by rewrite Ha). rewrite Ea in Hl.
  destruct (linked_timer s0 _ a r segs acks _ h m ec Hl Hm) as (evs & a' & Ht & Hroom & Hl').
  destruct (arq_call_run sizeof_vector now (fun a => on_timer a (wire_seq m) ec) A a evs a' Ha Ht (on_timer_events _ _ _ _ _ Ht))
    as (out & A1 & Hrun & Hn & Hd & Hp & _).
  destruct (arq_stepped A A1 a' r segs (label m evs) acks done h out Hl' Hpk Hn) as (Hf1 & Ea1 & Ep1 & Ha1 & Hk1 & _).
  exists out, A1, (label m evs). split; [exact Hrun|]. split.
  { intros Hne. rewrite Ea1, Hroom, <- Ea. apply Hsat. by rewrite <- Ep1. }
  do 4 (split; [done|]). rewrite Hd. unfold label. by rewrite !map_map.
Qed.

End Flow.

(** ** The receiving channel *)

Section Receive.
Context {host : Host} (sizeof_vector : Z).

Lemma inbound_segment now q f p c :
  in_width 16 q -> p_mode (c_params c) = mode_reliable_datagram ->
  deliver_inbound sizeof_vector now (segment_datagram q f p) c =
  (emit (OnReliableSegment q p) ;; ensure_arq ;; arq_call sizeof_vector now (fun a => on_segment a q f p)) c.
Proof.
  intros Hq Hm. unfold deliver_inbound, segment_datagram.
  rewrite unwrap_udp_layout by (done || by vm_compute). cbn [ue_kind]. change (kind_reliable_arq =? kind_best_effort) with false.
  cbn match. rewrite bind_gets, Hm. cbn [ue_seq ue_fragmented ue_frame]. unfold deliver_reliable.
  assert (peek_udp_arq_kind (be_bytes 1 (arq_kind_code arq_segment) ++ p) = Some arq_segment) as -> by done.
  assert (decode_udp_segment (be_bytes 1 (arq_kind_code arq_segment) ++ p) = Some p) as -> by done. done.
Qed.

Lemma inbound_ack now ack c :
  udp_ack_ok ack -> p_mode (c_params c) = mode_reliable_datagram ->
  deliver_inbound sizeof_vector now (ack_datagram ack) c =
  match c_arq c with Some _ => arq_on_ack sizeof_vector now ack c | None => Some (tt, [], c) end.
Proof.
  intros [Hl Hc] Hm. unfold deliver_inbound, ack_datagram.
  rewrite unwrap_udp_layout by (done || by vm_compute). cbn [ue_kind]. change (kind_reliable_arq =? kind_best_effort) with false.
  cbn match. rewrite bind_gets, Hm. cbn [ue_seq ue_fragmented ue_frame]. unfold deliver_reliable.
  assert (peek_udp_arq_kind (be_bytes 1 (arq_kind_code arq_ack) ++ be_bytes 2 (ack_cumulative ack) ++ ack_selective ack)
          = Some arq_ack) as -> by done.
  rewrite bind_gets, decode_udp_ack_layout by done. by destruct (c_arq c).
Qed.

(** A segment accepted by the receiver's ARQ. *)
Lemma segment_run now q f p B ds ack r' ms o :
  in_width 16 q -> p_mode (c_params B) = mode_reliable_datagram ->
  on_segment (arq_of B) q f p = Some (map Deliver ds ++ [SendAck ack], r') -> udp_ack_ok ack ->
  deliver_all sizeof_vector (c_params B) (c_reassembler B) (map (fun d => (d.1.2, d.2)) ds) = Some (ms, o) ->
  exists out B', deliver_inbound sizeof_vector now (segment_datagram q f p) B = Some (tt, out, B') /\
    posted out = ms /\ datagrams out = [ack_datagram ack] /\ arq_of B' = r' /\ c_reassembler B' = o /\
    c_params B' = c_params B.
Proof.
  intros Hq Hm Hseg Hack Hdel. rewrite inbound_segment by done. rewrite bind_emit.
  rewrite (bind_run _ _ _ _ _ _ (ensure_arq_run B)). unfold arq_call. rewrite bind_gets. cbn [set_arq c_arq].
  rewrite bind_lift, Hseg, bind_lift. cbn beta iota. rewrite bind_modify.
  destruct (segment_callbacks_run sizeof_vector now ds ack (set_arq (set_arq B (Some (arq_of B))) (Some r')) ms o Hack Hdel)
    as (out & B' & -> & Hp & Hd & Hn).
  eexists _, B'. split; [done|]. split_and!; try done.
  - unfold arq_of. apply (f_equal c_arq) in Hn. cbn in Hn. by rewrite Hn.
  - by apply (f_equal c_reassembler) in Hn.
  - by apply (f_equal c_params) in Hn.
Qed.

End Receive.

(** ** Two channels and the network between them *)

(** What the two ends agree on. *)
Record ends_ok (sizeof_vector : Z) (pa pb : channel_params) : Prop := EndsOk {
  eo_mode_a : p_mode pa = mode_reliable_datagram;
  eo_mode_b : p_mode pb = mode_reliable_datagram;
  eo_cfg : p_arq_cfg pb = p_arq_cfg pa;
  eo_seq : p_initial_seq pb = p_initial_seq pa;
  eo_seq_width : in_width 16 (p_initial_seq pa);
  eo_window : arq_window_ok (cfg_window (p_arq_cfg pa));
  eo_limits : limits_ok sizeof_vector (reassembly_config pb);
}.

(** The datagrams under way carry the number of their segment, or the receiver's
    position for an ack; [sy_handed] counts the segments the receiver's ARQ has handed
    over. *)
Record system : Type := System {
  sy_a : udp_channel;
  sy_b : udp_channel;
  sy_forward : list (Z * bytes);
  sy_back : list (Z * bytes);
  sy_messages : list (Z * bytes);
  sy_handed : nat;
  sy_posted : list bytes;
}.

Section System.
Context {host : Host} (sizeof_vector : Z) (pa pb : channel_params).

#[local] Abbreviation s0 := (p_initial_seq pa).

Definition system_new (backpressure_a backpressure_b : Z) : system :=
  System (udp_channel_new pa backpressure_a) (udp_channel_new pb backpressure_b) [] [] [] 0 [].

(** The segments of the accepted messages, the number the sender submits next and the
    number the receiver waits for. *)
Definition accepted (s : system) : list (bool * bytes) := stream pa (sy_messages s).
Definition next_seq (s : system) : Z := s0 + (zlen (accepted s) - zlen (parked (sy_a s))).
Definition expected_seq (s : system) : Z := s0 + Z.of_nat (sy_handed s).

Definition recv_expected (c : udp_channel) : Z := ReorderBuffer.m_expected (m_recv (arq_of c)).

Inductive sys_step : system -> system -> Prop :=
| step_send s now m evs a :
    c_open (sy_a s) = true -> deliverable sizeof_vector pa pb m ->
    send sizeof_vector now m (sy_a s) = Some (tt, evs, a) -> refusals evs = [] ->
    sys_step s (System a (sy_b s) (label_from (next_seq s) (datagrams evs) ++ sy_forward s) (sy_back s)
                  (sy_messages s ++ [(c_out_msg_id (sy_a s), m)]) (sy_handed s) (sy_posted s))
| step_refused s now m evs a :
    (** a send refused as a whole *)
    send sizeof_vector now m (sy_a s) = Some (tt, evs, a) ->
    c_arq a = c_arq (sy_a s) -> c_backpressure a = c_backpressure (sy_a s) ->
    c_params a = c_params (sy_a s) -> in_width 16 (c_out_msg_id a) ->
    sys_step s (System a (sy_b s) (sy_forward s) (sy_back s) (sy_messages s) (sy_handed s) (sy_posted s))
| step_expiry s now n ec evs a :
    s0 <= n < next_seq s -> on_retransmit_timer sizeof_vector now (wire_seq n) ec (sy_a s) = Some (tt, evs, a) ->
    sys_step s (System a (sy_b s) (map (fun d => (n, d)) (datagrams evs) ++ sy_forward s) (sy_back s)
                  (sy_messages s) (sy_handed s) (sy_posted s))
| step_datagram s now n d evs b :
    (n, d) ∈ sy_forward s -> expected_seq s - half_space <= n ->
    deliver_inbound sizeof_vector now d (sy_b s) = Some (tt, evs, b) ->
    let handed := (sy_handed s + Z.to_nat (wrap 16 (recv_expected b - recv_expected (sy_b s))))%nat in
    sys_step s (System (sy_a s) b (sy_forward s)
                  (map (fun d => (s0 + Z.of_nat handed, d)) (datagrams evs) ++ sy_back s)
                  (sy_messages s) handed (sy_posted s ++ posted evs))
| step_ack_datagram s now e d evs a :
    (e, d) ∈ sy_back s -> expected_seq s - half_space <= e ->
    deliver_inbound sizeof_vector now d (sy_a s) = Some (tt, evs, a) ->
    sys_step s (System a (sy_b s) (label_from (next_seq s) (datagrams evs) ++ sy_forward s) (sy_back s)
                  (sy_messages s) (sy_handed s) (sy_posted s)).

Inductive sys_reachable (cap_a cap_b : Z) : system -> Prop :=
| sys_start : sys_reachable cap_a cap_b (system_new cap_a cap_b)
| sys_next s s' : sys_reachable cap_a cap_b s -> sys_step s s' -> sys_reachable cap_a cap_b s'.

(** ** The invariant *)

Record sys_inv (s : system) (segs : list net_segment) (acks : list net_ack) (done : list (bool * bytes)) : Prop := SysInv {
  sv_flow : flow s0 (sy_a s) (arq_of (sy_b s)) segs acks done (sy_handed s);
  sv_saturated : saturated (sy_a s);
  sv_arq : done <> [] -> is_Some (c_arq (sy_a s));
  sv_accepted : accepted s = done ++ parked (sy_a s);
  sv_forward : sy_forward s = map wire_segment segs;
  sv_back : sy_back s = map wire_ack acks;
  sv_acks : Forall (fun na => udp_ack_ok (na_ack na)) acks;
  sv_params : c_params (sy_a s) = pa /\ c_params (sy_b s) = pb;
  sv_id : in_width 16 (c_out_msg_id (sy_a s));
  sv_messages : Forall (fun '(id, m) => in_width 16 id /\ deliverable sizeof_vector pa pb m) (sy_messages s);
  sv_handed : (sy_handed s <= length done)%nat;
  sv_posted : deliver_all sizeof_vector pb None (take (sy_handed s) (accepted s))
              = Some (sy_posted s, c_reassembler (sy_b s));
}.

Lemma next_seq_done s segs acks done : sys_inv s segs acks done -> next_seq s = s0 + zlen done.
Proof. intros H. unfold next_seq. rewrite (sv_accepted _ _ _ _ H), zlen_app. lia. Qed.

Lemma linked_width l a r segs acks n h seg :
  linked s0 l a r segs acks n h -> seg ∈ segs -> in_width 16 (ns_seq seg).
Proof.
  intros Hl Hin. destruct (Hl _ (agrees_src_of s0 l)) as (b & fed & Hinv).
  destruct (li_segments _ _ _ _ _ Hinv seg Hin) as [-> _]. by apply wrap_range.
Qed.

Context (Hends : ends_ok sizeof_vector pa pb).

Lemma sys_inv_start cap_a cap_b :
  in_width 64 (Z.max cap_a (p_max_message_bytes pa)) -> sys_inv (system_new cap_a cap_b) [] [] [].
Proof.
  intros Hcap. destruct Hends. split; try done; [|by intros Hne].
  split; [|by apply ParkQueue.park_new]. intros src _. exists s0, ∅.
  pose proof (link_inv_start src (p_arq_cfg pa) s0 eo_window0) as H. unfold link_new in H.
  assert (wire_seq s0 = s0) as Hw by (by apply wrap_small). rewrite Hw in H.
  unfold arq_of. cbn. rewrite eo_cfg0, eo_seq0. exact H.
Qed.

(** ** Preservation *)

(** The sender's side of a step. *)
Lemma sys_inv_sender s segs acks done A0 A' out new segs' done' ms :
  sys_inv s segs acks done -> saturated A' ->
  sent_more s0 A0 A' (arq_of (sy_b s)) segs acks done (sy_handed s) out new segs' done' ->
  c_params A0 = pa -> parked A0 = parked (sy_a s) -> in_width 16 (c_out_msg_id A0) ->
  stream pa ms = new -> Forall (fun '(id, m) => in_width 16 id /\ deliverable sizeof_vector pa pb m) ms ->
  sys_inv (System A' (sy_b s) (label_from (next_seq s) (datagrams out) ++ sy_forward s) (sy_back s)
             (sy_messages s ++ ms) (sy_handed s) (sy_posted s)) (segs' ++ segs) acks done'.
Proof.
  intros Hi Hsat [F Q K T L W P] Hpar Hpk Hid Hst Hms. pose proof (next_seq_done _ _ _ _ Hi) as Hnext.
  destruct Hi as [_ _ Harq Hacc Hfw Hbk Hak [_ Hpb] _ Hm Hh Hpo]. destruct K as (K1 & K2 & K3 & K4).
  assert (stream pa (sy_messages s ++ ms) = done' ++ parked A') as Hacc'.
  { unfold stream. rewrite map_app, concat_app. fold (stream pa (sy_messages s)) (stream pa ms).
    rewrite Hst, T, Hpk, app_assoc. f_equal. exact Hacc. }
  split; cbn [sy_a sy_b sy_forward sy_back sy_messages sy_handed sy_posted]; try done.
  - by rewrite Hnext, W, map_app, Hfw.
  - by rewrite K1.
  - by rewrite K4.
  - by apply Forall_app.
  - lia.
  - unfold accepted in *. cbn [sy_messages]. rewrite <- Hpo. f_equal. unfold stream. rewrite map_app, concat_app.
    fold (stream pa (sy_messages s)). rewrite take_app_le; [done|]. rewrite Hacc, length_app. lia.
Qed.

Lemma sys_inv_send s segs acks done now m evs a :
  sys_inv s segs acks done -> c_open (sy_a s) = true -> deliverable sizeof_vector pa pb m ->
  send sizeof_vector now m (sy_a s) = Some (tt, evs, a) -> refusals evs = [] ->
  exists segs' done', sys_inv (System a (sy_b s) (label_from (next_seq s) (datagrams evs) ++ sy_forward s) (sy_back s)
        (sy_messages s ++ [(c_out_msg_id (sy_a s), m)]) (sy_handed s) (sy_posted s)) (segs' ++ segs) acks done'.
Proof.
  intros Hi Ho Hm Hsend Href. pose proof Hi as [Hf Hs _ _ _ _ _ [Hpa _] Hid _ _ _]. destruct Hends.
  destruct (send_run sizeof_vector s0 (sy_a s) (arq_of (sy_b s)) segs acks done (sy_handed s) now m)
    as (out & A' & Hrun & Hcase); [by rewrite Hpa|done..|].
  rewrite Hsend in Hrun. injection Hrun as <- <-. destruct Hcase as [(_ & _ & Hne)|Hcase]; [done|].
  destruct Hcase as (A0 & new & segs' & done' & Hpr & Hsat & Hsm & Hnew). exists segs', done'.
  apply (sys_inv_sender s segs acks done A0 a evs new segs' done' [(c_out_msg_id (sy_a s), m)]); try done.
  - by rewrite (pr_params _ _ Hpr).
  - unfold parked. by rewrite (pr_park _ _ Hpr).
  - by apply (pr_id _ _ Hpr).
  - rewrite (Hnew Href), Hpa. unfold stream. cbn. by rewrite app_nil_r.
  - constructor; [done|constructor].
Qed.

Lemma sys_inv_refused s segs acks done a :
  sys_inv s segs acks done -> c_arq a = c_arq (sy_a s) -> c_backpressure a = c_backpressure (sy_a s) ->
  c_params a = c_params (sy_a s) -> in_width 16 (c_out_msg_id a) ->
  sys_inv (System a (sy_b s) (sy_forward s) (sy_back s) (sy_messages s) (sy_handed s) (sy_posted s)) segs acks done.
Proof.
  intros [Hf Hs Harq Hacc Hfw Hbk Hak [Hpa Hpb] Hid Hm Hh Hpo] E1 E2 E3 Hid'.
  split; cbn [sy_a sy_b sy_forward sy_back sy_messages sy_handed sy_posted]; try done.
  - by apply (flow_ext s0 (sy_a s)).
  - by apply (saturated_ext (sy_a s)).
  - by rewrite E1.
  - unfold accepted, parked in *. by rewrite E2.
  - by rewrite E3.
Qed.

Lemma sys_inv_expiry s segs acks done now n ec :
  sys_inv s segs acks done -> s0 <= n < next_seq s ->
  exists evs a segs', on_retransmit_timer sizeof_vector now (wire_seq n) ec (sy_a s) = Some (tt, evs, a) /\
    sys_inv (System a (sy_b s) (map (fun d => (n, d)) (datagrams evs) ++ sy_forward s) (sy_back s)
               (sy_messages s) (sy_handed s) (sy_posted s)) (segs' ++ segs) acks done.
Proof.
  intros Hi Hn. rewrite (next_seq_done _ _ _ _ Hi) in Hn.
  pose proof Hi as [Hf Hs Harq Hacc Hfw Hbk Hak [Hpa Hpb] Hid Hm Hh Hpo].
  destruct (timer_run sizeof_vector s0 (sy_a s) (arq_of (sy_b s)) segs acks done (sy_handed s) now n ec Hf Hs)
    as (out & A' & segs' & Hrun & Hsat & Hf' & Hpk & Ha' & (K1 & _ & _ & K4) & Hw);
    [apply Harq; intros ->; unfold zlen in Hn; simpl in Hn; lia|done|].
  exists out, A', segs'. split; [done|].
  split; cbn [sy_a sy_b sy_forward sy_back sy_messages sy_handed sy_posted]; try done.
  - by rewrite Hpk.
  - by rewrite Hw, map_app, Hfw.
  - by rewrite K1.
  - by rewrite K4.
Qed.

Lemma sys_inv_ack s segs acks done now e d :
  sys_inv s segs acks done -> (e, d) ∈ sy_back s -> expected_seq s - half_space <= e ->
  exists evs a segs' done', deliver_inbound sizeof_vector now d (sy_a s) = Some (tt, evs, a) /\
    sys_inv (System a (sy_b s) (label_from (next_seq s) (datagrams evs) ++ sy_forward s) (sy_back s)
               (sy_messages s) (sy_handed s) (sy_posted s)) (segs' ++ segs) acks done'.
Proof.
  intros Hi Hin He. pose proof Hi as [Hf Hs Harq Hacc Hfw Hbk Hak [Hpa Hpb] Hid Hm Hh Hpo].
  rewrite Hbk in Hin. apply list_elem_of_In, in_map_iff in Hin as (na & E & Hin). apply list_elem_of_In in Hin.
  injection E as <- <-. rewrite inbound_ack;
    [|by eapply (Forall_forall (fun na => udp_ack_ok (na_ack na)) acks)|rewrite Hpa; apply Hends].
  destruct (c_arq (sy_a s)) as [a|] eqn:Ea.
  - destruct (ack_run sizeof_vector s0 (sy_a s) (arq_of (sy_b s)) segs acks done (sy_handed s) now na Hf Hs)
      as (out & A' & segs' & done' & Hrun & Hsat & Hsm); [by rewrite Ea|done|done|].
    exists out, A', segs', done'. split; [done|]. rewrite <- (app_nil_r (sy_messages s)).
    by apply (sys_inv_sender s segs acks done (sy_a s) A' out [] segs' done' []).
  - exists [], (sy_a s), [], done. split; [done|]. by destruct s.
Qed.

Lemma sys_inv_datagram s segs acks done now n d :
  sys_inv s segs acks done -> (n, d) ∈ sy_forward s -> expected_seq s - half_space <= n ->
  exists evs b acks', deliver_inbound sizeof_vector now d (sy_b s) = Some (tt, evs, b) /\
    let handed := (sy_handed s + Z.to_nat (wrap 16 (recv_expected b - recv_expected (sy_b s))))%nat in
    sys_inv (System (sy_a s) b (sy_forward s)
               (map (fun d => (s0 + Z.of_nat handed, d)) (datagrams evs) ++ sy_back s)
               (sy_messages s) handed (sy_posted s ++ posted evs)) segs acks' done.
Proof.
  intros Hi Hin He. pose proof Hi as [Hf Hs Harq Hacc Hfw Hbk Hak [Hpa Hpb] Hid Hm Hh Hpo]. pose proof Hends as [_ Hmode _ _ _ _ Hlim].
  rewrite Hfw in Hin. apply list_elem_of_In, in_map_iff in Hin as (seg & E & Hin). apply list_elem_of_In in Hin.
  injection E as <- <-. destruct Hf as [Hl Hpark].
  destruct (linked_segment s0 _ _ _ segs acks _ (sy_handed s) seg Hl) as (ds & ack & r' & Hseg & Hack & Hds & Hle & Hexp & Hl');
    [rewrite length_app; lia|done|done|].
  rewrite <- Hacc in Hds.
  destruct (deliver_stream sizeof_vector pa pb (sy_messages s) None (take (sy_handed s + length ds) (accepted s))
    (drop (sy_handed s + length ds) (accepted s)) Hlim Hm) as (ms' & o' & Hdel & _); [by left|by rewrite take_drop|].
  assert (take (sy_handed s + length ds) (accepted s)
          = take (sy_handed s) (accepted s) ++ take (length ds) (drop (sy_handed s) (accepted s))) as Htk
    by (by rewrite take_take_drop).
  pose proof Hdel as Hdel'. rewrite Htk, deliver_all_app, Hpo in Hdel. cbn [mbind option_bind] in Hdel.
  apply bind_Some in Hdel as ([ms2 o2] & Hdel2 & Heq). simplify_eq. rewrite <- Hds in Hdel2.
  destruct (segment_run sizeof_vector now (ns_seq seg) (ns_fragmented seg) (ns_data seg) (sy_b s) ds ack r' ms2 o')
    as (out & b & Hrun & Hp & Hd & Er & Eo & Epar); [by eapply linked_width|by rewrite Hpb|done|done|by rewrite Hpb|].
  assert (Z.to_nat (wrap 16 (recv_expected b - recv_expected (sy_b s))) = length ds) as Hk
    by (unfold recv_expected; rewrite Er, Hexp; apply zlen_to_nat).
  exists out, b, (NetAck (s0 + Z.of_nat (sy_handed s + length ds)) ack :: acks). split; [exact Hrun|]. cbn zeta. rewrite Hk.
  split; cbn [sy_a sy_b sy_forward sy_back sy_messages sy_handed sy_posted]; try done.
  - split; [|done]. by rewrite Er.
  - by rewrite Hd, Hbk.
  - by constructor.
  - by rewrite Epar.
  - unfold accepted in *. cbn [sy_messages]. by rewrite Hdel', Hp, Eo.
Qed.

Lemma sys_reachable_inv cap_a cap_b s :
  in_width 64 (Z.max cap_a (p_max_message_bytes pa)) -> sys_reachable cap_a cap_b s ->
  exists segs acks done, sys_inv s segs acks done.
Proof.
  intros Hcap. induction 1 as [|s s' _ (segs & acks & done & IH) Hstep]; [by eexists _, _, _; apply sys_inv_start|].
  destruct Hstep as [s now m evs a Ho Hm Hsend Href|s now m evs a _ E1 E2 E3 Hid|s now n ec evs a Hn Hrun
                    |s now n d evs b Hin He Hrun|s now e d evs a Hin He Hrun].
  - destruct (sys_inv_send s segs acks done now m evs a) as (segs' & done' & ?); [done..|]. by eexists _, _, _.
  - eexists _, _, _. by apply sys_inv_refused.
  - destruct (sys_inv_expiry s segs acks done now n ec IH Hn) as (evs' & a' & segs' & Hrun' & ?).
    rewrite Hrun in Hrun'. simplify_eq. by eexists _, _, _.
  - destruct (sys_inv_datagram s segs acks done now n d IH Hin He) as (evs' & b' & acks' & Hrun' & ?).
    rewrite Hrun in Hrun'. simplify_eq. by eexists _, _, _.
  - destruct (sys_inv_ack s segs acks done now e d IH Hin He) as (evs' & a' & segs' & done' & Hrun' & ?).
    rewrite Hrun in Hrun'. simplify_eq. by eexists _, _, _.
Qed.

(** Nothing in flight and nothing parked: everything has been handed over. *)
Lemma all_handed s segs acks done :
  sys_inv s segs acks done -> in_flight (arq_of (sy_a s)) = 0 -> parked (sy_a s) = [] ->
  sy_handed s = length (accepted s).
Proof.
  intros Hi Hfl Hpk. pose proof Hi as [ [Hl _] _ _ Hacc _ _ _ _ _ _ Hh _].
  destruct (Hl _ (agrees_src_of s0 _)) as (b & fed & [Hsend _ Ho _ _ _ _ _ _ _]).
  rewrite expected_linked in Ho. cbn [l_sender] in Hsend. unfold next_number in *. cbn [l_submitted] in *.
  destruct Hsend as [ (_ & _ & Hhalf) _ Hb Hx Hr _]. unfold in_flight in Hfl.
  rewrite Hb, Hx, wire_seq_distance, decide_True in Hfl by (unfold near, half_space in *; lia).
  rewrite Hacc, Hpk, app_nil_r. lia.
Qed.

(** C6: Two reliable UDP channels joined by a network that loses, duplicates, delays
    and reorders datagrams (within half the sequence space): the messages posted to the
    receiving application are a prefix of those the sender accepted, byte for byte and in
    order, each once, whether they were sent whole or in fragments, at once or after
    being parked; once nothing is in flight and nothing is parked all of them have been
    posted; while a segment is parked the window is full, so no later one overtakes it;
    and every send, expiry, datagram and ack is processed to its end.  Assumed of the two
    ends ([ends_ok]): reliable mode, the same ARQ configuration and initial sequence number,
    a window that is positive, divides 65536 and is below 32768, and consistent reassembly
    limits at the receiver.  Assumed of the messages ([deliverable]): one that is cut has a
    positive fragment budget, at most [max_fragment_count] fragments, and fits the receiver's
    message ceiling and reassembly budget.  Assumed of the run: sends are accepted or refused
    as a whole and no reassembly times out. *)
Theorem udp_reliable_messages_in_order (cap_a cap_b : Z) (s : system) (now : Z) :
  in_width 64 (Z.max cap_a (p_max_message_bytes pa)) -> sys_reachable cap_a cap_b s ->
  sy_posted s `prefix_of` map snd (sy_messages s) /\
  (in_flight (arq_of (sy_a s)) = 0 -> parked (sy_a s) = [] -> sy_posted s = map snd (sy_messages s)) /\
  (parked (sy_a s) <> [] -> window_has_room (arq_of (sy_a s)) = false) /\
  (c_open (sy_a s) = true -> forall m, is_Some (send sizeof_vector now m (sy_a s))) /\
  (forall n ec, s0 <= n < next_seq s -> is_Some (on_retransmit_timer sizeof_vector now (wire_seq n) ec (sy_a s))) /\
  (forall n d, (n, d) ∈ sy_forward s -> expected_seq s - half_space <= n ->
     is_Some (deliver_inbound sizeof_vector now d (sy_b s))) /\
  (forall e d, (e, d) ∈ sy_back s -> expected_seq s - half_space <= e ->
     is_Some (deliver_inbound sizeof_vector now d (sy_a s))).
Proof.
  intros Hcap Hreach. destruct (sys_reachable_inv cap_a cap_b s Hcap Hreach) as (segs & acks & done & Hi).
  pose proof Hi as [Hf Hs _ Hacc _ _ _ [Hpa _] _ Hm Hh Hpo].
  destruct (deliver_stream sizeof_vector pa pb (sy_messages s) None (take (sy_handed s) (accepted s))
    (drop (sy_handed s) (accepted s)) (eo_limits _ _ _ Hends) Hm) as (ms' & o' & Hdel & Hpre & Hall);
    [by left|by rewrite take_drop|].
  rewrite Hpo in Hdel. simplify_eq. split; [done|]. split.
  { intros Hfl Hpk. apply Hall. apply drop_ge. by rewrite (all_handed _ _ _ _ Hi Hfl Hpk). }
  split; [done|]. split.
  { intros Ho m. destruct (send_run sizeof_vector s0 (sy_a s) (arq_of (sy_b s)) segs acks done (sy_handed s) now m)
      as (out & A' & -> & _); [rewrite Hpa; apply Hends|done..]. }
  split; [|split].
  - intros n ec Hn. destruct (sys_inv_expiry s segs acks done now n ec Hi Hn) as (? & ? & ? & -> & _). by eexists.
  - intros n d Hin He. destruct (sys_inv_datagram s segs acks done now n d Hi Hin He) as (? & ? & ? & -> & _). by eexists.
  - intros e d Hin He. destruct (sys_inv_ack s segs acks done now e d Hi Hin He) as (? & ? & ? & ? & -> & _). by eexists.
Qed.

End System.

(** ** A run: a message in two fragments, the second of which arrives first *)

#[local] Instance little_host : Host := little.

Definition sample_params : channel_params :=
  ChannelParams 150 1000 100000 5000 four_window block mode_reliable_datagram 65535.

Lemma sample_ends : ends_ok 24 sample_params sample_params.
Proof. split; try done; try apply four_window_ok; split_and!; by vm_compute. Qed.

Definition sample_message : bytes := replicate 140 Byte.x2a ++ replicate 20 Byte.x07.

Lemma sample_run :
  exists s, sys_reachable (host := little_host) 24 sample_params sample_params 0 0 s /\
    sy_messages s = [(0, sample_message)] /\ in_flight (arq_of (sy_a s)) = 0 /\ parked (sy_a s) = [].
Proof.
  eexists. split.
  - eapply sys_next; [eapply sys_next; [eapply sys_next; [eapply sys_next; [apply sys_start|]|]|]|].
    + eapply (step_send _ _ _ _ 0 sample_message); [reflexivity| |vm_compute; reflexivity|vm_compute; reflexivity].
      intros _. split_and!; by vm_compute.
    + eapply (step_datagram _ _ _ _ 0 65536); [vm_compute; right; left|by vm_compute|vm_compute; reflexivity].
    + eapply (step_datagram _ _ _ _ 0 65535); [vm_compute; left|by vm_compute|vm_compute; reflexivity].
    + eapply (step_ack_datagram _ _ _ _ 0 65537); [vm_compute; left|by vm_compute|vm_compute; reflexivity].
  - vm_compute. done.
Qed.

Lemma udp_reliable_messages_in_order_witness :
  exists s, sys_reachable (host := little_host) 24 sample_params sample_params 0 0 s /\ sy_posted s = [sample_message].
Proof.
  destruct sample_run as (s & H & Hm & Hfl & Hpk). exists s. split; [exact H|].
  destruct (udp_reliable_messages_in_order 24 sample_params sample_params sample_ends 0 0 s 0) as (_ & Hall & _);
    [by vm_compute|exact H|]. rewrite (Hall Hfl Hpk), Hm. reflexivity.
Defined.
