(* ===== verification/Atomics.v ===== *)
(** * Threads that share atomic memory

    The shared-memory ring is used by threads of several processes that communicate through
    atomic words only.  A [thread] is a computation as a tree of its accesses: each node is one
    atomic operation, and between two nodes any other thread may run.  Threads interleave
    sequentially consistently.  A loop that waits for others has no bound; it is unrolled as
    often as its fuel says and is [Unfinished] after that, so what holds for every fuel holds
    for every finite prefix of the loop.

    The second half is a logic for invariants: [safe] lets each access assume the invariant of
    the shared memory and asks that the access keeps it, for a thread that knows the ghost
    value [g] about itself. *)

From S2P Require Import Prelude.

(** Memory that is accessed one word at a time; [None] is an access outside it. *)
Class Memory (M L : Type) := {
  read : M -> L -> option Z;
  write : M -> L -> Z -> option M;
}.

Inductive thread (L E A : Type) : Type :=
| Ret (a : A)
| Load (l : L) (k : Z -> thread L E A)
| Store (l : L) (v : Z) (k : thread L E A)
| Cas (weak : bool) (l : L) (expected desired : Z) (k : option Z -> thread L E A)
| Rmw (l : L) (f : Z -> Z) (k : Z -> thread L E A)
| Emit (e : E) (k : thread L E A)
| Unfinished.
Arguments Ret {L E A}.
Arguments Load {L E A}.
Arguments Store {L E A}.
Arguments Cas {L E A}.
Arguments Rmw {L E A}.
Arguments Emit {L E A}.
Arguments Unfinished {L E A}.

#[global] Instance thread_ret L E : MRet (thread L E) := fun A a => Ret a.

Fixpoint thread_bind {L E A B} (f : A -> thread L E B) (p : thread L E A) : thread L E B :=
  match p with
  | Ret a => f a
  | Load l k => Load l (fun v => thread_bind f (k v))
  | Store l v k => Store l v (thread_bind f k)
  | Cas weak l e d k => Cas weak l e d (fun r => thread_bind f (k r))
  | Rmw l g k => Rmw l g (fun v => thread_bind f (k v))
  | Emit e k => Emit e (thread_bind f k)
  | Unfinished => Unfinished
  end.
#[global] Instance thread_mbind L E : MBind (thread L E) := fun A B f p => thread_bind f p.

(** The operations of [std::atomic]. *)
Definition atomic_load {L E} (l : L) : thread L E Z := Load l Ret.
Definition atomic_store {L E} (l : L) (v : Z) : thread L E unit := Store l v (Ret tt).
(** [None] for an exchange, [Some v] for the value seen instead. *)
Definition compare_exchange_weak {L E} (l : L) (expected desired : Z) : thread L E (option Z) := Cas true l expected desired Ret.
Definition compare_exchange_strong {L E} (l : L) (expected desired : Z) : thread L E (option Z) := Cas false l expected desired Ret.
Definition fetch_add32 {L E} (l : L) (v : Z) : thread L E Z := Rmw l (fun x => wrap 32 (x + v)) Ret.
Definition fetch_sub32 {L E} (l : L) (v : Z) : thread L E Z := Rmw l (fun x => wrap 32 (x - v)) Ret.
Definition atomic_exchange {L E} (l : L) (v : Z) : thread L E Z := Rmw l (fun _ => v) Ret.
Definition event {L E} (e : E) : thread L E unit := Emit e (Ret tt).

Section Interleaving.
Context {M L E : Type} `{!Memory M L}.

(** One access of a thread; [fail] makes a weak exchange fail spuriously. *)
Definition access {A} (fail : bool) (p : thread L E A) (m : M) : option (thread L E A * M * list E) :=
  match p with
  | Ret _ | Unfinished => None
  | Load l k => v ← read m l; Some (k v, m, [])
  | Store l v k => m ← write m l v; Some (k, m, [])
  | Cas weak l e d k =>
      v ← read m l;
      if (v =? e) && negb (weak && fail) then m ← write m l d; Some (k None, m, []) else Some (k (Some v), m, [])
  | Rmw l f k => v ← read m l; m ← write m l (f v); Some (k v, m, [])
  | Emit e k => Some (k, m, [e])
  end.

Definition halted {A} (p : thread L E A) : bool :=
  match p with Ret _ | Unfinished => true | _ => false end.

Record config : Type := Config { c_threads : list (thread L E unit); c_mem : M; c_trace : list (nat * E) }.

Definition schedule (t : nat) (fail : bool) (c : config) : option config :=
  p ← c_threads c !! t;
  '(p, m, evs) ← access fail p (c_mem c);
  Some (Config (<[t := p]> (c_threads c)) m (c_trace c ++ map (pair t) evs)).

Fixpoint run_schedule (l : list nat) (c : config) : option config :=
  match l with
  | [] => Some c
  | t :: l => c ← schedule t false c; run_schedule l c
  end.

(** A thread by itself. *)
Fixpoint run_alone {A} (p : thread L E A) (m : M) : option (A * M * list E) :=
  match p with
  | Ret a => Some (a, m, [])
  | Load l k => v ← read m l; run_alone (k v) m
  | Store l v k => m ← write m l v; run_alone k m
  | Cas weak l e d k =>
      v ← read m l;
      if v =? e then m ← write m l d; run_alone (k None) m else run_alone (k (Some v)) m
  | Rmw l f k => v ← read m l; m ← write m l (f v); run_alone (k v) m
  | Emit e k => '(a, m, evs) ← run_alone k m; Some (a, m, e :: evs)
  | Unfinished => None
  end.

(** Executions, as long as the memory is [live] (counters have not reached their limit). *)
Inductive execution (live : M -> Prop) (c0 : config) : config -> Prop :=
| execution_start : execution live c0 c0
| execution_step c t fail c' :
    execution live c0 c -> schedule t fail c = Some c' -> live (c_mem c') -> execution live c0 c'.

(** ** The logic *)

Section Logic.
Context {G : Type} (inv : M -> list G -> list (nat * E) -> Prop) (live : M -> Prop).

(** The thread [t], of which [g] is known, may go on as [k] in the memory [m] after [evs]. *)
Abbreviation goes_on t m gs tr evs k :=
  (exists g', inv m (<[t := g']> gs) (tr ++ map (pair t) evs) /\ k g').

Fixpoint safe (t : nat) {A} (p : thread L E A) (g : G) (Q : A -> G -> Prop) : Prop :=
  match p with
  | Ret a => Q a g
  | Unfinished => True
  | Load l k => forall m gs tr, inv m gs tr -> gs !! t = Some g ->
      exists v, read m l = Some v /\ goes_on t m gs tr [] (fun g' => safe t (k v) g' Q)
  | Store l v k => forall m gs tr, inv m gs tr -> gs !! t = Some g ->
      exists m', write m l v = Some m' /\ (live m' -> goes_on t m' gs tr [] (fun g' => safe t k g' Q))
  | Cas weak l e d k => forall m gs tr, inv m gs tr -> gs !! t = Some g ->
      exists v, read m l = Some v /\
        (v = e -> exists m', write m l d = Some m' /\ (live m' -> goes_on t m' gs tr [] (fun g' => safe t (k None) g' Q))) /\
        (v <> e \/ weak = true -> goes_on t m gs tr [] (fun g' => safe t (k (Some v)) g' Q))
  | Rmw l f k => forall m gs tr, inv m gs tr -> gs !! t = Some g ->
      exists v m', read m l = Some v /\ write m l (f v) = Some m' /\
        (live m' -> goes_on t m' gs tr [] (fun g' => safe t (k v) g' Q))
  | Emit e k => forall m gs tr, inv m gs tr -> gs !! t = Some g ->
      goes_on t m gs tr [e] (fun g' => safe t k g' Q)
  end.

Lemma safe_mono t {A} (p : thread L E A) g (Q Q' : A -> G -> Prop) :
  safe t p g Q -> (forall a g', Q a g' -> Q' a g') -> safe t p g Q'.
Proof.
  intros H HQ. revert g H. induction p as [a|l k IH|l v k IH|w l e d k IH|l f k IH|e k IH|]; intros g H; cbn [safe] in *; eauto.
  - intros m gs tr Hi Hg. destruct (H m gs tr Hi Hg) as (v & Hr & g' & Hi' & Hs). eauto 10.
  - intros m gs tr Hi Hg. destruct (H m gs tr Hi Hg) as (m' & Hw & Hs). exists m'. split; [done|]. intros Hl.
    destruct (Hs Hl) as (g' & Hi' & Hs'). eauto.
  - intros m gs tr Hi Hg. destruct (H m gs tr Hi Hg) as (v & Hr & H1 & H2). exists v. split; [done|]. split.
    + intros Hv. destruct (H1 Hv) as (m' & Hw & Hs). exists m'. split; [done|]. intros Hl. destruct (Hs Hl) as (g' & Hi' & Hs'). eauto.
    + intros Hv. destruct (H2 Hv) as (g' & Hi' & Hs'). eauto.
  - intros m gs tr Hi Hg. destruct (H m gs tr Hi Hg) as (v & m' & Hr & Hw & Hs). exists v, m'. split; [done|]. split; [done|].
    intros Hl. destruct (Hs Hl) as (g' & Hi' & Hs'). eauto.
  - intros m gs tr Hi Hg. destruct (H m gs tr Hi Hg) as (g' & Hi' & Hs'). eauto.
Qed.

Lemma safe_then t {A B} (p : thread L E A) (f : A -> thread L E B) g Q :
  safe t p g (fun a g' => safe t (f a) g' Q) -> safe t (p ≫= f) g Q.
Proof.
  intros H. change (p ≫= f) with (thread_bind f p).
  revert g H. induction p as [a|l k IH|l v k IH|w l e d k IH|l h k IH|e k IH|]; intros g H; cbn [safe thread_bind] in *; eauto.
  - intros m gs tr Hi Hg. destruct (H m gs tr Hi Hg) as (v & Hr & g' & Hi' & Hs). eauto 10.
  - intros m gs tr Hi Hg. destruct (H m gs tr Hi Hg) as (m' & Hw & Hs). exists m'. split; [done|]. intros Hl.
    destruct (Hs Hl) as (g' & Hi' & Hs'). eauto.
  - intros m gs tr Hi Hg. destruct (H m gs tr Hi Hg) as (v & Hr & H1 & H2). exists v. split; [done|]. split.
    + intros Hv. destruct (H1 Hv) as (m' & Hw & Hs). exists m'. split; [done|]. intros Hl. destruct (Hs Hl) as (g' & Hi' & Hs'). eauto.
    + intros Hv. destruct (H2 Hv) as (g' & Hi' & Hs'). eauto.
  - intros m gs tr Hi Hg. destruct (H m gs tr Hi Hg) as (v & m' & Hr & Hw & Hs). exists v, m'. split; [done|]. split; [done|].
    intros Hl. destruct (Hs Hl) as (g' & Hi' & Hs'). eauto.
  - intros m gs tr Hi Hg. destruct (H m gs tr Hi Hg) as (g' & Hi' & Hs'). eauto.
Qed.

(** Every thread of a configuration is safe and the invariant holds. *)
Definition all_safe (gs : list G) (c : config) : Prop :=
  inv (c_mem c) gs (c_trace c) /\
  forall t p, c_threads c !! t = Some p -> exists g, gs !! t = Some g /\ safe t p g (fun _ _ => True).

(** What a safe thread does next. *)
Lemma access_safe t {A} (p : thread L E A) g Q fail m gs tr :
  safe t p g Q -> inv m gs tr -> gs !! t = Some g -> halted p = false ->
  exists p' m' evs, access fail p m = Some (p', m', evs) /\
    (live m' -> exists g', inv m' (<[t := g']> gs) (tr ++ map (pair t) evs) /\ safe t p' g' Q).
Proof.
  intros Hs Hi Hg Hh. destruct p as [a|l k|l v k|w l e d k|l f k|e k|]; try done; cbn [safe access] in *.
  - destruct (Hs m gs tr Hi Hg) as (v & Hr & Hgo). rewrite Hr. by eexists _, _, _.
  - destruct (Hs m gs tr Hi Hg) as (m' & Hw & Hgo). rewrite Hw. by eexists _, _, _.
  - destruct (Hs m gs tr Hi Hg) as (v & Hr & H1 & H2). rewrite Hr. cbn. destruct (Z.eqb_spec v e) as [Hv|Hv]; cbn [andb].
    + destruct (w && fail) eqn:Ew; cbn [negb].
      * apply andb_prop in Ew as [-> _]. eexists _, _, _. split; [done|]. auto.
      * destruct (H1 Hv) as (m' & Hw & Hgo). rewrite Hw. by eexists _, _, _.
    + eexists _, _, _. split; [done|]. auto.
  - destruct (Hs m gs tr Hi Hg) as (v & m' & Hr & Hw & Hgo). rewrite Hr. cbn. rewrite Hw. by eexists _, _, _.
  - specialize (Hs m gs tr Hi Hg). by eexists _, _, _.
Qed.

(** A system of safe threads stays one, and none of its threads accesses anything outside the
    memory. *)
Lemma safe_execution c0 gs0 c :
  all_safe gs0 c0 -> execution live c0 c ->
  exists gs, all_safe gs c /\
    forall t fail p, c_threads c !! t = Some p -> halted p = false -> is_Some (schedule t fail c).
Proof.
  intros H0 Hx. assert (exists gs, all_safe gs c) as [gs Hs].
  { induction Hx as [|c t fail c' _ (gs & Hi & Hall) Hstep Hlive]; [by exists gs0|].
    unfold schedule in Hstep. destruct (c_threads c !! t) as [p|] eqn:Hp; [|done]. cbn in Hstep.
    destruct (Hall t p Hp) as (g & Hg & Hsafe).
    assert (halted p = false) as Hh by (by destruct p).
    destruct (access_safe t p g _ fail _ _ _ Hsafe Hi Hg Hh) as (p' & m' & evs & Ha & Hn).
    rewrite Ha in Hstep. cbn in Hstep. injection Hstep as <-. destruct (Hn Hlive) as (g' & Hi' & Hs').
    eexists. split; [exact Hi'|]. cbn [c_threads]. intros t2 p2 H2.
    apply list_lookup_insert_Some in H2 as [(<- & <- & _)|[Hne H2] ].
    - exists g'. split; [by apply list_lookup_insert_eq, (lookup_lt_Some _ _ _ Hg)|done].
    - destruct (Hall t2 p2 H2) as (g2 & Hg2 & Hs2). exists g2. split; [by rewrite list_lookup_insert_ne|done]. }
  exists gs. split; [done|]. intros t fail p Hp Hh. destruct Hs as [Hi Hall]. destruct (Hall t p Hp) as (g & Hg & Hsafe).
  unfold schedule. rewrite Hp. cbn.
  destruct (access_safe t p g _ fail _ _ _ Hsafe Hi Hg Hh) as (p' & m' & evs & Ha & _). rewrite Ha. by eexists.
Qed.

End Logic.
End Interleaving.

Arguments config M L E : clear implicits.
