(* ===== verification/ShmRing.v ===== *)
(** * The shared-memory broadcast ring

    [ring_layout.h], [ring_geometry.h], [broadcast_ring.h], [slot_publisher.h],
    [slot_subscriber.h], [taken_message.h], [shm_slot_owner.h] and [shm_channel.h] of
    [plexus-shm].  The mapped region is a [memory]; every operation is a [thread] of
    [Atomics], one node per atomic access, and the bytes of the slab are read and written one
    at a time, since nothing makes a copy atomic.  What the operations tell their caller and
    the calls of the notifier are events. *)

From S2P Require Import Prelude Atomics Qos Egress.

(** ** [loan_status.h], [ring_geometry_mode.h] *)

Inductive loan_status : Type := st_ok | st_congested | st_rejected | st_empty | st_lagged | st_unknown.
#[global] Instance loan_status_eq_dec : EqDecision loan_status.
Proof. solve_decision. Defined.

Inductive ring_geometry_mode : Type := reliable_preserving | best_effort_large | wire_fallback.
#[global] Instance ring_geometry_mode_eq_dec : EqDecision ring_geometry_mode.
Proof. solve_decision. Defined.

(** ** [ring_layout.h] *)

Definition k_cache_line : Z := 64.
Definition k_max_consumers : Z := 16.
Definition k_ring_magic : Z := 0x504c58524e473300.
Definition k_park_empty : Z := 0.
Definition k_park_parked : Z := 1.
Definition k_park_notified : Z := 2.
Definition k_skip_len : Z := 0xFFFFFFFF.

Record cell_t : Type := Cell {
  c_sequence : Z;
  c_payload_offset : Z;
  c_payload_len : Z;
  c_take_refcount : Z;
}.

Record cursor_t : Type := Cursor { cu_position : Z; cu_active : Z }.

(** The plain fields of the control header. *)
Record control_config : Type := ControlConfig {
  h_magic : Z;
  h_cell_count : Z;
  h_slot_capacity : Z;
  h_mask : Z;
  h_consumer_capacity : Z;
}.

(** The control region with its cells, and the slab. *)
Record memory : Type := Mem {
  h_enqueue_pos : Z;
  h_config : control_config;
  h_cursors : list cursor_t;
  h_notify_generation : Z;
  h_park_state : Z;
  h_high_water : Z;
  m_cells : list cell_t;
  m_slab : bytes;
}.

Inductive loc : Type :=
| EnqueuePos | Sequence (i : Z) | PayloadOffset (i : Z) | PayloadLen (i : Z) | TakeRefcount (i : Z)
| CursorPosition (i : Z) | CursorActive (i : Z) | NotifyGeneration | ParkState | HighWater | SlabByte (a : Z).

(** Every struct is padded to cache lines. *)
Definition sizeof_cell : Z := k_cache_line.
Definition sizeof_cursor : Z := k_cache_line.
Definition sizeof_control_header : Z := k_cache_line * 2 + k_max_consumers * sizeof_cursor + k_cache_line * 3.

Definition round_up_8 (n : Z) : Z := Z.land (wrap 64 (n + 7)) (2 ^ 64 - 1 - 7).
Definition control_region_bytes (cell_count : Z) : Z := wrap 64 (sizeof_control_header + wrap 64 (cell_count * sizeof_cell)).
Definition slab_region_bytes (cell_count slot_capacity : Z) : Z := wrap 64 (cell_count * round_up_8 slot_capacity).

(** ** Access to the mapped region *)

Definition at_ {A} (l : list A) (i : Z) : option A := if 0 <=? i then l !! Z.to_nat i else None.
Definition put_at {A} (l : list A) (i : Z) (x : A) : list A := <[Z.to_nat i := x]> l.

Definition set_enqueue (m : memory) (v : Z) : memory :=
  Mem v (h_config m) (h_cursors m) (h_notify_generation m) (h_park_state m) (h_high_water m) (m_cells m) (m_slab m).
Definition set_cursors (m : memory) (l : list cursor_t) : memory :=
  Mem (h_enqueue_pos m) (h_config m) l (h_notify_generation m) (h_park_state m) (h_high_water m) (m_cells m) (m_slab m).
Definition set_words (m : memory) (generation park high : Z) : memory :=
  Mem (h_enqueue_pos m) (h_config m) (h_cursors m) generation park high (m_cells m) (m_slab m).
Definition set_cells (m : memory) (l : list cell_t) : memory :=
  Mem (h_enqueue_pos m) (h_config m) (h_cursors m) (h_notify_generation m) (h_park_state m) (h_high_water m) l (m_slab m).
Definition set_slab (m : memory) (l : bytes) : memory :=
  Mem (h_enqueue_pos m) (h_config m) (h_cursors m) (h_notify_generation m) (h_park_state m) (h_high_water m) (m_cells m) l.

Definition update_cell (m : memory) (i : Z) (f : cell_t -> cell_t) : option memory :=
  c ← at_ (m_cells m) i; Some (set_cells m (put_at (m_cells m) i (f c))).
Definition update_cursor (m : memory) (i : Z) (f : cursor_t -> cursor_t) : option memory :=
  c ← at_ (h_cursors m) i; Some (set_cursors m (put_at (h_cursors m) i (f c))).

Definition set_sequence (v : Z) (c : cell_t) : cell_t := Cell v (c_payload_offset c) (c_payload_len c) (c_take_refcount c).
Definition set_offset (v : Z) (c : cell_t) : cell_t := Cell (c_sequence c) v (c_payload_len c) (c_take_refcount c).
Definition set_len (v : Z) (c : cell_t) : cell_t := Cell (c_sequence c) (c_payload_offset c) v (c_take_refcount c).
Definition set_refcount (v : Z) (c : cell_t) : cell_t := Cell (c_sequence c) (c_payload_offset c) (c_payload_len c) v.
Definition set_position (v : Z) (c : cursor_t) : cursor_t := Cursor v (cu_active c).
Definition set_active (v : Z) (c : cursor_t) : cursor_t := Cursor (cu_position c) v.

#[global] Instance ring_memory : Memory memory loc := {
  read m l :=
    match l with
    | EnqueuePos => Some (h_enqueue_pos m)
    | Sequence i => c_sequence <$> at_ (m_cells m) i
    | PayloadOffset i => c_payload_offset <$> at_ (m_cells m) i
    | PayloadLen i => c_payload_len <$> at_ (m_cells m) i
    | TakeRefcount i => c_take_refcount <$> at_ (m_cells m) i
    | CursorPosition i => cu_position <$> at_ (h_cursors m) i
    | CursorActive i => cu_active <$> at_ (h_cursors m) i
    | NotifyGeneration => Some (h_notify_generation m)
    | ParkState => Some (h_park_state m)
    | HighWater => Some (h_high_water m)
    | SlabByte a => byte.unsigned <$> at_ (m_slab m) a
    end;
  write m l v :=
    match l with
    | EnqueuePos => Some (set_enqueue m v)
    | Sequence i => update_cell m i (set_sequence v)
    | PayloadOffset i => update_cell m i (set_offset v)
    | PayloadLen i => update_cell m i (set_len v)
    | TakeRefcount i => update_cell m i (set_refcount v)
    | CursorPosition i => update_cursor m i (set_position v)
    | CursorActive i => update_cursor m i (set_active v)
    | NotifyGeneration => Some (set_words m v (h_park_state m) (h_high_water m))
    | ParkState => Some (set_words m (h_notify_generation m) v (h_high_water m))
    | HighWater => Some (set_words m (h_notify_generation m) (h_park_state m) v)
    | SlabByte a => _ ← at_ (m_slab m) a; Some (set_slab m (put_at (m_slab m) a (byte.of_Z v)))
    end;
}.

(** ** [ring_geometry.h] *)

Definition k_max_ring_slab_bytes : Z := 512 * 1024 * 1024.
Record ring_geometry : Type := RingGeometry { g_cell_count : Z; g_slot_capacity : Z }.

(** The loops double a power; sixty-four turns exhaust the 64-bit range. *)
Fixpoint pow2_loop (fuel : nat) (keep_going : Z -> bool) (p : Z) : option Z :=
  if keep_going p then match fuel with O => None | S fuel => pow2_loop fuel keep_going (wrap 64 (Z.shiftl p 1)) end else Some p.
Definition next_pow2_strictly_above (v : Z) : option Z := pow2_loop 64 (fun p => p <=? v) 1.
Definition next_pow2_at_least (v : Z) : option Z := pow2_loop 64 (fun p => p <? v) 1.

Definition ring_geometry_tier (want slot : Z) (mode : ring_geometry_mode) (capacity : Z) : option ring_geometry :=
  if want >? 131072 then
    depth ← (if decide (mode = best_effort_large) then next_pow2_at_least capacity else next_pow2_strictly_above capacity);
    Some (RingGeometry depth slot)
  else if want >? 65536 then Some (RingGeometry 64 slot)
  else if want >? 32768 then Some (RingGeometry 128 slot)
  else if want >? 4096 then Some (RingGeometry 256 slot)
  else Some (RingGeometry 256 4096).

(** [None]: a loop that does not end, or an assertion that fails. *)
Definition ring_geometry_for (max_payload : option Z) (mode : ring_geometry_mode) (consumer_capacity : Z) : option ring_geometry :=
  let capacity := if consumer_capacity =? 0 then k_max_consumers else consumer_capacity in
  let want := default 0 max_payload in
  geom ← ring_geometry_tier want (round_up_8 want) mode capacity;
  let geom := RingGeometry (g_cell_count geom) (round_up_8 (g_slot_capacity geom)) in
  if decide (mode <> best_effort_large) then
    if g_cell_count geom >? capacity then Some geom else None
  else Some geom.

Definition ring_memory_for (max_payload : Z) (mode : ring_geometry_mode) (consumer_capacity : Z) : option Z :=
  geom ← ring_geometry_for (Some max_payload) mode consumer_capacity;
  Some (wrap 64 (control_region_bytes (g_cell_count geom) + slab_region_bytes (g_cell_count geom) (g_slot_capacity geom))).

(** ** [class broadcast_ring] *)

(** What [bind] keeps of the geometry. *)
Record broadcast_ring : Type := BroadcastRing {
  m_cell_count : Z;
  m_slot_capacity : Z;
  m_mask : Z;
  m_stride : Z;
  m_consumer_capacity : Z;
}.

Definition k_cursor_idle : Z := 2 ^ 64 - 1.
Definition k_pin_clear_spin_budget : Z := 256.

Definition is_power_of_two (v : Z) : bool := negb (v =? 0) && (Z.land v (v - 1) =? 0).

Definition bind (cell_count slot_capacity mask consumer_capacity : Z) : broadcast_ring :=
  BroadcastRing cell_count slot_capacity mask (round_up_8 slot_capacity) consumer_capacity.

(** A region of [control_size] bytes and a slab, formatted for the geometry. *)
Definition create (control_size : Z) (slab : bytes) (cell_count slot_capacity consumer_capacity : Z)
  : loan_status * option (broadcast_ring * memory) :=
  if negb (is_power_of_two cell_count) || (slot_capacity =? 0) then (st_rejected, None)
  else if (consumer_capacity =? 0) || (consumer_capacity >? k_max_consumers) then (st_rejected, None)
  else if (control_size <? control_region_bytes cell_count) || (zlen slab <? slab_region_bytes cell_count slot_capacity)
  then (st_rejected, None)
  else
    (st_ok, Some
      (bind cell_count slot_capacity (cell_count - 1) consumer_capacity,
       Mem 0 (ControlConfig k_ring_magic cell_count slot_capacity (cell_count - 1) consumer_capacity)
         (replicate (Z.to_nat k_max_consumers) (Cursor k_cursor_idle 0)) 0 k_park_empty 0
         (map (fun i => Cell (Z.of_nat i) 0 0 0) (seq 0 (Z.to_nat cell_count))) slab)).

(** The checks of an attacher on a header it found. *)
Definition attach_ring (control_size slab_size : Z) (header : control_config) : loan_status * option broadcast_ring :=
  if control_size <? sizeof_control_header then (st_rejected, None)
  else if negb (h_magic header =? k_ring_magic) || negb (is_power_of_two (h_cell_count header)) || (h_slot_capacity header =? 0)
  then (st_rejected, None)
  else if negb (h_mask header =? wrap 64 (h_cell_count header - 1)) then (st_rejected, None)
  else if (h_consumer_capacity header =? 0) || (h_consumer_capacity header >? k_max_consumers) then (st_rejected, None)
  else
    let stride := round_up_8 (h_slot_capacity header) in
    if (control_size <? control_region_bytes (h_cell_count header)) || (slab_size <? wrap 64 (h_cell_count header * stride))
    then (st_rejected, None)
    else (st_ok, Some (bind (h_cell_count header) (h_slot_capacity header) (h_mask header) (h_consumer_capacity header))).

(** What a client of the ring does and learns. *)
Inductive ring_event : Type :=
| Publishing (pos : Z) (payload : bytes)   (** [publish] is called on a filled slot *)
| Taken (pos : Z)                          (** [take] hands out the slot *)
| Delivered (pos : Z) (data : bytes)       (** the bytes the callback saw *)
| Signalled                                (** [m_notifier.signal()] *)
| Sent (st : loan_status).                 (** the result of [send] *)

Abbreviation ring_thread := (thread loc ring_event).

(** [static_cast<std::int64_t>(a) - static_cast<std::int64_t>(b)]. *)
Definition int64_of (v : Z) : Z := if v <? 2 ^ 63 then v else v - 2 ^ 64.
Definition dif64 (a b : Z) : Z := int64_of a - int64_of b.

Section Ring.
Variable r : broadcast_ring.

Definition cell_at (position : Z) : Z := Z.land position (m_mask r).

(** The first byte of the slot of a position. *)
Definition slot_span (position : Z) : Z := Z.land position (m_mask r) * m_stride r.

Definition commit (position filled_len : Z) : ring_thread loan_status :=
  if filled_len >? m_slot_capacity r then Ret st_rejected else
  atomic_store (PayloadOffset (cell_at position)) (slot_span position) ;;
  atomic_store (PayloadLen (cell_at position)) (wrap 32 filled_len) ;;
  atomic_store (Sequence (cell_at position)) (wrap 64 (position + 1)) ;;
  Ret st_ok.

Definition tail_position : ring_thread Z := atomic_load EnqueuePos.

(** The status, the position and the length of the span: for [lagged] the tail. *)
Definition consume (cursor : Z) : ring_thread (loan_status * Z * Z) :=
  seq ← atomic_load (Sequence (cell_at cursor));
  let dif := dif64 seq (wrap 64 (cursor + 1)) in
  if dif <? 0 then Ret (st_empty, 0, 0)
  else if dif >? 0 then
    if dif >=? m_cell_count r then tail ← tail_position; Ret (st_lagged, tail, 0) else Ret (st_congested, 0, 0)
  else
    len ← atomic_load (PayloadLen (cell_at cursor));
    if len =? k_skip_len then Ret (st_congested, 0, 0)
    else Ret (st_ok, cursor, if len >? m_slot_capacity r then m_slot_capacity r else len).

(** The loop runs until nobody moves the word in between. *)
Fixpoint raise_high_water_loop (fuel : nat) (hw want : Z) : ring_thread unit :=
  if hw <? want then
    match fuel with
    | O => Unfinished
    | S fuel =>
        r ← compare_exchange_weak HighWater hw want;
        match r with None => Ret tt | Some hw => raise_high_water_loop fuel hw want end
    end
  else Ret tt.
Definition raise_high_water (fuel : nat) (want : Z) : ring_thread unit :=
  hw ← atomic_load HighWater; raise_high_water_loop fuel hw want.

Fixpoint register_loop (fuel n : nat) (i : Z) : ring_thread (loan_status * Z) :=
  match n with
  | O => Ret (st_rejected, 0)
  | S n =>
      taken ← compare_exchange_strong (CursorActive i) 0 1;
      match taken with
      | None =>
          atomic_store (CursorPosition i) k_cursor_idle ;;
          raise_high_water fuel (i + 1) ;;
          Ret (st_ok, i)
      | Some _ => register_loop fuel n (i + 1)
      end
  end.
Definition register_cursor (fuel : nat) : ring_thread (loan_status * Z) :=
  register_loop fuel (Z.to_nat (m_consumer_capacity r)) 0.

Definition unregister_cursor (index : Z) : ring_thread unit :=
  if index >=? m_consumer_capacity r then Ret tt else
  atomic_store (CursorPosition index) k_cursor_idle ;;
  atomic_store (CursorActive index) 0.

Definition publish_cursor (index position : Z) : ring_thread unit :=
  if index >=? m_consumer_capacity r then Ret tt else
  atomic_store (CursorPosition index) position.

Definition pin_if_current (cursor : Z) : ring_thread bool :=
  fetch_add32 (TakeRefcount (cell_at cursor)) 1 ;;
  seq ← atomic_load (Sequence (cell_at cursor));
  if seq =? wrap 64 (cursor + 1) then Ret true else
  fetch_sub32 (TakeRefcount (cell_at cursor)) 1 ;;
  Ret false.

Fixpoint slowest_loop (n : nat) (i slowest : Z) : ring_thread Z :=
  match n with
  | O => Ret slowest
  | S n =>
      active ← atomic_load (CursorActive i);
      if active =? 0 then slowest_loop n (i + 1) slowest else
      cur ← atomic_load (CursorPosition i);
      slowest_loop n (i + 1) (if negb (cur =? k_cursor_idle) && (cur <? slowest) then cur else slowest)
  end.
Definition slowest_consumer_position : ring_thread Z :=
  scan ← atomic_load HighWater; slowest_loop (Z.to_nat scan) 0 k_cursor_idle.

Fixpoint passed_loop (n : nat) (i occupant : Z) : ring_thread bool :=
  match n with
  | O => Ret true
  | S n =>
      active ← atomic_load (CursorActive i);
      if active =? 0 then passed_loop n (i + 1) occupant else
      cur ← atomic_load (CursorPosition i);
      if negb (cur =? k_cursor_idle) && (cur <=? occupant) then Ret false else passed_loop n (i + 1) occupant
  end.
Definition consumers_passed (position : Z) : ring_thread bool :=
  if position <? m_cell_count r then Ret true else
  scan ← atomic_load HighWater; passed_loop (Z.to_nat scan) 0 (position - m_cell_count r).

Definition occupant_committed (position : Z) : ring_thread bool :=
  seq ← atomic_load (Sequence (cell_at position));
  let dif := dif64 seq position in
  Ret ((dif =? 0) || (dif =? 1 - m_cell_count r)).

Definition announce_and_check_pin (position : Z) : ring_thread bool :=
  atomic_store (Sequence (cell_at position)) position ;;
  pins ← atomic_load (TakeRefcount (cell_at position));
  Ret (pins =? 0).

Definition stamp_skip (position : Z) : ring_thread unit :=
  atomic_store (PayloadLen (cell_at position)) k_skip_len ;;
  atomic_store (Sequence (cell_at position)) (wrap 64 (position + 1)).

(** The waiting loop of [clear_pin_or_skip]. *)
Fixpoint clear_pin_loop (fuel : nat) (pos last_seen stalled : Z) : ring_thread (loan_status * Z) :=
  match fuel with
  | O => Unfinished
  | S fuel =>
      clear ← announce_and_check_pin pos;
      if (clear : bool) then Ret (st_ok, pos) else
      now ← slowest_consumer_position;
      if negb (now =? last_seen) then clear_pin_loop fuel pos now (wrap 32 (0 + 1))
      else if stalled >=? k_pin_clear_spin_budget then stamp_skip pos ;; Ret (st_congested, 0)
      else clear_pin_loop fuel pos last_seen (wrap 32 (stalled + 1))
  end.
Definition clear_pin_or_skip (fuel : nat) (pos : Z) : ring_thread (loan_status * Z) :=
  last_seen ← slowest_consumer_position; clear_pin_loop fuel pos last_seen 0.

Fixpoint claim_reliable (fuel : nat) (pos : Z) : ring_thread (loan_status * Z) :=
  match fuel with
  | O => Unfinished
  | S fuel =>
      passed ← consumers_passed pos;
      if negb passed then Ret (st_congested, 0) else
      won ← compare_exchange_weak EnqueuePos pos (wrap 64 (pos + 1));
      match won with
      | Some seen => claim_reliable fuel seen
      | None => clear_pin_or_skip fuel pos
      end
  end.

Fixpoint claim_best_effort (fuel : nat) (pos skipped : Z) : ring_thread (loan_status * Z) :=
  match fuel with
  | O => Unfinished
  | S fuel =>
      committed ← occupant_committed pos;
      if negb committed then pos ← atomic_load EnqueuePos; claim_best_effort fuel pos skipped else
      won ← compare_exchange_weak EnqueuePos pos (wrap 64 (pos + 1));
      match won with
      | Some seen => claim_best_effort fuel seen skipped
      | None =>
          clear ← announce_and_check_pin pos;
          if (clear : bool) then Ret (st_ok, pos) else
          stamp_skip pos ;;
          let skipped := wrap 64 (skipped + 1) in
          if skipped >=? m_cell_count r then Ret (st_congested, 0) else
          pos ← atomic_load EnqueuePos; claim_best_effort fuel pos skipped
      end
  end.

(** [claim], without the consumer gate. *)
Fixpoint claim_loop (fuel : nat) (pos : Z) : ring_thread (loan_status * Z) :=
  match fuel with
  | O => Unfinished
  | S fuel =>
      seq ← atomic_load (Sequence (cell_at pos));
      let dif := dif64 seq pos in
      if dif =? 0 then
        won ← compare_exchange_weak EnqueuePos pos (wrap 64 (pos + 1));
        match won with
        | Some seen => claim_loop fuel seen
        | None => Ret (st_ok, pos)
        end
      else if dif <? 0 then Ret (st_congested, 0)
      else pos ← atomic_load EnqueuePos; claim_loop fuel pos
  end.
Definition claim (fuel : nat) (size : Z) : ring_thread (loan_status * Z) :=
  if size >? m_slot_capacity r then Ret (st_rejected, 0) else
  pos ← atomic_load EnqueuePos; claim_loop fuel pos.

Definition claim_with_policy (fuel : nat) (size : Z) (rel : reliability) : ring_thread (loan_status * Z) :=
  if size >? m_slot_capacity r then Ret (st_rejected, 0) else
  pos ← atomic_load EnqueuePos;
  match rel with
  | reliable => claim_reliable fuel pos
  | best_effort => claim_best_effort fuel pos 0
  end.

(** ** [class slot_subscriber] *)

Record slot_subscriber : Type := SlotSubscriber {
  s_spin_budget : Z;
  s_cursor_index : Z;
  s_cursor : Z;
  s_registered : bool;
}.

Definition slot_subscriber_new (fuel : nat) (spin_budget : Z) : ring_thread slot_subscriber :=
  '(st, index) ← register_cursor fuel;
  if decide (st = st_ok) then
    tail ← tail_position;
    publish_cursor index tail ;;
    Ret (SlotSubscriber spin_budget index tail true)
  else Ret (SlotSubscriber spin_budget 0 0 false).

Definition slot_subscriber_destroy (s : slot_subscriber) : ring_thread unit :=
  if s_registered s then unregister_cursor (s_cursor_index s) else Ret tt.

Definition set_cursor (s : slot_subscriber) (c : Z) : slot_subscriber :=
  SlotSubscriber (s_spin_budget s) (s_cursor_index s) c (s_registered s).

Definition advance (s : slot_subscriber) : ring_thread slot_subscriber :=
  let s := set_cursor s (wrap 64 (s_cursor s + 1)) in
  publish_cursor (s_cursor_index s) (s_cursor s) ;; Ret s.

(** The slot a [taken_message] aliases: its position and length; the pin is on [refcount_at]. *)
Record taken_message : Type := TakenMessage { t_position : Z; t_length : Z }.

(** [Some msg] for a delivered slot, [None] to go round the loop again. *)
Definition resolve (s : slot_subscriber) (st : loan_status) (position len : Z) : ring_thread (slot_subscriber * option taken_message) :=
  if decide (st = st_lagged) then
    let s := set_cursor s position in
    publish_cursor (s_cursor_index s) (s_cursor s) ;; Ret (s, None)
  else
    pinned ← (if decide (st = st_congested) then Ret false else pin_if_current (s_cursor s));
    if negb pinned then s ← advance s; Ret (s, None) else
    let msg := TakenMessage (s_cursor s) len in
    event (Taken (s_cursor s)) ;;
    s ← advance s;
    Ret (s, Some msg).

Fixpoint take_loop (fuel : nat) (s : slot_subscriber) (spun : Z) : ring_thread (slot_subscriber * option taken_message) :=
  match fuel with
  | O => Unfinished
  | S fuel =>
      '(st, position, len) ← consume (s_cursor s);
      if decide (st = st_empty) then
        if spun >=? s_spin_budget s then Ret (s, None) else take_loop fuel s (wrap 32 (spun + 1))
      else
        '(s, settled) ← resolve s st position len;
        match settled with
        | Some msg => Ret (s, Some msg)
        | None => take_loop fuel s spun
        end
  end.

(** [None] is [empty]. *)
Definition take_message (fuel : nat) (s : slot_subscriber) : ring_thread (slot_subscriber * option taken_message) :=
  if negb (s_registered s) then Ret (s, None) else take_loop fuel s 0.

Definition reclaim (msg : taken_message) : ring_thread unit :=
  fetch_sub32 (TakeRefcount (cell_at (t_position msg))) 1 ;; Ret tt.

(** The owner of [as_wire_bytes] pins and unpins. *)
Definition slot_owner_pin (msg : taken_message) : ring_thread unit :=
  fetch_add32 (TakeRefcount (cell_at (t_position msg))) 1 ;; Ret tt.
Definition slot_owner_release (msg : taken_message) : ring_thread unit :=
  fetch_sub32 (TakeRefcount (cell_at (t_position msg))) 1 ;; Ret tt.

(** ** [class shm_channel] *)

Fixpoint copy_out (n : nat) (base : Z) : ring_thread bytes :=
  match n with
  | O => Ret []
  | S n => v ← atomic_load (SlabByte base); rest ← copy_out n (base + 1); Ret (byte.of_Z v :: rest)
  end.

(** [std::memcpy] into the slot. *)
Fixpoint copy_in (base : Z) (payload : bytes) : ring_thread unit :=
  match payload with
  | [] => Ret tt
  | b :: payload => atomic_store (SlabByte base) (byte.unsigned b) ;; copy_in (base + 1) payload
  end.

Definition k_no_progress_budget : Z := 2 ^ 16.

(** [slot_publisher::loan]. *)
Definition loan (fuel : nat) (size : Z) (rel : reliability) : ring_thread (loan_status * Z) := claim_with_policy fuel size rel.

Fixpoint loan_loop (fuel : nat) (size : Z) (rel : reliability) (st : loan_status * Z) (last_seen stalled : Z) : ring_thread (loan_status * Z) :=
  if decide (st.1 = st_congested /\ stalled < k_no_progress_budget) then
    match fuel with
    | O => Unfinished
    | S fuel =>
        st ← loan fuel size rel;
        now ← slowest_consumer_position;
        if negb (now =? last_seen) then loan_loop fuel size rel st now 0 else loan_loop fuel size rel st last_seen (stalled + 1)
    end
  else Ret st.

Definition loan_blocking (fuel : nat) (size : Z) (rel : reliability) (cong : congestion) : ring_thread (loan_status * Z) :=
  st ← loan fuel size rel;
  match rel, cong with
  | reliable, block => last_seen ← slowest_consumer_position; loan_loop fuel size rel st last_seen 0
  | _, _ => Ret st
  end.

Definition channel_send (fuel : nat) (rel : reliability) (cong : congestion) (payload : bytes) : ring_thread loan_status :=
  '(st, pos) ← loan_blocking fuel (zlen payload) rel cong;
  if decide (st <> st_ok) then Ret st else
  copy_in (slot_span pos) payload ;;
  event (Publishing pos payload) ;;
  committed ← commit pos (zlen payload);
  if decide (committed <> st_ok) then Ret committed else
  event Signalled ;;
  Ret st_ok.

(** [drain], with a callback that looks at the bytes and lets them go. *)
Fixpoint channel_drain (fuel : nat) (s : slot_subscriber) : ring_thread slot_subscriber :=
  match fuel with
  | O => Unfinished
  | S fuel =>
      '(s, msg) ← take_message fuel s;
      match msg with
      | None => Ret s
      | Some msg =>
          slot_owner_pin msg ;;
          data ← copy_out (Z.to_nat (t_length msg)) (slot_span (t_position msg));
          event (Delivered (t_position msg) data) ;;
          slot_owner_release msg ;;
          reclaim msg ;;
          channel_drain fuel s
      end
  end.

(** ** A client of the channel *)

Inductive channel_call : Type := CallSend (payload : bytes) | CallDrain.

Fixpoint channel_calls (fuel : nat) (rel : reliability) (cong : congestion) (calls : list channel_call) (s : slot_subscriber)
  : ring_thread slot_subscriber :=
  match calls with
  | [] => Ret s
  | CallSend payload :: calls =>
      st ← channel_send fuel rel cong payload;
      event (Sent st) ;;
      channel_calls fuel rel cong calls s
  | CallDrain :: calls => s ← channel_drain fuel s; channel_calls fuel rel cong calls s
  end.

(** The life of a channel: the constructor registers a cursor, the destructor gives it back. *)
Definition channel_life (fuel : nat) (rel : reliability) (cong : congestion) (spin_budget : Z) (calls : list channel_call)
  : ring_thread unit :=
  s ← slot_subscriber_new fuel spin_budget;
  s ← channel_calls fuel rel cong calls s;
  slot_subscriber_destroy s.

End Ring.
