(* ===== verification/ShmInvariant.v ===== *)
(** * The invariant of the shared-memory ring

    The invariant that every atomic access of every client keeps, in whichever order the
    clients run.  It is stated with a ghost value per thread: which position of the ring the
    thread owns and how far it has come with it, which slots it has pinned, which cursor is
    its own.  Two systems satisfy it: clients that publish best-effort, and clients that
    publish reliably beside one consumer that stays registered (the resident). *)

From Stdlib Require Import Sorted.
From S2P Require Import Prelude Atomics Qos Egress ShmRing.

(** Positions are 64-bit and are never reused; executions are considered up to this many. *)
Definition k_position_limit : Z := 2 ^ 62.

Definition below_limit (m : memory) : Prop := h_enqueue_pos m < k_position_limit.

(** A geometry the ring works with: at least two cells, slots that hold the capacity, lengths
    that are never the tombstone's. *)
Record geometry_ok (r : broadcast_ring) : Prop := GeometryOk {
  go_depth : exists k, 1 <= k <= 32 /\ m_cell_count r = 2 ^ k;
  go_mask : m_mask r = m_cell_count r - 1;
  go_stride : 0 <= m_slot_capacity r <= m_stride r;
  go_len : m_slot_capacity r < k_skip_len;
  go_consumers : 0 < m_consumer_capacity r <= k_max_consumers;
}.

Existing Class geometry_ok.

(** ** Ghost state *)

Inductive phase : Type :=
| Quiet
| SawPos (pos : Z)                    (** [pos] was read from [enqueue_pos] *)
| Scanning (pos i scan : Z)           (** the cursors below [i] of [scan] have passed *)
| Gated (pos : Z)                     (** whoever wins [pos] may have its slot *)
| Won (pos : Z)                       (** the exchange on [enqueue_pos] succeeded *)
| Announced (pos : Z)                 (** the claiming marker is in the cell *)
| Filling (pos : Z) (done : bytes)    (** no pin was seen; [done] has been copied *)
| Ready (pos : Z) (payload : bytes)   (** everything is copied *)
| Described (pos : Z) (payload : bytes) (** the length is in the cell *)
| Tombed (pos : Z)                    (** the tombstone's length is in the cell *)
| Saw (c : Z)                         (** the sequence of the cell was that of [c] filled *)
| SawLen (c len : Z)
| Pinned (c len : Z).                 (** the pin is announced, the sequence not read again *)

(** The position a thread owns. *)
Definition owned (ph : phase) : option Z :=
  match ph with
  | Won p | Announced p | Filling p _ | Ready p _ | Described p _ | Tombed p => Some p
  | _ => None
  end.

(** The position whose slot a thread may be writing. *)
Definition writing (ph : phase) : option Z :=
  match ph with Filling p _ | Ready p _ | Described p _ => Some p | _ => None end.

Definition is_won (ph : phase) : bool := match ph with Won _ => true | _ => false end.

Record local : Type := Local {
  l_phase : phase;
  l_cursor : Z;                  (** every slot taken lies below *)
  l_moved : bool;                (** the cursor in memory is one behind *)
  l_index : option Z;            (** the cursor that is its own *)
  l_held : list (Z * bytes);     (** the pins it holds, with what they protect *)
}.

Definition with_phase (g : local) (ph : phase) : local := Local ph (l_cursor g) (l_moved g) (l_index g) (l_held g).
Definition with_cursor (g : local) (c : Z) : local := Local (l_phase g) c true (l_index g) (l_held g).

(** The consumer that stays. *)
Record resident : Type := Resident { r_thread : nat; r_index : Z; r_start : Z }.

Abbreviation trace := (list (nat * ring_event)).

Definition published (tr : trace) : list Z :=
  omap (fun x => match x.2 with Publishing p _ => Some p | _ => None end) tr.
Definition taken_by (t : nat) (tr : trace) : list Z :=
  omap (fun x => if decide (x.1 = t) then match x.2 with Taken p => Some p | _ => None end else None) tr.

Section Safety.
Context {r : broadcast_ring} {Hgeo : geometry_ok r} {res : option resident}.

Abbreviation N := (m_cell_count r).
Abbreviation E := h_enqueue_pos.

(** ** The cells and slots of a memory *)

Definition idx (p : Z) : Z := p mod N.
Definition cell (m : memory) (i : Z) : cell_t := default (Cell (-1) 0 0 0) (at_ (m_cells m) i).
Abbreviation sq m i := (c_sequence (cell m i)).
Abbreviation ln m i := (c_payload_len (cell m i)).
Abbreviation rc m i := (c_take_refcount (cell m i)).
Definition slot (m : memory) (i : Z) : bytes := take (Z.to_nat (m_stride r)) (drop (Z.to_nat (i * m_stride r)) (m_slab m)).
Definition cursor (m : memory) (i : Z) : cursor_t := default (Cursor 0 0) (at_ (h_cursors m) i).

Implicit Types (m : memory) (gs : list local) (tr : trace) (g : local).

Lemma depth_ge_2 : 2 <= N.
Proof. destruct (go_depth r Hgeo) as (k & Hk & ->). change 2 with (2 ^ 1) at 1. apply Z.pow_le_mono_r; lia. Qed.

Lemma depth_le : N <= 2 ^ 32.
Proof. destruct (go_depth r Hgeo) as (k & Hk & ->). apply Z.pow_le_mono_r; lia. Qed.

Lemma cell_at_idx p : cell_at r p = idx p.
Proof.
  unfold cell_at, idx. rewrite (go_mask r Hgeo). destruct (go_depth r Hgeo) as (k & Hk & ->).
  rewrite <- Z.land_ones by lia. by rewrite Z.ones_equiv.
Qed.

Lemma slot_span_idx p : slot_span r p = idx p * m_stride r.
Proof. unfold slot_span. pose proof (cell_at_idx p) as H. unfold cell_at in H. by rewrite H. Qed.

Lemma idx_range p : 0 <= idx p < N.
Proof. apply Z.mod_pos_bound. pose proof depth_ge_2. lia. Qed.

(** Positions less than one lap apart have different cells. *)
Lemma idx_near p q : idx p = idx q -> - N < p - q < N -> p = q.
Proof.
  unfold idx. intros H Hd. pose proof depth_ge_2. pose proof (Z.div_mod p N ltac:(lia)). pose proof (Z.div_mod q N ltac:(lia)).
  assert (p / N = q / N) by nia. nia.
Qed.

Lemma idx_back p : idx (p - N) = idx p.
Proof. unfold idx. pose proof depth_ge_2. replace (p - N) with (p + (-1) * N) by lia. apply Z.mod_add. lia. Qed.

Lemma idx_small i : 0 <= i < N -> idx i = i.
Proof. apply Z.mod_small. Qed.

(** Two positions of one cell differ by laps. *)
Lemma idx_laps p q : idx p = idx q -> p < q -> p <= q - N.
Proof.
  intros H Hl. destruct (decide (p <= q - N)); [done|]. exfalso. assert (p = q) by (apply idx_near; [done|lia]). lia.
Qed.

(** Neither the marker of a position nor a filled cell is mistaken for the next position. *)
Lemma idx_succ p q : idx p = idx q -> p <> q + 1.
Proof. intros H ->. assert (q + 1 = q) by (apply idx_near; [done|]; pose proof depth_ge_2; lia). lia. Qed.

(** ** The invariant *)

Definition unowned gs (p : Z) : Prop := forall t g, gs !! t = Some g -> owned (l_phase g) <> Some p.
Definition unwritten gs (i : Z) : Prop := forall t g p, gs !! t = Some g -> writing (l_phase g) = Some p -> idx p <> i.

(** The pins a thread has on a cell. *)
Definition pins_on (i : Z) (g : local) : nat :=
  (length (filter (fun h => idx h.1 = i) (l_held g)) +
   match l_phase g with Pinned c _ => if decide (idx c = i) then 1 else 0 | _ => 0 end)%nat.
Definition pins gs (i : Z) : Z := Z.of_nat (sum_list_with (pins_on i) gs).

(** The sequence of the cell of an owned position. *)
Definition marker (ph : phase) (p : Z) : Z :=
  if is_won ph then if p <? N then p else p - N + 1 else p.

Record shape m : Prop := Shape {
  sh_cells : zlen (m_cells m) = N;
  sh_cursors : zlen (h_cursors m) = k_max_consumers;
  sh_slab : N * m_stride r <= zlen (m_slab m);
  sh_high : 0 <= h_high_water m <= m_consumer_capacity r;
}.

Record core m gs : Prop := Core {
  co_pos : 0 <= E m < k_position_limit;
  co_own : forall t g p, gs !! t = Some g -> owned (l_phase g) = Some p -> 0 <= p /\ E m - N <= p < E m;
  co_uniq : forall t t' g g' p, gs !! t = Some g -> gs !! t' = Some g' ->
    owned (l_phase g) = Some p -> owned (l_phase g') = Some p -> t = t';
  co_fresh : forall i, E m <= i < N -> sq m i = i;
  co_owned : forall t g p, gs !! t = Some g -> owned (l_phase g) = Some p -> sq m (idx p) = marker (l_phase g) p;
  co_done : forall p, 0 <= p -> E m - N <= p < E m -> unowned gs p -> sq m (idx p) = p + 1;
}.

Definition counted m gs : Prop := forall i, 0 <= i < N -> rc m i = pins gs i.

(** [B] is what was published at [p], and it is in the slot. *)
Definition intact m tr (p : Z) (B : bytes) : Prop :=
  (exists t, (t, Publishing p B) ∈ tr) /\ zlen B <= m_slot_capacity r /\ take (length B) (slot m (idx p)) = B.

Record contents m tr : Prop := Contents {
  ct_cell : forall p, 0 <= p < E m -> sq m (idx p) = p + 1 ->
    (exists B, intact m tr p B /\ ln m (idx p) = zlen B) \/ (ln m (idx p) = k_skip_len /\ p ∉ published tr);
  ct_pub : forall p, p ∈ published tr -> 0 <= p < E m;
  ct_once : NoDup (published tr);
  ct_read : forall t p b, (t, Delivered p b) ∈ tr -> exists t', (t', Publishing p b) ∈ tr;
}.

Definition gate_position m (R : resident) : Z := cu_position (cursor m (r_index R)).
Definition passed_by m (pos : Z) : Prop := forall R, res = Some R -> pos - N < gate_position m R.

Definition phase_ok m gs tr (ph : phase) : Prop :=
  match ph with
  | Quiet => True
  | SawPos pos => 0 <= pos <= E m
  | Scanning pos i scan =>
      0 <= pos <= E m /\ 0 <= i <= scan /\ scan <= m_consumer_capacity r /\
      (forall R, res = Some R -> r_index R < scan /\ (r_index R < i -> passed_by m pos))
  | Gated pos => 0 <= pos <= E m /\ (pos = E m -> unowned gs (pos - N)) /\ passed_by m pos
  | Won p | Announced p => p ∉ published tr
  | Filling p done => (p ∉ published tr) /\ zlen done <= m_slot_capacity r /\ take (length done) (slot m (idx p)) = done
  | Ready p B => intact m tr p B
  | Described p B => intact m tr p B /\ ln m (idx p) = zlen B
  | Tombed p => (p ∉ published tr) /\ ln m (idx p) = k_skip_len
  | Saw c => 0 <= c < E m /\ unowned gs c
  | SawLen c len | Pinned c len =>
      (0 <= c < E m /\ unowned gs c) /\ len <> k_skip_len /\ (sq m (idx c) = c + 1 -> ln m (idx c) = len)
  end.

Definition held_ok m gs tr (h : Z * bytes) : Prop :=
  0 <= h.1 < E m /\ unowned gs h.1 /\ unwritten gs (idx h.1) /\ intact m tr h.1 h.2.

Record local_ok m gs tr (t : nat) g : Prop := LocalOk {
  lo_phase : phase_ok m gs tr (l_phase g);
  lo_held : forall h, h ∈ l_held g -> held_ok m gs tr h;
  lo_few : (length (l_held g) <= 2)%nat;
  lo_index : forall i, l_index g = Some i -> 0 <= i < m_consumer_capacity r /\ cu_active (cursor m i) = 1;
  lo_taken : StronglySorted Z.lt (taken_by t tr) /\ forall p, p ∈ taken_by t tr -> p < l_cursor g;
  lo_cursor : 0 <= l_cursor g <= E m;
}.

Definition indices gs : Prop :=
  forall t t' g g' i, gs !! t = Some g -> gs !! t' = Some g' -> l_index g = Some i -> l_index g' = Some i -> t = t'.

Record gated (R : resident) m gs tr : Prop := GateOpen {
  ga_local : exists g, gs !! r_thread R = Some g /\ l_index g = Some (r_index R) /\
    l_cursor g = gate_position m R + (if l_moved g then 1 else 0) /\ l_cursor g <= E m /\
    (forall p, 0 <= p < l_cursor g -> unowned gs p) /\
    (forall p, p ∈ published tr -> r_start R <= p < l_cursor g -> p ∈ taken_by (r_thread R) tr);
  ga_pos : 0 <= gate_position m R;
  ga_lap : E m <= gate_position m R + N;
  ga_high : r_index R < h_high_water m;
}.

Record inv m gs tr : Prop := Inv {
  i_shape : shape m;
  i_core : core m gs;
  i_pins : counted m gs;
  i_contents : contents m tr;
  i_locals : forall t g, gs !! t = Some g -> local_ok m gs tr t g;
  i_indices : indices gs;
  i_gate : forall R, res = Some R -> gated R m gs tr;
  i_few : zlen gs <= 2 ^ 16;
}.

(** ** Updates of the ghost state *)

Lemma insert_cases gs t g' t2 g2 : <[t := g']> gs !! t2 = Some g2 -> (t2 = t /\ g2 = g') \/ (t2 <> t /\ gs !! t2 = Some g2).
Proof. intros H. apply list_lookup_insert_Some in H as [(-> & -> & _)|[? ?] ]; auto. Qed.

Lemma insert_self gs t g g' : gs !! t = Some g -> <[t := g']> gs !! t = Some g'.
Proof. intros H. by apply list_lookup_insert_eq, (lookup_lt_Some _ _ _ H). Qed.

Lemma unowned_insert gs t g g' p :
  gs !! t = Some g -> unowned (<[t := g']> gs) p <->
  owned (l_phase g') <> Some p /\ forall t2 g2, t2 <> t -> gs !! t2 = Some g2 -> owned (l_phase g2) <> Some p.
Proof.
  intros Hg. split.
  - intros H. split; [by apply (H t g'), (insert_self gs t g)|]. intros t2 g2 Hne H2. apply (H t2 g2). by rewrite list_lookup_insert_ne.
  - intros [H1 H2] t2 g2 Ht. apply insert_cases in Ht as [ [-> ->]|[? ?] ]; eauto.
Qed.

Lemma unwritten_insert gs t g g' i :
  gs !! t = Some g -> unwritten (<[t := g']> gs) i <->
  (forall p, writing (l_phase g') = Some p -> idx p <> i) /\
  forall t2 g2 p, t2 <> t -> gs !! t2 = Some g2 -> writing (l_phase g2) = Some p -> idx p <> i.
Proof.
  intros Hg. split.
  - intros H. split; [intros p; by apply (H t g' p), (insert_self gs t g)|].
    intros t2 g2 p Hne H2. apply (H t2 g2). by rewrite list_lookup_insert_ne.
  - intros [H1 H2] t2 g2 p Ht. apply insert_cases in Ht as [ [-> ->]|[? ?] ]; eauto.
Qed.

(** A thread that gives up nothing and takes nothing leaves ownership as it is. *)
Lemma unowned_same gs t g g' p :
  gs !! t = Some g -> owned (l_phase g') = owned (l_phase g) -> unowned (<[t := g']> gs) p <-> unowned gs p.
Proof.
  intros Hg Ho. rewrite (unowned_insert gs t g g' p Hg), Ho. split.
  - intros [H1 H2] t2 g2 Ht. destruct (decide (t2 = t)) as [->|]; [congruence|eauto].
  - intros H. split; [eauto|]. intros t2 g2 _. apply H.
Qed.

Lemma unwritten_same gs t g g' i :
  gs !! t = Some g -> writing (l_phase g') = writing (l_phase g) -> unwritten (<[t := g']> gs) i <-> unwritten gs i.
Proof.
  intros Hg Ho. rewrite (unwritten_insert gs t g g' i Hg), Ho. split.
  - intros [H1 H2] t2 g2 p Ht. destruct (decide (t2 = t)) as [->|]; [|eauto].
    assert (g2 = g) as -> by congruence. apply H1.
  - intros H. split; [by intros p; apply (H t g p)|]. intros t2 g2 p _. apply H.
Qed.

Lemma writing_owned ph p : writing ph = Some p -> owned ph = Some p.
Proof. by destruct ph. Qed.

Lemma sum_insert (f : local -> nat) gs t g g' :
  gs !! t = Some g -> (sum_list_with f (<[t := g']> gs) + f g = sum_list_with f gs + f g')%nat.
Proof.
  revert t. induction gs as [|x gs IH]; intros [|t] H; cbn in H; simplify_eq; [cbn; lia|]. specialize (IH t H).
  change (<[S t := g']> (x :: gs)) with (x :: <[t := g']> gs).
  assert (forall l, sum_list_with f (x :: l) = (f x + sum_list_with f l)%nat) as Hc by done. rewrite !Hc.   lia.
Qed.

Lemma pins_insert gs t g g' i :
  gs !! t = Some g -> pins (<[t := g']> gs) i = pins gs i - Z.of_nat (pins_on i g) + Z.of_nat (pins_on i g').
Proof. intros H. unfold pins. pose proof (sum_insert (pins_on i) gs t g g' H). lia. Qed.

Lemma published_app tr tr' : published (tr ++ tr') = published tr ++ published tr'.
Proof. apply omap_app. Qed.
Lemma taken_by_app t tr tr' : taken_by t (tr ++ tr') = taken_by t tr ++ taken_by t tr'.
Proof. apply omap_app. Qed.

Lemma taken_by_other t t2 evs : t2 <> t -> taken_by t2 (map (pair t) evs) = [].
Proof. intros H. unfold taken_by. induction evs as [|e evs IH]; cbn; [done|]. by rewrite decide_False. Qed.

Lemma in_published tr p : p ∈ published tr <-> exists t B, (t, Publishing p B) ∈ tr.
Proof.
  unfold published. rewrite list_elem_of_omap. split.
  - intros ([t e] & Hin & He). destruct e; cbn in He; simplify_eq. eauto.
  - intros (t & B & Hin). exists (t, Publishing p B). by split.
Qed.

(** ** Updates of the memory *)

Lemma at_range {A} (l : list A) i : 0 <= i < zlen l -> exists x, at_ l i = Some x.
Proof.
  intros H. unfold at_. rewrite (proj2 (Z.leb_le 0 i)) by lia.
  destruct (l !! Z.to_nat i) eqn:E0; [eauto|]. apply lookup_ge_None in E0. unfold zlen in H. lia.
Qed.

Lemma at_put {A} (l : list A) i j x :
  0 <= i < zlen l -> 0 <= j -> at_ (put_at l i x) j = if decide (j = i) then Some x else at_ l j.
Proof.
  intros Hi Hj. unfold at_, put_at. rewrite (proj2 (Z.leb_le 0 j)) by lia. case_decide as E0.
  - subst. apply list_lookup_insert_eq. unfold zlen in Hi. lia.
  - apply list_lookup_insert_ne. lia.
Qed.

Lemma zlen_put {A} (l : list A) i x : zlen (put_at l i x) = zlen l.
Proof. unfold zlen, put_at. by rewrite length_insert. Qed.

Lemma cell_in m i : shape m -> 0 <= i < N -> at_ (m_cells m) i = Some (cell m i).
Proof. intros Hs Hi. unfold cell. destruct (at_range (m_cells m) i) as [x ->]; [rewrite (sh_cells m Hs); lia|done]. Qed.

Lemma cursor_in m i : shape m -> 0 <= i < k_max_consumers -> at_ (h_cursors m) i = Some (cursor m i).
Proof. intros Hs Hi. unfold cursor. destruct (at_range (h_cursors m) i) as [x ->]; [rewrite (sh_cursors m Hs); lia|done]. Qed.

(** A write to a cell. *)
Record cell_written m m' (i : Z) (f : cell_t -> cell_t) : Prop := CellWritten {
  cw_cell : forall j, 0 <= j < N -> cell m' j = if decide (j = i) then f (cell m i) else cell m j;
  cw_pos : E m' = E m;
  cw_slab : m_slab m' = m_slab m;
  cw_cursors : h_cursors m' = h_cursors m;
  cw_high : h_high_water m' = h_high_water m;
  cw_shape : shape m';
}.

Lemma update_cell_run m i f : shape m -> 0 <= i < N -> exists m', update_cell m i f = Some m' /\ cell_written m m' i f.
Proof.
  intros Hs Hi. unfold update_cell. rewrite (cell_in m i Hs Hi). cbn [mbind option_bind]. eexists. split; [done|]. split; try done.
  - intros j Hj. unfold cell at 1. cbn [m_cells set_cells]. rewrite at_put by (rewrite ?(sh_cells m Hs); lia). by case_decide.
  - destruct Hs as [H1 H2 H3 H4]. split; try done. cbn [m_cells set_cells]. by rewrite zlen_put.
Qed.

(** A write to a cursor. *)
Record cursor_written m m' (i : Z) (f : cursor_t -> cursor_t) : Prop := CursorWritten {
  uw_cursor : forall j, 0 <= j < k_max_consumers -> cursor m' j = if decide (j = i) then f (cursor m i) else cursor m j;
  uw_pos : E m' = E m;
  uw_slab : m_slab m' = m_slab m;
  uw_cells : m_cells m' = m_cells m;
  uw_high : h_high_water m' = h_high_water m;
  uw_shape : shape m';
}.

Lemma update_cursor_run m i f :
  shape m -> 0 <= i < k_max_consumers -> exists m', update_cursor m i f = Some m' /\ cursor_written m m' i f.
Proof.
  intros Hs Hi. unfold update_cursor. rewrite (cursor_in m i Hs Hi). cbn [mbind option_bind]. eexists. split; [done|]. split; try done.
  - intros j Hj. unfold cursor at 1. cbn [h_cursors set_cursors]. rewrite at_put by (rewrite ?(sh_cursors m Hs); lia). by case_decide.
  - destruct Hs as [H1 H2 H3 H4]. split; try done. cbn [h_cursors set_cursors]. by rewrite zlen_put.
Qed.

Lemma slot_length m i : shape m -> 0 <= i < N -> length (slot m i) = Z.to_nat (m_stride r).
Proof.
  intros Hs Hi. unfold slot. rewrite length_take, length_drop. pose proof (sh_slab m Hs). pose proof (go_stride r Hgeo). unfold zlen in *.
  assert (i * m_stride r + m_stride r <= N * m_stride r) by nia. lia.
Qed.

(** A byte written into a slot. *)
Record slab_written m m' (i k : Z) (b : byte) : Prop := SlabWritten {
  bw_slot : forall j, 0 <= j < N -> slot m' j = if decide (j = i) then <[Z.to_nat k := b]> (slot m i) else slot m j;
  bw_pos : E m' = E m;
  bw_cells : m_cells m' = m_cells m;
  bw_cursors : h_cursors m' = h_cursors m;
  bw_high : h_high_water m' = h_high_water m;
  bw_shape : shape m';
}.

Lemma write_slab m i k b :
  shape m -> 0 <= i < N -> 0 <= k < m_stride r ->
  exists m', write m (SlabByte (i * m_stride r + k)) (byte.unsigned b) = Some m' /\ slab_written m m' i k b.
Proof.
  intros Hs Hi Hk. pose proof (sh_slab m Hs) as Hl.
  assert (0 <= i * m_stride r + k < zlen (m_slab m)) as Ha by nia. cbn [write ring_memory].
  destruct (at_range (m_slab m) _ Ha) as [x ->]. cbn [mbind option_bind]. eexists. split; [done|].
  rewrite byte.of_Z_unsigned. split; try done.
  - intros j Hj. unfold slot at 1. cbn [m_slab set_slab]. apply list_eq. intros n. unfold put_at, zlen in *.
    destruct (decide (n < Z.to_nat (m_stride r))%nat) as [Hn|Hn].
    + rewrite lookup_take_lt, lookup_drop by done. case_decide as Ej.
      * subst j. destruct (decide (n = Z.to_nat k)) as [->|Hne].
        -- rewrite (list_lookup_insert_eq (slot m i)) by (rewrite slot_length by done; lia).
           replace (Z.to_nat (i * m_stride r) + Z.to_nat k)%nat with (Z.to_nat (i * m_stride r + k)) by nia.
           apply list_lookup_insert_eq. lia.
        -- rewrite (list_lookup_insert_ne (slot m i)) by done. rewrite list_lookup_insert_ne by nia.
           unfold slot. by rewrite lookup_take_lt, lookup_drop by done.
      * rewrite list_lookup_insert_ne by nia. unfold slot. by rewrite lookup_take_lt, lookup_drop by done.
    + rewrite lookup_take_ge by lia. symmetry. case_decide; [subst; rewrite list_lookup_insert_ne by lia|];
        unfold slot; by rewrite lookup_take_ge by lia.
  - destruct Hs as [H1 H2 H3 H4]. split; try done. cbn [m_slab set_slab]. by rewrite zlen_put.
Qed.

(** ** How the other threads see a step of [t] *)

Record evolves (t : nat) m gs tr m' (g g' : local) (evs : list ring_event) : Prop := Evolves {
  ev_pos : E m <= E m';
  ev_unowned : forall p, p < E m -> unowned gs p -> unowned (<[t := g']> gs) p;
  ev_seen : forall c, 0 <= c < E m -> unowned gs c -> sq m' (idx c) = c + 1 ->
    sq m (idx c) = c + 1 /\ ln m' (idx c) = ln m (idx c);
  ev_owned : forall t2 g2 p, t2 <> t -> gs !! t2 = Some g2 -> owned (l_phase g2) = Some p ->
    slot m' (idx p) = slot m (idx p) /\ ln m' (idx p) = ln m (idx p);
  ev_held : forall t2 g2 h, t2 <> t -> gs !! t2 = Some g2 -> h ∈ l_held g2 ->
    slot m' (idx h.1) = slot m (idx h.1) /\ unwritten (<[t := g']> gs) (idx h.1);
  ev_published : forall p, p ∈ published (map (pair t) evs) -> owned (l_phase g) = Some p;
  ev_gate : forall R, res = Some R -> gate_position m R <= gate_position m' R;
  ev_active : forall t2 g2 i, t2 <> t -> gs !! t2 = Some g2 -> l_index g2 = Some i -> cu_active (cursor m' i) = cu_active (cursor m i);
}.

Lemma intact_mono m m' tr tr' p B : slot m' (idx p) = slot m (idx p) -> intact m tr p B -> intact m' (tr ++ tr') p B.
Proof. intros Hs ([t Ht] & Hl & Hb). split; [exists t; set_solver|]. by rewrite Hs. Qed.

Lemma others_published t m gs tr m' g g' evs t2 g2 p :
  inv m gs tr -> gs !! t = Some g -> evolves t m gs tr m' g g' evs -> t2 <> t -> gs !! t2 = Some g2 ->
  owned (l_phase g2) = Some p -> p ∉ published tr -> p ∉ published (tr ++ map (pair t) evs).
Proof.
  intros Hi Hg Hev Hne H2 Ho Hn. rewrite published_app, elem_of_app. intros [|Hp]; [done|].
  apply Hne. by apply (co_uniq _ _ (i_core _ _ _ Hi) t2 t g2 g p), (ev_published _ _ _ _ _ _ _ _ Hev).
Qed.

Lemma others_phase t m gs tr m' g g' evs t2 g2 :
  inv m gs tr -> gs !! t = Some g -> evolves t m gs tr m' g g' evs -> t2 <> t -> gs !! t2 = Some g2 ->
  phase_ok m' (<[t := g']> gs) (tr ++ map (pair t) evs) (l_phase g2).
Proof.
  intros Hi Hg Hev Hne H2. pose proof (lo_phase _ _ _ _ _ (i_locals _ _ _ Hi t2 g2 H2)) as Hp.
  pose proof (others_published t m gs tr m' g g' evs t2 g2) as Hpub.
  pose proof (ev_owned _ _ _ _ _ _ _ _ Hev t2 g2) as Hown. pose proof (ev_pos _ _ _ _ _ _ _ _ Hev) as Hpos. pose proof depth_ge_2.
  assert (forall pos, passed_by m pos -> passed_by m' pos) as Hgate.
  { intros pos Hpass R HR. pose proof (ev_gate _ _ _ _ _ _ _ _ Hev R HR). specialize (Hpass R HR). lia. }
  destruct (l_phase g2) as [|pos|pos i scan|pos|p|p|p B|p B|p B|p|c|c len|c len] eqn:Eph; cbn [phase_ok] in *; try done.
  - lia.
  - destruct Hp as (H1 & H3 & H4 & H5). split_and!; [lia..|]. intros R HR. destruct (H5 R HR). split; [done|auto].
  - destruct Hp as (H1 & H3 & H4). split_and!; [lia..| |auto]. intros Epos. assert (pos = E m) as Ep by lia.
    apply (ev_unowned _ _ _ _ _ _ _ _ Hev); [lia|auto].
  - by apply Hpub.
  - by apply Hpub.
  - destruct Hp as (H1 & H3 & H4). destruct (Hown p Hne H2 eq_refl) as [-> _]. split_and!; [by apply Hpub|done..].
  - destruct (Hown p Hne H2 eq_refl) as [Hs _]. by apply intact_mono with m.
  - destruct (Hown p Hne H2 eq_refl) as [Hs ->]. destruct Hp. split; [by apply intact_mono with m|done].
  - destruct (Hown p Hne H2 eq_refl) as [_ ->]. destruct Hp. split; [by apply Hpub|done].
  - destruct Hp as [H1 H3]. split; [lia|]. apply (ev_unowned _ _ _ _ _ _ _ _ Hev); [lia|done].
  - destruct Hp as [ [H1 H3] [H4 H5] ]. split_and!; [lia..| |done|].
    + apply (ev_unowned _ _ _ _ _ _ _ _ Hev); [lia|done].
    + intros Hsq. destruct (ev_seen _ _ _ _ _ _ _ _ Hev c H1 H3 Hsq) as [? ->]. auto.
  - destruct Hp as [ [H1 H3] [H4 H5] ]. split_and!; [lia..| |done|].
    + apply (ev_unowned _ _ _ _ _ _ _ _ Hev); [lia|done].
    + intros Hsq. destruct (ev_seen _ _ _ _ _ _ _ _ Hev c H1 H3 Hsq) as [? ->]. auto.
Qed.

Lemma others_local t m gs tr m' g g' evs t2 g2 :
  inv m gs tr -> gs !! t = Some g -> evolves t m gs tr m' g g' evs -> t2 <> t -> gs !! t2 = Some g2 ->
  local_ok m' (<[t := g']> gs) (tr ++ map (pair t) evs) t2 g2.
Proof.
  intros Hi Hg Hev Hne H2. pose proof (i_locals _ _ _ Hi t2 g2 H2) as [Hp Hh Hf Hx Ht Hlc]. pose proof (ev_pos _ _ _ _ _ _ _ _ Hev) as Hpos.
  split; [by apply (others_phase t m gs tr m' g g' evs t2)| |done| | |lia].
  - intros h Hin. destruct (Hh h Hin) as (H3 & H4 & H5 & H6). destruct (ev_held _ _ _ _ _ _ _ _ Hev t2 g2 h Hne H2 Hin) as [Hs Hw].
    split_and!; [lia..| |done|by apply intact_mono with m]. apply (ev_unowned _ _ _ _ _ _ _ _ Hev); [lia|done].
  - intros i Hidx. destruct (Hx i Hidx). split; [done|]. by rewrite (ev_active _ _ _ _ _ _ _ _ Hev t2 g2 i).
  - by rewrite taken_by_app, taken_by_other, app_nil_r.
Qed.

(** The invariant after a step, from its parts. *)
Lemma inv_step t m gs tr m' g g' evs :
  inv m gs tr -> gs !! t = Some g -> evolves t m gs tr m' g g' evs ->
  shape m' -> core m' (<[t := g']> gs) -> counted m' (<[t := g']> gs) -> contents m' (tr ++ map (pair t) evs) ->
  local_ok m' (<[t := g']> gs) (tr ++ map (pair t) evs) t g' -> indices (<[t := g']> gs) ->
  (forall R, res = Some R -> gated R m' (<[t := g']> gs) (tr ++ map (pair t) evs)) ->
  inv m' (<[t := g']> gs) (tr ++ map (pair t) evs).
Proof.
  intros Hi Hg Hev H1 H2 H3 H4 H5 H6 H7. split; try done.
  - intros t2 g2 Ht. apply insert_cases in Ht as [ [-> ->]|[Hne Ht] ]; [done|]. by apply (others_local t m gs tr m' g g' evs t2).
  - pose proof (i_few _ _ _ Hi). unfold zlen in *. by rewrite length_insert.
Qed.

(** ** Steps that leave the ring as it is *)

Record same_ring m m' : Prop := SameRing {
  sr_pos : E m' = E m;
  sr_sq : forall i, 0 <= i < N -> sq m' i = sq m i;
  sr_ln : forall i, 0 <= i < N -> ln m' i = ln m i;
  sr_slot : forall i, 0 <= i < N -> slot m' i = slot m i;
}.

Lemma same_ring_refl m : same_ring m m.
Proof. by split. Qed.

(** The part of a phase the others depend on. *)
Definition role (ph : phase) : option Z * option Z * bool := (owned ph, writing ph, is_won ph).

Lemma role_owned ph ph' : role ph' = role ph -> owned ph' = owned ph.
Proof. unfold role. congruence. Qed.
Lemma role_writing ph ph' : role ph' = role ph -> writing ph' = writing ph.
Proof. unfold role. congruence. Qed.

Lemma core_keep m m' gs t g g' :
  same_ring m m' -> gs !! t = Some g -> role (l_phase g') = role (l_phase g) -> core m gs -> core m' (<[t := g']> gs).
Proof.
  intros [Hp Hs _ _] Hg Hr [H1 H2 H3 H4 H5 H6]. pose proof (role_owned _ _ Hr) as Ho.
  assert (marker (l_phase g') = marker (l_phase g)) as Hm by (unfold marker, role in *; by replace (is_won (l_phase g')) with (is_won (l_phase g)) by congruence).
  split; rewrite ?Hp; try done.
  - intros t2 g2 p Ht. apply insert_cases in Ht as [ [-> ->]|[_ Ht] ]; [rewrite Ho|]; eauto.
  - intros t2 t3 g2 g3 p Ht2 Ht3. apply insert_cases in Ht2 as [ [-> ->]|[_ Ht2] ], Ht3 as [ [-> ->]|[_ Ht3] ]; rewrite ?Ho; eauto.
  - intros i Hi. rewrite Hs by lia. auto.
  - intros t2 g2 p Ht. rewrite Hs by apply idx_range. apply insert_cases in Ht as [ [-> ->]|[_ Ht] ]; [rewrite Ho, Hm|]; eauto.
  - intros p Hp0 Hpr Hu. rewrite Hs by apply idx_range. apply (unowned_same gs t g g' p Hg Ho) in Hu. auto.
Qed.

Lemma evolves_keep t m gs tr m' g g' evs :
  inv m gs tr -> same_ring m m' -> gs !! t = Some g -> role (l_phase g') = role (l_phase g) ->
  published (map (pair t) evs) = [] ->
  (forall R, res = Some R -> gate_position m R <= gate_position m' R) ->
  (forall t2 g2 i, t2 <> t -> gs !! t2 = Some g2 -> l_index g2 = Some i -> cu_active (cursor m' i) = cu_active (cursor m i)) ->
  evolves t m gs tr m' g g' evs.
Proof.
  intros Hi [Hp Hs Hl Hb] Hg Hr Hpub Hga Hact. split; try done.
  - lia.
  - intros p _. by apply (unowned_same gs t g g' p Hg), role_owned.
  - intros c Hc Hu. rewrite Hs, Hl by apply idx_range. done.
  - intros t2 g2 p _ _ _. by rewrite Hb, Hl by apply idx_range.
  - intros t2 g2 h Hne H2 Hin. rewrite Hb by apply idx_range. split; [done|].
    apply (unwritten_same gs t g g' _ Hg); [by apply role_writing|].
    apply (lo_held _ _ _ _ _ (i_locals _ _ _ Hi t2 g2 H2) h Hin).
  - rewrite Hpub. intros p Hin. by apply elem_of_nil in Hin.
Qed.

Lemma contents_keep m m' tr t evs :
  same_ring m m' -> contents m tr -> published (map (pair t) evs) = [] ->
  (forall p b, Delivered p b ∈ evs -> exists t', (t', Publishing p b) ∈ tr) -> contents m' (tr ++ map (pair t) evs).
Proof.
  intros [Hp Hs Hl Hb] [H1 H2 H3 H4] Hpub Hd. split; rewrite ?published_app, ?Hpub, ?app_nil_r, ?Hp; try done.
  - intros p Hp0. rewrite Hs, Hl by apply idx_range. intros Hsq. destruct (H1 p Hp0 Hsq) as [(B & HB & Hlen)|]; [left|by right].
    exists B. split; [|done]. apply intact_mono with m; [|done]. apply Hb, idx_range.
  - intros t2 p b. rewrite elem_of_app. intros [Hin|Hin].
    + destruct (H4 t2 p b Hin) as [t' ?]. exists t'. set_solver.
    + apply list_elem_of_fmap in Hin as (e & He & Hin). simplify_eq. destruct (Hd p b Hin) as [t' ?]. exists t'. set_solver.
Qed.

Lemma phase_keep m m' gs t g g' tr evs ph :
  same_ring m m' -> gs !! t = Some g -> role (l_phase g') = role (l_phase g) -> published (map (pair t) evs) = [] ->
  (forall R, res = Some R -> gate_position m R <= gate_position m' R) ->
  phase_ok m gs tr ph -> phase_ok m' (<[t := g']> gs) (tr ++ map (pair t) evs) ph.
Proof.
  intros [Hp Hs Hl Hb] Hg Hr Hpub Hga.
  assert (forall p, unowned (<[t := g']> gs) p <-> unowned gs p) as Hun by (intros p; by apply (unowned_same gs t g), role_owned).
  assert (forall p B, intact m tr p B -> intact m' (tr ++ map (pair t) evs) p B) as Hin by (intros p B; apply intact_mono, Hb, idx_range).
  assert (forall pos, passed_by m pos -> passed_by m' pos) as Hpass.
  { intros pos HP R HR. specialize (HP R HR). specialize (Hga R HR). lia. }
  destruct ph as [|pos|pos i scan|pos|p|p|p B|p B|p B|p|c|c len|c len]; cbn [phase_ok];
    rewrite ?published_app, ?Hpub, ?app_nil_r, ?Hp, ?Hun, ?Hs, ?Hl, ?Hb by apply idx_range; try done.
  - intros (H1 & H3 & H4 & H5). split_and!; [lia..|]. intros R HR. destruct (H5 R HR). split; [done|auto].
  - naive_solver.
  - auto.
  - naive_solver.
Qed.

Lemma held_keep m m' gs t g g' tr evs h :
  same_ring m m' -> gs !! t = Some g -> role (l_phase g') = role (l_phase g) ->
  held_ok m gs tr h -> held_ok m' (<[t := g']> gs) (tr ++ map (pair t) evs) h.
Proof.
  intros [Hp Hs Hl Hb] Hg Hr (H1 & H2 & H3 & H4). split_and!; rewrite ?Hp; [lia..| | |].
  - by apply (unowned_same gs t g), H2; [|apply role_owned].
  - by apply (unwritten_same gs t g), H3; [|apply role_writing].
  - apply intact_mono with m; [|done]. apply Hb, idx_range.
Qed.

Lemma gated_keep R m gs tr m' t g g' evs :
  gated R m gs tr -> same_ring m m' -> gs !! t = Some g -> role (l_phase g') = role (l_phase g) ->
  published (map (pair t) evs) = [] -> gate_position m' R = gate_position m R -> h_high_water m <= h_high_water m' ->
  l_index g' = l_index g -> l_cursor g' = l_cursor g -> l_moved g' = l_moved g -> gated R m' (<[t := g']> gs) (tr ++ map (pair t) evs).
Proof.
  intros [(g0 & H0 & H1 & H2 & H3 & H4 & H5) H6 H7 H8] [Hp _ _ _] Hg Hr Hpub Hpos Hhi Hix Hcu Hmv.
  split; rewrite ?Hp, ?Hpos; try done; [|lia].
  assert (exists g1, <[t := g']> gs !! r_thread R = Some g1 /\ l_index g1 = l_index g0 /\ l_cursor g1 = l_cursor g0 /\ l_moved g1 = l_moved g0) as (g1 & Hl & E1 & E2 & E3).
  { destruct (decide (r_thread R = t)) as [Et|Hne].
    - rewrite Et in H0 |- *. exists g'. assert (g0 = g) as -> by congruence. split; [by apply (insert_self gs t g)|done].
    - exists g0. by rewrite list_lookup_insert_ne. }
  exists g1. rewrite E1, E2, E3, published_app, Hpub, app_nil_r, taken_by_app. split_and!; try done; try lia.
  - intros p Hpr. by apply (unowned_same gs t g), H4; [|apply role_owned|].
  - intros p Hin Hpr. apply elem_of_app. left. auto.
Qed.

Lemma indices_keep gs t g g' : gs !! t = Some g -> l_index g' = l_index g -> indices gs -> indices (<[t := g']> gs).
Proof.
  intros Hg Hi H t2 t3 g2 g3 i H2 H3. apply insert_cases in H2 as [ [-> ->]|[_ H2] ], H3 as [ [-> ->]|[_ H3] ]; rewrite ?Hi; eauto.
Qed.

(** What a step that leaves the ring alone has to show. *)
Lemma inv_keep t m gs tr m' g g' evs :
  inv m gs tr -> gs !! t = Some g -> same_ring m m' -> shape m' -> role (l_phase g') = role (l_phase g) ->
  l_cursor g' = l_cursor g -> l_moved g' = l_moved g -> l_index g' = l_index g ->
  h_cursors m' = h_cursors m -> h_high_water m' = h_high_water m ->
  published (map (pair t) evs) = [] -> taken_by t (map (pair t) evs) = [] ->
  (forall p b, Delivered p b ∈ evs -> exists t', (t', Publishing p b) ∈ tr) ->
  counted m' (<[t := g']> gs) -> phase_ok m gs tr (l_phase g') -> (forall h, h ∈ l_held g' -> held_ok m gs tr h) ->
  (length (l_held g') <= 2)%nat ->
  inv m' (<[t := g']> gs) (tr ++ map (pair t) evs).
Proof.
  intros Hi Hg Hsr Hsh Hr Hcu Hmv Hix Hc Hh Hpub Htk Hd Hcnt Hph Hheld Hfew.
  assert (forall i, cursor m' i = cursor m i) as Hcur by (intros i; unfold cursor; by rewrite Hc).
  assert (forall R, gate_position m' R = gate_position m R) as Hgp by (intros R; unfold gate_position; by rewrite Hcur).
  apply inv_step with m g; try done.
  - apply evolves_keep; try done; [intros R _; by rewrite Hgp|intros t2 g2 i _ _ _; by rewrite Hcur].
  - apply core_keep with m g; try done. apply Hi.
  - apply contents_keep with m; try done. apply Hi.
  - destruct (i_locals _ _ _ Hi t g Hg) as [_ _ _ Hx [Ht1 Ht2] Hlc]. split; try done.
    + apply phase_keep with m g; try done. intros R _. by rewrite Hgp.
    + intros h Hin. apply held_keep with m g; auto.
    + intros i. rewrite Hix, Hcur. apply Hx.
    + rewrite taken_by_app, Htk, app_nil_r, Hcu. done.
    + by rewrite Hcu, (sr_pos _ _ Hsr).
  - apply indices_keep with g; try done. apply Hi.
  - intros R HR. apply gated_keep with m g; try done; [by apply (i_gate _ _ _ Hi)|lia].
Qed.

(** A change of knowledge. *)
Lemma inv_phase t m gs tr g ph :
  inv m gs tr -> gs !! t = Some g -> role ph = role (l_phase g) ->
  (forall i, pins_on i (with_phase g ph) = pins_on i g) -> phase_ok m gs tr ph -> inv m (<[t := with_phase g ph]> gs) (tr ++ map (pair t) []).
Proof.
  intros Hi Hg Hr Hpins Hph. pose proof (i_locals _ _ _ Hi t g Hg) as Hl.
  apply inv_keep with m g; try done; try apply Hl.
  - apply Hi.
  - intros p b Hin. by apply elem_of_nil in Hin.
  - intros i Hir. rewrite (pins_insert gs t g _ i Hg), Hpins, (i_pins _ _ _ Hi i Hir). lia.
Qed.

(** A phase in which the thread has nothing in hand. *)
Definition calm (ph : phase) : Prop :=
  match ph with Quiet | SawPos _ | Scanning _ _ _ | Gated _ | Saw _ | SawLen _ _ => True | _ => False end.

Lemma calm_owned ph : calm ph -> owned ph = None.
Proof. by destruct ph. Qed.
Lemma calm_role ph ph' : calm ph -> calm ph' -> role ph' = role ph.
Proof. by destruct ph, ph'. Qed.
Lemma calm_pins g ph i : calm (l_phase g) -> (forall c len, ph <> Pinned c len) -> pins_on i (with_phase g ph) = pins_on i g.
Proof. intros Hc Hp. unfold pins_on. cbn [l_phase l_held with_phase]. destruct ph as [| | | | | | | | | | | |c len]; [..|by destruct (Hp c len)]; by destruct (l_phase g). Qed.

(** A change of what is only known. *)
Lemma inv_calm t m gs tr g ph :
  inv m gs tr -> gs !! t = Some g -> calm (l_phase g) -> calm ph -> phase_ok m gs tr ph ->
  inv m (<[t := with_phase g ph]> gs) (tr ++ map (pair t) []).
Proof.
  intros Hi Hg H1 H2 Hph. apply inv_phase; try done; [by apply calm_role|]. intros i. apply calm_pins; [done|]. by intros c len ->.
Qed.

(** ** Steps of the owner of a position *)

(** Only the cell [i] and its slot may differ. *)
Record same_elsewhere (i : Z) m m' : Prop := SameElsewhere {
  se_pos : E m' = E m;
  se_sq : forall j, 0 <= j < N -> j <> i -> sq m' j = sq m j;
  se_ln : forall j, 0 <= j < N -> j <> i -> ln m' j = ln m j;
  se_slot : forall j, 0 <= j < N -> j <> i -> slot m' j = slot m j;
  se_rc : forall j, 0 <= j < N -> rc m' j = rc m j;
  se_cursors : h_cursors m' = h_cursors m;
  se_high : h_high_water m' = h_high_water m;
  se_shape : shape m';
}.

Section Owner.
Context (t : nat) (m : memory) (gs : list local) (tr : trace) (g : local) (p : Z).
Hypotheses (Hi : inv m gs tr) (Hg : gs !! t = Some g) (Ho : owned (l_phase g) = Some p).

Lemma owner_range : 0 <= p /\ E m - N <= p < E m.
Proof. by apply (co_own _ _ (i_core _ _ _ Hi) t g). Qed.

Lemma owner_alone t2 g2 q : t2 <> t -> gs !! t2 = Some g2 -> owned (l_phase g2) = Some q -> idx q <> idx p.
Proof.
  intros Hne H2 Hq Heq. pose proof owner_range. pose proof (co_own _ _ (i_core _ _ _ Hi) t2 g2 q H2 Hq).
  assert (q = p) as -> by (apply idx_near; [done|lia]). by apply Hne, (co_uniq _ _ (i_core _ _ _ Hi) t2 t g2 g p).
Qed.

(** The other positions of the cell are a lap or more behind. *)
Lemma owner_last q : q < E m -> idx q = idx p -> q <> p -> q <= p - N.
Proof.
  intros Hq Heq Hne. pose proof owner_range. destruct (decide (q < p)); [by apply idx_laps|].
  exfalso. assert (p <= q - N) by (apply idx_laps; [done|lia]). lia.
Qed.

Context (m' : memory) (ph : phase) (evs : list ring_event).
Hypotheses (Hse : same_elsewhere (idx p) m m')
  (Howned : owned ph = Some p \/ owned ph = None)
  (Hsq : sq m' (idx p) = p \/ sq m' (idx p) = p + 1 \/ (sq m' (idx p) = sq m (idx p) /\ ln m' (idx p) = ln m (idx p)))
  (Hslot : slot m' (idx p) = slot m (idx p) \/ writing (l_phase g) = Some p)
  (Hwriting : writing ph = writing (l_phase g) \/ writing ph = None \/ rc m (idx p) = 0)
  (Hpub : forall q, q ∈ published (map (pair t) evs) -> q = p)
  (Htaken : taken_by t (map (pair t) evs) = []).

Abbreviation gs' := (<[t := with_phase g ph]> gs).
Abbreviation tr' := (tr ++ map (pair t) evs).

Lemma owner_unowned q : q <> p -> unowned gs q -> unowned gs' q.
Proof.
  intros Hq Hu. apply (unowned_insert gs t g _ q Hg). cbn [l_phase with_phase]. split; [destruct Howned as [-> | ->]; congruence|].
  intros t2 g2 _. apply Hu.
Qed.

Lemma pin_counted t2 g2 h : gs !! t2 = Some g2 -> h ∈ l_held g2 -> 0 < pins gs (idx h.1).
Proof.
  intros H2 Hin. unfold pins. assert (0 < pins_on (idx h.1) g2)%nat.
  { unfold pins_on. assert (h ∈ filter (fun x => idx x.1 = idx h.1) (l_held g2)) as Hf by (by apply list_elem_of_filter).
    destruct (filter _ _); [by apply elem_of_nil in Hf|cbn; lia]. }
  pose proof (sum_insert (pins_on (idx h.1)) gs t2 g2 (Local Quiet 0 false None [])
    H2) as Hs. change (pins_on (idx h.1) (Local Quiet 0 false None [])) with 0%nat in Hs. lia.
Qed.

Lemma owner_held t2 g2 h :
  gs !! t2 = Some g2 -> h ∈ l_held g2 -> slot m' (idx h.1) = slot m (idx h.1) /\ unwritten gs' (idx h.1).
Proof.
  intros H2 Hin. destruct (lo_held _ _ _ _ _ (i_locals _ _ _ Hi t2 g2 H2) h Hin) as (H3 & H4 & H5 & H6).
  assert (writing (l_phase g) = Some p -> idx h.1 <> idx p) as Hw by (intros Hw Heq; by apply (H5 t g p Hg Hw)).
  split.
  - destruct (decide (idx h.1 = idx p)) as [Heq|Hne]; [|apply (se_slot _ _ _ Hse); [apply idx_range|done] ].
    rewrite Heq. destruct Hslot as [|Hs]; [done|]. by destruct (Hw Hs).
  - apply (unwritten_insert gs t g _ _ Hg). cbn [l_phase with_phase]. split; [|intros t3 g3 q _ H7 H8; by apply (H5 t3 g3)].
    intros q Hq Heq. assert (q = p) as -> by (apply writing_owned in Hq; destruct Howned; congruence).
    destruct Hwriting as [Hsame|[Hnone|Hrc] ]; [|congruence|].
    + by apply (Hw ltac:(congruence)).
    + pose proof (pin_counted t2 g2 h H2 Hin) as Hp. rewrite <- Heq, <- (i_pins _ _ _ Hi) in Hp by apply idx_range. lia.
Qed.

Lemma owner_evolves : evolves t m gs tr m' g (with_phase g ph) evs.
Proof.
  destruct Hse as [Hp Hs Hl Hb Hr Hc Hhi Hsh]. pose proof owner_range as Hrange.
  assert (forall i, cursor m' i = cursor m i) as Hcur by (intros i; unfold cursor; by rewrite Hc).
  split.
  - lia.
  - intros q Hq Hu. apply owner_unowned; [|done]. intros ->. by apply (Hu t g).
  - intros c Hc0 Hu Hsq'. assert (c <> p) as Hne by (intros ->; by apply (Hu t g)).
    destruct (decide (idx c = idx p)) as [Heq|Hcell]; [|rewrite <- (Hs (idx c)), (Hl (idx c)) by (try apply idx_range; done); done].
    rewrite Heq in *. destruct Hsq as [H1|[H1|[H1 H2] ] ]; [|lia|by rewrite <- H1, H2].
    exfalso. apply (idx_succ p c); [done|lia].
  - intros t2 g2 q Hne H2 Hq. pose proof (owner_alone t2 g2 q Hne H2 Hq). by rewrite Hb, Hl by (try apply idx_range; done).
  - intros t2 g2 h _ H2 Hin. by apply (owner_held t2 g2).
  - intros q Hq. by rewrite (Hpub q Hq).
  - intros R _. unfold gate_position. by rewrite Hcur.
  - intros t2 g2 i _ _ _. by rewrite Hcur.
Qed.

(** The owner goes on with its position. *)
Lemma owner_core_on : owned ph = Some p -> is_won ph = false -> sq m' (idx p) = p -> core m' gs'.
Proof.
  intros Hon Hnw Hsp. destruct Hse as [Hp Hs _ _ _ _ _ _]. destruct (i_core _ _ _ Hi) as [H1 H2 H3 H4 H5 H6].
  split; rewrite ?Hp; try done.
  - intros t2 g2 q Ht. apply insert_cases in Ht as [ [-> ->]|[_ Ht] ]; cbn [l_phase with_phase]; [|eauto].
    rewrite Hon. intros [= <-]. by apply (H2 t g).
  - intros t2 t3 g2 g3 q Ht2 Ht3. apply insert_cases in Ht2 as [ [-> ->]|[_ Ht2] ], Ht3 as [ [-> ->]|[_ Ht3] ]; cbn [l_phase with_phase];
      rewrite ?Hon; [done| | |eauto]; [intros [= <-]|intros ? [= <-] ]; eauto.
  - intros i Hr. pose proof owner_range. pose proof (H4 i Hr) as Hf. destruct (decide (i = idx p)) as [->|]; [|rewrite Hs by lia; done].
    exfalso. rewrite idx_small in Hr; pose proof (idx_range p); [|lia].
    assert (idx p <= p) by (unfold idx; apply Z.mod_le; lia). lia.
  - intros t2 g2 q Ht. apply insert_cases in Ht as [ [-> ->]|[Hne Ht] ]; cbn [l_phase with_phase].
    + rewrite Hon. intros [= <-]. rewrite Hsp. unfold marker. by rewrite Hnw.
    + intros Hq. rewrite Hs by (try apply idx_range; by apply (owner_alone t2 g2)). by apply (H5 t2).
  - intros q Hq0 Hqr Hu. assert (q <> p) as Hne.
    { intros ->. apply (unowned_insert gs t g _ p Hg) in Hu as [Hu _]. by apply Hu. }
    assert (unowned gs q) as Hu'.
    { apply (unowned_insert gs t g _ q Hg) in Hu as [_ Hu]. intros t2 g2 H7. destruct (decide (t2 = t)) as [->|]; [|eauto].
      assert (g2 = g) as -> by congruence. congruence. }
    rewrite Hs; [by apply H6|apply idx_range|]. intros Heq. pose proof owner_range. apply Hne, idx_near; [done|lia].
Qed.

(** The owner is done with it. *)
Lemma owner_core_off : owned ph = None -> sq m' (idx p) = p + 1 -> core m' gs'.
Proof.
  intros Hoff Hsp. destruct Hse as [Hp Hs _ _ _ _ _ _]. destruct (i_core _ _ _ Hi) as [H1 H2 H3 H4 H5 H6].
  split; rewrite ?Hp; try done.
  - intros t2 g2 q Ht. apply insert_cases in Ht as [ [-> ->]|[_ Ht] ]; cbn [l_phase with_phase]; [by rewrite Hoff|eauto].
  - intros t2 t3 g2 g3 q Ht2 Ht3. apply insert_cases in Ht2 as [ [-> ->]|[_ Ht2] ], Ht3 as [ [-> ->]|[_ Ht3] ]; cbn [l_phase with_phase];
      rewrite ?Hoff; [done..|eauto].
  - intros i Hr. pose proof owner_range. pose proof (H4 i Hr) as Hf. destruct (decide (i = idx p)) as [->|]; [|rewrite Hs by lia; done].
    exfalso. pose proof (idx_range p). assert (idx p <= p) by (unfold idx; apply Z.mod_le; lia). lia.
  - intros t2 g2 q Ht. apply insert_cases in Ht as [ [-> ->]|[Hne Ht] ]; cbn [l_phase with_phase]; [by rewrite Hoff|].
    intros Hq. rewrite Hs by (try apply idx_range; by apply (owner_alone t2 g2)). by apply (H5 t2).
  - intros q Hq0 Hqr Hu. destruct (decide (q = p)) as [->|Hne]; [done|].
    assert (unowned gs q) as Hu'.
    { apply (unowned_insert gs t g _ q Hg) in Hu as [_ Hu]. intros t2 g2 H7. destruct (decide (t2 = t)) as [->|]; [|eauto].
      assert (g2 = g) as -> by congruence. congruence. }
    rewrite Hs; [by apply H6|apply idx_range|]. intros Heq. pose proof owner_range. apply Hne, idx_near; [done|lia].
Qed.

Lemma owner_contents :
  (forall b q, Delivered q b ∉ evs) -> (p ∈ published (map (pair t) evs) -> p ∉ published tr) -> NoDup (published (map (pair t) evs)) ->
  (sq m' (idx p) = p + 1 ->
    (exists B, intact m' tr' p B /\ ln m' (idx p) = zlen B) \/ (ln m' (idx p) = k_skip_len /\ p ∉ published tr')) ->
  (sq m' (idx p) <> p -> sq m' (idx p) <> p + 1 -> slot m' (idx p) = slot m (idx p) /\ published (map (pair t) evs) = []) ->
  contents m' tr'.
Proof using Hgeo Hi Hg Ho Hse Hsq Hpub.
  clear ph Howned Hslot Hwriting Htaken. intros Hnd Hfresh Hnodup Hcell Hother. destruct Hse as [Hp Hs Hl Hb _ _ _ _]. destruct (i_contents _ _ _ Hi) as [H1 H2 H3 H4].
  pose proof owner_range as Hrange. split; rewrite ?Hp.
  - intros q Hq Hq1. destruct (decide (q = p)) as [->|Hne]; [by apply Hcell|].
    assert (q ∉ published tr -> q ∉ published tr') as Hn.
    { rewrite published_app, elem_of_app. intros Hn [|Hin]; [done|]. by apply Hne, Hpub. }
    assert (sq m (idx q) = q + 1 /\ ln m' (idx q) = ln m (idx q) /\ slot m' (idx q) = slot m (idx q)) as (H5 & -> & H7).
    { destruct (decide (idx q = idx p)) as [Heq|Hc]; [|rewrite <- (Hs (idx q)), (Hl (idx q)), (Hb (idx q)) by (try apply idx_range; done); done].
      rewrite Heq in *. assert (sq m' (idx p) <> p) by (intros E0; apply (idx_succ p q); [done|lia]).
      destruct Hsq as [?|[?|[E1 E2] ] ]; [done|lia|]. rewrite <- E1. split_and!; [done..|]. apply Hother; lia. }
    destruct (H1 q Hq H5) as [(B & HB & Hlen)|[? ?] ]; [left|right; auto]. exists B. split; [|done]. by apply intact_mono with m.
  - intros q. rewrite published_app, elem_of_app. intros [|Hin]; [auto|]. rewrite (Hpub q Hin). lia.
  - rewrite published_app. apply NoDup_app. split_and!; [done| |done]. intros q Hin Hin2. assert (q = p) as -> by auto. by apply (Hfresh Hin2).
  - intros t2 q b. rewrite elem_of_app. intros [Hin|Hin].
    + destruct (H4 t2 q b Hin) as [t' ?]. exists t'. set_solver.
    + apply list_elem_of_fmap in Hin as (e & He & Hin). simplify_eq. by destruct (Hnd b q).
Qed.

Lemma owner_gated R : res = Some R -> gated R m' gs' tr'.
Proof.
  intros HR. destruct (i_gate _ _ _ Hi R HR) as [(g0 & H0 & H1 & H2 & H3 & H4 & H5) H6 H7 H8].
  destruct Hse as [Hp _ _ _ _ Hc Hhi _]. assert (gate_position m' R = gate_position m R) as Hgp by (unfold gate_position, cursor; by rewrite Hc).
  split; rewrite ?Hp, ?Hgp, ?Hhi; try done.
  assert (exists g1, gs' !! r_thread R = Some g1 /\ l_index g1 = l_index g0 /\ l_cursor g1 = l_cursor g0 /\ l_moved g1 = l_moved g0) as (g1 & Hl & E1 & E2 & E3).
  { destruct (decide (r_thread R = t)) as [Et|Hne].
    - rewrite Et in H0 |- *. exists (with_phase g ph). assert (g0 = g) as -> by congruence. split; [by apply (insert_self gs t g)|done].
    - exists g0. by rewrite list_lookup_insert_ne. }
  assert (l_cursor g0 <= p) as Hle. { pose proof owner_range. destruct (decide (p < l_cursor g0)); [|lia]. by destruct (H4 p ltac:(lia) t g Hg). }
  exists g1. rewrite E1, E2, E3. split_and!; try done; try lia.
  - intros q Hq. apply owner_unowned; [lia|]. by apply H4.
  - intros q. rewrite published_app, taken_by_app, !elem_of_app. intros [Hin|Hin] Hq; [left; auto|]. rewrite (Hpub q Hin) in Hq. lia.
Qed.

Lemma inv_owner :
  core m' gs' -> contents m' tr' -> (forall i, pins_on i (with_phase g ph) = pins_on i g) -> phase_ok m' gs' tr' ph -> inv m' gs' tr'.
Proof.
  intros Hcore Hcont Hpins Hph. destruct Hse as [Hp Hs Hl Hb Hr Hc Hhi Hsh]. apply inv_step with m g; try done.
  - apply owner_evolves.
  - intros i Hir. rewrite (pins_insert gs t g _ i Hg), Hpins, Hr, (i_pins _ _ _ Hi i Hir) by done. lia.
  - destruct (i_locals _ _ _ Hi t g Hg) as [_ Hh Hf Hx [Ht1 Ht2] Hlc]. split; cbn [l_phase l_held l_index l_cursor with_phase]; try done.
    + intros h Hin. destruct (Hh h Hin) as (H3 & H4 & H5 & H6). destruct (owner_held t g h Hg Hin) as [H7 H8].
      split_and!; rewrite ?Hp; [lia..| |done|by apply intact_mono with m]. apply owner_unowned; [|done]. intros Heq. apply (H4 t g Hg). by rewrite Heq.
    + intros i Hidx. unfold cursor. rewrite Hc. by apply Hx.
    + by rewrite taken_by_app, Htaken, app_nil_r.
    + by rewrite Hp.
  - apply indices_keep with g; try done. apply Hi.
  - intros R. apply owner_gated.
Qed.

End Owner.

(** ** Winning a position *)

Lemma inv_win t m gs tr g pos :
  inv m gs tr -> gs !! t = Some g -> calm (l_phase g) -> phase_ok m gs tr (Gated pos) -> E m = pos -> below_limit (set_enqueue m (pos + 1)) ->
  inv (set_enqueue m (pos + 1)) (<[t := with_phase g (Won pos)]> gs) (tr ++ map (pair t) []).
Proof.
  intros Hi Hg Hcalm (Hr & Hfree & Hpass) Hpos Hlim. pose proof (i_locals _ _ _ Hi t g Hg) as Hl. specialize (Hfree (eq_sym Hpos)). pose proof depth_ge_2 as HN.
  destruct (i_core _ _ _ Hi) as [H1 H2 H3 H4 H5 H6]. destruct (i_contents _ _ _ Hi) as [C1 C2 C3 C4].
  pose proof (calm_owned _ Hcalm) as Hog.
  set (g' := with_phase g (Won pos)). set (m' := set_enqueue m (pos + 1)).
  assert (forall q, q < E m -> unowned gs q -> unowned (<[t := g']> gs) q) as Hun.
  { intros q Hq Hu. apply (unowned_insert gs t g g' q Hg). split; [cbn; intros [= ->]; lia|]. intros t2 g2 _. apply Hu. }
  assert (sq m (idx pos) = marker (Won pos) pos) as Hmark.
  { unfold marker. cbn [is_won]. destruct (Z.ltb_spec pos N) as [Hlt|Hge].
    - rewrite idx_small by lia. apply H4. lia.
    - rewrite <- idx_back. rewrite H6; [done|lia|lia|done]. }
  assert (sq m (idx pos) <> pos + 1) as Hnot. { rewrite Hmark. unfold marker. cbn [is_won]. destruct (pos <? N); lia. }
  apply inv_step with m g; try done.
  - split; try done.
    + cbn. lia.
    + intros t2 g2 h Hne Ht2 Hin. split; [done|]. destruct (lo_held _ _ _ _ _ (i_locals _ _ _ Hi t2 g2 Ht2) h Hin) as (_ & _ & Hw & _).
      apply (unwritten_insert gs t g g' _ Hg). split; [done|]. intros t3 g3 q _. apply Hw.
    + intros q Hin. by apply elem_of_nil in Hin.
  - destruct (i_shape _ _ _ Hi). by split.
  - split.
    + cbn. unfold below_limit in Hlim. cbn in Hlim. lia.
    + intros t2 g2 q Ht. cbn. apply insert_cases in Ht as [ [-> ->]|[_ Ht] ]; [cbn; intros [= <-]; lia|]. intros Hq.
      destruct (H2 t2 g2 q Ht Hq). assert (q <> pos - N) by (intros ->; by apply (Hfree t2 g2)). lia.
    + intros t2 t3 g2 g3 q Ht2 Ht3. apply insert_cases in Ht2 as [ [-> ->]|[_ Ht2] ], Ht3 as [ [-> ->]|[_ Ht3] ]; [done| | |eauto].
      * cbn. intros [= <-] Hq. destruct (H2 t3 g3 pos Ht3 Hq). lia.
      * cbn. intros Hq [= <-]. destruct (H2 t2 g2 pos Ht2 Hq). lia.
    + cbn. intros i Hir. apply H4. lia.
    + intros t2 g2 q Ht. apply insert_cases in Ht as [ [-> ->]|[_ Ht] ]; [cbn; intros [= <-]; exact Hmark|]. by apply (H5 t2 g2).
    + cbn [E set_enqueue m']. intros q Hq0 Hqr Hu. apply (unowned_insert gs t g g' q Hg) in Hu as [Hu1 Hu2]. cbn in Hu1.
      apply H6; [done|assert (q <> pos) by congruence; lia|]. intros t2 g2 Ht. destruct (decide (t2 = t)) as [->|]; [|eauto].
      assert (g2 = g) as -> by congruence. by rewrite Hog.
  - intros i Hir. rewrite (pins_insert gs t g g' i Hg). change (rc m' i) with (rc m i). rewrite (i_pins _ _ _ Hi i Hir).
    unfold g'. rewrite (calm_pins g (Won pos) i Hcalm) by done. lia.
  - cbn [map]. rewrite app_nil_r. split; try done.
    + cbn. intros q Hq Hsq. apply C1; [|done]. assert (q <> pos) by (intros ->; done). lia.
    + intros q Hin. specialize (C2 q Hin). cbn. lia.
  - cbn [map]. rewrite app_nil_r. destruct Hl as [_ Hh Hf Hx Ht Hlc]. split; try done; [| |cbn; lia].
    + cbn. intros Hin. specialize (C2 pos Hin). lia.
    + intros h Hin. destruct (Hh h Hin) as (A1 & A2 & A3 & A4). split_and!; [cbn; lia..| | |done].
      * apply Hun; [lia|done].
      * apply (unwritten_insert gs t g g' _ Hg). split; [done|]. intros t3 g3 q _. apply A3.
  - apply indices_keep with g; try done. apply Hi.
  - intros R HR. destruct (i_gate _ _ _ Hi R HR) as [(g0 & G0 & G1 & G2 & G3 & G4 & G5) G6 G7 G8]. specialize (Hpass R HR).
    cbn [map]. rewrite app_nil_r. split; try done.
    2: { change (E m') with (pos + 1). change (gate_position m' R) with (gate_position m R). lia. }
    assert (exists g1, <[t := g']> gs !! r_thread R = Some g1 /\ l_index g1 = l_index g0 /\ l_cursor g1 = l_cursor g0 /\ l_moved g1 = l_moved g0) as (g1 & Hl1 & E1 & E2 & E3).
    { destruct (decide (r_thread R = t)) as [Et|Hne].
      - rewrite Et in G0 |- *. exists g'. assert (g0 = g) as -> by congruence. split; [by apply (insert_self gs t g)|done].
      - exists g0. by rewrite list_lookup_insert_ne. }
    exists g1. rewrite E1, E2, E3. change (gate_position m' R) with (gate_position m R). change (E m') with (pos + 1).
    split_and!; try done; try lia. intros q Hq. apply Hun; [lia|by apply G4].
Qed.

(** ** Pins *)

Lemma pins_bound m gs tr i : inv m gs tr -> 0 <= pins gs i <= 3 * 2 ^ 16.
Proof.
  intros Hi. unfold pins. assert (sum_list_with (pins_on i) gs <= 3 * length gs)%nat as Hb.
  { assert (Forall (fun g => length (l_held g) <= 2)%nat gs) as Hf.
    { apply Forall_lookup. intros t g Hg. apply (i_locals _ _ _ Hi t g Hg). }
    clear Hi. induction Hf as [|g gs Hg _ IH]; [done|]. assert (pins_on i g <= 3)%nat.
    { unfold pins_on. pose proof (length_filter (fun h : Z * bytes => idx h.1 = i) (l_held g)). destruct (l_phase g); try lia. case_decide; lia. }
    assert (sum_list_with (pins_on i) (g :: gs) = (pins_on i g + sum_list_with (pins_on i) gs)%nat) as -> by done. cbn [length]. lia. }
  pose proof (i_few _ _ _ Hi) as Hf. unfold zlen in Hf. lia.
Qed.

(** A pin is added ([d = 1]) or taken back ([d = -1]). *)
Lemma inv_repin t m gs tr g g' i d m' :
  inv m gs tr -> gs !! t = Some g -> 0 <= i < N -> d = 1 \/ d = -1 ->
  cell_written m m' i (set_refcount (wrap 32 (rc m i + d))) ->
  role (l_phase g') = role (l_phase g) -> l_cursor g' = l_cursor g -> l_moved g' = l_moved g -> l_index g' = l_index g ->
  (forall j, Z.of_nat (pins_on j g') = Z.of_nat (pins_on j g) + if decide (j = i) then d else 0) ->
  phase_ok m gs tr (l_phase g') -> (forall h, h ∈ l_held g' -> held_ok m gs tr h) -> (length (l_held g') <= 2)%nat ->
  inv m' (<[t := g']> gs) (tr ++ map (pair t) []).
Proof.
  intros Hi Hg Hir Hd [W1 W2 W3 W4 W5 W6] Hr Hcu Hmv Hix Hpins Hph Hheld Hfew.
  assert (same_ring m m') as Hsr.
  { split; [done| | |]; intros j Hj; [rewrite W1 by done; by case_decide; subst|rewrite W1 by done; by case_decide; subst|].
    unfold slot. by rewrite W3. }
  apply inv_keep with m g; try done.
  - intros p b Hin. by apply elem_of_nil in Hin.
  - intros j Hj. rewrite (pins_insert gs t g g' j Hg), Hpins, W1 by done. pose proof (i_pins _ _ _ Hi i Hir) as Hrc.
    case_decide as Ej; [subst j|rewrite (i_pins _ _ _ Hi j Hj); lia]. cbn [c_take_refcount set_refcount]. rewrite Hrc.
    pose proof (pins_bound m gs tr i Hi). pose proof (pins_insert gs t g g' i Hg) as Hp'. rewrite Hpins, decide_True in Hp' by done.
    assert (0 <= pins (<[t := g']> gs) i) by (unfold pins; lia). rewrite wrap_small; [lia|]. unfold in_width. lia.
Qed.

(** The sequence read again after pinning: the pin holds. *)
Lemma inv_validate t m gs tr g c len :
  inv m gs tr -> gs !! t = Some g -> l_phase g = Pinned c len -> l_held g = [] -> sq m (idx c) = c + 1 ->
  exists B, zlen B = len /\ (exists t', (t', Publishing c B) ∈ tr) /\ zlen B <= m_slot_capacity r /\
    inv m (<[t := Local Quiet (l_cursor g) (l_moved g) (l_index g) [(c, B)] ]> gs) (tr ++ map (pair t) []).
Proof.
  intros Hi Hg Hph Hh Hsq. pose proof (i_locals _ _ _ Hi t g Hg) as Hl. pose proof (lo_phase _ _ _ _ _ Hl) as Hp.
  rewrite Hph in Hp. destruct Hp as ((Hc & Hu) & Hlen & Hln). specialize (Hln Hsq).
  destruct (ct_cell _ _ (i_contents _ _ _ Hi) c Hc Hsq) as [(B & HB & Hlb)|[? _] ]; [|congruence].
  exists B. split; [congruence|]. split; [apply HB|]. split; [apply HB|]. apply inv_keep with m g; try done.
  - apply Hi.
  - by rewrite Hph.
  - intros p b Hin. by apply elem_of_nil in Hin.
  - intros i Hir. rewrite (pins_insert gs t g _ i Hg), (i_pins _ _ _ Hi i Hir). unfold pins_on. rewrite Hph, Hh. cbn [l_held l_phase].
    rewrite filter_cons. cbn [fst]. case_decide; cbn; lia.
  - intros h Hin. apply list_elem_of_singleton in Hin as ->. split_and!; cbn [fst snd]; [lia..|done| |done].
    intros t2 g2 q H2 Hw Heq. pose proof (co_owned _ _ (i_core _ _ _ Hi) t2 g2 q H2 (writing_owned _ _ Hw)) as Hmk.
    assert (is_won (l_phase g2) = false) as Hnw by (by destruct (l_phase g2)). unfold marker in Hmk. rewrite Hnw, Heq, Hsq in Hmk.
    apply (idx_succ q c); [done|lia].
  - cbn. lia.
Qed.

(** No pin was seen after the marker: the slot may be written. *)
Lemma inv_clear t m gs tr g pos :
  inv m gs tr -> gs !! t = Some g -> l_phase g = Announced pos -> rc m (idx pos) = 0 ->
  inv m (<[t := with_phase g (Filling pos [])]> gs) (tr ++ map (pair t) []).
Proof.
  intros Hi Hg Hph Hrc. pose proof (i_locals _ _ _ Hi t g Hg) as Hl. pose proof (lo_phase _ _ _ _ _ Hl) as Hp. rewrite Hph in Hp. cbn in Hp.
  assert (owned (l_phase g) = Some pos) as Ho by (by rewrite Hph).
  pose proof (co_owned _ _ (i_core _ _ _ Hi) t g pos Hg Ho) as Hsq. rewrite Hph in Hsq. unfold marker in Hsq. cbn in Hsq.
  assert (same_elsewhere (idx pos) m m) as Hse by (split; try done; apply Hi).
  apply (inv_owner t m gs tr g pos Hi Hg Ho m (Filling pos []) [] Hse); cbn [map published taken_by omap list_omap]; try auto; try done.
  - intros q Hin. by apply elem_of_nil in Hin.
  - by apply (owner_core_on t m gs tr g pos Hi Hg Ho m (Filling pos []) Hse).
  - rewrite app_nil_r. apply Hi.
  - intros i. unfold pins_on. by rewrite Hph.
  - rewrite app_nil_r. cbn. split_and!; [done| |done]. pose proof (go_stride r Hgeo). unfold zlen. cbn. lia.
Qed.

(** ** The life of a claimed slot *)

Lemma written_elsewhere m m' i f :
  (forall c, c_take_refcount (f c) = c_take_refcount c) -> cell_written m m' i f -> same_elsewhere i m m'.
Proof.
  intros Hf [W1 W2 W3 W4 W5 W6]. split; try done.
  - intros j Hj Hne. by rewrite W1, decide_False.
  - intros j Hj Hne. by rewrite W1, decide_False.
  - intros j _ _. unfold slot. by rewrite W3.
  - intros j Hj. rewrite W1 by done. case_decide; [subst; apply Hf|done].
Qed.

(** Conditions on the events of a step that has none. *)
Ltac no_events :=
  solve [ let H := fresh in intros H; by apply elem_of_nil in H | let H := fresh in intros ? H; by apply elem_of_nil in H | let H := fresh in intros ? ? H; by apply elem_of_nil in H
        | apply NoDup_nil_2 | lia | done ].

(** A write to the own cell that leaves the sequence at the marker. *)
Lemma inv_own_cell t m gs tr g p f ph m' :
  inv m gs tr -> gs !! t = Some g -> owned (l_phase g) = Some p -> cell_written m m' (idx p) f ->
  (forall c, c_take_refcount (f c) = c_take_refcount c) ->
  owned ph = Some p -> is_won ph = false -> (writing ph = writing (l_phase g) \/ writing ph = None) -> c_sequence (f (cell m (idx p))) = p ->
  (forall i, pins_on i (with_phase g ph) = pins_on i g) ->
  phase_ok m' (<[t := with_phase g ph]> gs) tr ph -> inv m' (<[t := with_phase g ph]> gs) (tr ++ map (pair t) []).
Proof.
  intros Hi Hg Ho Hw Hf Hon Hnw Hwr Hsq Hpins Hph. pose proof (written_elsewhere _ _ _ _ Hf Hw) as Hse.
  assert (sq m' (idx p) = p) as Hsq' by (rewrite (cw_cell _ _ _ _ Hw) by apply idx_range; by rewrite decide_True).
  assert (slot m' (idx p) = slot m (idx p)) as Hsl by (unfold slot; by rewrite (cw_slab _ _ _ _ Hw)).
  apply (inv_owner t m gs tr g p Hi Hg Ho m' ph [] Hse); try done; auto.
  - destruct Hwr; auto.
  - no_events.
  - by apply (owner_core_on t m gs tr g p Hi Hg Ho m' ph Hse).
  - apply (owner_contents t m gs tr g p Hi Hg Ho m' [] Hse); auto; no_events.
  - cbn [map]. by rewrite app_nil_r.
Qed.

Lemma inv_announce t m gs tr g pos m' :
  inv m gs tr -> gs !! t = Some g -> l_phase g = Won pos \/ l_phase g = Announced pos ->
  cell_written m m' (idx pos) (set_sequence pos) ->
  inv m' (<[t := with_phase g (Announced pos)]> gs) (tr ++ map (pair t) []).
Proof.
  intros Hi Hg Hph Hw. pose proof (lo_phase _ _ _ _ _ (i_locals _ _ _ Hi t g Hg)) as Hp.
  apply (inv_own_cell t m gs tr g pos (set_sequence pos)); try done; destruct Hph as [Hph|Hph]; rewrite ?Hph; try done; auto.
  - intros i. unfold pins_on. by rewrite Hph.
  - intros i. unfold pins_on. by rewrite Hph.
  - cbn. by rewrite Hph in Hp.
  - cbn. by rewrite Hph in Hp.
Qed.

Lemma own_marker t m gs tr g p :
  inv m gs tr -> gs !! t = Some g -> owned (l_phase g) = Some p -> is_won (l_phase g) = false -> sq m (idx p) = p.
Proof. intros Hi Hg Ho Hw. rewrite (co_owned _ _ (i_core _ _ _ Hi) t g p Hg Ho). unfold marker. by rewrite Hw. Qed.

Lemma inv_describe t m gs tr g pos B m' :
  inv m gs tr -> gs !! t = Some g -> l_phase g = Ready pos B -> cell_written m m' (idx pos) (set_len (zlen B)) ->
  inv m' (<[t := with_phase g (Described pos B)]> gs) (tr ++ map (pair t) []).
Proof.
  intros Hi Hg Hph Hw. pose proof (lo_phase _ _ _ _ _ (i_locals _ _ _ Hi t g Hg)) as Hp. rewrite Hph in Hp.
  apply (inv_own_cell t m gs tr g pos (set_len (zlen B))); rewrite ?Hph; try done; auto.
  - cbn. apply (own_marker t m gs tr g pos); by rewrite ?Hph.
  - intros i. unfold pins_on. by rewrite Hph.
  - cbn. destruct Hp as (H1 & H2 & H3). split; [|rewrite (cw_cell _ _ _ _ Hw) by apply idx_range; by rewrite decide_True].
    split_and!; [done..|]. unfold slot in *. by rewrite (cw_slab _ _ _ _ Hw).
Qed.

Lemma inv_tomb t m gs tr g pos m' :
  inv m gs tr -> gs !! t = Some g -> l_phase g = Announced pos -> cell_written m m' (idx pos) (set_len k_skip_len) ->
  inv m' (<[t := with_phase g (Tombed pos)]> gs) (tr ++ map (pair t) []).
Proof.
  intros Hi Hg Hph Hw. pose proof (lo_phase _ _ _ _ _ (i_locals _ _ _ Hi t g Hg)) as Hp. rewrite Hph in Hp.
  apply (inv_own_cell t m gs tr g pos (set_len k_skip_len)); rewrite ?Hph; try done; auto.
  - cbn. apply (own_marker t m gs tr g pos); by rewrite ?Hph.
  - intros i. unfold pins_on. by rewrite Hph.
  - cbn. split; [done|]. rewrite (cw_cell _ _ _ _ Hw) by apply idx_range. by rewrite decide_True.
Qed.

(** The sequence is released: the position is filled or skipped. *)
Lemma inv_resolve t m gs tr g p m' :
  inv m gs tr -> gs !! t = Some g -> (exists B, l_phase g = Described p B) \/ l_phase g = Tombed p ->
  cell_written m m' (idx p) (set_sequence (p + 1)) ->
  inv m' (<[t := with_phase g Quiet]> gs) (tr ++ map (pair t) []).
Proof.
  intros Hi Hg Hph Hw. pose proof (lo_phase _ _ _ _ _ (i_locals _ _ _ Hi t g Hg)) as Hp.
  assert (owned (l_phase g) = Some p) as Ho by (destruct Hph as [ [B ->]| -> ]; done).
  assert (same_elsewhere (idx p) m m') as Hse by (by apply (written_elsewhere _ _ _ (set_sequence (p + 1)))).
  assert (sq m' (idx p) = p + 1 /\ ln m' (idx p) = ln m (idx p)) as [Hsq Hln]
    by (rewrite (cw_cell _ _ _ _ Hw) by apply idx_range; by rewrite decide_True).
  assert (slot m' (idx p) = slot m (idx p)) as Hsl by (unfold slot; by rewrite (cw_slab _ _ _ _ Hw)).
  apply (inv_owner t m gs tr g p Hi Hg Ho m' Quiet [] Hse); try done; auto.
  - no_events.
  - by apply (owner_core_off t m gs tr g p Hi Hg Ho m' Quiet Hse).
  - apply (owner_contents t m gs tr g p Hi Hg Ho m' [] Hse); auto; try no_events.
    + intros _. cbn [map]. rewrite app_nil_r, Hln. destruct Hph as [ [B Hph]|Hph]; rewrite Hph in Hp; cbn in Hp.
      * left. exists B. destruct Hp as [ (H1 & H2 & H3) H4]. split; [|done]. split_and!; [done..|by rewrite Hsl].
      * right. destruct Hp as [H1 H2]. by split.
  - intros i. unfold pins_on. destruct Hph as [ [B ->]| -> ]; done.
Qed.

Lemma take_snoc_insert (l : bytes) n b : (n < length l)%nat -> take (S n) (<[n := b]> l) = take n l ++ [b].
Proof.
  intros Hn. rewrite (take_S_r _ n b); [|by apply list_lookup_insert_eq]. by rewrite take_insert_ge by lia.
Qed.

(** One byte is copied. *)
Lemma inv_fill t m gs tr g pos done b m' :
  inv m gs tr -> gs !! t = Some g -> l_phase g = Filling pos done -> zlen done + 1 <= m_slot_capacity r ->
  slab_written m m' (idx pos) (zlen done) b ->
  inv m' (<[t := with_phase g (Filling pos (done ++ [b]))]> gs) (tr ++ map (pair t) []).
Proof.
  intros Hi Hg Hph Hlen [W1 W2 W3 W4 W5 W6]. pose proof (lo_phase _ _ _ _ _ (i_locals _ _ _ Hi t g Hg)) as Hp. rewrite Hph in Hp.
  destruct Hp as (Hp1 & Hp2 & Hp3). pose proof (go_stride r Hgeo) as Hst.
  assert (owned (l_phase g) = Some pos) as Ho by (by rewrite Hph).
  assert (forall j, cell m' j = cell m j) as Hcell by (intros j; unfold cell; by rewrite W3).
  assert (same_elsewhere (idx pos) m m') as Hse.
  { split; try done; intros j Hj; rewrite ?Hcell; try done. intros Hne. by rewrite W1, decide_False. }
  assert (sq m' (idx pos) = pos) as Hsq by (rewrite Hcell; apply (own_marker t m gs tr g pos); by rewrite ?Hph).
  apply (inv_owner t m gs tr g pos Hi Hg Ho m' (Filling pos (done ++ [b])) [] Hse); try done; rewrite ?Hph; auto.
  - no_events.
  - by apply (owner_core_on t m gs tr g pos Hi Hg Ho m' (Filling pos (done ++ [b])) Hse).
  - apply (owner_contents t m gs tr g pos Hi Hg Ho m' [] Hse); auto; no_events.
  - intros i. unfold pins_on. by rewrite Hph.
  - cbn [map phase_ok]. rewrite app_nil_r. split_and!; [done|rewrite zlen_app; unfold zlen at 2; cbn; lia|].
    rewrite W1 by apply idx_range. rewrite decide_True by done. rewrite length_app. cbn [length]. rewrite zlen_to_nat.
    replace (length done + 1)%nat with (S (length done)) by lia. rewrite take_snoc_insert; [by rewrite Hp3|].
    rewrite slot_length by (try apply idx_range; apply Hi). unfold zlen in Hlen. lia.
Qed.

(** [publish] is called. *)
Lemma inv_ready t m gs tr g pos B :
  inv m gs tr -> gs !! t = Some g -> l_phase g = Filling pos B ->
  inv m (<[t := with_phase g (Ready pos B)]> gs) (tr ++ map (pair t) [Publishing pos B]).
Proof.
  intros Hi Hg Hph. pose proof (lo_phase _ _ _ _ _ (i_locals _ _ _ Hi t g Hg)) as Hp. rewrite Hph in Hp.
  destruct Hp as (Hp1 & Hp2 & Hp3). assert (owned (l_phase g) = Some pos) as Ho by (by rewrite Hph).
  assert (same_elsewhere (idx pos) m m) as Hse by (split; try done; apply Hi).
  assert (sq m (idx pos) = pos) as Hsq by (apply (own_marker t m gs tr g pos); by rewrite ?Hph).
  assert (forall q, q ∈ published (map (pair t) [Publishing pos B]) -> q = pos) as Hpub by (intros q Hin; by apply list_elem_of_singleton in Hin).
  apply (inv_owner t m gs tr g pos Hi Hg Ho m (Ready pos B) [Publishing pos B] Hse); try done; rewrite ?Hph; auto.
  - cbn. by rewrite decide_True.
  - by apply (owner_core_on t m gs tr g pos Hi Hg Ho m (Ready pos B) Hse).
  - apply (owner_contents t m gs tr g pos Hi Hg Ho m [Publishing pos B] Hse); try done; auto.
    + intros b q Hin. by apply list_elem_of_singleton in Hin.
    + apply NoDup_singleton.
    + lia.
  - intros i. unfold pins_on. by rewrite Hph.
  - cbn [phase_ok]. split_and!; [exists t; set_solver|done..].
Qed.

(** A write to the own cell that nobody reads. *)
Lemma inv_offset t m gs tr g i v m' :
  inv m gs tr -> gs !! t = Some g -> cell_written m m' i (set_offset v) -> inv m' (<[t := g]> gs) (tr ++ map (pair t) []).
Proof.
  intros Hi Hg [W1 W2 W3 W4 W5 W6]. pose proof (i_locals _ _ _ Hi t g Hg) as Hl.
  assert (same_ring m m') as Hsr.
  { split; [done| | |]; intros j Hj; [rewrite W1 by done; by case_decide; subst|rewrite W1 by done; by case_decide; subst|].
    unfold slot. by rewrite W3. }
  apply inv_keep with m g; try done; try apply Hl.
  - intros p b Hin. by apply elem_of_nil in Hin.
  - intros j Hj. rewrite list_insert_id by done. rewrite W1 by done. rewrite <- (i_pins _ _ _ Hi j Hj). by case_decide; subst.
Qed.

(** ** Cursors *)

Lemma sorted_snoc (l : list Z) x : StronglySorted Z.lt l -> (forall y, y ∈ l -> y < x) -> StronglySorted Z.lt (l ++ [x]).
Proof.
  induction 1 as [|y l Hs IH Hf]; intros Hx; cbn; [by repeat constructor|]. constructor.
  - apply IH. intros z Hz. apply Hx. by right.
  - apply Forall_app. split; [done|]. constructor; [|done]. apply Hx. left.
Qed.

(** The own cursor moves up to [c], past a slot that is taken or past slots that are not. *)
Lemma inv_move t m gs tr g c evs :
  inv m gs tr -> gs !! t = Some g -> l_cursor g <= c <= E m ->
  evs = [] \/ (exists q, evs = [Taken q] /\ l_cursor g <= q < c) ->
  (forall R, res = Some R -> r_thread R = t ->
    l_moved g = false /\ c = l_cursor g + 1 /\ (forall p, 0 <= p < c -> unowned gs p) /\
    (forall p, p ∈ published tr -> r_start R <= p < c -> p ∈ taken_by t tr ++ taken_by t (map (pair t) evs))) ->
  inv m (<[t := with_cursor g c]> gs) (tr ++ map (pair t) evs).
Proof.
  intros Hi Hg Hle Hevs Hres. pose proof (i_locals _ _ _ Hi t g Hg) as Hl. pose proof (same_ring_refl m) as Hsr.
  assert (published (map (pair t) evs) = []) as Hpub by (destruct Hevs as [->|(q & -> & _)]; done).
  assert (forall R, res = Some R -> gate_position m R <= gate_position m R) as Hgp by lia.
  apply inv_step with m g; try done.
  - by apply evolves_keep.
  - apply Hi.
  - apply core_keep with m g; try done. apply Hi.
  - intros i Hir. rewrite (pins_insert gs t g _ i Hg), (i_pins _ _ _ Hi i Hir). unfold pins_on. cbn. lia.
  - apply contents_keep with m; try done; [apply Hi|]. intros p b Hin. destruct Hevs as [->|(q & -> & _)]; [by apply elem_of_nil in Hin|].
    by apply list_elem_of_singleton in Hin.
  - destruct Hl as [Hp Hh Hf Hx [Ht1 Ht2] Hlc]. split; cbn [l_phase l_held l_index l_cursor with_cursor]; try done; [| | |lia].
    + by apply phase_keep with m g.
    + intros h Hin. apply held_keep with m g; auto.
    + rewrite taken_by_app. destruct Hevs as [->|(q & -> & Hq)].
      * cbn. rewrite app_nil_r. split; [done|]. intros p Hin. specialize (Ht2 p Hin). lia.
      * assert (taken_by t (map (pair t) [Taken q]) = [q]) as -> by (cbn; by rewrite decide_True). split.
        -- apply sorted_snoc; [done|]. intros y Hy. specialize (Ht2 y Hy). lia.
        -- intros p. rewrite elem_of_app. intros [Hin|Hin]; [specialize (Ht2 p Hin); lia|]. apply list_elem_of_singleton in Hin. lia.
  - apply indices_keep with g; try done. apply Hi.
  - intros R HR. destruct (i_gate _ _ _ Hi R HR) as [(g0 & H0 & H1 & H2 & H3 & H4 & H5) H6 H7 H8]. split; try done.
    destruct (decide (r_thread R = t)) as [Et|Hne].
    + destruct (Hres R HR Et) as (R0 & R1 & R3 & R4). rewrite Et in H0. assert (g0 = g) as -> by congruence. rewrite R0 in H2. rewrite Et.
      exists (with_cursor g c). cbn. split; [by apply (insert_self gs t g)|]. split_and!; try done; try lia.
      * intros p Hp. apply (unowned_same gs t g _ p Hg); [done|auto].
      * intros p. rewrite published_app, Hpub, app_nil_r, taken_by_app. auto.
    + exists g0. rewrite list_lookup_insert_ne by done. split_and!; try done; try lia.
      * intros p Hp. apply (unowned_same gs t g _ p Hg); [done|auto].
      * intros p. rewrite published_app, Hpub, app_nil_r, taken_by_app. intros Hin Hp. apply elem_of_app. left. auto.
Qed.

(** What a write to the own cursor keeps. *)
Lemma inv_cursor_write t m gs tr g g' i f m' :
  inv m gs tr -> gs !! t = Some g -> 0 <= i < m_consumer_capacity r -> cursor_written m m' i f ->
  with_phase g' (l_phase g) = Local (l_phase g) (l_cursor g) (l_moved g') (l_index g') (l_held g) -> l_phase g' = l_phase g ->
  (forall t2 g2, t2 <> t -> gs !! t2 = Some g2 -> l_index g2 <> Some i) ->
  (l_index g' = l_index g \/ l_index g' = Some i \/ l_index g' = None) ->
  (l_index g' = Some i -> cu_active (f (cursor m i)) = 1) ->
  (forall R, res = Some R -> r_index R = i ->
    gate_position m R <= cu_position (f (cursor m i)) /\ l_cursor g = cu_position (f (cursor m i)) /\ l_moved g' = false /\ l_index g' = Some i) ->
  (forall R, res = Some R -> r_index R <> i -> r_thread R = t -> l_index g' = l_index g /\ l_moved g' = l_moved g) ->
  inv m' (<[t := g']> gs) (tr ++ map (pair t) []).
Proof.
  intros Hi Hg Hir [W1 W2 W3 W4 W5 W6] Hsame Hph Hothers Hix Hact Hgate Hres. pose proof (go_consumers r Hgeo) as Hcc.
  pose proof (i_locals _ _ _ Hi t g Hg) as Hl.
  assert (l_cursor g' = l_cursor g) as Hcu by (unfold with_phase in Hsame; congruence). assert (l_held g' = l_held g) as Hh by (unfold with_phase in Hsame; congruence).
  assert (forall j, cell m' j = cell m j) as Hcell by (intros j; unfold cell; by rewrite W4).
  assert (same_ring m m') as Hsr by (split; [done| | |]; intros j Hj; rewrite ?Hcell; try done; unfold slot; by rewrite W3).
  assert (forall j, 0 <= j < m_consumer_capacity r -> j <> i -> cursor m' j = cursor m j) as Hother by (intros j Hj Hne; by rewrite W1, decide_False by lia).
  assert (cursor m' i = f (cursor m i)) as Hself by (rewrite W1 by lia; by rewrite decide_True).
  assert (forall R, res = Some R -> 0 <= r_index R < m_consumer_capacity r) as HRr.
  { intros R HR. destruct (i_gate _ _ _ Hi R HR) as [(g0 & H0 & H1 & _) _ _ _]. by apply (lo_index _ _ _ _ _ (i_locals _ _ _ Hi _ g0 H0)). }
  assert (forall R, res = Some R -> gate_position m R <= gate_position m' R) as Hgp.
  { intros R HR. unfold gate_position at 2. destruct (decide (r_index R = i)) as [Ei|Ei].
    - rewrite Ei, Hself. by apply Hgate.
    - rewrite Hother by auto. done. }
  apply inv_step with m g; try done.
  - apply evolves_keep; try done; [by rewrite Hph|]. intros t2 g2 j Hne H2 Hj. rewrite Hother; [done| |].
    + by apply (lo_index _ _ _ _ _ (i_locals _ _ _ Hi t2 g2 H2)).
    + intros ->. by apply (Hothers t2 g2).
  - apply core_keep with m g; try done; [by rewrite Hph|]. apply Hi.
  - intros j Hj. rewrite Hcell, (pins_insert gs t g g' j Hg), (i_pins _ _ _ Hi j Hj). unfold pins_on. rewrite Hph, Hh. lia.
  - apply contents_keep with m; try done; [apply Hi|]. no_events.
  - destruct Hl as [Hp Hhe Hf Hx [Ht1 Ht2] Hlc]. split; rewrite ?Hph, ?Hh, ?Hcu, ?W2; try done.
    + apply phase_keep with m g; try done. by rewrite Hph.
    + intros h Hin. apply held_keep with m g; auto. by rewrite Hph.
    + intros j Hj. destruct (decide (j = i)) as [->|Hne]; [rewrite Hself; auto|].
      rewrite Hother; [apply Hx; destruct Hix as [E0|[E0|E0] ]; congruence| |done]. apply Hx. destruct Hix as [E0|[E0|E0] ]; congruence.
    + cbn. by rewrite app_nil_r.
  - intros t2 t3 g2 g3 j H2 H3. pose proof (i_indices _ _ _ Hi) as Hu.
    apply insert_cases in H2 as [ [-> ->]|[N2 H2] ], H3 as [ [-> ->]|[N3 H3] ]; [done| | |by eapply Hu].
    + intros E2 E3. destruct Hix as [E0|[E0|E0] ]; [|by destruct (Hothers t3 g3 N3 H3); congruence|congruence].
      apply (Hu t t3 g g3 j); try done. congruence.
    + intros E2 E3. destruct Hix as [E0|[E0|E0] ]; [|by destruct (Hothers t2 g2 N2 H2); congruence|congruence].
      apply (Hu t2 t g2 g j); try done. congruence.
  - intros R HR. destruct (i_gate _ _ _ Hi R HR) as [(g0 & H0 & H1 & H2 & H3 & H4 & H5) H6 H7 H8]. specialize (Hgp R HR).
    split; rewrite ?W2, ?W5; try lia. cbn [map]. rewrite app_nil_r.
    assert (forall p, 0 <= p < l_cursor g0 -> unowned (<[t := g']> gs) p) as Hun.
    { intros p Hp. apply (unowned_same gs t g _ p Hg); [by rewrite Hph|auto]. }
    destruct (decide (r_index R = i)) as [Ei|Ei].
    + destruct (Hgate R HR Ei) as (R1 & R2 & R4 & R3). assert (gate_position m' R = cu_position (f (cursor m i))) as Hnew by (unfold gate_position; by rewrite Ei, Hself).
      assert (r_thread R = t) as Et. { destruct (decide (r_thread R = t)); [done|]. destruct (Hothers _ g0 n H0). congruence. }
      rewrite Et in *. assert (g0 = g) as -> by congruence. exists g'. rewrite Hcu, R3, R4, Ei.
      split; [by apply (insert_self gs t g)|]. split_and!; try done; lia.
    + assert (gate_position m' R = gate_position m R) as Hnew by (unfold gate_position; by rewrite Hother by auto). rewrite Hnew.
      destruct (decide (r_thread R = t)) as [Et|Hne].
      * rewrite Et in *. assert (g0 = g) as -> by congruence. destruct (Hres R HR Ei Et) as [X1 X2]. exists g'. rewrite Hcu, X1, X2.
        split; [by apply (insert_self gs t g)|]. split_and!; done || lia.
      * exists g0. rewrite list_lookup_insert_ne by done. split_and!; done || lia.
Qed.

(** The high-water word grows. *)
Lemma inv_high t m gs tr g v :
  inv m gs tr -> gs !! t = Some g -> h_high_water m <= v <= m_consumer_capacity r ->
  inv (set_words m (h_notify_generation m) (h_park_state m) v) (<[t := g]> gs) (tr ++ map (pair t) []).
Proof.
  intros Hi Hg Hv. set (m' := set_words _ _ _ _). assert (same_ring m m') as Hsr by (by split).
  pose proof (i_locals _ _ _ Hi t g Hg) as Hl. destruct (i_shape _ _ _ Hi) as [S1 S2 S3 S4].
  apply inv_step with m g; try done.
  - by apply evolves_keep.
  - split; try done. cbn. lia.
  - apply core_keep with m g; try done. apply Hi.
  - intros i Hir. rewrite list_insert_id by done. by apply (i_pins _ _ _ Hi).
  - apply contents_keep with m; try done; [apply Hi|]. no_events.
  - destruct Hl as [Hp Hh Hf Hx [Ht1 Ht2] Hlc]. split; try done.
    + by apply phase_keep with m g.
    + intros h Hin. apply held_keep with m g; auto.
    + cbn. by rewrite app_nil_r.
  - apply indices_keep with g; try done. apply Hi.
  - intros R HR. apply gated_keep with m g; try done; [by apply (i_gate _ _ _ Hi)|cbn; lia].
Qed.

End Safety.

Arguments idx r p : clear implicits.
Arguments slot r m i : clear implicits.
Arguments unwritten r gs i : clear implicits.
Arguments pins_on r i g : clear implicits.
Arguments pins r gs i : clear implicits.
Arguments marker r ph p : clear implicits.
Arguments shape r m : clear implicits.
Arguments core r m gs : clear implicits.
Arguments counted r m gs : clear implicits.
Arguments intact r m tr p B : clear implicits.
Arguments contents r m tr : clear implicits.
Arguments passed_by r res m pos : clear implicits.
Arguments phase_ok r res m gs tr ph : clear implicits.
Arguments held_ok r m gs tr h : clear implicits.
Arguments local_ok r res m gs tr t g : clear implicits.
Arguments gated r R m gs tr : clear implicits.
Arguments inv r res m gs tr : clear implicits.
