(* ===== verification/ShmSafety.v ===== *)
(** * Safety of the shared-memory ring

    Every operation of [ShmRing] keeps the invariant of [ShmInvariant] at each of its
    accesses, so that a system of clients keeps it in every interleaving.  What follows: a
    message is only ever delivered with the bytes it was published with, and a consumer that
    stays registered loses none of the messages that reliable publishers put into the ring. *)

From Stdlib Require Import Sorted.
From S2P Require Import Prelude Atomics Qos Egress ShmRing ShmInvariant.

Section Specs.
Context {r : broadcast_ring} {Hgeo : geometry_ok r} {res : option resident}.
Abbreviation inv := (ShmInvariant.inv r res).
Abbreviation sf := (safe inv below_limit).
Abbreviation N := (m_cell_count r).
Abbreviation E := h_enqueue_pos.
Abbreviation idx := (ShmInvariant.idx r).
Implicit Types (m : memory) (gs : list local) (tr : trace) (g : local).

(** ** Rules for single accesses *)

Abbreviation goes t m gs tr evs k := (exists g', inv m (<[t := g']> gs) (tr ++ map (pair t) evs) /\ k g').

Lemma sf_load t l {A} (k : Z -> ring_thread A) g Q :
  (forall m gs tr, inv m gs tr -> gs !! t = Some g ->
     exists v, read m l = Some v /\ goes t m gs tr [] (fun g' => sf t (k v) g' Q)) ->
  sf t (atomic_load l ≫= k) g Q.
Proof. intros H. exact H. Qed.

Lemma sf_store t l v {A} (k : unit -> ring_thread A) g Q :
  (forall m gs tr, inv m gs tr -> gs !! t = Some g ->
     exists m', write m l v = Some m' /\ (below_limit m' -> goes t m' gs tr [] (fun g' => sf t (k tt) g' Q))) ->
  sf t (atomic_store l v ≫= k) g Q.
Proof. intros H. exact H. Qed.

Lemma sf_cas t weak l e d {A} (k : option Z -> ring_thread A) g Q :
  (forall m gs tr, inv m gs tr -> gs !! t = Some g -> exists v, read m l = Some v /\
     (v = e -> exists m', write m l d = Some m' /\ (below_limit m' -> goes t m' gs tr [] (fun g' => sf t (k None) g' Q))) /\
     (v <> e \/ weak = true -> goes t m gs tr [] (fun g' => sf t (k (Some v)) g' Q))) ->
  sf t (Cas weak l e d Ret ≫= k) g Q.
Proof. intros H. exact H. Qed.

Lemma sf_rmw t l f {A} (k : Z -> ring_thread A) g Q :
  (forall m gs tr, inv m gs tr -> gs !! t = Some g -> exists v m', read m l = Some v /\ write m l (f v) = Some m' /\
     (below_limit m' -> goes t m' gs tr [] (fun g' => sf t (k v) g' Q))) ->
  sf t (Rmw l f Ret ≫= k) g Q.
Proof. intros H. exact H. Qed.

Lemma sf_event t e {A} (k : unit -> ring_thread A) g Q :
  (forall m gs tr, inv m gs tr -> gs !! t = Some g -> goes t m gs tr [e] (fun g' => sf t (k tt) g' Q)) ->
  sf t (event e ≫= k) g Q.
Proof. intros H. exact H. Qed.

Lemma sf_ret t {A} (a : A) g (Q : A -> local -> Prop) : Q a g -> sf t (Ret a) g Q.
Proof. done. Qed.

Lemma stay t m gs tr g : inv m gs tr -> gs !! t = Some g -> inv m (<[t := g]> gs) (tr ++ map (pair t) []).
Proof. intros Hi Hg. cbn. by rewrite app_nil_r, list_insert_id. Qed.

(** A load whose value tells nothing that lasts. *)
Lemma sf_load_pure t l {A} (k : Z -> ring_thread A) g Q (P : Z -> Prop) :
  (forall m gs tr, inv m gs tr -> gs !! t = Some g -> exists v, read m l = Some v /\ P v) ->
  (forall v, P v -> sf t (k v) g Q) -> sf t (atomic_load l ≫= k) g Q.
Proof.
  intros Hr Hk. apply sf_load. intros m gs tr Hi Hg. destruct (Hr m gs tr Hi Hg) as (v & Hv & HP). exists v. split; [done|].
  exists g. split; [by apply stay|auto].
Qed.

Lemma at_cell m gs tr p : inv m gs tr -> at_ (m_cells m) (cell_at r p) = Some (cell m (idx p)).
Proof. intros Hi. rewrite cell_at_idx. apply (cell_in (r := r)); [apply Hi|apply idx_range]. Qed.

Lemma write_cell m gs tr p f :
  inv m gs tr -> exists m', update_cell m (cell_at r p) f = Some m' /\ cell_written (r := r) m m' (idx p) f.
Proof. intros Hi. rewrite cell_at_idx. apply update_cell_run; [apply Hi|apply idx_range]. Qed.

Lemma at_cursor m gs tr i : inv m gs tr -> 0 <= i < m_consumer_capacity r -> at_ (h_cursors m) i = Some (cursor m i).
Proof. intros Hi Hr. pose proof (go_consumers r Hgeo). apply (cursor_in (r := r)); [apply Hi|lia]. Qed.

Lemma wrap64_pos p : 0 <= p <= k_position_limit -> wrap 64 (p + 1) = p + 1.
Proof. intros H. apply wrap_small. unfold in_width, k_position_limit in *. lia. Qed.

Lemma with_phase_twice g ph ph' : with_phase (with_phase g ph) ph' = with_phase g ph'.
Proof. done. Qed.

(** ** The scans of the cursors *)

Lemma sf_slowest_loop t n : forall i slowest g, 0 <= i -> i + Z.of_nat n <= m_consumer_capacity r ->
  sf t (slowest_loop n i slowest) g (fun _ g' => g' = g).
Proof.
  induction n as [|n IH]; intros i slowest g Hi Hn; [done|]. cbn [slowest_loop].
  apply sf_load_pure with (fun _ => True).
  { intros m gs tr Hinv Hg. eexists. split; [|done]. cbn. by rewrite (at_cursor m gs tr i Hinv) by lia. }
  intros a _. destruct (a =? 0); [apply IH; lia|]. apply sf_load_pure with (fun _ => True).
  { intros m gs tr Hinv Hg. eexists. split; [|done]. cbn. by rewrite (at_cursor m gs tr i Hinv) by lia. }
  intros c _. apply IH; lia.
Qed.

Lemma sf_slowest t g : sf t slowest_consumer_position g (fun _ g' => g' = g).
Proof.
  apply sf_load_pure with (fun v => 0 <= v <= m_consumer_capacity r).
  - intros m gs tr Hinv Hg. eexists. split; [done|]. apply Hinv.
  - intros scan Hs. apply sf_slowest_loop; lia.
Qed.

(** The resident's cursor, read while scanning. *)
Lemma gate_facts m gs tr R : inv m gs tr -> res = Some R ->
  0 <= gate_position m R < k_position_limit /\ cu_active (cursor m (r_index R)) = 1 /\ 0 <= r_index R < h_high_water m.
Proof.
  intros Hi HR. destruct (i_gate _ _ _ Hi R HR) as [(g0 & H0 & H1 & H2 & H3 & _) H6 H7 H8].
  destruct (lo_index _ _ _ _ _ (i_locals _ _ _ Hi _ g0 H0) _ H1). pose proof (co_pos _ _ (i_core _ _ _ Hi)).
  split_and!; try done; try lia. destruct (l_moved g0); lia.
Qed.

(** The result of an operation that leaves the thread with nothing in hand. *)
Definition calmly (g g' : local) : Prop := exists ph, calm ph /\ g' = with_phase g ph.

Lemma calmly_refl g : calm (l_phase g) -> calmly g g.
Proof. intros H. exists (l_phase g). by destruct g. Qed.
Lemma calmly_trans g g1 g2 : calmly g g1 -> calmly g1 g2 -> calmly g g2.
Proof. intros (p1 & H1 & ->) (p2 & H2 & ->). by exists p2. Qed.
Lemma calmly_step g ph g' : calm ph -> calmly (with_phase g ph) g' -> calmly g g'.
Proof. intros H (p2 & H2 & ->). by exists p2. Qed.
Lemma calmly_calm g g' : calmly g g' -> calm (l_phase g').
Proof. by intros (ph & H & ->). Qed.
Lemma calmly_phase g ph : calm ph -> calmly g (with_phase g ph).
Proof. intros H. by exists ph. Qed.

Lemma sf_passed_loop t R pos scan n : res = Some R -> forall i g,
  0 <= i -> i + Z.of_nat n = scan -> l_phase g = Scanning pos i scan ->
  sf t (passed_loop n i (pos - N)) g (fun b g' => calmly g g' /\ ((b : bool) = true -> l_phase g' = Scanning pos scan scan)).
Proof.
  intros HR. induction n as [|n IH]; intros i g Hi0 Hn Hph; cbn [passed_loop].
  - apply sf_ret. split; [apply calmly_refl; by rewrite Hph|]. intros _. rewrite Hph. f_equal; lia.
  - apply sf_load. intros m gs tr Hinv Hg. pose proof (gate_facts m gs tr R Hinv HR) as (G1 & G2 & G3).
    pose proof (lo_phase _ _ _ _ _ (i_locals _ _ _ Hinv t g Hg)) as Hp. rewrite Hph in Hp. destruct Hp as (P1 & P2 & P3 & P4).
    exists (cu_active (cursor m i)). split; [cbn; by rewrite (at_cursor m gs tr i Hinv) by lia|].
    destruct (Z.eqb_spec (cu_active (cursor m i)) 0) as [Ha|Ha].
    + exists (with_phase g (Scanning pos (i + 1) scan)). split.
      * apply inv_calm; try done; [by rewrite Hph|]. cbn. split_and!; try lia. intros R' HR'. destruct (P4 R' HR') as [Q1 Q2].
        split; [done|]. intros Hlt. apply Q2. assert (R' = R) as -> by congruence. assert (r_index R <> i) by congruence. lia.
      * eapply safe_mono; [apply IH; [lia|lia|done]|]. intros b g' [H1 H2]. split; [|done]. by eapply calmly_step; [|exact H1].
    + exists g. split; [by apply stay|]. clear -Hgeo HR IH Hi0 Hn Hph. apply sf_load. intros m gs tr Hinv Hg.
      pose proof (gate_facts m gs tr R Hinv HR) as (G1 & G2 & G3).
      pose proof (lo_phase _ _ _ _ _ (i_locals _ _ _ Hinv t g Hg)) as Hp. rewrite Hph in Hp. destruct Hp as (P1 & P2 & P3 & P4).
      exists (cu_position (cursor m i)). split; [cbn; by rewrite (at_cursor m gs tr i Hinv) by lia|].
      destruct (negb (cu_position (cursor m i) =? k_cursor_idle) && (cu_position (cursor m i) <=? pos - N)) eqn:Et.
      * exists g. split; [by apply stay|]. apply sf_ret. split; [apply calmly_refl; by rewrite Hph|done].
      * exists (with_phase g (Scanning pos (i + 1) scan)). split.
        -- apply inv_calm; try done; [by rewrite Hph|]. cbn. split_and!; try lia. intros R' HR'. destruct (P4 R' HR') as [Q1 Q2].
           split; [done|]. intros Hlt. assert (R' = R) as -> by congruence.
           destruct (decide (r_index R = i)) as [Ei|Ei]; [|apply Q2; lia].
           intros R' HR''. assert (R' = R) as -> by congruence. unfold gate_position in *. rewrite Ei in *.
           unfold k_cursor_idle, k_position_limit in *.
           destruct (Z.eqb_spec (cu_position (cursor m i)) (2 ^ 64 - 1)); [lia|]. cbn [negb andb] in Et. apply Z.leb_gt in Et. done.
        -- eapply safe_mono; [apply IH; [lia|lia|done]|]. intros b g' [H1 H2]. split; [|done]. by eapply calmly_step; [|exact H1].
Qed.

(** The gate of a reliable claim. *)
Lemma sf_consumers_passed t R pos g : res = Some R -> l_phase g = SawPos pos ->
  sf t (consumers_passed r pos) g (fun b g' => calmly g g' /\
    ((b : bool) = true -> forall m gs tr, inv m gs tr -> gs !! t = Some g' -> phase_ok r res m gs tr (Gated pos))).
Proof.
  intros HR Hph. unfold consumers_passed. pose proof (depth_ge_2 (r := r)) as HN. destruct (Z.ltb_spec pos N) as [Hlt|Hge].
  - apply sf_ret. split; [apply calmly_refl; by rewrite Hph|]. intros _ m gs tr Hinv Hg.
    pose proof (lo_phase _ _ _ _ _ (i_locals _ _ _ Hinv t g Hg)) as Hp. rewrite Hph in Hp. cbn in Hp |- *. split_and!; try lia.
    + intros _ t2 g2 H2 Ho. pose proof (co_own _ _ (i_core _ _ _ Hinv) t2 g2 _ H2 Ho). lia.
    + intros R' HR'. destruct (gate_facts m gs tr R' Hinv HR'). lia.
  - apply sf_load. intros m gs tr Hinv Hg. pose proof (lo_phase _ _ _ _ _ (i_locals _ _ _ Hinv t g Hg)) as Hp. rewrite Hph in Hp. cbn in Hp.
    pose proof (sh_high _ (i_shape _ _ _ Hinv)) as Hh. exists (h_high_water m). split; [done|].
    exists (with_phase g (Scanning pos 0 (h_high_water m))). split.
    + apply inv_calm; try done; [by rewrite Hph|]. cbn. split_and!; try lia. intros R' HR'. destruct (gate_facts m gs tr R' Hinv HR'). lia.
    + eapply safe_mono; [apply (sf_passed_loop t R pos (h_high_water m)); [done|lia|lia|done]|].
      intros b g' [H1 H2]. split; [by eapply calmly_step; [|exact H1]|]. intros Hb. specialize (H2 Hb).
      revert H2. generalize (h_high_water m). clear -Hgeo HR HN Hge. intros scan H2 m gs tr Hinv Hg.
      pose proof (lo_phase _ _ _ _ _ (i_locals _ _ _ Hinv t g' Hg)) as Hp. rewrite H2 in Hp. destruct Hp as (P1 & P2 & P3 & P4).
      destruct (P4 R HR) as [Q1 Q2]. specialize (Q2 Q1). cbn. split_and!; [lia..| |done]. intros Hpos.
      destruct (i_gate _ _ _ Hinv R HR) as [(g0 & G0 & G1 & G2 & G3 & G4 & G5) G6 G7 G8]. specialize (Q2 R HR). apply G4.
      destruct (l_moved g0); lia.
Qed.


(** ** Claiming *)

Lemma owner_or_none gs p : unowned gs p \/ exists t g, gs !! t = Some g /\ owned (l_phase g) = Some p.
Proof.
  destruct (decide (Exists (fun g => owned (l_phase g) = Some p) gs)) as [He|Hn].
  - right. apply Exists_exists in He as (g & Hin & Ho). apply list_elem_of_lookup in Hin as [t Ht]. eauto.
  - left. intros t g Hg Ho. apply Hn, Exists_exists. exists g. split; [by eapply list_elem_of_lookup_2|done].
Qed.

(** The last position of a cell. *)
Lemma last_position m i : 0 <= i < N -> i < E m -> exists p, idx p = i /\ 0 <= p /\ E m - N <= p < E m.
Proof.
  intros Hi Hf. pose proof (depth_ge_2 (r := r)) as HN.
  exists (E m - 1 - (E m - 1 - i) mod N). pose proof (Z.mod_pos_bound (E m - 1 - i) N ltac:(lia)) as Hm.
  pose proof (Z.mod_le (E m - 1 - i) N ltac:(lia) ltac:(lia)). split; [|lia].
  unfold ShmInvariant.idx. pose proof (Z.div_mod (E m - 1 - i) N ltac:(lia)) as Hd.
  replace (E m - 1 - (E m - 1 - i) mod N) with (i + (E m - 1 - i) / N * N) by lia. rewrite Z.mod_add by lia. by apply Z.mod_small.
Qed.

(** The sequence of a cell is small enough for the signed difference. *)
Lemma sq_range m gs tr i : inv m gs tr -> 0 <= i < N -> 0 <= c_sequence (cell m i) <= E m + N.
Proof.
  intros Hi Hr. pose proof (depth_ge_2 (r := r)) as HN. destruct (i_core _ _ _ Hi) as [H1 H2 H3 H4 H5 H6].
  destruct (decide (E m <= i)) as [Hf|Hf]; [rewrite H4 by lia; lia|].
  destruct (last_position m i Hr ltac:(lia)) as (p & <- & Hp0 & Hp).
  destruct (owner_or_none gs p) as [Hu|(t & g & Hg & Ho)].
  - rewrite (H6 p Hp0 Hp Hu). lia.
  - rewrite (H5 t g p Hg Ho). unfold marker. destruct (is_won _); [|lia]. destruct (Z.ltb_spec p N); lia.
Qed.

Lemma dif64_exact a b : 0 <= a < 2 ^ 63 -> 0 <= b < 2 ^ 63 -> dif64 a b = a - b.
Proof. intros Ha Hb. unfold dif64, int64_of. destruct (Z.ltb_spec a (2 ^ 63)), (Z.ltb_spec b (2 ^ 63)); lia. Qed.

(** Where the thread may go for [pos]. *)
Definition gate_open (t : nat) (pos : Z) (g : local) : Prop :=
  forall m gs tr, inv m gs tr -> gs !! t = Some g -> phase_ok r res m gs tr (Gated pos).

Lemma sf_occupant_committed t pos g : res = None -> l_phase g = SawPos pos ->
  sf t (occupant_committed r pos) g (fun b g' => calmly g g' /\ ((b : bool) = true -> gate_open t pos g')).
Proof.
  intros HR Hph. pose proof (depth_ge_2 (r := r)) as HN. pose proof (depth_le (r := r)) as HN'. apply sf_load. intros m gs tr Hinv Hg.
  pose proof (lo_phase _ _ _ _ _ (i_locals _ _ _ Hinv t g Hg)) as Hp. rewrite Hph in Hp. cbn in Hp.
  pose proof (sq_range m gs tr (idx pos) Hinv (idx_range pos)) as Hs. destruct (i_core _ _ _ Hinv) as [H1 H2 _ _ H5 _].
  eexists. split; [cbn; by rewrite (at_cell m gs tr pos Hinv)|]. cbn [fmap option_fmap option_map].
  rewrite dif64_exact by (unfold k_position_limit in *; lia).
  destruct (((c_sequence (cell m (idx pos)) - pos =? 0) || (c_sequence (cell m (idx pos)) - pos =? 1 - N))) eqn:Eb.
  - exists (with_phase g (Gated pos)). split.
    + apply inv_calm; try done; [by rewrite Hph|]. cbn. split_and!; [lia..| |by rewrite HR]. intros He t2 g2 Ht2 Ho.
      pose proof (H2 t2 g2 _ Ht2 Ho) as Hp2. pose proof (H5 t2 g2 _ Ht2 Ho) as Hsq. rewrite idx_back in Hsq.
      apply orb_prop in Eb as [Eb|Eb]; apply Z.eqb_eq in Eb; unfold marker in Hsq; destruct (is_won _); try lia;
        destruct (Z.ltb_spec (pos - N) N); lia.
    + apply sf_ret. split; [by apply calmly_phase|]. intros _ m2 gs2 tr2 Hi2 Hg2. by apply (lo_phase _ _ _ _ _ (i_locals _ _ _ Hi2 t _ Hg2)).
  - exists g. split; [by apply stay|]. apply sf_ret. split; [apply calmly_refl; by rewrite Hph|done].
Qed.

(** The exchange on [enqueue_pos]. *)
Lemma sf_win t pos {A} (k : option Z -> ring_thread A) g Q :
  calm (l_phase g) -> gate_open t pos g ->
  (0 <= pos -> sf t (k None) (with_phase g (Won pos)) Q) -> (forall v, sf t (k (Some v)) (with_phase g (SawPos v)) Q) ->
  sf t (compare_exchange_weak EnqueuePos pos (wrap 64 (pos + 1)) ≫= k) g Q.
Proof.
  intros Hc Hgate Hw Hl. apply sf_cas. intros m gs tr Hinv Hg. pose proof (Hgate m gs tr Hinv Hg) as HG.
  pose proof (co_pos _ _ (i_core _ _ _ Hinv)) as Hpos. exists (E m). split; [done|]. split.
  - intros He. rewrite wrap64_pos by lia. eexists. split; [done|]. intros Hlive. exists (with_phase g (Won pos)). split; [|apply Hw; lia].
    by apply inv_win.
  - intros _. exists (with_phase g (SawPos (E m))). split; [|apply Hl]. apply inv_calm; try done. cbn. lia.
Qed.

Lemma sf_announce t pos g : l_phase g = Won pos \/ l_phase g = Announced pos ->
  sf t (announce_and_check_pin r pos) g (fun b g' => g' = with_phase g (if (b : bool) then Filling pos [] else Announced pos)).
Proof.
  intros Hph. apply sf_store. intros m gs tr Hinv Hg. destruct (write_cell m gs tr pos (set_sequence pos) Hinv) as (m' & Hw & Hcw).
  exists m'. split; [exact Hw|]. intros _. exists (with_phase g (Announced pos)). split; [by apply (inv_announce t m)|].
  clear -Hgeo. apply sf_load. intros m gs tr Hinv Hg. eexists. split; [cbn; by rewrite (at_cell m gs tr pos Hinv)|].
  cbn [fmap option_fmap option_map]. destruct (Z.eqb_spec (c_take_refcount (cell m (idx pos))) 0) as [Hz|Hz].
  - exists (with_phase g (Filling pos [])). split; [|done]. by apply (inv_clear t m gs tr (with_phase g (Announced pos))).
  - eexists. split; [by apply stay|done].
Qed.

Lemma owner_limit t m gs tr g p : inv m gs tr -> gs !! t = Some g -> owned (l_phase g) = Some p -> 0 <= p < k_position_limit.
Proof.
  intros Hi Hg Ho. pose proof (co_own _ _ (i_core _ _ _ Hi) t g p Hg Ho). pose proof (co_pos _ _ (i_core _ _ _ Hi)). lia.
Qed.

(** The write of the sequence that gives the position up. *)
Lemma sf_resolve t p g {A} (k : unit -> ring_thread A) Q :
  (exists B, l_phase g = Described p B) \/ l_phase g = Tombed p -> sf t (k tt) (with_phase g Quiet) Q ->
  sf t (atomic_store (Sequence (cell_at r p)) (wrap 64 (p + 1)) ≫= k) g Q.
Proof.
  intros Hph Hk. apply sf_store. intros m gs tr Hinv Hg.
  assert (0 <= p < k_position_limit) as Hp by (eapply owner_limit; [done..|]; destruct Hph as [ [B ->]| ->]; done).
  destruct (write_cell m gs tr p (set_sequence (p + 1)) Hinv) as (m' & Hw & Hcw).
  exists m'. rewrite wrap64_pos by lia. split; [exact Hw|]. intros _. exists (with_phase g Quiet). split; [|exact Hk]. by apply (inv_resolve t m gs tr g p).
Qed.

Lemma sf_stamp_skip t pos g : l_phase g = Announced pos -> sf t (stamp_skip r pos) g (fun _ g' => g' = with_phase g Quiet).
Proof.
  intros Hph. apply sf_store. intros m gs tr Hinv Hg. destruct (write_cell m gs tr pos (set_len k_skip_len) Hinv) as (m' & Hw & Hcw).
  exists m'. split; [exact Hw|]. intros _. exists (with_phase g (Tombed pos)). split; [by apply (inv_tomb t m gs tr g)|].
  refine (sf_resolve t pos _ Ret _ _ _); [by right|done].
Qed.

(** What a claim of [size] bytes leaves: a slot to fill, or nothing. *)
Definition claim_post (size : Z) (g : local) (st : loan_status * Z) (g' : local) : Prop :=
  (st.1 = st_ok /\ size <= m_slot_capacity r /\ g' = with_phase g (Filling st.2 [])) \/ (st.1 <> st_ok /\ calmly g g').

Lemma claim_post_step size g ph st g' : claim_post size (with_phase g ph) st g' -> calm ph -> claim_post size g st g'.
Proof. intros [(H1 & H2 & ->)|[H1 H2] ] Hc; [by left|right]. split; [done|]. by eapply calmly_step. Qed.

Lemma claim_post_calmly size g g1 st g' : claim_post size g1 st g' -> calmly g g1 -> claim_post size g st g'.
Proof. intros H (ph & Hc & ->). by eapply claim_post_step. Qed.

Lemma sf_clear_pin_loop t size pos fuel : size <= m_slot_capacity r -> forall last_seen stalled g,
  l_phase g = Won pos \/ l_phase g = Announced pos ->
  sf t (clear_pin_loop r fuel pos last_seen stalled) g (claim_post size g).
Proof.
  intros Hsize. induction fuel as [|fuel IH]; intros last_seen stalled g Hph; [done|]. cbn [clear_pin_loop].
  apply safe_then. eapply safe_mono; [by apply sf_announce|]. intros [|] g' ->; [left; done|].
  apply safe_then. eapply safe_mono; [apply sf_slowest|]. intros now g' ->.
  assert (forall st g', claim_post size (with_phase g (Announced pos)) st g' -> claim_post size g st g') as Hpost.
  { intros st g' [(H1 & H2 & ->)|[H1 (ph & Hc & ->)] ]; [by left|right]. split; [done|]. by exists ph. }
  destruct (negb (now =? last_seen)); [eapply safe_mono; [by apply IH; right|exact Hpost]|].
  destruct (stalled >=? k_pin_clear_spin_budget); [|eapply safe_mono; [by apply IH; right|exact Hpost] ].
  apply safe_then. eapply safe_mono; [by apply (sf_stamp_skip t pos)|]. intros [] g' ->. right. split; [done|]. by exists Quiet.
Qed.

Lemma sf_clear_pin_or_skip t size pos fuel g : size <= m_slot_capacity r -> l_phase g = Won pos ->
  sf t (clear_pin_or_skip r fuel pos) g (claim_post size g).
Proof.
  intros Hsize Hph. apply safe_then. eapply safe_mono; [apply sf_slowest|]. intros last g' ->.
  apply sf_clear_pin_loop; auto.
Qed.

(** From a won position back to the thread that claims. *)
Lemma claim_post_won size g g1 ph st g' :
  calmly g g1 -> claim_post size (with_phase g1 ph) st g' -> claim_post size g st g'.
Proof.
  intros (p1 & Hc & ->) [(H1 & H2 & ->)|[H1 (p2 & H2 & ->)] ]; [by left|right]. split; [done|]. by exists p2.
Qed.

Lemma sf_claim_reliable t R size fuel : res = Some R -> size <= m_slot_capacity r -> forall pos g, l_phase g = SawPos pos ->
  sf t (claim_reliable r fuel pos) g (claim_post size g).
Proof.
  intros HR Hsize. induction fuel as [|fuel IH]; intros pos g Hph; [done|]. cbn [claim_reliable].
  apply safe_then. eapply safe_mono; [by apply (sf_consumers_passed t R pos)|]. intros [|] g1 [Hc Ho]; cbn [negb].
  2: { right. by split. }
  apply sf_win; [by eapply calmly_calm|exact (Ho eq_refl)|intros _|intros v].
  - eapply safe_mono; [by apply sf_clear_pin_or_skip|]. intros st g' H. by eapply claim_post_won.
  - eapply safe_mono; [by apply IH|]. intros st g' H. by eapply claim_post_won.
Qed.

Lemma sf_saw_pos t {A} (k : Z -> ring_thread A) g Q :
  calm (l_phase g) -> (forall pos, sf t (k pos) (with_phase g (SawPos pos)) Q) -> sf t (atomic_load EnqueuePos ≫= k) g Q.
Proof.
  intros Hc Hk. apply sf_load. intros m gs tr Hinv Hg. exists (E m). split; [done|]. exists (with_phase g (SawPos (E m))). split; [|apply Hk].
  apply inv_calm; try done. cbn. pose proof (co_pos _ _ (i_core _ _ _ Hinv)). lia.
Qed.

Lemma sf_claim_best_effort t size fuel : res = None -> size <= m_slot_capacity r -> forall pos skipped g, l_phase g = SawPos pos ->
  sf t (claim_best_effort r fuel pos skipped) g (claim_post size g).
Proof.
  intros HR Hsize. induction fuel as [|fuel IH]; intros pos skipped g Hph; [done|]. cbn [claim_best_effort].
  apply safe_then. eapply safe_mono; [by apply sf_occupant_committed|]. intros [|] g1 [Hc Ho]; cbn [negb].
  2: { apply sf_saw_pos; [by eapply calmly_calm|]. intros p2. eapply safe_mono; [by apply IH|]. intros st g' H. by eapply claim_post_won. }
  apply sf_win; [by eapply calmly_calm|exact (Ho eq_refl)|intros _|intros v].
  2: { eapply safe_mono; [by apply IH|]. intros st g' H. by eapply claim_post_won. }
  apply safe_then. eapply safe_mono; [by apply sf_announce; left|]. intros [|] g' ->; cbn [with_phase].
  { left. split_and!; try done. destruct Hc as (ph & _ & ->). done. }
  apply safe_then. eapply safe_mono; [by apply (sf_stamp_skip t pos)|]. intros [] g' ->. cbn zeta.
  destruct (wrap 64 (skipped + 1) >=? N).
  { right. split; [done|]. destruct Hc as (ph & _ & ->). by exists Quiet. }
  apply sf_saw_pos; [done|]. intros p2. eapply safe_mono; [by apply IH|]. intros st g' H. by eapply (claim_post_won _ _ g1).
Qed.

(** The policy the clients publish with. *)
Definition policy : reliability := match res with Some _ => reliable | None => best_effort end.

Lemma policy_cases : (exists R, res = Some R /\ policy = reliable) \/ (res = None /\ policy = best_effort).
Proof. unfold policy. destruct res; eauto. Qed.

Lemma sf_loan t fuel size g : calm (l_phase g) -> sf t (loan r fuel size policy) g (claim_post size g).
Proof.
  intros Hc. unfold loan, claim_with_policy. destruct (size >? m_slot_capacity r) eqn:Es.
  { right. split; [done|]. by apply calmly_refl. }
  assert (size <= m_slot_capacity r) as Hs by (rewrite Z.gtb_ltb in Es; by apply Z.ltb_ge in Es).
  apply sf_saw_pos; [done|]. intros pos. eapply safe_mono with (Q := claim_post size (with_phase g (SawPos pos))).
  2: { intros st g' H. by eapply claim_post_step. }
  destruct policy_cases as [(R & HR & ->)|[HR ->] ].
  - by eapply sf_claim_reliable.
  - by apply sf_claim_best_effort.
Qed.

Lemma sf_loan_loop t size fuel : forall st last_seen stalled g0 g, claim_post size g0 st g ->
  sf t (loan_loop r fuel size policy st last_seen stalled) g (claim_post size g0).
Proof.
  induction fuel as [|fuel IH]; intros st last_seen stalled g0 g Hst; cbn [loan_loop]; case_decide as Ed; try done.
  destruct Hst as [(H1 & _)|[_ Hc] ]; [destruct Ed; congruence|].
  apply safe_then. eapply safe_mono; [apply sf_loan; by eapply calmly_calm|]. intros st' g' H'.
  apply safe_then. eapply safe_mono; [apply sf_slowest|]. intros now g2 ->.
  assert (claim_post size g0 st' g') as H2 by (by eapply claim_post_calmly). destruct (negb _); by apply IH.
Qed.

Lemma sf_loan_blocking t fuel size cong g : calm (l_phase g) -> sf t (loan_blocking r fuel size policy cong) g (claim_post size g).
Proof.
  intros Hc. unfold loan_blocking. apply safe_then. eapply safe_mono; [by apply sf_loan|]. intros st g' H.
  assert (forall last, sf t (loan_loop r fuel size policy st last 0) g' (claim_post size g)) as Hl by (intros last; by apply sf_loan_loop).
  destruct policy_cases as [(R & HR & Hp)|[HR Hp] ]; rewrite Hp in *; [|done]. destruct cong; [|done..]. apply safe_then. eapply safe_mono; [apply sf_slowest|].
  intros last g2 ->. apply Hl.
Qed.

(** ** Publishing *)

Lemma zlen_nil {A} : zlen ([] : list A) = 0.
Proof. done. Qed.
Lemma zlen_cons {A} (x : A) l : zlen (x :: l) = 1 + zlen l.
Proof. unfold zlen. cbn [length]. lia. Qed.
Lemma zlen_snoc {A} (x : A) l : zlen (l ++ [x]) = zlen l + 1.
Proof. rewrite zlen_app. reflexivity. Qed.

Lemma sf_copy_in t pos payload : forall copied base g,
  l_phase g = Filling pos copied -> base = idx pos * m_stride r + zlen copied -> zlen copied + zlen payload <= m_slot_capacity r ->
  sf t (copy_in base payload) g (fun _ g' => g' = with_phase g (Filling pos (copied ++ payload))).
Proof.
  pose proof (go_stride r Hgeo) as Hst.
  induction payload as [|b payload IH]; intros copied base g Hph Hb Hl; cbn [copy_in].
  - apply sf_ret. rewrite app_nil_r, <- Hph. by destruct g.
  - rewrite zlen_cons in Hl. pose proof (zlen_nonneg payload). pose proof (zlen_nonneg copied). subst base.
    apply sf_store. intros m gs tr Hinv Hg.
    destruct (write_slab m (idx pos) (zlen copied) b (i_shape _ _ _ Hinv) (idx_range pos) ltac:(lia)) as (m' & Hw & Hsw).
    exists m'. split; [exact Hw|]. intros _. exists (with_phase g (Filling pos (copied ++ [b]))). split.
    + apply (inv_fill t m gs tr g pos copied b m'); try done; lia.
    + eapply safe_mono; [apply (IH (copied ++ [b])); [done|rewrite zlen_snoc; lia|rewrite zlen_snoc; lia]|].
      intros _ g' ->. by rewrite <- app_assoc.
Qed.

Lemma sf_commit t pos payload g : l_phase g = Ready pos payload -> zlen payload <= m_slot_capacity r ->
  sf t (commit r pos (zlen payload)) g (fun _ g' => g' = with_phase g Quiet).
Proof.
  intros Hph Hl. unfold commit. destruct (zlen payload >? m_slot_capacity r) eqn:Eg; [apply Z.gtb_lt in Eg; lia|].
  pose proof (go_len r Hgeo) as Hs. pose proof (zlen_nonneg payload). unfold k_skip_len in Hs.
  apply sf_store. intros m gs tr Hinv Hg. destruct (write_cell m gs tr pos (set_offset (slot_span r pos)) Hinv) as (m' & Hw & Hcw).
  exists m'. split; [exact Hw|]. intros _. exists g. split; [by eapply (inv_offset t m)|].
  clear dependent m. clear dependent gs. clear tr m'.
  apply sf_store. intros m gs tr Hinv Hg. rewrite (wrap_small 32) by (unfold in_width; lia).
  destruct (write_cell m gs tr pos (set_len (zlen payload)) Hinv) as (m' & Hw & Hcw).
  exists m'. split; [exact Hw|]. intros _. exists (with_phase g (Described pos payload)). split; [by apply (inv_describe t m gs tr g)|].
  apply sf_resolve; [left; by exists payload|done].
Qed.

Lemma sf_event_quiet t e {A} (k : unit -> ring_thread A) g Q :
  match e with Signalled | Sent _ => True | _ => False end -> sf t (k tt) g Q -> sf t (event e ≫= k) g Q.
Proof.
  intros He Hk. apply sf_event. intros m gs tr Hinv Hg. exists g. split; [|done]. pose proof (i_locals _ _ _ Hinv t g Hg) as [L1 L2 L3 _ _].
  apply (inv_keep t m gs tr m g g); try done; [apply Hinv|by destruct e|by destruct e; cbn; rewrite ?decide_True| |].
  - intros p b Hin. apply list_elem_of_singleton in Hin. by subst e.
  - rewrite list_insert_id by done. apply Hinv.
Qed.

Lemma sf_channel_send t fuel cong payload g : calm (l_phase g) ->
  sf t (channel_send r fuel policy cong payload) g (fun _ g' => calmly g g').
Proof.
  intros Hc. unfold channel_send. apply safe_then. eapply safe_mono; [by apply sf_loan_blocking|].
  intros [st pos] g' [(H1 & H2 & ->)|[H1 H2] ]; cbn [fst snd] in *; [|by rewrite decide_True by done].
  subst st. rewrite decide_False by (intros H; by apply H).
  apply safe_then. eapply safe_mono; [apply (sf_copy_in t pos payload []); [done|by rewrite slot_span_idx, zlen_nil, Z.add_0_r|by rewrite zlen_nil, Z.add_0_l]|].
  intros [] g' ->. cbn [app]. apply sf_event. intros m gs tr Hinv Hg.
  exists (with_phase g (Ready pos payload)). split; [by apply (inv_ready t m gs tr (with_phase g (Filling pos payload)))|].
  apply safe_then. eapply safe_mono; [by apply (sf_commit t pos payload)|]. intros st g' ->.
  assert (calmly g (with_phase (with_phase g (Ready pos payload)) Quiet)) by (by exists Quiet).
  case_decide; [done|]. by apply sf_event_quiet.
Qed.

(** ** Consuming *)

(** The cell of a position of the last lap. *)
Lemma seq_in_lap m gs tr p : inv m gs tr -> 0 <= p -> E m - N <= p < E m ->
  c_sequence (cell m (idx p)) <= p + 1 /\ (c_sequence (cell m (idx p)) = p + 1 <-> unowned gs p).
Proof.
  intros Hi H0 Hp. pose proof (depth_ge_2 (r := r)) as HN. destruct (i_core _ _ _ Hi) as [_ _ _ _ H5 H6].
  destruct (owner_or_none gs p) as [Hu|(t & g & Hg & Ho)]; [rewrite H6 by done; split; [lia|done]|].
  rewrite (H5 t g p Hg Ho). assert (marker r (l_phase g) p <= p) as Hm.
  { unfold marker. destruct (is_won _); [|lia]. destruct (Z.ltb_spec p N); lia. }
  split; [lia|]. split; [lia|]. intros Hu. by destruct (Hu t g Hg).
Qed.

Lemma seq_at_tail m gs tr : inv m gs tr -> c_sequence (cell m (idx (E m))) <= E m.
Proof.
  intros Hi. pose proof (depth_ge_2 (r := r)) as HN. destruct (i_core _ _ _ Hi) as [H1 _ _ H4 _ _].
  destruct (decide (E m < N)) as [Hl|Hl]; [rewrite idx_small by lia; rewrite H4; lia|].
  rewrite <- idx_back. destruct (seq_in_lap m gs tr (E m - N) Hi) as [Hs _]; lia.
Qed.

Lemma filled_unowned m gs tr c : inv m gs tr -> 0 <= c < E m -> c_sequence (cell m (idx c)) = c + 1 -> unowned gs c.
Proof.
  intros Hi Hc Hs. destruct (decide (E m - N <= c)) as [Hl|Hl]; [by apply (seq_in_lap m gs tr c Hi); [lia..|]|].
  intros t g Hg Ho. pose proof (co_own _ _ (i_core _ _ _ Hi) t g c Hg Ho). lia.
Qed.

Abbreviation stays t := (exists R, res = Some R /\ r_thread R = t).

(** The resident is never lapped. *)
Lemma resident_lap t m gs tr g : inv m gs tr -> gs !! t = Some g -> stays t -> l_moved g = false -> E m <= l_cursor g + N.
Proof.
  intros Hi Hg (R & HR & Et) Hm. destruct (i_gate _ _ _ Hi R HR) as [(g0 & H0 & H1 & H2 & _) H6 H7 H8].
  rewrite Et in H0. assert (g0 = g) as -> by congruence. rewrite Hm in H2. lia.
Qed.

(** What the resident skips was not published. *)
Lemma resident_skips t m gs tr g c :
  inv m gs tr -> gs !! t = Some g -> l_cursor g = c -> c < E m -> l_moved g = false -> unowned gs c ->
  (stays t -> c ∉ published tr) -> inv m (<[t := with_cursor g (c + 1)]> gs) (tr ++ map (pair t) []).
Proof.
  intros Hi Hg Hc Hlt Hm Hu Hp. subst c. apply inv_move; try done; [lia|by left|].
  intros R HR Et. split_and!; try done.
  - intros p Hpr. destruct (i_gate _ _ _ Hi R HR) as [(g0 & H0 & _ & _ & _ & H4 & _) _ _ _]. rewrite Et in H0. assert (g0 = g) as -> by congruence.
    destruct (decide (p = l_cursor g)) as [->|]; [done|]. apply H4. lia.
  - cbn. rewrite app_nil_r. intros p Hin Hpr. destruct (i_gate _ _ _ Hi R HR) as [(g0 & H0 & _ & _ & _ & _ & H5) _ _ _].
    rewrite Et in H0, H5. assert (g0 = g) as -> by congruence. apply H5; [done|]. assert (p <> l_cursor g); [|lia].
    intros ->. apply Hp; [by exists R|done].
Qed.

(** A consumer that is overtaken is not the resident and may move on. *)
Lemma overtaken_moves t m gs tr g c :
  inv m gs tr -> gs !! t = Some g -> ~ stays t -> l_cursor g <= c <= E m ->
  inv m (<[t := with_cursor g c]> gs) (tr ++ map (pair t) []).
Proof. intros Hi Hg Hn Hc. apply inv_move; try done; [by left|]. intros R HR Et. destruct Hn. by exists R. Qed.

Definition moved_to (g g' : local) (c : Z) : Prop :=
  exists ph, calm ph /\ g' = with_cursor (with_phase g ph) c /\ 0 <= c < 2 ^ 64.

Definition clamp_len (len : Z) : Z := if len >? m_slot_capacity r then m_slot_capacity r else len.

Definition consume_post (c : Z) (g : local) (x : loan_status * Z * Z) (g' : local) : Prop :=
  match x with
  | (st_empty, _, _) => calmly g g'
  | (st_congested, _, _) => moved_to g g' (wrap 64 (c + 1))
  | (st_lagged, tail, _) => moved_to g g' tail
  | (st_ok, _, len) => (exists raw, g' = with_phase g (SawLen c raw) /\ len = clamp_len raw) /\ 0 <= c < k_position_limit
  | _ => False
  end.

Lemma moved_next g ph c : calm ph -> 0 <= c < k_position_limit -> moved_to g (with_cursor (with_phase g ph) (c + 1)) (wrap 64 (c + 1)).
Proof. intros Hp Hc. rewrite wrap64_pos by lia. exists ph. unfold k_position_limit in *. split_and!; try done; lia. Qed.

Lemma with_phase_id g : with_phase g (l_phase g) = g.
Proof. by destruct g. Qed.

Lemma sf_consume_len t c g : l_phase g = Saw c -> l_cursor g = c -> l_moved g = false ->
  sf t (len ← atomic_load (PayloadLen (cell_at r c));
        if len =? k_skip_len then Ret (st_congested, 0, 0) else Ret (st_ok, c, clamp_len len)) g (consume_post c g).
Proof.
  intros Hph Hc Hm. apply sf_load. intros m gs tr Hinv Hg. pose proof (co_pos _ _ (i_core _ _ _ Hinv)) as Hpos.
  pose proof (lo_phase _ _ _ _ _ (i_locals _ _ _ Hinv t g Hg)) as Hp. rewrite Hph in Hp. destruct Hp as [P1 P2].
  eexists. split; [cbn; by rewrite (at_cell m gs tr c Hinv)|]. cbn [fmap option_fmap option_map].
  destruct (Z.eqb_spec (c_payload_len (cell m (idx c))) k_skip_len) as [Hskip|Hlen].
  - exists (with_cursor g (c + 1)). split.
    + apply resident_skips; try done; [lia|]. intros Hstay.
      pose proof (resident_lap t m gs tr g Hinv Hg Hstay Hm) as Hlap. destruct (seq_in_lap m gs tr c Hinv) as [_ Hs]; [lia..|].
      destruct (ct_cell _ _ (i_contents _ _ _ Hinv) c P1 (proj2 Hs P2)) as [(B & (_ & HB & _) & Hl)|[_ Hn] ]; [|done].
      pose proof (go_len r Hgeo). lia.
    + apply sf_ret. rewrite <- (with_phase_id g) at 2. apply moved_next; [by rewrite Hph|lia].
  - exists (with_phase g (SawLen c (c_payload_len (cell m (idx c))))). split; [|split; [by eexists|lia] ].
    apply inv_calm; try done. by rewrite Hph.
Qed.

Lemma sf_consume t c g : calm (l_phase g) -> l_cursor g = c -> l_moved g = false -> sf t (consume r c) g (consume_post c g).
Proof.
  intros Hcalm Hc Hm. pose proof (depth_ge_2 (r := r)) as HN. pose proof (depth_le (r := r)) as HN'.
  apply sf_load. intros m gs tr Hinv Hg. pose proof (co_pos _ _ (i_core _ _ _ Hinv)) as Hpos.
  pose proof (lo_cursor _ _ _ _ _ (i_locals _ _ _ Hinv t g Hg)) as Hcr. rewrite Hc in Hcr.
  pose proof (sq_range m gs tr (idx c) Hinv (idx_range c)) as Hs. pose proof (seq_at_tail m gs tr Hinv) as Htail.
  eexists. split; [cbn; by rewrite (at_cell m gs tr c Hinv)|]. cbn [fmap option_fmap option_map].
  rewrite wrap64_pos by lia. rewrite dif64_exact by (unfold k_position_limit in *; lia). cbn zeta.
  set (sq := c_sequence (cell m (idx c))) in *.
  destruct (Z.ltb_spec (sq - (c + 1)) 0) as [Hlt|Hge].
  { exists g. split; [by apply stay|]. by apply calmly_refl. }
  assert (c < E m) as HcE. { destruct (decide (c = E m)) as [Heq|]; [|lia]. subst sq. rewrite Heq in *. lia. }
  rewrite Z.gtb_ltb. destruct (Z.ltb_spec 0 (sq - (c + 1))) as [Hgt|Hle].
  - assert (~ stays t) as Hns.
    { intros Hst. pose proof (resident_lap t m gs tr g Hinv Hg Hst Hm). destruct (seq_in_lap m gs tr c Hinv) as [Hx _]; [lia..|]. fold sq in Hx. lia. }
    destruct (sq - (c + 1) >=? N).
    + exists g. split; [by apply stay|]. apply sf_load. intros m2 gs2 tr2 Hinv2 Hg2. exists (E m2). split; [done|].
      pose proof (lo_cursor _ _ _ _ _ (i_locals _ _ _ Hinv2 t g Hg2)) as Hcr2. pose proof (co_pos _ _ (i_core _ _ _ Hinv2)) as Hpos2.
      exists (with_cursor g (E m2)). split; [apply overtaken_moves; done || lia|]. apply sf_ret.
      exists (l_phase g). rewrite with_phase_id. unfold k_position_limit in *. split_and!; try done; lia.
    + exists (with_cursor g (c + 1)). split; [apply overtaken_moves; done || lia|]. apply sf_ret.
      rewrite <- (with_phase_id g) at 2. apply moved_next; [done|lia].
  - assert (sq = c + 1) as Hsq by lia. exists (with_phase g (Saw c)). split.
    + apply inv_calm; try done. cbn. split; [lia|]. apply (filled_unowned m gs tr); try done. lia.
    + eapply safe_mono; [by apply sf_consume_len|]. intros [ [ [] p] len] g'; cbn; try done.
Qed.

(** ** Pinning *)

Lemma none_held g (P : Z * bytes -> Prop) : l_held g = [] -> forall h, h ∈ l_held g -> P h.
Proof. intros -> h Hin. by apply elem_of_nil in Hin. Qed.

(** The announced pin, and the sequence read again. *)
Definition pin_post (c raw : Z) (g : local) (pinned : bool) (g' : local) : Prop :=
  if pinned then exists B, zlen B = raw /\ zlen B <= m_slot_capacity r /\ g' = Local Quiet c false (l_index g) [(c, B)]
  else moved_to g g' (wrap 64 (c + 1)).

Lemma sf_pin_if_current t c raw g : l_phase g = SawLen c raw -> l_cursor g = c -> l_moved g = false -> l_held g = [] -> 0 <= c < k_position_limit ->
  sf t (pin_if_current r c) g (pin_post c raw g).
Proof.
  intros Hph Hc Hm Hh Hcr. apply sf_rmw. intros m gs tr Hinv Hg.
  pose proof (lo_phase _ _ _ _ _ (i_locals _ _ _ Hinv t g Hg)) as Hp. rewrite Hph in Hp.
  destruct (write_cell m gs tr c (set_refcount (wrap 32 (c_take_refcount (cell m (idx c)) + 1))) Hinv) as (m' & Hw & Hcw).
  exists (c_take_refcount (cell m (idx c))), m'. split; [cbn; by rewrite (at_cell m gs tr c Hinv)|]. split; [exact Hw|]. intros _.
  exists (with_phase g (Pinned c raw)). split.
  { apply (inv_repin t m gs tr g _ (idx c) 1 m'); try done; [apply idx_range|by left|by rewrite Hph| |exact (none_held g _ Hh)|cbn; rewrite Hh; cbn; lia].
    intros j. unfold pins_on. cbn. rewrite Hph. repeat case_decide; congruence || lia. }
  clear -Hgeo Hc Hm Hh Hcr. apply sf_load. intros m gs tr Hinv Hg. pose proof (co_pos _ _ (i_core _ _ _ Hinv)) as Hpos.
  pose proof (lo_phase _ _ _ _ _ (i_locals _ _ _ Hinv t _ Hg)) as Hp. destruct Hp as [ [P1 P2] _].
  eexists. split; [cbn; by rewrite (at_cell m gs tr c Hinv)|]. cbn [fmap option_fmap option_map]. rewrite wrap64_pos by lia.
  destruct (Z.eqb_spec (c_sequence (cell m (idx c))) (c + 1)) as [Hs|Hs].
  - destruct (inv_validate t m gs tr (with_phase g (Pinned c raw)) c raw Hinv Hg) as (B & HB & _ & HB2 & Hi2); try done.
    eexists. split; [exact Hi2|]. apply sf_ret. exists B. cbn. by rewrite Hc, Hm.
  - assert (~ stays t) as Hns.
    { intros Hst. pose proof (resident_lap t m gs tr _ Hinv Hg Hst Hm) as Hl. cbn in Hl. rewrite Hc in Hl.
      destruct (seq_in_lap m gs tr c Hinv) as [_ Hx]; [lia..|]. by apply Hs, Hx. }
    exists (with_cursor (with_phase g (Pinned c raw)) (c + 1)). split; [apply overtaken_moves; try done; cbn; lia|].
    apply sf_rmw. clear m gs tr Hinv Hg Hpos P1 P2 Hs. intros m gs tr Hinv Hg.
    destruct (write_cell m gs tr c (set_refcount (wrap 32 (c_take_refcount (cell m (idx c)) + -1))) Hinv) as (m' & Hw & Hcw).
    exists (c_take_refcount (cell m (idx c))), m'. split; [cbn; by rewrite (at_cell m gs tr c Hinv)|]. split; [exact Hw|]. intros _.
    exists (with_cursor (with_phase g Quiet) (c + 1)). split; [|by apply sf_ret, moved_next].
    apply (inv_repin t m gs tr _ _ (idx c) (-1) m' Hinv Hg); try done; [apply idx_range|by right| |exact (none_held g _ Hh)|cbn; rewrite Hh; cbn; lia].
    intros j. unfold pins_on. cbn. repeat case_decide; congruence || lia.
Qed.

(** ** The subscriber *)

(** The cursor word is up to date again. *)
Definition settled (g : local) : local := Local (l_phase g) (l_cursor g) false (l_index g) (l_held g).

(** The subscriber [s] of a thread that holds the pins [held]. *)
Definition sub_ok (s : slot_subscriber) (held : list (Z * bytes)) (g : local) : Prop :=
  calm (l_phase g) /\ l_held g = held /\
  (s_registered s = true ->
     0 <= s_cursor_index s < m_consumer_capacity r /\ l_index g = Some (s_cursor_index s) /\ l_cursor g = s_cursor s /\ l_moved g = false).

(** The write that makes the cursor visible to publishers. *)
Lemma sf_publish_cursor t i c g : 0 <= i < m_consumer_capacity r -> l_index g = Some i -> l_cursor g = c ->
  sf t (publish_cursor r i c) g (fun _ g' => g' = settled g).
Proof.
  intros Hi Hx Hc. unfold publish_cursor.
  destruct (i >=? m_consumer_capacity r) eqn:Eg; [apply Z.geb_le in Eg; lia|]. pose proof (go_consumers r Hgeo) as Hcc.
  refine (sf_store t _ _ Ret _ _ _). intros m gs tr Hinv Hg.
  destruct (update_cursor_run m i (set_position c) (i_shape _ _ _ Hinv) ltac:(lia)) as (m' & Hw & Hcw).
  exists m'. split; [exact Hw|]. intros _. exists (settled g). split; [|done].
  apply (inv_cursor_write t m gs tr g (settled g) i (set_position c) m'); try done.
  - intros t2 g2 Hne H2 Hx2. apply Hne. by apply (i_indices _ _ _ Hinv t2 t g2 g i).
  - by left.
  - intros _. cbn. by apply (lo_index _ _ _ _ _ (i_locals _ _ _ Hinv t g Hg)).
  - intros R HR Ei. cbn. destruct (i_gate _ _ _ Hinv R HR) as [(g0 & H0 & H1 & H2 & _) _ _ _].
    assert (r_thread R = t) as Et by (apply (i_indices _ _ _ Hinv _ t g0 g i); congruence).
    rewrite Et in H0. assert (g0 = g) as -> by congruence. split_and!; try done. destruct (l_moved g); lia.
  - intros R HR Ei Et. destruct (i_gate _ _ _ Hinv R HR) as [(g0 & H0 & H1 & _) _ _ _]. rewrite Et in H0. assert (g0 = g) as -> by congruence.
    destruct Ei. congruence.
Qed.

(** The cursor is moved in the subscriber and then in memory. *)
Lemma sf_move_cursor t s c g g' : s_registered s = true -> sub_ok s [] g -> moved_to g g' c ->
  sf t (publish_cursor r (s_cursor_index s) c) g' (fun _ g2 => sub_ok (set_cursor s c) [] g2).
Proof.
  intros Hr (Hcalm & Hh & Hs) (ph & Hp & -> & Hc). destruct (Hs Hr) as (H1 & H2 & H3 & H4).
  eapply safe_mono; [by apply sf_publish_cursor|]. intros _ g2 ->. by split_and!.
Qed.

Lemma sf_taken t c B g : l_held g = [(c, B)] -> l_cursor g = c -> l_moved g = false -> forall {A} (k : unit -> ring_thread A) Q,
  sf t (k tt) (with_cursor g (c + 1)) Q -> sf t (event (Taken c) ≫= k) g Q.
Proof.
  intros Hh Hc Hm A k Q Hk. apply sf_event. intros m gs tr Hinv Hg. exists (with_cursor g (c + 1)). split; [|exact Hk].
  pose proof (i_locals _ _ _ Hinv t g Hg) as Hl. destruct (lo_held _ _ _ _ _ Hl (c, B)) as (H1 & H2 & _); [rewrite Hh; by left|]. cbn in H1, H2.
  apply inv_move; try done; [lia|right; exists c; split; [done|lia]|]. intros R HR Et.
  destruct (i_gate _ _ _ Hinv R HR) as [(g0 & H0 & _ & _ & _ & H4 & H5) _ _ _]. rewrite Et in H0, H5. assert (g0 = g) as -> by congruence.
  split_and!; [done|lia| |].
  - intros p Hp. destruct (decide (p = c)) as [->|]; [done|]. apply H4. lia.
  - intros p Hin Hp. apply elem_of_app. destruct (decide (p = c)) as [->|]; [right|left; apply H5; [done|lia] ].
    cbn. rewrite decide_True by done. by left.
Qed.

Definition take_post (x : slot_subscriber * option taken_message) (g' : local) : Prop :=
  match x with
  | (s, None) => sub_ok s [] g'
  | (s, Some msg) => exists B, sub_ok s [(t_position msg, B)] g' /\ t_length msg = zlen B
  end.

Lemma sf_resolve_take t s st p len g g' : s_registered s = true -> sub_ok s [] g -> st <> st_empty ->
  consume_post (s_cursor s) g (st, p, len) g' ->
  sf t (resolve r s st p len) g' (fun x g2 => x.1.(s_registered) = true /\ take_post x g2).
Proof.
  intros Hr Hok Hne Hpost. unfold resolve. destruct Hok as (Hcalm & Hh & Hs). destruct (Hs Hr) as (H1 & H2 & H3 & H4).
  destruct st; try done; cbn [decide]; cbn in Hpost.
  - (* a filled slot *)
    rewrite !decide_False by done. destruct Hpost as [(raw & -> & ->) Hc]. apply safe_then.
    eapply safe_mono; [by apply (sf_pin_if_current t (s_cursor s) raw)|]. intros [|] g2; cbn [negb].
    + intros (B & HB & HB2 & ->). apply sf_taken with B; try done. unfold advance. cbn zeta. apply safe_then. apply safe_then.
      cbn [set_cursor s_cursor s_cursor_index]. rewrite wrap64_pos by lia.
      eapply safe_mono; [apply sf_publish_cursor; by cbn|]. intros _ g3 ->. apply sf_ret, sf_ret. split; [done|].
      exists B. split; [|cbn; unfold clamp_len; rewrite HB in *; destruct (raw >? m_slot_capacity r) eqn:Eg; [apply Z.gtb_lt in Eg; lia|done] ].
      split_and!; done.
    + intros Hmv. apply safe_then. unfold advance. cbn zeta. apply safe_then.
      eapply safe_mono; [by apply (sf_move_cursor t s _ (with_phase g (SawLen (s_cursor s) raw)))|]. intros [] g3 Hg3. by apply sf_ret, sf_ret.
  - (* a tombstone, or overtaken *)
    rewrite decide_False, decide_True by done. apply safe_then. apply sf_ret. cbn [negb]. apply safe_then. unfold advance. cbn zeta. apply safe_then.
    eapply safe_mono; [by apply (sf_move_cursor t s _ g)|]. intros [] g3 Hg3. by apply sf_ret, sf_ret.
  - (* lapped *)
    rewrite decide_True by done. cbn zeta. apply safe_then.
    eapply safe_mono; [by apply (sf_move_cursor t s p g)|]. intros [] g3 Hg3. by apply sf_ret.
Qed.

Lemma sf_take_loop t fuel : forall s spun g, s_registered s = true -> sub_ok s [] g ->
  sf t (take_loop r fuel s spun) g (fun x g2 => x.1.(s_registered) = true /\ take_post x g2).
Proof.
  induction fuel as [|fuel IH]; intros s spun g Hr Hok; [done|]. cbn [take_loop].
  pose proof Hok as (Hcalm & Hh & Hs). destruct (Hs Hr) as (H1 & H2 & H3 & H4). apply safe_then.
  eapply safe_mono; [by apply sf_consume|]. intros [ [st p] len] g' Hpost. case_decide as Hst.
  - subst st. destruct Hpost as (ph & Hp & ->). assert (sub_ok s [] (with_phase g ph)) as Hok' by (by split_and!).
    destruct (spun >=? s_spin_budget s); [by apply sf_ret|by apply IH].
  - apply safe_then. eapply safe_mono; [by apply (sf_resolve_take t s st p len g g')|]. intros [s' [msg|] ] g2 [Hr' Hpost']; [done|].
    by apply IH.
Qed.

Lemma sf_take_message t fuel s g : sub_ok s [] g -> sf t (take_message r fuel s) g (fun x g2 => x.1.(s_registered) = s_registered s /\ take_post x g2).
Proof.
  intros Hok. unfold take_message. destruct (s_registered s) eqn:Hr; cbn [negb]; [by apply sf_take_loop|by apply sf_ret].
Qed.

(** ** Reading a taken slot *)

Definition with_held (g : local) (held : list (Z * bytes)) : local := Local (l_phase g) (l_cursor g) (l_moved g) (l_index g) held.

(** The pins of a taken slot go up and down with what the thread holds. *)
Lemma sf_repin t c B g (d : Z) held held' :
  l_held g = held -> (d = 1 /\ held' = (c, B) :: held \/ d = -1 /\ held = (c, B) :: held') ->
  (forall h, h ∈ held' -> h ∈ held) -> (length held' <= 2)%nat ->
  forall {A} (k : Z -> ring_thread A) Q, (forall v, sf t (k v) (with_held g held') Q) ->
  sf t (Rmw (TakeRefcount (cell_at r c)) (fun x => wrap 32 (x + d)) Ret ≫= k) g Q.
Proof.
  intros Hh Hd Hsub Hlen A k Q Hk. apply sf_rmw. intros m gs tr Hinv Hg. pose proof (i_locals _ _ _ Hinv t g Hg) as Hl.
  destruct (write_cell m gs tr c (set_refcount (wrap 32 (c_take_refcount (cell m (idx c)) + d))) Hinv) as (m' & Hw & Hcw).
  exists (c_take_refcount (cell m (idx c))), m'. split; [cbn; by rewrite (at_cell m gs tr c Hinv)|]. split; [exact Hw|]. intros _.
  exists (with_held g held'). split; [|apply Hk].
  apply (inv_repin t m gs tr g _ (idx c) d m' Hinv Hg); try done.
  - apply idx_range.
  - destruct Hd as [ [-> _]|[-> _] ]; auto.
  - intros j. unfold pins_on. cbn [with_held l_held l_phase]. rewrite Hh.
    destruct Hd as [ [-> ->]|[-> ->] ]; rewrite filter_cons; cbn [fst]; repeat case_decide; cbn [length]; congruence || lia.
  - apply Hl.
  - intros h Hin. apply Hl. rewrite Hh. by apply Hsub.
Qed.

(** The bytes of a pinned slot do not change. *)
Lemma held_byte t m gs tr g c B k b :
  inv m gs tr -> gs !! t = Some g -> (c, B) ∈ l_held g -> B !! k = Some b ->
  at_ (m_slab m) (idx c * m_stride r + Z.of_nat k) = Some b.
Proof.
  intros Hi Hg Hin Hb. destruct (lo_held _ _ _ _ _ (i_locals _ _ _ Hi t g Hg) _ Hin) as (_ & _ & _ & _ & Hl & Ht). cbn in Hl, Ht.
  pose proof (go_stride r Hgeo). pose proof (idx_range (r := r) c). pose proof (lookup_lt_Some _ _ _ Hb) as Hk. unfold zlen in Hl.
  rewrite <- Ht in Hb. rewrite lookup_take_lt in Hb by done. unfold slot in Hb. rewrite lookup_take_lt, lookup_drop in Hb by lia.
  unfold at_. destruct (Z.leb_spec 0 (idx c * m_stride r + Z.of_nat k)); [|nia]. rewrite <- Hb. f_equal. nia.
Qed.

Lemma sf_copy_out t c B n : forall k base g, (c, B) ∈ l_held g -> base = idx c * m_stride r + Z.of_nat k -> (k + n <= length B)%nat ->
  sf t (copy_out n base) g (fun data g' => data = take n (drop k B) /\ g' = g).
Proof.
  induction n as [|n IH]; intros k base g Hin -> Hlen; [done|]. cbn [copy_out].
  destruct (lookup_lt_is_Some_2 B k ltac:(lia)) as [b Hb].
  apply sf_load_pure with (fun v => v = byte.unsigned b).
  { intros m gs tr Hinv Hg. eexists. split; [|done]. cbn. by rewrite (held_byte t m gs tr g c B k b). }
  intros v ->. apply safe_then. eapply safe_mono; [apply (IH (S k)); [done|lia|lia]|]. intros data g' [-> ->]. apply sf_ret.
  split; [|done]. by rewrite (drop_S B b k Hb), firstn_cons, byte.of_Z_unsigned.
Qed.

Lemma sf_delivered t c B g {A} (k : unit -> ring_thread A) Q :
  (c, B) ∈ l_held g -> sf t (k tt) g Q -> sf t (event (Delivered c B) ≫= k) g Q.
Proof.
  intros Hin Hk. apply sf_event. intros m gs tr Hinv Hg. exists g. split; [|done]. pose proof (i_locals _ _ _ Hinv t g Hg) as [L1 L2 L3 _ _ _].
  apply (inv_keep t m gs tr m g g); try done; [apply Hinv|cbn; by rewrite decide_True| |].
  - intros p b Hd. apply list_elem_of_singleton in Hd. injection Hd as -> ->. by destruct (L2 _ Hin) as (_ & _ & _ & Hp & _).
  - rewrite list_insert_id by done. apply Hinv.
Qed.

Lemma sf_channel_drain t fuel : forall s g, sub_ok s [] g ->
  sf t (channel_drain r fuel s) g (fun s' g' => sub_ok s' [] g' /\ s_registered s' = s_registered s).
Proof.
  induction fuel as [|fuel IH]; intros s g Hok; [done|]. cbn [channel_drain].
  apply safe_then. eapply safe_mono; [by apply sf_take_message|]. intros [s' [msg|] ] g' [Hr Hpost]; cbn [fst take_post] in *; [|done].
  destruct Hpost as (B & (Hcalm & Hh & Hs) & Hlen). set (c := t_position msg) in *.
  apply safe_then, (sf_repin t c B g' 1 [(c, B)] [(c, B); (c, B)]); [done|by left| |cbn; lia|].
  { intros h. rewrite !elem_of_cons. tauto. }
  intros _. apply sf_ret. rewrite Hlen, zlen_to_nat. apply safe_then.
  eapply safe_mono; [apply (sf_copy_out t c B (length B) 0); [by left|rewrite slot_span_idx; lia|lia]|].
  intros data g2 [-> ->]. rewrite drop_0, firstn_all. apply sf_delivered; [by left|].
  apply safe_then, (sf_repin t c B _ (-1) [(c, B); (c, B)] [(c, B)]); [done|by right| |cbn; lia|].
  { intros h. rewrite !elem_of_cons. tauto. }
  intros _. apply sf_ret. apply safe_then, (sf_repin t c B _ (-1) [(c, B)] []); [done|by right| |cbn; lia|].
  { intros h Hin. by apply elem_of_nil in Hin. }
  intros _. apply sf_ret. eapply safe_mono; [apply (IH s'); by split_and!|]. intros s2 g2 [H1 H2]. split; [done|congruence].
Qed.

Lemma sf_channel_calls t fuel cong calls : forall s g, sub_ok s [] g ->
  sf t (channel_calls r fuel policy cong calls s) g (fun s' g' => sub_ok s' [] g').
Proof.
  induction calls as [|[payload|] calls IH]; intros s g Hok; cbn [channel_calls]; [done| |].
  - destruct Hok as (Hc & Hh & Hs). apply safe_then. eapply safe_mono; [by apply sf_channel_send|]. intros st g' (ph & Hp & ->).
    apply sf_event_quiet; [done|]. apply IH. by split_and!.
  - apply safe_then. eapply safe_mono; [by apply sf_channel_drain|]. intros s' g' [Hok' _]. by apply IH.
Qed.

(** ** Registering *)

Section Visitor.
Context {t : nat} (Hvisitor : ~ stays t).

Definition with_index (g : local) (x : option Z) : local := Local (l_phase g) (l_cursor g) (l_moved g) x (l_held g).

(** A write to the cursor [i], which is this thread's or nobody's. *)
Lemma visitor_writes m gs tr g i f m' x :
  inv m gs tr -> gs !! t = Some g -> 0 <= i < m_consumer_capacity r -> cursor_written (r := r) m m' i f ->
  (l_index g = Some i \/ cu_active (cursor m i) = 0) -> (x = Some i /\ cu_active (f (cursor m i)) = 1 \/ x = None) ->
  inv m' (<[t := with_index g x]> gs) (tr ++ map (pair t) []).
Proof.
  intros Hi Hg Hr Hw Hfree Hx.
  assert (forall t2 g2, t2 <> t -> gs !! t2 = Some g2 -> l_index g2 <> Some i) as Hothers.
  { intros t2 g2 Hne H2 E2. destruct Hfree as [E1|Hz]; [by destruct Hne; apply (i_indices _ _ _ Hi t2 t g2 g i)|].
    destruct (lo_index _ _ _ _ _ (i_locals _ _ _ Hi t2 g2 H2) i E2). lia. }
  apply (inv_cursor_write t m gs tr g (with_index g x) i f m'); try done.
  - cbn. destruct Hx as [ [-> _]| ->]; auto.
  - cbn. intros ->. by destruct Hx as [ [_ ?]|?].
  - intros R HR Ei. exfalso. destruct (i_gate _ _ _ Hi R HR) as [(g0 & H0 & H1 & _) _ _ _].
    destruct (decide (r_thread R = t)) as [Et|Hne]; [destruct Hvisitor; by exists R|]. apply (Hothers _ _ Hne H0). congruence.
  - intros R HR _ Et. destruct Hvisitor. by exists R.
Qed.

Lemma sf_raise_high_loop want fuel : 0 <= want <= m_consumer_capacity r -> forall hw g,
  sf t (raise_high_water_loop fuel hw want) g (fun _ g' => g' = g).
Proof.
  intros Hw. induction fuel as [|fuel IH]; intros hw g; cbn [raise_high_water_loop]; destruct (Z.ltb_spec hw want); try done.
  apply sf_cas. intros m gs tr Hinv Hg. exists (h_high_water m). split; [done|]. split.
  - intros He. eexists. split; [done|]. intros _. exists g. split; [|done]. apply inv_high; try done. lia.
  - intros _. exists g. split; [by apply stay|apply IH].
Qed.

Lemma sf_raise_high want fuel g : 0 <= want <= m_consumer_capacity r -> sf t (raise_high_water fuel want) g (fun _ g' => g' = g).
Proof.
  intros Hw. apply sf_load_pure with (fun _ => True); [by eexists|]. intros hw _. by apply sf_raise_high_loop.
Qed.

Definition register_post (g : local) (x : loan_status * Z) (g' : local) : Prop :=
  (x.1 = st_ok /\ 0 <= x.2 < m_consumer_capacity r /\ g' = with_index g (Some x.2)) \/ (x.1 <> st_ok /\ g' = g).

Lemma sf_register_loop fuel n : forall i g, 0 <= i -> i + Z.of_nat n = m_consumer_capacity r ->
  sf t (register_loop fuel n i) g (register_post g).
Proof.
  pose proof (go_consumers r Hgeo) as Hcc.
  induction n as [|n IH]; intros i g Hi Hn; cbn [register_loop]; [by right|].
  apply sf_cas. intros m gs tr Hinv Hg. exists (cu_active (cursor m i)). split; [cbn; by rewrite (at_cursor m gs tr i Hinv) by lia|]. split.
  - intros Hz. destruct (update_cursor_run m i (set_active 1) (i_shape _ _ _ Hinv) ltac:(lia)) as (m' & Hw & Hcw).
    exists m'. split; [exact Hw|]. intros _. exists (with_index g (Some i)). split.
    { apply (visitor_writes m gs tr g i (set_active 1)); try done; [lia|by right|by left]. }
    clear m gs tr Hinv Hg Hz m' Hw Hcw. apply sf_store. intros m gs tr Hinv Hg.
    destruct (update_cursor_run m i (set_position k_cursor_idle) (i_shape _ _ _ Hinv) ltac:(lia)) as (m' & Hw & Hcw).
    exists m'. split; [exact Hw|]. intros _. exists (with_index g (Some i)). split.
    { apply (visitor_writes m gs tr (with_index g (Some i)) i (set_position k_cursor_idle)); try done; [lia|by left|left].
      split; [done|]. cbn. by apply (lo_index _ _ _ _ _ (i_locals _ _ _ Hinv t _ Hg)). }
    apply safe_then. eapply safe_mono; [apply sf_raise_high; lia|]. intros [] g' ->. apply sf_ret. left. cbn. split_and!; done || lia.
  - intros _. exists g. split; [by apply stay|]. apply IH; lia.
Qed.

Lemma sf_slot_subscriber_new fuel spin g : calm (l_phase g) -> l_held g = [] ->
  sf t (slot_subscriber_new r fuel spin) g (fun s g' => sub_ok s [] g').
Proof.
  intros Hc Hh. pose proof (go_consumers r Hgeo) as Hcc. unfold slot_subscriber_new, register_cursor. apply safe_then.
  eapply safe_mono; [apply sf_register_loop; lia|]. intros [st index] g' [(H1 & H2 & ->)|[H1 ->] ]; cbn [fst snd] in *.
  2: { rewrite decide_False by done. apply sf_ret. by split_and!. }
  subst st. rewrite decide_True by done. apply sf_load. intros m gs tr Hinv Hg. exists (E m). split; [done|].
  pose proof (lo_cursor _ _ _ _ _ (i_locals _ _ _ Hinv t _ Hg)) as Hlc.
  exists (with_cursor (with_index g (Some index)) (E m)). split; [apply overtaken_moves; done || lia|].
  apply safe_then. eapply safe_mono; [by apply sf_publish_cursor|]. intros [] g' ->. apply sf_ret. by split_and!.
Qed.

Lemma sf_slot_subscriber_destroy s g : sub_ok s [] g -> sf t (slot_subscriber_destroy r s) g (fun _ _ => True).
Proof.
  intros (Hc & Hh & Hs). unfold slot_subscriber_destroy. destruct (s_registered s) eqn:Hr; [|done].
  destruct (Hs eq_refl) as (H1 & H2 & _). pose proof (go_consumers r Hgeo) as Hcc. unfold unregister_cursor.
  destruct (s_cursor_index s >=? m_consumer_capacity r) eqn:Eg; [done|]. apply sf_store. intros m gs tr Hinv Hg.
  destruct (update_cursor_run m (s_cursor_index s) (set_position k_cursor_idle) (i_shape _ _ _ Hinv) ltac:(lia)) as (m' & Hw & Hcw).
  exists m'. split; [exact Hw|]. intros _. exists (with_index g (Some (s_cursor_index s))). split.
  { apply (visitor_writes m gs tr g (s_cursor_index s) (set_position k_cursor_idle)); try done; [by left|left].
    split; [done|]. cbn. by apply (lo_index _ _ _ _ _ (i_locals _ _ _ Hinv t _ Hg)). }
  clear m gs tr Hinv Hg m' Hw Hcw. refine (sf_store t _ _ Ret _ _ _). intros m gs tr Hinv Hg.
  destruct (update_cursor_run m (s_cursor_index s) (set_active 0) (i_shape _ _ _ Hinv) ltac:(lia)) as (m' & Hw & Hcw).
  exists m'. split; [exact Hw|]. intros _. exists (with_index g None). split; [|done].
  apply (visitor_writes m gs tr _ (s_cursor_index s) (set_active 0) m' None Hinv Hg); try done; [by left|by right].
Qed.

(** A channel from its construction to its destruction. *)
Lemma sf_channel_life fuel cong spin calls g : calm (l_phase g) -> l_held g = [] ->
  sf t (channel_life r fuel policy cong spin calls) g (fun _ _ => True).
Proof.
  intros Hc Hh. unfold channel_life. apply safe_then. eapply safe_mono; [by apply sf_slot_subscriber_new|]. intros s g' Hok.
  apply safe_then. eapply safe_mono; [by apply sf_channel_calls|]. intros s' g2 Hok'. by apply sf_slot_subscriber_destroy.
Qed.

End Visitor.
End Specs.
