(* ===== verification/ShmTheorems.v ===== *)
(** * What the shared-memory ring guarantees

    Systems of channels on one freshly created ring, in every interleaving of their accesses:
    what is delivered was published, nothing is published twice, nobody reaches outside the
    mapped region, and a consumer that is there from the start and stays loses nothing that is
    published reliably.  The last part evaluates interleavings in which the ring does not do
    what it means to: outside the hypotheses of those theorems. *)

From Stdlib Require Import Sorted.
From S2P Require Import Prelude Atomics Qos Egress ShmRing ShmInvariant ShmSafety.

(** ** The arithmetic of the layout *)

Lemma land_high x k w : 0 <= k <= w -> 0 <= x < 2 ^ w -> Z.land x (2 ^ w - 2 ^ k) = x / 2 ^ k * 2 ^ k.
Proof.
  intros Hk Hx. replace (2 ^ w - 2 ^ k) with (Z.shiftl (Z.ones (w - k)) k).
  2: { rewrite Z.shiftl_mul_pow2, Z.ones_equiv by lia. unfold Z.pred. rewrite Z.mul_add_distr_r, <- Z.pow_add_r by lia.
       replace (w - k + k) with w by lia. lia. }
  rewrite <- Z.shiftr_div_pow2, <- Z.shiftl_mul_pow2 by lia. apply Z.bits_inj'. intros n Hn. rewrite Z.land_spec.
  destruct (decide (n < k)) as [Hl|Hl]; [by rewrite !Z.shiftl_spec_low, andb_false_r by lia|].
  rewrite !Z.shiftl_spec, Z.shiftr_spec by lia. replace (n - k + k) with n by lia.
  destruct (decide (n < w)) as [Hw|Hw]; [rewrite Z.ones_spec_low, andb_true_r by lia; done|].
  rewrite Z.ones_spec_high, andb_false_r by lia. symmetry.
  destruct (decide (x = 0)) as [->|]; [apply Z.testbit_0_l|]. apply Z.bits_above_log2; [lia|]. apply Z.log2_lt_pow2; [lia|]. assert (2 ^ w <= 2 ^ n) by (apply Z.pow_le_mono_r; lia). lia.
Qed.

Lemma round_up_8_bounds n : 0 <= n < 2 ^ 63 -> n <= round_up_8 n < n + 8.
Proof.
  intros Hn. unfold round_up_8. rewrite (wrap_small 64) by (unfold in_width; lia).
  change (2 ^ 64 - 1 - 7) with (2 ^ 64 - 2 ^ 3). rewrite land_high by lia. change (2 ^ 3) with 8.
  pose proof (Z.div_mod (n + 7) 8 ltac:(lia)). pose proof (Z.mod_pos_bound (n + 7) 8 ltac:(lia)). lia.
Qed.

Lemma power_of_two v : 0 <= v -> is_power_of_two v = true -> exists k, 0 <= k /\ v = 2 ^ k.
Proof.
  intros Hv H. unfold is_power_of_two in H. apply andb_prop in H as [H1 H2]. apply negb_true_iff, Z.eqb_neq in H1. apply Z.eqb_eq in H2.
  exists (Z.log2 v). split; [apply Z.log2_nonneg|]. pose proof (Z.log2_spec v ltac:(lia)) as [L1 L2].
  destruct (decide (v = 2 ^ Z.log2 v)) as [|Hne]; [done|exfalso]. assert (Z.log2 (v - 1) = Z.log2 v) as Hl.
  { apply Z.log2_unique; [apply Z.log2_nonneg|]. lia. }
  assert (Z.testbit (Z.land v (v - 1)) (Z.log2 v) = true) as Ht.
  { rewrite Z.land_spec, Z.bit_log2 by lia. rewrite <- Hl. apply Z.bit_log2. assert (0 < 2 ^ Z.log2 v) by (apply Z.pow_pos_nonneg; [lia|apply Z.log2_nonneg]). lia. }
  by rewrite H2, Z.testbit_0_l in Ht.
Qed.

(** ** Systems of channels on a fresh ring *)

(** What a client makes of its channel. *)
Record client : Type := Client { cl_fuel : nat; cl_congestion : congestion; cl_spin : Z; cl_calls : list channel_call }.

Definition client_thread (r : broadcast_ring) (rel : reliability) (cl : client) : thread loc ring_event unit :=
  channel_life r (cl_fuel cl) rel (cl_congestion cl) (cl_spin cl) (cl_calls cl).

(** Clients that come and go. *)
Definition clients_start (r : broadcast_ring) (rel : reliability) (clients : list client) (m : memory) : config memory loc ring_event :=
  Config (map (client_thread r rel) clients) m [].

(** A client whose channel exists before the others run and is not destroyed: thread 0. *)
Definition resident_start (r : broadcast_ring) (cl : client) (s : slot_subscriber) (clients : list client) (m : memory) : config memory loc ring_event :=
  Config ((channel_calls r (cl_fuel cl) reliable (cl_congestion cl) (cl_calls cl) s ≫= fun _ => Ret tt) ::
          map (client_thread r reliable) clients) m [].

(** A ring of at least two cells and a length below the tombstone's. *)
Definition workable (cell_count slot_capacity : Z) : Prop := 2 <= cell_count <= 2 ^ 31 /\ 0 <= slot_capacity < k_skip_len.

Section Created.
Context {control_size : Z} {slab : bytes} {cell_count slot_capacity consumer_capacity : Z} {r : broadcast_ring} {m : memory}.
Context (Hcreate : create control_size slab cell_count slot_capacity consumer_capacity = (st_ok, Some (r, m))).
Context (Hwork : workable cell_count slot_capacity) (Hcons : 0 <= consumer_capacity).

Lemma create_facts :
  is_power_of_two cell_count = true /\ 0 < consumer_capacity <= k_max_consumers /\ slab_region_bytes cell_count slot_capacity <= zlen slab /\
  r = bind cell_count slot_capacity (cell_count - 1) consumer_capacity /\
  m = Mem 0 (ControlConfig k_ring_magic cell_count slot_capacity (cell_count - 1) consumer_capacity)
         (replicate (Z.to_nat k_max_consumers) (Cursor k_cursor_idle 0)) 0 k_park_empty 0
         (map (fun i => Cell (Z.of_nat i) 0 0 0) (seq 0 (Z.to_nat cell_count))) slab.
Proof.
  unfold create in Hcreate. destruct (is_power_of_two cell_count) eqn:Hp; [|done]. cbn [negb orb] in Hcreate.
  destruct (slot_capacity =? 0); [done|]. destruct (Z.eqb_spec consumer_capacity 0); [done|]. cbn [orb] in Hcreate. rewrite Z.gtb_ltb in Hcreate.
  destruct (Z.ltb_spec k_max_consumers consumer_capacity); [done|].
  destruct (control_size <? control_region_bytes cell_count); [done|]. cbn [orb] in Hcreate.
  destruct (Z.ltb_spec (zlen slab) (slab_region_bytes cell_count slot_capacity)); [done|]. injection Hcreate as <- <-. split_and!; done || lia.
Qed.

Lemma created_geometry : geometry_ok r.
Proof.
  destruct create_facts as (Hp & Hc & Hs & -> & _). destruct Hwork as [Hd Hl]. unfold k_skip_len in Hl. split; cbn; try done.
  - destruct (power_of_two cell_count ltac:(lia) Hp) as (k & Hk & ->). exists k. split; [|done].
    split; [destruct (decide (k = 0)) as [->|]; [cbn in Hd; lia|lia]|].
    destruct (decide (k <= 32)); [done|]. assert (2 ^ 33 <= 2 ^ k) by (apply Z.pow_le_mono_r; lia). lia.
  - pose proof (round_up_8_bounds slot_capacity ltac:(lia)). lia.
  - apply Hl.
Qed.

Lemma created_cell i : 0 <= i < cell_count -> cell m i = Cell i 0 0 0.
Proof.
  intros Hi. destruct create_facts as (_ & _ & _ & _ & ->). unfold cell, at_. cbn [m_cells]. rewrite (proj2 (Z.leb_le 0 i)) by lia.
  rewrite list_lookup_fmap, lookup_seq_lt by lia. cbn. f_equal. lia.
Qed.

Lemma created_shape high : 0 <= high <= consumer_capacity -> forall cursors, zlen cursors = k_max_consumers ->
  shape r (set_words (set_cursors m cursors) (h_notify_generation m) (h_park_state m) high).
Proof.
  intros Hh cursors Hcur. destruct create_facts as (_ & Hc & Hs & -> & ->). destruct Hwork as [Hd Hl]. unfold k_skip_len in Hl. split; cbn; try done.
  - unfold zlen. rewrite length_map, length_seq. lia.
  - pose proof (round_up_8_bounds slot_capacity ltac:(lia)). unfold slab_region_bytes in Hs. rewrite (wrap_small 64) in Hs; [done|].
    unfold in_width. nia.
Qed.
(** What is known about threads that have not started; the resident owns the first cursor. *)
Definition idle_local (index : option Z) : local := Local Quiet 0 false index [].

Definition fresh_cursors (index : option Z) (cursors : list cursor_t) (high : Z) : Prop :=
  zlen cursors = k_max_consumers /\ 0 <= high <= consumer_capacity /\
  forall i, index = Some i -> i = 0 /\ high = 1 /\ at_ cursors 0 = Some (Cursor 0 1).

Lemma fresh_inv res index gs cursors high :
  fresh_cursors index cursors high -> zlen gs <= 2 ^ 16 ->
  (forall t g, gs !! t = Some g -> g = idle_local (match t with O => index | _ => None end)) ->
  (forall R, res = Some R -> R = Resident 0 0 0 /\ index = Some 0 /\ gs <> []) ->
  inv r res (set_words (set_cursors m cursors) (h_notify_generation m) (h_park_state m) high) gs [].
Proof.
  intros (Hcl & Hh & Hidx) Hlen Hgs HR. set (m' := set_words _ _ _ _). pose proof create_facts as (_ & Hc & _ & Hr & Hm). destruct Hwork as [Hd _].
  assert (m_cell_count r = cell_count) as HN by (by rewrite Hr). assert (h_enqueue_pos m' = 0) as HE by (unfold m'; by rewrite Hm).
  assert (forall i, 0 <= i < m_cell_count r -> cell m' i = Cell i 0 0 0) as Hcell by (rewrite HN; apply created_cell).
  assert (forall t g p, gs !! t = Some g -> owned (l_phase g) <> Some p) as Hown by (by intros t g p Hg; rewrite (Hgs t g Hg)).
  assert (m_consumer_capacity r = consumer_capacity) as HCC by (by rewrite Hr).
  split; try done.
  - by apply created_shape.
  - split; rewrite ?HE; try done; try (intros; exfalso; by eapply Hown).
    + intros i Hi. rewrite Hcell by lia. done.
    + intros p H0 Hp. lia.
  - intros i Hi. rewrite Hcell by done. cbn. unfold pins. assert (sum_list_with (pins_on r i) gs = 0%nat) as ->; [|done].
    assert (Forall (fun g => exists x, g = idle_local x) gs) as Hf by (apply Forall_lookup; intros t g Hg; rewrite (Hgs t g Hg); eauto).
    clear -Hf. by induction Hf as [|g gs (x & ->) _ IH].
  - split; try (intros; exfalso; by eapply elem_of_nil); [intros p Hp; lia|apply NoDup_nil_2].
  - intros t g Hg. rewrite (Hgs t g Hg). split; cbn; try done; try lia.
    + intros h Hin. by apply elem_of_nil in Hin.
    + intros i Hi. destruct t; [|done]. destruct (Hidx i Hi) as (-> & -> & Ha). unfold cursor. change (h_cursors m') with cursors. rewrite Ha. split; [lia|done].
    + split; [constructor|]. intros p Hin. by apply elem_of_nil in Hin.
    + change (h_enqueue_pos m) with (h_enqueue_pos m'). lia.
  - intros t t' g g' i Hg Hg'. rewrite (Hgs t g Hg), (Hgs t' g' Hg'). by destruct t, t'.
  - intros R HRs. destruct (HR R HRs) as (-> & Hi0 & Hne). destruct (Hidx 0 Hi0) as (_ & -> & Ha).
    assert (gate_position m' (Resident 0 0 0) = 0) as Hgate by (unfold gate_position, cursor; cbn [r_index]; change (h_cursors m') with cursors; by rewrite Ha).
    split; rewrite ?Hgate, ?HE; cbn [r_index]; try done; try lia.
    destruct (gs !! 0%nat) as [g|] eqn:Hg; [|destruct gs; done]. pose proof (Hgs 0%nat g Hg) as ->. eexists. split; [exact Hg|]. cbn.
    split_and!; try done. intros p Hp. lia.
Qed.

(** A thread that has not started its channel is safe. *)
Lemma client_safe res t cl : ~ (exists R, res = Some R /\ r_thread R = t) ->
  safe (inv r res) below_limit t (client_thread r (policy (res := res)) cl) (idle_local None) (fun _ _ => True).
Proof. intros Hn. pose proof created_geometry as Hgeo. by apply sf_channel_life. Qed.

(** The state of a system of channels, in any execution. *)
Lemma clients_execution clients c :
  zlen clients <= 2 ^ 16 -> execution below_limit (clients_start r best_effort clients m) c ->
  (exists gs, inv r None (c_mem c) gs (c_trace c) /\ forall t, is_Some (c_threads c !! t) -> is_Some (gs !! t)) /\
  forall t fail p, c_threads c !! t = Some p -> halted p = false -> is_Some (schedule t fail c).
Proof.
  intros Hlen Hx. set (gs0 := replicate (length clients) (idle_local None)).
  assert (m = set_words (set_cursors m (h_cursors m)) (h_notify_generation m) (h_park_state m) (h_high_water m)) as Hm by (by destruct m).
  assert (all_safe (inv r None) below_limit gs0 (clients_start r best_effort clients m)) as Hs.
  { split.
    - cbn [clients_start c_mem c_trace]. rewrite Hm. apply (fresh_inv None None); try done.
      + destruct create_facts as (_ & Hc & _ & _ & ->). split; [done|]. split; [cbn; lia|done].
      + unfold gs0, zlen. by rewrite length_replicate.
      + intros t g Hg. apply lookup_replicate in Hg as [-> _]. by destruct t.
    - cbn [clients_start c_threads]. intros t p Hp. rewrite list_lookup_fmap in Hp. destruct (clients !! t) as [cl|] eqn:Hcl; [|done].
      injection Hp as <-. exists (idle_local None). split; [apply lookup_replicate_2; by eapply lookup_lt_Some|].
      apply (client_safe None). by intros (R & ? & _). }
  destruct (safe_execution _ _ _ _ _ Hs Hx) as (gs & [Hi Hall] & Hgo). split; [|done]. exists gs. split; [done|].
  intros t [p Hp]. destruct (Hall t p Hp) as (g & Hg & _). by exists g.
Qed.

Ltac evaluate :=
  repeat (progress (cbn; unfold put_at; change (Z.to_nat 0) with 0%nat; change (0 <? 0 + 1) with true; change (0 =? 0) with true; change (0 + 1) with 1)).

(** The construction of the resident's channel, with nobody else there yet. *)
Lemma resident_registers fuel spin s m' evs :
  run_alone (slot_subscriber_new r fuel spin) m = Some (s, m', evs) ->
  s = SlotSubscriber spin 0 0 true /\
  m' = set_words (set_cursors m (Cursor 0 1 :: replicate 15 (Cursor k_cursor_idle 0))) (h_notify_generation m) (h_park_state m) 1.
Proof.
  destruct create_facts as (_ & Hc & _ & -> & ->). unfold slot_subscriber_new, register_cursor. cbn [m_consumer_capacity bind].
  destruct (Z.to_nat consumer_capacity) as [|n] eqn:En; [lia|]. change (Z.to_nat k_max_consumers) with 16%nat.
  destruct fuel as [|fuel]; [by evaluate|]. evaluate. unfold publish_cursor. cbn [m_consumer_capacity bind].
  destruct (0 >=? consumer_capacity) eqn:Eg; [apply Z.geb_le in Eg; lia|]. evaluate. intros [= <- <- _]. done.
Qed.

Lemma resident_execution cl s clients fuel spin m' evs c :
  run_alone (slot_subscriber_new r fuel spin) m = Some (s, m', evs) -> zlen clients < 2 ^ 16 ->
  execution below_limit (resident_start r cl s clients m') c ->
  (exists gs, inv r (Some (Resident 0 0 0)) (c_mem c) gs (c_trace c) /\ forall t, is_Some (c_threads c !! t) -> is_Some (gs !! t)) /\
  forall t fail p, c_threads c !! t = Some p -> halted p = false -> is_Some (schedule t fail c).
Proof.
  intros Hreg Hlen Hx. apply resident_registers in Hreg as [-> ->]. pose proof created_geometry as Hgeo.
  set (gs0 := idle_local (Some 0) :: replicate (length clients) (idle_local None)).
  match type of Hx with execution _ ?c0 _ => assert (all_safe (inv r (Some (Resident 0 0 0))) below_limit gs0 c0) as Hs end.
  { destruct create_facts as (_ & Hc & _ & Hr & _). split.
    - apply (fresh_inv (Some (Resident 0 0 0)) (Some 0)).
      + split; [done|]. split; [lia|]. by intros i [= <-].
      + unfold gs0, zlen in *. cbn [length]. rewrite length_replicate. lia.
      + intros [|t] g Hg; [by injection Hg as <-|]. cbn in Hg. by apply lookup_replicate in Hg as [-> _].
      + by intros R [= <-].
    - cbn [resident_start c_threads]. intros [|t] p Hp.
      + injection Hp as <-. eexists. split; [done|]. apply safe_then. eapply safe_mono; [|done].
        apply (sf_channel_calls (res := Some (Resident 0 0 0))). split; [done|]. split; [done|]. intros _. rewrite Hr. cbn. split_and!; done || lia.
      + change (map (client_thread r reliable) clients !! t = Some p) in Hp. rewrite list_lookup_fmap in Hp. destruct (clients !! t) as [cl'|] eqn:Hcl; [|done]. injection Hp as <-.
        exists (idle_local None). split; [cbn; apply lookup_replicate_2; by eapply lookup_lt_Some|].
        apply (client_safe (Some (Resident 0 0 0))). intros (R & [= <-] & ?). done. }
  destruct (safe_execution _ _ _ _ _ Hs Hx) as (gs & [Hi Hall] & Hgo). split; [|done]. exists gs. split; [done|].
  intros t [p Hp]. destruct (Hall t p Hp) as (g & Hg & _). by exists g.
Qed.
End Created.

(** ** Clients that publish best-effort *)

(** C5: However channels that publish best-effort come, send, receive and go on one ring of at
    least two cells, a message is delivered with exactly the bytes it was published with (no
    torn read, no read of a slot that is being overwritten), no position of the ring is
    published twice, every client takes positions in increasing order, and no client's next
    access is outside the mapped region.  Assumed: a ring that [create] made with 2 to 2^31
    cells ([workable]; the code also builds a ring of one cell, which tears:
    [single_cell_ring_tears]) and slots below the tombstone's length, at most 2^16 clients,
    fewer than 2^62 positions, and sequentially consistent atomics. *)
Theorem best_effort_ring_safe control_size slab cell_count slot_capacity consumer_capacity r m clients c :
  create control_size slab cell_count slot_capacity consumer_capacity = (st_ok, Some (r, m)) ->
  workable cell_count slot_capacity -> 0 <= consumer_capacity -> zlen clients <= 2 ^ 16 ->
  execution below_limit (clients_start r best_effort clients m) c ->
  (forall t p b, (t, Delivered p b) ∈ c_trace c -> exists t', (t', Publishing p b) ∈ c_trace c) /\
  NoDup (published (c_trace c)) /\
  (forall t, is_Some (c_threads c !! t) -> StronglySorted Z.lt (taken_by t (c_trace c))) /\
  (forall t fail p, c_threads c !! t = Some p -> halted p = false -> is_Some (schedule t fail c)).
Proof.
  intros Hc Hw Hcc Hl Hx. destruct (clients_execution Hc Hw Hcc clients c Hl Hx) as [(gs & Hi & Hall) Hgo].
  destruct (i_contents _ _ _ Hi) as [_ _ C3 C4]. split_and!; try done.
  intros t Ht. destruct (Hall t Ht) as [g Hg]. apply (i_locals _ _ _ Hi t g Hg).
Qed.

(** ** A consumer that stays *)

(** C4: A channel that is on a ring of at least two cells from the start and stays there, beside fewer than 2^16 channels that
    publish reliably and come and go, loses nothing (up to 2^62 positions): every message published at a position its cursor has passed was taken by it, in order and once; its cursor
    is never lapped; and what it or anyone else is given are the published bytes. *)
Theorem resident_consumer_loses_nothing control_size slab cell_count slot_capacity consumer_capacity r m fuel spin s m1 evs cl clients c :
  create control_size slab cell_count slot_capacity consumer_capacity = (st_ok, Some (r, m)) ->
  workable cell_count slot_capacity -> 0 <= consumer_capacity -> zlen clients < 2 ^ 16 ->
  run_alone (slot_subscriber_new r fuel spin) m = Some (s, m1, evs) ->
  execution below_limit (resident_start r cl s clients m1) c ->
  exists cursor, read (c_mem c) (CursorPosition 0) = Some cursor /\
  (forall p, p ∈ published (c_trace c) -> p < cursor -> p ∈ taken_by 0 (c_trace c)) /\
  StronglySorted Z.lt (taken_by 0 (c_trace c)) /\
  h_enqueue_pos (c_mem c) <= cursor + cell_count /\
  (forall t p b, (t, Delivered p b) ∈ c_trace c -> exists t', (t', Publishing p b) ∈ c_trace c) /\
  (forall t fail p, c_threads c !! t = Some p -> halted p = false -> is_Some (schedule t fail c)).
Proof.
  intros Hc Hw Hcc Hl Hreg Hx. destruct (resident_execution Hc Hw Hcc cl s clients fuel spin m1 evs c Hreg Hl Hx) as [(gs & Hi & Hall) Hgo].
  pose proof (created_geometry Hc Hw Hcc) as Hgeo. destruct (create_facts Hc Hcc) as (_ & _ & _ & Hr & _).
  destruct (i_gate _ _ _ Hi _ eq_refl) as [(g & G0 & G1 & G2 & G3 & G4 & G5) G6 G7 G8]. cbn [r_thread r_index r_start] in *.
  exists (gate_position (c_mem c) (Resident 0 0 0)). destruct (i_contents _ _ _ Hi) as [_ C2 _ C4]. split_and!; try done.
  - unfold gate_position. cbn [r_index read ring_memory]. by rewrite (cursor_in (r := r)) by (apply Hi || done).
  - intros p Hp Hlt. apply G5; [done|]. pose proof (C2 p Hp). destruct (l_moved g); lia.
  - by apply (i_locals _ _ _ Hi 0%nat g G0).
  - by rewrite Hr in G7.
Qed.

(** ** Executions that can be run *)

Fixpoint run_below (l : list nat) (c : config memory loc ring_event) : option (config memory loc ring_event) :=
  match l with
  | [] => Some c
  | t :: l => c ← schedule t false c; if h_enqueue_pos (c_mem c) <? k_position_limit then run_below l c else None
  end.

Lemma run_below_from l : forall c0 c c', execution below_limit c0 c -> run_below l c = Some c' -> execution below_limit c0 c'.
Proof.
  induction l as [|t l IH]; intros c0 c c' Hx; cbn [run_below]; [by intros [= <-]|].
  destruct (schedule t false c) as [c1|] eqn:Hs; [|done]. cbn. destruct (Z.ltb_spec (h_enqueue_pos (c_mem c1)) k_position_limit); [|done].
  apply IH. by apply execution_step with c t false.
Qed.

Lemma run_below_execution l c0 c : run_below l c0 = Some c -> execution below_limit c0 c.
Proof. apply run_below_from. constructor. Qed.

(** A ring of [cells] slots of eight bytes for [capacity] consumers. *)
Definition small_ring (cells capacity : Z) : broadcast_ring * memory :=
  default (BroadcastRing 0 0 0 0 0, Mem 0 (ControlConfig 0 0 0 0 0) [] 0 0 0 [] [])
    (create (control_region_bytes cells) (replicate (Z.to_nat (8 * cells)) Byte.x00) cells 8 capacity).2.

Definition small_client (calls : list channel_call) : client := Client 20 block 0 calls.

(** Turns: [(t, n)] is [n] accesses of thread [t]. *)
Definition turns (l : list (nat * nat)) : list nat := concat (map (fun x => replicate x.2 x.1) l).

Definition small_start (cells capacity : Z) (rel : reliability) (clients : list (list channel_call)) : config memory loc ring_event :=
  clients_start (small_ring cells capacity).1 rel (map small_client clients) (small_ring cells capacity).2.

Lemma run_trace l c0 tr : c_trace <$> run_below l c0 = Some tr -> exists c, execution below_limit c0 c /\ c_trace c = tr.
Proof.
  intros H. apply fmap_Some in H as (c & Hr & ->). exists c. split; [by eapply run_below_execution|done].
Qed.

Abbreviation payload_1 := [Byte.x01; Byte.x01].
Abbreviation payload_2 := [Byte.x02; Byte.x02].
Abbreviation payload_3 := [Byte.x03; Byte.x03].

(** Two clients on a two-cell ring: one publishes while the other drains. *)
Lemma best_effort_ring_safe_witness :
  exists c, execution below_limit (small_start 2 16 best_effort [[CallDrain]; [CallSend payload_1; CallSend payload_2]]) c /\
    (0%nat, Delivered 0 payload_1) ∈ c_trace c /\ exists t, (t, Publishing 0 payload_1) ∈ c_trace c.
Proof.
  destruct (run_trace (turns [(0, 6); (1, 7); (1, 16); (0, 10)]%nat) (small_start 2 16 best_effort [[CallDrain]; [CallSend payload_1; CallSend payload_2]])
    [(1%nat, Publishing 0 payload_1); (1%nat, Signalled); (1%nat, Sent st_ok); (0%nat, Taken 0); (0%nat, Delivered 0 payload_1)])
    as (c & Hx & Htr); [vm_compute; reflexivity|].
  assert ((0%nat, Delivered 0 payload_1) ∈ c_trace c) as Hd by (rewrite Htr; do 4 right; left).
  exists c. split; [done|]. split; [done|].
  eapply (proj1 (best_effort_ring_safe (control_region_bytes 2) (replicate 16 Byte.x00) 2 8 16 (small_ring 2 16).1 (small_ring 2 16).2
    (map small_client [[CallDrain]; [CallSend payload_1; CallSend payload_2]]) c
    ltac:(vm_compute; reflexivity) ltac:(split; [lia|unfold k_skip_len; lia]) ltac:(lia) ltac:(vm_compute; discriminate) Hx)). exact Hd.
Defined.

(** The resident drains what the other client publishes. *)
Definition resident_ring : slot_subscriber * memory * list ring_event :=
  default (SlotSubscriber 0 0 0 false, (small_ring 2 16).2, []) (run_alone (slot_subscriber_new (small_ring 2 16).1 20 0) (small_ring 2 16).2).

Lemma resident_consumer_loses_nothing_witness :
  exists c, execution below_limit (resident_start (small_ring 2 16).1 (small_client [CallDrain]) resident_ring.1.1 [small_client [CallSend payload_1]] resident_ring.1.2) c /\
    0 ∈ published (c_trace c) /\ read (c_mem c) (CursorPosition 0) = Some 1 /\ 0 ∈ taken_by 0 (c_trace c).
Proof.
  set (c0 := resident_start (small_ring 2 16).1 (small_client [CallDrain]) resident_ring.1.1 [small_client [CallSend payload_1]] resident_ring.1.2).
  assert ((fun c => (c_trace c, read (c_mem c) (CursorPosition 0))) <$> run_below (turns [(1, 29); (0, 6)]%nat) c0 = 
    Some ([(1%nat, Publishing 0 payload_1); (1%nat, Signalled); (1%nat, Sent st_ok); (0%nat, Taken 0)], Some 1)) as Hrun by (vm_compute; reflexivity).
  apply fmap_Some in Hrun as (c & Hr & Heq). injection Heq as Htr Hcur. apply run_below_execution in Hr.
  assert (0 ∈ published (c_trace c)) as Hp by (rewrite <- Htr; left).
  exists c. assert (read (c_mem c) (CursorPosition 0) = Some 1) as Hcur' by (symmetry; exact Hcur). split; [done|]. split; [done|]. split; [done|].
  destruct (resident_consumer_loses_nothing (control_region_bytes 2) (replicate 16 Byte.x00) 2 8 16 (small_ring 2 16).1 (small_ring 2 16).2 20 0
    resident_ring.1.1 resident_ring.1.2 resident_ring.2 (small_client [CallDrain]) [small_client [CallSend payload_1]] c
    ltac:(vm_compute; reflexivity) ltac:(split; [lia|unfold k_skip_len; lia]) ltac:(lia) ltac:(vm_compute; reflexivity) ltac:(vm_compute; reflexivity) Hr)
    as (cursor & Hc & Hall & _). apply Hall; [done|]. assert (cursor = 1) as -> by congruence. lia.
Defined.

(** ** The geometry *)

Definition consumers_of (consumer_capacity : Z) : Z := if consumer_capacity =? 0 then k_max_consumers else consumer_capacity.

Lemma pow2_tables capacity : 1 <= capacity <= 16 ->
  exists d d', next_pow2_at_least capacity = Some d /\ next_pow2_strictly_above capacity = Some d' /\
    is_power_of_two d = true /\ is_power_of_two d' = true /\ capacity <= d <= 16 /\ capacity < d' <= 32.
Proof.
  intros H. assert (capacity ∈ seqZ 1 16) as Hin by (apply elem_of_seqZ; lia). revert Hin. clear H. revert capacity. apply Forall_forall.
  repeat (apply Forall_cons; split; [eexists _, _; vm_compute; repeat split; discriminate|]). apply Forall_nil_2.
Qed.

(** The one geometry that is not workable. *)
Definition single_cell (max_payload : Z) (mode : ring_geometry_mode) (consumer_capacity : Z) : bool :=
  bool_decide (mode = best_effort_large) && (consumer_capacity =? 1) && (max_payload >? 131072).

Lemma geometry_tiers max_payload mode capacity : 1 <= capacity <= 16 ->
  exists cells slot, ring_geometry_tier max_payload (round_up_8 max_payload) mode capacity = Some (RingGeometry cells slot) /\
    is_power_of_two cells = true /\ 1 <= cells <= 256 /\ (mode <> best_effort_large -> capacity < cells) /\
    (slot = round_up_8 max_payload /\ 4096 < max_payload \/ slot = 4096 /\ max_payload <= 4096) /\
    (single_cell max_payload mode capacity = false -> 2 <= cells).
Proof.
  intros Hc. unfold ring_geometry_tier, single_cell. rewrite !Z.gtb_ltb.
  destruct (Z.ltb_spec 131072 max_payload);
    [|destruct (Z.ltb_spec 65536 max_payload); [|destruct (Z.ltb_spec 32768 max_payload); [|destruct (Z.ltb_spec 4096 max_payload)] ] ].
  2, 3, 4, 5: eexists _, _; split; [reflexivity|]; split_and!; try done; lia.
  destruct (pow2_tables capacity Hc) as (d & d' & H1 & H2 & H3 & H4 & H5 & H6). rewrite H1, H2. rewrite andb_true_r.
  case_decide as Hm.
  - exists d, (round_up_8 max_payload). split; [done|]. rewrite bool_decide_true by done. split_and!; try done; try lia.
  - exists d', (round_up_8 max_payload). split; [done|]. split_and!; try done; lia.
Qed.

(** For every payload bound up to two gigabytes, every mode and every consumer capacity the ring has room for, the geometry
    computation ends, its slots hold the payload, a reliable ring has more cells than consumers, and regions of the sizes the
    layout asks for are accepted by [create]; the ring has the two cells the protocol needs in every case but one. *)
Theorem geometry_makes_a_ring max_payload mode consumer_capacity :
  0 <= max_payload <= 2 ^ 31 -> 0 <= consumer_capacity <= k_max_consumers ->
  exists cells slot, ring_geometry_for (Some max_payload) mode consumer_capacity = Some (RingGeometry cells slot) /\
    max_payload <= slot /\ (mode <> best_effort_large -> consumers_of consumer_capacity < cells) /\
    (forall slab, slab_region_bytes cells slot <= zlen slab ->
     exists r m, create (control_region_bytes cells) slab cells slot (consumers_of consumer_capacity) = (st_ok, Some (r, m))) /\
    (single_cell max_payload mode consumer_capacity = false -> workable cells slot).
Proof.
  intros Hp Hc. unfold k_max_consumers in Hc. assert (1 <= consumers_of consumer_capacity <= 16) as Hcc.
  { unfold consumers_of, k_max_consumers. destruct (Z.eqb_spec consumer_capacity 0); lia. }
  destruct (geometry_tiers max_payload mode (consumers_of consumer_capacity) Hcc) as (cells & slot & Ht & Hpow & Hr & Hmore & Hslot & Htwo).
  pose proof (round_up_8_bounds max_payload ltac:(lia)) as Hru.
  assert (0 < slot < 2 ^ 32 - 16 /\ max_payload <= slot) as [Hs Hps] by (destruct Hslot as [ [-> ?]|[-> ?] ]; lia).
  pose proof (round_up_8_bounds slot ltac:(lia)) as Hrs. exists cells, (round_up_8 slot). split_and!; [|lia|done| |].
  - unfold ring_geometry_for. change (default 0 (Some max_payload)) with max_payload. unfold consumers_of in Ht, Hmore. rewrite Ht.
    cbn [mbind option_bind g_cell_count g_slot_capacity]. case_decide as Hm; [|done]. rewrite Z.gtb_ltb, (proj2 (Z.ltb_lt _ _)) by auto. done.
  - intros slab Hslab. unfold create. rewrite Hpow, (proj2 (Z.eqb_neq (round_up_8 slot) 0)) by lia. cbn [negb orb].
    rewrite (proj2 (Z.eqb_neq (consumers_of consumer_capacity) 0)), Z.gtb_ltb, (proj2 (Z.ltb_ge k_max_consumers _)) by (unfold k_max_consumers; lia). cbn [orb].
    rewrite Z.ltb_irrefl, (proj2 (Z.ltb_ge _ _) Hslab). cbn [orb]. eauto.
  - intros Hsc. unfold workable, k_skip_len. split; [|lia]. split; [|lia]. apply Htwo. unfold single_cell, consumers_of, k_max_consumers in *.
    destruct (Z.eqb_spec consumer_capacity 0) as [->|]; [|done]. by rewrite andb_false_r.
Qed.

(** The largest payload of a best-effort ring for two consumers. *)
Lemma geometry_makes_a_ring_witness : exists cells slot,
  ring_geometry_for (Some (2 ^ 31)) best_effort_large 2 = Some (RingGeometry cells slot) /\ workable cells slot.
Proof.
  destruct (geometry_makes_a_ring (2 ^ 31) best_effort_large 2 ltac:(lia) ltac:(unfold k_max_consumers; lia)) as (cells & slot & H & _ & _ & _ & Hw).
  exists cells, slot. split; [exact H|]. apply Hw. reflexivity.
Defined.

(** ** Where the ring does not do what it means to *)

(** The geometry that is excluded above exists: with one cell the claiming marker of a position is the filled mark of the one
    before, and a consumer takes, pins and reads the slot while the publisher writes into it. *)
Theorem single_cell_ring_tears :
  ring_geometry_for (Some 200000) best_effort_large 1 = Some (RingGeometry 1 200000) /\
  c_trace <$> run_below (turns [(0, 6); (1, 19); (0, 8); (1, 2); (0, 2)]%nat)
    (small_start 1 1 best_effort [[CallDrain]; [CallSend payload_1; CallSend payload_2]]) =
  Some [(1%nat, Publishing 0 payload_1); (1%nat, Signalled); (1%nat, Sent st_ok);
        (0%nat, Taken 0); (0%nat, Delivered 0 [Byte.x01; Byte.x02])].
Proof. split; vm_compute; reflexivity. Qed.

(** A reliable claim asks the cursors only, not whether the slot's last position is committed: a channel that found no free
    cursor (here: the second and third on a ring for one consumer) is protected by nobody, another publisher is given the slot
    it is still writing, and a registered consumer is handed a mix of the two payloads. *)
Theorem unregistered_publisher_is_overwritten :
  c_trace <$> run_below (turns [(0, 6); (1, 1); (2, 1); (0, 2); (1, 9); (3, 5); (2, 37); (1, 1); (3, 22)]%nat)
    (small_start 2 1 reliable [[]; [CallSend payload_1]; [CallSend payload_2; CallSend payload_3]; [CallDrain]]) =
  Some [(2%nat, Publishing 1 payload_2); (2%nat, Signalled); (2%nat, Sent st_ok); (2%nat, Publishing 2 payload_3);
        (3%nat, Taken 1); (3%nat, Delivered 1 payload_2); (3%nat, Taken 2); (3%nat, Delivered 2 [Byte.x03; Byte.x01])].
Proof. vm_compute. reflexivity. Qed.

(** The sizes an attacher checks are computed modulo 2^64: a header that claims 2^58 cells is accepted on a control region
    that holds the header alone and an empty slab. *)
Theorem attach_accepts_a_header_that_does_not_fit :
  attach_ring sizeof_control_header 0 (ControlConfig k_ring_magic (2 ^ 58) 64 (2 ^ 58 - 1) 16) = (st_ok, Some (BroadcastRing (2 ^ 58) 64 (2 ^ 58 - 1) 64 16)).
Proof. vm_compute. reflexivity. Qed.

(** A best-effort claim whose slot is not committed waits, however long it is given. *)
Lemma claim_waits r m c fuel : forall skipped, at_ (m_cells m) (cell_at r (h_enqueue_pos m)) = Some c ->
  dif64 (c_sequence c) (h_enqueue_pos m) <> 0 -> dif64 (c_sequence c) (h_enqueue_pos m) <> 1 - m_cell_count r ->
  run_alone (claim_best_effort r fuel (h_enqueue_pos m) skipped) m = None.
Proof.
  induction fuel as [|fuel IH]; intros skipped Hc H0 H1; [done|]. cbn. rewrite Hc. cbn. rewrite (proj2 (Z.eqb_neq _ _) H0), (proj2 (Z.eqb_neq _ _) H1).
  cbn. by apply IH.
Qed.

Lemma run_alone_stuck {A B} (p : thread loc ring_event A) (f : A -> thread loc ring_event B) : forall m : memory,
  run_alone p m = None -> run_alone (p ≫= f) m = None.
Proof.
  change (p ≫= f) with (thread_bind f p). induction p as [a|l k IH|l v k IH|w l e d k IH|l h k IH|e k IH|]; intros m H; cbn [run_alone thread_bind] in *; [done|..|done].
  - destruct (read m l); cbn [mbind option_bind] in *; auto.
  - destruct (write m l v); cbn [mbind option_bind] in *; auto.
  - destruct (read m l); cbn [mbind option_bind] in *; [|done]. destruct (z =? e); [|auto]. destruct (write m l d); cbn [mbind option_bind] in *; auto.
  - destruct (read m l); cbn [mbind option_bind] in *; [|done]. destruct (write m l (h z)); cbn [mbind option_bind] in *; auto.
  - destruct (run_alone k m) as [ [ [a m'] evs]|] eqn:E0; [done|]. by rewrite (IH m E0).
Qed.

(** A loan that is dropped without being published is not found by the next loan: the marker stays in the cell, and once the
    other slots are used no best-effort send ever returns. *)
Theorem dropped_loan_stops_best_effort : exists m1 m2,
  run_alone (loan (small_ring 2 16).1 9 2 best_effort) (small_ring 2 16).2 = Some ((st_ok, 0), m1, []) /\
  run_alone (channel_send (small_ring 2 16).1 9 best_effort block payload_1) m1 = Some (st_ok, m2, [Publishing 1 payload_1; Signalled]) /\
  forall fuel cong payload, zlen payload <= 8 -> run_alone (channel_send (small_ring 2 16).1 fuel best_effort cong payload) m2 = None.
Proof.
  eexists _, _. split; [vm_compute; reflexivity|]. split; [vm_compute; reflexivity|]. intros fuel cong payload Hl.
  unfold channel_send, loan_blocking, loan, claim_with_policy. apply run_alone_stuck, run_alone_stuck.
  change (m_slot_capacity (small_ring 2 16).1) with 8. rewrite Z.gtb_ltb, (proj2 (Z.ltb_ge _ _) Hl).
  match goal with |- run_alone _ ?m2 = None => set (m := m2); change (run_alone (claim_best_effort (small_ring 2 16).1 fuel (h_enqueue_pos m) 0) m = None) end.
  eapply claim_waits; [reflexivity|vm_compute; discriminate..].
Qed.
