(* ===== verification/PeerTables.v ===== *)
(** * Tables keyed by peers

    [std::map] as the engine uses it, [detail/fixed_flat_map.h] and the storage classes over
    them ([liveness_storage.h], [liveliness_peer_storage.h]).  The code is generic over the
    storage; [PeerTable] is the surface it uses and [LawfulTable] what it relies on, so that
    what is proved about the users holds for the heap-backed and the fixed-capacity build. *)

From Stdlib Require Import Sorted.
From S2P Require Import Prelude Handshake.

(** A strict total order on keys, as [std::map] asks for. *)
Class KeyOrder (K : Type) := {
  key_lt : K -> K -> bool;
  key_lt_irrefl a : key_lt a a = false;
  key_lt_trans a b c : key_lt a b = true -> key_lt b c = true -> key_lt a c = true;
  key_lt_total a b : a <> b -> key_lt a b = true \/ key_lt b a = true;
}.

(** Iterating with a reference to the value is [tb_map]; [tb_modify] writes through a pointer
    that [find] returned; [None] is [fail_closed]. *)
Class PeerTable (K V T : Type) := {
  tb_empty : T;
  tb_find : K -> T -> option V;
  tb_at_or_insert : K -> T -> option T;
  tb_modify : K -> (V -> V) -> T -> T;
  tb_erase : K -> T -> T;
  tb_entries : T -> list (K * V);
  tb_map : (K -> V -> V) -> T -> T;
  tb_erase_if : (K -> V -> bool) -> T -> T;
  tb_erase_keys : (K -> bool) -> T -> T;
}.

Class LawfulTable (K V T : Type) `{!EqDecision K} (fresh : V) (PT : PeerTable K V T) := {
  tb_wf : T -> Prop;
  tb_wf_empty : tb_wf tb_empty;
  tb_find_empty k : tb_find k tb_empty = None;
  tb_entries_find t k v : tb_wf t -> (k, v) ∈ tb_entries t <-> tb_find k t = Some v;
  tb_entries_once t : tb_wf t -> NoDup (tb_entries t).*1;
  tb_insert_spec t k t' : tb_wf t -> tb_at_or_insert k t = Some t' ->
    tb_wf t' /\ forall k', tb_find k' t' = if decide (k' = k) then Some (default fresh (tb_find k t)) else tb_find k' t;
  tb_insert_known t k : tb_wf t -> is_Some (tb_find k t) -> tb_at_or_insert k t = Some t;
  tb_modify_spec t k f : tb_wf t ->
    tb_wf (tb_modify k f t) /\ forall k', tb_find k' (tb_modify k f t) = if decide (k' = k) then f <$> tb_find k t else tb_find k' t;
  tb_erase_spec t k : tb_wf t ->
    tb_wf (tb_erase k t) /\ forall k', tb_find k' (tb_erase k t) = if decide (k' = k) then None else tb_find k' t;
  tb_map_spec t f : tb_wf t -> tb_wf (tb_map f t) /\ forall k, tb_find k (tb_map f t) = f k <$> tb_find k t;
  tb_erase_if_spec t p : tb_wf t ->
    tb_wf (tb_erase_if p t) /\
    forall k, tb_find k (tb_erase_if p t) = v ← tb_find k t; if p k v then None else Some v;
  tb_erase_keys_spec t p : tb_wf t ->
    tb_wf (tb_erase_keys p t) /\
    forall k, tb_find k (tb_erase_keys p t) = if p k then None else tb_find k t;
}.

(** ** Association lists *)

Section Assoc.
Context {K V : Type} `{!EqDecision K}.
Implicit Types (l : list (K * V)) (k : K).

Fixpoint assoc_find k l : option V :=
  match l with
  | [] => None
  | (k', v) :: l => if decide (k' = k) then Some v else assoc_find k l
  end.

Definition assoc_modify k (f : V -> V) l : list (K * V) := map (fun x => if decide (x.1 = k) then (x.1, f x.2) else x) l.
Fixpoint assoc_drop (p : K -> V -> bool) l : list (K * V) :=
  match l with
  | [] => []
  | (k, v) :: l => if p k v then assoc_drop p l else (k, v) :: assoc_drop p l
  end.
Definition assoc_map (f : K -> V -> V) l : list (K * V) := map (fun x => (x.1, f x.1 x.2)) l.

Lemma assoc_find_elem l k v : NoDup l.*1 -> (k, v) ∈ l <-> assoc_find k l = Some v.
Proof.
  induction l as [|[k' v'] l IH]; cbn [fmap list_fmap assoc_find fst]; intros Hn.
  - split; [intros H; by apply elem_of_nil in H|done].
  - apply NoDup_cons in Hn as [Hk Hn]. rewrite elem_of_cons. case_decide as Hd.
    + subst. split; [|intros [= ->]; by left]. intros [ [= ->]|Hin]; [done|]. destruct Hk. apply list_elem_of_fmap. by exists (k, v).
    + rewrite <- IH by done. split; [intros [ [= -> ->]|?]; done|by right].
Qed.

Lemma assoc_find_none l k : assoc_find k l = None <-> k ∉ l.*1.
Proof.
  induction l as [|[k' v'] l IH]; cbn [fmap list_fmap assoc_find fst]; [split; [intros _; apply not_elem_of_nil|done]|].
  rewrite not_elem_of_cons. case_decide as Hd; [split; [done|intros [? _]; congruence]|]. rewrite IH. split; [intros; split; [congruence|done]|intros [_ ?]; done].
Qed.

Lemma assoc_modify_keys k f l : (assoc_modify k f l).*1 = l.*1.
Proof. unfold assoc_modify. induction l as [|x l IH]; cbn; [done|]. f_equal; [by case_decide|done]. Qed.

Lemma assoc_modify_find k f l k' : assoc_find k' (assoc_modify k f l) = if decide (k' = k) then f <$> assoc_find k l else assoc_find k' l.
Proof.
  induction l as [|[k2 v] l IH]; cbn; [by case_decide|].
  repeat (case_decide; subst; cbn; rewrite ?IH; try done; try congruence).
Qed.

Lemma assoc_map_keys f l : (assoc_map f l).*1 = l.*1.
Proof. unfold assoc_map. induction l as [|x l IH]; cbn; [done|]. by f_equal. Qed.

Lemma assoc_map_find f l k : assoc_find k (assoc_map f l) = f k <$> assoc_find k l.
Proof. induction l as [|[k2 v] l IH]; cbn; [done|]. case_decide; subst; done. Qed.

Lemma assoc_drop_find (p : K -> V -> bool) l k : NoDup l.*1 -> assoc_find k (assoc_drop p l) = v ← assoc_find k l; if p k v then None else Some v.
Proof.
  induction l as [|[k' v'] l IH]; [done|]. cbn [fmap list_fmap fst]. intros Hn. apply NoDup_cons in Hn as [Hk Hn]. cbn [assoc_drop assoc_find].
  destruct (p k' v') eqn:Ep.
  - rewrite IH by done. case_decide as Hd; [subst; cbn; rewrite Ep|done]. by rewrite (proj2 (assoc_find_none l k) Hk).
  - cbn [assoc_find]. case_decide as Hd; [subst; cbn; by rewrite Ep|by apply IH].
Qed.

Lemma assoc_drop_keys (p : K -> V -> bool) l : sublist (assoc_drop p l).*1 l.*1.
Proof.
  induction l as [|[k v] l IH]; [done|]. cbn [assoc_drop]. destruct (p k v); cbn [fmap list_fmap fst]; [by apply sublist_cons|by apply sublist_skip].
Qed.

Lemma assoc_drop_nodup (p : K -> V -> bool) l : NoDup l.*1 -> NoDup (assoc_drop p l).*1.
Proof. intros H. eapply sublist_NoDup; [done|]. apply assoc_drop_keys. Qed.
End Assoc.

(** ** What an iteration reports of one key *)

Lemma filter_all {E} (P : E -> bool) l : (forall x, x ∈ l -> P x = true) -> List.filter P l = l.
Proof. induction l as [|x l IH]; intros H; [done|]. cbn. rewrite H by left. f_equal. apply IH. intros y Hy. apply H. by right. Qed.
Lemma filter_no {E} (P : E -> bool) l : (forall x, x ∈ l -> P x = false) -> List.filter P l = [].
Proof. induction l as [|x l IH]; intros H; [done|]. cbn. rewrite H by left. apply IH. intros y Hy. apply H. by right. Qed.

Section Reports.
Context {K V E : Type} `{!EqDecision K}.

Lemma reports_of (f : K -> V -> list E) (sel : E -> bool) (l : list (K * V)) k :
  (forall k' v e, e ∈ f k' v -> sel e = bool_decide (k' = k)) -> NoDup l.*1 ->
  List.filter sel (concat (map (fun x => f x.1 x.2) l)) = match assoc_find k l with Some v => f k v | None => [] end.
Proof.
  intros Hf. induction l as [|[k' v] l IH]; [done|]. cbn [fmap list_fmap fst map concat assoc_find]. intros Hn. apply NoDup_cons in Hn as [Hk Hn].
  rewrite List.filter_app. cbn [snd]. destruct (decide (k' = k)) as [->|Hne].
  - rewrite filter_all by (intros x Hx; rewrite (Hf k v x Hx); by apply bool_decide_eq_true). rewrite IH by done.
    rewrite (proj2 (assoc_find_none l k) Hk). apply app_nil_r.
  - rewrite filter_no by (intros x Hx; rewrite (Hf k' v x Hx); by apply bool_decide_eq_false). by apply IH.
Qed.

Context {T : Type} {fresh : V} {PT : PeerTable K V T} {LT : LawfulTable K V T fresh PT}.

Lemma entries_find t k : tb_wf (LawfulTable := LT) t -> assoc_find k (tb_entries t) = tb_find k t.
Proof.
  intros Hw. destruct (assoc_find k (tb_entries t)) as [v|] eqn:Ea.
  - symmetry. apply (tb_entries_find t k v Hw). by apply assoc_find_elem; [apply (tb_entries_once (LawfulTable := LT))|].
  - destruct (tb_find k t) as [v|] eqn:Ef; [|done]. apply (tb_entries_find t k v Hw) in Ef.
    apply assoc_find_elem in Ef; [congruence|by apply (tb_entries_once (LawfulTable := LT))].
Qed.

(** The reports of one key when the whole table is visited. *)
Lemma table_reports (f : K -> V -> list E) (sel : E -> bool) t k :
  tb_wf (LawfulTable := LT) t -> (forall k' v e, e ∈ f k' v -> sel e = bool_decide (k' = k)) ->
  List.filter sel (concat (map (fun x => f x.1 x.2) (tb_entries t))) = match tb_find k t with Some v => f k v | None => [] end.
Proof. intros Hw Hf. rewrite (reports_of f sel _ k Hf) by by apply (tb_entries_once (LawfulTable := LT)). by rewrite entries_find. Qed.

(** A key that is made present and then written. *)
Lemma upsert_spec (t : T) (k : K) (g : V -> V) (t' : T) : tb_wf (LawfulTable := LT) t -> tb_at_or_insert k t = Some t' ->
  tb_wf (LawfulTable := LT) (tb_modify k g t') /\
  forall k', tb_find k' (tb_modify k g t') = if decide (k' = k) then Some (g (default fresh (tb_find k' t))) else tb_find k' t.
Proof.
  intros Hw Hi. destruct (tb_insert_spec _ _ _ Hw Hi) as [Hw1 H1]. destruct (tb_modify_spec t' k g Hw1) as [Hw2 H2]. split; [done|].
  intros k'. rewrite H2, !H1. case_decide; subst; [by rewrite decide_True by done|done].
Qed.
End Reports.

(** ** [std::map]: kept sorted by key, iterated in that order *)

Section StdMap.
Context {K V : Type} `{!EqDecision K} `{!KeyOrder K} (fresh : V).

Definition std_map : Type := list (K * V).

(** [m_table[key]]. *)
Fixpoint map_insert (k : K) (l : std_map) : std_map :=
  match l with
  | [] => [(k, fresh)]
  | (k', v) :: l' => if decide (k' = k) then l else if key_lt k k' then (k, fresh) :: l else (k', v) :: map_insert k l'
  end.

Instance std_map_table : PeerTable K V std_map := {
  tb_empty := [];
  tb_find := assoc_find;
  tb_at_or_insert k l := Some (map_insert k l);
  tb_modify := assoc_modify;
  tb_erase k := assoc_drop (fun k' _ => bool_decide (k' = k));
  tb_entries l := l;
  tb_map := assoc_map;
  tb_erase_if := assoc_drop;
  tb_erase_keys p := assoc_drop (fun k _ => p k);
}.

Definition map_sorted (l : std_map) : Prop := StronglySorted (fun a b => key_lt a b = true) l.*1.

Lemma map_sorted_nodup l : map_sorted l -> NoDup l.*1.
Proof.
  unfold map_sorted. induction 1 as [|k ks Hs IH Hf]; [apply NoDup_nil_2|]. apply NoDup_cons. split; [|done].
  intros Hin. rewrite Forall_forall in Hf. specialize (Hf k Hin). by rewrite key_lt_irrefl in Hf.
Qed.

Lemma map_insert_find k l k' : map_sorted l ->
  assoc_find k' (map_insert k l) = if decide (k' = k) then Some (default fresh (assoc_find k l)) else assoc_find k' l.
Proof.
  unfold map_sorted. induction l as [|[k2 v] l IH]; cbn [fmap list_fmap fst map_insert assoc_find]; intros Hs.
  - repeat case_decide; congruence || done.
  - inversion Hs as [|? ? Hs' Hf]; subst. destruct (decide (k2 = k)) as [->|Hne].
    + cbn [assoc_find]. repeat case_decide; congruence || done.
    + destruct (key_lt k k2) eqn:El; cbn [assoc_find].
      * destruct (decide (k = k')) as [->|Hk]; [|by rewrite (decide_False (P := k' = k)) by congruence].
        rewrite !(decide_True (P := k' = k')) by done. rewrite (proj2 (assoc_find_none l k')); [done|]. intros Hin. rewrite Forall_forall in Hf.
        pose proof (key_lt_trans _ _ _ El (Hf k' Hin)) as Hc. by rewrite key_lt_irrefl in Hc.
      * rewrite IH by done. repeat case_decide; congruence || done.
Qed.

Lemma map_insert_keys k l : forall x, x ∈ (map_insert k l).*1 -> x = k \/ x ∈ l.*1.
Proof.
  induction l as [|[k2 v] l IH]; cbn [map_insert]; intros x.
  - cbn. rewrite list_elem_of_singleton. auto.
  - case_decide as Hd; [auto|]. destruct (key_lt k k2); cbn [fmap list_fmap fst]; rewrite !elem_of_cons; [tauto|].
    intros [->|Hin]; [auto|]. destruct (IH x Hin); auto.
Qed.

Lemma map_insert_sorted k l : map_sorted l -> map_sorted (map_insert k l).
Proof.
  unfold map_sorted. induction l as [|[k2 v] l IH]; cbn [fmap list_fmap fst map_insert]; intros Hs; [by repeat constructor|].
  inversion Hs as [|? ? Hs' Hf]; subst. destruct (decide (k2 = k)) as [->|Hne]; [done|]. destruct (key_lt k k2) eqn:El; cbn [fmap list_fmap fst].
  - constructor; [done|]. constructor; [done|]. eapply Forall_impl; [exact Hf|]. intros x Hx. by eapply key_lt_trans.
  - constructor; [by apply IH|]. apply Forall_forall. intros x Hin. rewrite Forall_forall in Hf.
    destruct (map_insert_keys k l x Hin) as [->|Hx]; [|by apply Hf]. destruct (key_lt_total k k2) as [H|H]; congruence.
Qed.

Lemma sorted_sublist (l l' : list K) :
  sublist l l' -> StronglySorted (fun a b => key_lt a b = true) l' -> StronglySorted (fun a b => key_lt a b = true) l.
Proof.
  induction 1 as [|x l l' Hs IH|x l l' Hs IH]; intros H; [constructor|inversion H; subst..]; [|by apply IH].
  constructor; [by apply IH|]. apply Forall_forall. intros y Hy. rewrite Forall_forall in H3. apply H3. by eapply elem_of_sublist.
Qed.

Lemma map_drop_sorted p l : map_sorted l -> map_sorted (assoc_drop p l).
Proof. apply sorted_sublist, assoc_drop_keys. Qed.

Instance std_map_lawful : LawfulTable K V std_map fresh std_map_table.
Proof.
  refine {| tb_wf := map_sorted |}; cbn.
  - constructor.
  - done.
  - intros t k v Hs. by apply assoc_find_elem, map_sorted_nodup.
  - apply map_sorted_nodup.
  - intros t k t' Hs [= <-]. split; [by apply map_insert_sorted|]. intros k'. by apply map_insert_find.
  - intros t k Hs Hk. f_equal. unfold map_sorted in Hs. induction t as [|[k2 v] t IH]; [by destruct Hk|]. cbn [map_insert]. cbn [assoc_find] in Hk.
    cbn [fmap list_fmap fst] in Hs. inversion Hs as [|? ? Hs' Hf]; subst. case_decide as Hd; [done|].
    destruct (key_lt k k2) eqn:El; [|f_equal; by apply IH]. exfalso. destruct Hk as [w Hw].
    assert (k ∈ t.*1) as Hin. { destruct (decide (k ∈ t.*1)) as [|Hn]; [done|]. apply assoc_find_none in Hn. congruence. }
    rewrite Forall_forall in Hf. pose proof (key_lt_trans _ _ _ El (Hf k Hin)) as Hc. by rewrite key_lt_irrefl in Hc.
  - intros t k f Hs. split; [by unfold map_sorted; rewrite assoc_modify_keys|]. intros k'. apply assoc_modify_find.
  - intros t k Hs. split; [by apply map_drop_sorted|]. intros k'. rewrite assoc_drop_find by by apply map_sorted_nodup.
    destruct (assoc_find k' t); cbn; repeat case_decide; try case_bool_decide; congruence || done.
  - intros t f Hs. split; [by unfold map_sorted; rewrite assoc_map_keys|]. intros k. apply assoc_map_find.
  - intros t p Hs. split; [by apply map_drop_sorted|]. intros k. by apply assoc_drop_find, map_sorted_nodup.
  - intros t p Hs. split; [by apply map_drop_sorted|]. intros k. rewrite assoc_drop_find by by apply map_sorted_nodup.
    by destruct (assoc_find k t); cbn; destruct (p k).
Qed.
End StdMap.

(** ** [fixed_flat_map]: an array of slots, scanned from the front *)

Section FlatMap.
Context {K V : Type} `{!EqDecision K} (fresh : V).

Record flat_slot : Type := FlatSlot { fs_key : K; fs_value : V; fs_occupied : bool }.
Definition fixed_flat_map : Type := list flat_slot.
Implicit Types (l : fixed_flat_map) (k : K).

Definition fs_holds k (s : flat_slot) : bool := fs_occupied s && bool_decide (fs_key s = k).

Fixpoint fm_find k l : option V :=
  match l with
  | [] => None
  | s :: l => if fs_holds k s then Some (fs_value s) else fm_find k l
  end.

Fixpoint fm_take_free k l : option fixed_flat_map :=
  match l with
  | [] => None
  | s :: l => if fs_occupied s then l ← fm_take_free k l; Some (s :: l) else Some (FlatSlot k fresh true :: l)
  end.

Definition fm_at_or_insert k l : option fixed_flat_map :=
  match fm_find k l with Some _ => Some l | None => fm_take_free k l end.

(** A write through the pointer to the located slot. *)
Fixpoint fm_located k (f : flat_slot -> flat_slot) l : fixed_flat_map :=
  match l with
  | [] => []
  | s :: l => if fs_holds k s then f s :: l else s :: fm_located k f l
  end.
Definition fm_modify k (f : V -> V) : fixed_flat_map -> fixed_flat_map :=
  fm_located k (fun s => FlatSlot (fs_key s) (f (fs_value s)) (fs_occupied s)).
Definition fm_erase k : fixed_flat_map -> fixed_flat_map := fm_located k (fun s => FlatSlot (fs_key s) (fs_value s) false).

Definition fm_entries l : list (K * V) := omap (fun s => if fs_occupied s then Some (fs_key s, fs_value s) else None) l.

Definition fm_map (f : K -> V -> V) l : fixed_flat_map :=
  map (fun s => if fs_occupied s then FlatSlot (fs_key s) (f (fs_key s) (fs_value s)) true else s) l.

(** [erase_if] of the map: by key. *)
Definition fm_erase_keys (p : K -> bool) l : fixed_flat_map :=
  map (fun s => if fs_occupied s && p (fs_key s) then FlatSlot (fs_key s) (fs_value s) false else s) l.

(** [erase_if] of the storage: an [erase] from within [for_each]. *)
Definition fm_erase_if (p : K -> V -> bool) l : fixed_flat_map :=
  fold_left (fun l x => if p x.1 x.2 then fm_erase x.1 l else l) (fm_entries l) l.

Instance flat_map_table (n : nat) (k0 : K) : PeerTable K V fixed_flat_map := {
  tb_empty := replicate n (FlatSlot k0 fresh false);
  tb_find := fm_find;
  tb_at_or_insert := fm_at_or_insert;
  tb_modify := fm_modify;
  tb_erase := fm_erase;
  tb_entries := fm_entries;
  tb_map := fm_map;
  tb_erase_if := fm_erase_if;
  tb_erase_keys := fm_erase_keys;
}.

Definition fm_wf l : Prop := NoDup (fm_entries l).*1.

Lemma fm_find_entries k l : fm_find k l = assoc_find k (fm_entries l).
Proof.
  induction l as [|[k' v o] l IH]; [done|]. cbn [fm_find fm_entries omap list_omap]. unfold fs_holds. cbn [fs_occupied fs_key fs_value].
  destruct o; cbn [andb]; [|exact IH]. cbn [assoc_find]. case_bool_decide; case_decide; congruence || done.
Qed.

Lemma fm_take_free_entries k l l' : fm_take_free k l = Some l' ->
  exists a b, fm_entries l = a ++ b /\ fm_entries l' = a ++ (k, fresh) :: b.
Proof.
  revert l'. induction l as [|[k' v o] l IH]; intros l'; cbn [fm_take_free]; [done|]. cbn [fs_occupied]. destruct o.
  - destruct (fm_take_free k l) as [l1|]; [|done]. cbn. intros [= <-]. destruct (IH l1 eq_refl) as (a & b & H1 & H2).
    exists ((k', v) :: a), b. cbn. unfold fm_entries in H1, H2. by rewrite H1, H2.
  - intros [= <-]. by exists [], (fm_entries l).
Qed.

Lemma assoc_find_middle (a b : list (K * V)) k v k' : k ∉ (a ++ b).*1 ->
  assoc_find k' (a ++ (k, v) :: b) = if decide (k' = k) then Some v else assoc_find k' (a ++ b).
Proof.
  induction a as [|[k2 w] a IH]; cbn [app assoc_find fmap list_fmap fst]; intros Hn.
  - repeat case_decide; congruence || done.
  - apply not_elem_of_cons in Hn as [Hne Hn]. rewrite IH by done. repeat case_decide; congruence || done.
Qed.

Lemma assoc_drop_none (p : K -> V -> bool) (l : list (K * V)) : (forall k v, (k, v) ∈ l -> p k v = false) -> assoc_drop p l = l.
Proof.
  induction l as [|[k v] l IH]; intros H; [done|]. cbn [assoc_drop]. rewrite H by left. f_equal. apply IH. intros k' v' Hin. apply H. by right.
Qed.

Lemma assoc_modify_none k f (l : list (K * V)) : k ∉ l.*1 -> assoc_modify k f l = l.
Proof.
  unfold assoc_modify. induction l as [|[k' v] l IH]; cbn; [done|]. intros Hn. apply not_elem_of_cons in Hn as [Hne Hn].
  rewrite decide_False by congruence. f_equal. by apply IH.
Qed.

Lemma fm_entries_cons s l : fm_entries (s :: l) = (if fs_occupied s then [(fs_key s, fs_value s)] else []) ++ fm_entries l.
Proof. unfold fm_entries. cbn. by destruct (fs_occupied s). Qed.

Lemma fm_wf_cons s l : fm_wf (s :: l) -> fm_wf l /\ (fs_occupied s = true -> fs_key s ∉ (fm_entries l).*1).
Proof. unfold fm_wf. rewrite fm_entries_cons. destruct (fs_occupied s); cbn; [rewrite NoDup_cons|]; naive_solver. Qed.

Lemma fs_holds_true k s : fs_holds k s = true <-> fs_occupied s = true /\ fs_key s = k.
Proof. unfold fs_holds. by rewrite andb_true_iff, bool_decide_eq_true. Qed.

Lemma fm_modify_entries k f l : fm_wf l -> fm_entries (fm_modify k f l) = assoc_modify k f (fm_entries l).
Proof.
  unfold fm_modify. induction l as [|s l IH]; intros Hw; [done|]. apply fm_wf_cons in Hw as [Hw Hn]. cbn [fm_located]. destruct (fs_holds k s) eqn:Eh.
  - apply fs_holds_true in Eh as [Eo Ek]. rewrite !fm_entries_cons. cbn [fs_occupied fs_key fs_value]. rewrite Eo. cbn. rewrite decide_True by done.
    f_equal. symmetry. apply assoc_modify_none. rewrite <- Ek. auto.
  - rewrite !fm_entries_cons, IH by done. destruct (fs_occupied s) eqn:Eo; [|done]. cbn. rewrite decide_False; [done|]. intros Ek.
    assert (fs_holds k s = true) by (by apply fs_holds_true). congruence.
Qed.

Lemma fm_erase_entries k l : fm_wf l -> fm_entries (fm_erase k l) = assoc_drop (fun k' _ => bool_decide (k' = k)) (fm_entries l).
Proof.
  unfold fm_erase. induction l as [|s l IH]; intros Hw; [done|]. apply fm_wf_cons in Hw as [Hw Hn]. cbn [fm_located]. destruct (fs_holds k s) eqn:Eh.
  - apply fs_holds_true in Eh as [Eo Ek]. rewrite !fm_entries_cons. cbn [fs_occupied]. rewrite Eo. cbn. rewrite bool_decide_true by done.
    symmetry. apply assoc_drop_none. intros k' v Hin. apply bool_decide_eq_false. intros ->. apply Hn; [done|]. rewrite Ek. apply list_elem_of_fmap. by exists (k, v).
  - rewrite !fm_entries_cons, IH by done. destruct (fs_occupied s) eqn:Eo; [|done]. cbn. rewrite bool_decide_false; [done|]. intros Ek.
    assert (fs_holds k s = true) by (by apply fs_holds_true). congruence.
Qed.

Lemma fm_map_entries f l : fm_entries (fm_map f l) = assoc_map f (fm_entries l).
Proof.
  unfold fm_map. induction l as [|s l IH]; [done|]. cbn [map]. rewrite !fm_entries_cons, IH. by destruct (fs_occupied s) eqn:Eo; cbn; rewrite ?Eo.
Qed.

Lemma fm_erase_keys_entries p l : fm_entries (fm_erase_keys p l) = assoc_drop (fun k _ => p k) (fm_entries l).
Proof.
  unfold fm_erase_keys. induction l as [|s l IH]; [done|]. cbn [map]. rewrite !fm_entries_cons, IH.
  destruct (fs_occupied s) eqn:Eo; cbn [andb]; [|by rewrite Eo]. destruct (p (fs_key s)) eqn:Ep; cbn; by rewrite ?Eo, ?Ep.
Qed.

Lemma fm_erase_wf k l : fm_wf l -> fm_wf (fm_erase k l).
Proof. intros Hw. unfold fm_wf. rewrite fm_erase_entries by done. by apply assoc_drop_nodup. Qed.

Lemma assoc_drop_drop (p q : K -> V -> bool) (l : list (K * V)) : assoc_drop q (assoc_drop p l) = assoc_drop (fun k v => p k v || q k v) l.
Proof.
  induction l as [|[k v] l IH]; [done|]. cbn [assoc_drop]. destruct (p k v); cbn [orb]; [done|]. cbn [assoc_drop]. by rewrite IH.
Qed.

Lemma assoc_drop_ext (p q : K -> V -> bool) (l : list (K * V)) : (forall k v, (k, v) ∈ l -> p k v = q k v) -> assoc_drop p l = assoc_drop q l.
Proof.
  induction l as [|[k v] l IH]; intros H; [done|]. cbn [assoc_drop]. rewrite (H k v) by left.
  rewrite IH by (intros k' v' Hin; apply H; by right). done.
Qed.

Lemma fm_fold_erase (p : K -> V -> bool) es : forall l, fm_wf l ->
  fm_entries (fold_left (fun l x => if p x.1 x.2 then fm_erase x.1 l else l) es l) =
    assoc_drop (fun k _ => existsb (fun x => p x.1 x.2 && bool_decide (k = x.1)) es) (fm_entries l) /\
  fm_wf (fold_left (fun l x => if p x.1 x.2 then fm_erase x.1 l else l) es l).
Proof.
  induction es as [|[k v] es IH]; intros l Hw; cbn [fold_left existsb fst snd].
  - split; [|done]. symmetry. by apply assoc_drop_none.
  - destruct (p k v) eqn:Ep; cbn [andb orb].
    + destruct (IH (fm_erase k l) (fm_erase_wf k l Hw)) as [-> Hw']. split; [|done]. by rewrite fm_erase_entries, assoc_drop_drop.
    + by apply IH.
Qed.

Lemma fm_erase_if_entries (p : K -> V -> bool) l : fm_wf l -> fm_entries (fm_erase_if p l) = assoc_drop p (fm_entries l) /\ fm_wf (fm_erase_if p l).
Proof.
  intros Hw. unfold fm_erase_if. destruct (fm_fold_erase p (fm_entries l) l Hw) as [-> Hw']. split; [|done].
  apply assoc_drop_ext. intros k v Hin. apply eq_true_iff_eq. rewrite existsb_exists. split.
  - intros ([k' v'] & Hin' & He). cbn in He. apply andb_prop in He as [Hp Hk]. apply bool_decide_eq_true in Hk as ->.
    apply list_elem_of_In in Hin'. apply (assoc_find_elem _ _ _ Hw) in Hin, Hin'. congruence.
  - intros Hp. exists (k, v). split; [by apply list_elem_of_In|]. cbn. rewrite Hp. by apply bool_decide_eq_true.
Qed.

Instance flat_map_lawful n k0 : LawfulTable K V fixed_flat_map fresh (flat_map_table n k0).
Proof.
  refine {| tb_wf := fm_wf |}; cbn [tb_empty tb_find tb_at_or_insert tb_modify tb_erase tb_entries tb_map tb_erase_if tb_erase_keys flat_map_table].
  - unfold fm_wf. assert (fm_entries (replicate n (FlatSlot k0 fresh false)) = []) as -> by (by induction n). apply NoDup_nil_2.
  - intros k. by induction n.
  - intros t k v Hw. rewrite fm_find_entries. by apply assoc_find_elem.
  - done.
  - intros t k t' Hw. unfold fm_at_or_insert. rewrite !fm_find_entries. destruct (assoc_find k (fm_entries t)) as [v|] eqn:Ef.
    + intros [= <-]. split; [done|]. intros k'. rewrite fm_find_entries. case_decide; subst; done.
    + intros Ht. destruct (fm_take_free_entries k t t' Ht) as (a & b & H1 & H2). apply assoc_find_none in Ef. rewrite H1 in Ef. unfold fm_wf in *.
      split.
      * rewrite H2. rewrite H1 in Hw. rewrite fmap_app in *. cbn. apply NoDup_app in Hw as (W1 & W2 & W3). apply not_elem_of_app in Ef as [E1 E2].
        apply NoDup_app. split_and!; [done| |by apply NoDup_cons]. intros x Hx. rewrite not_elem_of_cons. split; [congruence|auto].
      * intros k'. rewrite !fm_find_entries, H1, H2. by apply assoc_find_middle.
  - intros t k Hw [v Hv]. unfold fm_at_or_insert. by rewrite Hv.
  - intros t k f Hw. unfold fm_wf. rewrite fm_modify_entries, assoc_modify_keys by done. split; [done|]. intros k'.
    rewrite !fm_find_entries, fm_modify_entries by done. apply assoc_modify_find.
  - intros t k Hw. split; [by apply fm_erase_wf|]. intros k'. rewrite !fm_find_entries, fm_erase_entries, assoc_drop_find by done.
    destruct (assoc_find k' (fm_entries t)); cbn; repeat case_decide; try case_bool_decide; congruence || done.
  - intros t f Hw. unfold fm_wf. rewrite fm_map_entries, assoc_map_keys. split; [done|]. intros k. rewrite !fm_find_entries, fm_map_entries. apply assoc_map_find.
  - intros t p Hw. destruct (fm_erase_if_entries p t Hw) as [He Hw']. split; [done|]. intros k. rewrite !fm_find_entries, He. by apply assoc_drop_find.
  - intros t p Hw. split; [unfold fm_wf; rewrite fm_erase_keys_entries; by apply assoc_drop_nodup|]. intros k.
    rewrite !fm_find_entries, fm_erase_keys_entries, assoc_drop_find by done. by destruct (assoc_find k (fm_entries t)); cbn; destruct (p k).
Qed.

(** The table refuses exactly the key that is new when every slot is taken. *)
Lemma fm_refuses k l : fm_at_or_insert k l = None <-> fm_find k l = None /\ Forall (fun s => fs_occupied s = true) l.
Proof.
  unfold fm_at_or_insert. destruct (fm_find k l); [naive_solver|]. split; [intros H; split; [done|]|intros [_ H] ].
  - induction l as [|s l IH]; [constructor|]. cbn [fm_take_free] in H. destruct (fs_occupied s) eqn:Eo; [|done].
    destruct (fm_take_free k l); [done|]. constructor; auto.
  - induction H as [|s l Eo _ IH]; [done|]. cbn [fm_take_free]. by rewrite Eo, IH.
Qed.
End FlatMap.

(** ** The order of node identities *)

Lemma node_gt_irrefl a : node_gt a a = false.
Proof. induction a as [|x a IH]; [done|]. cbn [node_gt]. by rewrite Z.ltb_irrefl. Qed.

Lemma node_gt_trans a : forall b c, node_gt b a = true -> node_gt c b = true -> node_gt c a = true.
Proof.
  induction a as [|x a IH]; intros [|y b] [|z c]; cbn [node_gt]; try done.
  destruct (Z.ltb_spec ⟦x⟧ ⟦y⟧), (Z.ltb_spec ⟦y⟧ ⟦z⟧), (Z.ltb_spec ⟦y⟧ ⟦x⟧), (Z.ltb_spec ⟦z⟧ ⟦y⟧), (Z.ltb_spec ⟦x⟧ ⟦z⟧), (Z.ltb_spec ⟦z⟧ ⟦x⟧); try lia; try done.
  apply IH.
Qed.

Lemma node_gt_total a : forall b, a <> b -> node_gt b a = true \/ node_gt a b = true.
Proof.
  induction a as [|x a IH]; intros [|y b] Hne; cbn [node_gt]; try done; [by left|by right|].
  destruct (Z.ltb_spec ⟦x⟧ ⟦y⟧), (Z.ltb_spec ⟦y⟧ ⟦x⟧); try lia.
  apply IH. intros ->. apply Hne. f_equal. apply byte.unsigned_inj. lia.
Qed.

#[global] Instance node_order : KeyOrder node_id := {
  key_lt a b := node_gt b a;
  key_lt_irrefl := node_gt_irrefl;
  key_lt_trans := node_gt_trans;
  key_lt_total := node_gt_total;
}.

(** [std::pair<node_id, std::uint64_t>] *)
Definition deadline_key : Type := (node_id * Z)%type.

#[global] Program Instance deadline_order : KeyOrder deadline_key := {
  key_lt a b := node_gt b.1 a.1 || (bool_decide (a.1 = b.1) && (a.2 <? b.2));
}.
Next Obligation. intros [a x]. cbn. rewrite node_gt_irrefl, Z.ltb_irrefl. by rewrite andb_false_r. Qed.
Next Obligation.
  intros [a x] [b y] [c z]. cbn. rewrite !orb_true_iff, !andb_true_iff, !bool_decide_eq_true, !Z.ltb_lt.
  intros [H1|[-> H1] ] [H2|[-> H2] ]; [left; by eapply node_gt_trans|by left|by left|right; split; [done|lia] ].
Qed.
Next Obligation.
  intros [a x] [b y] Hne. cbn. rewrite !orb_true_iff, !andb_true_iff, !bool_decide_eq_true, !Z.ltb_lt.
  destruct (decide (a = b)) as [->|Hd].
  - assert (x <> y) by congruence. destruct (Z.lt_trichotomy x y) as [?|[?|?] ]; [|lia|]; auto.
  - destruct (node_gt_total a b Hd); auto.
Qed.
