(* ===== verification/Liveliness.v ===== *)
(** * Awareness, liveliness and liveness

    [known_peers.h], [fixed_peer_storage.h], [peer_liveliness.h], [detail/liveliness_fuse.h],
    [liveliness_options.h], [liveliness_monitor.h] and [detail/liveliness_scan.h] of
    [lib/plexus-core/include/plexus/io/].  Everything takes the time from its caller.  The
    classes are templates over their storage; here they are over a [PeerTable]. *)

From S2P Require Import Prelude Handshake PeerTables.

(** ** [known_peers.h] *)

Definition default_discovery_ttl_ns : Z := 15000000000.

Record endpoint : Type := Endpoint { ep_scheme : bytes; ep_address : bytes }.
#[global] Instance endpoint_eq_dec : EqDecision endpoint.
Proof. solve_decision. Defined.

Record peer_record : Type := PeerRecord { pr_ep : endpoint; pr_last_refreshed : Z }.
Definition fresh_record : peer_record := PeerRecord (Endpoint [] []) 0.

Section Known.
Context {T : Type} `{PT : !PeerTable node_id peer_record T}.

Definition note_peer (id : node_id) (ep : endpoint) (now : Z) (t : T) : option T :=
  t ← tb_at_or_insert id t; Some (tb_modify id (fun _ => PeerRecord ep now) t).
Definition refresh (id : node_id) (now : Z) (t : T) : T := tb_modify id (fun r => PeerRecord (pr_ep r) now) t.
Definition lookup_peer (id : node_id) (t : T) : option endpoint := pr_ep <$> tb_find id t.
Definition contains (id : node_id) (t : T) : bool := bool_decide (is_Some (tb_find id t)).
Definition forget (id : node_id) (t : T) : T := tb_erase id t.

(** The reports, in the order of the table, and the table without them. *)
Definition expire_older_than (deadline : Z) (t : T) : list node_id * T :=
  (map fst (List.filter (fun x => pr_last_refreshed x.2 <? deadline) (tb_entries t)),
   tb_erase_if (fun _ r => pr_last_refreshed r <? deadline) t).
End Known.

(** ** [liveliness_options.h], [peer_liveliness_event.h], [liveliness_peer_storage.h] *)

Inductive combine : Type := any_signal_alive | session_authoritative | all_required.

Record liveliness_options : Type := LivelinessOptions {
  lo_awareness_ttl : Z;              (** nanoseconds *)
  lo_heartbeat_interval : Z;         (** milliseconds *)
  lo_heartbeat_miss_limit : Z;
  lo_policy : combine;
}.
Definition default_liveliness_options : liveliness_options := LivelinessOptions default_discovery_ttl_ns 100 5 any_signal_alive.

Inductive liveliness_verdict : Type := verdict_alive | verdict_lost.
Definition sig_none : Z := 0.
Definition sig_awareness : Z := 1.
Definition sig_heartbeat : Z := 2.
Definition sig_session : Z := 4.

Record peer_liveliness_event : Type := PeerLivelinessEvent { pe_id : node_id; pe_verdict : liveliness_verdict; pe_contributing : Z }.

Inductive session_presence : Type := sp_absent | sp_up | sp_down.
#[global] Instance session_presence_eq_dec : EqDecision session_presence.
Proof. solve_decision. Defined.

Record peer_state : Type := PeerState {
  ps_last_heartbeat_ns : Z;
  ps_dropped_at_ns : Z;
  ps_session : session_presence;
  ps_aware : bool;
  ps_alive_latched : bool;
  ps_verdict_seen : bool;
}.
Definition fresh_peer : peer_state := PeerState 0 0 sp_absent false false false.

(** ** [detail/liveliness_fuse.h] *)

Record signal_view : Type := SignalView { sv_session_up : bool; sv_session_seen : bool; sv_aware : bool; sv_hb_fresh : bool; sv_hb_seen : bool }.
Inductive fuse_outcome : Type := fo_alive | fo_lost | fo_no_verdict.

Definition fuse_any_signal_alive (sv : signal_view) : fuse_outcome :=
  if sv_session_up sv || sv_aware sv || sv_hb_fresh sv then fo_alive else fo_lost.
Definition fuse_session_authoritative (sv : signal_view) : fuse_outcome :=
  if sv_session_up sv then fo_alive else if sv_session_seen sv then fo_lost else fo_no_verdict.
Definition fuse_all_required (sv : signal_view) : fuse_outcome :=
  if negb (sv_session_seen sv) && negb (sv_hb_seen sv) && negb (sv_aware sv) then fo_no_verdict
  else if (negb (sv_session_seen sv) || sv_session_up sv) && (negb (sv_hb_seen sv) || sv_hb_fresh sv) then fo_alive else fo_lost.

Definition fuse_signals (policy : combine) (sv : signal_view) : fuse_outcome :=
  match policy with
  | any_signal_alive => fuse_any_signal_alive sv
  | session_authoritative => fuse_session_authoritative sv
  | all_required => fuse_all_required sv
  end.

Definition add_signal (on : bool) (signal mask : Z) : Z := if on then Z.lor mask signal else mask.
Definition contributing_mask (sv : signal_view) (outcome : fuse_outcome) : Z :=
  match outcome with
  | fo_alive =>
      add_signal (sv_session_up sv) sig_session (add_signal (sv_hb_fresh sv) sig_heartbeat (add_signal (sv_aware sv) sig_awareness sig_none))
  | _ =>
      add_signal (sv_hb_seen sv && negb (sv_hb_fresh sv)) sig_heartbeat
        (add_signal (sv_session_seen sv && negb (sv_session_up sv)) sig_session sig_none)
  end.

(** ** [class peer_liveliness] *)

Definition miss_window (opts : liveliness_options) : Z :=
  wrap 64 (lo_heartbeat_miss_limit opts * wrap 64 (lo_heartbeat_interval opts * 1000000)).

Definition derive (window now_ns : Z) (st : peer_state) : signal_view :=
  let hb_seen := negb (ps_last_heartbeat_ns st =? 0) && (ps_dropped_at_ns st <? ps_last_heartbeat_ns st) in
  let hb_fresh := hb_seen && (wrap 64 (now_ns - ps_last_heartbeat_ns st) <=? window) in
  SignalView (bool_decide (ps_session st = sp_up)) (bool_decide (ps_session st <> sp_absent)) (ps_aware st) hb_fresh hb_seen.

Definition set_heartbeat (now : Z) (st : peer_state) : peer_state :=
  PeerState now (ps_dropped_at_ns st) (ps_session st) (ps_aware st) (ps_alive_latched st) (ps_verdict_seen st).
Definition set_aware (aware : bool) (st : peer_state) : peer_state :=
  PeerState (ps_last_heartbeat_ns st) (ps_dropped_at_ns st) (ps_session st) aware (ps_alive_latched st) (ps_verdict_seen st).
Definition set_session (p : session_presence) (dropped_at : Z) (st : peer_state) : peer_state :=
  PeerState (ps_last_heartbeat_ns st) dropped_at p (ps_aware st) (ps_alive_latched st) (ps_verdict_seen st).
Definition set_latch (alive : bool) (st : peer_state) : peer_state :=
  PeerState (ps_last_heartbeat_ns st) (ps_dropped_at_ns st) (ps_session st) (ps_aware st) alive true.

Record arbiter_config : Type := ArbiterConfig { ac_window : Z; ac_policy : combine; ac_on_verdict : bool }.

(** [settle] with [emit]: the new state and the event for a subscriber. *)
Definition settle (cfg : arbiter_config) (subscribers now_ns : Z) (id : node_id) (st : peer_state) : list peer_liveliness_event * peer_state :=
  let sv := derive (ac_window cfg) now_ns st in
  let outcome := fuse_signals (ac_policy cfg) sv in
  match outcome with
  | fo_no_verdict => ([], st)
  | _ =>
      let alive := match outcome with fo_alive => true | _ => false end in
      if ps_verdict_seen st && Bool.eqb alive (ps_alive_latched st) then ([], st)
      else
        ((if (subscribers =? 0) || negb (ac_on_verdict cfg) then []
          else [PeerLivelinessEvent id (if alive then verdict_alive else verdict_lost) (contributing_mask sv outcome)]),
         set_latch alive st)
  end.

Definition is_reapable (cfg : arbiter_config) (now_ns : Z) (st : peer_state) : bool :=
  let sv := derive (ac_window cfg) now_ns st in
  ps_verdict_seen st && negb (ps_alive_latched st) && negb (sv_session_up sv) && negb (sv_aware sv) && negb (sv_hb_fresh sv).

Record peer_liveliness (T : Type) : Type := PeerLiveliness { pl_config : arbiter_config; pl_subscribers : Z; pl_storage : T }.
Arguments PeerLiveliness {T}.
Arguments pl_config {T}.
Arguments pl_subscribers {T}.
Arguments pl_storage {T}.

Section Arbiter.
Context {T : Type} `{PT : !PeerTable node_id peer_state T}.
Implicit Types a : peer_liveliness T.

Definition arbiter_new (opts : liveliness_options) (on_verdict : bool) : peer_liveliness T :=
  PeerLiveliness (ArbiterConfig (miss_window opts) (lo_policy opts) on_verdict) 0 tb_empty.

Definition set_storage a (t : T) : peer_liveliness T := PeerLiveliness (pl_config a) (pl_subscribers a) t.
Definition set_subscribers a (n : Z) : peer_liveliness T := PeerLiveliness (pl_config a) n (pl_storage a).
Definition passive a : bool := match ac_policy (pl_config a) with session_authoritative => true | _ => false end.

(** [None] is a full storage. *)
Definition at_or_insert a (id : node_id) (f : peer_state -> peer_state) : option (peer_liveliness T) :=
  t ← tb_at_or_insert id (pl_storage a); Some (set_storage a (tb_modify id f t)).

Definition note_heartbeat (id : node_id) (now_ns : Z) a : option (peer_liveliness T) :=
  if passive a then Some a else at_or_insert a id (set_heartbeat now_ns).
Definition note_awareness (id : node_id) a : option (peer_liveliness T) :=
  if passive a then Some a else at_or_insert a id (set_aware true).
Definition note_awareness_lost (id : node_id) a : peer_liveliness T := set_storage a (tb_modify id (set_aware false) (pl_storage a)).
Definition note_session_up (id : node_id) a : option (peer_liveliness T) :=
  at_or_insert a id (fun st => set_session sp_up (ps_dropped_at_ns st) st).

Definition note_session_down (id : node_id) (now_ns : Z) a : option (list peer_liveliness_event * peer_liveliness T) :=
  a ← at_or_insert a id (set_session sp_down now_ns);
  st ← tb_find id (pl_storage a);
  let '(evs, st) := settle (pl_config a) (pl_subscribers a) now_ns id st in
  Some (evs, set_storage a (tb_modify id (fun _ => st) (pl_storage a))).

Definition evaluate (now_ns : Z) a : list peer_liveliness_event * peer_liveliness T :=
  let settled := fun id st => settle (pl_config a) (pl_subscribers a) now_ns id st in
  (concat (map (fun x => (settled x.1 x.2).1) (tb_entries (pl_storage a))),
   set_storage a (tb_erase_if (fun _ st => is_reapable (pl_config a) now_ns st) (tb_map (fun id st => (settled id st).2) (pl_storage a)))).

Definition add_subscriber a : peer_liveliness T := set_subscribers a (wrap 64 (pl_subscribers a + 1)).
Definition remove_subscriber a : peer_liveliness T := if pl_subscribers a >? 0 then set_subscribers a (pl_subscribers a - 1) else a.

(** The calls, in any order. *)
Inductive arbiter_op : Type :=
| Heartbeat (id : node_id) (now : Z) | Aware (id : node_id) | AwareLost (id : node_id)
| SessionUp (id : node_id) | SessionDown (id : node_id) (now : Z) | Evaluate (now : Z) | Subscribe | Unsubscribe.

Definition arbiter_step (op : arbiter_op) a : option (list peer_liveliness_event * peer_liveliness T) :=
  match op with
  | Heartbeat id now => a ← note_heartbeat id now a; Some ([], a)
  | Aware id => a ← note_awareness id a; Some ([], a)
  | AwareLost id => Some ([], note_awareness_lost id a)
  | SessionUp id => a ← note_session_up id a; Some ([], a)
  | SessionDown id now => note_session_down id now a
  | Evaluate now => Some (evaluate now a)
  | Subscribe => Some ([], add_subscriber a)
  | Unsubscribe => Some ([], remove_subscriber a)
  end.

Fixpoint arbiter_run (ops : list arbiter_op) a : option (list peer_liveliness_event * peer_liveliness T) :=
  match ops with
  | [] => Some ([], a)
  | op :: ops => '(evs, a) ← arbiter_step op a; '(evs', a) ← arbiter_run ops a; Some (evs ++ evs', a)
  end.
End Arbiter.

(** ** One peer of the arbiter, without a storage *)

Definition of_peer (id : node_id) (ev : peer_liveliness_event) : bool := bool_decide (pe_id ev = id).

Definition subscribers_step (op : arbiter_op) (n : Z) : Z :=
  match op with
  | Subscribe => wrap 64 (n + 1)
  | Unsubscribe => if n >? 0 then n - 1 else n
  | _ => n
  end.

Definition peer_step (cfg : arbiter_config) (subscribers : Z) (op : arbiter_op) (id : node_id) (st : option peer_state)
  : list peer_liveliness_event * option peer_state :=
  let passive := match ac_policy cfg with session_authoritative => true | _ => false end in
  match op with
  | Heartbeat id' now => ([], if decide (id = id') then if passive then st else Some (set_heartbeat now (default fresh_peer st)) else st)
  | Aware id' => ([], if decide (id = id') then if passive then st else Some (set_aware true (default fresh_peer st)) else st)
  | AwareLost id' => ([], if decide (id = id') then set_aware false <$> st else st)
  | SessionUp id' =>
      ([], if decide (id = id') then Some (set_session sp_up (ps_dropped_at_ns (default fresh_peer st)) (default fresh_peer st)) else st)
  | SessionDown id' now =>
      if decide (id = id') then
        let '(evs, st) := settle cfg subscribers now id (set_session sp_down now (default fresh_peer st)) in (evs, Some st)
      else ([], st)
  | Evaluate now =>
      match st with
      | None => ([], None)
      | Some st => let '(evs, st) := settle cfg subscribers now id st in (evs, if is_reapable cfg now st then None else Some st)
      end
  | Subscribe | Unsubscribe => ([], st)
  end.

Fixpoint peer_run (cfg : arbiter_config) (subscribers : Z) (ops : list arbiter_op) (id : node_id) (st : option peer_state)
  : list peer_liveliness_event * option peer_state :=
  match ops with
  | [] => ([], st)
  | op :: ops =>
      let '(evs, st) := peer_step cfg subscribers op id st in
      let '(evs', st) := peer_run cfg (subscribers_step op subscribers) ops id st in
      (evs ++ evs', st)
  end.

Lemma settle_id cfg n now id st ev : ev ∈ (settle cfg n now id st).1 -> pe_id ev = id.
Proof.
  unfold settle. destruct (fuse_signals _ _); [| |by intros H; apply elem_of_nil in H];
    destruct (_ && _); try (by intros H; apply elem_of_nil in H); destruct (_ || _); try (by intros H; apply elem_of_nil in H);
    intros H; apply list_elem_of_singleton in H; by subst.
Qed.

Section Refinement.
Context {T : Type} {PT : PeerTable node_id peer_state T} {LT : LawfulTable node_id peer_state T fresh_peer PT}.
Implicit Types a : peer_liveliness T.

Abbreviation find id a := (tb_find id (pl_storage a)).
Abbreviation wf a := (tb_wf (LawfulTable := LT) (pl_storage a)).

Lemma at_or_insert_spec a id f a' : wf a -> at_or_insert a id f = Some a' ->
  wf a' /\ pl_config a' = pl_config a /\ pl_subscribers a' = pl_subscribers a /\
  forall id', find id' a' = if decide (id' = id) then Some (f (default fresh_peer (find id a))) else find id' a.
Proof.
  intros Hw. unfold at_or_insert. destruct (tb_at_or_insert id (pl_storage a)) as [t|] eqn:Ei; [|done]. cbn. intros [= <-]. cbn.
  destruct (upsert_spec (LT := LT) _ _ f _ Hw Ei) as [Hw2 H2]. split_and!; try done.
  intros id'. rewrite H2. case_decide; subst; done.
Qed.

Lemma insert_peer a id f a' : wf a -> at_or_insert a id f = Some a' ->
  wf a' /\ pl_config a' = pl_config a /\ pl_subscribers a' = pl_subscribers a /\
  forall id', (([] : list peer_liveliness_event), if decide (id' = id) then Some (f (default fresh_peer (find id' a))) else find id' a) = (List.filter (of_peer id') [], find id' a').
Proof.
  intros Hw H. destruct (at_or_insert_spec a id f a' Hw H) as (H1 & H2 & H3 & H4). split_and!; try done. intros id'. cbn. rewrite H4. case_decide; subst; done.
Qed.

(** What a call does to each peer, and what it reports of it. *)
Lemma arbiter_step_refines op a evs a' : wf a -> arbiter_step op a = Some (evs, a') ->
  (wf a' /\ pl_config a' = pl_config a /\ pl_subscribers a' = subscribers_step op (pl_subscribers a)) /\
  forall id, peer_step (pl_config a) (pl_subscribers a) op id (find id a) = (List.filter (of_peer id) evs, find id a').
Proof.
  intros Hw. destruct op as [id0 now|id0|id0|id0|id0 now|now| |]; cbn [arbiter_step subscribers_step peer_step].
  - unfold note_heartbeat, passive. destruct (ac_policy (pl_config a)) eqn:Ep; cbn [mbind option_bind].
    2: { intros [= <- <-]. split; [done|]. intros id. cbn. by case_decide. }
    all: destruct (at_or_insert a id0 _) as [a1|] eqn:Ei; [|done]; cbn; intros [= <- <-];
      destruct (insert_peer _ _ _ _ Hw Ei) as (H1 & H2 & H3 & H4); split; [done|exact H4].
  - unfold note_awareness, passive. destruct (ac_policy (pl_config a)) eqn:Ep; cbn [mbind option_bind].
    2: { intros [= <- <-]. split; [done|]. intros id. cbn. by case_decide. }
    all: destruct (at_or_insert a id0 _) as [a1|] eqn:Ei; [|done]; cbn; intros [= <- <-];
      destruct (insert_peer _ _ _ _ Hw Ei) as (H1 & H2 & H3 & H4); split; [done|exact H4].
  - intros [= <- <-]. unfold note_awareness_lost. cbn. destruct (tb_modify_spec (pl_storage a) id0 (set_aware false) Hw) as [Hw2 H2].
    split; [done|]. intros id. rewrite H2. case_decide; subst; done.
  - unfold note_session_up. destruct (at_or_insert a id0 _) as [a1|] eqn:Ei; [|done]. cbn. intros [= <- <-].
    destruct (insert_peer _ _ _ _ Hw Ei) as (H1 & H2 & H3 & H4). split; [done|exact H4].
  - unfold note_session_down. destruct (at_or_insert a id0 _) as [a1|] eqn:Ei; [|done]. cbn [mbind option_bind].
    destruct (at_or_insert_spec _ _ _ _ Hw Ei) as (H1 & H2 & H3 & H4). rewrite H4, decide_True by done. cbn [mbind option_bind].
    rewrite H2, H3. set (st := set_session sp_down now (default fresh_peer (find id0 a))).
    pose proof (settle_id (pl_config a) (pl_subscribers a) now id0 st) as Hid.
    destruct (settle (pl_config a) (pl_subscribers a) now id0 st) as [evs1 st1] eqn:Es. intros [= <- <-]. cbn [fst] in Hid.
    destruct (tb_modify_spec (pl_storage a1) id0 (fun _ => st1) H1) as [Hw2 H5]. cbn. split; [by split_and!|].
    intros id. rewrite H5. case_decide as Hd.
    + subst id. fold st. rewrite Es, H4, decide_True by done. cbn. f_equal. symmetry. apply filter_all. intros x Hx. apply bool_decide_eq_true. auto.
    + rewrite H4, decide_False by done. f_equal. symmetry. apply filter_no. intros x Hx. apply bool_decide_eq_false. rewrite (Hid x Hx). congruence.
  - intros [= <- <-]. unfold evaluate. cbn [pl_config pl_subscribers pl_storage set_storage].
    set (f := fun id st => settle (pl_config a) (pl_subscribers a) now id st).
    destruct (tb_map_spec (pl_storage a) (fun id st => (f id st).2) Hw) as [Hw1 H1].
    destruct (tb_erase_if_spec _ (fun _ st => is_reapable (pl_config a) now st) Hw1) as [Hw2 H2]. split; [by split_and!|].
    intros id. rewrite H2, H1, (table_reports (LT := LT) (fun k st => (f k st).1) (of_peer id) _ id Hw).
    2: { intros k st ev Hev. unfold of_peer. by rewrite (settle_id _ _ _ _ _ _ Hev). }
    destruct (find id a) as [st|]; [|done]. cbn. fold f. unfold f. by destruct (settle _ _ _ _ _).
  - intros [= <- <-]. split; [done|]. done.
  - intros [= <- <-]. unfold remove_subscriber. destruct (pl_subscribers a >? 0) eqn:Eg; cbn; (split; [done|done]).
Qed.

Lemma arbiter_run_refines ops : forall a evs a', wf a -> arbiter_run ops a = Some (evs, a') ->
  wf a' /\ forall id, peer_run (pl_config a) (pl_subscribers a) ops id (find id a) = (List.filter (of_peer id) evs, find id a').
Proof.
  induction ops as [|op ops IH]; intros a evs a' Hw; cbn [arbiter_run peer_run]; [by intros [= <- <-]|].
  destruct (arbiter_step op a) as [ [e1 a1]|] eqn:E1; [|done]. cbn. destruct (arbiter_run ops a1) as [ [e2 a2]|] eqn:E2; [|done]. cbn. intros [= <- <-].
  destruct (arbiter_step_refines op a e1 a1 Hw E1) as [(Hw1 & Hc & Hs) H1]. destruct (IH a1 e2 a2 Hw1 E2) as [Hw2 H2]. split; [done|].
  intros id. rewrite H1, <- Hs, <- Hc, H2, List.filter_app. done.
Qed.
End Refinement.

(** ** The two builds of the arbiter *)

Definition heap_table : PeerTable node_id peer_state (list (node_id * peer_state)) := std_map_table fresh_peer.
Definition fixed_table (n : nat) : PeerTable node_id peer_state (@fixed_flat_map node_id peer_state) := flat_map_table fresh_peer n [].
#[global] Instance heap_lawful : LawfulTable node_id peer_state _ fresh_peer heap_table := std_map_lawful fresh_peer.
#[global] Instance fixed_lawful n : LawfulTable node_id peer_state _ fresh_peer (fixed_table n) := flat_map_lawful fresh_peer n [].

Definition heap_arbiter (opts : liveliness_options) (cb : bool) : peer_liveliness _ := arbiter_new (PT := heap_table) opts cb.
Definition fixed_arbiter (n : nat) (opts : liveliness_options) (cb : bool) : peer_liveliness _ := arbiter_new (PT := fixed_table n) opts cb.

Lemma arbiter_new_wf {T} {PT : PeerTable node_id peer_state T} {LT : LawfulTable node_id peer_state T fresh_peer PT} opts cb :
  tb_wf (LawfulTable := LT) (pl_storage (arbiter_new (PT := PT) opts cb)).
Proof. apply tb_wf_empty. Qed.

Lemma heap_runs ops : forall a, tb_wf (LawfulTable := heap_lawful) (pl_storage a) -> is_Some (arbiter_run (PT := heap_table) ops a).
Proof.
  induction ops as [|op ops IH]; intros a Hw; [by eexists|]. cbn [arbiter_run].
  assert (is_Some (arbiter_step (PT := heap_table) op a)) as [ [evs a1] Hs].
  { destruct op; cbn [arbiter_step]; try by eexists.
    - unfold note_heartbeat. destruct (passive a); by eexists.
    - unfold note_awareness. destruct (passive a); by eexists.
    - unfold note_session_down. destruct (at_or_insert a id (set_session sp_down now)) as [a1|] eqn:Ei; [|done].
      destruct (at_or_insert_spec a id _ a1 Hw Ei) as (_ & _ & _ & H4). cbn [mbind option_bind]. rewrite H4, decide_True by done. cbn.
      destruct (settle _ _ _ _ _). by eexists. }
  rewrite Hs. cbn. destruct (arbiter_step_refines op a evs a1 Hw Hs) as [(Hw1 & _) _]. destruct (IH a1 Hw1) as [ [e2 a2] ->]. by eexists.
Qed.

(** C30: the fixed-capacity build of the arbiter reports of every peer exactly the verdicts the heap-backed build reports, in the
    same order and with the same provenance, and keeps the same state for it, as long as its table does not refuse a peer; the
    heap-backed build never refuses one. *)
Theorem verdicts_do_not_depend_on_the_storage n opts cb ops evs a :
  arbiter_run (PT := fixed_table n) ops (fixed_arbiter n opts cb) = Some (evs, a) ->
  exists evs' a', arbiter_run (PT := heap_table) ops (heap_arbiter opts cb) = Some (evs', a') /\
    forall id, List.filter (of_peer id) evs = List.filter (of_peer id) evs' /\
      tb_find (PeerTable := fixed_table n) id (pl_storage a) = tb_find (PeerTable := heap_table) id (pl_storage a').
Proof.
  intros Hf. destruct (heap_runs ops (heap_arbiter opts cb) (arbiter_new_wf opts cb)) as [ [evs' a'] Hh]. exists evs', a'. split; [done|].
  destruct (arbiter_run_refines (LT := fixed_lawful n) ops _ _ _ (arbiter_new_wf opts cb) Hf) as [_ H1].
  destruct (arbiter_run_refines (LT := heap_lawful) ops _ _ _ (arbiter_new_wf opts cb) Hh) as [_ H2].
  intros id. specialize (H1 id). specialize (H2 id). cbn [fixed_arbiter heap_arbiter arbiter_new pl_storage pl_config pl_subscribers] in H1, H2.
  rewrite (tb_find_empty (LawfulTable := fixed_lawful n)) in H1. rewrite (tb_find_empty (LawfulTable := heap_lawful)) in H2.
  rewrite H1 in H2. by injection H2.
Qed.

(** ** What a subscriber knows *)

Definition last_verdict (id : node_id) (evs : list peer_liveliness_event) : option liveliness_verdict :=
  last (map pe_verdict (List.filter (of_peer id) evs)).
Definition verdict_of (alive : bool) : liveliness_verdict := if alive then verdict_alive else verdict_lost.

(** The last verdict reported, and the state of the peer. *)
Definition knows (v : option liveliness_verdict) (st : option peer_state) : Prop :=
  match st with
  | Some st => if ps_verdict_seen st then v = Some (verdict_of (ps_alive_latched st)) else v <> Some verdict_alive
  | None => v <> Some verdict_alive
  end.

Definition keeps_subscribers (op : arbiter_op) : bool := match op with Subscribe | Unsubscribe => false | _ => true end.

Lemma last_app_verdicts (v : option liveliness_verdict) (l l' : list liveliness_verdict) :
  v = last l -> (match last l' with Some w => Some w | None => v end) = last (l ++ l').
Proof. intros ->. rewrite last_app. by destruct (last l'). Qed.

Lemma settle_knows cfg n now id st v : ac_on_verdict cfg = true -> n <> 0 -> knows v (Some st) ->
  let x := settle cfg n now id st in
  knows (match last (map pe_verdict x.1) with Some w => Some w | None => v end) (Some x.2) /\
  derive (ac_window cfg) now x.2 = derive (ac_window cfg) now st /\
  match fuse_signals (ac_policy cfg) (derive (ac_window cfg) now st) with
  | fo_no_verdict => True
  | o => ps_verdict_seen x.2 = true /\ ps_alive_latched x.2 = match o with fo_alive => true | _ => false end
  end.
Proof.
  intros Hcb Hn Hk. unfold settle. rewrite Hcb, (proj2 (Z.eqb_neq n 0) Hn). cbn [negb orb].
  destruct (fuse_signals (ac_policy cfg) (derive (ac_window cfg) now st)); [| |done];
    destruct (ps_verdict_seen st) eqn:Ev; cbn [andb]; try (destruct (ps_alive_latched st) eqn:Ea; cbn [Bool.eqb]);
    cbn; unfold knows in *; rewrite ?Ev, ?Ea in *; cbn; done.
Qed.

Lemma peer_step_knows cfg n op id st v : ac_on_verdict cfg = true -> n <> 0 -> keeps_subscribers op = true -> knows v st ->
  let x := peer_step cfg n op id st in
  knows (match last (map pe_verdict x.1) with Some w => Some w | None => v end) x.2.
Proof.
  intros Hcb Hn Hop Hk. assert (forall f, (forall s, ps_verdict_seen (f s) = ps_verdict_seen s /\ ps_alive_latched (f s) = ps_alive_latched s) ->
    knows v (Some (f (default fresh_peer st)))) as Hkeep.
  { intros f Hf. destruct (Hf (default fresh_peer st)) as [H1 H2]. unfold knows. rewrite H1, H2. by destruct st. }
  destruct op as [id0 now|id0|id0|id0|id0 now|now| |]; cbn [peer_step]; try done.
  - case_decide; [|done]. cbn. destruct (ac_policy cfg); [|done|]; by apply (Hkeep (set_heartbeat now)).
  - case_decide; [|done]. cbn. destruct (ac_policy cfg); [|done|]; by apply (Hkeep (set_aware true)).
  - case_decide; [|done]. cbn. by destruct st.
  - case_decide; [|done]. cbn. by apply (Hkeep (fun s => set_session sp_up (ps_dropped_at_ns s) s)).
  - case_decide; [|done]. pose proof (settle_knows cfg n now id (set_session sp_down now (default fresh_peer st)) v Hcb Hn) as Hs.
    destruct (settle cfg n now id _) as [evs st'] eqn:Es. cbn in *. apply Hs. by apply (Hkeep (set_session sp_down now)).
  - destruct st as [st|]; [|done]. pose proof (settle_knows cfg n now id st v Hcb Hn Hk) as (Hs & _).
    destruct (settle cfg n now id st) as [evs st'] eqn:Es. cbn in *. destruct (is_reapable cfg now st') eqn:Er; [|done].
    unfold is_reapable in Er. cbn zeta in Er. rewrite !andb_true_iff in Er. destruct Er as [ [ [ [E1 E2] _] _] _]. rewrite E1 in Hs. apply negb_true_iff in E2. rewrite E2 in Hs.
    unfold knows. by rewrite Hs.
Qed.

Lemma peer_run_knows cfg n ops id : ac_on_verdict cfg = true -> n <> 0 -> Forall (fun op => keeps_subscribers op = true) ops ->
  forall st v, knows v st ->
  let x := peer_run cfg n ops id st in
  knows (match last (map pe_verdict x.1) with Some w => Some w | None => v end) x.2.
Proof.
  intros Hcb Hn. induction 1 as [|op ops Hop _ IH]; intros st v Hk; cbn [peer_run]; [done|].
  pose proof (peer_step_knows cfg n op id st v Hcb Hn Hop Hk) as H1. destruct (peer_step cfg n op id st) as [e1 st1]. cbn [fst snd] in H1.
  assert (subscribers_step op n = n) as -> by (by destruct op). specialize (IH st1 _ H1). destruct (peer_run cfg n ops id st1) as [e2 st2]. cbn [fst snd] in *.
  rewrite map_app, last_app. destruct (last (map pe_verdict e2)) eqn:E2; done.
Qed.

Lemma peer_run_app cfg ops ops' id : forall n st,
  Forall (fun op => keeps_subscribers op = true) ops ->
  peer_run cfg n (ops ++ ops') id st =
  let '(e1, st1) := peer_run cfg n ops id st in let '(e2, st2) := peer_run cfg n ops' id st1 in (e1 ++ e2, st2).
Proof.
  induction ops as [|op ops IH]; intros n st Hf; cbn [app peer_run]; [by destruct (peer_run cfg n ops' id st)|].
  inversion Hf as [|? ? Hop Hf']; subst. destruct (peer_step cfg n op id st) as [e1 st1].
  assert (subscribers_step op n = n) as -> by (by destruct op). rewrite IH by done.
  destruct (peer_run cfg n ops id st1) as [e2 st2]. destruct (peer_run cfg n ops' id st2) as [e3 st3]. by rewrite app_assoc.
Qed.

(** C29: after an evaluation, whatever signals came before and in which order, a subscriber that was there from the start has last
    been told of every peer in the table the fusion of its signals at that moment under the configured policy, if they decide
    one; a peer that is not in the table, or no longer, was never last reported alive.  For either storage. *)
Theorem subscriber_knows_the_verdicts {T} {PT : PeerTable node_id peer_state T} {LT : LawfulTable node_id peer_state T fresh_peer PT} opts ops now evs a :
  Forall (fun op => keeps_subscribers op = true) ops ->
  arbiter_run (ops ++ [Evaluate now]) (add_subscriber (arbiter_new (PT := PT) opts true)) = Some (evs, a) ->
  forall id, match tb_find id (pl_storage a) with
  | None => last_verdict id evs <> Some verdict_alive
  | Some st =>
      match fuse_signals (lo_policy opts) (derive (miss_window opts) now st) with
      | fo_alive => last_verdict id evs = Some verdict_alive
      | fo_lost => last_verdict id evs = Some verdict_lost
      | fo_no_verdict => True
      end
  end.
Proof.
  intros Hops Hrun id. destruct (arbiter_run_refines (LT := LT) _ (add_subscriber (arbiter_new (PT := PT) opts true)) evs a (arbiter_new_wf (LT := LT) opts true) Hrun) as [_ Href]. specialize (Href id).
  cbn [add_subscriber set_subscribers arbiter_new pl_config pl_subscribers pl_storage] in Href. rewrite tb_find_empty in Href.
  set (cfg := ArbiterConfig (miss_window opts) (lo_policy opts) true) in *. change (wrap 64 (0 + 1)) with 1 in Href.
  rewrite peer_run_app in Href by done. unfold last_verdict.
  pose proof (peer_run_knows cfg 1 ops id eq_refl ltac:(done) Hops None None ltac:(done)) as Hk.
  destruct (peer_run cfg 1 ops id None) as [e1 st1]. cbn [peer_run] in Href. cbn [fst snd] in Hk.
  pose proof (peer_step_knows cfg 1 (Evaluate now) id st1 _ eq_refl ltac:(done) eq_refl Hk) as Hk2. cbn [peer_step] in Href, Hk2.
  destruct st1 as [st1|]; cbn in Href; [|injection Href as <- <-; cbn in *; rewrite app_nil_r; by destruct (last (map pe_verdict e1))].
  pose proof (settle_knows cfg 1 now id st1 _ eq_refl ltac:(done) Hk) as (_ & Hd & Hf).
  destruct (settle cfg 1 now id st1) as [e2 st2] eqn:Es. cbn [fst snd] in *. injection Href as <- <-. rewrite app_nil_r, map_app, last_app in *.
  destruct (is_reapable cfg now st2) eqn:Er; [by destruct (last (map pe_verdict e2)); [|destruct (last (map pe_verdict e1))]|].
  change (miss_window opts) with (ac_window cfg). change (lo_policy opts) with (ac_policy cfg). rewrite Hd.
  destruct (fuse_signals (ac_policy cfg) (derive (ac_window cfg) now st1)); [| |done]; destruct Hf as [Hv Ha]; cbn in Hk2; rewrite Hv, Ha in Hk2; cbn in Hk2;
    (destruct (last (map pe_verdict e2)); [|destruct (last (map pe_verdict e1)) ]); done.
Qed.

(** Three peers on a table for two, which is enough: one is reaped before the third comes. *)
Lemma verdicts_do_not_depend_on_the_storage_witness :
  let ops := [Subscribe; SessionUp [Byte.x01]; Heartbeat [Byte.x02] 10; Evaluate 20; SessionDown [Byte.x01] 30; Evaluate 40; Aware [Byte.x03]; Evaluate 50] in
  exists evs a evs' a', arbiter_run (PT := fixed_table 2) ops (fixed_arbiter 2 default_liveliness_options true) = Some (evs, a) /\
    arbiter_run (PT := heap_table) ops (heap_arbiter default_liveliness_options true) = Some (evs', a') /\
    List.filter (of_peer [Byte.x01]) evs = List.filter (of_peer [Byte.x01]) evs' /\
    map pe_verdict (List.filter (of_peer [Byte.x01]) evs) = [verdict_alive; verdict_lost].
Proof.
  cbv zeta. eexists _, _. destruct (verdicts_do_not_depend_on_the_storage 2 default_liveliness_options true
    [Subscribe; SessionUp [Byte.x01]; Heartbeat [Byte.x02] 10; Evaluate 20; SessionDown [Byte.x01] 30; Evaluate 40; Aware [Byte.x03]; Evaluate 50]
    _ _ ltac:(vm_compute; reflexivity)) as (evs' & a' & Hr & Hall).
  exists evs', a'. split; [vm_compute; reflexivity|]. split; [exact Hr|]. split; [apply Hall|vm_compute; reflexivity].
Defined.

(** A peer that stops: the heartbeat at 10 counts at 500 and is too old at a second. *)
Lemma subscriber_knows_the_verdicts_witness :
  let ops := [Heartbeat [Byte.x01] 10; Evaluate 500; Aware [Byte.x02]] in
  exists evs a, arbiter_run (PT := heap_table) (ops ++ [Evaluate 1000000000]) (add_subscriber (heap_arbiter default_liveliness_options true)) = Some (evs, a) /\
    tb_find (PeerTable := heap_table) [Byte.x01] (pl_storage a) = None /\ last_verdict [Byte.x01] evs <> Some verdict_alive /\
    last_verdict [Byte.x02] evs = Some verdict_alive.
Proof.
  cbv zeta. eexists _, _. split; [vm_compute; reflexivity|]. split; [vm_compute; reflexivity|].
  pose proof (subscriber_knows_the_verdicts (PT := heap_table) default_liveliness_options [Heartbeat [Byte.x01] 10; Evaluate 500; Aware [Byte.x02]] 1000000000
    _ _ ltac:(repeat constructor) ltac:(vm_compute; reflexivity)) as H. split; [exact (H [Byte.x01])|exact (H [Byte.x02])].
Defined.

(** ** Ageing of the awareness table *)

(** The sweep reports each peer that was not refreshed since the deadline, once, and forgets exactly those. *)
Theorem sweep_forgets_exactly_the_stale {T} {PT : PeerTable node_id peer_record T} {LT : LawfulTable node_id peer_record T fresh_record PT} deadline t reports t' :
  tb_wf (LawfulTable := LT) t -> expire_older_than deadline t = (reports, t') ->
  tb_wf (LawfulTable := LT) t' /\ NoDup reports /\
  forall id, (id ∈ reports <-> exists r, tb_find id t = Some r /\ pr_last_refreshed r < deadline) /\
    tb_find id t' = if decide (id ∈ reports) then None else tb_find id t.
Proof.
  intros Hw. unfold expire_older_than. intros [= <- <-]. destruct (tb_erase_if_spec t (fun _ r => pr_last_refreshed r <? deadline) Hw) as [Hw' Hf].
  assert (forall id, id ∈ map fst (List.filter (fun x => pr_last_refreshed x.2 <? deadline) (tb_entries t)) <-> exists r, tb_find id t = Some r /\ pr_last_refreshed r < deadline) as Hin.
  { intros id. rewrite list_elem_of_In, in_map_iff. split.
    - intros ([k r] & <- & Hin). apply filter_In in Hin as [Hin Hlt]. apply list_elem_of_In, (tb_entries_find t k r Hw) in Hin. cbn in *. exists r. split; [done|by apply Z.ltb_lt].
    - intros (r & Hr & Hlt). exists (id, r). split; [done|]. apply filter_In. split; [by apply list_elem_of_In, (tb_entries_find t id r Hw)|by apply Z.ltb_lt]. }
  split; [done|]. split.
  - pose proof (tb_entries_once t Hw) as Hn. clear Hin Hf Hw' Hw. induction (tb_entries t) as [|[k r] l IH]; [apply NoDup_nil_2|]. cbn in *.
    apply NoDup_cons in Hn as [Hk Hn]. destruct (pr_last_refreshed r <? deadline); [|by apply IH]. cbn. apply NoDup_cons. split; [|by apply IH].
    intros Hx. apply Hk. apply list_elem_of_In, in_map_iff in Hx as (x & <- & Hx). apply filter_In in Hx as [Hx _].
    apply list_elem_of_fmap. exists x. split; [done|by apply list_elem_of_In].
  - intros id. split; [apply Hin|]. rewrite Hf. case_decide as Hd.
    + apply Hin in Hd as (r & -> & Hlt). cbn. by rewrite (proj2 (Z.ltb_lt _ _) Hlt).
    + destruct (tb_find id t) as [r|] eqn:Er; [|done]. cbn. destruct (Z.ltb_spec (pr_last_refreshed r) deadline); [|done]. destruct Hd. apply Hin. eauto.
Qed.

(** ** Where the verdicts surprise *)

(** Under [all_required] a peer that was only ever announced stays reported alive after it is forgotten: without any signal
    present the fusion has no verdict, and the latch stays. *)
Theorem forgotten_peer_stays_alive t : exists st,
  peer_run (ArbiterConfig 500 all_required true) 1 [Aware [Byte.x01]; Evaluate 1; AwareLost [Byte.x01]; Evaluate t] [Byte.x01] None =
  ([PeerLivelinessEvent [Byte.x01] verdict_alive sig_awareness], Some st) /\ ps_alive_latched st = true.
Proof. eexists. split; vm_compute; reflexivity. Qed.

(** Once a lost peer is reaped the latch is gone: the next refused attempt reports it lost again. *)
Theorem lost_twice : 
  option_map (fun x => map pe_verdict x.1)
    (arbiter_run (PT := heap_table) [Subscribe; SessionDown [Byte.x01] 5; Evaluate 6; SessionDown [Byte.x01] 7] (heap_arbiter default_liveliness_options true)) =
  Some [verdict_lost; verdict_lost].
Proof. vm_compute. reflexivity. Qed.
