(* ===== verification/Liveness.v ===== *)
(** * The liveness monitor

    [liveliness_monitor.h], [detail/liveliness_scan.h], [detail/endpoint_liveness.h] and
    [liveness_storage.h]: deadlines per peer and topic, leases per peer, checked at every
    tick.  The clock is an argument of each call. *)

From Stdlib Require Import Sorted.
From S2P Require Import Prelude Handshake PeerTables.

Definition k_tick_granularity_ms : Z := 100.

Record endpoint_liveness : Type := EndpointLiveness {
  el_last_data_seen_ns : Z;
  el_last_seen_ns : Z;
  el_deadline_period_ns : Z;
  el_lease_ns : Z;
  el_deadline_violated : bool;
  el_lease_expired : bool;
}.
Definition fresh_liveness : endpoint_liveness := EndpointLiveness 0 0 0 0 false false.

Inductive liveness_kind : Type := missed_deadline | lease_expired.
Record liveness_event : Type := LivenessEvent { le_kind : liveness_kind; le_endpoint : node_id; le_topic_hash : Z; le_lapsed_ns : Z }.

(** ** [detail/liveliness_scan.h] *)

Definition set_violated (v : bool) (s : endpoint_liveness) : endpoint_liveness :=
  EndpointLiveness (el_last_data_seen_ns s) (el_last_seen_ns s) (el_deadline_period_ns s) (el_lease_ns s) v (el_lease_expired s).
Definition set_expired (v : bool) (s : endpoint_liveness) : endpoint_liveness :=
  EndpointLiveness (el_last_data_seen_ns s) (el_last_seen_ns s) (el_deadline_period_ns s) (el_lease_ns s) (el_deadline_violated s) v.

Definition check_deadline (now : Z) (key : deadline_key) (s : endpoint_liveness) : list liveness_event * endpoint_liveness :=
  if el_deadline_period_ns s =? 0 then ([], s) else
  let lapsed := wrap 64 (now - el_last_data_seen_ns s) >? el_deadline_period_ns s in
  if lapsed && negb (el_deadline_violated s) then
    ([LivenessEvent missed_deadline key.1 key.2 (el_deadline_period_ns s)], set_violated true s)
  else if negb lapsed then ([], set_violated false s) else ([], s).

Definition check_lease (now : Z) (id : node_id) (s : endpoint_liveness) : list liveness_event * endpoint_liveness :=
  if el_lease_ns s =? 0 then ([], s) else
  let lapsed := wrap 64 (now - el_last_seen_ns s) >? el_lease_ns s in
  if lapsed && negb (el_lease_expired s) then ([LivenessEvent lease_expired id 0 (el_lease_ns s)], set_expired true s)
  else if negb lapsed then ([], set_expired false s) else ([], s).

(** ** [class liveliness_monitor] over its storage *)

Record monitor (TD TL : Type) : Type := Monitor { mo_deadlines : TD; mo_leases : TL }.
Arguments Monitor {TD TL}.
Arguments mo_deadlines {TD TL}.
Arguments mo_leases {TD TL}.

Definition set_deadline (period now : Z) (s : endpoint_liveness) : endpoint_liveness :=
  EndpointLiveness now (el_last_seen_ns s) period (el_lease_ns s) false (el_lease_expired s).
Definition set_lease (lease now : Z) (s : endpoint_liveness) : endpoint_liveness :=
  EndpointLiveness (el_last_data_seen_ns s) now (el_deadline_period_ns s) lease (el_deadline_violated s) false.

Section Monitor.
Context {TD TL : Type} {PD : PeerTable deadline_key endpoint_liveness TD} {PL : PeerTable node_id endpoint_liveness TL}.
Implicit Types m : monitor TD TL.

Definition monitor_new : monitor TD TL := Monitor tb_empty tb_empty.

Definition upsert_deadline (key : deadline_key) (period now : Z) m : option (monitor TD TL) :=
  t ← tb_at_or_insert key (mo_deadlines m); Some (Monitor (tb_modify key (set_deadline period now) t) (mo_leases m)).
Definition upsert_lease (id : node_id) (lease now : Z) m : option (monitor TD TL) :=
  t ← tb_at_or_insert id (mo_leases m); Some (Monitor (mo_deadlines m) (tb_modify id (set_lease lease now) t)).

Definition register_endpoint (id : node_id) (topic_hash period lease now : Z) m : option (monitor TD TL) :=
  m ← upsert_deadline (id, topic_hash) period now m; upsert_lease id lease now m.

Definition deregister_endpoint (id : node_id) m : monitor TD TL :=
  Monitor (tb_erase_keys (fun key => bool_decide (key.1 = id)) (mo_deadlines m)) (tb_erase id (mo_leases m)).

Definition stamp_seen (id : node_id) (now : Z) m : monitor TD TL :=
  Monitor (mo_deadlines m) (tb_modify id (fun s => set_lease (el_lease_ns s) now s) (mo_leases m)).
Definition stamp_data (id : node_id) (topic_hash now : Z) m : monitor TD TL :=
  stamp_seen id now (Monitor (tb_modify (id, topic_hash) (fun s => set_deadline (el_deadline_period_ns s) now s) (mo_deadlines m)) (mo_leases m)).

Definition scan_liveness (now : Z) m : list liveness_event * monitor TD TL :=
  (concat (map (fun x => (check_deadline now x.1 x.2).1) (tb_entries (mo_deadlines m))) ++
   concat (map (fun x => (check_lease now x.1 x.2).1) (tb_entries (mo_leases m))),
   Monitor (tb_map (fun k s => (check_deadline now k s).2) (mo_deadlines m)) (tb_map (fun k s => (check_lease now k s).2) (mo_leases m))).

Inductive monitor_op : Type :=
| Register (id : node_id) (topic_hash period lease now : Z) | Deregister (id : node_id)
| Data (id : node_id) (topic_hash now : Z) | Seen (id : node_id) (now : Z) | Tick (now : Z).

Definition monitor_step (op : monitor_op) m : option (list liveness_event * monitor TD TL) :=
  match op with
  | Register id topic_hash period lease now => m ← register_endpoint id topic_hash period lease now m; Some ([], m)
  | Deregister id => Some ([], deregister_endpoint id m)
  | Data id topic_hash now => Some ([], stamp_data id topic_hash now m)
  | Seen id now => Some ([], stamp_seen id now m)
  | Tick now => Some (scan_liveness now m)
  end.

Fixpoint monitor_run (ops : list monitor_op) m : option (list liveness_event * monitor TD TL) :=
  match ops with
  | [] => Some ([], m)
  | op :: ops => '(evs, m) ← monitor_step op m; '(evs', m) ← monitor_run ops m; Some (evs ++ evs', m)
  end.
End Monitor.

(** ** One deadline and one lease, without a storage *)

Definition is_deadline (key : deadline_key) (ev : liveness_event) : bool :=
  match le_kind ev with missed_deadline => bool_decide ((le_endpoint ev, le_topic_hash ev) = key) | lease_expired => false end.
Definition is_lease (id : node_id) (ev : liveness_event) : bool :=
  match le_kind ev with missed_deadline => false | lease_expired => bool_decide (le_endpoint ev = id) end.

Definition deadline_step (op : monitor_op) (key : deadline_key) (st : option endpoint_liveness) : list liveness_event * option endpoint_liveness :=
  match op with
  | Register id t period _ now => ([], if decide (key = (id, t)) then Some (set_deadline period now (default fresh_liveness st)) else st)
  | Deregister id => ([], if decide (key.1 = id) then None else st)
  | Data id t now => ([], if decide (key = (id, t)) then (fun s => set_deadline (el_deadline_period_ns s) now s) <$> st else st)
  | Seen _ _ => ([], st)
  | Tick now => match st with None => ([], None) | Some s => let '(evs, s) := check_deadline now key s in (evs, Some s) end
  end.

Definition lease_step (op : monitor_op) (id : node_id) (st : option endpoint_liveness) : list liveness_event * option endpoint_liveness :=
  match op with
  | Register id' _ _ lease now => ([], if decide (id = id') then Some (set_lease lease now (default fresh_liveness st)) else st)
  | Deregister id' => ([], if decide (id = id') then None else st)
  | Data id' _ now | Seen id' now => ([], if decide (id = id') then (fun s => set_lease (el_lease_ns s) now s) <$> st else st)
  | Tick now => match st with None => ([], None) | Some s => let '(evs, s) := check_lease now id s in (evs, Some s) end
  end.

Lemma check_deadline_event now key s ev : ev ∈ (check_deadline now key s).1 -> le_kind ev = missed_deadline /\ (le_endpoint ev, le_topic_hash ev) = key.
Proof.
  unfold check_deadline. destruct (_ =? 0); [by intros H; apply elem_of_nil in H|]. destruct (_ && _).
  - intros H. apply list_elem_of_singleton in H as ->. by destruct key.
  - destruct (negb _); intros H; by apply elem_of_nil in H.
Qed.

Lemma check_lease_event now id s ev : ev ∈ (check_lease now id s).1 -> le_kind ev = lease_expired /\ le_endpoint ev = id.
Proof.
  unfold check_lease. destruct (_ =? 0); [by intros H; apply elem_of_nil in H|]. destruct (_ && _).
  - intros H. by apply list_elem_of_singleton in H as ->.
  - destruct (negb _); intros H; by apply elem_of_nil in H.
Qed.

Lemma concat_elem {A E} (f : A -> list E) l e : e ∈ concat (map f l) -> exists x, e ∈ f x.
Proof. induction l as [|x l IH]; cbn; [intros H; by apply elem_of_nil in H|]. rewrite elem_of_app. intros [H|H]; eauto. Qed.

Section Refinement.
Context {TD TL : Type} {PD : PeerTable deadline_key endpoint_liveness TD} {PL : PeerTable node_id endpoint_liveness TL}.
Context {LD : LawfulTable deadline_key endpoint_liveness TD fresh_liveness PD} {LL : LawfulTable node_id endpoint_liveness TL fresh_liveness PL}.
Implicit Types m : monitor TD TL.

Definition monitor_wf m : Prop := tb_wf (LawfulTable := LD) (mo_deadlines m) /\ tb_wf (LawfulTable := LL) (mo_leases m).

(** What a call does to each deadline and each lease, and what it reports of it. *)
Lemma monitor_step_refines op m evs m' : monitor_wf m -> monitor_step op m = Some (evs, m') ->
  monitor_wf m' /\
  (forall key, deadline_step op key (tb_find key (mo_deadlines m)) = (List.filter (is_deadline key) evs, tb_find key (mo_deadlines m'))) /\
  (forall id, lease_step op id (tb_find id (mo_leases m)) = (List.filter (is_lease id) evs, tb_find id (mo_leases m'))).
Proof.
  intros [Wd Wl]. destruct op as [id t period lease now|id|id t now|id now|now]; cbn [monitor_step deadline_step lease_step].
  - unfold register_endpoint, upsert_deadline, upsert_lease. destruct (tb_at_or_insert (K := deadline_key) (id, t) (mo_deadlines m)) as [td|] eqn:E1; cbn; [|done].
    destruct (tb_at_or_insert id (mo_leases m)) as [tl|] eqn:E2; cbn; [|done]. intros [= <- <-]. cbn.
    destruct (upsert_spec (LT := LD) _ _ (set_deadline period now) _ Wd E1) as [W1 H1]. destruct (upsert_spec (LT := LL) _ _ (set_lease lease now) _ Wl E2) as [W2 H2].
    split_and!; [done..| |].
    + intros key. rewrite H1. done.
    + intros id'. rewrite H2. done.
  - intros [= <- <-]. cbn. destruct (tb_erase_keys_spec _ (fun key => bool_decide (key.1 = id)) Wd) as [W1 H1]. destruct (tb_erase_spec _ id Wl) as [W2 H2].
    split_and!; [done..| |].
    + intros key. rewrite H1. case_decide; [by rewrite bool_decide_true|by rewrite bool_decide_false].
    + intros id'. by rewrite H2.
  - intros [= <- <-]. unfold stamp_data, stamp_seen. cbn.
    destruct (tb_modify_spec _ (id, t) (fun s => set_deadline (el_deadline_period_ns s) now s) Wd) as [W1 H1].
    destruct (tb_modify_spec _ id (fun s => set_lease (el_lease_ns s) now s) Wl) as [W2 H2]. split_and!; [done..| |].
    + intros key. rewrite H1. repeat case_decide; subst; congruence || done.
    + intros id'. rewrite H2. case_decide; subst; done.
  - intros [= <- <-]. unfold stamp_seen. cbn. destruct (tb_modify_spec _ id (fun s => set_lease (el_lease_ns s) now s) Wl) as [W2 H2].
    split_and!; [done..|]. intros id'. rewrite H2. case_decide; subst; done.
  - intros [= <- <-]. unfold scan_liveness. cbn.
    destruct (tb_map_spec _ (fun k s => (check_deadline now k s).2) Wd) as [W1 H1]. destruct (tb_map_spec _ (fun k s => (check_lease now k s).2) Wl) as [W2 H2].
    split_and!; [done..| |].
    + intros key. rewrite H1, List.filter_app, (table_reports (LT := LD) (fun k s => (check_deadline now k s).1) (is_deadline key) _ key Wd).
      2: { intros k' v e He. unfold is_deadline. destruct (check_deadline_event _ _ _ _ He) as [-> ->]. done. }
      rewrite (filter_no (is_deadline key) (concat (map (fun x => (check_lease now x.1 x.2).1) _))).
      2: { intros e He. apply concat_elem in He as [x He]. unfold is_deadline. by destruct (check_lease_event _ _ _ _ He) as [-> _]. }
      rewrite app_nil_r. destruct (tb_find key (mo_deadlines m)) as [s|]; [|done]. cbn. by destruct (check_deadline now key s).
    + intros id. rewrite H2, List.filter_app, (table_reports (LT := LL) (fun k s => (check_lease now k s).1) (is_lease id) _ id Wl).
      2: { intros k' v e He. unfold is_lease. destruct (check_lease_event _ _ _ _ He) as [-> ->]. done. }
      rewrite (filter_no (is_lease id) (concat (map (fun x => (check_deadline now x.1 x.2).1) _))).
      2: { intros e He. apply concat_elem in He as [x He]. unfold is_lease. by destruct (check_deadline_event _ _ _ _ He) as [-> _]. }
      destruct (tb_find id (mo_leases m)) as [s|]; [|done]. cbn. by destruct (check_lease now id s).
Qed.
End Refinement.

(** ** Once per lapse *)

(** Calls that leave the deadline of [key] as it is: heartbeats among them. *)
Definition spares_deadline (key : deadline_key) (op : monitor_op) : bool :=
  match op with
  | Register id t _ _ _ | Data id t _ => negb (bool_decide (key = (id, t)))
  | Deregister id => negb (bool_decide (key.1 = id))
  | Seen _ _ | Tick _ => true
  end.
(** Calls that leave the lease of [id] as it is. *)
Definition spares_lease (id : node_id) (op : monitor_op) : bool :=
  match op with
  | Register id' _ _ _ _ | Data id' _ _ | Deregister id' | Seen id' _ => negb (bool_decide (id = id'))
  | Tick _ => true
  end.

Definition late (start period : Z) (op : monitor_op) : bool := match op with Tick now => now - start >? period | _ => false end.
Definition clocked (start : Z) (op : monitor_op) : Prop := match op with Tick now => start <= now < 2 ^ 64 | _ => True end.

(** Ticks do not go back once one of them was late. *)
Definition ticks_sorted (ops : list monitor_op) : Prop :=
  StronglySorted Z.le (omap (fun op => match op with Tick now => Some now | _ => None end) ops).

Lemma tick_or_not op : (exists now, op = Tick now) \/ forall now, op <> Tick now.
Proof. destruct op; eauto. Qed.

(** A latched check: [check s] reports and latches, the other calls do not touch it. *)
Section Latch.
Context (step : monitor_op -> option endpoint_liveness -> list liveness_event * option endpoint_liveness).
Context (spares : monitor_op -> bool) (ev : liveness_event) (start period : Z).
Context (armed : bool -> endpoint_liveness -> Prop).
Context (Hspare : forall op st, spares op = true -> (forall now, op <> Tick now) -> step op st = ([], st)).
Context (Htick : forall now latched s, start <= now < 2 ^ 64 -> armed latched s ->
  exists s', step (Tick now) (Some s) = (if (now - start >? period) && negb latched then [ev] else [], Some s') /\ armed (now - start >? period) s').

Fixpoint step_run (ops : list monitor_op) (st : option endpoint_liveness) : list liveness_event * option endpoint_liveness :=
  match ops with
  | [] => ([], st)
  | op :: ops => let '(evs, st) := step op st in let '(evs', st) := step_run ops st in (evs ++ evs', st)
  end.

Definition all_ticks_late (ops : list monitor_op) : Prop := forall now, Tick now ∈ ops -> now - start > period.

Lemma latch_run ops : forall latched s,
  armed latched s -> (latched = true -> all_ticks_late ops) ->
  Forall (fun op => spares op = true) ops -> Forall (clocked start) ops -> ticks_sorted ops ->
  (step_run ops (Some s)).1 = if existsb (late start period) ops && negb latched then [ev] else [].
Proof.
  induction ops as [|op ops IH]; intros latched s Ha Hl Hs Hc Ht; [done|]. inversion Hs as [|? ? Hop Hs']; subst. inversion Hc as [|? ? Hco Hc']; subst.
  cbn [step_run existsb]. destruct (tick_or_not op) as [ [now ->]|Hn].
  - destruct (Htick now latched s Hco Ha) as (s' & -> & Ha'). unfold ticks_sorted in Ht. cbn in Ht. inversion Ht as [|? ? Ht' Hf]; subst. cbn [late].
    assert ((now - start >? period) = true -> all_ticks_late ops) as Hl'.
    { intros Hb n Hin. apply Z.gtb_lt in Hb. rewrite Forall_forall in Hf. specialize (Hf n). rewrite list_elem_of_omap in Hf.
      specialize (Hf ltac:(by exists (Tick n))). lia. }
    specialize (IH _ s' Ha' Hl' Hs' Hc' Ht'). destruct (step_run ops (Some s')) as [evs st]. cbn [fst] in *. rewrite IH.
    destruct (now - start >? period) eqn:Eg; cbn [andb orb negb].
    + rewrite andb_false_r, app_nil_r. by destruct latched.
    + destruct latched; [|done]. specialize (Hl eq_refl now ltac:(left)). rewrite Z.gtb_ltb in Eg. apply Z.ltb_ge in Eg. lia.
  - rewrite Hspare by eauto. assert (late start period op = false) as -> by (destruct op; try done; by destruct (Hn now)).
    assert (ticks_sorted ops) as Ht' by (unfold ticks_sorted in *; destruct op; try done; by destruct (Hn now)).
    assert (latched = true -> all_ticks_late ops) as Hl' by (intros Hb n Hin; apply (Hl Hb n); by right).
    specialize (IH latched s Ha Hl' Hs' Hc' Ht'). destruct (step_run ops (Some s)) as [evs st]. exact IH.
Qed.
End Latch.

Definition deadline_armed (start period : Z) (latched : bool) (s : endpoint_liveness) : Prop :=
  el_last_data_seen_ns s = start /\ el_deadline_period_ns s = period /\ el_deadline_violated s = latched.
Definition lease_armed (start period : Z) (latched : bool) (s : endpoint_liveness) : Prop :=
  el_last_seen_ns s = start /\ el_lease_ns s = period /\ el_lease_expired s = latched.

Lemma deadline_tick key start period now latched s : 0 <= start -> 0 < period -> start <= now < 2 ^ 64 -> deadline_armed start period latched s ->
  exists s', deadline_step (Tick now) key (Some s) = (if (now - start >? period) && negb latched then [LivenessEvent missed_deadline key.1 key.2 period] else [], Some s') /\
    deadline_armed start period (now - start >? period) s'.
Proof.
  intros H0 Hp Hn (H1 & H2 & H3). cbn [deadline_step]. unfold check_deadline. rewrite H1, H2, H3, (proj2 (Z.eqb_neq period 0)) by lia.
  rewrite wrap_small by (unfold in_width; lia). cbn zeta. destruct (now - start >? period), latched; cbn [andb negb]; eexists; (split; [reflexivity|]); done.
Qed.

Lemma lease_tick id start period now latched s : 0 <= start -> 0 < period -> start <= now < 2 ^ 64 -> lease_armed start period latched s ->
  exists s', lease_step (Tick now) id (Some s) = (if (now - start >? period) && negb latched then [LivenessEvent lease_expired id 0 period] else [], Some s') /\
    lease_armed start period (now - start >? period) s'.
Proof.
  intros H0 Hp Hn (H1 & H2 & H3). cbn [lease_step]. unfold check_lease. rewrite H1, H2, H3, (proj2 (Z.eqb_neq period 0)) by lia.
  rewrite wrap_small by (unfold in_width; lia). cbn zeta. destruct (now - start >? period), latched; cbn [andb negb]; eexists; (split; [reflexivity|]); done.
Qed.

Lemma spares_deadline_step key op st : spares_deadline key op = true -> (forall now, op <> Tick now) -> deadline_step op key st = ([], st).
Proof.
  destruct op; cbn; intros H Ht; try done; [| | |by destruct (Ht now)]; apply negb_true_iff, bool_decide_eq_false in H; by rewrite decide_False.
Qed.
Lemma spares_lease_step id op st : spares_lease id op = true -> (forall now, op <> Tick now) -> lease_step op id st = ([], st).
Proof.
  destruct op; cbn; intros H Ht; try done; [| | | |by destruct (Ht now)]; apply negb_true_iff, bool_decide_eq_false in H; by rewrite decide_False.
Qed.

Section Once.
Context {TD TL : Type} {PD : PeerTable deadline_key endpoint_liveness TD} {PL : PeerTable node_id endpoint_liveness TL}.
Context {LD : LawfulTable deadline_key endpoint_liveness TD fresh_liveness PD} {LL : LawfulTable node_id endpoint_liveness TL fresh_liveness PL}.
Implicit Types m : monitor TD TL.

Lemma monitor_run_refines ops : forall m evs m', monitor_wf (LD := LD) (LL := LL) m -> monitor_run ops m = Some (evs, m') ->
  monitor_wf (LD := LD) (LL := LL) m' /\
  (forall key, (step_run (fun op => deadline_step op key) ops (tb_find key (mo_deadlines m))).1 = List.filter (is_deadline key) evs) /\
  (forall id, (step_run (fun op => lease_step op id) ops (tb_find id (mo_leases m))).1 = List.filter (is_lease id) evs).
Proof.
  induction ops as [|op ops IH]; intros m evs m' Hw; cbn [monitor_run step_run]; [by intros [= <- <-]|].
  destruct (monitor_step op m) as [ [e1 m1]|] eqn:E1; [|done]. cbn. destruct (monitor_run ops m1) as [ [e2 m2]|] eqn:E2; [|done]. cbn. intros [= <- <-].
  destruct (monitor_step_refines op m e1 m1 Hw E1) as (Hw1 & H1 & H2). destruct (IH m1 e2 m2 Hw1 E2) as (Hw2 & H3 & H4). split; [done|]. split.
  - intros key. rewrite H1, List.filter_app, <- H3. by destruct (step_run _ ops _).
  - intros id. rewrite H2, List.filter_app, <- H4. by destruct (step_run _ ops _).
Qed.
Lemma monitor_new_wf : monitor_wf (LD := LD) (LL := LL) monitor_new.
Proof. split; apply tb_wf_empty. Qed.

(** After a data frame at [start], a missed deadline of its topic is reported exactly once if a tick comes later than the
    period after it and not at all otherwise, whatever the monitor was told before, whatever heartbeats, other topics and other
    peers do meanwhile; and in the same way the expiry of the lease of the peer, if nothing is heard from it.  For either
    storage and any schedule of ticks on a clock that does not go back. *)
Theorem lapse_reported_once pre evs0 m d l id topic start ops evs m' :
  monitor_run pre (monitor_new (PD := PD) (PL := PL)) = Some (evs0, m) ->
  tb_find (K := deadline_key) (id, topic) (mo_deadlines m) = Some d -> tb_find id (mo_leases m) = Some l ->
  0 < el_deadline_period_ns d -> 0 < el_lease_ns l -> 0 <= start -> Forall (clocked start) ops -> ticks_sorted ops ->
  monitor_run (Data id topic start :: ops) m = Some (evs, m') ->
  (Forall (fun op => spares_deadline (id, topic) op = true) ops ->
   List.filter (is_deadline (id, topic)) evs =
     if existsb (late start (el_deadline_period_ns d)) ops then [LivenessEvent missed_deadline id topic (el_deadline_period_ns d)] else []) /\
  (Forall (fun op => spares_lease id op = true) ops ->
   List.filter (is_lease id) evs = if existsb (late start (el_lease_ns l)) ops then [LivenessEvent lease_expired id 0 (el_lease_ns l)] else []).
Proof.
  intros Hpre Hd Hl Hpd Hpl H0 Hc Ht Hrun. destruct (monitor_run_refines _ _ _ _ monitor_new_wf Hpre) as [Hw _].
  destruct (monitor_run_refines _ _ _ _ Hw Hrun) as (_ & H1 & H2). specialize (H1 (id, topic)). specialize (H2 id). rewrite Hd in H1. rewrite Hl in H2.
  cbn [step_run deadline_step] in H1. rewrite decide_True in H1 by done. cbn [step_run lease_step] in H2. rewrite decide_True in H2 by done.
  cbn [fmap option_fmap option_map] in H1, H2. split; intros Hs.
  - set (d' := set_deadline (el_deadline_period_ns d) start d) in H1.
    pose proof (latch_run (fun op => deadline_step op (id, topic)) (spares_deadline (id, topic)) (LivenessEvent missed_deadline id topic (el_deadline_period_ns d))
      start (el_deadline_period_ns d) (deadline_armed start (el_deadline_period_ns d)) (spares_deadline_step (id, topic))
      (fun now latched s Hn Ha => deadline_tick (id, topic) start _ now latched s H0 Hpd Hn Ha) ops false d' ltac:(done) ltac:(done) Hs Hc Ht) as Hr.
    destruct (step_run (fun op => deadline_step op (id, topic)) ops (Some d')) as [es st]. cbn in H1, Hr. rewrite <- H1, Hr. by rewrite andb_true_r.
  - set (l' := set_lease (el_lease_ns l) start l) in H2.
    pose proof (latch_run (fun op => lease_step op id) (spares_lease id) (LivenessEvent lease_expired id 0 (el_lease_ns l))
      start (el_lease_ns l) (lease_armed start (el_lease_ns l)) (spares_lease_step id)
      (fun now latched s Hn Ha => lease_tick id start _ now latched s H0 Hpl Hn Ha) ops false l' ltac:(done) ltac:(done) Hs Hc Ht) as Hr.
    destruct (step_run (fun op => lease_step op id) ops (Some l')) as [es st]. cbn in H2, Hr. rewrite <- H2, Hr. by rewrite andb_true_r.
Qed.
End Once.

(** ** The two builds of the monitor *)

Definition heap_deadlines : PeerTable deadline_key endpoint_liveness (list (deadline_key * endpoint_liveness)) := std_map_table fresh_liveness.
Definition heap_leases : PeerTable node_id endpoint_liveness (list (node_id * endpoint_liveness)) := std_map_table fresh_liveness.
Definition fixed_deadlines (n : nat) : PeerTable deadline_key endpoint_liveness (@fixed_flat_map deadline_key endpoint_liveness) := flat_map_table fresh_liveness n ([], 0).
Definition fixed_leases (n : nat) : PeerTable node_id endpoint_liveness (@fixed_flat_map node_id endpoint_liveness) := flat_map_table fresh_liveness n [].

(** A deadline of 100 and a lease of 300; data at 1000, heartbeats, ticks every 60. *)
Lemma lapse_reported_once_witness :
  let id := [Byte.x01] in
  let ops := [Tick 1060; Seen id 1070; Tick 1120; Seen id 1130; Tick 1180; Tick 1240] in
  match monitor_run (PD := fixed_deadlines 2) (PL := fixed_leases 1) [Register id 7 100 300 900] (monitor_new (PD := fixed_deadlines 2) (PL := fixed_leases 1)) with
  | None => False
  | Some (_, m) =>
      match monitor_run (PD := fixed_deadlines 2) (PL := fixed_leases 1) (Data id 7 1000 :: ops) m with
      | None => False
      | Some (evs, _) => List.filter (is_deadline (id, 7)) evs = [LivenessEvent missed_deadline id 7 100]
      end
  end.
Proof.
  cbv zeta. destruct (monitor_run [Register [Byte.x01] 7 100 300 900] _) as [ [e0 m]|] eqn:E0; [|vm_compute in E0; discriminate].
  destruct (monitor_run (Data [Byte.x01] 7 1000 :: _) m) as [ [evs m']|] eqn:E1.
  - assert (m = Monitor (tb_modify (PeerTable := fixed_deadlines 2) ([Byte.x01], 7) (set_deadline 100 900) [FlatSlot ([Byte.x01], 7) fresh_liveness true; FlatSlot ([], 0) fresh_liveness false])
      (tb_modify (PeerTable := fixed_leases 1) [Byte.x01] (set_lease 300 900) [FlatSlot [Byte.x01] fresh_liveness true])) as Hm.
    { vm_compute in E0. injection E0 as <- <-. reflexivity. }
    subst m. refine (proj1 (lapse_reported_once (LD := flat_map_lawful fresh_liveness 2 ([], 0)) (LL := flat_map_lawful fresh_liveness 1 [])
      [Register [Byte.x01] 7 100 300 900] e0 _ (EndpointLiveness 900 0 100 0 false false) (EndpointLiveness 0 900 0 300 false false)
      [Byte.x01] 7 1000 _ evs m' E0 ltac:(reflexivity) ltac:(reflexivity) ltac:(cbn; lia) ltac:(cbn; lia) ltac:(lia) _ _ E1) _).
    + repeat constructor; lia.
    + unfold ticks_sorted. cbn. repeat constructor; lia.
    + repeat constructor.
  - subst. vm_compute in E0. injection E0 as <- <-. vm_compute in E1. discriminate.
Defined.
