(* ===== verification/Reconnect.v ===== *)
(** * The redial driver

    [reconnect.h] and [reconnect_config.h] of [lib/plexus-core/include/plexus/io/]: the
    full-jitter exponential backoff and the driver that dials a peer again until it gives up.
    The generator and the distribution of the standard library are a class: what the code
    relies on is that a draw from [0, hi] lies there.  The dial of the transport and the
    callbacks of the owner are events; the wait on the backoff timer is part of the state,
    because [expires_after] replaces it and nothing else cancels it.  [now] is the clock in
    nanoseconds. *)

From S2P Require Import Prelude EventMonad ByteOrder Liveliness.

Record reconnect_config : Type := ReconnectConfig {
  rc_min_delay : Z;               (** milliseconds, [std::int64_t] *)
  rc_max_delay : Z;
  rc_max_attempts : option Z;     (** [std::uint32_t] *)
  rc_max_elapsed : option Z;
}.

(** [std::uniform_int_distribution<std::int64_t>{0, hi}] on an [std::mt19937_64]. *)
Class Rng (R : Type) : Type := { draw : R -> Z -> Z * R }.
Class LawfulRng (R : Type) `{!Rng R} : Prop := { draw_within g hi : 0 <= hi -> 0 <= (draw g hi).1 <= hi }.

(** The product of a duration in [std::int64_t] and an [std::uint64_t] is one in [std::uint64_t]. *)
Definition backoff_ceiling (cfg : reconnect_config) (attempt : Z) : Z :=
  let shift := Z.min attempt 20 in
  let ceiling := wrap 64 (rc_min_delay cfg * Z.shiftl 1 shift) in
  if ceiling >? wrap 64 (rc_max_delay cfg) then wrap 64 (rc_max_delay cfg) else ceiling.

(** [None]: the bounds of the distribution are reversed, the count does not fit [std::int64_t]. *)
Definition compute_backoff {R} `{!Rng R} (cfg : reconnect_config) (attempt : Z) (rng : R) : option (Z * R) :=
  let ceiling := backoff_ceiling cfg attempt in
  if ceiling >=? 2 ^ 63 then None else Some (draw rng ceiling).

Inductive driver_event : Type :=
| OnRedial                       (** [m_on_redial] *)
| TransportDial (ep : endpoint)  (** [m_transport.dial] *)
| ArmBackoff (ms : Z)            (** [expires_after] and [async_wait] *)
| OnDead.                        (** [m_on_dead] *)

Record driver (R : Type) : Type := Driver {
  d_cfg : reconnect_config;
  d_endpoint : endpoint;
  d_rng : R;
  d_first_attempt : Z;
  d_attempt : Z;
  d_surrendered : bool;
  d_dialing : bool;
  d_waiting : bool;              (** a wait on [m_backoff_timer] is pending *)
}.
Arguments Driver {R}.
Arguments d_cfg {R}.
Arguments d_endpoint {R}.
Arguments d_rng {R}.
Arguments d_first_attempt {R}.
Arguments d_attempt {R}.
Arguments d_surrendered {R}.
Arguments d_dialing {R}.
Arguments d_waiting {R}.

Definition driver_new {R} (cfg : reconnect_config) (ep : endpoint) (seed : R) : driver R :=
  Driver cfg ep seed 0 0 false false false.

Section Driver.
Context {R : Type} `{!Rng R}.
Abbreviation drv := (prog (driver R) driver_event).
Implicit Types d : driver R.

Definition set_first_attempt (now : Z) d : driver R :=
  Driver (d_cfg d) (d_endpoint d) (d_rng d) now (d_attempt d) (d_surrendered d) (d_dialing d) (d_waiting d).
Definition set_attempt (n : Z) d : driver R :=
  Driver (d_cfg d) (d_endpoint d) (d_rng d) (d_first_attempt d) n (d_surrendered d) (d_dialing d) (d_waiting d).
Definition set_surrendered d : driver R :=
  Driver (d_cfg d) (d_endpoint d) (d_rng d) (d_first_attempt d) (d_attempt d) true (d_dialing d) (d_waiting d).
Definition set_dialing (b : bool) d : driver R :=
  Driver (d_cfg d) (d_endpoint d) (d_rng d) (d_first_attempt d) (d_attempt d) (d_surrendered d) b (d_waiting d).
Definition set_waiting (b : bool) (g : R) d : driver R :=
  Driver (d_cfg d) (d_endpoint d) g (d_first_attempt d) (d_attempt d) (d_surrendered d) (d_dialing d) b.

Definition elapsed (now : Z) d : Z := Z.quot (now - d_first_attempt d) 1000000.

Definition surrendered (now : Z) d : bool :=
  match rc_max_attempts (d_cfg d) with Some n => d_attempt d >=? n | None => false end ||
  match rc_max_elapsed (d_cfg d) with Some ms => elapsed now d >=? ms | None => false end.

Definition dial : drv unit :=
  modify (set_dialing true) ;;
  emit OnRedial ;;
  ep ← gets d_endpoint;
  emit (TransportDial ep).

Definition report_dead : drv unit :=
  modify set_surrendered ;;
  emit OnDead.

Definition schedule_redial (now : Z) : drv unit :=
  modify (fun d => set_attempt (wrap 32 (d_attempt d + 1)) d) ;;
  d ← gets id;
  if surrendered now d then report_dead else
  '(ms, g) ← lift (compute_backoff (d_cfg d) (d_attempt d) (d_rng d));
  modify (set_waiting true g) ;;
  emit (ArmBackoff ms).

(** The completion of the wait, which happens only while one is pending. *)
Definition backoff_expired : drv unit :=
  d ← gets id;
  if negb (d_waiting d) then mret tt else
  modify (set_waiting false (d_rng d)) ;;
  dial.

Definition driver_start (now : Z) : drv unit :=
  d ← gets id;
  if d_dialing d then mret tt else
  modify (set_first_attempt now) ;;
  dial.

Definition notify_dial_failed (now : Z) : drv unit :=
  modify (set_dialing false) ;;
  schedule_redial now.

Definition mark_dial_settled : drv unit := modify (set_dialing false).

Definition on_channel_dropped (now : Z) : drv unit :=
  modify (set_dialing false) ;;
  schedule_redial now.

End Driver.

(** ** The delays *)

(** Delays that do not overflow: what the cap of the shift is there for. *)
Definition config_ok (cfg : reconnect_config) : Prop :=
  0 <= rc_min_delay cfg /\ rc_min_delay cfg * 2 ^ 20 < 2 ^ 64 /\ 0 <= rc_max_delay cfg < 2 ^ 63.

Lemma backoff_ceiling_exact cfg attempt : config_ok cfg -> 0 <= attempt ->
  backoff_ceiling cfg attempt = Z.min (rc_max_delay cfg) (rc_min_delay cfg * 2 ^ Z.min attempt 20).
Proof.
  intros (H1 & H2 & H3) Ha. unfold backoff_ceiling. rewrite Z.shiftl_1_l.
  assert (2 ^ Z.min attempt 20 <= 2 ^ 20) by (apply Z.pow_le_mono_r; lia).
  assert (0 < 2 ^ Z.min attempt 20) by (apply Z.pow_pos_nonneg; lia).
  assert (0 <= rc_min_delay cfg * 2 ^ Z.min attempt 20 < 2 ^ 64) by nia.
  rewrite (wrap_small 64 (rc_max_delay cfg)) by (unfold in_width; lia). rewrite wrap_small by done. destruct (Z.gtb_spec (rc_min_delay cfg * 2 ^ Z.min attempt 20) (rc_max_delay cfg)); lia.
Qed.

Section Retries.
Context {R : Type} `{!Rng R} `{!LawfulRng R}.
Abbreviation drv := (prog (driver R) driver_event).
Implicit Types d : driver R.

Lemma compute_backoff_run cfg attempt (g : R) : config_ok cfg -> 0 <= attempt ->
  exists ms g', compute_backoff cfg attempt g = Some (ms, g') /\
    0 <= ms <= Z.min (rc_max_delay cfg) (rc_min_delay cfg * 2 ^ Z.min attempt 20).
Proof.
  intros Hc Ha. unfold compute_backoff. rewrite backoff_ceiling_exact by done. destruct Hc as (H1 & H2 & H3).
  assert (0 < 2 ^ Z.min attempt 20) by (apply Z.pow_pos_nonneg; lia).
  destruct (Z.geb_spec (Z.min (rc_max_delay cfg) (rc_min_delay cfg * 2 ^ Z.min attempt 20)) (2 ^ 63)); [lia|].
  pose proof (draw_within g (Z.min (rc_max_delay cfg) (rc_min_delay cfg * 2 ^ Z.min attempt 20)) ltac:(nia)) as Hd.
  destruct (draw g _) as [ms g']. by exists ms, g'.
Qed.

Definition dial_events (ep : endpoint) : list driver_event := [OnRedial; TransportDial ep].

(** A dial that fails, and the wait after it that runs out: as long as there is one. *)
Definition outage (nows : list Z) : drv unit := each (fun now => notify_dial_failed now ;; backoff_expired) nows.

(** The bounds of the configuration: the [attempt]-th failure, at [now], is the last. *)
Definition gives_up (cfg : reconnect_config) (t0 attempt now : Z) : bool :=
  match rc_max_attempts cfg with Some n => attempt >=? n | None => false end ||
  match rc_max_elapsed cfg with Some ms => Z.quot (now - t0) 1000000 >=? ms | None => false end.

(** The driver that started at [t0], after [attempt] failures, dialing. *)
Definition dialing_after d (cfg : reconnect_config) (ep : endpoint) (t0 attempt : Z) : Prop :=
  d_cfg d = cfg /\ d_endpoint d = ep /\ d_first_attempt d = t0 /\ d_attempt d = attempt /\ d_dialing d = true /\ d_waiting d = false.

(** What one more failure does. *)
Lemma failure_run now d cfg ep t0 attempt :
  config_ok cfg -> dialing_after d cfg ep t0 attempt -> 0 <= attempt -> attempt + 1 < 2 ^ 32 ->
  exists evs d', notify_dial_failed now d = Some (tt, evs, d') /\
    d_cfg d' = cfg /\ d_endpoint d' = ep /\ d_first_attempt d' = t0 /\ d_attempt d' = attempt + 1 /\ d_dialing d' = false /\
    d_waiting d' = negb (gives_up cfg t0 (attempt + 1) now) /\
    if gives_up cfg t0 (attempt + 1) now then evs = [OnDead] /\ d_surrendered d' = true
    else exists ms, evs = [ArmBackoff ms] /\ 0 <= ms <= Z.min (rc_max_delay cfg) (rc_min_delay cfg * 2 ^ Z.min (attempt + 1) 20).
Proof.
  intros Hc (<- & <- & <- & <- & Hd & Hw) Ha Hb. unfold notify_dial_failed, schedule_redial. rewrite !bind_modify. rewrite bind_gets.
  cbn -[wrap]. rewrite wrap_small by (unfold in_width; lia). unfold surrendered, elapsed. cbn.
  fold (gives_up (d_cfg d) (d_first_attempt d) (d_attempt d + 1) now).
  destruct (gives_up (d_cfg d) (d_first_attempt d) (d_attempt d + 1) now).
  - eexists _, _. split; [reflexivity|]. done.
  - destruct (compute_backoff_run (d_cfg d) (d_attempt d + 1) (d_rng d) Hc ltac:(lia)) as (ms & g' & E & Hms). rewrite E, bind_lift, bind_modify.
    eexists _, _. split; [reflexivity|]. split_and!; try done. exists ms. done.
Qed.

(** The failures at [nows], the first of them the [attempt]-th, are within the bounds. *)
Definition within_bounds (cfg : reconnect_config) (t0 attempt : Z) (nows : list Z) : Prop :=
  forall i now, nows !! i = Some now -> gives_up cfg t0 (attempt + Z.of_nat i) now = false.

Lemma outage_run cfg ep t0 nows : forall d attempt,
  config_ok cfg -> dialing_after d cfg ep t0 attempt -> 0 <= attempt -> attempt + zlen nows < 2 ^ 32 -> within_bounds cfg t0 (attempt + 1) nows ->
  exists delays d', outage nows d = Some (tt, flat_map (fun ms => ArmBackoff ms :: dial_events ep) delays, d') /\
    dialing_after d' cfg ep t0 (attempt + zlen nows) /\ length delays = length nows /\
    forall i ms, delays !! i = Some ms -> 0 <= ms <= Z.min (rc_max_delay cfg) (rc_min_delay cfg * 2 ^ Z.min (attempt + Z.of_nat i + 1) 20).
Proof.
  induction nows as [|now nows IH]; intros d attempt Hc Hd Ha Hb Hn.
  - exists [], d. unfold zlen. cbn. rewrite Z.add_0_r. done.
  - unfold zlen in *. cbn [length] in Hb. destruct (failure_run now d cfg ep t0 attempt Hc Hd Ha ltac:(lia)) as (evs & d1 & E & H1 & H2 & H0 & H3 & H4 & H5 & H6).
    pose proof (Hn O now eq_refl) as Es. rewrite Z.add_0_r in Es. rewrite Es in H5, H6. destruct H6 as (ms & -> & Hms).
    assert (exists d2, (notify_dial_failed now ;; backoff_expired) d = Some (tt, ArmBackoff ms :: dial_events ep, d2) /\ dialing_after d2 cfg ep t0 (attempt + 1)) as (d2 & E2 & Hd2).
    { rewrite (bind_run _ _ _ _ _ _ E). unfold backoff_expired, dial. rewrite bind_gets. cbn. rewrite H5. cbn. rewrite !bind_modify, bind_emit, bind_gets. cbn. eexists. split; [by rewrite H2|]. done. }
    destruct (IH d2 (attempt + 1) Hc Hd2 ltac:(lia) ltac:(lia)) as (delays & d3 & E3 & Hd3 & Hl & Hb3).
    { intros i now' Hi. specialize (Hn (S i) now' Hi). by replace (attempt + 1 + 1 + Z.of_nat i) with (attempt + 1 + Z.of_nat (S i)) by lia. }
    exists (ms :: delays), d3. unfold outage in *. cbn [each]. split; [|split_and!].
    + rewrite (bind_run _ _ _ _ _ _ E2), E3. done.
    + replace (attempt + Z.of_nat (length (now :: nows))) with (attempt + 1 + Z.of_nat (length nows)) by (cbn [length]; lia). done.
    + cbn. by rewrite Hl.
    + intros [|i] ms' Hi; cbn in Hi.
      * simplify_eq. by rewrite Z.add_0_r.
      * replace (attempt + Z.of_nat (S i) + 1) with (attempt + 1 + Z.of_nat i + 1) by lia. by apply Hb3.
Qed.

(** C31: A driver that starts at [t0] and whose dials keep failing dials again after each failure
    that is within its bounds (fewer failures than [max_attempts], and less time since the start than
    [max_elapsed], where they are configured), and the i-th wait lies within
    [0, min(max_delay, min_delay * 2^min(i, 20))]; the first failure that reaches either bound is answered
    by the death of the peer and nothing else, and a driver without bounds never gives up.  (The delays
    are configured so that the largest backoff does not overflow, and there are fewer than 2^32
    failures.) *)
Theorem driver_retries_then_surrenders cfg ep (seed : R) (t0 last : Z) (nows : list Z) :
  config_ok cfg -> zlen nows + 1 < 2 ^ 32 -> within_bounds cfg t0 1 nows ->
  exists delays d,
    (driver_start t0 ;; outage nows) (driver_new cfg ep seed) =
      Some (tt, dial_events ep ++ flat_map (fun ms => ArmBackoff ms :: dial_events ep) delays, d) /\
    length delays = length nows /\
    (forall i ms, delays !! i = Some ms -> 0 <= ms <= Z.min (rc_max_delay cfg) (rc_min_delay cfg * 2 ^ Z.min (Z.of_nat i + 1) 20)) /\
    exists evs d', notify_dial_failed last d = Some (tt, evs, d') /\
      if gives_up cfg t0 (zlen nows + 1) last then evs = [OnDead] /\ d_surrendered d' = true /\ d_waiting d' = false
      else exists ms, evs = [ArmBackoff ms] /\ d_waiting d' = true /\
        0 <= ms <= Z.min (rc_max_delay cfg) (rc_min_delay cfg * 2 ^ Z.min (zlen nows + 1) 20).
Proof.
  intros Hc Hb Hn. set (d1 := Driver cfg ep seed t0 0 false true false).
  assert (driver_start t0 (driver_new cfg ep seed) = Some (tt, dial_events ep, d1)) as E1 by done.
  destruct (outage_run cfg ep t0 nows d1 0 Hc ltac:(done) ltac:(lia) ltac:(lia) Hn) as (delays & d2 & E2 & Hd2 & Hl & Hbs).
  exists delays, d2. split; [by rewrite (bind_run _ _ _ _ _ _ E1), E2|]. split; [done|]. split; [exact Hbs|].
  destruct (failure_run last d2 cfg ep t0 _ Hc Hd2 ltac:(unfold zlen; lia) ltac:(lia)) as (evs & d3 & E3 & _ & _ & _ & _ & _ & Hw & H6).
  exists evs, d3. split; [done|]. change (0 + zlen nows) with (zlen nows) in *.
  destruct (gives_up cfg t0 (zlen nows + 1) last); [by destruct H6|]. destruct H6 as (ms & -> & Hms). by exists ms.
Qed.

End Retries.

(** A generator that always draws the middle. *)
#[local] Instance middle : Rng unit := {| draw := fun _ hi => (hi / 2, tt) |}.
#[local] Instance middle_lawful : LawfulRng unit.
Proof. constructor. intros g hi H. cbn. split; [apply Z.div_pos; lia|]. apply Z.div_le_upper_bound; lia. Qed.

Definition sample_config : reconnect_config := ReconnectConfig 100 5000 (Some 3) None.
Definition sample_endpoint : endpoint := Endpoint [Byte.x74] [Byte.x31].

Lemma driver_retries_then_surrenders_witness : exists delays d,
  (driver_start 1 ;; outage [10; 20]) (driver_new sample_config sample_endpoint tt) =
    Some (tt, dial_events sample_endpoint ++ flat_map (fun ms => ArmBackoff ms :: dial_events sample_endpoint) delays, d) /\
  length delays = 2%nat /\ exists evs d', notify_dial_failed 30 d = Some (tt, evs, d') /\ evs = [OnDead].
Proof.
  destruct (driver_retries_then_surrenders sample_config sample_endpoint tt 1 30 [10; 20]) as (delays & d & E & Hl & _ & evs & d' & E' & H).
  - vm_compute. intuition discriminate.
  - reflexivity.
  - intros [|[|i] ] now Hi; [injection Hi as <-; reflexivity|injection Hi as <-; reflexivity|discriminate Hi].
  - exists delays, d. split; [exact E|]. split; [exact Hl|]. exists evs, d'. split; [exact E'|]. apply H.
Defined.

(** ** Where the driver surprises *)

(** The dials that had no outcome yet, as the transport sees them. *)
Definition dials (evs : list driver_event) : nat := length (List.filter (fun ev => match ev with TransportDial _ => true | _ => false end) evs).

(** A start during the backoff dials at once and leaves the wait pending: when it runs out the driver dials a second time
    while the first dial is in flight. *)
Theorem restart_in_backoff_dials_twice :
  option_map (fun x => (dials x.1.2, d_dialing x.2))
    ((driver_start 1 ;; notify_dial_failed 2 ;; driver_start 3 ;; backoff_expired) (driver_new sample_config sample_endpoint tt)) =
  Some (3%nat, true).
Proof. vm_compute. reflexivity. Qed.

(** A peer that comes back each time it drops is given up all the same: the attempts of different outages add up. *)
Theorem attempts_add_up :
  option_map (fun x => last x.1.2)
    ((driver_start 1 ;; mark_dial_settled ;;
      on_channel_dropped 10 ;; backoff_expired ;; mark_dial_settled ;;
      on_channel_dropped 100000000000 ;; backoff_expired ;; mark_dial_settled ;;
      on_channel_dropped 200000000000) (driver_new sample_config sample_endpoint tt)) =
  Some (Some OnDead).
Proof. vm_compute. reflexivity. Qed.
