(* ===== verification/Observation.v ===== *)
(** * Observers and the capture policy

    [capture_policy.h], [detail/routing_dispatch.h] and the gates of [detail/routing_sinks.h] of
    [lib/plexus-core/include/plexus/io/].  An observer is an object with an identity; what it does
    when it is called is the application's, and what matters of it here is which observers it adds
    and removes. *)

From Stdlib Require Import Sorted.
From S2P Require Import Prelude EventMonad.

(** ** The capture policy *)

(** [capture_fidelity], ordered as the enumerators are. *)
Definition fidelity_off : Z := 0.
Definition fidelity_metadata : Z := 1.
Definition fidelity_payload : Z := 2.
Definition fidelity_wire : Z := 3.

Inductive decimation_mode : Type := count_n | time_window.

Record topic_capture_rule : Type := TopicCaptureRule {
  tc_fidelity : Z;
  tc_mode : decimation_mode;
  tc_decimation : Z;   (** [std::uint32_t] *)
  tc_window_ns : Z;    (** [std::uint64_t] *)
}.
Definition topic_capture_rule_default : topic_capture_rule := TopicCaptureRule fidelity_off time_window 1 0.

Record capture_policy : Type := CapturePolicy {
  cp_default : topic_capture_rule;
  cp_rules : gmap Z topic_capture_rule;
  cp_counters : gmap Z Z;
  cp_last_emit_ns : gmap Z Z;
  cp_observers_present : Z;
}.
Definition capture_policy_new : capture_policy := CapturePolicy topic_capture_rule_default ∅ ∅ ∅ 0.

Implicit Types (p : capture_policy) (hash now : Z).

Definition set_default (rule : topic_capture_rule) p : capture_policy :=
  CapturePolicy rule (cp_rules p) (cp_counters p) (cp_last_emit_ns p) (cp_observers_present p).
Definition set_topic hash (rule : topic_capture_rule) p : capture_policy :=
  CapturePolicy (cp_default p) (<[hash := rule]> (cp_rules p)) (cp_counters p) (cp_last_emit_ns p) (cp_observers_present p).
Definition rule_for p hash : topic_capture_rule := default (cp_default p) (cp_rules p !! hash).
Definition should_emit p hash : bool := negb (tc_fidelity (rule_for p hash) =? fidelity_off) || (cp_observers_present p >? 0).
Definition any_active p : bool := (cp_observers_present p >? 0) || negb (bool_decide (cp_rules p = ∅)).

Definition set_counter hash (n : Z) p : capture_policy :=
  CapturePolicy (cp_default p) (cp_rules p) (<[hash := n]> (cp_counters p)) (cp_last_emit_ns p) (cp_observers_present p).
Definition set_last_emit hash now p : capture_policy :=
  CapturePolicy (cp_default p) (cp_rules p) (cp_counters p) (<[hash := now]> (cp_last_emit_ns p)) (cp_observers_present p).

(** [operator[]] creates the entry of the topic, also where the answer is no. *)
Definition wants_payload hash now p : bool * capture_policy :=
  let rule := rule_for p hash in
  if tc_fidelity rule <? fidelity_payload then (false, p) else
  match tc_mode rule with
  | count_n =>
      let n := if tc_decimation rule =? 0 then 1 else tc_decimation rule in
      let counter := wrap 32 (default 0 (cp_counters p !! hash) + 1) in
      (counter mod n =? 0, set_counter hash counter p)
  | time_window =>
      let last := default 0 (cp_last_emit_ns p !! hash) in
      if (wrap 64 (now - last) <? tc_window_ns rule) && negb (last =? 0) then (false, set_last_emit hash last p)
      else (true, set_last_emit hash (if now =? 0 then 1 else now) p)
  end.

Definition set_present (n : Z) p : capture_policy :=
  CapturePolicy (cp_default p) (cp_rules p) (cp_counters p) (cp_last_emit_ns p) n.
Definition capture_add_observer p : capture_policy := set_present (wrap 64 (cp_observers_present p + 1)) p.
Definition capture_remove_observer p : capture_policy :=
  if cp_observers_present p >? 0 then set_present (cp_observers_present p - 1) p else p.

(** ** Observers *)

Record observer : Type := Observer { ob_id : Z; ob_data_path : bool; ob_liveliness : bool }.

Definition same_observer (a b : observer) : bool := ob_id a =? ob_id b.

(** What a callback does to the list. *)
Inductive registration : Type := AddObserver (o : observer) | RemoveObserver (o : observer).

Definition register (r : registration) (l : list observer) : list observer :=
  match r with
  | AddObserver o => l ++ [o]
  | RemoveObserver o => List.filter (fun x => negb (same_observer x o)) l
  end.

Section FanOut.
(** A notice, and what the observers do when they get it. *)
Context {N : Type} (reaction : observer -> N -> list registration).
Abbreviation turn := (prog (list observer) (observer * N)).

(** The snapshot is walked; an observer that is not in the live list any more is skipped. *)
Definition fan_out (n : N) : turn unit :=
  snapshot ← gets id;
  each (fun o =>
    l ← gets id;
    if existsb (same_observer o) l then emit (o, n) ;; modify (fun l => fold_left (fun l r => register r l) (reaction o n) l)
    else mret tt) snapshot.

End FanOut.

(** ** Capture rates *)

(** The answers to a sequence of publications of a topic. *)
Fixpoint wanted hash (nows : list Z) p : list bool :=
  match nows with
  | [] => []
  | now :: nows => let '(b, p) := wants_payload hash now p in b :: wanted hash nows p
  end.

Lemma rule_for_counter h n p hash : rule_for (set_counter h n p) hash = rule_for p hash.
Proof. done. Qed.

Lemma rule_for_last h t p hash : rule_for (set_last_emit h t p) hash = rule_for p hash.
Proof. done. Qed.

Lemma wanted_counted hash rule nows : forall p c,
  rule_for p hash = rule -> fidelity_payload <= tc_fidelity rule -> tc_mode rule = count_n -> 0 <= tc_decimation rule ->
  default 0 (cp_counters p !! hash) = c -> 0 <= c -> c + zlen nows < 2 ^ 32 ->
  wanted hash nows p = map (fun i => (c + Z.of_nat i + 1) mod Z.max 1 (tc_decimation rule) =? 0) (seq 0 (length nows)).
Proof.
  induction nows as [|now nows IH]; intros p c Hr Hf Hm Hd Hc H0 Hb; [done|]. unfold zlen in *. cbn [length] in Hb. cbn [wanted].
  unfold wants_payload. rewrite Hr, Hm, Hc. destruct (Z.ltb_spec (tc_fidelity rule) fidelity_payload); [lia|].
  rewrite wrap_small by (unfold in_width; lia).
  rewrite (IH _ (c + 1)); [|done..|by cbn; rewrite lookup_insert_eq|lia|lia]. cbn [length seq map]. f_equal.
  - rewrite Z.add_0_r. destruct (Z.eqb_spec (tc_decimation rule) 0) as [->|]; [done|]. by rewrite Z.max_r by lia.
  - rewrite <- seq_shift, map_map. apply map_ext. intros i. do 2 f_equal. lia.
Qed.

(** The times at which a record was kept. *)
Fixpoint kept_times (nows : list Z) (answers : list bool) : list Z :=
  match nows, answers with
  | now :: nows, b :: answers => if b then now :: kept_times nows answers else kept_times nows answers
  | _, _ => []
  end.

Definition spaced (window : Z) (last : Z) (times : list Z) : Prop :=
  forall i a b, (last :: times) !! i = Some a -> (last :: times) !! S i = Some b -> window <= b - a.

Lemma spaced_cons window last t times : window <= t - last -> spaced window t times -> spaced window last (t :: times).
Proof. intros H Hs [|i] a b Ha Hb; cbn in Ha, Hb; [by simplify_eq|]. by eapply (Hs i). Qed.

Lemma wanted_windowed hash rule nows : forall p last,
  rule_for p hash = rule -> fidelity_payload <= tc_fidelity rule -> tc_mode rule = time_window -> tc_window_ns rule < 2 ^ 64 ->
  cp_last_emit_ns p !! hash = Some last -> 0 < last -> Forall (fun now => last <= now < 2 ^ 64) nows -> StronglySorted Z.le nows ->
  let times := kept_times nows (wanted hash nows p) in
  spaced (tc_window_ns rule) last times /\ Forall (fun now => exists t, t ∈ last :: times /\ 0 <= now - t < Z.max 1 (tc_window_ns rule)) nows.
Proof.
  induction nows as [|now nows IH]; intros p last Hr Hf Hm Hw Hl H0 Hn Hs; cbv zeta.
  { split; [|apply Forall_nil_2]. intros [|i] a b Ha Hb; by cbn in Hb. }
  apply Forall_cons in Hn as [Hnow Hn]. apply StronglySorted_inv in Hs as [Hs Hle]. cbn [wanted]. unfold wants_payload. rewrite Hr, Hm, Hl. cbn [default from_option id].
  destruct (Z.ltb_spec (tc_fidelity rule) fidelity_payload); [lia|]. rewrite wrap_small by (unfold in_width; lia).
  destruct (Z.eqb_spec last 0); [lia|]. rewrite andb_true_r.
  destruct (Z.ltb_spec (now - last) (tc_window_ns rule)) as [Hin|Hout].
  - destruct (IH (set_last_emit hash last p) last) as [H1 H2]; try done; [by cbn; rewrite lookup_insert_eq|]. cbn [kept_times]. split; [done|].
    constructor; [|done]. exists last. split; [constructor|lia].
  - destruct (Z.eqb_spec now 0); [lia|]. destruct (IH (set_last_emit hash now p) now) as [H1 H2]; try done; [by cbn; rewrite lookup_insert_eq|lia| |].
    { apply Forall_forall. intros x Hx. rewrite Forall_forall in Hn, Hle. specialize (Hn x Hx). specialize (Hle x Hx). lia. }
    cbn [kept_times]. split; [by apply spaced_cons|]. constructor; [exists now; split; [apply list_elem_of_In; right; by left|lia]|].
    eapply Forall_impl; [exact H2|]. intros x (t & Ht & Hb). exists t. split; [by apply list_elem_of_further|done].
Qed.

(** Counting keeps exactly every n-th publication of a topic (every one for a decimation of zero); a window keeps records that are at least the
    window apart, and after the first record there is none without one kept less than a window before it or with it. *)
Theorem capture_rate_exact p hash nows :
  let rule := rule_for p hash in
  let times := kept_times nows (wanted hash nows p) in
  fidelity_payload <= tc_fidelity rule ->
  match tc_mode rule with
  | count_n => 0 <= tc_decimation rule -> cp_counters p !! hash = None -> zlen nows < 2 ^ 32 ->
      wanted hash nows p = map (fun i => (Z.of_nat i + 1) mod Z.max 1 (tc_decimation rule) =? 0) (seq 0 (length nows))
  | time_window => tc_window_ns rule < 2 ^ 64 -> cp_last_emit_ns p !! hash = None -> Forall (fun now => 0 < now < 2 ^ 64) nows -> StronglySorted Z.le nows ->
      (forall first, head nows = Some first -> head times = Some first) /\
      (forall i a b, times !! i = Some a -> times !! S i = Some b -> tc_window_ns rule <= b - a) /\
      Forall (fun now => exists t, t ∈ times /\ 0 <= now - t < Z.max 1 (tc_window_ns rule)) nows
  end.
Proof.
  cbv zeta. intros Hf. destruct (tc_mode (rule_for p hash)) eqn:Em.
  - intros Hd Hc Hb. by rewrite (wanted_counted hash (rule_for p hash) nows p 0); [|done..|by rewrite Hc|lia|lia].
  - intros Hw Hl Hn Hs. destruct nows as [|now nows].
    { split_and!; [done| |apply Forall_nil_2]. intros i a b Ha. done. }
    apply Forall_cons in Hn as [Hnow Hn]. apply StronglySorted_inv in Hs as [Hs Hle].
    assert (wanted hash (now :: nows) p = true :: wanted hash nows (set_last_emit hash now p)) as ->.
    { cbn [wanted]. unfold wants_payload. rewrite Em, Hl. cbn [default from_option id].
      destruct (Z.ltb_spec (tc_fidelity (rule_for p hash)) fidelity_payload); [lia|]. rewrite andb_false_r. destruct (Z.eqb_spec now 0); [lia|done]. }
    destruct (wanted_windowed hash (rule_for p hash) nows (set_last_emit hash now p) now) as [H1 H2]; try done; [by cbn; rewrite lookup_insert_eq|lia| |].
    { apply Forall_forall. intros x Hx. rewrite Forall_forall in Hn, Hle. specialize (Hn x Hx). specialize (Hle x Hx). lia. }
    cbn [kept_times]. split_and!; [by intros first [= <-]|exact H1|]. constructor; [exists now; split; [constructor|lia]|exact H2].
Qed.

Definition windowed : topic_capture_rule := TopicCaptureRule fidelity_payload time_window 1 100.
Definition decimated : topic_capture_rule := TopicCaptureRule fidelity_payload count_n 3 0.
Definition sample_policy : capture_policy := set_topic 7 windowed (set_topic 8 decimated capture_policy_new).

Lemma capture_rate_exact_witness :
  kept_times [5; 60; 110; 150; 400] (wanted 7 [5; 60; 110; 150; 400] sample_policy) = [5; 110; 400] /\
  Forall (fun now => exists t, t ∈ kept_times [5; 60; 110; 150; 400] (wanted 7 [5; 60; 110; 150; 400] sample_policy) /\ 0 <= now - t < 100) [5; 60; 110; 150; 400] /\
  wanted 8 [1; 1; 1; 1] sample_policy = [false; false; true; false].
Proof.
  split; [reflexivity|]. split.
  - pose proof (capture_rate_exact sample_policy 7 [5; 60; 110; 150; 400]) as H. cbv zeta in H. change (rule_for sample_policy 7) with windowed in H.
    apply H; [vm_compute; discriminate|vm_compute; reflexivity|reflexivity|repeat constructor|repeat constructor; discriminate].
  - pose proof (capture_rate_exact sample_policy 8 [1; 1; 1; 1]) as H. cbv zeta in H. change (rule_for sample_policy 8) with decimated in H.
    apply H; [vm_compute; discriminate|vm_compute; discriminate|reflexivity|vm_compute; reflexivity].
Defined.

(** ** Fanning out *)

Section Turn.
Context {N : Type} (reaction : observer -> N -> list registration).

Definition mentions (o : observer) (r : registration) : bool :=
  match r with AddObserver x | RemoveObserver x => same_observer x o end.
Definition adds (o : observer) (r : registration) : bool := match r with AddObserver x => same_observer x o | RemoveObserver _ => false end.
Definition removes (o : observer) (r : registration) : bool := match r with AddObserver _ => false | RemoveObserver x => same_observer x o end.

(** The observer is in the live list. *)
Definition registered (o : observer) (l : list observer) : bool := existsb (same_observer o) l.

Lemma same_observer_sym a b : same_observer a b = same_observer b a.
Proof. apply Z.eqb_sym. Qed.

Lemma registered_register r o l : registered o (register r l) = if removes o r then false else registered o l || adds o r.
Proof.
  unfold registered. destruct r as [x|x]; cbn.
  - rewrite existsb_app. cbn. by rewrite orb_false_r, same_observer_sym.
  - rewrite orb_false_r. induction l as [|y l IH]; cbn; [by destruct (same_observer x o)|]. unfold same_observer in *.
    destruct (Z.eqb_spec (ob_id y) (ob_id x)) as [Eyx|]; cbn; rewrite IH; destruct (Z.eqb_spec (ob_id x) (ob_id o)) as [Exo|Exo]; cbn.
    + done.
    + rewrite Eyx. destruct (Z.eqb_spec (ob_id o) (ob_id x)); [congruence|done].
    + destruct (Z.eqb_spec (ob_id o) (ob_id y)); [congruence|done].
    + done.
Qed.

Lemma registered_kept o rs : forall l, Forall (fun r => removes o r = false) rs -> registered o l = true -> registered o (fold_left (fun l r => register r l) rs l) = true.
Proof.
  induction rs as [|r rs IH]; intros l Hr Hl; [done|]. apply Forall_cons in Hr as [H1 H2]. cbn. apply IH; [done|]. by rewrite registered_register, H1, Hl.
Qed.

Lemma registered_gone o rs : forall l, Forall (fun r => adds o r = false) rs -> registered o l = false \/ Exists (fun r => removes o r = true) rs ->
  registered o (fold_left (fun l r => register r l) rs l) = false.
Proof.
  induction rs as [|r rs IH]; intros l Ha Hl; [by destruct Hl as [Hl|Hl]; [|inversion Hl]|]. apply Forall_cons in Ha as [H1 H2]. cbn. apply IH; [done|].
  rewrite registered_register, H1, orb_false_r. destruct Hl as [->|Hl]; [left; by destruct (removes o r)|]. apply Exists_cons in Hl as [->|Hl]; [by left|by right].
Qed.

(** What a walk over the rest of the snapshot does. *)
Lemma walk_run n snapshot : forall l, exists evs l',
  each (fun o => l ← gets id;
    if existsb (same_observer o) l then emit (o, n) ;; modify (fun l => fold_left (fun l r => register r l) (reaction o n) l) else mret tt) snapshot l
    = Some (tt, map (fun o => (o, n)) evs, l') /\
  sublist evs snapshot /\
  (forall o, registered o l = true -> (forall x, x ∈ snapshot -> Forall (fun r => removes o r = false) (reaction x n)) ->
     List.filter (same_observer o) evs = List.filter (same_observer o) snapshot) /\
  (forall o, registered o l = false -> (forall x, x ∈ snapshot -> Forall (fun r => adds o r = false) (reaction x n)) -> Forall (fun x => same_observer o x = false) evs) /\
  (forall o pre x post, evs = pre ++ x :: post -> Exists (fun r => removes o r = true) (reaction x n) ->
     (forall x, x ∈ snapshot -> Forall (fun r => adds o r = false) (reaction x n)) -> Forall (fun x => same_observer o x = false) post).
Proof.
  induction snapshot as [|y snapshot IH]; intros l.
  { exists [], l. split_and!; try done; intros; destruct pre; done. }
  cbn [each]. destruct (existsb (same_observer y) l) eqn:Ey.
  - set (l1 := fold_left (fun l r => register r l) (reaction y n) l). destruct (IH l1) as (evs & l' & E & Hs & H1 & H2 & H3). exists (y :: evs), l'.
    assert ((l0 ← gets id; if existsb (same_observer y) l0 then emit (y, n) ;; modify (fun l => fold_left (fun l r => register r l) (reaction y n) l) else mret tt) l
      = Some (tt, [(y, n)], l1)) as E1 by (rewrite bind_gets; cbn; by rewrite Ey).
    split; [by rewrite (bind_run _ _ _ _ _ _ E1), E|]. split; [by constructor|]. split_and!.
    + intros o Ho Hr. cbn. rewrite H1; [done|by apply registered_kept; [apply Hr; constructor|]|]. intros x Hx. apply Hr. by constructor.
    + intros o Ho Ha. constructor.
      * destruct (same_observer o y) eqn:E2; [|done]. exfalso. unfold registered, same_observer in *. apply Z.eqb_eq in E2. rewrite E2 in Ho. congruence.
      * apply H2; [|intros x Hx; apply Ha; by constructor]. apply registered_gone; [apply Ha; constructor|by left].
    + intros o [|z pre] x post Hp Hx Ha; cbn in Hp; simplify_eq.
      * apply H2; [|intros z Hz; apply Ha; by constructor]. apply registered_gone; [apply Ha; constructor|by right].
      * eapply H3; [done|done|]. intros z' Hz. apply Ha. by constructor.
  - destruct (IH l) as (evs & l' & E & Hs & H1 & H2 & H3). exists evs, l'.
    assert ((l0 ← gets id; if existsb (same_observer y) l0 then emit (y, n) ;; modify (fun l => fold_left (fun l r => register r l) (reaction y n) l) else mret tt) l
      = Some (tt, [], l)) as E1 by (rewrite bind_gets; cbn; by rewrite Ey).
    split; [by rewrite (bind_run _ _ _ _ _ _ E1), E|]. split; [by constructor|]. split_and!.
    + intros o Ho Hr. cbn. destruct (same_observer o y) eqn:E2.
      * exfalso. unfold registered, same_observer in *. apply Z.eqb_eq in E2. rewrite E2 in Ho. congruence.
      * apply H1; [done|]. intros x Hx. apply Hr. by constructor.
    + intros o Ho Ha. apply H2; [done|]. intros x Hx. apply Ha. by constructor.
    + intros o pre x post Hp Hx Ha. eapply H3; [done|done|]. intros z Hz. apply Ha. by constructor.
Qed.

(** A posted notice reaches observers of the list as it was when the turn began, in its order and each at most as often as it is
    registered: one that no callback of the turn removes gets all its calls, one that a callback removed and none adds again gets none after
    that, and one that is added during the turn has to wait for the next. *)
Theorem fan_out_honours_the_turn n l :
  exists evs l', fan_out reaction n l = Some (tt, map (fun o => (o, n)) evs, l') /\ sublist evs l /\
    (forall o, o ∈ l -> (forall x, x ∈ l -> Forall (fun r => removes o r = false) (reaction x n)) ->
       List.filter (same_observer o) evs = List.filter (same_observer o) l) /\
    (forall o pre x post, evs = pre ++ x :: post -> Exists (fun r => removes o r = true) (reaction x n) ->
       (forall x, x ∈ l -> Forall (fun r => adds o r = false) (reaction x n)) -> Forall (fun x => same_observer o x = false) post).
Proof.
  unfold fan_out. rewrite bind_gets. destruct (walk_run n l l) as (evs & l' & E & Hs & H1 & _ & H3). exists evs, l'. split_and!; try done.
  intros o Ho. apply H1. unfold registered. apply existsb_exists. exists o. split; [by apply list_elem_of_In|]. apply Z.eqb_refl.
Qed.

End Turn.
