(* ===== verification/Engine.v ===== *)
(** * The routing engine and the registry of peer sessions

    Models [routing_engine.h], [detail/routing_sink_install.h], [peer_session_registry.h],
    [detail/peer_session_build.h], [session_build_context.h], [node_name.h] and [endpoint_id.h] of
    [lib/plexus-core/include/plexus/io/], over the models of the session, the forwarders, the redial
    driver, the awareness table, the monitor, the arbiter and the observers.

    The engine owns a slot per peer: the record that outlives the sessions, the redial driver, the
    session and the channel it speaks on.  The channels are in one store, and a channel is destroyed
    when the next session of its slot is built; a reference to it that is left over is then
    dangling, and its use is [None].  What a session, a forwarder or a driver calls out is handled
    here the way [install_routing_sinks] and the [wire_] functions connect it, in the order of the
    calls: the handlers touch the engine's own tables only, except for the drop of a transport and
    the redial, which are the last thing their caller does.

    The storages are the default ones, on the heap, and no upgrade medium is installed, so that the
    upgrade coordinator holds no companion.  [steady] and [wall] are the readings of the two clocks
    in a turn of the executor. *)

From S2P Require Import Prelude EventMonad ByteOrder Varint Cursor Frame Control Hash Fragmentation Security Handshake SendQueue Negotiator Egress Qos History Registry Forwarder Procedure Session PeerTables Liveliness Liveness Reconnect Observation.

(** ** Names *)

Definition hex_digit (v : Z) : byte := byte.of_Z (if v <? 10 then 48 + v else 87 + v).

(** ["peer-"] and the id in hexadecimal. *)
Definition node_name_of (id : node_id) : bytes :=
  map byte.of_Z [112; 101; 101; 114; 45] ++
  concat (map (fun b => [hex_digit (Z.shiftr ⟦b⟧ 4); hex_digit (Z.land ⟦b⟧ 15)]) id).

Definition unhex (c : byte) : Z := if ⟦c⟧ <? 58 then ⟦c⟧ - 48 else ⟦c⟧ - 87.

Lemma unhex_pair b : byte.of_Z (16 * unhex (hex_digit (Z.shiftr ⟦b⟧ 4)) + unhex (hex_digit (Z.land ⟦b⟧ 15))) = b.
Proof. destruct b; vm_compute; reflexivity. Qed.

(** Peers with different ids have different names, by which the demands are filed. *)
Theorem node_names_are_distinct (a b : node_id) : node_name_of a = node_name_of b -> a = b.
Proof.
  unfold node_name_of. intros H. apply app_inv_head in H. revert b H. induction a as [|x a IH]; intros [|y b] H; cbn in H; try done.
  injection H as H1 H2 H3. f_equal; [|by apply IH]. rewrite <- (unhex_pair x), <- (unhex_pair y). by rewrite H1, H2.
Qed.

(** Two hashes of the endpoint, little-endian. *)
Definition endpoint_id (ep : endpoint) : node_id :=
  let mixed := fun basis => foldl fnv_step basis (ep_scheme ep ++ [byte.of_Z 0] ++ ep_address ep) in
  rev (be_bytes 8 (mixed 1469598103934665603)) ++ rev (be_bytes 8 (mixed 0x9e3779b97f4a7c15)).

(** ** State *)

Record clocks : Type := Clocks { steady : Z; wall : Z }.

Inductive notice : Type :=
| PeerEdge (edge : lifecycle_edge) (id : node_id) (node_name : bytes) (kind : peer_kind)
| PeerRejected (id : node_id) (node_name : bytes) (reason : handshake_outcome)
| PeerVerdict (ev : peer_liveliness_event)
| LivenessLapsed (ev : liveness_event)
| SecurityNotice (kind : security_kind) (cause : security_cause)
| DropNotice (cause : drop_cause) (tier : locality) (band : nat) (hash : Z)
| MessagePublished (fqn view : bytes)
| MessageDelivered (fqn : bytes) (info : message_info) (view : bytes)
| QosChanged (edge : qos_edge) (hash : Z) (requested : subscriber_qos) (v : rxo_verdict) (type_id : option Z)
| RpcNotice (ev : procedure_event).

Inductive engine_event : Type :=
| Post (n : notice)                                   (** [Policy::post] of a fan-out *)
| FromSession (id : node_id) (ev : session_event)     (** a callback of the application, a timer, a close *)
| FromForwarder (ev : forwarder_event)
| FromProcedures (ev : procedure_event)
| Dial (ep : endpoint)                                (** [m_transport.dial] *)
| ArmRedial (id : node_id) (ms : Z)
| ArmTick (ms : Z)
| WarnEndpointClaimed
| WarnInboundCollision.

Record slot_block (R : Type) : Type := SlotBlock {
  sl_record : peer_context;
  sl_dial_endpoint : endpoint;
  sl_channel : option Z;
  sl_driver : driver R;
  sl_session : option session;
  sl_timer : bool;               (** a wait on the session's handshake timer is pending *)
  sl_dead : bool;
}.
Arguments SlotBlock {R}.
Arguments sl_record {R}.
Arguments sl_dial_endpoint {R}.
Arguments sl_channel {R}.
Arguments sl_driver {R}.
Arguments sl_session {R}.
Arguments sl_timer {R}.
Arguments sl_dead {R}.

(** [session_build_context], less what the node shares. *)
Record build_context (R : Type) : Type := BuildContext {
  bc_fsm_cfg : handshake_fsm_config;
  bc_handshake_timeout : Z;
  bc_redial : reconnect_config;
  bc_redial_seed : R;
  bc_install_security : security_seam;
  bc_has_factory : bool;         (** [install_security_factory] is set *)
}.
Arguments BuildContext {R}.
Arguments bc_fsm_cfg {R}.
Arguments bc_handshake_timeout {R}.
Arguments bc_redial {R}.
Arguments bc_redial_seed {R}.
Arguments bc_install_security {R}.
Arguments bc_has_factory {R}.

Abbreviation known_table := (list (node_id * peer_record)).
Abbreviation monitor_tables := (monitor (list (deadline_key * endpoint_liveness)) (list (node_id * endpoint_liveness))).
Abbreviation arbiter_table := (peer_liveliness (list (node_id * peer_state))).

Record engine (R C : Type) : Type := EngineState {
  e_dial_eagerly : bool;
  e_liveliness : liveliness_options;
  e_capture : capture_policy;
  e_build : build_context R;
  e_node : node C;
  e_next_inbound : Z;
  e_slots : list (node_id * slot_block R);     (** [std::map] *)
  e_known_peers : known_table;
  e_monitor : monitor_tables;
  e_peer_liveliness : arbiter_table;
  e_observers : list observer;
  e_last_emit_ns : Z;
}.
Arguments EngineState {R C}.
Arguments e_dial_eagerly {R C}.
Arguments e_liveliness {R C}.
Arguments e_capture {R C}.
Arguments e_build {R C}.
Arguments e_node {R C}.
Arguments e_next_inbound {R C}.
Arguments e_slots {R C}.
Arguments e_known_peers {R C}.
Arguments e_monitor {R C}.
Arguments e_peer_liveliness {R C}.
Arguments e_observers {R C}.
Arguments e_last_emit_ns {R C}.

#[export] Instance known_storage : PeerTable node_id peer_record known_table := std_map_table fresh_record.
#[export] Existing Instances heap_deadlines heap_leases heap_table.

Section Engine.
Context {host : Host} {R C : Type} `{!Rng R} `{!PeerChannel C}.
Abbreviation eng := (prog (engine R C) engine_event).
Implicit Types (e : engine R C) (sl : slot_block R) (t : clocks).

Definition engine_new (build : build_context R) (eager : bool) (live : liveliness_options) (n : node C) : engine R C :=
  EngineState eager live capture_policy_new build n 1 [] [] (Monitor [] []) (arbiter_new live true) [] 0.

Definition set_node e (n : node C) : engine R C :=
  EngineState (e_dial_eagerly e) (e_liveliness e) (e_capture e) (e_build e) n (e_next_inbound e) (e_slots e) (e_known_peers e)
    (e_monitor e) (e_peer_liveliness e) (e_observers e) (e_last_emit_ns e).
Definition set_slots e l : engine R C :=
  EngineState (e_dial_eagerly e) (e_liveliness e) (e_capture e) (e_build e) (e_node e) (e_next_inbound e) l (e_known_peers e)
    (e_monitor e) (e_peer_liveliness e) (e_observers e) (e_last_emit_ns e).
Definition set_next_inbound e (n : Z) : engine R C :=
  EngineState (e_dial_eagerly e) (e_liveliness e) (e_capture e) (e_build e) (e_node e) n (e_slots e) (e_known_peers e)
    (e_monitor e) (e_peer_liveliness e) (e_observers e) (e_last_emit_ns e).
Definition set_known e l : engine R C :=
  EngineState (e_dial_eagerly e) (e_liveliness e) (e_capture e) (e_build e) (e_node e) (e_next_inbound e) (e_slots e) l
    (e_monitor e) (e_peer_liveliness e) (e_observers e) (e_last_emit_ns e).
Definition set_monitor e m : engine R C :=
  EngineState (e_dial_eagerly e) (e_liveliness e) (e_capture e) (e_build e) (e_node e) (e_next_inbound e) (e_slots e) (e_known_peers e)
    m (e_peer_liveliness e) (e_observers e) (e_last_emit_ns e).
Definition set_arbiter e a : engine R C :=
  EngineState (e_dial_eagerly e) (e_liveliness e) (e_capture e) (e_build e) (e_node e) (e_next_inbound e) (e_slots e) (e_known_peers e)
    (e_monitor e) a (e_observers e) (e_last_emit_ns e).
Definition set_observers e (l : list observer) (c : capture_policy) : engine R C :=
  EngineState (e_dial_eagerly e) (e_liveliness e) c (e_build e) (e_node e) (e_next_inbound e) (e_slots e) (e_known_peers e)
    (e_monitor e) (e_peer_liveliness e) l (e_last_emit_ns e).
Definition set_last_emit_ns e (now : Z) : engine R C :=
  EngineState (e_dial_eagerly e) (e_liveliness e) (e_capture e) (e_build e) (e_node e) (e_next_inbound e) (e_slots e) (e_known_peers e)
    (e_monitor e) (e_peer_liveliness e) (e_observers e) now.

Definition set_driver sl d : slot_block R :=
  SlotBlock (sl_record sl) (sl_dial_endpoint sl) (sl_channel sl) d (sl_session sl) (sl_timer sl) (sl_dead sl).
Definition set_session sl (s : session) : slot_block R :=
  SlotBlock (m_ctx s) (sl_dial_endpoint sl) (sl_channel sl) (sl_driver sl) (Some s) (sl_timer sl) (sl_dead sl).
Definition set_timer (b : bool) sl : slot_block R :=
  SlotBlock (sl_record sl) (sl_dial_endpoint sl) (sl_channel sl) (sl_driver sl) (sl_session sl) b (sl_dead sl).
Definition set_dead sl : slot_block R :=
  SlotBlock (sl_record sl) (sl_dial_endpoint sl) (sl_channel sl) (sl_driver sl) (sl_session sl) (sl_timer sl) true.

Definition the_engine : eng (engine R C) := gets (fun e => e).

Definition slot_at e (id : node_id) : option (slot_block R) := assoc_find id (e_slots e).
Definition on_slot (id : node_id) (f : slot_block R -> slot_block R) : eng unit :=
  modify (fun e => set_slots e (assoc_modify id f (e_slots e))).

(** [registry.session_for], [is_connected]. *)
Definition session_for e (id : node_id) : option session := slot_at e id ≫= sl_session.
Definition is_connected e (id : node_id) : bool := match session_for e id with Some s => m_forwarders_installed s | None => false end.
Definition has_session e (id : node_id) : bool := match session_for e id with Some _ => true | None => false end.
Definition is_dead e (id : node_id) : bool := match slot_at e id with Some sl => sl_dead sl | None => false end.
Definition id_for_endpoint e (ep : endpoint) : option node_id := fst <$> List.find (fun x => bool_decide (sl_dial_endpoint x.2 = ep)) (e_slots e).
Definition endpoint_claimed e (id : node_id) (ep : endpoint) : bool :=
  existsb (fun x => negb (bool_decide (x.1 = id)) && bool_decide (sl_dial_endpoint x.2 = ep)) (e_slots e).

(** ** Liveliness *)

Definition post_verdicts (evs : list peer_liveliness_event) : eng unit := each (fun ev => emit (Post (PeerVerdict ev))) evs.

Definition arbiter (op : arbiter_table -> option arbiter_table) : eng unit :=
  e ← the_engine; a ← lift (op (e_peer_liveliness e)); modify (fun e => set_arbiter e a).

Definition session_down (t : clocks) (id : node_id) : eng unit :=
  e ← the_engine;
  '(evs, a) ← lift (note_session_down id (steady t) (e_peer_liveliness e));
  modify (fun e => set_arbiter e a) ;;
  post_verdicts evs.

Definition engine_register_endpoint (t : clocks) (id : node_id) (node_name : bytes) : eng unit :=
  topics ← gets (fun e => remembered_topics (n_messages (e_node e)) node_name);
  each (fun d =>
    e ← the_engine;
    m ← lift (register_endpoint id (fqn_topic_hash (rd_fqn d)) (requested_deadline_ns (rd_qos d)) (requested_lease_ns (rd_qos d)) (steady t) (e_monitor e));
    modify (fun e => set_monitor e m)) topics.

Definition feed_liveliness_session (t : clocks) (edge : lifecycle_edge) (id : node_id) (node_name : bytes) : eng unit :=
  match edge with
  | edge_ready => engine_register_endpoint t id node_name ;; arbiter (note_session_up id)
  | edge_connected | edge_reconnected => arbiter (note_session_up id)
  | edge_disconnected | edge_dead => modify (fun e => set_monitor e (deregister_endpoint id (e_monitor e))) ;; session_down t id
  | edge_rejected => session_down t id
  end.

Definition dispatch_lifecycle (t : clocks) (edge : lifecycle_edge) (id : node_id) (node_name : bytes) (kind : peer_kind) (reason : handshake_outcome) : eng unit :=
  feed_liveliness_session t edge id node_name ;;
  match edge with
  | edge_rejected => emit (Post (PeerRejected id node_name reason))
  | _ => emit (Post (PeerEdge edge id node_name kind))
  end.

(** The sink [on_stamp_seen]. *)
Definition on_stamp_seen (t : clocks) (id : node_id) : eng unit :=
  modify (fun e => set_monitor e (stamp_seen id (steady t) (e_monitor e))) ;;
  modify (fun e => set_known e (refresh id (steady t) (e_known_peers e))) ;;
  arbiter (note_heartbeat id (steady t)).

(** ** The sinks of the forwarders *)

Definition observe_forwarder (t : clocks) (ev : forwarder_event) : eng unit :=
  c ← gets e_capture;
  match ev with
  | Published hash fqn view => if should_emit c hash then emit (Post (MessagePublished fqn view)) else mret tt
  | Delivered hash fqn info view => if should_emit c hash then emit (Post (MessageDelivered fqn info view)) else mret tt
  | QosChange edge hash requested v type_id =>
      if cp_observers_present c =? 0 then mret tt else emit (Post (QosChanged edge hash requested v type_id))
  | Shed cause tier band hash => emit (Post (DropNotice cause tier band hash))
  | StampReceived source hash => modify (fun e => set_monitor e (stamp_data source hash (steady t) (e_monitor e)))
  | ev => emit (FromForwarder ev)
  end.

Definition observe_procedures (ev : procedure_event) : eng unit :=
  c ← gets e_capture;
  match ev with
  | RpcCall _ _ | RpcServe _ _ | RpcReply _ _ _ => if cp_observers_present c =? 0 then mret tt else emit (Post (RpcNotice ev))
  | ev => emit (FromProcedures ev)
  end.

Definition in_forwarder {A} (t : clocks) (m : prog (message_forwarder C) forwarder_event A) : eng unit :=
  e ← the_engine;
  '(_, evs, f) ← lift (m (lend_messages (e_node e)));
  modify (fun e => set_node e (return_messages f (e_node e))) ;;
  each (observe_forwarder t) evs.

Definition in_procedures (m : prog (procedure_forwarder C) procedure_event unit) : eng unit :=
  e ← the_engine;
  '(_, evs, f) ← lift (m (lend_procedures (e_node e)));
  modify (fun e => set_node e (return_procedures f (e_node e))) ;;
  each observe_procedures evs.

(** ** Sessions *)

(** What [wire_observer], [wire_message_route] and [wire_object_route] connect. *)
Definition on_session_event (t : clocks) (id : node_id) (ev : session_event) : eng unit :=
  match ev with
  | Lifecycle edge kind reason =>
      o ← gets (fun e => slot_at e id);
      sl ← lift o;
      dispatch_lifecycle t edge (cx_peer_id (sl_record sl)) (cx_node_name (sl_record sl)) kind reason
  | StampSeen peer_id => on_stamp_seen t peer_id
  | SecurityEvent kind cause => emit (Post (SecurityNotice kind cause))
  | ArmHandshakeTimer _ => on_slot id (set_timer true) ;; emit (FromSession id ev)
  | CancelHandshakeTimer => on_slot id (set_timer false) ;; emit (FromSession id ev)
  | Msg ev => observe_forwarder t ev
  | Rpc ev => observe_procedures ev
  | ev => emit (FromSession id ev)
  end.

(** An operation of the session in a slot; [handle] takes its calls.  The record of the slot is the context the session refers to. *)
Definition session_step (handle : node_id -> session_event -> eng unit) (id : node_id) (m : prog (session * node C) session_event unit) : eng unit :=
  e ← the_engine;
  match slot_at e id with
  | Some sl =>
      match sl_session sl with
      | Some s =>
          '(_, evs, (s, n)) ← lift (m (s, e_node e));
          on_slot id (fun sl => set_session sl s) ;;
          modify (fun e => set_node e n) ;;
          each (handle id) evs
      | None => mret tt
      end
  | None => mret tt
  end.

(** [session->tear_down()] as the drop and redial callbacks call it. *)
Definition slot_tear_down (t : clocks) (id : node_id) : eng unit := session_step (on_session_event t) id tear_down.

(** [wire_redial], [wire_dead] and the dial of the transport. *)
Definition on_driver_event (t : clocks) (id : node_id) (ev : driver_event) : eng unit :=
  match ev with
  | OnRedial => slot_tear_down t id
  | TransportDial ep => emit (Dial ep)
  | ArmBackoff ms => emit (ArmRedial id ms)
  | OnDead =>
      o ← gets (fun e => slot_at e id);
      match o with
      | Some sl => on_slot id set_dead ;; dispatch_lifecycle t edge_dead id (cx_node_name (sl_record sl)) kind_dialed out_none
      | None => mret tt
      end
  end.

(** [driver_for(id)], which throws where there is no slot. *)
Definition on_driver (t : clocks) (id : node_id) (m : prog (driver R) driver_event unit) : eng unit :=
  o ← gets (fun e => slot_at e id);
  sl ← lift o;
  '(_, evs, d) ← lift (m (sl_driver sl));
  on_slot id (fun sl => set_driver sl d) ;;
  each (on_driver_event t id) evs.

(** [wire_drop] and [wire_inbound_drop]. *)
Definition on_transport_drop (t : clocks) (id : node_id) : eng unit :=
  o ← gets (fun e => session_for e id);
  match o with
  | Some s => if m_is_inbound_bootstrap s then slot_tear_down t id else on_driver t id (on_channel_dropped (steady t))
  | None => mret tt
  end.

Definition handle_session_event (t : clocks) (id : node_id) (ev : session_event) : eng unit :=
  match ev with TransportDrop => on_transport_drop t id | ev => on_session_event t id ev end.

Definition in_session (t : clocks) (id : node_id) (m : prog (session * node C) session_event unit) : eng unit :=
  session_step (handle_session_event t) id m.

(** ** [class peer_session_registry] *)

Definition slot_new (b : build_context R) (id : node_id) (ep : endpoint) (node_name : bytes) : slot_block R :=
  SlotBlock (PeerContext id node_name 0 false false) ep None (driver_new (bc_redial b) ep (bc_redial_seed b)) None false false.

(** [m_slots.emplace], where the key is new. *)
Definition emplace_slot (id : node_id) (sl : slot_block R) : eng unit := modify (fun e => set_slots e (map_insert sl id (e_slots e))).

Definition ensure_slot (id : node_id) (ep : endpoint) (node_name : bytes) : eng bool :=
  e ← the_engine;
  match slot_at e id with
  | Some _ => mret true
  | None =>
      if endpoint_claimed e id ep then emit WarnEndpointClaimed ;; mret false
      else emplace_slot id (slot_new (e_build e) id ep node_name) ;; mret true
  end.

(** The new channel replaces the old one, which is destroyed, and the session is built anew. *)
Definition rebuilt (b : build_context R) (sl : slot_block R) (ch : Z) (c : C) (inbound : bool) : slot_block R :=
  SlotBlock (sl_record sl) (sl_dial_endpoint sl) (Some ch) (sl_driver sl)
    (Some (session_new (bc_fsm_cfg b) (sl_record sl) ch (tier_of (remote_scheme c) =? loc_process) inbound (bc_handshake_timeout b)
             (attach_negotiator_new (bc_has_factory b) (Some (bc_install_security b)) None) false false true true))
    false (sl_dead sl).

Definition replace_channel (old : option Z) (ch : Z) (c : C) (n : node C) : node C :=
  Node (n_messages n) (n_procedures n) (<[ch := c]> (match old with Some old => delete old (n_channels n) | None => n_channels n end)).

Definition build_into (t : clocks) (id : node_id) (ch : Z) (c : C) (inbound : bool) : eng unit :=
  e ← the_engine;
  match slot_at e id with
  | Some sl =>
      modify (fun e => set_node e (replace_channel (sl_channel sl) ch c (e_node e))) ;;
      on_slot id (fun sl => rebuilt (e_build e) sl ch c inbound) ;;
      in_session t id (start (wall t) None)
  | None => mret tt
  end.

Definition build_session_for_endpoint (t : clocks) (ep : endpoint) (ch : Z) (c : C) : eng unit :=
  o ← gets (fun e => id_for_endpoint e ep);
  match o with
  | Some id => on_driver t id mark_dial_settled ;; build_into t id ch c false
  | None => mret tt
  end.

(** The counter, big-endian, behind eight zero bytes. *)
Definition inbound_id (n : Z) : node_id := replicate 8 (byte.of_Z 0) ++ be_bytes 8 n.

Definition accept_session (t : clocks) (ch : Z) (c : C) : eng unit :=
  n ← gets e_next_inbound;
  modify (fun e => set_next_inbound e (wrap 64 (n + 1))) ;;
  let id := inbound_id n in
  e ← the_engine;
  match slot_at e id with
  | Some _ => emit WarnInboundCollision
  | None => emplace_slot id (slot_new (e_build e) id (Endpoint [] []) (node_name_of id)) ;; build_into t id ch c true
  end.

Definition registry_dial_failed (t : clocks) (ep : endpoint) : eng unit :=
  o ← gets (fun e => id_for_endpoint e ep);
  match o with Some id => on_driver t id (notify_dial_failed (steady t)) | None => mret tt end.

Definition session_for_name e (node_name : bytes) : option node_id :=
  match List.find (fun x => bool_decide (cx_node_name (sl_record x.2) = node_name)) (e_slots e) with
  | Some (id, sl) => match sl_session sl with Some _ => Some id | None => None end
  | None => None
  end.

(** ** [class routing_engine] *)

(** [reach] and [dial], from the endpoint on. *)
Definition start_dialing (t : clocks) (id : node_id) (ep : endpoint) : eng unit :=
  ok ← ensure_slot id ep (node_name_of id);
  if ok : bool then on_driver t id (driver_start (steady t)) else mret tt.

Definition reach (t : clocks) (id : node_id) : eng unit :=
  e ← the_engine;
  if is_connected e id then mret tt else
  match lookup_peer id (e_known_peers e) with Some ep => start_dialing t id ep | None => mret tt end.

Definition engine_dial (t : clocks) (ep : endpoint) : eng unit :=
  e ← the_engine;
  if is_connected e (endpoint_id ep) then mret tt else start_dialing t (endpoint_id ep) ep.

Definition engine_note_peer (t : clocks) (id : node_id) (ep : endpoint) : eng unit :=
  e ← the_engine;
  known ← lift (note_peer id ep (steady t) (e_known_peers e));
  modify (fun e => set_known e known) ;;
  arbiter (note_awareness id) ;;
  if e_dial_eagerly e then reach t id else mret tt.

Definition engine_forget (id : node_id) : eng unit :=
  modify (fun e => set_known e (forget id (e_known_peers e))) ;;
  arbiter (fun a => Some (note_awareness_lost id a)).

Definition demand_in_scope e (id : node_id) (reach_mask : locality) : bool :=
  if reach_mask =? loc_any then true else
  match lookup_peer id (e_known_peers e) with Some ep => any_set reach_mask (tier_of (ep_scheme ep)) | None => false end.

Inductive reliability_requirement : Type := require_any | require_reliable.

Definition reliability_in_scope e (id : node_id) (require : reliability_requirement) : bool :=
  match require with
  | require_any => true
  | require_reliable => match lookup_peer id (e_known_peers e) with Some ep => scheme_is_reliable (ep_scheme ep) | None => false end
  end.

Definition engine_subscribe (t : clocks) (id : node_id) (fqn : bytes) (qos : subscriber_qos) (reach_mask : locality)
    (require : reliability_requirement) (type_id : option Z) : eng unit :=
  e ← the_engine;
  if negb (demand_in_scope e id reach_mask) then mret tt else
  if negb (reliability_in_scope e id require) then mret tt else
  reach t id ;;
  in_forwarder t (remember_demand (node_name_of id) fqn qos type_id) ;;
  e ← the_engine;
  if is_connected e id then in_session t id (subscribe (wall t) fqn qos type_id) else mret tt.

Definition engine_unsubscribe (t : clocks) (id : node_id) (fqn : bytes) : eng unit :=
  in_forwarder t (forget_remembered_demand (node_name_of id) fqn) ;;
  e ← the_engine;
  if is_connected e id then in_session t id (unsubscribe (wall t) fqn) else mret tt.

Definition engine_call (t : clocks) (id : node_id) (fqn param : bytes) (on_response : Z) : eng unit :=
  reach t id ;;
  e ← the_engine;
  match session_for e id with
  | Some s => if m_forwarders_installed s
              then in_procedures (call (wall t) (rpc_peer s) fqn param on_response None (m_session_id s))
              else mret tt
  | None => mret tt
  end.

Definition engine_publish (t : clocks) (fqn payload : bytes) : eng unit :=
  in_forwarder t (publish (fun _ _ _ => None) (wall t) fqn payload 0).

Definition inject_upgrade_receive (t : clocks) (node_name frame : bytes) : eng unit :=
  o ← gets (fun e => session_for_name e node_name);
  match o with Some id => in_session t id (on_receive (wall t) frame) | None => mret tt end.

Definition add_observer (o : observer) : eng unit :=
  modify (fun e => set_observers e (e_observers e ++ [o]) (if ob_data_path o then capture_add_observer (e_capture e) else e_capture e)) ;;
  if ob_liveliness o then arbiter (fun a => Some (add_subscriber a)) else mret tt.

Definition remove_observer (o : observer) : eng unit :=
  e ← the_engine;
  let rest := List.filter (fun x => negb (same_observer x o)) (e_observers e) in
  if Nat.eqb (length rest) (length (e_observers e)) then modify (fun e => set_observers e rest (e_capture e)) else
  modify (fun e => set_observers e rest (if ob_data_path o then capture_remove_observer (e_capture e) else e_capture e)) ;;
  if ob_liveliness o then arbiter (fun a => Some (remove_subscriber a)) else mret tt.

(** ** The tick *)

Definition sweep_aged_awareness (t : clocks) : eng unit :=
  e ← the_engine;
  let now := steady t in
  let ttl := wrap 64 (lo_awareness_ttl (e_liveliness e)) in
  let deadline := if now >? ttl then now - ttl else 0 in
  let '(reports, known) := expire_older_than deadline (e_known_peers e) in
  modify (fun e => set_known e known) ;;
  each (fun id => arbiter (fun a => Some (note_awareness_lost id a))) reports.

(** [for_each_connected]: the sessions that are complete, in the order of their ids. *)
Definition connected_ids e : list node_id :=
  map fst (List.filter (fun x => match sl_session x.2 with Some s => m_forwarders_installed s | None => false end) (e_slots e)).

Definition tick_action (t : clocks) : eng unit :=
  e ← the_engine;
  let now := steady t in
  let interval := wrap 64 (lo_heartbeat_interval (e_liveliness e) * 1000000) in
  (if wrap 64 (now - e_last_emit_ns e) >=? interval
   then each (fun id => in_session t id (emit_heartbeat (wall t))) (connected_ids e) ;; modify (fun e => set_last_emit_ns e now)
   else mret tt) ;;
  sweep_aged_awareness t ;;
  e ← the_engine;
  let '(evs, a) := evaluate now (e_peer_liveliness e) in
  modify (fun e => set_arbiter e a) ;;
  post_verdicts evs.

Definition on_tick (t : clocks) : eng unit :=
  e ← the_engine;
  let '(evs, m) := scan_liveness (steady t) (e_monitor e) in
  modify (fun e => set_monitor e m) ;;
  each (fun ev => emit (Post (LivenessLapsed ev))) evs ;;
  tick_action t ;;
  emit (ArmTick k_tick_granularity_ms).

(** ** The turns of the executor *)

Inductive engine_op : Type :=
| NotePeer (id : node_id) (ep : endpoint)
| Forget (id : node_id)
| Reach (id : node_id)
| DialEndpoint (ep : endpoint)
| Subscribe (id : node_id) (fqn : bytes) (qos : subscriber_qos) (reach_mask : locality) (require : reliability_requirement) (type_id : option Z)
| Unsubscribe (id : node_id) (fqn : bytes)
| Call (id : node_id) (fqn param : bytes) (on_response : Z)
| Publish (fqn payload : bytes)
| DeclareTopic (fqn : bytes) (qos : topic_qos) (type_id : option Z) (emit_identity : bool) (type_name : bytes) (hint : Z)
| Serve (fqn : bytes) (handler : Z)
| Retire (fqn : bytes)
| Reply (status : rpc_status) (data : bytes)
| AddObs (o : observer)
| RemoveObs (o : observer)
| Dialed (ep : endpoint) (ch : Z) (c : C)
| DialFailed (ep : endpoint)
| Accepted (ch : Z) (c : C)
| BackoffExpired (id : node_id)
| Arrived (id : node_id) (frame : bytes)
| Injected (node_name frame : bytes)
| ChannelError (id : node_id) (err : io_error)
| ProtocolClose (id : node_id)
| HandshakeTimer (id : node_id)
| RpcDeadline (node_name : bytes) (corr_id : Z)
| TickTurn.

(** A wait on the handshake timer that ran out. *)
Definition handshake_expired (t : clocks) (id : node_id) : eng unit :=
  e ← the_engine;
  match slot_at e id with
  | Some sl => if sl_timer sl then on_slot id (set_timer false) ;; in_session t id (on_handshake_timer (wall t) false) else mret tt
  | None => mret tt
  end.

Definition step (t : clocks) (o : engine_op) : eng unit :=
  match o with
  | NotePeer id ep => engine_note_peer t id ep
  | Forget id => engine_forget id
  | Reach id => reach t id
  | DialEndpoint ep => engine_dial t ep
  | Subscribe id fqn qos mask require type_id => engine_subscribe t id fqn qos mask require type_id
  | Unsubscribe id fqn => engine_unsubscribe t id fqn
  | Call id fqn param cb => engine_call t id fqn param cb
  | Publish fqn payload => engine_publish t fqn payload
  | DeclareTopic fqn qos type_id emit_identity type_name hint => in_forwarder t (declare_topic fqn qos type_id emit_identity type_name hint)
  | Serve fqn handler => in_procedures (serve fqn handler)
  | Retire fqn => in_procedures (retire fqn)
  | Reply status data => in_procedures (reply (wall t) status data)
  | AddObs o => add_observer o
  | RemoveObs o => remove_observer o
  | Dialed ep ch c => build_session_for_endpoint t ep ch c
  | DialFailed ep => registry_dial_failed t ep
  | Accepted ch c => accept_session t ch c
  | BackoffExpired id => on_driver t id backoff_expired
  | Arrived id frame => in_session t id (on_receive (wall t) frame)
  | Injected node_name frame => inject_upgrade_receive t node_name frame
  | ChannelError id err => in_session t id (on_error err)
  | ProtocolClose id => in_session t id on_channel_protocol_close
  | HandshakeTimer id => handshake_expired t id
  | RpcDeadline node_name corr_id => in_procedures (on_deadline node_name corr_id false)
  | TickTurn => on_tick t
  end.

End Engine.
Arguments engine_op : clear implicits.
