(* ===== verification/EngineSafety.v ===== *)
(** * The engine never uses a channel it destroyed

    The channels are shared: the sessions, the fan-out entries of the forwarder and the calls refer
    to them, and the registry destroys the channel of a slot when the next session of the slot is
    built.  The invariant here is what makes that sound: the channel of a slot that dials is
    condemned, nothing refers to it, and its session is torn down, so that it can go when the dial
    succeeds.  It needs that a slot has one dial in flight at most, which the driver guarantees as
    long as nobody reaches for a peer that waits out its backoff. *)

From S2P Require Import Prelude EventMonad ByteOrder Varint Cursor Frame Control Hash Fragmentation Security Handshake SendQueue Negotiator Egress Qos History Registry Forwarder Subscription ForwarderSafety Procedure Session SessionSafety PeerTables Liveliness Liveness Reconnect Observation Engine.

Section Engine.
Context {host : Host} {R C : Type} `{!Rng R} `{!LawfulRng R} `{!PeerChannel C} `{!PeerContract C}.
Abbreviation eng := (prog (engine R C) engine_event).
Abbreviation state := (session * node C)%type.
Implicit Types (e : engine R C) (sl : slot_block R) (t : clocks) (n : node C) (out : node_id -> Prop).

(** ** The part of the invariant that concerns channels *)

(** The channels of the slots in [out]. *)
Definition condemned_of e out : Condemned := fun ch =>
  exists id sl s, slot_at e id = Some sl /\ sl_session sl = Some s /\ out id /\ m_channel s = ch.

(** The channels of the sessions, but for that of [id]. *)
Definition bystanders_of e (id : node_id) : Bystanders := fun ch =>
  exists id' sl s, id' <> id /\ slot_at e id' = Some sl /\ sl_session sl = Some s /\ m_channel s = ch.

Definition nowhere : endpoint := Endpoint [] [].

(** A session in its slot. *)
Record held sl (s : session) : Prop := Held {
  hd_channel : sl_channel sl = Some (m_channel s);
  hd_record : sl_record sl = m_ctx s;
  hd_shape : shape_ok s;
  hd_inbound : m_is_inbound_bootstrap s = bool_decide (sl_dial_endpoint sl = nowhere);
}.

Definition retired sl (s : session) : Prop := m_torn_down s = true /\ m_forwarders_installed s = false /\ sl_timer sl = false.

Record channels_ok e out : Prop := ChannelsOk {
  ck_sorted : map_sorted (e_slots e);
  ck_messages : forwarder_ok (cd := condemned_of e out) (lend_messages (e_node e));
  ck_procedures : procedure_ok (lend_procedures (e_node e));
  ck_held : forall id sl s, slot_at e id = Some sl -> sl_session sl = Some s -> held sl s;
  ck_empty : forall id sl, slot_at e id = Some sl -> sl_session sl = None -> sl_channel sl = None;
  ck_exists : forall id sl s, slot_at e id = Some sl -> sl_session sl = Some s -> is_Some (n_channels (e_node e) !! m_channel s);
  ck_retired : forall id sl s, slot_at e id = Some sl -> sl_session sl = Some s -> out id -> retired sl s;
  ck_apart : forall id id' sl sl' s s', slot_at e id = Some sl -> slot_at e id' = Some sl' -> sl_session sl = Some s -> sl_session sl' = Some s' ->
    m_channel s = m_channel s' -> id = id';
}.

Lemma channel_in_use e out id sl s :
  channels_ok e out -> slot_at e id = Some sl -> sl_session sl = Some s -> ~ out id -> live (cd := condemned_of e out) (lend_messages (e_node e)) (m_channel s).
Proof.
  intros H Hsl Hs Ho. split; [by eapply ck_exists|]. intros (id' & sl' & s' & H1 & H2 & H3 & H4). apply Ho.
  by rewrite <- (ck_apart _ _ H id' id sl' sl s' s).
Qed.

(** The forwarder over other channels and with others condemned. *)
Lemma forwarder_ok_move (cd cd' : Condemned) n (m : gmap Z C) p :
  forwarder_ok (cd := cd) (lend_messages n) ->
  (forall ch c, m !! ch = Some c -> ready c) ->
  (forall a b c d, m !! a = Some c -> m !! b = Some d -> scheduler_key c = scheduler_key d -> a = b) ->
  (forall h x s, m_topics (registry_of (n_messages n)) !! h = Some x -> s ∈ e_subscribers x ->
     live (cd := cd) (lend_messages n) (s_channel s) -> is_Some (m !! s_channel s) /\ ~ cd' (s_channel s)) ->
  forwarder_ok (cd := cd') (lend_messages (Node (n_messages n) p m)).
Proof.
  intros [H1 H2 H3 H4 H5 H6 H7] Hr Hk Hs. split; try done. intros h x s Hx Hin. by apply (Hs h x s Hx Hin), (H5 h x s).
Qed.

Lemma forwarder_ok_weaken (cd cd' : Condemned) n :
  (forall ch, cd' ch -> cd ch) -> forwarder_ok (cd := cd) (lend_messages n) -> forwarder_ok (cd := cd') (lend_messages n).
Proof.
  intros Himp Hf. destruct n as [msgs p m]. apply (forwarder_ok_move cd cd' (Node msgs p m) m p Hf); [apply Hf|apply Hf|].
  intros h x s _ _ [Hl Hc]. split; [exact Hl|]. intros H. by apply Hc, Himp.
Qed.

Lemma procedure_ok_move n (m : gmap Z C) f : procedure_ok (lend_procedures n) -> (forall ch c, m !! ch = Some c -> ready c) ->
  procedure_ok (lend_procedures (Node f (n_procedures n) m)).
Proof. intros Hp Hm. by apply procedure_ok_channels. Qed.

(** ** Changes of the tables *)

(** The endpoints that are known are somewhere. *)
Definition known_ok e : Prop := map_sorted (e_known_peers e) /\ forall id r, assoc_find id (e_known_peers e) = Some r -> pr_ep r <> nowhere.

(** What the handlers of the calls may do: the slots keep all but a timer and the mark of death. *)
Definition stripped sl : slot_block R :=
  SlotBlock (sl_record sl) (sl_dial_endpoint sl) (sl_channel sl) (sl_driver sl) (sl_session sl) false false.

Record tables_only (id : node_id) e e' : Prop := TablesOnly {
  to_node : e_node e' = e_node e;
  to_build : e_build e' = e_build e;
  to_known : known_ok e -> known_ok e';
  to_keys : (e_slots e').*1 = (e_slots e).*1;
  to_other : forall id', id' <> id -> slot_at e' id' = slot_at e id';
  to_slot : stripped <$> slot_at e' id = stripped <$> slot_at e id;
}.

Lemma tables_only_refl id e e' :
  e_node e' = e_node e -> e_build e' = e_build e -> (known_ok e -> known_ok e') -> e_slots e' = e_slots e -> tables_only id e e'.
Proof. intros H1 H2 H3 H4. split; unfold slot_at; rewrite ?H4; done. Qed.

Lemma tables_only_trans id e e1 e2 : tables_only id e e1 -> tables_only id e1 e2 -> tables_only id e e2.
Proof.
  intros [A1 A2 A3 A4 A5 A6] [B1 B2 B3 B4 B5 B6]. split; try congruence; [auto|]. intros id' Hne. by rewrite B5, A5.
Qed.

(** The slots a slot table and another one share, but for timers and marks. *)
Lemma tables_only_slot id e e' id' sl' :
  tables_only id e e' -> slot_at e' id' = Some sl' ->
  exists sl, slot_at e id' = Some sl /\ sl_record sl' = sl_record sl /\ sl_dial_endpoint sl' = sl_dial_endpoint sl /\
    sl_channel sl' = sl_channel sl /\ sl_driver sl' = sl_driver sl /\ sl_session sl' = sl_session sl /\ (id' <> id -> sl' = sl).
Proof.
  intros H Hs. destruct (decide (id' = id)) as [->|Hne].
  - pose proof (to_slot _ _ _ H) as Hst. rewrite Hs in Hst. destruct (slot_at e id) as [sl|]; [|done]. cbn in Hst. injection Hst as ? ? ? ? ?.
    exists sl. by split_and!.
  - rewrite (to_other _ _ _ H) in Hs by done. exists sl'. by split_and!.
Qed.

Lemma tables_only_slot' id e e' id' sl :
  tables_only id e e' -> slot_at e id' = Some sl ->
  exists sl', slot_at e' id' = Some sl' /\ sl_record sl' = sl_record sl /\ sl_dial_endpoint sl' = sl_dial_endpoint sl /\
    sl_channel sl' = sl_channel sl /\ sl_driver sl' = sl_driver sl /\ sl_session sl' = sl_session sl.
Proof.
  intros H Hs. destruct (slot_at e' id') as [sl'|] eqn:E.
  - destruct (tables_only_slot id e e' id' sl' H E) as (sl0 & E0 & H1 & H2 & H3 & H4 & H5 & _). rewrite Hs in E0. injection E0 as <-. by exists sl'.
  - exfalso. destruct (decide (id' = id)) as [->|Hne]; [|rewrite (to_other _ _ _ H) in E by done; congruence].
    pose proof (to_slot _ _ _ H) as Hst. by rewrite E, Hs in Hst.
Qed.

Lemma tables_only_condemned id e e' out ch : tables_only id e e' -> condemned_of e' out ch <-> condemned_of e out ch.
Proof.
  intros H. split; intros (id' & sl & s & H1 & H2 & H3 & H4).
  - destruct (tables_only_slot _ _ _ _ _ H H1) as (sl0 & E & _ & _ & _ & _ & Es & _). exists id', sl0, s. by rewrite <- Es.
  - destruct (tables_only_slot' _ _ _ _ _ H H1) as (sl0 & E & _ & _ & _ & _ & Es). exists id', sl0, s. by rewrite Es.
Qed.

Lemma channels_ok_tables id e e' out :
  tables_only id e e' -> ~ out id \/ slot_at e' id = slot_at e id -> channels_ok e out -> channels_ok e' out.
Proof.
  intros H Hout [K1 K2 K3 K4 K5 K6 K7 K8]. split.
  - unfold map_sorted. by rewrite (to_keys _ _ _ H).
  - rewrite (to_node _ _ _ H). eapply forwarder_ok_weaken; [|exact K2]. intros ch. by rewrite tables_only_condemned.
  - by rewrite (to_node _ _ _ H).
  - intros id' sl s Hs Hss. destruct (tables_only_slot _ _ _ _ _ H Hs) as (sl0 & E & E1 & E2 & E3 & E4 & E5 & _). rewrite E5 in Hss.
    destruct (K4 _ _ _ E Hss) as [A1 A2 A3 A4]. split; [congruence|congruence|done|by rewrite E2].
  - intros id' sl Hs Hss. destruct (tables_only_slot _ _ _ _ _ H Hs) as (sl0 & E & _ & _ & E3 & _ & E5 & _). rewrite E3. apply (K5 _ _ E). congruence.
  - intros id' sl s Hs Hss. destruct (tables_only_slot _ _ _ _ _ H Hs) as (sl0 & E & _ & _ & _ & _ & E5 & _). rewrite (to_node _ _ _ H).
    apply (K6 id' sl0); congruence.
  - intros id' sl s Hs Hss Ho. destruct (tables_only_slot _ _ _ _ _ H Hs) as (sl0 & E & _ & _ & _ & _ & E5 & E6).
    apply (K7 id'); [|done|done]. destruct (decide (id' = id)) as [->|Hne]; [|by rewrite (E6 Hne)]. by destruct Hout as [|<-].
  - intros i j sl sl' s s' H1 H2 H3 H4 Hc. destruct (tables_only_slot _ _ _ _ _ H H1) as (a & A1 & _ & _ & _ & _ & A2 & _).
    destruct (tables_only_slot _ _ _ _ _ H H2) as (b & B1 & _ & _ & _ & _ & B2 & _). apply (K8 i j a b s s'); congruence.
Qed.

(** ** The handlers of the calls of a session *)

Definition dials (evs : list engine_event) : list endpoint := omap (fun ev => match ev with Dial ep => Some ep | _ => None end) evs.

Lemma dials_app a b : dials (a ++ b) = dials a ++ dials b.
Proof. apply omap_app. Qed.

(** The node, the registry and the driver's configuration stay. *)
Definition untouched e e' : Prop :=
  e_node e' = e_node e /\ e_build e' = e_build e /\ (known_ok e -> known_ok e') /\ e_slots e' = e_slots e.

Lemma untouched_refl e : untouched e e.
Proof. by split_and!. Qed.

Lemma untouched_twice e e1 e2 : untouched e e1 -> untouched e1 e2 -> untouched e e2.
Proof. intros (A1 & A2 & A3 & A4) (B1 & B2 & B3 & B4). split_and!; [congruence|congruence|auto|congruence]. Qed.

Lemma untouched_tables id e e' : untouched e e' -> tables_only id e e' /\ slot_at e' id = slot_at e id.
Proof. intros (H1 & H2 & H3 & H4). split; [by apply tables_only_refl|]. unfold slot_at. by rewrite H4. Qed.

(** [m] changes neither and does not dial. *)
Definition tabular {A} (m : eng A) e : Prop := wp m (fun _ evs e' => dials evs = [] /\ untouched e e') e.

Lemma tabular_bind {A B} (m : eng A) (k : A -> eng B) e :
  tabular m e -> (forall x e', untouched e e' -> tabular (k x) e') -> tabular (m ≫= k) e.
Proof.
  intros Hm Hk. apply wp_bind. eapply wp_mono; [exact Hm|]. intros x e1 e' (D1 & T1). eapply wp_mono; [exact (Hk x e' T1)|].
  intros y e2 e'' (D2 & T2). rewrite dials_app, D1, D2. split; [done|by eapply untouched_twice].
Qed.

Lemma tabular_ret {A} (x : A) e : tabular (mret x) e.
Proof. apply wp_ret. split; [done|apply untouched_refl]. Qed.

Lemma tabular_emit ev e : dials [ev] = [] -> tabular (emit ev) e.
Proof. intros H. apply wp_emit. split; [done|apply untouched_refl]. Qed.

Lemma tabular_gets {A B} (f : engine R C -> A) (k : A -> eng B) e : tabular (k (f e)) e -> tabular (gets f ≫= k) e.
Proof. apply wp_bind_gets. Qed.

Lemma tabular_lift {A B} (x : A) (k : A -> eng B) e : tabular (k x) e -> tabular (lift (Some x) ≫= k) e.
Proof. apply wp_bind_lift. Qed.

Lemma tabular_modify (g : engine R C -> engine R C) e :
  e_node (g e) = e_node e -> e_build (g e) = e_build e -> (known_ok e -> known_ok (g e)) -> e_slots (g e) = e_slots e -> tabular (modify g) e.
Proof. intros H1 H2 H3 H4. apply wp_modify. by split_and!. Qed.

Lemma tabular_each {A} (f : A -> eng unit) l e : (forall x e', tabular (f x) e') -> tabular (each f l) e.
Proof.
  revert e. induction l as [|x l IH]; intros e Hf; cbn [each]; [apply tabular_ret|].
  apply tabular_bind; [apply Hf|]. intros _ e1 _. by apply IH.
Qed.

Lemma map_insert_some {K V} `{!EqDecision K} `{!KeyOrder K} (fresh : V) (k : K) l : is_Some (assoc_find k (map_insert fresh k l)).
Proof.
  induction l as [|[k' v] l IH]; cbn; [by rewrite decide_True|]. destruct (decide (k' = k)) as [->|Hne]; cbn; [by rewrite decide_True|].
  destruct (key_lt k k'); cbn; [by rewrite decide_True|]. by rewrite decide_False.
Qed.

Lemma arbiter_total (a : arbiter_table) id now :
  (exists a', note_heartbeat (PT := heap_table) id now a = Some a') /\ (exists a', note_session_up (PT := heap_table) id a = Some a') /\
  (exists a', note_awareness (PT := heap_table) id a = Some a') /\ (exists evs a', note_session_down (PT := heap_table) id now a = Some (evs, a')).
Proof.
  unfold note_heartbeat, note_session_up, note_awareness, note_session_down, at_or_insert. cbn.
  split_and!; [destruct (passive a); by eexists|by eexists|destruct (passive a); by eexists|].
  rewrite assoc_modify_find, decide_True by done. destruct (map_insert_some fresh_peer id (pl_storage a)) as [st ->]. cbn.
  destruct (settle _ _ _ _ _). by eexists _, _.
Qed.

Lemma tabular_arbiter op e : (exists a, op (e_peer_liveliness e) = Some a) -> tabular (arbiter op) e.
Proof. intros [a Ha]. unfold arbiter, the_engine. apply tabular_gets. rewrite Ha. by apply tabular_lift, tabular_modify. Qed.

Lemma tabular_verdicts evs e : tabular (post_verdicts evs) e.
Proof. apply tabular_each. intros x e'. by apply tabular_emit. Qed.

Lemma tabular_session_down t who e : tabular (session_down t who) e.
Proof.
  unfold session_down, the_engine. apply tabular_gets.
  destruct (arbiter_total (e_peer_liveliness e) who (steady t)) as (_ & _ & _ & evs & a & Ha). rewrite Ha. apply tabular_lift.
  apply tabular_bind; [by apply tabular_modify|]. intros _ e' _. apply tabular_verdicts.
Qed.

Lemma tabular_register t who name e : tabular (engine_register_endpoint t who name) e.
Proof.
  unfold engine_register_endpoint, the_engine. apply tabular_gets, tabular_each. intros d e'. apply tabular_gets.
  unfold register_endpoint, upsert_deadline, upsert_lease. cbn. by apply tabular_lift, tabular_modify.
Qed.

Lemma tabular_lifecycle t edge who name kind reason e : tabular (dispatch_lifecycle t edge who name kind reason) e.
Proof.
  unfold dispatch_lifecycle. apply tabular_bind; [|intros _ e' _; destruct edge; by apply tabular_emit].
  assert (forall e', tabular (arbiter (note_session_up who)) e') as Hup.
  { intros e'. apply tabular_arbiter. apply (arbiter_total _ who 0). }
  destruct edge; cbn [feed_liveliness_session]; try apply Hup; try apply tabular_session_down.
  - apply tabular_bind; [by apply tabular_modify|]. intros _ e' _. apply tabular_session_down.
  - apply tabular_bind; [by apply tabular_modify|]. intros _ e' _. apply tabular_session_down.
  - apply tabular_bind; [apply tabular_register|]. intros _ e' _. apply Hup.
Qed.

Lemma known_ok_refresh e who now : known_ok e -> known_ok (set_known e (refresh (PT := std_map_table fresh_record) who now (e_known_peers e))).
Proof.
  intros [H1 H2]. split; cbn; [unfold map_sorted; by rewrite assoc_modify_keys|]. intros id r. rewrite assoc_modify_find. case_decide as Hd.
  - destruct (assoc_find who (e_known_peers e)) as [r0|] eqn:E; cbn; [|done]. intros [= <-]. by apply (H2 who r0).
  - apply H2.
Qed.

Lemma tabular_stamp_seen t who e : tabular (on_stamp_seen t who) e.
Proof.
  unfold on_stamp_seen. apply tabular_bind; [by apply tabular_modify|]. intros _ e1 _.
  apply tabular_bind; [apply tabular_modify; try done; apply known_ok_refresh|]. intros _ e2 _.
  apply tabular_arbiter. apply (arbiter_total _ who (steady t)).
Qed.

Lemma tabular_forwarder t ev e : tabular (observe_forwarder t ev) e.
Proof.
  unfold observe_forwarder. apply tabular_gets.
  destruct ev; try (by apply tabular_emit); try (by apply tabular_modify); match goal with |- tabular (if ?b then _ else _) _ => destruct b end;
    by apply tabular_emit || apply tabular_ret.
Qed.

Lemma tabular_procedures ev e : tabular (observe_procedures ev) e.
Proof.
  unfold observe_procedures. apply tabular_gets. destruct ev; try (by apply tabular_emit);
    match goal with |- tabular (if ?b then _ else _) _ => destruct b end; by apply tabular_emit || apply tabular_ret.
Qed.

Definition next_timer (ev : session_event) (armed : bool) : bool :=
  match ev with ArmHandshakeTimer _ => true | CancelHandshakeTimer => false | _ => armed end.

(** What handling a call does to the tables. *)
Definition handled (id : node_id) (ev : session_event) (m : eng unit) e : Prop :=
  wp m (fun _ evs e' => dials evs = [] /\ tables_only id e e' /\ sl_timer <$> slot_at e' id = (fun sl => next_timer ev (sl_timer sl)) <$> slot_at e id) e.

Lemma handled_timer id ev b e :
  next_timer ev = (fun _ => b) -> handled id ev (on_slot id (set_timer b) ;; emit (FromSession id ev)) e.
Proof.
  intros Hn. unfold on_slot. apply wp_bind_modify, wp_emit. unfold slot_at. cbn [e_slots set_slots]. split_and!; [done|split; try done; unfold slot_at; cbn|].
  - apply assoc_modify_keys.
  - intros id' Hne. by rewrite assoc_modify_find, decide_False.
  - rewrite assoc_modify_find, decide_True by done. by destruct (assoc_find id (e_slots e)).
  - rewrite assoc_modify_find, decide_True by done. rewrite Hn. by destruct (assoc_find id (e_slots e)).
Qed.

Lemma on_session_event_run t id ev e : is_Some (slot_at e id) -> handled id ev (on_session_event t id ev) e.
Proof.
  intros [sl Hsl].
  assert (forall m, next_timer ev = (fun b => b) -> tabular m e -> handled id ev m e) as Htab.
  { intros m Hn Hm. eapply wp_mono; [exact Hm|]. intros x evs e' (H1 & H2). destruct (untouched_tables id _ _ H2) as [H3 H4]. split_and!; [done|done|]. rewrite Hn, H4. by destruct (slot_at e id). }
  destruct ev; cbn [on_session_event]; try (apply Htab; [done|by apply tabular_emit]); try (by apply handled_timer).
  - apply Htab; [done|apply tabular_forwarder].
  - apply Htab; [done|apply tabular_procedures].
  - apply Htab; [done|]. apply tabular_gets. rewrite Hsl. apply tabular_lift, tabular_lifecycle.
  - apply Htab; [done|apply tabular_stamp_seen].
Qed.

(** ** An operation of a session that is in use *)

(** A slot whose session went on. *)
Definition moved e (id : node_id) (s : session) n : engine R C := set_node (set_slots e (assoc_modify id (fun sl => set_session sl s) (e_slots e))) n.

Lemma slot_at_moved e id s n id' :
  slot_at (moved e id s n) id' = if decide (id' = id) then (fun sl => set_session sl s) <$> slot_at e id else slot_at e id'.
Proof. apply assoc_modify_find. Qed.

Lemma slot_at_on_slot e id f id' :
  slot_at (set_slots e (assoc_modify id f (e_slots e))) id' = if decide (id' = id) then f <$> slot_at e id else slot_at e id'.
Proof. apply assoc_modify_find. Qed.

(** A session in use is sound, and so are its bystanders. *)
Lemma session_ok e out id sl s :
  channels_ok e out -> ~ out id -> slot_at e id = Some sl -> sl_session sl = Some s ->
  ok (cd := condemned_of e out) (bs := bystanders_of e id) (s, e_node e).
Proof.
  intros Hok Ho Hsl Hs. split; [split|by apply (ck_held _ _ Hok id sl)]; [apply Hok|apply Hok|by eapply channel_in_use|].
  intros a (id' & sl' & s' & Hne & H1 & H2 & <-). by eapply (ck_exists _ _ Hok).
Qed.

Lemma session_advances e out id sl s s' n' :
  channels_ok e out -> ~ out id -> slot_at e id = Some sl -> sl_session sl = Some s -> bound s' = bound s ->
  ok (cd := condemned_of e out) (bs := bystanders_of e id) (s', n') -> channels_ok (moved e id s' n') out.
Proof.
  intros [K1 K2 K3 K4 K5 K6 K7 K8] Ho Hsl Hs Hb [Hn Hsh]. cbn [fst snd] in *. injection Hb as Hch Hin.
  assert (forall ch, condemned_of (moved e id s' n') out ch -> condemned_of e out ch) as Hcd.
  { intros ch (i & sl1 & s1 & H1 & H2 & H3 & H4). rewrite slot_at_moved in H1. case_decide as Hd; [subst i; done|]. by exists i, sl1, s1. }
  assert (forall i sl1 s1, slot_at (moved e id s' n') i = Some sl1 -> sl_session sl1 = Some s1 ->
            (i = id /\ s1 = s' /\ sl1 = set_session sl s') \/ (i <> id /\ slot_at e i = Some sl1)) as Hcase.
  { intros i sl1 s1 H1 H2. rewrite slot_at_moved in H1. case_decide as Hd; [|by right]. left. rewrite Hsl in H1. cbn in H1. simplify_eq. by cbn in H2; simplify_eq. }
  split.
  - unfold map_sorted, moved. cbn. by rewrite assoc_modify_keys.
  - cbn. eapply forwarder_ok_weaken; [exact Hcd|]. apply Hn.
  - apply Hn.
  - intros i sl1 s1 H1 H2. destruct (Hcase _ _ _ H1 H2) as [(-> & -> & ->)|[Hne H3] ]; [|by apply (K4 i)].
    destruct (K4 _ _ _ Hsl Hs) as [A1 A2 A3 A4]. split; cbn; [by rewrite Hch|done|done|by rewrite Hin].
  - intros i sl1 H1 H2. rewrite slot_at_moved in H1. case_decide as Hd; [|by apply (K5 i)]. rewrite Hsl in H1. cbn in H1. by simplify_eq.
  - intros i sl1 s1 H1 H2. destruct (Hcase _ _ _ H1 H2) as [(-> & -> & ->)|[Hne H4] ]; [apply (no_channel _ _ Hn)|].
    apply (no_bystanders _ _ Hn). exists i, sl1, s1. by split_and!.
  - intros i sl1 s1 H1 H2 H3. destruct (Hcase _ _ _ H1 H2) as [(-> & -> & ->)|[Hne H4] ]; [done|]. by apply (K7 i).
  - intros i j sl1 sl2 s1 s2 H1 H2 H3 H4 Hc. destruct (Hcase _ _ _ H1 H3) as [(-> & -> & ->)|[Hi H5] ], (Hcase _ _ _ H2 H4) as [(-> & -> & ->)|[Hj H6] ]; [done| | |].
    + rewrite Hch in Hc. symmetry. by apply (K8 j id sl2 sl s2 s).
    + rewrite Hch in Hc. by apply (K8 i id sl1 sl s1 s).
    + by apply (K8 i j sl1 sl2 s1 s2).
Qed.

(** The session's own run. *)
Lemma session_step_run handle e out id sl s o :
  channels_ok e out -> ~ out id -> slot_at e id = Some sl -> sl_session sl = Some s ->
  s_driven (s, e_node e) o ->
  exists evs s' n', s_operate o (s, e_node e) = Some (tt, evs, (s', n')) /\ channels_ok (moved e id s' n') out /\
    good (cd := condemned_of e out) (bs := bystanders_of e id) (s, e_node e) evs (s', n') /\
    session_step handle id (s_operate o) e = each (handle id) evs (moved e id s' n').
Proof.
  intros Hok Ho Hsl Hs Ha. destruct (goes_operate (cd := condemned_of e out) (bs := bystanders_of e id) (s, e_node e) o) as ([] & evs & [s' n'] & Hrun & Hg);
    [by eapply session_ok|done|]. exists evs, s', n'. split_and!; [done| |done|].
  - eapply session_advances; [done..|apply Hg|apply Hg].
  - unfold session_step, the_engine. rewrite bind_gets, Hsl, Hs, Hrun, bind_lift. unfold on_slot. by rewrite !bind_modify.
Qed.

(** ** What a turn may do to a slot *)

Definition driver_ok (b : build_context R) sl : Prop :=
  d_cfg (sl_driver sl) = bc_redial b /\ d_endpoint (sl_driver sl) = sl_dial_endpoint sl /\
  (d_waiting (sl_driver sl) = true -> d_dialing (sl_driver sl) = false) /\
  (d_dialing (sl_driver sl) = true \/ d_waiting (sl_driver sl) = true -> sl_dial_endpoint sl <> nowhere).

Record advances (id : node_id) e e' : Prop := Advances {
  ad_build : e_build e' = e_build e;
  ad_known : known_ok e -> known_ok e';
  ad_keys : (e_slots e').*1 = (e_slots e).*1;
  ad_other : forall id', id' <> id -> slot_at e' id' = slot_at e id';
  ad_slot : forall sl, slot_at e id = Some sl -> exists sl', slot_at e' id = Some sl' /\ sl_dial_endpoint sl' = sl_dial_endpoint sl /\
    d_dialing (sl_driver sl') = d_dialing (sl_driver sl) /\ (driver_ok (e_build e) sl -> driver_ok (e_build e) sl') /\
    (is_Some (sl_session sl) -> is_Some (sl_session sl'));
}.

Lemma advances_refl id e : advances id e e.
Proof. split; try done. intros sl Hsl. by exists sl. Qed.

Lemma advances_trans id e e1 e2 : advances id e e1 -> advances id e1 e2 -> advances id e e2.
Proof.
  intros [A1 A2 A3 A4 A5] [B1 B2 B3 B4 B5]. split; [congruence|auto|congruence|by intros id' Hne; rewrite B4, A4|].
  intros sl Hsl. destruct (A5 sl Hsl) as (sl1 & H1 & H2 & H3 & H4 & H5). destruct (B5 sl1 H1) as (sl2 & H6 & H7 & H8 & H9 & H10).
  rewrite A1 in H9. exists sl2. split_and!; [done|congruence|congruence|auto|auto].
Qed.

Lemma tables_advance id e e' : tables_only id e e' -> advances id e e'.
Proof.
  intros H. split; [apply H|apply H|apply H|apply H|]. intros sl Hsl.
  destruct (tables_only_slot' _ _ _ _ _ H Hsl) as (sl' & E & E1 & E2 & E3 & E4 & E5). exists sl'. unfold driver_ok. rewrite E2, E4, E5. done.
Qed.

Lemma moved_advances id e s n : (forall sl, slot_at e id = Some sl -> is_Some (sl_session sl)) -> advances id e (moved e id s n).
Proof.
  intros Hs. split; [done|done|apply assoc_modify_keys|intros id' Hne; by rewrite slot_at_moved, decide_False|].
  intros sl Hsl. rewrite slot_at_moved, decide_True by done. rewrite Hsl. eexists. split_and!; try done.
Qed.

(** The invariant of the channels is kept, the slot goes on, and nothing is dialed. *)
Definition goes_on {A} (id : node_id) out (m : eng A) e : Prop :=
  wp m (fun _ evs e' => dials evs = [] /\ channels_ok e' out /\ advances id e e') e.

Lemma goes_on_bind {A B} id out (m : eng A) (k : A -> eng B) e :
  goes_on id out m e -> (forall x e', channels_ok e' out -> advances id e e' -> goes_on id out (k x) e') -> goes_on id out (m ≫= k) e.
Proof.
  intros Hm Hk. apply wp_bind. eapply wp_mono; [exact Hm|]. intros x e1 e' (D1 & T1 & S1). eapply wp_mono; [exact (Hk x e' T1 S1)|].
  intros y e2 e'' (D2 & T2 & S2). rewrite dials_app, D1, D2. split_and!; [done|done|by eapply advances_trans].
Qed.

Lemma goes_on_ret {A} id out (x : A) e : channels_ok e out -> goes_on id out (mret x) e.
Proof. intros H. apply wp_ret. split_and!; [done|done|apply advances_refl]. Qed.

Lemma goes_on_tabular {A} id out (m : eng A) e : channels_ok e out -> tabular m e -> goes_on id out m e.
Proof.
  intros Hok Hm. eapply wp_mono; [exact Hm|]. intros x evs e' (D & T). destruct (untouched_tables id _ _ T) as [H1 H2].
  split_and!; [done|eapply channels_ok_tables; [done|by right|done]|by apply tables_advance].
Qed.

Lemma goes_on_each {A} id out (f : A -> eng unit) l e :
  channels_ok e out -> (forall x e', x ∈ l -> channels_ok e' out -> advances id e e' -> goes_on id out (f x) e') -> goes_on id out (each f l) e.
Proof.
  revert e. induction l as [|x l IH]; intros e Hok Hf; cbn [each]; [by apply goes_on_ret|].
  apply goes_on_bind; [apply Hf; [constructor|done|apply advances_refl]|]. intros _ e1 Hok1 A1. apply IH; [done|].
  intros y e2 Hy Hok2 A2. apply Hf; [by constructor|done|]. by eapply advances_trans.
Qed.

Lemma goes_on_event id out t ev e :
  ~ out id -> channels_ok e out -> is_Some (slot_at e id) -> goes_on id out (on_session_event t id ev) e.
Proof.
  intros Ho Hok Hs. eapply wp_mono; [by apply on_session_event_run|]. intros x evs e' (D & T & _).
  split_and!; [done|eapply channels_ok_tables; [done|by left|done]|by apply tables_advance].
Qed.

Lemma advances_some id e e' : advances id e e' -> is_Some (slot_at e id) -> is_Some (slot_at e' id).
Proof. intros H [sl Hsl]. destruct (ad_slot _ _ _ H sl Hsl) as (sl' & -> & _). by eexists. Qed.

(** A step of the session in a slot, if there is one. *)
Lemma goes_on_session id out (handle : node_id -> session_event -> eng unit) o e :
  ~ out id -> channels_ok e out ->
  (forall sl s, slot_at e id = Some sl -> sl_session sl = Some s -> s_driven (s, e_node e) o) ->
  (forall ev e', channels_ok e' out -> advances id e e' -> is_Some (slot_at e' id) -> goes_on id out (handle id ev) e') ->
  goes_on id out (session_step handle id (s_operate o)) e.
Proof.
  intros Ho Hok Ha Hh. destruct (slot_at e id) as [sl|] eqn:Hsl.
  2:{ unfold session_step, the_engine. apply wp_bind_gets. rewrite Hsl. by apply goes_on_ret. }
  destruct (sl_session sl) as [s|] eqn:Hs.
  2:{ unfold session_step, the_engine. apply wp_bind_gets. rewrite Hsl, Hs. by apply goes_on_ret. }
  destruct (session_step_run handle e out id sl s o Hok Ho Hsl Hs (Ha sl s eq_refl Hs)) as (evs & s' & n' & _ & Hok' & _ & Hrun).
  assert (advances id e (moved e id s' n')) as A1 by (apply moved_advances; intros sl' Hsl'; rewrite Hsl in Hsl'; simplify_eq; by eexists).
  assert (goes_on id out (each (handle id) evs) (moved e id s' n')) as (x & es & e' & E & D & Hok2 & A2).
  { apply goes_on_each; [done|]. intros ev e' _ Hok2 A2. apply Hh; [done|by eapply advances_trans|]. eapply advances_some; [exact A2|].
    eapply advances_some; [exact A1|]. by eexists. }
  exists x, es, e'. rewrite Hrun. split; [done|]. split_and!; [done|done|by eapply advances_trans].
Qed.

Lemma goes_on_tear_down id out t e : ~ out id -> channels_ok e out -> goes_on id out (slot_tear_down t id) e.
Proof.
  intros Ho Hok. apply (goes_on_session id out (on_session_event t) STearDown); [done|done|done|]. intros ev e' Hok' _ Hs. by apply goes_on_event.
Qed.

(** An edit of a slot that leaves its session alone. *)
Lemma channels_ok_edit id f e out :
  (forall sl, sl_record (f sl) = sl_record sl /\ sl_dial_endpoint (f sl) = sl_dial_endpoint sl /\ sl_channel (f sl) = sl_channel sl /\
     sl_session (f sl) = sl_session sl /\ (sl_timer sl = false -> sl_timer (f sl) = false)) ->
  channels_ok e out -> channels_ok (set_slots e (assoc_modify id f (e_slots e))) out.
Proof.
  intros Hf [K1 K2 K3 K4 K5 K6 K7 K8]. set (e' := set_slots e _).
  assert (forall i sl', slot_at e' i = Some sl' -> exists sl, slot_at e i = Some sl /\ sl_record sl' = sl_record sl /\ sl_dial_endpoint sl' = sl_dial_endpoint sl /\
            sl_channel sl' = sl_channel sl /\ sl_session sl' = sl_session sl /\ (sl_timer sl = false -> sl_timer sl' = false)) as Hat.
  { intros i sl' H. unfold e' in H. rewrite slot_at_on_slot in H. case_decide as Hd; [|by exists sl']. subst i.
    destruct (slot_at e id) as [sl|]; [|done]. cbn in H. simplify_eq. exists sl. split; [done|]. apply Hf. }
  assert (forall ch, condemned_of e' out ch -> condemned_of e out ch) as Hcd.
  { intros ch (i & sl' & s & H1 & H2 & H3 & H4). destruct (Hat _ _ H1) as (sl & E & _ & _ & _ & Es & _). exists i, sl, s. by rewrite <- Es. }
  split.
  - unfold map_sorted. cbn. by rewrite assoc_modify_keys.
  - by eapply forwarder_ok_weaken; [exact Hcd|].
  - done.
  - intros i sl' s H1 H2. destruct (Hat _ _ H1) as (sl & E & E1 & E2 & E3 & E4 & _). rewrite E4 in H2. destruct (K4 _ _ _ E H2) as [A1 A2 A3 A4].
    split; [congruence|congruence|done|by rewrite E2].
  - intros i sl' H1 H2. destruct (Hat _ _ H1) as (sl & E & _ & _ & E3 & E4 & _). rewrite E3. apply (K5 _ _ E). congruence.
  - intros i sl' s H1 H2. destruct (Hat _ _ H1) as (sl & E & _ & _ & _ & E4 & _). apply (K6 i sl); congruence.
  - intros i sl' s H1 H2 H3. destruct (Hat _ _ H1) as (sl & E & _ & _ & _ & E4 & E5). rewrite E4 in H2. destruct (K7 _ _ _ E H2 H3) as (R1 & R2 & R3). split_and!; auto.
  - intros i j sl1 sl2 s1 s2 H1 H2 H3 H4 Hc. destruct (Hat _ _ H1) as (a & A1 & _ & _ & _ & A2 & _), (Hat _ _ H2) as (b & B1 & _ & _ & _ & B2 & _).
    apply (K8 i j a b s1 s2); congruence.
Qed.

(** ** Failures of a dial and drops *)

Lemma dropped_run now (d : driver R) : config_ok (d_cfg d) ->
  exists evs d', on_channel_dropped now d = Some (tt, evs, d') /\ d_cfg d' = d_cfg d /\ d_endpoint d' = d_endpoint d /\ d_dialing d' = false /\
    (evs = [OnDead] \/ exists ms, evs = [ArmBackoff ms]).
Proof.
  intros Hc. unfold on_channel_dropped, schedule_redial. rewrite !bind_modify, bind_gets. cbn -[wrap]. destruct (surrendered now _).
  - eexists _, _. split; [reflexivity|]. by split_and!; [| | |left].
  - destruct (compute_backoff_run (d_cfg d) (wrap 32 (d_attempt d + 1)) (d_rng d) Hc) as (ms & g' & E & _); [apply Z.mod_pos_bound; lia|].
    rewrite E, bind_lift, bind_modify. eexists _, _. split; [reflexivity|]. split_and!; try done. right. by eexists.
Qed.

(** What a driver calls, but for the dial itself. *)
Lemma goes_on_driver_event id out t ev e :
  ~ out id -> channels_ok e out -> (match ev with TransportDial _ => False | _ => True end) -> goes_on id out (on_driver_event t id ev) e.
Proof.
  intros Ho Hok Hev. destruct ev; cbn [on_driver_event].
  - by apply goes_on_tear_down.
  - done.
  - apply goes_on_tabular; [done|]. by apply tabular_emit.
  - apply wp_bind_gets. destruct (slot_at e id) as [sl2|] eqn:E; [|by apply goes_on_ret].
    apply goes_on_bind; [|intros _ e3 Hok3 A3; apply goes_on_tabular; [done|apply tabular_lifecycle] ].
    apply wp_modify. split_and!; [done|by apply channels_ok_edit|]. split; try done; [apply assoc_modify_keys|intros i Hi; by rewrite slot_at_on_slot, decide_False|].
    intros sl0 Hsl0. rewrite slot_at_on_slot, decide_True, Hsl0 by done. eexists. by split.
Qed.

(** Neither dials at once. *)
Lemma goes_on_dropped id out t e sl :
  ~ out id -> channels_ok e out -> slot_at e id = Some sl -> d_dialing (sl_driver sl) = false -> sl_dial_endpoint sl <> nowhere ->
  config_ok (bc_redial (e_build e)) -> driver_ok (e_build e) sl -> goes_on id out (on_driver t id (on_channel_dropped (steady t))) e.
Proof.
  intros Ho Hok Hsl Hd Hne Hc (D1 & D2 & D3 & D4). destruct (dropped_run (steady t) (sl_driver sl)) as (evs & d' & Hrun & E1 & E2 & E3 & Hevs); [by rewrite D1|].
  unfold on_driver. apply wp_bind_gets. rewrite Hsl. apply wp_bind_lift. rewrite Hrun. apply wp_bind_lift.
  apply (goes_on_bind id out (on_slot id (fun sl => set_driver sl d'))).
  - apply wp_modify. split_and!; [done|by apply channels_ok_edit|]. split; try done; [apply assoc_modify_keys|intros i Hi; by rewrite slot_at_on_slot, decide_False|].
    intros sl0 Hsl0. rewrite Hsl in Hsl0. injection Hsl0 as <-. rewrite slot_at_on_slot, decide_True, Hsl by done. eexists. split; [done|].
    unfold driver_ok. cbn. split_and!; try done; [congruence|]. intros _. split_and!; congruence || done.
  - intros _ e1 Hok1 A1. apply goes_on_each; [done|]. intros ev e2 Hev Hok2 A2. apply goes_on_driver_event; [done|done|].
    destruct Hevs as [->|[ms ->] ]; apply list_elem_of_singleton in Hev; by subst ev.
Qed.

(** A slot that neither dials nor is about to. *)
Definition at_rest e (id : node_id) : Prop := forall sl, slot_at e id = Some sl -> d_dialing (sl_driver sl) = false /\ driver_ok (e_build e) sl.

Lemma at_rest_advances id e e' : is_Some (slot_at e id) -> advances id e e' -> at_rest e id -> at_rest e' id.
Proof.
  intros [sl0 H0] A Hr sl Hsl. destruct (Hr sl0 H0) as [Hd Hk]. destruct (ad_slot _ _ _ A sl0 H0) as (sl1 & H1 & _ & Hd1 & Hk1 & _).
  rewrite Hsl in H1. injection H1 as <-. rewrite (ad_build _ _ _ A). split; [congruence|auto].
Qed.

Lemma goes_on_handle id out t ev e :
  ~ out id -> channels_ok e out -> is_Some (slot_at e id) -> config_ok (bc_redial (e_build e)) -> at_rest e id ->
  goes_on id out (handle_session_event t id ev) e.
Proof.
  intros Ho Hok Hs Hc Hr. destruct ev; try (by apply goes_on_event). cbn [handle_session_event]. unfold on_transport_drop.
  apply wp_bind_gets. destruct (session_for e id) as [s|] eqn:Es; [|by apply goes_on_ret]. unfold session_for in Es.
  destruct (slot_at e id) as [sl|] eqn:Hsl; [|done]. cbn in Es. destruct (ck_held _ _ Hok _ _ _ Hsl Es) as [_ _ _ Hin].
  destruct (m_is_inbound_bootstrap s); [by apply goes_on_tear_down|]. destruct (Hr sl Hsl) as [Hd Hk].
  apply (goes_on_dropped id out t e sl); try done. symmetry in Hin. by apply bool_decide_eq_false in Hin.
Qed.

(** A step of a session in use. *)
Lemma goes_on_in_session id out t o e :
  ~ out id -> channels_ok e out -> config_ok (bc_redial (e_build e)) -> at_rest e id ->
  (forall sl s, slot_at e id = Some sl -> sl_session sl = Some s -> s_driven (s, e_node e) o) ->
  goes_on id out (in_session t id (s_operate o)) e.
Proof.
  intros Ho Hok Hc Hr Ha. destruct (slot_at e id) as [sl0|] eqn:Hsl0.
  - apply goes_on_session; [done|done|by rewrite Hsl0|]. intros ev e' Hok' A Hs.
    apply goes_on_handle; try done; [by rewrite (ad_build _ _ _ A)|]. eapply at_rest_advances; [|done|done]. by rewrite Hsl0.
  - unfold in_session, session_step, the_engine. apply wp_bind_gets. rewrite Hsl0. by apply goes_on_ret.
Qed.

(** A session that was retired ignores what still comes in. *)
Definition from_channel (o : session_op) : bool := match o with SReceive _ _ | SError _ | SProtocolClose => true | _ => false end.

Lemma retired_ignores o sl s n : retired sl s -> from_channel o = true -> s_operate (C := C) o (s, n) = Some (tt, [], (s, n)).
Proof.
  intros (Ht & _ & _) Ho. destruct o; try done; cbn [s_operate].
  - unfold on_receive, this. rewrite bind_gets. cbn [fst]. by rewrite Ht.
  - unfold on_error. case_decide; [done|]. unfold this. rewrite bind_gets. cbn [fst]. by rewrite Ht.
  - unfold on_channel_protocol_close, this. rewrite bind_gets. cbn [fst]. by rewrite Ht.
Qed.

Lemma goes_on_ignored id out t o e :
  out id -> channels_ok e out -> from_channel o = true -> goes_on id out (in_session t id (s_operate o)) e.
Proof.
  intros Ho Hok Hf. unfold in_session, session_step, the_engine. apply wp_bind_gets.
  destruct (slot_at e id) as [sl|] eqn:Hsl; [|by apply goes_on_ret]. destruct (sl_session sl) as [s|] eqn:Hs; [|by apply goes_on_ret].
  rewrite (retired_ignores o sl s (e_node e)) by (done || by eapply ck_retired). apply wp_bind_lift. unfold on_slot.
  apply wp_bind_modify, wp_bind_modify, wp_ret. fold (moved e id s (e_node e)). cbn [e_slots set_slots set_node].
  destruct (ck_held _ _ Hok _ _ _ Hsl Hs) as [H1 H2 H3 H4].
  assert (forall i, slot_at (moved e id s (e_node e)) i = slot_at e i) as Hsame.
  { intros i. rewrite slot_at_moved. destruct (decide (i = id)) as [->|]; [|done]. rewrite Hsl. cbn. f_equal. unfold set_session. rewrite <- H2, <- Hs. by destruct sl. }
  assert (tables_only id e (moved e id s (e_node e))) as T by (split; try done; [apply assoc_modify_keys|by rewrite Hsame]).
  split_and!; [done|eapply channels_ok_tables; [done|by right|done]|by apply tables_advance].
Qed.

(** ** Retiring a session *)

(** Nothing the forwarder holds refers to the channel. *)
Definition unreferenced n (ch : Z) : Prop :=
  forall h x sub, m_topics (registry_of (n_messages n)) !! h = Some x -> sub ∈ e_subscribers x -> s_channel sub <> ch.

Definition timer_after (evs : list session_event) (armed : bool) : bool := fold_left (fun b ev => next_timer ev b) evs armed.

Lemma timer_after_map {A} (inj : A -> session_event) l b : (forall x c, next_timer (inj x) c = c) -> timer_after (map inj l) b = b.
Proof. intros H. revert b. induction l as [|x l IH]; intros b; [done|]. cbn. rewrite H. apply IH. Qed.

Lemma erase_channel_other entry ch sub : sub ∈ e_subscribers (erase_channel entry ch) -> s_channel sub <> ch.
Proof.
  unfold erase_channel. cbn. intros Hin. apply list_elem_of_In, filter_In in Hin as [_ Hin]. intros E. by rewrite E, Z.eqb_refl in Hin.
Qed.

Lemma detach_all_unreferenced (f : message_forwarder C) p evs f' h x sub :
  detach_all p f = Some (tt, evs, f') -> m_topics (registry_of f') !! h = Some x -> sub ∈ e_subscribers x -> s_channel sub <> p_channel p.
Proof.
  unfold detach_all, egress_remove, channel_at. rewrite bind_modify. intros Hrun Hx Hsub.
  assert (registry_of f' = remove_peer (registry_of f) (p_node_name p) (p_channel p)) as Hreg.
  { revert Hrun. unfold mbind, prog_bind, gets, lift. cbn. destruct (f_channels f !! p_channel p); cbn; [|done]. by intros [= _ <-]. }
  rewrite Hreg in Hx. cbn in Hx. unfold remove_peer_subscribers in Hx. rewrite lookup_fmap in Hx.
  destruct (m_topics (registry_of f) !! h) as [x0|]; [|done]. cbn in Hx. simplify_eq. by eapply erase_channel_other.
Qed.

Lemma bind_inv {S E A B} (m : prog S E A) (k : A -> prog S E B) s y evs s2 :
  (m ≫= k) s = Some (y, evs, s2) -> exists x es s1 es', m s = Some (x, es, s1) /\ k x s1 = Some (y, es', s2) /\ evs = es ++ es'.
Proof.
  unfold mbind, prog_bind. destruct (m s) as [ [ [x e1] s1]|]; [|done]. destruct (k x s1) as [ [ [y' e2] s2']|] eqn:E2; [|done].
  intros [= <- <- <-]. by exists x, e1, s1, e2.
Qed.

Lemma zoom_inv {S T E F A} (get : S -> T) (put : T -> S -> S) (inj : F -> E) (m : prog T F A) s x evs s' :
  zoom get put inj m s = Some (x, evs, s') -> exists fs p, m (get s) = Some (x, fs, p) /\ evs = map inj fs /\ s' = put p s.
Proof. unfold zoom. destruct (m (get s)) as [ [ [x' fs] t]|]; [|done]. intros [= <- <- <-]. by exists fs, t. Qed.

Lemma tear_down_exact (st : state) evs st' :
  tear_down st = Some (tt, evs, st') ->
  (forall b, timer_after evs b = false) /\ st'.1 = torn st.1 /\ unreferenced st'.2 (m_channel st.1).
Proof.
  unfold tear_down, this, update. rewrite bind_gets. cbv zeta. rewrite bind_modify, bind_emit. intros H.
  match type of H with match ?k with _ => _ end = _ => destruct k as [ [ [ [] tail] st2]|] eqn:H1 end; [|done]. injection H as <- <-.
  apply bind_inv in H1 as ([] & e1 & s1 & e2 & H1 & H2 & ->). apply zoom_inv in H1 as (ev1 & f1 & E1 & -> & ->).
  apply bind_inv in H2 as ([] & e3 & s3 & e4 & H2 & H3 & ->). apply zoom_inv in H2 as (ev2 & f2 & E2 & -> & ->).
  rewrite !bind_modify, bind_emit in H3. cbn [fst snd] in *.
  assert (unreferenced (return_procedures f2 (return_messages f1 st.2)) (m_channel st.1)) as Hun.
  { intros h x sub Hx Hsub. by apply (detach_all_unreferenced (lend_messages st.2) (msg_peer st.1) ev1 f1 h x sub). }
  assert (forall tl b, timer_after tl false = false -> timer_after (CancelHandshakeTimer :: map Msg ev1 ++ map Rpc ev2 ++ tl) b = false) as Ht.
  { intros tl b Htl. unfold timer_after. cbn [fold_left next_timer]. rewrite !fold_left_app. fold (timer_after (map Msg ev1) false). rewrite timer_after_map by done.
    fold (timer_after (map Rpc ev2) false). by rewrite timer_after_map. }
  destruct (m_forwarders_installed st.1).
  - unfold fire_lifecycle, this in H3. rewrite bind_gets in H3. cbn in H3. injection H3 as <- <-. split_and!; [|done|done]. intros b. by apply Ht.
  - cbn in H3. injection H3 as <- <-. split_and!; [|done|done]. intros b. by apply Ht.
Qed.

Lemma channels_ok_retire e out id :
  channels_ok e out ->
  (forall sl s, slot_at e id = Some sl -> sl_session sl = Some s -> retired sl s /\ unreferenced (e_node e) (m_channel s)) ->
  channels_ok e (fun i => out i \/ i = id).
Proof.
  intros [K1 K2 K3 K4 K5 K6 K7 K8] Hid.
  split; try done.
  - destruct (e_node e) as [msgs pr m] eqn:En. apply (forwarder_ok_move (condemned_of e out) _ (Node msgs pr m) m pr K2); [apply K2|apply K2|].
    intros h x sub Hx Hsub [Hl Hc]. split; [done|]. intros (j & sl & s & H1 & H2 & [H3| ->] & H4); [apply Hc; by exists j, sl, s|].
    destruct (Hid sl s H1 H2) as [_ Hu]. by apply (Hu h x sub).
  - intros i sl s H1 H2 [H3| ->]; [by eapply K7|by apply Hid].
Qed.

(** The calls of a session, all handled. *)
Lemma events_run t id evs e : is_Some (slot_at e id) ->
  wp (each (on_session_event t id) evs) (fun _ es e' => dials es = [] /\ tables_only id e e' /\
    sl_timer <$> slot_at e' id = (fun sl => timer_after evs (sl_timer sl)) <$> slot_at e id) e.
Proof.
  revert e. induction evs as [|ev evs IH]; intros e Hs; cbn [each].
  - apply wp_ret. split_and!; [done|by apply tables_only_refl|]. by destruct (slot_at e id).
  - apply wp_bind. eapply wp_mono; [by apply on_session_event_run|]. intros _ es e1 (D1 & T1 & S1).
    assert (is_Some (slot_at e1 id)) as Hs1 by (destruct Hs as [sl Hs]; destruct (tables_only_slot' _ _ _ _ _ T1 Hs) as (sl' & -> & _); by eexists).
    eapply wp_mono; [by apply IH|]. intros _ es2 e2 (D2 & T2 & S2). rewrite dials_app, D1, D2. split_and!; [done|by eapply tables_only_trans|].
    rewrite S2. destruct (slot_at e1 id) as [sl1|], (slot_at e id) as [sl|]; try done. cbn in S1 |- *. injection S1 as ->. done.
Qed.

Lemma tear_down_retires t id out e :
  ~ out id -> channels_ok e out ->
  wp (slot_tear_down t id) (fun _ evs e' => dials evs = [] /\ channels_ok e' (fun i => out i \/ i = id) /\ advances id e e') e.
Proof.
  intros Ho Hok. destruct (slot_at e id) as [sl|] eqn:Hsl.
  2:{ unfold slot_tear_down, session_step, the_engine. apply wp_bind_gets. rewrite Hsl. apply wp_ret. split_and!; [done| |apply advances_refl].
      apply channels_ok_retire; [done|]. intros sl s H. congruence. }
  destruct (sl_session sl) as [s|] eqn:Hs.
  2:{ unfold slot_tear_down, session_step, the_engine. apply wp_bind_gets. rewrite Hsl, Hs. apply wp_ret. split_and!; [done| |apply advances_refl].
      apply channels_ok_retire; [done|]. intros sl' s H. congruence. }
  destruct (session_step_run (on_session_event t) e out id sl s STearDown Hok Ho Hsl Hs I) as (evs & s' & n' & Hrun & Hok1 & _ & Hstep).
  destruct (tear_down_exact (s, e_node e) evs (s', n') Hrun) as (Ht & Hs' & Hu). cbn [fst snd] in Hs', Hu.
  assert (advances id e (moved e id s' n')) as A1 by (apply moved_advances; intros sl' Hsl'; rewrite Hsl in Hsl'; simplify_eq; by eexists).
  assert (slot_at (moved e id s' n') id = Some (set_session sl s')) as Hat by (by rewrite slot_at_moved, decide_True, Hsl).
  destruct (events_run t id evs (moved e id s' n')) as (x & es & e2 & Hrun2 & D2 & T2 & S2); [by rewrite Hat|].
  exists x, es, e2. split; [unfold slot_tear_down; change tear_down with (s_operate (C := C) STearDown); by rewrite Hstep|].
  split_and!; [done| |eapply advances_trans; [exact A1|by apply tables_advance] ].
  apply channels_ok_retire; [eapply channels_ok_tables; [done|by left|done]|]. intros sl2 s2 H2 Hs2.
  destruct (tables_only_slot _ _ _ _ _ T2 H2) as (sl1 & E & _ & _ & _ & _ & Es & _). rewrite Hat in E. injection E as <-. rewrite Es in Hs2. cbn in Hs2. injection Hs2 as <-.
  split.
  - rewrite Hs'. split_and!; [done|done|]. rewrite H2, Hat in S2. cbn in S2. injection S2 as ->. apply Ht.
  - rewrite (to_node _ _ _ T2), Hs'. exact Hu.
Qed.

(** ** Dialing *)

Lemma dial_run t id out e sl (m : prog (driver R) driver_event unit) d' :
  ~ out id -> channels_ok e out -> slot_at e id = Some sl -> m (sl_driver sl) = Some (tt, [OnRedial; TransportDial (sl_dial_endpoint sl)], d') ->
  driver_ok (e_build e) (set_driver sl d') -> d_dialing d' = true ->
  wp (on_driver t id m) (fun _ evs e' => dials evs = [sl_dial_endpoint sl] /\ channels_ok e' (fun i => out i \/ i = id) /\
    e_build e' = e_build e /\ (known_ok e -> known_ok e') /\ (e_slots e').*1 = (e_slots e).*1 /\ (forall i, i <> id -> slot_at e' i = slot_at e i) /\
    exists sl', slot_at e' id = Some sl' /\ sl_dial_endpoint sl' = sl_dial_endpoint sl /\ d_dialing (sl_driver sl') = true /\ driver_ok (e_build e) sl') e.
Proof.
  intros Ho Hok Hsl Hrun Hk Hd. unfold on_driver. apply wp_bind_gets. rewrite Hsl. apply wp_bind_lift. rewrite Hrun. apply wp_bind_lift.
  unfold on_slot. apply wp_bind_modify. set (e1 := set_slots e _).
  assert (channels_ok e1 out) as Hok1 by by apply channels_ok_edit. cbn [each]. apply wp_bind.
  eapply wp_mono; [by apply tear_down_retires|]. intros _ evs e2 (D2 & Hok2 & A2). cbn [on_driver_event].
  apply wp_bind_emit, wp_ret. rewrite dials_app, D2. destruct A2 as [B1 B2 B3 B4 B5].
  assert (slot_at e1 id = Some (set_driver sl d')) as H1 by (unfold e1; by rewrite slot_at_on_slot, decide_True, Hsl).
  destruct (B5 _ H1) as (sl2 & H2 & E2 & Ed2 & Hk2 & _). split_and!; [done|done|done|done| | |].
  - rewrite B3. apply assoc_modify_keys.
  - intros i Hi. rewrite B4 by done. unfold e1. by rewrite slot_at_on_slot, decide_False.
  - exists sl2. split_and!; [done|done|by rewrite Ed2|by apply Hk2].
Qed.

(** ** Building a session *)

Definition blank_session (b : build_context R) (record : peer_context) (ch : Z) (intra inbound : bool) : session :=
  session_new (bc_fsm_cfg b) record ch intra inbound (bc_handshake_timeout b)
    (attach_negotiator_new (bc_has_factory b) (Some (bc_install_security b)) None) false false true true.

(** What a node is configured with fits the wire and the clock. *)
Definition build_ok (b : build_context R) : Prop :=
  handshake_request_ok (self_request (blank_session b (PeerContext [] [] 0 false false) 0 false false)) /\ config_ok (bc_redial b).

Lemma blank_shape b record ch intra inbound : build_ok b -> shape_ok (blank_session b record ch intra inbound).
Proof. intros [H _]. split; [exact H|by intros p k m x Hp|done]. Qed.

(** A channel that was just made. *)
Definition fresh_channel e (ch : Z) (c : C) : Prop :=
  n_channels (e_node e) !! ch = None /\ ready c /\ (forall a d, n_channels (e_node e) !! a = Some d -> scheduler_key d <> scheduler_key c).

Definition installed_slot e (id : node_id) sl (ch : Z) (c : C) (inbound : bool) : engine R C :=
  set_slots (set_node e (replace_channel (sl_channel sl) ch c (e_node e))) (assoc_modify id (fun sl => rebuilt (e_build e) sl ch c inbound) (e_slots e)).

Lemma slot_at_installed e id sl ch c inbound i :
  slot_at (installed_slot e id sl ch c inbound) i = if decide (i = id) then (fun sl => rebuilt (e_build e) sl ch c inbound) <$> slot_at e id else slot_at e i.
Proof. apply assoc_modify_find. Qed.

Lemma replaced_lookup (m : gmap Z C) (old : option Z) ch c a d :
  <[ch := c]> (match old with Some old => delete old m | None => m end) !! a = Some d -> (a = ch /\ d = c) \/ (a <> ch /\ m !! a = Some d).
Proof.
  destruct (decide (a = ch)) as [->|Hne]; [rewrite lookup_insert_eq; intros [= <-]; by left|]. rewrite lookup_insert_ne by done.
  intros H. right. split; [done|]. destruct old as [o|]; [|done]. by apply lookup_delete_Some in H as [_ H].
Qed.

Lemma replaced_some (m : gmap Z C) (old : option Z) ch c a : is_Some (m !! a) -> old <> Some a ->
  is_Some (<[ch := c]> (match old with Some old => delete old m | None => m end) !! a).
Proof.
  intros Ha Hne. destruct (decide (a = ch)) as [->|]; [by rewrite lookup_insert_eq|]. rewrite lookup_insert_ne by done.
  destruct old as [o|]; [|done]. by rewrite lookup_delete_ne by congruence.
Qed.

Lemma channels_ok_build e out id sl ch c :
  channels_ok e out -> build_ok (e_build e) -> slot_at e id = Some sl -> sl_session sl = None \/ out id -> fresh_channel e ch c ->
  channels_ok (installed_slot e id sl ch c (bool_decide (sl_dial_endpoint sl = nowhere))) (fun i => out i /\ i <> id).
Proof.
  intros [K1 K2 K3 K4 K5 K6 K7 K8] Hb Hsl Hold (F1 & F2 & F3).
  assert (forall i sl1 s1, slot_at e i = Some sl1 -> sl_session sl1 = Some s1 -> m_channel s1 <> ch) as F4.
  { intros i sl1 s1 H1 H2 Hc. destruct (K6 _ _ _ H1 H2) as [d Hd]. congruence. }
  set (e' := installed_slot _ _ _ _ _ _). set (out' := fun i => out i /\ i <> id).
  set (new := rebuilt (e_build e) sl ch c (bool_decide (sl_dial_endpoint sl = nowhere))).
  assert (slot_at e' id = Some new) as Hnew by (unfold e'; by rewrite slot_at_installed, decide_True, Hsl).
  assert (forall i, i <> id -> slot_at e' i = slot_at e i) as Hother by (intros i Hi; unfold e'; by rewrite slot_at_installed, decide_False).
  assert (forall i sl1 s1, slot_at e' i = Some sl1 -> sl_session sl1 = Some s1 ->
    (i = id /\ sl1 = new /\ m_channel s1 = ch) \/ (i <> id /\ slot_at e i = Some sl1)) as Hcase.
  { intros i sl1 s1 H1 H2. destruct (decide (i = id)) as [->|Hi]; [|right; split; [done|by rewrite Hother in H1] ].
    left. rewrite Hnew in H1. injection H1 as <-. cbn in H2. injection H2 as <-. done. }
  assert (forall x, condemned_of e' out' x -> condemned_of e out x) as Hcd.
  { intros x (i & sl1 & s1 & H1 & H2 & [H3 H4] & H5). exists i, sl1, s1. by rewrite Hother in H1. }
  assert (forall a, sl_channel sl = Some a -> condemned_of e out a) as Hgone.
  { intros a Ha. destruct (sl_session sl) as [s|] eqn:Hs; [|by rewrite (K5 _ _ Hsl Hs) in Ha]. destruct Hold as [|Ho]; [done|].
    exists id, sl, s. split_and!; try done. destruct (K4 _ _ _ Hsl Hs) as [A1 _ _ _]. congruence. }
  assert (forall i sl1 s1, i <> id -> slot_at e i = Some sl1 -> sl_session sl1 = Some s1 -> sl_channel sl <> Some (m_channel s1)) as Hapart.
  { intros i sl1 s1 Hi H1 H2 Ha. destruct (sl_session sl) as [s|] eqn:Hs; [|by rewrite (K5 _ _ Hsl Hs) in Ha].
    destruct (K4 _ _ _ Hsl Hs) as [A1 _ _ _]. apply Hi. apply (K8 i id sl1 sl s1 s); congruence. }
  assert (forall a d, n_channels (e_node e') !! a = Some d -> (a = ch /\ d = c) \/ (a <> ch /\ n_channels (e_node e) !! a = Some d)) as Hlook by (intros a d; apply replaced_lookup).
  split.
  - unfold map_sorted. cbn. by rewrite assoc_modify_keys.
  - apply (forwarder_ok_move (condemned_of e out)); [done| | |].
    + intros a d Ha. destruct (Hlook a d Ha) as [[-> ->]|[_ H] ]; [done|by eapply (fo_ready _ K2)].
    + intros a b x y Ha Hy E. destruct (Hlook a x Ha) as [[-> ->]|[Ha1 Ha2] ], (Hlook b y Hy) as [[-> ->]|[Hb1 Hb2] ]; [done| | |by eapply (fo_keys _ K2)].
      * exfalso. by apply (F3 b y).
      * exfalso. by apply (F3 a x).
    + intros h x sub _ _ [Hl Hc]. split; [|intros Hx; by apply Hc, Hcd]. apply replaced_some; [done|]. intros Ha. by apply Hc, Hgone.
  - apply procedure_ok_move; [done|]. intros a d Ha. destruct (Hlook a d Ha) as [[-> ->]|[_ H] ]; [done|by eapply (fo_ready _ K2)].
  - intros i sl1 s1 H1 H2. destruct (Hcase _ _ _ H1 H2) as [(-> & -> & _)|[Hi H3] ]; [|by eapply K4].
    cbn in H2. injection H2 as <-. split; [done|done|by apply blank_shape|done].
  - intros i sl1 H1 H2. destruct (decide (i = id)) as [->|Hi]; [rewrite Hnew in H1; by injection H1 as <-|rewrite Hother in H1 by done; by eapply K5].
  - intros i sl1 s1 H1 H2. destruct (Hcase _ _ _ H1 H2) as [(-> & -> & ->)|[Hi H4] ]; [cbn; by rewrite lookup_insert_eq|].
    apply replaced_some; [by eapply K6|by eapply Hapart].
  - intros i sl1 s1 H1 H2 [H3 H4]. rewrite Hother in H1 by done. by eapply K7.
  - intros i j sl1 sl2 s1 s2 H1 H2 H3 H4 Hc. destruct (Hcase _ _ _ H1 H3) as [(-> & -> & Hch)|[Hi H5] ], (Hcase _ _ _ H2 H4) as [(-> & -> & Hch')|[Hj H6] ]; [done| | |by eapply K8].
    + exfalso. apply (F4 j sl2 s2); [done|done|congruence].
    + exfalso. apply (F4 i sl1 s1); [done|done|congruence].
Qed.

Lemma build_run t id out e sl ch c :
  channels_ok e out -> build_ok (e_build e) -> slot_at e id = Some sl -> sl_session sl = None \/ out id -> fresh_channel e ch c ->
  d_dialing (sl_driver sl) = false -> driver_ok (e_build e) sl ->
  wp (build_into t id ch c (bool_decide (sl_dial_endpoint sl = nowhere)))
    (fun _ evs e' => dials evs = [] /\ channels_ok e' (fun i => out i /\ i <> id) /\ advances id e e') e.
Proof.
  intros Hok Hb Hsl Hold Hf Hd Hk. unfold build_into, the_engine. apply wp_bind_gets. rewrite Hsl. unfold on_slot. apply wp_bind_modify, wp_bind_modify.
  pose proof (channels_ok_build e out id sl ch c Hok Hb Hsl Hold Hf) as Hok1.
  fold (installed_slot e id sl ch c (bool_decide (sl_dial_endpoint sl = nowhere))).
  set (e1 := installed_slot _ _ _ _ _ _) in *.
  assert (slot_at e1 id = Some (rebuilt (e_build e) sl ch c (bool_decide (sl_dial_endpoint sl = nowhere)))) as H1.
  { unfold e1. by rewrite slot_at_installed, decide_True, Hsl. }
  assert (advances id e e1) as A1.
  { split; [done|done|apply assoc_modify_keys|intros i Hi; unfold e1; by rewrite slot_at_installed, decide_False|].
    intros sl0 Hsl0. rewrite Hsl in Hsl0. injection Hsl0 as <-. eexists. split; [exact H1|]. by split_and!. }
  change (start (wall t) None) with (s_operate (C := C) (SStart (wall t) None)).
  eapply wp_mono; [apply (goes_on_in_session id (fun i => out i /\ i <> id) t (SStart (wall t) None) e1); [tauto|done|apply Hb| |]|].
  - intros sl1 Hsl1. rewrite H1 in Hsl1. injection Hsl1 as <-. done.
  - intros sl1 s1 Hsl1 Hs1. rewrite H1 in Hsl1. injection Hsl1 as <-. cbn in Hs1. injection Hs1 as <-. by split_and!.
  - intros _ evs e2 (D & Hok2 & A2). split_and!; [done|done|by eapply advances_trans].
Qed.

(** ** Operations of the forwarders *)

Lemma goes_on_forwarder {A} id out t (m : prog (message_forwarder C) forwarder_event A) e :
  channels_ok e out ->
  wp m (fun _ _ f => forwarder_ok (cd := condemned_of e out) f /\
    forall (cd : Condemned) ch, live (cd := cd) (lend_messages (e_node e)) ch -> live (cd := cd) f ch) (lend_messages (e_node e)) ->
  goes_on id out (in_forwarder t m) e.
Proof.
  intros Hok Hs. destruct Hs as (x & evs & f & Hrun & Hf & Hl). unfold in_forwarder, the_engine. apply wp_bind_gets. rewrite Hrun. apply wp_bind_lift.
  destruct Hok as [K1 K2 K3 K4 K5 K6 K7 K8]. set (n' := return_messages f (e_node e)).
  assert (channels_ok (set_node e n') out) as Hok1.
  { assert (lend_messages n' = f) as Hlend by apply lend_return_messages. split; try done; cbn [e_node set_node].
    - by rewrite Hlend.
    - apply procedure_ok_move; [done|apply Hf].
    - intros i sl s H1 H2. apply (Hl (fun _ => False)). split; [by eapply K6|by intros [] ]. }
  apply goes_on_bind; [apply wp_modify; split_and!; [done|done|]|intros _ e1 Hok2 _; apply goes_on_tabular; [done|]; apply tabular_each; intros; apply tabular_forwarder].
  split; try done. intros sl Hsl. by exists sl.
Qed.

Lemma goes_on_procedures id out (m : prog (procedure_forwarder C) procedure_event unit) e :
  channels_ok e out ->
  wp m (fun _ _ f => procedure_ok f /\ evolves (n_channels (e_node e)) (pf_channels f)) (lend_procedures (e_node e)) ->
  goes_on id out (in_procedures m) e.
Proof.
  intros Hok (x & evs & f & Hrun & Hf & He). unfold in_procedures, the_engine. apply wp_bind_gets. rewrite Hrun. apply wp_bind_lift.
  destruct Hok as [K1 K2 K3 K4 K5 K6 K7 K8]. set (n' := return_procedures f (e_node e)).
  assert (channels_ok (set_node e n') out) as Hok1.
  { split; try done.
    - cbn. apply (forwarder_ok_channels (cd := condemned_of e out) (e_node e) (pf_channels f)); [done|apply Hf|done].
    - assert (lend_procedures n' = f) as Hlend by apply lend_return_procedures. cbn [e_node set_node]. by rewrite Hlend.
    - intros i sl s H1 H2. apply He. by eapply K6. }
  apply goes_on_bind; [apply wp_modify; split_and!; [done|done|]|intros _ e1 Hok2 _; apply goes_on_tabular; [done|]; apply tabular_each; intros; apply tabular_procedures].
  split; try done. intros sl Hsl. by exists sl.
Qed.

End Engine.
