(* ===== verification/EngineWorld.v ===== *)
(** * Every turn of the engine returns

    The invariant of an engine and the dials its transport has in flight, and that every turn of
    the executor keeps it: whatever arrives, fails, times out or is asked for, in any order.  What
    is asked of the callers and the transport is [permitted], above all [reachable_now]: nobody
    reaches for a peer that waits out its backoff. *)

From S2P Require Import Prelude EventMonad ByteOrder Varint Cursor Frame Control Hash Fragmentation Security Handshake SendQueue Negotiator Egress Qos History Registry Forwarder Subscription ForwarderSafety Procedure Session SessionSafety PeerTables Liveliness Liveness Reconnect Observation Engine EngineSafety.

Section World.
Context {host : Host} {R C : Type} `{!Rng R} `{!LawfulRng R} `{!PeerChannel C} `{!PeerContract C}.
Abbreviation eng := (prog (engine R C) engine_event).
Implicit Types (e : engine R C) (sl : slot_block R) (t : clocks) (n : node C) (fl : list endpoint).

(** ** The invariant *)

Definition dialing e (id : node_id) : Prop := exists sl, slot_at e id = Some sl /\ d_dialing (sl_driver sl) = true.

(** The engine, with the dials that have no outcome yet. *)
Record world_ok e fl : Prop := WorldOk {
  wo_channels : channels_ok e (dialing e);
  wo_build : build_ok (e_build e);
  wo_known : known_ok e;
  wo_drivers : forall id sl, slot_at e id = Some sl -> driver_ok (e_build e) sl;
  wo_unique : forall i j sl sl', slot_at e i = Some sl -> slot_at e j = Some sl' ->
    sl_dial_endpoint sl = sl_dial_endpoint sl' -> sl_dial_endpoint sl <> nowhere -> i = j;
  wo_flight : forall ep, ep ∈ fl <-> exists id sl, slot_at e id = Some sl /\ sl_dial_endpoint sl = ep /\ d_dialing (sl_driver sl) = true;
  wo_once : NoDup fl;
}.








(** ** Programs that keep it *)

(** The world stays sound, with the dials that were made added to those in flight. *)
Definition sound {A} (m : eng A) e fl : Prop := wp m (fun _ evs e' => world_ok e' (fl ++ dials evs)) e.

Lemma sound_bind {A B} (m : eng A) (k : A -> eng B) e fl :
  sound m e fl -> (forall x e' fl', world_ok e' fl' -> sound (k x) e' fl') -> sound (m ≫= k) e fl.
Proof.
  intros Hm Hk. apply wp_bind. eapply wp_mono; [exact Hm|]. intros x evs e' W. eapply wp_mono; [exact (Hk x e' _ W)|].
  intros y evs' e'' W'. by rewrite dials_app, app_assoc.
Qed.

Lemma sound_ret {A} (x : A) e fl : world_ok e fl -> sound (mret x) e fl.
Proof. intros W. apply wp_ret. cbn. by rewrite app_nil_r. Qed.




Lemma sound_each {A} (f : A -> eng unit) l e fl : world_ok e fl -> (forall x e' fl', world_ok e' fl' -> sound (f x) e' fl') -> sound (each f l) e fl.
Proof.
  revert e fl. induction l as [|x l IH]; intros e fl W Hf; cbn [each]; [by apply sound_ret|].
  apply sound_bind; [by apply Hf|]. intros _ e' fl' W'. by apply IH.
Qed.


#[local] Instance dialing_dec e id : Decision (dialing e id).
Proof.
  unfold dialing. destruct (slot_at e id) as [sl|] eqn:E; [|right; intros (x & H & _); congruence].
  destruct (d_dialing (sl_driver sl)) eqn:Ed; [left; by exists sl|right; intros (x & H & Hx); congruence].
Defined.





(** ** The forwarders *)







(** ** Dials *)
















(** ** New slots *)







(** ** Reaching for a peer *)








(** ** Awareness *)






(** ** The requests of the application *)







(** ** The tick *)





(** ** Every turn *)




(** ** Histories *)





End World.

(** ** Witnesses *)

#[local] Instance level : Rng unit := {| draw := fun _ hi => (hi / 2, tt) |}.
#[local] Instance level_lawful : LawfulRng unit.
Proof. constructor. intros g hi H. cbn. split; [apply Z.div_pos; lia|]. apply Z.div_le_upper_bound; lia. Qed.


Definition home_build : build_context unit :=
  BuildContext (Fsm.plain_config 1) 1000000000 (ReconnectConfig 100 5000 None None) tt (SecuritySeam None) false.
Definition home_node : node peer_stream := Node (message_forwarder_new global_default_max_message_bytes ∅) (procedure_forwarder_new 1000000000 4 ∅) ∅.
Definition home : engine unit peer_stream := engine_new home_build false default_liveliness_options home_node.

Definition there : endpoint := Endpoint [Byte.x74; Byte.x63; Byte.x70] [Byte.x31].
Definition wire (key : Z) : peer_stream :=
  PeerStream scheme_tcp (StreamChannel plaintext_bootstrap drop_newest key 0 0
    (StreamQueue.Session (StreamQueue.send_queue_new 4096 StreamQueue.default_gather_limit) [] [] []) true).

Fixpoint turns (l : list (engine_op peer_stream)) (e : engine unit peer_stream) : option (list engine_event * engine unit peer_stream) :=
  match l with
  | [] => Some ([], e)
  | o :: l => '(_, evs, e) ← step (host := little) (Clocks 5 5) o e; '(evs', e) ← turns l e; Some (evs ++ evs', e)
  end.

(** What the peer answers and asks. *)
Definition welcome : bytes := control_bytes 3 msg_handshake_resp (handshake_layout (Fsm.hello 2) ++ be_bytes 1 hs_accepted).
Definition ask : bytes := control_bytes 3 msg_subscribe (subscribe_layout (subscribe_request_of sample_topic (fqn_topic_hash sample_topic) None subscriber_qos_default)).

Definition them : node_id := Fsm.node 2.
Definition opening : list (engine_op peer_stream) :=
  [NotePeer them there; Reach them; DialFailed there].

(** A peer that answers and subscribes, and the end of a second dial. *)
Definition twice : list (engine_op peer_stream) := [Dialed there 1 (wire 1); Arrived them welcome; Arrived them ask; Dialed there 2 (wire 2)].

(** Reaching for a peer that waits out its backoff leaves a reference to a destroyed channel.  The driver dials at once and again
    when the wait runs out; the first connection is in use, with an entry in the fan-out, when the second one replaces it
    without tearing the session down, and the next publication goes to the channel that is gone. *)
Theorem reach_in_backoff_leaves_a_dangling_channel :
  let hasty := opening ++ [Reach them; BackoffExpired them] ++ twice in
  option_map (fun x => length (dials x.1)) (turns hasty home) = Some 3%nat /\ turns (hasty ++ [Publish sample_topic [Byte.x01] ]) home = None.
Proof. cbv zeta. split; vm_compute; reflexivity. Qed.






(** ** Where the engine surprises *)

Definition dialed : list (engine_op peer_stream) := [NotePeer them there; Reach them; Dialed there 1 (wire 1)].

Definition torn_at (e : engine unit peer_stream) : option bool := m_torn_down <$> session_for e them.

(** Reaching again for a peer whose handshake is under way tears the session down and dials anew. *)
Theorem second_reach_interrupts_the_handshake :
  option_map (fun x => (length (dials x.1), torn_at x.2)) (turns dialed home) = Some (1%nat, Some false) /\
  option_map (fun x => (length (dials x.1), torn_at x.2)) (turns (dialed ++ [Reach them]) home) = Some (2%nat, Some true).
Proof. split; vm_compute; reflexivity. Qed.

(** The slot of a connection that came in outlives it, and the next connection takes another one. *)
Theorem accepted_slots_accumulate :
  option_map (fun x => length (e_slots x.2)) (turns [Accepted 1 (wire 1); ProtocolClose (inbound_id 1); Accepted 2 (wire 2); ProtocolClose (inbound_id 2)] home) = Some 2%nat.
Proof. vm_compute. reflexivity. Qed.

Definition watcher : observer := Observer 7 true true.

(** An observer that registers twice is removed by one call and counted once more for good. *)
Theorem observer_counted_after_removal :
  option_map (fun x => (length (e_observers x.2), cp_observers_present (e_capture x.2), pl_subscribers (e_peer_liveliness x.2)))
    (turns [AddObs watcher; AddObs watcher; RemoveObs watcher] home) = Some (0%nat, 1, 1).
Proof. vm_compute. reflexivity. Qed.

Definition request : bytes := data_frame 3 msg_rpc_request 0 (request_body 1 9 sample_topic []).

(** A reply that comes after the connection of its request was replaced goes to the channel that is gone. *)
Theorem late_reply_uses_a_destroyed_channel :
  let replaced := [Serve sample_topic 3] ++ dialed ++ [Arrived them welcome; Arrived them request; ChannelError them connection_reset; BackoffExpired them; Dialed there 2 (wire 2)] in
  turns replaced home <> None /\ turns (replaced ++ [Reply rpc_success [] ]) home = None.
Proof. cbv zeta. split; vm_compute; [discriminate|reflexivity]. Qed.
