(* ===== verification/AntiReplay.v ===== *)
(** * The anti-replay window of the authenticated datagram channel

    Models [backends/plexus-crypto/include/plexus/crypto/anti_replay_window.h]: the
    [RFC 4303] bitmap of 64-bit words below the highest accepted sequence, with the
    whole-word shift that advances it.  [Width] is the template argument; an access
    to the array outside its words is [None].  The window is shown to be the set of
    the sequences it accepted, cut at [Width] below the highest. *)

From S2P Require Import Prelude DedupWindow.

Module AntiReplay.

Definition k_anti_replay_window_bits : Z := 4096.

Inductive replay_verdict : Type := accept | reject_replay | reject_old.

#[global] Instance replay_verdict_eq_dec : EqDecision replay_verdict.
Proof. solve_decision. Defined.

Definition k_word_bits : Z := 64.

Record anti_replay_window : Type := AntiReplayWindow {
  m_bitmap : list Z;
  m_highest : Z;
  m_seen_any : bool;
}.

Section Window.
Context (Width : Z).

Definition k_words : Z := (Width + k_word_bits - 1) / k_word_bits.

Definition anti_replay_window_new : anti_replay_window :=
  AntiReplayWindow (replicate (Z.to_nat k_words) 0) 0 false.

Definition set_bit (bm : list Z) (b : Z) : option (list Z) :=
  w ← bm !! Z.to_nat (b / k_word_bits);
  Some (<[Z.to_nat (b / k_word_bits) := Z.lor w (shl 64 1 (b mod k_word_bits))]> bm).

Definition test_bit (bm : list Z) (b : Z) : option bool :=
  w ← bm !! Z.to_nat (b / k_word_bits);
  Some (negb (Z.land w (shl 64 1 (b mod k_word_bits)) =? 0)).

Definition mask_above_width (bm : list Z) : option (list Z) :=
  let top_bits := Width mod k_word_bits in
  if negb (top_bits =? 0)
  then w ← bm !! Z.to_nat (k_words - 1);
       Some (<[Z.to_nat (k_words - 1) := Z.land w (wrap 64 (shl 64 1 top_bits - 1))]> bm)
  else Some bm.

(** The body of the loop of [slide] at word [i]. *)
Definition slide_word (bm : list Z) (word_shift bit_shift i : Z) : option Z :=
  w ← (if word_shift <=? i
       then x ← bm !! Z.to_nat (i - word_shift); Some (shl 64 x bit_shift)
       else Some 0);
  if negb (bit_shift =? 0) && (word_shift <? i)
  then x ← bm !! Z.to_nat (i - word_shift - 1); Some (Z.lor w (Z.shiftr x (k_word_bits - bit_shift)))
  else Some w.

(** The loop of [slide] with [n] words left, in place and from the top. *)
Fixpoint slide_words (bm : list Z) (word_shift bit_shift : Z) (n : nat) : option (list Z) :=
  match n with
  | O => Some bm
  | S i => w ← slide_word bm word_shift bit_shift (Z.of_nat i);
           slide_words (<[i := w]> bm) word_shift bit_shift i
  end.

Definition slide (bm : list Z) (by_ : Z) : option (list Z) :=
  if Width <=? by_ then Some (replicate (Z.to_nat k_words) 0) else
  bm ← slide_words bm (by_ / k_word_bits) (by_ mod k_word_bits) (Z.to_nat k_words);
  mask_above_width bm.

Definition would_accept (w : anti_replay_window) (seq : Z) : option replay_verdict :=
  if negb (m_seen_any w) then Some accept else
  if m_highest w <? seq then Some accept else
  let back := m_highest w - seq in
  if Width <=? back then Some reject_old else
  t ← test_bit (m_bitmap w) back;
  Some (if (t : bool) then reject_replay else accept).

Definition check_and_set (w : anti_replay_window) (seq : Z) : option (replay_verdict * anti_replay_window) :=
  if negb (m_seen_any w)
  then bm ← set_bit (m_bitmap w) 0; Some (accept, AntiReplayWindow bm seq true) else
  if m_highest w <? seq
  then bm ← slide (m_bitmap w) (seq - m_highest w);
       bm ← set_bit bm 0; Some (accept, AntiReplayWindow bm seq true) else
  let back := m_highest w - seq in
  if Width <=? back then Some (reject_old, w) else
  t ← test_bit (m_bitmap w) back;
  if (t : bool) then Some (reject_replay, w) else
  bm ← set_bit (m_bitmap w) back; Some (accept, AntiReplayWindow bm (m_highest w) (m_seen_any w)).

Definition reset (w : anti_replay_window) : anti_replay_window :=
  AntiReplayWindow (replicate (length (m_bitmap w)) 0) 0 false.

(** ** The reference: the set of accepted sequences *)

(** [ref_verdict h seen seq]: the verdict on [seq] when [seen] was accepted and [h] is
    the highest of it, [None] when nothing was. *)
Definition ref_verdict (h : option Z) (seen : gset Z) (seq : Z) : replay_verdict :=
  match h with
  | None => accept
  | Some h =>
      if decide (h < seq) then accept else
      if decide (Width <= h - seq) then reject_old else
      if decide (seq ∈ seen) then reject_replay else accept
  end.

Definition ref_step (h : option Z) (seen : gset Z) (seq : Z) : replay_verdict * (option Z * gset Z) :=
  match ref_verdict h seen seq with
  | accept => (accept, (Some (match h with None => seq | Some h => Z.max h seq end), {[seq]} ∪ seen))
  | v => (v, (h, seen))
  end.

(** ** Bits of the word array *)

Definition bit_at (bm : list Z) (d : Z) : bool :=
  match bm !! Z.to_nat (d / k_word_bits) with
  | Some w => Z.testbit w (d mod k_word_bits)
  | None => false
  end.

Definition wf_words (bm : list Z) : Prop := zlen bm = k_words /\ Forall (in_width 64) bm.

(** The window tracks the highest [h] and the accepted set [seen]. *)
Record tracks (w : anti_replay_window) (h : option Z) (seen : gset Z) : Prop := Tracks {
  t_words : wf_words (m_bitmap w);
  t_seen_any : m_seen_any w = bool_decide (is_Some h);
  t_high : m_highest w = match h with Some h => h | None => 0 end;
  t_bits : forall d, 0 <= d < Width ->
    bit_at (m_bitmap w) d = match h with Some h => bool_decide (h - d ∈ seen) | None => false end;
  t_below : forall n, n ∈ seen -> exists h', h = Some h' /\ n <= h';
}.

Hypothesis Hwidth : 0 < Width.

Lemma k_words_bound d : 0 <= d < Width -> 0 <= d / 64 < k_words.
Proof. unfold k_words, k_word_bits. intros. dlia. Qed.

Lemma wf_words_lookup bm i : wf_words bm -> 0 <= i < k_words -> exists w, bm !! Z.to_nat i = Some w /\ in_width 64 w.
Proof.
  intros [Hl Hf] Hi. destruct (lookup_lt_is_Some_2 bm (Z.to_nat i)) as [w Hw]; [unfold zlen in Hl; lia|].
  exists w. split; [done|]. by eapply Forall_lookup_1.
Qed.

Lemma wf_words_insert bm i w : wf_words bm -> in_width 64 w -> wf_words (<[i := w]> bm).
Proof. intros [Hl Hf] Hw. split; [unfold zlen in *; by rewrite length_insert|]. by apply Forall_insert. Qed.

Lemma wf_words_zero : wf_words (replicate (Z.to_nat k_words) 0).
Proof.
  split; [unfold zlen; rewrite length_replicate; unfold k_words, k_word_bits; dlia|].
  apply Forall_replicate. unfold in_width. lia.
Qed.

Lemma bit_at_zero n d : bit_at (replicate n 0) d = false.
Proof.
  unfold bit_at. destruct (replicate n 0 !! _) as [w|] eqn:E; [|done].
  apply lookup_replicate in E as [-> _]. apply Z.bits_0.
Qed.

Lemma test_bit_spec bm b : wf_words bm -> 0 <= b < Width -> test_bit bm b = Some (bit_at bm b).
Proof.
  intros Hwf Hb. destruct (wf_words_lookup bm (b / 64) Hwf (k_words_bound _ Hb)) as (w & Hw & ?).
  unfold test_bit, bit_at, k_word_bits in *. rewrite Hw. cbn. rewrite Dedup.mask_bit by dlia. done.
Qed.

Lemma testbit_shl_1 k i : 0 <= k < 64 -> 0 <= i < 64 -> Z.testbit (shl 64 1 k) i = bool_decide (i = k).
Proof.
  intros. rewrite Dedup.shl_testbit by lia. case_decide.
  - symmetry. apply bool_decide_eq_false. lia.
  - change 1 with (2 ^ 0). rewrite Z.pow2_bits_eqb by lia.
    destruct (Z.eqb_spec 0 (i - k)); symmetry; [apply bool_decide_eq_true|apply bool_decide_eq_false]; lia.
Qed.

Lemma set_bit_spec bm b : wf_words bm -> 0 <= b < Width ->
  exists bm', set_bit bm b = Some bm' /\ wf_words bm' /\
    forall d, 0 <= d -> bit_at bm' d = bool_decide (d = b) || bit_at bm d.
Proof.
  intros Hwf Hb. destruct (wf_words_lookup bm (b / 64) Hwf (k_words_bound _ Hb)) as (w & Hw & Hin).
  unfold set_bit, bit_at, k_word_bits in *. rewrite Hw. cbn. eexists; split_and!; [done| |].
  - apply wf_words_insert; [done|]. apply in_width_lor; [lia|done|]. apply wrap_range; lia.
  - intros d Hd. destruct (decide (d / 64 = b / 64)) as [He|Hne].
    + rewrite He, list_lookup_insert_eq by by eapply lookup_lt_Some. rewrite Hw, Z.lor_spec, testbit_shl_1 by dlia.
      rewrite orb_comm. f_equal. apply bool_decide_ext. dlia.
    + rewrite list_lookup_insert_ne by dlia. rewrite bool_decide_eq_false_2; [done|]. congruence.
Qed.

(** ** The whole-word shift moves every bit up by the displacement *)

Lemma slide_word_insert bm ws bs i j w :
  0 <= ws -> (j < i)%nat -> slide_word (<[i := w]> bm) ws bs (Z.of_nat j) = slide_word bm ws bs (Z.of_nat j).
Proof.
  intros Hws Hj. unfold slide_word. by rewrite !list_lookup_insert_ne by lia.
Qed.

Lemma slide_word_Some bm ws bs i : wf_words bm -> 0 <= ws -> 0 <= bs < 64 -> 0 <= i < k_words ->
  exists w, slide_word bm ws bs i = Some w /\ in_width 64 w.
Proof.
  intros Hwf Hws Hbs Hi. unfold slide_word, k_word_bits.
  assert (exists w, (if ws <=? i then x ← bm !! Z.to_nat (i - ws); Some (shl 64 x bs) else Some 0) = Some w /\
    in_width 64 w) as (w & -> & Hw).
  { destruct (Z.leb_spec ws i).
    - destruct (wf_words_lookup bm (i - ws) Hwf) as (x & -> & ?); [lia|]. cbn. eexists; split; [done|]. apply wrap_range; lia.
    - exists 0. split; [done|]. unfold in_width. lia. }
  cbn. destruct (negb (bs =? 0) && (ws <? i)) eqn:E; [|eauto].
  apply andb_true_iff in E as [E1 E2%Z.ltb_lt]. apply negb_true_iff, Z.eqb_neq in E1.
  destruct (wf_words_lookup bm (i - ws - 1) Hwf) as (x & -> & ?); [lia|]. cbn. eexists; split; [done|].
  apply in_width_lor; [lia|done|]. apply in_width_shiftr; [lia|lia|done].
Qed.

Lemma slide_words_spec ws bs n : forall bm, wf_words bm -> 0 <= ws -> 0 <= bs < 64 -> (n <= Z.to_nat k_words)%nat ->
  exists bm', slide_words bm ws bs n = Some bm' /\ wf_words bm' /\
    forall j, bm' !! j = if decide (j < n)%nat then slide_word bm ws bs (Z.of_nat j) else bm !! j.
Proof.
  induction n as [|i IH]; intros bm Hwf Hws Hbs Hn.
  { exists bm. split_and!; [done|done|]. intros j. by rewrite decide_False by lia. }
  destruct (slide_word_Some bm ws bs (Z.of_nat i)) as (w & Hw & Hin); [done..|lia|].
  destruct (IH (<[i := w]> bm)) as (bm' & Hrun & Hwf' & Hj); [by apply wf_words_insert|done..|lia|].
  exists bm'. split_and!; [cbn; by rewrite Hw|done|]. intros j. rewrite Hj.
  destruct (decide (j < i)%nat); [rewrite decide_True by lia; by apply slide_word_insert|].
  destruct (decide (j = i)) as [->|].
  - rewrite decide_True by lia. rewrite list_lookup_insert_eq; [done|]. destruct Hwf. unfold zlen in *. lia.
  - rewrite decide_False by lia. by rewrite list_lookup_insert_ne by lia.
Qed.

Lemma slide_word_bit bm ws bs d w : wf_words bm -> 0 <= ws -> 0 <= bs < 64 -> 0 <= d < 64 * k_words ->
  slide_word bm ws bs (d / 64) = Some w ->
  Z.testbit w (d mod 64) = if decide (64 * ws + bs <= d) then bit_at bm (d - (64 * ws + bs)) else false.
Proof.
  intros Hwf Hws Hbs Hd. unfold slide_word, bit_at, k_word_bits.
  destruct (Z.leb_spec ws (d / 64)) as [Hle|Hlt].
  2:{ destruct (Z.ltb_spec ws (d / 64)); [lia|]. rewrite andb_false_r. intros; simplify_eq/=.
      rewrite Z.bits_0, decide_False by dlia. done. }
  destruct (wf_words_lookup bm (d / 64 - ws) Hwf) as (x & Hx & Hxin); [dlia|]. rewrite Hx. cbn.
  destruct (decide (bs <= d mod 64)) as [Hb|Hb].
  - rewrite decide_True by dlia.
    assert ((d - (64 * ws + bs)) / 64 = d / 64 - ws) as -> by dlia.
    assert ((d - (64 * ws + bs)) mod 64 = d mod 64 - bs) as -> by dlia. rewrite Hx.
    assert (Z.testbit (shl 64 x bs) (d mod 64) = Z.testbit x (d mod 64 - bs)) as Hlo.
    { rewrite Dedup.shl_testbit by (destruct Hxin; dlia). by rewrite decide_False by lia. }
    destruct (negb (bs =? 0) && (ws <? d / 64)) eqn:E; intros H; [|by simplify_eq].
    apply andb_true_iff in E as [_ E2%Z.ltb_lt].
    destruct (wf_words_lookup bm (d / 64 - ws - 1) Hwf) as (y & Hy & Hyin); [dlia|]. rewrite Hy in H. simplify_eq/=.
    rewrite Z.lor_spec, Hlo, Z.shiftr_spec by dlia. rewrite (testbit_above 64 y) by (done || dlia). apply orb_false_r.
  - assert (Z.testbit (shl 64 x bs) (d mod 64) = false) as Hlo.
    { rewrite Dedup.shl_testbit by (destruct Hxin; dlia). by rewrite decide_True by lia. }
    assert (negb (bs =? 0) = true) as -> by (apply negb_true_iff, Z.eqb_neq; dlia).
    rewrite andb_true_l. destruct (Z.ltb_spec ws (d / 64)); intros Hrun.
    + rewrite decide_True by dlia.
      assert ((d - (64 * ws + bs)) / 64 = d / 64 - ws - 1) as -> by dlia.
      assert ((d - (64 * ws + bs)) mod 64 = d mod 64 + (64 - bs)) as -> by dlia.
      destruct (wf_words_lookup bm (d / 64 - ws - 1) Hwf) as (y & Hy & Hyin); [dlia|]. rewrite Hy in Hrun |- *.
      simplify_eq/=. rewrite Z.lor_spec, Hlo, Z.shiftr_spec by dlia. done.
    + simplify_eq. rewrite decide_False by dlia. done.
Qed.

Lemma mask_above_width_spec bm : wf_words bm ->
  exists bm', mask_above_width bm = Some bm' /\ wf_words bm' /\ forall d, 0 <= d < Width -> bit_at bm' d = bit_at bm d.
Proof.
  intros Hwf. unfold mask_above_width, k_word_bits. destruct (Z.eqb_spec (Width mod 64) 0) as [|Hne]; cbn [negb]; [eauto|].
  assert (0 < k_words) by (unfold k_words, k_word_bits; dlia).
  destruct (wf_words_lookup bm (k_words - 1) Hwf) as (w & Hw & Hin); [lia|]. rewrite Hw. cbn.
  eexists; split_and!; [done|apply wf_words_insert; [done|]; by apply in_width_land_l|].
  intros d Hd. unfold bit_at, k_word_bits. destruct (decide (d / 64 = k_words - 1)) as [He|He].
  - rewrite He, list_lookup_insert_eq by by eapply lookup_lt_Some. rewrite Hw, Z.land_spec.
    assert (0 <= Width mod 64 < 64) by dlia.
    assert (shl 64 1 (Width mod 64) = 2 ^ (Width mod 64)) as Hp.
    { unfold shl. rewrite Z.shiftl_1_l. apply wrap_small. split; [apply Z.pow_nonneg; lia|apply Z.pow_lt_mono_r; lia]. }
    assert (1 <= 2 ^ (Width mod 64) < 2 ^ 64) as Hr.
    { split; [apply (Z.pow_le_mono_r 2 0); lia|apply Z.pow_lt_mono_r; lia]. }
    rewrite Hp, wrap_small by (unfold in_width; lia).
    replace (2 ^ (Width mod 64) - 1) with (Z.ones (Width mod 64)) by (rewrite Z.ones_equiv; lia).
    rewrite Z.ones_spec_low; [apply andb_true_r|]. unfold k_words, k_word_bits in *. dlia.
  - rewrite list_lookup_insert_ne; [done|]. pose proof (k_words_bound d Hd). lia.
Qed.

Lemma slide_spec bm by_ : wf_words bm -> 0 < by_ ->
  exists bm', slide bm by_ = Some bm' /\ wf_words bm' /\
    forall d, 0 <= d < Width -> bit_at bm' d = if decide (by_ <= d) then bit_at bm (d - by_) else false.
Proof.
  intros Hwf Hby. unfold slide, k_word_bits. destruct (Z.leb_spec Width by_).
  { eexists; split_and!; [done|apply wf_words_zero|]. intros d Hd. rewrite bit_at_zero, decide_False by lia. done. }
  destruct (slide_words_spec (by_ / 64) (by_ mod 64) (Z.to_nat k_words) bm) as (bm1 & -> & Hwf1 & Hj); [done|dlia|dlia|done|].
  destruct (mask_above_width_spec bm1 Hwf1) as (bm2 & Hm & Hwf2 & Hbits). exists bm2. split_and!; [done|done|].
  intros d Hd. rewrite Hbits by done. pose proof (k_words_bound d Hd) as Hk. unfold bit_at at 1, k_word_bits.
  rewrite Hj, decide_True by lia. rewrite Z2Nat.id by lia.
  destruct (slide_word_Some bm (by_ / 64) (by_ mod 64) (d / 64)) as (w & Hw & _); [done|dlia|dlia|done|].
  assert (d < 64 * k_words) by (clear - Hd Hk; pose proof (Z.div_mod d 64); pose proof (Z.mod_pos_bound d 64); lia).
  rewrite Hw. rewrite (slide_word_bit bm (by_ / 64) (by_ mod 64) d w Hwf) by (done || lia || (clear - Hby; dlia)).
  by replace (64 * (by_ / 64) + by_ mod 64) with by_ by dlia.
Qed.

(** ** The window refines the set of accepted sequences *)

Lemma window_tracks_new : tracks anti_replay_window_new None ∅.
Proof. split; try done; [apply wf_words_zero|]. intros d Hd. apply bit_at_zero. Qed.

Lemma tracks_reset w h seen : tracks w h seen -> tracks (reset w) None ∅.
Proof.
  intros [ [Hl Hf] _ _ _ _]. split; try done.
  - cbn. replace (length (m_bitmap w)) with (Z.to_nat k_words) by (unfold zlen in *; lia). apply wf_words_zero.
  - intros d Hd. apply bit_at_zero.
Qed.

Lemma would_accept_spec w h seen seq : tracks w h seen -> 0 <= seq ->
  would_accept w seq = Some (ref_verdict h seen seq).
Proof.
  intros [Hwf Hany Hh Hbits _] Hseq. unfold would_accept, ref_verdict. rewrite Hany, Hh.
  destruct h as [h|]; [|done]. rewrite bool_decide_eq_true_2 by by eexists. cbn [negb].
  destruct (Z.ltb_spec h seq); [by rewrite decide_True by lia|]. rewrite decide_False by lia.
  destruct (Z.leb_spec Width (h - seq)); [by rewrite decide_True by lia|]. rewrite decide_False by lia.
  rewrite test_bit_spec by (done || lia). cbn. rewrite Hbits by lia. replace (h - (h - seq)) with seq by lia.
  destruct (decide (seq ∈ seen)) as [Hin|Hnot]; [by rewrite bool_decide_eq_true_2|by rewrite bool_decide_eq_false_2].
Qed.

(** A first or forward sequence: the bits move up and the new highest is marked. *)
Lemma tracks_forward bm h seen seq :
  wf_words bm -> (forall n, n ∈ seen -> exists h', h = Some h' /\ n <= h') ->
  (forall h', h = Some h' -> h' < seq) ->
  (forall d, 0 <= d < Width -> bit_at bm d = bool_decide (d = 0) || bool_decide (seq - d ∈ seen)) ->
  tracks (AntiReplayWindow bm seq true) (Some seq) ({[seq]} ∪ seen).
Proof.
  intros Hwf Hbelow Hlt Hb. split; cbn [m_bitmap m_highest m_seen_any]; try done.
  - intros d Hd. rewrite Hb by done. rewrite <- bool_decide_or. apply bool_decide_ext. rewrite elem_of_union, elem_of_singleton.
    split; (intros [?|?]; [left; lia|by right]).
  - intros n [Hn%elem_of_singleton|Hn]%elem_of_union; exists seq; (split; [done|]); [lia|].
    destruct (Hbelow n Hn) as (h' & -> & ?). specialize (Hlt h' eq_refl). lia.
Qed.

Lemma check_and_set_spec w h seen seq : tracks w h seen -> 0 <= seq ->
  exists w', check_and_set w seq = Some (ref_verdict h seen seq, w') /\
    tracks w' (ref_step h seen seq).2.1 (ref_step h seen seq).2.2.
Proof.
  intros Ht Hseq. pose proof Ht as [Hwf Hany Hh Hbits Hbelow]. unfold check_and_set, ref_step, ref_verdict.
  rewrite Hany, Hh. destruct h as [h|]; [rewrite bool_decide_eq_true_2 by by eexists|]; cbn [negb].
  2:{ destruct (set_bit_spec (m_bitmap w) 0 Hwf) as (bm & Hset & Hwf' & Hb); [lia|]. rewrite Hset. cbn.
      eexists; split; [done|]. apply (tracks_forward _ None); [done..|]. intros d Hd. rewrite Hb, Hbits by lia.
      f_equal. symmetry. apply bool_decide_eq_false. intros Hin. by destruct (Hbelow _ Hin) as (? & ? & _). }
  destruct (Z.ltb_spec h seq) as [Hlt|Hge].
  { rewrite decide_True by lia. cbn [fst snd].
    destruct (slide_spec (m_bitmap w) (seq - h) Hwf) as (bm1 & Hsl & Hwf1 & Hb1); [lia|]. rewrite Hsl. cbn.
    destruct (set_bit_spec bm1 0 Hwf1) as (bm & Hset & Hwf' & Hb); [lia|]. rewrite Hset. cbn.
    eexists; split; [done|]. rewrite Z.max_r by lia. apply (tracks_forward _ (Some h)); [done|done|congruence|].
    intros d Hd. rewrite Hb, Hb1 by lia. f_equal. case_decide.
    - rewrite Hbits by lia. by replace (h - (d - (seq - h))) with (seq - d) by lia.
    - symmetry. apply bool_decide_eq_false. intros Hin. destruct (Hbelow _ Hin) as (? & [= <-] & ?). lia. }
  rewrite decide_False by lia. destruct (Z.leb_spec Width (h - seq)); [by rewrite decide_True by lia; eauto|].
  rewrite decide_False by lia. rewrite test_bit_spec by (done || lia). cbn. rewrite Hbits by lia.
  replace (h - (h - seq)) with seq by lia. destruct (decide (seq ∈ seen)) as [Hin|Hnot];
    [rewrite bool_decide_eq_true_2 by done; eauto|rewrite bool_decide_eq_false_2 by done].
  destruct (set_bit_spec (m_bitmap w) (h - seq) Hwf) as (bm & Hset & Hwf' & Hb); [lia|]. rewrite Hset. cbn.
  eexists; split; [done|]. rewrite Z.max_l by lia. split; cbn [m_bitmap m_highest m_seen_any]; try done.
  - intros d Hd. rewrite Hb, Hbits by lia. rewrite <- bool_decide_or. apply bool_decide_ext.
    rewrite elem_of_union, elem_of_singleton. split; (intros [?|?]; [left; lia|by right]).
  - intros n [Hn%elem_of_singleton|Hn]%elem_of_union; [exists h; split; [done|lia]|]. by apply Hbelow.
Qed.

(** A run of [check_and_set] over a list of sequences, and of its reference. *)
Fixpoint window_run (w : anti_replay_window) (seqs : list Z) : option (list replay_verdict) :=
  match seqs with
  | [] => Some []
  | seq :: seqs => '(v, w) ← check_and_set w seq; vs ← window_run w seqs; Some (v :: vs)
  end.

Fixpoint ref_run (h : option Z) (seen : gset Z) (seqs : list Z) : list replay_verdict :=
  match seqs with
  | [] => []
  | seq :: seqs => let '(v, (h, seen)) := ref_step h seen seq in v :: ref_run h seen seqs
  end.

Lemma window_run_ref seqs : forall w h seen, tracks w h seen -> Forall (fun s => 0 <= s) seqs ->
  window_run w seqs = Some (ref_run h seen seqs).
Proof.
  induction seqs as [|seq seqs IH]; intros w h seen Ht Hs; [done|]. inversion Hs; subst.
  destruct (check_and_set_spec w h seen seq Ht) as (w' & Hc & Ht'); [done|]. cbn. rewrite Hc. cbn.
  rewrite (IH w' _ _ Ht') by done. cbn. unfold ref_step. by destruct (ref_verdict h seen seq).
Qed.

(** No reference run accepts a sequence of [seen], nor one twice. *)
Lemma ref_run_once seqs : forall h seen i seq,
  (forall n, n ∈ seen -> exists h', h = Some h' /\ n <= h') ->
  seqs !! i = Some seq -> ref_run h seen seqs !! i = Some accept ->
  (seq ∉ seen) /\ forall j, (j < i)%nat -> seqs !! j = Some seq -> ref_run h seen seqs !! j <> Some accept.
Proof.
  induction seqs as [|s seqs IH]; intros h seen i seq Hb Hi Ha; [done|].
  assert (forall n, n ∈ (ref_step h seen s).2.2 -> exists h', (ref_step h seen s).2.1 = Some h' /\ n <= h') as Hb'.
  { unfold ref_step. destruct (ref_verdict h seen s); [|exact Hb..]. cbn [fst snd].
    intros n [Hn%elem_of_singleton|Hn]%elem_of_union; (eexists; split; [done|]); [destruct h; lia|].
    destruct (Hb n Hn) as (h' & -> & ?). lia. }
  assert (ref_run h seen (s :: seqs) = ref_verdict h seen s :: ref_run (ref_step h seen s).2.1 (ref_step h seen s).2.2 seqs) as Hrun.
  { cbn [ref_run]. unfold ref_step. by destruct (ref_verdict h seen s). }
  rewrite Hrun in Ha |- *. destruct i as [|i]; cbn in Hi, Ha.
  - simplify_eq. split; [|intros j ?; lia]. intros Hin. destruct (Hb _ Hin) as (h' & -> & ?).
    unfold ref_verdict in Ha. rewrite decide_False in Ha by lia. case_decide; [done|]. by rewrite decide_True in Ha.
  - destruct (IH _ _ _ _ Hb' Hi Ha) as [Hnot Hj]. split.
    + intros Hin. apply Hnot. unfold ref_step. destruct (ref_verdict h seen s); cbn; set_solver.
    + intros [|j] Hlt Hs; cbn in *; [|apply Hj; [lia|done]]. simplify_eq. intros [= Hv]. apply Hnot.
      unfold ref_step. rewrite Hv. cbn. set_solver.
Qed.

End Window.

(** The bitmap window of any positive width gives, on any order of 64-bit sequences, the
    verdicts of the reference that keeps the whole set of accepted sequences; no access
    leaves the word array and no sequence is accepted twice. *)
Theorem anti_replay_window_refines (Width : Z) (seqs : list Z)
    (Hwidth : 0 < Width) (Hseqs : Forall (fun s => 0 <= s) seqs) :
  window_run Width (anti_replay_window_new Width) seqs = Some (ref_run Width None ∅ seqs) /\
  forall i j seq, (j < i)%nat -> seqs !! i = Some seq -> seqs !! j = Some seq ->
    ref_run Width None ∅ seqs !! j = Some accept -> ref_run Width None ∅ seqs !! i <> Some accept.
Proof.
  split; [by apply window_run_ref, Hseqs; [|apply window_tracks_new]|].
  intros i j seq Hlt Hi Hj Haj Hai. by destruct (ref_run_once Width Hwidth seqs None ∅ i seq) as [_ Hno];
    [set_solver|done..|eapply Hno].
Qed.

Lemma anti_replay_window_refines_witness :
  window_run 70 (anti_replay_window_new 70) [5; 3; 5; 80; 3; 70; 12; 11; 10; 300; 80]
    = Some [accept; accept; reject_replay; accept; reject_old; accept; accept; accept; reject_old; accept; reject_old] /\
  window_run 70 (anti_replay_window_new 70) [5; 3; 5] = Some (ref_run 70 None ∅ [5; 3; 5]).
Proof.
  split; [vm_compute; reflexivity|]. apply (anti_replay_window_refines 70 [5; 3; 5]); [lia|]. repeat constructor; lia.
Defined.

End AntiReplay.
