(* ===== verification/AuthChannel.v ===== *)
(** * The authenticated channels

    Models the AEAD decorators of [backends/plexus-crypto]: [aead_cipher.cpp] and
    [key_schedule.cpp] over OpenSSL, [aead_epoch.h], the datagram decorator
    ([detail/datagram_aead_path.h], [datagram_authenticated_channel.h]) and the stream
    decorator ([detail/aead_path.h], [authenticated_channel.h]).

    OpenSSL is a parameter: the class [Evp] has one operation per call sequence the
    sources make ([EVP_Encrypt*], [EVP_Decrypt*], [EVP_KDF_derive]) and [EvpLaws] its
    documented behaviour.  The scratch vectors the channels keep across calls are
    overwritten before each use and are not part of the state. *)

From S2P Require Import Prelude EventMonad ByteOrder Frame FrameReassembler Qos Egress AntiReplay.
Import AntiReplay.

(** ** [aead_cipher.h] *)

Definition aead_key : Type := bytes.
Definition k_aead_nonce_len : nat := 12.
Definition k_aead_tag_len : nat := 16.

Inductive aead_cipher_id : Type := chacha20_poly1305 | aes_256_gcm.

(** The EVP cipher object, and the two HKDF modes. *)
Inductive evp_cipher : Type := EVP_chacha20_poly1305 | EVP_aes_256_gcm.
Inductive hkdf_mode : Type := EXTRACT_ONLY | EXPAND_ONLY.

Class Evp : Type := {
  (** Init, AAD, update, final and get-tag: the ciphertext and the tag. *)
  evp_encrypt : evp_cipher -> aead_key -> bytes -> bytes -> bytes -> option (bytes * bytes);
  (** Init, AAD, update, set-tag and final: the plaintext, of a verified tag only. *)
  evp_decrypt : evp_cipher -> aead_key -> bytes -> bytes -> bytes -> bytes -> option bytes;
  (** [EVP_KDF_derive] of HKDF-SHA256: mode, key, salt or info, output length. *)
  evp_kdf : hkdf_mode -> bytes -> bytes -> nat -> option bytes;
}.

(** The ciphers are stream modes with a 16-byte tag that is a function of the key, the
    nonce, the AAD and the ciphertext, recomputed and compared on decryption. *)
Class EvpLaws (evp : Evp) : Prop := {
  evp_encrypt_length c k n a p ct tag :
    evp_encrypt c k n a p = Some (ct, tag) -> length ct = length p /\ length tag = k_aead_tag_len;
  evp_decrypt_exact c k n a ct tag p :
    evp_decrypt c k n a ct tag = Some p <-> evp_encrypt c k n a p = Some (ct, tag);
}.

Definition evp_for (cipher : aead_cipher_id) : evp_cipher :=
  match cipher with aes_256_gcm => EVP_aes_256_gcm | chacha20_poly1305 => EVP_chacha20_poly1305 end.

Section Aead.
Context `{evp : Evp}.

Definition seal (cipher : aead_cipher_id) (key : aead_key) (nonce aad plaintext : bytes) : option bytes :=
  '(ct, tag) ← evp_encrypt (evp_for cipher) key nonce aad plaintext;
  Some (ct ++ tag).

(** [open] of the source. *)
Definition aead_open (cipher : aead_cipher_id) (key : aead_key) (nonce aad ciphertext_and_tag : bytes) : option bytes :=
  if decide (length ciphertext_and_tag < k_aead_tag_len)%nat then None else
  let ct_len := (length ciphertext_and_tag - k_aead_tag_len)%nat in
  evp_decrypt (evp_for cipher) key nonce aad (take ct_len ciphertext_and_tag) (drop ct_len ciphertext_and_tag).

(** ** [key_schedule.h] *)

Definition k_rekey_message_threshold : Z := Z.shiftl 1 20.
Definition k_aead_safety_bound : Z := Z.shiftl 1 32.

Record derived_keys : Type := DerivedKeys { k_send : aead_key; k_recv : aead_key }.

Definition hkdf (mode : hkdf_mode) (key salt_or_info : bytes) (out_len : nat) : option bytes :=
  evp_kdf mode key salt_or_info out_len.

Definition label (s : list Z) : bytes := map byte.of_Z s.
(** "plexus aead snd" and "plexus aead rcv". *)
Definition snd_label : bytes := label [112; 108; 101; 120; 117; 115; 32; 97; 101; 97; 100; 32; 115; 110; 100].
Definition rcv_label : bytes := label [112; 108; 101; 120; 117; 115; 32; 97; 101; 97; 100; 32; 114; 99; 118].

Definition info_for (label transcript : bytes) : bytes := label ++ transcript.

Definition expand_into (master label transcript : bytes) : option aead_key :=
  hkdf EXPAND_ONLY master (info_for label transcript) 32.

Definition derive_keys (psk initiator_nonce responder_nonce transcript_digest : bytes) : option derived_keys :=
  let salt := initiator_nonce ++ responder_nonce in
  master ← hkdf EXTRACT_ONLY psk salt 32;
  k_send ← expand_into master snd_label transcript_digest;
  k_recv ← expand_into master rcv_label transcript_digest;
  Some (DerivedKeys k_send k_recv).

(** ** [aead_epoch.h] *)

Definition derive_forward (from : aead_key) : option aead_key :=
  let nonce := zero_bytes 16 in
  let transcript := zero_bytes 32 in
  d ← derive_keys from nonce nonce transcript;
  Some (k_send d).

(** Byte [i] of the [n]-byte big-endian loops of [make_nonce] and [write_seq]. *)
Definition be_loop (n : nat) (v : Z) : bytes :=
  map (fun i => byte.of_Z (Z.land (Z.shiftr v (8 * Z.of_nat (n - 1 - i))) 0xff)) (seq 0 n).

Definition make_nonce (epoch seq : Z) : bytes := be_loop 4 epoch ++ be_loop 8 seq.

(** The low byte of an epoch. *)
Definition epoch_low (epoch : Z) : Z := Z.land epoch 0xff.

End Aead.

(** The calls a channel makes. *)
Inductive auth_event : Type :=
| LowerSend (frame : bytes)
| LowerClose
| OnData (frame : bytes)
| OnDrop (cause : drop_cause) (transport : locality)
| OnProtocolClose (cause : close_cause).

Definition auth_delivered (evs : list auth_event) : list bytes :=
  omap (fun e => match e with OnData f => Some f | _ => None end) evs.
Definition auth_sent (evs : list auth_event) : list bytes :=
  omap (fun e => match e with LowerSend f => Some f | _ => None end) evs.

(** ** [class datagram_authenticated_channel] *)

Module Datagram.

Definition k_seq_len : nat := 8.
Definition k_frame_overhead : nat := k_seq_len + 1 + header_size + k_aead_tag_len.

Record channel : Type := Channel {
  m_cipher : aead_cipher_id;
  m_send_key : aead_key;
  m_recv_key : aead_key;
  m_send_epoch : Z;
  m_recv_epoch : Z;
  m_send_seq : Z;
  m_window : anti_replay_window;
  m_replay_dropped : Z;
  m_tamper_dropped : Z;
  m_on_data_cb : bool;
  m_on_drop_cb : bool;
}.

Definition channel_new (cipher : aead_cipher_id) (keys : derived_keys) (initial_epoch : Z) : channel :=
  Channel cipher (k_send keys) (k_recv keys) initial_epoch initial_epoch 0
          (anti_replay_window_new k_anti_replay_window_bits) 0 0 false false.

Abbreviation act := (prog channel auth_event).

Definition on_data (c : channel) : channel :=
  Channel (m_cipher c) (m_send_key c) (m_recv_key c) (m_send_epoch c) (m_recv_epoch c) (m_send_seq c)
          (m_window c) (m_replay_dropped c) (m_tamper_dropped c) true (m_on_drop_cb c).

Definition on_drop (c : channel) : channel :=
  Channel (m_cipher c) (m_send_key c) (m_recv_key c) (m_send_epoch c) (m_recv_epoch c) (m_send_seq c)
          (m_window c) (m_replay_dropped c) (m_tamper_dropped c) (m_on_data_cb c) true.

Definition set_send_seq (v : Z) (c : channel) : channel :=
  Channel (m_cipher c) (m_send_key c) (m_recv_key c) (m_send_epoch c) (m_recv_epoch c) v
          (m_window c) (m_replay_dropped c) (m_tamper_dropped c) (m_on_data_cb c) (m_on_drop_cb c).

Definition bump_tamper (c : channel) : channel :=
  Channel (m_cipher c) (m_send_key c) (m_recv_key c) (m_send_epoch c) (m_recv_epoch c) (m_send_seq c)
          (m_window c) (m_replay_dropped c) (wrap 64 (m_tamper_dropped c + 1)) (m_on_data_cb c) (m_on_drop_cb c).

Definition bump_replay (c : channel) : channel :=
  Channel (m_cipher c) (m_send_key c) (m_recv_key c) (m_send_epoch c) (m_recv_epoch c) (m_send_seq c)
          (m_window c) (wrap 64 (m_replay_dropped c + 1)) (m_tamper_dropped c) (m_on_data_cb c) (m_on_drop_cb c).

Definition set_recv (key : aead_key) (epoch : Z) (w : anti_replay_window) (c : channel) : channel :=
  Channel (m_cipher c) (m_send_key c) key (m_send_epoch c) epoch (m_send_seq c)
          w (m_replay_dropped c) (m_tamper_dropped c) (m_on_data_cb c) (m_on_drop_cb c).

Definition dropped_count (c : channel) : Z := wrap 64 (m_replay_dropped c + m_tamper_dropped c).

Definition write_seq (seq : Z) : bytes := be_loop k_seq_len seq.

Definition read_seq (p : bytes) : Z :=
  fold_left (fun seq b => Z.lor (shl 64 seq 8) ⟦b⟧) (take k_seq_len p) 0.

Definition emit_drop (cause : drop_cause) (transport : locality) : act unit :=
  cb ← gets m_on_drop_cb;
  if (cb : bool) then emit (OnDrop cause transport) else mret tt.

Definition tamper : act unit := modify bump_tamper ;; emit_drop dc_tamper loc_remote.

Section Path.
Context `{evp : Evp}.

Definition datagram_send (data : bytes) : act unit :=
  if decide (length data < header_size)%nat then emit_drop dc_malformed loc_local else
  let header := take header_size data in
  let payload := drop header_size data in
  c ← gets id;
  let seq := m_send_seq c in
  modify (set_send_seq (wrap 64 (seq + 1))) ;;
  let nonce := make_nonce (epoch_low (m_send_epoch c)) seq in
  match seal (m_cipher c) (m_send_key c) nonce header payload with
  | None => mret tt
  | Some sealed =>
      emit (LowerSend (write_seq seq ++ [byte.of_Z (epoch_low (m_send_epoch c))] ++ header ++ sealed))
  end.

(** The key and whether it advances the epoch. *)
Definition candidate_key_for (c : channel) (epoch_byte : Z) : option (aead_key * bool) :=
  let current_low := epoch_low (m_recv_epoch c) in
  if epoch_byte =? current_low then Some (m_recv_key c, false) else
  let next_low := epoch_low (wrap 32 (m_recv_epoch c + 1)) in
  if epoch_byte =? next_low
  then out ← derive_forward (m_recv_key c); Some (out, true)
  else None.

(** The end of [datagram_on_lower_data]: the tag check and the commit. *)
Definition open_and_commit (seq epoch_byte : Z) (header sealed : bytes) (candidate : aead_key) (advances_epoch : bool)
    : act unit :=
  c ← gets id;
  let nonce := make_nonce epoch_byte seq in
  match aead_open (m_cipher c) candidate nonce header sealed with
  | None => tamper
  | Some plain =>
      (if advances_epoch
       then modify (set_recv candidate (wrap 32 (m_recv_epoch c + 1)) (reset (m_window c)))
       else mret tt) ;;
      c ← gets id;
      '(_, w) ← lift (check_and_set k_anti_replay_window_bits (m_window c) seq);
      modify (set_recv (m_recv_key c) (m_recv_epoch c) w) ;;
      if m_on_data_cb c then emit (OnData (header ++ plain)) else mret tt
  end.

Definition datagram_on_lower_data (data : bytes) : act unit :=
  if decide (length data < k_frame_overhead)%nat then tamper else
  let seq := read_seq data in
  b ← lift (data !! k_seq_len);
  let epoch_byte := ⟦b⟧ in
  let header := take header_size (drop (k_seq_len + 1) data) in
  let sealed := drop (k_seq_len + 1 + header_size) data in
  c ← gets id;
  match candidate_key_for c epoch_byte with
  | None => tamper
  | Some (candidate, advances_epoch) =>
      verdict ← (if negb advances_epoch
                 then lift (would_accept k_anti_replay_window_bits (m_window c) seq)
                 else mret accept);
      match verdict with
      | accept => open_and_commit seq epoch_byte header sealed candidate advances_epoch
      | reject_old => modify bump_replay ;; emit_drop dc_too_old loc_remote
      | reject_replay => modify bump_replay ;; emit_drop dc_replay loc_remote
      end
  end.

Definition close : act unit := emit LowerClose.

End Path.

End Datagram.

(** ** [class authenticated_channel] *)

Module Stream.

Record channel : Type := Channel {
  m_cipher : aead_cipher_id;
  m_send_key : aead_key;
  m_recv_key : aead_key;
  m_send_epoch : Z;
  m_recv_epoch : Z;
  m_rekey_threshold : Z;
  m_send_seq : Z;
  m_recv_seq : Z;
  m_on_data_cb : bool;
  m_on_protocol_close_cb : bool;
}.

Definition channel_new (cipher : aead_cipher_id) (keys : derived_keys) (initial_epoch rekey_threshold : Z) : channel :=
  Channel cipher (k_send keys) (k_recv keys) initial_epoch initial_epoch rekey_threshold 0 0 false false.

Abbreviation act := (prog channel auth_event).

Definition on_data (c : channel) : channel :=
  Channel (m_cipher c) (m_send_key c) (m_recv_key c) (m_send_epoch c) (m_recv_epoch c) (m_rekey_threshold c)
          (m_send_seq c) (m_recv_seq c) true (m_on_protocol_close_cb c).

Definition on_protocol_close (c : channel) : channel :=
  Channel (m_cipher c) (m_send_key c) (m_recv_key c) (m_send_epoch c) (m_recv_epoch c) (m_rekey_threshold c)
          (m_send_seq c) (m_recv_seq c) (m_on_data_cb c) true.

Definition set_send (key : aead_key) (epoch seq : Z) (c : channel) : channel :=
  Channel (m_cipher c) key (m_recv_key c) epoch (m_recv_epoch c) (m_rekey_threshold c)
          seq (m_recv_seq c) (m_on_data_cb c) (m_on_protocol_close_cb c).

Definition set_recv (key : aead_key) (epoch seq : Z) (c : channel) : channel :=
  Channel (m_cipher c) (m_send_key c) key (m_send_epoch c) epoch (m_rekey_threshold c)
          (m_send_seq c) seq (m_on_data_cb c) (m_on_protocol_close_cb c).

Definition close : act unit := emit LowerClose.

Section Path.
Context `{evp : Evp}.

Definition rekey_send : act unit :=
  c ← gets id;
  match derive_forward (m_send_key c) with
  | None => mret tt
  | Some next => modify (set_send next (wrap 32 (m_send_epoch c + 1)) 0)
  end.

Definition handle_protocol_close (cause : close_cause) : act unit :=
  cb ← gets m_on_protocol_close_cb;
  (if (cb : bool) then emit (OnProtocolClose cause) else mret tt) ;;
  close.

Definition stream_aead_send (data : bytes) : act unit :=
  if decide (length data < header_size)%nat then mret tt else
  let header := take header_size data in
  let payload := drop header_size data in
  c ← gets id;
  (if m_rekey_threshold c <=? m_send_seq c then rekey_send else mret tt) ;;
  c ← gets id;
  let nonce := make_nonce (epoch_low (m_send_epoch c)) (m_send_seq c) in
  modify (set_send (m_send_key c) (m_send_epoch c) (wrap 64 (m_send_seq c + 1))) ;;
  match seal (m_cipher c) (m_send_key c) nonce header payload with
  | None => mret tt
  | Some sealed => emit (LowerSend ([byte.of_Z (epoch_low (m_send_epoch c))] ++ header ++ sealed))
  end.

Definition select_recv_key (epoch_byte : Z) : act (option aead_key) :=
  c ← gets id;
  let current_low := epoch_low (m_recv_epoch c) in
  if epoch_byte =? current_low then mret (Some (m_recv_key c)) else
  let next_low := epoch_low (wrap 32 (m_recv_epoch c + 1)) in
  if epoch_byte =? next_low
  then match derive_forward (m_recv_key c) with
       | None => mret None
       | Some next => modify (set_recv next (wrap 32 (m_recv_epoch c + 1)) 0) ;; mret (Some next)
       end
  else mret None.

Definition stream_aead_on_lower_data (data : bytes) : act unit :=
  if decide (length data < 1 + header_size + k_aead_tag_len)%nat then handle_protocol_close cause_buffer_overflow else
  b ← lift (data !! 0%nat);
  let epoch_byte := ⟦b⟧ in
  let header := take header_size (drop 1 data) in
  let sealed := drop (1 + header_size) data in
  key ← select_recv_key epoch_byte;
  match key with
  | None => handle_protocol_close cause_invalid_magic
  | Some key =>
      c ← gets id;
      let nonce := make_nonce epoch_byte (m_recv_seq c) in
      match aead_open (m_cipher c) key nonce header sealed with
      | None => handle_protocol_close cause_invalid_magic
      | Some plain =>
          modify (set_recv (m_recv_key c) (m_recv_epoch c) (wrap 64 (m_recv_seq c + 1))) ;;
          if m_on_data_cb c then emit (OnData (header ++ plain)) else mret tt
      end
  end.

End Path.

End Stream.
