(* ===== verification/AuthSafety.v ===== *)
(** * The authenticated channels deliver what was sent, once

    Two ends of an authenticated channel.  Datagrams: whatever the network loses,
    repeats, reorders or forges, the receiver hands up exactly the sealed messages its
    replay window accepts, none twice, and a datagram that does not authenticate leaves
    keys, epoch and window as they were.  Streams: the frames of any number of key
    epochs arrive as they were sent, and no key seals more than the rekey threshold. *)

From S2P Require Import Prelude EventMonad ByteOrder Frame FrameReassembler Qos Egress AntiReplay AuthChannel.
Import AntiReplay.

(** ** The byte loops are the big-endian encodings *)

Lemma byte_of_Z_land_255 x : byte.of_Z (Z.land x 0xff) = byte.of_Z x.
Proof. change 0xff with (Z.ones 8). rewrite Z.land_ones by lia. apply byte_of_Z_wrap. Qed.

Lemma le_split_snoc n v : le_split (S n) v = le_split n v ++ [byte.of_Z (Z.shiftr v (8 * Z.of_nat n))].
Proof.
  revert v. induction n as [|n IH]; intros v; [cbn; by rewrite Z.shiftr_0_r|].
  change (le_split (S (S n)) v) with (byte.of_Z v :: le_split (S n) (Z.shiftr v 8)). rewrite IH.
  rewrite Z.shiftr_shiftr by lia. replace (8 + 8 * Z.of_nat n) with (8 * Z.of_nat (S n)) by lia. done.
Qed.

Lemma be_loop_be_bytes n v : be_loop n v = be_bytes n v.
Proof.
  unfold be_loop, be_bytes. induction n as [|n IH]; [done|]. rewrite le_split_snoc, rev_app_distr.
  cbn [seq map rev app]. rewrite byte_of_Z_land_255. f_equal; [by do 3 f_equal; lia|].
  rewrite <- IH, <- seq_shift, map_map. apply map_ext_in. intros i Hi. by do 4 f_equal; lia.
Qed.

Lemma length_be_loop n v : length (be_loop n v) = n.
Proof. unfold be_loop. by rewrite length_map, length_seq. Qed.

Lemma be_value_snoc bs b : be_value (bs ++ [b]) = Z.lor (Z.shiftl (be_value bs) 8) ⟦b⟧.
Proof. unfold be_value. rewrite rev_app_distr. cbn [rev app le_combine]. apply Z.lor_comm. Qed.

Lemma read_loop_be_value bs :
  (length bs <= 8)%nat -> fold_left (fun seq b => Z.lor (shl 64 seq 8) ⟦b⟧) bs 0 = be_value bs.
Proof.
  induction bs as [|b bs IH] using rev_ind; intros Hl; [done|]. rewrite length_app in Hl. cbn in Hl.
  rewrite fold_left_app, IH, be_value_snoc by lia. cbn. f_equal. unfold shl. apply wrap_small.
  pose proof (be_value_range bs) as [H0 H1]. unfold zlen in H1. rewrite Z.shiftl_mul_pow2 by lia.
  assert (2 ^ (8 * Z.of_nat (length bs)) <= 2 ^ 56) by (apply Z.pow_le_mono_r; lia).
  unfold in_width. change (2 ^ 64) with (2 ^ 56 * 2 ^ 8). nia.
Qed.

Lemma read_write_seq v rest : in_width 64 v -> Datagram.read_seq (Datagram.write_seq v ++ rest) = v.
Proof.
  intros Hv. unfold Datagram.read_seq, Datagram.write_seq, Datagram.k_seq_len.
  rewrite be_loop_be_bytes, take_app_le by by rewrite length_be_bytes.
  rewrite take_ge by by rewrite length_be_bytes. rewrite read_loop_be_value by by rewrite length_be_bytes.
  by apply be_value_be_bytes.
Qed.

Lemma epoch_low_range e : in_width 8 (epoch_low e).
Proof. unfold epoch_low. change 0xff with (Z.ones 8). rewrite Z.land_ones by lia. apply wrap_range. lia. Qed.

Lemma epoch_low_wrap e : epoch_low (wrap 32 e) = epoch_low e.
Proof.
  unfold epoch_low. change 0xff with (Z.ones 8). rewrite !Z.land_ones by lia. unfold wrap.
  change (2 ^ 32) with (2 ^ 8 * 2 ^ 24). rewrite Z.rem_mul_r by lia. rewrite Z.mul_comm, Z.mod_add by lia.
  apply Z.mod_mod. lia.
Qed.

(** The nonce of a key's epoch is injective in the sequence. *)
Lemma make_nonce_inj e s s' : in_width 64 s -> in_width 64 s' -> make_nonce e s = make_nonce e s' -> s = s'.
Proof.
  intros Hs Hs' H. unfold make_nonce in H. apply app_inv_head in H. rewrite !be_loop_be_bytes in H.
  rewrite <- (be_value_be_bytes 8 s Hs), H. by apply be_value_be_bytes.
Qed.

(** ** Sealing and opening *)

Section Aead.
Context `{laws : EvpLaws}.

Lemma seal_length c k n a p s : seal c k n a p = Some s -> length s = (length p + k_aead_tag_len)%nat.
Proof.
  unfold seal. intros H. apply bind_Some in H as ([ct tag] & He & [= <-]).
  apply evp_encrypt_length in He as [? ?]. rewrite length_app. lia.
Qed.

(** [open] succeeds exactly on what [seal] makes. *)
Lemma open_seal c k n a s p : aead_open c k n a s = Some p <-> seal c k n a p = Some s.
Proof.
  unfold aead_open, seal. split.
  - case_decide as Hl; [done|]. intros H%evp_decrypt_exact. rewrite H. cbn. f_equal. apply take_drop.
  - intros H. apply bind_Some in H as ([ct tag] & He & [= <-]). pose proof He as He'.
    apply evp_encrypt_length in He' as [? Ht]. rewrite decide_False by (rewrite length_app; lia).
    rewrite length_app, Ht. replace (length ct + k_aead_tag_len - k_aead_tag_len)%nat with (length ct) by lia.
    rewrite take_app_length, drop_app_length. by apply evp_decrypt_exact.
Qed.

End Aead.

Lemma window_width : 0 < k_anti_replay_window_bits.
Proof. done. Qed.

(** ** The accepted sequences of the reference window *)

Section Accepts.
Context (Width : Z) (Hwidth : 0 < Width).

Fixpoint ref_accepts (h : option Z) (seen : gset Z) (seqs : list Z) : list Z :=
  match seqs with
  | [] => []
  | s :: seqs =>
      let '(v, (h, seen)) := ref_step Width h seen s in
      match v with accept => s :: ref_accepts h seen seqs | _ => ref_accepts h seen seqs end
  end.

Definition bounded_by (h : option Z) (seen : gset Z) : Prop :=
  forall n, n ∈ seen -> exists h', h = Some h' /\ n <= h'.

Lemma ref_accept_fresh h seen s : bounded_by h seen -> ref_verdict Width h seen s = accept -> s ∉ seen.
Proof.
  intros Hb Hv Hin. destruct (Hb s Hin) as (h' & -> & ?). unfold ref_verdict in Hv.
  rewrite decide_False in Hv by lia. case_decide; [done|]. by rewrite decide_True in Hv.
Qed.

Lemma ref_accept_bounded h seen s :
  bounded_by h seen -> bounded_by (Some (match h with None => s | Some h => Z.max h s end)) ({[s]} ∪ seen).
Proof.
  intros Hb n [Hn%elem_of_singleton|Hn]%elem_of_union; (eexists; split; [done|]); [destruct h; lia|].
  destruct (Hb n Hn) as (h' & -> & ?). lia.
Qed.

Lemma ref_accepts_nodup seqs : forall h seen, bounded_by h seen ->
  NoDup (ref_accepts h seen seqs) /\ (forall s, s ∈ ref_accepts h seen seqs -> s ∈ seqs /\ s ∉ seen).
Proof.
  induction seqs as [|s seqs IH]; intros h seen Hb; cbn [ref_accepts].
  { split; [constructor|]. intros ? H. by apply not_elem_of_nil in H. }
  unfold ref_step. destruct (ref_verdict Width h seen s) eqn:Hv.
  2,3: destruct (IH h seen Hb) as [? Hin]; split; [done|]; intros x Hx; destruct (Hin x Hx); split; [by right|done].
  destruct (IH _ _ (ref_accept_bounded h seen s Hb)) as [Hnd Hin]. split.
  - constructor; [|done]. intros Hs. destruct (Hin s Hs) as [_ Hnot]. apply Hnot. set_solver.
  - intros x [->|Hx]%elem_of_cons; [split; [by left|by eapply ref_accept_fresh]|].
    destruct (Hin x Hx) as [? Hnot]. split; [by right|]. set_solver.
Qed.

(** What a replay window is for: of the sequences in their order of arrival, those that did not arrive
    before and that no earlier one is [Width] or more ahead of. *)
Definition fresh_and_recent (before : list Z) (s : Z) : Prop := (s ∉ before) /\ Forall (fun a => a - s < Width) before.
#[global] Instance fresh_and_recent_dec before s : Decision (fresh_and_recent before s).
Proof. unfold fresh_and_recent. apply _. Defined.

Fixpoint admissible (before seqs : list Z) : list Z :=
  match seqs with
  | [] => []
  | s :: seqs => (if decide (fresh_and_recent before s) then [s] else []) ++ admissible (before ++ [s]) seqs
  end.

(** The state of the reference window after the arrivals [before]. *)
Record window_of (before : list Z) (h : option Z) (seen : gset Z) : Prop := WindowOf {
  wo_highest : match h with None => before = [] | Some h => h ∈ before /\ Forall (fun a => a <= h) before end;
  wo_seen s : s ∈ seen -> s ∈ before;
  wo_old s : s ∈ before -> s ∈ seen \/ exists h', h = Some h' /\ Width <= h' - s;
}.

Lemma window_of_verdict before h seen s : window_of before h seen -> ref_verdict Width h seen s = accept <-> fresh_and_recent before s.
Proof using Hwidth.
  intros [Hh Hs Ho]. unfold fresh_and_recent, ref_verdict. destruct h as [h|].
  2: { subst. split; [|done]. intros _. split; [by intros ?%not_elem_of_nil|constructor]. }
  destruct Hh as [Hin Hmax]. rewrite Forall_forall in Hmax |- *. case_decide as H1; [|case_decide as H2; [|case_decide as H3] ].
  - split; [|done]. intros _. split; [intros Hx; specialize (Hmax s Hx); lia|]. intros a Ha. specialize (Hmax a Ha). lia.
  - split; [done|]. intros [_ Hf]. specialize (Hf h Hin). lia.
  - split; [done|]. intros [Hf _]. destruct Hf. by apply Hs.
  - split; [|done]. intros _. split; [intros Hx; destruct (Ho s Hx) as [|(h' & [= <-] & ?)]; [done|lia]|].
    intros a Ha. specialize (Hmax a Ha). lia.
Qed.

Lemma window_of_step before h seen s : window_of before h seen ->
  let '(_, (h', seen')) := ref_step Width h seen s in window_of (before ++ [s]) h' seen'.
Proof using Hwidth.
  intros Hw. unfold ref_step. destruct (ref_verdict Width h seen s) eqn:Hv.
  - destruct Hw as [Hh Hs Ho]. split.
    + destruct h as [h|].
      * destruct Hh as [Hin Hmax]. split; [destruct (Z.max_spec h s) as [ [_ ->]|[_ ->] ]; apply elem_of_app; [right; by left|by left]|].
        apply Forall_app. split; [eapply Forall_impl; [exact Hmax|]; intros; cbn in *; lia|]. repeat constructor. lia.
      * subst. split; [by left|]. by repeat constructor.
    + intros x [->%elem_of_singleton|Hx]%elem_of_union; apply elem_of_app; [right; by left|left; by apply Hs].
    + intros x [Hx|Hx%list_elem_of_singleton]%elem_of_app; [|subst; left; set_solver].
      destruct (Ho x Hx) as [|(h' & -> & ?)]; [left; set_solver|]. right. eexists. split; [done|]. lia.
  - assert (exists h0, h = Some h0 /\ s <= h0 /\ s ∈ seen) as (h0 & -> & Hle & Hseen).
    { unfold ref_verdict in Hv. destruct h as [h|]; [|done]. repeat case_decide; try done. exists h. split_and!; [done|lia|done]. }
    destruct Hw as [ [Hin Hmax] Hs Ho]. split.
    + split; [apply elem_of_app; by left|]. apply Forall_app. split; [done|]. by repeat constructor.
    + intros x Hx. apply elem_of_app. left. by apply Hs.
    + intros x [Hx|Hx%list_elem_of_singleton]%elem_of_app; [by apply Ho|]. subst. by left.
  - assert (exists h0, h = Some h0 /\ s <= h0 /\ Width <= h0 - s) as (h0 & -> & Hle & Hold).
    { unfold ref_verdict in Hv. destruct h as [h|]; [|done]. repeat case_decide; try done. exists h. split_and!; [done|lia|done]. }
    destruct Hw as [ [Hin Hmax] Hs Ho]. split.
    + split; [apply elem_of_app; by left|]. apply Forall_app. split; [done|]. by repeat constructor.
    + intros x Hx. apply elem_of_app. left. by apply Hs.
    + intros x [Hx|Hx%list_elem_of_singleton]%elem_of_app; [by apply Ho|]. subst. right. by exists h0.
Qed.

Lemma ref_accepts_admissible seqs : forall before h seen, window_of before h seen -> ref_accepts h seen seqs = admissible before seqs.
Proof using Hwidth.
  induction seqs as [|s seqs IH]; intros before h seen Hw; [done|]. cbn [ref_accepts admissible].
  pose proof (window_of_verdict _ _ _ s Hw) as Hv. pose proof (window_of_step _ _ _ s Hw) as Hstep. unfold ref_step in *.
  destruct (ref_verdict Width h seen s); (case_decide as Hd; [|]); try (exfalso; naive_solver); cbn [app]; (rewrite <- (IH _ _ _ Hstep); done).
Qed.

Lemma window_of_new : window_of [] None ∅.
Proof. split; [done| |]; intros s Hs; [by apply not_elem_of_empty in Hs|by apply not_elem_of_nil in Hs]. Qed.

End Accepts.

(** ** Datagrams *)

Module DatagramLink.
Import Datagram.

Section Link.
Context `{laws : EvpLaws}.

Definition dgram (epoch seq : Z) (header sealed : bytes) : bytes :=
  write_seq seq ++ [byte.of_Z (epoch_low epoch)] ++ header ++ sealed.

(** The datagram [data] does not authenticate under the keys of [c]. *)
Definition forged (c : channel) (data : bytes) : Prop :=
  match data !! k_seq_len with
  | Some b =>
      match candidate_key_for c ⟦b⟧ with
      | Some (key, _) =>
          aead_open (m_cipher c) key (make_nonce ⟦b⟧ (read_seq data)) (take header_size (drop (k_seq_len + 1) data))
            (drop (k_seq_len + 1 + header_size) data) = None
      | None => True
      end
  | None => True
  end.

(** [c'] differs from [c] in the window and the drop counters only. *)
Definition same_keys (c c' : channel) : Prop :=
  m_cipher c' = m_cipher c /\ m_send_key c' = m_send_key c /\ m_recv_key c' = m_recv_key c /\
  m_send_epoch c' = m_send_epoch c /\ m_recv_epoch c' = m_recv_epoch c /\ m_send_seq c' = m_send_seq c /\
  m_on_data_cb c' = m_on_data_cb c /\ m_on_drop_cb c' = m_on_drop_cb c.

Lemma read_seq_range data : in_width 64 (read_seq data).
Proof.
  unfold read_seq, k_seq_len. rewrite read_loop_be_value by (rewrite length_take; lia).
  pose proof (be_value_range (take 8 data)) as [H0 H1]. split; [done|]. eapply Z.lt_le_trans; [exact H1|].
  apply Z.pow_le_mono_r; [lia|]. unfold zlen. rewrite length_take. lia.
Qed.

Lemma wp_emit_drop cause t c : exists evs, emit_drop cause t c = Some (tt, evs, c) /\ auth_delivered evs = [].
Proof. unfold emit_drop. rewrite bind_gets. destruct (m_on_drop_cb c); eexists; split; reflexivity. Qed.

Lemma tamper_run c : exists evs, tamper c = Some (tt, evs, bump_tamper c) /\ auth_delivered evs = [].
Proof. unfold tamper. rewrite bind_modify. apply wp_emit_drop. Qed.

(** A datagram that does not authenticate: a drop and a counter. *)
Lemma forged_step c h seen data :
  tracks k_anti_replay_window_bits (m_window c) h seen -> forged c data ->
  exists evs c', datagram_on_lower_data data c = Some (tt, evs, c') /\ auth_delivered evs = [] /\
    (c' = bump_tamper c \/ c' = bump_replay c).
Proof.
  intros Ht Hf. unfold datagram_on_lower_data.
  assert (forall cause, exists evs c', (modify bump_replay ;; emit_drop cause loc_remote) c = Some (tt, evs, c') /\
    auth_delivered evs = [] /\ (c' = bump_tamper c \/ c' = bump_replay c)) as Hrep.
  { intros cause. rewrite bind_modify. destruct (wp_emit_drop cause loc_remote (bump_replay c)) as (evs & ? & ?). eauto 6. }
  destruct (tamper_run c) as (tevs & Htam & Htd). case_decide as Hlen; [eauto 6|].
  unfold forged in Hf. destruct (lookup_lt_is_Some_2 data k_seq_len) as [b Hb];
    [unfold k_frame_overhead, k_seq_len, header_size in *; lia|].
  rewrite Hb in Hf |- *. rewrite bind_lift, bind_gets. unfold id.
  destruct (candidate_key_for c ⟦b⟧) as [ [key adv]|]; [|eauto 6].
  assert (exists evs c', open_and_commit (read_seq data) ⟦b⟧ (take header_size (drop (k_seq_len + 1) data))
    (drop (k_seq_len + 1 + header_size) data) key adv c = Some (tt, evs, c') /\
    auth_delivered evs = [] /\ (c' = bump_tamper c \/ c' = bump_replay c)) as Hopen.
  { unfold open_and_commit. rewrite bind_gets. unfold id. rewrite Hf. eauto 6. }
  destruct adv; cbn [negb]; [by rewrite bind_ret|].
  destruct (read_seq_range data). rewrite (would_accept_spec k_anti_replay_window_bits _ h seen) by done. rewrite bind_lift.
  destruct (ref_verdict _ h seen (read_seq data)); [done|apply Hrep|apply Hrep].
Qed.

(** The fields of an honest datagram. *)
Lemma dgram_fields epoch seq header sealed :
  in_width 64 seq -> length header = header_size -> (k_aead_tag_len <= length sealed)%nat ->
  let d := dgram epoch seq header sealed in
  ~ (length d < k_frame_overhead)%nat /\ read_seq d = seq /\ d !! k_seq_len = Some (byte.of_Z (epoch_low epoch)) /\
  take header_size (drop (k_seq_len + 1) d) = header /\ drop (k_seq_len + 1 + header_size) d = sealed.
Proof.
  intros Hs Hh Hl d. unfold d, dgram.
  assert (length (write_seq seq) = k_seq_len) as Hw by apply length_be_loop.
  assert (drop (k_seq_len + 1) (write_seq seq ++ [byte.of_Z (epoch_low epoch)] ++ header ++ sealed) = header ++ sealed) as Hd.
  { rewrite app_assoc. apply drop_app_length'. rewrite length_app, Hw. done. }
  split_and!.
  - rewrite !length_app, Hw, Hh. unfold k_frame_overhead. simpl. lia.
  - by apply read_write_seq.
  - rewrite lookup_app_r by lia. by rewrite Hw, Nat.sub_diag.
  - rewrite Hd. by apply take_app_length'.
  - rewrite <- drop_drop, Hd. by apply drop_app_length'.
Qed.

(** An honest datagram of the current epoch: the verdict of the reference window. *)
Lemma honest_step c h seen seq header p sealed :
  tracks k_anti_replay_window_bits (m_window c) h seen -> in_width 64 seq -> length header = header_size ->
  m_on_data_cb c = true ->
  seal (m_cipher c) (m_recv_key c) (make_nonce (epoch_low (m_recv_epoch c)) seq) header p = Some sealed ->
  exists evs c', datagram_on_lower_data (dgram (m_recv_epoch c) seq header sealed) c = Some (tt, evs, c') /\
    match ref_verdict k_anti_replay_window_bits h seen seq with
    | accept => auth_delivered evs = [header ++ p] /\ exists w', c' = set_recv (m_recv_key c) (m_recv_epoch c) w' c /\
        tracks k_anti_replay_window_bits w' (ref_step k_anti_replay_window_bits h seen seq).2.1
               (ref_step k_anti_replay_window_bits h seen seq).2.2
    | _ => auth_delivered evs = [] /\ c' = bump_replay c
    end.
Proof.
  intros Ht Hs Hh Hcb Hseal. pose proof (seal_length _ _ _ _ _ _ Hseal) as Hl.
  destruct (dgram_fields (m_recv_epoch c) seq header sealed) as (Hlen & Hseq & Hb & Hhd & Hsd); [done..|lia|].
  unfold datagram_on_lower_data. rewrite decide_False, Hseq, Hb, Hhd, Hsd by done. rewrite bind_lift, bind_gets. unfold id.
  rewrite unsigned_of_Z_small by apply epoch_low_range.
  unfold candidate_key_for. rewrite Z.eqb_refl. cbn [negb]. destruct Hs as [Hs0 Hs1].
  rewrite (would_accept_spec k_anti_replay_window_bits _ h seen) by done. rewrite bind_lift.
  destruct (check_and_set_spec k_anti_replay_window_bits window_width (m_window c) h seen seq Ht Hs0) as (w' & Hc & Ht').
  destruct (ref_verdict _ h seen seq) eqn:Hv.
  2,3: rewrite bind_modify; match goal with |- context [emit_drop ?a ?b ?x] =>
         destruct (wp_emit_drop a b x) as (evs & -> & ?) end; eauto.
  unfold open_and_commit. rewrite bind_gets. unfold id. rewrite (proj2 (open_seal _ _ _ _ _ _) Hseal).
  rewrite bind_ret, bind_gets, Hc, bind_lift, bind_modify. cbn [m_on_data_cb]. rewrite Hcb.
  eexists _, _. split; [done|]. split; [done|]. by exists w'.
Qed.

(** ** A run of the receiver *)

(** What arrives: the datagram of sent message [i], or anything else. *)
Inductive arrival : Type := Sent (i : nat) | Garbage (data : bytes).

Definition sent_index (a : arrival) : option Z :=
  match a with Sent i => Some (Z.of_nat i) | Garbage _ => None end.

Definition datagram_of (wires : list bytes) (a : arrival) : bytes :=
  match a with Sent i => default [] (wires !! i) | Garbage d => d end.

(** [w] is message [m] sealed under the receiving key of [c] with sequence [i]. *)
Definition sealed_for (c : channel) (i : nat) (m w : bytes) : Prop :=
  exists sealed, (header_size <= length m)%nat /\
    seal (m_cipher c) (m_recv_key c) (make_nonce (epoch_low (m_recv_epoch c)) (Z.of_nat i))
         (take header_size m) (drop header_size m) = Some sealed /\
    w = dgram (m_recv_epoch c) (Z.of_nat i) (take header_size m) sealed.

Record receiving (c0 c : channel) (h : option Z) (seen : gset Z) (drops : Z) : Prop := Receiving {
  rc_keys : same_keys c0 c;
  rc_window : tracks k_anti_replay_window_bits (m_window c) h seen;
  rc_drops : dropped_count c = wrap 64 drops;
}.

Lemma same_keys_forged c0 c data : same_keys c0 c -> forged c0 data -> forged c data.
Proof.
  intros (H1 & H2 & H3 & H4 & H5 & H6 & H7 & H8). unfold forged, candidate_key_for. by rewrite H1, H3, H5.
Qed.

Lemma receiving_drop c0 c h seen drops c' :
  receiving c0 c h seen drops -> c' = bump_tamper c \/ c' = bump_replay c -> receiving c0 c' h seen (drops + 1).
Proof.
  intros [Hk Hw Hd] Hc. unfold dropped_count, wrap in *.
  assert (forall a, (a + 1) mod 2 ^ 64 = ((a mod 2 ^ 64) + 1) mod 2 ^ 64) as Hm by (intros; by rewrite Zplus_mod_idemp_l).
  destruct Hc as [-> | ->]; (split; [done|done|]); unfold dropped_count, wrap; cbn [m_replay_dropped m_tamper_dropped bump_tamper bump_replay]; unfold wrap.
  - rewrite Zplus_mod_idemp_r, Z.add_assoc, Hm, Hd, <- Hm. done.
  - rewrite Zplus_mod_idemp_l.
    replace (m_replay_dropped c + 1 + m_tamper_dropped c) with (m_replay_dropped c + m_tamper_dropped c + 1) by lia.
    rewrite Hm, Hd, <- Hm. done.
Qed.

Lemma receive_run c0 ms wires arrivals : forall c h seen drops,
  receiving c0 c h seen drops -> m_on_data_cb c0 = true -> zlen ms <= 2 ^ 64 ->
  (forall i m, ms !! i = Some m -> exists w, wires !! i = Some w /\ sealed_for c0 i m w) ->
  Forall (fun a => match a with Sent i => (i < length ms)%nat | Garbage d => forged c0 d end) arrivals ->
  exists evs c' h' seen', each datagram_on_lower_data (map (datagram_of wires) arrivals) c = Some (tt, evs, c') /\
    let ks := ref_accepts k_anti_replay_window_bits h seen (omap sent_index arrivals) in
    auth_delivered evs = map (fun k => ms !!! Z.to_nat k) ks /\
    receiving c0 c' h' seen' (drops + (zlen arrivals - zlen ks)).
Proof.
  intros c h seen drops Hr Hcb Hms Hw Ha. revert c h seen drops Hr.
  induction Ha as [|a arrivals Ha Has IH]; intros c h seen drops Hr.
  { exists [], c, h, seen. split; [done|]. split; [done|]. change (receiving c0 c h seen (drops + (0 - 0))).
    by replace (drops + (0 - 0)) with drops by lia. }
  pose proof Hr as [Hk Ht Hd]. cbn [map each]. unfold mbind, prog_bind.
  assert (forall c1 evs1, auth_delivered evs1 = [] -> (c1 = bump_tamper c \/ c1 = bump_replay c) ->
    exists evs c' h' seen',
    match each datagram_on_lower_data (map (datagram_of wires) arrivals) c1 with
    | None => None | Some (y, evs', s) => Some (y, evs1 ++ evs', s) end = Some (tt, evs, c') /\
    auth_delivered evs = map (fun k => ms !!! Z.to_nat k)
      (ref_accepts k_anti_replay_window_bits h seen (omap sent_index arrivals)) /\
    receiving c0 c' h' seen' (drops + (zlen (a :: arrivals) -
       zlen (ref_accepts k_anti_replay_window_bits h seen (omap sent_index arrivals))))) as Hdrop.
  { intros c1 evs1 He Hc1. destruct (IH c1 h seen (drops + 1)) as (evs & c' & h' & seen' & Hrun & Hdel & Hr');
      [by eapply receiving_drop|]. exists (evs1 ++ evs), c', h', seen'. rewrite Hrun. split; [done|]. split.
    - unfold auth_delivered in *. by rewrite omap_app, He.
    - replace (zlen (a :: arrivals)) with (zlen arrivals + 1) by (unfold zlen; rewrite length_cons; lia).
      match goal with |- receiving _ _ _ _ (drops + ?x) => replace (drops + x) with
        (drops + 1 + (zlen arrivals - zlen (ref_accepts k_anti_replay_window_bits h seen (omap sent_index arrivals)))) by lia end.
      done. }
  destruct a as [i|data]; cbn [datagram_of].
  2:{ destruct (forged_step c h seen data Ht) as (evs1 & c1 & -> & He & Hc1); [by eapply same_keys_forged|].
      cbn [omap list_omap sent_index]. by apply Hdrop. }
  destruct (lookup_lt_is_Some_2 ms i Ha) as [m Hm]. destruct (Hw i m Hm) as (w & Hwi & sealed & Hlen & Hseal & ->).
  rewrite Hwi. cbn [default from_option id]. pose proof Hk as (K1 & K2 & K3 & K4 & K5 & K6 & K7 & K8).
  rewrite <- K1, <- K3, <- K5 in Hseal. rewrite <- K5.
  apply lookup_lt_Some in Hm as Hi. unfold zlen in Hms.
  destruct (honest_step c h seen (Z.of_nat i) (take header_size m) (drop header_size m) sealed Ht)
    as (evs1 & c1 & -> & Hcase); [unfold in_width; lia|rewrite length_take; lia|by rewrite K7|done|].
  rewrite take_drop in Hcase. cbn [omap list_omap sent_index ref_accepts].
  change (omap sent_index (Sent i :: arrivals)) with (Z.of_nat i :: omap sent_index arrivals).
  cbn [ref_accepts]. unfold ref_step in *.
  destruct (ref_verdict k_anti_replay_window_bits h seen (Z.of_nat i)) eqn:Hv; cbn [fst snd] in *.
  2,3: destruct Hcase as [He ->]; by apply Hdrop; [|right].
  destruct Hcase as (He & w' & -> & Ht').
  assert (receiving c0 (set_recv (m_recv_key c) (m_recv_epoch c) w' c)
    (Some (match h with None => Z.of_nat i | Some h => Z.max h (Z.of_nat i) end)) ({[Z.of_nat i]} ∪ seen) drops) as Hr1
    by by split.
  destruct (IH _ _ _ _ Hr1) as (evs & c' & h' & seen' & Hrun & Hdel & Hr').
  exists (evs1 ++ evs), c', h', seen'. rewrite Hrun. split; [done|]. split.
  - unfold auth_delivered in *. rewrite omap_app, He, Hdel. cbn [map app]. f_equal.
    rewrite Nat2Z.id. symmetry. by apply list_lookup_total_correct.
  - match type of Hr' with receiving _ _ _ _ ?x => match goal with |- receiving _ _ _ _ ?y => replace y with x; [done|] end end.
    unfold zlen. rewrite !length_cons. lia.
Qed.

(** ** The sender *)

Lemma send_step c m :
  (header_size <= length m)%nat ->
  (forall cph k n a p, is_Some (evp_encrypt cph k n a p)) ->
  exists sealed, seal (m_cipher c) (m_send_key c) (make_nonce (epoch_low (m_send_epoch c)) (m_send_seq c))
                   (take header_size m) (drop header_size m) = Some sealed /\
    datagram_send m c = Some (tt, [LowerSend (dgram (m_send_epoch c) (m_send_seq c) (take header_size m) sealed)],
                             set_send_seq (wrap 64 (m_send_seq c + 1)) c).
Proof.
  intros Hl Hav. unfold seal.
  destruct (Hav (evp_for (m_cipher c)) (m_send_key c) (make_nonce (epoch_low (m_send_epoch c)) (m_send_seq c))
    (take header_size m) (drop header_size m)) as [ [ct tag] He].
  exists (ct ++ tag). rewrite He. split; [done|]. unfold datagram_send. rewrite decide_False by lia.
  rewrite bind_gets. unfold id. rewrite bind_modify. unfold seal. rewrite He. done.
Qed.

Lemma datagram_send_run ms : forall c j,
  Forall (fun m => (header_size <= length m)%nat) ms -> (forall cph k n a p, is_Some (evp_encrypt cph k n a p)) ->
  m_send_seq c = Z.of_nat j -> Z.of_nat j + zlen ms <= 2 ^ 64 ->
  exists evs c', each datagram_send ms c = Some (tt, evs, c') /\ length (auth_sent evs) = length ms /\
    forall i m, ms !! i = Some m -> exists w sealed, auth_sent evs !! i = Some w /\
      seal (m_cipher c) (m_send_key c) (make_nonce (epoch_low (m_send_epoch c)) (Z.of_nat (j + i)))
           (take header_size m) (drop header_size m) = Some sealed /\
      w = dgram (m_send_epoch c) (Z.of_nat (j + i)) (take header_size m) sealed.
Proof.
  intros c j Hms Hav. revert c j. induction Hms as [|m ms Hm Hms IH]; intros c j Hseq Hmax.
  { exists [], c. by split_and!. }
  destruct (send_step c m Hm Hav) as (sealed & Hseal & Hsend). cbn [each]. rewrite (bind_run _ _ _ _ _ _ Hsend).
  unfold zlen in Hmax. rewrite length_cons in Hmax.
  destruct ms as [|m' ms'].
  { cbn. eexists _, _. split_and!; [done|done|]. intros [|i] x Hx; [|done]. simplify_eq/=.
    rewrite Nat.add_0_r. rewrite Hseq in Hseal |- *. eauto. }
  assert (wrap 64 (m_send_seq c + 1) = Z.of_nat (S j)) as Hnext.
  { rewrite wrap_small; [lia|]. cbn [length] in Hmax. unfold in_width. lia. }
  destruct (IH (set_send_seq (wrap 64 (m_send_seq c + 1)) c) (S j)) as (evs & c' & Hrun & Hlen & Hget);
    [exact Hnext|unfold zlen; lia|].
  rewrite Hrun. eexists _, _. split_and!; [done| |].
  - change (auth_sent ([LowerSend ?f] ++ evs)) with (f :: auth_sent evs). rewrite !length_cons in *. f_equal. exact Hlen.
  - intros [|i] x Hx.
    + simplify_eq/=. rewrite Nat.add_0_r. rewrite Hseq in Hseal |- *. eauto.
    + destruct (Hget i x Hx) as (w & sl & Hw & Hs & ->). eexists _, sl. split; [exact Hw|].
      replace (j + S i)%nat with (S j + i)%nat by lia. done.
Qed.

End Link.
End DatagramLink.

(** ** Streams *)

Module StreamLink.
Import Stream.

Section Link.
Context `{laws : EvpLaws}.
Context (available : forall cph k n a p, is_Some (evp_encrypt cph k n a p)).

(** The receiver [b] is where the sender [a] is. *)
Definition synced (a b : channel) : Prop :=
  m_cipher b = m_cipher a /\ m_recv_key b = m_send_key a /\ m_recv_epoch b = m_send_epoch a /\
  m_recv_seq b = m_send_seq a /\ m_on_data_cb b = true /\ in_width 32 (m_send_epoch a).

(** The sender after the rekey test of [stream_aead_send]. *)
Definition rekeyed (c : channel) : channel :=
  if m_rekey_threshold c <=? m_send_seq c
  then match derive_forward (m_send_key c) with
       | Some next => set_send next (wrap 32 (m_send_epoch c + 1)) 0 c
       | None => c
       end
  else c.

Lemma rekeyed_cipher c : m_cipher (rekeyed c) = m_cipher c.
Proof. unfold rekeyed. destruct (_ <=? _); [|done]. by destruct (derive_forward _). Qed.

Definition bumped (c : channel) : channel :=
  set_send (m_send_key c) (m_send_epoch c) (wrap 64 (m_send_seq c + 1)) c.

Definition frame_of (c : channel) (m sealed : bytes) : bytes :=
  [byte.of_Z (epoch_low (m_send_epoch c))] ++ take header_size m ++ sealed.

Lemma stream_send_step c m :
  (header_size <= length m)%nat ->
  exists sealed, seal (m_cipher c) (m_send_key (rekeyed c))
      (make_nonce (epoch_low (m_send_epoch (rekeyed c))) (m_send_seq (rekeyed c)))
      (take header_size m) (drop header_size m) = Some sealed /\
    stream_aead_send m c = Some (tt, [LowerSend (frame_of (rekeyed c) m sealed)], bumped (rekeyed c)).
Proof using available.
  intros Hl. unfold stream_aead_send. rewrite decide_False by lia. rewrite bind_gets. unfold id.
  assert ((if m_rekey_threshold c <=? m_send_seq c then rekey_send else mret tt) c = Some (tt, [], rekeyed c)) as Hrk.
  { unfold rekeyed. case_match; [|done]. unfold rekey_send. rewrite bind_gets. unfold id.
    by destruct (derive_forward (m_send_key c)). }
  rewrite (bind_run _ _ _ _ _ _ Hrk). cbn [app]. rewrite bind_gets. unfold id. rewrite bind_modify.
  rewrite rekeyed_cipher.
  unfold seal. destruct (available (evp_for (m_cipher c)) (m_send_key (rekeyed c))
    (make_nonce (epoch_low (m_send_epoch (rekeyed c))) (m_send_seq (rekeyed c))) (take header_size m) (drop header_size m))
    as [ [ct tag] He]. rewrite He. by eexists.
Qed.

(** Both ends follow the same chain of keys. *)
Lemma select_recv_key_synced a b : synced a b ->
  exists b', select_recv_key (epoch_low (m_send_epoch (rekeyed a))) b = Some (Some (m_send_key (rekeyed a)), [], b') /\
    synced (rekeyed a) b'.
Proof.
  intros (H1 & H2 & H3 & H4 & H5 & H6). unfold select_recv_key, rekeyed. rewrite bind_gets. unfold id. rewrite H2, H3.
  destruct (m_rekey_threshold a <=? m_send_seq a); [|rewrite Z.eqb_refl; exists b; by split].
  destruct (derive_forward (m_send_key a)) as [next|] eqn:Hf; [|rewrite Z.eqb_refl; exists b; by split].
  cbn [m_send_epoch m_send_key set_send]. rewrite epoch_low_wrap.
  assert (epoch_low (m_send_epoch a + 1) <> epoch_low (m_send_epoch a)) as Hne.
  { unfold epoch_low. change 0xff with (Z.ones 8). rewrite !Z.land_ones by lia. change (2 ^ 8) with 256. dlia. }
  rewrite (proj2 (Z.eqb_neq _ _) Hne), Z.eqb_refl, bind_modify. eexists. split; [done|].
  split_and!; try done. apply wrap_range. lia.
Qed.

Lemma stream_frame_step a b m : synced a b -> (header_size <= length m)%nat ->
  exists w a' b', stream_aead_send m a = Some (tt, [LowerSend w], a') /\
    stream_aead_on_lower_data w b = Some (tt, [OnData m], b') /\ synced a' b'.
Proof using laws available.
  intros Hs Hl. destruct (stream_send_step a m Hl) as (sealed & Hseal & Hsend).
  eexists _, _. destruct (select_recv_key_synced a b Hs) as (b1 & Hsel & Hs1).
  pose proof Hs1 as (H1 & H2 & H3 & H4 & H5 & H6).
  pose proof (rekeyed_cipher a) as Hc.
  eexists. split; [exact Hsend|]. unfold stream_aead_on_lower_data, frame_of.
  pose proof (seal_length _ _ _ _ _ _ Hseal) as Hlen. assert (length (take header_size m) = header_size) as Hh by (rewrite length_take; lia).
  rewrite decide_False by (rewrite !length_app, Hh; simpl; lia). cbn [app lookup list_lookup]. rewrite bind_lift.
  rewrite unsigned_of_Z_small by apply epoch_low_range. change (drop 1 (?x :: ?l)) with l.
  change (drop (1 + header_size) (?x :: ?l)) with (drop header_size l).
  rewrite take_app_length', drop_app_length' by done.
  rewrite (bind_run _ _ _ _ _ _ Hsel). cbn [app]. rewrite bind_gets. unfold id. rewrite H1, Hc, H4.
  rewrite (proj2 (open_seal _ _ _ _ _ _) Hseal), bind_modify, H5. rewrite take_drop. split; [done|].
  split_and!; cbn; try done; by rewrite ?H4.
Qed.

Lemma stream_run ms : forall a b, synced a b -> Forall (fun m => (header_size <= length m)%nat) ms ->
  exists evs a' b', each stream_aead_send ms a = Some (tt, evs, a') /\
    each stream_aead_on_lower_data (auth_sent evs) b = Some (tt, map OnData ms, b') /\ synced a' b'.
Proof using laws available.
  induction ms as [|m ms IH]; intros a b Hs Hms; [by exists [], a, b|]. inversion Hms; subst.
  destruct (stream_frame_step a b m Hs) as (w & a1 & b1 & Hsend & Hrecv & Hs1); [done|].
  destruct (IH a1 b1 Hs1) as (evs & a' & b' & Hr1 & Hr2 & Hs'); [done|].
  exists ([LowerSend w] ++ evs), a', b'. cbn [each]. split; [by apply (bind_run_Some _ _ _ _ _ _ _ _ _ Hsend)|].
  split; [|done]. change (auth_sent ([LowerSend w] ++ evs)) with (w :: auth_sent evs). cbn [each map].
  change (OnData m :: map OnData ms) with ([OnData m] ++ map OnData ms).
  by apply (bind_run_Some _ _ _ _ _ _ _ _ _ Hrecv).
Qed.

(** ** The key and the nonce of every frame *)

Definition forward (k : aead_key) : aead_key := default k (derive_forward k).

(** The key of epoch [n] of a chain. *)
Definition chain (k : aead_key) (n : nat) : aead_key := Nat.iter n forward k.

(** After [i] frames the sender is at frame [s] of epoch [q]. *)
Definition at_frame (c0 c : channel) (i q s : Z) : Prop :=
  i = q * m_rekey_threshold c0 + s /\ 0 <= q /\ 0 <= s <= m_rekey_threshold c0 /\ (s = 0 -> i = 0) /\
  m_cipher c = m_cipher c0 /\ m_rekey_threshold c = m_rekey_threshold c0 /\
  m_send_key c = chain (m_send_key c0) (Z.to_nat q) /\ m_send_epoch c = wrap 32 (m_send_epoch c0 + q) /\ m_send_seq c = s.

Lemma at_frame_step c0 c i q s :
  (forall k, is_Some (derive_forward k)) -> 0 < m_rekey_threshold c0 < 2 ^ 64 ->
  at_frame c0 c i q s ->
  let T := m_rekey_threshold c0 in
  m_send_key (rekeyed c) = chain (m_send_key c0) (Z.to_nat (i / T)) /\
  epoch_low (m_send_epoch (rekeyed c)) = epoch_low (m_send_epoch c0 + i / T) /\
  m_send_seq (rekeyed c) = i mod T /\ m_cipher (rekeyed c) = m_cipher c0 /\
  exists q' s', at_frame c0 (bumped (rekeyed c)) (i + 1) q' s'.
Proof.
  intros Hd HT (Hi & Hq & Hs & H0 & Hc & Ht & Hk & He & Hseq) T. unfold rekeyed. rewrite Ht, Hseq. fold T in Hi, Hs, Ht, HT |- *.
  destruct (Z.leb_spec T s) as [Hge|Hlt].
  - assert (s = T) as -> by lia. destruct (Hd (m_send_key c)) as [next Hn]. rewrite Hn.
    assert (i / T = q + 1) as Hdiv by (symmetry; apply (Z.div_unique _ _ _ 0); nia).
    assert (i mod T = 0) as Hmod by (symmetry; apply (Z.mod_unique _ _ (q + 1) 0); nia).
    assert (chain (m_send_key c0) (Z.to_nat (q + 1)) = next) as Hnext.
    { replace (Z.to_nat (q + 1)) with (S (Z.to_nat q)) by lia.
      change (forward (chain (m_send_key c0) (Z.to_nat q)) = next). rewrite <- Hk. unfold forward. by rewrite Hn. }
    assert (wrap 32 (wrap 32 (m_send_epoch c0 + q) + 1) = wrap 32 (m_send_epoch c0 + (q + 1))) as Hw.
    { unfold wrap. rewrite Zplus_mod_idemp_l. f_equal. lia. }
    cbn [m_send_key m_send_epoch m_send_seq m_cipher set_send]. rewrite Hdiv, Hmod, He, Hw, epoch_low_wrap. split_and!; try done.
    exists (q + 1), 1. unfold at_frame. cbn [bumped set_send m_send_key m_send_epoch m_send_seq m_cipher m_rekey_threshold]. fold T.
    split_and!; try done; lia.
  - assert (i / T = q) as Hdiv by (symmetry; apply (Z.div_unique _ _ _ s); nia).
    assert (i mod T = s) as Hmod by (symmetry; apply (Z.mod_unique _ _ q s); nia).
    rewrite Hdiv, Hmod, He, epoch_low_wrap. split_and!; try done. exists q, (s + 1). unfold at_frame, bumped.
    cbn [set_send m_send_key m_send_epoch m_send_seq m_cipher m_rekey_threshold]. fold T.
    assert (wrap 64 (s + 1) = s + 1) by (apply wrap_small; unfold in_width; lia).
    rewrite Hseq. split_and!; try done; lia.
Qed.

Lemma stream_keys_run c0 ms : forall c i q s,
  (forall k, is_Some (derive_forward k)) -> 0 < m_rekey_threshold c0 < 2 ^ 64 ->
  at_frame c0 c i q s -> Forall (fun m => (header_size <= length m)%nat) ms ->
  exists evs c', each stream_aead_send ms c = Some (tt, evs, c') /\
    forall j m, ms !! j = Some m -> exists w sealed, auth_sent evs !! j = Some w /\
      let n := i + Z.of_nat j in
      let T := m_rekey_threshold c0 in
      seal (m_cipher c0) (chain (m_send_key c0) (Z.to_nat (n / T)))
           (make_nonce (epoch_low (m_send_epoch c0 + n / T)) (n mod T)) (take header_size m) (drop header_size m) = Some sealed /\
      w = [byte.of_Z (epoch_low (m_send_epoch c0 + n / T))] ++ take header_size m ++ sealed.
Proof using available.
  induction ms as [|m ms IH]; intros c i q s Hd HT Hat Hms; [by exists [], c|]. inversion Hms; subst.
  destruct (at_frame_step c0 c i q s Hd HT Hat) as (Hk & He & Hs & Hc & q' & s' & Hat').
  destruct (stream_send_step c m) as (sealed & Hseal & Hsend); [done|].
  destruct (IH _ _ _ _ Hd HT Hat') as (evs & c' & Hrun & Hget); [done|].
  eexists (_ ++ evs), c'. cbn [each]. split; [by apply (bind_run_Some _ _ _ _ _ _ _ _ _ Hsend)|].
  pose proof (rekeyed_cipher c) as Hc'.
  intros [|j] m0 Hm0.
  - injection Hm0 as <-. eexists _, sealed. split; [done|]. cbn zeta. rewrite Z.add_0_r.
    rewrite Hk, He, Hs, <- Hc', Hc in Hseal. split; [done|]. unfold frame_of. by rewrite He.
  - destruct (Hget j m0 Hm0) as (w & sl & Hw & Hseal' & ->). eexists _, sl. split; [exact Hw|]. cbn zeta in *.
    by replace (i + Z.of_nat (S j)) with (i + 1 + Z.of_nat j) by lia.
Qed.

End Link.
End StreamLink.

(** ** The guarantees *)

Section Guarantees.
Context `{laws : EvpLaws}.

(** C8: Over a network that loses, repeats, reorders and forges, the receiver of an authenticated
    datagram channel never faults and hands up exactly, and in the order of arrival, those sealed
    messages that arrive for the first time and that no message which arrived earlier was sent
    [k_anti_replay_window_bits] or more after: none twice and nothing forged; keys and epoch stay, and
    every other datagram is counted as dropped.  Assumed: the sender's and the receiver's keys match,
    the cipher seals whatever it is given, messages have at least a frame header, at most 2^64 of them
    are sent, and a forged datagram is one that the cipher does not open. *)
Theorem datagrams_delivered_exactly_once cipher ka kb epoch ms arrivals
    (available : forall cph k n a p, is_Some (evp_encrypt cph k n a p))
    (Hms : Forall (fun m => (header_size <= length m)%nat) ms) (Hmax : zlen ms <= 2 ^ 64)
    (Harr : Forall (fun a => match a with
       | DatagramLink.Sent i => (i < length ms)%nat
       | DatagramLink.Garbage d => DatagramLink.forged (Datagram.channel_new cipher (DerivedKeys kb ka) epoch) d
       end) arrivals) :
  let B := Datagram.on_data (Datagram.channel_new cipher (DerivedKeys kb ka) epoch) in
  let ks := admissible k_anti_replay_window_bits [] (omap DatagramLink.sent_index arrivals) in
  exists evsA A' evsB B',
    each Datagram.datagram_send ms (Datagram.channel_new cipher (DerivedKeys ka kb) epoch) = Some (tt, evsA, A') /\
    each Datagram.datagram_on_lower_data (map (DatagramLink.datagram_of (auth_sent evsA)) arrivals) B = Some (tt, evsB, B') /\
    auth_delivered evsB = map (fun k => ms !!! Z.to_nat k) ks /\ NoDup ks /\
    DatagramLink.same_keys B B' /\ Datagram.dropped_count B' = wrap 64 (zlen arrivals - zlen ks).
Proof.
  intros B ks.
  destruct (DatagramLink.datagram_send_run ms (Datagram.channel_new cipher (DerivedKeys ka kb) epoch) 0 Hms available eq_refl Hmax)
    as (evsA & A' & Hsend & _ & Hw).
  destruct (DatagramLink.receive_run B ms (auth_sent evsA) arrivals B None ∅ 0) as (evsB & B' & h & seen & Hrun & Hdel & Hr);
    [|done|done| |done|].
  { split; [by split_and!|apply window_tracks_new, window_width|done]. }
  { intros i m Hm. destruct (Hw i m Hm) as (w & sealed & Hwi & Hseal & ->). eexists. split; [exact Hwi|]. exists sealed.
    split_and!; [by eapply Forall_lookup_1 in Hms|done|done]. }
  destruct (ref_accepts_nodup k_anti_replay_window_bits window_width (omap DatagramLink.sent_index arrivals) None ∅) as [Hnd _];
    [intros n Hn; by apply not_elem_of_empty in Hn|].
  rewrite (ref_accepts_admissible _ window_width _ [] None ∅ (window_of_new _)) in Hdel, Hr, Hnd.
  exists evsA, A', evsB, B'. split_and!; [done|done|done|done|apply Hr|apply Hr].
Qed.

(** C9: Frames of an authenticated stream arrive as sent, in order and over any number
    of rekeys of the sender, with nothing else handed up and no protocol close. *)
Theorem stream_frames_arrive_across_rekeys cipher ka kb epoch threshold threshold' ms
    (available : forall cph k n a p, is_Some (evp_encrypt cph k n a p)) (Hepoch : in_width 32 epoch)
    (Hms : Forall (fun m => (header_size <= length m)%nat) ms) :
  exists evsA A' B',
    each Stream.stream_aead_send ms (Stream.channel_new cipher (DerivedKeys ka kb) epoch threshold) = Some (tt, evsA, A') /\
    each Stream.stream_aead_on_lower_data (auth_sent evsA)
      (Stream.on_data (Stream.channel_new cipher (DerivedKeys kb ka) epoch threshold')) = Some (tt, map OnData ms, B') /\
    Stream.m_recv_key B' = Stream.m_send_key A' /\ Stream.m_recv_epoch B' = Stream.m_send_epoch A'.
Proof.
  destruct (StreamLink.stream_run available ms (Stream.channel_new cipher (DerivedKeys ka kb) epoch threshold)
    (Stream.on_data (Stream.channel_new cipher (DerivedKeys kb ka) epoch threshold'))) as (evs & a & b & H1 & H2 & H3);
    [by split_and!|done|]. exists evs, a, b. destruct H3 as (_ & ? & ? & _). done.
Qed.

(** Frame [i] of an authenticated stream is sealed under key [i / threshold] of the
    chain, with the nonce of sequence [i mod threshold]: a key seals at most
    [threshold] frames and never two with one nonce. *)
Theorem stream_keys_retire_at_the_threshold cipher keys epoch threshold ms
    (available : forall cph k n a p, is_Some (evp_encrypt cph k n a p))
    (derives : forall k, is_Some (derive_forward k)) (Ht : 0 < threshold < 2 ^ 64)
    (Hms : Forall (fun m => (header_size <= length m)%nat) ms) (Hepoch : in_width 32 epoch) :
  exists evs c', each Stream.stream_aead_send ms (Stream.channel_new cipher keys epoch threshold) = Some (tt, evs, c') /\
    (forall i m, ms !! i = Some m -> exists w sealed, auth_sent evs !! i = Some w /\
      let n := Z.of_nat i in
      seal cipher (StreamLink.chain (k_send keys) (Z.to_nat (n / threshold)))
           (make_nonce (epoch_low (epoch + n / threshold)) (n mod threshold))
           (take header_size m) (drop header_size m) = Some sealed /\
      w = [byte.of_Z (epoch_low (epoch + n / threshold))] ++ take header_size m ++ sealed) /\
    (forall i j, i / threshold = j / threshold ->
      make_nonce (epoch_low (epoch + i / threshold)) (i mod threshold)
        = make_nonce (epoch_low (epoch + j / threshold)) (j mod threshold) -> i = j).
Proof.
  destruct (StreamLink.stream_keys_run available (Stream.channel_new cipher keys epoch threshold) ms
    (Stream.channel_new cipher keys epoch threshold) 0 0 0 derives Ht) as (evs & c' & Hrun & Hget); [|done|].
  { unfold StreamLink.at_frame. cbn. split_and!; try done; [lia|]. rewrite Z.add_0_r. symmetry. by apply wrap_small. }
  exists evs, c'. split_and!; [done|exact Hget|]. intros i j Hij Hn. rewrite Hij in Hn.
  apply make_nonce_inj in Hn; [|pose proof (Z.mod_pos_bound i threshold); unfold in_width; lia
                               |pose proof (Z.mod_pos_bound j threshold); unfold in_width; lia].
  rewrite (Z.div_mod i threshold), (Z.div_mod j threshold) by lia. congruence.
Qed.

(** The datagram channel never changes its sending key, whatever it sends: the rekey
    threshold and the safety bound of [key_schedule.h] are not applied to it. *)
Theorem datagram_channel_never_rekeys ms c evs c' (H : each Datagram.datagram_send ms c = Some (tt, evs, c')) :
  Datagram.m_send_key c' = Datagram.m_send_key c /\ Datagram.m_send_epoch c' = Datagram.m_send_epoch c.
Proof.
  revert c evs H. induction ms as [|m ms IH]; intros c evs H; cbn [each] in H.
  { unfold mret, prog_ret in H. by simplify_eq. }
  unfold mbind, prog_bind in H.
  assert (exists e c1, Datagram.datagram_send m c = Some (tt, e, c1) /\
    Datagram.m_send_key c1 = Datagram.m_send_key c /\ Datagram.m_send_epoch c1 = Datagram.m_send_epoch c) as (e & c1 & H1 & Hk & He).
  { unfold Datagram.datagram_send. case_decide.
    - destruct (DatagramLink.wp_emit_drop dc_malformed loc_local c) as (e & -> & _). by exists e, c.
    - rewrite bind_gets. unfold id. rewrite bind_modify. destruct (seal _ _ _ _ _); by eexists _, _. }
  rewrite H1 in H. destruct (each Datagram.datagram_send ms c1) as [ [ [ [] e2] c2]|] eqn:E; [|done]. simplify_eq.
  destruct (IH _ _ E) as [-> ->]. done.
Qed.

End Guarantees.

(** ** A cipher that meets the laws *)

Definition toy_tag (k n a p : bytes) : bytes := vresize (byte.of_Z 0) k_aead_tag_len (n ++ k ++ a ++ p).

Definition toy_evp : Evp := {|
  evp_encrypt _ k n a p := Some (p, toy_tag k n a p);
  evp_decrypt _ k n a ct tag := if decide (tag = toy_tag k n a ct) then Some ct else None;
  evp_kdf _ key info n := Some (vresize (byte.of_Z 0) n (info ++ key));
|}.

Lemma toy_laws : EvpLaws toy_evp.
Proof.
  split; cbn.
  - intros c k n a p ct tag [= <- <-]. split; [done|]. apply length_vresize.
  - intros c k n a ct tag p. case_decide; split; intros H'; simplify_eq; done.
Qed.

Definition toy_message (x : Z) : bytes := zero_bytes header_size ++ [byte.of_Z x].

Lemma datagrams_delivered_exactly_once_witness :
  exists evsA A' evsB B', let B := Datagram.on_data (Datagram.channel_new aes_256_gcm (DerivedKeys [] []) 7) in
    each (Datagram.datagram_send (evp := toy_evp)) [toy_message 1; toy_message 2; toy_message 3]
      (Datagram.channel_new aes_256_gcm (DerivedKeys [] []) 7) = Some (tt, evsA, A') /\
    each (Datagram.datagram_on_lower_data (evp := toy_evp))
      (map (DatagramLink.datagram_of (auth_sent evsA))
         [DatagramLink.Sent 2; DatagramLink.Garbage [byte.of_Z 9]; DatagramLink.Sent 0; DatagramLink.Sent 2]) B = Some (tt, evsB, B') /\
    auth_delivered evsB = [toy_message 3; toy_message 1] /\ Datagram.m_recv_key B' = Datagram.m_recv_key B.
Proof.
  destruct (datagrams_delivered_exactly_once (evp := toy_evp) (laws := toy_laws) aes_256_gcm [] [] 7
    [toy_message 1; toy_message 2; toy_message 3]
    [DatagramLink.Sent 2; DatagramLink.Garbage [byte.of_Z 9]; DatagramLink.Sent 0; DatagramLink.Sent 2])
    as (evsA & A' & evsB & B' & H1 & H2 & Hd & _ & H3 & _).
  - intros. by eexists.
  - repeat constructor; vm_compute; lia.
  - vm_compute. discriminate.
  - repeat constructor; vm_compute; lia.
  - exists evsA, A', evsB, B'. split; [exact H1|]. split; [exact H2|]. split; [exact Hd|apply H3].
Defined.

Lemma stream_frames_arrive_across_rekeys_witness :
  exists evsA A' B',
    each (Stream.stream_aead_send (evp := toy_evp)) [toy_message 1; toy_message 2; toy_message 3]
      (Stream.channel_new chacha20_poly1305 (DerivedKeys [] []) 255 1) = Some (tt, evsA, A') /\
    each (Stream.stream_aead_on_lower_data (evp := toy_evp)) (auth_sent evsA)
      (Stream.on_data (Stream.channel_new chacha20_poly1305 (DerivedKeys [] []) 255 1))
      = Some (tt, map OnData [toy_message 1; toy_message 2; toy_message 3], B').
Proof.
  destruct (stream_frames_arrive_across_rekeys (evp := toy_evp) (laws := toy_laws) chacha20_poly1305 [] [] 255 1 1
    [toy_message 1; toy_message 2; toy_message 3]) as (evsA & A' & B' & H1 & H2 & _).
  - intros. by eexists.
  - vm_compute. split; congruence.
  - repeat constructor; vm_compute; lia.
  - exists evsA, A', B'. split; [exact H1|exact H2].
Defined.

Lemma stream_keys_retire_at_the_threshold_witness :
  exists evs c', each (Stream.stream_aead_send (evp := toy_evp)) [toy_message 1; toy_message 2; toy_message 3]
      (Stream.channel_new chacha20_poly1305 (DerivedKeys [] []) 0 2) = Some (tt, evs, c').
Proof.
  destruct (stream_keys_retire_at_the_threshold (evp := toy_evp) chacha20_poly1305 (DerivedKeys [] []) 0 2
    [toy_message 1; toy_message 2; toy_message 3]) as (evs & c' & H1 & _).
  - intros. by eexists.
  - intros k. unfold derive_forward, derive_keys. cbn. by eexists.
  - lia.
  - repeat constructor; vm_compute; lia.
  - vm_compute. split; congruence.
  - exists evs, c'. exact H1.
Defined.
