(* ===== verification/RecordRing.v ===== *)
(** * The recorder's byte ring

    Models [lib/plexus-core/include/plexus/io/recording/byte_ring.h]: a store of bytes
    with two monotonic 64-bit counters, holding length-prefixed records.  Producer and
    consumer run on one executor, so an operation is one step here.  An access outside
    the store (or a remainder by a zero capacity) is [None].  The ring is shown to be a
    bounded queue of whole records, under either overflow policy. *)

From S2P Require Import Prelude ByteOrder Varint Cursor.

Module Ring.

Inductive ring_policy : Type := drop_newest | drop_oldest.

Record byte_ring : Type := ByteRing {
  m_store : bytes;
  m_policy : ring_policy;
  m_head : Z;
  m_tail : Z;
}.

Definition byte_ring_new (capacity_bytes : nat) (policy : ring_policy) : byte_ring :=
  ByteRing (replicate capacity_bytes (byte.of_Z 0)) policy 0 0.

Definition capacity (r : byte_ring) : Z := zlen (m_store r).
Definition used (r : byte_ring) : Z := wrap 64 (m_head r - m_tail r).

Definition set_head (h : Z) (r : byte_ring) : byte_ring := ByteRing (m_store r) (m_policy r) h (m_tail r).
Definition set_tail (t : Z) (r : byte_ring) : byte_ring := ByteRing (m_store r) (m_policy r) (m_head r) t.
Definition set_store (s : bytes) (r : byte_ring) : byte_ring := ByteRing s (m_policy r) (m_head r) (m_tail r).

(** The index [slot] and [at] map a position to. *)
Definition slot (cap pos : Z) : option nat :=
  if cap =? 0 then None else Some (Z.to_nat (pos mod cap)).

Definition at_pos (r : byte_ring) (pos : Z) : option byte :=
  i ← slot (capacity r) pos; m_store r !! i.

Fixpoint write_wrapped (store : bytes) (at_ : Z) (src : bytes) : option bytes :=
  match src with
  | [] => Some store
  | b :: src =>
      i ← slot (zlen store) at_;
      write_wrapped (<[i := b]> store) (wrap 64 (at_ + 1)) src
  end.

(** The length and the header size of the oldest record; [None] inside when there is none. *)
Definition peek_length (r : byte_ring) : option (option (Z * nat)) :=
  if used r =? 0 then Some None else
  let avail := Z.to_nat (Z.min 10 (used r)) in
  hdr ← mapM (fun i => at_pos r (wrap 64 (m_tail r + Z.of_nat i))) (seq 0 avail);
  match read_varint hdr 0 with
  | (Some v, off) => Some (Some (v, off))
  | (None, _) => Some None
  end.

(** The writes into the sink. *)
Definition copy_out (r : byte_ring) (at_ n : Z) : option (list bytes) :=
  first ← slot (capacity r) at_;
  let run := Z.min n (capacity r - Z.of_nat first) in
  a ← load (m_store r) first (Z.to_nat run);
  if run <? n
  then b ← load (m_store r) 0 (Z.to_nat (n - run)); Some [a; b]
  else Some [a].

Fixpoint evict_loop (fuel : nat) (r : byte_ring) (frame : Z) : option byte_ring :=
  match fuel with
  | O => None
  | S fuel =>
      if capacity r - used r <? frame then
        p ← peek_length r;
        match p with
        | None => Some r
        | Some (len, header) =>
            evict_loop fuel (set_tail (wrap 64 (m_tail r + Z.of_nat header + len)) r) frame
        end
      else Some r
  end.

Definition loop_fuel (r : byte_ring) : nat := S (Z.to_nat (used r)).

Definition evict_until (r : byte_ring) (frame : Z) : option byte_ring := evict_loop (loop_fuel r) r frame.

Definition try_push (record : bytes) (r : byte_ring) : option (bool * byte_ring) :=
  let len_buf := replicate 10 (byte.of_Z 0) in
  w ← writer_varint (writer_of len_buf) (zlen record);
  let offset := w_offset w in
  let frame := Z.of_nat offset + zlen record in
  if capacity r <? frame then Some (false, r) else
  match (match m_policy r with
         | drop_oldest => r ← evict_until r frame; Some (Some r)
         | drop_newest => Some (if capacity r - used r <? frame then None else Some r)
         end) with
  | None => None
  | Some None => Some (false, r)
  | Some (Some r) =>
      let at_ := m_head r in
      store ← write_wrapped (m_store r) at_ (take offset (m_region w));
      store ← write_wrapped store (wrap 64 (at_ + Z.of_nat offset)) record;
      Some (true, set_head (wrap 64 (at_ + frame)) (set_store store r))
  end.

Fixpoint drain_loop (fuel : nat) (r : byte_ring) (max_bytes moved : Z) : option (list bytes * byte_ring) :=
  match fuel with
  | O => None
  | S fuel =>
      if moved <? max_bytes then
        p ← peek_length r;
        match p with
        | None => Some ([], r)
        | Some (len, header) =>
            let n := wrap 64 (Z.of_nat header + len) in
            out ← copy_out r (m_tail r) n;
            '(rest, r) ← drain_loop fuel (set_tail (wrap 64 (m_tail r + Z.of_nat header + len)) r) max_bytes (wrap 64 (moved + n));
            Some (out ++ rest, r)
        end
      else Some ([], r)
  end.

Definition drain (max_bytes : Z) (r : byte_ring) : option (bool * list bytes * byte_ring) :=
  '(out, r) ← drain_loop (loop_fuel r) r max_bytes 0;
  Some (negb (used r =? 0), out, r).

Fixpoint drain_window_loop (fuel : nat) (r : byte_ring) (frozen_head max_bytes moved : Z) : option (list bytes * byte_ring) :=
  match fuel with
  | O => None
  | S fuel =>
      if moved <? max_bytes then
        if frozen_head <=? m_tail r then Some ([], r) else
        p ← peek_length r;
        match p with
        | None => Some ([], r)
        | Some (len, header) =>
            let end_ := wrap 64 (m_tail r + Z.of_nat header + len) in
            if frozen_head <? end_ then Some ([], r) else
            let n := wrap 64 (Z.of_nat header + len) in
            out ← copy_out r (m_tail r) n;
            '(rest, r) ← drain_window_loop fuel (set_tail end_ r) frozen_head max_bytes (wrap 64 (moved + n));
            Some (out ++ rest, r)
        end
      else Some ([], r)
  end.

Definition drain_window (frozen_head max_bytes : Z) (r : byte_ring) : option (bool * list bytes * byte_ring) :=
  '(out, r) ← drain_window_loop (loop_fuel r) r frozen_head max_bytes 0;
  Some ((m_tail r <? frozen_head) && negb (used r =? 0), out, r).

(** ** The reference: a queue of records *)

Definition frame (record : bytes) : bytes := varint (zlen record) ++ record.

Definition frames (rs : list bytes) : bytes := concat (map frame rs).

Fixpoint evict_spec (cap need : Z) (rs : list bytes) : list bytes :=
  match rs with
  | [] => []
  | r :: rest => if cap - zlen (frames rs) <? need then evict_spec cap need rest else rs
  end.

Definition push_spec (cap : Z) (policy : ring_policy) (rs : list bytes) (record : bytes) : bool * list bytes :=
  if cap <? zlen (frame record) then (false, rs) else
  match policy with
  | drop_oldest => (true, evict_spec cap (zlen (frame record)) rs ++ [record])
  | drop_newest => if cap - zlen (frames rs) <? zlen (frame record) then (false, rs) else (true, rs ++ [record])
  end.

(** The records popped under a byte budget, and those left. *)
Fixpoint drain_spec (budget : Z) (rs : list bytes) : list bytes * list bytes :=
  match rs with
  | [] => ([], [])
  | r :: rest =>
      if 0 <? budget
      then let '(out, rem) := drain_spec (budget - zlen (frame r)) rest in (r :: out, rem)
      else ([], rs)
  end.

(** The same below a frozen head [room] bytes ahead of the tail. *)
Fixpoint drain_window_spec (room budget : Z) (rs : list bytes) : list bytes * list bytes :=
  match rs with
  | [] => ([], [])
  | r :: rest =>
      if (0 <? budget) && (zlen (frame r) <=? room)
      then let '(out, rem) := drain_window_spec (room - zlen (frame r)) (budget - zlen (frame r)) rest in (r :: out, rem)
      else ([], rs)
  end.

(** ** The invariant *)

Definition get (store : bytes) (pos : Z) : option byte := store !! Z.to_nat (pos mod zlen store).

(** The ring holds the records [rs], oldest first. *)
Record holds (r : byte_ring) (rs : list bytes) : Prop := Holds {
  h_cap : 0 < capacity r < 2 ^ 63;
  h_tail : 0 <= m_tail r;
  h_head : m_head r = m_tail r + zlen (frames rs);
  h_max : m_head r < 2 ^ 64;
  h_fits : zlen (frames rs) <= capacity r;
  h_bytes : forall k b, frames rs !! k = Some b -> get (m_store r) (m_tail r + Z.of_nat k) = Some b;
}.

Lemma frames_cons record rs : frames (record :: rs) = frame record ++ frames rs.
Proof. done. Qed.

Lemma frames_snoc rs record : frames (rs ++ [record]) = frames rs ++ frame record.
Proof. unfold frames. rewrite map_app, concat_app. cbn. by rewrite app_nil_r. Qed.

Lemma frame_pos record : 1 <= zlen (frame record).
Proof. unfold frame. rewrite zlen_app. pose proof (length_varint (zlen record)). unfold zlen in *. lia. Qed.

Lemma used_holds r rs : holds r rs -> used r = zlen (frames rs).
Proof.
  intros [? ? Hh Hm ? _]. unfold used. rewrite Hh. replace (m_tail r + zlen (frames rs) - m_tail r) with (zlen (frames rs)) by lia.
  apply wrap_small. pose proof (zlen_nonneg (frames rs)). unfold in_width. lia.
Qed.

Lemma at_pos_get r pos : 0 < capacity r -> at_pos r pos = get (m_store r) pos.
Proof. intros H. unfold at_pos, slot. destruct (Z.eqb_spec (capacity r) 0); [lia|]. done. Qed.

(** Two positions less than a capacity apart have different slots. *)
Lemma slot_ne cap p q : 0 < cap -> p <> q -> - cap < p - q < cap -> Z.to_nat (p mod cap) <> Z.to_nat (q mod cap).
Proof.
  intros Hc Hne Hd He. pose proof (Z.mod_pos_bound p cap Hc). pose proof (Z.mod_pos_bound q cap Hc).
  assert (p mod cap = q mod cap) as Hm by lia. pose proof (Z.div_mod p cap ltac:(lia)). pose proof (Z.div_mod q cap ltac:(lia)).
  assert (p / cap - q / cap <= -1 \/ p / cap - q / cap = 0 \/ 1 <= p / cap - q / cap) as [Hx|[Hx|Hx] ] by lia; nia.
Qed.

Lemma write_wrapped_spec src : forall store at_,
  0 < zlen store -> 0 <= at_ -> at_ + zlen src <= 2 ^ 64 -> zlen src <= zlen store ->
  exists store', write_wrapped store at_ src = Some store' /\ length store' = length store /\
    (forall k b, src !! k = Some b -> get store' (at_ + Z.of_nat k) = Some b) /\
    (forall p, at_ + zlen src - zlen store <= p < at_ -> get store' p = get store p).
Proof.
  induction src as [|b src IH]; intros store at_ Hc Hat Hmax Hlen.
  { exists store. by split_and!. }
  replace (zlen (b :: src)) with (zlen src + 1) in * by (unfold zlen; rewrite length_cons; lia). pose proof (zlen_nonneg src).
  cbn [write_wrapped]. unfold slot. destruct (Z.eqb_spec (zlen store) 0); [lia|]. cbn.
  set (i := Z.to_nat (at_ mod zlen store)). pose proof (Z.mod_pos_bound at_ (zlen store) Hc) as Hmod.
  assert (i < length store)%nat as Hi by (unfold i, zlen in *; lia).
  assert (zlen (<[i := b]> store) = zlen store) as Hz by (unfold zlen; by rewrite length_insert).
  destruct (decide (src = [])) as [->|Hne].
  { eexists. split_and!; [done|by rewrite length_insert|..].
    - intros [|k] x Hx; [|done]. simplify_eq/=. unfold get. rewrite Hz, Z.add_0_r. fold i. by rewrite list_lookup_insert_eq.
    - intros p Hp. unfold get. rewrite Hz. rewrite list_lookup_insert_ne; [done|]. apply slot_ne; unfold zlen in *; simpl in *; lia. }
  assert (0 < zlen src) by (destruct src; [done|unfold zlen; simpl; lia]).
  rewrite wrap_small by (unfold in_width; lia).
  destruct (IH (<[i := b]> store) (at_ + 1)) as (store' & Hw & Hl & Hin & Hout); [lia..|].
  exists store'. rewrite Hz in *. split_and!; [done|by rewrite Hl, length_insert|..].
  - intros [|k] x Hx.
    + simplify_eq/=. rewrite Z.add_0_r, Hout by lia. unfold get. rewrite Hz. fold i. by rewrite list_lookup_insert_eq.
    + replace (at_ + Z.of_nat (S k)) with (at_ + 1 + Z.of_nat k) by lia. by apply Hin.
  - intros p Hp. rewrite Hout by lia. unfold get. rewrite Hz. apply list_lookup_insert_ne. apply slot_ne; lia.
Qed.

(** [copy_out] hands the sink the bytes at a position, in one or two writes. *)
Lemma copy_out_spec r at_ bs :
  0 < capacity r -> 0 <= at_ -> zlen bs <= capacity r ->
  (forall k b, bs !! k = Some b -> get (m_store r) (at_ + Z.of_nat k) = Some b) ->
  exists out, copy_out r at_ (zlen bs) = Some out /\ concat out = bs.
Proof.
  intros Hc Hat Hn Hb. unfold copy_out, slot. destruct (Z.eqb_spec (capacity r) 0); [lia|]. cbn [mbind option_bind].
  pose proof (Z.mod_pos_bound at_ (capacity r) Hc) as Hm. rewrite Z2Nat.id by lia.
  set (first := at_ mod capacity r) in *. unfold capacity in *. pose proof (zlen_nonneg bs).
  set (run := Z.min (zlen bs) (zlen (m_store r) - first)).
  assert (0 <= run <= zlen bs) as Hrun by lia.
  rewrite (load_Some_2 (m_store r) (Z.to_nat first) (Z.to_nat run)) by (unfold run, zlen in *; lia). cbn [mbind option_bind].
  assert (take (Z.to_nat run) (drop (Z.to_nat first) (m_store r)) = take (Z.to_nat run) bs) as Ha.
  { apply list_eq. intros k. destruct (decide (k < Z.to_nat run)%nat) as [Hk|Hk].
    - rewrite !lookup_take_lt, lookup_drop by done.
      destruct (lookup_lt_is_Some_2 bs k) as [b Hbk]; [unfold zlen in *; lia|]. rewrite Hbk.
      specialize (Hb k b Hbk). unfold get in Hb. rewrite <- Hb. f_equal.
      assert ((at_ + Z.of_nat k) mod zlen (m_store r) = first + Z.of_nat k) as ->.
      { unfold first. rewrite <- Zplus_mod_idemp_l. apply Z.mod_small. fold first. lia. } lia.
    - rewrite !lookup_take_ge by lia. done. }
  destruct (Z.ltb_spec run (zlen bs)) as [Hlt|Hge].
  - rewrite (load_Some_2 (m_store r) 0) by (unfold run, zlen in *; lia). cbn [mbind option_bind]. eexists. split; [done|]. cbn [concat].
    rewrite app_nil_r, Ha, drop_0. trans (take (Z.to_nat run) bs ++ drop (Z.to_nat run) bs); [|apply take_drop]. f_equal.
    apply list_eq. intros k. destruct (decide (k < Z.to_nat (zlen bs - run))%nat) as [Hk|Hk].
    + rewrite lookup_take_lt, lookup_drop by done.
      destruct (lookup_lt_is_Some_2 bs (Z.to_nat run + k)) as [b Hbk]; [unfold zlen in *; lia|]. rewrite Hbk.
      specialize (Hb _ b Hbk). unfold get in Hb. rewrite <- Hb. f_equal.
      assert ((at_ + Z.of_nat (Z.to_nat run + k)) mod zlen (m_store r) = Z.of_nat k) as ->; [|lia].
      replace (at_ + Z.of_nat (Z.to_nat run + k)) with (at_ + (zlen (m_store r) - first) + Z.of_nat k) by lia.
      replace (at_ + (zlen (m_store r) - first) + Z.of_nat k) with (Z.of_nat k + (at_ / zlen (m_store r) + 1) * zlen (m_store r)).
      * rewrite Z_mod_plus_full. apply Z.mod_small. lia.
      * assert (at_ = zlen (m_store r) * (at_ / zlen (m_store r)) + first) by (apply Z.div_mod; lia). lia.
    + rewrite lookup_take_ge by lia. symmetry. apply lookup_ge_None_2. rewrite length_drop. unfold zlen in *. lia.
  - eexists. split; [done|]. cbn. rewrite app_nil_r, Ha. apply take_ge. unfold zlen in *. lia.
Qed.

(** ** Records of the ring *)

Lemma peek_length_empty r : holds r [] -> peek_length r = Some None.
Proof. intros H. unfold peek_length. by rewrite (used_holds r [] H). Qed.

Lemma peek_length_cons r record rs : holds r (record :: rs) ->
  peek_length r = Some (Some (zlen record, length (varint (zlen record)))) /\
  Z.of_nat (length (varint (zlen record))) + zlen record = zlen (frame record).
Proof.
  intros Hh. pose proof (used_holds _ _ Hh) as Hu. destruct Hh as [Hc Ht Hhd Hmax Hfit Hb]. rewrite frames_cons, zlen_app in *.
  assert (Z.of_nat (length (varint (zlen record))) + zlen record = zlen (frame record)) as Hlen
    by (unfold frame; rewrite zlen_app; unfold zlen; lia). split; [|done].
  pose proof (frame_pos record). pose proof (zlen_nonneg (frames rs)). pose proof (zlen_nonneg record). unfold peek_length. rewrite Hu.
  destruct (Z.eqb_spec (zlen (frame record) + zlen (frames rs)) 0); [lia|].
  set (avail := Z.to_nat (Z.min 10 (zlen (frame record) + zlen (frames rs)))).
  assert (mapM (fun i => at_pos r (wrap 64 (m_tail r + Z.of_nat i))) (seq 0 avail)
          = Some (take avail (frame record ++ frames rs))) as ->.
  { apply mapM_Some. apply Forall2_same_length_lookup_2.
    { rewrite length_seq, length_take, length_app. unfold avail, zlen in *. lia. }
    intros i j x Hi Hx. apply lookup_seq in Hi as [-> Hi]. cbn [Nat.add] in *. rewrite lookup_take_lt in Hx by done.
    assert (Z.of_nat i < zlen (frame record) + zlen (frames rs)) by (unfold avail in Hi; lia).
    rewrite wrap_small by (unfold in_width; lia). rewrite at_pos_get by lia. by apply Hb. }
  cbn [mbind option_bind]. unfold frame. rewrite <- app_assoc. pose proof (length_varint (zlen record)) as Hv.
  rewrite take_app_ge by (unfold avail, zlen in *; lia).
  match goal with |- context [read_varint (varint _ ++ ?x) _] =>
    change (read_varint (varint (zlen record) ++ x) 0) with (read_varint ([] ++ varint (zlen record) ++ x) (length (@nil byte))) end.
  rewrite read_varint_at by (unfold in_width; lia). done.
Qed.

(** Dropping the oldest record. *)
Lemma holds_pop r record rs : holds r (record :: rs) -> holds (set_tail (m_tail r + zlen (frame record)) r) rs.
Proof.
  intros [Hc Ht Hhd Hmax Hfit Hb]. rewrite frames_cons, zlen_app in *. pose proof (frame_pos record).
  split; unfold capacity in *; cbn [m_tail m_head m_store set_tail]; try done; try lia.
  intros k b Hk. rewrite <- Z.add_assoc.
  replace (zlen (frame record) + Z.of_nat k) with (Z.of_nat (length (frame record) + k)) by (unfold zlen; lia).
  apply Hb. rewrite lookup_app_r by lia. by replace (length (frame record) + k - length (frame record))%nat with k by lia.
Qed.

Lemma next_tail r record rs : holds r (record :: rs) ->
  wrap 64 (m_tail r + Z.of_nat (length (varint (zlen record))) + zlen record) = m_tail r + zlen (frame record).
Proof.
  intros Hh. destruct (peek_length_cons _ _ _ Hh) as [_ Hl]. rewrite <- Z.add_assoc, Hl.
  destruct Hh as [Hc Ht Hhd Hmax Hfit Hb]. rewrite frames_cons, zlen_app in *.
  pose proof (frame_pos record). pose proof (zlen_nonneg (frames rs)). apply wrap_small. unfold in_width. lia.
Qed.

Lemma evict_loop_spec rs : forall fuel r need, holds r rs -> (length rs < fuel)%nat ->
  exists r', evict_loop fuel r need = Some r' /\ holds r' (evict_spec (capacity r) need rs) /\
    m_store r' = m_store r /\ m_policy r' = m_policy r /\ m_head r' = m_head r.
Proof.
  induction rs as [|record rs IH]; intros fuel r need Hh Hf; (destruct fuel as [|fuel]; [simpl in Hf; lia|]).
  - cbn [evict_loop evict_spec]. exists r. split; [|done]. case_match; [|done]. by rewrite peek_length_empty.
  - cbn [evict_loop evict_spec]. rewrite (used_holds _ _ Hh). case_match; [|by exists r].
    destruct (peek_length_cons _ _ _ Hh) as [-> _]. cbn [mbind option_bind]. rewrite (next_tail _ _ _ Hh).
    destruct (IH fuel _ need (holds_pop _ _ _ Hh)) as (r' & -> & ? & ? & ? & ?); [simpl in Hf; lia|]. by exists r'.
Qed.

Lemma length_frames rs : (length rs <= length (frames rs))%nat.
Proof.
  induction rs as [|record rs IH]; [done|]. rewrite frames_cons, length_app. pose proof (frame_pos record).
  unfold zlen in *. simpl. lia.
Qed.

Lemma loop_fuel_enough r rs : holds r rs -> (length rs < loop_fuel r)%nat.
Proof. intros H. unfold loop_fuel. rewrite (used_holds _ _ H), zlen_to_nat. pose proof (length_frames rs). lia. Qed.

(** Writing a frame behind the records that are held. *)
Lemma holds_push r rs record :
  holds r rs -> zlen (frames rs) + zlen (frame record) <= capacity r -> m_head r + zlen (frame record) < 2 ^ 64 ->
  exists store1 store2, write_wrapped (m_store r) (m_head r) (varint (zlen record)) = Some store1 /\
    write_wrapped store1 (wrap 64 (m_head r + Z.of_nat (length (varint (zlen record))))) record = Some store2 /\
    holds (set_head (wrap 64 (m_head r + zlen (frame record))) (set_store store2 r)) (rs ++ [record]) /\
    zlen store2 = zlen (m_store r).
Proof.
  intros [Hc Ht Hhd Hmax Hfit Hb] Hroom Hlim. unfold frame in *. rewrite zlen_app in *. unfold capacity in *.
  set (v := varint (zlen record)) in *. pose proof (zlen_nonneg record). pose proof (zlen_nonneg v). pose proof (zlen_nonneg (frames rs)).
  destruct (write_wrapped_spec v (m_store r) (m_head r)) as (s1 & W1 & L1 & In1 & Out1); [lia..|].
  fold (zlen v). rewrite (wrap_small 64 (m_head r + zlen v)) by (unfold in_width; lia).
  assert (zlen s1 = zlen (m_store r)) as Hz1 by (unfold zlen; lia).
  destruct (write_wrapped_spec record s1 (m_head r + zlen v)) as (s2 & W2 & L2 & In2 & Out2); [lia..|].
  assert (zlen s2 = zlen (m_store r)) as Hz2 by (unfold zlen; lia).
  exists s1, s2. split; [done|]. split; [done|]. split; [|done]. rewrite wrap_small by (unfold in_width; lia).
  split; unfold capacity; cbn [m_store m_head m_tail set_head set_store];
    rewrite ?frames_snoc, ?zlen_app; unfold frame; rewrite ?zlen_app; fold v; try lia.
  intros k b Hk. apply lookup_app_Some in Hk as [Hk|[Hge Hk] ].
  - assert (Z.of_nat k < zlen (frames rs)) by (apply lookup_lt_Some in Hk; unfold zlen; lia).
    rewrite Out2, Out1 by lia. by apply Hb.
  - apply lookup_app_Some in Hk as [Hk|[Hge' Hk] ].
    + assert (Z.of_nat (k - length (frames rs)) < zlen v) by (apply lookup_lt_Some in Hk; unfold zlen; lia).
      rewrite Out2 by (unfold zlen in *; lia). apply In1 in Hk.
      replace (m_tail r + Z.of_nat k) with (m_head r + Z.of_nat (k - length (frames rs))) by (unfold zlen in *; lia). done.
    + apply In2 in Hk.
      replace (m_tail r + Z.of_nat k) with (m_head r + zlen v + Z.of_nat (k - length (frames rs) - length v)) by (unfold zlen in *; lia).
      done.
Qed.

Lemma evict_spec_fits cap need rs : 0 <= need <= cap -> zlen (frames (evict_spec cap need rs)) + need <= cap.
Proof.
  intros Hn. induction rs as [|record rs IH]; cbn [evict_spec]; [unfold frames, zlen; simpl; lia|].
  destruct (Z.ltb_spec (cap - zlen (frames (record :: rs))) need); [done|lia].
Qed.

(** A push of the ring is a push of the queue. *)
Lemma try_push_spec r rs record :
  holds r rs -> zlen record < 2 ^ 63 -> m_head r + zlen (frame record) < 2 ^ 64 ->
  exists r', try_push record r = Some ((push_spec (capacity r) (m_policy r) rs record).1, r') /\
    holds r' (push_spec (capacity r) (m_policy r) rs record).2 /\
    capacity r' = capacity r /\ m_policy r' = m_policy r /\
    m_head r' = m_head r + (if (push_spec (capacity r) (m_policy r) rs record).1 then zlen (frame record) else 0).
Proof.
  intros Hh Hrec Hlim. pose proof Hh as [Hc Ht Hhd Hmax Hfit Hb]. pose proof (frame_pos record) as Hpos.
  pose proof (length_varint (zlen record)) as Hv. unfold try_push, push_spec.
  rewrite writer_of_wr, (writer_varint_wr [] (replicate 10 (byte.of_Z 0))) by (rewrite length_replicate; lia).
  cbn [mbind option_bind]. cbn [wr w_offset m_region app].
  rewrite take_app_length.
  assert (Z.of_nat (length (varint (zlen record))) + zlen record = zlen (frame record)) as Hfr
    by (unfold frame; rewrite zlen_app; unfold zlen; lia). rewrite Hfr.
  destruct (Z.ltb_spec (capacity r) (zlen (frame record))); [exists r; split_and!; (done || (cbn [fst]; lia))|].
  assert (forall r1 rs1, holds r1 rs1 -> capacity r1 = capacity r -> m_policy r1 = m_policy r -> m_head r1 = m_head r ->
    zlen (frames rs1) + zlen (frame record) <= capacity r ->
    exists r', (store ← write_wrapped (m_store r1) (m_head r1) (varint (zlen record));
      store ← write_wrapped store (wrap 64 (m_head r1 + Z.of_nat (length (varint (zlen record))))) record;
      Some (true, set_head (wrap 64 (m_head r1 + zlen (frame record))) (set_store store r1))) = Some (true, r') /\
      holds r' (rs1 ++ [record]) /\ capacity r' = capacity r /\ m_policy r' = m_policy r /\
      m_head r' = m_head r + zlen (frame record)) as Hpush.
  { intros r1 rs1 Hh1 Hc1 Hp1 Hd1 Hroom. destruct (holds_push r1 rs1 record Hh1) as (s1 & s2 & -> & H2 & Hh2 & Hz); [lia..|].
    cbn [mbind option_bind]. rewrite H2. cbn [mbind option_bind]. eexists. split; [done|]. split; [done|]. split_and!.
    - rewrite <- Hc1. exact Hz.
    - done.
    - cbn. rewrite wrap_small by (destruct Hh1; pose proof (zlen_nonneg (frames rs1)); unfold in_width; lia). lia. }
  destruct (m_policy r) eqn:Hpol.
  - rewrite (used_holds _ _ Hh). destruct (Z.ltb_spec (capacity r - zlen (frames rs)) (zlen (frame record))).
    + exists r. split_and!; (done || (cbn [fst]; lia)).
    + destruct (Hpush r rs Hh) as (r' & ? & ? & ? & ? & ?); [done..|lia|]. exists r'. split_and!; (done || congruence).
  - unfold evict_until. destruct (evict_loop_spec rs (loop_fuel r) r (zlen (frame record)) Hh) as (r1 & -> & Hh1 & Hs1 & Hp1 & Hd1);
      [by apply loop_fuel_enough|]. cbn [mbind option_bind].
    destruct (Hpush r1 _ Hh1) as (r' & ? & ? & ? & ? & ?);
      [unfold capacity; by rewrite Hs1|congruence|done|apply evict_spec_fits; lia|]. exists r'. split_and!; (done || congruence).
Qed.

(** One record out of the ring: the bytes of its frame. *)
Lemma pop_step r record rs : holds r (record :: rs) ->
  exists out, wrap 64 (Z.of_nat (length (varint (zlen record))) + zlen record) = zlen (frame record) /\
    copy_out r (m_tail r) (zlen (frame record)) = Some out /\ concat out = frame record.
Proof.
  intros Hh. destruct (peek_length_cons _ _ _ Hh) as [_ Hl]. destruct Hh as [Hc Ht Hhd Hmax Hfit Hb].
  rewrite frames_cons, zlen_app in *. pose proof (frame_pos record). pose proof (zlen_nonneg (frames rs)).
  destruct (copy_out_spec r (m_tail r) (frame record)) as (out & ? & ?); [lia..| |].
  { intros k b Hk. apply Hb. by apply lookup_app_l_Some. }
  exists out. rewrite Hl. split; [|done]. apply wrap_small. unfold in_width. lia.
Qed.

Lemma ring_drain_loop_spec rs : forall fuel r max moved,
  holds r rs -> (length rs < fuel)%nat -> 0 <= moved -> moved + zlen (frames rs) < 2 ^ 64 ->
  exists out r', drain_loop fuel r max moved = Some (out, r') /\
    concat out = frames (drain_spec (max - moved) rs).1 /\ holds r' (drain_spec (max - moved) rs).2 /\
    m_store r' = m_store r /\ m_policy r' = m_policy r /\ m_head r' = m_head r.
Proof.
  induction rs as [|record rs IH]; intros fuel r max moved Hh Hf H0 Hm; (destruct fuel as [|fuel]; [simpl in Hf; lia|]);
    cbn [drain_loop drain_spec].
  - exists [], r. split; [|done]. case_match; [|done]. by rewrite peek_length_empty.
  - destruct (Z.ltb_spec moved max), (Z.ltb_spec 0 (max - moved)); try lia; [|by exists [], r].
    destruct (peek_length_cons _ _ _ Hh) as [-> _]. cbn [mbind option_bind].
    destruct (pop_step _ _ _ Hh) as (out & -> & -> & Hout). cbn [mbind option_bind]. rewrite (next_tail _ _ _ Hh).
    rewrite frames_cons, zlen_app in Hm. pose proof (frame_pos record). pose proof (zlen_nonneg (frames rs)).
    rewrite (wrap_small 64 (moved + _)) by (unfold in_width; lia).
    destruct (IH fuel _ max (moved + zlen (frame record)) (holds_pop _ _ _ Hh)) as (rest & r' & -> & Hc & Hh' & ? & ? & ?);
      [simpl in Hf; lia|lia|lia|]. cbn [mbind option_bind].
    replace (max - (moved + zlen (frame record))) with (max - moved - zlen (frame record)) in * by lia.
    destruct (drain_spec (max - moved - zlen (frame record)) rs) as [o l]. cbn [fst snd] in *.
    exists (out ++ rest), r'. split_and!; try done. by rewrite concat_app, Hout, Hc, frames_cons.
Qed.

Lemma drain_window_loop_spec rs : forall fuel r frozen max moved,
  holds r rs -> (length rs < fuel)%nat -> 0 <= moved -> moved + zlen (frames rs) < 2 ^ 64 ->
  exists out r', drain_window_loop fuel r frozen max moved = Some (out, r') /\
    concat out = frames (drain_window_spec (frozen - m_tail r) (max - moved) rs).1 /\
    holds r' (drain_window_spec (frozen - m_tail r) (max - moved) rs).2 /\
    m_store r' = m_store r /\ m_policy r' = m_policy r /\ m_head r' = m_head r.
Proof.
  induction rs as [|record rs IH]; intros fuel r frozen max moved Hh Hf H0 Hm; (destruct fuel as [|fuel]; [simpl in Hf; lia|]);
    cbn [drain_window_loop drain_window_spec].
  - exists [], r. split; [|done]. case_match; [|done]. case_match; [done|]. by rewrite peek_length_empty.
  - pose proof (frame_pos record). pose proof (zlen_nonneg (frames rs)).
    destruct (Z.ltb_spec moved max), (Z.ltb_spec 0 (max - moved)); try lia; cbn [andb]; [|by exists [], r].
    destruct (Z.leb_spec frozen (m_tail r)).
    { destruct (Z.leb_spec (zlen (frame record)) (frozen - m_tail r)); [lia|]. by exists [], r. }
    destruct (peek_length_cons _ _ _ Hh) as [-> _]. cbn [mbind option_bind]. rewrite (next_tail _ _ _ Hh).
    destruct (Z.ltb_spec frozen (m_tail r + zlen (frame record))), (Z.leb_spec (zlen (frame record)) (frozen - m_tail r)); try lia;
      [by exists [], r|].
    destruct (pop_step _ _ _ Hh) as (out & -> & -> & Hout). cbn [mbind option_bind].
    rewrite frames_cons, zlen_app in Hm. rewrite (wrap_small 64 (moved + _)) by (unfold in_width; lia).
    destruct (IH fuel _ frozen max (moved + zlen (frame record)) (holds_pop _ _ _ Hh)) as (rest & r' & -> & Hc & Hh' & ? & ? & ?);
      [simpl in Hf; lia|lia|lia|]. cbn [mbind option_bind m_tail set_tail] in *.
    replace (max - (moved + zlen (frame record))) with (max - moved - zlen (frame record)) in * by lia.
    replace (frozen - (m_tail r + zlen (frame record))) with (frozen - m_tail r - zlen (frame record)) in * by lia.
    destruct (drain_window_spec (frozen - m_tail r - zlen (frame record)) (max - moved - zlen (frame record)) rs) as [o l].
    cbn [fst snd] in *. exists (out ++ rest), r'. split_and!; try done. by rewrite concat_app, Hout, Hc, frames_cons.
Qed.

Lemma drain_refines r rs max : holds r rs ->
  exists out r', drain max r = Some (negb (bool_decide ((drain_spec max rs).2 = [])), out, r') /\
    concat out = frames (drain_spec max rs).1 /\ holds r' (drain_spec max rs).2 /\
    m_store r' = m_store r /\ m_policy r' = m_policy r /\ m_head r' = m_head r.
Proof.
  intros Hh. pose proof (h_fits _ _ Hh). pose proof (h_cap _ _ Hh). unfold drain.
  destruct (ring_drain_loop_spec rs (loop_fuel r) r max 0 Hh) as (out & r' & -> & Hc & Hh' & Hs & Hp & Hd);
    [by apply loop_fuel_enough|lia|lia|]. rewrite Z.sub_0_r in *. exists out, r'. cbn [mbind option_bind].
  rewrite (used_holds _ _ Hh'). split_and!; try done. do 4 f_equal. case_bool_decide as E.
  - by rewrite E.
  - destruct (drain_spec max rs).2 as [|x l]; [done|]. rewrite frames_cons, zlen_app. pose proof (frame_pos x).
    pose proof (zlen_nonneg (frames l)). apply Z.eqb_neq. lia.
Qed.

Lemma drain_window_refines r rs frozen max : holds r rs ->
  exists more out r', drain_window frozen max r = Some (more, out, r') /\
    concat out = frames (drain_window_spec (frozen - m_tail r) max rs).1 /\
    holds r' (drain_window_spec (frozen - m_tail r) max rs).2 /\
    more = (m_tail r' <? frozen) && negb (bool_decide ((drain_window_spec (frozen - m_tail r) max rs).2 = [])) /\
    m_store r' = m_store r /\ m_policy r' = m_policy r /\ m_head r' = m_head r.
Proof.
  intros Hh. pose proof (h_fits _ _ Hh). pose proof (h_cap _ _ Hh). unfold drain_window.
  destruct (drain_window_loop_spec rs (loop_fuel r) r frozen max 0 Hh) as (out & r' & -> & Hc & Hh' & Hs & Hp & Hd);
    [by apply loop_fuel_enough|lia|lia|]. rewrite Z.sub_0_r in *. eexists _, out, r'. cbn [mbind option_bind].
  rewrite (used_holds _ _ Hh'). split_and!; try done. f_equal. f_equal. case_bool_decide as E.
  - by rewrite E.
  - destruct (drain_window_spec (frozen - m_tail r) max rs).2 as [|x l]; [done|]. rewrite frames_cons, zlen_app.
    pose proof (frame_pos x). pose proof (zlen_nonneg (frames l)). apply Z.eqb_neq. lia.
Qed.

Lemma byte_ring_holds_new cap policy : (0 < cap)%nat -> Z.of_nat cap < 2 ^ 63 -> holds (byte_ring_new cap policy) [].
Proof.
  intros. split; unfold capacity; cbn [m_store m_head m_tail byte_ring_new]; unfold zlen;
    rewrite ?length_replicate; try (simpl; lia). intros k b Hk. done.
Qed.

(** ** A run of the ring *)

Inductive ring_op : Type := Push (record : bytes) | Drain (max_bytes : Z).

(** What an operation answers: [try_push]'s verdict, or [drain]'s and the sink's bytes. *)
Inductive ring_answer : Type := Pushed (ok : bool) | Drained (more : bool) (out : bytes).

Definition ring_step (op : ring_op) (r : byte_ring) : option (ring_answer * byte_ring) :=
  match op with
  | Push record => '(ok, r) ← try_push record r; Some (Pushed ok, r)
  | Drain max => '(more, out, r) ← drain max r; Some (Drained more (concat out), r)
  end.

Fixpoint ring_run (ops : list ring_op) (r : byte_ring) : option (list ring_answer) :=
  match ops with
  | [] => Some []
  | op :: ops => '(a, r) ← ring_step op r; rest ← ring_run ops r; Some (a :: rest)
  end.

Definition queue_step (cap : Z) (policy : ring_policy) (op : ring_op) (rs : list bytes) : ring_answer * list bytes :=
  match op with
  | Push record => let '(ok, rs) := push_spec cap policy rs record in (Pushed ok, rs)
  | Drain max => let '(out, rs) := drain_spec max rs in (Drained (negb (bool_decide (rs = []))) (frames out), rs)
  end.

Fixpoint queue_run (cap : Z) (policy : ring_policy) (ops : list ring_op) (rs : list bytes) : list ring_answer :=
  match ops with
  | [] => []
  | op :: ops => let '(a, rs) := queue_step cap policy op rs in a :: queue_run cap policy ops rs
  end.

(** The bytes the pushes of a run may write. *)
Definition op_bytes (op : ring_op) : Z := match op with Push record => zlen (frame record) | Drain _ => 0 end.
Definition run_bytes (ops : list ring_op) : Z := foldr Z.add 0 (map op_bytes ops).

Lemma run_bytes_nonneg ops : 0 <= run_bytes ops.
Proof. induction ops as [| [record|max] ops IH]; cbn; [done| |done]. pose proof (zlen_nonneg (frame record)). unfold run_bytes in IH. lia. Qed.

Lemma ring_run_queue ops : forall r rs, holds r rs ->
  Forall (fun op => match op with Push record => zlen record < 2 ^ 63 | Drain _ => True end) ops ->
  m_head r + run_bytes ops < 2 ^ 64 ->
  ring_run ops r = Some (queue_run (capacity r) (m_policy r) ops rs).
Proof.
  induction ops as [|op ops IH]; intros r rs Hh Hops Hb; [done|]. inversion Hops as [|? ? Hop Hops']; subst.
  pose proof (run_bytes_nonneg ops). destruct op as [record|max]; cbn [ring_run queue_run ring_step queue_step].
  - change (run_bytes (Push record :: ops)) with (zlen (frame record) + run_bytes ops) in Hb.
    destruct (try_push_spec r rs record Hh Hop) as (r' & -> & Hh' & Hc & Hp & Hd); [lia|]. cbn [mbind option_bind].
    destruct (push_spec (capacity r) (m_policy r) rs record) as [ok rs']. cbn [fst snd] in *.
    rewrite (IH r' rs' Hh' Hops') by (pose proof (zlen_nonneg (frame record)); destruct ok; lia).
    cbn [mbind option_bind]. by rewrite Hc, Hp.
  - change (run_bytes (Drain max :: ops)) with (0 + run_bytes ops) in Hb.
    destruct (drain_refines r rs max Hh) as (out & r' & -> & Ho & Hh' & Hs & Hp & Hd). cbn [mbind option_bind].
    destruct (drain_spec max rs) as [o rs']. cbn [fst snd] in *. rewrite (IH r' rs' Hh' Hops') by lia.
    cbn [mbind option_bind]. unfold capacity. by rewrite Ho, Hs, Hp.
Qed.

End Ring.

(** C17: The byte ring is a bounded queue of whole records under both overflow policies:
    every run of pushes and drains answers what the queue answers (the same records
    refused or evicted, the same frames handed to the sink, in order), never accesses
    the store out of bounds and always returns. *)
Theorem byte_ring_is_a_record_queue (cap : nat) (policy : Ring.ring_policy) (ops : list Ring.ring_op)
    (Hcap : (0 < cap)%nat) (Hmax : Z.of_nat cap < 2 ^ 63)
    (Hops : Forall (fun op => match op with Ring.Push record => zlen record < 2 ^ 63 | Ring.Drain _ => True end) ops)
    (Hbytes : Ring.run_bytes ops < 2 ^ 64) :
  Ring.ring_run ops (Ring.byte_ring_new cap policy) = Some (Ring.queue_run (Z.of_nat cap) policy ops []).
Proof.
  rewrite (Ring.ring_run_queue ops _ [] (Ring.byte_ring_holds_new cap policy Hcap Hmax) Hops) by done.
  unfold Ring.capacity, Ring.byte_ring_new, zlen. cbn [Ring.m_store Ring.m_policy]. by rewrite length_replicate.
Qed.

Lemma byte_ring_is_a_record_queue_witness :
  let a := replicate 4 (byte.of_Z 7) in
  let b := replicate 6 (byte.of_Z 8) in
  let ops := [Ring.Push a; Ring.Push b; Ring.Push a; Ring.Drain 1; Ring.Push a; Ring.Drain 100] in
  Ring.ring_run ops (Ring.byte_ring_new 13 Ring.drop_oldest) = Some (Ring.queue_run 13 Ring.drop_oldest ops []) /\
  Ring.ring_run ops (Ring.byte_ring_new 13 Ring.drop_newest) = Some (Ring.queue_run 13 Ring.drop_newest ops []).
Proof.
  split.
  - apply (byte_ring_is_a_record_queue 13 Ring.drop_oldest); [lia|lia| |vm_compute; reflexivity].
    repeat constructor; vm_compute; reflexivity.
  - apply (byte_ring_is_a_record_queue 13 Ring.drop_newest); [lia|lia| |vm_compute; reflexivity].
    repeat constructor; vm_compute; reflexivity.
Defined.
