(* ===== verification/RecordStream.v ===== *)
(** * The recorder's stream format

    Models [record_stream_writer.h], [detail/record_frame.h], [record_format.h],
    [record_envelope.h], [record_decode.h], [detail/record_scan.h] and
    [record_stream_reader.h] of [lib/plexus-core/include/plexus/io/recording/].

    The writer encodes into a scratch vector through the unchecked [wire::writer]: a
    write past the vector is [None].  Enumerations are their underlying bytes, since the
    reader casts any byte to them.  The reader's scan distinguishes a span taken out of
    the stream's range ([OutOfRange]) from running out of fuel ([OutOfFuel]); the latter
    is shown not to happen. *)

From S2P Require Import Prelude ByteOrder Varint Cursor Hash Frame RecordRing.

Module RecordStream.
Import Ring.

(** ** [record_format.h] and [record_envelope.h] *)

Definition k_stream_magic : Z := 0x504C5852.
Definition k_format_version : Z := 3.
Definition k_sync_marker : Z := 0x9E37C5A1.
Definition k_sync_interval : Z := 64.

Definition cat_sample : Z := 0.
Definition cat_drop : Z := 1.
Definition cat_qos_change : Z := 2.
Definition cat_participant : Z := 3.
Definition cat_endpoint : Z := 4.
Definition cat_security : Z := 8.
Definition cat_dropout : Z := 10.
Definition cat_wire_frame : Z := 11.

(** ** The events the writer takes: of each, the fields that are encoded *)

Record sample_info : Type := SampleInfo {
  si_publication_sequence : Z;
  si_source_timestamp : Z;
  si_reception_timestamp : Z;
}.

Record drop_note : Type := DropNote { dn_cause : Z; dn_band : Z; dn_topic_hash : Z; dn_count : Z }.

Record qos_change_event : Type := QosChangeEvent {
  qc_edge : Z; qc_topic_hash : Z; qc_verdict : Z; qc_type_id : option Z;
}.

Record participant_event : Type := ParticipantEvent { pa_edge : Z; pa_self : bytes }.

Record endpoint_event : Type := EndpointEvent {
  ep_edge : Z; ep_topic_hash : Z; ep_type_id : option Z; ep_type_name : bytes; ep_schema_hint : Z;
}.

Record security_event : Type := SecurityEvent { se_kind : Z; se_peer : bytes; se_cause : Z }.

Record dropout_record : Type := DropoutRecord { dr_ts : Z; dr_count : Z; dr_bytes : Z; dr_max_fidelity : Z }.

Record type_schema_entry : Type := TypeSchemaEntry {
  ts_type_id : Z; ts_type_name : bytes; ts_message_encoding : bytes;
  ts_schema_name : bytes; ts_schema_encoding : bytes; ts_schema_data : bytes;
}.

Record stream_rule : Type := StreamRule { sr_fidelity : Z; sr_mode : Z; sr_decimation : Z; sr_window_ns : Z }.

(** ** [class record_stream_writer] *)

Record record_stream_writer : Type := RecordStreamWriter { m_aux : bytes; m_scratch : bytes }.

Definition record_stream_writer_new (scratch_bytes : nat) : record_stream_writer :=
  RecordStreamWriter (zero_bytes 256) (zero_bytes scratch_bytes).

(** The calls on a [wire::writer]. *)
Inductive field : Type :=
| F8 (v : Z) | F16 (v : Z) | F32 (v : Z) | F64 (v : Z) | FVar (v : Z) | FBytes (b : bytes).

(** How the scan ends. *)
Inductive outcome (A : Type) : Type := Done (x : A) | OutOfRange | OutOfFuel.
Arguments Done {A} x.
Arguments OutOfRange {A}.
Arguments OutOfFuel {A}.

Section Codec.
Context {host : Host}.

Definition put (w : writer) (f : field) : option writer :=
  match f with
  | F8 v => writer_u8 w v
  | F16 v => writer_u16 w v
  | F32 v => writer_u32 w v
  | F64 v => writer_u64 w v
  | FVar v => writer_varint w v
  | FBytes b => writer_bytes w b
  end.

Fixpoint puts (w : writer) (fs : list field) : option writer :=
  match fs with
  | [] => Some w
  | f :: fs => w ← put w f; puts w fs
  end.

Definition blob (b : bytes) : list field := [FVar (zlen b); FBytes b].

Definition each_byte (b : bytes) : list field := map (fun x => F8 ⟦x⟧) b.

(** The record and the scratch afterwards. *)
Definition seal_in (buf : bytes) (body_len : nat) : option (bytes * bytes) :=
  let crc := crc32c (take body_len buf) 0 in
  buf ← write_u32 buf body_len crc;
  Some (take (body_len + 4) buf, buf).

Definition encode_in (scratch : bytes) (fs : list field) : option (bytes * bytes) :=
  w ← puts (writer_of scratch) fs;
  seal_in (m_region w) (w_offset w).

Definition encode (fs : list field) (s : record_stream_writer) : option (bytes * record_stream_writer) :=
  '(rec, buf) ← encode_in (m_scratch s) fs;
  Some (rec, RecordStreamWriter (m_aux s) buf).

Definition encode_aux (fs : list field) (s : record_stream_writer) : option (bytes * record_stream_writer) :=
  '(rec, buf) ← encode_in (m_aux s) fs;
  Some (rec, RecordStreamWriter buf (m_scratch s)).

Definition schema_fields (e : type_schema_entry) : list field :=
  [FVar (ts_type_id e)] ++ blob (ts_type_name e) ++ blob (ts_message_encoding e) ++
  blob (ts_schema_name e) ++ blob (ts_schema_encoding e) ++ blob (ts_schema_data e).

Definition begin_stream_fields (clock_epoch : Z) (node : bytes) (rule : stream_rule) (schema : list type_schema_entry)
    (crypto : Z) : list field :=
  [F32 k_stream_magic; F16 k_format_version; F64 clock_epoch] ++ each_byte node ++
  [F8 (sr_fidelity rule); F8 (sr_mode rule); FVar (sr_decimation rule); FVar (sr_window_ns rule); FVar (zlen schema)] ++
  concat (map schema_fields schema) ++ [F8 crypto].

Definition begin_stream (clock_epoch : Z) (node : bytes) (rule : stream_rule) (schema : list type_schema_entry) (crypto : Z)
    (s : record_stream_writer) : option (bytes * record_stream_writer) :=
  w ← puts (writer_of (m_scratch s)) (begin_stream_fields clock_epoch node rule schema crypto);
  Some (take (w_offset w) (m_region w), RecordStreamWriter (m_aux s) (m_region w)).

Definition sync_marker (s : record_stream_writer) : option (bytes * record_stream_writer) :=
  w ← puts (writer_of (m_aux s)) [F32 k_sync_marker];
  Some (take (w_offset w) (m_region w), RecordStreamWriter (m_region w) (m_scratch s)).

Definition flag (o : option Z) : Z := match o with Some _ => 1 | None => 0 end.

Definition sample_fields (capture_ts topic_hash : Z) (info : sample_info) (type_id : Z) (type_id_present : bool) (fidelity : Z)
    (payload : bytes) : list field :=
  [F8 cat_sample; F64 capture_ts; F64 topic_hash; F64 (si_publication_sequence info); F64 (si_source_timestamp info);
   F64 (si_reception_timestamp info); F8 (if type_id_present then 1 else 0); FVar (if type_id_present then type_id else 0);
   F8 fidelity; FVar (zlen payload); FBytes payload].

Definition sample capture_ts topic_hash info type_id type_id_present fidelity payload :=
  encode (sample_fields capture_ts topic_hash info type_id type_id_present fidelity payload).

Definition drop_fields (capture_ts : Z) (e : drop_note) : list field :=
  [F8 cat_drop; F64 capture_ts; F8 (dn_cause e); F8 (dn_band e); F64 (dn_topic_hash e); F64 (dn_count e)].

Definition drop_record capture_ts e := encode (drop_fields capture_ts e).

Definition qos_fields (capture_ts : Z) (e : qos_change_event) : list field :=
  [F8 cat_qos_change; F64 capture_ts; F8 (qc_edge e); F64 (qc_topic_hash e); F8 (qc_verdict e);
   F8 (flag (qc_type_id e)); FVar (default 0 (qc_type_id e))].

Definition qos_change capture_ts e := encode (qos_fields capture_ts e).

Definition participant_fields (capture_ts : Z) (e : participant_event) : list field :=
  [F8 cat_participant; F64 capture_ts; F8 (pa_edge e)] ++ each_byte (pa_self e).

Definition participant capture_ts e := encode (participant_fields capture_ts e).

Definition endpoint_fields (capture_ts : Z) (fqn : bytes) (e : endpoint_event) : list field :=
  [F8 cat_endpoint; F64 capture_ts; F8 (ep_edge e); F64 (ep_topic_hash e); F8 (flag (ep_type_id e));
   FVar (default 0 (ep_type_id e)); FVar (zlen fqn); FBytes fqn] ++ blob (ep_type_name e) ++ [FVar (ep_schema_hint e)].

Definition endpoint capture_ts fqn e := encode (endpoint_fields capture_ts fqn e).

Definition security_fields (capture_ts : Z) (e : security_event) : list field :=
  [F8 cat_security; F64 capture_ts; F8 (se_kind e); F8 (se_cause e)] ++ each_byte (se_peer e).

Definition security capture_ts e := encode (security_fields capture_ts e).

Definition wire_fields (capture_ts dir seq : Z) (peer data : bytes) : list field :=
  [F8 cat_wire_frame; F64 capture_ts; F8 dir; F64 seq] ++ each_byte peer ++ [FVar (zlen data); FBytes data].

Definition wire_frame capture_ts dir seq peer data := encode (wire_fields capture_ts dir seq peer data).

Definition dropout_fields (r : dropout_record) : list field :=
  [F8 cat_dropout; F64 (dr_ts r); FVar (dr_count r); FVar (dr_bytes r); F8 (dr_max_fidelity r)].

Definition dropout r := encode_aux (dropout_fields r).

(** ** [record_decode.h] *)

Record decoded_record : Type := DecodedRecord {
  category : Z;
  capture_ts : Z;
  topic_hash : Z;
  publication_sequence : Z;
  source_timestamp : Z;
  reception_timestamp : Z;
  type_id : option Z;
  fidelity : Z;
  edge : Z;
  verdict : Z;
  count : Z;
  schema_hint : Z;
  peer : bytes;
  fqn : bytes;
  type_name : bytes;
  payload : bytes;
  wire_dir : Z;
  wire_seq : Z;
}.

(** A computation on the reader. *)
Definition parser (A : Type) : Type := reader -> A * reader.
#[global] Instance parser_ret : MRet parser := fun A x r => (x, r).
#[global] Instance parser_bind : MBind parser := fun A B k p r => let '(x, r) := p r in k x r.

Definition u8 : parser Z := reader_u8.
Definition u16 : parser Z := reader_u16.
Definition u32 : parser Z := reader_u32.
Definition u64 : parser Z := reader_u64.
(** [r.varint().value_or(0)]. *)
Definition var : parser Z := fun r => let '(v, r) := reader_varint r in (default 0 v, r).
Definition take_bytes (n : Z) : parser bytes := fun r => reader_bytes r (Z.to_nat n).

Fixpoint read_octets (n : nat) : parser bytes :=
  match n with
  | O => mret []
  | S n => b ← u8; bs ← read_octets n; mret (byte.of_Z b :: bs)
  end.

Definition no_id : bytes := zero_bytes 16.

Definition decode_sample : parser decoded_record :=
  ts ← u64; th ← u64; ps ← u64; st ← u64; rt ← u64;
  present ← u8; id ← var; fid ← u8; plen ← var; pl ← take_bytes plen;
  mret (DecodedRecord cat_sample ts th ps st rt (if negb (present =? 0) then Some id else None) fid 0 0 0 0 no_id [] [] pl 0 0).

Definition decode_drop : parser decoded_record :=
  ts ← u64; edge ← u8; _ ← u8; th ← u64; count ← u64;
  mret (DecodedRecord cat_drop ts th 0 0 0 None 0 edge 0 count 0 no_id [] [] [] 0 0).

Definition decode_qos : parser decoded_record :=
  ts ← u64; edge ← u8; th ← u64; verdict ← u8; present ← u8; id ← var;
  mret (DecodedRecord cat_qos_change ts th 0 0 0 (if negb (present =? 0) then Some id else None) 0 edge verdict 0 0 no_id [] [] [] 0 0).

Definition decode_participant : parser decoded_record :=
  ts ← u64; edge ← u8; peer ← read_octets 16;
  mret (DecodedRecord cat_participant ts 0 0 0 0 None 0 edge 0 0 0 peer [] [] [] 0 0).

Definition decode_endpoint : parser decoded_record :=
  ts ← u64; edge ← u8; th ← u64; present ← u8; id ← var;
  flen ← var; name ← take_bytes flen; tlen ← var; type_bytes ← take_bytes tlen; hint ← var;
  mret (DecodedRecord cat_endpoint ts th 0 0 0 (if negb (present =? 0) then Some id else None) 0 edge 0 0 hint no_id name type_bytes [] 0 0).

Definition decode_security : parser decoded_record :=
  ts ← u64; edge ← u8; verdict ← u8; peer ← read_octets 16;
  mret (DecodedRecord cat_security ts 0 0 0 0 None 0 edge verdict 0 0 peer [] [] [] 0 0).

Definition decode_dropout : parser decoded_record :=
  ts ← u64; count ← var; _ ← var; fid ← u8;
  mret (DecodedRecord cat_dropout ts 0 0 0 0 None fid 0 0 count 0 no_id [] [] [] 0 0).

Definition decode_wire : parser decoded_record :=
  ts ← u64; dir ← u8; seq ← u64; peer ← read_octets 16; len ← var; pl ← take_bytes len;
  mret (DecodedRecord cat_wire_frame ts 0 0 0 0 None 0 0 0 0 0 peer [] [] pl dir seq).

Definition decode_category (category : Z) : parser decoded_record :=
  if category =? cat_sample then decode_sample else
  if category =? cat_drop then decode_drop else
  if category =? cat_qos_change then decode_qos else
  if category =? cat_participant then decode_participant else
  if category =? cat_endpoint then decode_endpoint else
  if category =? cat_security then decode_security else
  if category =? cat_dropout then decode_dropout else
  if category =? cat_wire_frame then decode_wire else
  mret (DecodedRecord category 0 0 0 0 0 None 0 0 0 0 0 no_id [] [] [] 0 0).

Definition decode_record_body (body : bytes) : bool * decoded_record :=
  let '(rec, r) := (category ← u8; decode_category category) (reader_of body) in
  (reader_ok r, rec).

(** ** [detail/record_scan.h] *)

Definition read_blob : parser bytes := len ← var; take_bytes len.

Definition is_sync (payload : bytes) : bool :=
  if negb (length payload =? 4)%nat then false else
  (reader_u32 (reader_of payload)).1 =? k_sync_marker.

Definition validate_and_decode (payload : bytes) : option decoded_record :=
  if decide (length payload < 4)%nat then None else
  let body_len := (length payload - 4)%nat in
  let stored := (reader_u32 (reader_of (drop body_len payload))).1 in
  if negb (crc32c (take body_len payload) 0 =? stored) then None else
  let '(ok, rec) := decode_record_body (take body_len payload) in
  if (ok : bool) then Some rec else None.

(** [stream.subspan(off, n)], which must lie inside the stream. *)
Definition subspan (stream : bytes) (off : nat) (n : Z) : option bytes :=
  if decide (Z.of_nat off + n <= zlen stream) then Some (take (Z.to_nat n) (drop off stream)) else None.

(** The loop of [resync_from] with [n] offsets left. *)
Fixpoint resync_loop (stream : bytes) (at_ n : nat) : option nat :=
  match n with
  | O => Some (length stream)
  | S n =>
      match read_varint stream at_ with
      | (None, _) => resync_loop stream (S at_) n
      | (Some len, off) =>
          if zlen stream <? wrap 64 (Z.of_nat off + len) then resync_loop stream (S at_) n else
          s ← subspan stream off len;
          if is_sync s then Some at_ else resync_loop stream (S at_) n
      end
  end.

Definition resync_from (stream : bytes) (from : nat) : option nat :=
  resync_loop stream from (length stream - from).

(** ** [class record_stream_reader] *)

Record schema_definition : Type := SchemaDefinition {
  sd_type_id : Z; sd_type_name : bytes; sd_message_encoding : bytes;
  sd_schema_name : bytes; sd_schema_encoding : bytes; sd_schema_data : bytes;
}.

Record stream_definitions : Type := StreamDefinitions {
  clock_epoch : Z;
  node : bytes;
  rule : stream_rule;
  schema : list schema_definition;
  crypto_position : Z;
}.

Record recovery_result : Type := RecoveryResult {
  header_ok : bool;
  recovered : Z;
  trailing_partial_dropped : bool;
  corruption_skipped : bool;
}.

Definition read_schema_entry : parser schema_definition :=
  id ← var; tn ← read_blob; me ← read_blob; sn ← read_blob; se ← read_blob; sd ← read_blob;
  mret (SchemaDefinition id tn me sn se sd).

(** The loop over the schema entries, [i] of [entries] read. *)
Fixpoint read_schema (fuel : nat) (i entries : Z) (r : reader) : option (list schema_definition * reader) :=
  match fuel with
  | O => None
  | S fuel =>
      if (i <? entries) && reader_ok r
      then let '(e, r) := read_schema_entry r in
           '(es, r) ← read_schema fuel (i + 1) entries r; Some (e :: es, r)
      else Some ([], r)
  end.

(** The definitions and the cursor, or a refused stream. *)
Definition read_definitions (stream : bytes) : option (option (stream_definitions * nat)) :=
  let r := reader_of stream in
  let '(magic, r) := reader_u32 r in
  if negb (magic =? k_stream_magic) then Some None else
  let '(version, r) := reader_u16 r in
  if negb (version =? k_format_version) then Some None else
  let '(h, r) := (clock ← u64; node ← read_octets 16; fid ← u8; mode ← u8; dec ← var; win ← var; entries ← var;
                  mret (clock, node, StreamRule fid mode (wrap 32 dec) win, entries)) r in
  let '(clock, node, rule, entries) := h in
  '(schema, r) ← read_schema (S (length stream)) 0 entries r;
  let '(crypto, r) := reader_u8 r in
  if negb (reader_ok r) then Some None else
  Some (Some (StreamDefinitions clock node rule schema crypto, reader_consumed r)).

Fixpoint recover_loop (fuel : nat) (stream : bytes) (at_ : nat) (res : recovery_result) (out : list decoded_record)
    : outcome (list decoded_record * recovery_result) :=
  match fuel with
  | O => OutOfFuel
  | S fuel =>
      if decide (at_ < length stream)%nat then
        let partial := Done (out, RecoveryResult (header_ok res) (recovered res) true (corruption_skipped res)) in
        match read_varint stream at_ with
        | (None, _) => partial
        | (Some len, len_off) =>
            let payload_end := wrap 64 (Z.of_nat len_off + len) in
            if zlen stream <? payload_end then partial else
            match subspan stream len_off len with
            | None => OutOfRange
            | Some payload =>
                if is_sync payload then recover_loop fuel stream (Z.to_nat payload_end) res out else
                match validate_and_decode payload with
                | None =>
                    match resync_from stream (S at_) with
                    | None => OutOfRange
                    | Some next =>
                        recover_loop fuel stream next
                          (RecoveryResult (header_ok res) (recovered res) (trailing_partial_dropped res) true) out
                    end
                | Some rec =>
                    recover_loop fuel stream (Z.to_nat payload_end)
                      (RecoveryResult (header_ok res) (wrap 64 (recovered res + 1)) (trailing_partial_dropped res) (corruption_skipped res))
                      (out ++ [rec])
                end
            end
        end
      else Done (out, res)
  end.

Definition recover (stream : bytes) (cursor : nat) : outcome (list decoded_record * recovery_result) :=
  recover_loop (S (length stream)) stream cursor (RecoveryResult true 0 false false) [].

End Codec.

(** ** The bytes of the fields *)

Definition bytes_of (f : field) : bytes :=
  match f with
  | F8 v => be_bytes 1 v
  | F16 v => be_bytes 2 v
  | F32 v => be_bytes 4 v
  | F64 v => be_bytes 8 v
  | FVar v => varint v
  | FBytes b => b
  end.

Definition layout (fs : list field) : bytes := concat (map bytes_of fs).

(** A record as the writer seals it. *)
Definition sealed (fs : list field) : bytes := layout fs ++ be_bytes 4 (crc32c (layout fs) 0).

Lemma layout_cons f fs : layout (f :: fs) = bytes_of f ++ layout fs.
Proof. done. Qed.

Lemma layout_app fs fs' : layout (fs ++ fs') = layout fs ++ layout fs'.
Proof. unfold layout. by rewrite map_app, concat_app. Qed.

Lemma layout_each_byte b : layout (each_byte b) = b.
Proof.
  induction b as [|x b IH]; [done|]. unfold each_byte in *. cbn [map]. rewrite layout_cons, IH. cbn [bytes_of].
  by rewrite be_bytes_1.
Qed.

Section Layout.
Context {host : Host}.

Lemma put_wr pre rest f : (length (bytes_of f) <= length rest)%nat ->
  put (wr pre rest) f = Some (wr (pre ++ bytes_of f) (drop (length (bytes_of f)) rest)).
Proof.
  destruct f; cbn [bytes_of put]; rewrite ?length_be_bytes; intros H.
  - by apply writer_u8_wr.
  - by apply writer_u16_wr.
  - by apply writer_u32_wr.
  - by apply writer_u64_wr.
  - by apply writer_varint_wr.
  - by apply writer_bytes_wr.
Qed.

Lemma puts_wr fs : forall pre rest, (length (layout fs) <= length rest)%nat ->
  puts (wr pre rest) fs = Some (wr (pre ++ layout fs) (drop (length (layout fs)) rest)).
Proof.
  induction fs as [|f fs IH]; intros pre rest Hl.
  { cbn. by rewrite app_nil_r, drop_0. }
  rewrite layout_cons, length_app in *. cbn [puts]. rewrite put_wr by lia. cbn [mbind option_bind].
  rewrite IH by (rewrite length_drop; lia). by rewrite <- app_assoc, drop_drop.
Qed.

Lemma store_Some_length buf at_ src buf' : store buf at_ src = Some buf' -> (at_ + length src <= length buf)%nat /\ length buf' = length buf.
Proof. unfold store. case_decide; [|done]. intros [= <-]. split; [lia|]. apply length_inserts. Qed.

Lemma writer_varint_loop_bound fuel : forall w v w', 0 <= v < 2 ^ (7 * Z.of_nat fuel) ->
  writer_varint_loop fuel w v = Some w' ->
  (w_offset w' = w_offset w + length (leb_bytes fuel v) /\ w_offset w' <= length (m_region w) /\ length (m_region w') = length (m_region w))%nat.
Proof.
  induction fuel as [|fuel IH]; intros w v w' Hv H; cbn [writer_varint_loop leb_bytes] in *; [done|].
  apply bind_Some in H as (region & Hs & H). apply store_Some_length in Hs as [Hb Hl]. cbn [length] in Hb.
  destruct (Z.shiftr v 7 =? 0) eqn:E; [simplify_eq; cbn; lia|]. apply IH in H; [cbn in *; lia|].
  rewrite Z.shiftr_div_pow2 by lia. change (2 ^ 7) with 128.
  replace (7 * Z.of_nat (S fuel)) with (7 + 7 * Z.of_nat fuel) in Hv by lia. rewrite Z.pow_add_r in Hv by lia.
  change (2 ^ 7) with 128 in Hv. dlia.
Qed.

Lemma put_bound w f w' : put w f = Some w' -> (w_offset w <= length (m_region w))%nat ->
  (w_offset w' = w_offset w + length (bytes_of f) /\ w_offset w' <= length (m_region w) /\ length (m_region w') = length (m_region w))%nat.
Proof.
  destruct f; cbn [put bytes_of]; rewrite ?length_be_bytes; intros H Hw.
  1-4: unfold writer_u8, writer_u16, writer_u32, writer_u64 in H; apply bind_Some in H as (region & Hs & [= <-]);
    rewrite ?write_u8_be, ?write_u16_be, ?write_u32_be, ?write_u64_be in Hs; apply store_Some_length in Hs as [Hb Hl];
    rewrite length_be_bytes in Hb; cbn; lia.
  - unfold writer_varint in H. apply writer_varint_loop_bound in H; [done|]. apply wrap64_fuel.
  - unfold writer_bytes in H. apply bind_Some in H as (region & Hs & [= <-]). destruct b as [|x b].
    + simplify_eq. cbn. lia.
    + apply store_Some_length in Hs as [Hb Hl]. cbn in *. lia.
Qed.

(** A chain of writes that returns stayed inside its region. *)
Lemma puts_bound fs : forall w w', puts w fs = Some w' -> (w_offset w <= length (m_region w))%nat ->
  (w_offset w' = w_offset w + length (layout fs) /\ w_offset w' <= length (m_region w) /\ length (m_region w') = length (m_region w))%nat.
Proof.
  induction fs as [|f fs IH]; intros w w' H Hw; cbn [puts] in H; [simplify_eq; cbn; lia|].
  apply bind_Some in H as (w1 & H1 & H2). apply put_bound in H1 as (? & ? & ?); [|done].
  apply IH in H2 as (? & ? & ?); [|lia]. rewrite layout_cons, length_app. lia.
Qed.

(** The encoder: exact when the record fits the scratch, out of bounds otherwise. *)
Lemma encode_in_spec scratch fs : (length (layout fs) + 4 <= length scratch)%nat ->
  exists scratch', encode_in scratch fs = Some (sealed fs, scratch') /\ length scratch' = length scratch.
Proof.
  intros Hl. unfold encode_in. rewrite writer_of_wr, puts_wr by lia. cbn [mbind option_bind app wr m_region w_offset].
  unfold seal_in. rewrite take_app_length.
  rewrite write_u32_at by (rewrite ?length_drop; (done || lia)). cbn [mbind option_bind].
  rewrite take_app_length' by (rewrite length_app, length_be_bytes; done).
  eexists. split; [reflexivity|]. rewrite !length_app, !length_drop, length_be_bytes. lia.
Qed.

Lemma encode_in_overrun scratch fs : (length scratch < length (layout fs) + 4)%nat -> encode_in scratch fs = None.
Proof.
  intros Hl. unfold encode_in. destruct (puts (writer_of scratch) fs) as [w|] eqn:E; [|done].
  apply puts_bound in E as (Ho & Hb & Hr); [|cbn; lia]. cbn [writer_of w_offset m_region] in *. cbn [mbind option_bind].
  unfold seal_in. rewrite write_u32_be. destruct (store _ _ _) as [buf|] eqn:Es; [|done].
  apply store_Some_length in Es as [Hs _]. rewrite length_be_bytes in Hs. lia.
Qed.

(** ** Decoding what was written *)

Lemma bind_u8 {B} (k : Z -> parser B) pre v post : in_width 8 v ->
  (u8 ≫= k) (rd pre (be_bytes 1 v ++ post)) = k v (rd (pre ++ be_bytes 1 v) post).
Proof. intros. unfold mbind, parser_bind, u8. by rewrite reader_u8_rd. Qed.

Lemma bind_u64 {B} (k : Z -> parser B) pre v post : in_width 64 v ->
  (u64 ≫= k) (rd pre (be_bytes 8 v ++ post)) = k v (rd (pre ++ be_bytes 8 v) post).
Proof. intros. unfold mbind, parser_bind, u64. by rewrite reader_u64_rd. Qed.

Lemma bind_var {B} (k : Z -> parser B) pre v post : in_width 64 v ->
  (var ≫= k) (rd pre (varint v ++ post)) = k v (rd (pre ++ varint v) post).
Proof. intros. unfold mbind, parser_bind, var. by rewrite reader_varint_rd. Qed.

Lemma bind_take_bytes {B} (k : bytes -> parser B) pre mid post n : n = zlen mid ->
  (take_bytes n ≫= k) (rd pre (mid ++ post)) = k mid (rd (pre ++ mid) post).
Proof. intros ->. unfold mbind, parser_bind, take_bytes. by rewrite reader_bytes_rd by apply zlen_to_nat. Qed.

Lemma read_octets_rd n : forall pre ids post, length ids = n ->
  read_octets n (rd pre (ids ++ post)) = (ids, rd (pre ++ ids) post).
Proof.
  induction n as [|n IH]; intros pre [|b ids] post Hn; try done; [cbn; by rewrite app_nil_r|].
  cbn [read_octets app]. unfold mbind, parser_bind, u8. rewrite reader_u8_cons. rewrite IH by (simpl in Hn; lia).
  unfold mret, parser_ret. by rewrite byte.of_Z_unsigned, <- app_assoc.
Qed.

Lemma bind_octets {B} (k : bytes -> parser B) n pre ids post : length ids = n ->
  (read_octets n ≫= k) (rd pre (ids ++ post)) = k ids (rd (pre ++ ids) post).
Proof. intros. unfold mbind, parser_bind. by rewrite read_octets_rd. Qed.

Lemma bind_blob {B} (k : bytes -> parser B) pre b post : in_width 64 (zlen b) ->
  (read_blob ≫= k) (rd pre (varint (zlen b) ++ b ++ post)) = k b (rd (pre ++ varint (zlen b) ++ b) post).
Proof.
  intros Hb. unfold read_blob. change ((var ≫= take_bytes) ≫= k) with (var ≫= fun n => take_bytes n ≫= k).
  assert (forall r, ((var ≫= fun len => take_bytes len) ≫= k) r = (var ≫= fun n => take_bytes n ≫= k) r) as ->.
  { intros r. unfold mbind, parser_bind. by destruct (var r). }
  by rewrite bind_var, bind_take_bytes, <- app_assoc.
Qed.

End Layout.

(** The writer's calls, with the bodies they encode and what a reader makes of them. *)
Inductive record_event : Type :=
| EvSample (ts th : Z) (info : sample_info) (id : option Z) (fid : Z) (pl : bytes)
| EvDrop (ts : Z) (e : drop_note)
| EvQos (ts : Z) (e : qos_change_event)
| EvParticipant (ts : Z) (e : participant_event)
| EvEndpoint (ts : Z) (name : bytes) (e : endpoint_event)
| EvSecurity (ts : Z) (e : security_event)
| EvWire (ts dir seq : Z) (id data : bytes)
| EvDropout (r : dropout_record).

Definition fields_of (ev : record_event) : list field :=
  match ev with
  | EvSample ts th info id fid pl => sample_fields ts th info (default 0 id) (bool_decide (is_Some id)) fid pl
  | EvDrop ts e => drop_fields ts e
  | EvQos ts e => qos_fields ts e
  | EvParticipant ts e => participant_fields ts e
  | EvEndpoint ts name e => endpoint_fields ts name e
  | EvSecurity ts e => security_fields ts e
  | EvWire ts dir seq id data => wire_fields ts dir seq id data
  | EvDropout r => dropout_fields r
  end.

Definition decoded_of (ev : record_event) : decoded_record :=
  match ev with
  | EvSample ts th info id fid pl =>
      DecodedRecord cat_sample ts th (si_publication_sequence info) (si_source_timestamp info) (si_reception_timestamp info)
        id fid 0 0 0 0 no_id [] [] pl 0 0
  | EvDrop ts e => DecodedRecord cat_drop ts (dn_topic_hash e) 0 0 0 None 0 (dn_cause e) 0 (dn_count e) 0 no_id [] [] [] 0 0
  | EvQos ts e =>
      DecodedRecord cat_qos_change ts (qc_topic_hash e) 0 0 0 (qc_type_id e) 0 (qc_edge e) (qc_verdict e) 0 0 no_id [] [] [] 0 0
  | EvParticipant ts e => DecodedRecord cat_participant ts 0 0 0 0 None 0 (pa_edge e) 0 0 0 (pa_self e) [] [] [] 0 0
  | EvEndpoint ts name e =>
      DecodedRecord cat_endpoint ts (ep_topic_hash e) 0 0 0 (ep_type_id e) 0 (ep_edge e) 0 0 (ep_schema_hint e) no_id name
        (ep_type_name e) [] 0 0
  | EvSecurity ts e => DecodedRecord cat_security ts 0 0 0 0 None 0 (se_kind e) (se_cause e) 0 0 (se_peer e) [] [] [] 0 0
  | EvWire ts dir seq id data => DecodedRecord cat_wire_frame ts 0 0 0 0 None 0 0 0 0 0 id [] [] data dir seq
  | EvDropout r => DecodedRecord cat_dropout (dr_ts r) 0 0 0 0 None (dr_max_fidelity r) 0 0 (dr_count r) 0 no_id [] [] [] 0 0
  end.

Definition wide (o : option Z) : Prop := in_width 64 (default 0 o).

(** Every argument is a value of its C type. *)
Definition wf_event (ev : record_event) : Prop :=
  match ev with
  | EvSample ts th info id fid pl =>
      in_width 64 ts /\ in_width 64 th /\ in_width 64 (si_publication_sequence info) /\ in_width 64 (si_source_timestamp info) /\
      in_width 64 (si_reception_timestamp info) /\ wide id /\ in_width 8 fid /\ in_width 64 (zlen pl)
  | EvDrop ts e => in_width 64 ts /\ in_width 8 (dn_cause e) /\ in_width 8 (dn_band e) /\ in_width 64 (dn_topic_hash e) /\ in_width 64 (dn_count e)
  | EvQos ts e => in_width 64 ts /\ in_width 8 (qc_edge e) /\ in_width 64 (qc_topic_hash e) /\ in_width 8 (qc_verdict e) /\ wide (qc_type_id e)
  | EvParticipant ts e => in_width 64 ts /\ in_width 8 (pa_edge e) /\ length (pa_self e) = 16%nat
  | EvEndpoint ts name e =>
      in_width 64 ts /\ in_width 8 (ep_edge e) /\ in_width 64 (ep_topic_hash e) /\ wide (ep_type_id e) /\ in_width 64 (zlen name) /\
      in_width 64 (zlen (ep_type_name e)) /\ in_width 64 (ep_schema_hint e)
  | EvSecurity ts e => in_width 64 ts /\ in_width 8 (se_kind e) /\ in_width 8 (se_cause e) /\ length (se_peer e) = 16%nat
  | EvWire ts dir seq id data =>
      in_width 64 ts /\ in_width 8 dir /\ in_width 64 seq /\ length id = 16%nat /\ in_width 64 (zlen data)
  | EvDropout r => in_width 64 (dr_ts r) /\ in_width 64 (dr_count r) /\ in_width 64 (dr_bytes r) /\ in_width 8 (dr_max_fidelity r)
  end.

(** Read the fields at the front one by one. *)
Ltac read_fields :=
  repeat first
    [ rewrite bind_u8 by (done || assumption)
    | rewrite bind_u64 by (done || assumption)
    | rewrite bind_var by (done || assumption)
    | rewrite bind_octets by (done || assumption)
    | rewrite bind_take_bytes by (done || assumption) ].

Section Roundtrip.
Context {host : Host}.

Lemma flag_width o : in_width 8 (flag o).
Proof. destruct o; done. Qed.

Lemma flag_type_id o : (if negb (flag o =? 0) then Some (default 0 o) else None) = o.
Proof. by destruct o. Qed.

Lemma decode_fields ev : wf_event ev -> decode_record_body (layout (fields_of ev)) = (true, decoded_of ev).
Proof.
  intros Hwf. unfold decode_record_body. rewrite reader_of_rd.
  destruct ev as [ts th info id fid pl|ts e|ts e|ts e|ts name e|ts e|ts dir seq id data|r];
    cbn [fields_of decoded_of wf_event] in *; unfold wide in *;
    unfold sample_fields, drop_fields, qos_fields, participant_fields, endpoint_fields, security_fields, wire_fields, dropout_fields, blob;
    repeat match goal with H : _ /\ _ |- _ => destruct H end;
    rewrite ?layout_app, ?layout_each_byte, ?layout_cons; cbn [bytes_of app]; rewrite <- ?app_assoc;
    rewrite bind_u8 by done.
  - change (decode_category cat_sample) with decode_sample. unfold decode_sample.
    replace (if bool_decide (is_Some id) then 1 else 0) with (flag id)
      by (destruct id; [rewrite bool_decide_eq_true_2 by by eexists|rewrite bool_decide_eq_false_2 by by intros [? ?] ]; done).
    replace (if bool_decide (is_Some id) then default 0 id else 0) with (default 0 id)
      by (destruct id; [rewrite bool_decide_eq_true_2 by by eexists|rewrite bool_decide_eq_false_2 by by intros [? ?] ]; done).
    pose proof (flag_width id). read_fields. cbn. by rewrite flag_type_id.
  - change (decode_category cat_drop) with decode_drop. unfold decode_drop. by read_fields.
  - change (decode_category cat_qos_change) with decode_qos. unfold decode_qos. pose proof (flag_width (qc_type_id e)).
    read_fields. cbn. by rewrite flag_type_id.
  - change (decode_category cat_participant) with decode_participant. unfold decode_participant.
    change (layout []) with (@nil byte). cbn [app]. rewrite <- (app_nil_r (pa_self e)) at 1. by read_fields.
  - change (decode_category cat_endpoint) with decode_endpoint. unfold decode_endpoint. pose proof (flag_width (ep_type_id e)).
    change (layout []) with (@nil byte). cbn [app]. read_fields. cbn. by rewrite flag_type_id.
  - change (decode_category cat_security) with decode_security. unfold decode_security.
    change (layout []) with (@nil byte). cbn [app]. rewrite <- (app_nil_r (se_peer e)) at 1. by read_fields.
  - change (decode_category cat_wire_frame) with decode_wire. unfold decode_wire.
    change (layout []) with (@nil byte). cbn [app]. by read_fields.
  - change (decode_category cat_dropout) with decode_dropout. unfold decode_dropout. by read_fields.
Qed.

Lemma layout_fields_pos ev : (0 < length (layout (fields_of ev)))%nat.
Proof.
  destruct ev; cbn [fields_of]; unfold sample_fields, drop_fields, qos_fields, participant_fields, endpoint_fields,
    security_fields, wire_fields, dropout_fields; cbn [app]; rewrite layout_cons; cbn [bytes_of]; rewrite length_app, length_be_bytes; lia.
Qed.

Lemma length_sealed fs : length (sealed fs) = (length (layout fs) + 4)%nat.
Proof. unfold sealed. by rewrite length_app, length_be_bytes. Qed.

(** A record as sealed validates and decodes to its event. *)
Lemma validate_sealed ev : wf_event ev -> validate_and_decode (sealed (fields_of ev)) = Some (decoded_of ev).
Proof.
  intros Hwf. unfold validate_and_decode. rewrite length_sealed, decide_False by lia.
  replace (length (layout (fields_of ev)) + 4 - 4)%nat with (length (layout (fields_of ev))) by lia. unfold sealed.
  rewrite take_app_length, drop_app_length, reader_of_rd.
  rewrite <- (app_nil_r (be_bytes 4 _)), reader_u32_rd by apply crc32c_width. cbn [fst].
  rewrite Z.eqb_refl. cbn [negb]. by rewrite decode_fields.
Qed.

Lemma is_sync_sealed ev : is_sync (sealed (fields_of ev)) = false.
Proof.
  unfold is_sync. rewrite length_sealed. pose proof (layout_fields_pos ev).
  destruct (Nat.eqb_spec (length (layout (fields_of ev)) + 4) 4); [lia|done].
Qed.

Definition sync_payload : bytes := be_bytes 4 k_sync_marker.

Lemma is_sync_marker : is_sync sync_payload = true.
Proof.
  unfold is_sync, sync_payload. rewrite length_be_bytes. cbn [Nat.eqb negb]. rewrite reader_of_rd.
  rewrite <- (app_nil_r (be_bytes 4 _)), reader_u32_rd by (vm_compute; split; congruence). done.
Qed.

(** ** The scan of a stream *)

(** A ring record of the stream: a sync marker or an event. *)
Definition item : Type := option record_event.

Definition item_payload (i : item) : bytes :=
  match i with None => sync_payload | Some ev => sealed (fields_of ev) end.

Definition wf_item (i : item) : Prop := match i with None => True | Some ev => wf_event ev end.

Definition item_record (i : item) : option decoded_record := decoded_of <$> i.

Definition item_count (i : item) : Z := match i with None => 0 | Some _ => 1 end.

Definition counted (res : recovery_result) (n : Z) : recovery_result :=
  RecoveryResult (header_ok res) (wrap 64 (recovered res + n)) (trailing_partial_dropped res) (corruption_skipped res).

Lemma recover_item fuel pre i post res out :
  zlen (pre ++ frame (item_payload i) ++ post) < 2 ^ 64 -> wf_item i -> in_width 64 (recovered res) ->
  recover_loop (S fuel) (pre ++ frame (item_payload i) ++ post) (length pre) res out =
  recover_loop fuel (pre ++ frame (item_payload i) ++ post) (length (pre ++ frame (item_payload i)))
    (counted res (item_count i)) (out ++ option_list (item_record i)).
Proof.
  intros Hmax Hwf Hrec. set (stream := pre ++ frame (item_payload i) ++ post) in *. cbn [recover_loop].
  pose proof (frame_pos (item_payload i)) as Hp. set (p := item_payload i) in *.
  assert (zlen stream = zlen pre + (zlen (varint (zlen p)) + zlen p) + zlen post) as Hz.
  { unfold stream, frame. rewrite !zlen_app. lia. }
  pose proof (zlen_nonneg pre). pose proof (zlen_nonneg post). pose proof (zlen_nonneg p). pose proof (zlen_nonneg (varint (zlen p))).
  rewrite decide_True by (unfold frame in Hp; rewrite zlen_app in Hp; unfold zlen in *; lia).
  assert (read_varint stream (length pre) = (Some (zlen p), (length pre + length (varint (zlen p)))%nat)) as ->.
  { unfold stream, frame. rewrite <- app_assoc. apply read_varint_at. unfold in_width. lia. }
  assert (wrap 64 (Z.of_nat (length pre + length (varint (zlen p))) + zlen p) = zlen (pre ++ frame p)) as ->.
  { unfold frame. rewrite !zlen_app. rewrite wrap_small by (unfold in_width, zlen in *; lia). unfold zlen. lia. }
  assert (zlen (pre ++ frame p) = zlen pre + (zlen (varint (zlen p)) + zlen p)) as Hz2 by (unfold frame; rewrite !zlen_app; lia).
  destruct (Z.ltb_spec (zlen stream) (zlen (pre ++ frame p))); [lia|].
  assert (subspan stream (length pre + length (varint (zlen p))) (zlen p) = Some p) as ->.
  { unfold subspan. rewrite decide_True by (unfold zlen in *; lia). f_equal. unfold stream, frame.
    rewrite <- app_assoc, (app_assoc pre), drop_app_length' by (rewrite length_app; done).
    rewrite zlen_to_nat. apply take_app_length. }
  rewrite zlen_to_nat. unfold counted, p. destruct i as [ev|]; cbn [item_payload item_record].
  - rewrite is_sync_sealed, validate_sealed by done. done.
  - rewrite is_sync_marker. cbn. rewrite app_nil_r. do 2 f_equal. rewrite Z.add_0_r, wrap_small by done. by destruct res.
Qed.

Definition events_of (items : list item) : list record_event := omap id items.

Lemma recover_items items : forall fuel pre post res out,
  zlen (pre ++ frames (map item_payload items) ++ post) < 2 ^ 64 -> Forall wf_item items -> in_width 64 (recovered res) ->
  (length items <= fuel)%nat ->
  recover_loop fuel (pre ++ frames (map item_payload items) ++ post) (length pre) res out =
  recover_loop (fuel - length items) (pre ++ frames (map item_payload items) ++ post)
    (length (pre ++ frames (map item_payload items))) (counted res (zlen (events_of items)))
    (out ++ map decoded_of (events_of items)).
Proof.
  induction items as [|i items IH]; intros fuel pre post res out Hmax Hwf Hrec Hf.
  { cbn. rewrite !app_nil_r, Nat.sub_0_r. do 2 f_equal. unfold counted. rewrite Z.add_0_r, wrap_small by done. by destruct res. }
  inversion Hwf as [|? ? Hi His]; subst. cbn [map] in *. rewrite frames_cons, <- app_assoc in *.
  destruct fuel as [|fuel]; [simpl in Hf; lia|]. rewrite recover_item by done.
  assert (pre ++ frame (item_payload i) ++ frames (map item_payload items) ++ post
          = (pre ++ frame (item_payload i)) ++ frames (map item_payload items) ++ post) as Hs by by rewrite <- app_assoc.
  rewrite Hs in *. rewrite IH; [|done|done|cbn; apply wrap_range; lia|simpl in Hf; lia].
  cbn [length Nat.sub]. f_equal; [by rewrite <- app_assoc| |].
  - unfold counted. cbn [header_ok recovered trailing_partial_dropped corruption_skipped]. f_equal. unfold wrap. rewrite Zplus_mod_idemp_l.
    f_equal. unfold events_of, zlen. destruct i; cbn [omap list_omap id length item_count]; lia.
  - rewrite <- app_assoc. f_equal. by destruct i.
Qed.

(** ** A stream cut short *)

Lemma read_varint_loop_extend n : forall i data more consumed offset value v c,
  read_varint_loop n i data consumed offset value = (Some v, c) ->
  read_varint_loop n i (data ++ more) consumed offset value = (Some v, c).
Proof.
  induction n as [|n IH]; intros i data more consumed offset value v c H; cbn [read_varint_loop] in *; [done|].
  destruct (data !! offset) as [b|] eqn:E; [|done]. rewrite (lookup_app_l_Some _ _ _ _ E).
  destruct (varint_step ⟦b⟧ i value) as [ [stop v'] ov]. destruct stop; [done|]. by apply IH.
Qed.

Lemma read_varint_extend data more at_ v c :
  read_varint data at_ = (Some v, c) -> read_varint (data ++ more) at_ = (Some v, c).
Proof.
  unfold read_varint. case_decide; [done|]. rewrite decide_False by (rewrite length_app; lia). apply read_varint_loop_extend.
Qed.

Lemma read_varint_bound data at_ v c :
  read_varint data at_ = (Some v, c) -> (at_ < c <= length data)%nat /\ in_width 64 v.
Proof. intros H. pose proof (varint_decode_sound data at_) as Hs. rewrite H in Hs. destruct Hs as (? & ? & ? & _). done. Qed.

(** A proper prefix of a frame at the end of the stream. *)
Lemma recover_partial fuel pre p j res out :
  zlen pre + zlen (frame p) < 2 ^ 64 -> (j < length (frame p))%nat ->
  recover_loop (S fuel) (pre ++ take j (frame p)) (length pre) res out =
  Done (out, if decide (j = 0%nat) then res
             else RecoveryResult (header_ok res) (recovered res) true (corruption_skipped res)).
Proof.
  intros Hmax Hj. cbn [recover_loop]. rewrite length_app, length_take, Nat.min_l by lia.
  destruct (decide (j = 0%nat)) as [->|Hne]; [rewrite decide_False by lia; done|]. rewrite decide_True by lia.
  pose proof (zlen_nonneg pre). pose proof (zlen_nonneg p). pose proof (zlen_nonneg (frame p)).
  assert (in_width 64 (zlen p)) as Hw by (unfold frame in *; rewrite zlen_app in *; pose proof (zlen_nonneg (varint (zlen p))); unfold in_width; lia).
  assert (read_varint (pre ++ frame p) (length pre) = (Some (zlen p), (length pre + length (varint (zlen p)))%nat)) as Hfull
    by (unfold frame; by apply read_varint_at).
  destruct (read_varint (pre ++ take j (frame p)) (length pre)) as [ [v|] c] eqn:E; [|done].
  pose proof (read_varint_bound _ _ _ _ E) as [Hc _]. rewrite length_app, length_take, Nat.min_l in Hc by lia.
  apply (read_varint_extend _ (drop j (frame p))) in E. rewrite <- app_assoc, take_drop, Hfull in E. simplify_eq.
  rewrite wrap_small; [|unfold in_width, frame, zlen in *; rewrite length_app in *; lia].
  destruct (Z.ltb_spec (zlen (pre ++ take j (frame p))) (Z.of_nat (length pre + length (varint (zlen p))) + zlen p)) as [|Hle]; [done|].
  exfalso. rewrite zlen_app in Hle. unfold frame, zlen in *. rewrite length_take, length_app in *. lia.
Qed.

(** ** The definitions at the head *)

Definition definition_of (e : type_schema_entry) : schema_definition :=
  SchemaDefinition (ts_type_id e) (ts_type_name e) (ts_message_encoding e) (ts_schema_name e) (ts_schema_encoding e) (ts_schema_data e).

Definition wf_entry (e : type_schema_entry) : Prop :=
  in_width 64 (ts_type_id e) /\ in_width 64 (zlen (ts_type_name e)) /\ in_width 64 (zlen (ts_message_encoding e)) /\
  in_width 64 (zlen (ts_schema_name e)) /\ in_width 64 (zlen (ts_schema_encoding e)) /\ in_width 64 (zlen (ts_schema_data e)).

Lemma read_schema_entry_rd pre e post : wf_entry e ->
  read_schema_entry (rd pre (layout (schema_fields e) ++ post)) = (definition_of e, rd (pre ++ layout (schema_fields e)) post).
Proof.
  intros (? & ? & ? & ? & ? & ?). unfold schema_fields, blob, read_schema_entry. cbn [app].
  rewrite !layout_cons. cbn [bytes_of]. change (layout []) with (@nil byte). rewrite app_nil_r, <- !app_assoc.
  rewrite bind_var, !bind_blob by done. unfold mret, parser_ret. by rewrite <- !app_assoc.
Qed.

Lemma read_schema_rd es : forall fuel i pre post, Forall wf_entry es -> (length es < fuel)%nat ->
  read_schema fuel i (i + zlen es) (rd pre (layout (concat (map schema_fields es)) ++ post)) =
  Some (map definition_of es, rd (pre ++ layout (concat (map schema_fields es))) post).
Proof.
  induction es as [|e es IH]; intros fuel i pre post Hwf Hf; (destruct fuel as [|fuel]; [simpl in Hf; lia|]); cbn [read_schema map concat].
  - cbn [zlen length]. destruct (Z.ltb_spec i (i + zlen (@nil type_schema_entry))) as [Hx|]; [unfold zlen in Hx; simpl in Hx; lia|].
    cbn. by rewrite app_nil_r.
  - inversion Hwf; subst. destruct (Z.ltb_spec i (i + zlen (e :: es))) as [|Hx]; [|unfold zlen in Hx; simpl in Hx; lia].
    change (reader_ok (rd pre ?x)) with true. cbn [andb]. rewrite layout_app, <- app_assoc, read_schema_entry_rd by done.
    replace (i + zlen (e :: es)) with (i + 1 + zlen es) by (unfold zlen; simpl; lia).
    rewrite IH by (done || (simpl in Hf; lia)). cbn [mbind option_bind]. by rewrite <- app_assoc.
Qed.

Definition wf_rule (rule : stream_rule) : Prop :=
  in_width 8 (sr_fidelity rule) /\ in_width 8 (sr_mode rule) /\ in_width 32 (sr_decimation rule) /\ in_width 64 (sr_window_ns rule).

Lemma length_schema_entries es : (length es <= length (layout (concat (map schema_fields es))))%nat.
Proof.
  induction es as [|e es IH]; [done|]. cbn [map concat]. rewrite layout_app, length_app. unfold schema_fields at 1. cbn [app].
  rewrite layout_cons, length_app. cbn [bytes_of]. pose proof (length_varint (ts_type_id e)). simpl. lia.
Qed.

Lemma read_definitions_head clock node rule schema crypto rest :
  in_width 64 clock -> length node = 16%nat -> wf_rule rule -> Forall wf_entry schema -> in_width 64 (zlen schema) -> in_width 8 crypto ->
  let head := layout (begin_stream_fields clock node rule schema crypto) in
  read_definitions (head ++ rest) =
  Some (Some (StreamDefinitions clock node rule (map definition_of schema) crypto, length head)).
Proof.
  intros Hclock Hnode (R1 & R2 & R3 & R4) Hschema Hlen Hcrypto head. unfold read_definitions. rewrite reader_of_rd.
  set (es := layout (concat (map schema_fields schema))).
  assert (head = be_bytes 4 k_stream_magic ++ be_bytes 2 k_format_version ++ be_bytes 8 clock ++ node ++ be_bytes 1 (sr_fidelity rule) ++
    be_bytes 1 (sr_mode rule) ++ varint (sr_decimation rule) ++ varint (sr_window_ns rule) ++ varint (zlen schema) ++ es ++ be_bytes 1 crypto) as Hh.
  { unfold head, begin_stream_fields. rewrite !layout_app, layout_each_byte, !layout_cons. cbn [bytes_of].
    change (layout []) with (@nil byte). by rewrite !app_nil_r, <- !app_assoc. }
  assert (length schema < S (length (head ++ rest)))%nat as Hfuel.
  { rewrite Hh, !length_app. pose proof (length_schema_entries schema). unfold es. lia. }
  rewrite Hh in *. rewrite <- !app_assoc in *. rewrite reader_u32_rd by (vm_compute; split; congruence). rewrite Z.eqb_refl. cbn [negb].
  rewrite reader_u16_rd by (vm_compute; split; congruence). rewrite Z.eqb_refl. cbn [negb].
  assert (in_width 64 (sr_decimation rule)) by (destruct R3; split; [done|]; eapply Z.lt_trans; [done|reflexivity]).
  read_fields. unfold mret, parser_ret. rewrite (wrap_small 32) by done. unfold es.
  rewrite (read_schema_rd schema _ 0) by done. cbn [mbind option_bind]. rewrite reader_u8_rd by done.
  change (reader_ok (rd ?x ?y)) with true. cbn [negb]. unfold reader_consumed, rd. cbn [r_offset]. rewrite <- !app_assoc.
  do 4 f_equal. by destruct rule.
Qed.

(** ** The scan always returns *)

Lemma resync_loop_bound stream n : forall at_ j, (at_ + n = length stream)%nat ->
  resync_loop stream at_ n = Some j -> (at_ <= j <= length stream)%nat.
Proof.
  induction n as [|n IH]; intros at_ j Hn H; cbn [resync_loop] in H; [simplify_eq; lia|].
  destruct (read_varint stream at_) as [ [len|] off]; [|apply IH in H; lia].
  destruct (_ <? _); [apply IH in H; lia|]. apply bind_Some in H as (x & _ & H).
  destruct (is_sync x); [simplify_eq; lia|]. apply IH in H; lia.
Qed.

Lemma recover_loop_returns stream fuel : forall at_ res out,
  zlen stream < 2 ^ 64 -> (length stream - at_ < fuel)%nat -> recover_loop fuel stream at_ res out <> OutOfFuel.
Proof.
  induction fuel as [|fuel IH]; intros at_ res out Hmax Hf; [lia|]. cbn [recover_loop]. case_decide as Hat; [|done].
  destruct (read_varint stream at_) as [ [len|] off] eqn:E; [|done]. apply read_varint_bound in E as [Hoff Hlen].
  destruct (_ <? _); [done|]. unfold subspan. case_decide as Hfit; [|done].
  assert (wrap 64 (Z.of_nat off + len) = Z.of_nat off + len) as -> by (apply wrap_small; destruct Hlen; unfold in_width; lia).
  assert (forall n, (at_ < n)%nat -> (length stream - n < fuel)%nat) as Hless by (intros; lia).
  destruct (is_sync _); [apply IH; [done|]; apply Hless; destruct Hlen; lia|].
  destruct (validate_and_decode _); [apply IH; [done|]; apply Hless; destruct Hlen; lia|].
  destruct (resync_from stream (S at_)) as [next|] eqn:Er; [|done]. apply resync_loop_bound in Er; [|lia].
  apply IH; [done|]. apply Hless. lia.
Qed.

(** ** The definitions are read in any case *)

(** [r'] is [r] after some reads. *)
Definition goes (r r' : reader) : Prop :=
  m_data r' = m_data r /\ (r_offset r <= r_offset r')%nat /\ (m_ok r' = true -> m_ok r = true) /\
  ((r_offset r <= length (m_data r))%nat -> (r_offset r' <= length (m_data r))%nat).

Lemma goes_trans r1 r2 r3 : goes r1 r2 -> goes r2 r3 -> goes r1 r3.
Proof. intros (A1 & A2 & A3 & A4) (B1 & B2 & B3 & B4). rewrite A1 in *. split_and!; [done|lia|auto|auto]. Qed.

Lemma goes_var r : goes r (var r).2 /\ (m_ok (var r).2 = true -> (r_offset r < r_offset (var r).2)%nat).
Proof.
  unfold var, reader_varint. destruct (m_ok r) eqn:Ek; cbn [negb]; [|unfold goes; cbn; rewrite Ek; by split_and!].
  destruct (read_varint (m_data r) (r_offset r)) as [ [v|] off] eqn:E; cbn; rewrite ?Ek.
  - apply read_varint_bound in E as [? _]. unfold goes. cbn. split_and!; (done || lia).
  - pose proof (varint_decode_sound (m_data r) (r_offset r)) as Hs. rewrite E in Hs. subst. unfold goes. cbn. by split_and!.
Qed.

Lemma goes_take_bytes n r : goes r (take_bytes n r).2.
Proof.
  unfold take_bytes, reader_bytes, reader_take, reader_remaining. destruct (m_ok r) eqn:Ek; cbn [negb orb].
  - destruct (Nat.ltb_spec (length (m_data r) - r_offset r) (Z.to_nat n)); cbn; unfold goes; cbn; rewrite ?Ek; split_and!; (done || lia).
  - unfold goes; cbn. rewrite Ek. by split_and!.
Qed.

Lemma parser_goes_bind {A B} (p : parser A) (k : A -> parser B) r :
  goes r (p r).2 -> (forall x r', goes r' (k x r').2) -> goes r ((p ≫= k) r).2.
Proof.
  intros H1 H2. unfold mbind, parser_bind. destruct (p r) as [x r'] eqn:E. cbn in *. eapply goes_trans; [exact H1|apply H2].
Qed.

Lemma goes_bind_strict {A B} (p : parser A) (k : A -> parser B) r :
  goes r (p r).2 -> (m_ok (p r).2 = true -> (r_offset r < r_offset (p r).2)%nat) -> (forall x r', goes r' (k x r').2) ->
  goes r ((p ≫= k) r).2 /\ (m_ok ((p ≫= k) r).2 = true -> (r_offset r < r_offset ((p ≫= k) r).2)%nat).
Proof.
  intros H1 Hlt H2. split; [by apply parser_goes_bind|]. unfold mbind, parser_bind. destruct (p r) as [x r']. cbn [snd] in *.
  destruct (H2 x r') as (_ & Hle & Hk & _). intros Hok. specialize (Hlt (Hk Hok)). lia.
Qed.

Lemma goes_blob r : goes r (read_blob r).2.
Proof. apply parser_goes_bind; [apply goes_var|intros; apply goes_take_bytes]. Qed.

Lemma parser_goes_ret {A} (x : A) r : goes r ((mret x : parser A) r).2.
Proof. by split_and!. Qed.

Lemma goes_entry r : goes r (read_schema_entry r).2 /\
  (m_ok (read_schema_entry r).2 = true -> (r_offset r < r_offset (read_schema_entry r).2)%nat).
Proof.
  apply goes_bind_strict; [apply goes_var|apply goes_var|]. intros id r'.
  repeat (apply parser_goes_bind; [apply goes_blob|intros ? ?]). apply parser_goes_ret.
Qed.

Lemma read_schema_total fuel : forall i entries r, (S (length (m_data r) - r_offset r) < fuel)%nat ->
  (r_offset r <= length (m_data r))%nat -> is_Some (read_schema fuel i entries r).
Proof.
  induction fuel as [|fuel IH]; intros i entries r Hf Hr; [lia|]. cbn [read_schema].
  destruct ((i <? entries) && reader_ok r); [|by eexists]. destruct (goes_entry r) as [ (Hd & Hle & _ & Hb) Hlt].
  destruct (read_schema_entry r) as [e r'] eqn:E. cbn [snd] in *.
  assert (is_Some (read_schema fuel (i + 1) entries r')) as [ [es r''] Hs].
  { destruct (m_ok r') eqn:Ek.
    - apply IH; rewrite Hd; [specialize (Hlt eq_refl)|auto]. specialize (Hb Hr). lia.
    - destruct fuel as [|fuel]; [lia|]. cbn [read_schema]. unfold reader_ok. rewrite Ek, andb_false_r. by eexists. }
  rewrite Hs. by eexists.
Qed.

Lemma goes_field width read r : goes r (reader_field width read r).2.
Proof.
  unfold reader_field, reader_take, reader_remaining. destruct (m_ok r) eqn:Ek; cbn [negb orb].
  - destruct (Nat.ltb_spec (length (m_data r) - r_offset r) width); cbn; unfold goes; cbn; rewrite ?Ek; split_and!; (done || lia).
  - unfold goes; cbn. rewrite Ek. by split_and!.
Qed.

Lemma goes_octets n : forall r, goes r (read_octets n r).2.
Proof.
  induction n as [|n IH]; intros r; [apply parser_goes_ret|]. cbn [read_octets].
  apply parser_goes_bind; [apply goes_field|intros]. apply parser_goes_bind; [apply IH|intros; apply parser_goes_ret].
Qed.

(** Every stream is either refused or its definitions are read: the loop over the
    schema ends with the bytes of the stream. *)
Lemma read_definitions_returns stream : is_Some (read_definitions stream).
Proof.
  unfold read_definitions. pose proof (goes_field 4 read_u32 (reader_of stream)) as H1.
  unfold reader_u32. destruct (reader_field 4 read_u32 (reader_of stream)) as [magic r1] eqn:E1. cbn [snd] in H1.
  destruct (Z.eqb_spec magic k_stream_magic) as [->|]; cbn [negb]; [|by eexists].
  assert (4 <= r_offset r1)%nat as H4.
  { unfold reader_field, reader_take in E1. cbn [reader_of m_ok negb orb] in E1.
    destruct (reader_remaining (reader_of stream) <? 4)%nat; simplify_eq. cbn. lia. }
  pose proof (goes_field 2 read_u16 r1) as H2. unfold reader_u16. destruct (reader_field 2 read_u16 r1) as [version r2]. cbn [snd] in H2.
  destruct (version =? k_format_version); cbn [negb]; [|by eexists].
  match goal with |- context [mbind ?k ?q r2] => set (hp := mbind k q) end.
  assert (goes r2 (hp r2).2) as H3.
  { unfold hp. repeat first [apply parser_goes_bind; [first [apply goes_field|apply goes_octets|apply goes_var]|intros ? ?]]. apply parser_goes_ret. }
  destruct (hp r2) as [ [ [ [clock node'] rule'] entries] r3]. cbn [snd] in H3.
  destruct (goes_trans _ _ _ (goes_trans _ _ _ H1 H2) H3) as (Hd & _ & _ & Hb). destruct H2 as (_ & O2 & _), H3 as (_ & O3 & _).
  cbn [reader_of m_data r_offset] in *. specialize (Hb ltac:(lia)).
  destruct (read_schema_total (S (length stream)) 0 entries r3) as [ [es r4] ->]; [rewrite Hd; lia|by rewrite Hd|].
  cbn [mbind option_bind]. destruct (reader_u8 r4) as [crypto r5]. destruct (negb (reader_ok r5)); by eexists.
Qed.

End Roundtrip.

(** ** The stream format *)

Section Format.
Context {host : Host}.

(** C18: A recorded stream reads back: from a head, any sync markers and events sealed by
    the writer, and a last frame cut at any byte, the reader gives the definitions and
    exactly the complete records in order, reports the partial one and no corruption. *)
Theorem recorded_stream_reads_back clock node rule schema crypto items last j
    (Hclock : in_width 64 clock) (Hnode : length node = 16%nat) (Hrule : wf_rule rule)
    (Hschema : Forall wf_entry schema) (Hn : in_width 64 (zlen schema)) (Hcrypto : in_width 8 crypto)
    (Hitems : Forall wf_item items) (Hj : (j < length (frame (item_payload last)))%nat) :
  let head := layout (begin_stream_fields clock node rule schema crypto) in
  let stream := head ++ frames (map item_payload items) ++ take j (frame (item_payload last)) in
  zlen (head ++ frames (map item_payload items)) + zlen (frame (item_payload last)) < 2 ^ 64 ->
  read_definitions stream =
    Some (Some (StreamDefinitions clock node rule (map definition_of schema) crypto, length head)) /\
  recover stream (length head) =
    Done (map decoded_of (events_of items),
          RecoveryResult true (zlen (events_of items)) (negb (j =? 0)%nat) false).
Proof.
  intros head stream Hmax. split; [by apply read_definitions_head|]. unfold recover, stream.
  assert (zlen (take j (frame (item_payload last))) <= zlen (frame (item_payload last))) as Htake
    by (unfold zlen; rewrite length_take; lia).
  assert (length items <= length (frames (map item_payload items)))%nat as Hfuel.
  { rewrite <- (length_map item_payload items) at 1. apply length_frames. }
  assert (zlen (events_of items) <= zlen items) as Hev.
  { unfold events_of, zlen. clear. induction items as [| [?|] items IH]; cbn [omap list_omap id length] in *; lia. }
  rewrite recover_items by (try done; rewrite ?zlen_app in *; rewrite ?length_app; (lia || (split; [lia|reflexivity]))).
  rewrite app_nil_l. set (fuel := (S (length _) - length items)%nat).
  assert (exists f, fuel = S f) as [f ->] by (exists (pred fuel); unfold fuel; rewrite !length_app; lia).
  rewrite app_assoc. rewrite recover_partial by done. f_equal. f_equal. unfold counted. cbn [header_ok recovered trailing_partial_dropped corruption_skipped].
  rewrite Z.add_0_l, wrap_small; [by destruct j|]. pose proof (zlen_nonneg (events_of items)). split; [done|].
  rewrite zlen_app in Hmax. unfold zlen in *. lia.
Qed.

(** A length field near the top of its range passes the reader's overrun test, since
    the sum wraps, and the record is then taken out of the stream's range. *)
Theorem corrupt_length_reads_out_of_range pre v post (Hv : in_width 64 v)
    (Hwrap : 2 ^ 64 <= zlen pre + zlen (varint v) + v) (Hlen : zlen (pre ++ varint v ++ post) < 2 ^ 63) :
  recover (pre ++ varint v ++ post) (length pre) = OutOfRange.
Proof.
  unfold recover. cbn [recover_loop]. pose proof (length_varint v). rewrite !zlen_app in *.
  pose proof (zlen_nonneg pre). pose proof (zlen_nonneg post). pose proof (zlen_nonneg (varint v)). destruct Hv as [Hv0 Hv1].
  rewrite decide_True by (rewrite !length_app; lia). rewrite read_varint_at by done.
  assert (wrap 64 (Z.of_nat (length pre + length (varint v)) + v) = zlen pre + zlen (varint v) + v - 2 ^ 64) as ->.
  { unfold wrap. replace (Z.of_nat (length pre + length (varint v)) + v) with (zlen pre + zlen (varint v) + v - 2 ^ 64 + 1 * 2 ^ 64)
      by (unfold zlen; lia). rewrite Z_mod_plus_full. apply Z.mod_small. lia. }
  rewrite ?zlen_app. destruct (Z.ltb_spec (zlen pre + (zlen (varint v) + zlen post)) (zlen pre + zlen (varint v) + v - 2 ^ 64)); [lia|].
  unfold subspan. rewrite decide_False; [done|]. rewrite ?zlen_app. unfold zlen in *. lia.
Qed.

End Format.

Definition sample_items : list item :=
  [None; Some (EvDrop 5 (DropNote 2 1 77 3)); Some (EvSample 6 77 (SampleInfo 1 2 3) (Some 9) 2 [byte.of_Z 1; byte.of_Z 2]);
   Some (EvDropout (DropoutRecord 7 4 100 2))].

Lemma recorded_stream_reads_back_witness :
  let rule := StreamRule 2 0 1 0 in
  let head := layout (begin_stream_fields 1 (zero_bytes 16) rule [] 0) in
  recover (host := little) (head ++ frames (map item_payload sample_items) ++ take 3 (frame (item_payload None))) (length head) =
    Done (map decoded_of (events_of sample_items), RecoveryResult true 3 true false).
Proof.
  apply (recorded_stream_reads_back (host := little) 1 (zero_bytes 16) (StreamRule 2 0 1 0) [] 0 sample_items None 3).
  - split; [lia|reflexivity].
  - reflexivity.
  - split_and!; (split; [cbn; lia|reflexivity]).
  - constructor.
  - split; [unfold zlen; simpl; lia|reflexivity].
  - split; [lia|reflexivity].
  - repeat constructor; (vm_compute; congruence).
  - vm_compute. lia.
  - vm_compute. reflexivity.
Defined.

Lemma corrupt_length_reads_out_of_range_witness :
  recover (host := little) ([] ++ varint (2 ^ 64 - 1) ++ [byte.of_Z 0]) 0 = OutOfRange.
Proof.
  apply (corrupt_length_reads_out_of_range (host := little) [] (2 ^ 64 - 1) [byte.of_Z 0]);
    [split; [lia|reflexivity]|vm_compute; congruence|vm_compute; reflexivity].
Defined.

End RecordStream.
