(* ===== verification/Recorder.v ===== *)
(** * The flat recorder

    Models [dropout_record.h] and [flat_recorder.h] of
    [lib/plexus-core/include/plexus/io/recording/], over the ring of [RecordRing] and
    the format of [RecordStream].  The clock is an argument of the operations, the sink
    the bytes written to it, and [None] an access out of bounds.  A record is a view of
    the writer's scratch; sync markers and dropout records are encoded in the second
    scratch, so the view still holds when it is pushed. *)

From S2P Require Import Prelude ByteOrder Varint Cursor Hash Frame RecordRing RecordStream.

Module Recorder.
Import Ring RecordStream.

Section Recorder.
Context {host : Host}.

(** ** [class dropout_run] *)

Record dropout_run : Type := DropoutRun { m_count : Z; m_bytes : Z; m_max_fidelity : Z }.

Definition dropout_run_new : dropout_run := DropoutRun 0 0 0.

Definition shed (would_be_bytes fidelity : Z) (d : dropout_run) : dropout_run :=
  DropoutRun (wrap 32 (m_count d + 1)) (wrap 64 (m_bytes d + would_be_bytes))
             (if m_max_fidelity d <? fidelity then fidelity else m_max_fidelity d).

Definition pending (d : dropout_run) : bool := negb (m_count d =? 0).

Definition harvest (resumed_ts : Z) (d : dropout_run) : dropout_record * dropout_run :=
  (DropoutRecord resumed_ts (m_count d) (m_bytes d) (m_max_fidelity d), DropoutRun 0 0 0).

(** ** [class flat_recorder] *)

Definition fidelity_metadata : Z := 1.
Definition fidelity_payload : Z := 2.
Definition fidelity_wire : Z := 3.

Record flat_recorder : Type := FlatRecorder {
  m_sink : bytes;
  m_writer : record_stream_writer;
  m_preamble : bytes;
  m_ring : byte_ring;
  m_dropouts : dropout_run;
  m_drain_batch : Z;
  m_records : Z;
}.

Definition flat_recorder_new (ring_bytes : nat) (drain_batch_bytes : Z) (scratch_bytes : nat) : flat_recorder :=
  FlatRecorder [] (record_stream_writer_new scratch_bytes) [] (byte_ring_new ring_bytes drop_newest) dropout_run_new drain_batch_bytes 0.

Definition with_writer (w : record_stream_writer) (r : flat_recorder) : flat_recorder :=
  FlatRecorder (m_sink r) w (m_preamble r) (m_ring r) (m_dropouts r) (m_drain_batch r) (m_records r).
Definition with_ring (g : byte_ring) (r : flat_recorder) : flat_recorder :=
  FlatRecorder (m_sink r) (m_writer r) (m_preamble r) g (m_dropouts r) (m_drain_batch r) (m_records r).
Definition with_dropouts (d : dropout_run) (r : flat_recorder) : flat_recorder :=
  FlatRecorder (m_sink r) (m_writer r) (m_preamble r) (m_ring r) d (m_drain_batch r) (m_records r).
Definition with_records (n : Z) (r : flat_recorder) : flat_recorder :=
  FlatRecorder (m_sink r) (m_writer r) (m_preamble r) (m_ring r) (m_dropouts r) (m_drain_batch r) n.
Definition with_sink (s : bytes) (r : flat_recorder) : flat_recorder :=
  FlatRecorder s (m_writer r) (m_preamble r) (m_ring r) (m_dropouts r) (m_drain_batch r) (m_records r).

Definition open (clock : Z) (node : bytes) (rule : stream_rule) (schema : list type_schema_entry) (crypto : Z) (r : flat_recorder)
    : option flat_recorder :=
  '(head, w) ← begin_stream clock node rule schema crypto (m_writer r);
  Some (FlatRecorder (m_sink r ++ head) w head (m_ring r) (m_dropouts r) (m_drain_batch r) (m_records r)).

Definition preamble (r : flat_recorder) : bytes := m_preamble r.

Definition maybe_sync (r : flat_recorder) : option flat_recorder :=
  let due := m_records r mod k_sync_interval =? 0 in
  let r := with_records (wrap 32 (m_records r + 1)) r in
  if due
  then '(marker, w) ← sync_marker (m_writer r);
       '(_, g) ← try_push marker (m_ring r);
       Some (with_ring g (with_writer w r))
  else Some r.

Definition surface_dropout (now : Z) (r : flat_recorder) : option flat_recorder :=
  if negb (pending (m_dropouts r)) then Some r else
  let '(dr, d) := harvest now (m_dropouts r) in
  '(rec, w) ← dropout dr (m_writer r);
  '(_, g) ← try_push rec (m_ring r);
  Some (with_ring g (with_writer w (with_dropouts d r))).

(** [now] is the clock read of [surface_dropout]. *)
Definition admit_record (record : bytes) (would_be_bytes fidelity now : Z) (r : flat_recorder) : option flat_recorder :=
  r ← maybe_sync r;
  r ← surface_dropout now r;
  '(ok, g) ← try_push record (m_ring r);
  let r := with_ring g r in
  Some (if (ok : bool) then r else with_dropouts (shed would_be_bytes fidelity (m_dropouts r)) r).

Definition record_sample (ts now topic_hash : Z) (info : sample_info) (type_id : Z) (type_id_present : bool) (fidelity : Z)
    (payload : bytes) (r : flat_recorder) : option flat_recorder :=
  '(rec, w) ← sample ts topic_hash info type_id type_id_present fidelity payload (m_writer r);
  admit_record rec (zlen payload) fidelity now (with_writer w r).

Definition record_drop (ts now : Z) (e : drop_note) (r : flat_recorder) : option flat_recorder :=
  '(rec, w) ← drop_record ts e (m_writer r); admit_record rec (zlen rec) fidelity_metadata now (with_writer w r).

Definition record_qos_change (ts now : Z) (e : qos_change_event) (r : flat_recorder) : option flat_recorder :=
  '(rec, w) ← qos_change ts e (m_writer r); admit_record rec (zlen rec) fidelity_metadata now (with_writer w r).

Definition record_participant (ts now : Z) (e : participant_event) (r : flat_recorder) : option flat_recorder :=
  '(rec, w) ← participant ts e (m_writer r); admit_record rec (zlen rec) fidelity_metadata now (with_writer w r).

Definition record_endpoint (ts now : Z) (fqn : bytes) (e : endpoint_event) (r : flat_recorder) : option flat_recorder :=
  '(rec, w) ← endpoint ts fqn e (m_writer r); admit_record rec (zlen rec) fidelity_metadata now (with_writer w r).

Definition record_security (ts now : Z) (e : security_event) (r : flat_recorder) : option flat_recorder :=
  '(rec, w) ← security ts e (m_writer r); admit_record rec (zlen rec) fidelity_metadata now (with_writer w r).

Definition record_wire (ts now dir seq : Z) (peer data : bytes) (r : flat_recorder) : option flat_recorder :=
  '(rec, w) ← wire_frame ts dir seq peer data (m_writer r); admit_record rec (zlen data) fidelity_wire now (with_writer w r).

Definition pump (r : flat_recorder) : option (bool * flat_recorder) :=
  '(more, out, g) ← drain (m_drain_batch r) (m_ring r);
  Some (more, with_sink (m_sink r ++ concat out) (with_ring g r)).

(** ** The run of a recorder *)

(** A call of the recorder; an event carries its own clock read, [now] is the second. *)
Inductive recorder_op : Type := Record_ (ev : record_event) (now : Z) | Pump.

Definition do_record (ev : record_event) (now : Z) (r : flat_recorder) : option flat_recorder :=
  match ev with
  | EvSample ts th info id fid pl => record_sample ts now th info (default 0 id) (bool_decide (is_Some id)) fid pl r
  | EvDrop ts e => record_drop ts now e r
  | EvQos ts e => record_qos_change ts now e r
  | EvParticipant ts e => record_participant ts now e r
  | EvEndpoint ts name e => record_endpoint ts now name e r
  | EvSecurity ts e => record_security ts now e r
  | EvWire ts dir seq id data => record_wire ts now dir seq id data r
  | EvDropout _ => Some r
  end.

Definition recorder_step (op : recorder_op) (r : flat_recorder) : option flat_recorder :=
  match op with
  | Record_ ev now => do_record ev now r
  | Pump => '(_, r) ← pump r; Some r
  end.

Fixpoint recorder_run (ops : list recorder_op) (r : flat_recorder) : option flat_recorder :=
  match ops with
  | [] => Some r
  | op :: ops => r ← recorder_step op r; recorder_run ops r
  end.

(** The loss the recorder itself reports, not an event it is given. *)
Definition is_dropout (ev : record_event) : bool := match ev with EvDropout _ => true | _ => false end.

Definition own_events (items : list item) : list record_event :=
  List.filter (fun ev => negb (is_dropout ev)) (events_of items).

(** The record fits the writer's scratch. *)
Definition op_ok (scratch : nat) (op : recorder_op) : Prop :=
  match op with
  | Record_ ev now =>
      is_dropout ev = false /\ wf_event ev /\ in_width 64 now /\ (length (layout (fields_of ev)) + 4 <= scratch)%nat
  | Pump => True
  end.

Definition op_events (op : recorder_op) : list record_event :=
  match op with Record_ ev _ => [ev] | Pump => [] end.

(** Room for the record, a sync marker and a dropout record. *)
Definition op_cost (op : recorder_op) : Z :=
  match op with Record_ ev _ => zlen (frame (sealed (fields_of ev))) + 64 | Pump => 0 end.
Definition run_cost (ops : list recorder_op) : Z := foldr Z.add 0 (map op_cost ops).

(** ** The reference recorder

    A bounded queue of records: a push is refused exactly when the queue has no room
    left for the framed record.  Every [k_sync_interval]-th record is preceded by a
    marker, a run of refused records by the dropout record that reports it; a pump
    moves the oldest records to the sink until the batch budget is spent. *)

Record reference : Type := Reference {
  rf_emitted : list item;
  rf_queued : list item;
  rf_shed : list record_event;
  rf_run : dropout_run;
  rf_records : Z;
}.

Definition reference_new : reference := Reference [] [] [] dropout_run_new 0.

Definition fits_queue (cap : Z) (queued : list item) (i : item) : bool :=
  zlen (frames (map item_payload queued)) + zlen (frame (item_payload i)) <=? cap.

Definition enqueue (cap : Z) (queued : list item) (i : item) : list item :=
  if fits_queue cap queued i then queued ++ [i] else queued.

Definition would_be_bytes (ev : record_event) : Z :=
  match ev with
  | EvSample _ _ _ _ _ pl => zlen pl
  | EvWire _ _ _ _ data => zlen data
  | _ => zlen (sealed (fields_of ev))
  end.

Definition fidelity_of (ev : record_event) : Z :=
  match ev with
  | EvSample _ _ _ _ fid _ => fid
  | EvWire _ _ _ _ _ => fidelity_wire
  | _ => fidelity_metadata
  end.

Definition reference_record (cap : Z) (ev : record_event) (now : Z) (s : reference) : reference :=
  let q1 := if rf_records s mod k_sync_interval =? 0 then enqueue cap (rf_queued s) None else rf_queued s in
  let q2 := if pending (rf_run s)
            then enqueue cap q1 (Some (EvDropout (DropoutRecord now (m_count (rf_run s)) (m_bytes (rf_run s)) (m_max_fidelity (rf_run s)))))
            else q1 in
  let run := if pending (rf_run s) then dropout_run_new else rf_run s in
  let n := wrap 32 (rf_records s + 1) in
  if fits_queue cap q2 (Some ev)
  then Reference (rf_emitted s) (q2 ++ [Some ev]) (rf_shed s) run n
  else Reference (rf_emitted s) q2 (rf_shed s ++ [ev]) (shed (would_be_bytes ev) (fidelity_of ev) run) n.

Fixpoint split_batch (budget : Z) (queued : list item) : list item * list item :=
  match queued with
  | [] => ([], [])
  | i :: rest =>
      if 0 <? budget
      then let '(out, left_) := split_batch (budget - zlen (frame (item_payload i))) rest in (i :: out, left_)
      else ([], queued)
  end.

Definition reference_step (cap batch : Z) (op : recorder_op) (s : reference) : reference :=
  match op with
  | Record_ ev now => reference_record cap ev now s
  | Pump => let '(out, left_) := split_batch batch (rf_queued s) in
            Reference (rf_emitted s ++ out) left_ (rf_shed s) (rf_run s) (rf_records s)
  end.

Definition reference_run (cap batch : Z) (ops : list recorder_op) (s : reference) : reference :=
  foldl (fun s op => reference_step cap batch op s) s ops.

(** ** The recorder keeps to the reference *)

Record recording (head : bytes) (scratch : nat) (cap batch : Z) (r : flat_recorder) (s : reference) : Prop := Recording {
  rg_sink : m_sink r = head ++ frames (map item_payload (rf_emitted s));
  rg_ring : holds (m_ring r) (map item_payload (rf_queued s));
  rg_capacity : capacity (m_ring r) = cap;
  rg_policy : m_policy (m_ring r) = drop_newest;
  rg_batch : m_drain_batch r = batch;
  rg_emitted : Forall wf_item (rf_emitted s);
  rg_queued : Forall wf_item (rf_queued s);
  rg_scratch : length (m_scratch (m_writer r)) = scratch;
  rg_aux : length (m_aux (m_writer r)) = 256%nat;
  rg_run : m_dropouts r = rf_run s;
  rg_records : m_records r = rf_records s;
  rg_dropouts : in_width 32 (m_count (rf_run s)) /\ in_width 64 (m_bytes (rf_run s)) /\ in_width 8 (m_max_fidelity (rf_run s));
}.

Definition with_queue (q : list item) (s : reference) : reference :=
  Reference (rf_emitted s) q (rf_shed s) (rf_run s) (rf_records s).

(** Pushing an item: queued when it fits, refused otherwise. *)
Lemma push_item g queued i :
  holds g (map item_payload queued) -> m_policy g = drop_newest -> m_head g + zlen (frame (item_payload i)) < 2 ^ 64 ->
  exists g', try_push (item_payload i) g = Some (fits_queue (capacity g) queued i, g') /\
    holds g' (map item_payload (enqueue (capacity g) queued i)) /\ capacity g' = capacity g /\ m_policy g' = drop_newest /\
    m_head g' <= m_head g + zlen (frame (item_payload i)).
Proof.
  intros Hh Hp Hm. pose proof (zlen_nonneg (frames (map item_payload queued))) as Hn.
  pose proof (zlen_nonneg (frame (item_payload i))) as Hi.
  assert (zlen (item_payload i) < 2 ^ 63 \/ 2 ^ 63 <= zlen (item_payload i)) as [Hz|Hbig] by lia.
  - destruct (try_push_spec g _ _ Hh Hz Hm) as (g' & Hpush & Hh' & Hc & Hp' & Hd). rewrite Hp in *.
    assert (push_spec (capacity g) drop_newest (map item_payload queued) (item_payload i) =
            (fits_queue (capacity g) queued i, map item_payload (enqueue (capacity g) queued i))) as Hs.
    { unfold push_spec, enqueue, fits_queue. destruct (Z.leb_spec (zlen (frames (map item_payload queued)) + zlen (frame (item_payload i))) (capacity g)).
      - rewrite !(proj2 (Z.ltb_ge _ _)) by lia. by rewrite map_app.
      - destruct (_ <? _); [done|]. by rewrite (proj2 (Z.ltb_lt _ _)) by lia. }
    rewrite Hs in *. cbn [fst snd] in *. exists g'. split_and!; try done. case_match; lia.
  - (* a record this large does not fit any ring *)
    destruct Hh as [Hc ? ? ? ? ?]. assert (fits_queue (capacity g) queued i = false) as Hf.
    { unfold fits_queue. apply Z.leb_gt. unfold frame. rewrite zlen_app. pose proof (zlen_nonneg (varint (zlen (item_payload i)))). lia. }
    unfold enqueue. rewrite Hf. exists g. split_and!; try done; [|lia]. unfold try_push.
    pose proof (length_varint (zlen (item_payload i))) as Hv.
    rewrite writer_of_wr, (writer_varint_wr [] (replicate 10 (byte.of_Z 0))) by (rewrite length_replicate; lia).
    cbn [mbind option_bind wr w_offset app]. rewrite (proj2 (Z.ltb_lt _ _)); [done|lia].
Qed.

Lemma frame_small p n : zlen p <= n -> zlen (frame p) <= n + 10.
Proof. intros. unfold frame. rewrite zlen_app. pose proof (length_varint (zlen p)). unfold zlen in *. lia. Qed.

Lemma sync_marker_spec w : length (m_aux w) = 256%nat ->
  exists w', sync_marker w = Some (sync_payload, w') /\ m_scratch w' = m_scratch w /\ length (m_aux w') = 256%nat.
Proof.
  intros Hl. unfold sync_marker.
  assert (layout [F32 k_sync_marker] = sync_payload) as Hs by (rewrite layout_cons; apply app_nil_r).
  assert (length sync_payload = 4%nat) as H4 by apply length_be_bytes.
  rewrite writer_of_wr, puts_wr by (rewrite Hs; lia). rewrite Hs.
  cbn [mbind option_bind app wr m_region w_offset]. rewrite take_app_length. eexists. split; [done|]. split; [done|].
  cbn [m_aux]. rewrite length_app, length_drop. lia.
Qed.

Lemma layout_dropout r : (length (layout (dropout_fields r)) <= 30)%nat.
Proof.
  unfold dropout_fields. rewrite !layout_cons. cbn [bytes_of]. rewrite !length_app, !length_be_bytes.
  pose proof (length_varint (dr_count r)). pose proof (length_varint (dr_bytes r)). cbn. lia.
Qed.

Lemma dropout_spec dr w : length (m_aux w) = 256%nat ->
  exists w', dropout dr w = Some (sealed (dropout_fields dr), w') /\ m_scratch w' = m_scratch w /\ length (m_aux w') = 256%nat.
Proof.
  intros Hl. unfold dropout, encode_aux. pose proof (layout_dropout dr).
  destruct (encode_in_spec (m_aux w) (dropout_fields dr)) as (buf & -> & Hb); [lia|]. cbn [mbind option_bind].
  eexists. split; [done|]. split; [done|]. cbn [m_aux]. lia.
Qed.

Lemma own_events_app l l' : own_events (l ++ l') = own_events l ++ own_events l'.
Proof. unfold own_events, events_of. by rewrite omap_app, List.filter_app. Qed.

Lemma enqueue_wf cap q i : Forall wf_item q -> wf_item i -> Forall wf_item (enqueue cap q i).
Proof. intros. unfold enqueue. case_match; [|done]. apply Forall_app. split; [done|]. by constructor. Qed.

(** A push keeps the recording going, whatever becomes of the item. *)
Lemma recording_push head scratch cap batch r s i :
  recording head scratch cap batch r s -> wf_item i -> m_head (m_ring r) + zlen (frame (item_payload i)) < 2 ^ 64 ->
  exists g', try_push (item_payload i) (m_ring r) = Some (fits_queue cap (rf_queued s) i, g') /\
    recording head scratch cap batch (with_ring g' r) (with_queue (enqueue cap (rf_queued s) i) s) /\
    m_head g' <= m_head (m_ring r) + zlen (frame (item_payload i)).
Proof.
  intros [] Hi Hm. destruct (push_item (m_ring r) (rf_queued s) i) as (g' & Hp & Hh & Hc & Hpol & Hd); [done..|].
  subst cap. exists g'. split; [done|]. split; [|done]. split; try done. by apply enqueue_wf.
Qed.

Definition synced (cap : Z) (s : reference) : reference :=
  Reference (rf_emitted s) (if rf_records s mod k_sync_interval =? 0 then enqueue cap (rf_queued s) None else rf_queued s)
    (rf_shed s) (rf_run s) (wrap 32 (rf_records s + 1)).

Lemma maybe_sync_step head scratch cap batch r s :
  recording head scratch cap batch r s -> m_head (m_ring r) + 14 < 2 ^ 64 ->
  exists r', maybe_sync r = Some r' /\ recording head scratch cap batch r' (synced cap s) /\
    m_head (m_ring r') <= m_head (m_ring r) + 14.
Proof.
  intros Hr Hm. unfold maybe_sync, synced. assert (zlen (frame sync_payload) <= 14) as Hf.
  { pose proof (frame_small sync_payload 4 ltac:(unfold zlen, sync_payload; rewrite length_be_bytes; lia)). lia. }
  rewrite (rg_records _ _ _ _ _ _ Hr). destruct (_ =? 0).
  - destruct (sync_marker_spec (m_writer r)) as (w & Hs & Hsc & Hax); [apply Hr|].
    cbn [m_writer with_records]. rewrite Hs. cbn [mbind option_bind].
    assert (recording head scratch cap batch (with_writer w (with_records (wrap 32 (rf_records s + 1)) r))
      (Reference (rf_emitted s) (rf_queued s) (rf_shed s) (rf_run s) (wrap 32 (rf_records s + 1)))) as Hr1.
    { destruct Hr. split; try done. cbn. congruence. }
    destruct (recording_push _ _ _ _ _ _ None Hr1) as (g & Hp & Hr2 & Hd); [done|cbn; lia|].
    cbn [item_payload m_ring with_writer with_records] in Hp, Hd |- *. rewrite Hp. cbn [mbind option_bind].
    eexists. split; [done|]. split; [exact Hr2|]. cbn [m_ring with_ring]. lia.
  - eexists. split; [done|]. split; [|cbn; lia]. by destruct Hr.
Qed.

Definition surfaced (cap now : Z) (s : reference) : reference :=
  let dr := DropoutRecord now (m_count (rf_run s)) (m_bytes (rf_run s)) (m_max_fidelity (rf_run s)) in
  Reference (rf_emitted s) (if pending (rf_run s) then enqueue cap (rf_queued s) (Some (EvDropout dr)) else rf_queued s)
    (rf_shed s) (if pending (rf_run s) then dropout_run_new else rf_run s) (rf_records s).

Lemma surface_dropout_step head scratch cap batch r s now :
  recording head scratch cap batch r s -> in_width 64 now -> m_head (m_ring r) + 44 < 2 ^ 64 ->
  exists r', surface_dropout now r = Some r' /\ recording head scratch cap batch r' (surfaced cap now s) /\
    m_head (m_ring r') <= m_head (m_ring r) + 44.
Proof.
  intros Hr Hnow Hm. unfold surface_dropout, surfaced. rewrite (rg_run _ _ _ _ _ _ Hr).
  set (dr := DropoutRecord _ _ _ _). destruct (pending (rf_run s)); cbn [negb].
  2:{ exists r. split; [done|]. split; [by destruct Hr|lia]. }
  cbn [harvest]. fold dr. destruct (dropout_spec dr (m_writer r)) as (w & Hs & Hsc & Hax); [apply Hr|]. rewrite Hs. cbn [mbind option_bind].
  assert (zlen (sealed (dropout_fields dr)) <= 34) as Hl.
  { pose proof (layout_dropout dr). unfold zlen. rewrite length_sealed. lia. }
  pose proof (frame_small _ _ Hl) as Hf.
  assert (recording head scratch cap batch (with_writer w (with_dropouts (DropoutRun 0 0 0) r))
    (Reference (rf_emitted s) (rf_queued s) (rf_shed s) dropout_run_new (rf_records s))) as Hr1.
  { destruct Hr. split; try done. cbn. congruence. }
  assert (wf_item (Some (EvDropout dr))) as Hwf.
  { destruct (rg_dropouts _ _ _ _ _ _ Hr) as (H1 & H2 & H3). cbn. split_and!; try done. destruct H1. split; [done|]. eapply Z.lt_trans; [done|reflexivity]. }
  destruct (recording_push _ _ _ _ _ _ (Some (EvDropout dr)) Hr1 Hwf) as (g & Hp & Hr2 & Hd); [cbn [item_payload fields_of m_ring with_writer with_dropouts]; lia|].
  cbn [item_payload fields_of m_ring with_writer with_dropouts] in Hp, Hd. rewrite Hp. cbn [mbind option_bind].
  eexists. split; [done|]. split; [exact Hr2|]. cbn [m_ring with_ring]. lia.
Qed.

Lemma shed_width d n f : in_width 8 f -> in_width 8 (m_max_fidelity d) ->
  in_width 32 (m_count (shed n f d)) /\ in_width 64 (m_bytes (shed n f d)) /\ in_width 8 (m_max_fidelity (shed n f d)).
Proof. intros. cbn. split_and!; [apply wrap_range; lia|apply wrap_range; lia|by case_match]. Qed.

Lemma reference_record_steps cap ev now s :
  let s' := surfaced cap now (synced cap s) in
  reference_record cap ev now s =
    if fits_queue cap (rf_queued s') (Some ev)
    then with_queue (enqueue cap (rf_queued s') (Some ev)) s'
    else Reference (rf_emitted s') (rf_queued s') (rf_shed s' ++ [ev]) (shed (would_be_bytes ev) (fidelity_of ev) (rf_run s')) (rf_records s').
Proof.
  cbv zeta. unfold reference_record, surfaced, synced, with_queue. cbn.
  match goal with |- context [fits_queue cap ?q (Some ev)] => generalize q end. intros q. unfold enqueue. by case_match.
Qed.

Lemma fidelity_width ev : wf_event ev -> in_width 8 (fidelity_of ev).
Proof. destruct ev; intros H; try done. by destruct H as (_ & _ & _ & _ & _ & _ & ? & _). Qed.

Lemma admit_record_step head scratch cap batch r s ev now :
  recording head scratch cap batch r s -> wf_event ev -> in_width 64 now ->
  m_head (m_ring r) + zlen (frame (sealed (fields_of ev))) + 64 < 2 ^ 64 ->
  exists r', admit_record (sealed (fields_of ev)) (would_be_bytes ev) (fidelity_of ev) now r = Some r' /\
    recording head scratch cap batch r' (reference_record cap ev now s) /\
    m_head (m_ring r') <= m_head (m_ring r) + zlen (frame (sealed (fields_of ev))) + 64.
Proof.
  intros Hr Hwf Hnow Hm. pose proof (frame_pos (sealed (fields_of ev))). rewrite reference_record_steps. unfold admit_record.
  destruct (maybe_sync_step _ _ _ _ _ _ Hr) as (r1 & -> & Hr1 & Hd1); [lia|]. cbn [mbind option_bind].
  destruct (surface_dropout_step _ _ _ _ _ _ now Hr1 Hnow) as (r2 & -> & Hr2 & Hd2); [lia|]. cbn [mbind option_bind].
  set (s' := surfaced cap now (synced cap s)) in *.
  destruct (recording_push _ _ _ _ _ _ (Some ev) Hr2 Hwf) as (g & Hp & Hr3 & Hd3); [cbn [item_payload]; lia|].
  cbn [item_payload] in Hp, Hd3. rewrite Hp. cbn [mbind option_bind].
  destruct (fits_queue cap (rf_queued s') (Some ev)) eqn:Hfit; (eexists; split; [done|]; split; [|cbn; lia]); [exact Hr3|].
  unfold enqueue in Hr3. rewrite Hfit in Hr3. destruct Hr3 as [? ? ? ? ? ? ? ? ? Hrun ? (? & ? & ?)].
  split; try done; cbn in *; [by rewrite Hrun|]. apply shed_width; [by apply fidelity_width|done].
Qed.

(** Every call of the recorder encodes its event and admits it. *)
Lemma do_record_encodes ev now r : is_dropout ev = false ->
  do_record ev now r =
    ('(rec, w) ← encode (fields_of ev) (m_writer r);
     admit_record rec (match ev with EvSample _ _ _ _ _ _ | EvWire _ _ _ _ _ => would_be_bytes ev | _ => zlen rec end) (fidelity_of ev) now (with_writer w r)).
Proof. by destruct ev. Qed.

Lemma encode_spec fs w scratch : length (m_scratch w) = scratch -> (length (layout fs) + 4 <= scratch)%nat ->
  exists w', encode fs w = Some (sealed fs, w') /\ length (m_scratch w') = scratch /\ m_aux w' = m_aux w.
Proof.
  intros Hs Hl. unfold encode. destruct (encode_in_spec (m_scratch w) fs) as (buf & -> & Hb); [lia|]. cbn [mbind option_bind].
  eexists. split; [done|]. split; [cbn; congruence|done].
Qed.

(** The oldest items of the ring go to the sink. *)
Lemma drain_spec_items budget queued :
  drain_spec budget (map item_payload queued) =
    (map item_payload (split_batch budget queued).1, map item_payload (split_batch budget queued).2).
Proof.
  revert budget. induction queued as [|i queued IH]; intros budget; cbn [map drain_spec split_batch]; [done|].
  destruct (0 <? budget); [|done]. rewrite IH. by destruct (split_batch _ queued).
Qed.

Lemma split_batch_app budget queued : (split_batch budget queued).1 ++ (split_batch budget queued).2 = queued.
Proof.
  revert budget. induction queued as [|i queued IH]; intros budget; cbn [split_batch]; [done|].
  destruct (0 <? budget); [|done]. specialize (IH (budget - zlen (frame (item_payload i)))).
  destruct (split_batch _ queued). cbn in *. by rewrite IH.
Qed.

Lemma recorder_step_spec head scratch cap batch op r s :
  recording head scratch cap batch r s -> op_ok scratch op -> m_head (m_ring r) + op_cost op < 2 ^ 64 ->
  exists r', recorder_step op r = Some r' /\ recording head scratch cap batch r' (reference_step cap batch op s) /\
    m_head (m_ring r') <= m_head (m_ring r) + op_cost op.
Proof.
  intros Hr Hok Hm. destruct op as [ev now|]; cbn [recorder_step reference_step op_ok op_cost] in *.
  - destruct Hok as (Hev & Hwf & Hnow & Hl). rewrite do_record_encodes by done.
    destruct (encode_spec (fields_of ev) (m_writer r) scratch) as (w & -> & Hsc & Hax); [apply Hr|done|]. cbn [mbind option_bind].
    assert (recording head scratch cap batch (with_writer w r) s) as Hr1 by (destruct Hr; split; try done; cbn; congruence).
    destruct (admit_record_step _ _ _ _ _ _ ev now Hr1) as (r' & Hx & Hr' & Hd); [done|done|cbn [m_ring with_writer]; lia|].
    exists r'. split; [|split; [done|cbn [m_ring with_writer] in Hd; lia]]. rewrite <- Hx. by destruct ev.
  - unfold pump. destruct Hr as [Hsink Hring Hcap Hpol Hb Hem Hq Hsc Hax Hrun Hrec Hdr].
    destruct (drain_refines _ _ (m_drain_batch r) Hring) as (out & g & -> & Hout & Hh & Hst & Hp & Hd). cbn [mbind option_bind].
    rewrite drain_spec_items, Hb in *. pose proof (split_batch_app batch (rf_queued s)) as Happ.
    destruct (split_batch batch (rf_queued s)) as [done_ left_]. cbn [fst snd] in *.
    rewrite <- Happ in Hq. apply Forall_app in Hq as [Hq1 Hq2].
    exists (with_sink (m_sink r ++ concat out) (with_ring g r)). split; [done|]. split; [|cbn; rewrite Hd; lia].
    split; try done; cbn.
    + rewrite Hsink, Hout, map_app. unfold frames. by rewrite map_app, concat_app, app_assoc.
    + unfold capacity in *. congruence.
    + congruence.
    + by apply Forall_app.
Qed.

Lemma op_cost_nonneg ops : 0 <= run_cost ops.
Proof.
  induction ops as [| [ev now|] ops IH]; cbn; [done| |done]. pose proof (zlen_nonneg (frame (sealed (fields_of ev)))).
  unfold run_cost in IH. lia.
Qed.

Lemma recorder_run_spec head scratch cap batch ops : forall r s,
  recording head scratch cap batch r s -> Forall (op_ok scratch) ops -> m_head (m_ring r) + run_cost ops < 2 ^ 64 ->
  exists r', recorder_run ops r = Some r' /\ recording head scratch cap batch r' (reference_run cap batch ops s).
Proof.
  induction ops as [|op ops IH]; intros r s Hr Hok Hm; [by exists r|].
  inversion Hok; subst. change (run_cost (op :: ops)) with (op_cost op + run_cost ops) in Hm. pose proof (op_cost_nonneg ops).
  destruct (recorder_step_spec _ _ _ _ op _ _ Hr) as (r1 & Hx1 & Hr1 & Hd1); [done|lia|].
  destruct (IH r1 _ Hr1) as (r' & Hx2 & Hr'); [done|lia|].
  exists r'. cbn [recorder_run]. rewrite Hx1. cbn [mbind option_bind]. done.
Qed.

(** Every event given to the recorder is in the sink, in the ring or was refused. *)
Definition accounted (evs : list record_event) (s : reference) : Prop :=
  own_events (rf_emitted s ++ rf_queued s) ++ rf_shed s ≡ₚ evs /\
  sublist (own_events (rf_emitted s ++ rf_queued s)) evs /\ sublist (rf_shed s) evs.

Lemma own_events_snoc q (ev : record_event) : is_dropout ev = false -> own_events (q ++ [Some ev]) = own_events q ++ [ev].
Proof. intros H. rewrite own_events_app. f_equal. unfold own_events. cbn. by rewrite H. Qed.

Lemma own_events_enqueue_own cap q i :
  own_events [i] = [] -> own_events (enqueue cap q i) = own_events q.
Proof. intros H. unfold enqueue. case_match; [|done]. by rewrite own_events_app, H, app_nil_r. Qed.

Lemma reference_step_accounted cap batch op s evs :
  (forall ev now, op = Record_ ev now -> is_dropout ev = false) ->
  accounted evs s -> accounted (evs ++ op_events op) (reference_step cap batch op s).
Proof.
  intros Hop (Hp & Hs & Hd). unfold accounted in *. rewrite own_events_app in *. destruct op as [ev now|]; cbn [reference_step op_events].
  - specialize (Hop _ _ eq_refl). rewrite reference_record_steps. set (s' := surfaced cap now (synced cap s)).
    assert (own_events (rf_queued s') = own_events (rf_queued s)) as Hq.
    { unfold s', surfaced, synced. cbn [rf_queued rf_run rf_records]. repeat case_match; rewrite ?own_events_enqueue_own; done. }
    change (rf_emitted s) with (rf_emitted s') in *. change (rf_shed s) with (rf_shed s') in *. rewrite <- Hq in *.
    destruct (fits_queue cap (rf_queued s') (Some ev)) eqn:Hf; cbn [rf_emitted rf_queued rf_shed with_queue]; rewrite ?own_events_app.
    + unfold enqueue. rewrite Hf, own_events_snoc by done. split_and!.
      * rewrite <- Hp. rewrite <- !app_assoc. do 2 f_equiv. apply Permutation_app_comm.
      * rewrite app_assoc. by apply sublist_app.
      * by apply sublist_inserts_r.
    + split_and!.
      * rewrite app_assoc. by rewrite Hp.
      * by apply sublist_inserts_r.
      * by apply sublist_app.
  - rewrite app_nil_r. pose proof (split_batch_app batch (rf_queued s)) as Happ. destruct (split_batch batch (rf_queued s)) as [o l].
    cbn [fst snd rf_emitted rf_queued rf_shed] in *. rewrite <- Happ in Hp, Hs. rewrite !own_events_app in *. by rewrite <- !app_assoc in *.
Qed.

Lemma reference_run_accounted cap batch scratch ops : forall s evs,
  Forall (op_ok scratch) ops -> accounted evs s -> accounted (evs ++ concat (map op_events ops)) (reference_run cap batch ops s).
Proof.
  induction ops as [|op ops IH]; intros s evs Hok Ha; [by rewrite app_nil_r|].
  inversion Hok as [|? ? H1 H2]; subst. cbn [map concat]. rewrite app_assoc. apply (IH (reference_step cap batch op s)); [done|].
  apply reference_step_accounted; [|done]. intros ev now ->. apply H1.
Qed.

(** The emitted records decode, whatever head precedes them. *)
Lemma recover_emitted head em : Forall wf_item em -> zlen (head ++ frames (map item_payload em)) + 1 < 2 ^ 64 ->
  recover (head ++ frames (map item_payload em)) (length head) =
    Done (map decoded_of (events_of em), RecoveryResult true (zlen (events_of em)) false false).
Proof.
  intros Hem Hsz. unfold recover.
  assert (length em <= length (frames (map item_payload em)))%nat as Hfuel.
  { rewrite <- (length_map item_payload em) at 1. apply length_frames. }
  assert (zlen (events_of em) <= zlen em) as Hev.
  { unfold events_of, zlen. clear. induction em as [| [?|] em IH]; cbn [omap list_omap id length] in *; lia. }
  pose proof (recover_items em (S (length (head ++ frames (map item_payload em)))) head [] (RecoveryResult true 0 false false) [])
    as Hri. rewrite !app_nil_r in Hri. rewrite Hri; [|lia|done|split; [cbn; lia|reflexivity]|rewrite length_app; lia].
  set (fuel := (S (length _) - length em)%nat).
  assert (exists f, fuel = S f) as [f ->] by (exists (pred fuel); unfold fuel; rewrite !length_app; lia).
  cbn [recover_loop]. rewrite decide_False by lia. rewrite app_nil_l. unfold counted.
  cbn [header_ok recovered trailing_partial_dropped corruption_skipped]. rewrite Z.add_0_l, wrap_small; [done|].
  rewrite zlen_app in Hsz. unfold in_width, zlen in *. lia.
Qed.

(** ** What a recording guarantees *)

(** C16: The recorder is the reference recorder: whatever is recorded and pumped, in any
    order, the sink holds the stream head and then exactly the records the reference
    emits, the ring exactly those it still queues, and every event given to a record
    call is in the sink, in the ring or was refused because the ring had no room for it,
    none twice and the accepted ones in order.  The sink reads back: the definitions given to [open],
    then whole records, none corrupt and none cut, that decode to the emitted events.
    Assumed: fields of their C widths, a head and records that fit the writer's scratch
    ([op_ok]; [large_sample_overruns_the_scratch] is the other case), a ring that is not
    empty and below 2^63 bytes, fewer than 2^64 bytes recorded in all.  A dropout
    record is a record like any other: it is lost when the ring refuses it
    ([dropout_count_lost_in_a_full_ring]). *)
Theorem recording_reads_back clock node rule schema crypto ring_bytes batch scratch ops
    (Hclock : in_width 64 clock) (Hnode : length node = 16%nat) (Hrule : wf_rule rule)
    (Hschema : Forall wf_entry schema) (Hn : in_width 64 (zlen schema)) (Hcrypto : in_width 8 crypto)
    (Hhead : (length (layout (begin_stream_fields clock node rule schema crypto)) <= scratch)%nat)
    (Hring : (0 < ring_bytes)%nat) (Hcap : Z.of_nat ring_bytes < 2 ^ 63)
    (Hops : Forall (op_ok scratch) ops) (Hcost : run_cost ops < 2 ^ 64) :
  let head := layout (begin_stream_fields clock node rule schema crypto) in
  let s := reference_run (Z.of_nat ring_bytes) batch ops reference_new in
  accounted (concat (map op_events ops)) s /\
  exists r0 r, open clock node rule schema crypto (flat_recorder_new ring_bytes batch scratch) = Some r0 /\
    recorder_run ops r0 = Some r /\ preamble r0 = head /\
    m_sink r = head ++ frames (map item_payload (rf_emitted s)) /\ holds (m_ring r) (map item_payload (rf_queued s)) /\
    m_dropouts r = rf_run s /\
    (zlen (m_sink r) + 1 < 2 ^ 64 ->
     read_definitions (m_sink r) = Some (Some (StreamDefinitions clock node rule (map definition_of schema) crypto, length head)) /\
     recover (m_sink r) (length head) =
       Done (map decoded_of (events_of (rf_emitted s)), RecoveryResult true (zlen (events_of (rf_emitted s))) false false)).
Proof.
  intros head s. split; [by apply (reference_run_accounted _ _ scratch ops reference_new [])|].
  unfold open, begin_stream. cbn [flat_recorder_new m_writer record_stream_writer_new m_scratch].
  rewrite writer_of_wr, puts_wr by (unfold zero_bytes; rewrite length_replicate; exact Hhead).
  cbn [mbind option_bind app wr m_region w_offset]. rewrite take_app_length. fold head.
  set (r0 := FlatRecorder _ _ _ _ _ _ _).
  assert (recording head scratch (Z.of_nat ring_bytes) batch r0 reference_new) as Hr0.
  { unfold r0. split; cbn [m_sink m_ring m_writer m_dropouts m_scratch m_aux]; try done.
    - cbn. by rewrite app_nil_r.
    - apply byte_ring_holds_new; [done|done].
    - unfold capacity, byte_ring_new, zlen. cbn. unfold zero_bytes. by rewrite length_replicate.
    - rewrite length_app, length_drop. unfold zero_bytes. rewrite length_replicate. fold head in Hhead. lia. }
  destruct (recorder_run_spec head scratch _ _ ops r0 _ Hr0 Hops Hcost) as (r & Hrun & Hr). fold s in Hr.
  exists r0, r. destruct Hr as [Hsink Hh _ _ _ Hem _ _ _ Hdr _ _]. split_and!; try done.
  intros Hsz. rewrite Hsink in *. split; [by apply read_definitions_head|]. by apply recover_emitted.
Qed.

(** A sample larger than the writer's scratch is encoded out of bounds: nothing
    compares its size with the scratch the constructor made. *)
Theorem large_sample_overruns_the_scratch ts now th info id present fid payload r
    (Hl : (length (m_scratch (m_writer r)) <= length payload)%nat) :
  record_sample ts now th info id present fid payload r = None.
Proof.
  unfold record_sample, sample, encode. rewrite encode_in_overrun; [done|].
  unfold sample_fields. rewrite !layout_cons, !length_app. cbn [bytes_of]. lia.
Qed.

(** A dropout record that finds the ring still full takes the count of the shed
    records with it: they are counted nowhere afterwards. *)
Theorem dropout_count_lost_in_a_full_ring now r rs
    (Hring : holds (m_ring r) rs) (Hpol : m_policy (m_ring r) = drop_newest)
    (Haux : length (m_aux (m_writer r)) = 256%nat) (Hpend : pending (m_dropouts r) = true)
    (Hroom : m_head (m_ring r) + 64 < 2 ^ 64) (Hfull : used (m_ring r) = capacity (m_ring r)) :
  exists r', surface_dropout now r = Some r' /\ m_ring r' = m_ring r /\ pending (m_dropouts r') = false.
Proof.
  unfold surface_dropout. rewrite Hpend. cbn [negb harvest].
  set (dr := DropoutRecord now (m_count (m_dropouts r)) (m_bytes (m_dropouts r)) (m_max_fidelity (m_dropouts r))).
  destruct (dropout_spec dr (m_writer r) Haux) as (w & -> & _ & _). cbn [mbind option_bind].
  pose proof (length_varint (zlen (sealed (dropout_fields dr)))) as Hv. unfold try_push.
  rewrite writer_of_wr, (writer_varint_wr [] (replicate 10 (byte.of_Z 0))) by (rewrite length_replicate; lia).
  cbn [mbind option_bind wr w_offset app m_region]. rewrite Hpol, Hfull, Z.sub_diag.
  pose proof (zlen_nonneg (sealed (dropout_fields dr))). destruct (_ <? _); [eexists; split; [done|done]|].
  destruct (Z.ltb_spec 0 (Z.of_nat (length (varint (zlen (sealed (dropout_fields dr))))) + zlen (sealed (dropout_fields dr)))); [|lia].
  eexists. split; [done|done].
Qed.

End Recorder.

Definition sample_ops : list recorder_op :=
  [Record_ (EvDrop 5 (DropNote 2 1 77 3)) 5; Pump; Record_ (EvSample 6 77 (SampleInfo 1 2 3) (Some 9) 2 [byte.of_Z 1; byte.of_Z 2]) 6;
   Record_ (EvParticipant 7 (ParticipantEvent 0 (zero_bytes 16))) 8; Pump; Record_ (EvDrop 9 (DropNote 2 1 77 3)) 10].

Lemma recording_reads_back_witness :
  let s := reference_run 80 100 sample_ops reference_new in
  (length (own_events (rf_emitted s)), length (own_events (rf_queued s)), length (rf_shed s)) = (2, 1, 1)%nat /\
  exists r0 r, open (host := little) 1 (zero_bytes 16) (StreamRule 2 0 1 0) [] 0 (flat_recorder_new 80 100 128) = Some r0 /\
    recorder_run (host := little) sample_ops r0 = Some r /\ holds (m_ring r) (map item_payload (rf_queued s)).
Proof.
  intros s. split; [vm_compute; reflexivity|].
  destruct (recording_reads_back (host := little) 1 (zero_bytes 16) (StreamRule 2 0 1 0) [] 0 80 100 128 sample_ops)
    as (_ & r0 & r & H1 & H2 & _ & _ & H3 & _).
  - split; [lia|reflexivity].
  - reflexivity.
  - split_and!; (split; [cbn; lia|reflexivity]).
  - constructor.
  - split; [unfold zlen; simpl; lia|reflexivity].
  - split; [lia|reflexivity].
  - vm_compute. lia.
  - lia.
  - reflexivity.
  - repeat constructor; try (vm_compute; congruence); (vm_compute; lia).
  - vm_compute. reflexivity.
  - exists r0, r. split; [exact H1|]. split; [exact H2|exact H3].
Defined.

End Recorder.
