(* ===== verification/PreBuffer.v ===== *)
(** * The pre-buffer recorder, the record-rate gate and the recording sink

    Models [pre_buffer_controller.h], [record_rate_gate.h] and [recording_sink.h] of
    [lib/plexus-core/include/plexus/io/recording/].  The predicate of [on_anomaly] and
    the resolvers of the sink are functions without state; a [max_hz] rule is a double,
    which is a parameter with the two things the gate computes of it. *)

From Stdlib Require Import Sorted.
From S2P Require Import Prelude ByteOrder Varint Cursor Hash Frame RecordRing RecordStream Recorder.

Module PreBuffer.
Import Ring RecordStream.

Record record_envelope : Type := RecordEnvelope {
  en_category : Z; en_capture_ts : Z; en_topic_hash : Z; en_cause : Z; en_verdict : Z;
}.

Section Controller.
Context {host : Host}.

(** ** [class pre_buffer_controller] *)

Record pre_buffer_controller : Type := PreBufferController {
  m_sink : bytes;
  m_writer : record_stream_writer;
  m_ring : byte_ring;
  m_pred : option (record_envelope -> bool);
  m_drain_batch : Z;
  m_newest_ts : Z;
  m_oldest_ts : Z;
  m_span : Z;
  m_frozen_tail : Z;
  m_frozen_head : Z;
  m_frozen : bool;
}.

Definition pre_buffer_controller_new (ring_bytes : nat) (drain_batch_bytes : Z) : pre_buffer_controller :=
  PreBufferController [] (record_stream_writer_new (64 * 1024)) (byte_ring_new ring_bytes drop_oldest) None drain_batch_bytes
    0 0 0 0 0 false.

Definition on_anomaly (pred : record_envelope -> bool) (c : pre_buffer_controller) : pre_buffer_controller :=
  PreBufferController (m_sink c) (m_writer c) (m_ring c) (Some pred) (m_drain_batch c) (m_newest_ts c) (m_oldest_ts c)
    (m_span c) (m_frozen_tail c) (m_frozen_head c) (m_frozen c).

Definition with_writer (w : record_stream_writer) (c : pre_buffer_controller) : pre_buffer_controller :=
  PreBufferController (m_sink c) w (m_ring c) (m_pred c) (m_drain_batch c) (m_newest_ts c) (m_oldest_ts c)
    (m_span c) (m_frozen_tail c) (m_frozen_head c) (m_frozen c).

Definition with_ring (g : byte_ring) (c : pre_buffer_controller) : pre_buffer_controller :=
  PreBufferController (m_sink c) (m_writer c) g (m_pred c) (m_drain_batch c) (m_newest_ts c) (m_oldest_ts c)
    (m_span c) (m_frozen_tail c) (m_frozen_head c) (m_frozen c).

Definition with_newest (ts : Z) (c : pre_buffer_controller) : pre_buffer_controller :=
  PreBufferController (m_sink c) (m_writer c) (m_ring c) (m_pred c) (m_drain_batch c) ts (m_oldest_ts c)
    (m_span c) (m_frozen_tail c) (m_frozen_head c) (m_frozen c).

Definition with_sink (s : bytes) (c : pre_buffer_controller) : pre_buffer_controller :=
  PreBufferController s (m_writer c) (m_ring c) (m_pred c) (m_drain_batch c) (m_newest_ts c) (m_oldest_ts c)
    (m_span c) (m_frozen_tail c) (m_frozen_head c) (m_frozen c).

Definition thaw (c : pre_buffer_controller) : pre_buffer_controller :=
  PreBufferController (m_sink c) (m_writer c) (m_ring c) (m_pred c) (m_drain_batch c) (m_newest_ts c) (m_oldest_ts c)
    (m_span c) (m_frozen_tail c) (m_frozen_head c) false.

Definition read_oldest_ts (c : pre_buffer_controller) (from to : Z) : option Z :=
  if to <=? from then Some (m_newest_ts c) else
  let n := Z.to_nat (Z.min 24 (wrap 64 (to - from))) in
  head ← mapM (fun i => at_pos (m_ring c) (wrap 64 (from + Z.of_nat i))) (seq 0 n);
  match read_varint head 0 with
  | (None, _) => Some (m_newest_ts c)
  | (Some _, off) =>
      if decide (n < off + 1 + 8)%nat then Some (m_newest_ts c) else
      Some (reader_u64 (reader_of (take 8 (drop (off + 1) head)))).1
  end.

Definition trigger (c : pre_buffer_controller) : option pre_buffer_controller :=
  let tail := m_tail (m_ring c) in
  let head := m_head (m_ring c) in
  oldest ← read_oldest_ts c tail head;
  Some (PreBufferController (m_sink c) (m_writer c) (m_ring c) (m_pred c) (m_drain_batch c) (m_newest_ts c) oldest
          (if oldest <=? m_newest_ts c then m_newest_ts c - oldest else 0) tail head true).

Definition captured_span (c : pre_buffer_controller) : Z := m_span c.
Definition frozen (c : pre_buffer_controller) : bool := m_frozen c.

Definition admit_record (record : bytes) (ts : Z) (env : record_envelope) (c : pre_buffer_controller) : option pre_buffer_controller :=
  let c := with_newest ts c in
  '(_, g) ← try_push record (m_ring c);
  let c := with_ring g c in
  match m_pred c with
  | Some pred => if pred env then trigger c else Some c
  | None => Some c
  end.

Definition record_sample (ts topic_hash : Z) (info : sample_info) (type_id : Z) (type_id_present : bool) (fidelity : Z)
    (payload : bytes) (c : pre_buffer_controller) : option pre_buffer_controller :=
  '(rec, w) ← sample ts topic_hash info type_id type_id_present fidelity payload (m_writer c);
  admit_record rec ts (RecordEnvelope cat_sample ts topic_hash 0 0) (with_writer w c).

Definition record_drop (ts : Z) (e : drop_note) (c : pre_buffer_controller) : option pre_buffer_controller :=
  '(rec, w) ← drop_record ts e (m_writer c);
  admit_record rec ts (RecordEnvelope cat_drop ts (dn_topic_hash e) (dn_cause e) 0) (with_writer w c).

Definition record_qos_change (ts : Z) (e : qos_change_event) (c : pre_buffer_controller) : option pre_buffer_controller :=
  '(rec, w) ← qos_change ts e (m_writer c);
  admit_record rec ts (RecordEnvelope cat_qos_change ts (qc_topic_hash e) 0 (qc_verdict e)) (with_writer w c).

Definition record_participant (ts : Z) (e : participant_event) (c : pre_buffer_controller) : option pre_buffer_controller :=
  '(rec, w) ← participant ts e (m_writer c);
  admit_record rec ts (RecordEnvelope cat_participant ts 0 0 0) (with_writer w c).

Definition record_endpoint (ts : Z) (fqn : bytes) (e : endpoint_event) (c : pre_buffer_controller) : option pre_buffer_controller :=
  '(rec, w) ← endpoint ts fqn e (m_writer c);
  admit_record rec ts (RecordEnvelope cat_endpoint ts (ep_topic_hash e) 0 0) (with_writer w c).

Definition record_security (ts : Z) (e : security_event) (c : pre_buffer_controller) : option pre_buffer_controller :=
  '(rec, w) ← security ts e (m_writer c);
  admit_record rec ts (RecordEnvelope cat_security ts 0 0 0) (with_writer w c).

Definition record_wire (ts dir seq : Z) (peer data : bytes) (c : pre_buffer_controller) : option pre_buffer_controller :=
  '(rec, w) ← wire_frame ts dir seq peer data (m_writer c);
  admit_record rec ts (RecordEnvelope cat_wire_frame ts 0 0 0) (with_writer w c).

Definition pump (c : pre_buffer_controller) : option (bool * pre_buffer_controller) :=
  if negb (m_frozen c) then Some (false, c) else
  '(more, out, g) ← drain_window (m_frozen_head c) (m_drain_batch c) (m_ring c);
  let c := with_sink (m_sink c ++ concat out) (with_ring g c) in
  if (more : bool) then Some (true, c) else Some (false, thaw c).

(** Pump until the window is exhausted. *)
Fixpoint pump_all (fuel : nat) (c : pre_buffer_controller) : option pre_buffer_controller :=
  match fuel with
  | O => None
  | S fuel => '(more, c) ← pump c; if (more : bool) then pump_all fuel c else Some c
  end.

(** ** The frozen window *)

(** Below the frozen head nothing but the records that were there is drained. *)
Lemma drain_window_spec_old old new budget :
  exists done_ left_, old = done_ ++ left_ /\
    drain_window_spec (zlen (frames old)) budget (old ++ new) = (done_, left_ ++ new) /\
    (0 < budget -> old <> [] -> done_ <> []).
Proof.
  revert budget. induction old as [|r old IH]; intros budget.
  - exists [], []. split; [done|]. cbn [app]. split; [|done]. destruct new as [|r new]; [done|]. cbn [drain_window_spec].
    pose proof (frame_pos r). destruct (Z.leb_spec (zlen (frame r)) (zlen (frames []))) as [Hx|]; [unfold zlen at 2 in Hx; simpl in Hx; lia|].
    by rewrite andb_false_r.
  - cbn [app drain_window_spec]. destruct (Z.ltb_spec 0 budget); cbn [andb]; [|exists [], (r :: old); split_and!; (done || lia)].
    rewrite frames_cons, zlen_app. pose proof (zlen_nonneg (frames old)).
    destruct (Z.leb_spec (zlen (frame r)) (zlen (frame r) + zlen (frames old))); [|lia].
    replace (zlen (frame r) + zlen (frames old) - zlen (frame r)) with (zlen (frames old)) by lia.
    destruct (IH (budget - zlen (frame r))) as (d & l & -> & -> & _). by exists (r :: d), l.
Qed.

(** [old] is what is left below the frozen head, [new] was recorded since. *)
Record window (c : pre_buffer_controller) (old new : list bytes) : Prop := Window {
  w_ring : holds (m_ring c) (old ++ new);
  w_frozen : m_frozen c = true;
  w_head : m_frozen_head c = m_tail (m_ring c) + zlen (frames old) \/ old = [] /\ m_frozen_head c <= m_tail (m_ring c);
}.

Lemma frames_app l l' : frames (l ++ l') = frames l ++ frames l'.
Proof. unfold frames. by rewrite map_app, concat_app. Qed.

Lemma pump_window c old new : window c old new -> 0 < m_drain_batch c ->
  exists done_ left_ more c', old = done_ ++ left_ /\ (old <> [] -> done_ <> []) /\
    pump c = Some (more, c') /\ m_sink c' = m_sink c ++ frames done_ /\ m_drain_batch c' = m_drain_batch c /\
    more = negb (bool_decide (left_ = [])) /\ holds (m_ring c') (left_ ++ new) /\
    (more = true -> window c' left_ new) /\ (more = false -> m_frozen c' = false).
Proof.
  intros [Hh Hf [Hhd|[-> Hhd] ] ] Hb; unfold pump; rewrite Hf; cbn [negb].
  2:{ destruct (drain_window_refines (m_ring c) new (m_frozen_head c) (m_drain_batch c) Hh)
        as (more & out & g & -> & Hout & Hg & Hmore & Hst & Hp & Hd).
      assert (drain_window_spec (m_frozen_head c - m_tail (m_ring c)) (m_drain_batch c) new = ([], new)) as Hnone.
      { destruct new as [|x l]; [done|]. cbn [drain_window_spec]. pose proof (frame_pos x).
        destruct (Z.leb_spec (zlen (frame x)) (m_frozen_head c - m_tail (m_ring c))); [lia|]. by rewrite andb_false_r. }
      rewrite Hnone in *. cbn [fst snd] in *.
      assert (m_tail g = m_tail (m_ring c)) as Ht.
      { pose proof (h_head _ _ Hg). pose proof (h_head _ _ Hh). cbn [app] in *. lia. }
      assert (more = false) as -> by (rewrite Hmore; apply andb_false_iff; left; apply Z.ltb_ge; lia).
      cbn [mbind option_bind]. eexists [], [], _, _. split_and!; try done. cbn. by rewrite Hout. }
  destruct (drain_window_refines (m_ring c) (old ++ new) (m_frozen_head c) (m_drain_batch c) Hh)
    as (more & out & g & -> & Hout & Hg & Hmore & Hst & Hp & Hd).
  replace (m_frozen_head c - m_tail (m_ring c)) with (zlen (frames old)) in * by lia.
  destruct (drain_window_spec_old old new (m_drain_batch c)) as (done_ & left_ & -> & Hspec & Hne).
  rewrite Hspec in *. cbn [fst snd] in *.
  assert (m_tail g + zlen (frames (left_ ++ new)) = m_tail (m_ring c) + zlen (frames ((done_ ++ left_) ++ new))) as Htail.
  { rewrite <- (h_head _ _ Hg), <- (h_head _ _ Hh). done. }
  rewrite !frames_app, !zlen_app in *.
  assert (more = negb (bool_decide (left_ = []))) as Hm.
  { rewrite Hmore. case_bool_decide as E; case_bool_decide as E'; cbn [negb]; rewrite ?andb_false_r; try done.
    - apply app_eq_nil in E as [-> _]. done.
    - rewrite andb_true_r. apply Z.ltb_ge. rewrite Hhd, E' in *. change (zlen (frames [])) with 0 in *. lia.
    - rewrite andb_true_r. apply Z.ltb_lt. destruct left_ as [|x l]; [done|]. rewrite frames_cons, zlen_app in *.
      pose proof (frame_pos x). pose proof (zlen_nonneg (frames l)). lia. }
  exists done_, left_, more. rewrite Hm. cbn [mbind option_bind]. destruct (bool_decide (left_ = [])); cbn [negb];
    eexists; (split_and!; [done|auto|done|cbn; by rewrite Hout|done|done|done|..]); try done.
  intros _. split; cbn [m_ring m_frozen m_frozen_head with_sink with_ring]; [done|done|]. left. lia.
Qed.

Lemma pump_all_window fuel : forall c old new, window c old new -> 0 < m_drain_batch c -> (length old < fuel)%nat ->
  exists c', pump_all fuel c = Some c' /\ m_sink c' = m_sink c ++ frames old /\ m_frozen c' = false /\ holds (m_ring c') new.
Proof.
  induction fuel as [|fuel IH]; intros c old new Hw Hb Hf; [lia|]. cbn [pump_all].
  destruct (pump_window c old new Hw Hb) as (done_ & left_ & more & c1 & -> & Hne & -> & Hs & Hb' & Hm & Hh & Hw1 & Hw2).
  cbn [mbind option_bind]. destruct more.
  - destruct (IH c1 left_ new (Hw1 eq_refl)) as (c' & -> & Hs' & Hf' & Hh'); [lia| |].
    { rewrite length_app in Hf. destruct done_; [|simpl in *; lia]. destruct left_; [done|]. by destruct (Hne ltac:(done)). }
    exists c'. split; [done|]. split; [|done]. by rewrite Hs', Hs, frames_app, app_assoc.
  - exists c1. symmetry in Hm. apply negb_false_iff, bool_decide_eq_true in Hm as ->. rewrite app_nil_r. split; [done|]. split; [done|].
    split; [by apply Hw2|done].
Qed.

(** A record whose body starts with a category byte and a timestamp. *)
Definition stamped (ts : Z) (record : bytes) : Prop :=
  exists b rest, record = b :: be_bytes 8 ts ++ rest.

Lemma read_oldest_ts_spec c ts record rs :
  holds (m_ring c) (record :: rs) -> stamped ts record -> in_width 64 ts ->
  read_oldest_ts c (m_tail (m_ring c)) (m_head (m_ring c)) = Some ts.
Proof.
  intros Hh (b & rest & Hrec) Hts. pose proof (used_holds _ _ Hh) as Hu. destruct Hh as [Hc Ht Hhd Hmax Hfit Hb].
  rewrite frames_cons, zlen_app in *. pose proof (frame_pos record). pose proof (zlen_nonneg (frames rs)). pose proof (zlen_nonneg record).
  unfold read_oldest_ts. destruct (Z.leb_spec (m_head (m_ring c)) (m_tail (m_ring c))); [lia|].
  assert (wrap 64 (m_head (m_ring c) - m_tail (m_ring c)) = zlen (frame record) + zlen (frames rs)) as ->.
  { rewrite wrap_small by (unfold in_width; lia). lia. }
  set (n := Z.to_nat (Z.min 24 (zlen (frame record) + zlen (frames rs)))).
  assert (mapM (fun i => at_pos (m_ring c) (wrap 64 (m_tail (m_ring c) + Z.of_nat i))) (seq 0 n)
          = Some (take n (frame record ++ frames rs))) as ->.
  { apply mapM_Some. apply Forall2_same_length_lookup_2.
    { rewrite length_seq, length_take, length_app. unfold n, zlen in *. lia. }
    intros i j x Hi Hx. apply lookup_seq in Hi as [-> Hi]. cbn [Nat.add] in *. rewrite lookup_take_lt in Hx by done.
    assert (Z.of_nat i < zlen (frame record) + zlen (frames rs)) by (unfold n in Hi; lia).
    rewrite wrap_small by (unfold in_width; lia). rewrite at_pos_get by lia. by apply Hb. }
  cbn [mbind option_bind]. pose proof (length_varint (zlen record)) as Hv.
  assert (zlen record = 1 + 8 + zlen rest) as Hzr.
  { rewrite Hrec. unfold zlen. rewrite length_cons, length_app, length_be_bytes. lia. }
  assert (zlen (frame record) = zlen (varint (zlen record)) + zlen record) as Hzf by (unfold frame; by rewrite zlen_app).
  pose proof (zlen_nonneg rest).
  assert (length (varint (zlen record)) + 9 <= n)%nat as Hn by (unfold n, zlen in *; lia).
  unfold frame. rewrite <- app_assoc. rewrite take_app_ge by lia.
  match goal with |- context [read_varint (varint _ ++ ?x) _] =>
    change (read_varint (varint (zlen record) ++ x) 0) with (read_varint ([] ++ varint (zlen record) ++ x) (length (@nil byte))) end.
  rewrite read_varint_at by (pose proof (zlen_nonneg (varint (zlen record))); unfold in_width; lia). cbn [length Nat.add]. rewrite decide_False by lia.
  rewrite <- drop_drop, drop_app_length. rewrite Hrec at 2. cbn [app].
  destruct (n - length (varint (zlen record)))%nat as [|m] eqn:Em; [lia|]. cbn [take drop].
  rewrite <- app_assoc. rewrite take_app_ge by (rewrite length_be_bytes; lia). rewrite drop_0, (take_app_length' (be_bytes 8 ts)) by by rewrite length_be_bytes.
  rewrite reader_of_rd, <- (app_nil_r (be_bytes 8 ts)), reader_u64_rd by done. done.
Qed.

(** ** Recording on while the window is frozen *)

Lemma evict_spec_suffix cap need rs : exists k, evict_spec cap need rs = drop k rs.
Proof.
  induction rs as [|r rs IH]; cbn [evict_spec]; [by exists 0%nat|]. destruct (_ <? _); [|by exists 0%nat].
  destruct IH as [k ->]. by exists (S k).
Qed.

(** A push evicts from the old end, and then from what was recorded since. *)
Lemma window_push c old new record ts env :
  window c old new -> m_pred c = None -> m_policy (m_ring c) = drop_oldest -> zlen record < 2 ^ 63 ->
  m_head (m_ring c) + zlen (frame record) < 2 ^ 64 ->
  exists c' k new', admit_record record ts env c = Some c' /\ window c' (drop k old) new' /\
    m_pred c' = None /\ m_policy (m_ring c') = drop_oldest /\ m_sink c' = m_sink c /\ m_drain_batch c' = m_drain_batch c /\
    m_head (m_ring c') <= m_head (m_ring c) + zlen (frame record).
Proof.
  intros [Hh Hf Hhd] Hpred Hpol Hz Hm. unfold admit_record. cbn [m_ring with_newest].
  destruct (try_push_spec (m_ring c) (old ++ new) record Hh Hz Hm) as (g & -> & Hg & Hc & Hp & Hd). cbn [mbind option_bind].
  cbn [m_pred with_ring with_newest]. rewrite Hpred, Hpol in *. unfold push_spec in *. pose proof (zlen_nonneg (frame record)).
  destruct (capacity (m_ring c) <? zlen (frame record)); cbn [fst snd] in *.
  { eexists _, 0%nat, new. split; [done|]. rewrite drop_0. split; [|split_and!; (done || (cbn; lia))].
    split; [done|done|]. cbn. pose proof (h_head _ _ Hg). pose proof (h_head _ _ Hh). destruct Hhd as [?|[-> ?] ]; [left; lia|right; split; [done|lia] ]. }
  destruct (evict_spec_suffix (capacity (m_ring c)) (zlen (frame record)) (old ++ new)) as [k Hk]. rewrite Hk in *.
  pose proof (h_head _ _ Hg) as Hgh. pose proof (h_head _ _ Hh) as Hch. cbn [app] in *.
  exists (with_ring g (with_newest ts c)), k, (drop (k - length old) new ++ [record]). split; [done|].
  rewrite drop_app, <- app_assoc in Hg, Hgh.
  split; [|split_and!; (done || (cbn; lia))]. split; [done|done|]. cbn [m_frozen_head m_ring with_ring with_newest].
  assert (zlen (frames old) = zlen (frames (take k old)) + zlen (frames (drop k old))) as Hsplit.
  { rewrite <- zlen_app, <- frames_app. by rewrite take_drop. }
  assert (zlen (frames new) = zlen (frames (take (k - length old) new)) + zlen (frames (drop (k - length old) new))) as Hsplit'.
  { rewrite <- zlen_app, <- frames_app. by rewrite take_drop. }
  rewrite !frames_app, !zlen_app in *. rewrite frames_cons, zlen_app in *. change (zlen (frames [])) with 0 in *.
  pose proof (zlen_nonneg (frames (take k old))). pose proof (zlen_nonneg (frames (take (k - length old) new))).
  destruct (decide (k <= length old)%nat) as [Hle|Hgt].
  - replace (k - length old)%nat with 0%nat in * by lia. change (zlen (frames (take 0 new))) with 0 in *.
    destruct Hhd as [Hhd|[-> Hhd] ]; [left; lia|right]. split; [by destruct k|]. cbn in Hsplit. change (zlen (frames [])) with 0 in *.
    rewrite drop_nil, take_nil in *. change (zlen (frames [])) with 0 in *. lia.
  - right. rewrite (drop_ge old) in * by lia. split; [done|]. change (zlen (frames [])) with 0 in *.
    destruct Hhd as [Hhd|[-> Hhd] ]; [lia|]. change (zlen (frames [])) with 0 in *. lia.
Qed.

Fixpoint push_all (ps : list bytes) (ts : Z) (env : record_envelope) (c : pre_buffer_controller) : option pre_buffer_controller :=
  match ps with
  | [] => Some c
  | p :: ps => c ← admit_record p ts env c; push_all ps ts env c
  end.

Lemma window_push_all ps ts env : forall c old new,
  window c old new -> m_pred c = None -> m_policy (m_ring c) = drop_oldest -> Forall (fun p => zlen p < 2 ^ 63) ps ->
  m_head (m_ring c) + zlen (frames ps) < 2 ^ 64 ->
  exists c' k new', push_all ps ts env c = Some c' /\ window c' (drop k old) new' /\ m_sink c' = m_sink c /\
    m_drain_batch c' = m_drain_batch c.
Proof.
  induction ps as [|p ps IH]; intros c old new Hw Hpred Hpol Hps Hm.
  { exists c, 0%nat, new. by rewrite drop_0. }
  inversion Hps; subst. rewrite frames_cons, zlen_app in Hm. pose proof (zlen_nonneg (frames ps)).
  destruct (window_push c old new p ts env) as (c1 & k & new1 & Hx1 & Hw1 & Hpr1 & Hpl1 & Hs1 & Hb1 & Hd1); [done..|lia|].
  destruct (IH c1 _ _ Hw1 Hpr1 Hpl1) as (c2 & k' & new2 & H2' & Hw2 & Hs2 & Hb2); [done|lia|].
  exists c2, (k + k')%nat, new2. cbn [push_all]. rewrite Hx1. cbn [mbind option_bind]. rewrite drop_drop in Hw2.
  split_and!; [done|done|congruence|congruence].
Qed.

(** A trigger freezes what the ring holds: however much is recorded afterwards,
    pumping the window out hands the sink exactly the frozen records that are still
    resident, whole and oldest first, never one recorded after the freeze, and ends
    with the ring re-armed; the span is newest minus oldest timestamp. *)
Theorem frozen_window_drains_exactly c ts record rs later now env
    (Hh : holds (m_ring c) (record :: rs)) (Hts : in_width 64 ts) (Hst : stamped ts record) (Hle : ts <= m_newest_ts c)
    (Hpol : m_policy (m_ring c) = drop_oldest) (Hpred : m_pred c = None) (Hb : 0 < m_drain_batch c)
    (Hlater : Forall (fun p => zlen p < 2 ^ 63) later) (Hmax : m_head (m_ring c) + zlen (frames later) < 2 ^ 64) :
  exists c1 c2 c3 k, trigger c = Some c1 /\ captured_span c1 = m_newest_ts c - ts /\
    push_all later now env c1 = Some c2 /\ pump_all (S (S (length rs))) c2 = Some c3 /\
    m_sink c3 = m_sink c ++ frames (drop k (record :: rs)) /\ frozen c3 = false /\ (later = [] -> k = 0%nat).
Proof.
  unfold trigger. rewrite (read_oldest_ts_spec c ts record rs Hh Hst Hts). cbn [mbind option_bind].
  set (c1 := PreBufferController _ _ _ _ _ _ _ _ _ _ _).
  assert (window c1 (record :: rs) []) as Hw by (split; [by rewrite app_nil_r|done|left; apply Hh]).
  assert (exists c2 k new, push_all later now env c1 = Some c2 /\ window c2 (drop k (record :: rs)) new /\ m_sink c2 = m_sink c1 /\
    m_drain_batch c2 = m_drain_batch c1 /\ (later = [] -> k = 0%nat)) as (c2 & k & new & H2 & Hw2 & Hs2 & Hb2 & Hk).
  { destruct later as [|p later]; [by exists c1, 0%nat, []|].
    destruct (window_push_all (p :: later) now env c1 _ _ Hw) as (c2 & k & new & ? & ? & ? & ?); [done..|]. by exists c2, k, new. }
  destruct (pump_all_window (S (S (length rs))) c2 _ _ Hw2) as (c3 & H3 & Hs3 & Hf3 & _);
    [rewrite Hb2; done|rewrite length_drop; cbn; lia|].
  exists c1, c2, c3, k. split; [done|]. split; [cbn; destruct (Z.leb_spec ts (m_newest_ts c)); lia|]. split_and!; try done.
  rewrite Hs3, Hs2. done.
Qed.

End Controller.

(** ** [class record_rate_gate] *)

Section Gate.
Context (hz : Type) (non_positive : hz -> bool) (min_gap : hz -> Z).

Record record_rate_rule : Type := RecordRateRule { rr_max_hz : option hz; rr_every_nth : option Z; rr_enabled : bool }.

Record topic_state : Type := TopicState { seen : Z; last_ns : Z; has_last : bool }.

Record record_rate_gate : Type := RecordRateGate {
  m_rules : gmap Z record_rate_rule;
  m_state : gmap Z topic_state;
  m_needs_clock : bool;
}.

Definition record_rate_gate_new : record_rate_gate := RecordRateGate ∅ ∅ false.

Definition set_rules (rules : list (Z * record_rate_rule)) : record_rate_gate :=
  fold_left (fun g '(hash, rule) =>
    RecordRateGate (<[hash := rule]> (m_rules g)) (<[hash := TopicState 0 0 false]> (m_state g))
                   (m_needs_clock g || bool_decide (is_Some (rr_max_hz rule)))) rules record_rate_gate_new.

Definition nth_elapsed (st : topic_state) (every_nth : Z) : bool * topic_state :=
  ((every_nth =? 0) || (seen st mod every_nth =? 0), TopicState (wrap 64 (seen st + 1)) (last_ns st) (has_last st)).

Definition hz_elapsed (st : topic_state) (max_hz : hz) (now_ns : Z) : bool * topic_state :=
  if non_positive max_hz then (false, st) else
  if has_last st && (wrap 64 (now_ns - last_ns st) <? min_gap max_hz) then (false, st) else
  (true, TopicState (seen st) now_ns true).

Definition gate_state (rule : record_rate_rule) (st : topic_state) (now_ns : Z) : bool * topic_state :=
  let '(take, st) := match rr_every_nth rule with Some n => nth_elapsed st n | None => (true, st) end in
  if negb take then (false, st) else
  match rr_max_hz rule with Some h => hz_elapsed st h now_ns | None => (true, st) end.

(** A topic with a rule has a state: the iterator of [m_state.find] is valid. *)
Definition admit_sample (topic_hash now_ns : Z) (g : record_rate_gate) : option (bool * record_rate_gate) :=
  match m_rules g !! topic_hash with
  | None => Some (true, g)
  | Some rule =>
      if negb (rr_enabled rule) then Some (false, g) else
      st ← m_state g !! topic_hash;
      let '(ok, st) := gate_state rule st now_ns in
      Some (ok, RecordRateGate (m_rules g) (<[topic_hash := st]> (m_state g)) (m_needs_clock g))
  end.

(** ** The rate of the admitted samples *)

(** Samples of one topic at the times [nows]: the times of those that are recorded. *)
Fixpoint admitted (hash : Z) (nows : list Z) (g : record_rate_gate) : option (list Z) :=
  match nows with
  | [] => Some []
  | now :: nows =>
      '(ok, g) ← admit_sample hash now g;
      rest ← admitted hash nows g;
      Some (if (ok : bool) then now :: rest else rest)
  end.

(** Consecutive times are at least [gap] apart, the first that far from [last]. *)
Fixpoint spaced_from (gap : Z) (last : option Z) (times : list Z) : Prop :=
  match times with
  | [] => True
  | t :: times => (match last with Some l => gap <= t - l | None => True end) /\ spaced_from gap (Some t) times
  end.

Definition covered (g : record_rate_gate) : Prop := forall h, is_Some (m_rules g !! h) -> is_Some (m_state g !! h).

Lemma set_rules_covered rules : covered (set_rules rules).
Proof.
  unfold set_rules. assert (covered record_rate_gate_new) as H0 by (intros h [x Hx]; cbn in Hx; by rewrite lookup_empty in Hx).
  revert H0. generalize record_rate_gate_new. induction rules as [| [hash rule] rules IH]; intros g Hg; [done|]. cbn [fold_left].
  apply IH. intros h. cbn. destruct (decide (h = hash)) as [->|]; [rewrite !lookup_insert_eq; by eauto|].
  rewrite !lookup_insert_ne by done. apply Hg.
Qed.

Lemma admit_sample_keeps hash now g ok g' : covered g -> admit_sample hash now g = Some (ok, g') ->
  m_rules g' = m_rules g /\ covered g'.
Proof.
  intros Hc H. unfold admit_sample in H. destruct (m_rules g !! hash) as [rule|]; [|by simplify_eq].
  destruct (negb (rr_enabled rule)); [by simplify_eq|]. apply bind_Some in H as (st & _ & H).
  destruct (gate_state rule st now) as [ok' st']. simplify_eq. cbn. split; [done|]. intros h Hh. cbn.
  destruct (decide (h = hash)) as [->|]; [rewrite lookup_insert_eq; by eauto|]. rewrite lookup_insert_ne by done. by apply Hc.
Qed.

Lemma admitted_spaced hash rule h nows : forall g st last,
  covered g -> m_rules g !! hash = Some rule -> rr_enabled rule = true -> rr_max_hz rule = Some h ->
  m_state g !! hash = Some st -> Forall (fun t => in_width 64 t) nows -> Sorted Z.le nows ->
  (has_last st = true -> last = Some (last_ns st) /\ in_width 64 (last_ns st) /\ Forall (fun t => last_ns st <= t) nows) ->
  (has_last st = false -> last = None) ->
  exists times, admitted hash nows g = Some times /\ sublist times nows /\ spaced_from (min_gap h) last times.
Proof.
  induction nows as [|now nows IH]; intros g st last Hc Hr He Hh Hst Hw Hs Hl Hl'; [by exists []|].
  cbn [admitted]. unfold admit_sample. rewrite Hr, He, Hst. cbn [negb mbind option_bind].
  inversion Hw as [|? ? Hw0 Hws]; subst. apply Sorted_StronglySorted in Hs; [|intros ? ? ?; lia].
  inversion Hs as [|? ? Hss Hall]; subst. apply StronglySorted_Sorted in Hss.
  assert (forall st' last', (has_last st' = true -> last' = Some (last_ns st') /\ in_width 64 (last_ns st') /\ Forall (fun t => last_ns st' <= t) nows) ->
    (has_last st' = false -> last' = None) ->
    let g' := RecordRateGate (m_rules g) (<[hash := st']> (m_state g)) (m_needs_clock g) in
    exists times, admitted hash nows g' = Some times /\ sublist times nows /\ spaced_from (min_gap h) last' times) as Hnext.
  { intros st' last' H1 H2 g'. apply (IH g' st' last'); try done.
    - intros x Hx. cbn. destruct (decide (x = hash)) as [->|]; [rewrite lookup_insert_eq; by eauto|].
      rewrite lookup_insert_ne by done. by apply Hc.
    - cbn. by rewrite lookup_insert_eq. }
  assert (has_last st = true -> last = Some (last_ns st) /\ in_width 64 (last_ns st) /\ Forall (fun t => last_ns st <= t) nows) as Hl2.
  { intros H. destruct (Hl H) as (? & ? & Hf). inversion Hf; subst. done. }
  unfold gate_state.
  assert (exists take st1, (match rr_every_nth rule with Some n => nth_elapsed st n | None => (true, st) end) = (take, st1) /\
    last_ns st1 = last_ns st /\ has_last st1 = has_last st) as (take & st1 & -> & Hl1 & Hh1).
  { destruct (rr_every_nth rule); [|by exists true, st]. unfold nth_elapsed. by eexists _, _. }
  destruct take; cbn [negb].
  2:{ cbn [mbind option_bind]. destruct (Hnext st1 last) as (times & -> & Hsub & Hsp); [by rewrite Hl1, Hh1|by rewrite Hh1|].
      exists times. split; [done|]. split; [by constructor|done]. }
  rewrite Hh. unfold hz_elapsed. destruct (non_positive h).
  { cbn [mbind option_bind]. destruct (Hnext st1 last) as (times & -> & Hsub & Hsp); [by rewrite Hl1, Hh1|by rewrite Hh1|].
    exists times. split; [done|]. split; [by constructor|done]. }
  rewrite Hh1, Hl1. destruct (has_last st && (wrap 64 (now - last_ns st) <? min_gap h)) eqn:E.
  { cbn [mbind option_bind]. destruct (Hnext st1 last) as (times & -> & Hsub & Hsp); [by rewrite Hl1, Hh1|by rewrite Hh1|].
    exists times. split; [done|]. split; [by constructor|done]. }
  cbn [mbind option_bind]. destruct (Hnext (TopicState (seen st1) now true) (Some now)) as (times & -> & Hsub & Hsp); [done|done|].
  exists (now :: times). cbn [mbind option_bind]. split; [done|]. split; [by constructor|]. cbn. split; [|done].
  destruct (has_last st) eqn:Ehl; [|by rewrite Hl'].
  destruct (Hl eq_refl) as (-> & [? ?] & Hf). inversion Hf; subst. cbn [andb] in E. apply Z.ltb_ge in E. destruct Hw0.
  rewrite wrap_small in E by (unfold in_width; lia). done.
Qed.

(** The samples of a topic with a [max_hz] rule that reach the recorder are at least
    the rule's gap apart, whatever the arrival times and the other rules, and the gate
    always answers. *)
Theorem recorded_samples_are_spaced rules hash rule h nows
    (Hrule : m_rules (set_rules rules) !! hash = Some rule) (Hen : rr_enabled rule = true)
    (Hhz : rr_max_hz rule = Some h) (Hw : Forall (fun t => in_width 64 t) nows) (Hs : Sorted Z.le nows) :
  exists times, admitted hash nows (set_rules rules) = Some times /\ sublist times nows /\ spaced_from (min_gap h) None times.
Proof.
  pose proof (set_rules_covered rules) as Hc. destruct (Hc hash) as [st Hst]; [by eauto|].
  assert (has_last st = false) as Hl.
  { revert Hst. clear. unfold set_rules. assert (forall x, m_state record_rate_gate_new !! hash = Some x -> has_last x = false) as H0
      by (intros x Hx; cbn in Hx; by rewrite lookup_empty in Hx).
    revert st H0. generalize record_rate_gate_new. induction rules as [| [hash' rule] rules IH]; intros g st Hg; cbn [fold_left]; [apply Hg|].
    apply IH. intros x. cbn. destruct (decide (hash = hash')) as [->|]; [rewrite lookup_insert_eq; by intros [= <-]|].
    rewrite lookup_insert_ne by done. apply Hg. }
  apply (admitted_spaced hash rule h nows (set_rules rules) st None); try done. by rewrite Hl.
Qed.

End Gate.
(** ** [class recording_sink] over the flat recorder *)

Section Sink.
Context {host : Host} (hz : Type) (non_positive : hz -> bool) (min_gap : hz -> Z).

Record recording_sink : Type := RecordingSink {
  m_recorder : Recorder.flat_recorder;
  m_rate_gate : record_rate_gate hz;
  m_clock : bool;
  m_fidelity_resolver : option (Z -> Z);
  m_type_id_resolver : option (Z -> option Z);
}.

Definition with_recorder (r : Recorder.flat_recorder) (s : recording_sink) : recording_sink :=
  RecordingSink r (m_rate_gate s) (m_clock s) (m_fidelity_resolver s) (m_type_id_resolver s).
Definition with_gate (g : record_rate_gate hz) (s : recording_sink) : recording_sink :=
  RecordingSink (m_recorder s) g (m_clock s) (m_fidelity_resolver s) (m_type_id_resolver s).

Definition set_record_rates (rules : list (Z * record_rate_rule hz)) (s : recording_sink) : recording_sink :=
  with_gate (set_rules hz rules) s.

(** [gate_now] is what the sink's clock reads, [ts] and [now] what the recorder's does. *)
Definition record_message (fqn : bytes) (info : sample_info) (view : bytes) (gate_now ts now : Z) (s : recording_sink)
    : option recording_sink :=
  let hash := fqn_topic_hash fqn in
  '(ok, g) ← admit_sample hz non_positive min_gap hash (if m_needs_clock hz (m_rate_gate s) && m_clock s then gate_now else 0) (m_rate_gate s);
  let s := with_gate g s in
  if negb ok then Some s else
  let fidelity := match m_fidelity_resolver s with Some f => f hash | None => Recorder.fidelity_payload end in
  let id := match m_type_id_resolver s with Some f => f hash | None => None end in
  r ← Recorder.record_sample ts now hash info (default 0 id) (bool_decide (is_Some id)) fidelity view (m_recorder s);
  Some (with_recorder r s).

Definition on_message_published (fqn view : bytes) (gate_now ts now : Z) : recording_sink -> option recording_sink :=
  record_message fqn (SampleInfo 0 0 0) view gate_now ts now.

Definition on_message_delivered (fqn : bytes) (info : sample_info) (view : bytes) (gate_now ts now : Z)
    : recording_sink -> option recording_sink :=
  record_message fqn info view gate_now ts now.

Definition on_drop (e : drop_note) (ts now : Z) (s : recording_sink) : option recording_sink :=
  r ← Recorder.record_drop ts now e (m_recorder s); Some (with_recorder r s).
Definition on_qos_change (e : qos_change_event) (ts now : Z) (s : recording_sink) : option recording_sink :=
  r ← Recorder.record_qos_change ts now e (m_recorder s); Some (with_recorder r s).
Definition on_participant (e : participant_event) (ts now : Z) (s : recording_sink) : option recording_sink :=
  r ← Recorder.record_participant ts now e (m_recorder s); Some (with_recorder r s).
Definition on_endpoint (fqn : bytes) (e : endpoint_event) (ts now : Z) (s : recording_sink) : option recording_sink :=
  r ← Recorder.record_endpoint ts now fqn e (m_recorder s); Some (with_recorder r s).
Definition on_security (e : security_event) (ts now : Z) (s : recording_sink) : option recording_sink :=
  r ← Recorder.record_security ts now e (m_recorder s); Some (with_recorder r s).
Definition on_wire (dir seq : Z) (peer data : bytes) (ts now : Z) (s : recording_sink) : option recording_sink :=
  r ← Recorder.record_wire ts now dir seq peer data (m_recorder s); Some (with_recorder r s).

(** A [max_hz] rule on a sink that was given no clock: the gate compares the constant 0
    with itself, so only the first sample of the topic is ever recorded. *)
Theorem max_hz_without_a_clock_records_once fqn info view gate_now ts now s rule h st
    (Hclock : m_clock s = false)
    (Hrule : m_rules hz (m_rate_gate s) !! fqn_topic_hash fqn = Some rule) (Hen : rr_enabled hz rule = true)
    (Hnth : rr_every_nth hz rule = None) (Hhz : rr_max_hz hz rule = Some h) (Hgap : 0 < min_gap h)
    (Hst : m_state hz (m_rate_gate s) !! fqn_topic_hash fqn = Some st) (Hseen : has_last st = true) (Hlast : last_ns st = 0) :
  exists g, record_message fqn info view gate_now ts now s = Some (with_gate g s).
Proof.
  unfold record_message, admit_sample. rewrite Hrule, Hen, Hst, Hclock, andb_false_r. cbn [negb mbind option_bind].
  unfold gate_state. rewrite Hnth, Hhz. cbn [negb]. unfold hz_elapsed. rewrite Hseen, Hlast.
  change (wrap 64 (0 - 0)) with 0. destruct (non_positive h); [by eexists|]. cbn [andb].
  destruct (Z.ltb_spec 0 (min_gap h)); [|lia]. by eexists.
Qed.

End Sink.

Definition sample_rules : list (Z * record_rate_rule Z) := [(7, RecordRateRule Z (Some 10) None true)].

Lemma recorded_samples_are_spaced_witness :
  exists times, admitted Z (fun h => h <=? 0) (fun h => 100 / h) 7 [5; 9; 20; 21; 31] (set_rules Z sample_rules) = Some times /\
    spaced_from (100 / 10) None times.
Proof.
  destruct (recorded_samples_are_spaced Z (fun h => h <=? 0) (fun h => 100 / h) sample_rules 7 (RecordRateRule Z (Some 10) None true) 10
    [5; 9; 20; 21; 31]) as (times & H1 & _ & H2); [reflexivity|reflexivity|reflexivity| | |].
  - repeat constructor; vm_compute; congruence.
  - repeat constructor; vm_compute; congruence.
  - exists times. split; [exact H1|exact H2].
Defined.

(** A controller that holds one stamped record. *)
Definition stamped_record : bytes := byte.of_Z 1 :: be_bytes 8 40 ++ [byte.of_Z 3].

Definition one_record : pre_buffer_controller :=
  with_newest 50 (with_ring (default (byte_ring_new 0 drop_oldest) (snd <$> try_push stamped_record (byte_ring_new 64 drop_oldest)))
    (pre_buffer_controller_new 64 16)).

Lemma frozen_window_drains_exactly_witness :
  exists c1 c2 c3 k, trigger (host := little) one_record = Some c1 /\ captured_span c1 = 10 /\
    push_all (host := little) [stamped_record; replicate 50 (byte.of_Z 0)] 60 (RecordEnvelope 0 0 0 0 0) c1 = Some c2 /\
    pump_all 2 c2 = Some c3 /\ m_sink c3 = m_sink one_record ++ frames (List.skipn k [stamped_record]).
Proof.
  destruct (try_push_spec (byte_ring_new 64 drop_oldest) [] stamped_record) as (g & Hp & Hh & _ & Hpol & Hd).
  - apply byte_ring_holds_new; lia.
  - vm_compute. reflexivity.
  - vm_compute. reflexivity.
  - assert (one_record = with_newest 50 (with_ring g (pre_buffer_controller_new 64 16))) as ->.
    { unfold one_record. by rewrite Hp. }
    destruct (frozen_window_drains_exactly (host := little) (with_newest 50 (with_ring g (pre_buffer_controller_new 64 16)))
      40 stamped_record [] [stamped_record; replicate 50 (byte.of_Z 0)] 60 (RecordEnvelope 0 0 0 0 0))
      as (c1 & c2 & c3 & k & H1 & H2 & H3 & H4 & H5 & _).
    + exact Hh.
    + split; [lia|reflexivity].
    + by exists (byte.of_Z 1), [byte.of_Z 3].
    + cbn. lia.
    + exact Hpol.
    + reflexivity.
    + cbn. lia.
    + repeat constructor; vm_compute; reflexivity.
    + cbn [m_ring with_newest with_ring]. rewrite Hd. vm_compute. reflexivity.
    + exists c1, c2, c3, k. split; [exact H1|]. split; [exact H2|]. split; [exact H3|]. split; [exact H4|exact H5].
Defined.

End PreBuffer.
