(* ===== verification/Announcement.v ===== *)
(** * The discovery announcement and the contact card

    Models [lib/plexus-wire/include/plexus/wire/announcement.h],
    [lib/plexus-core/include/plexus/discovery/contact_card.h] and [universe.h], and
    [lib/plexus-discovery/include/plexus/discovery/detail/announcement_card.h] and
    [discovery_card_codec.h].  Strings are lists of bytes; [std::to_string] and
    [std::from_chars] are written out for the widths used. *)

From Stdlib Require Import String.
From S2P Require Import Prelude ByteOrder Varint Cursor Frame.

Definition text (s : string) : bytes := list_byte_of_string s.

Module Discovery.

(** ** [announcement.h] *)

Definition k_contact_card_schema_version : Z := 1.
Definition k_announcement_goodbye_flag : Z := 0x01.
Definition k_announcement_magic : Z := 0x504C5830.
Definition announcement_fixed_max : nat := 4 + 1 + 1 + 4 + 16 + 10 + 1.

Record announcement : Type := Announcement {
  an_version : Z;
  an_flags : Z;
  an_universe : Z;
  an_node_id : bytes;
  an_ttl_secs : Z;
  an_listens : list (bytes * Z);
}.

Definition announcement_encoded_size (ann : announcement) : nat :=
  fold_left (fun total '(transport, _) => (total + (1 + length transport + 2))%nat) (an_listens ann) announcement_fixed_max.

Section Codec.
Context {host : Host}.

(** The loop of [decode_listens] with [n] listens left. *)
Fixpoint decode_listens_loop (n : nat) (r : reader) : list (bytes * Z) * reader :=
  match n with
  | O => ([], r)
  | S n =>
      let '(transport, r) := reader_length_prefixed 1 r 1 in
      let '(port, r) := reader_u16 r in
      if negb (reader_ok r) then ([], r) else
      let '(rest, r) := decode_listens_loop n r in
      ((transport, port) :: rest, r)
  end.

Definition decode_listens (r : reader) : list (bytes * Z) * reader :=
  let '(n_listens, r) := reader_u8 r in
  decode_listens_loop (Z.to_nat n_listens) r.

Fixpoint put_listens (w : writer) (listens : list (bytes * Z)) : option writer :=
  match listens with
  | [] => Some w
  | (transport, port) :: listens =>
      w ← writer_u8 w (wrap 8 (zlen transport));
      w ← writer_bytes w transport;
      w ← writer_u16 w port;
      put_listens w listens
  end.

Definition encode_announcement_into (out : bytes) (ann : announcement) : option bytes :=
  let out := resize (announcement_encoded_size ann) out in
  let w := writer_of out in
  w ← writer_u32 w k_announcement_magic;
  w ← writer_u8 w (an_version ann);
  w ← writer_u8 w (an_flags ann);
  w ← writer_u32 w (an_universe ann);
  w ← writer_bytes w (an_node_id ann);
  w ← writer_varint w (an_ttl_secs ann);
  w ← writer_u8 w (wrap 8 (zlen (an_listens ann)));
  w ← put_listens w (an_listens ann);
  Some (resize (w_offset w) (m_region w)).

Definition encode_announcement (ann : announcement) : option bytes := encode_announcement_into [] ann.

Definition decode_announcement (payload : bytes) : option announcement :=
  let r := reader_of payload in
  let '(magic, r) := reader_u32 r in
  if negb (magic =? k_announcement_magic) then None else
  let '(version, r) := reader_u8 r in
  if negb (version =? k_contact_card_schema_version) then None else
  let '(flags, r) := reader_u8 r in
  let '(universe, r) := reader_u32 r in
  let '(node_id, r) := reader_copy_to r (zero_bytes 16) 16 in
  let '(ttl, r) := reader_varint r in
  let '(listens, r) := decode_listens r in
  if negb (reader_ok r) then None else
  ttl ← ttl;
  Some (Announcement version flags universe node_id ttl listens).

End Codec.

(** ** [contact_card.h] *)

Record listening_transport : Type := ListeningTransport { lt_transport : bytes; lt_port : Z }.

Definition k_card_node_id_key : bytes := text "node_id".
Definition k_card_schema_key : bytes := text "plexus/schema".

Definition digits : bytes := text "0123456789abcdef".
Definition hex_char (v : Z) : byte := default (byte.of_Z 0) (digits !! Z.to_nat v).

Definition hex_encode (id : bytes) : bytes :=
  concat (map (fun b => [hex_char (Z.land (Z.shiftr ⟦b⟧ 4) 0x0f); hex_char (Z.land ⟦b⟧ 0x0f)]) id).

Definition nibble (c : byte) : option Z :=
  if (48 <=? ⟦c⟧) && (⟦c⟧ <=? 57) then Some (⟦c⟧ - 48) else
  if (97 <=? ⟦c⟧) && (⟦c⟧ <=? 102) then Some (⟦c⟧ - 97 + 10) else None.

Fixpoint hex_decode_loop (hex : bytes) : option bytes :=
  match hex with
  | hi :: lo :: rest =>
      hi ← nibble hi; lo ← nibble lo; id ← hex_decode_loop rest;
      Some (byte.of_Z (Z.lor (Z.shiftl hi 4) lo) :: id)
  | _ => Some []
  end.

Definition hex_decode (hex : bytes) : option bytes :=
  if negb (length hex =? 32)%nat then None else hex_decode_loop hex.

Definition port_key (transport : bytes) : bytes := text "plexus/" ++ transport ++ text "/port".

(** [std::to_string] of an unsigned value below [10 ^ fuel]. *)
Fixpoint to_string_loop (fuel : nat) (v : Z) : bytes :=
  match fuel with
  | O => []
  | S fuel => if v <? 10 then [byte.of_Z (48 + v)] else to_string_loop fuel (v / 10) ++ [byte.of_Z (48 + v mod 10)]
  end.

Definition to_string (v : Z) : bytes := to_string_loop 10 v.
#[global] Arguments to_string : simpl never.

Definition is_digit (c : byte) : bool := (48 <=? ⟦c⟧) && (⟦c⟧ <=? 57).

(** The leading digits and their value. *)
Fixpoint scan_digits (acc : Z) (s : bytes) : Z :=
  match s with
  | c :: s => if is_digit c then scan_digits (10 * acc + (⟦c⟧ - 48)) s else acc
  | [] => acc
  end.

(** [std::from_chars] into a [uint16_t]: no digit and a value out of range are errors. *)
Definition from_chars_u16 (s : bytes) : option Z :=
  match s with
  | c :: _ => if is_digit c then let v := scan_digits 0 s in if v <? 2 ^ 16 then Some v else None else None
  | [] => None
  end.

Definition contact_card : Type := list (bytes * bytes).

Definition assemble_contact_card (id : bytes) (transports : list listening_transport) : contact_card :=
  [(k_card_node_id_key, hex_encode id)] ++
  map (fun t => (port_key (lt_transport t), to_string (lt_port t))) transports ++
  [(k_card_schema_key, to_string k_contact_card_schema_version)].

Fixpoint find_port (card : contact_card) (key : bytes) : option Z :=
  match card with
  | [] => None
  | (k, v) :: card => if decide (k = key) then from_chars_u16 v else find_port card key
  end.

Definition read_transport_port (card : contact_card) (transport : bytes) : option Z := find_port card (port_key transport).

(** ** [announcement_card.h] and [discovery_card_codec.h] *)

Record service_info : Type := ServiceInfo {
  sv_name : bytes;
  sv_scheme : bytes;
  sv_address : bytes;
  sv_metadata : contact_card;
}.

Definition announcement_from_card (id : bytes) (listens : list listening_transport) (ttl_secs flags universe : Z) : announcement :=
  Announcement k_contact_card_schema_version flags universe id ttl_secs (map (fun t => (lt_transport t, lt_port t)) listens).

Definition service_info_from_announcement (ann : announcement) (source_host : bytes) : service_info :=
  let listens := map (fun '(transport, port) => ListeningTransport transport port) (an_listens ann) in
  ServiceInfo (hex_encode (an_node_id ann)) [] source_host (assemble_contact_card (an_node_id ann) listens).

Definition k_port_key_prefix : bytes := text "plexus/".
Definition k_port_key_suffix : bytes := text "/port".

Fixpoint listens_of (card entries : contact_card) : list listening_transport :=
  match entries with
  | [] => []
  | (key, _) :: entries =>
      let np := length k_port_key_prefix in
      let ns := length k_port_key_suffix in
      if decide (length key <= np + ns)%nat then listens_of card entries else
      if negb (bool_decide (take np key = k_port_key_prefix)) || negb (bool_decide (drop (length key - ns) key = k_port_key_suffix))
      then listens_of card entries else
      let transport := take (length key - np - ns) (drop np key) in
      match read_transport_port card transport with
      | Some port => ListeningTransport transport port :: listens_of card entries
      | None => listens_of card entries
      end
  end.

Definition listens_from_card (card : contact_card) : list listening_transport := listens_of card card.

Definition announcement_from_service_info (card : service_info) (ttl_secs universe : Z) : option announcement :=
  id ← hex_decode (match sv_metadata card with [] => [] | (_, v) :: _ => v end);
  Some (announcement_from_card id (listens_from_card (sv_metadata card)) ttl_secs 0 universe).

(** ** [universe.h] *)

Definition universe_from_label (label : bytes) : Z :=
  fold_left (fun h c => wrap 32 (Z.lxor h ⟦c⟧ * 16777619)) label 2166136261.

Definition k_default_universe : Z := universe_from_label (text "plexus.default").

Definition mix32 (h : Z) : Z :=
  let h := Z.lxor h (Z.shiftr h 16) in
  let h := wrap 32 (h * 0x85ebca6b) in
  let h := Z.lxor h (Z.shiftr h 13) in
  let h := wrap 32 (h * 0xc2b2ae35) in
  Z.lxor h (Z.shiftr h 16).

Definition universe_group_octets (universe : Z) : Z * Z :=
  let idx := mix32 universe mod (254 * 256) in
  (wrap 8 (1 + idx / 256), wrap 8 (idx mod 256)).

Definition universe_group (universe : Z) : bytes :=
  let '(x, y) := universe_group_octets universe in
  text "239.255." ++ to_string x ++ text "." ++ to_string y.

(** ** The announcement reads back *)

Definition listen_bytes (l : bytes * Z) : bytes := be_bytes 1 (zlen l.1) ++ l.1 ++ be_bytes 2 l.2.

Definition announcement_layout (ann : announcement) : bytes :=
  be_bytes 4 k_announcement_magic ++ be_bytes 1 (an_version ann) ++ be_bytes 1 (an_flags ann) ++ be_bytes 4 (an_universe ann) ++
  an_node_id ann ++ varint (an_ttl_secs ann) ++ be_bytes 1 (zlen (an_listens ann)) ++ concat (map listen_bytes (an_listens ann)).

Record wf_announcement (ann : announcement) : Prop := WfAnnouncement {
  wa_version : an_version ann = k_contact_card_schema_version;
  wa_flags : in_width 8 (an_flags ann);
  wa_universe : in_width 32 (an_universe ann);
  wa_id : length (an_node_id ann) = 16%nat;
  wa_ttl : in_width 64 (an_ttl_secs ann);
  wa_count : in_width 8 (zlen (an_listens ann));
  wa_listens : Forall (fun l => in_width 8 (zlen l.1) /\ in_width 16 l.2) (an_listens ann);
}.

Section Roundtrip.
Context {host : Host}.

Lemma resize_prefix (pre rest : bytes) : resize (length pre) (pre ++ rest) = pre.
Proof. unfold resize, vresize. rewrite take_app_length, length_app. replace (length pre - (length pre + length rest))%nat with 0%nat by lia. apply app_nil_r. Qed.

Lemma listen_bytes_eq t p : listen_bytes (t, p) = be_bytes 1 (zlen t) ++ t ++ be_bytes 2 p.
Proof. done. Qed.

Lemma encoded_size_spec ann :
  announcement_encoded_size ann = (announcement_fixed_max + length (concat (map listen_bytes (an_listens ann))))%nat.
Proof.
  unfold announcement_encoded_size. generalize announcement_fixed_max. induction (an_listens ann) as [| [t p] ls IH]; intros n.
  { cbn. lia. }
  cbn [fold_left map concat]. rewrite IH. unfold listen_bytes. rewrite !length_app, !length_be_bytes. cbn [fst snd]. lia.
Qed.

Lemma be_byte_wrap v : be_bytes 1 (wrap 8 v) = be_bytes 1 v.
Proof. apply (be_bytes_wrap 1). Qed.

Lemma put_listens_wr ls : forall pre rest, (length (concat (map listen_bytes ls)) <= length rest)%nat ->
  put_listens (wr pre rest) ls = Some (wr (pre ++ concat (map listen_bytes ls)) (drop (length (concat (map listen_bytes ls))) rest)).
Proof.
  induction ls as [| [t p] ls IH]; intros pre rest Hl; [cbn; by rewrite app_nil_r, drop_0|].
  cbn [map concat put_listens] in *. rewrite (listen_bytes_eq t p) in Hl.
  rewrite !length_app, !length_be_bytes in Hl.
  rewrite writer_u8_wr by lia. cbn [mbind option_bind]. rewrite be_byte_wrap. rewrite writer_bytes_wr by (rewrite length_drop; lia). cbn [mbind option_bind].
  rewrite writer_u16_wr by (rewrite !length_drop; lia). cbn [mbind option_bind]. rewrite IH by (rewrite !length_drop; lia).
  f_equal. rewrite !(listen_bytes_eq t p), !length_app, !length_be_bytes, !drop_drop, <- !app_assoc. do 2 f_equal. lia.
Qed.

(** The encoder writes the layout of any announcement: a length or a count over a byte
    is cut to its low byte there as it is here. *)
Lemma encode_announcement_spec out ann : length (an_node_id ann) = 16%nat -> encode_announcement_into out ann = Some (announcement_layout ann).
Proof.
  intros Hid. unfold encode_announcement_into.
  assert (length (resize (announcement_encoded_size ann) out) = (announcement_fixed_max + length (concat (map listen_bytes (an_listens ann))))%nat) as Hsz.
  { unfold resize. rewrite length_vresize. apply encoded_size_spec. }
  generalize dependent (resize (announcement_encoded_size ann) out). intros buf Hsz. unfold announcement_fixed_max in Hsz.
  pose proof (length_varint (an_ttl_secs ann)) as Hvl. rewrite writer_of_wr.
  rewrite writer_u32_wr by lia. cbn [mbind option_bind]. rewrite writer_u8_wr by (rewrite !length_drop; lia). cbn [mbind option_bind].
  rewrite writer_u8_wr by (rewrite !length_drop; lia). cbn [mbind option_bind]. rewrite writer_u32_wr by (rewrite !length_drop; lia). cbn [mbind option_bind].
  rewrite writer_bytes_wr by (rewrite !length_drop; lia). cbn [mbind option_bind]. rewrite writer_varint_wr by (rewrite !length_drop; lia). cbn [mbind option_bind].
  rewrite writer_u8_wr by (rewrite !length_drop; lia). cbn [mbind option_bind]. rewrite be_byte_wrap.
  rewrite put_listens_wr by (rewrite !length_drop; lia). cbn [mbind option_bind]. f_equal.
  unfold wr. cbn [w_offset m_region]. rewrite resize_prefix. unfold announcement_layout. by rewrite <- !app_assoc.
Qed.

Lemma decode_listens_rd ls : forall pre post, Forall (fun l => in_width 8 (zlen l.1) /\ in_width 16 l.2) ls ->
  decode_listens_loop (length ls) (rd pre (concat (map listen_bytes ls) ++ post)) = (ls, rd (pre ++ concat (map listen_bytes ls)) post).
Proof.
  induction ls as [| [t p] ls IH]; intros pre post Hwf; [cbn; by rewrite app_nil_r|].
  inversion Hwf as [|? ? [Ht Hp] Hls]; subst. cbn [fst snd] in Ht, Hp. cbn [map concat length decode_listens_loop].
  rewrite !(listen_bytes_eq t p), <- !app_assoc.
  rewrite (reader_length_prefixed_rd 1 pre t) by (done || set_solver). rewrite reader_u16_rd by done.
  change (reader_ok (rd ?x ?y)) with true. cbn [negb]. rewrite IH by done. by rewrite <- !app_assoc.
Qed.

Lemma decode_announcement_layout ann post : wf_announcement ann -> decode_announcement (announcement_layout ann ++ post) = Some ann.
Proof.
  intros [Hv Hf Hu Hid Httl Hc Hls]. unfold decode_announcement, announcement_layout. rewrite reader_of_rd, <- !app_assoc.
  rewrite reader_u32_rd by (vm_compute; split; congruence). rewrite Z.eqb_refl. cbn [negb].
  rewrite reader_u8_rd by (rewrite Hv; vm_compute; split; congruence). rewrite Hv, Z.eqb_refl. cbn [negb].
  rewrite reader_u8_rd, reader_u32_rd by done. rewrite (reader_copy_to_rd _ (an_node_id ann)) by (rewrite ?Hid; done).
  rewrite reader_varint_rd by done. unfold decode_listens. rewrite reader_u8_rd by done. rewrite zlen_to_nat, decode_listens_rd by done.
  change (reader_ok (rd ?x ?y)) with true. cbn [negb mbind option_bind]. destruct ann. cbn in *. by subst.
Qed.

End Roundtrip.

(** ** Hexadecimal and decimal read back *)

Lemma nibbles_of_byte b :
  (hi ← nibble (hex_char (Z.land (Z.shiftr ⟦b⟧ 4) 0x0f)); lo ← nibble (hex_char (Z.land ⟦b⟧ 0x0f)); Some (byte.of_Z (Z.lor (Z.shiftl hi 4) lo))) = Some b.
Proof. by destruct b. Qed.

Lemma length_hex_encode id : length (hex_encode id) = (2 * length id)%nat.
Proof. induction id as [| b id IH]; [done|]. unfold hex_encode in *. cbn [map concat app length]. lia. Qed.

Lemma hex_decode_loop_encode id : hex_decode_loop (hex_encode id) = Some id.
Proof.
  induction id as [| b id IH]; [done|]. change (hex_encode (b :: id)) with
    (hex_char (Z.land (Z.shiftr ⟦b⟧ 4) 0x0f) :: hex_char (Z.land ⟦b⟧ 0x0f) :: hex_encode id). cbn [hex_decode_loop].
  pose proof (nibbles_of_byte b) as Hb. destruct (nibble (hex_char (Z.land (Z.shiftr _ _) _))) as [hi|]; [|by inversion Hb]. cbn [mbind option_bind] in *.
  destruct (nibble (hex_char _)) as [lo|]; [|by inversion Hb]. cbn [mbind option_bind] in *. rewrite IH. cbn [mbind option_bind]. by inversion Hb.
Qed.

Lemma length_hex_decode_loop n : forall hex id, length hex = (2 * n)%nat -> hex_decode_loop hex = Some id -> length id = n.
Proof.
  induction n as [|n IH]; intros [|hi [|lo rest]] id Hl; cbn in Hl; try lia; cbn [hex_decode_loop].
  - by intros [= <-].
  - destruct (nibble hi), (nibble lo); cbn [mbind option_bind]; try done. destruct (hex_decode_loop rest) eqn:Hr; [|done].
    cbn [mbind option_bind]. intros [= <-]. cbn. f_equal. apply (IH rest); [lia|done].
Qed.

Lemma length_hex_decode hex id : hex_decode hex = Some id -> length id = 16%nat.
Proof.
  unfold hex_decode. destruct (Nat.eqb_spec (length hex) 32) as [Hl|]; [|done]. cbn [negb]. by apply length_hex_decode_loop.
Qed.

Lemma hex_decode_encode id : length id = 16%nat -> hex_decode (hex_encode id) = Some id.
Proof. intros Hid. unfold hex_decode. rewrite length_hex_encode, Hid. apply hex_decode_loop_encode. Qed.

Lemma digit_byte d : 0 <= d < 10 -> ⟦byte.of_Z (48 + d)⟧ = 48 + d.
Proof. intros Hd. rewrite byte.unsigned_of_Z. apply wrap_small. unfold in_width. lia. Qed.

Lemma is_digit_byte d : 0 <= d < 10 -> is_digit (byte.of_Z (48 + d)) = true.
Proof. intros Hd. unfold is_digit. rewrite digit_byte by done. apply andb_true_intro. split; apply Z.leb_le; lia. Qed.

Lemma scan_digits_to_string fuel : forall v acc rest, 0 <= v < 10 ^ Z.of_nat fuel -> (fuel <> 0)%nat ->
  exists k, 0 <= k /\ scan_digits acc (to_string_loop fuel v ++ rest) = scan_digits (acc * 10 ^ k + v) rest.
Proof.
  induction fuel as [| fuel IH]; intros v acc rest Hv Hf; [done|]. cbn [to_string_loop]. destruct (Z.ltb_spec v 10) as [Hs|Hs].
  - exists 1. split; [done|]. cbn [app scan_digits]. rewrite is_digit_byte, digit_byte by lia. f_equal. lia.
  - rewrite Nat2Z.inj_succ, Z.pow_succ_r in Hv by lia.
    destruct (IH (v / 10) acc ([byte.of_Z (48 + v mod 10)] ++ rest)) as (k & Hk & Hscan).
    { split; [apply Z.div_pos; lia|]. apply Z.div_lt_upper_bound; lia. }
    { intros ->. cbn in Hv. lia. }
    exists (k + 1). split; [lia|]. rewrite <- app_assoc, Hscan. cbn [app scan_digits]. pose proof (Z.mod_pos_bound v 10 ltac:(lia)).
    rewrite is_digit_byte, digit_byte by done. f_equal. rewrite Z.pow_add_r by lia. change (10 ^ 1) with 10.
    pose proof (Z.div_mod v 10 ltac:(lia)). lia.
Qed.

Lemma to_string_head fuel v : 0 <= v -> (fuel <> 0)%nat -> exists c s, to_string_loop fuel v = c :: s /\ is_digit c = true.
Proof.
  revert v. induction fuel as [| fuel IH]; intros v Hv Hf; [done|]. cbn [to_string_loop]. destruct (Z.ltb_spec v 10) as [Hs|Hs].
  - eexists _, _. split; [done|]. apply is_digit_byte. lia.
  - destruct fuel as [| fuel].
    + eexists _, []. split; [done|]. apply is_digit_byte. by apply Z.mod_pos_bound.
    + destruct (IH (v / 10)) as (c & s & -> & Hc); [apply Z.div_pos; lia|done|]. by eexists _, _.
Qed.

Lemma from_chars_to_string v : in_width 16 v -> from_chars_u16 (to_string v) = Some v.
Proof.
  intros Hv. unfold in_width in Hv. unfold from_chars_u16, to_string. destruct (to_string_head 10 v) as (c & s & Hs & Hc); [lia|done|].
  destruct (scan_digits_to_string 10 v 0 []) as (k & Hk & Hscan); [cbn; lia|done|]. rewrite app_nil_r in Hscan.
  rewrite Hs in *. rewrite Hc, Hscan. cbn [scan_digits]. rewrite Z.mul_0_l, Z.add_0_l. by rewrite (proj2 (Z.ltb_lt v (2 ^ 16)) (proj2 Hv)).
Qed.

(** ** The card gives back what it was assembled from *)

Record wf_listens (ts : list listening_transport) : Prop := WfListens {
  wl_names : NoDup (map lt_transport ts);
  wl_nonempty : Forall (fun t => lt_transport t <> []) ts;
  wl_ports : Forall (fun t => in_width 16 (lt_port t)) ts;
}.

Lemma port_key_inj t t' : port_key t = port_key t' -> t = t'.
Proof. unfold port_key. intros H%app_inv_head. by apply app_inv_tail in H. Qed.

Lemma card_port id ts t : wf_listens ts -> t ∈ ts -> read_transport_port (assemble_contact_card id ts) (lt_transport t) = Some (lt_port t).
Proof.
  intros [Hn _ Hp] Ht. unfold read_transport_port, assemble_contact_card. cbn [app find_port]. rewrite decide_False by done.
  generalize [(k_card_schema_key, to_string k_contact_card_schema_version)]. intros tail.
  induction ts as [| t' ts IH]; [by apply elem_of_nil in Ht|]. cbn [map app find_port] in *.
  apply NoDup_cons in Hn as [Hn1 Hn2]. inversion Hp; subst. case_decide as Heq.
  - apply port_key_inj in Heq. apply elem_of_cons in Ht as [-> | Ht]; [by apply from_chars_to_string|].
    destruct Hn1. rewrite Heq. by apply list_elem_of_fmap_2.
  - apply elem_of_cons in Ht as [-> | Ht]; [done|]. by apply IH.
Qed.

Lemma listens_of_entry card t v entries : t <> [] ->
  listens_of card ((port_key t, v) :: entries) =
  match read_transport_port card t with Some port => ListeningTransport t port :: listens_of card entries | None => listens_of card entries end.
Proof.
  intros Ht. cbn [listens_of]. assert (0 < length t)%nat by (destruct t; [done|cbn; lia]).
  assert (length (port_key t) = 7 + length t + 5)%nat as Hl by (unfold port_key; rewrite !length_app; cbn; lia).
  change (length k_port_key_prefix) with 7%nat. change (length k_port_key_suffix) with 5%nat. rewrite decide_False by lia.
  rewrite Hl. replace (7 + length t + 5 - 5)%nat with (7 + length t)%nat by lia. replace (7 + length t + 5 - 7 - 5)%nat with (length t) by lia.
  rewrite (bool_decide_true (take 7 _ = _)) by done.
  assert (drop (7 + length t) (port_key t) = k_port_key_suffix) as ->.
  { rewrite <- drop_drop. change (drop 7 (port_key t)) with (t ++ text "/port"). by rewrite drop_app_length. }
  rewrite bool_decide_true by done. cbn [negb orb]. change (drop 7 (port_key t)) with (t ++ text "/port"). by rewrite take_app_length.
Qed.

Lemma listens_of_assembled id ts card : Forall (fun t => lt_transport t <> []) ts ->
  (forall t, t ∈ ts -> read_transport_port card (lt_transport t) = Some (lt_port t)) -> listens_of card (assemble_contact_card id ts) = ts.
Proof.
  unfold assemble_contact_card. cbn [app]. change (listens_of card ((k_card_node_id_key, hex_encode id) :: ?l)) with (listens_of card l).
  induction ts as [| [t p] ts IH]; intros Hne Hport; [done|]. cbn [map app lt_transport lt_port]. inversion Hne; subst. rewrite listens_of_entry by done.
  pose proof (Hport _ (list_elem_of_here _ _)) as Hp. cbn [lt_transport lt_port] in Hp. rewrite Hp.
  f_equal. apply IH; [done|]. intros t' Ht'. apply Hport. by right.
Qed.

Lemma listens_from_card_assembled id ts : wf_listens ts -> listens_from_card (assemble_contact_card id ts) = ts.
Proof. intros Hwf. apply listens_of_assembled; [by destruct Hwf|]. intros t Ht. by apply card_port. Qed.

Lemma group_octets_bounds universe : 1 <= (universe_group_octets universe).1 <= 254 /\ in_width 8 (universe_group_octets universe).2.
Proof.
  unfold universe_group_octets. cbn [fst snd]. pose proof (Z.mod_pos_bound (mix32 universe) (254 * 256) ltac:(lia)) as Hidx.
  generalize dependent (mix32 universe mod (254 * 256)). intros idx Hidx.
  assert (0 <= idx / 256 < 254) by (split; [apply Z.div_pos; lia | apply Z.div_lt_upper_bound; lia]).
  rewrite wrap_small by (unfold in_width; lia). split; [lia|]. by apply wrap_range.
Qed.

Lemma default_universe : k_default_universe = 0x58E1B347.
Proof. by vm_compute. Qed.

End Discovery.
