(* ===== verification/MulticastDiscovery.v ===== *)
(** * Discovery: the flood cap, the multicast leaf and the static table

    Models [lib/plexus-discovery/include/plexus/discovery/]: [detail/discovery_flood_cap.h],
    [detail/announce_jitter.h], [multicast_discovery.h] and [static_discovery.h], and
    [lib/plexus-core/include/plexus/discovery/discovery_options.h].

    Times are nanoseconds of the clock.  The socket and the timer are the events an operation
    emits; a callback is a number and calling it is an event.  An operation that would read through
    an empty [std::optional] is [None].  The iteration order of [std::unordered_map], the product of
    the jitter fraction and the period as a [double], and the draw of
    [std::uniform_int_distribution] from [std::mt19937] are parameters. *)

From Stdlib Require Import String Sorting.Sorted.
From S2P Require Import Prelude ByteOrder Varint Cursor Frame Announcement.

Module Multicast.
Import Discovery.

(** ** [discovery_options.h] *)

Record flood_cap_options : Type := FloodCapOptions {
  per_source_window : Z;
  max_peers : Z;
  per_source_max : Z;
  evict_lru : bool;
}.

Definition default_flood_cap_options : flood_cap_options := FloodCapOptions 1000 256 4 false.

Inductive universe_scoping := soft | hard.

(** [egress_interface] is read by the socket's factory only; [jitter_fraction] enters through
    [jitter_span] below. *)
Record discovery_options : Type := DiscoveryOptions {
  do_group : bytes;
  announce_period : Z;
  do_cap : flood_cap_options;
  do_universe : Z;
  do_scoping : universe_scoping;
  do_port : Z;
  do_ttl : Z;
}.

Definition default_discovery_options : discovery_options :=
  DiscoveryOptions (text "239.255.0.7") 1000 default_flood_cap_options k_default_universe soft 7447 4.

Definition effective_group (opts : discovery_options) : bytes :=
  match do_scoping opts with hard => universe_group (do_universe opts) | soft => do_group opts end.

(** ** [discovery_flood_cap.h] *)

Definition ns_per_ms : Z := 1000000.

Record source_state : Type := SourceState { last_seen : Z; window_start : Z; window_count : Z }.

(** Where [unordered_map::emplace] puts an entry in the iteration order. *)
Class HashOrder : Type := {
  hash_emplace : list (bytes * source_state) -> bytes * source_state -> list (bytes * source_state);
}.

Class HashOrderLaws (H : HashOrder) : Prop := {
  hash_emplace_perm l e : hash_emplace l e ≡ₚ e :: l;
}.

Record flood_cap : Type := FloodCap { fc_options : flood_cap_options; m_peers : list (bytes * source_state) }.

Section FloodCap.
Context {order : HashOrder}.

Fixpoint find_peer (peers : list (bytes * source_state)) (source : bytes) : option source_state :=
  match peers with
  | [] => None
  | (s, st) :: peers => if decide (s = source) then Some st else find_peer peers source
  end.

Definition set_peer (peers : list (bytes * source_state)) (source : bytes) (st : source_state) : list (bytes * source_state) :=
  map (fun e => if decide (e.1 = source) then (e.1, st) else e) peers.

Definition rate_limited (o : flood_cap_options) : bool := negb (per_source_max o =? 0).
Definition capped (o : flood_cap_options) : bool := negb (max_peers o =? 0).

Definition rate_window_allows (o : flood_cap_options) (st : source_state) (now : Z) : bool * source_state :=
  if negb (rate_limited o) then (true, st) else
  let st := if now - window_start st >=? ns_per_ms * per_source_window o then SourceState (last_seen st) now 0 else st in
  if window_count st >=? per_source_max o then (false, st) else
  (true, SourceState (last_seen st) (window_start st) (wrap 64 (window_count st + 1))).

Definition refresh (o : flood_cap_options) (st : source_state) (now : Z) : bool * source_state :=
  let '(ok, st) := rate_window_allows o st now in
  if negb ok then (false, st) else (true, SourceState now (window_start st) (window_count st)).

(** The loop of [evict_oldest]: the first entry with the least [last_seen]. *)
Fixpoint oldest_from (oldest : bytes * source_state) (peers : list (bytes * source_state)) : bytes * source_state :=
  match peers with
  | [] => oldest
  | e :: peers => oldest_from (if last_seen e.2 <? last_seen oldest.2 then e else oldest) peers
  end.

Definition evict_oldest (peers : list (bytes * source_state)) : list (bytes * source_state) :=
  match peers with
  | [] => []
  | e :: _ => let oldest := oldest_from e peers in filter (fun e => e.1 <> oldest.1) peers
  end.

Definition admit_new (fc : flood_cap) (source : bytes) (now : Z) : bool * flood_cap :=
  let o := fc_options fc in
  if capped o && (zlen (m_peers fc) >=? max_peers o) then
    if negb (evict_lru o) then (false, fc) else
    (true, FloodCap o (hash_emplace (evict_oldest (m_peers fc)) (source, SourceState now now 1)))
  else (true, FloodCap o (hash_emplace (m_peers fc) (source, SourceState now now 1))).

(** [discovery_flood_cap::admit] *)
Definition admit_source (fc : flood_cap) (source : bytes) (now : Z) : bool * flood_cap :=
  match find_peer (m_peers fc) source with
  | Some st => let '(ok, st) := refresh (fc_options fc) st now in (ok, FloodCap (fc_options fc) (set_peer (m_peers fc) source st))
  | None => admit_new fc source now
  end.

End FloodCap.

(** ** [announce_jitter.h] *)

Definition jitter_seed_from (id : bytes) : Z :=
  fold_left (fun seed b => wrap 32 (Z.lxor seed ⟦b⟧ * 0x01000193)) id 0x811c9dc5.

(** [seed_engine] is [mt19937::seed], [jitter_span] the truncated product of the fraction and the
    period, [uniform] the draw of [uniform_int_distribution(0, span)]. *)
Class Rng : Type := {
  engine : Type;
  seed_engine : Z -> engine;
  jitter_span : Z -> Z;
  uniform : engine -> Z -> Z * engine;
}.

Class RngLaws (R : Rng) : Prop := {
  uniform_range e span : 0 <= span -> 0 <= (uniform e span).1 <= span;
}.

Section Leaf.
Context {host : Host} {order : HashOrder} {rng : Rng}.

(** [announce_jitter::next] *)
Definition jitter_next (e : engine) (period : Z) : Z * engine :=
  let span := jitter_span period in
  if span <=? 0 then (period, e) else
  let '(drawn, e) := uniform e span in
  let reduced := period - drawn in
  (if reduced >? 0 then reduced else 1, e).

(** ** [multicast_discovery.h] *)

Inductive discovery_health := not_yet | healthy | no_self_echo | bad_interface.

Inductive event :=
| Bound (port : Z)
| SendMulticast (datagram : bytes)
| SocketClosed
| TimerArmed (delay : Z)
| TimerCancelled
| Resolved (cb : nat) (info : service_info)
| Withdrawn (cb : nat) (info : service_info).

Record state : Type := State {
  m_options : discovery_options;
  m_flood_cap : flood_cap;
  m_jitter : engine;
  m_bind_time : Z;
  m_announcement : option announcement;
  m_scratch : bytes;
  m_on_resolved_cb : option nat;
  m_on_withdrawn_cb : option nat;
  m_advertising : bool;
  m_self_seen : bool;
}.

Definition with_announcement (s : state) (ann : option announcement) : state :=
  State (m_options s) (m_flood_cap s) (m_jitter s) (m_bind_time s) ann (m_scratch s) (m_on_resolved_cb s) (m_on_withdrawn_cb s) (m_advertising s) (m_self_seen s).
Definition with_scratch (s : state) (scratch : bytes) : state :=
  State (m_options s) (m_flood_cap s) (m_jitter s) (m_bind_time s) (m_announcement s) scratch (m_on_resolved_cb s) (m_on_withdrawn_cb s) (m_advertising s) (m_self_seen s).
Definition with_jitter (s : state) (e : engine) : state :=
  State (m_options s) (m_flood_cap s) e (m_bind_time s) (m_announcement s) (m_scratch s) (m_on_resolved_cb s) (m_on_withdrawn_cb s) (m_advertising s) (m_self_seen s).
Definition with_cap (s : state) (fc : flood_cap) : state :=
  State (m_options s) fc (m_jitter s) (m_bind_time s) (m_announcement s) (m_scratch s) (m_on_resolved_cb s) (m_on_withdrawn_cb s) (m_advertising s) (m_self_seen s).
Definition with_callbacks (s : state) (resolved withdrawn : option nat) : state :=
  State (m_options s) (m_flood_cap s) (m_jitter s) (m_bind_time s) (m_announcement s) (m_scratch s) resolved withdrawn (m_advertising s) (m_self_seen s).
Definition with_advertising (s : state) (on : bool) : state :=
  State (m_options s) (m_flood_cap s) (m_jitter s) (m_bind_time s) (m_announcement s) (m_scratch s) (m_on_resolved_cb s) (m_on_withdrawn_cb s) on (m_self_seen s).
Definition with_self_seen (s : state) : state :=
  State (m_options s) (m_flood_cap s) (m_jitter s) (m_bind_time s) (m_announcement s) (m_scratch s) (m_on_resolved_cb s) (m_on_withdrawn_cb s) (m_advertising s) true.

(** The constructor. *)
Definition make (options : discovery_options) (now : Z) : state * list event :=
  (State options (FloodCap (do_cap options) []) (seed_engine 0) now None [] None None false false, [Bound (do_port options)]).

Definition probe (s : state) (now window : Z) : discovery_health :=
  if m_self_seen s then healthy else
  if now - m_bind_time s >=? ns_per_ms * window then no_self_echo else not_yet.

Definition set_flags (ann : announcement) (flags : Z) : announcement :=
  Announcement (an_version ann) flags (an_universe ann) (an_node_id ann) (an_ttl_secs ann) (an_listens ann).

Definition emit_with_flags (s : state) (flags : Z) : option (state * list event) :=
  match m_announcement s with
  | None => Some (s, [])
  | Some ann =>
      let ann := set_flags ann flags in
      out ← encode_announcement_into (m_scratch s) ann;
      Some (with_scratch (with_announcement s (Some ann)) out, [SendMulticast out])
  end.

Definition emit_announcement (s : state) : option (state * list event) := emit_with_flags s 0.
Definition emit_goodbye (s : state) : option (state * list event) := emit_with_flags s k_announcement_goodbye_flag.

Definition arm_timer (s : state) : state * list event :=
  let '(delay, e) := jitter_next (m_jitter s) (announce_period (m_options s)) in
  (with_jitter s e, [TimerArmed delay]).

(** The handler of [arm_timer]'s wait. *)
Definition timer_handler (s : state) (ec : bool) : option (state * list event) :=
  if ec || negb (m_advertising s) then Some (s, []) else
  '(s, sent) ← emit_announcement s;
  let '(s, armed) := arm_timer s in
  Some (s, sent ++ armed).

Definition ttl_secs (s : state) : Z := wrap 64 (do_ttl (m_options s)).

Definition advertise (s : state) (service : service_info) : option (state * list event) :=
  let s := with_announcement s (announcement_from_service_info service (ttl_secs s) (do_universe (m_options s))) in
  let was_advertising := m_advertising s in
  let s := with_advertising s true in
  '(s, sent) ← emit_announcement s;
  if was_advertising then Some (s, sent) else
  ann ← m_announcement s;
  let '(s, armed) := arm_timer (with_jitter s (seed_engine (jitter_seed_from (an_node_id ann)))) in
  Some (s, sent ++ armed).

Definition browse (s : state) (on_resolved : option nat) : state := with_callbacks s on_resolved (m_on_withdrawn_cb s).
Definition on_withdrawn (s : state) (cb : option nat) : state := with_callbacks s (m_on_resolved_cb s) cb.

Definition stop (s : state) : option (state * list event) :=
  '(s, sent) ← (if m_advertising s then emit_goodbye s else Some (s, []));
  Some (with_advertising (with_callbacks s None None) false, [TimerCancelled] ++ sent ++ [SocketClosed]).

Definition dispatch (s : state) (ann : announcement) (source : bytes) (now : Z) : state * list event :=
  let info := service_info_from_announcement ann source in
  if negb (Z.land (an_flags ann) k_announcement_goodbye_flag =? 0) then
    match m_on_withdrawn_cb s with Some cb => (s, [Withdrawn cb info]) | None => (s, []) end
  else
  match m_on_resolved_cb s with
  | None => (s, [])
  | Some cb =>
      let '(ok, fc) := admit_source (m_flood_cap s) source now in
      (with_cap s fc, if ok then [Resolved cb info] else [])
  end.

Definition on_inbound (s : state) (source datagram : bytes) (now : Z) : state * list event :=
  match decode_announcement datagram with
  | None => (s, [])
  | Some ann =>
      if negb (an_universe ann =? do_universe (m_options s)) then (s, []) else
      match m_announcement s with
      | Some own => if decide (an_node_id ann = an_node_id own) then (with_self_seen s, []) else dispatch s ann source now
      | None => dispatch s ann source now
      end
  end.

(** ** [static_discovery.h] *)

Record static_state : Type := StaticState { m_table : list service_info; m_browsers : list nat }.

Fixpoint replace_or_push (table : list service_info) (service : service_info) : list service_info :=
  match table with
  | [] => [service]
  | e :: table => if decide (sv_name e = sv_name service) then service :: table else e :: replace_or_push table service
  end.

Definition static_advertise (s : static_state) (service : service_info) : static_state * list (nat * service_info) :=
  (StaticState (replace_or_push (m_table s) service) (m_browsers s), map (fun b => (b, service)) (m_browsers s)).

Definition static_browse (s : static_state) (on_resolved : nat) : static_state * list (nat * service_info) :=
  (StaticState (m_table s) (m_browsers s ++ [on_resolved]), map (fun e => (on_resolved, e)) (m_table s)).

Definition static_stop (s : static_state) : static_state := StaticState (m_table s) [].

End Leaf.

(** ** The flood cap *)

Record wf_cap_options (o : flood_cap_options) : Prop := WfCapOptions {
  wc_window : 0 < per_source_window o;
  wc_peers : 0 <= max_peers o;
  wc_rate : in_width 64 (per_source_max o);
}.

Section Cap.
Context {order : HashOrder} {laws : HashOrderLaws order}.

Definition cap_ok (fc : flood_cap) : Prop :=
  NoDup (map fst (m_peers fc)) /\ (capped (fc_options fc) = true -> zlen (m_peers fc) <= max_peers (fc_options fc)).

(** Requests served in order: the verdicts and the cap they leave. *)
Fixpoint admit_all (fc : flood_cap) (reqs : list (bytes * Z)) : list bool * flood_cap :=
  match reqs with
  | [] => ([], fc)
  | (source, now) :: reqs =>
      let '(ok, fc) := admit_source fc source now in
      let '(oks, fc) := admit_all fc reqs in (ok :: oks, fc)
  end.

(** How many requests of [source] were admitted. *)
Fixpoint admitted_of (source : bytes) (reqs : list (bytes * Z)) (oks : list bool) : Z :=
  match reqs, oks with
  | (s, _) :: reqs, ok :: oks => (if decide (s = source) then Z.b2z ok else 0) + admitted_of source reqs oks
  | _, _ => 0
  end.

Lemma find_peer_elem peers source st : NoDup (map fst peers) -> find_peer peers source = Some st <-> (source, st) ∈ peers.
Proof.
  intros Hn. induction peers as [| [s st'] peers IH]; [cbn; split; [done|]; by intros ?%elem_of_nil|]. cbn [find_peer]. cbn [map fst] in Hn. apply NoDup_cons in Hn as [Hs Hn].
  rewrite elem_of_cons. case_decide as Heq.
  - subst. split; [intros [= <-]; by left|]. intros [[= ->] | Hin]; [done|]. destruct Hs. by apply (list_elem_of_fmap_2 fst) in Hin.
  - rewrite IH by done. split; [by right|]. by intros [[= -> ->] | Hin].
Qed.

Lemma find_peer_None peers source : find_peer peers source = None <-> source ∉ map fst peers.
Proof.
  induction peers as [| [s st] peers IH]; [cbn; set_solver|]. cbn [find_peer map fst]. rewrite elem_of_cons. case_decide; [naive_solver|].
  rewrite IH. naive_solver.
Qed.

Lemma set_peer_keys peers source st : map fst (set_peer peers source st) = map fst peers.
Proof. induction peers as [| [s st'] peers IH]; [done|]. cbn [set_peer map fst] in *. f_equal; [|done]. by case_decide. Qed.

Lemma find_set_peer peers source st s : find_peer (set_peer peers source st) s = if decide (s = source) then (fun _ => st) <$> find_peer peers source else find_peer peers s.
Proof.
  induction peers as [| [s' st'] peers IH]; [cbn; by case_decide|]. unfold set_peer in *. cbn [map fst snd].
  destruct (decide (s' = source)) as [-> | Hne]; cbn [find_peer]; repeat case_decide; subst; try done; by rewrite IH, ?decide_True, ?decide_False by done.
Qed.

Lemma find_peer_perm peers peers' s : NoDup (map fst peers) -> peers ≡ₚ peers' -> find_peer peers s = find_peer peers' s.
Proof.
  intros Hn Hp. assert (NoDup (map fst peers')) as Hn' by (by rewrite <- Hp).
  apply option_eq. intros st. rewrite !find_peer_elem by done. by rewrite Hp.
Qed.

Lemma oldest_from_elem peers : forall e, oldest_from e peers = e \/ oldest_from e peers ∈ peers.
Proof.
  induction peers as [| e' peers IH]; intros e; [by left|]. cbn [oldest_from]. rewrite elem_of_cons.
  destruct (IH (if last_seen e'.2 <? last_seen e.2 then e' else e)) as [-> | Hin]; [|by auto]. destruct (_ <? _); auto.
Qed.

Lemma evict_shrinks peers : peers <> [] -> (length (evict_oldest peers) < length peers)%nat.
Proof.
  destruct peers as [| e peers]; [done|]. intros _. unfold evict_oldest.
  assert (oldest_from e (e :: peers) ∈ e :: peers) as Hin by (destruct (oldest_from_elem (e :: peers) e) as [-> | Hin]; [by left | done]).
  revert Hin. generalize (oldest_from e (e :: peers)). generalize (e :: peers). clear. intros l o Hin.
  induction l as [| x l IH]; [by apply elem_of_nil in Hin|]. rewrite filter_cons. pose proof (length_filter (fun e : bytes * source_state => e.1 <> o.1) l).
  apply elem_of_cons in Hin as [-> | Hin]; [rewrite decide_False by auto; cbn; lia|]. specialize (IH Hin). case_decide; cbn; lia.
Qed.

Lemma evict_nodup peers : NoDup (map fst peers) -> NoDup (map fst (evict_oldest peers)).
Proof.
  intros Hn. destruct peers as [| e peers]; [done|]. unfold evict_oldest. eapply sublist_NoDup; [exact Hn|].
  apply fmap_sublist, sublist_filter.
Qed.

Lemma evict_keys peers s : s ∈ map fst (evict_oldest peers) -> s ∈ map fst peers.
Proof. destruct peers as [| e peers]; [done|]. intros (x & -> & Hx)%list_elem_of_fmap. apply list_elem_of_fmap_2. by apply list_elem_of_filter in Hx as [_ ?]. Qed.

Lemma emplace_nodup peers source st : NoDup (map fst peers) -> source ∉ map fst peers -> NoDup (map fst (hash_emplace peers (source, st))).
Proof. intros Hn Hs. rewrite hash_emplace_perm. cbn [map fst]. by constructor. Qed.

Lemma admit_source_options fc source now : fc_options (admit_source fc source now).2 = fc_options fc.
Proof. unfold admit_source, admit_new. repeat case_match; simplify_eq/=; done. Qed.

Lemma admit_source_ok fc source now : wf_cap_options (fc_options fc) -> cap_ok fc -> cap_ok (admit_source fc source now).2.
Proof.
  intros Hwf [Hn Hsz]. unfold cap_ok. rewrite admit_source_options. unfold admit_source. destruct (find_peer _ _) as [st|] eqn:Hf.
  { destruct (refresh _ _ _). cbn [snd m_peers]. split; [by rewrite set_peer_keys|]. unfold zlen in *. unfold set_peer. by rewrite length_map. }
  apply find_peer_None in Hf. unfold admit_new. destruct (capped _) eqn:Hcap; cbn [andb]; [|split; [by apply emplace_nodup|done]].
  specialize (Hsz eq_refl). destruct (Z.geb_spec (zlen (m_peers fc)) (max_peers (fc_options fc))) as [Hge|Hlt].
  - destruct (evict_lru _); cbn [negb snd m_peers]; [|done]. split.
    + apply emplace_nodup; [by apply evict_nodup|]. by intros ?%evict_keys.
    + intros _. unfold zlen in *. rewrite hash_emplace_perm. cbn [length]. pose proof (evict_shrinks (m_peers fc)) as He.
      destruct (m_peers fc); [| specialize (He ltac:(done)); lia]. cbn in *. apply negb_true_iff, Z.eqb_neq in Hcap. destruct Hwf. lia.
  - cbn [snd m_peers]. split; [by apply emplace_nodup|]. intros _. unfold zlen in *. rewrite hash_emplace_perm. cbn [length]. lia.
Qed.

(** A source's admissions [n] since [t0], against its window. *)
Definition paced (o : flood_cap_options) (t0 t n : Z) (st : source_state) : Prop :=
  t0 <= window_start st <= t /\ 0 <= window_count st <= per_source_max o /\
  n <= per_source_max o * ((window_start st - t0) / (ns_per_ms * per_source_window o)) + window_count st.

Lemma rate_window_paced o t0 t n st now : wf_cap_options o -> rate_limited o = true -> paced o t0 t n st -> t <= now ->
  paced o t0 now (n + Z.b2z (rate_window_allows o st now).1) (rate_window_allows o st now).2.
Proof.
  intros [Hw _ Hr] Hlim (Hws & Hwc & Hn) Ht. unfold in_width in Hr. unfold rate_window_allows. rewrite Hlim. cbn [negb].
  set (W := ns_per_ms * per_source_window o) in *. assert (0 < W) by (unfold W, ns_per_ms; lia).
  set (st' := if now - window_start st >=? W then SourceState (last_seen st) now 0 else st). assert (paced o t0 now n st') as (Hws' & Hwc' & Hn').
  { unfold st'. destruct (Z.geb_spec (now - window_start st) W) as [Hge|Hlt]; unfold paced; fold W; cbn [window_start window_count]; [|lia].
    split; [lia|]. split; [lia|].
    assert ((window_start st - t0) / W + 1 <= (now - t0) / W) by (rewrite <- Z.div_add by lia; apply Z.div_le_mono; lia). nia. }
  fold W in Hn'. destruct (Z.geb_spec (window_count st') (per_source_max o)) as [Hge|Hlt]; unfold paced; fold W; cbn [fst snd window_start window_count Z.b2z]; [lia|].
  rewrite wrap_small by (unfold in_width; lia). lia.
Qed.

Lemma refresh_paced o t0 t n st now : wf_cap_options o -> rate_limited o = true -> paced o t0 t n st -> t <= now ->
  paced o t0 now (n + Z.b2z (refresh o st now).1) (refresh o st now).2.
Proof.
  intros Hwf Hlim Hp Ht. pose proof (rate_window_paced o t0 t n st now Hwf Hlim Hp Ht) as Hr. unfold refresh.
  destruct (rate_window_allows o st now) as [[] st']; [exact Hr | exact Hr].
Qed.

Lemma admit_source_keeps fc source now s st : evict_lru (fc_options fc) = false -> NoDup (map fst (m_peers fc)) ->
  find_peer (m_peers fc) s = Some st ->
  find_peer (m_peers (admit_source fc source now).2) s = Some (if decide (s = source) then (refresh (fc_options fc) st now).2 else st) /\
  (s = source -> (admit_source fc source now).1 = (refresh (fc_options fc) st now).1).
Proof.
  intros Hev Hn Hs. unfold admit_source. destruct (find_peer (m_peers fc) source) as [st'|] eqn:Hf.
  - split.
    + destruct (refresh _ st' _) as [ok st''] eqn:Hr. cbn [snd m_peers]. rewrite find_set_peer. case_decide as Heq; [|done].
      subst. rewrite Hf in *. cbn. simplify_eq. by rewrite Hr.
    + intros ->. simplify_eq. by destruct (refresh _ _ _).
  - split; [|intros ->; congruence]. rewrite decide_False by congruence. unfold admit_new. rewrite Hev. cbn [negb].
    apply find_peer_None in Hf. assert (find_peer (hash_emplace (m_peers fc) (source, SourceState now now 1)) s = Some st).
    { rewrite (find_peer_perm _ ((source, SourceState now now 1) :: m_peers fc)) by (by apply emplace_nodup || apply hash_emplace_perm).
      cbn [find_peer]. rewrite decide_False; [done|]. intros <-. apply find_peer_None in Hf. congruence. }
    by destruct (_ && _).
Qed.

Lemma admit_new_found fc source now : NoDup (map fst (m_peers fc)) -> evict_lru (fc_options fc) = false -> find_peer (m_peers fc) source = None ->
  if (admit_source fc source now).1 then find_peer (m_peers (admit_source fc source now).2) source = Some (SourceState now now 1)
  else (admit_source fc source now).2 = fc.
Proof.
  intros Hn Hev Hf. unfold admit_source. rewrite Hf. unfold admit_new. rewrite Hev. cbn [negb]. apply find_peer_None in Hf.
  assert (find_peer (hash_emplace (m_peers fc) (source, SourceState now now 1)) source = Some (SourceState now now 1)).
  { rewrite (find_peer_perm _ ((source, SourceState now now 1) :: m_peers fc)) by (by apply emplace_nodup || apply hash_emplace_perm).
    cbn [find_peer]. by rewrite decide_True. }
  by destruct (_ && _).
Qed.

Definition tracked (fc : flood_cap) (source : bytes) (t0 t n : Z) : Prop :=
  match find_peer (m_peers fc) source with Some st => paced (fc_options fc) t0 t n st | None => n = 0 end.

Lemma admit_source_tracked fc source t0 t n s now : wf_cap_options (fc_options fc) -> rate_limited (fc_options fc) = true ->
  evict_lru (fc_options fc) = false -> cap_ok fc -> tracked fc source t0 t n -> t0 <= t -> t <= now ->
  tracked (admit_source fc s now).2 source t0 now (n + (if decide (s = source) then Z.b2z (admit_source fc s now).1 else 0)).
Proof.
  intros Hwf Hlim Hev [Hn Hsz] Htr Ht0 Ht. unfold tracked in *. rewrite admit_source_options. destruct (find_peer (m_peers fc) source) as [st|] eqn:Hf.
  - destruct (admit_source_keeps fc s now source st Hev Hn Hf) as [-> Hok]. destruct (decide (s = source)) as [->|Hne].
    + rewrite decide_True by done. rewrite Hok by done. by eapply refresh_paced.
    + rewrite decide_False by congruence. rewrite Z.add_0_r. destruct Htr as (? & ? & ?). split; [lia|done].
  - subst n. destruct (decide (s = source)) as [-> | Hne].
    + pose proof (admit_new_found fc source now Hn Hev Hf) as Hnew. destruct (admit_source fc source now) as [[] fc'] eqn:Ha; cbn [fst snd] in *.
      * rewrite Hnew. apply negb_true_iff, Z.eqb_neq in Hlim. destruct Hwf as [Hw _ Hr]. unfold in_width in Hr. unfold paced. cbn [window_start window_count Z.b2z].
        split; [lia|]. split; [lia|]. assert (0 <= (now - t0) / (ns_per_ms * per_source_window (fc_options fc))) by (apply Z.div_pos; unfold ns_per_ms; lia). nia.
      * subst. by rewrite Hf.
    + assert (find_peer (m_peers (admit_source fc s now).2) source = None) as ->; [|done].
      unfold admit_source. destruct (find_peer (m_peers fc) s) as [st|] eqn:Hs.
      * destruct (refresh _ _ _). cbn [snd m_peers]. by rewrite find_set_peer, decide_False by congruence.
      * apply find_peer_None in Hs. unfold admit_new. rewrite Hev. cbn [negb].
        assert (find_peer (hash_emplace (m_peers fc) (s, SourceState now now 1)) source = None).
        { rewrite (find_peer_perm _ ((s, SourceState now now 1) :: m_peers fc)) by (by apply emplace_nodup || apply hash_emplace_perm).
          cbn [find_peer]. by rewrite decide_False. }
        by destruct (_ && _).
Qed.

Lemma admit_all_tracked reqs : forall fc source t0 t t1 n, wf_cap_options (fc_options fc) -> rate_limited (fc_options fc) = true ->
  evict_lru (fc_options fc) = false -> cap_ok fc -> tracked fc source t0 t n -> t0 <= t <= t1 ->
  Sorted Z.le (t :: map snd reqs) -> Forall (fun r => r.2 <= t1) reqs ->
  tracked (admit_all fc reqs).2 source t0 t1 (n + admitted_of source reqs (admit_all fc reqs).1) /\ cap_ok (admit_all fc reqs).2 /\
  fc_options (admit_all fc reqs).2 = fc_options fc.
Proof.
  induction reqs as [| [s now] reqs IH]; intros fc source t0 t t1 n Hwf Hlim Hev Hok Htr Ht Hsort Hall.
  - cbn. split; [|done]. rewrite Z.add_0_r. unfold tracked in *. case_match; [|done]. destruct Htr as (? & ? & ?). split; [lia|done].
  - cbn [map snd] in Hsort. inversion Hsort as [|? ? Hsort' Hhd]; subst. inversion Hhd; subst. inversion Hall; subst. cbn [snd] in *.
    pose proof (admit_source_tracked fc source t0 t n s now Hwf Hlim Hev Hok Htr ltac:(lia) ltac:(lia)) as Htr'.
    pose proof (admit_source_ok fc s now Hwf Hok) as Hok'. pose proof (admit_source_options fc s now) as Ho.
    cbn [admit_all admitted_of]. destruct (admit_source fc s now) as [ok fc']. cbn [fst snd] in *.
    destruct (IH fc' source t0 now t1 _ ltac:(by rewrite Ho) ltac:(by rewrite Ho) ltac:(by rewrite Ho) Hok' Htr' ltac:(lia) Hsort' ltac:(done)) as (IH1 & IH2 & IH3).
    destruct (admit_all fc' reqs) as [oks fc'']. cbn [fst snd] in *. rewrite Z.add_assoc. rewrite IH3. by rewrite Ho in *.
Qed.

(** C24: With the rate limit on and eviction off (the defaults), however the requests of all sources
    interleave, one source is admitted at most [per_source_max] times per elapsed window (the current
    one included), the distinct admitted sources never exceed [max_peers], and no source that holds a
    slot loses it to a flood of others. *)
Theorem flood_cap_bounds_sources o reqs t0 t1 : wf_cap_options o -> rate_limited o = true -> evict_lru o = false ->
  Sorted Z.le (t0 :: map snd reqs) -> t0 <= t1 -> Forall (fun r => r.2 <= t1) reqs ->
  let '(oks, fc) := admit_all (FloodCap o []) reqs in
  (forall source, admitted_of source reqs oks <= per_source_max o * ((t1 - t0) / (ns_per_ms * per_source_window o) + 1)) /\
  (capped o = true -> zlen (m_peers fc) <= max_peers o) /\
  (forall source st later, find_peer (m_peers fc) source = Some st -> is_Some (find_peer (m_peers (admit_all fc later).2) source)).
Proof.
  intros Hwf Hlim Hev Hsort Ht Hall. assert (cap_ok (FloodCap o [])) as Hok by (split; [constructor|]; intros; cbn; by destruct Hwf).
  pose proof (fun source => admit_all_tracked reqs (FloodCap o []) source t0 t0 t1 0 Hwf Hlim Hev Hok eq_refl ltac:(lia) Hsort Hall) as Htr.
  destruct (admit_all (FloodCap o []) reqs) as [oks fc]. cbn [fst snd fc_options] in Htr. split; [|split].
  - intros source. destruct (Htr source) as (Hp & _ & Ho). unfold tracked in Hp. rewrite Ho in Hp. destruct Hwf as [Hw _ Hr]. unfold in_width in Hr.
    set (W := ns_per_ms * per_source_window o) in *. assert (0 < W) by (unfold W, ns_per_ms; lia).
    assert (0 <= (t1 - t0) / W) by (apply Z.div_pos; lia). destruct (find_peer _ _) as [st|]; [|nia].
    destruct Hp as (Hws & Hwc & Hn). fold W in Hn. assert ((window_start st - t0) / W <= (t1 - t0) / W) by (apply Z.div_le_mono; lia). nia.
  - intros Hcap. destruct (Htr []) as (_ & [_ Hsz] & Ho). rewrite Ho in Hsz. by apply Hsz.
  - intros source st later Hf. destruct (Htr []) as (_ & Hok' & Ho). clear Htr Hsort Hall Hok oks. revert fc st Hf Hok' Ho.
    induction later as [| [s now] later IH]; intros fc st Hf Hok' Ho; [by eexists|]. cbn [admit_all].
    destruct (admit_source_keeps fc s now source st ltac:(by rewrite Ho) (proj1 Hok') Hf) as [Hf' _].
    pose proof (admit_source_ok fc s now ltac:(by rewrite Ho) Hok') as Hok''. pose proof (admit_source_options fc s now) as Ho'.
    destruct (admit_source fc s now) as [ok fc']. cbn [fst snd] in *. specialize (IH fc' _ Hf' Hok'' ltac:(by rewrite Ho')).
    by destruct (admit_all fc' later).
Qed.

End Cap.

(** ** From one node's card to another node's callback *)

Section EndToEnd.
Context {host : Host} {order : HashOrder} {rng : Rng} {rng_laws : RngLaws rng}.

Record wf_card (o : discovery_options) (id : bytes) (ts : list listening_transport) : Prop := WfCard {
  wd_id : length id = 16%nat;
  wd_listens : wf_listens ts;
  wd_count : in_width 8 (zlen ts);
  wd_names : Forall (fun t => in_width 8 (zlen (lt_transport t))) ts;
  wd_universe : in_width 32 (do_universe o);
  wd_ttl : in_width 32 (do_ttl o);
}.

Definition announcement_of (o : discovery_options) (id : bytes) (ts : list listening_transport) (flags : Z) : announcement :=
  announcement_from_card id ts (wrap 64 (do_ttl o)) flags (do_universe o).

Definition card_info (id : bytes) (ts : list listening_transport) (source : bytes) : service_info :=
  ServiceInfo (hex_encode id) [] source (assemble_contact_card id ts).

Lemma wf_announcement_of o id ts flags : wf_card o id ts -> in_width 8 flags -> wf_announcement (announcement_of o id ts flags).
Proof.
  intros [Hid [Hn Hne Hp] Hc Hnm Hu Ht] Hf. constructor; cbn; try done.
  - apply wrap_range. lia.
  - unfold zlen in *. by rewrite length_map.
  - apply Forall_fmap. eapply Forall_impl; [apply Forall_and; split; [exact Hnm|exact Hp]|]. by intros [t p] [? ?].
Qed.

Lemma announcement_of_service o id ts name scheme addr : wf_card o id ts ->
  announcement_from_service_info (ServiceInfo name scheme addr (assemble_contact_card id ts)) (wrap 64 (do_ttl o)) (do_universe o) =
  Some (announcement_of o id ts 0).
Proof.
  intros [Hid Hl _ _ _ _]. unfold announcement_from_service_info. cbn [sv_metadata].
  change (match assemble_contact_card id ts with [] => [] | (_, v) :: _ => v end) with (hex_encode id). rewrite hex_decode_encode by done. cbn [mbind option_bind]. by rewrite listens_from_card_assembled.
Qed.

Lemma info_of_announcement o id ts flags source : service_info_from_announcement (announcement_of o id ts flags) source = card_info id ts source.
Proof.
  unfold service_info_from_announcement, announcement_of, announcement_from_card, card_info. cbn [an_node_id an_listens]. do 2 f_equal.
  rewrite map_map. rewrite <- (map_id ts) at 2. by apply map_ext; intros [].
Qed.

(** Any announcement with an identity is sent, with the given flags. *)
Lemma emit_spec s ann flags : m_announcement s = Some ann -> length (an_node_id ann) = 16%nat ->
  exists s', emit_with_flags s flags = Some (s', [SendMulticast (announcement_layout (set_flags ann flags))]) /\
    m_announcement s' = Some (set_flags ann flags) /\ m_advertising s' = m_advertising s /\ m_options s' = m_options s /\
    m_jitter s' = m_jitter s.
Proof.
  intros Hann Hid. unfold emit_with_flags. rewrite Hann. rewrite encode_announcement_spec by done. cbn [mbind option_bind]. by eexists.
Qed.

Lemma emit_card s o id ts flags flags' : wf_card o id ts -> m_announcement s = Some (announcement_of o id ts flags') ->
  exists s', emit_with_flags s flags = Some (s', [SendMulticast (announcement_layout (announcement_of o id ts flags))]) /\
    m_announcement s' = Some (announcement_of o id ts flags) /\ m_advertising s' = m_advertising s /\ m_options s' = m_options s /\
    m_jitter s' = m_jitter s.
Proof. intros Hwf Hann. apply (emit_spec s _ flags Hann). apply Hwf. Qed.

Lemma inbound_card s o id ts flags source now : wf_card o id ts -> do_universe o = do_universe (m_options s) -> in_width 8 flags ->
  (forall own, m_announcement s = Some own -> id <> an_node_id own) ->
  on_inbound s source (announcement_layout (announcement_of o id ts flags)) now = dispatch s (announcement_of o id ts flags) source now.
Proof.
  intros Hwf Hu Hf Hown. unfold on_inbound. rewrite <- (app_nil_r (announcement_layout _)), decode_announcement_layout by (by apply wf_announcement_of).
  cbn [an_universe announcement_of announcement_from_card]. rewrite Hu, Z.eqb_refl. cbn [negb]. destruct (m_announcement s) as [own|]; [|done].
  rewrite decide_False; [done|]. by apply Hown.
Qed.

(** The announcement a service stands for. *)
Definition announcement_for (o : discovery_options) (service : service_info) : option announcement :=
  announcement_from_service_info service (wrap 64 (do_ttl o)) (do_universe o).

Definition sends (ann : option announcement) : list event :=
  match ann with Some ann => [SendMulticast (announcement_layout ann)] | None => [] end.

Lemma announcement_for_shape o service ann : announcement_for o service = Some ann ->
  length (an_node_id ann) = 16%nat /\ set_flags ann 0 = ann.
Proof.
  unfold announcement_for, announcement_from_service_info. destruct (hex_decode _) as [id|] eqn:Hid; [|done]. cbn [mbind option_bind].
  intros [= <-]. split; [by apply length_hex_decode in Hid|done].
Qed.

(** [advertise] of any service: sent if it has an identity, the timer armed if it was not advertising. *)
Lemma advertise_spec s service s' evs : advertise s service = Some (s', evs) ->
  m_options s' = m_options s /\ m_advertising s' = true /\ m_announcement s' = announcement_for (m_options s) service /\
  exists armed, evs = sends (announcement_for (m_options s) service) ++ armed /\
    (m_advertising s = true /\ armed = [] \/ m_advertising s = false /\ exists d, armed = [TimerArmed d]).
Proof.
  unfold advertise, ttl_secs. fold (announcement_for (m_options s) service).
  destruct (announcement_for (m_options s) service) as [ann|] eqn:Hann.
  - destruct (announcement_for_shape _ _ _ Hann) as [Hid Hf].
    destruct (emit_spec (with_advertising (with_announcement s (Some ann)) true) ann 0) as (s1 & He & Ha & Hadv & Ho & Hj); [done|done|].
    rewrite Hf in *. unfold emit_announcement. rewrite He. cbn [mbind option_bind m_advertising with_announcement].
    destruct (m_advertising s).
    + intros [= <- <-]. split_and!; try done. exists []. split; [done|by left].
    + rewrite Ha. cbn [mbind option_bind]. unfold arm_timer. destruct (jitter_next _ _) as [d e']. intros [= <- <-].
      split_and!; try done. exists [TimerArmed d]. split; [done|]. right. split; [done|]. by exists d.
  - unfold emit_announcement, emit_with_flags. cbn [m_announcement with_advertising with_announcement mbind option_bind m_advertising].
    destruct (m_advertising s); [|done]. intros [= <- <-]. split_and!; try done. exists []. split; [done|by left].
Qed.

Lemma advertise_card s name scheme addr id ts : wf_card (m_options s) id ts ->
  exists s' armed, advertise s (ServiceInfo name scheme addr (assemble_contact_card id ts)) =
      Some (s', SendMulticast (announcement_layout (announcement_of (m_options s) id ts 0)) :: armed) /\
    m_announcement s' = Some (announcement_of (m_options s) id ts 0) /\ m_advertising s' = true /\ m_options s' = m_options s.
Proof.
  intros Hwf. set (service := ServiceInfo _ _ _ _).
  assert (announcement_for (m_options s) service = Some (announcement_of (m_options s) id ts 0)) as Ha by (by apply announcement_of_service).
  assert (is_Some (advertise s service)) as [[s' evs] Hs].
  { unfold advertise, ttl_secs. fold (announcement_for (m_options s) service). rewrite Ha.
    destruct (emit_spec (with_advertising (with_announcement s (Some (announcement_of (m_options s) id ts 0))) true) (announcement_of (m_options s) id ts 0) 0)
      as (s1 & He & Ha1 & _); [done|apply Hwf|].
    unfold emit_announcement. rewrite He. cbn [mbind option_bind m_advertising with_announcement]. destruct (m_advertising s); [done|].
    rewrite Ha1. cbn [mbind option_bind]. by destruct (arm_timer _). }
  destruct (advertise_spec _ _ _ _ Hs) as (Ho & Hadv & Hann & armed & -> & _). rewrite Ha in *. by exists s', armed.
Qed.

(** A receiver in the sender's universe that is not the sender. *)
Definition foreign (o : discovery_options) (id : bytes) (b : state) : Prop :=
  do_universe o = do_universe (m_options b) /\ forall own, m_announcement b = Some own -> id <> an_node_id own.

(** C23: A node that advertises an assembled card puts a datagram on the wire, and when it stops
    afterwards a last one, such that at every other node of the same universe, in whatever state
    that node is: the first datagram calls the resolve callback, if one is set and the flood cap
    admits the source in that state, with exactly that card, metadata byte for byte, under the
    address the datagram came from, and calls nothing otherwise; the last one calls the withdraw
    callback, if one is set, with the same card, whatever the flood cap would say, and leaves the
    receiver's state, flood cap included, as it was.  The card is one the library assembles
    ([wf_card]: a 16-byte identity, distinct non-empty transport names of at most 255 bytes, at
    most 255 of them, 16-bit ports, universe and ttl of their widths). *)
Theorem advertised_card_is_resolved s name scheme addr id ts : wf_card (m_options s) id ts ->
  exists s' hello armed s'' bye,
    advertise s (ServiceInfo name scheme addr (assemble_contact_card id ts)) = Some (s', SendMulticast hello :: armed) /\
    stop s' = Some (s'', [TimerCancelled; SendMulticast bye; SocketClosed]) /\
    forall b source now, foreign (m_options s) id b ->
      let info := ServiceInfo (hex_encode id) [] source (assemble_contact_card id ts) in
      on_inbound b source hello now =
        match m_on_resolved_cb b with
        | None => (b, [])
        | Some cb => (with_cap b (admit_source (m_flood_cap b) source now).2,
                      if (admit_source (m_flood_cap b) source now).1 then [Resolved cb info] else [])
        end /\
      on_inbound b source bye now = (b, match m_on_withdrawn_cb b with Some cb => [Withdrawn cb info] | None => [] end).
Proof.
  intros Hwf. destruct (advertise_card s name scheme addr id ts Hwf) as (s' & armed & Hadv & Hann & Hon & Ho).
  destruct (emit_card s' (m_options s) id ts 1 0 Hwf) as (s2 & He & _); [done|].
  eexists s', _, armed, _, _. split; [exact Hadv|]. split.
  { unfold stop, emit_goodbye. rewrite Hon. change k_announcement_goodbye_flag with 1. rewrite He. done. }
  intros b source now [Hu Hown]. rewrite !inbound_card by done. unfold dispatch. rewrite !info_of_announcement.
  cbn [an_flags announcement_of announcement_from_card]. change (negb (Z.land 0 k_announcement_goodbye_flag =? 0)) with false.
  change (negb (Z.land 1 k_announcement_goodbye_flag =? 0)) with true. cbn match. split; [|by destruct (m_on_withdrawn_cb b)].
  destruct (m_on_resolved_cb b); [|done]. by destruct (admit_source _ _ _).
Qed.

(** A datagram that does not decode or belongs to another universe leaves the leaf as it is and
    calls nothing; the node's own echo only marks the self-probe. *)
Lemma ignored_datagrams s source datagram now :
  match decode_announcement datagram with
  | None => on_inbound s source datagram now = (s, [])
  | Some ann =>
      (an_universe ann <> do_universe (m_options s) -> on_inbound s source datagram now = (s, [])) /\
      (forall own, an_universe ann = do_universe (m_options s) -> m_announcement s = Some own -> an_node_id ann = an_node_id own ->
        on_inbound s source datagram now = (with_self_seen s, []))
  end.
Proof.
  unfold on_inbound. destruct (decode_announcement datagram) as [ann|]; [|done]. split.
  - intros Hne. by rewrite (proj2 (Z.eqb_neq _ _) Hne).
  - intros own -> -> ->. rewrite Z.eqb_refl. cbn [negb]. by rewrite decide_True.
Qed.

(** ** Re-announcing *)

Lemma jitter_next_range e period : 0 < period -> 1 <= (jitter_next e period).1 <= period.
Proof.
  intros Hp. unfold jitter_next. destruct (Z.leb_spec (jitter_span period) 0) as [Hs|Hs]; [cbn; lia|].
  assert (0 <= jitter_span period) as Hs' by lia. pose proof (uniform_range e (jitter_span period) Hs') as Hu. destruct (uniform e (jitter_span period)) as [drawn e']. cbn [fst] in *.
  destruct (Z.gtb_spec (period - drawn) 0); cbn [fst]; lia.
Qed.

(** The leaf in its surroundings: whether a wait of its timer is pending, how many waits have
    expired and left their handler in the executor's queue, whether the socket is open, and the
    service advertised last. *)
Record config : Type := Config { cf_state : state; cf_armed : bool; cf_queued : nat; cf_open : bool; cf_service : option service_info }.

(** What the timer and the socket make of the operations' events. *)
Definition after (ev : event) (c : config) : config :=
  match ev with
  | TimerArmed _ => Config (cf_state c) true (cf_queued c) (cf_open c) (cf_service c)
  | TimerCancelled => Config (cf_state c) false (cf_queued c) (cf_open c) (cf_service c)
  | SocketClosed => Config (cf_state c) (cf_armed c) (cf_queued c) false (cf_service c)
  | _ => c
  end.
Definition after_all (evs : list event) (c : config) : config := foldl (fun c ev => after ev c) c evs.

(** A handler already queued runs with success even after a cancel; the handler of a cancelled
    wait runs with an error at any time.  A closed socket delivers nothing. *)
Inductive leaf_step : config -> list event -> config -> Prop :=
| StepAdvertise s a q op sv service s' evs : advertise s service = Some (s', evs) ->
    leaf_step (Config s a q op sv) evs (after_all evs (Config s' a q op (Some service)))
| StepBrowse s a q op sv cb : leaf_step (Config s a q op sv) [] (Config (browse s cb) a q op sv)
| StepOnWithdrawn s a q op sv cb : leaf_step (Config s a q op sv) [] (Config (on_withdrawn s cb) a q op sv)
| StepStop s a q op sv s' evs : stop s = Some (s', evs) -> leaf_step (Config s a q op sv) evs (after_all evs (Config s' a q op sv))
| StepInbound s a q sv source datagram now s' evs : on_inbound s source datagram now = (s', evs) ->
    leaf_step (Config s a q true sv) evs (after_all evs (Config s' a q true sv))
| StepExpire s q op sv : leaf_step (Config s true q op sv) [] (Config s false (S q) op sv)
| StepHandler s a q op sv s' evs : timer_handler s false = Some (s', evs) ->
    leaf_step (Config s a (S q) op sv) evs (after_all evs (Config s' a q op sv))
| StepAborted s a q op sv s' evs : timer_handler s true = Some (s', evs) ->
    leaf_step (Config s a q op sv) evs (after_all evs (Config s' a q op sv)).

Inductive reachable (o : discovery_options) (t0 : Z) : config -> Prop :=
| ReachMake : reachable o t0 (Config (make o t0).1 false 0 true None)
| ReachStep c evs c' : reachable o t0 c -> leaf_step c evs c' -> reachable o t0 c'.

Definition current (o : discovery_options) (service : service_info) (s : state) : Prop :=
  exists flags, m_announcement s = (fun ann => set_flags ann flags) <$> announcement_for o service.

Definition leaf_inv (o : discovery_options) (c : config) : Prop :=
  m_options (cf_state c) = o /\
  if m_advertising (cf_state c)
  then (cf_armed c = true \/ (0 < cf_queued c)%nat) /\ exists service, cf_service c = Some service /\ current o service (cf_state c)
  else cf_armed c = false.

Lemma after_sends ann c : after_all (sends ann) c = c.
Proof. by destruct ann. Qed.

Lemma after_all_app evs evs' c : after_all (evs ++ evs') c = after_all evs' (after_all evs c).
Proof. apply foldl_app. Qed.

(** The handler of a node that advertises: the current announcement, then the timer again. *)
Lemma timer_rearms o s service : m_options s = o -> m_advertising s = true -> current o service s ->
  exists s' e, timer_handler s false = Some (s', sends (announcement_for o service) ++ [TimerArmed (jitter_next e (announce_period o)).1]) /\
    m_options s' = o /\ m_advertising s' = true /\ current o service s'.
Proof.
  intros Ho Hadv [flags Hann]. unfold timer_handler. rewrite Hadv. cbn [orb negb]. unfold emit_announcement.
  destruct (announcement_for o service) as [ann|] eqn:Hfor; cbn in Hann.
  - destruct (announcement_for_shape _ _ _ Hfor) as [Hid Hf0].
    destruct (emit_spec s (set_flags ann flags) 0 Hann Hid) as (s' & -> & Hann' & Hadv' & Ho' & _). cbn [mbind option_bind].
    change (set_flags (set_flags ann flags) 0) with (set_flags ann 0) in *. rewrite Hf0 in *. unfold arm_timer. rewrite Ho', Ho.
    destruct (jitter_next (m_jitter s') (announce_period o)) as [d e'] eqn:Hd. eexists _, (m_jitter s'). rewrite Hd. split; [done|].
    split; [cbn; congruence|]. split; [cbn; congruence|]. exists 0. cbn. rewrite Hfor. cbn. congruence.
  - unfold emit_with_flags. rewrite Hann. cbn [mbind option_bind]. unfold arm_timer. rewrite Ho.
    destruct (jitter_next (m_jitter s) (announce_period o)) as [d e'] eqn:Hd. eexists _, (m_jitter s). rewrite Hd. split; [done|].
    split; [done|]. split; [done|]. exists 0. cbn. by rewrite Hfor.
Qed.

Lemma on_inbound_frame s source datagram now :
  m_options (on_inbound s source datagram now).1 = m_options s /\ m_advertising (on_inbound s source datagram now).1 = m_advertising s /\
  m_announcement (on_inbound s source datagram now).1 = m_announcement s /\
  forall c, after_all (on_inbound s source datagram now).2 c = c.
Proof.
  unfold on_inbound. destruct (decode_announcement _) as [ann|]; [|done]. destruct (negb _); [done|].
  assert (forall x, x = dispatch s ann source now -> m_options x.1 = m_options s /\ m_advertising x.1 = m_advertising s /\
    m_announcement x.1 = m_announcement s /\ forall c, after_all x.2 c = c) as Hd.
  { intros x ->. unfold dispatch. repeat case_match; simplify_eq/=; done. }
  destruct (m_announcement s) as [own|] eqn:Hann; [case_decide|]; try (by apply (Hd _ eq_refl)). by rewrite <- Hann.
Qed.

Lemma stop_spec s : forall s' evs, stop s = Some (s', evs) -> m_options s' = m_options s /\ m_advertising s' = false /\
  forall c, cf_state (after_all evs c) = cf_state c /\ cf_armed (after_all evs c) = false.
Proof.
  intros s' evs. unfold stop, emit_goodbye, emit_with_flags. destruct (m_advertising s); [|intros [= <- <-]; done].
  destruct (m_announcement s); [|intros [= <- <-]; done]. destruct (encode_announcement_into _ _); [|done]. by intros [= <- <-].
Qed.

Lemma handler_inv o s a q op sv s' evs : leaf_inv o (Config s a (S q) op sv) -> timer_handler s false = Some (s', evs) ->
  leaf_inv o (after_all evs (Config s' a q op sv)).
Proof.
  intros [Ho Hinv] Ht. cbn [cf_state cf_armed cf_queued cf_service] in *. destruct (m_advertising s) eqn:Hadv.
  - destruct Hinv as (_ & service & -> & Hcur). destruct (timer_rearms o s service Ho Hadv Hcur) as (s2 & e & Ht' & H1 & H2 & H3).
    rewrite Ht in Ht'. simplify_eq. rewrite after_all_app, after_sends. split; [done|]. cbn. rewrite H2. split; [by left|]. by exists service.
  - unfold timer_handler in Ht. rewrite Hadv in Ht. cbn in Ht. simplify_eq. split; [done|]. cbn. by rewrite Hadv.
Qed.

Lemma leaf_step_inv o c evs c' : leaf_inv o c -> leaf_step c evs c' -> leaf_inv o c'.
Proof.
  intros Hinv Hstep. destruct Hstep as [s a q op sv service s' evs Hadv|s a q op sv cb|s a q op sv cb|s a q op sv s' evs Hst|
    s a q sv source datagram now s' evs Hin|s q op sv|s a q op sv s' evs Ht|s a q op sv s' evs Ht].
  - destruct Hinv as [Ho Hinv]. cbn [cf_state cf_armed cf_queued cf_service] in *.
    destruct (advertise_spec _ _ _ _ Hadv) as (Ho' & Hon & Hann & armed & -> & Hcase). rewrite after_all_app, after_sends.
    assert (current o service s') as Hcur.
    { exists 0. rewrite Hann, Ho. destruct (announcement_for o service) as [ann|] eqn:Hf; [|done]. cbn. by destruct (announcement_for_shape _ _ _ Hf) as [_ ->]. }
    destruct Hcase as [[Hs ->] | (Hs & d & ->)]; rewrite Hs in Hinv; (split; [cbn; congruence|]; cbn; rewrite Hon; split; [|by exists service]).
    + by destruct Hinv.
    + by left.
  - done.
  - done.
  - destruct Hinv as [Ho Hinv]. destruct (stop_spec s s' evs Hst) as (Ho' & Hoff & Hc). destruct (Hc (Config s' a q op sv)) as [Hcs Hca].
    unfold leaf_inv. rewrite Hcs, Hca. cbn in *. rewrite Hoff. split; [congruence|done].
  - pose proof (on_inbound_frame s source datagram now) as Hf. rewrite Hin in Hf. cbn [fst snd] in Hf. destruct Hf as (H1 & H2 & H3 & H4).
    rewrite H4. unfold leaf_inv, current in *. cbn [cf_state cf_armed cf_queued cf_service] in *. by rewrite H1, H2, H3.
  - destruct Hinv as [Ho Hinv]. split; [done|]. cbn in *. destruct (m_advertising s); [|done]. destruct Hinv as [_ Hs]. split; [right; lia|done].
  - by eapply handler_inv.
  - by inversion Ht; subst.
Qed.

Lemma leaf_reachable_inv o t0 c : reachable o t0 c -> leaf_inv o c.
Proof. intros Hr. induction Hr as [|c evs c' Hr IH Hstep]; [done|]. by eapply leaf_step_inv. Qed.

(** C33: In every state the leaf can reach, by advertising any service, stopping, browsing,
    receiving, expiries and handlers run late or with an error, a node that is advertising has a
    wait of its timer pending or an expired one whose handler is queued, and whenever such a
    handler runs it hands the socket the announcement of the service advertised last and arms the
    timer again with a delay of at least one tick and at most the period, so it goes on announcing
    for as long as it advertises; a node that is not advertising has no wait pending and sends
    nothing when a late handler runs.  A service whose card has no identity has no announcement:
    when it replaces an advertised one nothing is sent for it, but the timer goes on (given
    first, it is undefined behaviour, [advertise_needs_an_identity]).  [cf_open] tells whether a
    [stop] has closed the socket, which no later [advertise] opens again
    ([advertising_on_a_closed_socket]). *)
Theorem advertising_node_keeps_announcing o t0 c : reachable o t0 c -> 0 < announce_period o ->
  if m_advertising (cf_state c) then
    (cf_armed c = true \/ (0 < cf_queued c)%nat) /\ exists service s' delay, cf_service c = Some service /\
      timer_handler (cf_state c) false = Some (s', sends (announcement_for o service) ++ [TimerArmed delay]) /\
      1 <= delay <= announce_period o /\ m_advertising s' = true
  else cf_armed c = false /\ timer_handler (cf_state c) false = Some (cf_state c, []).
Proof.
  intros Hr Hp. destruct (leaf_reachable_inv o t0 c Hr) as [Ho Hinv]. destruct (m_advertising (cf_state c)) eqn:Hadv.
  - destruct Hinv as (Ha & service & Hs & Hcur). split; [done|].
    destruct (timer_rearms o (cf_state c) service Ho Hadv Hcur) as (s' & e & Ht & _ & H2 & _).
    exists service, s', (jitter_next e (announce_period o)).1. split; [done|]. split; [done|]. split; [by apply jitter_next_range|done].
  - split; [done|]. unfold timer_handler. by rewrite Hadv.
Qed.

(** A node that stops and advertises again goes on announcing, on a socket that stays closed. *)
Lemma advertising_on_a_closed_socket o t0 (name scheme addr id : bytes) ts : wf_card o id ts ->
  exists c, reachable o t0 c /\ m_advertising (cf_state c) = true /\ cf_armed c = true /\ cf_open c = false.
Proof.
  intros Hwf. set (s0 := (make o t0).1). set (service := ServiceInfo name scheme addr (assemble_contact_card id ts)).
  assert (stop s0 = Some (with_advertising (with_callbacks s0 None None) false, [TimerCancelled; SocketClosed])) as Hst by done.
  destruct (advertise_card (with_advertising (with_callbacks s0 None None) false) name scheme addr id ts Hwf) as (s' & armed & Hadv & _).
  destruct (advertise_spec _ _ _ _ Hadv) as (_ & Hon & _ & armed' & Hev & [[? _] | (_ & d & Ha)]); [done|].
  eexists. split; [|split; [|split]].
  - eapply ReachStep; [eapply ReachStep; [apply ReachMake|exact (StepStop _ _ _ _ _ _ _ Hst)]|]. exact (StepAdvertise _ _ _ _ _ _ _ _ Hadv).
  - rewrite Hev, Ha, after_all_app, after_sends. exact Hon.
  - rewrite Hev, Ha, after_all_app, after_sends. done.
  - rewrite Hev, Ha, after_all_app, after_sends. done.
Qed.

(** A first [advertise] of a card whose first value is not an identity reads through the empty
    announcement. *)
Lemma advertise_needs_an_identity s service : m_advertising s = false ->
  hex_decode (match sv_metadata service with [] => [] | (_, v) :: _ => v end) = None -> advertise s service = None.
Proof.
  intros Hadv Hid. unfold advertise, announcement_from_service_info. rewrite Hid. cbn [mbind option_bind].
  unfold emit_announcement, emit_with_flags. cbn [m_announcement with_advertising with_announcement mbind option_bind m_advertising]. by rewrite Hadv.
Qed.

End EndToEnd.

(** ** The static table *)

Section Static.

Inductive static_op := OpAdvertise (service : service_info) | OpBrowse (cb : nat) | OpStop.

Definition static_step (s : static_state) (op : static_op) : static_state * list (nat * service_info) :=
  match op with
  | OpAdvertise service => static_advertise s service
  | OpBrowse cb => static_browse s cb
  | OpStop => (static_stop s, [])
  end.

Fixpoint static_run (s : static_state) (ops : list static_op) : static_state * list (nat * service_info) :=
  match ops with
  | [] => (s, [])
  | op :: ops => let '(s, evs) := static_step s op in let '(s, evs') := static_run s ops in (s, evs ++ evs')
  end.

(** The last notification a browser got about a name. *)
Definition last_seen_as (evs : list (nat * service_info)) (cb : nat) (name : bytes) : option service_info :=
  snd <$> last (filter (fun ev => ev.1 = cb /\ sv_name ev.2 = name) evs).

Definition static_inv (s : static_state) (evs : list (nat * service_info)) : Prop :=
  NoDup (map sv_name (m_table s)) /\
  forall cb e, cb ∈ m_browsers s -> e ∈ m_table s -> last_seen_as evs cb (sv_name e) = Some e.

Lemma last_seen_as_new evs evs' cb name e : last_seen_as evs' cb name = Some e -> last_seen_as (evs ++ evs') cb name = Some e.
Proof. unfold last_seen_as. rewrite filter_app, last_app. by destruct (last (filter _ evs')). Qed.

Lemma last_seen_as_old evs evs' cb name : last_seen_as evs' cb name = None -> last_seen_as (evs ++ evs') cb name = last_seen_as evs cb name.
Proof. unfold last_seen_as. rewrite filter_app, last_app. by destruct (last (filter _ evs')). Qed.

Lemma replace_or_push_names table service :
  map sv_name (replace_or_push table service) = map sv_name table ++ (if decide (sv_name service ∈ map sv_name table) then [] else [sv_name service]).
Proof.
  induction table as [| e table IH]; [cbn; done|]. cbn [replace_or_push map]. destruct (decide (sv_name e = sv_name service)) as [Heq|Hne].
  - cbn [map]. rewrite <- Heq. rewrite decide_True by (by left). by rewrite app_nil_r.
  - cbn [map app]. rewrite IH. f_equal. f_equal. repeat case_decide; set_solver.
Qed.

Lemma replace_or_push_elem table service e : NoDup (map sv_name table) -> e ∈ replace_or_push table service ->
  e = service \/ e ∈ table /\ sv_name e <> sv_name service.
Proof.
  intros Hn. induction table as [| e' table IH]; cbn [replace_or_push].
  { intros ->%list_elem_of_singleton. by left. }
  cbn [map] in Hn. apply NoDup_cons in Hn as [Hnin Hn]. destruct (decide (sv_name e' = sv_name service)) as [Heq|Hne]; rewrite !elem_of_cons.
  - intros [-> | Hin]; [by left|]. right. split; [by right|]. rewrite <- Heq. intros Hs. apply Hnin. rewrite <- Hs. by apply list_elem_of_fmap_2.
  - intros [-> | Hin]; [by auto|]. destruct (IH Hn Hin) as [-> | [? ?]]; auto.
Qed.

Lemma last_seen_broadcast browsers service cb : cb ∈ browsers -> last_seen_as (map (fun b => (b, service)) browsers) cb (sv_name service) = Some service.
Proof.
  intros Hin. unfold last_seen_as. destruct (last _) as [[b e]|] eqn:Hl.
  - cbn. apply last_Some_elem_of in Hl. apply list_elem_of_filter in Hl as [_ Hl]. apply list_elem_of_fmap in Hl as (? & [= -> ->] & _). done.
  - apply last_None in Hl. assert ((cb, service) ∈ filter (fun ev => ev.1 = cb /\ sv_name ev.2 = sv_name service) (map (fun b => (b, service)) browsers)) as Hf.
    { apply list_elem_of_filter. split; [done|]. by apply (list_elem_of_fmap_2 (fun b => (b, service))). }
    rewrite Hl in Hf. by apply elem_of_nil in Hf.
Qed.

Lemma last_seen_none evs cb name : (forall b e, (b, e) ∈ evs -> b = cb -> sv_name e <> name) -> last_seen_as evs cb name = None.
Proof.
  intros Hne. unfold last_seen_as. destruct (last _) as [[b e]|] eqn:Hl; [|done]. apply last_Some_elem_of, list_elem_of_filter in Hl as [[Hb Hn] Hin].
  by destruct (Hne b e Hin Hb).
Qed.

Lemma last_seen_table table cb e : NoDup (map sv_name table) -> e ∈ table -> last_seen_as (map (fun e => (cb, e)) table) cb (sv_name e) = Some e.
Proof.
  intros Hn. induction table as [| e' table IH]; [by intros ?%elem_of_nil|]. cbn [map] in *. apply NoDup_cons in Hn as [Hnin Hn].
  rewrite elem_of_cons. change ((cb, e') :: ?l) with ([(cb, e')] ++ l). intros [<- | Hin]; [|by apply last_seen_as_new, IH].
  rewrite last_seen_as_old.
  - unfold last_seen_as. by rewrite filter_cons_True.
  - apply last_seen_none. intros b x (y & [= -> ->] & Hy)%list_elem_of_fmap _ Heq. apply Hnin. rewrite <- Heq. by apply list_elem_of_fmap_2.
Qed.

Lemma static_step_inv s evs op : static_inv s evs -> static_inv (static_step s op).1 (evs ++ (static_step s op).2).
Proof.
  intros [Hn Hall]. destruct op as [service|cb|]; cbn [static_step static_advertise static_browse static_stop fst snd]; unfold static_inv; cbn [m_table m_browsers].
  - split.
    { rewrite replace_or_push_names. apply NoDup_app. split; [done|]. case_decide; [split; [set_solver|constructor]|]. split; [set_solver|apply NoDup_singleton]. }
    intros cb e Hcb He. destruct (replace_or_push_elem _ _ _ Hn He) as [-> | [Hin Hne]]; [by apply last_seen_as_new, last_seen_broadcast|].
    rewrite last_seen_as_old; [by apply Hall|]. apply last_seen_none. by intros b x (y & [= -> ->] & _)%list_elem_of_fmap _ Heq.
  - split; [done|]. intros cb' e Hcb He. destruct (decide (cb' = cb)) as [-> | Hne]; [by apply last_seen_as_new, last_seen_table|].
    rewrite last_seen_as_old; [|apply last_seen_none; by intros b x (y & [= -> ->] & _)%list_elem_of_fmap ->].
    apply elem_of_app in Hcb as [Hcb | ->%list_elem_of_singleton]; [|done]. by apply Hall.
  - split; [done|]. intros cb e Hcb. by apply elem_of_nil in Hcb.
Qed.

(** Every browser's last notification about a name is the entry the table holds for it, whatever
    mix of advertisements, browses and stops led there; names stay unique. *)
Lemma static_discovery_browsers_current table ops : NoDup (map sv_name table) ->
  let '(s, evs) := static_run (StaticState table []) ops in
  NoDup (map sv_name (m_table s)) /\ forall cb e, cb ∈ m_browsers s -> e ∈ m_table s -> last_seen_as evs cb (sv_name e) = Some e.
Proof.
  intros Hn. assert (forall ops s evs, static_inv s evs -> static_inv (static_run s ops).1 (evs ++ (static_run s ops).2)) as Hrun.
  { clear. induction ops as [| op ops IH]; intros s evs Hinv; [cbn; by rewrite app_nil_r|]. cbn [static_run].
    pose proof (static_step_inv s evs op Hinv) as Hs. destruct (static_step s op) as [s1 evs1]. cbn [fst snd] in Hs. specialize (IH s1 _ Hs).
    destruct (static_run s1 ops) as [s2 evs2]. cbn [fst snd] in *. by rewrite app_assoc. }
  specialize (Hrun ops (StaticState table []) []). destruct (static_run _ ops) as [s evs]. apply Hrun. split; [done|]. intros cb e Hcb. by apply elem_of_nil in Hcb.
Qed.

End Static.

(** ** Concrete runs *)

Section Runs.

#[local] Instance run_host : Host := little.
#[local] Instance append_order : HashOrder := { hash_emplace l e := l ++ [e] }.
#[local] Instance append_order_laws : HashOrderLaws append_order.
Proof. split. intros l e. cbn. by rewrite <- Permutation_cons_append. Qed.
#[local] Instance longest_rng : Rng := { engine := Z; seed_engine v := v; jitter_span period := 200; uniform e span := (span, e) }.
#[local] Instance longest_rng_laws : RngLaws longest_rng.
Proof. split. intros e span Hs. cbn. lia. Qed.

Definition noisy_requests : list (bytes * Z) :=
  map (fun k => (if Z.even k then text "10.0.0.1" else text "10.0.0.2", 100000000 * k)) [0; 1; 2; 4; 6; 8; 10; 12; 20].

Lemma flood_cap_bounds_sources_witness :
  admitted_of (text "10.0.0.1") noisy_requests (admit_all (FloodCap default_flood_cap_options []) noisy_requests).1 = 7 /\
  admitted_of (text "10.0.0.1") noisy_requests (admit_all (FloodCap default_flood_cap_options []) noisy_requests).1 <= 4 * (2000000000 / (ns_per_ms * 1000) + 1).
Proof.
  split; [by vm_compute|]. pose proof (flood_cap_bounds_sources default_flood_cap_options noisy_requests 0 2000000000) as H.
  destruct (admit_all (FloodCap default_flood_cap_options []) noisy_requests) as [oks fc]. apply H.
  - split; cbn; unfold in_width; lia.
  - done.
  - done.
  - repeat constructor; cbn; lia.
  - lia.
  - repeat constructor; cbn; lia.
Defined.

Definition run_id : bytes := map byte.of_Z [1; 2; 3; 4; 5; 6; 7; 8; 9; 10; 11; 12; 13; 14; 15; 16].
Definition run_listens : list listening_transport := [ListeningTransport (text "tcp") 7448; ListeningTransport (text "udp") 65535].
Definition run_sender : state := (make default_discovery_options 0).1.
Definition run_browser : state := on_withdrawn (browse (make default_discovery_options 0).1 (Some 1%nat)) (Some 2%nat).

Lemma run_card : wf_card default_discovery_options run_id run_listens.
Proof.
  constructor; [done| |by vm_compute| | |].
  - constructor; [|repeat constructor; done|repeat constructor; vm_compute; done]. cbn. apply NoDup_cons. split; [|apply NoDup_singleton].
    by intros ?%list_elem_of_singleton.
  - repeat constructor; vm_compute; done.
  - vm_compute; done.
  - vm_compute; done.
Qed.

Lemma run_browser_foreign : foreign (m_options run_sender) run_id run_browser.
Proof. split; [done|]. intros own [=]. Qed.

Lemma advertised_card_is_resolved_witness :
  exists s' hello armed s'' bye,
    advertise run_sender (ServiceInfo (text "n") [] [] (assemble_contact_card run_id run_listens)) = Some (s', SendMulticast hello :: armed) /\
    (on_inbound run_browser (text "10.0.0.9") hello 5).2 =
      [Resolved 1 (ServiceInfo (hex_encode run_id) [] (text "10.0.0.9") (assemble_contact_card run_id run_listens))] /\
    stop s' = Some (s'', [TimerCancelled; SendMulticast bye; SocketClosed]) /\
    on_inbound run_browser (text "10.0.0.9") bye 5 =
      (run_browser, [Withdrawn 2 (ServiceInfo (hex_encode run_id) [] (text "10.0.0.9") (assemble_contact_card run_id run_listens))]).
Proof.
  destruct (advertised_card_is_resolved run_sender (text "n") [] [] run_id run_listens run_card) as (s' & hello & armed & s'' & bye & H1 & H2 & H3).
  destruct (H3 run_browser (text "10.0.0.9") 5 run_browser_foreign) as [H4 H5].
  exists s', hello, armed, s'', bye. split; [exact H1|]. split; [|split; [exact H2|exact H5]]. rewrite H4. reflexivity.
Defined.

Definition run_service : service_info := ServiceInfo (text "n") [] [] (assemble_contact_card run_id run_listens).
Definition run_advertising : state := from_option fst run_sender (advertise run_sender run_service).
Definition run_events : list event := from_option snd [] (advertise run_sender run_service).

Lemma run_advertising_reachable : reachable default_discovery_options 0 (Config run_advertising true 0 true (Some run_service)).
Proof.
  eapply ReachStep; [apply ReachMake|].
  replace (Config run_advertising true 0 true (Some run_service)) with (after_all run_events (Config run_advertising false 0 true (Some run_service)))
    by (by vm_compute).
  apply (StepAdvertise run_sender false 0 true None run_service run_advertising run_events). by vm_compute.
Qed.

Lemma advertising_node_keeps_announcing_witness : exists service s' delay,
  Some run_service = Some service /\
  timer_handler run_advertising false = Some (s', sends (announcement_for default_discovery_options service) ++ [TimerArmed delay]) /\
  1 <= delay <= 1000 /\ m_advertising s' = true.
Proof.
  pose proof (advertising_node_keeps_announcing default_discovery_options 0 _ run_advertising_reachable ltac:(done)) as H.
  change (m_advertising (cf_state (Config run_advertising true 0 true (Some run_service)))) with (m_advertising run_advertising) in H.
  replace (m_advertising run_advertising) with true in H by (by vm_compute). exact (proj2 H).
Defined.

End Runs.

End Multicast.
