(* ===== verification/UdpTransport.v ===== *)
(** * Dialing and accepting over UDP

    Models [lib/plexus-datagram/include/plexus/datagram/detail/udp_handshake_arq.h] and
    [inbound_demux.h], [lib/plexus-core/include/plexus/io/pending_dial_registry.h], and
    [backends/plexus-asio/include/plexus/asio/]: [udp_transport.h] and
    [detail/udp_transport_setup.h], [detail/asio_error_map.h] and
    [detail/asio_udp_endpoint_parse.h].

    A channel is a handle into the heap of channels that were constructed and not yet destroyed;
    the demultiplexer holds handles it does not own, so a use of a handle that is not on the heap
    is a use after free, and such an operation is [None].  What a channel does with its data is
    [UdpChannel.v]; here a datagram handed to it is an event.  The socket, the timers, the
    posted continuations and the callbacks are events; the result of [bind], the drawn sequence
    number and the parsed host are arguments. *)

From Stdlib Require Import String.
From stdpp Require Import gmap.
From S2P Require Import Prelude ByteOrder Varint Cursor Frame UdpWire SendQueue Egress UdpChannel Announcement.

(** ** [udp_handshake_arq.h] *)

Module HandshakeArq.

Inductive event := Transmit | Established | TimedOut | ArmTimer (delay : Z) | CancelTimer.

Record udp_handshake_arq : Type := UdpHandshakeArq { m_ladder : list Z; m_attempt : Z; m_resolved : bool }.

Definition default_ladder : list Z := [250; 500; 1000].
Definition max_attempts : nat := 3.
Definition arq_new (ladder : list Z) : udp_handshake_arq := UdpHandshakeArq ladder 0 false.

Definition transmit (a : udp_handshake_arq) : udp_handshake_arq * list event :=
  (UdpHandshakeArq (m_ladder a) (wrap 8 (m_attempt a + 1)) (m_resolved a), [Transmit]).

(** [None]: an index outside the ladder. *)
Definition arm (a : udp_handshake_arq) : option (list event) :=
  if m_attempt a - 1 <? 0 then None else
  delay ← m_ladder a !! Z.to_nat (m_attempt a - 1);
  Some [ArmTimer delay].

Definition start (a : udp_handshake_arq) : option (udp_handshake_arq * list event) :=
  if m_resolved a then Some (a, []) else
  let '(a, sent) := transmit a in
  armed ← arm a;
  Some (a, sent ++ armed).

Definition on_paired_frame (a : udp_handshake_arq) : udp_handshake_arq * list event :=
  if m_resolved a then (a, []) else
  (UdpHandshakeArq (m_ladder a) (m_attempt a) true, [CancelTimer; Established]).

Definition cancel (a : udp_handshake_arq) : udp_handshake_arq * list event :=
  (UdpHandshakeArq (m_ladder a) (m_attempt a) true, [CancelTimer]).

Definition surrender (a : udp_handshake_arq) : udp_handshake_arq * list event :=
  if m_resolved a then (a, []) else
  (UdpHandshakeArq (m_ladder a) (m_attempt a) true, [TimedOut]).

(** The handler of [arm]'s wait. *)
Definition timer_handler (a : udp_handshake_arq) (ec : bool) : option (udp_handshake_arq * list event) :=
  if ec then Some (a, []) else
  if m_attempt a >=? zlen (m_ladder a) then Some (surrender a) else
  let '(a, sent) := transmit a in
  armed ← arm a;
  Some (a, sent ++ armed).

End HandshakeArq.

(** ** [inbound_demux.h] *)

Module Demux.
Section Demux.
Context {Endpoint : Type} `{Countable Endpoint}.

Record demux : Type := InboundDemux { m_max_peers : Z; m_peers : gmap Endpoint nat }.

Definition default_max_peers : Z := 4096.
Definition demux_new (max_peers : Z) : demux := InboundDemux max_peers ∅.
Definition size (d : demux) : Z := Z.of_nat (base.size (m_peers d)).

Definition lookup_sender (d : demux) (sender : Endpoint) : option nat := m_peers d !! sender.

Definition insert_sender (d : demux) (sender : Endpoint) (channel : nat) : bool * demux :=
  if (size d >=? m_max_peers d) && bool_decide (m_peers d !! sender = None) then (false, d) else
  (true, InboundDemux (m_max_peers d) (<[sender := channel]> (m_peers d))).

Definition erase (d : demux) (sender : Endpoint) : demux := InboundDemux (m_max_peers d) (delete sender (m_peers d)).

Definition erase_if_matches (d : demux) (sender : Endpoint) (channel : nat) : demux :=
  match m_peers d !! sender with
  | Some ch => if decide (ch = channel) then erase d sender else d
  | None => d
  end.

End Demux.
Arguments demux Endpoint {_ _}.
End Demux.

(** ** [pending_dial_registry.h] *)

Module PendingDials.
Section Registry.
Context {Payload : Type}.

Record entry : Type := Entry { e_channel : nat; e_payload : Payload }.
Record registry : Type := Registry { m_pending : gmap nat entry; m_accepted : gmap nat nat }.

Definition registry_new : registry := Registry ∅ ∅.

Definition insert (r : registry) (raw channel : nat) (payload : Payload) : registry :=
  Registry (<[raw := Entry channel payload]> (m_pending r)) (m_accepted r).

Definition resolve (r : registry) (raw : nat) : option nat * registry :=
  match m_pending r !! raw with
  | None => (None, r)
  | Some e => (Some (e_channel e), Registry (delete raw (m_pending r)) (m_accepted r))
  end.

(** The channel to destroy later, if the entry is there. *)
Definition fail (r : registry) (raw : nat) : option nat * registry :=
  match m_pending r !! raw with
  | None => (None, r)
  | Some e => (Some (e_channel e), Registry (delete raw (m_pending r)) (m_accepted r))
  end.

Definition payload_of (r : registry) (raw : nat) : option Payload := e_payload <$> m_pending r !! raw.

Definition set_payload (r : registry) (raw : nat) (payload : Payload) : registry :=
  Registry (alter (fun e => Entry (e_channel e) payload) raw (m_pending r)) (m_accepted r).

Definition insert_accepted (r : registry) (raw channel : nat) : registry :=
  Registry (m_pending r) (<[raw := channel]> (m_accepted r)).

Definition adopt_accepted (r : registry) (raw : nat) : option nat * registry :=
  match m_accepted r !! raw with
  | None => (None, r)
  | Some ch => (Some ch, Registry (m_pending r) (delete raw (m_accepted r)))
  end.

Definition fail_accepted (r : registry) (raw : nat) : option nat * registry :=
  match m_accepted r !! raw with
  | None => (None, r)
  | Some ch => (Some ch, Registry (m_pending r) (delete raw (m_accepted r)))
  end.

Definition pending_size (r : registry) : nat := base.size (m_pending r).
Definition accepted_size (r : registry) : nat := base.size (m_accepted r).

(** The channels [clear] destroys. *)
Definition held (r : registry) : list nat := (e_channel <$> (map_to_list (m_pending r)).*2) ++ (map_to_list (m_accepted r)).*2.
Definition clear (r : registry) : registry := Registry ∅ ∅.

End Registry.
Arguments registry : clear implicits.
End PendingDials.

Module UdpDial.
Import Discovery.

(** ** [asio_error_map.h] and [asio_udp_endpoint_parse.h] *)

Inductive error_code :=
| ec_connection_refused | ec_connection_reset | ec_broken_pipe | ec_eof | ec_timed_out | ec_address_in_use
| ec_operation_aborted | ec_invalid_argument | ec_would_block | ec_bad_descriptor | ec_operation_not_supported
| ec_network_down | ec_other.

#[global] Instance error_code_eq_dec : EqDecision error_code.
Proof. solve_decision. Defined.

Definition map_error (ec : error_code) : io_error :=
  match ec with
  | ec_connection_refused => err_connection_refused
  | ec_connection_reset => err_connection_reset
  | ec_broken_pipe => err_broken_pipe
  | ec_eof => err_broken_pipe
  | ec_timed_out => err_timed_out
  | ec_address_in_use => err_address_in_use
  | ec_operation_aborted => err_operation_aborted
  | _ => err_unknown
  end.

(** [addr.rfind(':')]: what is before and after the last colon. *)
Fixpoint split_last_colon (addr : bytes) : option (bytes * bytes) :=
  match addr with
  | [] => None
  | c :: rest =>
      match split_last_colon rest with
      | Some (before, after) => Some (c :: before, after)
      | None => if ⟦c⟧ =? 58 then Some ([], rest) else None
      end
  end.

(** [std::from_chars] into an [unsigned long] that must take the whole text. *)
Definition from_chars_whole (s : bytes) : option Z :=
  match s with
  | [] => None
  | _ => if forallb is_digit s then let v := scan_digits 0 s in if v <? 2 ^ 64 then Some v else None else None
  end.

Section ParseUdp.
Context {Address : Type}.
(** [asio::ip::make_address] *)
Variable make_address : bytes -> error_code + Address.

Definition parse_udp (addr : bytes) : error_code + Address * Z :=
  match split_last_colon addr with
  | None => inl ec_invalid_argument
  | Some (host, port_str) =>
      match from_chars_whole port_str with
      | None => inl ec_invalid_argument
      | Some port_val =>
          if port_val >? 65535 then inl ec_invalid_argument else
          match make_address host with
          | inl ec => inl ec
          | inr a => inr (a, port_val)
          end
      end
  end.

End ParseUdp.

(** ** [udp_transport.h] and [udp_transport_setup.h] *)

Record io_endpoint : Type := IoEndpoint { ep_scheme : bytes; ep_address : bytes }.

Section Transport.
Context {host : Host} {Address : Type} `{Countable Address}.
Variable make_address : bytes -> error_code + Address.

Definition udp_endpoint : Type := Address * Z.

(** What a constructed channel holds for the transport. *)
Record channel_object : Type := ChannelObject {
  co_dest : udp_endpoint;
  co_mode : udp_channel_mode;
  co_initial_seq : Z;
  co_teardown : bool;
}.

(** The ARQ of a pending dial with the captures of its closures. *)
Record dial_payload : Type := DialPayload {
  dp_arq : HandshakeArq.udp_handshake_arq;
  dp_ep : io_endpoint;
  dp_dest : udp_endpoint;
  dp_mode : udp_channel_mode;
  dp_isn : Z;
}.

Inductive event :=
| SendTo (datagram : bytes) (dest : udp_endpoint)
| Dialed (ch : nat) (ep : io_endpoint)
| DialFailed (ep : io_endpoint) (e : io_error)
| Accepted (ch : nat)
| DemuxRefused
| OnError (e : io_error)
| Deliver (ch : nat) (datagram : bytes)
| PostDestroy (ch : nat)
| ArmDialTimer (ch : nat) (delay : Z)
| ServerStart
| ServerClose.

Record transport : Type := Transport {
  t_open : bool;
  t_max_peers : Z;
  t_demux : Demux.demux udp_endpoint;
  t_dials : PendingDials.registry dial_payload;
  t_heap : gmap nat channel_object;
  t_next : nat;
  t_posted : list nat;
  t_ladder : list Z;
  t_has_accepted_cb : bool;
  t_has_dialed_cb : bool;
  t_has_failed_cb : bool;
  t_has_drop_cb : bool;
  t_has_error_cb : bool;
}.

Definition with_open (t : transport) (on : bool) : transport :=
  Transport on (t_max_peers t) (t_demux t) (t_dials t) (t_heap t) (t_next t) (t_posted t) (t_ladder t) (t_has_accepted_cb t) (t_has_dialed_cb t) (t_has_failed_cb t) (t_has_drop_cb t) (t_has_error_cb t).
Definition with_demux (t : transport) (d : Demux.demux udp_endpoint) : transport :=
  Transport (t_open t) (t_max_peers t) d (t_dials t) (t_heap t) (t_next t) (t_posted t) (t_ladder t) (t_has_accepted_cb t) (t_has_dialed_cb t) (t_has_failed_cb t) (t_has_drop_cb t) (t_has_error_cb t).
Definition with_dials (t : transport) (r : PendingDials.registry dial_payload) : transport :=
  Transport (t_open t) (t_max_peers t) (t_demux t) r (t_heap t) (t_next t) (t_posted t) (t_ladder t) (t_has_accepted_cb t) (t_has_dialed_cb t) (t_has_failed_cb t) (t_has_drop_cb t) (t_has_error_cb t).
Definition with_heap (t : transport) (h : gmap nat channel_object) (next : nat) : transport :=
  Transport (t_open t) (t_max_peers t) (t_demux t) (t_dials t) h next (t_posted t) (t_ladder t) (t_has_accepted_cb t) (t_has_dialed_cb t) (t_has_failed_cb t) (t_has_drop_cb t) (t_has_error_cb t).
Definition with_posted (t : transport) (p : list nat) : transport :=
  Transport (t_open t) (t_max_peers t) (t_demux t) (t_dials t) (t_heap t) (t_next t) p (t_ladder t) (t_has_accepted_cb t) (t_has_dialed_cb t) (t_has_failed_cb t) (t_has_drop_cb t) (t_has_error_cb t).

Definition transport_new (max_peers : Z) (ladder : list Z) : transport :=
  Transport false max_peers (Demux.demux_new max_peers) PendingDials.registry_new ∅ 0 [] ladder true true true true true.

(** [make_unique<udp_channel>] *)
Definition construct (t : transport) (dest : udp_endpoint) (mode : udp_channel_mode) (isn : Z) : nat * transport :=
  (t_next t, with_heap t (<[t_next t := ChannelObject dest mode isn false]> (t_heap t)) (S (t_next t))).

(** [wire_teardown] *)
Definition wire_teardown (t : transport) (raw : nat) : transport :=
  with_heap t (alter (fun c => ChannelObject (co_dest c) (co_mode c) (co_initial_seq c) true) raw (t_heap t)) (t_next t).

(** [~udp_channel]: the teardown hook erases the demultiplexer's handle; [None] is a double free. *)
Definition destroy (t : transport) (raw : nat) : option transport :=
  c ← t_heap t !! raw;
  let t := if co_teardown c then with_demux t (Demux.erase_if_matches (t_demux t) (co_dest c) raw) else t in
  Some (with_heap t (delete raw (t_heap t)) (t_next t)).

Fixpoint destroy_all (t : transport) (l : list nat) : option transport :=
  match l with
  | [] => Some t
  | raw :: l => t ← destroy t raw; destroy_all t l
  end.

Definition report_dial_fail (t : transport) (ep : io_endpoint) (e : io_error) : list event :=
  if t_has_failed_cb t then [DialFailed ep e] else [].

Definition report_error (t : transport) (e : io_error) : list event := if t_has_error_cb t then [OnError e] else [].

(** [udp_server::start] as the transport sees it. *)
Definition server_start (t : transport) (result : option error_code) : transport * list event :=
  match result with
  | None => (with_open t true, [ServerStart])
  | Some ec => (t, ServerStart :: report_error t (map_error ec))
  end.

Definition ensure_bound (t : transport) (bind_result : option error_code) : transport * list event :=
  if t_open t then (t, []) else server_start t bind_result.

Definition send_handshake (t : transport) (dest : udp_endpoint) (type : udp_hs_type) (mode : udp_channel_mode) (isn : Z) : option (list event) :=
  datagram ← encode_handshake_into [] type mode isn;
  Some (if t_open t then [SendTo datagram dest] else []).

Definition resolve_dial (t : transport) (ep : io_endpoint) (raw : nat) : option (transport * list event) :=
  let '(ch, dials) := PendingDials.resolve (t_dials t) raw in
  let t := with_dials t dials in
  match ch with
  | None => Some (t, [])
  | Some ch => if t_has_dialed_cb t then Some (t, [Dialed ch ep]) else t ← destroy t ch; Some (t, [])
  end.

Definition fail_dial (t : transport) (ep : io_endpoint) (raw : nat) : option (transport * list event) :=
  c ← t_heap t !! raw;
  let t := with_demux t (Demux.erase (t_demux t) (co_dest c)) in
  let '(ch, dials) := PendingDials.fail (t_dials t) raw in
  let t := with_dials t dials in
  let '(t, posted) := match ch with Some ch => (with_posted t (t_posted t ++ [ch]), [PostDestroy ch]) | None => (t, []) end in
  Some (t, posted ++ report_dial_fail t ep err_timed_out).

(** The callbacks a dial installs on its ARQ, run for the events the ARQ raises. *)
Fixpoint run_arq_events (t : transport) (raw : nat) (p : dial_payload) (evs : list HandshakeArq.event) : option (transport * list event) :=
  match evs with
  | [] => Some (t, [])
  | ev :: evs =>
      '(t, out) ← match ev with
                  | HandshakeArq.Transmit => out ← send_handshake t (dp_dest p) hs_type_request (dp_mode p) (dp_isn p); Some (t, out)
                  | HandshakeArq.Established => resolve_dial t (dp_ep p) raw
                  | HandshakeArq.TimedOut => fail_dial t (dp_ep p) raw
                  | HandshakeArq.ArmTimer delay => Some (t, [ArmDialTimer raw delay])
                  | HandshakeArq.CancelTimer => Some (t, [])
                  end;
      '(t, out') ← run_arq_events t raw p evs;
      Some (t, out ++ out')
  end.

Definition set_arq (p : dial_payload) (a : HandshakeArq.udp_handshake_arq) : dial_payload :=
  DialPayload a (dp_ep p) (dp_dest p) (dp_mode p) (dp_isn p).

Definition store_arq (t : transport) (raw : nat) (p : dial_payload) (a : HandshakeArq.udp_handshake_arq) : transport :=
  with_dials t (PendingDials.set_payload (t_dials t) raw (set_arq p a)).

Definition resolve_paired (t : transport) (ch : nat) : option (transport * list event) :=
  match PendingDials.payload_of (t_dials t) ch with
  | None => Some (t, [])
  | Some p => let '(a, evs) := HandshakeArq.on_paired_frame (dp_arq p) in run_arq_events (store_arq t ch p a) ch p evs
  end.

Definition accept_new_peer (t : transport) (from : udp_endpoint) (datagram : bytes) : option (transport * list event) :=
  match decode_handshake datagram with
  | Some (UdpHandshake hs_type_request mode isn) =>
      let '(raw, t) := construct t from mode isn in
      let '(ok, d) := Demux.insert_sender (t_demux t) from raw in
      if negb ok then t' ← destroy t raw; Some (t', if t_has_drop_cb t then [DemuxRefused] else []) else
      let t := wire_teardown (with_demux t d) raw in
      let t := with_dials t (PendingDials.insert_accepted (t_dials t) raw raw) in
      sent ← send_handshake t from hs_type_response mode isn;
      if negb (t_has_accepted_cb t) then Some (t, sent) else
      let '(ch, dials) := PendingDials.adopt_accepted (t_dials t) raw in
      ch ← ch;
      Some (with_dials t dials, sent ++ [Accepted ch])
  | _ => Some (t, [])
  end.

Definition route_to_peer (t : transport) (from : udp_endpoint) (ch : nat) (datagram : bytes) : option (transport * list event) :=
  match decode_handshake datagram with
  | Some hs =>
      match uh_type hs with
      | hs_type_response => resolve_paired t ch
      | hs_type_request => sent ← send_handshake t from hs_type_response (uh_mode hs) (uh_initial_seq hs); Some (t, sent)
      end
  | None => _ ← t_heap t !! ch; Some (t, [Deliver ch datagram])
  end.

Definition on_datagram (t : transport) (from : udp_endpoint) (datagram : bytes) : option (transport * list event) :=
  match Demux.lookup_sender (t_demux t) from with
  | Some ch => route_to_peer t from ch datagram
  | None => accept_new_peer t from datagram
  end.

Definition listen (t : transport) (ep : io_endpoint) (bind_result : option error_code) : transport * list event :=
  match parse_udp make_address (ep_address ep) with
  | inl ec => (t, report_error t (map_error ec))
  | inr _ => server_start t bind_result
  end.

Definition mode_of_scheme (scheme : bytes) : udp_channel_mode :=
  if decide (scheme = text "udpr") then mode_reliable_datagram else mode_best_effort.

Definition next_isn (draw : Z) : Z := wrap 16 (wrap 16 (draw mod 0xFFFF) + 1).

Definition dial (t : transport) (ep : io_endpoint) (bind_result : option error_code) (draw : Z) : option (transport * list event) :=
  match parse_udp make_address (ep_address ep) with
  | inl ec => Some (t, report_dial_fail t ep (map_error ec))
  | inr dest =>
      let '(t, bound) := ensure_bound t bind_result in
      let mode := mode_of_scheme (ep_scheme ep) in
      let isn := next_isn draw in
      let '(raw, t) := construct t dest mode isn in
      let t := with_demux t (Demux.insert_sender (t_demux t) dest raw).2 in
      let t := wire_teardown t raw in
      let p := DialPayload (HandshakeArq.arq_new (t_ladder t)) ep dest mode isn in
      let t := with_dials t (PendingDials.insert (t_dials t) raw raw p) in
      '(a, evs) ← HandshakeArq.start (dp_arq p);
      '(t, out) ← run_arq_events (store_arq t raw p a) raw p evs;
      Some (t, bound ++ out)
  end.

(** The wait of the dial [raw] completes.  The handler holds a bare pointer to the ARQ and looks at
    the error code only: a cancelled wait touches nothing, and an expiry that was queued before its
    dial went away uses an object that is gone, which is [None]. *)
Definition dial_timer (t : transport) (raw : nat) (ec : bool) : option (transport * list event) :=
  match PendingDials.payload_of (t_dials t) raw with
  | None => if ec then Some (t, []) else None
  | Some p => '(a, evs) ← HandshakeArq.timer_handler (dp_arq p) ec; run_arq_events (store_arq t raw p a) raw p evs
  end.

(** The posted continuation that destroys a channel. *)
Definition run_posted (t : transport) : option transport :=
  match t_posted t with
  | [] => Some t
  | raw :: rest => destroy (with_posted t rest) raw
  end.

Definition close (t : transport) : option (transport * list event) :=
  t' ← destroy_all t (PendingDials.held (t_dials t));
  Some (with_open (with_demux (with_dials t' (PendingDials.clear (t_dials t'))) (Demux.demux_new (t_max_peers t'))) false, [ServerClose]).

(** ** Runs *)

Inductive op :=
| OpListen (ep : io_endpoint) (bind_result : option error_code)
| OpDial (ep : io_endpoint) (bind_result : option error_code) (draw : Z)
| OpDatagram (from : udp_endpoint) (datagram : bytes)
| OpDialTimer (raw : nat) (ec : bool)
| OpPosted
| OpRelease (raw : nat)
| OpClose.

Definition step (t : transport) (o : op) : option (transport * list event) :=
  match o with
  | OpListen ep r => Some (listen t ep r)
  | OpDial ep r draw => dial t ep r draw
  | OpDatagram from datagram => on_datagram t from datagram
  | OpDialTimer raw ec => dial_timer t raw ec
  | OpPosted => t ← run_posted t; Some (t, [])
  | OpRelease raw => t ← destroy t raw; Some (t, [])
  | OpClose => close t
  end.

(** An owner releases only a channel it was handed: one that is alive and that the transport does
    not hold. *)
Definition handed (t : transport) (raw : nat) : Prop :=
  is_Some (t_heap t !! raw) /\ PendingDials.m_pending (t_dials t) !! raw = None /\
  PendingDials.m_accepted (t_dials t) !! raw = None /\ raw ∉ t_posted t.

(** An expiry (as opposed to a cancelled wait) comes for a dial that is still pending. *)
Definition allowed (t : transport) (o : op) : Prop :=
  match o with
  | OpRelease raw => handed t raw
  | OpDialTimer raw false => is_Some (PendingDials.payload_of (t_dials t) raw)
  | _ => True
  end.

Inductive reachable (max_peers : Z) (ladder : list Z) : transport -> Prop :=
| ReachNew : reachable max_peers ladder (transport_new max_peers ladder)
| ReachStep t o t' evs : reachable max_peers ladder t -> allowed t o -> step t o = Some (t', evs) -> reachable max_peers ladder t'.

(** ** The invariant *)

Definition arq_ok (ladder : list Z) (a : HandshakeArq.udp_handshake_arq) : Prop :=
  HandshakeArq.m_ladder a = ladder /\ 1 <= HandshakeArq.m_attempt a <= 3 /\ HandshakeArq.m_resolved a = false.

Record tinv (t : transport) : Prop := Tinv {
  ti_ladder : length (t_ladder t) = 3%nat;
  ti_demux ep ch : Demux.m_peers (t_demux t) !! ep = Some ch ->
    exists c, t_heap t !! ch = Some c /\ co_dest c = ep /\ co_teardown c = true;
  ti_size : Demux.size (t_demux t) <= t_max_peers t /\ Demux.m_max_peers (t_demux t) = t_max_peers t /\ 0 <= t_max_peers t;
  ti_pending raw e : PendingDials.m_pending (t_dials t) !! raw = Some e ->
    PendingDials.e_channel e = raw /\ arq_ok (t_ladder t) (dp_arq (PendingDials.e_payload e)) /\
    PendingDials.m_accepted (t_dials t) !! raw = None /\
    exists c, t_heap t !! raw = Some c /\ co_dest c = dp_dest (PendingDials.e_payload e);
  ti_accepted raw ch : PendingDials.m_accepted (t_dials t) !! raw = Some ch -> ch = raw /\ is_Some (t_heap t !! raw);
  ti_posted raw : raw ∈ t_posted t -> is_Some (t_heap t !! raw) /\ PendingDials.m_pending (t_dials t) !! raw = None /\
    PendingDials.m_accepted (t_dials t) !! raw = None;
  ti_posted_once : NoDup (t_posted t);
  ti_next raw : is_Some (t_heap t !! raw) -> (raw < t_next t)%nat;
}.

Lemma tinv_new max_peers ladder : 0 <= max_peers -> length ladder = 3%nat -> tinv (transport_new max_peers ladder).
Proof.
  intros Hm Hl. constructor; cbn; try done; intros *; rewrite ?lookup_empty; try done; try (by intros ?%elem_of_nil). constructor.
Qed.

Lemma erase_if_matches_lookup (d : Demux.demux udp_endpoint) ep0 ch0 ep ch : Demux.m_peers (Demux.erase_if_matches d ep0 ch0) !! ep = Some ch ->
  Demux.m_peers d !! ep = Some ch /\ (ep = ep0 -> ch <> ch0).
Proof.
  unfold Demux.erase_if_matches. destruct (Demux.m_peers d !! ep0) as [ch'|] eqn:Hl; [case_decide as Hd|].
  - subst. cbn. intros [Hne Hl']%lookup_delete_Some. split; [done|]. congruence.
  - intros Hl'. split; [done|]. intros -> ->. congruence.
  - intros Hl'. split; [done|]. intros -> ->. congruence.
Qed.

Lemma demux_erase_size (d : Demux.demux udp_endpoint) ep : Demux.size (Demux.erase d ep) <= Demux.size d.
Proof. unfold Demux.size, Demux.erase. cbn. rewrite map_size_delete. case_match; unfold id; lia. Qed.

Lemma erase_if_matches_size (d : Demux.demux udp_endpoint) ep ch :
  Demux.size (Demux.erase_if_matches d ep ch) <= Demux.size d /\ Demux.m_max_peers (Demux.erase_if_matches d ep ch) = Demux.m_max_peers d.
Proof. unfold Demux.erase_if_matches. repeat case_match; [split; [apply demux_erase_size|done]|done|done]. Qed.

Lemma insert_sender_size (d : Demux.demux udp_endpoint) ep ch : Demux.size d <= Demux.m_max_peers d ->
  Demux.size (Demux.insert_sender d ep ch).2 <= Demux.m_max_peers d /\ Demux.m_max_peers (Demux.insert_sender d ep ch).2 = Demux.m_max_peers d.
Proof.
  intros Hs. unfold Demux.insert_sender. destruct (_ && _) eqn:Hb; [done|]. cbn [snd Demux.m_max_peers]. split; [|done].
  unfold Demux.size in *. cbn [Demux.m_peers]. rewrite map_size_insert. case_match; unfold id; [lia|].
  apply andb_false_iff in Hb as [Hb | Hb%bool_decide_eq_false]; [|congruence].
  rewrite Z.geb_leb in Hb. apply Z.leb_gt in Hb. lia.
Qed.

(** A handed channel is destroyed cleanly. *)
Lemma destroy_inv t raw : tinv t -> handed t raw -> exists t', destroy t raw = Some t' /\ tinv t' /\
  (forall r, r <> raw -> t_heap t' !! r = t_heap t !! r) /\ t_dials t' = t_dials t /\ t_posted t' = t_posted t.
Proof.
  intros [Hlad Hd Hs Hp Ha Hpo Hpn Hn] ([c Hc] & Hnp & Hna & Hnpo). unfold destroy. rewrite Hc. cbn [mbind option_bind].
  set (d := if co_teardown c then Demux.erase_if_matches (t_demux t) (co_dest c) raw else t_demux t).
  set (t' := with_heap _ _ _). assert (t' = with_heap (with_demux t d) (delete raw (t_heap t)) (t_next t)) as Ht' by (unfold t', d; by destruct (co_teardown c), t).
  exists t'. rewrite Ht'. split; [done|]. split; [|split; [intros r Hr; cbn; by rewrite lookup_delete_ne|done]]. constructor; cbn; try done.
  - intros ep ch Hl. assert (Demux.m_peers (t_demux t) !! ep = Some ch /\ ch <> raw) as [Hl' Hne].
    { unfold d in Hl. destruct (co_teardown c) eqn:Ht.
      - apply erase_if_matches_lookup in Hl as [Hl Hne]. split; [done|]. intros ->. destruct (Hd _ _ Hl) as (c' & Hc' & Hdest & _). simplify_eq. by apply Hne.
      - split; [done|]. intros ->. destruct (Hd _ _ Hl) as (c' & Hc' & _ & Htd). congruence. }
    rewrite lookup_delete_ne by done. by apply Hd.
  - destruct Hs as (Hs1 & Hs2 & Hs3). unfold d. destruct (co_teardown c); [|done]. destruct (erase_if_matches_size (t_demux t) (co_dest c) raw) as [? ->]. split_and!; [lia|done|done].
  - intros r e Hr. destruct (Hp r e Hr) as (? & ? & ? & ?). split_and!; try done. rewrite lookup_delete_ne by congruence. done.
  - intros r ch Hr. rewrite lookup_delete_ne by congruence. by apply Ha.
  - intros r Hr. rewrite lookup_delete_ne by congruence. by apply Hpo.
  - intros r [x Hx]. apply lookup_delete_Some in Hx as [_ Hx]. apply Hn. by eexists.
Qed.

Lemma fresh_handle t : tinv t -> t_heap t !! t_next t = None /\ PendingDials.m_pending (t_dials t) !! t_next t = None /\
  PendingDials.m_accepted (t_dials t) !! t_next t = None /\ t_next t ∉ t_posted t.
Proof.
  intros Ht. assert (t_heap t !! t_next t = None) as Hh.
  { destruct (t_heap t !! t_next t) eqn:E; [|done]. pose proof (ti_next t Ht (t_next t) ltac:(by eexists)). lia. }
  split; [done|]. split_and!.
  - destruct (PendingDials.m_pending (t_dials t) !! t_next t) as [e|] eqn:E; [|done]. destruct (ti_pending t Ht _ _ E) as (_ & _ & _ & c & Hc & _). congruence.
  - destruct (PendingDials.m_accepted (t_dials t) !! t_next t) as [ch|] eqn:E; [|done]. destruct (ti_accepted t Ht _ _ E) as (_ & [c Hc]). congruence.
  - intros Hin. destruct (ti_posted t Ht _ Hin) as ([c Hc] & _). congruence.
Qed.

(** A new channel, entered in the demultiplexer if there is room and wired for teardown. *)
Definition constructed (t : transport) (dest : udp_endpoint) (mode : udp_channel_mode) (isn : Z) : transport :=
  wire_teardown (with_demux (construct t dest mode isn).2 (Demux.insert_sender (t_demux t) dest (t_next t)).2) (t_next t).

Lemma constructed_heap t dest mode isn : t_heap (constructed t dest mode isn) = <[t_next t := ChannelObject dest mode isn true]> (t_heap t).
Proof. unfold constructed, wire_teardown. cbn. by rewrite alter_insert_eq. Qed.

Lemma constructed_inv t dest mode isn : tinv t -> tinv (constructed t dest mode isn) /\ handed (constructed t dest mode isn) (t_next t).
Proof.
  intros Ht. destruct (fresh_handle t Ht) as (Hh & Hp & Ha & Hpo).
  assert (forall raw, is_Some (t_heap t !! raw) -> <[t_next t := ChannelObject dest mode isn true]> (t_heap t) !! raw = t_heap t !! raw) as Hold.
  { intros raw [c Hc]. apply lookup_insert_ne. congruence. }
  split; [|split_and!; [rewrite constructed_heap, lookup_insert_eq; by eexists|done|done|done]].
  destruct Ht as [Hlad Hd Hs Hpe Hac Hpos Hpn Hn]. constructor; rewrite ?constructed_heap; try done.
  - intros ep ch Hl. cbn in Hl. unfold Demux.insert_sender in Hl. destruct (_ && _); cbn in Hl.
    + destruct (Hd ep ch Hl) as (c & Hc & ?). exists c. by rewrite Hold by by eexists.
    + apply lookup_insert_Some in Hl as [[<- <-] | [Hne Hl]].
      * eexists. by rewrite lookup_insert_eq.
      * destruct (Hd ep ch Hl) as (c & Hc & ?). exists c. by rewrite Hold by by eexists.
  - cbn. destruct Hs as (Hs1 & Hs2 & Hs3). destruct (insert_sender_size (t_demux t) dest (t_next t)) as [? ?]; [lia|]. split_and!; [lia|congruence|done].
  - intros raw e He. destruct (Hpe raw e He) as (? & ? & ? & c & Hc & ?). split_and!; try done. exists c. by rewrite Hold by by eexists.
  - intros raw ch Hch. destruct (Hac raw ch Hch) as [? ?]. split; [done|]. by rewrite Hold.
  - intros raw Hr. destruct (Hpos raw Hr) as (? & ? & ?). split_and!; try done. by rewrite Hold.
  - intros raw [c Hc]. cbn. apply lookup_insert_Some in Hc as [[<- _] | [_ Hc]]; [lia|]. specialize (Hn raw ltac:(by eexists)). lia.
Qed.

(** The tables of the transport change and its channels do not. *)
Lemma dials_inv t r posted : tinv t ->
  (forall raw e, PendingDials.m_pending r !! raw = Some e ->
    PendingDials.e_channel e = raw /\ arq_ok (t_ladder t) (dp_arq (PendingDials.e_payload e)) /\ PendingDials.m_accepted r !! raw = None /\
    exists c, t_heap t !! raw = Some c /\ co_dest c = dp_dest (PendingDials.e_payload e)) ->
  (forall raw ch, PendingDials.m_accepted r !! raw = Some ch -> ch = raw /\ is_Some (t_heap t !! raw)) ->
  (forall raw, raw ∈ posted -> is_Some (t_heap t !! raw) /\ PendingDials.m_pending r !! raw = None /\ PendingDials.m_accepted r !! raw = None) ->
  NoDup posted -> tinv (with_posted (with_dials t r) posted).
Proof. intros [Hlad Hd Hs Hpe Hac Hpos Hpn Hn] H1 H2 H3 H4. constructor; try done. Qed.

Lemma with_posted_same t : with_posted t (t_posted t) = t.
Proof. by destruct t. Qed.

Lemma demux_erase_inv t ep : tinv t -> tinv (with_demux t (Demux.erase (t_demux t) ep)).
Proof.
  intros [Hlad Hd Hs Hpe Hac Hpos Hpn Hn]. constructor; try done; cbn.
  - intros ep' ch [_ Hl]%lookup_delete_Some. by apply Hd.
  - pose proof (demux_erase_size (t_demux t) ep). destruct Hs as (? & ? & ?). split_and!; [lia|done|done].
Qed.

Lemma pending_removed_inv t raw e : tinv t -> PendingDials.m_pending (t_dials t) !! raw = Some e ->
  let t' := with_dials t (PendingDials.Registry (delete raw (PendingDials.m_pending (t_dials t))) (PendingDials.m_accepted (t_dials t))) in
  tinv t' /\ handed t' raw.
Proof.
  intros Ht He. pose proof (ti_pending t Ht _ _ He) as (Hch & Harq & Hna & c & Hc & Hdest).
  assert (raw ∉ t_posted t) as Hnpo by (intros Hin; destruct (ti_posted t Ht _ Hin) as (_ & ? & _); congruence).
  split; [|split_and!; cbn; [by eexists|by rewrite lookup_delete_eq|done|done]].
  rewrite <- (with_posted_same (with_dials _ _)). apply dials_inv; cbn; try done; try (by apply Ht).
  - intros r e' [_ Hr]%lookup_delete_Some. by apply (ti_pending t Ht).
  - intros r Hr. destruct (ti_posted t Ht r Hr) as (? & ? & ?). split_and!; try done. by rewrite lookup_delete_None; right.
Qed.

Lemma resolve_dial_inv t ep raw : tinv t -> exists t' evs, resolve_dial t ep raw = Some (t', evs) /\ tinv t'.
Proof.
  intros Ht. unfold resolve_dial, PendingDials.resolve. destruct (PendingDials.m_pending (t_dials t) !! raw) as [e|] eqn:He; [|exists t, []; by destruct t].
  destruct (pending_removed_inv t raw e Ht He) as [Ht' Hh]. destruct (ti_pending t Ht _ _ He) as (-> & _).
  destruct (t_has_dialed_cb _); [by eexists _, _|]. destruct (destroy_inv _ raw Ht' Hh) as (t2 & -> & Ht2 & _). by eexists _, _.
Qed.

Lemma fail_dial_inv t ep raw e : tinv t -> PendingDials.m_pending (t_dials t) !! raw = Some e ->
  exists t', fail_dial t ep raw = Some (t', PostDestroy raw :: report_dial_fail t ep err_timed_out) /\ tinv t' /\
    PendingDials.m_pending (t_dials t') !! raw = None /\ raw ∈ t_posted t'.
Proof.
  intros Ht He. unfold fail_dial. destruct (ti_pending t Ht _ _ He) as (Hch & _ & _ & c & Hc & _). rewrite Hc. cbn [mbind option_bind].
  unfold PendingDials.fail. cbn [t_dials with_demux]. rewrite He, Hch. eexists. split; [done|].
  destruct (pending_removed_inv (with_demux t (Demux.erase (t_demux t) (co_dest c))) raw e (demux_erase_inv t _ Ht) He) as [Ht' (Hh & Hnp & Hna & Hnpo)].
  split; [|split; cbn; [by rewrite lookup_delete_eq|apply elem_of_app; right; by left] ].
  apply (dials_inv _ _ _ (demux_erase_inv t (co_dest c) Ht)); try (by apply Ht').
  - intros r [Hr | ->%list_elem_of_singleton]%elem_of_app; [by apply (ti_posted _ Ht')|done].
  - apply NoDup_app. split; [by apply Ht|]. split; [|apply NoDup_singleton]. intros r Hr ->%list_elem_of_singleton. done.
Qed.

Lemma store_arq_inv t raw p a : tinv t -> PendingDials.payload_of (t_dials t) raw = Some p -> arq_ok (t_ladder t) a -> tinv (store_arq t raw p a).
Proof.
  intros Ht Hp Ha. unfold store_arq, PendingDials.payload_of in *. apply fmap_Some in Hp as (e & He & ->). rewrite <- (with_posted_same (with_dials _ _)).
  apply dials_inv; cbn; try done; try (by apply Ht).
  - intros r e' Hr. apply lookup_alter_Some in Hr as [(-> & e0 & He0 & ->) | [Hne Hr]]; [|by apply (ti_pending t Ht)].
    simplify_eq. destruct (ti_pending t Ht _ _ He) as (? & ? & ? & c & Hc & Hdest). cbn. split_and!; try done. by exists c.
  - intros r Hr. destruct (ti_posted t Ht r Hr) as (? & ? & ?). split_and!; try done. rewrite lookup_alter_ne; [done|]. intros ->. congruence.
Qed.

Lemma delete_alter_same {A} (f : A -> A) (m : gmap nat A) k : delete k (alter f k m) = delete k m.
Proof. apply map_eq. intros j. destruct (decide (j = k)) as [-> | Hne]; [by rewrite !lookup_delete_eq|]. by rewrite !lookup_delete_ne, lookup_alter_ne. Qed.

(** A dial that leaves the table takes its ARQ with it. *)
Lemma resolve_dial_stored t ep raw p a : PendingDials.payload_of (t_dials t) raw = Some p -> resolve_dial (store_arq t raw p a) ep raw = resolve_dial t ep raw.
Proof.
  intros (e & He & ->)%fmap_Some. unfold resolve_dial, store_arq, PendingDials.resolve, PendingDials.set_payload. cbn [t_dials with_dials PendingDials.m_pending PendingDials.m_accepted].
  rewrite lookup_alter_eq, He. cbn. by rewrite delete_alter_same.
Qed.

Lemma fail_dial_stored t ep raw p a : PendingDials.payload_of (t_dials t) raw = Some p -> fail_dial (store_arq t raw p a) ep raw = fail_dial t ep raw.
Proof.
  intros (e & He & ->)%fmap_Some. unfold fail_dial, store_arq, PendingDials.fail, PendingDials.set_payload.
  cbn [t_dials with_dials with_demux t_heap t_demux PendingDials.m_pending PendingDials.m_accepted].
  rewrite lookup_alter_eq, He. cbn [fmap option_fmap option_map PendingDials.e_channel]. by rewrite delete_alter_same.
Qed.

Lemma send_handshake_sent t dest type mode isn : exists datagram, encode_handshake_into [] type mode isn = Some datagram /\
  send_handshake t dest type mode isn = Some (if t_open t then [SendTo datagram dest] else []).
Proof. unfold send_handshake, encode_handshake_into. rewrite wrap_udp_into_layout. by eexists. Qed.

Lemma resolve_paired_inv t ch : tinv t -> exists t' evs, resolve_paired t ch = Some (t', evs) /\ tinv t'.
Proof.
  intros Ht. unfold resolve_paired. destruct (PendingDials.payload_of (t_dials t) ch) as [p|] eqn:Hp; [|by eexists _, _].
  pose proof Hp as Hp'. apply fmap_Some in Hp' as (e & He & ->). destruct (ti_pending t Ht _ _ He) as (_ & (_ & _ & Hres) & _).
  unfold HandshakeArq.on_paired_frame. rewrite Hres. cbn [run_arq_events mbind option_bind]. rewrite resolve_dial_stored by done.
  destruct (resolve_dial_inv t (dp_ep (PendingDials.e_payload e)) ch Ht) as (t' & evs & -> & Ht'). cbn. by eexists _, _.
Qed.

Lemma arq_timer_cases a ladder : length ladder = 3%nat -> arq_ok ladder a ->
  (HandshakeArq.m_attempt a = 3 /\ exists a', HandshakeArq.timer_handler a false = Some (a', [HandshakeArq.TimedOut])) \/
  (HandshakeArq.m_attempt a < 3 /\ exists a' delay, HandshakeArq.timer_handler a false = Some (a', [HandshakeArq.Transmit; HandshakeArq.ArmTimer delay]) /\
    arq_ok ladder a' /\ HandshakeArq.m_attempt a' = HandshakeArq.m_attempt a + 1 /\ ladder !! Z.to_nat (HandshakeArq.m_attempt a) = Some delay).
Proof.
  intros Hl (Hlad & Hat & Hres). unfold HandshakeArq.timer_handler. rewrite Hlad. unfold zlen. rewrite Hl.
  destruct (Z.geb_spec (HandshakeArq.m_attempt a) (Z.of_nat 3)) as [Hge|Hlt].
  - left. split; [lia|]. unfold HandshakeArq.surrender. rewrite Hres. by eexists.
  - right. split; [lia|]. cbn [HandshakeArq.transmit]. unfold HandshakeArq.arm. cbn [HandshakeArq.m_attempt HandshakeArq.m_ladder].
    rewrite wrap_small by (unfold in_width; lia). rewrite (proj2 (Z.ltb_ge _ _)) by lia. replace (HandshakeArq.m_attempt a + 1 - 1) with (HandshakeArq.m_attempt a) by lia.
    rewrite Hlad. destruct (lookup_lt_is_Some_2 ladder (Z.to_nat (HandshakeArq.m_attempt a))) as [d Hd]; [lia|]. rewrite Hd. cbn.
    eexists _, d. split_and!; try done. unfold arq_ok. cbn. split_and!; try done; lia.
Qed.

Lemma transmit_run t raw p delay : exists out, run_arq_events t raw p [HandshakeArq.Transmit; HandshakeArq.ArmTimer delay] = Some (t, out).
Proof. cbn [run_arq_events]. destruct (send_handshake_sent t (dp_dest p) hs_type_request (dp_mode p) (dp_isn p)) as (d & _ & ->). cbn. by eexists. Qed.

Lemma dial_timer_inv t raw ec : tinv t -> allowed t (OpDialTimer raw ec) -> exists t' evs, dial_timer t raw ec = Some (t', evs) /\ tinv t'.
Proof.
  intros Ht Ha. unfold dial_timer. destruct (PendingDials.payload_of (t_dials t) raw) as [p|] eqn:Hp.
  2: { destruct ec; [by eexists _, _|]. cbn in Ha. rewrite Hp in Ha. by destruct Ha. }
  pose proof Hp as Hp'. apply fmap_Some in Hp' as (e & He & ->). destruct (ti_pending t Ht _ _ He) as (Hch & Harq & _).
  destruct ec.
  - cbn. eexists _, []. split; [done|]. by apply store_arq_inv.
  - destruct (arq_timer_cases _ _ (ti_ladder t Ht) Harq) as [[_ (a' & ->)] | (_ & a' & d & -> & Ha' & _)]; cbn [mbind option_bind].
    + cbn [run_arq_events]. rewrite fail_dial_stored by done. destruct (fail_dial_inv t (dp_ep (PendingDials.e_payload e)) raw e Ht He) as (t' & -> & Ht' & _).
      cbn. by eexists _, _.
    + destruct (transmit_run (store_arq t raw (PendingDials.e_payload e) a') raw (PendingDials.e_payload e) d) as (out & ->). eexists _, _. split; [done|]. by apply store_arq_inv.
Qed.

Lemma with_open_inv t on : tinv t -> tinv (with_open t on).
Proof. by intros [? ? ? ? ? ? ? ?]. Qed.

Lemma server_start_inv t r : tinv t -> tinv (server_start t r).1.
Proof. intros Ht. unfold server_start. destruct r; [done|]. by apply with_open_inv. Qed.

Lemma accepted_inv t raw : tinv t -> handed t raw -> tinv (with_dials t (PendingDials.insert_accepted (t_dials t) raw raw)).
Proof.
  intros Ht (Hh & Hnp & Hna & Hnpo). rewrite <- (with_posted_same (with_dials _ _)). apply dials_inv; cbn; try done; try (by apply Ht).
  - intros r e He. destruct (ti_pending t Ht _ _ He) as (? & ? & ? & ?). split_and!; try done. rewrite lookup_insert_ne; [done|]. congruence.
  - intros r ch Hr. apply lookup_insert_Some in Hr as [[-> ->] | [_ Hr]]; [done|]. by apply (ti_accepted t Ht).
  - intros r Hr. destruct (ti_posted t Ht r Hr) as (? & ? & ?). split_and!; try done. rewrite lookup_insert_ne; [done|]. congruence.
Qed.

Lemma with_dials_same t : with_dials t (t_dials t) = t.
Proof. by destruct t. Qed.

Lemma with_dials_twice t r r' : with_dials (with_dials t r) r' = with_dials t r'.
Proof. done. Qed.

(** Outcome of a first contact: nothing, a refusal that leaves no trace, or a new channel. *)
Lemma accept_new_peer_inv t from datagram : tinv t -> exists t' evs, accept_new_peer t from datagram = Some (t', evs) /\ tinv t'.
Proof.
  intros Ht. unfold accept_new_peer. destruct (decode_handshake datagram) as [ [ [] mode isn ] |]; [|by eexists _, _|by eexists _, _].
  cbn [construct]. destruct (Demux.insert_sender _ from _) as [ok d] eqn:Hi. cbn [t_demux with_heap] in Hi.
  destruct (constructed_inv t from mode isn Ht) as [Htc Hhc]. unfold constructed in Htc, Hhc. rewrite Hi in Htc, Hhc. cbn [snd construct] in Htc, Hhc.
  destruct ok; cbn [negb].
  - destruct (send_handshake_sent (with_dials (wire_teardown (with_demux (with_heap t (<[t_next t:=ChannelObject from mode isn false]> (t_heap t)) (S (t_next t))) d) (t_next t))
      (PendingDials.insert_accepted (t_dials t) (t_next t) (t_next t))) from hs_type_response mode isn) as (dg & _ & Hs).
    cbn [t_dials wire_teardown with_demux with_heap]. cbn [t_dials wire_teardown with_demux with_heap] in Hs. rewrite Hs. cbn [mbind option_bind]. pose proof (accepted_inv _ _ Htc Hhc) as Hacc.
    destruct (t_has_accepted_cb _); cbn [negb]; [|by eexists _, _].
    unfold PendingDials.adopt_accepted. cbn [t_dials with_dials PendingDials.insert_accepted PendingDials.m_accepted]. rewrite lookup_insert_eq. cbn [mbind option_bind].
    eexists _, _. split; [done|]. destruct (fresh_handle t Ht) as (_ & _ & Hna & _). rewrite delete_insert_id by done.
    rewrite with_dials_twice. cbn [t_dials with_dials PendingDials.insert_accepted PendingDials.m_pending]. destruct Htc. by constructor.
  - assert (d = t_demux t) as ->. { unfold Demux.insert_sender in Hi. destruct (_ && _); by simplify_eq. }
    unfold destroy. cbn [t_heap with_heap]. rewrite lookup_insert_eq. cbn [mbind option_bind co_teardown]. eexists _, _. split; [done|].
    destruct (fresh_handle t Ht) as (Hh & _). cbn. rewrite delete_insert_id by done. destruct Ht as [Hlad Hd Hs Hpe Hac Hpos Hpn Hn]. constructor; try done.
    intros raw Hr. specialize (Hn raw Hr). cbn. lia.
Qed.

Lemma on_datagram_inv t from datagram : tinv t -> exists t' evs, on_datagram t from datagram = Some (t', evs) /\ tinv t'.
Proof.
  intros Ht. unfold on_datagram, Demux.lookup_sender. destruct (Demux.m_peers (t_demux t) !! from) as [ch|] eqn:Hl; [|by apply accept_new_peer_inv].
  unfold route_to_peer. destruct (decode_handshake datagram) as [ [ [] mode isn ] |]; cbn [uh_type uh_mode uh_initial_seq].
  - destruct (send_handshake_sent t from hs_type_response mode isn) as (d & _ & ->). by eexists _, _.
  - by apply resolve_paired_inv.
  - destruct (ti_demux t Ht _ _ Hl) as (c & -> & _). by eexists _, _.
Qed.

(** [dial] of an address that parses: the channel is pending, its request is out and the timer is armed. *)
Lemma dial_spec t ep r draw dest : tinv t -> parse_udp make_address (ep_address ep) = inr dest ->
  let t0 := (ensure_bound t r).1 in
  let mode := mode_of_scheme (ep_scheme ep) in
  let p := DialPayload (HandshakeArq.UdpHandshakeArq (t_ladder t) 1 false) ep dest mode (next_isn draw) in
  let t1 := constructed t0 dest mode (next_isn draw) in
  let t' := with_dials t1 (PendingDials.insert (t_dials t1) (t_next t) (t_next t) p) in
  tinv t' /\ exists out delay, t_ladder t !! 0%nat = Some delay /\
    send_handshake t0 dest hs_type_request mode (next_isn draw) = Some out /\
    dial t ep r draw = Some (t', (ensure_bound t r).2 ++ out ++ [ArmDialTimer (t_next t) delay]).
Proof.
  intros Ht Hparse. cbn zeta. assert (tinv (ensure_bound t r).1) as Ht0 by (unfold ensure_bound; destruct (t_open t); [done|by apply server_start_inv]).
  assert (t_next (ensure_bound t r).1 = t_next t /\ t_ladder (ensure_bound t r).1 = t_ladder t) as [Hnext Hlad]
    by (unfold ensure_bound, server_start; by destruct (t_open t), r).
  destruct (lookup_lt_is_Some_2 (t_ladder t) 0) as [delay Hdelay]; [pose proof (ti_ladder t Ht); lia|].
  set (mode := mode_of_scheme _). set (isn := next_isn draw). destruct (constructed_inv _ dest mode isn Ht0) as [Ht1 Hh]. rewrite Hnext in Hh.
  split.
  - destruct (fresh_handle t Ht) as (_ & Hp0 & Ha0 & _). rewrite <- (with_posted_same (with_dials _ _)).
    destruct Hh as (Hheap & Hnp & Hna & Hnpo). apply dials_inv; try done; try (by apply Ht1).
    + intros raw e. cbn [PendingDials.insert PendingDials.m_pending PendingDials.m_accepted]. intros [[<- <-] | [Hne Hr]]%lookup_insert_Some; [|by apply (ti_pending _ Ht1)].
      cbn [PendingDials.e_channel PendingDials.e_payload dp_arq dp_dest]. split_and!; try done.
      rewrite constructed_heap, Hnext, lookup_insert_eq. by eexists.
    + intros raw Hr. destruct (ti_posted _ Ht1 raw Hr) as (? & ? & ?). cbn [PendingDials.insert PendingDials.m_pending PendingDials.m_accepted]. split_and!; try done.
      rewrite lookup_insert_ne; [done|]. intros <-. by apply Hnpo.
  - destruct (send_handshake_sent (ensure_bound t r).1 dest hs_type_request mode isn) as (dg & Henc & Hsend). exists (if t_open (ensure_bound t r).1 then [SendTo dg dest] else []), delay.
    split; [done|]. split; [done|]. unfold dial. rewrite Hparse. destruct (ensure_bound t r) as [t0 bound]. cbn [fst snd] in *.
    cbn [construct]. unfold HandshakeArq.start, HandshakeArq.arq_new, HandshakeArq.transmit, HandshakeArq.arm. cbn [dp_arq HandshakeArq.m_resolved HandshakeArq.m_attempt HandshakeArq.m_ladder].
    change (wrap 8 (0 + 1)) with 1. change (1 - 1 <? 0) with false. change (Z.to_nat (1 - 1)) with 0%nat.
    cbn [t_ladder wire_teardown with_demux with_heap with_dials]. rewrite Hlad, Hdelay. cbn [mbind option_bind app run_arq_events dp_dest dp_mode dp_isn].
    unfold send_handshake in *. fold mode isn. rewrite Henc. cbn [mbind option_bind app]. rewrite Hnext. do 2 f_equal.
    unfold store_arq, constructed, PendingDials.set_payload, PendingDials.insert. cbn [construct snd]. rewrite Hnext.
    cbn [t_dials wire_teardown with_demux with_heap with_dials PendingDials.m_pending PendingDials.m_accepted]. by rewrite alter_insert_eq.
Qed.

Lemma dial_inv t ep r draw : tinv t -> exists t' evs, dial t ep r draw = Some (t', evs) /\ tinv t'.
Proof.
  intros Ht. destruct (parse_udp make_address (ep_address ep)) as [ec|dest] eqn:Hparse.
  - unfold dial. rewrite Hparse. by eexists _, _.
  - destruct (dial_spec t ep r draw dest Ht Hparse) as [Ht' (out & delay & _ & _ & ->)]. by eexists _, _.
Qed.

Lemma run_posted_inv t : tinv t -> exists t', run_posted t = Some t' /\ tinv t'.
Proof.
  intros Ht. unfold run_posted. destruct (t_posted t) as [| raw rest] eqn:Hp; [by eexists|].
  pose proof (ti_posted_once t Ht) as Hn. rewrite Hp in Hn. apply NoDup_cons in Hn as [Hnin Hn].
  destruct (ti_posted t Ht raw) as (Hh & Hnp & Hna); [rewrite Hp; by left|].
  assert (tinv (with_posted t rest)) as Ht'.
  { rewrite <- (with_dials_same t). apply dials_inv; try done; try (by apply Ht). intros r Hr. apply (ti_posted t Ht). rewrite Hp. by right. }
  destruct (destroy_inv _ raw Ht') as (t2 & -> & Ht2 & _); [done|]. by eexists.
Qed.

Lemma held_nodup t : tinv t -> NoDup (PendingDials.held (t_dials t)) /\ forall raw, raw ∈ PendingDials.held (t_dials t) -> is_Some (t_heap t !! raw) /\ raw ∉ t_posted t.
Proof.
  intros Ht. unfold PendingDials.held.
  assert (PendingDials.e_channel <$> (map_to_list (PendingDials.m_pending (t_dials t))).*2 = (map_to_list (PendingDials.m_pending (t_dials t))).*1) as ->.
  { rewrite <- list_fmap_compose. apply list_fmap_ext. intros i [raw e] Hi. apply list_elem_of_lookup_2, elem_of_map_to_list in Hi. cbn. by destruct (ti_pending t Ht _ _ Hi). }
  assert ((map_to_list (PendingDials.m_accepted (t_dials t))).*2 = (map_to_list (PendingDials.m_accepted (t_dials t))).*1) as ->.
  { apply list_fmap_ext. intros i [raw ch] Hi. apply list_elem_of_lookup_2, elem_of_map_to_list in Hi. cbn. by destruct (ti_accepted t Ht _ _ Hi). }
  assert (forall raw, raw ∈ (map_to_list (PendingDials.m_pending (t_dials t))).*1 -> is_Some (PendingDials.m_pending (t_dials t) !! raw)) as H1
    by (intros raw ([r e] & -> & Hin)%list_elem_of_fmap; apply elem_of_map_to_list in Hin; by eexists).
  assert (forall raw, raw ∈ (map_to_list (PendingDials.m_accepted (t_dials t))).*1 -> is_Some (PendingDials.m_accepted (t_dials t) !! raw)) as H2
    by (intros raw ([r e] & -> & Hin)%list_elem_of_fmap; apply elem_of_map_to_list in Hin; by eexists).
  split.
  - apply NoDup_app. split; [apply NoDup_fst_map_to_list|]. split; [|apply NoDup_fst_map_to_list].
    intros raw [e He]%H1 [ch Hch]%H2. destruct (ti_pending t Ht _ _ He) as (_ & _ & ? & _). congruence.
  - intros raw [ [e He]%H1 | [ch Hch]%H2 ]%elem_of_app.
    + destruct (ti_pending t Ht _ _ He) as (_ & _ & _ & c & Hc & _). split; [by eexists|]. intros Hin. destruct (ti_posted t Ht _ Hin) as (_ & ? & _). congruence.
    + destruct (ti_accepted t Ht _ _ Hch) as (_ & Hc). split; [done|]. intros Hin. destruct (ti_posted t Ht _ Hin) as (_ & _ & ?). congruence.
Qed.

Lemma destroy_all_inv l : forall t, tinv t -> PendingDials.m_pending (t_dials t) = ∅ -> PendingDials.m_accepted (t_dials t) = ∅ -> NoDup l ->
  (forall raw, raw ∈ l -> is_Some (t_heap t !! raw) /\ raw ∉ t_posted t) -> exists t', destroy_all t l = Some t' /\ tinv t'.
Proof.
  induction l as [| raw l IH]; intros t Ht Hp Ha Hn Hl; [by eexists|]. apply NoDup_cons in Hn as [Hnin Hn].
  destruct (Hl raw ltac:(by left)) as [Hh Hpo]. destruct (destroy_inv t raw Ht) as (t' & Hd & Ht' & Hkeep & Hdials & Hposted).
  { split_and!; [done|by rewrite Hp|by rewrite Ha|done]. }
  cbn [destroy_all]. rewrite Hd. cbn [mbind option_bind]. apply IH; [done|by rewrite Hdials|by rewrite Hdials|done|].
  intros r Hr. rewrite Hkeep, Hposted by (intros ->; done). apply Hl. by right.
Qed.

(** [destroy] does not look at the tables. *)
Lemma destroy_with_dials t r raw : destroy (with_dials t r) raw = (fun t' => with_dials t' r) <$> destroy t raw.
Proof. unfold destroy. cbn [t_heap with_dials]. destruct (t_heap t !! raw) as [c|]; [|done]. cbn. by destruct (co_teardown c). Qed.

Lemma destroy_all_with_dials l : forall t r, destroy_all (with_dials t r) l = (fun t' => with_dials t' r) <$> destroy_all t l.
Proof. induction l as [| raw l IH]; intros t r; [done|]. cbn [destroy_all]. rewrite destroy_with_dials. destruct (destroy t raw); cbn; [apply IH|done]. Qed.

Lemma close_inv t : tinv t -> exists t' evs, close t = Some (t', evs) /\ tinv t'.
Proof.
  intros Ht. unfold close. destruct (held_nodup t Ht) as [Hn Hl].
  assert (tinv (with_dials t (PendingDials.Registry ∅ ∅))) as Ht0.
  { rewrite <- (with_posted_same (with_dials _ _)). apply dials_inv; cbn; try done; try (by apply Ht); intros *; rewrite ?lookup_empty; try done.
    intros Hr. split_and!; try done. by apply (ti_posted t Ht). }
  destruct (destroy_all_inv _ _ Ht0 eq_refl eq_refl Hn Hl) as (t1 & Hd & Ht1). rewrite destroy_all_with_dials in Hd. apply fmap_Some in Hd as (t2 & -> & ->).
  cbn [mbind option_bind]. eexists _, _. split; [done|]. apply with_open_inv. destruct Ht1 as [Hlad Hde Hs Hpe Hac Hpos Hpn Hnx]. constructor; try done; cbn. by destruct Hs as (? & ? & ?).
Qed.

Lemma step_inv t o : tinv t -> allowed t o -> exists t' evs, step t o = Some (t', evs) /\ tinv t'.
Proof.
  intros Ht Hal. destruct o as [ep r|ep r draw|from datagram|raw ec| |raw|]; cbn [step].
  - unfold listen. destruct (parse_udp _ _); [by eexists _, _|]. eexists _, _. split; [apply f_equal, surjective_pairing|]. by apply server_start_inv.
  - by apply dial_inv.
  - by apply on_datagram_inv.
  - by apply dial_timer_inv.
  - destruct (run_posted_inv t Ht) as (t' & -> & Ht'). by eexists _, _.
  - destruct (destroy_inv t raw Ht Hal) as (t' & -> & Ht' & _). by eexists _, _.
  - by apply close_inv.
Qed.

Lemma reachable_tinv max_peers ladder t : 0 <= max_peers -> length ladder = 3%nat -> reachable max_peers ladder t -> tinv t.
Proof.
  intros Hm Hl Hr. induction Hr as [|t o t' evs Hr IH Hal Hs]; [by apply tinv_new|].
  destruct (step_inv t o IH Hal) as (t2 & evs2 & Hs2 & Ht2). by simplify_eq.
Qed.

(** C10: Whatever mix of dials, datagrams (forged or not), timer completions, releases of handed
    channels, posted destructions and closes a UDP transport has gone through, no operation reads or
    frees a channel or a dial that is gone, every handle in the demultiplexer is that of a live channel
    whose peer has exactly that address, and the demultiplexer holds at most [max_peers] peers.
    Assumed: the ladder has its three steps, an owner releases only channels it was handed, once, and
    a retransmit expiry is not already queued when its dial ends (cancelled waits may come at any
    time; a queued expiry uses the freed dial, [queued_expiry_uses_a_freed_dial]). *)
Theorem udp_transport_never_dangles max_peers ladder t o : 0 <= max_peers -> length ladder = 3%nat ->
  reachable max_peers ladder t -> allowed t o ->
  is_Some (step t o) /\
  (forall ep ch, Demux.lookup_sender (t_demux t) ep = Some ch -> exists c, t_heap t !! ch = Some c /\ co_dest c = ep) /\
  Demux.size (t_demux t) <= t_max_peers t.
Proof.
  intros Hm Hl Hr Hal. pose proof (reachable_tinv _ _ _ Hm Hl Hr) as Ht. split; [|split].
  - destruct (step_inv t o Ht Hal) as (t' & evs & -> & _). by eexists.
  - intros ep ch Hlk. destruct (ti_demux t Ht ep ch Hlk) as (c & ? & ? & _). by exists c.
  - apply (ti_size t Ht).
Qed.

(** ** The handshake from end to end *)

Lemma handshake_frame_roundtrip type mode isn d : in_width 16 isn -> encode_handshake_into [] type mode isn = Some d ->
  decode_handshake d = Some (UdpHandshake type mode isn).
Proof.
  intros Hi He. pose proof (udp_handshake_reads_back [] type mode isn Hi) as Hr. rewrite He in Hr. exact Hr.
Qed.

Lemma next_isn_range draw : 1 <= next_isn draw <= 0xFFFF.
Proof.
  unfold next_isn. pose proof (Z.mod_pos_bound draw 0xFFFF ltac:(lia)). rewrite (wrap_small 16 (draw mod _)) by (unfold in_width; lia).
  rewrite wrap_small by (unfold in_width; lia). lia.
Qed.

Lemma constructed_lookup t dest mode isn : Demux.size (t_demux t) < Demux.m_max_peers (t_demux t) ->
  Demux.lookup_sender (t_demux (constructed t dest mode isn)) dest = Some (t_next t).
Proof.
  intros Hs. unfold constructed, Demux.lookup_sender, Demux.insert_sender. cbn.
  destruct (Z.geb_spec (Demux.size (t_demux t)) (Demux.m_max_peers (t_demux t))); [lia|]. cbn. by rewrite lookup_insert_eq.
Qed.

(** First contact by a handshake request, with room in the table. *)
Lemma accept_request t from datagram mode isn : tinv t -> t_open t = true -> t_has_accepted_cb t = true ->
  Demux.lookup_sender (t_demux t) from = None -> Demux.size (t_demux t) < t_max_peers t ->
  in_width 16 isn -> encode_handshake_into [] hs_type_request mode isn = Some datagram ->
  exists rsp, encode_handshake_into [] hs_type_response mode isn = Some rsp /\
    on_datagram t from datagram = Some (constructed t from mode isn, [SendTo rsp from; Accepted (t_next t)]).
Proof.
  intros Ht Ho Hcb Hl Hs Hi He. unfold on_datagram. rewrite Hl. unfold accept_new_peer. rewrite (handshake_frame_roundtrip _ _ _ _ Hi He).
  destruct (send_handshake_sent t from hs_type_response mode isn) as (rsp & Hrsp & _). exists rsp. split; [done|].
  cbn [construct t_demux with_heap]. unfold constructed. cbn [construct snd]. unfold Demux.insert_sender. destruct (ti_size t Ht) as (_ & -> & _).
  destruct (Z.geb_spec (Demux.size (t_demux t)) (t_max_peers t)); [lia|]. cbn [andb negb snd].
  unfold send_handshake. rewrite Hrsp. cbn [mbind option_bind t_open t_has_accepted_cb wire_teardown with_demux with_heap with_dials]. rewrite Ho, Hcb. cbn [negb].
  unfold PendingDials.adopt_accepted. cbn [t_dials wire_teardown with_demux with_heap with_dials PendingDials.insert_accepted PendingDials.m_accepted].
  rewrite lookup_insert_eq. cbn [mbind option_bind app]. do 2 f_equal. destruct (fresh_handle t Ht) as (_ & _ & Hna & _).
  cbn. rewrite delete_insert_id by done. unfold with_dials, wire_teardown, with_demux, with_heap. cbn. by destruct (t_dials t).
Qed.

(** A paired response resolves the pending dial. *)
Lemma response_resolves t from datagram raw e mode isn : tinv t -> t_has_dialed_cb t = true -> Demux.lookup_sender (t_demux t) from = Some raw ->
  PendingDials.m_pending (t_dials t) !! raw = Some e -> in_width 16 isn -> encode_handshake_into [] hs_type_response mode isn = Some datagram ->
  on_datagram t from datagram =
    Some (with_dials t (PendingDials.Registry (delete raw (PendingDials.m_pending (t_dials t))) (PendingDials.m_accepted (t_dials t))),
          [Dialed raw (dp_ep (PendingDials.e_payload e))]).
Proof.
  intros Ht Hcb Hl He Hi Henc. unfold on_datagram. rewrite Hl. unfold route_to_peer. rewrite (handshake_frame_roundtrip _ _ _ _ Hi Henc). cbn [uh_type].
  destruct (ti_pending t Ht _ _ He) as (Hch & (_ & _ & Hres) & _). unfold resolve_paired. assert (PendingDials.payload_of (t_dials t) raw = Some (PendingDials.e_payload e)) as Hp by (unfold PendingDials.payload_of; by rewrite He).
  rewrite Hp. unfold HandshakeArq.on_paired_frame. rewrite Hres. cbn [run_arq_events mbind option_bind]. rewrite resolve_dial_stored by done.
  unfold resolve_dial, PendingDials.resolve. rewrite He. cbn [t_has_dialed_cb with_dials]. by rewrite Hcb, Hch.
Qed.

(** C11: A dial whose request and whose answer get through establishes one channel at each end, in the
    mode the scheme asks for and with the same initial sequence number, which is never the zero of a
    legacy peer; the dialer reports it for the endpoint that was dialed, and a repeated request or a
    repeated answer changes nothing and creates no second channel.  Assumed: both sockets are open, the
    callbacks are set, both demultiplexers have room, and the listener has no channel for the address the
    request comes from (for a known address it keeps the old channel,
    [redial_meets_the_old_channel]). *)
Theorem dial_establishes_paired_channels max_a max_b ladder_a ladder_b a b ep r draw dest from :
  0 <= max_a -> 0 <= max_b -> length ladder_a = 3%nat -> length ladder_b = 3%nat -> reachable max_a ladder_a a -> reachable max_b ladder_b b ->
  parse_udp make_address (ep_address ep) = inr dest ->
  t_open (ensure_bound a r).1 = true -> t_has_dialed_cb a = true -> Demux.size (t_demux a) < t_max_peers a ->
  t_open b = true -> t_has_accepted_cb b = true -> Demux.lookup_sender (t_demux b) from = None -> Demux.size (t_demux b) < t_max_peers b ->
  exists a' request delay b' answer a'',
    let raw := t_next a in let ch := t_next b in let mode := mode_of_scheme (ep_scheme ep) in let isn := next_isn draw in
    dial a ep r draw = Some (a', (ensure_bound a r).2 ++ [SendTo request dest; ArmDialTimer raw delay]) /\
    on_datagram b from request = Some (b', [SendTo answer from; Accepted ch]) /\
    on_datagram a' dest answer = Some (a'', [Dialed raw ep]) /\
    t_heap a'' !! raw = Some (ChannelObject dest mode isn true) /\ t_heap b' !! ch = Some (ChannelObject from mode isn true) /\ 1 <= isn <= 0xFFFF /\
    on_datagram b' from request = Some (b', [SendTo answer from]) /\ on_datagram a'' dest answer = Some (a'', []).
Proof.
  intros Hma Hmb Hla Hlb Hra Hrb Hparse Hoa Hcba Hsa Hob Hcbb Hlb' Hsb.
  pose proof (reachable_tinv _ _ _ Hma Hla Hra) as Hta. pose proof (reachable_tinv _ _ _ Hmb Hlb Hrb) as Htb.
  pose proof (next_isn_range draw) as Hisn. assert (in_width 16 (next_isn draw)) as Hi by (unfold in_width; lia).
  set (mode := mode_of_scheme (ep_scheme ep)) in *. set (isn := next_isn draw) in *.
  destruct (dial_spec a ep r draw dest Hta Hparse) as [Hta' (out & delay & Hdelay & Hsend & Hdial)]. fold mode isn in Hta', Hsend, Hdial.
  destruct (send_handshake_sent (ensure_bound a r).1 dest hs_type_request mode isn) as (request & Hreq & Hsend'). rewrite Hsend in Hsend'. rewrite Hoa in Hsend'. simplify_eq.
  destruct (accept_request b from request mode isn Htb Hob Hcbb Hlb' Hsb Hi Hreq) as (answer & Hans & Hacc).
  assert (t_next (ensure_bound a r).1 = t_next a /\ t_has_dialed_cb (ensure_bound a r).1 = t_has_dialed_cb a /\ t_demux (ensure_bound a r).1 = t_demux a) as (Hnext & Hcb0 & Hd0)
    by (unfold ensure_bound, server_start; by destruct (t_open a), r).
  set (a' := with_dials _ _) in Hta', Hdial.
  assert (Demux.lookup_sender (t_demux a') dest = Some (t_next a)) as Hlk.
  { change (t_demux a') with (t_demux (constructed (ensure_bound a r).1 dest mode isn)). rewrite <- Hnext. apply constructed_lookup. rewrite Hd0. destruct (ti_size a Hta) as (_ & -> & _). done. }
  pose proof (response_resolves a' dest answer (t_next a) _ mode isn Hta' ltac:(cbn; by rewrite Hcb0) Hlk (lookup_insert_eq _ _ _) Hi Hans) as Hres.
  eexists a', request, delay, _, answer, _. cbn zeta. split; [exact Hdial|]. split; [exact Hacc|]. split; [exact Hres|]. split_and!.
  - change (t_heap (constructed (ensure_bound a r).1 dest mode isn) !! t_next a = Some (ChannelObject dest mode isn true)). by rewrite constructed_heap, Hnext, lookup_insert_eq.
  - by rewrite constructed_heap, lookup_insert_eq.
  - lia.
  - lia.
  - unfold on_datagram. rewrite constructed_lookup by (destruct (ti_size b Htb) as (_ & -> & _); done). unfold route_to_peer. rewrite (handshake_frame_roundtrip _ _ _ _ Hi Hreq). cbn [uh_type uh_mode uh_initial_seq].
    unfold send_handshake. rewrite Hans. cbn [mbind option_bind]. change (t_open (constructed b from mode isn)) with (t_open b). by rewrite Hob.
  - unfold on_datagram. change (t_demux (with_dials a' ?r)) with (t_demux a'). rewrite Hlk. unfold route_to_peer. rewrite (handshake_frame_roundtrip _ _ _ _ Hi Hans). cbn [uh_type].
    unfold resolve_paired, PendingDials.payload_of. cbn [t_dials with_dials PendingDials.m_pending]. by rewrite lookup_delete_eq.
Qed.

(** ** Giving up *)

(** A pending dial whose [n]-th request is out. *)
Definition waiting (t : transport) (raw : nat) (ep : io_endpoint) (dest : udp_endpoint) (mode : udp_channel_mode) (isn n : Z) : Prop :=
  exists e, PendingDials.m_pending (t_dials t) !! raw = Some e /\ HandshakeArq.m_attempt (dp_arq (PendingDials.e_payload e)) = n /\
    dp_ep (PendingDials.e_payload e) = ep /\ dp_dest (PendingDials.e_payload e) = dest /\ dp_mode (PendingDials.e_payload e) = mode /\ dp_isn (PendingDials.e_payload e) = isn.

Lemma timer_retransmits t raw ep dest mode isn n : tinv t -> t_open t = true -> waiting t raw ep dest mode isn n -> n < 3 ->
  exists t' request delay, encode_handshake_into [] hs_type_request mode isn = Some request /\ t_ladder t !! Z.to_nat n = Some delay /\
    dial_timer t raw false = Some (t', [SendTo request dest; ArmDialTimer raw delay]) /\
    tinv t' /\ t_open t' = true /\ t_ladder t' = t_ladder t /\ t_has_failed_cb t' = t_has_failed_cb t /\ waiting t' raw ep dest mode isn (n + 1).
Proof.
  intros Ht Ho (e & He & Hn & Hep & Hdest & Hmode & Hisn) Hlt. destruct (ti_pending t Ht _ _ He) as (_ & Harq & _).
  assert (PendingDials.payload_of (t_dials t) raw = Some (PendingDials.e_payload e)) as Hp by (unfold PendingDials.payload_of; by rewrite He).
  unfold dial_timer. rewrite Hp. destruct (arq_timer_cases _ _ (ti_ladder t Ht) Harq) as [[Hc _] | (_ & a' & d & -> & Ha' & Hat & Hd)]; [lia|]. cbn [mbind option_bind].
  destruct (send_handshake_sent (store_arq t raw (PendingDials.e_payload e) a') dest hs_type_request mode isn) as (request & Hreq & Hsend).
  cbn [run_arq_events]. rewrite Hdest, Hmode, Hisn, Hsend. change (t_open (store_arq t raw (PendingDials.e_payload e) a')) with (t_open t). rewrite Ho. cbn [mbind option_bind app].
  eexists _, request, d. rewrite <- Hn. split_and!; try done; [by apply store_arq_inv|].
  exists (PendingDials.Entry (PendingDials.e_channel e) (set_arq (PendingDials.e_payload e) a')). cbn. rewrite lookup_alter_eq, He. by split_and!.
Qed.

(** C32: A dial that nobody answers, on a socket that is open or can be bound, sends its request exactly
    three times, with the three delays of the ladder between them, and at the third expiry gives up: it
    arms no further timer, leaves the table, posts its channel for destruction and reports the endpoint as
    timed out, once, to the failure callback that is set; the completion of a cancelled wait changes
    nothing afterwards. *)
Theorem unanswered_dial_gives_up_after_the_ladder max_peers ladder t ep r draw dest : 0 <= max_peers -> length ladder = 3%nat ->
  reachable max_peers ladder t -> t_has_failed_cb t = true -> parse_udp make_address (ep_address ep) = inr dest -> t_open (ensure_bound t r).1 = true ->
  exists request t1 t2 t3 t4 d1 d2 d3,
    let raw := t_next t in
    t_ladder t = [d1; d2; d3] /\ encode_handshake_into [] hs_type_request (mode_of_scheme (ep_scheme ep)) (next_isn draw) = Some request /\
    dial t ep r draw = Some (t1, (ensure_bound t r).2 ++ [SendTo request dest; ArmDialTimer raw d1]) /\
    dial_timer t1 raw false = Some (t2, [SendTo request dest; ArmDialTimer raw d2]) /\
    dial_timer t2 raw false = Some (t3, [SendTo request dest; ArmDialTimer raw d3]) /\
    dial_timer t3 raw false = Some (t4, [PostDestroy raw; DialFailed ep err_timed_out]) /\
    PendingDials.m_pending (t_dials t4) !! raw = None /\ raw ∈ t_posted t4 /\ dial_timer t4 raw true = Some (t4, []).
Proof.
  intros Hm Hl Hr Hcb Hparse Ho. pose proof (reachable_tinv _ _ _ Hm Hl Hr) as Ht.
  destruct (dial_spec t ep r draw dest Ht Hparse) as [Ht1 (out & d1 & Hd1 & Hsend & Hdial)].
  destruct (send_handshake_sent (ensure_bound t r).1 dest hs_type_request (mode_of_scheme (ep_scheme ep)) (next_isn draw)) as (request & Hreq & Hsend').
  rewrite Hsend in Hsend'. rewrite Ho in Hsend'. simplify_eq. set (t1 := with_dials _ _) in Ht1, Hdial.
  assert (t_ladder (ensure_bound t r).1 = t_ladder t /\ t_has_failed_cb (ensure_bound t r).1 = t_has_failed_cb t) as [Hlad0 Hcb0]
    by (unfold ensure_bound, server_start; by destruct (t_open t), r).
  assert (waiting t1 (t_next t) ep dest (mode_of_scheme (ep_scheme ep)) (next_isn draw) 1) as Hw1 by (eexists; split; [apply lookup_insert_eq|done]).
  destruct (timer_retransmits t1 _ _ _ _ _ 1 Ht1 Ho Hw1 ltac:(lia)) as (t2 & rq2 & d2 & Hrq2 & Hd2 & Htm2 & Ht2 & Ho2 & Hlad2 & Hcb2 & Hw2).
  destruct (timer_retransmits t2 _ _ _ _ _ 2 Ht2 Ho2 Hw2 ltac:(lia)) as (t3 & rq3 & d3 & Hrq3 & Hd3 & Htm3 & Ht3 & Ho3 & Hlad3 & Hcb3 & Hw3). simplify_eq.
  destruct Hw3 as (e & He & Hn & Hep & _). destruct (ti_pending t3 Ht3 _ _ He) as (_ & Harq & _).
  assert (PendingDials.payload_of (t_dials t3) (t_next t) = Some (PendingDials.e_payload e)) as Hp by (unfold PendingDials.payload_of; by rewrite He).
  destruct (fail_dial_inv t3 ep (t_next t) e Ht3 He) as (t4 & Hf & Ht4 & Hnone & Hposted).
  exists request, t1, t2, t3, t4, d1, d2, d3. cbn zeta. split_and!; try done.
  - change (t_ladder t1) with (t_ladder (ensure_bound t r).1) in Hd2, Hlad2. rewrite Hlad2, Hlad0 in Hd3. rewrite Hlad0 in Hd2. pose proof (ti_ladder t Ht) as Hlen.
    destruct (t_ladder t) as [| x1 [| x2 [| x3 [| ? ?]]]]; try done.
    change (Z.to_nat 1) with 1%nat in Hd2. change (Z.to_nat 2) with 2%nat in Hd3. cbn in Hd1, Hd2, Hd3. by simplify_eq.
  - unfold dial_timer. rewrite Hp. destruct (arq_timer_cases _ _ (ti_ladder t3 Ht3) Harq) as [[_ (a' & ->)] | (Hc & _)]; [|lia]. cbn [mbind option_bind run_arq_events].
    rewrite fail_dial_stored by done. rewrite Hep, Hf. cbn. unfold report_dial_fail. rewrite Hcb3, Hcb2. change (t_has_failed_cb t1) with (t_has_failed_cb (ensure_bound t r).1). by rewrite Hcb0, Hcb.
  - unfold dial_timer, PendingDials.payload_of. by rewrite Hnone.
Qed.

(** An expiry that was queued when its dial was resolved or failed runs on the freed dial: nothing
    but the error code is checked. *)
Theorem queued_expiry_uses_a_freed_dial t raw : PendingDials.m_pending (t_dials t) !! raw = None -> dial_timer t raw false = None.
Proof. intros Hn. unfold dial_timer, PendingDials.payload_of. by rewrite Hn. Qed.

(** A dial from an address the listener has a channel for is answered with the new sequence number,
    and the listener keeps the channel of the old one. *)
Theorem redial_meets_the_old_channel t from ch request mode isn : tinv t -> t_open t = true -> Demux.lookup_sender (t_demux t) from = Some ch ->
  in_width 16 isn -> encode_handshake_into [] hs_type_request mode isn = Some request ->
  exists answer c, encode_handshake_into [] hs_type_response mode isn = Some answer /\ t_heap t !! ch = Some c /\
    on_datagram t from request = Some (t, [SendTo answer from]).
Proof.
  intros Ht Ho Hl Hi Hreq. destruct (ti_demux t Ht _ _ Hl) as (c & Hc & _).
  destruct (send_handshake_sent t from hs_type_response mode isn) as (answer & Hans & Hs). exists answer, c. split; [done|]. split; [done|].
  unfold on_datagram. rewrite Hl. unfold route_to_peer. rewrite (handshake_frame_roundtrip _ _ _ _ Hi Hreq). cbn [uh_type uh_mode uh_initial_seq].
  rewrite Hs, Ho. done.
Qed.

(** When two dials to one address are pending, the older one's timeout takes the newer one's entry
    out of the demultiplexer, and the answer to the newer one is then dropped. *)
Lemma older_timeout_unroutes_newer_dial t raw e newer : tinv t -> PendingDials.m_pending (t_dials t) !! raw = Some e ->
  HandshakeArq.m_attempt (dp_arq (PendingDials.e_payload e)) = 3 ->
  Demux.lookup_sender (t_demux t) (dp_dest (PendingDials.e_payload e)) = Some newer -> newer <> raw ->
  exists t' evs, dial_timer t raw false = Some (t', evs) /\ PendingDials.m_pending (t_dials t') !! newer = PendingDials.m_pending (t_dials t) !! newer /\
    forall mode isn answer, in_width 16 isn -> encode_handshake_into [] hs_type_response mode isn = Some answer ->
      on_datagram t' (dp_dest (PendingDials.e_payload e)) answer = Some (t', []).
Proof.
  intros Ht He Hn Hl Hne. destruct (ti_pending t Ht _ _ He) as (Hch & Harq & _ & c & Hc & Hdest).
  assert (PendingDials.payload_of (t_dials t) raw = Some (PendingDials.e_payload e)) as Hp by (unfold PendingDials.payload_of; by rewrite He).
  unfold dial_timer. rewrite Hp. destruct (arq_timer_cases _ _ (ti_ladder t Ht) Harq) as [[_ (a' & ->)] | (Hx & _)]; [|lia]. cbn [mbind option_bind run_arq_events].
  rewrite fail_dial_stored by done. unfold fail_dial. rewrite Hc. cbn [mbind option_bind]. unfold PendingDials.fail. cbn [t_dials with_demux]. rewrite He. cbn [mbind option_bind].
  eexists _, _. split; [done|]. split; [cbn; by rewrite lookup_delete_ne|]. intros mode isn answer Hi Hans.
  unfold on_datagram, Demux.lookup_sender. cbn [t_demux with_posted with_dials with_demux Demux.erase Demux.m_peers]. rewrite Hdest, lookup_delete_eq.
  unfold accept_new_peer. by rewrite (handshake_frame_roundtrip _ _ _ _ Hi Hans).
Qed.

End Transport.

(** ** Concrete runs *)

Section Runs.
#[local] Instance dial_host : Host := little.

Definition run_address (name : bytes) : error_code + nat := if decide (name = text "peer") then inr 7%nat else inl ec_invalid_argument.
Definition run_ep : io_endpoint := IoEndpoint (text "udpr") (text "peer:7450").
Definition run_dest : udp_endpoint (Address := nat) := (7%nat, 7450).
Definition run_from : udp_endpoint (Address := nat) := (3%nat, 40000).
Definition run_new : transport (Address := nat) := transport_new 4 HandshakeArq.default_ladder.
Definition run_ops (ops : list (op (Address := nat))) : option (transport (Address := nat)) :=
  foldl (fun t o => t ← t; fst <$> step run_address t o) (Some run_new) ops.

Lemma run_ops_reachable ops t : Forall (fun o => match o with OpRelease _ => False | _ => True end) ops ->
  run_ops ops = Some t -> reachable run_address 4 HandshakeArq.default_ladder t.
Proof.
  unfold run_ops. revert t. induction ops as [| o ops IH] using rev_ind; intros t Hall Hrun; [cbn in Hrun; simplify_eq; constructor|].
  apply Forall_app in Hall as [Hall Ho]. rewrite foldl_app in Hrun. cbn in Hrun. apply bind_Some in Hrun as (t0 & H0 & H1). apply fmap_Some in H1 as ([t1 evs] & H1 & ->).
  eapply ReachStep; [by apply IH| |exact H1]. inversion Ho; subst. destruct o as [| | |raw ec| | |]; try done. destruct ec; [done|]. cbn in H1 |- *. unfold dial_timer in H1.
  destruct (PendingDials.payload_of (t_dials t0) raw); [by eexists|done].
Qed.

Definition run_listening : transport (Address := nat) := default run_new (run_ops [OpListen run_ep None]).
Definition run_dialing : transport (Address := nat) := default run_new (run_ops [OpDial run_ep None 41; OpDial run_ep None 42; OpDialTimer 0 false]).

Lemma run_listening_reachable : reachable run_address 4 HandshakeArq.default_ladder run_listening.
Proof. apply (run_ops_reachable [OpListen run_ep None]); [by repeat constructor|]. by vm_compute. Qed.

Lemma run_dialing_reachable : reachable run_address 4 HandshakeArq.default_ladder run_dialing.
Proof. apply (run_ops_reachable [OpDial run_ep None 41; OpDial run_ep None 42; OpDialTimer 0 false]); [by repeat constructor|]. by vm_compute. Qed.

Lemma udp_transport_never_dangles_witness :
  is_Some (step run_address run_dialing OpClose) /\ Demux.lookup_sender (t_demux run_dialing) run_dest = Some 1%nat /\
  exists c, t_heap run_dialing !! 1%nat = Some c /\ co_dest c = run_dest.
Proof.
  destruct (udp_transport_never_dangles run_address 4 HandshakeArq.default_ladder run_dialing OpClose ltac:(lia) eq_refl run_dialing_reachable I) as (H1 & H2 & _).
  split; [exact H1|]. split; [by vm_compute|]. apply H2. by vm_compute.
Defined.

Lemma dial_establishes_paired_channels_witness : exists a' request delay b' answer a'',
  dial run_address run_listening run_ep None 41 = Some (a', [SendTo request run_dest; ArmDialTimer 0 delay]) /\
  on_datagram run_listening run_from request = Some (b', [SendTo answer run_from; Accepted 0]) /\
  on_datagram a' run_dest answer = Some (a'', [Dialed 0 run_ep]) /\
  t_heap b' !! 0%nat = Some (ChannelObject run_from mode_reliable_datagram 42 true).
Proof.
  destruct (dial_establishes_paired_channels run_address 4 4 HandshakeArq.default_ladder HandshakeArq.default_ladder run_listening run_listening run_ep None 41 run_dest run_from
    ltac:(lia) ltac:(lia) eq_refl eq_refl run_listening_reachable run_listening_reachable ltac:(by vm_compute) ltac:(by vm_compute) ltac:(by vm_compute) ltac:(by vm_compute)
    ltac:(by vm_compute) ltac:(by vm_compute) ltac:(by vm_compute) ltac:(by vm_compute)) as (a' & request & delay & b' & answer & a'' & H1 & H2 & H3 & _ & H5 & _).
  exists a', request, delay, b', answer, a''. split; [exact H1|]. split; [exact H2|]. split; [exact H3|exact H5].
Defined.

Lemma unanswered_dial_gives_up_after_the_ladder_witness : exists request t1 t2 t3 t4,
  dial run_address run_listening run_ep None 41 = Some (t1, [SendTo request run_dest; ArmDialTimer 0 250]) /\
  dial_timer t1 0 false = Some (t2, [SendTo request run_dest; ArmDialTimer 0 500]) /\
  dial_timer t2 0 false = Some (t3, [SendTo request run_dest; ArmDialTimer 0 1000]) /\
  dial_timer t3 0 false = Some (t4, [PostDestroy 0; DialFailed run_ep err_timed_out]).
Proof.
  destruct (unanswered_dial_gives_up_after_the_ladder run_address 4 HandshakeArq.default_ladder run_listening run_ep None 41 run_dest
    ltac:(lia) eq_refl run_listening_reachable ltac:(by vm_compute) ltac:(by vm_compute) ltac:(by vm_compute)) as (request & t1 & t2 & t3 & t4 & d1 & d2 & d3 & Hl & _ & H1 & H2 & H3 & H4 & _).
  assert ([250; 500; 1000] = [d1; d2; d3]) as Hd by exact Hl. injection Hd as <- <- <-.
  exists request, t1, t2, t3, t4. split; [exact H1|]. split; [exact H2|]. split; [exact H3|exact H4].
Defined.

(** Two dials to one peer, the first of which times out, and the peer answers the second. *)
Definition run_two_dials : option (transport (Address := nat)) :=
  run_ops [OpDial run_ep None 41; OpDial run_ep None 42; OpDialTimer 0 false; OpDialTimer 0 false; OpDialTimer 0 false].

Lemma older_timeout_drops_the_answer : exists t answer, run_two_dials = Some t /\
  encode_handshake_into [] hs_type_response mode_reliable_datagram 43 = Some answer /\
  is_Some (PendingDials.m_pending (t_dials t) !! 1%nat) /\ on_datagram t run_dest answer = Some (t, []).
Proof.
  destruct run_two_dials as [t|] eqn:Ht; [|by vm_compute in Ht]. assert (t = default run_new run_two_dials) as -> by (by rewrite Ht).
  destruct (encode_handshake_into [] hs_type_response mode_reliable_datagram 43) as [answer|] eqn:Ha; [|by vm_compute in Ha].
  assert (answer = default [] (encode_handshake_into [] hs_type_response mode_reliable_datagram 43)) as -> by (by rewrite Ha). clear Ht Ha.
  eexists _, _. split; [done|]. split; [done|]. split; [vm_compute; by eexists|by vm_compute].
Qed.

End Runs.

End UdpDial.
