(* ===== verification/UdpServer.v ===== *)
(** * The shared UDP socket

    Models [backends/plexus-asio/include/plexus/asio/udp_server.h] and
    [detail/udp_server_dispatch.h]: the one bound socket of a transport over the datagram send
    queue.  The results of the socket calls are arguments, what is asked of the socket and of the
    callbacks are events. *)

From stdpp Require Import gmap.
From S2P Require Import Prelude ByteOrder SendQueue Egress UdpChannel UdpTransport.

Module UdpServer.
Import UdpDial.

Section Server.
Context {Endpoint : Type}.

Inductive event :=
| AsyncSend (datagram : bytes) (dest : Endpoint)
| SyncSend (datagram : bytes) (dest : Endpoint)
| ArmReceive
| Datagram (from : Endpoint) (datagram : bytes)
| Report (e : io_error)
| SetSendBuffer (n : Z)
| SetReceiveBuffer (n : Z).

Record server : Type := Server {
  s_socket_open : bool;
  m_congestion : congestion;
  m_so_sndbuf : Z;
  m_so_rcvbuf : Z;
  m_dropped : Z;
  m_send_errors : Z;
  m_recv_resets : Z;
  m_send_queue : DatagramQueue.send_queue (Endpoint := Endpoint);
  m_has_datagram_cb : bool;
  m_has_error_cb : bool;
  m_open : bool;
}.

Definition default_send_queue_bytes (global_default_max_message_bytes : Z) : Z := Z.max 65536 global_default_max_message_bytes.

Definition server_new (c : congestion) (send_queue_bytes so_sndbuf so_rcvbuf : Z) : server :=
  Server false c so_sndbuf so_rcvbuf 0 0 0 (DatagramQueue.send_queue_new send_queue_bytes) false false false.

Definition with_queue (s : server) (q : DatagramQueue.send_queue (Endpoint := Endpoint)) : server :=
  Server (s_socket_open s) (m_congestion s) (m_so_sndbuf s) (m_so_rcvbuf s) (m_dropped s) (m_send_errors s) (m_recv_resets s) q (m_has_datagram_cb s) (m_has_error_cb s) (m_open s).
Definition with_counters (s : server) (dropped errors resets : Z) : server :=
  Server (s_socket_open s) (m_congestion s) (m_so_sndbuf s) (m_so_rcvbuf s) (wrap 64 dropped) (wrap 64 errors) (wrap 64 resets) (m_send_queue s) (m_has_datagram_cb s) (m_has_error_cb s) (m_open s).
Definition with_socket (s : server) (sock on : bool) : server :=
  Server sock (m_congestion s) (m_so_sndbuf s) (m_so_rcvbuf s) (m_dropped s) (m_send_errors s) (m_recv_resets s) (m_send_queue s) (m_has_datagram_cb s) (m_has_error_cb s) on.

Definition transient_send_error (ec : error_code) : bool :=
  negb (bool_decide (ec = ec_bad_descriptor)) && negb (bool_decide (ec = ec_operation_not_supported)) && negb (bool_decide (ec = ec_network_down)).

Definition server_report (s : server) (ec : error_code) : list event := if m_has_error_cb s then [Report (map_error ec)] else [].

Definition on_send_queue_full (s : server) : server * list event :=
  match m_congestion s with
  | drop_newest => (with_counters s (m_dropped s + 1) (m_send_errors s) (m_recv_resets s), [])
  | _ => (s, if m_has_error_cb s then [Report err_would_block] else [])
  end.

Definition on_sync_send_error (s : server) (ec : error_code) : server * list event :=
  if transient_send_error ec then (with_counters s (m_dropped s) (m_send_errors s + 1) (m_recv_resets s), []) else
  (with_queue s (DatagramQueue.close (m_send_queue s)), server_report s ec).

Definition sink_events (evs : list (DatagramQueue.event (Endpoint := Endpoint))) : list event := map (fun '(DatagramQueue.SendTo d e) => AsyncSend d e) evs.

(** The completion of [async_send_to] in [make_send_sink]. *)
Definition on_sent (s : server) (ec : option error_code) : option (server * list event) :=
  if bool_decide (ec = Some ec_operation_aborted) || negb (m_open s) then Some (s, []) else
  match ec with
  | None => '(evs, q) ← DatagramQueue.complete (m_send_queue s) true; Some (with_queue s q, sink_events evs)
  | Some ec =>
      if transient_send_error ec then
        let s := with_counters s (m_dropped s) (m_send_errors s + 1) (m_recv_resets s) in
        '(evs, q) ← DatagramQueue.complete (m_send_queue s) true; Some (with_queue s q, sink_events evs)
      else Some (with_queue s (DatagramQueue.close (m_send_queue s)), server_report s ec)
  end.

Definition apply_socket_buffers (s : server) : list event :=
  (if m_so_sndbuf s =? 0 then [] else [SetSendBuffer (m_so_sndbuf s)]) ++ (if m_so_rcvbuf s =? 0 then [] else [SetReceiveBuffer (m_so_rcvbuf s)]).

(** The results of [open] and [bind]. *)
Definition start (s : server) (open_ec bind_ec : option error_code) : server * list event :=
  match open_ec with
  | Some ec => (s, server_report s ec)
  | None =>
      let s := with_socket s true (m_open s) in
      let buffers := apply_socket_buffers s in
      match bind_ec with
      | Some ec => (s, buffers ++ server_report s ec)
      | None => (with_socket s true true, buffers ++ [ArmReceive])
      end
  end.

Definition enqueue_or_full (s : server) (datagram : bytes) (dest : Endpoint) : server * list event :=
  let '(ok, evs, q) := DatagramQueue.enqueue (m_send_queue s) datagram dest in
  let s := with_queue s q in
  if ok then (s, sink_events evs) else let '(s, out) := on_send_queue_full s in (s, sink_events evs ++ out).

Definition send_to (s : server) (datagram : bytes) (dest : Endpoint) : server * list event :=
  if negb (m_open s) then (s, []) else enqueue_or_full s datagram dest.

(** [ec] is the result of the synchronous send, if it is made. *)
Definition send_standalone_to (s : server) (datagram : bytes) (dest : Endpoint) (ec : option error_code) : server * list event :=
  if negb (m_open s) then (s, []) else
  if (DatagramQueue.queued_bytes (m_send_queue s) =? 0) && negb (DatagramQueue.sending (m_send_queue s)) then
    match ec with
    | None => (s, [SyncSend datagram dest])
    | Some ec =>
        if decide (ec = ec_would_block) then let '(s, evs) := enqueue_or_full s datagram dest in (s, SyncSend datagram dest :: evs) else
        let '(s, evs) := on_sync_send_error s ec in (s, SyncSend datagram dest :: evs)
    end
  else enqueue_or_full s datagram dest.

Definition close (s : server) : server :=
  if negb (s_socket_open s) then s else with_queue (with_socket s false false) (DatagramQueue.close (m_send_queue s)).

Definition recv_fail (s : server) (ec : error_code) : server * list event :=
  if bool_decide (ec = ec_operation_aborted) || negb (m_open s) then (s, []) else
  if decide (ec = ec_connection_reset) then
    (with_counters s (m_dropped s) (m_send_errors s) (m_recv_resets s + 1), if m_open s then [ArmReceive] else [])
  else (s, server_report s ec ++ (if m_open s then [ArmReceive] else [])).

(** The completion of [async_receive_from] in [do_receive]; the callback does not close the server. *)
Definition on_received (s : server) (result : error_code + Endpoint * bytes) : server * list event :=
  match result with
  | inl ec => recv_fail s ec
  | inr (from, datagram) => (s, (if m_has_datagram_cb s then [Datagram from datagram] else []) ++ (if m_open s then [ArmReceive] else []))
  end.

(** ** The receive loop and the send chain *)

(** An open server has its receive armed again after whatever a receive completed with, unless it
    was cancelled, and stays open. *)
Lemma receive_loop_survives s result : m_open s = true -> result <> inl ec_operation_aborted ->
  last (on_received s result).2 = Some ArmReceive /\ m_open (on_received s result).1 = true.
Proof.
  intros Ho Hne. destruct result as [ec|[from d]]; cbn [on_received fst snd].
  - unfold recv_fail. rewrite Ho, bool_decide_false by congruence. cbn [orb negb]. case_decide; cbn [fst snd]; [done|]. by rewrite last_snoc.
  - rewrite Ho. by rewrite last_snoc.
Qed.

(** A send that failed for its own destination is passed over exactly like one that went out: the
    next datagram is sent and the queue is the same; any other failure stops the queue for good and is
    reported, and what completes later does nothing. *)
Lemma send_chain_survives s ec : m_open s = true -> ec <> ec_operation_aborted -> m_has_error_cb s = true ->
  if transient_send_error ec then
    forall s' evs, on_sent s None = Some (s', evs) -> exists s'', on_sent s (Some ec) = Some (s'', evs) /\ m_send_queue s'' = m_send_queue s'
  else exists s', on_sent s (Some ec) = Some (s', [Report (map_error ec)]) /\ DatagramQueue.m_open (m_send_queue s') = false /\
    on_sent s' None = Some (s', []).
Proof.
  intros Ho Hne Hcb. unfold on_sent. rewrite Ho, bool_decide_false, bool_decide_false by congruence. cbn [orb negb].
  destruct (transient_send_error ec).
  - intros s' evs Hs. cbn [m_send_queue with_counters]. destruct (DatagramQueue.complete (m_send_queue s) true) as [[evs' q]|]; [|done].
    cbn [mbind option_bind] in *. simplify_eq. by eexists.
  - unfold server_report. rewrite Hcb. eexists. split; [done|]. split; [done|].
    cbn. by rewrite Ho.
Qed.

End Server.

End UdpServer.
