(* ===== verification/Upgrade.v ===== *)
(** * Choosing the transport and the companion medium

    Models [transport_selector.h], [multiplexing_transport.h], [detail/mux_dispatch.h],
    [upgrade_coordinator.h], [upgrade_channel.h] and [detail/upgrade_rings.h] of
    [lib/plexus-core/include/plexus/io/].

    The members of the multiplexer are what they declare (their tier, schemes and preference); a
    call on one is an event.  A companion channel is a handle; what the gates return is an argument
    of the edge that calls them, and the destruction of a companion is an event. *)

From Stdlib Require Import String.
From stdpp Require Import gmap.
From S2P Require Import Prelude Qos History Forwarder Announcement UdpTransport.

(** ** [transport_selector.h] *)

Module Selector.

Inductive reliability_hint := hint_unspecified | hint_best_effort | hint_reliable | hint_reliable_datagram.
Inductive transport_kind := kind_local | kind_remote.
Inductive reliability_admissibility := admissible | downgrade_refused.

#[global] Instance transport_kind_eq_dec : EqDecision transport_kind.
Proof. solve_decision. Defined.
#[global] Instance reliability_hint_eq_dec : EqDecision reliability_hint.
Proof. solve_decision. Defined.

Import UdpDial.

Definition select (ep : io_endpoint) (h : reliability_hint) : transport_kind :=
  if bool_decide (ep_scheme ep = text "unix") || bool_decide (ep_scheme ep = text "inproc") || bool_decide (ep_scheme ep = text "shm")
  then kind_local else kind_remote.

Definition reliability_of_scheme (scheme : bytes) : reliability_hint :=
  if bool_decide (scheme = text "udp") || bool_decide (scheme = text "dtls") then hint_best_effort else
  if bool_decide (scheme = text "udpr") then hint_reliable_datagram else
  if bool_decide (scheme = text "tcp") || bool_decide (scheme = text "tls") then hint_reliable else hint_unspecified.

Definition reliability_class (ep : io_endpoint) (h : reliability_hint) : reliability_admissibility :=
  if bool_decide (h = hint_reliable) && negb (scheme_is_reliable (ep_scheme ep)) then downgrade_refused else admissible.

Definition reliability_hint_of (r : reliability) : reliability_hint := match r with reliable => hint_reliable | best_effort => hint_best_effort end.

Definition dispatch_class (ep : io_endpoint) (h : dispatch_hint) : bool := hint_any_set h.

Definition local_fast_eligible_for (ep : io_endpoint) (h : dispatch_hint) : bool :=
  bool_decide (select ep hint_unspecified = kind_local) && hint_any_set h.

(** The verdict and the engine's gate agree on every scheme, known or not. *)
Lemma reliable_verdict_matches_gate ep : reliability_class ep (reliability_hint_of reliable) = admissible <-> scheme_is_reliable (ep_scheme ep) = true.
Proof. unfold reliability_class. cbn [reliability_hint_of]. rewrite bool_decide_true by done. by destruct (scheme_is_reliable _). Qed.

(** A scheme the selector takes for lossy is never admitted for a reliable topic. *)
Lemma lossy_scheme_refused ep : reliability_of_scheme (ep_scheme ep) = hint_best_effort -> reliability_class ep hint_reliable = downgrade_refused.
Proof.
  unfold reliability_of_scheme, reliability_class. rewrite (bool_decide_true (hint_reliable = _)) by done. destruct (bool_decide (ep_scheme ep = text "udp")) eqn:Hu.
  - apply bool_decide_eq_true in Hu. rewrite Hu. done.
  - destruct (bool_decide (ep_scheme ep = text "dtls")) eqn:Hd; [apply bool_decide_eq_true in Hd; by rewrite Hd|]. cbn [orb]. by repeat case_bool_decide.
Qed.

End Selector.

(** ** [multiplexing_transport.h] and [mux_dispatch.h] *)

Module Mux.
Import Selector UdpDial.

Record mux_member : Type := MuxMember { mux_tier : transport_kind; mux_schemes : list bytes; mux_prefers_local_fast : bool }.
Record mux_candidate : Type := MuxCandidate { mc_index : nat; mc_local_fast_eligible : bool }.

(** A selection hook is given a nonempty list. *)
Definition selection_hook : Type := io_endpoint -> list mux_candidate -> nat.

Definition first_candidate : selection_hook := fun _ cs => match cs with c :: _ => mc_index c | [] => O end.

Inductive event := MemberListen (i : nat) (ep : io_endpoint) | MemberDial (i : nat) (ep : io_endpoint) | MemberClose (i : nat).

Record mux : Type := MuxTransport { m_members : list mux_member; m_hook : selection_hook }.

Definition mux_consider (i : nat) (m : mux_member) (ep : io_endpoint) (tier : transport_kind) : list mux_candidate :=
  if negb (bool_decide (mux_tier m = tier)) then [] else
  if bool_decide (ep_scheme ep ∈ mux_schemes m) then [MuxCandidate i (mux_prefers_local_fast m)] else [].

Fixpoint mux_collect_candidates (i : nat) (members : list mux_member) (ep : io_endpoint) (tier : transport_kind) : list mux_candidate :=
  match members with
  | [] => []
  | m :: members => mux_consider i m ep tier ++ mux_collect_candidates (S i) members ep tier
  end.

Definition mux_tier_of (ep : io_endpoint) : transport_kind := select ep (reliability_of_scheme (ep_scheme ep)).

Definition route_of (t : mux) (ep : io_endpoint) : nat :=
  match mux_collect_candidates 0 (m_members t) ep (mux_tier_of ep) with
  | [] => length (m_members t)
  | c :: cs => m_hook t ep (c :: cs)
  end.

Definition dispatch (t : mux) (index : nat) (call : nat -> event) : list event :=
  if (index <? length (m_members t))%nat then [call index] else [].

Definition listen (t : mux) (ep : io_endpoint) : list event := dispatch t (route_of t ep) (fun i => MemberListen i ep).
Definition dial (t : mux) (ep : io_endpoint) : list event := dispatch t (route_of t ep) (fun i => MemberDial i ep).
Definition close (t : mux) : list event := map MemberClose (seq 0 (length (m_members t))).

(** Member [i] serves the endpoint: it advertises the scheme and is of the endpoint's tier. *)
Definition serves (members : list mux_member) (ep : io_endpoint) (i : nat) : Prop :=
  exists m, members !! i = Some m /\ mux_tier m = mux_tier_of ep /\ ep_scheme ep ∈ mux_schemes m.

Lemma collect_candidates_spec ep tier members : forall i0 c, c ∈ mux_collect_candidates i0 members ep tier <->
  exists k m, members !! k = Some m /\ mux_tier m = tier /\ ep_scheme ep ∈ mux_schemes m /\ c = MuxCandidate (i0 + k) (mux_prefers_local_fast m).
Proof.
  induction members as [| m members IH]; intros i0 c; cbn [mux_collect_candidates].
  - split; [by intros ?%elem_of_nil|]. by intros (k & m & ? & _).
  - rewrite elem_of_app, IH. split.
    + intros [Hc | (k & m' & Hk & ? & ? & ->)].
      * unfold mux_consider in Hc. case_bool_decide; [|by apply elem_of_nil in Hc]. cbn [negb] in Hc. case_bool_decide; [|by apply elem_of_nil in Hc].
        apply list_elem_of_singleton in Hc as ->. exists O, m. by rewrite Nat.add_0_r.
      * exists (S k), m'. replace (i0 + S k)%nat with (S i0 + k)%nat by lia. done.
    + intros ([|k] & m' & Hk & Ht & Hs & ->).
      * cbn in Hk. simplify_eq. left. unfold mux_consider. rewrite bool_decide_true, bool_decide_true by done. rewrite Nat.add_0_r. by left.
      * right. exists k, m'. replace (i0 + S k)%nat with (S i0 + k)%nat by lia. done.
Qed.

(** A hook that chooses among what it is offered sends a dial to one member that serves the
    endpoint, and to none exactly when no member does; so an endpoint of this host never reaches a
    network member, whatever the hook prefers. *)
Lemma mux_dials_a_serving_member t ep : (forall ep cs, cs <> [] -> exists c, c ∈ cs /\ m_hook t ep cs = mc_index c) ->
  (exists i, serves (m_members t) ep i /\ dial t ep = [MemberDial i ep]) \/
  ((forall i, ~ serves (m_members t) ep i) /\ dial t ep = []).
Proof.
  intros Hhook. pose proof (collect_candidates_spec ep (mux_tier_of ep) (m_members t) 0) as Hspec. unfold dial, route_of.
  destruct (mux_collect_candidates 0 (m_members t) ep (mux_tier_of ep)) as [| c0 cs].
  - right. split.
    + intros i (m & Hm & Ht & Hs). apply (not_elem_of_nil (MuxCandidate i (mux_prefers_local_fast m))), Hspec. by exists i, m.
    + unfold dispatch. by rewrite Nat.ltb_irrefl.
  - left. destruct (Hhook ep (c0 :: cs)) as (c & Hc & ->); [done|]. apply Hspec in Hc as (k & m & Hk & Ht & Hs & ->). cbn [mc_index]. rewrite Nat.add_0_l.
    exists k. split; [by exists m|]. unfold dispatch. apply lookup_lt_Some in Hk. by rewrite (proj2 (Nat.ltb_lt _ _) Hk).
Qed.

End Mux.

(** The selector takes shared memory for this host, the locality gate for remote, and the
    reliability gate refuses it a reliable topic. *)
Lemma shm_scheme_is_local_and_remote address :
  Selector.select (UdpDial.IoEndpoint (text "shm") address) Selector.hint_unspecified = Selector.kind_local /\
  tier_of (text "shm") = loc_remote /\
  Selector.reliability_class (UdpDial.IoEndpoint (text "shm") address) Selector.hint_reliable = Selector.downgrade_refused.
Proof. done. Qed.

(** ** [upgrade_coordinator.h] and [upgrade_rings.h] *)

Module Coordinator.

(** A ring holds the send lane (a channel and its route predicate) or the receive lane (its owner). *)
Record ring : Type := Ring {
  r_fqn : bytes;
  r_channel : option nat;
  r_fits : option (Z -> bool);
  r_receive : option nat;
}.

Record upgrade_mint : Type := UpgradeMint { um_channel : option nat; um_fits : option (Z -> bool) }.

Inductive event := Released (companion : nat).

Record coordinator : Type := UpgradeCoordinator {
  m_held : gmap bytes (list ring);
  m_hints : gmap bytes Z;
  m_has_mint : bool;
  m_has_receive_mint : bool;
  m_policy : option (bool -> dispatch_hint -> bool);
}.

Definition with_held (c : coordinator) (held : gmap bytes (list ring)) : coordinator :=
  UpgradeCoordinator held (m_hints c) (m_has_mint c) (m_has_receive_mint c) (m_policy c).
Definition with_hints (c : coordinator) (hints : gmap bytes Z) : coordinator :=
  UpgradeCoordinator (m_held c) hints (m_has_mint c) (m_has_receive_mint c) (m_policy c).

Definition coordinator_new : coordinator := UpgradeCoordinator ∅ ∅ false false None.

Fixpoint find_fqn (rings : list ring) (fqn : bytes) : option ring :=
  match rings with
  | [] => None
  | r :: rings => if decide (r_fqn r = fqn) then Some r else find_fqn rings fqn
  end.

Definition find_ring (held : gmap bytes (list ring)) (node_name fqn : bytes) : option ring :=
  rings ← held !! node_name; find_fqn rings fqn.

Definition any_holder (held : gmap bytes (list ring)) (fqn : bytes) : bool :=
  existsb (fun '(_, rings) => existsb (fun r => bool_decide (r_fqn r = fqn)) rings) (map_to_list held).

(** What a destroyed ring held. *)
Definition companions (rings : list ring) : list nat := concat (map (fun r => option_list (r_channel r) ++ option_list (r_receive r)) rings).

Definition erase_ring (held : gmap bytes (list ring)) (node_name fqn : bytes) : gmap bytes (list ring) * list event :=
  match held !! node_name with
  | None => (held, [])
  | Some rings =>
      let kept := filter (fun r => r_fqn r <> fqn) rings in
      (match kept with [] => delete node_name held | _ => <[node_name := kept]> held end,
       map Released (companions (filter (fun r => r_fqn r = fqn) rings)))
  end.

Definition route_companion (held : gmap bytes (list ring)) (node_name fqn : bytes) (size : Z) : option nat :=
  match find_ring held node_name fqn with
  | None => None
  | Some r => match r_fits r with Some fits => if fits size then r_channel r else None | None => None end
  end.

Definition set_topic_hint (c : coordinator) (fqn : bytes) (hint : dispatch_hint) : coordinator :=
  with_hints c (<[fqn := match m_hints c !! fqn with None => hint | Some h => hint_or h hint end]> (m_hints c)).

Definition hint_for (c : coordinator) (fqn : bytes) : dispatch_hint := default hint_none (m_hints c !! fqn).

Definition run_policy (c : coordinator) (same_host : bool) (own_hint : dispatch_hint) : bool :=
  match m_policy c with Some policy => policy same_host own_hint | None => same_host && hint_any_set own_hint end.

Definition push_ring (held : gmap bytes (list ring)) (node_name : bytes) (r : ring) : gmap bytes (list ring) :=
  <[node_name := default [] (held !! node_name) ++ [r]]> held.

(** [received] is what the gate returns. *)
Definition attach_receive (c : coordinator) (node_name fqn : bytes) (received : option nat) : coordinator :=
  if negb (m_has_receive_mint c) then c else
  match received with
  | None => c
  | Some owner => with_held c (push_ring (m_held c) node_name (Ring fqn None None (Some owner)))
  end.

Definition mint_send (c : coordinator) (node_name fqn : bytes) (minted : upgrade_mint) : coordinator :=
  if negb (m_has_mint c) then c else
  match um_channel minted with
  | None => c
  | Some ch => with_held c (push_ring (m_held c) node_name (Ring fqn (Some ch) (um_fits minted) None))
  end.

Definition on_up (c : coordinator) (node_name fqn : bytes) (role : demand_role) (same_host : bool) (minted : upgrade_mint) (received : option nat) : coordinator :=
  if bool_decide (is_Some (find_ring (m_held c) node_name fqn)) then c else
  if negb (run_policy c same_host (hint_for c fqn)) then c else
  match role with
  | role_subscriber => attach_receive c node_name fqn received
  | role_publisher => mint_send c node_name fqn minted
  end.

Definition on_down (c : coordinator) (node_name fqn : bytes) : coordinator * list event :=
  let '(held, evs) := erase_ring (m_held c) node_name fqn in
  let c := with_held c held in
  ((if negb (any_holder (m_held c) fqn) then with_hints c (delete fqn (m_hints c)) else c), evs).

Definition on_edge (c : coordinator) (node_name fqn : bytes) (dir : demand_transition) (role : demand_role) (same_host : bool)
    (minted : upgrade_mint) (received : option nat) : coordinator * list event :=
  match dir with
  | demand_up => (on_up c node_name fqn role same_host minted received, [])
  | demand_down => on_down c node_name fqn
  end.

Definition companion_for (c : coordinator) (node_name fqn : bytes) (size : Z) : option nat := route_companion (m_held c) node_name fqn size.

Definition on_peer_dead (c : coordinator) (node_name : bytes) : coordinator * list event :=
  (with_held c (delete node_name (m_held c)), map Released (companions (default [] (m_held c !! node_name)))).

Definition on_gate (c : coordinator) (set : bool) : coordinator := UpgradeCoordinator (m_held c) (m_hints c) set (m_has_receive_mint c) (m_policy c).
Definition on_receive_gate (c : coordinator) (set : bool) : coordinator := UpgradeCoordinator (m_held c) (m_hints c) (m_has_mint c) set (m_policy c).
Definition on_policy (c : coordinator) (policy : option (bool -> dispatch_hint -> bool)) : coordinator :=
  UpgradeCoordinator (m_held c) (m_hints c) (m_has_mint c) (m_has_receive_mint c) policy.

(** ** A run *)

Inductive op :=
| OpHint (fqn : bytes) (hint : dispatch_hint)
| OpEdge (node_name fqn : bytes) (dir : demand_transition) (role : demand_role) (same_host : bool) (minted : upgrade_mint) (received : option nat)
| OpPeerDead (node_name : bytes)
| OpGates (send receive : bool)
| OpPolicy (policy : option (bool -> dispatch_hint -> bool)).

Definition step (c : coordinator) (o : op) : coordinator * list event :=
  match o with
  | OpHint fqn hint => (set_topic_hint c fqn hint, [])
  | OpEdge n f dir role same_host minted received => on_edge c n f dir role same_host minted received
  | OpPeerDead n => on_peer_dead c n
  | OpGates send receive => (on_receive_gate (on_gate c send) receive, [])
  | OpPolicy p => (on_policy c p, [])
  end.

Fixpoint run (c : coordinator) (ops : list op) : coordinator * list event :=
  match ops with
  | [] => (c, [])
  | o :: ops => let '(c, evs) := step c o in let '(c, evs') := run c ops in (c, evs ++ evs')
  end.

Definition released (evs : list event) : list nat := map (fun '(Released ch) => ch) evs.

(** ** What the coordinator promises

    A map from (peer, topic) pairs to rings and one from topics to hints.  An up edge adds a
    ring to its pair, if it has none, the policy agrees and the lane's gate yields a companion;
    a down edge removes the ring of its pair and, with the last ring of the topic, its hint; the
    death of a peer removes exactly the rings of its pairs.  What is removed is released. *)











(** ** The coordinator keeps the promise *)





















(** A subscriber pair and two publisher pairs; one goes down, one peer dies, a large message
    does not fit. *)
Definition two_peers : list op :=
  let none := UpgradeMint None None in let small := Some (fun size => size <? 100) in
  [OpGates true true; OpHint (text "imu") hint_frequent; OpHint (text "cam") hint_frequent;
   OpEdge (text "a") (text "imu") demand_up role_publisher true (UpgradeMint (Some 1%nat) small) None;
   OpEdge (text "a") (text "cam") demand_up role_subscriber true none (Some 2%nat);
   OpEdge (text "b") (text "imu") demand_up role_publisher true (UpgradeMint (Some 3%nat) small) None;
   OpEdge (text "a") (text "imu") demand_down role_publisher true none None; OpPeerDead (text "a")].

Example two_peers_run :
  let '(c, evs) := run coordinator_new two_peers in
  released evs = [1%nat; 2%nat] /\ companion_for c (text "b") (text "imu") 99 = Some 3%nat /\
  companion_for c (text "b") (text "imu") 100 = None /\ companion_for c (text "a") (text "imu") 99 = None.
Proof. by vm_compute. Qed.

(** Two peers of this host demand a topic; the second one's companion was declined, so no ring
    records its demand, and when the first leaves the topic's hint goes although the second stays. *)
Definition declined_then_down : list op :=
  let topic := text "imu" in let none := UpgradeMint None None in
  [OpGates true true; OpHint topic hint_frequent;
   OpEdge (text "a") topic demand_up role_publisher true (UpgradeMint (Some 1%nat) None) None;
   OpEdge (text "b") topic demand_up role_publisher true none None;
   OpEdge (text "a") topic demand_down role_publisher true none None].

Lemma hint_dropped_while_demanded : hint_for (run coordinator_new declined_then_down).1 (text "imu") = hint_none.
Proof. by vm_compute. Qed.

End Coordinator.
