(* ===== verification/InprocBus.v ===== *)
(** * The in-process backend

    Models [backends/plexus-inproc/include/plexus/inproc/]: [inproc_bus.h], [inproc_channel.h],
    [detail/inproc_dispatch.h] and [inproc_transport.h], and the reference count of
    [lib/plexus-core/include/plexus/io/object_carrier.h].

    The bus keeps its packets in a ring of reusable slots and dispatches a packet by reference to
    its slot, so what a callback does to the bus while its packet is being delivered is part of the
    delivery: [deliver_one] takes the calls the callback makes.  The ring is a list with the number
    of its allocation; an access to a slot of an allocation that was replaced is [None].  Channels
    are objects in a store and the bus holds handles to them.  The callbacks of a transport are taken
    to be set; the two callbacks of a close are one list of calls. *)

From Stdlib Require Import String.
From stdpp Require Import gmap.
From S2P Require Import Prelude Qos History Forwarder Announcement UdpTransport.

Module Inproc.
Import Discovery UdpDial.

#[global] Instance io_endpoint_eq_dec : EqDecision io_endpoint.
Proof. solve_decision. Defined.

(** ** Data *)

Inductive packet_kind := pk_data | pk_close | pk_object.

Definition no_carrier : object_carrier := ObjectCarrier 0 0 0 0 0 None.

Record queued_packet : Type := QueuedPacket {
  qp_to_key : Z;
  qp_kind : packet_kind;
  qp_from : option nat;
  qp_data : bytes;
  qp_carrier : object_carrier;
}.

Definition no_packet : queued_packet := QueuedPacket 0 pk_data None [] no_carrier.

Record channel_entry : Type := ChannelEntry { ce_chan : nat; ce_ep : io_endpoint; ce_key : Z }.

Record inproc_channel : Type := InprocChannel {
  ic_local : io_endpoint;
  ic_partner : io_endpoint;
  ic_partner_key : Z;
  ic_has_data_cb : bool;
  ic_has_object_cb : bool;
  ic_has_closed_cb : bool;
  ic_has_error_cb : bool;
  ic_has_drop_cb : bool;
  ic_closed : bool;
}.

(** The bus, the channels constructed on it and the reference counts of the loaned slots. *)
Record bus : Type := Bus {
  m_channels : list channel_entry;
  m_listeners : list (io_endpoint * nat);
  m_ring : list queued_packet;
  m_storage : nat;
  m_head : nat;
  m_size : nat;
  m_next_addr : Z;
  b_objects : gmap nat inproc_channel;
  b_next : nat;
  b_refs : gmap Z Z;
}.

Definition bus_new : bus := Bus [] [] [] 0 0 0 1 ∅ 0 ∅.

Inductive event :=
| OnData (chan : nat) (data : bytes)
| OnObject (chan : nat) (carrier : object_carrier)
| OnClosed (chan : nat)
| OnError (chan : nat)
| OnDrop (chan : nat)
| SlotReleased (slot : Z)
| Accepted (listener chan : nat)
| Dialed (chan : nat) (ep : io_endpoint)
| DialRefused (ep : io_endpoint).

Definition with_channels (b : bus) (cs : list channel_entry) (addr : Z) : bus :=
  Bus cs (m_listeners b) (m_ring b) (m_storage b) (m_head b) (m_size b) addr (b_objects b) (b_next b) (b_refs b).
Definition with_listeners (b : bus) (ls : list (io_endpoint * nat)) : bus :=
  Bus (m_channels b) ls (m_ring b) (m_storage b) (m_head b) (m_size b) (m_next_addr b) (b_objects b) (b_next b) (b_refs b).
Definition with_ring (b : bus) (ring : list queued_packet) (storage head size : nat) : bus :=
  Bus (m_channels b) (m_listeners b) ring storage head size (m_next_addr b) (b_objects b) (b_next b) (b_refs b).
Definition with_objects (b : bus) (objs : gmap nat inproc_channel) (next : nat) : bus :=
  Bus (m_channels b) (m_listeners b) (m_ring b) (m_storage b) (m_head b) (m_size b) (m_next_addr b) objs next (b_refs b).
Definition with_refs (b : bus) (refs : gmap Z Z) : bus :=
  Bus (m_channels b) (m_listeners b) (m_ring b) (m_storage b) (m_head b) (m_size b) (m_next_addr b) (b_objects b) (b_next b) refs.

(** ** [object_carrier.h] *)

Definition refs_of (b : bus) (slot : Z) : Z := default 0 (b_refs b !! slot).

Definition addref (b : bus) (c : object_carrier) : bus :=
  match oc_slot c with
  | Some s => with_refs b (<[s := wrap 32 (refs_of b s + 1)]> (b_refs b))
  | None => b
  end.

Definition release (b : bus) (c : object_carrier) : bus * list event :=
  match oc_slot c with
  | Some s =>
      let n := wrap 32 (refs_of b s - 1) in
      (with_refs b (<[s := n]> (b_refs b)), if n =? 0 then [SlotReleased s] else [])
  | None => (b, [])
  end.

(** ** [inproc_bus.h] *)

Definition inproc_endpoint (key : Z) : io_endpoint := IoEndpoint (text "inproc") (to_string_loop 20 key).

Definition register_channel (b : bus) (chan : nat) : io_endpoint * bus :=
  let key := m_next_addr b in
  let assigned := inproc_endpoint key in
  (assigned, with_channels b (m_channels b ++ [ChannelEntry chan assigned key]) (wrap 64 (key + 1))).

Fixpoint find_key (entries : list channel_entry) (ep : io_endpoint) : Z :=
  match entries with
  | [] => 0
  | e :: entries => if decide (ce_ep e = ep) then ce_key e else find_key entries ep
  end.

Definition key_for (b : bus) (ep : io_endpoint) : Z := find_key (m_channels b) ep.

Definition deregister_channel (b : bus) (chan : nat) : bus :=
  with_channels b (filter (fun e => ce_chan e <> chan) (m_channels b)) (m_next_addr b).

Definition register_listener (b : bus) (ep : io_endpoint) (on_accepted : nat) : bus := with_listeners b (m_listeners b ++ [(ep, on_accepted)]).

Fixpoint find_in_listeners (ls : list (io_endpoint * nat)) (ep : io_endpoint) : option nat :=
  match ls with
  | [] => None
  | (e, cb) :: ls => if decide (e = ep) then Some cb else find_in_listeners ls ep
  end.

Definition find_listener (b : bus) (ep : io_endpoint) : option nat := find_in_listeners (m_listeners b) ep.
Definition deregister_listener (b : bus) (ep : io_endpoint) : bus := with_listeners b (filter (fun l => l.1 <> ep) (m_listeners b)).

(** The packets that wait, oldest first. *)
Definition slot_at (b : bus) (i : nat) : queued_packet := default no_packet (m_ring b !! ((m_head b + i) mod length (m_ring b))%nat).
Definition contents (b : bus) : list queued_packet := map (slot_at b) (seq 0 (m_size b)).

Definition grow (b : bus) : bus :=
  let old_cap := length (m_ring b) in
  let new_cap := if (old_cap =? 0)%nat then 8%nat else (old_cap * 2)%nat in
  with_ring b (contents b ++ replicate (new_cap - m_size b) no_packet) (S (m_storage b)) 0 (m_size b).

(** The index of the slot taken; the caller fills the slot. *)
Definition push_slot (b : bus) : nat * bus :=
  let b := if (m_size b =? length (m_ring b))%nat then grow b else b in
  let tail := ((m_head b + m_size b) mod length (m_ring b))%nat in
  (tail, with_ring b (m_ring b) (m_storage b) (m_head b) (S (m_size b))).

Definition fill (b : bus) (p : queued_packet) : bus :=
  let '(tail, b) := push_slot b in
  with_ring b (<[tail := p]> (m_ring b)) (m_storage b) (m_head b) (m_size b).

Definition enqueue (b : bus) (to_key : Z) (data : bytes) (from : nat) : bus := fill b (QueuedPacket to_key pk_data (Some from) data no_carrier).
Definition enqueue_close (b : bus) (to_key : Z) : bus := fill b (QueuedPacket to_key pk_close None [] no_carrier).
Definition enqueue_object (b : bus) (to_key : Z) (c : object_carrier) : bus := fill (addref b c) (QueuedPacket to_key pk_object None [] c).

Definition has_pending_packets (b : bus) : bool := negb (m_size b =? 0)%nat.

Definition sender_live (b : bus) (from : nat) : bool := existsb (fun e => (ce_chan e =? from)%nat) (m_channels b).

Fixpoint find_target (entries : list channel_entry) (key : Z) : option nat :=
  match entries with
  | [] => None
  | e :: entries => if key =? ce_key e then Some (ce_chan e) else find_target entries key
  end.

(** ** [inproc_channel.h] *)

Definition channel_new (b : bus) : nat * bus :=
  let raw := b_next b in
  let '(local, b) := register_channel b raw in
  (raw, with_objects b (<[raw := InprocChannel local (IoEndpoint [] []) 0 false false false false false false]> (b_objects b)) (S raw)).

Definition destroy_channel (b : bus) (raw : nat) : option bus :=
  _ ← b_objects b !! raw;
  let b := deregister_channel b raw in
  Some (with_objects b (delete raw (b_objects b)) (b_next b)).

Definition connect_to (b : bus) (raw : nat) (partner : io_endpoint) : option bus :=
  c ← b_objects b !! raw;
  Some (with_objects b (<[raw := InprocChannel (ic_local c) partner (key_for b partner) (ic_has_data_cb c) (ic_has_object_cb c) (ic_has_closed_cb c) (ic_has_error_cb c)
                                  (ic_has_drop_cb c) (ic_closed c)]> (b_objects b)) (b_next b)).

Definition send (b : bus) (raw : nat) (data : bytes) : option bus :=
  c ← b_objects b !! raw;
  Some (if ic_closed c then b else enqueue b (ic_partner_key c) data raw).

Definition send_object (b : bus) (raw : nat) (carrier : object_carrier) : option bus :=
  c ← b_objects b !! raw;
  Some (if ic_closed c then b else enqueue_object b (ic_partner_key c) carrier).

Definition close_channel (b : bus) (raw : nat) : option bus :=
  c ← b_objects b !! raw;
  if ic_closed c then Some b else
  let b := with_objects b (<[raw := InprocChannel (ic_local c) (ic_partner c) (ic_partner_key c) (ic_has_data_cb c) (ic_has_object_cb c) (ic_has_closed_cb c) (ic_has_error_cb c)
                                     (ic_has_drop_cb c) true]> (b_objects b)) (b_next b) in
  Some (enqueue_close b (ic_partner_key c)).

(** The callbacks an owner installs. *)
Definition install (b : bus) (raw : nat) (data object closed error drop : bool) : option bus :=
  c ← b_objects b !! raw;
  Some (with_objects b (<[raw := InprocChannel (ic_local c) (ic_partner c) (ic_partner_key c) data object closed error drop (ic_closed c)]> (b_objects b)) (b_next b)).

Definition deliver (c : inproc_channel) (raw : nat) (data : bytes) : list event :=
  if negb (ic_closed c) && ic_has_data_cb c then [OnData raw data] else [].

Definition deliver_object (b : bus) (c : inproc_channel) (raw : nat) (carrier : object_carrier) : bus * list event :=
  if negb (ic_closed c) && ic_has_object_cb c then (b, [OnObject raw carrier]) else release b carrier.

Definition deliver_close (c : inproc_channel) (raw : nat) : list event :=
  if ic_closed c then [] else (if ic_has_closed_cb c then [OnClosed raw] else []) ++ (if ic_has_error_cb c then [OnError raw] else []).

Definition report_unroutable (c : inproc_channel) (raw : nat) : list event := if ic_has_drop_cb c then [OnDrop raw] else [].

(** ** [inproc_dispatch.h] *)

(** What a callback may do to the bus. *)
Inductive call :=
| CallSend (raw : nat) (data : bytes)
| CallSendObject (raw : nat) (carrier : object_carrier)
| CallClose (raw : nat)
| CallRelease (carrier : object_carrier).

Definition run_call (b : bus) (a : call) : option (bus * list event) :=
  match a with
  | CallSend raw data => b ← send b raw data; Some (b, [])
  | CallSendObject raw carrier => b ← send_object b raw carrier; Some (b, [])
  | CallClose raw => b ← close_channel b raw; Some (b, [])
  | CallRelease carrier => Some (release b carrier)
  end.

Fixpoint run_calls (b : bus) (l : list call) : option (bus * list event) :=
  match l with
  | [] => Some (b, [])
  | a :: l => '(b, evs) ← run_call b a; '(b, evs') ← run_calls b l; Some (b, evs ++ evs')
  end.

(** The part of [dispatch_packet] up to the return of the callback, which runs if it is called. *)
Definition dispatch_call (b : bus) (pkt : queued_packet) (callback : list call) : option (bus * list event) :=
  match find_target (m_channels b) (qp_to_key pkt) with
  | Some raw =>
      c ← b_objects b !! raw;
      let '(b, evs) := match qp_kind pkt with
                       | pk_close => (b, deliver_close c raw)
                       | pk_object => deliver_object b c raw (qp_carrier pkt)
                       | pk_data => (b, deliver c raw (qp_data pkt))
                       end in
      match evs with
      | OnData _ _ :: _ | OnObject _ _ :: _ | OnClosed _ :: _ | OnError _ :: _ =>
          '(b, evs') ← run_calls b callback; Some (b, evs ++ evs')
      | _ => Some (b, evs)
      end
  | None =>
      match qp_kind pkt, qp_from pkt with
      | pk_object, _ => Some (release b (qp_carrier pkt))
      | pk_data, Some from =>
          if sender_live b from then c ← b_objects b !! from; Some (b, report_unroutable c from) else Some (b, [])
      | _, _ => Some (b, [])
      end
  end.

(** Its last two lines, through the reference taken before the callback ran. *)
Definition clear_slot (b : bus) (storage index : nat) : option bus :=
  if negb (m_storage b =? storage)%nat then None else
  p ← m_ring b !! index;
  Some (with_ring b (<[index := QueuedPacket (qp_to_key p) (qp_kind p) None (qp_data p) no_carrier]> (m_ring b)) (m_storage b) (m_head b) (m_size b)).

Definition pop_slot (b : bus) : bus := with_ring b (m_ring b) (m_storage b) ((m_head b + 1) mod length (m_ring b))%nat (m_size b - 1)%nat.

Definition deliver_one (b : bus) (callback : list call) : option (bool * bus * list event) :=
  if (m_size b =? 0)%nat then Some (false, b, []) else
  pkt ← m_ring b !! m_head b;
  '(b', evs) ← dispatch_call (pop_slot b) pkt callback;
  b' ← clear_slot b' (m_storage b) (m_head b);
  Some (true, b', evs).

(** ** [inproc_transport.h] *)

Definition listen (b : bus) (ep : io_endpoint) (on_accepted : nat) : bus := register_listener b ep on_accepted.

Definition dial (b : bus) (ep : io_endpoint) : option (bus * list event) :=
  match find_listener b ep with
  | None => Some (b, [DialRefused ep])
  | Some listener =>
      let '(dialer, b) := channel_new b in
      let '(accepted, b) := channel_new b in
      d ← b_objects b !! dialer; a ← b_objects b !! accepted;
      b ← connect_to b dialer (ic_local a);
      b ← connect_to b accepted (ic_local d);
      Some (b, [Accepted listener accepted; Dialed dialer ep])
  end.

Definition transport_close (b : bus) (ep : io_endpoint) : bus := deregister_listener b ep.

(** ** The ring is a queue *)

Definition ring_ok (b : bus) : Prop := (m_ring b = [] /\ m_head b = 0 /\ m_size b = 0)%nat \/ (m_head b < length (m_ring b) /\ m_size b <= length (m_ring b))%nat.

Lemma mod_wrap a n : (a < 2 * n)%nat -> (a mod n = if a <? n then a else a - n)%nat.
Proof.
  intros Ha. destruct (Nat.ltb_spec a n) as [Hlt|Hge]; [by apply Nat.mod_small|].
  replace a with ((a - n) + 1 * n)%nat at 1 by lia. rewrite Nat.Div0.mod_add. apply Nat.mod_small. lia.
Qed.

Lemma bus_index_inj h i j n : (h < n)%nat -> (i < n)%nat -> (j < n)%nat -> ((h + i) mod n = (h + j) mod n)%nat -> i = j.
Proof.
  intros Hh Hi Hj. rewrite !mod_wrap by lia. destruct (Nat.ltb_spec (h + i) n), (Nat.ltb_spec (h + j) n); lia.
Qed.

Lemma ring_index_lt h i n : (h < n)%nat -> ((h + i) mod n < n)%nat.
Proof. intros Hh. apply Nat.mod_upper_bound. lia. Qed.

Lemma length_bus_contents b : length (contents b) = m_size b.
Proof. unfold contents. by rewrite length_map, length_seq. Qed.

Lemma grow_contents b : ring_ok b -> contents (grow b) = contents b /\ ring_ok (grow b) /\ (m_size (grow b) < length (m_ring (grow b)))%nat \/ (m_size b < length (m_ring b))%nat.
Proof.
  intros Hok. destruct (decide (m_size b < length (m_ring b))%nat) as [Hlt|Hge]; [by right|]. left.
  set (cap := if (length (m_ring b) =? 0)%nat then 8%nat else (length (m_ring b) * 2)%nat).
  assert (m_size b < cap)%nat as Hcap by (unfold cap; destruct (Nat.eqb_spec (length (m_ring b)) 0); destruct Hok as [(Hr & _ & Hs) | [? ?]]; rewrite ?Hr in *; cbn in *; lia).
  assert (length (m_ring (grow b)) = cap) as Hlen by (unfold grow; cbn; rewrite length_app, length_bus_contents, length_replicate; fold cap; lia).
  split_and!; [|right; rewrite Hlen; cbn; lia|by rewrite Hlen].
  unfold contents at 1. change (m_size (grow b)) with (m_size b). apply list_eq. intros k. rewrite list_lookup_fmap.
  destruct (decide (k < m_size b)%nat) as [Hk|Hk].
  - rewrite lookup_seq_lt by done. cbn [fmap option_fmap option_map]. unfold slot_at. change (m_head (grow b)) with 0%nat. rewrite Hlen, !Nat.add_0_l, Nat.mod_small by lia.
    unfold grow. cbn [m_ring with_ring]. rewrite lookup_app_l by (rewrite length_bus_contents; lia).
    destruct (lookup_lt_is_Some_2 (contents b) k) as [x Hx]; [rewrite length_bus_contents; lia|]. by rewrite Hx.
  - rewrite (proj2 (lookup_ge_None (seq 0 _) k)) by (rewrite length_seq; lia). symmetry. apply lookup_ge_None. rewrite length_bus_contents. lia.
Qed.

Lemma fill_contents b p : ring_ok b -> contents (fill b p) = contents b ++ [p] /\ ring_ok (fill b p).
Proof.
  intros Hok. unfold fill, push_slot.
  assert (exists b1, (if (m_size b =? length (m_ring b))%nat then grow b else b) = b1 /\ contents b1 = contents b /\ ring_ok b1 /\ (m_size b1 < length (m_ring b1))%nat) as (b1 & -> & Hc & Hok1 & Hlt).
  { destruct (Nat.eqb_spec (m_size b) (length (m_ring b))) as [Heq|Hne].
    - destruct (grow_contents b Hok) as [(? & ? & ?) | ?]; [by eexists|lia].
    - eexists. split; [done|]. split_and!; try done. destruct Hok as [(Hr & _ & ?) | [? ?]]; rewrite ?Hr in *; cbn in *; lia. }
  rewrite <- Hc. clear Hc Hok b. destruct Hok1 as [(Hr & _) | [Hh Hs]]; [rewrite Hr in Hlt; cbn in Hlt; lia|].
  set (tail := ((m_head b1 + m_size b1) mod length (m_ring b1))%nat). cbn [m_ring m_storage m_head m_size with_ring].
  split; [|right; cbn; rewrite length_insert; lia].
  unfold contents. cbn [m_size with_ring]. rewrite seq_S, map_app. cbn [map]. f_equal.
  - apply map_ext_in. intros i Hi. apply in_seq in Hi. unfold slot_at. cbn [m_ring m_head with_ring]. rewrite length_insert, list_lookup_insert_ne; [done|].
    unfold tail. intros Heq. apply bus_index_inj in Heq; lia.
  - unfold slot_at. cbn [m_ring m_head with_ring]. rewrite length_insert, Nat.add_0_l. fold tail. rewrite list_lookup_insert_eq; [done|]. by apply ring_index_lt.
Qed.

Lemma fill_storage b p : (m_size b < length (m_ring b))%nat -> m_storage (fill b p) = m_storage b /\ m_head (fill b p) = m_head b /\
  m_size (fill b p) = S (m_size b) /\ length (m_ring (fill b p)) = length (m_ring b).
Proof. intros Hlt. unfold fill, push_slot. rewrite (proj2 (Nat.eqb_neq _ _)) by lia. cbn. by rewrite length_insert. Qed.

Lemma pop_contents b p : ring_ok b -> m_size b <> 0%nat -> m_ring b !! m_head b = Some p -> contents b = p :: contents (pop_slot b) /\ ring_ok (pop_slot b).
Proof.
  intros [(_ & _ & ?) | [Hh Hs]] Hne Hp; [lia|]. split; [|right; cbn; split; [apply ring_index_lt; lia|lia]].
  unfold contents. cbn [m_size pop_slot with_ring]. destruct (m_size b) as [| n] eqn:En; [done|]. cbn [seq map]. f_equal.
  - unfold slot_at. rewrite Nat.add_0_r, Nat.mod_small by lia. by rewrite Hp.
  - replace (S n - 1)%nat with n by lia. rewrite <- seq_shift, map_map. apply map_ext_in. intros i Hi. apply in_seq in Hi. unfold slot_at. cbn [m_ring m_head pop_slot with_ring].
    f_equal. f_equal. rewrite Nat.Div0.add_mod_idemp_l. f_equal. lia.
Qed.

(** Clearing a slot that no waiting packet occupies. *)
Lemma clear_slot_contents b storage index : ring_ok b -> m_storage b = storage -> (index < length (m_ring b))%nat ->
  (forall i, (i < m_size b)%nat -> (m_head b + i) mod length (m_ring b) <> index)%nat ->
  exists b', clear_slot b storage index = Some b' /\ contents b' = contents b /\ ring_ok b' /\ m_channels b' = m_channels b /\ b_objects b' = b_objects b /\ b_refs b' = b_refs b.
Proof.
  intros Hok <- Hi Hfree. unfold clear_slot. rewrite Nat.eqb_refl. cbn [negb]. destruct (lookup_lt_is_Some_2 (m_ring b) index Hi) as [p Hp]. rewrite Hp. cbn [mbind option_bind].
  eexists. split; [done|]. split_and!; try done.
  - unfold contents. cbn [m_size with_ring]. apply map_ext_in. intros i Hin. apply in_seq in Hin. unfold slot_at. cbn [m_ring m_head with_ring]. rewrite length_insert.
    rewrite list_lookup_insert_ne; [done|]. apply not_eq_sym, Hfree. lia.
  - destruct Hok as [(Hr & _) | [? ?]]; [rewrite Hr in Hi; cbn in Hi; lia|]. right. cbn. rewrite length_insert. lia.
Qed.

(** ** Runs *)

Inductive op :=
| OpNew | OpDestroy (raw : nat) | OpConnect (raw : nat) (partner : io_endpoint) | OpInstall (raw : nat) (data object closed error drop : bool)
| OpListen (ep : io_endpoint) (cb : nat) | OpUnlisten (ep : io_endpoint) | OpDial (ep : io_endpoint)
| OpCall (a : call) | OpDeliver (callback : list call).

Definition step (b : bus) (o : op) : option (bus * list event) :=
  match o with
  | OpNew => Some ((channel_new b).2, [])
  | OpDestroy raw => b ← destroy_channel b raw; Some (b, [])
  | OpConnect raw partner => b ← connect_to b raw partner; Some (b, [])
  | OpInstall raw d o c e p => b ← install b raw d o c e p; Some (b, [])
  | OpListen ep cb => Some (listen b ep cb, [])
  | OpUnlisten ep => Some (transport_close b ep, [])
  | OpDial ep => dial b ep
  | OpCall a => run_call b a
  | OpDeliver callback => '(_, b, evs) ← deliver_one b callback; Some (b, evs)
  end.

Inductive reachable : bus -> Prop :=
| ReachNew : reachable bus_new
| ReachStep b o b' evs : reachable b -> step b o = Some (b', evs) -> reachable b'.

(** The packets a call puts on the bus. *)
Definition call_packets (b : bus) (a : call) : list queued_packet :=
  match a with
  | CallSend raw data => match b_objects b !! raw with Some c => if ic_closed c then [] else [QueuedPacket (ic_partner_key c) pk_data (Some raw) data no_carrier] | None => [] end
  | CallSendObject raw carrier => match b_objects b !! raw with Some c => if ic_closed c then [] else [QueuedPacket (ic_partner_key c) pk_object None [] carrier] | None => [] end
  | CallClose raw => match b_objects b !! raw with Some c => if ic_closed c then [] else [QueuedPacket (ic_partner_key c) pk_close None [] no_carrier] | None => [] end
  | CallRelease _ => []
  end.

Fixpoint calls_packets (b : bus) (l : list call) : list queued_packet :=
  match l with
  | [] => []
  | a :: l => call_packets b a ++ match run_call b a with Some (b, _) => calls_packets b l | None => [] end
  end.

(** Two buses with the same ring. *)
Definition same_ring (b b' : bus) : Prop := m_ring b = m_ring b' /\ m_storage b = m_storage b' /\ m_head b = m_head b' /\ m_size b = m_size b'.

Lemma same_ring_contents b b' : same_ring b b' -> contents b = contents b' /\ (ring_ok b <-> ring_ok b').
Proof. intros (H1 & H2 & H3 & H4). unfold contents, slot_at, ring_ok. by rewrite H1, H3, H4. Qed.

Lemma release_same b c : same_ring b (release b c).1.
Proof. unfold release. by destruct (oc_slot c). Qed.

Lemma addref_same b c : same_ring b (addref b c).
Proof. unfold addref. by destruct (oc_slot c). Qed.

(** [b'] is [b] with packets added at the end, in place while there is room. *)
Definition extends (b b' : bus) (new : list queued_packet) : Prop :=
  contents b' = contents b ++ new /\ ring_ok b' /\
  ((m_size b + length new <= length (m_ring b))%nat ->
    m_storage b' = m_storage b /\ m_head b' = m_head b /\ m_size b' = (m_size b + length new)%nat /\ length (m_ring b') = length (m_ring b)).

Lemma extends_fill b b0 p : ring_ok b -> same_ring b b0 -> extends b (fill b0 p) [p].
Proof.
  intros Hok Hs. destruct (same_ring_contents b b0 Hs) as [Hc Hr]. destruct (fill_contents b0 p) as [Hf Hok']; [by apply Hr|]. split_and!; [by rewrite Hf, Hc|done|].
  intros Hle. destruct Hs as (H1 & H2 & H3 & H4). cbn [length] in Hle. destruct (fill_storage b0 p) as (-> & -> & -> & ->); [rewrite <- H1, <- H4; lia|]. rewrite H1, H2, H3, H4. split_and!; try done. cbn. lia.
Qed.

Lemma extends_refl b b' : ring_ok b -> same_ring b b' -> extends b b' [].
Proof.
  intros Hok Hs. destruct (same_ring_contents b b' Hs) as [Hc Hr]. destruct Hs as (H1 & H2 & H3 & H4).
  split_and!; [by rewrite app_nil_r|by apply Hr|]. cbn [length]. rewrite H1, H2, H3, H4, Nat.add_0_r. done.
Qed.

Lemma extends_trans b1 b2 b3 n1 n2 : extends b1 b2 n1 -> extends b2 b3 n2 -> extends b1 b3 (n1 ++ n2).
Proof.
  intros (Hc1 & Hok1 & Hr1) (Hc2 & Hok2 & Hr2). split_and!; [by rewrite Hc2, Hc1, app_assoc|done|]. rewrite length_app. intros Hle.
  destruct Hr1 as (H1 & H2 & H3 & H4); [lia|]. destruct Hr2 as (K1 & K2 & K3 & K4); [lia|]. rewrite K1, K2, K3, K4. split_and!; try done. lia.
Qed.

Lemma extends_fill_here b p : ring_ok b -> extends b (fill b p) [p].
Proof. intros Hok. by apply extends_fill. Qed.

Lemma run_call_extends b a b' evs : ring_ok b -> run_call b a = Some (b', evs) -> extends b b' (call_packets b a).
Proof.
  intros Hok Hr. destruct a as [raw d|raw c|raw|c]; cbn [run_call call_packets] in *.
  - unfold send in Hr. destruct (b_objects b !! raw) as [ch|]; [|done]. cbn [mbind option_bind] in Hr. destruct (ic_closed ch); simplify_eq; [by apply extends_refl|]. by apply extends_fill.
  - unfold send_object in Hr. destruct (b_objects b !! raw) as [ch|]; [|done]. cbn [mbind option_bind] in Hr. destruct (ic_closed ch); simplify_eq; [by apply extends_refl|]. apply extends_fill; [done|apply addref_same].
  - unfold close_channel in Hr. destruct (b_objects b !! raw) as [ch|]; [|done]. cbn [mbind option_bind] in Hr. destruct (ic_closed ch); cbn [mbind option_bind] in Hr; simplify_eq; [by apply extends_refl|]. by apply extends_fill.
  - simplify_eq. apply extends_refl; [done|]. pose proof (release_same b c) as H. by rewrite Hr in H.
Qed.

Lemma run_calls_extends l : forall b b' evs, ring_ok b -> run_calls b l = Some (b', evs) -> extends b b' (calls_packets b l).
Proof.
  induction l as [| a l IH]; intros b b' evs Hok Hr; cbn [run_calls calls_packets] in *; [simplify_eq; by apply extends_refl|].
  destruct (run_call b a) as [[b1 e1]|] eqn:Ha; [|done]. cbn [mbind option_bind] in Hr. destruct (run_calls b1 l) as [[b2 e2]|] eqn:Hl; [|done]. cbn in Hr. simplify_eq.
  pose proof (run_call_extends _ _ _ _ Hok Ha) as H1. eapply extends_trans; [exact H1|]. eapply IH; [apply H1|exact Hl].
Qed.

(** A dispatch adds what the callback sends. *)
Lemma dispatch_extends b pkt callback b' evs : ring_ok b -> dispatch_call b pkt callback = Some (b', evs) -> exists new, extends b b' new.
Proof.
  intros Hok Hd. unfold dispatch_call in Hd. destruct (find_target _ _) as [raw|].
  - destruct (b_objects b !! raw) as [c|]; [|done]. cbn [mbind option_bind] in Hd.
    destruct (match qp_kind pkt with pk_close => _ | pk_object => _ | pk_data => _ end) as [b1 e1] eqn:Hk.
    assert (same_ring b b1) as Hs. { destruct (qp_kind pkt); simplify_eq; try done. unfold deliver_object in Hk. destruct (_ && _); simplify_eq; [done|]. pose proof (release_same b (qp_carrier pkt)) as H. by rewrite Hk in H. }
    assert (forall r, run_calls b1 callback = Some r -> exists new, extends b r.1 new) as Hrun.
    { intros [b2 e2] Hr. eexists. eapply (extends_trans b b1 b2 []); [by apply extends_refl|]. eapply run_calls_extends; [by apply (same_ring_contents b b1)|exact Hr]. }
    destruct e1 as [| [] ?]; try (simplify_eq; eexists; by apply extends_refl);
      (destruct (run_calls b1 callback) as [[b2 e2]|]; [|done]; cbn in Hd; simplify_eq; by apply (Hrun (b', e2))).
  - exists []. apply extends_refl; [done|]. destruct (qp_kind pkt); [destruct (qp_from pkt) as [f|]; [destruct (sender_live b f); [destruct (b_objects b !! f); [|done]|]|]| |]; cbn in Hd; simplify_eq; try done.
    pose proof (release_same b (qp_carrier pkt)) as H. by rewrite Hd in H.
Qed.

Lemma clear_slot_ok b storage index b' : ring_ok b -> clear_slot b storage index = Some b' -> ring_ok b'.
Proof.
  intros Hok. unfold clear_slot. destruct (negb _); [done|]. destruct (m_ring b !! index) as [p|] eqn:Hp; [|done]. cbn. intros [= <-].
  destruct Hok as [(Hr & _) | [? ?]]; [by rewrite Hr in Hp|]. right. cbn. rewrite length_insert. lia.
Qed.

Lemma deliver_one_ok b callback ok b' evs : ring_ok b -> deliver_one b callback = Some (ok, b', evs) -> ring_ok b'.
Proof.
  intros Hok. unfold deliver_one. destruct (Nat.eqb_spec (m_size b) 0) as [|Hne]; [by intros [= _ <- _]|].
  destruct (m_ring b !! m_head b) as [pkt|] eqn:Hp; [|done]. cbn [mbind option_bind]. destruct (dispatch_call (pop_slot b) pkt callback) as [[b1 e1]|] eqn:Hd; [|done]. cbn [mbind option_bind].
  destruct (pop_contents b pkt Hok Hne Hp) as [_ Hpop]. destruct (dispatch_extends _ _ _ _ _ Hpop Hd) as (new & _ & Hok1 & _).
  destruct (clear_slot b1 _ _) as [b2|] eqn:Hc; [|done]. intros [= _ <- _]. by eapply clear_slot_ok.
Qed.

Lemma step_ring_ok b o b' evs : ring_ok b -> step b o = Some (b', evs) -> ring_ok b'.
Proof.
  intros Hok Hs. assert (forall x, same_ring b x -> ring_ok x) as Hsame by (intros x Hx; by apply (same_ring_contents b x)).
  destruct o as [|raw|raw partner|raw d o c e p|ep cb|ep|ep|a|callback]; cbn [step] in Hs.
  - simplify_eq. by apply Hsame.
  - unfold destroy_channel in Hs. destruct (b_objects b !! raw); [|done]. cbn in Hs. simplify_eq. by apply Hsame.
  - unfold connect_to in Hs. destruct (b_objects b !! raw); [|done]. cbn in Hs. simplify_eq. by apply Hsame.
  - unfold install in Hs. destruct (b_objects b !! raw); [|done]. cbn in Hs. simplify_eq. by apply Hsame.
  - simplify_eq. by apply Hsame.
  - simplify_eq. by apply Hsame.
  - unfold dial in Hs. destruct (find_listener b ep); [|by simplify_eq]. cbn [channel_new register_channel] in Hs. unfold connect_to in Hs.
    repeat (destruct (_ !! _); [|done]; cbn [mbind option_bind] in Hs). simplify_eq. by apply Hsame.
  - by eapply run_call_extends.
  - destruct (deliver_one b callback) as [[[ok b1] e1]|] eqn:Hd; [|done]. cbn in Hs. simplify_eq. by eapply deliver_one_ok.
Qed.

Lemma reachable_ring_ok b : reachable b -> ring_ok b.
Proof. induction 1 as [|b o b' evs _ IH Hs]; [by left|]. by eapply step_ring_ok. Qed.

(** C22: The bus's ring of reused slots is a first-in first-out queue, through wrap-around and growth: a
    call that sends adds its packet at the end; a delivery dispatches exactly the oldest packet and
    leaves the others in order with what the callback sent behind them, provided the callback's
    packets fit in the ring beside those waiting when its packet was taken. *)
Theorem inproc_bus_is_fifo b : reachable b ->
  (forall a b' evs, run_call b a = Some (b', evs) -> contents b' = contents b ++ call_packets b a) /\
  (forall pkt rest callback b1 evs, contents b = pkt :: rest -> dispatch_call (pop_slot b) pkt callback = Some (b1, evs) ->
    exists new, contents b1 = rest ++ new /\
      ((length (contents b) + length new <= length (m_ring b))%nat ->
        exists b', deliver_one b callback = Some (true, b', evs) /\ contents b' = rest ++ new)).
Proof.
  intros Hr. pose proof (reachable_ring_ok b Hr) as Hok. split.
  - intros a b' evs Ha. by apply (run_call_extends b a b' evs Hok Ha).
  - intros pkt rest callback b1 evs Hc Hd. assert (m_size b <> 0%nat) as Hne by (intros H0; unfold contents in Hc; by rewrite H0 in Hc).
    destruct Hok as [(_ & _ & ?) | [Hh Hs]]; [lia|]. destruct (lookup_lt_is_Some_2 (m_ring b) (m_head b) Hh) as [p Hp].
    destruct (pop_contents b p ltac:(by right) Hne Hp) as [Hc' Hpop]. rewrite Hc in Hc'. simplify_eq.
    destruct (dispatch_extends _ _ _ _ _ Hpop Hd) as (new & Hext & Hok1 & Hroom). exists new. split; [done|]. rewrite length_bus_contents. intros Hle.
    destruct Hroom as (H1 & H2 & H3 & H4); [cbn; lia|]. cbn in H1, H2, H3, H4.
    destruct (clear_slot_contents b1 (m_storage b) (m_head b)) as (b' & Hcl & Hcc & _); [done|done|lia| |].
    + intros i Hi. rewrite H2, H4. rewrite Nat.Div0.add_mod_idemp_l. intros Heq. rewrite <- (Nat.mod_small (m_head b) (length (m_ring b)) Hh) in Heq at 2.
      replace (m_head b + 1 + i)%nat with (m_head b + (1 + i))%nat in Heq by lia. rewrite <- (Nat.add_0_r (m_head b)) in Heq at 2. apply bus_index_inj in Heq; lia.
    + exists b'. unfold deliver_one. rewrite (proj2 (Nat.eqb_neq _ _) Hne), Hp. cbn [mbind option_bind]. rewrite Hd. cbn [mbind option_bind]. rewrite Hcl. cbn. by rewrite Hcc.
Qed.

(** ** Concrete runs *)

Definition run_ops (b : bus) (ops : list op) : option bus := foldl (fun b o => b ← b; fst <$> step b o) (Some b) ops.

Lemma bus_ops_reachable ops : forall b b', reachable b -> run_ops b ops = Some b' -> reachable b'.
Proof.
  induction ops as [| o ops IH] using rev_ind; intros b b' Hb Hr; unfold run_ops in *; [cbn in Hr; by simplify_eq|]. rewrite foldl_app in Hr. cbn in Hr.
  apply bind_Some in Hr as (b1 & H1 & H2). apply fmap_Some in H2 as ([b2 evs] & H2 & ->). eapply ReachStep; [by eapply IH|exact H2].
Qed.

Definition hub : io_endpoint := IoEndpoint (text "inproc") (text "hub").
Definition carrier_of (slot : Z) : object_carrier := ObjectCarrier 1 2 3 4 5 (Some slot).

(** A dialed pair with callbacks and [n] packets from the dialer to the accepted end. *)
Definition paired (n : nat) : list op :=
  [OpListen hub 0; OpDial hub; OpInstall 0 true true true true true; OpInstall 1 true true true true true] ++
  map (fun k => OpCall (CallSend 0 [byte.of_Z (Z.of_nat k)])) (seq 0 n).

Definition bus_with (n : nat) : bus := default bus_new (run_ops bus_new (paired n)).

Lemma bus_with_reachable n : is_Some (run_ops bus_new (paired n)) -> reachable (bus_with n).
Proof. intros [b Hb]. unfold bus_with. rewrite Hb. by eapply bus_ops_reachable; [constructor|]. Qed.

Lemma inproc_bus_is_fifo_witness : exists b', deliver_one (bus_with 3) [CallSend 1 [Byte.xff]] = Some (true, b', [OnData 1 [Byte.x00]]) /\
  map qp_data (contents b') = [ [Byte.x01]; [Byte.x02]; [Byte.xff] ].
Proof.
  destruct (inproc_bus_is_fifo (bus_with 3) (bus_with_reachable 3 ltac:(vm_compute; by eexists))) as [_ H].
  destruct (H (QueuedPacket 2 pk_data (Some 0%nat) [Byte.x00] no_carrier) (tail (contents (bus_with 3))) [CallSend 1 [Byte.xff]]
    (from_option fst bus_new (dispatch_call (pop_slot (bus_with 3)) (QueuedPacket 2 pk_data (Some 0%nat) [Byte.x00] no_carrier) [CallSend 1 [Byte.xff]])) [OnData 1 [Byte.x00]]) as (new & Hn & Hd); [by vm_compute|by vm_compute|].
  assert (new = [QueuedPacket 1 pk_data (Some 1%nat) [Byte.xff] no_carrier]) as ->.
  { apply (app_inv_head (tail (contents (bus_with 3)))). rewrite <- Hn. by vm_compute. }
  destruct Hd as (b' & Hd & Hc); [vm_compute; lia|]. exists b'. split; [exact Hd|]. rewrite Hc. by vm_compute.
Defined.

(** With eight packets in a ring of eight, a callback that answers once writes its packet into the
    slot of the packet it is being called with, and the dispatch then wipes the answer's carrier: the
    reference the bus took for it is never given back. *)
Definition full_ring_after_reply : bus := from_option (fun x => x.1.2) bus_new (deliver_one (bus_with 8) [CallSendObject 1 (carrier_of 7)]).

Lemma reply_in_a_full_ring_loses_its_object :
  deliver_one (bus_with 8) [CallSendObject 1 (carrier_of 7)] = Some (true, full_ring_after_reply, [OnData 1 [Byte.x00]]) /\
  refs_of full_ring_after_reply 7 = 1 /\ map (fun p => oc_slot (qp_carrier p)) (contents full_ring_after_reply) = replicate 8 None.
Proof. split; [by vm_compute|]. split; by vm_compute. Qed.

(** A callback that answers twice makes the ring grow under the reference, and the dispatch then
    writes into the storage that was given back. *)
Lemma two_replies_in_a_full_ring_dangle : deliver_one (bus_with 8) [CallSend 1 [Byte.xfe]; CallSend 1 [Byte.xff]] = None.
Proof. by vm_compute. Qed.

End Inproc.
