(* ===== verification/InprocExecutor.v ===== *)
(** * The in-process executor and its timers

    Models [backends/plexus-inproc/include/plexus/inproc/inproc_executor.h] and [inproc_timer.h]
    over the bus of [InprocBus.v].  A posted callback and a timer's handler are numbers; running one
    is an event, and the calls a packet's callback makes are an argument of the step.  [now] is what
    the clock reads. *)

From stdpp Require Import gmap.
From S2P Require Import Prelude Qos History Forwarder Announcement UdpTransport InprocBus.

Module Executor.
Import Inproc.

Record inproc_timer : Type := InprocTimer { tm_expiry : Z; tm_handler : option nat; tm_active : bool }.

Inductive event := RunPosted (fn : nat) | TimerDone (handler : nat) (cancelled : bool) | BusEvent (ev : Inproc.event).

(** [x_timers] are the registered timers in registration order. *)
Record executor : Type := InprocExecutor { x_bus : bus; x_posted : list nat; x_timers : list (nat * inproc_timer) }.

Definition executor_new (b : bus) : executor := InprocExecutor b [] [].

(** ** [inproc_timer.h] *)

Definition complete_pending (t : inproc_timer) (cancelled : bool) : inproc_timer * list event :=
  match tm_handler t with
  | Some h => (InprocTimer (tm_expiry t) None (tm_active t), [TimerDone h cancelled])
  | None => (t, [])
  end.

Definition expires_after (t : inproc_timer) (now ms : Z) : inproc_timer * list event :=
  let '(t, evs) := complete_pending t true in (InprocTimer (now + 1000000 * ms) (tm_handler t) true, evs).

Definition async_wait (t : inproc_timer) (handler : nat) : inproc_timer := InprocTimer (tm_expiry t) (Some handler) (tm_active t).

Definition cancel (t : inproc_timer) : inproc_timer * list event :=
  complete_pending (InprocTimer (tm_expiry t) (tm_handler t) false) true.

Definition armed (t : inproc_timer) : bool := tm_active t && bool_decide (is_Some (tm_handler t)).

Definition try_fire (t : inproc_timer) (now : Z) : bool * inproc_timer * list event :=
  if negb (tm_active t) || negb (bool_decide (is_Some (tm_handler t))) || (now <? tm_expiry t) then (false, t, []) else
  let '(t, evs) := complete_pending (InprocTimer (tm_expiry t) (tm_handler t) false) false in (true, t, evs).

(** ** [inproc_executor.h] *)

Definition post (x : executor) (fn : nat) : executor := InprocExecutor (x_bus x) (x_posted x ++ [fn]) (x_timers x).

Definition timer_new : inproc_timer := InprocTimer 0 None false.

Definition register_timer (x : executor) (t : nat) : executor :=
  if bool_decide (t ∈ map fst (x_timers x)) then x else InprocExecutor (x_bus x) (x_posted x) (x_timers x ++ [(t, timer_new)]).

Definition deregister_timer (x : executor) (t : nat) : executor :=
  InprocExecutor (x_bus x) (x_posted x) (filter (fun e => e.1 <> t) (x_timers x)).

(** The loop of [fire_due_timer]: the first timer that is due. *)
Fixpoint fire_first (timers : list (nat * inproc_timer)) (now : Z) : option (list (nat * inproc_timer) * list event) :=
  match timers with
  | [] => None
  | (id, t) :: timers =>
      let '(fired, t', evs) := try_fire t now in
      if fired then Some ((id, t') :: timers, evs) else
      match fire_first timers now with Some (timers, evs) => Some ((id, t) :: timers, evs) | None => None end
  end.

Definition fire_due_timer (x : executor) (now : Z) : bool * executor * list event :=
  if negb (existsb (fun e => armed e.2) (x_timers x)) then (false, x, []) else
  match fire_first (x_timers x) now with
  | Some (timers, evs) => (true, InprocExecutor (x_bus x) (x_posted x) timers, evs)
  | None => (false, x, [])
  end.

Definition step (x : executor) (callback : list call) (now : Z) : option (bool * executor * list event) :=
  match x_posted x with
  | fn :: rest => Some (true, InprocExecutor (x_bus x) rest (x_timers x), [RunPosted fn])
  | [] =>
      match deliver_one (x_bus x) callback with
      | None => None
      | Some (delivered, b, evs) =>
          if (delivered : bool) then Some (true, InprocExecutor b [] (x_timers x), map BusEvent evs) else Some (fire_due_timer x now)
      end
  end.

(** ** What a step does *)

Definition due (t : inproc_timer) (now : Z) : Prop := tm_active t = true /\ is_Some (tm_handler t) /\ tm_expiry t <= now.

Lemma try_fire_spec t now : (due t now /\ exists h, tm_handler t = Some h /\ try_fire t now = (true, InprocTimer (tm_expiry t) None false, [TimerDone h false])) \/
  (~ due t now /\ try_fire t now = (false, t, [])).
Proof.
  unfold try_fire, due. destruct t as [e [h|] []]; cbn; try (right; split; [|done]; intros (? & [? ?] & ?); done).
  destruct (Z.ltb_spec now e); [right; split; [|done]; intros (_ & _ & ?); lia|].
  left. split; [|by eexists]. split_and!; [done|by eexists|done].
Qed.

Lemma fire_first_spec timers now :
  match fire_first timers now with
  | Some (timers', evs) => exists pre id t h post, timers = pre ++ (id, t) :: post /\ due t now /\ tm_handler t = Some h /\
      Forall (fun e => ~ due e.2 now) pre /\ timers' = pre ++ (id, InprocTimer (tm_expiry t) None false) :: post /\ evs = [TimerDone h false]
  | None => Forall (fun e => ~ due e.2 now) timers
  end.
Proof.
  induction timers as [| [id t] timers IH]; cbn [fire_first]; [constructor|].
  destruct (try_fire_spec t now) as [[Hd (h & Hh & ->)] | [Hd ->]].
  - by exists [], id, t, h, timers.
  - destruct (fire_first timers now) as [[timers' evs]|]; [|by constructor].
    destruct IH as (pre & id' & t' & h & post & -> & ? & ? & ? & -> & ->). exists ((id, t) :: pre), id', t', h, post. split_and!; try done. by constructor.
Qed.

(** Posted work first, then one packet, then the first timer that is due; and a step that reports
    nothing done leaves the executor as it is, with nothing posted, no packet waiting and no timer due. *)
Lemma executor_step_order x callback now : match step x callback now with
  | Some (worked, x', evs) =>
      match x_posted x with
      | fn :: rest => worked = true /\ evs = [RunPosted fn] /\ x_bus x' = x_bus x
      | [] =>
          if has_pending_packets (x_bus x) then worked = true /\ x_timers x' = x_timers x
          else if worked then exists h, evs = [TimerDone h false] /\ exists id t, (id, t) ∈ x_timers x /\ tm_handler t = Some h /\ due t now
          else x' = x /\ evs = [] /\ Forall (fun e => ~ due e.2 now) (x_timers x)
      end
  | None => has_pending_packets (x_bus x) = true
  end.
Proof.
  unfold step. destruct (x_posted x) as [| fn rest] eqn:Hp; [|done]. unfold deliver_one, has_pending_packets. destruct (Nat.eqb_spec (m_size (x_bus x)) 0) as [H0|Hne].
  - cbn [mbind option_bind negb]. unfold fire_due_timer. destruct (existsb _ (x_timers x)) eqn:Hex; cbn [negb].
    + pose proof (fire_first_spec (x_timers x) now) as Hf. destruct (fire_first (x_timers x) now) as [[timers evs]|]; [|done].
      destruct Hf as (pre & id & t & h & post & Hts & Hd & Hh & _ & _ & ->). exists h. split; [done|]. exists id, t. split; [|done]. rewrite Hts. apply elem_of_app. right. by left.
    + split_and!; try done. apply Forall_forall. intros [id t] Hin (Ha & Hh & _). cbn [snd] in Ha, Hh. assert (existsb (fun e => armed e.2) (x_timers x) = true); [|congruence].
      apply existsb_exists. exists (id, t). split; [by apply list_elem_of_In|]. cbn [snd]. unfold armed. by rewrite Ha, bool_decide_true.
  - cbn [negb]. destruct (m_ring (x_bus x) !! m_head (x_bus x)) as [pkt|]; [|done]. cbn [mbind option_bind].
    destruct (dispatch_call _ _ _) as [[b1 e1]|]; [|done]. cbn [mbind option_bind]. destruct (clear_slot _ _ _); [|done]. done.
Qed.

(** A wait ends once: with success not before its expiry, or as cancelled by [cancel] or by arming
    again; and a timer that completed has no handler left to complete. *)
Lemma timer_completes_once t h now ms : tm_handler t = Some h ->
  cancel t = (InprocTimer (tm_expiry t) None false, [TimerDone h true]) /\
  expires_after t now ms = (InprocTimer (now + 1000000 * ms) None true, [TimerDone h true]) /\
  (forall t' evs, try_fire t now = (true, t', evs) -> tm_expiry t <= now /\ evs = [TimerDone h false] /\ cancel t' = (t', []) /\ forall later, try_fire t' later = (false, t', [])).
Proof.
  intros Hh. split; [unfold cancel, complete_pending; cbn; by rewrite Hh|]. split; [unfold expires_after, complete_pending; by rewrite Hh|].
  intros t' evs Hf. destruct (try_fire_spec t now) as [[(_ & _ & Hd) (h' & Hh' & Heq)] | [_ Heq]]; rewrite Heq in Hf; [|done]. simplify_eq. done.
Qed.

End Executor.
