(* ===== verification/LoanPool.v ===== *)
(** * The loan pool

    Models [lib/plexus-api/include/plexus/detail/loan_pool_slab.h] and [loan_pool.h]: a fixed slab of
    slots with a free list, lent to publishers and kept alive by the references of the carriers in
    flight.  A slot is its index; the control block with its slots is on the heap until it is
    deleted, and an access to it after that is [None], as is the destruction of an object that is not
    there.  Reference counts are the 32-bit counts of [io/object_carrier.h]. *)

From S2P Require Import Prelude.

Module LoanPool.

Record slab_control : Type := SlabControl {
  c_refs : list Z;
  c_object : list bool;
  c_free : list nat;
  c_capacity : nat;
  c_outstanding : Z;
  c_pool_alive : bool;
}.

(** [None]: the control block was deleted. *)
Definition slab : Type := option slab_control.

(** The constructor threads the slots onto the free list one by one, so the last is its head. *)
Definition slab_new (capacity : nat) : slab :=
  Some (SlabControl (replicate capacity 0) (replicate capacity false) (rev (seq 0 capacity)) capacity 0 true).

Definition pop (c : slab_control) : option nat * slab_control :=
  match c_free c with
  | [] => (None, c)
  | n :: rest => (Some n, SlabControl (c_refs c) (c_object c) rest (c_capacity c) (wrap 64 (c_outstanding c + 1)) (c_pool_alive c))
  end.

Definition push (c : slab_control) (n : nat) : slab_control :=
  SlabControl (c_refs c) (c_object c) (n :: c_free c) (c_capacity c) (wrap 64 (c_outstanding c - 1)) (c_pool_alive c).

Definition destroy_control (c : slab_control) : slab := None.

(** [release_slot] *)
Definition release_slot (c : slab_control) (n : nat) : option slab :=
  live ← c_object c !! n;
  if negb live then None else
  let c := SlabControl (c_refs c) (<[n := false]> (c_object c)) (c_free c) (c_capacity c) (c_outstanding c) (c_pool_alive c) in
  let c := push c n in
  Some (if (c_outstanding c =? 0) && negb (c_pool_alive c) then destroy_control c else Some c).

(** [release_control], when the handle is destroyed or assigned over. *)
Definition release_control (s : slab) : option slab :=
  c ← s;
  let c := SlabControl (c_refs c) (c_object c) (c_free c) (c_capacity c) (c_outstanding c) false in
  Some (if c_outstanding c =? 0 then destroy_control c else Some c).

(** [try_borrow]: an empty loan when the pool is exhausted. *)
Definition try_borrow (s : slab) : option (option nat * slab) :=
  c ← s;
  let '(n, c) := pop c in
  match n with
  | None => Some (None, Some c)
  | Some n => Some (Some n, Some (SlabControl (<[n := 1]> (c_refs c)) (<[n := true]> (c_object c)) (c_free c) (c_capacity c) (c_outstanding c) (c_pool_alive c)))
  end.

(** [try_borrow] when the constructor of [T] throws: the exception leaves after the pop. *)
Definition try_borrow_throws (s : slab) : option slab := c ← s; Some (Some (pop c).2).

Definition addref (s : slab) (n : nat) : option slab :=
  c ← s; r ← c_refs c !! n;
  Some (Some (SlabControl (<[n := wrap 32 (r + 1)]> (c_refs c)) (c_object c) (c_free c) (c_capacity c) (c_outstanding c) (c_pool_alive c))).

Definition release (s : slab) (n : nat) : option slab :=
  c ← s; r ← c_refs c !! n;
  let r := wrap 32 (r - 1) in
  let c := SlabControl (<[n := r]> (c_refs c)) (c_object c) (c_free c) (c_capacity c) (c_outstanding c) (c_pool_alive c) in
  if r =? 0 then release_slot c n else Some (Some c).

(** ** [loan]: a handle is the slot it owns *)

Definition loan : Type := option nat.

Definition take (l : loan) : option nat * loan := (l, None).
Definition move_loan (other : loan) : loan * loan := (other, None).

Definition release_if_held (s : slab) (l : loan) : option (slab * loan) :=
  match l with
  | Some n => s ← release s n; Some (s, None)
  | None => Some (s, None)
  end.

Definition assign_loan (s : slab) (l other : loan) : option (slab * loan * loan) :=
  '(s, _) ← release_if_held s l; Some (s, other, None).

Definition object_ptr (s : slab) (l : loan) : option bool := c ← s; n ← l; c_object c !! n.

(** ** References and their holders *)

Inductive op := Borrow | AddRef (n : nat) | Release (n : nat) | DropPool.

(** The slab, the references out (one entry for a loan or a carrier in flight), whether the handle
    is still there. *)
Record world : Type := World { w_slab : slab; w_holders : list nat; w_handle : bool }.

(** How many references to a slot are out. *)
Definition count (n : nat) (l : list nat) : Z := zlen (filter (fun x => x = n) l).

Definition allowed (w : world) (o : op) : Prop :=
  match o with
  | Borrow => w_handle w = true
  | AddRef n => n ∈ w_holders w /\ count n (w_holders w) < 2 ^ 32 - 1
  | Release n => n ∈ w_holders w
  | DropPool => w_handle w = true
  end.

Fixpoint remove_one (n : nat) (l : list nat) : list nat :=
  match l with
  | [] => []
  | x :: l => if decide (x = n) then l else x :: remove_one n l
  end.

Definition step (w : world) (o : op) : option world :=
  match o with
  | Borrow => '(n, s) ← try_borrow (w_slab w); Some (World s (match n with Some n => n :: w_holders w | None => w_holders w end) (w_handle w))
  | AddRef n => s ← addref (w_slab w) n; Some (World s (n :: w_holders w) (w_handle w))
  | Release n => s ← release (w_slab w) n; Some (World s (remove_one n (w_holders w)) (w_handle w))
  | DropPool => s ← release_control (w_slab w); Some (World s (w_holders w) false)
  end.

Inductive reachable (capacity : nat) : world -> Prop :=
| ReachNew : reachable capacity (World (slab_new capacity) [] true)
| ReachStep w o w' : reachable capacity w -> allowed w o -> step w o = Some w' -> reachable capacity w'.

Record pool_inv (capacity : nat) (w : world) : Prop := PoolInv {
  pi_gone : w_slab w = None <-> w_holders w = [] /\ w_handle w = false;
  pi_slab c : w_slab w = Some c ->
    length (c_refs c) = capacity /\ length (c_object c) = capacity /\ c_capacity c = capacity /\ c_pool_alive c = w_handle w /\
    NoDup (c_free c) /\ (forall n, n ∈ c_free c <-> (n < capacity)%nat /\ n ∉ w_holders w) /\
    c_outstanding c = Z.of_nat capacity - zlen (c_free c) /\
    (forall n, (n < capacity)%nat -> c_refs c !! n = Some (count n (w_holders w)) /\ c_object c !! n = Some (bool_decide (n ∈ w_holders w)));
  pi_holders n : n ∈ w_holders w -> (n < capacity)%nat;
  pi_bound n : count n (w_holders w) < 2 ^ 32;
}.

Lemma count_cons n x l : count n (x :: l) = (if decide (x = n) then 1 else 0) + count n l.
Proof. unfold count, zlen. rewrite filter_cons. case_decide; cbn [length]; lia. Qed.

Lemma count_nonneg n l : 0 <= count n l.
Proof. unfold count, zlen. lia. Qed.

Lemma count_elem n l : n ∈ l <-> 0 < count n l.
Proof.
  induction l as [| x l IH]; [split; [by intros ?%elem_of_nil|intros Hc; by vm_compute in Hc]|]. rewrite count_cons, elem_of_cons, IH. pose proof (count_nonneg n l).
  case_decide; [subst; split; [lia|by left]|]. split; [intros [-> | ?]; [done|lia]|right; lia].
Qed.

Lemma count_remove_one n m l : m ∈ l -> count n (remove_one m l) = count n l - (if decide (m = n) then 1 else 0).
Proof.
  induction l as [| x l IH]; [by intros ?%elem_of_nil|]. cbn [remove_one]. intros Hm. destruct (decide (x = m)) as [-> | Hne].
  - rewrite count_cons. lia.
  - apply elem_of_cons in Hm as [-> | Hm]; [done|]. rewrite !count_cons, IH by done. lia.
Qed.

Lemma elem_remove_one n m l : n ∈ remove_one m l -> n ∈ l.
Proof. induction l as [| x l IH]; [done|]. cbn [remove_one]. case_decide; rewrite !elem_of_cons; [by right|]. intros [-> | ?]; auto. Qed.

Lemma elem_remove_one_count n m l : m ∈ l -> n ∈ remove_one m l <-> 0 < count n l - (if decide (m = n) then 1 else 0).
Proof. intros Hm. by rewrite count_elem, count_remove_one. Qed.

(** The free list is full exactly when nothing is out. *)
Lemma free_full free H capacity : NoDup free -> (forall n, n ∈ free <-> (n < capacity)%nat /\ n ∉ H) -> (forall n, n ∈ H -> (n < capacity)%nat) ->
  (zlen free = Z.of_nat capacity <-> H = []) /\ zlen free <= Z.of_nat capacity.
Proof.
  intros Hn Hf Hh. assert (forall l, NoDup l -> (forall n, n ∈ l -> (n < capacity)%nat) -> (length l <= capacity)%nat) as Hlen.
  { intros l Hl Hb. rewrite <- (length_seq capacity 0). apply submseteq_length, NoDup_submseteq; [done|]. intros n Hin. apply elem_of_seq. specialize (Hb n Hin). lia. }
  split; [split|].
  - intros Hl. destruct H as [| n H]; [done|]. specialize (Hlen (n :: free)). unfold zlen in Hl. cbn [length] in Hlen.
    assert (S (length free) <= capacity)%nat; [|lia]. apply Hlen.
    + constructor; [|done]. intros Hin. apply Hf in Hin as [_ Hin]. apply Hin. by left.
    + intros m [-> | Hm]%elem_of_cons; [apply Hh; by left|]. by apply Hf.
  - intros ->. unfold zlen. f_equal. rewrite <- (length_seq capacity 0). apply Permutation_length, NoDup_Permutation; [done|apply NoDup_seq|].
    intros n. rewrite Hf, elem_of_seq. split; [lia|]. intros ?. split; [lia|]. by intros ?%elem_of_nil.
  - unfold zlen. apply inj_le, Hlen; [done|]. intros n Hin. by apply Hf.
Qed.

Section Safety.
Context (capacity : nat) (Hcapacity : Z.of_nat capacity < 2 ^ 64).

Lemma pool_inv_new : pool_inv capacity (World (slab_new capacity) [] true).
Proof.
  constructor; cbn.
  - split; [done|]. by intros [_ ?].
  - intros c [= <-]. cbn. rewrite !length_replicate. split_and!; try done.
    + apply NoDup_ListNoDup, NoDup_rev, NoDup_ListNoDup, NoDup_seq.
    + intros n. rewrite list_elem_of_In, <- in_rev, in_seq. split; [intros; split; [lia|by intros ?%elem_of_nil]|lia].
    + unfold zlen. rewrite length_rev, length_seq. lia.
    + intros n Hn. rewrite !lookup_replicate_2 by done. done.
  - by intros n ?%elem_of_nil.
  - intros n. by vm_compute.
Qed.

Lemma borrow_inv w : pool_inv capacity w -> w_handle w = true ->
  exists n w', try_borrow (w_slab w) = Some (n, w_slab w') /\ step w Borrow = Some w' /\ pool_inv capacity w' /\
    match n with
    | Some n => (n ∉ w_holders w) /\ w_holders w' = n :: w_holders w
    | None => w' = w /\ forall m, (m < capacity)%nat -> m ∈ w_holders w
    end.
Proof.
  intros [Hg Hs Hh Hb] Hha. destruct (w_slab w) as [c|] eqn:Hc; [|destruct (proj1 Hg eq_refl); congruence].
  destruct (Hs c eq_refl) as (Hr & Ho & Hcap & Hal & Hnd & Hfree & Hout & Hslots). cbn [step]. rewrite Hc. unfold try_borrow, pop. cbn [mbind option_bind].
  destruct (c_free c) as [| n rest] eqn:Hfl.
  - exists None, w. rewrite Hc. cbn. split; [done|]. split; [by destruct w; cbn in *; subst|]. split; [by constructor; rewrite ?Hc|].
    split; [done|]. intros m Hm. destruct (decide (m ∈ w_holders w)); [done|]. exfalso. apply (not_elem_of_nil m). by apply Hfree.
  - apply NoDup_cons in Hnd as [Hnin Hnd]. destruct (proj1 (Hfree n) ltac:(by left)) as [Hn Hnh].
    destruct (free_full (n :: rest) (w_holders w) capacity ltac:(by constructor) Hfree Hh) as [_ Hle]. unfold zlen in *. cbn [length] in *.
    eexists (Some n), (World _ (n :: w_holders w) (w_handle w)). split; [done|]. split; [done|]. split; [|done]. constructor; cbn [w_slab w_holders w_handle].
    + split; [done|]. by intros [? _].
    + intros c' [= <-]. cbn [c_refs c_object c_free c_capacity c_outstanding c_pool_alive]. rewrite !length_insert. split_and!; try done.
      * intros m. rewrite not_elem_of_cons. split.
        { intros Hm. destruct (proj1 (Hfree m) ltac:(by right)) as [? ?]. split; [done|]. split; [|done]. intros ->. done. }
        { intros (? & Hne & ?). assert (m ∈ n :: rest) as [-> | ?]%elem_of_cons by (by apply Hfree); done. }
      * rewrite wrap_small by (unfold in_width; lia). unfold zlen. lia.
      * intros m Hm. destruct (Hslots m Hm) as [H1 H2]. rewrite count_cons. destruct (decide (n = m)) as [-> | Hne].
        { rewrite !list_lookup_insert_eq by lia. rewrite bool_decide_true by (by left). split; [|done]. do 2 f_equal.
          pose proof (count_nonneg m (w_holders w)). destruct (Z.eq_dec (count m (w_holders w)) 0); [lia|]. destruct Hnh. apply count_elem. lia. }
        { rewrite !list_lookup_insert_ne by done. rewrite H1, H2. split; [do 2 f_equal|]. f_equal. apply bool_decide_ext. rewrite elem_of_cons. naive_solver. }
    + intros m [-> | Hm]%elem_of_cons; [done|]. by apply Hh.
    + intros m. rewrite count_cons. specialize (Hb m). case_decide; [|lia]. subst. pose proof (count_nonneg m (w_holders w)).
      destruct (Z.eq_dec (count m (w_holders w)) 0) as [->|]; [lia|]. destruct Hnh. apply count_elem. lia.
Qed.

Lemma addref_inv w n : pool_inv capacity w -> allowed w (AddRef n) -> exists w', step w (AddRef n) = Some w' /\ pool_inv capacity w'.
Proof.
  intros [Hg Hs Hh Hb] [Hn Hlt]. destruct (w_slab w) as [c|] eqn:Hc; [|destruct (proj1 Hg eq_refl) as [Hnil _]; rewrite Hnil in Hn; by apply elem_of_nil in Hn].
  destruct (Hs c eq_refl) as (Hr & Ho & Hcap & Hal & Hnd & Hfree & Hout & Hslots). pose proof (Hh n Hn) as Hnc. destruct (Hslots n Hnc) as [H1 H2].
  cbn [step]. rewrite Hc. unfold addref. cbn [mbind option_bind]. rewrite H1. cbn [mbind option_bind]. eexists. split; [done|].
  pose proof (count_nonneg n (w_holders w)). rewrite wrap_small by (unfold in_width; lia). constructor; cbn [w_slab w_holders w_handle].
  - split; [done|]. by intros [? _].
  - intros c' [= <-]. cbn [c_refs c_object c_free c_capacity c_outstanding c_pool_alive]. rewrite length_insert. split_and!; try done.
    + intros m. rewrite Hfree, not_elem_of_cons. split; [|naive_solver]. intros [? Hm]. split_and!; try done. intros ->. done.
    + intros m Hm. destruct (Hslots m Hm) as [K1 K2]. rewrite count_cons, K2. destruct (decide (n = m)) as [-> | Hne].
      * rewrite list_lookup_insert_eq by lia. rewrite !bool_decide_true by (done || by left). split; [f_equal; lia|done].
      * rewrite list_lookup_insert_ne by done. rewrite K1. split; [f_equal; lia|]. f_equal. apply bool_decide_ext. rewrite elem_of_cons. naive_solver.
  - intros m [-> | Hm]%elem_of_cons; [done|]. by apply Hh.
  - intros m. rewrite count_cons. specialize (Hb m). destruct (decide (n = m)) as [-> | ?]; lia.
Qed.

Lemma release_inv w n : pool_inv capacity w -> n ∈ w_holders w -> exists w', step w (Release n) = Some w' /\ pool_inv capacity w'.
Proof.
  intros [Hg Hs Hh Hb] Hn. destruct (w_slab w) as [c|] eqn:Hc; [|destruct (proj1 Hg eq_refl) as [Hnil _]; rewrite Hnil in Hn; by apply elem_of_nil in Hn].
  destruct (Hs c eq_refl) as (Hr & Ho & Hcap & Hal & Hnd & Hfree & Hout & Hslots). pose proof (Hh n Hn) as Hnc. destruct (Hslots n Hnc) as [H1 H2].
  pose proof (proj1 (count_elem n (w_holders w)) Hn) as Hpos. specialize (Hb n) as Hbn.
  set (H' := remove_one n (w_holders w)). assert (forall m, count m H' = count m (w_holders w) - (if decide (n = m) then 1 else 0)) as Hcnt by (intros m; by apply count_remove_one).
  assert (forall m, m <> n -> m ∈ H' <-> m ∈ w_holders w) as Hother by (intros m Hne; rewrite !count_elem, Hcnt, decide_False by done; by rewrite Z.sub_0_r).
  assert (forall m, m ∈ H' -> (m < capacity)%nat) as Hh' by (intros m Hm; apply Hh; by eapply elem_remove_one).
  assert (forall m, count m H' < 2 ^ 32) as Hb' by (intros m; rewrite Hcnt; specialize (Hb m); destruct (decide (n = m)); lia).
  cbn [step]. rewrite Hc. unfold release. cbn [mbind option_bind]. rewrite H1. cbn [mbind option_bind]. rewrite wrap_small by (unfold in_width; lia).
  destruct (Z.eqb_spec (count n (w_holders w) - 1) 0) as [Hz|Hnz].
  - unfold release_slot. cbn [c_object]. rewrite H2, bool_decide_true by done. cbn [mbind option_bind negb push c_outstanding c_pool_alive c_free c_refs c_object c_capacity].
    assert (n ∉ H') as Hnn by (rewrite count_elem, Hcnt, decide_True by done; lia).
    assert (n ∉ c_free c) as Hnf by (rewrite Hfree; by intros [_ ?]).
    assert (NoDup (n :: c_free c)) as Hnd' by (by constructor).
    assert (forall m, m ∈ n :: c_free c <-> (m < capacity)%nat /\ m ∉ H') as Hfree'.
    { intros m. rewrite elem_of_cons, Hfree. destruct (decide (m = n)) as [-> | Hne]; [naive_solver|]. rewrite Hother by done. naive_solver. }
    destruct (free_full (n :: c_free c) H' capacity Hnd' Hfree' Hh') as [Hfull Hle]. destruct (free_full (c_free c) (w_holders w) capacity Hnd Hfree Hh) as [_ Hle0].
    unfold zlen in *. cbn [length] in Hfull, Hle. rewrite Hout, wrap_small by (unfold in_width; lia).
    replace (Z.of_nat capacity - Z.of_nat (length (c_free c)) - 1) with (Z.of_nat capacity - Z.of_nat (S (length (c_free c)))) by lia.
    eexists. split; [done|]. fold H'. constructor; cbn [w_slab w_holders w_handle]; [| |done|done].
    + rewrite Hal. destruct (Z.eqb_spec (Z.of_nat capacity - Z.of_nat (S (length (c_free c)))) 0) as [He|He]; destruct (w_handle w); cbn [andb negb]; split; try done; try (by intros [_ ?]).
      * intros _. split; [|done]. apply Hfull. lia.
      * intros [Hnil _]. apply Hfull in Hnil. lia.
    + intros c' Hc'. destruct (_ && _); [done|]. simplify_eq. cbn [push c_refs c_object c_free c_capacity c_outstanding c_pool_alive]. rewrite !length_insert. split_and!; try done.
      * rewrite wrap_small by (unfold in_width; lia). unfold zlen. cbn [length]. lia.
      * intros m Hm. destruct (Hslots m Hm) as [K1 K2]. rewrite Hcnt. destruct (decide (n = m)) as [-> | Hne].
        { rewrite !list_lookup_insert_eq by lia. rewrite bool_decide_false by done. done. }
        { rewrite !list_lookup_insert_ne by done. rewrite K1, K2, Z.sub_0_r. split; [done|]. f_equal. apply bool_decide_ext. by rewrite Hother. }
  - eexists. split; [done|]. fold H'. assert (n ∈ H') as Hnin by (rewrite count_elem, Hcnt, decide_True by done; lia).
    constructor; cbn [w_slab w_holders w_handle]; [| |done|done].
    + split; [done|]. intros [Hnil _]. rewrite Hnil in Hnin. by apply elem_of_nil in Hnin.
    + intros c' [= <-]. cbn [c_refs c_object c_free c_capacity c_outstanding c_pool_alive]. rewrite length_insert. split_and!; try done.
      * intros m. rewrite Hfree. destruct (decide (m = n)) as [-> | Hne]; [naive_solver|]. by rewrite Hother.
      * intros m Hm. destruct (Hslots m Hm) as [K1 K2]. rewrite Hcnt, K2. destruct (decide (n = m)) as [-> | Hne].
        { rewrite list_lookup_insert_eq by lia. rewrite !bool_decide_true by done. done. }
        { rewrite list_lookup_insert_ne by done. rewrite K1, Z.sub_0_r. split; [done|]. f_equal. apply bool_decide_ext. by rewrite Hother. }
Qed.

Lemma drop_inv w : pool_inv capacity w -> w_handle w = true -> exists w', step w DropPool = Some w' /\ pool_inv capacity w'.
Proof.
  intros [Hg Hs Hh Hb] Hha. destruct (w_slab w) as [c|] eqn:Hc; [|destruct (proj1 Hg eq_refl); congruence].
  destruct (Hs c eq_refl) as (Hr & Ho & Hcap & Hal & Hnd & Hfree & Hout & Hslots). destruct (free_full _ _ _ Hnd Hfree Hh) as [Hfull Hle].
  cbn [step]. rewrite Hc. unfold release_control. cbn [mbind option_bind c_outstanding]. rewrite Hout. eexists. split; [done|]. constructor; cbn [w_slab w_holders w_handle]; [| |done|done].
  - destruct (Z.eqb_spec (Z.of_nat capacity - zlen (c_free c)) 0) as [He|He]; split; try done.
    + intros _. split; [|done]. apply Hfull. lia.
    + intros [Hnil _]. apply Hfull in Hnil. lia.
  - intros c' Hc'. destruct (_ =? 0); [done|]. simplify_eq. done.
Qed.

Lemma step_pool_inv w o : pool_inv capacity w -> allowed w o -> exists w', step w o = Some w' /\ pool_inv capacity w'.
Proof.
  intros Hw Ha. destruct o as [|n|n|].
  - destruct (borrow_inv w Hw Ha) as (n & w' & _ & Hs & Hw' & _). by exists w'.
  - by apply addref_inv.
  - by apply release_inv.
  - by apply drop_inv.
Qed.

Lemma reachable_pool_inv w : reachable capacity w -> pool_inv capacity w.
Proof.
  induction 1 as [|w o w' Hr IH Ha Hs]; [apply pool_inv_new|]. destruct (step_pool_inv w o IH Ha) as (w2 & Hs2 & Hw2). by simplify_eq.
Qed.

End Safety.

(** C21: However loans, references in flight and the pool's own handle come and go, no operation touches
    the slab after it was deleted or destroys an object twice; the slab is deleted exactly when the
    handle is gone and the last reference has been released; and a loan is refused exactly when every
    slot is out, otherwise it is a slot that nobody holds.  Constructors are
    assumed not to throw ([throwing_constructor_leaks_the_slot]). *)
Theorem loan_pool_never_frees_in_use capacity w o : Z.of_nat capacity < 2 ^ 64 -> reachable capacity w -> allowed w o ->
  is_Some (step w o) /\ (w_slab w = None <-> w_holders w = [] /\ w_handle w = false) /\
  (w_handle w = true -> exists n s, try_borrow (w_slab w) = Some (n, s) /\
    match n with Some n => (n < capacity)%nat /\ (n ∉ w_holders w) | None => forall m, (m < capacity)%nat -> m ∈ w_holders w end).
Proof.
  intros Hcap Hr Ha. pose proof (reachable_pool_inv capacity Hcap w Hr) as Hw. split; [|split].
  - destruct (step_pool_inv capacity Hcap w o Hw Ha) as (w' & -> & _). by eexists.
  - apply Hw.
  - intros Hha. destruct (borrow_inv capacity Hcap w Hw Hha) as ([n|] & w' & Hb & _ & Hw' & Hn); exists (Some n) || exists None; exists (w_slab w'); (split; [done|]).
    + destruct Hn as [Hn Hh]. split; [|done]. apply (pi_holders _ _ Hw'). rewrite Hh. by left.
    + apply Hn.
Qed.

(** A constructor that throws leaves its slot off the free list and counted as out: nobody can
    return it, the pool of one slot is exhausted, and the slab outlives its handle. *)
Theorem throwing_constructor_leaks_the_slot :
  exists s1 s2, try_borrow_throws (slab_new 1) = Some s1 /\ try_borrow s1 = Some (None, s1) /\
    release_control s1 = Some s2 /\ s2 <> None.
Proof. do 2 eexists. split; [reflexivity|]. split; [reflexivity|]. split; [reflexivity|discriminate]. Qed.

Definition lent : world := default (World None [] false) (w ← step (World (slab_new 2) [] true) Borrow; w ← step w Borrow; w ← step w (AddRef 1); w ← step w DropPool; step w (Release 1)).

Lemma lent_reachable : reachable 2 lent.
Proof.
  eapply (ReachStep 2 _ (Release 1)); [|..]; [eapply (ReachStep 2 _ DropPool); [eapply (ReachStep 2 _ (AddRef 1)); [eapply (ReachStep 2 _ Borrow); [eapply (ReachStep 2 _ Borrow); [constructor|..]|..]|..]|..]|..].
  all: try (vm_compute; reflexivity). all: cbn. all: try done. all: try (split; [|by vm_compute]). all: set_solver.
Qed.

Lemma loan_pool_never_frees_in_use_witness : is_Some (step lent (Release 0)) /\ w_holders lent = [0; 1]%nat /\ w_slab lent <> None.
Proof.
  destruct (loan_pool_never_frees_in_use 2 lent (Release 0) ltac:(lia) lent_reachable ltac:(vm_compute; set_solver)) as (H1 & H2 & _).
  split; [exact H1|]. split; [by vm_compute|]. intros Hn. apply H2 in Hn as [Hn _]. by vm_compute in Hn.
Defined.

End LoanPool.
