(* ===== verification/ShmBroker.v ===== *)
(** * Names and regions of shared memory

    Models [lib/plexus-shm/include/plexus/shm/region_naming.h] and the POSIX broker of
    [backends/plexus-native]: [src/posix_shm_region_broker.cpp], [include/plexus/native/shm_error.h]
    and [src/region_handle.cpp].

    The system is the table of object names with the objects behind them; an object lives on while it
    is mapped, also without a name.  What a system call answers besides is a list of faults, one for
    each call of the broker.  A call of the broker is one step.  Of the contents of an object only the
    ring header is kept, which the system makes zero. *)

From Stdlib Require Import String.
From S2P Require Import Prelude Hash History Announcement ShmRing.

(** ** [region_naming.h] *)

Inductive ring_direction := dir_request | dir_response.
#[global] Instance ring_direction_eq_dec : EqDecision ring_direction.
Proof. solve_decision. Defined.
#[global] Instance ring_direction_countable : Countable ring_direction.
Proof. refine (inj_countable' (fun d => bool_decide (d = dir_request)) (fun b : bool => if b then dir_request else dir_response) _). by intros []. Defined.

Fixpoint bare_hex_loop (i : nat) (h : Z) (out : bytes) : bytes :=
  match i with
  | O => out
  | S i => bare_hex_loop i (Z.shiftr h 4) (<[i := Discovery.hex_char (Z.land h 0xf)]> out)
  end.
Definition bare_hex (h : Z) : bytes := bare_hex_loop 16 h (replicate 16 Byte.x30).

Definition region_name_for (fqn : bytes) (direction : ring_direction) (region_ns : bytes) : bytes :=
  if bool_decide (region_ns = []) && bool_decide (direction = dir_request) then bare_hex (fqn_topic_hash fqn) else
  let keyed := if bool_decide (region_ns = []) then [] else region_ns ++ [Byte.x1f] in
  let keyed := keyed ++ fqn in
  let keyed := match direction with dir_response => keyed ++ [Byte.x1f] ++ text "response" | dir_request => keyed end in
  bare_hex (fqn_topic_hash keyed).

Module Broker.

(** ** [region_broker_concept.h], [shm_error.h] *)

Inductive region_status := rs_ok | rs_already_exists | rs_not_found | rs_denied | rs_too_large | rs_incompatible | rs_failed.
#[global] Instance region_status_eq_dec : EqDecision region_status.
Proof. solve_decision. Defined.

Inductive shm_error := se_ok | se_name_invalid | se_already_exists | se_not_found | se_permission_denied | se_no_space | se_map_failed | se_unknown.

Inductive errno := EEXIST | ENOENT | EACCES | EPERM | ENOSPC | EINVAL | ENAMETOOLONG | EOTHER.
#[global] Instance errno_eq_dec : EqDecision errno.
Proof. solve_decision. Defined.

Definition map_errno (e : errno) : shm_error :=
  match e with
  | EEXIST => se_already_exists
  | ENOENT => se_not_found
  | EACCES | EPERM => se_permission_denied
  | ENOSPC => se_no_space
  | EINVAL | ENAMETOOLONG => se_name_invalid
  | EOTHER => se_unknown
  end.

Definition to_status (e : shm_error) : region_status :=
  match e with
  | se_ok => rs_ok
  | se_already_exists => rs_already_exists
  | se_not_found => rs_not_found
  | se_permission_denied => rs_denied
  | se_no_space | se_name_invalid | se_map_failed | se_unknown => rs_failed
  end.

(** ** The system *)

(** The platform the broker is compiled for, and its page size. *)
Class Posix : Type := { apple : bool; page_size : Z; page_bounds : 0 < page_size <= 2 ^ 30 }.

Definition blank_header : control_config := ControlConfig 0 0 0 0 0.
Record inode : Type := Inode { i_size : Z; i_header : control_config }.

(** What the calls of one broker operation answer, if not what the names say. *)
Record fault : Type := Fault {
  f_open : option errno;
  f_reopen : option errno;
  f_truncate : option errno;
  f_stat : option errno;
  f_map : bool;
}.
Definition no_fault : fault := Fault None None None None false.

Record os : Type := Os {
  o_names : gmap bytes nat;
  o_inodes : gmap nat inode;
  o_next : nat;
  o_faults : list fault;
}.

Definition with_names (o : os) (names : gmap bytes nat) : os := Os names (o_inodes o) (o_next o) (o_faults o).
Definition with_inodes (o : os) (inodes : gmap nat inode) : os := Os (o_names o) inodes (o_next o) (o_faults o).
Definition next_fault (o : os) : fault * os :=
  match o_faults o with [] => (no_fault, o) | f :: fs => (f, Os (o_names o) (o_inodes o) (o_next o) fs) end.

(** [shm_open] with [O_CREAT | O_EXCL], and without. *)
Definition shm_open_create (failure : option errno) (canonical : bytes) (o : os) : (errno + nat) * os :=
  match failure, o_names o !! canonical with
  | Some e, _ => (inl e, o)
  | None, Some _ => (inl EEXIST, o)
  | None, None =>
      let fd := o_next o in
      (inr fd, Os (<[canonical := fd]> (o_names o)) (<[fd := Inode 0 blank_header]> (o_inodes o)) (S fd) (o_faults o))
  end.
Definition shm_open (failure : option errno) (canonical : bytes) (o : os) : errno + nat :=
  match failure, o_names o !! canonical with
  | Some e, _ => inl e
  | None, Some fd => inr fd
  | None, None => inl ENOENT
  end.
Definition shm_unlink (canonical : bytes) (o : os) : os := with_names o (delete canonical (o_names o)).
Definition ftruncate (fd : nat) (length : Z) (o : os) : os := with_inodes o (alter (fun n => Inode length (i_header n)) fd (o_inodes o)).

(** ** [region_handle.cpp] *)

Record region_handle : Type := RegionHandle { rh_inode : option nat; rh_length : Z; rh_name : bytes; rh_owns_name : bool }.
Definition no_region : region_handle := RegionHandle None 0 [] false.

(** The destructor. *)
Definition reclaim (h : region_handle) (o : os) : os := if rh_owns_name h then shm_unlink (rh_name h) o else o.

(** ** [posix_shm_region_broker.cpp] *)

Section Posix.
Context `{Posix}.

Definition k_name_max : Z := if apple then 30 else 255.
Definition k_canonical_prefix : bytes := text "/plexus.".
Definition k_max_region_size : Z := 2 ^ 30.

Definition sanitize_region_name (logical : bytes) : shm_error * bytes :=
  if bool_decide (logical = []) then (se_name_invalid, []) else
  if bool_decide (Byte.x2f ∈ logical) then (se_name_invalid, []) else
  let canonical := k_canonical_prefix ++ logical in
  if zlen canonical - 1 >? k_name_max then (se_name_invalid, []) else
  (se_ok, canonical).

Definition open_create_excl (f : fault) (canonical : bytes) (unlink_stale : bool) (o : os) : (errno + nat) * os :=
  match shm_open_create (f_open f) canonical o with
  | (inl EEXIST, o) =>
      if unlink_stale then shm_open_create (f_reopen f) canonical (shm_unlink canonical o) else (inl EEXIST, o)
  | r => r
  end.

Definition page_round_up (n : Z) : Z := wrap 64 (wrap 64 (n + page_size - 1) / page_size * page_size).

Definition finish_create (f : fault) (fd : nat) (length : Z) (canonical : bytes) (o : os) : region_status * region_handle * os :=
  match f_truncate f with
  | Some e => (to_status (map_errno e), no_region, shm_unlink canonical o)
  | None =>
      let o := ftruncate fd length o in
      if f_map f then (to_status se_map_failed, no_region, shm_unlink canonical o) else
      (rs_ok, RegionHandle (Some fd) length canonical true, o)
  end.

(** [out] is an empty handle at every call. *)
Definition create (name : bytes) (bytes : Z) (unlink_stale_on_create : bool) (o : os) : region_status * region_handle * os :=
  let '(f, o) := next_fault o in
  if bytes =? 0 then (rs_failed, no_region, o) else
  if bytes >? k_max_region_size then (rs_too_large, no_region, o) else
  match sanitize_region_name name with
  | (se_ok, canonical) =>
      match open_create_excl f canonical unlink_stale_on_create o with
      | (inl e, o) => (to_status (map_errno e), no_region, o)
      | (inr fd, o) => finish_create f fd (page_round_up bytes) canonical o
      end
  | (status, _) => (to_status status, no_region, o)
  end.

(** A mapping of no bytes fails. *)
Definition finish_attach (f : fault) (fd : nat) (canonical : bytes) (o : os) : region_status * region_handle :=
  match f_stat f with
  | Some e => (to_status (map_errno e), no_region)
  | None =>
      let length := from_option i_size 0 (o_inodes o !! fd) in
      if f_map f || (length =? 0) then (to_status se_map_failed, no_region) else
      (rs_ok, RegionHandle (Some fd) length canonical false)
  end.

Definition attach (policy : bytes -> bool) (name : bytes) (o : os) : region_status * region_handle * os :=
  let '(f, o) := next_fault o in
  match sanitize_region_name name with
  | (se_ok, canonical) =>
      if negb (policy canonical) then (rs_denied, no_region, o) else
      match shm_open (f_open f) canonical o with
      | inl e => (to_status (map_errno e), no_region, o)
      | inr fd => (finish_attach f fd canonical o, o)
      end
  | (status, _) => (to_status status, no_region, o)
  end.

(** ** Lemmas *)

Lemma hex_char_cases v : Discovery.hex_char v <> Byte.x2f.
Proof.
  unfold Discovery.hex_char. destruct (Discovery.digits !! Z.to_nat v) as [b|] eqn:Hb; [|by vm_compute].
  change (b <> Byte.x2f). apply list_elem_of_lookup_2 in Hb. intros ->. revert Hb. apply (bool_decide_eq_false_1 _). by vm_compute.
Qed.

Lemma bare_hex_loop_no_slash i : forall h out, Byte.x2f ∉ out -> Byte.x2f ∉ bare_hex_loop i h out.
Proof.
  induction i as [|i IH]; intros h out Hout; cbn [bare_hex_loop]; [done|]. apply IH.
  intros (j & Hj)%list_elem_of_lookup. destruct (decide (j = i)) as [->|Hne].
  - apply list_lookup_insert_Some in Hj as [(_ & Hc & _)|[? _] ]; [|done]. by apply hex_char_cases in Hc.
  - rewrite list_lookup_insert_ne in Hj by done. by apply list_elem_of_lookup_2, Hout in Hj.
Qed.

Lemma length_bare_hex_loop i : forall h out, length (bare_hex_loop i h out) = length out.
Proof. induction i as [|i IH]; intros h out; cbn [bare_hex_loop]; [done|]. by rewrite IH, length_insert. Qed.

Lemma region_name_shape fqn direction ns : exists h, region_name_for fqn direction ns = bare_hex h.
Proof. unfold region_name_for. case_match; eauto. Qed.

(** Every region name, with the suffix of a slab or without, is one the system takes, on both
    platforms. *)
Lemma region_names_are_valid fqn direction ns suffix : suffix = [] \/ suffix = text ".s" ->
  let name := region_name_for fqn direction ns ++ suffix in
  sanitize_region_name name = (se_ok, k_canonical_prefix ++ name).
Proof.
  intros Hs. cbv zeta. destruct (region_name_shape fqn direction ns) as [h ->].
  assert (length (bare_hex h) = 16%nat) as Hl by apply length_bare_hex_loop.
  assert (length suffix <= 2)%nat as Hl2 by (destruct Hs as [-> | ->]; cbn; lia).
  assert (Byte.x2f ∉ bare_hex h) as Hh by (apply bare_hex_loop_no_slash, (bool_decide_eq_false_1 _); by vm_compute).
  assert (Byte.x2f ∉ suffix) as Hsuf by (destruct Hs as [-> | ->]; apply (bool_decide_eq_false_1 _); by vm_compute).
  unfold sanitize_region_name. rewrite bool_decide_false by (intros E%(f_equal length); rewrite length_app, Hl in E; cbn in E; lia).
  rewrite bool_decide_false by (rewrite elem_of_app; tauto).
  rewrite Z.gtb_ltb, (proj2 (Z.ltb_ge _ _)); [done|]. unfold k_name_max, zlen. rewrite !length_app, Hl. change (length k_canonical_prefix) with 8%nat.
  destruct apple; lia.
Qed.

End Posix.
End Broker.
