(* ===== verification/ShmRegistry.v ===== *)
(** * The shared-memory transport around the ring

    Models [lib/plexus-shm/include/plexus/shm/]: [shm_acquire_result.h], [shm_topic_registry.h],
    [detail/shm_topic_open.h], [shm_mux_member.h], [detail/shm_mux_acquire.h], [shm_byte_channel.h],
    [shm_selection.h] and [shm_preference_hook.h], over the broker of [ShmBroker] and the rings of
    [ShmRing].

    An entry of the registry is an object with an identity; a channel of the member refers to the ring
    channel of an entry, and a use of the reference when the entry is gone is [None], as is a failed
    assertion of the geometry.  What a ring does with a message is [ShmRing.v]: here a send, with the
    status it returns, and a drain are events, and so are the calls of the notifier and the callbacks.
    The reference count is an [int], taken to be in its range; the error, drop and close callbacks of a
    channel are taken to be set. *)

From Stdlib Require Import String.
From S2P Require Import Prelude EventMonad Qos History Handshake Announcement ShmRing ShmTheorems ShmBroker UdpChannel UdpTransport Upgrade.

Module ShmRegistry.
Import Broker UdpDial.

(** ** [shm_acquire_result.h] *)

Inductive acquire_result := ar_created | ar_attached | ar_failed.
#[global] Instance acquire_result_eq_dec : EqDecision acquire_result.
Proof. solve_decision. Defined.

Inductive acquire_mode := reclaim_stale | join_live.
#[global] Instance acquire_mode_eq_dec : EqDecision acquire_mode.
Proof. solve_decision. Defined.

Inductive acquire_bound := bound_none | bound_slab_ceiling | bound_os_allocator.
Record acquire_failure : Type := AcquireFailure { af_bound : acquire_bound; af_ask_bytes : Z; af_limit_bytes : Z; af_broker : region_status }.
Definition no_failure : acquire_failure := AcquireFailure bound_none 0 0 rs_ok.

(** ** [shm_selection.h] *)

Inductive same_host_medium := medium_stream | medium_shm.
#[global] Instance same_host_medium_eq_dec : EqDecision same_host_medium.
Proof. solve_decision. Defined.

Definition select_same_host_medium (peer local : Z) (combined_hint : dispatch_hint) : same_host_medium :=
  if is_same_host peer local && hint_any_set combined_hint then medium_shm else medium_stream.
Definition route_message_medium (mode : ring_geometry_mode) (message_bytes capped_slot_capacity : Z) : same_host_medium :=
  if negb (bool_decide (mode = wire_fallback)) then medium_shm else
  if message_bytes <=? capped_slot_capacity then medium_shm else medium_stream.
Definition attempt_shm_upgrade (same_host : bool) (own_hint : dispatch_hint) : bool := same_host && hint_any_set own_hint.
Definition upgrade_ring_max_payload (direction : ring_direction) (publisher_max_payload : Z) : Z :=
  match direction with dir_request => publisher_max_payload | dir_response => 0 end.

(** ** The state *)

(** [struct entry]. *)
Record entry : Type := Entry {
  e_id : nat;
  e_control : region_handle;
  e_slab : region_handle;
  e_ring : broadcast_ring;
  e_channel : bool;
  e_verdict : acquire_result;
  e_refcount : Z;
  e_creator : bool;
  e_sink : option nat;
}.

(** The part of an entry [topic_open_ring] fills in. *)
Record opening : Type := Opening { op_control : region_handle; op_slab : region_handle; op_ring : option broadcast_ring; op_creator : bool }.
Definition opening_new : opening := Opening no_region no_region None false.

(** [shm_provisioned] and [shm_geometry]. *)
Record shm_provisioned : Type := ShmProvisioned { sp_max_payload : Z; sp_mode : ring_geometry_mode; sp_consumer_capacity : Z }.
Record shm_geometry : Type := ShmGeometry { sg_max_consumers : Z; sg_mode : ring_geometry_mode }.

(** The registry and the member that owns it. *)
Record member : Type := Member {
  m_entries : gmap (bytes * ring_direction) entry;
  m_last_failure : acquire_failure;
  m_max_ring_slab_bytes : Z;
  m_region_ns : bytes;
  m_attach_policy : bytes -> bool;
  m_next_entry : nat;
  m_geometry : gmap bytes shm_provisioned;
  m_has_accepted_cb : bool;
  m_has_dialed_cb : bool;
  m_has_dial_failed_cb : bool;
}.

Definition member_new (ns : bytes) (policy : bytes -> bool) (accepted dialed failed : bool) : member :=
  Member ∅ no_failure k_max_ring_slab_bytes ns policy 0 ∅ accepted dialed failed.

(** A process with its member, and the system it shares with the others. *)
Record machine : Type := Machine { k_member : member; k_os : os }.

Definition with_os (o : os) (s : machine) : machine := Machine (k_member s) o.
Definition with_member (f : member -> member) (s : machine) : machine := Machine (f (k_member s)) (k_os s).
Definition with_entries (f : gmap (bytes * ring_direction) entry -> gmap (bytes * ring_direction) entry) (m : member) : member :=
  Member (f (m_entries m)) (m_last_failure m) (m_max_ring_slab_bytes m) (m_region_ns m) (m_attach_policy m) (m_next_entry m)
    (m_geometry m) (m_has_accepted_cb m) (m_has_dialed_cb m) (m_has_dial_failed_cb m).
Definition with_failure (f : acquire_failure) (m : member) : member :=
  Member (m_entries m) f (m_max_ring_slab_bytes m) (m_region_ns m) (m_attach_policy m) (m_next_entry m)
    (m_geometry m) (m_has_accepted_cb m) (m_has_dialed_cb m) (m_has_dial_failed_cb m).
Definition with_next_entry (n : nat) (m : member) : member :=
  Member (m_entries m) (m_last_failure m) (m_max_ring_slab_bytes m) (m_region_ns m) (m_attach_policy m) n
    (m_geometry m) (m_has_accepted_cb m) (m_has_dialed_cb m) (m_has_dial_failed_cb m).
Definition with_geometry (g : gmap bytes shm_provisioned) (m : member) : member :=
  Member (m_entries m) (m_last_failure m) (m_max_ring_slab_bytes m) (m_region_ns m) (m_attach_policy m) (m_next_entry m)
    g (m_has_accepted_cb m) (m_has_dialed_cb m) (m_has_dial_failed_cb m).
Definition set_max_ring_slab_bytes (b : Z) (m : member) : member :=
  Member (m_entries m) (m_last_failure m) b (m_region_ns m) (m_attach_policy m) (m_next_entry m)
    (m_geometry m) (m_has_accepted_cb m) (m_has_dialed_cb m) (m_has_dial_failed_cb m).

Inductive event :=
| NotifierArmed (entry : nat)
| NotifierDisarmed (entry : nat)
| RingDrained (entry : nat) (sink : option nat)
| RingSend (entry : nat) (payload : bytes)
| ChannelError (e : io_error)
| ChannelDrop
| ChannelClosed
| ChannelDrained (entry : nat)
| DialFailed (ep : io_endpoint) (e : io_error)
| HandedDialed (ep : io_endpoint)
| HandedAccepted.

Definition act (A : Type) : Type := prog machine event A.

(** A call of the broker. *)
Definition on_os {A} (f : os -> A * os) : act A := fun s => let '(x, o) := f (k_os s) in Some (x, [], with_os o s).

Section Posix.
Context `{Posix}.

(** ** [shm_topic_open.h] *)

(** [broadcast_ring::create] on regions of the given sizes: its checks, the ring it binds and the
    header it writes. *)
Definition ring_create (control_size slab_size cell_count slot_capacity consumer_capacity : Z) : option (broadcast_ring * control_config) :=
  if negb (is_power_of_two cell_count) || (slot_capacity =? 0) then None else
  if (consumer_capacity =? 0) || (consumer_capacity >? k_max_consumers) then None else
  if (control_size <? control_region_bytes cell_count) || (slab_size <? slab_region_bytes cell_count slot_capacity) then None else
  Some (bind cell_count slot_capacity (cell_count - 1) consumer_capacity,
        ControlConfig k_ring_magic cell_count slot_capacity (cell_count - 1) consumer_capacity).

Definition topic_region_exists (ctrl_name : bytes) : act bool :=
  s ← gets k_member;
  '(status, probe) ← on_os (attach (m_attach_policy s) ctrl_name);
  on_os (fun o => (tt, reclaim probe o)) ;;
  mret (bool_decide (status = rs_ok)).

Definition fail_os (ask : Z) (status : region_status) : act unit :=
  modify (with_member (with_failure (AcquireFailure bound_os_allocator ask 0 status))).

Definition write_header (fd : option nat) (h : control_config) (o : os) : os :=
  match fd with Some fd => with_inodes o (alter (fun n => Inode (i_size n) h) fd (o_inodes o)) | None => o end.

Definition topic_mint (e : opening) (slab_name : bytes) (geom : ring_geometry) (consumer_capacity : Z) : act (acquire_result * opening) :=
  let ask := slab_region_bytes (g_cell_count geom) (g_slot_capacity geom) in
  '(cs, slab) ← on_os (create slab_name ask true);
  let e := Opening (op_control e) slab None false in
  if negb (bool_decide (cs = rs_ok)) then fail_os ask cs ;; mret (ar_failed, e) else
  match ring_create (rh_length (op_control e)) (rh_length slab) (g_cell_count geom) (g_slot_capacity geom) consumer_capacity with
  | None => mret (ar_failed, e)
  | Some (ring, header) =>
      on_os (fun o => (tt, write_header (rh_inode (op_control e)) header o)) ;;
      mret (ar_created, Opening (op_control e) slab (Some ring) true)
  end.

Definition header_of (h : region_handle) (o : os) : control_config :=
  default blank_header (fd ← rh_inode h; i_header <$> o_inodes o !! fd).

Definition topic_join (e : opening) (ctrl_name slab_name : bytes) : act (acquire_result * opening) :=
  s ← gets k_member;
  '(cs, control) ← on_os (attach (m_attach_policy s) ctrl_name);
  let e := Opening control (op_slab e) None false in
  if negb (bool_decide (cs = rs_ok)) then mret (ar_failed, e) else
  '(ss, slab) ← on_os (attach (m_attach_policy s) slab_name);
  let e := Opening control slab None false in
  if negb (bool_decide (ss = rs_ok)) then mret (ar_failed, e) else
  o ← gets k_os;
  match attach_ring (rh_length control) (rh_length slab) (header_of control o) with
  | (st_ok, Some ring) => mret (ar_attached, Opening control slab (Some ring) false)
  | _ => mret (ar_failed, e)
  end.

Definition topic_open_ring (e : opening) (fqn : bytes) (direction : ring_direction) (max_payload : Z) (mode : ring_geometry_mode)
    (consumer_capacity : Z) (amode : acquire_mode) : act (acquire_result * opening) :=
  s ← gets k_member;
  let ctrl_name := region_name_for fqn direction (m_region_ns s) in
  let slab_name := ctrl_name ++ text ".s" in
  let want := if max_payload =? 0 then None else Some max_payload in
  let capacity := if consumer_capacity =? 0 then k_max_consumers else consumer_capacity in
  geom ← lift (ring_geometry_for want mode consumer_capacity);
  let ask := slab_region_bytes (g_cell_count geom) (g_slot_capacity geom) in
  if ask >? m_max_ring_slab_bytes s
  then modify (with_member (with_failure (AcquireFailure bound_slab_ceiling ask (m_max_ring_slab_bytes s) rs_ok))) ;; mret (ar_failed, e)
  else
  exists_ ← (if bool_decide (amode = join_live) then topic_region_exists ctrl_name else mret false);
  if (exists_ : bool) then topic_join e ctrl_name slab_name else
  '(cs, control) ← on_os (create ctrl_name (control_region_bytes (g_cell_count geom)) (bool_decide (amode = reclaim_stale)));
  let e := Opening control (op_slab e) None false in
  match cs with
  | rs_ok => topic_mint e slab_name geom capacity
  | rs_already_exists => topic_join e ctrl_name slab_name
  | _ => fail_os (control_region_bytes (g_cell_count geom)) cs ;; mret (ar_failed, e)
  end.

(** ** [shm_topic_registry.h] *)

(** The destruction of the regions of an entry, in the reverse order of its members. *)
Definition destroy_regions (control slab : region_handle) : act unit := on_os (fun o => (tt, reclaim control (reclaim slab o))).

Definition acquire (fqn : bytes) (direction : ring_direction) (max_payload : Z) (mode : ring_geometry_mode) (consumer_capacity : Z)
    (amode : acquire_mode) : act acquire_result :=
  let k := (fqn, direction) in
  s ← gets k_member;
  match m_entries s !! k with
  | Some e =>
      modify (with_member (with_entries <[k := Entry (e_id e) (e_control e) (e_slab e) (e_ring e) (e_channel e) (e_verdict e)
        (e_refcount e + 1) (e_creator e) (e_sink e)]>)) ;;
      mret (e_verdict e)
  | None =>
      modify (with_member (with_failure no_failure)) ;;
      '(verdict, e) ← topic_open_ring opening_new fqn direction max_payload mode consumer_capacity amode;
      match verdict, op_ring e with
      | ar_failed, _ | _, None => destroy_regions (op_control e) (op_slab e) ;; mret ar_failed
      | _, Some ring =>
          s ← gets k_member;
          let id := m_next_entry s in
          modify (with_member (with_next_entry (S id))) ;;
          emit (NotifierArmed id) ;;
          modify (with_member (with_entries <[k := Entry id (op_control e) (op_slab e) ring true verdict 1 (op_creator e) None]>)) ;;
          mret verdict
      end
  end.

(** [teardown] and the destruction of the entry. *)
Definition teardown (e : entry) : act unit := emit (NotifierDisarmed (e_id e)) ;; destroy_regions (e_control e) (e_slab e).

Definition release (fqn : bytes) (direction : ring_direction) : act unit :=
  let k := (fqn, direction) in
  s ← gets k_member;
  match m_entries s !! k with
  | None => mret tt
  | Some e =>
      let n := e_refcount e - 1 in
      if n >? 0
      then modify (with_member (with_entries <[k := Entry (e_id e) (e_control e) (e_slab e) (e_ring e) (e_channel e) (e_verdict e) n
             (e_creator e) (e_sink e)]>))
      else teardown e ;; modify (with_member (with_entries (delete k)))
  end.

Definition with_sink (sink : option nat) (e : entry) : entry :=
  Entry (e_id e) (e_control e) (e_slab e) (e_ring e) (e_channel e) (e_verdict e) (e_refcount e) (e_creator e) sink.

Definition deliver_pending (e : entry) : act unit := if e_channel e then emit (RingDrained (e_id e) (e_sink e)) else mret tt.

Definition set_consumer_sink (fqn : bytes) (direction : ring_direction) (sink : nat) : act unit :=
  s ← gets k_member;
  match m_entries s !! (fqn, direction) with
  | None => mret tt
  | Some e => modify (with_member (with_entries <[(fqn, direction) := with_sink (Some sink) e]>)) ;; deliver_pending (with_sink (Some sink) e)
  end.

Definition clear_consumer_sink (fqn : bytes) (direction : ring_direction) : act unit :=
  s ← gets k_member;
  match m_entries s !! (fqn, direction) with
  | None => mret tt
  | Some e => modify (with_member (with_entries <[(fqn, direction) := with_sink None e]>))
  end.

Definition channel_for (fqn : bytes) (direction : ring_direction) : act (option nat) :=
  s ← gets k_member;
  mret (e ← m_entries s !! (fqn, direction); if e_channel e then Some (e_id e) else None).

(** [drain_channels] with the discarding sink, in the order of the table. *)
Definition drain : act unit :=
  s ← gets k_member;
  each (fun '(_, e) => if e_channel e then emit (RingDrained (e_id e) None) else mret tt) (map_to_list (m_entries s)).

(** [~shm_topic_registry]. *)
Definition teardown_all : act unit :=
  s ← gets k_member;
  each (fun '(_, e) => teardown e) (map_to_list (m_entries s)) ;;
  modify (with_member (with_entries (fun _ => ∅))).

Definition live_count (m : member) : nat := size (m_entries m).

(** The drain that was armed for the entry [id], when the executor runs it.  The closure a notifier
    posts checks by value the liveness token that [disarm] clears ([drain_post] of the notifiers of
    [backends/plexus-asio]), so one that outlives its entry does nothing. *)
Definition wake (fqn : bytes) (direction : ring_direction) (id : nat) : act unit :=
  s ← gets k_member;
  match m_entries s !! (fqn, direction) with
  | None => mret tt
  | Some e => if (e_id e =? id)%nat then deliver_pending e else mret tt
  end.

(** ** [shm_byte_channel.h] *)

Record byte_channel : Type := ByteChannel {
  bc_fqn : bytes;
  bc_entry : nat;
  bc_remote : io_endpoint;
  bc_released : bool;
  bc_has_data_cb : bool;
}.

(** A use of the reference to the ring channel. *)
Definition deref (c : byte_channel) : act entry :=
  s ← gets k_member;
  lift (e ← m_entries s !! (bc_fqn c, dir_request); if (e_id e =? bc_entry c)%nat then Some e else None).

Definition byte_send (c : byte_channel) (payload : bytes) (st : loan_status) : act unit :=
  e ← deref c;
  emit (RingSend (e_id e) payload) ;;
  match st with
  | st_rejected => emit (ChannelError err_message_too_large) ;; emit ChannelDrop
  | st_congested => emit (ChannelError err_would_block) ;; emit ChannelDrop
  | _ => mret tt
  end.

Definition byte_close (c : byte_channel) : act byte_channel :=
  if bc_released c then mret c else
  release (bc_fqn c) dir_request ;;
  emit ChannelClosed ;;
  mret (ByteChannel (bc_fqn c) (bc_entry c) (bc_remote c) true (bc_has_data_cb c)).

Definition byte_destroy (c : byte_channel) : act unit := if bc_released c then mret tt else release (bc_fqn c) dir_request.

Definition byte_pump (c : byte_channel) : act unit :=
  if negb (bc_has_data_cb c) then mret tt else
  e ← deref c; emit (ChannelDrained (e_id e)).

Definition byte_on_data (c : byte_channel) : act byte_channel :=
  let c := ByteChannel (bc_fqn c) (bc_entry c) (bc_remote c) (bc_released c) true in
  byte_pump c ;; mret c.

(** [~shm_companion_consumer]. *)
Definition consumer_destroy (fqn : bytes) : act unit := clear_consumer_sink fqn dir_request ;; release fqn dir_request.

(** ** [shm_mux_acquire.h] and [shm_mux_member.h] *)

Definition mux_resolve (m : member) (fqn : bytes) (direction : ring_direction) : shm_provisioned :=
  match m_geometry m !! fqn with
  | None => ShmProvisioned (upgrade_ring_max_payload direction 0) reliable_preserving 0
  | Some p => ShmProvisioned (upgrade_ring_max_payload direction (sp_max_payload p)) (sp_mode p) (sp_consumer_capacity p)
  end.

Definition acquire_resolved (fqn : bytes) (amode : acquire_mode) : act acquire_result :=
  s ← gets k_member;
  let g := mux_resolve s fqn dir_request in
  acquire fqn dir_request (sp_max_payload g) (sp_mode g) (sp_consumer_capacity g) amode.

Definition mux_open (ep : io_endpoint) (amode : acquire_mode) : act (option byte_channel) :=
  let fqn := ep_address ep in
  ch ← channel_for fqn dir_request;
  ch ← match ch with
       | Some ch => mret (Some ch)
       | None =>
           v ← acquire_resolved fqn amode;
           if bool_decide (v = ar_failed) then mret None else channel_for fqn dir_request
       end;
  mret ((fun id => ByteChannel fqn id ep false false) <$> ch).

(** A channel that no callback takes is destroyed. *)
Definition listen (ep : io_endpoint) : act (option byte_channel) :=
  ch ← mux_open ep reclaim_stale;
  s ← gets k_member;
  match ch with
  | None => mret None
  | Some c => if m_has_accepted_cb s then emit HandedAccepted ;; mret (Some c) else byte_destroy c ;; mret None
  end.

Definition dial (ep : io_endpoint) : act (option byte_channel) :=
  ch ← mux_open ep reclaim_stale;
  s ← gets k_member;
  match ch with
  | None => (if m_has_dial_failed_cb s then emit (DialFailed ep err_connection_refused) else mret tt) ;; mret None
  | Some c => if m_has_dialed_cb s then emit (HandedDialed ep) ;; mret (Some c) else byte_destroy c ;; mret None
  end.

Definition can_acquire (ep : io_endpoint) : act bool :=
  s ← gets k_member;
  let g := mux_resolve s (ep_address ep) dir_request in
  if bool_decide (sp_mode g = wire_fallback) then mret false else
  v ← acquire (ep_address ep) dir_request (sp_max_payload g) (sp_mode g) (sp_consumer_capacity g) reclaim_stale;
  mret (negb (bool_decide (v = ar_failed))).

Definition abandon (ep : io_endpoint) : act unit := release (ep_address ep) dir_request.

Definition mint_companion (fqn : bytes) : act (option byte_channel) := mux_open (IoEndpoint (text "shm") fqn) join_live.

(** [true]: a consumer handle was made. *)
Definition mint_receive_companion (fqn : bytes) (on_frame : nat) : act bool :=
  v ← acquire_resolved fqn join_live;
  if bool_decide (v = ar_failed) then mret false else
  set_consumer_sink fqn dir_request on_frame ;; mret true.

Definition set_topic_geometry (fqn : bytes) (effective_bytes : Z) (geom : shm_geometry) (m : member) : member :=
  with_geometry (<[fqn := ShmProvisioned (wrap 32 effective_bytes) (sg_mode geom) (sg_max_consumers geom)]> (m_geometry m)) m.

(** The mode and the slot capacity; [None] when the geometry's assertion fails. *)
Definition resolved_geometry_for (m : member) (fqn : bytes) : option (ring_geometry_mode * Z) :=
  match m_geometry m !! fqn with
  | None => Some (reliable_preserving, 0)
  | Some p =>
      geom ← ring_geometry_for (Some (sp_max_payload p)) (sp_mode p) (sp_consumer_capacity p);
      Some (sp_mode p, g_slot_capacity geom)
  end.

Definition companion_route (m : member) (fqn : bytes) : option (Z -> bool) :=
  '(mode, cap) ← resolved_geometry_for m fqn;
  Some (fun size => bool_decide (route_message_medium mode size cap = medium_shm)).

(** ** [shm_preference_hook.h] *)

(** The scan of the candidates; [fallback] is the first stream, if one was seen. *)
Fixpoint prefer_loop (ep : io_endpoint) (candidates : list Mux.mux_candidate) (fallback : nat) (have_fallback : bool) : act nat :=
  match candidates with
  | [] => mret fallback
  | c :: cs =>
      if Mux.mc_local_fast_eligible c then
        ok ← can_acquire ep;
        if (ok : bool) then mret (Mux.mc_index c) else prefer_loop ep cs fallback have_fallback
      else if have_fallback then prefer_loop ep cs fallback have_fallback
      else prefer_loop ep cs (Mux.mc_index c) true
  end.

Definition prefer_upgradeable_hook (ep : io_endpoint) (candidates : list Mux.mux_candidate) : act nat :=
  match candidates with
  | [] => lift None
  | c :: _ => prefer_loop ep candidates (Mux.mc_index c) false
  end.

End Posix.
End ShmRegistry.
