(* ===== verification/ShmLifetime.v ===== *)
(** * Rings of a topic live as long as their users

    What the registry and the member of [ShmRegistry] promise: an entry lives exactly while somebody
    holds a reference to it, a channel never uses an entry that is gone as long as a further channel
    of a topic is opened only with a probe of its own, and a failed acquire leaves no name behind. *)

From Stdlib Require Import String.
From S2P Require Import Prelude EventMonad Qos History Announcement ShmRing ShmTheorems ShmBroker UdpChannel UdpTransport Upgrade ShmRegistry.

Module ShmLifetime.
Import Broker UdpDial ShmRegistry.

Section Posix.
Context `{Posix}.

(** ** The broker and the names *)

Lemma reclaim_names_mono h o1 o2 : o_names o1 ⊆ o_names o2 -> o_names (reclaim h o1) ⊆ o_names (reclaim h o2).
Proof. intros Hsub. unfold reclaim, shm_unlink. case_match; [|done]. cbn. by apply delete_mono. Qed.

Lemma next_fault_names o : o_names (next_fault o).2 = o_names o.
Proof. unfold next_fault. by case_match. Qed.

Lemma shm_open_create_names f c o : match shm_open_create f c o with
  | (inl _, o') => o_names o' = o_names o
  | (inr _, o') => delete c (o_names o') ⊆ o_names o
  end.
Proof.
  unfold shm_open_create. repeat case_match; simplify_eq; try done. cbn [o_names]. rewrite delete_insert_eq. apply delete_subseteq.
Qed.

Lemma open_create_excl_names f c u o : match open_create_excl f c u o with
  | (inl _, o') => o_names o' ⊆ o_names o
  | (inr _, o') => delete c (o_names o') ⊆ o_names o
  end.
Proof.
  unfold open_create_excl. pose proof (shm_open_create_names (f_open f) c o) as H1.
  destruct (shm_open_create (f_open f) c o) as [ [e|fd] o1]; [|done].
  assert (o_names o1 ⊆ o_names o) as Hsub by (by rewrite H1).
  destruct e; try done. destruct u; [|done].
  pose proof (shm_open_create_names (f_reopen f) c (shm_unlink c o1)) as H2.
  destruct (shm_open_create (f_reopen f) c (shm_unlink c o1)) as [ [e|fd] o2].
  - rewrite H2. cbn. transitivity (o_names o1); [apply delete_subseteq|done].
  - etransitivity; [exact H2|]. cbn. transitivity (o_names o1); [apply delete_subseteq|done].
Qed.

(** What a create puts under a name goes with its handle. *)
Lemma create_names name b u o : let '(st, h, o') := create name b u o in
  o_names (reclaim h o') ⊆ o_names o /\ (st <> rs_ok -> h = no_region).
Proof.
  unfold create. pose proof (next_fault_names o) as Hf. destruct (next_fault o) as [f o0]. cbn [snd] in Hf. rewrite <- Hf.
  destruct (b =? 0); [done|]. destruct (b >? k_max_region_size); [done|]. destruct (sanitize_region_name name) as [st c]. destruct st; try done.
  pose proof (open_create_excl_names f c u o0) as Ho. destruct (open_create_excl f c u o0) as [ [e|fd] o1]; [done|].
  unfold finish_create. destruct (f_truncate f); [done|]. by destruct (f_map f).
Qed.

Lemma attach_names policy name o : let '(st, h, o') := attach policy name o in
  o_names o' = o_names o /\ rh_owns_name h = false.
Proof.
  unfold attach. pose proof (next_fault_names o) as Hf. destruct (next_fault o) as [f o0]. cbn [snd] in Hf. rewrite <- Hf.
  destruct (sanitize_region_name name) as [st c]. destruct st; try done. destruct (negb (policy c)); [done|]. destruct (shm_open (f_open f) c o0); [done|].
  unfold finish_attach. destruct (f_stat f); [done|]. by destruct (_ || _).
Qed.

Lemma reclaim_attached h o : rh_owns_name h = false -> reclaim h o = o.
Proof. intros Hh. unfold reclaim. by rewrite Hh. Qed.

(** ** Acquiring *)

(** [s'] has the member of [s] but for the last failure. *)
Definition keeps_member (s s' : machine) : Prop := exists f, k_member s' = with_failure f (k_member s).

Lemma keeps_member_refl s : keeps_member s s.
Proof. exists (m_last_failure (k_member s)). by destruct s as [ []]. Qed.

Lemma keeps_member_trans s1 s2 s3 : keeps_member s1 s2 -> keeps_member s2 s3 -> keeps_member s1 s3.
Proof. intros [f Hf] [g Hg]. exists g. rewrite Hg, Hf. done. Qed.

(** The outcome of opening a ring: a ring unless it failed, and no name that stays after the
    regions are given back. *)
Definition opened (s : machine) (r : acquire_result * opening) (evs : list event) (s' : machine) : Prop :=
  evs = [] /\ keeps_member s s' /\ (r.1 <> ar_failed -> is_Some (op_ring r.2)) /\
  o_names (reclaim (op_control r.2) (reclaim (op_slab r.2) (k_os s'))) ⊆ o_names (k_os s).

Lemma wp_on_os {A B} (f : os -> A * os) (k : A -> act B) Q s :
  wp (k (f (k_os s)).1) Q (with_os (f (k_os s)).2 s) -> wp (on_os f ≫= k) Q s.
Proof.
  intros (y & e & s' & Hk & HQ). exists y, e, s'. split; [|done]. unfold mbind, prog_bind, on_os.
  destruct (f (k_os s)) as [x o]. cbn [fst snd] in Hk. by rewrite Hk.
Qed.

Lemma topic_mint_opened s0 s e slab_name geom cap : keeps_member s0 s -> op_slab e = no_region ->
  o_names (reclaim (op_control e) (k_os s)) ⊆ o_names (k_os s0) ->
  wp (topic_mint e slab_name geom cap) (opened s0) s.
Proof.
  intros Hm Hslab Hn. unfold topic_mint. apply wp_on_os.
  pose proof (create_names slab_name (slab_region_bytes (g_cell_count geom) (g_slot_capacity geom)) true (k_os s)) as Hc.
  destruct (create _ _ _ _) as [ [cs slab] o1]. destruct Hc as [Hc _]. cbn [fst snd].
  assert (o_names (reclaim (op_control e) (reclaim slab o1)) ⊆ o_names (k_os s0)) as Hr
    by (etransitivity; [apply reclaim_names_mono, Hc|exact Hn]).
  case_bool_decide; cbn [negb].
  - cbn [op_control]. destruct (ring_create _ _ _ _ _) as [ [ring header]|].
    + apply wp_on_os. apply wp_ret. split; [done|]. split; [done|]. split; [by eexists|]. cbn [snd op_control op_slab k_os with_os fst].
      unfold write_header. case_match; [|done]. unfold reclaim, shm_unlink in *. repeat case_match; exact Hr.
    + apply wp_ret. split_and!; [done|done|done|exact Hr].
  - apply wp_bind, wp_modify. cbn beta. apply wp_ret. split_and!; [done| |done|exact Hr].
    destruct Hm as [f Hm]. eexists. cbn. rewrite Hm. done.
Qed.

Lemma topic_join_opened s0 s e ctrl slab_name : keeps_member s0 s -> op_slab e = no_region -> o_names (k_os s) ⊆ o_names (k_os s0) ->
  wp (topic_join e ctrl slab_name) (opened s0) s.
Proof.
  intros Hm Hslab Hn. unfold topic_join. apply wp_bind_gets. apply wp_on_os.
  pose proof (attach_names (m_attach_policy (k_member s)) ctrl (k_os s)) as Hc. destruct (attach _ ctrl _) as [ [cs control] o1]. destruct Hc as [Hc1 Hc2]. cbn [fst snd].
  case_bool_decide; cbn [negb].
  2: { apply wp_ret. split_and!; [done|done|done|]. cbn [snd op_control op_slab]. rewrite Hslab, (reclaim_attached control) by done. cbn. by rewrite Hc1. }
  apply wp_on_os.
  pose proof (attach_names (m_attach_policy (k_member s)) slab_name o1) as Hs. cbn [k_os with_os]. destruct (attach _ slab_name _) as [ [ss slab] o2]. destruct Hs as [Hs1 Hs2]. cbn [fst snd].
  assert (o_names (reclaim control (reclaim slab o2)) ⊆ o_names (k_os s0)) as Hr
    by (rewrite (reclaim_attached slab), (reclaim_attached control), Hs1, Hc1 by done; done).
  case_bool_decide; cbn [negb].
  2: { apply wp_ret. split_and!; [done|done|done|]. exact Hr. }
  apply wp_bind_gets. cbn [k_os with_os].
  destruct (attach_ring _ _ _) as [ [] [ring|] ]; apply wp_ret; (split_and!; [done|done|by eauto|exact Hr]).
Qed.

Lemma topic_open_ring_opened s fqn dir max_payload mode cap amode :
  is_Some (ring_geometry_for (if max_payload =? 0 then None else Some max_payload) mode cap) ->
  wp (topic_open_ring opening_new fqn dir max_payload mode cap amode) (opened s) s.
Proof.
  intros [geom Hg]. unfold topic_open_ring. apply wp_bind_gets. rewrite Hg. apply wp_bind_lift.
  destruct (_ >? m_max_ring_slab_bytes _).
  { apply wp_bind, wp_modify. cbn beta. apply wp_ret. split_and!; [done|by eexists|done|done]. }
  apply wp_bind.
  assert (wp (if bool_decide (amode = join_live) then topic_region_exists (region_name_for fqn dir (m_region_ns (k_member s))) else mret false)
    (fun _ evs s1 => evs = [] /\ k_member s1 = k_member s /\ o_names (k_os s1) = o_names (k_os s)) s) as Hex.
  { case_bool_decide; [|by apply wp_ret]. unfold topic_region_exists. apply wp_bind_gets. apply wp_on_os.
    pose proof (attach_names (m_attach_policy (k_member s)) (region_name_for fqn dir (m_region_ns (k_member s))) (k_os s)) as Hc.
    destruct (attach _ _ _) as [ [cs probe] o1]. destruct Hc as [Hc1 Hc2]. cbn [fst snd]. apply wp_on_os. cbn [fst snd]. apply wp_ret. split_and!; [done|done|].
    cbn. by rewrite reclaim_attached. }
  eapply wp_mono; [exact Hex|]. cbn beta. intros ex evs s1 (-> & Hm & Hn). cbn [app].
  assert (keeps_member s s1) as Hk by (unfold keeps_member; rewrite Hm; apply keeps_member_refl).
  destruct ex; [by apply topic_join_opened; [..|rewrite Hn]|].
  apply wp_on_os.
  pose proof (create_names (region_name_for fqn dir (m_region_ns (k_member s))) (control_region_bytes (g_cell_count geom)) (bool_decide (amode = reclaim_stale)) (k_os s1)) as Hc.
  destruct (create _ _ _ _) as [ [cs control] o1]. destruct Hc as [Hc Hno]. cbn [fst snd]. rewrite Hn in Hc.
  assert (forall f, wp (fail_os (control_region_bytes (g_cell_count geom)) f ;; mret (ar_failed, Opening control no_region None false)) (opened s) (with_os o1 s1)) as Hfail.
  { intros f. apply wp_bind, wp_modify. cbn beta. apply wp_ret. split_and!; [done| |done|exact Hc]. destruct Hk as [g Hk]. eexists. cbn. by rewrite Hk. }
  destruct cs; try apply Hfail.
  - by apply topic_mint_opened.
  - apply topic_join_opened; [done|done|]. by rewrite (Hno ltac:(done)) in Hc.
Qed.

(** ** The reference count *)

(** An entry in the table is referred to [n] times, and there is none when nobody refers to it. *)
Definition good (o : option entry) (n : Z) : Prop :=
  match o with
  | Some e => e_refcount e = n /\ 0 < n /\ e_channel e = true /\ e_verdict e <> ar_failed
  | None => n = 0
  end.

Definition entry_of (s : machine) (fqn : bytes) : option entry := m_entries (k_member s) !! (fqn, dir_request).

(** From [s] to [s'] the references to the ring of [fqn] change by [d] and nothing else does. *)
Record delta (s s' : machine) (fqn : bytes) (d : Z) : Prop := Delta {
  d_geometry : m_geometry (k_member s') = m_geometry (k_member s);
  d_other f : f <> fqn -> entry_of s' f = entry_of s f;
  d_here n : good (entry_of s fqn) n -> good (entry_of s' fqn) (n + d);
  d_same e e' : entry_of s fqn = Some e -> entry_of s' fqn = Some e' -> e_id e' = e_id e;
}.

Lemma delta_trans s1 s2 s3 fqn d1 d2 : is_Some (entry_of s2 fqn) -> delta s1 s2 fqn d1 -> delta s2 s3 fqn d2 -> delta s1 s3 fqn (d1 + d2).
Proof.
  intros [e2 He2] [Hg1 Ho1 Hh1 Hs1] [Hg2 Ho2 Hh2 Hs2]. constructor.
  - congruence.
  - intros f Hf. rewrite Ho2, Ho1; done.
  - intros n Hn. replace (n + (d1 + d2)) with (n + d1 + d2) by lia. auto.
  - intros e e' He He'. transitivity (e_id e2); eauto.
Qed.

Lemma delta_refl s fqn : delta s s fqn 0.
Proof. constructor; [done|done| |congruence]. intros n Hn. by rewrite Z.add_0_r. Qed.

(** A change of the entry of one topic. *)
Lemma delta_put s s' fqn e' d : m_geometry (k_member s') = m_geometry (k_member s) ->
  m_entries (k_member s') = <[(fqn, dir_request) := e']> (m_entries (k_member s)) ->
  (forall n, good (entry_of s fqn) n -> good (Some e') (n + d)) -> (forall e, entry_of s fqn = Some e -> e_id e' = e_id e) ->
  delta s s' fqn d.
Proof.
  intros Hg He Hgood Hid. unfold entry_of in *. constructor; [done| | |]; unfold entry_of; rewrite He.
  - intros f Hf. by rewrite lookup_insert_ne by congruence.
  - intros n Hn. rewrite lookup_insert_eq. auto.
  - intros e e1 H1 H2. rewrite lookup_insert_eq in H2. simplify_eq. auto.
Qed.

Lemma delta_drop s s' fqn e : m_geometry (k_member s') = m_geometry (k_member s) ->
  m_entries (k_member s') = delete (fqn, dir_request) (m_entries (k_member s)) ->
  entry_of s fqn = Some e -> e_refcount e - 1 <= 0 -> delta s s' fqn (-1).
Proof.
  intros Hg He Hs Hn. unfold entry_of in *. constructor; [done| | |]; unfold entry_of; rewrite He.
  - intros f Hf. by rewrite lookup_delete_ne by congruence.
  - intros n Hgood. rewrite Hs in Hgood. destruct Hgood as (? & ? & _). rewrite lookup_delete_eq. cbn. lia.
  - intros e0 e1 _ H2. by rewrite lookup_delete_eq in H2.
Qed.

Lemma acquire_delta s fqn max_payload mode cap amode n :
  is_Some (ring_geometry_for (if max_payload =? 0 then None else Some max_payload) mode cap) -> good (entry_of s fqn) n ->
  wp (acquire fqn dir_request max_payload mode cap amode) (fun v _ s' =>
    if decide (v = ar_failed) then delta s s' fqn 0 /\ entry_of s fqn = None /\ entry_of s' fqn = None
    else delta s s' fqn 1 /\ is_Some (entry_of s' fqn)) s.
Proof.
  intros Hg Hgood. unfold acquire. apply wp_bind_gets. fold (entry_of s fqn). destruct (entry_of s fqn) as [e|] eqn:He.
  - destruct Hgood as (Hn & Hpos & Hch & Hv). apply wp_bind, wp_modify. cbn beta. apply wp_ret. rewrite decide_False by done.
    split; [|by eexists; unfold entry_of; cbn; rewrite lookup_insert_eq].
    eapply delta_put; [reflexivity|reflexivity| |].
    + rewrite He. intros n' (? & ? & _). split_and!; cbn; [lia|lia|done|done].
    + intros e1 He1. rewrite He in He1. by simplify_eq.
  - apply wp_bind, wp_modify. cbn beta. set (s1 := with_member _ _). apply wp_bind.
    eapply wp_mono; [by apply (topic_open_ring_opened s1)|]. intros [v e] evs s2 (-> & [f Hm] & Hring & Hn). cbn [app].
    assert (m_geometry (k_member s2) = m_geometry (k_member s) /\ m_entries (k_member s2) = m_entries (k_member s)) as [Hg2 He2] by (by rewrite Hm).
    assert (forall m : machine, k_member m = k_member s2 -> delta s m fqn 0 /\ entry_of s fqn = None /\ entry_of m fqn = None) as Hfail.
    { intros m Hmm. assert (entry_of m fqn = None) as Hnone by (unfold entry_of in *; by rewrite Hmm, He2).
      split_and!; [|done|done]. constructor; [congruence| | |congruence].
      - intros f0 _. unfold entry_of. by rewrite Hmm, He2.
      - intros n0 Hn0. rewrite Hnone. rewrite He in Hn0. cbn in *. lia. }
    assert (v = ar_failed \/ exists ring, v <> ar_failed /\ op_ring e = Some ring) as [-> | (ring & Hv & Hr)].
    { destruct (decide (v = ar_failed)) as [?|Hv]; [by left|right]. destruct (Hring Hv) as [ring ?]. eauto. }
    + apply wp_on_os. apply wp_ret. rewrite decide_True by done. split_and!; [by apply Hfail|done|by apply Hfail].
    + rewrite Hr. destruct v; [| |done].
      all: apply wp_bind_gets, wp_bind_modify, wp_bind_emit, wp_bind_modify, wp_ret.
      all: rewrite decide_False by done.
      all: split; [|by eexists; unfold entry_of; cbn; rewrite lookup_insert_eq].
      all: eapply delta_put; [exact Hg2|cbn; by rewrite He2| |congruence].
      all: rewrite He; intros n0 Hn0; cbn in Hn0; split_and!; cbn; [lia|lia|done|done].
Qed.

Lemma release_delta s fqn n : good (entry_of s fqn) n -> is_Some (entry_of s fqn) ->
  wp (release fqn dir_request) (fun _ _ s' => delta s s' fqn (-1)) s.
Proof.
  intros Hgood [e He]. rewrite He in Hgood. destruct Hgood as (Hn & Hpos & Hch & Hv). unfold release. apply wp_bind_gets. fold (entry_of s fqn). rewrite He.
  rewrite Z.gtb_ltb. destruct (Z.ltb_spec 0 (e_refcount e - 1)).
  - apply wp_modify. eapply delta_put; [done|done| |].
    + rewrite He. intros n' (? & ? & _). split_and!; cbn; [lia|lia|done|done].
    + intros e1 He1. rewrite He in He1. by simplify_eq.
  - unfold teardown. apply wp_bind, wp_bind_emit. unfold destroy_regions; eexists _, _, _; split; [done|].
    apply wp_modify. by eapply delta_drop.
Qed.

(** A provision the ring has consumers for. *)
Definition provided (p : shm_provisioned) : Prop := 0 <= sp_consumer_capacity p <= k_max_consumers.
Definition provisioned (m : member) : Prop := forall fqn p, m_geometry m !! fqn = Some p -> provided p.

Lemma geometry_for_provided want mode cap : 0 <= cap <= k_max_consumers -> is_Some (ring_geometry_for want mode cap).
Proof.
  intros Hc. unfold k_max_consumers in Hc. assert (1 <= consumers_of cap <= 16) as Hcc by (unfold consumers_of, k_max_consumers; destruct (Z.eqb_spec cap 0); lia).
  destruct (geometry_tiers (default 0 want) mode (consumers_of cap) Hcc) as (cells & slot & Ht & _ & _ & Hmore & _). unfold ring_geometry_for.
  change (if cap =? 0 then k_max_consumers else cap) with (consumers_of cap). rewrite Ht. cbn [mbind option_bind g_cell_count g_slot_capacity].
  case_decide as Hm; [|by eexists]. rewrite Z.gtb_ltb, (proj2 (Z.ltb_lt _ _)) by auto. by eexists.
Qed.

Lemma resolved_provided m fqn : provisioned m -> provided (mux_resolve m fqn dir_request).
Proof.
  intros Hp. unfold mux_resolve. destruct (m_geometry m !! fqn) as [p|] eqn:Hg; [exact (Hp _ _ Hg)|]. unfold provided, k_max_consumers. cbn. lia.
Qed.

Lemma acquire_resolved_delta s fqn amode n : provisioned (k_member s) -> good (entry_of s fqn) n ->
  wp (acquire_resolved fqn amode) (fun v _ s' =>
    if decide (v = ar_failed) then delta s s' fqn 0 /\ entry_of s fqn = None /\ entry_of s' fqn = None
    else delta s s' fqn 1 /\ is_Some (entry_of s' fqn)) s.
Proof.
  intros Hp Hgood. unfold acquire_resolved. apply wp_bind_gets. eapply acquire_delta; [|done]. by apply geometry_for_provided, resolved_provided.
Qed.

(** What opening a channel does: it takes over the reference of a ring that is there, and acquires
    one otherwise. *)
Definition opens (s : machine) (fqn : bytes) (c : option byte_channel) (s' : machine) : Prop :=
  match c with
  | None => delta s s' fqn 0 /\ entry_of s fqn = None
  | Some c => bc_fqn c = fqn /\ bc_released c = false /\ (exists e, entry_of s' fqn = Some e /\ e_id e = bc_entry c) /\
      delta s s' fqn (if entry_of s fqn is Some _ then 0 else 1)
  end.

Lemma channel_for_entry s fqn n : good (entry_of s fqn) n -> wp (channel_for fqn dir_request) (fun ch evs s' => evs = [] /\ s' = s /\ ch = e_id <$> entry_of s fqn) s.
Proof.
  intros Hgood. unfold channel_for. apply wp_bind_gets, wp_ret. split_and!; [done|done|]. fold (entry_of s fqn).
  destruct (entry_of s fqn) as [e|]; [|done]. destruct Hgood as (_ & _ & Hc & _). cbn. by rewrite Hc.
Qed.

Lemma mux_open_opens s ep amode n : provisioned (k_member s) -> good (entry_of s (ep_address ep)) n ->
  wp (mux_open ep amode) (fun c _ s' => opens s (ep_address ep) c s') s.
Proof.
  intros Hp Hgood. unfold mux_open. set (fqn := ep_address ep) in *. apply wp_bind. eapply wp_mono; [by eapply channel_for_entry|]. intros ch evs s0 (-> & -> & ->).
  cbn [app]. destruct (entry_of s fqn) as [e|] eqn:He; cbn [fmap option_fmap option_map].
  - apply wp_bind_ret, wp_ret. cbn. rewrite He. split_and!; [done|done|by eauto|apply delta_refl].
  - apply wp_bind, wp_bind. eapply wp_mono; [eapply acquire_resolved_delta; [done|rewrite He; exact Hgood] |]. cbn beta. intros v evs s1 Hv.
    case_decide as Hf.
    + subst v. rewrite bool_decide_true by done. apply wp_ret, wp_ret. cbn. split; [by destruct Hv|done].
    + rewrite bool_decide_false by done. destruct Hv as [Hd [e1 He1] ]. eapply wp_mono; [eapply channel_for_entry, Hd; by rewrite He|].
      intros ch evs1 s2 (-> & -> & ->). apply wp_ret. rewrite He1. cbn. rewrite He. split_and!; [done|done|by eauto|done].
Qed.

(** ** Everybody who holds a reference *)

Inductive holder := HeldChannel (c : byte_channel) | HeldConsumer (fqn : bytes) | HeldProbe (fqn : bytes).

Definition holder_topic (h : holder) : option bytes :=
  match h with
  | HeldChannel c => if bc_released c then None else Some (bc_fqn c)
  | HeldConsumer fqn | HeldProbe fqn => Some fqn
  end.

(** The objects of a process that hold references: the channels and consumers the member handed
    out, and the probes that no dial has taken over. *)
Record world : Type := World { w_machine : machine; w_held : gmap nat holder; w_next : nat }.

Definition refs (held : gmap nat holder) (fqn : bytes) : nat := size (filter (fun ih => holder_topic ih.2 = Some fqn) held).

Lemma refs_insert held i h fqn : held !! i = None ->
  Z.of_nat (refs (<[i := h]> held) fqn) = Z.of_nat (refs held fqn) + (if decide (holder_topic h = Some fqn) then 1 else 0).
Proof.
  intros Hi. unfold refs. case_decide as Hh.
  - rewrite map_filter_insert_True by done. rewrite map_size_insert_None by (apply map_lookup_filter_None; by left). lia.
  - rewrite map_filter_insert_not' by (try done; by rewrite Hi). lia.
Qed.

Lemma refs_delete held i h fqn : held !! i = Some h ->
  Z.of_nat (refs (delete i held) fqn) = Z.of_nat (refs held fqn) - (if decide (holder_topic h = Some fqn) then 1 else 0).
Proof.
  intros Hi. rewrite <- (insert_delete_id held i h Hi) at 2. rewrite refs_insert by apply lookup_delete_eq. lia.
Qed.

Lemma refs_pos held i h fqn : held !! i = Some h -> holder_topic h = Some fqn -> (0 < refs held fqn)%nat.
Proof.
  intros Hi Hh. unfold refs. assert (size (filter (fun ih => holder_topic ih.2 = Some fqn) held) <> 0%nat); [|lia].
  intros H0%map_size_empty_inv. eapply (map_filter_empty_not_lookup (fun ih => holder_topic ih.2 = Some fqn) held i h H0); [exact Hh|done].
Qed.

Inductive op :=
| OpGeometry (fqn : bytes) (effective_bytes : Z) (geom : shm_geometry)
| OpCeiling (b : Z)
| OpProbe (ep : io_endpoint)
| OpAbandon (i : nat)
| OpDial (ep : io_endpoint) (probe : option nat)
| OpListen (ep : io_endpoint) (probe : option nat)
| OpMint (fqn : bytes) (probe : option nat)
| OpMintReceive (fqn : bytes) (on_frame : nat)
| OpSend (i : nat) (payload : bytes) (st : loan_status)
| OpOnData (i : nat)
| OpPump (i : nat)
| OpClose (i : nat)
| OpDestroy (i : nat)
| OpWake (fqn : bytes) (id : nat).

Definition hold (h : holder) (w : world) : world := World (w_machine w) (<[w_next w := h]> (w_held w)) (S (w_next w)).

(** A member operation, and the process after it. *)
Definition run {A} (m : act A) (w : world) : option (A * list event * world) :=
  '(x, evs, s) ← m (w_machine w); Some (x, evs, World s (w_held w) (w_next w)).

(** An opened channel takes over the reference of the probe it is opened with. *)
Definition open_with (m : act (option byte_channel)) (probe : option nat) (w : world) : option (world * list event) :=
  '(c, evs, w) ← run m w;
  let w := match probe with Some i => World (w_machine w) (delete i (w_held w)) (w_next w) | None => w end in
  Some (match c with Some c => hold (HeldChannel c) w | None => w end, evs).

Definition held_channel (w : world) (i : nat) : option byte_channel :=
  match w_held w !! i with Some (HeldChannel c) => Some c | _ => None end.

Definition step (w : world) (o : op) : option (world * list event) :=
  match o with
  | OpGeometry fqn b geom => Some (World (with_member (set_topic_geometry fqn b geom) (w_machine w)) (w_held w) (w_next w), [])
  | OpCeiling b => Some (World (with_member (set_max_ring_slab_bytes b) (w_machine w)) (w_held w) (w_next w), [])
  | OpProbe ep => '(ok, evs, w) ← run (can_acquire ep) w; Some (if (ok : bool) then hold (HeldProbe (ep_address ep)) w else w, evs)
  | OpAbandon i =>
      match w_held w !! i with
      | Some (HeldProbe fqn) =>
          '(_, evs, w) ← run (abandon (IoEndpoint (text "shm") fqn)) w;
          Some (World (w_machine w) (delete i (w_held w)) (w_next w), evs)
      | _ => None
      end
  | OpDial ep probe => open_with (dial ep) probe w
  | OpListen ep probe => open_with (listen ep) probe w
  | OpMint fqn probe => open_with (mint_companion fqn) probe w
  | OpMintReceive fqn on_frame =>
      '(ok, evs, w) ← run (mint_receive_companion fqn on_frame) w; Some (if (ok : bool) then hold (HeldConsumer fqn) w else w, evs)
  | OpSend i payload st => c ← held_channel w i; '(_, evs, w) ← run (byte_send c payload st) w; Some (w, evs)
  | OpPump i => c ← held_channel w i; '(_, evs, w) ← run (byte_pump c) w; Some (w, evs)
  | OpOnData i =>
      c ← held_channel w i; '(c, evs, w) ← run (byte_on_data c) w;
      Some (World (w_machine w) (<[i := HeldChannel c]> (w_held w)) (w_next w), evs)
  | OpClose i =>
      c ← held_channel w i; '(c, evs, w) ← run (byte_close c) w;
      Some (World (w_machine w) (<[i := HeldChannel c]> (w_held w)) (w_next w), evs)
  | OpDestroy i =>
      h ← w_held w !! i;
      '(_, evs, w) ← run (match h with HeldChannel c => byte_destroy c | HeldConsumer fqn => consumer_destroy fqn | HeldProbe _ => lift None end) w;
      Some (World (w_machine w) (delete i (w_held w)) (w_next w), evs)
  | OpWake fqn id => '(_, evs, w) ← run (wake fqn dir_request id) w; Some (w, evs)
  end.

(** A channel of a topic is opened with a probe of its own when the ring is there already. *)
Definition fresh_open (w : world) (fqn : bytes) (probe : option nat) : Prop :=
  match probe with Some i => w_held w !! i = Some (HeldProbe fqn) | None => entry_of (w_machine w) fqn = None end.

(** What the users of a member keep to: provisions the ring has consumers for, opens as above, no
    use of a handle they do not hold and no use of a channel after they closed it. *)
Definition allowed (w : world) (o : op) : Prop :=
  match o with
  | OpGeometry _ _ geom => 0 <= sg_max_consumers geom <= k_max_consumers
  | OpAbandon i => exists fqn, w_held w !! i = Some (HeldProbe fqn)
  | OpDial ep probe | OpListen ep probe => fresh_open w (ep_address ep) probe
  | OpMint fqn probe => fresh_open w fqn probe
  | OpSend i _ _ | OpOnData i | OpPump i => exists c, w_held w !! i = Some (HeldChannel c) /\ bc_released c = false
  | OpClose i => exists c, w_held w !! i = Some (HeldChannel c)
  | OpDestroy i => exists h, w_held w !! i = Some h /\ match h with HeldProbe _ => False | _ => True end
  | OpCeiling _ | OpProbe _ | OpMintReceive _ _ | OpWake _ _ => True
  end.

Definition world_new (ns : bytes) (policy : bytes -> bool) (accepted dialed failed : bool) (o : os) : world :=
  World (Machine (member_new ns policy accepted dialed failed) o) ∅ 0.

Inductive reachable : world -> Prop :=
| ReachNew ns policy accepted dialed failed o : reachable (world_new ns policy accepted dialed failed o)
| ReachStep w o w' evs : reachable w -> allowed w o -> step w o = Some (w', evs) -> reachable w'
(** Other processes change the system. *)
| ReachOther w o : reachable w -> reachable (World (with_os o (w_machine w)) (w_held w) (w_next w)).

(** ** The invariant *)

Record winv (w : world) : Prop := Winv {
  wi_refs fqn : good (entry_of (w_machine w) fqn) (Z.of_nat (refs (w_held w) fqn));
  wi_channels i c : w_held w !! i = Some (HeldChannel c) -> bc_released c = false ->
    exists e, entry_of (w_machine w) (bc_fqn c) = Some e /\ e_id e = bc_entry c;
  wi_fresh i : (w_next w <= i)%nat -> w_held w !! i = None;
  wi_geometry : provisioned (k_member (w_machine w));
}.

Lemma winv_new ns policy accepted dialed failed o : winv (world_new ns policy accepted dialed failed o).
Proof.
  constructor; cbn; try done; intros *; by rewrite lookup_empty.
Qed.

Lemma holder_entry w i h fqn : winv w -> w_held w !! i = Some h -> holder_topic h = Some fqn -> is_Some (entry_of (w_machine w) fqn).
Proof.
  intros Hw Hi Hh. pose proof (wi_refs w Hw fqn) as Hg. pose proof (refs_pos _ _ _ _ Hi Hh).
  destruct (entry_of (w_machine w) fqn); [by eexists|]. cbn in Hg. lia.
Qed.

(** The invariant after a change of the references to one topic that the holders account for. *)
Lemma winv_delta w s' fqn d held' next' : winv w -> delta (w_machine w) s' fqn d ->
  (forall f, Z.of_nat (refs held' f) = Z.of_nat (refs (w_held w) f) + (if decide (f = fqn) then d else 0)) ->
  (forall i c, held' !! i = Some (HeldChannel c) -> bc_released c = false ->
    (exists j c0, w_held w !! j = Some (HeldChannel c0) /\ bc_released c0 = false /\ bc_fqn c0 = bc_fqn c /\ bc_entry c0 = bc_entry c) \/
    (exists e, entry_of s' (bc_fqn c) = Some e /\ e_id e = bc_entry c)) ->
  (forall i, (next' <= i)%nat -> held' !! i = None) -> winv (World s' held' next').
Proof.
  intros Hw Hd Hrefs Hch Hfresh.
  assert (forall f, good (entry_of s' f) (Z.of_nat (refs held' f))) as Hgood.
  { intros f. rewrite Hrefs. case_decide as Hf; [subst; apply Hd, Hw|]. rewrite (d_other _ _ _ _ Hd) by done. rewrite Z.add_0_r. apply Hw. }
  constructor; cbn; [done| |done|].
  - intros i c Hi Hr. destruct (Hch i c Hi Hr) as [(j & c0 & Hj & Hr0 & Hfq & Hen)|?]; [|done].
    destruct (wi_channels w Hw j c0 Hj Hr0) as (e & He & Hid). rewrite Hfq, Hen in *.
    assert (holder_topic (HeldChannel c) = Some (bc_fqn c)) as Ht by (cbn; by rewrite Hr).
    pose proof (refs_pos _ _ _ _ Hi Ht). specialize (Hgood (bc_fqn c)).
    destruct (decide (bc_fqn c = fqn)) as [Hf|Hf]; [|rewrite (d_other _ _ _ _ Hd) by done; by eauto].
    destruct (entry_of s' (bc_fqn c)) as [e'|] eqn:He'; [|cbn in Hgood; lia].
    exists e'. split; [done|]. rewrite <- Hid. rewrite Hf in He, He'. by eapply d_same.
  - unfold provisioned. rewrite (d_geometry _ _ _ _ Hd). apply Hw.
Qed.

Lemma refs_replace held i h h' fqn : held !! i = Some h ->
  Z.of_nat (refs (<[i := h']> held) fqn) =
    Z.of_nat (refs held fqn) - (if decide (holder_topic h = Some fqn) then 1 else 0) + (if decide (holder_topic h' = Some fqn) then 1 else 0).
Proof. intros Hi. rewrite <- insert_delete_eq, refs_insert, (refs_delete held i h) by (done || apply lookup_delete_eq). lia. Qed.

Lemma refs_case (o : option bytes) fqn f d : o = Some fqn -> (if decide (o = Some f) then d else 0) = (if decide (f = fqn) then d else 0).
Proof. intros ->. repeat case_decide; congruence. Qed.

(** The machine after an operation that leaves the holders as they are. *)
Lemma winv_same w s' fqn : winv w -> delta (w_machine w) s' fqn 0 -> winv (World s' (w_held w) (w_next w)).
Proof.
  intros Hw Hd. eapply winv_delta; [done|done| | |apply Hw].
  - intros f. case_decide; lia.
  - intros i c Hi Hr. left. by exists i, c.
Qed.

(** A new holder takes the reference an operation acquired. *)
Lemma winv_hold w s' fqn h : winv w -> delta (w_machine w) s' fqn 1 -> holder_topic h = Some fqn ->
  (forall c, h = HeldChannel c -> exists e, entry_of s' (bc_fqn c) = Some e /\ e_id e = bc_entry c) ->
  winv (hold h (World s' (w_held w) (w_next w))).
Proof.
  intros Hw Hd Hh Hc. pose proof (wi_fresh w Hw (w_next w) ltac:(lia)) as Hn. eapply winv_delta; [done|done| | |]; cbn.
  - intros f. rewrite refs_insert by done. by rewrite (refs_case _ fqn).
  - intros i c Hi Hr. apply lookup_insert_Some in Hi as [[_ ->] | [_ Hi] ]; [right; by apply Hc|left; by exists i, c].
  - intros i Hi. rewrite lookup_insert_ne by lia. apply Hw. lia.
Qed.

(** A holder goes with its reference. *)
Lemma winv_drop w s' fqn i h : winv w -> w_held w !! i = Some h -> holder_topic h = Some fqn -> delta (w_machine w) s' fqn (-1) ->
  winv (World s' (delete i (w_held w)) (w_next w)).
Proof.
  intros Hw Hi Hh Hd. eapply winv_delta; [done|done| | |].
  - intros f. rewrite (refs_delete _ _ _ _ Hi), (refs_case _ fqn) by done. case_decide; lia.
  - intros j c [_ Hj]%lookup_delete_Some Hr. left. by exists j, c.
  - intros j Hj. apply lookup_delete_None. right. by apply Hw.
Qed.

(** A holder that has no reference goes. *)
Lemma winv_forget w i h : winv w -> w_held w !! i = Some h -> holder_topic h = None -> winv (World (w_machine w) (delete i (w_held w)) (w_next w)).
Proof.
  intros Hw Hi Hh. eapply (winv_delta _ _ [] 0); [done|apply delta_refl| | |].
  - intros f. rewrite (refs_delete _ _ _ _ Hi), Hh. repeat case_decide; (done || lia).
  - intros j c [_ Hj]%lookup_delete_Some Hr. left. by exists j, c.
  - intros j Hj. apply lookup_delete_None. right. by apply Hw.
Qed.

(** A channel takes over the reference of the probe it was opened with. *)
Lemma winv_take_over w s' fqn i c : winv w -> w_held w !! i = Some (HeldProbe fqn) -> delta (w_machine w) s' fqn 0 ->
  bc_fqn c = fqn -> bc_released c = false -> (exists e, entry_of s' fqn = Some e /\ e_id e = bc_entry c) ->
  winv (hold (HeldChannel c) (World s' (delete i (w_held w)) (w_next w))).
Proof.
  intros Hw Hi Hd Hf Hr He. pose proof (wi_fresh w Hw (w_next w) ltac:(lia)) as Hn.
  assert (delete i (w_held w) !! w_next w = None) as Hn' by (apply lookup_delete_None; by right).
  eapply winv_delta; [done|done| | |]; cbn.
  - intros f. rewrite refs_insert, (refs_delete _ _ _ _ Hi) by done. cbn. rewrite Hr, Hf. repeat case_decide; (congruence || lia).
  - intros j c' Hj Hr'. apply lookup_insert_Some in Hj as [[_ [= <-] ] | [_ Hj] ]; [right; by rewrite Hf|].
    apply lookup_delete_Some in Hj as [_ Hj]. left. by exists j, c'.
  - intros j Hj. rewrite lookup_insert_ne by lia. apply lookup_delete_None. right. apply Hw. lia.
Qed.

(** A held channel changes: its reference stays, or goes with its release. *)
Lemma winv_change w s' i c c' d : winv w -> w_held w !! i = Some (HeldChannel c) -> bc_released c = false ->
  bc_fqn c' = bc_fqn c -> bc_entry c' = bc_entry c -> delta (w_machine w) s' (bc_fqn c) d -> d = (if bc_released c' then -1 else 0) ->
  winv (World s' (<[i := HeldChannel c']> (w_held w)) (w_next w)).
Proof.
  intros Hw Hi Hr Hf He Hd ->. eapply winv_delta; [done|done| | |].
  - intros f. rewrite (refs_replace _ _ _ _ _ Hi). cbn. rewrite Hr, Hf. destruct (bc_released c'); repeat case_decide; (congruence || lia).
  - intros j c0 Hj Hr0. left. apply lookup_insert_Some in Hj as [[<- [= <-] ] | [_ Hj] ]; [by exists i, c|by exists j, c0].
  - intros j Hj. apply lookup_insert_None. split; [by apply Hw|]. intros <-. pose proof (wi_fresh w Hw i Hj). congruence.
Qed.

(** ** Every operation *)

(** What an open leaves: a channel with a reference, or none and no reference taken. *)
Definition opens_or_drops (s : machine) (fqn : bytes) (c : option byte_channel) (s' : machine) : Prop :=
  match c with
  | Some c => bc_fqn c = fqn /\ bc_released c = false /\ (exists e, entry_of s' fqn = Some e /\ e_id e = bc_entry c) /\
      delta s s' fqn (if entry_of s fqn is Some _ then 0 else 1)
  | None => delta s s' fqn (if entry_of s fqn is Some _ then -1 else 0)
  end.

Lemma opened_then_destroyed s fqn c s1 n : good (entry_of s fqn) n -> opens s fqn (Some c) s1 ->
  wp (byte_destroy c ;; mret None) (fun r _ s' => opens_or_drops s fqn r s') s1.
Proof.
  intros Hgood (Hf & Hr & (e & He & Hid) & Hd). unfold byte_destroy. rewrite Hr, Hf. apply wp_bind.
  eapply wp_mono; [eapply release_delta; [by apply Hd|by rewrite He]|]. intros [] evs s2 Hd2. apply wp_ret. cbn [opens_or_drops].
  assert (is_Some (entry_of s1 fqn)) as Hs1 by (by rewrite He).
  pose proof (delta_trans _ _ _ _ _ _ Hs1 Hd Hd2) as Hd3. destruct (entry_of s fqn); exact Hd3.
Qed.

Lemma opens_weaken s fqn c s' : opens s fqn (Some c) s' -> opens_or_drops s fqn (Some c) s'.
Proof. done. Qed.

Lemma dial_opens s ep n : provisioned (k_member s) -> good (entry_of s (ep_address ep)) n ->
  wp (dial ep) (fun c _ s' => opens_or_drops s (ep_address ep) c s') s.
Proof.
  intros Hp Hgood. unfold dial. apply wp_bind. eapply wp_mono; [by eapply mux_open_opens|]. intros [c|] evs s1 Ho; apply wp_bind_gets.
  - destruct (m_has_dialed_cb _); [apply wp_bind_emit, wp_ret; by apply opens_weaken|]. by eapply opened_then_destroyed.
  - destruct Ho as [Hd He]. destruct (m_has_dial_failed_cb _); [apply wp_bind_emit|apply wp_bind_ret]; apply wp_ret; cbn; by rewrite He.
Qed.

Lemma listen_opens s ep n : provisioned (k_member s) -> good (entry_of s (ep_address ep)) n ->
  wp (listen ep) (fun c _ s' => opens_or_drops s (ep_address ep) c s') s.
Proof.
  intros Hp Hgood. unfold listen. apply wp_bind. eapply wp_mono; [by eapply mux_open_opens|]. intros [c|] evs s1 Ho; apply wp_bind_gets.
  - destruct (m_has_accepted_cb _); [apply wp_bind_emit, wp_ret; by apply opens_weaken|]. by eapply opened_then_destroyed.
  - destruct Ho as [Hd He]. apply wp_ret. cbn. by rewrite He.
Qed.

Lemma mint_opens s fqn n : provisioned (k_member s) -> good (entry_of s fqn) n ->
  wp (mint_companion fqn) (fun c _ s' => opens_or_drops s fqn c s') s.
Proof.
  intros Hp Hgood. unfold mint_companion. eapply wp_mono; [by eapply (mux_open_opens s (IoEndpoint (text "shm") fqn))|].
  intros [c|] evs s1 Ho; [done|]. destruct Ho as [Hd He]. cbn in *. by rewrite He.
Qed.

Definition settles (w : world) (o : op) : Prop := exists w' evs, step w o = Some (w', evs) /\ winv w'.

(** A member operation run on a process. *)
Lemma run_wp {A} (m : act A) Q w : wp m Q (w_machine w) ->
  exists x evs s', run m w = Some (x, evs, World s' (w_held w) (w_next w)) /\ Q x evs s'.
Proof. intros (x & evs & s' & Hm & HQ). exists x, evs, s'. split; [|done]. unfold run. by rewrite Hm. Qed.

Lemma open_with_winv w m fqn probe : winv w -> fresh_open w fqn probe ->
  wp m (fun c _ s' => opens_or_drops (w_machine w) fqn c s') (w_machine w) ->
  exists w' evs, open_with m probe w = Some (w', evs) /\ winv w'.
Proof.
  intros Hw Hfr Hm. destruct (run_wp m _ w Hm) as (c & evs & s' & Hrun & Ho). unfold open_with. rewrite Hrun. cbn [mbind option_bind w_machine w_held w_next].
  eexists _, evs. split; [done|]. destruct probe as [i|]; cbn [fresh_open] in Hfr.
  - destruct (holder_entry w i _ fqn Hw Hfr eq_refl) as [e0 He0]. unfold opens_or_drops in Ho. rewrite He0 in Ho. destruct c as [c|].
    + destruct Ho as (Hf & Hr & He & Hd). by eapply winv_take_over.
    + by eapply winv_drop.
  - unfold opens_or_drops in Ho. rewrite Hfr in Ho. destruct c as [c|].
    + destruct Ho as (Hf & Hr & He & Hd). eapply winv_hold; [done|done|cbn; by rewrite Hr, Hf|]. intros c' [= <-]. by rewrite Hf.
    + by eapply winv_same.
Qed.

Lemma deref_held w i c : winv w -> w_held w !! i = Some (HeldChannel c) -> bc_released c = false ->
  wp (deref c) (fun e evs s' => evs = [] /\ s' = w_machine w) (w_machine w).
Proof.
  intros Hw Hi Hr. destruct (wi_channels w Hw i c Hi Hr) as (e & He & Hid). unfold deref. apply wp_bind_gets. fold (entry_of (w_machine w) (bc_fqn c)).
  rewrite He. cbn [mbind option_bind]. rewrite (proj2 (Nat.eqb_eq _ _) Hid). by exists e, [], (w_machine w).
Qed.

Lemma pump_held w i c cb : winv w -> w_held w !! i = Some (HeldChannel c) -> bc_released c = false ->
  wp (byte_pump (ByteChannel (bc_fqn c) (bc_entry c) (bc_remote c) (bc_released c) cb)) (fun _ _ s' => s' = w_machine w) (w_machine w).
Proof.
  intros Hw Hi Hr. unfold byte_pump. destruct cb; cbn [negb bc_has_data_cb]; [|by apply wp_ret]. apply wp_bind.
  eapply wp_mono; [exact (deref_held w i c Hw Hi Hr)|]. intros e evs s' [-> ->]. by apply wp_emit.
Qed.

Lemma sink_delta s fqn e sink : entry_of s fqn = Some e ->
  delta s (with_member (with_entries <[(fqn, dir_request) := with_sink sink e]>) s) fqn 0.
Proof.
  intros He. eapply delta_put; [done|done| |].
  - rewrite He. intros n. by rewrite Z.add_0_r.
  - intros e1 He1. rewrite He in He1. by simplify_eq.
Qed.

Lemma probe_settles w ep : winv w -> settles w (OpProbe ep).
Proof.
  intros Hw. unfold settles. cbn [step]. set (fqn := ep_address ep).
  assert (wp (can_acquire ep) (fun ok _ s' => delta (w_machine w) s' fqn (if (ok : bool) then 1 else 0)) (w_machine w)) as Hm.
  { unfold can_acquire. apply wp_bind_gets. fold fqn. case_bool_decide; [apply wp_ret, delta_refl|]. apply wp_bind.
    eapply wp_mono; [eapply acquire_delta; [|apply Hw]; by apply geometry_for_provided, resolved_provided, Hw|]. cbn beta. intros v evs s' Hv. apply wp_ret.
    case_decide as Hf; [subst; rewrite bool_decide_true by done; by destruct Hv|]. rewrite bool_decide_false by done. by destruct Hv. }
  destruct (run_wp _ _ w Hm) as (ok & evs & s' & -> & Hd). cbn [mbind option_bind]. eexists _, _. split; [done|]. destruct ok.
  - eapply winv_hold; [done|done|done|]. intros c [=].
  - by eapply winv_same.
Qed.

Lemma abandon_settles w i fqn : winv w -> w_held w !! i = Some (HeldProbe fqn) -> settles w (OpAbandon i).
Proof.
  intros Hw Hi. unfold settles. cbn [step]. rewrite Hi.
  assert (wp (abandon (IoEndpoint (text "shm") fqn)) (fun _ _ s' => delta (w_machine w) s' fqn (-1)) (w_machine w)) as Hm.
  { eapply release_delta; [apply Hw|]. by eapply holder_entry. }
  destruct (run_wp _ _ w Hm) as (x & evs & s' & -> & Hd). cbn [mbind option_bind w_machine w_held w_next]. eexists _, _. split; [done|]. by eapply winv_drop.
Qed.

Lemma receive_settles w fqn on_frame : winv w -> settles w (OpMintReceive fqn on_frame).
Proof.
  intros Hw. unfold settles. cbn [step].
  assert (wp (mint_receive_companion fqn on_frame) (fun ok _ s' => delta (w_machine w) s' fqn (if (ok : bool) then 1 else 0)) (w_machine w)) as Hm.
  { unfold mint_receive_companion. apply wp_bind. eapply wp_mono; [eapply acquire_resolved_delta; apply Hw|]. cbn beta. intros v evs s1 Hv.
    case_decide as Hf; [subst; rewrite bool_decide_true by done; apply wp_ret; by destruct Hv|]. rewrite bool_decide_false by done. destruct Hv as [Hd [e He] ].
    apply wp_bind. unfold set_consumer_sink. apply wp_bind_gets. fold (entry_of s1 fqn). rewrite He. apply wp_bind_modify. unfold deliver_pending.
    assert (delta (w_machine w) (with_member (with_entries <[(fqn, dir_request) := with_sink (Some on_frame) e]>) s1) fqn (1 + 0)) as Hd2.
    { eapply delta_trans; [by rewrite He|done|]. by apply sink_delta. }
    destruct (e_channel _); [apply wp_emit|apply wp_ret]; by apply wp_ret. }
  destruct (run_wp _ _ w Hm) as (ok & evs & s' & -> & Hd). cbn [mbind option_bind]. eexists _, _. split; [done|]. destruct ok.
  - eapply winv_hold; [done|done|done|]. intros c [=].
  - by eapply winv_same.
Qed.

Lemma use_settles w i c o : winv w -> w_held w !! i = Some (HeldChannel c) -> bc_released c = false ->
  (exists payload st, o = OpSend i payload st) \/ o = OpPump i \/ o = OpOnData i -> settles w o.
Proof.
  intros Hw Hi Hr Ho. unfold settles. assert (held_channel w i = Some c) as Hh by (unfold held_channel; by rewrite Hi).
  destruct Ho as [(payload & st & ->) | [-> | ->] ]; cbn [step]; rewrite Hh; cbn [mbind option_bind].
  - assert (wp (byte_send c payload st) (fun _ _ s' => s' = w_machine w) (w_machine w)) as Hm.
    { unfold byte_send. apply wp_bind. eapply wp_mono; [exact (deref_held w i c Hw Hi Hr)|]. intros e evs s' [-> ->]. apply wp_bind_emit.
      destruct st; try (by apply wp_ret); by apply wp_bind_emit, wp_emit. }
    destruct (run_wp _ _ w Hm) as (x & evs & s' & -> & ->). cbn [mbind option_bind]. eexists _, _. split; [done|]. by destruct w.
  - assert (wp (byte_pump c) (fun _ _ s' => s' = w_machine w) (w_machine w)) as Hm.
    { pose proof (pump_held w i c (bc_has_data_cb c) Hw Hi Hr) as Hp. by destruct c. }
    destruct (run_wp _ _ w Hm) as (x & evs & s' & -> & ->). cbn [mbind option_bind]. eexists _, _. split; [done|]. by destruct w.
  - set (c' := ByteChannel (bc_fqn c) (bc_entry c) (bc_remote c) (bc_released c) true).
    assert (wp (byte_on_data c) (fun x _ s' => x = c' /\ s' = w_machine w) (w_machine w)) as Hm.
    { unfold byte_on_data. fold c'. apply wp_bind. eapply wp_mono; [exact (pump_held w i c true Hw Hi Hr)|]. intros [] evs s' ->. by apply wp_ret. }
    destruct (run_wp _ _ w Hm) as (x & evs & s' & -> & -> & ->). cbn [mbind option_bind w_machine w_held w_next]. eexists _, _. split; [done|].
    eapply (winv_change w _ i c c' 0); [done|done|done|done|done|apply delta_refl|]. cbn. by rewrite Hr.
Qed.

Lemma close_settles w i c : winv w -> w_held w !! i = Some (HeldChannel c) -> settles w (OpClose i).
Proof.
  intros Hw Hi. unfold settles. cbn [step]. assert (held_channel w i = Some c) as -> by (unfold held_channel; by rewrite Hi). cbn [mbind option_bind].
  destruct (bc_released c) eqn:Hr.
  - unfold run, byte_close. rewrite Hr. cbn. rewrite insert_id by done. eexists _, _. split; [done|]. by destruct w.
  - set (c' := ByteChannel (bc_fqn c) (bc_entry c) (bc_remote c) true (bc_has_data_cb c)).
    assert (wp (byte_close c) (fun x _ s' => x = c' /\ delta (w_machine w) s' (bc_fqn c) (-1)) (w_machine w)) as Hm.
    { unfold byte_close. rewrite Hr. apply wp_bind. eapply wp_mono; [eapply release_delta; [apply Hw|]|].
      - eapply holder_entry; [done|exact Hi|]. cbn. by rewrite Hr.
      - intros [] evs s' Hd. by apply wp_bind_emit, wp_ret. }
    destruct (run_wp _ _ w Hm) as (x & evs & s' & -> & -> & Hd). cbn [mbind option_bind w_machine w_held w_next]. eexists _, _. split; [done|].
    by eapply (winv_change w _ i c c' (-1)).
Qed.

Lemma destroy_settles w i h : winv w -> w_held w !! i = Some h -> (forall fqn, h <> HeldProbe fqn) -> settles w (OpDestroy i).
Proof.
  intros Hw Hi Hp. unfold settles. cbn [step]. rewrite Hi. cbn [mbind option_bind]. destruct h as [c|fqn|fqn]; [| |by destruct (Hp fqn)].
  - unfold byte_destroy. destruct (bc_released c) eqn:Hr.
    + unfold run. cbn. eexists _, _. split; [done|]. eapply winv_forget; [done|done|]. cbn. by rewrite Hr.
    + assert (wp (release (bc_fqn c) dir_request) (fun _ _ s' => delta (w_machine w) s' (bc_fqn c) (-1)) (w_machine w)) as Hm.
      { eapply release_delta; [apply Hw|]. eapply holder_entry; [done|exact Hi|]. cbn. by rewrite Hr. }
      destruct (run_wp _ _ w Hm) as (x & evs & s' & -> & Hd). cbn [mbind option_bind w_machine w_held w_next]. eexists _, _. split; [done|].
      eapply winv_drop; [done|done| |done]. cbn. by rewrite Hr.
  - destruct (holder_entry w i _ fqn Hw Hi eq_refl) as [e He].
    assert (wp (consumer_destroy fqn) (fun _ _ s' => delta (w_machine w) s' fqn (-1)) (w_machine w)) as Hm.
    { unfold consumer_destroy, clear_consumer_sink. apply wp_bind, wp_bind_gets. fold (entry_of (w_machine w) fqn). rewrite He. apply wp_modify.
      set (s1 := with_member _ _). pose proof (sink_delta (w_machine w) fqn e None He) as Hd1. fold s1 in Hd1.
      assert (is_Some (entry_of s1 fqn)) as Hs1 by (unfold entry_of, s1; cbn; by rewrite lookup_insert_eq).
      eapply wp_mono; [eapply release_delta; [apply Hd1, Hw|done]|]. cbn beta. intros x evs s' Hd2.
      exact (delta_trans _ _ _ _ _ _ Hs1 Hd1 Hd2). }
    destruct (run_wp _ _ w Hm) as (x & evs & s' & -> & Hd). cbn [mbind option_bind w_machine w_held w_next]. eexists _, _. split; [done|]. by eapply winv_drop.
Qed.

Lemma wake_settles w fqn id : winv w -> settles w (OpWake fqn id).
Proof.
  intros Hw. unfold settles. cbn [step].
  assert (wp (wake fqn dir_request id) (fun _ _ s' => s' = w_machine w) (w_machine w)) as Hm.
  { unfold wake. apply wp_bind_gets. destruct (m_entries _ !! _) as [e|]; [|by apply wp_ret].
    destruct (e_id e =? id)%nat; [|by apply wp_ret]. unfold deliver_pending. destruct (e_channel e); [by apply wp_emit|by apply wp_ret]. }
  destruct (run_wp _ _ w Hm) as (x & evs & s' & -> & ->). cbn [mbind option_bind]. eexists _, _. split; [done|]. by destruct w.
Qed.

Lemma member_change w (f : member -> member) : winv w -> m_entries (f (k_member (w_machine w))) = m_entries (k_member (w_machine w)) ->
  provisioned (f (k_member (w_machine w))) -> winv (World (with_member f (w_machine w)) (w_held w) (w_next w)).
Proof.
  intros [H1 H2 H3 H4] He Hp. constructor; cbn; try done; unfold entry_of in *; cbn; rewrite He; done.
Qed.

Lemma step_settles w o : winv w -> allowed w o -> settles w o.
Proof.
  intros Hw Ha. destruct o; cbn [allowed] in Ha.
  - eexists _, _. split; [done|]. apply member_change; [done|done|]. unfold set_topic_geometry, provisioned. cbn. intros f p.
    destruct (decide (f = fqn)) as [-> | Hf]; [rewrite lookup_insert_eq; by intros [= <-]|]. rewrite lookup_insert_ne by done. apply Hw.
  - eexists _, _. split; [done|]. apply member_change; [done|done|apply Hw].
  - by apply probe_settles.
  - destruct Ha as [fqn Hi]. by eapply abandon_settles.
  - eapply open_with_winv; [done|done|]. eapply dial_opens; apply Hw.
  - eapply open_with_winv; [done|done|]. eapply listen_opens; apply Hw.
  - eapply open_with_winv; [done|done|]. eapply mint_opens; apply Hw.
  - by apply receive_settles.
  - destruct Ha as (c & Hi & Hr). eapply use_settles; [done|done|done|]. left. by eauto.
  - destruct Ha as (c & Hi & Hr). eapply use_settles; [done|done|done|]. by right; right.
  - destruct Ha as (c & Hi & Hr). eapply use_settles; [done|done|done|]. by right; left.
  - destruct Ha as (c & Hi). by eapply close_settles.
  - destruct Ha as (h & Hi & Hh). eapply destroy_settles; [done|done|]. intros fqn ->. done.
  - by apply wake_settles.
Qed.

Lemma reachable_winv w : reachable w -> winv w.
Proof.
  induction 1 as [ns policy accepted dialed failed o|w o w' evs Hr IH Ha Hs|w o Hr IH].
  - apply winv_new.
  - destruct (step_settles w o IH Ha) as (w1 & evs1 & Hs1 & Hw1). by simplify_eq.
  - destruct IH as [H1 H2 H3 H4]. by constructor.
Qed.

(** ** What the member promises *)

(** C20: However a process provisions topics, probes, dials, listens, mints companions, sends,
    receives, closes and destroys its shared-memory channels, whatever the broker answers and
    whatever other processes do to the names in between: the next operation returns (no
    channel is used whose ring was torn down), every channel that was not closed refers to the
    ring that is in the table for its topic, and a topic has a ring exactly while somebody
    holds a reference to it, counted exactly.  Assumed of the users ([allowed]): at most
    [k_max_consumers] provisioned consumers; no handle is used that is not held, and no channel
    after its close; and a channel of a topic whose ring is already there is opened with a
    probe of its own ([fresh_open]), because opening takes no reference then
    ([second_companion_dangles] shows the case the code does not guard); and of the notifier
    that a drain it posted does nothing once it is disarmed, as its liveness token has it. *)
Theorem shm_channels_never_dangle w o : reachable w -> allowed w o ->
  is_Some (step w o) /\
  (forall i c, w_held w !! i = Some (HeldChannel c) -> bc_released c = false ->
     exists e, entry_of (w_machine w) (bc_fqn c) = Some e /\ e_id e = bc_entry c) /\
  (forall fqn, match entry_of (w_machine w) fqn with
               | Some e => e_refcount e = Z.of_nat (refs (w_held w) fqn) /\ (0 < refs (w_held w) fqn)%nat
               | None => refs (w_held w) fqn = 0%nat
               end).
Proof.
  intros Hr Ha. pose proof (reachable_winv w Hr) as Hw. split_and!.
  - destruct (step_settles w o Hw Ha) as (w' & evs & -> & _). by eexists.
  - apply Hw.
  - intros fqn. pose proof (wi_refs w Hw fqn) as Hg. destruct (entry_of (w_machine w) fqn); cbn in Hg; [|lia]. destruct Hg as (? & ? & _). split; [done|lia].
Qed.

(** An acquire fails closed.  Whatever a first acquire of a topic meets (a slab over the
    ceiling, a broker that refuses, a name of another process whose policy or header does not
    fit, a failure at any system call), it returns; when it fails, the table and the
    provisions are as before and no name is left in the system that was not there; when it
    succeeds the topic has a ring with one reference.  The consumers asked for are at most
    [k_max_consumers]. *)
Theorem acquire_fails_closed s fqn direction max_payload mode cap amode :
  0 <= cap <= k_max_consumers -> m_entries (k_member s) !! (fqn, direction) = None ->
  exists v evs s', acquire fqn direction max_payload mode cap amode s = Some (v, evs, s') /\
    m_geometry (k_member s') = m_geometry (k_member s) /\
    if decide (v = ar_failed)
    then m_entries (k_member s') = m_entries (k_member s) /\ o_names (k_os s') ⊆ o_names (k_os s) /\ evs = []
    else exists e, m_entries (k_member s') = <[(fqn, direction) := e]> (m_entries (k_member s)) /\ e_refcount e = 1 /\ e_verdict e = v.
Proof.
  intros Hcap He. enough (wp (acquire fqn direction max_payload mode cap amode) (fun v evs s' =>
    m_geometry (k_member s') = m_geometry (k_member s) /\
    if decide (v = ar_failed)
    then m_entries (k_member s') = m_entries (k_member s) /\ o_names (k_os s') ⊆ o_names (k_os s) /\ evs = []
    else exists e, m_entries (k_member s') = <[(fqn, direction) := e]> (m_entries (k_member s)) /\ e_refcount e = 1 /\ e_verdict e = v) s)
    as (v & evs & s' & Hrun & Hq) by (by exists v, evs, s').
  unfold acquire. apply wp_bind_gets. rewrite He. apply wp_bind, wp_modify. cbn beta. set (s1 := with_member _ _). apply wp_bind.
  eapply wp_mono; [apply (topic_open_ring_opened s1); by apply geometry_for_provided|]. intros [v e] evs s2 (-> & [f Hm] & Hring & Hn). cbn [app fst snd] in *.
  assert (m_geometry (k_member s2) = m_geometry (k_member s) /\ m_entries (k_member s2) = m_entries (k_member s)) as [Hg2 He2] by (by rewrite Hm).
  assert (v = ar_failed \/ exists ring, v <> ar_failed /\ op_ring e = Some ring) as [-> | (ring & Hv & Hr)].
  { destruct (decide (v = ar_failed)) as [?|Hv]; [by left|right]. destruct (Hring Hv) as [ring ?]. eauto. }
  - apply wp_on_os, wp_ret. rewrite decide_True by done. by split_and!.
  - rewrite Hr. destruct v; [| |done].
    all: apply wp_bind_gets, wp_bind_modify, wp_bind_emit, wp_bind_modify, wp_ret; rewrite decide_False by done.
    all: split; [done|]; eexists; split; [cbn; by rewrite He2|done].
Qed.

End Posix.

(** ** Runs *)

#[local] Instance linux : Posix := { apple := false; page_size := 4096; page_bounds := ltac:(lia) }.

Definition blank_os (faults : list fault) : os := Os ∅ ∅ 0 faults.
Definition first_world : world := world_new [] (fun _ => true) true true true (blank_os []).
Definition imu : io_endpoint := IoEndpoint (text "shm") (text "imu").

Fixpoint steps (w : world) (ops : list op) : option (world * list event) :=
  match ops with
  | [] => Some (w, [])
  | o :: ops => '(w, evs) ← step w o; '(w, evs') ← steps w ops; Some (w, evs ++ evs')
  end.

(** A probe, the dial that takes it over, and a second probe beside it. *)
Definition probed : world := from_option fst first_world (step first_world (OpProbe imu)).
Definition dialed : world := from_option fst first_world (step probed (OpDial imu (Some 0%nat))).
Definition probed_again : world := from_option fst first_world (step dialed (OpProbe imu)).

Lemma reachable_to w o w' : reachable w -> allowed w o -> from_option fst first_world (step w o) = w' -> option_map (fun _ => tt) (step w o) = Some tt -> reachable w'.
Proof. intros Hr Ha Hs Hw. destruct (step w o) as [ [w1 evs]|] eqn:Hw'; [clear Hw; rename Hw' into Hw|done]. cbn in Hs. subst w1. by eapply ReachStep. Qed.

Lemma probed_again_reachable : reachable probed_again.
Proof.
  assert (reachable first_world) as H0 by apply ReachNew.
  assert (reachable probed) as H1 by (eapply (reachable_to first_world (OpProbe imu)); [done|exact I|done|by vm_compute]).
  assert (reachable dialed) as H2 by (eapply (reachable_to probed (OpDial imu (Some 0%nat))); [done|by vm_compute|done|by vm_compute]).
  eapply (reachable_to dialed (OpProbe imu)); [done|exact I|done|by vm_compute].
Qed.

Lemma shm_channels_never_dangle_witness :
  refs (w_held probed_again) (text "imu") = 2%nat /\ is_Some (step probed_again (OpSend 1 [Byte.x01] st_ok)) /\
  match entry_of (w_machine probed_again) (text "imu") with
  | Some e => e_refcount e = Z.of_nat (refs (w_held probed_again) (text "imu")) /\ (0 < refs (w_held probed_again) (text "imu"))%nat
  | None => refs (w_held probed_again) (text "imu") = 0%nat
  end.
Proof.
  destruct (shm_channels_never_dangle probed_again (OpSend 1 [Byte.x01] st_ok) probed_again_reachable) as (H1 & _ & H3).
  - eexists. split; [vm_compute; reflexivity|reflexivity].
  - split; [vm_compute; reflexivity|]. split; [exact H1|exact (H3 (text "imu"))].
Defined.

Definition full_disk : machine := Machine (member_new [] (fun _ => true) true true true) (blank_os [Fault None None (Some ENOSPC) None false]).

Lemma acquire_fails_closed_witness :
  exists v evs s', acquire (text "imu") dir_request 64 reliable_preserving 0 reclaim_stale full_disk = Some (v, evs, s') /\
    v = ar_failed /\ o_names (k_os s') ⊆ ∅ /\ m_entries (k_member s') = ∅.
Proof.
  destruct (acquire_fails_closed full_disk (text "imu") dir_request 64 reliable_preserving 0 reclaim_stale) as (v & evs & s' & Hrun & _ & Hv).
  - unfold k_max_consumers. lia.
  - reflexivity.
  - assert (option_map (fun x => x.1.1) (acquire (text "imu") dir_request 64 reliable_preserving 0 reclaim_stale full_disk) = Some ar_failed) as Hf
      by (vm_compute; reflexivity).
    rewrite Hrun in Hf. injection Hf as Hf. exists v, evs, s'. split; [exact Hrun|]. split; [exact Hf|].
    rewrite decide_True in Hv by exact Hf. destruct Hv as (H1 & H2 & _). split; [exact H2|exact H1].
Defined.

(** Two companions of one topic share one reference: opening the second finds the ring in the
    table and takes none, so when the first is destroyed the ring goes and the second, still
    held by its peer, refers to nothing. *)
Theorem second_companion_dangles :
  let twice := [OpMint (text "imu") None; OpMint (text "imu") None; OpDestroy 0] in
  (exists w evs, steps first_world twice = Some (w, evs) /\ is_Some (held_channel w 1) /\ entry_of (w_machine w) (text "imu") = None) /\
  steps first_world (twice ++ [OpSend 1 [Byte.x01] st_ok]) = None.
Proof. cbv zeta. split; [|vm_compute; reflexivity]. eexists _, _. split; [vm_compute; reflexivity|]. split; [by eexists; vm_compute|vm_compute; reflexivity]. Qed.

(** A subscriber that mints first makes slots for small messages, and a publisher that joins the
    ring routes its larger ones to it all the same. *)
Definition subscriber_first : option (world * list event) :=
  '(w, evs) ← steps first_world [OpMintReceive (text "cam") 1];
  steps w [OpGeometry (text "cam") 100000 (ShmGeometry 4 reliable_preserving)].

Theorem late_publisher_outgrows_the_ring :
  match subscriber_first with
  | Some (w, _) =>
      option_map (fun e => m_slot_capacity (e_ring e)) (entry_of (w_machine w) (text "cam")) = Some 4096 /\
      option_map (fun fits => fits 100000) (companion_route (k_member (w_machine w)) (text "cam")) = Some true
  | None => False
  end.
Proof. vm_compute. split; reflexivity. Qed.

End ShmLifetime.
